(* ===== verification/_CoqProject ===== *)
-Q . S2P
Prelude.v
Conc.v
Wire.v
Bodies.v
SmallFloat.v
Dll.v
OffsetAlloc.v
AllocBins.v
AllocInv.v
AllocSpec.v
Tenant.v
Eviction.v
BlockRef.v
Index.v
DramStore.v
DramInv.v
DramEvict.v
DramSpec.v
S3Fifo.v
S3FifoInv.v
S3FifoSpec.v
DramRefine.v
NvmeFormat.v
NvmeVolume.v
NvmeSpill.v
NvmeIndex.v
NvmeLog.v
NvmeInv.v
NvmeRead.v
NvmeCrash.v
NvmeScan.v
NvmeRecover.v
NvmeTotal.v
NvmeSpec.v
Tiered.v
TieredVol.v
TieredDram.v
TieredInv.v
TieredActs.v
TieredMoves.v
TieredSurface.v
TieredLatch.v
TieredCold.v
TieredRetire.v
TieredRestore.v
TieredDemote.v
TieredBoot.v
TieredOpen.v
TieredSpec.v
TieredServe.v
TieredReads.v
TieredAlone.v
TieredDemo.v
Credit.v
ServerState.v
Transport.v
Session.v
Server.v
ServerInv.v
ServerTable.v
ServerActs.v
ServerMoves.v
ServerLife.v
ServerSafe.v
ServerLoops.v
ServerTame.v
ServerSpec.v
RamStub.v
ServerDemo.v
