(* ===== verification/Prelude.v ===== *)
(** * A verification of kvblockd

    kvblockd serves immutable, content-addressed cache blocks over TCP. A
    client frames a request ([internal/protocol]); a connection
    ([internal/transport]) hands it to a session ([internal/server]), which
    authenticates a tenant ([internal/tenant]) and calls the store
    ([internal/store]). Blocks live in a DRAM arena ([store/dram]), evicted by
    a policy ([internal/eviction]); what is evicted may be demoted to a
    log-structured NVMe volume ([store/nvme]) and spilled to S3.

    ** Conventions

    Go functions are Rocq functions on the Go data: a struct is a [Record] with
    the same fields, a w-bit integer is a [Z] with its wrap-around written out
    ([u32], [i64], ...), a byte slice is a [list byte], a map is a [gmap], a
    pointer that is shared is an address into a heap. A Go panic is [None] (or
    [Panic]); Go errors are values. Stateful code runs in a state monad
    ([Prelude.sm]; [NvmeVolume.Nvme.M] for code that does I/O). What the code
    takes from outside is an argument or a class field, with what is relied on
    as a law: hash functions of other packages ([Xxh3]; SHA-256 in [Tenant]),
    per-process random seeds and Go's map order ([IndexEnv], [World]), the
    clock, and the outcome of every system call ([World.io]). Operations that
    take several locks one after the other are split into their critical
    sections, and concurrent behaviour is a step relation over those.

    ** Files

    - [Prelude]: this header, machine integers, slices, little-endian fields,
      the state monad, lists, and the tactics the other files use.
    - [Wire], [Bodies]: [protocol/ops.go], [crc.go], [header.go], [batch.go].
      The header parser inverts the marshaller, is total, canonical, and detects
      burst errors; body decoders are total and strict.
    - [SmallFloat], [Dll], [OffsetAlloc], [AllocBins], [AllocInv], [AllocSpec]:
      [dram/offsetalloc.go]. [Alloc] and [Free] refine a map from handles to
      disjoint ranges; the report is exact; storage is conserved.
    - [Tenant]: [tenant/registry.go], [quota.go]. Authentication, and quota
      admission under any interleaving of the atomic operations.
    - [Eviction], [S3Fifo], [S3FifoInv], [S3FifoSpec]: the policy interface as a
      type class, the ghost ring, and [eviction/s3fifo.go] down to its linked
      queues, sequentially and under interleaved critical sections.
    - [BlockRef], [Index], [DramStore], [DramInv], [DramEvict], [DramSpec],
      [DramRefine]: [store/dram]. The store is verified against the interfaces
      [ExtentAlloc] and [Policy]; [DramRefine] closes it over the real allocator
      and shows that it is a lossy write-once cache whose open views never
      change and whose accounting is exact.
    - [NvmeFormat], [NvmeVolume], [NvmeLog]: [store/nvme]: the on-disk formats,
      the volume with writer, reads, checkpoints, reclaim and recovery, and logs
      and seals as facts on bytes.
    - [NvmeInv], [NvmeRead], [NvmeTotal]: weakest preconditions with crash
      conditions, the invariant of an open volume under every call and every
      outcome of its system calls, reads, and that only a power failure ends a
      call early.
    - [NvmeCrash], [NvmeScan], [NvmeRecover], [NvmeSpec]: what survives a power
      failure, that recovery rebuilds it, and the theorems over whole lifetimes.
    - [Conc]: handlers as programs of atomic actions, their interleavings, and
      the proof rules the tiers and the server use: an invariant with the tokens
      each handler owns, a guarantee every action keeps, and absence of panics.
    - [NvmeSpill], [NvmeIndex], [Tiered]: [store/nvme/spillsurface.go],
      [store/nvmeindex.go], [tiered.go], [demote.go] and [s3tier.go]: every
      request handler and background pass over the DRAM store, the volumes and
      the object store, cut into atomic actions.
    - [TieredVol], [TieredDram], [TieredInv], [TieredActs], [TieredMoves],
      [TieredSurface], [TieredLatch], [TieredCold], [TieredRetire],
      [TieredRestore], [TieredDemote], [TieredBoot], [TieredOpen]: what the tiers
      rely on in a volume and in the DRAM store, the invariant of all
      interleavings, and that every handler keeps it, from construction on.
    - [TieredSpec], [TieredServe], [TieredReads]: what the tiers promise whatever
      runs beside what: entries always have a home, the object of a record that
      needs it is never collected, accounting is exact, latches and slots are
      given back, pins and leases hold, and a read serves only verified bytes.
    - [TieredAlone]: EXISTS and DELETE run by themselves, and that the reclaim
      loop ends. [TieredDemo]: a small store at work, with the interleavings in
      which a DELETE misses a block, a promotion revives one, and a PUT
      overwrites one.
    - [Credit], [ServerState], [Transport], [Session], [Server]: the credit window
      ([transport/credit.go]), the loops of a connection ([conn.go], [listener.go]),
      its session with every verb ([server/session.go], [handlers.go],
      [putstream.go]) and the server around them ([server.go]), as programs of
      atomic actions over one shared state. The store is the class [BlockStore],
      with the optional methods of the Go interfaces; what peers send, what the
      network and the clock do, and which ready case a [select] takes are the
      environment's.
    - [ServerInv], [ServerTable], [ServerActs], [ServerMoves], [ServerLife],
      [ServerSafe], [ServerLoops]: the invariant of a server, with tokens for what
      each goroutine holds, and that every handler and loop keeps it.
      [ServerTame]: that no handler panics over a store of class [TameStore].
    - [ServerSpec]: tenants are isolated, committed blocks are verified, credit is
      conserved, requests are answered, references on blocks come back, streams
      stay within their caps, and the store is not used after it is closed.
    - [RamStub]: [store/ramstub], an instance of both classes. [ServerDemo]: a
      server over it serving a client, and a session that reserves more staging
      memory than its cap.

    ** Bounds and fuel

    Where a Go loop is not structural, the model takes fuel and the theorems
    show that the fuel given suffices: running out is a panic of the model, and
    panics are excluded. The scan of a segment has its length as fuel, one turn
    of the NVMe writer three units per queued request, the victim scan of
    S3-FIFO the visit budget of the code. Segment ids are 32-bit; theorems about
    lifetimes assume that they have not been used up, and runs of the tiers that
    no volume has handed out 2^31 ids and no tenant holds 2^62 bytes in a tier
    ([TieredActs]). The reclaim loop of a volume has twelve rounds, which
    [reclaim_terminates] shows to be all it ever makes. The read loop of a
    connection has one unit of fuel per byte of input and one more; a batch GET one
    per key; a write one per slice; [server_never_panics] shows them enough. The
    drain at a connection's end has the queue's length, which nothing extends then
    ([ServerLoops]).

    ** What a power failure may do

    [NvmeLog.survives]: each file keeps its length and every byte outside the
    ranges written since its last successful sync; the bytes inside are
    arbitrary, subject to [NvmeCrash.honest_image]: a footer whose CRC verifies
    is one that was written for this segment, and whole records in the torn
    range leave room for the footer, as everything the writer stages does.
    Directory entries (create, rename, unlink) take effect when the call
    returns.

    ** Not modelled

    Socket options, HTTP, the S3 client and mmap (the object store is an environment
    that answers each call as it likes); the JSON edit that scopes the statistics
    document to a tenant (a parameter of [Session]); the retry of transient accept
    errors; configuration files, the clients and the command-line tools; goroutine
    scheduling beyond the step relations named above: a call of a DRAM or volume
    method is one action of the tiers; the handshake between a
    cancelled NVMe read and its reader; the crash theorems of [NvmeSpec] are about
    volumes into which no downloaded segment was adopted; goroutine start and
    stop, deadlines, test handles, scrubbing, logging and metrics. The components
    of the manifest list every part of the repository with its status. *)

From Stdlib Require Import ZArith Lia.
From coqutil Require Import Byte Word.LittleEndianList.
From stdpp Require Import base gmap list sorting.
Local Open Scope Z_scope.

(** ** Go's fixed-width integers, kept as [Z] with the wrap-around written out *)

Definition u8 (z : Z) : Z := z `mod` 2 ^ 8.
Definition u16 (z : Z) : Z := z `mod` 2 ^ 16.
Definition u32 (z : Z) : Z := z `mod` 2 ^ 32.
Definition u64 (z : Z) : Z := z `mod` 2 ^ 64.

Lemma u32_small z : 0 <= z < 2 ^ 32 -> u32 z = z.
Proof. intros Hz. unfold u32. by rewrite Z.mod_small. Qed.

(** [fits w z]: [z] is a value of an unsigned [w]-bit integer. *)
Definition fits (w : Z) (z : Z) : Prop := 0 <= z < 2 ^ w.

(** A signed integer of width [w] from an integer: two's complement wrap.
    [sint iw] is Go's conversion to [int] on a platform with [iw]-bit words. *)
Definition sint (w : Z) (z : Z) : Z := (z + 2 ^ (w - 1)) `mod` 2 ^ w - 2 ^ (w - 1).

(** Go's [&^] (bit clear) on unsigned values. *)
Definition andnot (x y : Z) : Z := Z.land x (Z.lnot y).

Declare Scope go_scope.
Delimit Scope go_scope with go.
Notation "x &^ y" := (andnot x y) (at level 40, left associativity) : go_scope.
Notation "x <<| n" := (Z.shiftl x n) (at level 39, left associativity) : go_scope.
Notation "x >>| n" := (Z.shiftr x n) (at level 39, left associativity) : go_scope.
Open Scope go_scope.

(** ** Byte slices

    A Go slice is the list of its elements. An expression that panics in Go
    is [None]; every function that can panic returns an [option]. Slices are
    cut against their length (Go allows a two-index slice to run on to the
    capacity), so [None] here is never weaker than Go's panic. *)

Abbreviation bytes := (list Init.Byte.byte).

Definition len {A} (l : list A) : Z := Z.of_nat (length l).

(** [b[lo:hi]]. *)
Definition slice {A} (b : list A) (lo hi : Z) : option (list A) :=
  if (0 <=? lo) && (lo <=? hi) && (hi <=? len b)
  then Some (take (Z.to_nat (hi - lo)) (drop (Z.to_nat lo) b))
  else None.

(** [b[lo:]]. *)
Definition slice_from {A} (b : list A) (lo : Z) : option (list A) :=
  slice b lo (len b).

(** [b[i]]. *)
Definition index {A} (b : list A) (i : Z) : option A :=
  if 0 <=? i then b !! Z.to_nat i else None.

(** [b[i] = x] on an element of a slice or array. *)
Definition store {A} (b : list A) (i : Z) (x : A) : option (list A) :=
  if (0 <=? i) && (i <? len b) then Some (<[Z.to_nat i := x]> b) else None.

(** [copy(dst[off:], src)]: at most the room there is. *)
Definition copy_at (dst : bytes) (off : Z) (src : bytes) : option bytes :=
  if (0 <=? off) && (off <=? len dst) then
    let n := Nat.min (length src) (length dst - Z.to_nat off) in
    Some (take (Z.to_nat off) dst ++ take n src ++ drop (Z.to_nat off + n) dst)
  else None.

(** [binary.LittleEndian.UintN(b)], [n] bytes; panics on a short slice. *)
Definition le_get (n : nat) (b : bytes) : option Z :=
  if Z.of_nat n <=? len b then Some (le_combine (take n b)) else None.

(** [binary.LittleEndian.UintN(b[off:])]. *)
Definition le_at (n : nat) (b : bytes) (off : Z) : option Z :=
  s ← slice_from b off; le_get n s.

(** [binary.LittleEndian.PutUintN(b[off:], v)]; panics on a short slice. *)
Definition le_put (n : nat) (b : bytes) (off : Z) (v : Z) : option bytes :=
  s ← slice_from b off;
  if Z.of_nat n <=? len s then copy_at b off (le_split n v) else None.

(** [binary.LittleEndian.AppendUintN(dst, v)]. *)
Definition le_append (n : nat) (dst : bytes) (v : Z) : bytes := dst ++ le_split n v.

Definition zeros (n : nat) : bytes := replicate n Byte.x00.
Definition byte_at (b : bytes) (i : Z) : option Z := byte.unsigned <$> index b i.

(** ** Hint databases and tactics *)

Create HintDb kv discriminated.
#[export] Hint Constants Opaque : kv.
#[export] Hint Variables Opaque : kv.

Ltac destruct_ands :=
  repeat match goal with
         | H : _ /\ _ |- _ => destruct H
         | H : exists _, _ |- _ => destruct H
         end.

(** Turn the boolean tests of the source into propositions. *)
Ltac bool_props :=
  repeat match goal with
         | H : context [andb _ _ = true] |- _ => rewrite andb_true_iff in H
         | H : context [andb _ _ = false] |- _ => rewrite andb_false_iff in H
         | H : context [orb _ _ = true] |- _ => rewrite orb_true_iff in H
         | H : context [orb _ _ = false] |- _ => rewrite orb_false_iff in H
         | H : negb _ = true |- _ => apply negb_true_iff in H
         | H : negb _ = false |- _ => apply negb_false_iff in H
         | H : (_ =? _) = true |- _ => apply Z.eqb_eq in H
         | H : (_ =? _) = false |- _ => apply Z.eqb_neq in H
         | H : (_ <=? _) = true |- _ => apply Z.leb_le in H
         | H : (_ <=? _) = false |- _ => apply Z.leb_gt in H
         | H : (_ <? _) = true |- _ => apply Z.ltb_lt in H
         | H : (_ <? _) = false |- _ => apply Z.ltb_ge in H
         | H : bool_decide _ = true |- _ => apply bool_decide_eq_true in H
         | H : bool_decide _ = false |- _ => apply bool_decide_eq_false in H
         end; destruct_ands.

(** Case analysis on the next conditional or match of the goal. *)
Ltac case_if :=
  match goal with
  | |- context [if ?b then _ else _] =>
      match b with
      | context [if _ then _ else _] => fail 1
      | _ => let E := fresh "Hif" in destruct b eqn:E
      end
  end.

Ltac case_if_in H :=
  match type of H with
  | context [if ?b then _ else _] =>
      let E := fresh "Hif" in destruct b eqn:E
  end.

(** ** Lengths *)

Lemma len_nonneg {A} (l : list A) : 0 <= len l.
Proof. unfold len; lia. Qed.

Lemma len_app {A} (l k : list A) : len (l ++ k) = len l + len k.
Proof. unfold len; rewrite length_app; lia. Qed.

Lemma len_nil {A} : len (@nil A) = 0.
Proof. done. Qed.

Lemma len_cons {A} (x : A) l : len (x :: l) = 1 + len l.
Proof. unfold len; simpl; lia. Qed.

Lemma len_le_split n z : len (le_split n z) = Z.of_nat n.
Proof. unfold len; by rewrite length_le_split. Qed.

Lemma len_zeros n : len (zeros n) = Z.of_nat n.
Proof. unfold len, zeros; by rewrite length_replicate. Qed.

Lemma len_insert {A} i (x : A) l : len (<[i:=x]> l) = len l.
Proof. unfold len; by rewrite length_insert. Qed.

Lemma len_replicate {A} n (x : A) : len (replicate n x) = Z.of_nat n.
Proof. unfold len; by rewrite length_replicate. Qed.

Lemma len_fmap {A B} (f : A -> B) l : len (f <$> l) = len l.
Proof. unfold len; by rewrite length_fmap. Qed.

Create Rewrite HintDb len.
#[export] Hint Rewrite @len_app @len_nil @len_cons len_le_split len_zeros @len_insert
  @len_replicate @len_fmap : len.

(** Evaluate [Z.of_nat] of numerals. *)
Ltac of_nat_simpl :=
  repeat match goal with
         | |- context [Z.of_nat ?n] =>
             let v := eval vm_compute in (Z.of_nat n) in
             lazymatch v with Z0 => idtac | Z.pos _ => idtac end;
             progress change (Z.of_nat n) with v
         | H : context [Z.of_nat ?n] |- _ =>
             let v := eval vm_compute in (Z.of_nat n) in
             lazymatch v with Z0 => idtac | Z.pos _ => idtac end;
             progress change (Z.of_nat n) with v in H
         end.

Ltac len_simpl := autorewrite with len in *; of_nat_simpl.
Ltac len_lia := len_simpl; unfold len in *; simpl in *; lia.

(** ** Slices of concatenations *)

Lemma slice_skip {A} (a b : list A) lo hi :
  len a <= lo -> slice (a ++ b) lo hi = slice b (lo - len a) (hi - len a).
Proof.
  intros Ha. unfold slice. rewrite len_app.
  replace (lo - len a <=? hi - len a) with (lo <=? hi) by lia.
  replace (hi - len a <=? len b) with (hi <=? len a + len b) by lia.
  pose proof (len_nonneg a).
  replace (0 <=? lo - len a) with true by lia. replace (0 <=? lo) with true by lia.
  case_if; [|done]. f_equal. f_equal; [lia|].
  rewrite drop_app_ge by (unfold len in *; lia). f_equal. unfold len in *; lia.
Qed.

Lemma slice_here {A} (a b : list A) n : n = len a -> slice (a ++ b) 0 n = Some a.
Proof.
  intros ->. unfold slice. pose proof (len_nonneg a). pose proof (len_nonneg b).
  rewrite len_app. replace (_ && _ && _) with true by lia.
  rewrite drop_0, take_app_le by (unfold len; lia).
  rewrite take_ge by (unfold len; lia). done.
Qed.

Lemma slice_all {A} (a : list A) n : n = len a -> slice a 0 n = Some a.
Proof. intros ->. rewrite <- (app_nil_r a) at 1. by apply slice_here. Qed.

Lemma slice_some {A} (b : list A) lo hi :
  0 <= lo <= hi -> hi <= len b ->
  exists s, slice b lo hi = Some s /\ len s = hi - lo.
Proof.
  intros. unfold slice. replace (_ && _ && _) with true by lia.
  eexists; split; [done|]. unfold len in *. rewrite length_take, length_drop. lia.
Qed.

Lemma slice_len {A} (b : list A) lo hi s : slice b lo hi = Some s -> len s = hi - lo.
Proof.
  unfold slice. case_if; [|done]. intros [= <-]. bool_props.
  unfold len in *. rewrite length_take, length_drop. lia.
Qed.

(** A slice splits its source. *)
Lemma slice_split {A} (b : list A) lo hi s :
  slice b lo hi = Some s ->
  b = take (Z.to_nat lo) b ++ s ++ drop (Z.to_nat hi) b.
Proof.
  unfold slice. case_if; [|done]. intros [= <-]. bool_props.
  replace (Z.to_nat hi) with (Z.to_nat lo + Z.to_nat (hi - lo))%nat by lia.
  rewrite <- drop_drop. by rewrite !take_drop.
Qed.

Lemma slice_from_some {A} (b : list A) lo :
  0 <= lo <= len b -> slice_from b lo = Some (drop (Z.to_nat lo) b).
Proof.
  intros. unfold slice_from, slice. replace (_ && _ && _) with true by lia.
  rewrite take_ge; [done|]. rewrite length_drop. unfold len in *. lia.
Qed.

(** ** Little-endian fields *)

Lemma le_get_some n b : Z.of_nat n <= len b -> le_get n b = Some (le_combine (take n b)).
Proof. intros. unfold le_get. by replace (_ <=? _) with true by lia. Qed.

Lemma le_at_val n b off :
  0 <= off -> off + Z.of_nat n <= len b ->
  le_at n b off = Some (le_combine (take n (drop (Z.to_nat off) b))).
Proof.
  intros. unfold le_at. rewrite slice_from_some by lia. simpl.
  apply le_get_some. unfold len in *. rewrite length_drop. lia.
Qed.

Lemma le_combine_fits (b : bytes) n : (length b <= n)%nat -> fits (8 * Z.of_nat n) (le_combine b).
Proof.
  intros. pose proof (le_combine_bound b) as [? Hb]. split; [done|].
  eapply Z.lt_le_trans; [exact Hb|]. apply Z.pow_le_mono_r; lia.
Qed.

Lemma le_at_some n b off :
  0 <= off -> off + Z.of_nat n <= len b ->
  exists v, le_at n b off = Some v /\ fits (8 * Z.of_nat n) v.
Proof.
  intros. rewrite le_at_val by lia. eexists; split; [done|].
  apply le_combine_fits. rewrite length_take. lia.
Qed.

Lemma le_at_value n b off v : le_at n b off = Some v -> fits (8 * Z.of_nat n) v.
Proof.
  unfold le_at, le_get. destruct (slice_from b off); cbn; [|done]. case_if; [|done]. intros [= <-].
  apply le_combine_fits. rewrite length_take. lia.
Qed.

Lemma le_at_skip n (a b : bytes) off :
  len a <= off -> le_at n (a ++ b) off = le_at n b (off - len a).
Proof.
  intros. unfold le_at, slice_from. rewrite slice_skip by done.
  by rewrite len_app, Z.add_simpl_l.
Qed.

Lemma le_at_here n v (r : bytes) : le_at n (le_split n v ++ r) 0 = Some (v `mod` 2 ^ (8 * Z.of_nat n)).
Proof.
  rewrite le_at_val by (len_simpl; pose proof (len_nonneg r); lia). simpl. rewrite drop_0.
  rewrite take_app_le, take_ge by (rewrite length_le_split; lia).
  rewrite le_combine_split. do 2 f_equal. f_equal. lia.
Qed.

(** Reading a whole field back gives the field's bytes. *)
Lemma le_split_take n (b : bytes) :
  Z.of_nat n <= len b -> le_split n (le_combine (take n b)) = take n b.
Proof.
  intros. apply split_le_combine'. rewrite length_take. unfold len in *. lia.
Qed.

Lemma fits_mod w z : fits w z -> z `mod` 2 ^ w = z.
Proof. intros []. by apply Z.mod_small. Qed.

Lemma fits_weaken w w' z : 0 <= w <= w' -> fits w z -> fits w' z.
Proof. intros ? []. split; [done|]. eapply Z.lt_le_trans; [done|]. apply Z.pow_le_mono_r; lia. Qed.

(** ** Writing fields into a buffer *)

Lemma copy_at_here (a old r src : bytes) off :
  off = len a -> length old = length src ->
  copy_at (a ++ old ++ r) off src = Some (a ++ src ++ r).
Proof.
  intros -> Hl. unfold copy_at. pose proof (len_nonneg a). pose proof (len_nonneg (old ++ r)).
  rewrite len_app. replace (_ && _) with true by lia.
  f_equal. unfold len. rewrite Nat2Z.id, !length_app.
  rewrite take_app_le, take_ge by lia. f_equal.
  replace (length src `min` (length a + (length old + length r) - length a))%nat with (length src) by lia.
  rewrite (take_ge src) by lia. f_equal.
  rewrite drop_app_ge by lia. rewrite drop_app_ge by lia.
  replace (length a + length src - length a - length old)%nat with 0%nat by lia. done.
Qed.

Lemma le_put_here n (a old r : bytes) off v :
  off = len a -> length old = n ->
  le_put n (a ++ old ++ r) off v = Some (a ++ le_split n v ++ r).
Proof.
  intros -> Hl. unfold le_put. pose proof (len_nonneg a). pose proof (len_nonneg (old ++ r)).
  rewrite slice_from_some by (rewrite len_app; lia). simpl.
  replace (Z.of_nat n <=? len (drop (Z.to_nat (len a)) (a ++ old ++ r))) with true
    by (symmetry; apply Z.leb_le; unfold len; rewrite length_drop, !length_app; lia).
  apply copy_at_here; [done|]. by rewrite length_le_split.
Qed.

(** Cut a list of known length into a prefix and the rest. *)
Lemma split_at {A} n (l : list A) :
  (n <= length l)%nat -> exists a b, l = a ++ b /\ length a = n.
Proof.
  intros. exists (take n l), (drop n l). rewrite take_drop, length_take. split; [done|lia].
Qed.

Lemma cut_at {A} n (l : list A) :
  0 <= n <= len l -> exists a r, l = a ++ r /\ len a = n.
Proof.
  intros. destruct (split_at (Z.to_nat n) l) as (a & r & -> & Ha); [unfold len in *; lia|].
  exists a, r. split; [done|unfold len in *; lia].
Qed.

(** ** Bits *)

Lemma land_ones_small w z : 0 <= w -> fits w z -> Z.land z (Z.ones w) = z.
Proof. intros. rewrite Z.land_ones by done. by apply fits_mod. Qed.

Lemma andnot_spec x y i : 0 <= i -> Z.testbit (x &^ y) i = Z.testbit x i && negb (Z.testbit y i).
Proof. intros. unfold andnot. by rewrite Z.land_spec, Z.lnot_spec. Qed.

(** Clearing the low [k] bits rounds down to a multiple of [2^k]. *)
Lemma andnot_ones x k : 0 <= k -> x &^ (2 ^ k - 1) = 2 ^ k * (x `div` 2 ^ k).
Proof.
  intros. unfold andnot. replace (2 ^ k - 1) with (Z.ones k) by (rewrite Z.ones_equiv; lia).
  rewrite <- Z.ldiff_land, Z.ldiff_ones_r by done.
  rewrite Z.shiftl_mul_pow2, Z.shiftr_div_pow2 by done. lia.
Qed.

Lemma fits_testbit w z i : 0 <= w -> fits w z -> w <= i -> Z.testbit z i = false.
Proof.
  intros ? Hf ?. rewrite <- (fits_mod w z Hf). apply Z.mod_pow2_bits_high. lia.
Qed.

Lemma fits_of_testbit w z :
  0 <= w -> 0 <= z -> (forall i, w <= i -> Z.testbit z i = false) -> fits w z.
Proof.
  intros Hw Hz Hb. split; [done|].
  destruct (Z.eq_dec z 0) as [->|]; [apply Z.pow_pos_nonneg; lia|].
  apply Z.log2_lt_pow2; [lia|]. apply Z.nle_gt; intros Hl.
  specialize (Hb (Z.log2 z) Hl). rewrite Z.bit_log2 in Hb by lia. done.
Qed.

(** ** Field-by-field writes: skip a prefix, then write at its end

    Together with [le_put_zero], [store_zero] and [copy_at_zero] these compute
    a sequence of field writes into a buffer cut into its fields. *)

Lemma copy_at_skip (x b : bytes) off src :
  len x <= off -> copy_at (x ++ b) off src = app x <$> copy_at b (off - len x) src.
Proof.
  intros. unfold copy_at. pose proof (len_nonneg x). rewrite len_app.
  replace (0 <=? off) with true by lia. replace (0 <=? off - len x) with true by lia.
  replace (off <=? len x + len b) with (off - len x <=? len b) by lia. simpl.
  case_if; [|done]. simpl. bool_props. f_equal.
  assert (Z.to_nat off = length x + Z.to_nat (off - len x))%nat as -> by (unfold len in *; lia).
  rewrite length_app.
  replace (length x + length b - (length x + Z.to_nat (off - len x)))%nat
    with (length b - Z.to_nat (off - len x))%nat by lia.
  set (k := Nat.min _ _).
  rewrite <- Nat.add_assoc, take_app_add, drop_app_add. by rewrite <- app_assoc.
Qed.

Lemma copy_at_zero (old r src : bytes) :
  len old = len src -> copy_at (old ++ r) 0 src = Some (src ++ r).
Proof. intros. apply (copy_at_here []); [done|unfold len in *; lia]. Qed.

Lemma le_put_skip n (x b : bytes) off v :
  len x <= off -> le_put n (x ++ b) off v = app x <$> le_put n b (off - len x) v.
Proof.
  intros. unfold le_put, slice_from. rewrite slice_skip by done.
  rewrite len_app, Z.add_simpl_l. destruct (slice b _ _); simpl; [|done].
  case_if; [|done]. by apply copy_at_skip.
Qed.

Lemma le_put_zero n (old r : bytes) v :
  len old = Z.of_nat n -> le_put n (old ++ r) 0 v = Some (le_split n v ++ r).
Proof. intros. apply (le_put_here n []); [done|unfold len in *; lia]. Qed.

Lemma store_skip {A} (x b : list A) off v :
  len x <= off -> store (x ++ b) off v = app x <$> store b (off - len x) v.
Proof.
  intros. unfold store. pose proof (len_nonneg x). rewrite len_app.
  replace (0 <=? off) with true by lia. replace (0 <=? off - len x) with true by lia.
  replace (off <? len x + len b) with (off - len x <? len b) by lia. simpl.
  case_if; [|done]. simpl. f_equal. bool_props. unfold len in *.
  replace (Z.to_nat off) with (length x + Z.to_nat (off - Z.of_nat (length x)))%nat by lia.
  by rewrite insert_app_r.
Qed.

Lemma store_zero {A} (y : A) r v : store ([y] ++ r) 0 v = Some ([v] ++ r).
Proof. unfold store. rewrite len_app. simpl. pose proof (len_nonneg r).
  by replace (0 <? _) with true by (symmetry; apply Z.ltb_lt; unfold len at 1; simpl; lia). Qed.

Lemma index_skip {A} (x b : list A) off :
  len x <= off -> index (x ++ b) off = index b (off - len x).
Proof.
  intros. unfold index. pose proof (len_nonneg x).
  replace (0 <=? off) with true by lia. replace (0 <=? off - len x) with true by lia.
  rewrite lookup_app_r by (unfold len in *; lia). f_equal. unfold len in *; lia.
Qed.

Lemma index_some {A} (b : list A) i : 0 <= i < len b -> exists x, index b i = Some x.
Proof.
  intros. unfold index. replace (0 <=? i) with true by lia.
  apply lookup_lt_is_Some_2. unfold len in *; lia.
Qed.

Lemma byte_at_some b i : 0 <= i < len b -> exists v, byte_at b i = Some v /\ fits 8 v.
Proof.
  intros. unfold byte_at. destruct (index_some b i) as [x ->]; [done|].
  eexists; split; [done|]. apply byte.unsigned_range.
Qed.

Lemma byte_at_skip (x b : bytes) off : len x <= off -> byte_at (x ++ b) off = byte_at b (off - len x).
Proof. intros. unfold byte_at. by rewrite index_skip. Qed.

Lemma byte_at_zero v (r : bytes) : byte_at ([byte.of_Z v] ++ r) 0 = Some (v `mod` 2 ^ 8).
Proof. unfold byte_at, index. simpl. by rewrite byte.unsigned_of_Z. Qed.

Lemma slice_from_skip {A} (x b : list A) off :
  len x <= off -> slice_from (x ++ b) off = slice_from b (off - len x).
Proof. intros. unfold slice_from. rewrite slice_skip by done. by rewrite len_app, Z.add_simpl_l. Qed.

Lemma slice_from_zero {A} (b : list A) : slice_from b 0 = Some b.
Proof. apply slice_all. done. Qed.

Lemma le_at_fits n v (r : bytes) :
  fits (8 * Z.of_nat n) v -> le_at n (le_split n v ++ r) 0 = Some v.
Proof. intros. by rewrite le_at_here, fits_mod. Qed.

Lemma byte_at_fits v (r : bytes) : fits 8 v -> byte_at ([byte.of_Z v] ++ r) 0 = Some v.
Proof. intros. by rewrite byte_at_zero, fits_mod. Qed.

(** Compute the lengths and offsets of a buffer cut into fields; the length of
    a field that is a variable comes from a hypothesis [len x = n]. *)
Ltac field_lens :=
  autorewrite with len;
  repeat match goal with H : len ?x = _ |- context [len ?x] => rewrite H end;
  of_nat_simpl.

Ltac field_nums :=
  field_lens;
  repeat match goal with
         | |- context [?a - ?b] =>
             let v := eval vm_compute in (a - b) in
             lazymatch v with Z0 => idtac | Z.pos _ => idtac | Z.neg _ => idtac end;
             change (a - b) with v
         end;
  cbn [mbind option_bind fmap option_fmap option_map].

Ltac field_cond := field_lens; first [ lia | reflexivity | by vm_compute ].

(** One field access of a buffer [f1 ++ f2 ++ ...]: step over a field that
    ends before the offset, or access the field at offset zero. *)
Ltac field_step :=
  first
    [ rewrite le_at_fits by eassumption | rewrite byte_at_fits by eassumption
    | rewrite le_at_here | rewrite byte_at_zero
    | rewrite slice_here by field_cond
    | rewrite le_put_zero by field_cond
    | rewrite store_zero | rewrite copy_at_zero by field_cond
    | rewrite slice_from_zero
    | rewrite le_at_skip by field_cond
    | rewrite byte_at_skip by field_cond
    | rewrite slice_skip by field_cond
    | rewrite slice_from_skip by field_cond
    | rewrite le_put_skip by field_cond
    | rewrite store_skip by field_cond
    | rewrite copy_at_skip by field_cond ]; field_nums.

(** Cut the next [n] bytes off the buffer [b]. *)
Ltac cut_field b n :=
  let x := fresh "f" in let r := fresh "r" in let E := fresh "E" in let L := fresh "L" in
  destruct (cut_at n b) as (x & r & E & L);
    [ field_cond | subst b; rename r into b; autorewrite with len in * ].

(** The empty tail of a buffer cut to the end. *)
Lemma len_zero_nil {A} (l : list A) : len l = 0 -> l = [].
Proof. destruct l; [done|]. unfold len; simpl; lia. Qed.

Lemma len_one_singleton {A} (l : list A) : len l = 1 -> exists x, l = [x].
Proof. destruct l as [|x [|]]; unfold len; simpl; [lia|by exists x|lia]. Qed.

(** Any bytes are the encoding of the integer they decode to. *)
Lemma cut_le n (l : bytes) :
  Z.of_nat n <= len l -> exists v r, l = le_split n v ++ r /\ fits (8 * Z.of_nat n) v.
Proof.
  intros. destruct (cut_at (Z.of_nat n) l) as (a & r & -> & Ha); [lia|].
  assert (length a = n) as <- by (unfold len in *; lia).
  exists (le_combine a), r. rewrite split_le_combine. split; [done|].
  by apply le_combine_fits.
Qed.

Lemma cut_byte (l : bytes) :
  1 <= len l -> exists v r, l = [byte.of_Z v] ++ r /\ fits 8 v.
Proof.
  intros. destruct l as [|x r]; [unfold len in *; simpl in *; lia|].
  exists (byte.unsigned x), r. rewrite byte.of_Z_unsigned. split; [done|].
  apply byte.unsigned_range.
Qed.

(** Read the next field of the buffer [b] off as an encoded integer [v]. *)
Ltac cut_int b n v :=
  let r := fresh "r" in let E := fresh "E" in let F := fresh "F" in
  destruct (cut_le n b) as (v & r & E & F);
    [ field_cond | subst b; rename r into b; autorewrite with len in * ].

Ltac cut_uint8 b v :=
  let r := fresh "r" in let E := fresh "E" in let F := fresh "F" in
  destruct (cut_byte b) as (v & r & E & F);
    [ field_cond | subst b; rename r into b; autorewrite with len in * ].

(** ** Signed machine integers *)

Lemma sint_id w z : 0 < w -> - 2 ^ (w - 1) <= z < 2 ^ (w - 1) -> sint w z = z.
Proof.
  intros Hw Hz. unfold sint.
  assert (2 ^ w = 2 * 2 ^ (w - 1)) as E by (rewrite <- Z.pow_succ_r by lia; f_equal; lia).
  rewrite Z.mod_small by lia. lia.
Qed.

(** The two widths Go's [int] has. *)
Definition int_width (w : Z) : Prop := w = 32 \/ w = 64.

Lemma sint_small w z : int_width w -> -2147483648 <= z < 2147483648 -> sint w z = z.
Proof. intros [-> | ->] ?; apply sint_id; lia. Qed.

Lemma sint_len w z (n : Z) : int_width w -> n < 2 ^ (w - 1) -> 0 <= z <= n -> sint w z = z.
Proof. intros [-> | ->] ??; apply sint_id; lia. Qed.

(** [copy(dst[:], src)] with a source at least as long as the destination. *)
Lemma copy_at_full (dst a r : bytes) : len a = len dst -> copy_at dst 0 (a ++ r) = Some a.
Proof.
  intros H. unfold copy_at. pose proof (len_nonneg dst).
  replace (_ && _) with true by lia. cbn [Z.to_nat take app]. f_equal.
  unfold len in *. rewrite take_app_le by (rewrite length_app; lia).
  rewrite length_app, drop_ge by lia. rewrite app_nil_r. apply take_ge. lia.
Qed.

Lemma slice_mid {A} (a m r b : list A) lo hi :
  b = a ++ m ++ r -> lo = len a -> hi = lo + len m -> slice b lo hi = Some m.
Proof.
  intros -> -> ->. rewrite slice_skip, Z.sub_diag by lia. apply slice_here. lia.
Qed.

(** [a << k | b] is an addition when [b] has at most [k] bits. *)
Lemma lor_shiftl_add a b k : 0 <= k -> fits k b -> Z.lor (a <<| k) b = a * 2 ^ k + b.
Proof.
  intros Hk Hb. rewrite <- Z.shiftl_mul_pow2 by done. symmetry. apply Z.add_nocarry_lor.
  apply Z.bits_inj'. intros i Hi. rewrite Z.land_spec, Z.shiftl_spec, Z.bits_0 by done.
  destruct (decide (i < k)).
  - by rewrite Z.testbit_neg_r by lia.
  - rewrite (fits_testbit k b i) by (done || lia). apply andb_false_r.
Qed.

(** ** Decidable equality and countability of bytes, so that byte strings and
    the records made of them can be keys of finite maps *)

#[export] Instance byte_eq_dec : EqDecision Init.Byte.byte.
Proof. intros a b. destruct (Stdlib.Strings.Byte.byte_eq_dec a b); [by left|by right]. Defined.

#[export] Program Instance byte_countable : Countable Init.Byte.byte :=
  inj_countable' byte.unsigned byte.of_Z byte.of_Z_unsigned.

(** The elements of a list with one position overwritten. *)
Lemma elem_insert {A} (l : list A) i x y : y ∈ <[i := x]> l -> y = x \/ y ∈ l.
Proof.
  intros [j Hj]%list_elem_of_lookup. apply list_lookup_insert_Some in Hj as [(_ & -> & _)|[_ Hj]].
  - by left.
  - right. by eapply list_elem_of_lookup_2.
Qed.

(** A property every step keeps holds in every reachable state. *)
Lemma rtc_invariant {A} (R : relation A) (P : A -> Prop) x y :
  (forall a b, P a -> R a b -> P b) -> P x -> rtc R x y -> P y.
Proof. intros Hstep Hx H. revert Hx. induction H; eauto. Qed.

(** ** A state monad with panics

    A method on a mutable Go object is a function from its state to a result
    and the new state; [None] is a panic. [mbind] is sequential composition,
    written with stdpp's arrow. *)

Definition sm (S A : Type) : Type := S -> option (A * S).

#[export] Instance sm_ret S : MRet (sm S) := fun A a s => Some (a, s).
#[export] Instance sm_mbind S : MBind (sm S) :=
  fun A B f m s => match m s with Some (a, s') => f a s' | None => None end.

Definition get {S} : sm S S := fun s => Some (s, s).
Definition gets {S A} (f : S -> A) : sm S A := fun s => Some (f s, s).
Definition modify {S} (f : S -> S) : sm S unit := fun s => Some (tt, f s).
Definition lift {S A} (o : option A) : sm S A := fun s => a ← o; Some (a, s).

(** [sm_ok P m Q]: from every state in [P], [m] returns without panic, with a
    result and a state in [Q]. *)
Definition sm_ok {S A} (P : S -> Prop) (m : sm S A) (Q : A -> S -> Prop) : Prop :=
  forall s, P s -> exists a s', m s = Some (a, s') /\ Q a s'.

Lemma sm_bind_eq {S A B} (m : sm S A) (f : A -> sm S B) s a s' :
  m s = Some (a, s') -> (m ≫= f) s = f a s'.
Proof. intros H. unfold mbind, sm_mbind. by rewrite H. Qed.

Lemma sm_ok_bind {S A B} P (m : sm S A) Q (f : A -> sm S B) R :
  sm_ok P m Q -> (forall a, sm_ok (Q a) (f a) R) -> sm_ok P (m ≫= f) R.
Proof.
  intros Hm Hf s Hs. destruct (Hm s Hs) as (a & s' & Hms & Hq).
  destruct (Hf a s' Hq) as (b & s'' & Hfs & Hr). exists b, s''.
  by rewrite (sm_bind_eq _ _ _ _ _ Hms).
Qed.

Lemma sm_ok_ret {S A} (P : S -> Prop) (a : A) (Q : A -> S -> Prop) :
  (forall s, P s -> Q a s) -> sm_ok P (mret a) Q.
Proof. intros H s Hs. exists a, s. by split; [|apply H]. Qed.

Lemma sm_ok_weaken {S A} (P P' : S -> Prop) (m : sm S A) (Q Q' : A -> S -> Prop) :
  (forall s, P' s -> P s) -> (forall a s, Q a s -> Q' a s) -> sm_ok P m Q -> sm_ok P' m Q'.
Proof.
  intros HP HQ H s Hs. destruct (H s (HP s Hs)) as (a & s' & E & Hq). exists a, s'. auto.
Qed.

(** ** Reading a buffer after a write *)

Lemma copy_at_some (b : bytes) off src :
  0 <= off -> off + len src <= len b ->
  copy_at b off src = Some (take (Z.to_nat off) b ++ src ++ drop (Z.to_nat (off + len src)) b).
Proof.
  intros Ho Hl. unfold copy_at. pose proof (len_nonneg src). replace (_ && _) with true by lia.
  unfold len in *. f_equal.
  replace (length src `min` (length b - Z.to_nat off))%nat with (length src) by lia.
  rewrite (take_ge src) by lia. f_equal. f_equal. f_equal. lia.
Qed.

(** What was written is read back. *)
Lemma slice_copy_same (b b' : bytes) off src :
  0 <= off -> off + len src <= len b -> copy_at b off src = Some b' ->
  slice b' off (off + len src) = Some src.
Proof.
  intros Ho Hl. rewrite copy_at_some by done. intros [= <-].
  eapply slice_mid; [done| |done]. unfold len in *. rewrite length_take. lia.
Qed.

Lemma len_copy_at (b b' : bytes) off src :
  0 <= off -> off + len src <= len b -> copy_at b off src = Some b' -> len b' = len b.
Proof.
  intros Ho Hl. rewrite copy_at_some by done. intros [= <-]. unfold len in *.
  rewrite !length_app, length_take, length_drop. lia.
Qed.

(** Elsewhere the buffer is as it was. *)
Lemma slice_copy_disjoint (b b' : bytes) off src lo hi :
  0 <= off -> off + len src <= len b -> copy_at b off src = Some b' ->
  hi <= off \/ off + len src <= lo -> slice b' lo hi = slice b lo hi.
Proof.
  intros Ho Hl Hc Hd. pose proof (len_copy_at _ _ _ _ Ho Hl Hc) as Hlen.
  rewrite copy_at_some in Hc by done. injection Hc as <-. unfold slice. rewrite Hlen.
  case_if; [|done]. f_equal. bool_props. pose proof (len_nonneg src).
  apply list_eq. intros i. destruct (decide (i < Z.to_nat (hi - lo))%nat) as [Hi|Hi];
    [rewrite !lookup_take_lt by done|by rewrite !lookup_take_ge by lia].
  rewrite !lookup_drop. unfold len in *. destruct Hd as [Hd|Hd].
  - rewrite lookup_app_l by (rewrite length_take; lia). rewrite lookup_take_lt by lia. done.
  - rewrite lookup_app_r by (rewrite length_take; lia). rewrite lookup_app_r by (rewrite length_take; lia).
    rewrite length_take, lookup_drop. f_equal. lia.
Qed.

(** ** Sums over the values of a map *)

Section Msum.
Context {K V : Type} `{Countable K}.
Implicit Types m : gmap K V.

Definition msum (f : V -> Z) (m : gmap K V) : Z := map_fold (fun _ v a => f v + a) 0 m.

Lemma msum_empty f : msum f ∅ = 0.
Proof. apply map_fold_empty. Qed.

Lemma msum_insert f m k v : m !! k = None -> msum f (<[k := v]> m) = f v + msum f m.
Proof. intros Hk. unfold msum. rewrite map_fold_insert_L; [done| |done]. intros. lia. Qed.

Lemma msum_delete f m k v : m !! k = Some v -> msum f m = f v + msum f (delete k m).
Proof. intros Hk. rewrite <- (msum_insert f _ k v) by apply lookup_delete_eq. by rewrite insert_delete_id. Qed.

Lemma msum_update f m k v v' :
  m !! k = Some v -> msum f (<[k := v']> m) = msum f m - f v + f v'.
Proof.
  intros Hk. rewrite (msum_delete f m k v Hk).
  rewrite (msum_delete f (<[k := v']> m) k v') by apply lookup_insert_eq.
  rewrite delete_insert_eq. lia.
Qed.

Lemma msum_nonneg f m : (forall k v, m !! k = Some v -> 0 <= f v) -> 0 <= msum f m.
Proof.
  induction m as [|k v m Hk IH] using map_ind; intros Hf; [by rewrite msum_empty|].
  rewrite msum_insert by done. pose proof (Hf k v ltac:(apply lookup_insert_eq)).
  enough (0 <= msum f m) by lia. apply IH. intros k' v' Hk'. apply (Hf k' v').
  rewrite lookup_insert_ne; [done|]. congruence.
Qed.

Lemma msum_elem f m k v :
  (forall k v, m !! k = Some v -> 0 <= f v) -> m !! k = Some v -> f v <= msum f m.
Proof.
  intros Hf Hk. rewrite (msum_delete f m k v Hk).
  enough (0 <= msum f (delete k m)) by lia. apply msum_nonneg.
  intros k' v' [_ Hk']%lookup_delete_Some. eauto.
Qed.

Lemma msum_le f g m : (forall k v, m !! k = Some v -> f v <= g v) -> msum f m <= msum g m.
Proof.
  induction m as [|k v m Hk IH] using map_ind; intros Hf; [by rewrite !msum_empty|].
  rewrite !msum_insert by done. pose proof (Hf k v ltac:(apply lookup_insert_eq)).
  enough (msum f m <= msum g m) by lia. apply IH. intros k' v' Hk'. apply (Hf k' v').
  rewrite lookup_insert_ne; [done|]. congruence.
Qed.

Lemma msum_scale f c m : msum (fun v => f v * c) m = msum f m * c.
Proof.
  induction m as [|k v m Hk IH] using map_ind; [by rewrite !msum_empty|].
  rewrite !msum_insert by done. lia.
Qed.

Lemma msum_one m : msum (fun _ => 1) m = Z.of_nat (size m).
Proof.
  induction m as [|k v m Hk IH] using map_ind; [by rewrite msum_empty, map_size_empty|].
  rewrite msum_insert, map_size_insert_None by done. lia.
Qed.

Lemma msum_mono f m m' :
  m ⊆ m' -> (forall k v, m' !! k = Some v -> 0 <= f v) -> msum f m <= msum f m'.
Proof.
  revert m'. induction m as [|k v m Hk IH] using map_ind; intros m' Hsub Hf.
  { rewrite msum_empty. by apply msum_nonneg. }
  assert (m' !! k = Some v) as Hk' by (eapply lookup_weaken; [apply lookup_insert_eq|done]).
  rewrite msum_insert, (msum_delete f m' k v) by done. enough (msum f m <= msum f (delete k m')) by lia.
  apply IH; [by eapply insert_delete_subseteq|]. intros k0 v0 [_ H0]%lookup_delete_Some. by apply (Hf k0).
Qed.

End Msum.

(** A sum whose terms are covered by distinct terms of another sum. *)
Lemma msum_cover {K K' V V'} `{Countable K, Countable K'} (f : V -> Z) (f' : V' -> Z) (h : K -> V -> K')
    (m : gmap K V) (m' : gmap K' V') :
  (forall k v, m !! k = Some v -> f v <= 0 \/ exists v', m' !! h k v = Some v' /\ f v <= f' v') ->
  (forall k v k2 v2, m !! k = Some v -> m !! k2 = Some v2 -> 0 < f v -> 0 < f v2 -> h k v = h k2 v2 -> k = k2) ->
  (forall k v, m' !! k = Some v -> 0 <= f' v) -> msum f m <= msum f' m'.
Proof.
  revert m'. induction m as [|k v m Hk IH] using map_ind; intros m' Hc Hinj Hf'.
  { rewrite msum_empty. by apply msum_nonneg. }
  rewrite msum_insert by done.
  assert (forall k2 v2, m !! k2 = Some v2 -> k2 <> k /\ <[k := v]> m !! k2 = Some v2) as Hm.
  { intros k2 v2 H2. assert (k2 <> k) by congruence. by rewrite lookup_insert_ne. }
  destruct (decide (f v <= 0)) as [Hle|Hgt].
  { enough (msum f m <= msum f' m') by lia. apply IH; [|clear Hc|done].
    - intros k2 v2 [_ H2]%Hm. by apply Hc.
    - intros k2 v2 k3 v3 [_ H2]%Hm [_ H3]%Hm. by apply Hinj. }
  destruct (Hc k v ltac:(apply lookup_insert_eq)) as [|(v' & Hv' & Hle)]; [lia|].
  rewrite (msum_delete f' m' _ v' Hv'). enough (msum f m <= msum f' (delete (h k v) m')) by lia.
  apply IH.
  - intros k2 v2 [Hne H2]%Hm. destruct (Hc k2 v2 H2) as [|(v2' & Hv2 & Hle2)]; [by left|].
    destruct (decide (f v2 <= 0)) as [|Hpos]; [by left|]. right. exists v2'. split; [|done].
    rewrite lookup_delete_ne; [done|]. intros E. apply Hne. symmetry.
    eapply (Hinj k v k2 v2); [apply lookup_insert_eq|done|lia..|done].
  - intros k2 v2 k3 v3 [_ H2]%Hm [_ H3]%Hm. by apply Hinj.
  - intros k2 v2 [_ H2]%lookup_delete_Some. by apply (Hf' k2).
Qed.

(** ** Running the state monad step by step *)

Lemma run_ret {S A B} (a : A) (k : A -> sm S B) s : (mret a ≫= k) s = k a s.
Proof. done. Qed.

Lemma run_gets {S A B} (f : S -> A) (k : A -> sm S B) s : (gets f ≫= k) s = k (f s) s.
Proof. done. Qed.

Lemma run_modify {S B} (f : S -> S) (k : unit -> sm S B) s : (modify f ≫= k) s = k tt (f s).
Proof. done. Qed.

Lemma run_assoc {S A B C} (m : sm S A) (f : A -> sm S B) (k : B -> sm S C) s :
  ((m ≫= f) ≫= k) s = (m ≫= fun a => f a ≫= k) s.
Proof. unfold mbind, sm_mbind. by destruct (m s) as [[a s']|]. Qed.

Lemma run_fun {S B} (f : sm S B) (k : B -> sm S B) s : (f ≫= k) s = match f s with Some (b, s') => k b s' | None => None end.
Proof. done. Qed.

(** ** Code of other packages *)

(** github.com/zeebo/xxh3. *)
Class Xxh3 := { xxh3 : bytes -> Z; xxh3_fits : forall b, fits 64 (xxh3 b) }.
