(* ===== verification/Conc.v ===== *)
(** Goroutines over one shared state.

    A handler is a program: a tree of atomic actions, each of which is what the
    source does under one lock or in one atomic operation, joined by the
    handler's own control flow. Any number of handlers run at once; a step is
    one action of one of them. [safe] is a proof rule for an invariant of all
    interleavings: a handler owns tokens, which stand for what it holds (a latch,
    a pending refund), and every action re-establishes the invariant for the
    tokens of all handlers. *)

From Stdlib Require Import ZArith Lia.
From stdpp Require Import base numbers list relations.
Open Scope Z_scope.

Declare Scope conc_scope.
Delimit Scope conc_scope with conc.

Module Conc.

(** [Blocked]: waits for another goroutine. [Halted]: the machine lost power.
    [Panicked]: a Go panic. *)
Inductive outcome (S A : Type) := Next (a : A) (s : S) | Blocked | Halted | Panicked.
#[global] Arguments Next {S A} a s.
#[global] Arguments Blocked {S A}.
#[global] Arguments Halted {S A}.
#[global] Arguments Panicked {S A}.

(** What runs under one lock. *)
Definition act (S A : Type) : Type := S -> outcome S A.

#[export] Instance act_ret S : MRet (act S) := fun A a s => Next a s.
#[export] Instance act_bind S : MBind (act S) := fun A B f m s =>
  match m s with Next a s' => f a s' | Blocked => Blocked | Halted => Halted | Panicked => Panicked end.
#[export] Instance act_fmap S : FMap (act S) := fun A B f m s =>
  match m s with Next a s' => Next (f a) s' | Blocked => Blocked | Halted => Halted | Panicked => Panicked end.

Definition get {S A} (f : S -> A) : act S A := fun s => Next (f s) s.
Definition put {S} (f : S -> S) : act S unit := fun s => Next tt (f s).
Definition panic {S A} : act S A := fun _ => Panicked.

Fixpoint each {S B} (f : B -> act S unit) (l : list B) : act S unit :=
  match l with [] => mret tt | b :: l => f b;; each f l end.

(** A handler. *)
Inductive prog (S A : Type) : Type :=
| Done (a : A)
| Atom (B : Type) (m : act S B) (k : B -> prog S A).
#[global] Arguments Done {S A} a.
#[global] Arguments Atom {S A} B m k.

#[export] Instance prog_ret S : MRet (prog S) := fun A a => Done a.
#[export] Instance prog_bind S : MBind (prog S) := fun A B f =>
  fix go p := match p with Done a => f a | Atom C m k => Atom C m (fun c => go (k c)) end.

Definition atomic {S B} (m : act S B) : prog S B := Atom B m Done.

Notation "x ⇐ m ; k" := (Atom _ m (fun x => k))
  (at level 20, m at level 100, k at level 200, right associativity) : conc_scope.
Notation "' x ⇐ m ; k" := (Atom _ m (fun b => match b with x => k end))
  (at level 20, x pattern, m at level 100, k at level 200, right associativity) : conc_scope.

(** [for _, b := range l]. *)
Fixpoint forEach {S B} (f : B -> prog S unit) (l : list B) : prog S unit :=
  match l with [] => Done tt | b :: l => f b;; forEach f l end.

(** ** The goroutines together *)

Section Pool.
Context {S R E : Type} (handler : E -> prog S R).

(** The states a run is followed through; what is proved of reachable states is
    proved of runs that stay in them. *)
Context (legal : S -> bool).

Record conf := mkConf { shared : S; threads : list (prog S R) }.

(** An event starts a handler; a handler takes its next action. *)
Inductive step : conf -> conf -> Prop :=
| step_spawn c e : step c (mkConf (shared c) (threads c ++ [handler e]))
| step_run c i B m k b s' :
    threads c !! i = Some (Atom B m k) -> legal (shared c) = true -> m (shared c) = Next b s' ->
    step c (mkConf s' (<[i := k b]> (threads c))).

Definition reachable (s0 : S) (c : conf) : Prop := rtc step (mkConf s0 []) c.

(** Events handled one after the other. *)
Fixpoint finish (fuel : nat) (i : nat) (c : conf) : option conf :=
  match fuel with
  | O => None
  | Datatypes.S fuel =>
      match threads c !! i with
      | Some (Done _) => Some c
      | Some (Atom B m k) =>
          if legal (shared c) then
            match m (shared c) with
            | Next b s' => finish fuel i (mkConf s' (<[i := k b]> (threads c)))
            | _ => None
            end
          else None
      | None => None
      end
  end.

Fixpoint serve (fuel : nat) (es : list E) (c : conf) : option conf :=
  match es with
  | [] => Some c
  | e :: es =>
      match finish fuel (length (threads c)) (mkConf (shared c) (threads c ++ [handler e])) with
      | Some c => serve fuel es c
      | None => None
      end
  end.

Lemma finish_steps fuel i : forall c c', finish fuel i c = Some c' -> rtc step c c'.
Proof.
  induction fuel as [|fuel IH]; intros c c' Hc; cbn in Hc; [done|].
  destruct (threads c !! i) as [[a|B m k]|] eqn:Ei; [by injection Hc as ->| |done].
  destruct (legal (shared c)) eqn:El; [|done]. destruct (m (shared c)) as [b s'| | |] eqn:Em; try done.
  eapply rtc_l; [by eapply step_run|]. by apply IH.
Qed.

Lemma serve_steps fuel es : forall c c', serve fuel es c = Some c' -> rtc step c c'.
Proof.
  induction es as [|e es IH]; intros c c' Hc; cbn in Hc; [by injection Hc as ->|].
  destruct (finish _ _ _) as [c1|] eqn:E1; [|done]. eapply rtc_l; [apply (step_spawn _ e)|].
  etrans; [by eapply finish_steps|]. by apply IH.
Qed.

(** A schedule: an event arrives, or a handler takes a step, or runs to its end. *)
Inductive cmd := Spawn (e : E) | Step (i : nat) | Finish (i : nat).

Definition obey (fuel : nat) (x : cmd) (c : conf) : option conf :=
  match x with
  | Spawn e => Some (mkConf (shared c) (threads c ++ [handler e]))
  | Finish i => finish fuel i c
  | Step i =>
      match threads c !! i with
      | Some (Atom B m k) =>
          if legal (shared c) then
            match m (shared c) with
            | Next b s' => Some (mkConf s' (<[i := k b]> (threads c)))
            | _ => None
            end
          else None
      | _ => None
      end
  end.

Fixpoint play (fuel : nat) (xs : list cmd) (c : conf) : option conf :=
  match xs with
  | [] => Some c
  | x :: xs => match obey fuel x c with Some c => play fuel xs c | None => None end
  end.

Lemma obey_steps fuel x c c' : obey fuel x c = Some c' -> rtc step c c'.
Proof.
  destruct x as [e|i|i]; cbn; [intros [= <-]; apply rtc_once, (step_spawn _ e)| |apply finish_steps].
  destruct (threads c !! i) as [[a|B m k]|] eqn:Ei; try done. destruct (legal (shared c)) eqn:El; [|done].
  destruct (m (shared c)) as [b s'| | |] eqn:Em; try done. intros [= <-]. by eapply rtc_once, step_run.
Qed.

Lemma play_steps fuel xs : forall c c', play fuel xs c = Some c' -> rtc step c c'.
Proof.
  induction xs as [|x xs IH]; intros c c' Hc; cbn in Hc; [by injection Hc as ->|].
  destruct (obey fuel x c) as [c1|] eqn:E1; [|done]. etrans; [by eapply obey_steps|]. by apply IH.
Qed.

(** ** Invariants of all interleavings *)

Context {T : Type} (Inv : list T -> S -> Prop).

(** [safe own Q p]: from any state in which the handler owns [own], each action
    of [p] keeps the invariant, whatever the other handlers own, and [Q] holds
    of the result and of what is owned at the end. *)
Fixpoint safe {A} (own : list T) (Q : A -> list T -> Prop) (p : prog S A) : Prop :=
  match p with
  | Done a => Q a own
  | Atom B m k => forall rest s b s', legal s = true -> Inv (own ++ rest) s -> m s = Next b s' ->
      exists own', Inv (own' ++ rest) s' /\ safe own' Q (k b)
  end.

Lemma safe_bind {A B} own (Q : B -> list T -> Prop) P (p : prog S A) (f : A -> prog S B) :
  safe own P p -> (forall a own', P a own' -> safe own' Q (f a)) -> safe own Q (p ≫= f).
Proof.
  revert own. induction p as [a|C m k IH]; intros own Hp Hf; cbn in *; [by apply Hf|].
  intros rest s c s' Hl Hi Hm. destruct (Hp rest s c s' Hl Hi Hm) as (own' & Hi' & Hk).
  exists own'. split; [done|]. by apply IH.
Qed.

Lemma safe_mono {A} own (P Q : A -> list T -> Prop) (p : prog S A) :
  (forall a o, P a o -> Q a o) -> safe own P p -> safe own Q p.
Proof.
  intros HPQ. revert own. induction p as [a|C m k IH]; intros own Hp; cbn in *; [by apply HPQ|].
  intros rest s c s' Hl Hi Hm. destruct (Hp rest s c s' Hl Hi Hm) as (own' & Hi' & Hk).
  exists own'. split; [done|]. by apply IH.
Qed.

Lemma safe_frame {A} F own (Q : A -> list T -> Prop) (p : prog S A) :
  safe own Q p -> safe (own ++ F) (fun a o => exists o', o = o' ++ F /\ Q a o') p.
Proof.
  revert own. induction p as [a|C m k IH]; intros own Hp; cbn in *; [by exists own|].
  intros rest s c s' Hl Hi Hm. rewrite <- app_assoc in Hi. destruct (Hp _ _ _ _ Hl Hi Hm) as (own' & Hi' & Hk).
  exists (own' ++ F). rewrite <- app_assoc. split; [done|]. by apply IH.
Qed.

Lemma safe_forEach {B} own (f : B -> prog S unit) (l : list B) :
  (forall b, b ∈ l -> safe own (fun _ o => o = own) (f b)) ->
  safe own (fun _ o => o = own) (forEach f l).
Proof.
  induction l as [|b l IH]; intros Hf; cbn; [done|].
  eapply safe_bind; [by apply Hf; left|]. intros _ ? ->. apply IH. intros b' Hb. apply Hf. by right.
Qed.

Hypothesis Inv_perm : forall l l' s, l ≡ₚ l' -> Inv l s -> Inv l' s.
Hypothesis handler_safe : forall e, safe [] (fun _ o => o = []) (handler e).

Definition conf_ok (c : conf) : Prop :=
  exists owns, Inv (concat owns) (shared c) /\ Forall2 (fun o p => safe o (fun _ o => o = []) p) owns (threads c).

Lemma conf_ok_step c c' : conf_ok c -> step c c' -> conf_ok c'.
Proof.
  intros (owns & Hi & Ho) Hs. destruct Hs as [c e|c i B m k b s' Hl Hg Hm].
  - exists (owns ++ [[]]). cbn. split.
    + by rewrite concat_app, app_nil_r.
    + apply Forall2_app; [done|]. by repeat constructor.
  - destruct (Forall2_lookup_r _ _ _ _ _ Ho Hl) as (own & Hown & Hp).
    pose proof (take_drop_middle _ _ _ Hown) as Hsp.
    assert (forall x, concat (take i owns ++ x :: drop (Datatypes.S i) owns)
                      ≡ₚ x ++ concat (take i owns ++ drop (Datatypes.S i) owns)) as Hc.
    { intros x. rewrite !concat_app. cbn. by rewrite Permutation_app_swap_app. }
    cbn in Hp. edestruct Hp as (own' & Hi' & Hk); [exact Hg| |exact Hm|].
    { eapply Inv_perm; [|exact Hi]. rewrite <- Hsp at 1. apply Hc. }
    exists (<[i := own']> owns). cbn. split.
    + eapply Inv_perm; [|exact Hi'].
      rewrite (insert_take_drop owns i own') by (by eapply lookup_lt_Some). symmetry. apply Hc.
    + apply Forall2_insert; [done|]. exact Hk.
Qed.

Definition finished (c : conf) : Prop := forall i p, threads c !! i = Some p -> exists a, p = Done a.

(** Every reachable state satisfies the invariant, for what is then owned; once
    all handlers are done, nothing is. *)
Lemma pool_inv s0 c :
  Inv [] s0 -> reachable s0 c -> exists l, Inv l (shared c) /\ (finished c -> l = []).
Proof.
  intros H0 Hr. assert (conf_ok (mkConf s0 [])) as Hc by (exists []; by repeat constructor).
  unfold reachable in Hr. remember (mkConf s0 []) as c0 eqn:Ec. clear Ec H0.
  induction Hr as [c|c0 c1 c Hs Hr IH]; [|by apply IH; eapply conf_ok_step].
  destruct Hc as (owns & Hi & Ho). eexists. split; [done|]. intros Hf. apply concat_nil_Forall, Forall_lookup.
  intros i own Hown. destruct (Forall2_lookup_l _ _ _ _ _ Ho Hown) as (q & Hq & Hs).
  destruct (Hf _ _ Hq) as [a ->]. exact Hs.
Qed.

End Pool.

(** Runs that stay in some states are runs. *)
Lemma reachable_legal {S R E} (handler : E -> prog S R) legal s0 c :
  reachable handler legal s0 c -> reachable handler (fun _ => true) s0 c.
Proof.
  apply rtc_subrel. intros c1 c2 [c' e|c' i B m k b s' Hi _ Hm]; [apply step_spawn|by eapply step_run].
Qed.

(** ** Facts about every action of a handler, whatever runs beside it *)

Fixpoint every {S A} (G : S -> S -> Prop) (p : prog S A) : Prop :=
  match p with
  | Done _ => True
  | Atom B m k => (forall s b s', m s = Next b s' -> G s s') /\ forall b, every G (k b)
  end.

Lemma every_bind {S A B} (G : S -> S -> Prop) (p : prog S A) (f : A -> prog S B) :
  every G p -> (forall a, every G (f a)) -> every G (p ≫= f).
Proof.
  induction p as [a|C m k IH]; intros Hp Hf; cbn in *; [by apply Hf|].
  destruct Hp as [Hm Hk]. split; [done|]. intros c. by apply IH.
Qed.

Lemma every_forEach {S B} (G : S -> S -> Prop) (f : B -> prog S unit) l :
  (forall b, every G (f b)) -> every G (forEach f l).
Proof. intros Hf. induction l as [|b l IH]; cbn; [done|]. by apply every_bind. Qed.

(** ** Results, when every handler keeps to a relation *)

Section Rely.
Context {S : Type} (wf : S -> Prop) (G : S -> S -> Prop).
Context (G_refl : forall s, G s s) (G_trans : forall s1 s2 s3, G s1 s2 -> G s2 s3 -> G s1 s3).

(** What each action guarantees the other handlers. *)
Definition guarantees (s s' : S) : Prop := wf s -> wf s' /\ G s s'.

(** From [s] on, with the others moving along [G] between its actions, the
    handler ends in a result and a state with [Q]. *)
Fixpoint yields {A} (Q : A -> S -> Prop) (s : S) (p : prog S A) : Prop :=
  match p with
  | Done a => Q a s
  | Atom B m k => forall s1 b s2, wf s1 -> G s s1 -> m s1 = Next b s2 -> yields Q s2 (k b)
  end.

Lemma yields_bind {A B} (R : A -> S -> Prop) (Q : B -> S -> Prop) s (p : prog S A) (f : A -> prog S B) :
  yields R s p -> (forall a s', R a s' -> yields Q s' (f a)) -> yields Q s (p ≫= f).
Proof.
  revert s. induction p as [a|C m k IH]; intros s Hp Hf; cbn in *; [by apply Hf|].
  intros s1 c s2 Hw Hg E. apply IH; [by eapply Hp|done].
Qed.

Lemma yields_any {A} (Q : A -> S -> Prop) s (p : prog S A) : (forall a s', Q a s') -> yields Q s p.
Proof. intros HQ. revert s. induction p as [a|C m k IH]; intros s; cbn; [done|]. intros s1 c s2 _ _ _. apply IH. Qed.

Lemma yields_later {A} (Q : A -> Prop) s s' (p : prog S A) :
  G s s' -> yields (fun a _ => Q a) s p -> yields (fun a _ => Q a) s' p.
Proof.
  intros Hg. destruct p as [a|B m k]; cbn; [done|]. intros Hp s1 b s2 Hw Hg1 E. eapply Hp; [done| |done]. by eapply G_trans.
Qed.

Lemma pool_results {R E} (handler : E -> prog S R) legal (Q : R -> Prop) s0 c :
  (forall e, every guarantees (handler e)) -> (forall e s, wf s -> yields (fun a _ => Q a) s (handler e)) ->
  wf s0 -> reachable handler legal s0 c ->
  wf (shared c) /\ forall i a, threads c !! i = Some (Done a) -> Q a.
Proof.
  intros Hev Hyi H0 Hr. set (ok c := wf (shared c) /\ Forall (fun p => every guarantees p /\ yields (fun a _ => Q a) (shared c) p) (threads c)).
  enough (ok c) as [Hw Hf].
  { split; [done|]. intros i a Hi. rewrite Forall_lookup in Hf. by destruct (Hf _ _ Hi). }
  assert (ok (mkConf s0 [])) as Hc by (split; [done|constructor]).
  unfold reachable in Hr. induction Hr as [c'|c1 c2 c3 Hs _ IH]; [done|]. apply IH. clear IH. destruct Hc as [Hw Hf].
  destruct Hs as [c' e|c' i B m k b s' Hi Hl Hm]; cbn in *.
  - split; [done|]. apply Forall_app. split; [done|]. constructor; [|constructor]. split; [apply Hev|by apply Hyi].
  - pose proof (proj1 (Forall_lookup _ _) Hf _ _ Hi) as [[Hg He] Hy]. destruct (Hg _ _ _ Hm Hw) as [Hw' HG]. split; [done|].
    apply Forall_insert; [|split; [apply He|eapply Hy; [exact Hw|apply G_refl|exact Hm]]]. eapply Forall_impl; [exact Hf|]. intros q [Hq1 Hq2]. split; [done|].
    by eapply yields_later.
Qed.

End Rely.

(** ** No panic *)

Section Tame.
Context {S : Type} (I : S -> Prop).

(** No action of [p] panics in a state with [I], each keeps [I], and the result
    has [P]. *)
Fixpoint tame {A} (P : A -> Prop) (p : prog S A) : Prop :=
  match p with
  | Done a => P a
  | Atom B m k => forall s, I s -> m s <> Panicked /\ forall b s', m s = Next b s' -> I s' /\ tame P (k b)
  end.

Lemma tame_bind {A B} (P : A -> Prop) (Q : B -> Prop) (p : prog S A) (f : A -> prog S B) :
  tame P p -> (forall a, P a -> tame Q (f a)) -> tame Q (p ≫= f).
Proof.
  induction p as [a|C m k IH]; intros Hp Hf; cbn in *; [by apply Hf|]. intros s Hs. destruct (Hp s Hs) as [H1 H2].
  split; [done|]. intros c s' E. destruct (H2 c s' E). split; [done|]. by apply IH.
Qed.

Lemma tame_mono {A} (P Q : A -> Prop) (p : prog S A) : (forall a, P a -> Q a) -> tame P p -> tame Q p.
Proof.
  intros HPQ. induction p as [a|C m k IH]; intros Hp; cbn in *; [by apply HPQ|]. intros s Hs. destruct (Hp s Hs) as [H1 H2].
  split; [done|]. intros c s' E. destruct (H2 c s' E). split; [done|]. by apply IH.
Qed.

Lemma tame_forEach {B} (f : B -> prog S unit) l :
  (forall b, tame (fun _ => True) (f b)) -> tame (fun _ => True) (forEach f l).
Proof. intros Hf. induction l as [|b l IH]; cbn; [done|]. eapply tame_bind; [apply Hf|]. by intros. Qed.

Lemma pool_tame {R E} (handler : E -> prog S R) legal s0 c :
  (forall e, tame (fun _ => True) (handler e)) -> I s0 -> reachable handler legal s0 c ->
  I (shared c) /\ forall i B m k, threads c !! i = Some (Atom B m k) -> m (shared c) <> Panicked.
Proof.
  intros Hh H0 Hr. set (ok c := I (shared c) /\ Forall (tame (fun _ : R => True)) (threads c)).
  enough (ok c) as [Hi Hf].
  { split; [done|]. intros i B m k Hc. rewrite Forall_lookup in Hf. exact (proj1 (Hf _ _ Hc (shared c) Hi)). }
  assert (ok (mkConf s0 [])) as Hc by (split; [done|constructor]).
  unfold reachable in Hr. induction Hr as [c'|c1 c2 c3 Hs _ IH]; [done|]. apply IH. clear IH. destruct Hc as [Hi Hf].
  destruct Hs as [c' e|c' i B m k b s' Hc Hl Hm]; cbn in *.
  - split; [done|]. apply Forall_app. split; [done|]. by constructor.
  - pose proof (proj1 (Forall_lookup _ _) Hf _ _ Hc) as Ht. destruct (Ht _ Hi) as [_ Hn]. destruct (Hn _ _ Hm) as [Hi' Hk].
    split; [done|]. by apply Forall_insert.
Qed.

End Tame.

(** One handler alone, from start to end. *)
Fixpoint alone {S A} (p : prog S A) (s : S) : outcome S A :=
  match p with
  | Done a => Next a s
  | Atom B m k =>
      match m s with Next b s' => alone (k b) s' | Blocked => Blocked | Halted => Halted | Panicked => Panicked end
  end.

Lemma alone_bind {S A B} (p : prog S A) (f : A -> prog S B) s :
  alone (p ≫= f) s =
  match alone p s with Next a s' => alone (f a) s' | Blocked => Blocked | Halted => Halted | Panicked => Panicked end.
Proof.
  revert s. induction p as [a|C m k IH]; intros s; cbn; [done|].
  destruct (m s) as [c s'| | |]; [apply IH|done..].
Qed.

End Conc.
