(* ===== verification/Wire.v ===== *)
(** * The KVB1 frame header (src/internal/protocol: ops.go, crc.go, header.go)

    [Ops] holds the opcode, flag, sub-op and status tables, [Crc] the CRC32C
    that Go's hash/crc32 computes for the Castagnoli table, [Hdr] the 64-byte
    header with its marshaller and its validating parser. The theorems: the
    parser inverts the marshaller on every header, it never panics and trusts
    a field only after the checks the protocol fixes, and it rejects every
    header with up to four consecutive protected bytes altered. *)

From Stdlib Require Import ZArith Lia.
From coqutil Require Import Byte Word.LittleEndianList.
From stdpp Require Import base gmap list strings.
From S2P Require Import Prelude.
Local Open Scope Z_scope.
Local Open Scope go_scope.

Module Ops.

Definition OpNop : Z := 0x00.
Definition OpHello : Z := 0x01.
Definition OpBatchExists : Z := 0x02.
Definition OpBatchGet : Z := 0x03.
Definition OpPutStream : Z := 0x04.
Definition OpTouchLease : Z := 0x05.
Definition OpPin : Z := 0x06.
Definition OpDelete : Z := 0x07.
Definition OpStats : Z := 0x08.

Definition FlagResp : Z := 0x0001.
Definition FlagMore : Z := 0x0002.
Definition FlagFatal : Z := 0x0004.
Definition FlagForce : Z := 0x0008.
Definition subOpShift : Z := 4.
Definition subOpMask : Z := 0xF.

(** [uint8(flags >> subOpShift & subOpMask)]; Go's [>>] and [&] have one
    precedence and associate to the left. *)
Definition SubOp (flags : Z) : Z := u8 (Z.land (flags >>| subOpShift) subOpMask).

(** [flags&^(subOpMask<<subOpShift) | uint16(s&subOpMask)<<subOpShift]. *)
Definition WithSubOp (flags s : Z) : Z :=
  Z.lor (flags &^ (subOpMask <<| subOpShift))
        (u16 (u16 (Z.land s subOpMask) <<| subOpShift)).

Definition PutBegin : Z := 0.
Definition PutChunk : Z := 1.
Definition PutCommit : Z := 2.
Definition PutAbort : Z := 3.
Definition TouchRecency : Z := 0.
Definition LeaseGrant : Z := 1.
Definition LeaseRelease : Z := 2.
Definition PinSoft : Z := 0.
Definition PinHard : Z := 1.
Definition Unpin : Z := 2.

Definition StatusOK : Z := 0x00.
Definition StatusOKExists : Z := 0x01.
Definition StatusNotFound : Z := 0x10.
Definition StatusEvicted : Z := 0x11.
Definition StatusErrAuthRequired : Z := 0x20.
Definition StatusErrAuthFailed : Z := 0x21.
Definition StatusErrNamespaceUnknown : Z := 0x22.
Definition StatusErrForbidden : Z := 0x23.
Definition StatusErrQuotaBytes : Z := 0x30.
Definition StatusErrPinQuota : Z := 0x31.
Definition StatusErrTooLarge : Z := 0x32.
Definition StatusErrBatchTooLarge : Z := 0x33.
Definition StatusErrBusy : Z := 0x34.
Definition StatusErrChecksum : Z := 0x40.
Definition StatusErrShortStream : Z := 0x41.
Definition StatusErrStaleStream : Z := 0x42.
Definition StatusErrImmutableConflict : Z := 0x43.
Definition StatusErrLeased : Z := 0x44.
Definition StatusErrPinned : Z := 0x45.
Definition StatusErrUnsupported : Z := 0x50.
Definition StatusErrMalformed : Z := 0x51.
Definition StatusErrInternal : Z := 0x60.
Definition StatusFatalProtocol : Z := 0xF0.

Definition FeatOOO : Z := 1 <<| 0.
Definition FeatExistsBitmap : Z := 1 <<| 1.
Definition FeatPayloadCRC32C : Z := 1 <<| 2.
Definition FeatCreditSymmetric : Z := 1 <<| 3.
Definition FeatTLSUpgrade : Z := 1 <<| 4.

Definition DefaultMaxBatchKeys : Z := 512.
Definition FloorMaxBatchKeys : Z := 128.
Definition DefaultMaxFrameLen : Z := 256 <<| 20.
Definition FloorMaxFrameLen : Z := 16 <<| 20.
Definition DefaultMaxBlobLen : Z := 32 <<| 20.
Definition FloorMaxBlobLen : Z := 4 <<| 20.
Definition DefaultInitialCredit : Z := 128 <<| 20.
Definition FloorInitialCredit : Z := 16 <<| 20.
Definition DefaultLeaseMS : Z := 5000.
Definition MaxLeaseMS : Z := 60000.
Definition DefaultStreamTimeoutMS : Z := 30000.
Definition CapMaxFrameLen : Z := 1 <<| 30.
Definition CapMaxBatchKeys : Z := 65536.
Definition CapInitialCredit : Z := 1 <<| 30.

End Ops.
Import Ops.

Module Crc.

(** hash/crc32 for the Castagnoli table: the bit-reflected polynomial, the
    register complemented on entry and on exit. *)
Definition castagnoli : Z := 0x82F63B78.

Definition crc_bit (c : Z) : Z :=
  if Z.odd c then Z.lxor (c >>| 1) castagnoli else c >>| 1.

Definition crc_byte (c : Z) (b : Init.Byte.byte) : Z :=
  Nat.iter 8 crc_bit (Z.lxor c (byte.unsigned b)).

Definition crc_run (c : Z) (p : bytes) : Z := fold_left crc_byte p c.

(** [crc32.Update(crc, castagnoli, p)]. *)
Definition crc32_update (crc : Z) (p : bytes) : Z :=
  Z.lxor (crc_run (Z.lxor crc 0xFFFFFFFF) p) 0xFFFFFFFF.

(** [crc32.Checksum(p, castagnoli)]. *)
Definition crc32_checksum (p : bytes) : Z := crc32_update 0 p.

End Crc.
Import Crc.

Module Hdr.

Definition HeaderSize : Z := 64.
Definition Version1 : Z := 0x01.
Definition magicLE : Z := 0x3142564B.
Definition magicOffset : Z := 0.
Definition versionOffset : Z := 4.
Definition opcodeOffset : Z := 5.
Definition flagsOffset : Z := 6.
Definition namespaceOffset : Z := 8.
Definition creditOffset : Z := 12.
Definition requestIDOffset : Z := 16.
Definition keyOffset : Z := 24.
Definition payloadOffset : Z := 56.
Definition crcOffset : Z := 60.

Record Header := mkHeader {
  Magic : bytes;
  Version : Z;
  Opcode : Z;
  Flags : Z;
  NamespaceID : Z;
  Credit : Z;
  RequestID : Z;
  Key : bytes;
  PayloadLen : Z;
  CRC : Z
}.

(** Go's zero [Header]. *)
Definition zeroHeader : Header :=
  mkHeader (zeros 4) 0 0 0 0 0 0 (zeros 32) 0 0.

Inductive frameError :=
| ErrShortHeader | ErrBadMagic | ErrBadVersion | ErrBadCRC | ErrPayloadTooLarge.

#[export] Instance frameError_eq_dec : EqDecision frameError.
Proof. solve_decision. Defined.

(** The [fatal] field of the sentinel, which [errors.Is(err, ErrFatalFrame)]
    reports. *)
Definition fatal (e : frameError) : bool :=
  match e with ErrPayloadTooLarge => false | _ => true end.

Definition HeaderCRC (b : bytes) : option Z :=
  _ ← index b (crcOffset - 1);
  s ← slice b 0 crcOffset;
  Some (crc32_checksum s).

Definition ParseHeader (b : bytes) (maxPayloadLen : Z) : option (Header * option frameError) :=
  if len b <? HeaderSize then Some (zeroHeader, Some ErrShortHeader) else
  magic ← le_at 4 b magicOffset;
  if negb (magic =? magicLE) then Some (zeroHeader, Some ErrBadMagic) else
  version ← byte_at b versionOffset;
  if negb (version =? Version1) then Some (zeroHeader, Some ErrBadVersion) else
  wireCRC ← le_at 4 b crcOffset;
  crc ← HeaderCRC b;
  if negb (wireCRC =? crc) then Some (zeroHeader, Some ErrBadCRC) else
  opcode ← byte_at b opcodeOffset;
  flags ← le_at 2 b flagsOffset;
  namespaceID ← le_at 4 b namespaceOffset;
  credit ← le_at 4 b creditOffset;
  requestID ← le_at 8 b requestIDOffset;
  key ← slice b keyOffset (keyOffset + 32);
  payloadLen ← le_at 4 b payloadOffset;
  let h := mkHeader (le_split 4 magicLE) version opcode flags namespaceID credit
                    requestID key payloadLen wireCRC in
  if maxPayloadLen <? payloadLen then Some (h, Some ErrPayloadTooLarge)
  else Some (h, None).

Definition MarshalTo (h : Header) (b : bytes) : option bytes :=
  _ ← index b (HeaderSize - 1);
  b ← le_put 4 b magicOffset magicLE;
  b ← store b versionOffset (byte.of_Z Version1);
  b ← store b opcodeOffset (byte.of_Z (Opcode h));
  b ← le_put 2 b flagsOffset (Flags h);
  b ← le_put 4 b namespaceOffset (NamespaceID h);
  b ← le_put 4 b creditOffset (Credit h);
  b ← le_put 8 b requestIDOffset (RequestID h);
  b ← copy_at b keyOffset (Key h);
  b ← le_put 4 b payloadOffset (PayloadLen h);
  crc ← HeaderCRC b;
  le_put 4 b crcOffset crc.

(** The type invariant of a [Header]: every field is a value of its Go type. *)
Record header_ok (h : Header) : Prop := mkHeaderOk {
  ok_opcode : fits 8 (Opcode h);
  ok_flags : fits 16 (Flags h);
  ok_ns : fits 32 (NamespaceID h);
  ok_credit : fits 32 (Credit h);
  ok_reqid : fits 64 (RequestID h);
  ok_key : length (Key h) = 32%nat;
  ok_plen : fits 32 (PayloadLen h)
}.

End Hdr.
Import Hdr.

Example crc_check_vector :
  crc32_checksum (byte.of_Z <$> [49;50;51;52;53;54;55;56;57]) = 0xE3069283.
Proof. vm_compute. reflexivity. Qed.

(** testdata/frames/example-a-request.hex: the header of the golden
    BATCH_EXISTS request. *)
Example golden_example_a_request :
  MarshalTo (mkHeader [] 0 OpBatchExists 0 7 0 0x1001 (zeros 32) 0x68 0) (zeros 64)
  = Some (byte.of_Z <$>
      [0x4b;0x56;0x42;0x31;0x01;0x02;0;0;0x07;0;0;0;0;0;0;0;0x01;0x10;0;0;0;0;0;0;
       0;0;0;0;0;0;0;0;0;0;0;0;0;0;0;0;0;0;0;0;0;0;0;0;0;0;0;0;0;0;0;0;
       0x68;0;0;0;0xff;0xa7;0x2e;0x5f]).
Proof. vm_compute. reflexivity. Qed.

(** ** CRC32C: linearity and burst detection *)

Module CrcFacts.

Lemma crc_bit_lxor x y : crc_bit (Z.lxor x y) = Z.lxor (crc_bit x) (crc_bit y).
Proof.
  unfold crc_bit. rewrite <- !Z.bit0_odd, Z.lxor_spec, Z.shiftr_lxor.
  apply Z.bits_inj; intros i.
  destruct (Z.testbit x 0), (Z.testbit y 0); simpl; rewrite !Z.lxor_spec;
    by destruct (Z.testbit (x >>| 1) i), (Z.testbit (y >>| 1) i), (Z.testbit castagnoli i).
Qed.

Lemma crc_iter_lxor n x y :
  Nat.iter n crc_bit (Z.lxor x y) = Z.lxor (Nat.iter n crc_bit x) (Nat.iter n crc_bit y).
Proof. induction n; simpl; [done|]. by rewrite IHn, crc_bit_lxor. Qed.

Lemma fits_lxor w x y : 0 <= w -> fits w x -> fits w y -> fits w (Z.lxor x y).
Proof.
  intros Hw Hx Hy. apply fits_of_testbit; [done| |].
  - destruct Hx, Hy. apply Z.lxor_nonneg. done.
  - intros i Hi. rewrite Z.lxor_spec.
    by rewrite (fits_testbit w x), (fits_testbit w y).
Qed.

Lemma crc_bit_fits c : fits 32 c -> fits 32 (crc_bit c).
Proof.
  intros [Hl Hh]. unfold crc_bit.
  assert (fits 32 (c >>| 1)).
  { rewrite Z.shiftr_div_pow2 by lia. split; [apply Z.div_pos; lia|].
    eapply Z.le_lt_trans; [apply Z.div_le_upper_bound with (q := c)|]; lia. }
  case_if; [|done]. by apply fits_lxor; [lia| |split; vm_compute].
Qed.

Lemma crc_iter_fits n c : fits 32 c -> fits 32 (Nat.iter n crc_bit c).
Proof. induction n; simpl; auto using crc_bit_fits. Qed.

Lemma crc_bit_zero c : fits 32 c -> crc_bit c = 0 -> c = 0.
Proof.
  intros [Hl Hh]. unfold crc_bit. rewrite Z.shiftr_div_pow2 by lia. case_if.
  - intros Hx%Z.lxor_eq. exfalso.
    assert (c `div` 2 ^ 1 < 2 ^ 31) by (apply Z.div_lt_upper_bound; lia).
    rewrite Hx in *. unfold castagnoli in *. lia.
  - intros Hx. pose proof (Z.div_mod c 2 ltac:(lia)) as Hd. change (2 ^ 1) with 2 in Hx.
    rewrite Zmod_odd, Hif in Hd. lia.
Qed.

Lemma crc_iter_inj n c d :
  fits 32 c -> fits 32 d -> Nat.iter n crc_bit c = Nat.iter n crc_bit d -> c = d.
Proof.
  intros Hc Hd He. apply Z.lxor_eq.
  assert (Nat.iter n crc_bit (Z.lxor c d) = 0) as Hz
    by (by rewrite crc_iter_lxor, He, Z.lxor_nilpotent).
  assert (fits 32 (Z.lxor c d)) as Hf by (by apply fits_lxor).
  revert Hz. generalize dependent (Z.lxor c d). clear. intros x Hx.
  induction n; simpl; [done|]. intros ?%crc_bit_zero; [auto|]. by apply crc_iter_fits.
Qed.

Lemma crc_iter_shiftl n x :
  Nat.iter n crc_bit (x <<| Z.of_nat n) = x.
Proof.
  revert x; induction n; intros x; [by rewrite Z.shiftl_0_r|].
  rewrite Nat.iter_succ_r. rewrite <- (IHn x) at 2. f_equal. unfold crc_bit.
  rewrite <- Z.bit0_odd, Z.shiftl_spec_low by lia.
  rewrite Z.shiftr_shiftl_l by lia. f_equal. lia.
Qed.

(** A run over [w] folds the little-endian value of [w] into the register. *)
Lemma crc_run_word c (w : bytes) :
  crc_run c w = Nat.iter (8 * length w) crc_bit (Z.lxor c (le_combine w)).
Proof.
  revert c; induction w as [|b w IH]; intros c.
  - by rewrite le_combine_nil, Z.lxor_0_r.
  - change (crc_run c (b :: w)) with (crc_run (crc_byte c b) w).
    rewrite IH. unfold crc_byte.
    replace (8 * length (b :: w))%nat with (8 * length w + 8)%nat by (simpl; lia).
    rewrite Nat.iter_add. f_equal.
    rewrite <- (crc_iter_shiftl 8 (le_combine w)) at 1.
    rewrite <- crc_iter_lxor. f_equal. rewrite Z.lxor_assoc. f_equal.
    change (le_combine (b :: w)) with (Z.lor (byte.unsigned b) (le_combine w <<| 8)).
    symmetry. change (Z.of_nat 8) with 8. apply Z.bits_inj; intros i. rewrite Z.lor_spec, Z.lxor_spec.
    destruct (Z.ltb_spec i 8).
    + rewrite (Z.shiftl_spec_low _ 8 i) by lia. by destruct (Z.testbit _ _).
    + rewrite (fits_testbit 8 (byte.unsigned b) i); [by destruct (Z.testbit _ _)|lia| |lia].
      pose proof (byte.unsigned_range b). done.
Qed.

Lemma crc_run_app c p q : crc_run c (p ++ q) = crc_run (crc_run c p) q.
Proof. unfold crc_run. apply fold_left_app. Qed.

Lemma crc_byte_fits c b : fits 32 c -> fits 32 (crc_byte c b).
Proof.
  intros. apply crc_iter_fits, fits_lxor; [lia|done|].
  apply (fits_weaken 8); [lia|]. apply byte.unsigned_range.
Qed.

Lemma crc_run_fits c p : fits 32 c -> fits 32 (crc_run c p).
Proof. revert c; induction p; simpl; auto using crc_byte_fits. Qed.

Lemma crc_run_inj c d p :
  fits 32 c -> fits 32 d -> crc_run c p = crc_run d p -> c = d.
Proof.
  intros Hc Hd. revert c d Hc Hd; induction p as [|b p IH]; simpl; [done|].
  intros c d Hc Hd He%IH; [|by apply crc_byte_fits..].
  assert (fits 32 (byte.unsigned b))
    by (apply (fits_weaken 8); [lia|]; apply byte.unsigned_range).
  apply crc_iter_inj in He; [|by apply fits_lxor..].
  apply (f_equal (fun x => Z.lxor x (byte.unsigned b))) in He.
  by rewrite !Z.lxor_assoc, Z.lxor_nilpotent, !Z.lxor_0_r in He.
Qed.

Lemma crc32_fits p : fits 32 (crc32_checksum p).
Proof. apply fits_lxor; [lia| |by split; vm_compute]. apply crc_run_fits. by split; vm_compute. Qed.

(** CRC32C tells apart any two messages that differ only inside a window of
    at most four consecutive bytes. *)
Lemma crc32_burst (pre w w' post : bytes) :
  length w = length w' -> (length w <= 4)%nat ->
  crc32_checksum (pre ++ w ++ post) = crc32_checksum (pre ++ w' ++ post) -> w = w'.
Proof.
  intros Hl H4 He. unfold crc32_checksum, crc32_update in He.
  apply (f_equal (fun x => Z.lxor x 0xFFFFFFFF)) in He.
  rewrite !Z.lxor_assoc, Z.lxor_nilpotent, !Z.lxor_0_r, !crc_run_app in He.
  set (s := crc_run _ pre) in He.
  assert (fits 32 s) as Hs by (apply crc_run_fits; by split; vm_compute).
  apply crc_run_inj in He; [|by apply crc_run_fits..].
  rewrite !crc_run_word, <- Hl in He.
  assert (fits 32 (le_combine w) /\ fits 32 (le_combine w')) as [? ?].
  { split; apply (le_combine_fits _ 4); lia. }
  apply crc_iter_inj in He; [|by apply fits_lxor..].
  apply (f_equal (Z.lxor s)) in He.
  rewrite <- !Z.lxor_assoc, Z.lxor_nilpotent, !Z.lxor_0_l in He.
  by apply le_combine_inj.
Qed.

End CrcFacts.
Import CrcFacts.

(** ** The header layout *)

Module HdrFacts.

(** The sixty protected bytes of a marshalled header. *)
Definition header_prefix (h : Header) : bytes :=
  le_split 4 magicLE ++ [byte.of_Z Version1] ++ [byte.of_Z (Opcode h)] ++
  le_split 2 (Flags h) ++ le_split 4 (NamespaceID h) ++ le_split 4 (Credit h) ++
  le_split 8 (RequestID h) ++ Key h ++ le_split 4 (PayloadLen h).

Lemma len_header_prefix h : length (Key h) = 32%nat -> len (header_prefix h) = 60.
Proof. intros Hk. unfold header_prefix. len_simpl. unfold len; simpl; lia. Qed.

Lemma headerCRC_app (p r : bytes) : len p = 60 -> HeaderCRC (p ++ r) = Some (crc32_checksum p).
Proof.
  intros Hp. unfold HeaderCRC. destruct (index_some (p ++ r) (crcOffset - 1)) as [x ->].
  { rewrite len_app. pose proof (len_nonneg r). unfold crcOffset. lia. }
  simpl. by rewrite slice_here by done.
Qed.

Lemma marshal_layout h (old r : bytes) :
  length (Key h) = 32%nat -> len old = HeaderSize ->
  MarshalTo h (old ++ r) =
  Some (header_prefix h ++ le_split 4 (crc32_checksum (header_prefix h)) ++ r).
Proof.
  intros Hk Hb. assert (len (Key h) = 32) as Hkl by (unfold len; lia).
  unfold MarshalTo, HeaderSize in *. destruct (index_some (old ++ r) (64 - 1)) as [x ->].
  { len_simpl. pose proof (len_nonneg r). lia. }
  cbn [mbind option_bind]. clear x.
  cut_field old 4. cut_field old 1. cut_field old 1. cut_field old 2. cut_field old 4.
  cut_field old 4. cut_field old 8. cut_field old 32. cut_field old 4. 
  destruct (len_one_singleton f0) as [y ->], (len_one_singleton f1) as [z ->]; try done.
  rewrite <- !app_assoc.
  unfold magicOffset, versionOffset, opcodeOffset, flagsOffset, namespaceOffset,
    creditOffset, requestIDOffset, keyOffset, payloadOffset.
  assert (len old = 4) by lia.
  repeat field_step.
  replace (_ ++ _) with (header_prefix h ++ old ++ r) by (unfold header_prefix; by rewrite <- !app_assoc).
  rewrite headerCRC_app by (by apply len_header_prefix).
  cbn [mbind option_bind]. apply le_put_here; [by rewrite len_header_prefix|unfold len in *; lia].
Qed.

(** The header after [MarshalTo] stamped its derived fields. *)
Definition stamped (h : Header) : Header :=
  mkHeader (le_split 4 magicLE) Version1 (Opcode h) (Flags h) (NamespaceID h) (Credit h)
    (RequestID h) (Key h) (PayloadLen h) (crc32_checksum (header_prefix h)).

(** Sixty-four bytes as a header: the three fields [ParseHeader] verifies and
    the ones it returns. *)
Definition header_bytes (magic version crc : Z) (h : Header) : bytes :=
  le_split 4 magic ++ [byte.of_Z version] ++ [byte.of_Z (Opcode h)] ++
  le_split 2 (Flags h) ++ le_split 4 (NamespaceID h) ++ le_split 4 (Credit h) ++
  le_split 8 (RequestID h) ++ Key h ++ le_split 4 (PayloadLen h) ++ le_split 4 crc.

Lemma header_view (b : bytes) :
  HeaderSize <= len b ->
  exists magic version crc h r, b = header_bytes magic version crc h ++ r /\
    fits 32 magic /\ fits 8 version /\ fits 32 crc /\ header_ok h.
Proof.
  unfold HeaderSize. intros. cut_int b 4%nat m. cut_uint8 b v. cut_uint8 b op.
  cut_int b 2%nat fl. cut_int b 4%nat ns. cut_int b 4%nat cr. cut_int b 8%nat rq.
  cut_field b 32. cut_int b 4%nat pl. cut_int b 4%nat crc.
  exists m, v, crc, (mkHeader [] 0 op fl ns cr rq f pl 0), b. unfold header_bytes; simpl.
  rewrite <- !app_assoc. split_and!; try done.
  constructor; try done. simpl. unfold len in *. lia.
Qed.

Lemma header_bytes_prefix h crc :
  header_bytes magicLE Version1 crc h = header_prefix h ++ le_split 4 crc.
Proof. unfold header_bytes, header_prefix. by rewrite <- !app_assoc. Qed.

Lemma len_header_bytes m v crc h : length (Key h) = 32%nat -> len (header_bytes m v crc h) = 64.
Proof. intros. unfold header_bytes. len_simpl. unfold len; simpl; lia. Qed.

(** [ParseHeader] on a header seen as fields: the checks in their order. *)
Lemma parse_header_bytes m v crc h r maxLen :
  fits 32 m -> fits 8 v -> fits 32 crc -> header_ok h ->
  ParseHeader (header_bytes m v crc h ++ r) maxLen =
  Some (if negb (m =? magicLE) then (zeroHeader, Some ErrBadMagic)
        else if negb (v =? Version1) then (zeroHeader, Some ErrBadVersion)
        else if negb (crc =? crc32_checksum (header_prefix h)) then (zeroHeader, Some ErrBadCRC)
        else if maxLen <? PayloadLen h then (stamped h, Some ErrPayloadTooLarge)
        else (stamped h, None)).
Proof.
  intros Hm Hv Hc []. unfold ParseHeader, HeaderSize. rewrite len_app, len_header_bytes by done.
  pose proof (len_nonneg r). replace (_ <? _) with false by lia.
  assert (len (Key h) = 32) by (unfold len; lia).
  assert (m = magicLE -> v = Version1 ->
    HeaderCRC (header_bytes m v crc h ++ r) = Some (crc32_checksum (header_prefix h))) as Hcrc.
  { intros -> ->. rewrite header_bytes_prefix, <- app_assoc.
    by rewrite headerCRC_app by (by apply len_header_prefix). }
  revert Hcrc. unfold header_bytes. rewrite <- !app_assoc. intros Hcrc.
  unfold magicOffset, versionOffset, opcodeOffset, flagsOffset, namespaceOffset,
    creditOffset, requestIDOffset, keyOffset, payloadOffset, crcOffset.
  repeat field_step.
  do 2 (case_if; [done|]). rewrite Hcrc by (bool_props; lia). simpl.
  case_if; [done|]. bool_props. subst. by case_if.
Qed.

(** What [ParseHeader] answers is complete: it never indexes past its input;
    every error but the payload cap is fatal and carries the zero header. *)
Definition parse_post (maxLen : Z) (r : Header * option frameError) : Prop :=
  match r with
  | (h, None) => header_ok h /\ PayloadLen h <= maxLen
  | (h, Some ErrPayloadTooLarge) => header_ok h /\ maxLen < PayloadLen h
  | (h, Some e) => h = zeroHeader /\ fatal e = true
  end.

Lemma stamped_ok h : header_ok h -> header_ok (stamped h).
Proof. by intros []. Qed.

(** A parse that got past the checks saw exactly a marshalled header. *)
Lemma parse_header_accepts b maxLen h e :
  ParseHeader b maxLen = Some (h, e) -> (forall x, e = Some x -> fatal x = false) ->
  header_ok h /\ h = stamped h /\
  exists r, b = header_prefix h ++ le_split 4 (crc32_checksum (header_prefix h)) ++ r.
Proof.
  intros Hp He. destruct (decide (HeaderSize <= len b)) as [Hl|Hl].
  - destruct (header_view b Hl) as (m & v & crc & h' & r & -> & ? & ? & ? & Hok).
    rewrite parse_header_bytes in Hp by done. injection Hp as Hp.
    repeat (case_if_in Hp; [injection Hp as <- <-; by specialize (He _ eq_refl)|]).
    bool_props. subst m v crc.
    assert (h = stamped h') as -> by (case_if_in Hp; congruence).
    split_and!; [by apply stamped_ok|done|]. exists r.
    by rewrite header_bytes_prefix, <- app_assoc.
  - unfold ParseHeader in Hp. replace (_ <? _) with true in Hp by lia.
    injection Hp as <- <-. by specialize (He _ eq_refl).
Qed.

(** A parse either gets past the checks or is rejected fatally. *)
Lemma parse_header_verdict b maxLen :
  exists h e, ParseHeader b maxLen = Some (h, e) /\
    ((forall x, e = Some x -> fatal x = false) \/
     (h = zeroHeader /\ exists x, e = Some x /\ fatal x = true)).
Proof.
  destruct (decide (HeaderSize <= len b)) as [Hl|Hl].
  - destruct (header_view b Hl) as (m & v & crc & h & r & -> & ? & ? & ? & Hok).
    rewrite parse_header_bytes by done.
    do 3 (case_if; [eexists _, _; split; [done|right; eauto]|]).
    case_if; eexists _, _; (split; [done|left; naive_solver]).
  - unfold ParseHeader. replace (_ <? _) with true by lia.
    eexists _, _. split; [done|right; eauto].
Qed.

(** [MarshalTo] then [ParseHeader] is the identity on every well-typed
    header, up to the three fields the marshaller stamps; bytes past the
    header are untouched; the only error possible is the payload cap, and then
    the header is still returned. *)
Theorem header_roundtrip (h : Header) (b : bytes) (maxLen : Z)
    (Hok : header_ok h) (Hlen : HeaderSize <= len b) :
  exists b', MarshalTo h b = Some b' /\ drop 64 b' = drop 64 b /\ len b' = len b /\
    ParseHeader b' maxLen =
    Some (stamped h, if maxLen <? PayloadLen h then Some ErrPayloadTooLarge else None).
Proof.
  destruct (cut_at HeaderSize b) as (old & r & -> & Hold); [unfold HeaderSize in *; lia|].
  rewrite marshal_layout by (done || by destruct Hok). eexists; split; [done|].
  pose proof (len_header_prefix h (ok_key _ Hok)) as Hp.
  assert (len (le_split 4 (crc32_checksum (header_prefix h))) = 4) as Hc by (by len_simpl).
  split_and!.
  - rewrite app_assoc, !drop_app_length';
      [done|unfold HeaderSize, len in *..]; rewrite ?length_app; lia.
  - unfold HeaderSize in *. len_simpl. lia.
  - rewrite app_assoc, <- header_bytes_prefix.
    rewrite parse_header_bytes; [|by split; vm_compute..|apply crc32_fits|done].
    rewrite !Z.eqb_refl. simpl. by case_if.
Qed.

Definition exampleHeader : Header :=
  mkHeader [] 0 OpBatchGet 0 7 16 99 (zeros 32) 1000 0.

Lemma exampleHeader_ok : header_ok exampleHeader.
Proof. constructor; (reflexivity || (split; [discriminate|reflexivity])). Defined.

Lemma header_roundtrip_witness :
  exists b', MarshalTo exampleHeader (zeros 70) = Some b' /\ drop 64 b' = drop 64 (zeros 70) /\
    len b' = len (zeros 70) /\
    ParseHeader b' 100 = Some (stamped exampleHeader, Some ErrPayloadTooLarge).
Proof. apply (header_roundtrip exampleHeader (zeros 70) 100 exampleHeader_ok). discriminate. Defined.

(** C33: [ParseHeader] is total on arbitrary bytes (it never indexes out of
    range); a success is a well-typed header within the cap; the payload cap
    is the only non-fatal error and reports the header; every other error is
    fatal and reports the zero header. *)
Theorem parse_header_total (b : bytes) (maxLen : Z) :
  exists r, ParseHeader b maxLen = Some r /\ parse_post maxLen r.
Proof.
  destruct (decide (HeaderSize <= len b)) as [Hl|Hl].
  - destruct (header_view b Hl) as (m & v & crc & h & r & -> & ? & ? & ? & Hok).
    rewrite parse_header_bytes by done. eexists; split; [done|].
    repeat (case_if; [by split|]). case_if; bool_props; (split; [by apply stamped_ok|simpl; lia]).
  - unfold ParseHeader. replace (_ <? _) with true by lia. by eexists.
Qed.

(** C32: the wire form of a header is canonical: a buffer whose header is
    accepted (or only over the cap) is, byte for byte, what marshalling the
    parsed header writes over it. *)
Theorem parse_header_canonical (b : bytes) (maxLen : Z) (h : Header) (e : option frameError)
    (Hp : ParseHeader b maxLen = Some (h, e)) (He : forall x, e = Some x -> fatal x = false) :
  header_ok h /\ MarshalTo h b = Some b.
Proof.
  destruct (parse_header_accepts _ _ _ _ Hp He) as (Hok & _ & r & Hb). split; [done|].
  rewrite Hb at 1. rewrite app_assoc, marshal_layout.
  - by rewrite Hb.
  - apply Hok.
  - len_simpl. by rewrite len_header_prefix by apply Hok.
Qed.

Lemma parse_header_canonical_witness :
  header_ok (stamped exampleHeader) /\
  MarshalTo (stamped exampleHeader) (header_bytes magicLE Version1
     (crc32_checksum (header_prefix exampleHeader)) exampleHeader) =
  Some (header_bytes magicLE Version1
     (crc32_checksum (header_prefix exampleHeader)) exampleHeader).
Proof.
  apply (parse_header_canonical _ 4096 _ None); [vm_compute; reflexivity|discriminate].
Defined.

(** a header damaged in transit is dropped with the connection: when a
    buffer parses, any buffer that differs from it only inside a window of at
    most four consecutive protected bytes is rejected with a fatal error. *)
Theorem parse_header_burst (pre w w' post rest : bytes) (maxLen maxLen' : Z) (h : Header)
    (Hlen : len (pre ++ w ++ post) = crcOffset)
    (Hw : length w = length w') (H4 : (length w <= 4)%nat) (Hne : w <> w')
    (Hp : ParseHeader (pre ++ w ++ post ++ rest) maxLen = Some (h, None)) :
  exists e, ParseHeader (pre ++ w' ++ post ++ rest) maxLen' = Some (zeroHeader, Some e) /\
    fatal e = true.
Proof.
  destruct (parse_header_verdict (pre ++ w' ++ post ++ rest) maxLen')
    as (h' & e & Hp' & [He|(-> & x & -> & Hx)]); [|by eauto].
  exfalso. apply Hne.
  destruct (parse_header_accepts _ _ _ _ Hp) as (Hok & _ & r & Hb); [done|].
  destruct (parse_header_accepts _ _ _ _ Hp' He) as (Hok' & _ & r' & Hb').
  rewrite (app_assoc w), (app_assoc pre) in Hb. rewrite (app_assoc w'), (app_assoc pre) in Hb'.
  apply crc32_burst with pre post; [done..|].
  pose proof (len_header_prefix h (ok_key _ Hok)) as Lp.
  pose proof (len_header_prefix h' (ok_key _ Hok')) as Lp'.
  assert (len (pre ++ w' ++ post) = crcOffset) as Hlen'
    by (rewrite <- Hlen; len_simpl; unfold len; lia).
  unfold crcOffset in *.
  apply app_inj_1 in Hb as [-> Hr]; [|unfold len in *; lia].
  apply app_inj_1 in Hb' as [-> Hr']; [|unfold len in *; lia].
  rewrite Hr in Hr'. apply app_inj_1 in Hr' as [Hcrc _]; [|by rewrite !length_le_split].
  apply (f_equal le_combine) in Hcrc. rewrite !le_combine_split in Hcrc.
  by rewrite !fits_mod in Hcrc by apply crc32_fits.
Qed.

Lemma parse_header_burst_witness :
  exists e, ParseHeader (le_split 4 magicLE ++ [byte.of_Z 3] ++
      drop 5 (header_bytes magicLE Version1 (crc32_checksum (header_prefix exampleHeader))
                exampleHeader)) 4096 = Some (zeroHeader, Some e) /\ fatal e = true.
Proof.
  apply (parse_header_burst (le_split 4 magicLE) [byte.of_Z 1] [byte.of_Z 3]
    (drop 5 (header_prefix exampleHeader))
    (le_split 4 (crc32_checksum (header_prefix exampleHeader))) 4096 4096 (stamped exampleHeader));
    [reflexivity|reflexivity|repeat constructor|discriminate|vm_compute; reflexivity].
Defined.

End HdrFacts.
