(* ===== verification/Bodies.v ===== *)
(** Body codecs of the wire protocol: [internal/protocol/batch.go].

    Encoders are append-style functions on byte lists. Decoders return
    [None] where the Go code would panic and otherwise the tuple of results
    with the sentinel error as an [option bodyError]. Conversions to [int] are
    explicit ([sint iw]) with the platform's word size [iw] as an argument, so
    that the statements cover 32-bit builds. *)

From Stdlib Require Import ZArith Lia.
From coqutil Require Import Byte Word.LittleEndianList.
From stdpp Require Import base list.
From S2P Require Import Prelude.
From S2P Require Import Wire.
Import Ops.
Open Scope Z_scope.
Open Scope go_scope.

Module Body.

Inductive bodyError := ErrBodyLength | ErrKeyCount.

#[export] Instance bodyError_eq_dec : EqDecision bodyError.
Proof. solve_decision. Defined.

(** The [status] field of the sentinel. *)
Definition status (e : bodyError) : Z :=
  match e with
  | ErrBodyLength => StatusErrMalformed
  | ErrKeyCount => StatusErrBatchTooLarge
  end.

(** A Go [error]: a chain that holds a [*bodyError], or anything else. *)
Inductive goError := BodyErr (e : bodyError) | OtherErr.

Definition ErrorStatus (err : goError) : Z :=
  match err with BodyErr be => status be | OtherErr => StatusErrInternal end.

Definition padTo8 (iw n : Z) : Z := (sint iw (n + 7)) &^ 7.

Definition padTo8u64 (n : Z) : Z := (u64 (n + 7)) &^ 7.

(** The loop of [appendPad8] appends one zero per [i] in [unpadded, padTo8). *)
Definition appendPad8 (iw : Z) (dst : bytes) (unpadded : Z) : bytes :=
  dst ++ zeros (Z.to_nat (padTo8 iw unpadded - unpadded)).

(** ** Uniform response preamble *)

Definition PreambleSize : Z := 8.

Record Preamble := mkPreamble { Status : Z; Count : Z }.

Definition zeroPreamble : Preamble := mkPreamble 0 0.

Definition AppendPreamble (dst : bytes) (st count : Z) : bytes :=
  le_append 4 (dst ++ [byte.of_Z st; byte.of_Z 0; byte.of_Z 0; byte.of_Z 0]) count.

Definition DecodePreamble (b : bytes) : option (Preamble * option bodyError) :=
  if len b <? PreambleSize then Some (zeroPreamble, Some ErrBodyLength) else
  st ← byte_at b 0;
  count ← le_at 4 b 4;
  Some (mkPreamble st count, None).

Definition AppendErrorResp (dst : bytes) (st : Z) : bytes := AppendPreamble dst st 0.

(** ** Key lists *)

(** The loop over the keys: iteration [i] copies 32 bytes from [8 + 32*i]. *)
Fixpoint decodeKeys (iw : Z) (body : bytes) (i : Z) (cnt : nat) (dst : list bytes)
    : option (list bytes) :=
  match cnt with
  | O => Some dst
  | S cnt =>
      src ← slice_from body (sint iw (8 + 32 * i));
      k ← copy_at (zeros 32) 0 src;
      decodeKeys iw body (i + 1) cnt (dst ++ [k])
  end.

Definition DecodeKeyList (iw : Z) (body : bytes) (maxKeys : Z) (dst : list bytes)
    : option (Z * list bytes * option bodyError) :=
  if len body <? 8 then Some (0, dst, Some ErrBodyLength) else
  n ← le_at 4 body 0;
  if maxKeys <? n then Some (0, dst, Some ErrKeyCount) else
  if negb (len body =? sint iw (8 + 32 * sint iw n)) then Some (0, dst, Some ErrBodyLength) else
  aux ← le_at 4 body 4;
  keys ← decodeKeys iw body 0 (Z.to_nat (sint iw n)) dst;
  Some (aux, keys, None).

Definition AppendKeyList (dst : bytes) (aux : Z) (keys : list bytes) : bytes :=
  foldl app (le_append 4 (le_append 4 dst (u32 (len keys))) aux) keys.

(** ** BATCH_EXISTS responses *)

(** [perKey = None] is Go's [nil]: the bitmap was not negotiated. *)
Definition AppendExistsResp (iw : Z) (dst : bytes) (nKeys nConsecutive : Z)
    (perKey : option (list Z)) : bytes :=
  let dst := AppendPreamble dst StatusOK nKeys in
  let dst := le_append 4 dst nConsecutive in
  let dst := le_append 4 dst 0 in
  match perKey with
  | Some l => appendPad8 iw (dst ++ (byte.of_Z <$> l)) (len l)
  | None => dst
  end.

Record ExistsResp := mkExistsResp {
  er_preamble : Preamble;
  NConsecutive : Z;
  PerKey : option bytes
}.

Definition zeroExistsResp : ExistsResp := mkExistsResp zeroPreamble 0 None.

Definition okStatus (st : Z) : bool := (st =? StatusOK) || (st =? StatusOKExists).

Definition DecodeExistsResp (iw : Z) (body : bytes) (expectBitmap : bool)
    : option (ExistsResp * option bodyError) :=
  '(p, err) ← DecodePreamble body;
  if err is Some e then Some (zeroExistsResp, Some e) else
  if negb (okStatus (Status p)) then
    if negb (len body =? PreambleSize) || negb (Count p =? 0)
    then Some (zeroExistsResp, Some ErrBodyLength)
    else Some (mkExistsResp p 0 None, None)
  else
  let want64 := if expectBitmap then u64 (PreambleSize + 8 + padTo8u64 (Count p))
                else PreambleSize + 8 in
  if negb (u64 (len body) =? want64) then Some (zeroExistsResp, Some ErrBodyLength) else
  nc ← le_at 4 body PreambleSize;
  if expectBitmap then
    let n := sint iw (Count p) in
    pk ← slice body (PreambleSize + 8) (sint iw (PreambleSize + 8 + n));
    Some (mkExistsResp p nc (Some pk), None)
  else Some (mkExistsResp p nc None, None).

(** ** Per-key status responses *)

Definition AppendKeyStatusResp (iw : Z) (dst : bytes) (perKey : list Z) : bytes :=
  appendPad8 iw (AppendPreamble dst StatusOK (u32 (len perKey)) ++ (byte.of_Z <$> perKey))
    (len perKey).

Definition DecodeKeyStatusResp (iw : Z) (body : bytes)
    : option (Preamble * option bytes * option bodyError) :=
  '(p, err) ← DecodePreamble body;
  if err is Some e then Some (zeroPreamble, None, Some e) else
  if negb (okStatus (Status p)) then
    if negb (len body =? PreambleSize) || negb (Count p =? 0)
    then Some (zeroPreamble, None, Some ErrBodyLength)
    else Some (p, None, None)
  else
  if negb (u64 (len body) =? u64 (PreambleSize + padTo8u64 (Count p)))
  then Some (zeroPreamble, None, Some ErrBodyLength) else
  let n := sint iw (Count p) in
  pk ← slice body PreambleSize (sint iw (PreambleSize + n));
  Some (p, Some pk, None).

(** ** BATCH_GET response header region *)

Definition DescSize : Z := 16.

Record Desc := mkDesc { d_status : Z; d_len : Z; d_xxh3 : Z }.

#[export] Instance Desc_eq_dec : EqDecision Desc.
Proof. solve_decision. Defined.

Definition PutDesc (b : bytes) (d : Desc) : option bytes :=
  _ ← index b (DescSize - 1);
  b ← store b 0 (byte.of_Z (d_status d));
  b ← store b 1 (byte.of_Z 0);
  b ← store b 2 (byte.of_Z 0);
  b ← store b 3 (byte.of_Z 0);
  b ← le_put 4 b 4 (d_len d);
  le_put 8 b 8 (d_xxh3 d).

Definition GetDesc (b : bytes) : option Desc :=
  _ ← index b (DescSize - 1);
  st ← byte_at b 0;
  l ← le_at 4 b 4;
  x ← le_at 8 b 8;
  Some (mkDesc st l x).

Definition GetRespHeaderSize (nDesc : Z) : Z := PreambleSize + 8 + DescSize * nDesc.

Fixpoint appendDescs (dst : bytes) (descs : list Desc) : option bytes :=
  match descs with
  | [] => Some dst
  | d :: descs =>
      db ← PutDesc (zeros 16) d;
      appendDescs (dst ++ db) descs
  end.

Definition AppendGetRespHeader (dst : bytes) (st firstIndex totalKeys : Z) (descs : list Desc)
    : option bytes :=
  let dst := AppendPreamble dst st (u32 (len descs)) in
  let dst := le_append 4 dst firstIndex in
  let dst := le_append 4 dst totalKeys in
  appendDescs dst descs.

Record GetRespHeader := mkGetRespHeader {
  g_preamble : Preamble;
  FirstIndex : Z;
  TotalKeys : Z;
  descs : bytes
}.

Definition zeroGetRespHeader : GetRespHeader := mkGetRespHeader zeroPreamble 0 0 [].

Definition DecodeGetRespHeader (iw : Z) (body : bytes)
    : option (GetRespHeader * option bodyError) :=
  '(p, err) ← DecodePreamble body;
  if err is Some e then Some (zeroGetRespHeader, Some e) else
  if negb (okStatus (Status p)) then
    if negb (len body =? PreambleSize) || negb (Count p =? 0)
    then Some (zeroGetRespHeader, Some ErrBodyLength)
    else Some (mkGetRespHeader p 0 0 [], None)
  else
  let want64 := u64 (GetRespHeaderSize 0 + u64 (DescSize * Count p)) in
  if u64 (len body) <? want64 then Some (zeroGetRespHeader, Some ErrBodyLength) else
  let want := sint iw want64 in
  fi ← le_at 4 body PreambleSize;
  tk ← le_at 4 body (PreambleSize + 4);
  ds ← slice body (PreambleSize + 8) want;
  Some (mkGetRespHeader p fi tk ds, None).

(** The method [GetRespHeader.Desc]. *)
Definition DescAt (iw : Z) (g : GetRespHeader) (i : Z) : option Desc :=
  b ← slice_from (descs g) (sint iw (i * DescSize));
  GetDesc b.

Definition PayloadOffset (iw : Z) (g : GetRespHeader) : Z :=
  sint iw (GetRespHeaderSize (sint iw (Count (g_preamble g)))).

(** ** HELLO: negotiation *)

Record Limits := mkLimits {
  MaxBatchKeys : Z;
  MaxFrameLen : Z;
  MaxBlobLen : Z;
  InitialCredit : Z
}.

Definition DefaultLimits : Limits :=
  mkLimits DefaultMaxBatchKeys DefaultMaxFrameLen DefaultMaxBlobLen DefaultInitialCredit.

Definition ServerFeatures : Z := Z.lor FeatOOO FeatExistsBitmap.

Definition knownFeatures : Z :=
  Z.lor (Z.lor (Z.lor (Z.lor FeatOOO FeatExistsBitmap) FeatPayloadCRC32C)
               FeatCreditSymmetric) FeatTLSUpgrade.

Definition IntersectFeatures (client server : Z) : Z :=
  Z.land (Z.land client server) knownFeatures.

Definition NegotiateLimits (server : Limits) (clientBatchKeys clientFrameLen : Z) : Limits :=
  let l := server in
  let l :=
    if negb (clientBatchKeys =? 0) then
      let clientBatchKeys :=
        if clientBatchKeys <? FloorMaxBatchKeys then FloorMaxBatchKeys else clientBatchKeys in
      if clientBatchKeys <? MaxBatchKeys l
      then mkLimits clientBatchKeys (MaxFrameLen l) (MaxBlobLen l) (InitialCredit l)
      else l
    else l in
  let l :=
    if negb (clientFrameLen =? 0) then
      let clientFrameLen :=
        if clientFrameLen <? FloorMaxFrameLen then FloorMaxFrameLen else clientFrameLen in
      if clientFrameLen <? MaxFrameLen l
      then mkLimits (MaxBatchKeys l) clientFrameLen (MaxBlobLen l) (InitialCredit l)
      else l
    else l in
  let headroom := u32 (GetRespHeaderSize 1) in
  if u32 (MaxFrameLen l - headroom) <? MaxBlobLen l
  then mkLimits (MaxBatchKeys l) (MaxFrameLen l) (u32 (MaxFrameLen l - headroom))
                (InitialCredit l)
  else l.

(** ** HELLO: bodies *)

Definition helloReqFixed : Z := 36.
Definition MaxHelloBody : Z := helloReqFixed + 3 * 65535 + 7.

Record HelloReq := mkHelloReq {
  ProtoMin : Z;
  ProtoMax : Z;
  Features : Z;
  hr_MaxBatchKeys : Z;
  hr_MaxFrameLen : Z;
  Token : bytes;
  Namespace : bytes;
  ClientName : bytes
}.

Definition zeroHelloReq : HelloReq := mkHelloReq 0 0 0 0 0 [] [] [].

Definition AppendHelloReq (iw : Z) (dst : bytes) (r : HelloReq) : bytes :=
  let start := len dst in
  let dst := dst ++ [byte.of_Z (ProtoMin r); byte.of_Z (ProtoMax r); byte.of_Z 0; byte.of_Z 0] in
  let dst := le_append 8 dst (Features r) in
  let dst := le_append 4 dst (hr_MaxBatchKeys r) in
  let dst := le_append 4 dst (hr_MaxFrameLen r) in
  let dst := le_append 8 dst 0 in
  let dst := le_append 2 dst (u16 (len (Token r))) in
  let dst := le_append 2 dst (u16 (len (Namespace r))) in
  let dst := le_append 2 dst (u16 (len (ClientName r))) in
  let dst := le_append 2 dst 0 in
  let dst := dst ++ Token r in
  let dst := dst ++ Namespace r in
  let dst := dst ++ ClientName r in
  appendPad8 iw dst (len dst - start).

Definition DecodeHelloReq (iw : Z) (body : bytes) : option (HelloReq * option bodyError) :=
  if len body <? helloReqFixed then Some (zeroHelloReq, Some ErrBodyLength) else
  tokenLen ← le_at 2 body 28;
  nsLen ← le_at 2 body 30;
  nameLen ← le_at 2 body 32;
  if negb (len body =? padTo8 iw (helloReqFixed + tokenLen + nsLen + nameLen))
  then Some (zeroHelloReq, Some ErrBodyLength) else
  protoMin ← byte_at body 0;
  protoMax ← byte_at body 1;
  features ← le_at 8 body 4;
  maxBatchKeys ← le_at 4 body 12;
  maxFrameLen ← le_at 4 body 16;
  let off := helloReqFixed in
  token ← slice body off (off + tokenLen);
  let off := off + tokenLen in
  ns ← slice body off (off + nsLen);
  let off := off + nsLen in
  name ← slice body off (off + nameLen);
  Some (mkHelloReq protoMin protoMax features maxBatchKeys maxFrameLen token ns name, None).

Definition helloRespFixed : Z := PreambleSize + 4 + 8 + 32 + 4.

Record HelloResp := mkHelloResp {
  Proto : Z;
  hp_Features : Z;
  hp_Limits : Limits;
  NamespaceID : Z;
  LeaseDefaultMS : Z;
  LeaseMaxMS : Z;
  StreamTimeoutMS : Z;
  ServerName : bytes
}.

Definition zeroHelloResp : HelloResp := mkHelloResp 0 0 (mkLimits 0 0 0 0) 0 0 0 0 [].

Definition AppendHelloResp (iw : Z) (dst : bytes) (r : HelloResp) : bytes :=
  let start := len dst in
  let dst := AppendPreamble dst StatusOK 0 in
  let dst := dst ++ [byte.of_Z (Proto r); byte.of_Z 0; byte.of_Z 0; byte.of_Z 0] in
  let dst := le_append 8 dst (hp_Features r) in
  let dst := le_append 4 dst (MaxBatchKeys (hp_Limits r)) in
  let dst := le_append 4 dst (MaxFrameLen (hp_Limits r)) in
  let dst := le_append 4 dst (MaxBlobLen (hp_Limits r)) in
  let dst := le_append 4 dst (NamespaceID r) in
  let dst := le_append 4 dst (InitialCredit (hp_Limits r)) in
  let dst := le_append 4 dst (LeaseDefaultMS r) in
  let dst := le_append 4 dst (LeaseMaxMS r) in
  let dst := le_append 4 dst (StreamTimeoutMS r) in
  let dst := le_append 2 dst (u16 (len (ServerName r))) in
  let dst := le_append 2 dst 0 in
  let dst := dst ++ ServerName r in
  appendPad8 iw dst (len dst - start).

Definition DecodeHelloResp (iw : Z) (body : bytes)
    : option (Preamble * HelloResp * option bodyError) :=
  '(p, err) ← DecodePreamble body;
  if err is Some e then Some (zeroPreamble, zeroHelloResp, Some e) else
  if negb (Status p =? StatusOK) then
    if negb (len body =? PreambleSize) || negb (Count p =? 0)
    then Some (zeroPreamble, zeroHelloResp, Some ErrBodyLength)
    else Some (p, zeroHelloResp, None)
  else
  if len body <? helloRespFixed then Some (zeroPreamble, zeroHelloResp, Some ErrBodyLength) else
  nameLen ← le_at 2 body (helloRespFixed - 4);
  if negb (len body =? padTo8 iw (helloRespFixed + nameLen))
  then Some (zeroPreamble, zeroHelloResp, Some ErrBodyLength) else
  proto ← byte_at body PreambleSize;
  features ← le_at 8 body (PreambleSize + 4);
  maxBatchKeys ← le_at 4 body (PreambleSize + 12);
  maxFrameLen ← le_at 4 body (PreambleSize + 16);
  maxBlobLen ← le_at 4 body (PreambleSize + 20);
  initialCredit ← le_at 4 body (PreambleSize + 28);
  nsID ← le_at 4 body (PreambleSize + 24);
  leaseDefault ← le_at 4 body (PreambleSize + 32);
  leaseMax ← le_at 4 body (PreambleSize + 36);
  streamTimeout ← le_at 4 body (PreambleSize + 40);
  name ← slice body helloRespFixed (helloRespFixed + nameLen);
  Some (p, mkHelloResp proto features
             (mkLimits maxBatchKeys maxFrameLen maxBlobLen initialCredit)
             nsID leaseDefault leaseMax streamTimeout name, None).

(** ** PUT_STREAM and STATS bodies *)

Definition putBeginSize : Z := 24.

Record PutBeginBody := mkPutBeginBody {
  TotalLen : Z;
  TTLms : Z;
  XXH3Hint : Z;
  pb_Flags : Z
}.

Definition AppendPutBegin (dst : bytes) (b : PutBeginBody) : bytes :=
  let dst := le_append 4 dst (TotalLen b) in
  let dst := le_append 4 dst (TTLms b) in
  let dst := le_append 8 dst (XXH3Hint b) in
  let dst := le_append 4 dst (pb_Flags b) in
  le_append 4 dst 0.

Definition DecodePutBegin (body : bytes) : option (PutBeginBody * option bodyError) :=
  if negb (len body =? putBeginSize) then Some (mkPutBeginBody 0 0 0 0, Some ErrBodyLength) else
  totalLen ← le_at 4 body 0;
  ttl ← le_at 4 body 4;
  hint ← le_at 8 body 8;
  flags ← le_at 4 body 16;
  Some (mkPutBeginBody totalLen ttl hint flags, None).

Definition AppendPutCommit (dst : bytes) (xxh3 : Z) : bytes := le_append 8 dst xxh3.

Definition DecodePutCommit (body : bytes) : option (Z * option bodyError) :=
  if negb (len body =? 8) then Some (0, Some ErrBodyLength) else
  x ← le_at 8 body 0;
  Some (x, None).

Definition DecodeStatsReq (body : bytes) : option (Z * option bodyError) :=
  if negb (len body =? 8) then Some (0, Some ErrBodyLength) else
  s ← le_at 4 body 0;
  Some (s, None).

Definition AppendStatsReq (dst : bytes) (sections : Z) : bytes :=
  le_append 4 (le_append 4 dst sections) 0.

End Body.

(** ** Facts *)

Module BodyFacts.
Import Body.

(** *** Padding *)

Lemma andnot7 x : x &^ 7 = 8 * (x / 8).
Proof. apply (andnot_ones x 3). lia. Qed.

Lemma padTo8_eq iw n :
  int_width iw -> 0 <= n -> n + 7 < 2 ^ (iw - 1) -> padTo8 iw n = 8 * ((n + 7) / 8).
Proof. intros Hw ??. unfold padTo8. rewrite andnot7, (sint_len iw _ (n + 7)) by (done || lia). done. Qed.

Lemma padTo8u64_eq n : 0 <= n < 2 ^ 33 -> padTo8u64 n = 8 * ((n + 7) / 8).
Proof. intros. unfold padTo8u64, u64. rewrite andnot7, Z.mod_small by lia. done. Qed.

Lemma pad_bounds n : n <= 8 * ((n + 7) / 8) < n + 8.
Proof. pose proof (Z.div_mod (n + 7) 8). pose proof (Z.mod_pos_bound (n + 7) 8). lia. Qed.

(** *** Preamble *)

Lemma preamble_some (b : bytes) :
  PreambleSize <= len b ->
  exists p, DecodePreamble b = Some (p, None) /\ fits 8 (Status p) /\ fits 32 (Count p).
Proof.
  unfold PreambleSize. intros. unfold DecodePreamble, PreambleSize.
  replace (_ <? _) with false by lia.
  destruct (byte_at_some b 0) as (s & -> & ?); [lia|].
  destruct (le_at_some 4 b 4) as (c & -> & ?); [lia..|]. by eexists.
Qed.

Lemma preamble_short (b : bytes) :
  len b < PreambleSize -> DecodePreamble b = Some (zeroPreamble, Some ErrBodyLength).
Proof. intros. unfold DecodePreamble. by replace (_ <? _) with true by lia. Qed.

Lemma preamble_app st count (r : bytes) :
  fits 8 st -> fits 32 count ->
  DecodePreamble (AppendPreamble [] st count ++ r) = Some (mkPreamble st count, None).
Proof.
  intros. unfold DecodePreamble, AppendPreamble, le_append, PreambleSize.
  pose proof (len_nonneg r).
  len_simpl. replace (_ <? _) with false by lia.
  change ([] ++ ?x) with x.
  change [byte.of_Z st; byte.of_Z 0; byte.of_Z 0; byte.of_Z 0]
    with ([byte.of_Z st] ++ zeros 3).
  rewrite <- !app_assoc. repeat field_step. done.
Qed.

(** *** Descriptors *)

Definition desc_ok (d : Desc) : Prop :=
  fits 8 (d_status d) /\ fits 32 (d_len d) /\ fits 64 (d_xxh3 d).

Definition desc_bytes (d : Desc) : bytes :=
  [byte.of_Z (d_status d)] ++ zeros 3 ++ le_split 4 (d_len d) ++ le_split 8 (d_xxh3 d).

Lemma putDesc_layout d : PutDesc (zeros 16) d = Some (desc_bytes d).
Proof. reflexivity. Qed.

Lemma getDesc_layout d r : desc_ok d -> GetDesc (desc_bytes d ++ r) = Some d.
Proof.
  intros (? & ? & ?). unfold GetDesc, desc_bytes, DescSize. rewrite <- !app_assoc.
  destruct (index_some ([byte.of_Z (d_status d)] ++ zeros 3 ++ le_split 4 (d_len d) ++
    le_split 8 (d_xxh3 d) ++ r) (16 - 1)) as [x ->].
  { len_simpl. pose proof (len_nonneg r). lia. }
  cbn [mbind option_bind]. repeat field_step. by destruct d.
Qed.

Lemma appendDescs_layout ds dst : appendDescs dst ds = Some (dst ++ concat (desc_bytes <$> ds)).
Proof.
  revert dst. induction ds as [|d ds IH]; intros dst; cbn [appendDescs];
    [by rewrite app_nil_r|].
  rewrite putDesc_layout. cbn [mbind option_bind]. rewrite IH. cbn. by rewrite <- app_assoc.
Qed.

(** *** The decoders never panic *)

(** Every byte slice of a platform is shorter than its largest [int]. *)
Definition slice_fits (iw : Z) (b : bytes) : Prop := len b < 2 ^ (iw - 1).

Lemma u64_len iw (b : bytes) : int_width iw -> slice_fits iw b -> u64 (len b) = len b.
Proof.
  intros [-> | ->]; unfold slice_fits, u64; intros; pose proof (len_nonneg b);
    apply Z.mod_small; lia.
Qed.

(** Walks a decoder: each length test is a case, each read is in range. *)
Ltac decode_read :=
  first
    [ match goal with |- context [le_at ?n ?b ?o] =>
        destruct (le_at_some n b o) as (? & -> & ?); [lia..|] end
    | match goal with |- context [byte_at ?b ?o] =>
        destruct (byte_at_some b o) as (? & -> & ?); [lia..|] end
    | match goal with |- context [slice ?b ?lo ?hi] =>
        destruct (slice_some b lo hi) as (? & -> & ?); [lia..|] end ];
  cbn [mbind option_bind].

Lemma decodeKeys_some iw body cnt i dst :
  int_width iw -> slice_fits iw body -> 0 <= i -> 8 + 32 * (i + Z.of_nat cnt) <= len body ->
  exists ks, decodeKeys iw body i cnt dst = Some (dst ++ ks) /\ length ks = cnt /\
    drop (Z.to_nat (8 + 32 * i)) body =
    concat ks ++ drop (Z.to_nat (8 + 32 * (i + Z.of_nat cnt))) body /\
    Forall (fun k => length k = 32%nat) ks.
Proof.
  intros Hw Hf. revert i dst. induction cnt as [|cnt IH]; intros i dst Hi Hl.
  { exists []. rewrite app_nil_r. split_and!; [done|done| |by constructor].
    cbn. do 2 f_equal. lia. }
  cbn [decodeKeys]. rewrite (sint_len iw _ (len body)) by (done || lia).
  rewrite slice_from_some by lia. cbn [mbind option_bind].
  destruct (cut_at 32 (drop (Z.to_nat (8 + 32 * i)) body)) as (k & r & Hk & Hkl).
  { unfold len in *. rewrite length_drop. lia. }
  rewrite Hk, copy_at_full by (by rewrite len_zeros).
  cbn [mbind option_bind].
  destruct (IH (i + 1) (dst ++ [k])) as (ks & -> & Hn & Hd & Hall); [lia..|].
  exists (k :: ks). rewrite <- app_assoc. split_and!; [done|simpl; lia| |].
  - cbn [concat]. rewrite <- app_assoc. f_equal.
    replace (i + Z.of_nat (S cnt)) with (i + 1 + Z.of_nat cnt) by lia. rewrite <- Hd.
    replace (Z.to_nat (8 + 32 * (i + 1))) with (Z.to_nat (8 + 32 * i) + 32)%nat by lia.
    rewrite <- drop_drop, Hk. rewrite drop_app_length' by (unfold len in *; lia). done.
  - constructor; [unfold len in *; lia|done].
Qed.

Lemma foldl_app_concat (l : list bytes) (b : bytes) : foldl app b l = b ++ concat l.
Proof.
  revert b. induction l as [|x l IH]; intros b; cbn; [by rewrite app_nil_r|].
  by rewrite IH, <- app_assoc.
Qed.

Lemma keyList_layout aux keys :
  AppendKeyList [] aux keys = le_split 4 (u32 (len keys)) ++ le_split 4 aux ++ concat keys.
Proof. unfold AppendKeyList, le_append. rewrite foldl_app_concat. by rewrite <- app_assoc. Qed.

Lemma len_concat32 (keys : list bytes) :
  Forall (fun k => length k = 32%nat) keys -> len (concat keys) = 32 * len keys.
Proof.
  induction 1 as [|k keys Hk _ IH]; [done|]. cbn [concat]. rewrite len_app, len_cons, IH.
  unfold len. lia.
Qed.

(** The word size and the key cap together keep [8 + 32*int(n)] from wrapping. *)
Definition key_cap_ok (iw maxKeys : Z) : Prop :=
  iw = 64 \/ (iw = 32 /\ maxKeys <= CapMaxBatchKeys).

Lemma key_cap_ok_int iw maxKeys : key_cap_ok iw maxKeys -> int_width iw.
Proof. unfold key_cap_ok, int_width. tauto. Qed.

Lemma key_cap_sint iw maxKeys n :
  key_cap_ok iw maxKeys -> fits 32 n -> n <= maxKeys ->
  sint iw n = n /\ sint iw (8 + 32 * n) = 8 + 32 * n.
Proof.
  unfold key_cap_ok, fits, CapMaxBatchKeys. intros [-> | [-> ?]] ??; split; apply sint_id; lia.
Qed.

(** [DecodeKeyList] seen as fields: the three outcomes. *)
Lemma decodeKeyList_view iw (n aux : Z) (rest : bytes) maxKeys dst :
  key_cap_ok iw maxKeys -> slice_fits iw (le_split 4 n ++ le_split 4 aux ++ rest) ->
  fits 32 n -> fits 32 aux ->
  exists ks, DecodeKeyList iw (le_split 4 n ++ le_split 4 aux ++ rest) maxKeys dst =
    Some (if maxKeys <? n then (0, dst, Some ErrKeyCount)
          else if negb (len rest =? 32 * n) then (0, dst, Some ErrBodyLength)
          else (aux, dst ++ ks, None)) /\
    (n <= maxKeys -> len rest = 32 * n ->
     len ks = n /\ concat ks = rest /\ Forall (fun k => length k = 32%nat) ks).
Proof.
  intros Hc Hf Hn Ha. set (body := le_split 4 n ++ le_split 4 aux ++ rest) in *.
  assert (len body = 8 + len rest) as Hl by (unfold body; len_simpl; lia).
  pose proof (len_nonneg rest). unfold DecodeKeyList.
  replace (_ <? _) with false by lia.
  assert (le_at 4 body 0 = Some n) as -> by (unfold body; by repeat field_step).
  assert (le_at 4 body 4 = Some aux) as -> by (unfold body; by repeat field_step).
  cbn [mbind option_bind]. case_if; [exists []; split; [done|bool_props; lia]|]. bool_props.
  destruct (key_cap_sint iw maxKeys n Hc Hn) as [-> ->]; [lia|].
  rewrite Hl. replace (8 + len rest =? 8 + 32 * n) with (len rest =? 32 * n) by lia.
  case_if; [exists []; split; [done|bool_props; lia]|]. bool_props.
  unfold fits in Hn.
  destruct (decodeKeys_some iw body (Z.to_nat n) 0 dst) as (ks & -> & Hks & Hd & Hall);
    [by eapply key_cap_ok_int|done|lia..|].
  exists ks. split; [done|]. intros _ _. split_and!; [unfold len; lia| |done].
  rewrite Z2Nat.id in Hd by lia. unfold body in Hd. cbn [Z.add Z.mul] in Hd.
  rewrite app_assoc in Hd. rewrite drop_app_length' in Hd
    by (rewrite length_app, !length_le_split; lia).
  rewrite Hd, drop_ge, app_nil_r; [done|].
  rewrite !length_app, !length_le_split. unfold len in *. lia.
Qed.

(** a key list survives the wire: decoding what [AppendKeyList] wrote
    appends exactly the keys to the destination, on every word size the cap
    admits. *)
Theorem keylist_roundtrip (iw maxKeys aux : Z) (keys dst : list bytes)
    (Hcap : key_cap_ok iw maxKeys) (Hfit : slice_fits iw (AppendKeyList [] aux keys))
    (Haux : fits 32 aux) (Hmax : fits 32 maxKeys) (Hn : len keys <= maxKeys)
    (Hkeys : Forall (fun k => length k = 32%nat) keys) :
  DecodeKeyList iw (AppendKeyList [] aux keys) maxKeys dst = Some (aux, dst ++ keys, None).
Proof.
  rewrite keyList_layout in *. unfold fits in Hmax. pose proof (len_nonneg keys).
  assert (u32 (len keys) = len keys) as E by (unfold u32; apply Z.mod_small; lia).
  rewrite E in *.
  destruct (decodeKeyList_view iw (len keys) aux (concat keys) maxKeys dst)
    as (ks & -> & Hks); [done|done|split; lia|done|].
  replace (_ <? _) with false by lia.
  rewrite len_concat32 by done. replace (negb _) with false by lia.
  destruct Hks as (Hl & Hc & Hall); [lia|by apply len_concat32|].
  replace ks with keys; [done|]. clear -Hl Hc Hall Hkeys.
  revert ks Hl Hc Hall. induction Hkeys as [|k keys Hk _ IH]; intros [|k' ks] Hl Hc Hall;
    [done|unfold len in *; simpl in *; lia..|].
  apply Forall_cons in Hall as [Hk' Hall]. cbn [concat] in Hc.
  apply app_inj_1 in Hc as [-> Hc]; [|congruence]. f_equal.
  apply IH; [unfold len in *; simpl in *; lia|done..].
Qed.

Lemma keylist_roundtrip_witness :
  DecodeKeyList 32 (AppendKeyList [] 9 [zeros 32; replicate 32 (byte.of_Z 7)]) 4 [] =
  Some (9, [] ++ [zeros 32; replicate 32 (byte.of_Z 7)], None).
Proof.
  apply (keylist_roundtrip 32 4 9 [zeros 32; replicate 32 (byte.of_Z 7)] []);
    [right; split; [reflexivity|discriminate]|reflexivity|split; [discriminate|reflexivity]
    |split; [discriminate|reflexivity]|discriminate|repeat constructor].
Defined.

(** [DecodeKeyList] on arbitrary bytes neither panics nor over-reads, on
    32-bit and 64-bit builds: a success is exactly [AppendKeyList] of the keys
    it appended, at most [maxKeys] of them; an error appends nothing and is
    the batch cap exactly when the count is over it. *)
Theorem keylist_strict (iw maxKeys : Z) (body : bytes) (dst : list bytes)
    (Hcap : key_cap_ok iw maxKeys) (Hfit : slice_fits iw body) :
  exists aux out err, DecodeKeyList iw body maxKeys dst = Some (aux, out, err) /\
    match err with
    | None => exists keys, out = dst ++ keys /\ len keys <= maxKeys /\
                Forall (fun k => length k = 32%nat) keys /\ body = AppendKeyList [] aux keys
    | Some ErrKeyCount => out = dst /\ exists n, le_at 4 body 0 = Some n /\ maxKeys < n
    | Some ErrBodyLength => out = dst /\
        (len body < 8 \/ exists n, le_at 4 body 0 = Some n /\ len body <> 8 + 32 * n)
    end.
Proof.
  destruct (decide (len body < 8)) as [Hs|Hs].
  { exists 0, dst, (Some ErrBodyLength). unfold DecodeKeyList.
    replace (_ <? _) with true by lia. auto. }
  cut_int body 4%nat n. cut_int body 4%nat aux.
  destruct (decodeKeyList_view iw n aux body maxKeys dst) as (ks & -> & Hks); [done..|].
  assert (le_at 4 (le_split 4 n ++ le_split 4 aux ++ body) 0 = Some n) as E
    by (by repeat field_step).
  case_if; bool_props; [eexists _, _, _; split; [done|cbn; eauto]|].
  case_if; bool_props.
  { eexists _, _, _; split; [done|]. split; [done|right]. exists n. split; [done|len_simpl; lia]. }
  eexists _, _, _; split; [done|]. destruct Hks as (Hl & Hc & Hall); [lia|lia|].
  exists ks. split_and!; [done|lia|done|]. rewrite keyList_layout, Hc, Hl. unfold u32.
  by rewrite fits_mod.
Qed.

Lemma keylist_strict_witness :
  exists aux out err, DecodeKeyList 32 (zeros 40) 512 [] = Some (aux, out, err) /\
    match err with
    | None => exists keys, out = [] ++ keys /\ len keys <= 512 /\
                Forall (fun k => length k = 32%nat) keys /\ zeros 40 = AppendKeyList [] aux keys
    | Some ErrKeyCount => out = [] /\ exists n, le_at 4 (zeros 40) 0 = Some n /\ 512 < n
    | Some ErrBodyLength => out = [] /\
        (len (zeros 40) < 8 \/ exists n, le_at 4 (zeros 40) 0 = Some n /\ len (zeros 40) <> 8 + 32 * n)
    end.
Proof.
  apply (keylist_strict 32 512 (zeros 40) []); [right; split; [reflexivity|discriminate]|reflexivity].
Defined.

(** *** BATCH_GET response headers *)

Lemma getRespHeader_layout st first total ds :
  AppendGetRespHeader [] st first total ds =
  Some (AppendPreamble [] st (u32 (len ds)) ++ le_split 4 first ++ le_split 4 total ++
        concat (desc_bytes <$> ds)).
Proof. unfold AppendGetRespHeader, le_append. by rewrite appendDescs_layout, <- !app_assoc. Qed.

Lemma len_desc_bytes d : len (desc_bytes d) = 16.
Proof. unfold desc_bytes. by len_simpl. Qed.

Lemma len_concat_descs ds : len (concat (desc_bytes <$> ds)) = 16 * len ds.
Proof.
  induction ds as [|d ds IH]; [done|]. cbn [fmap list_fmap concat].
  rewrite len_app, IH, len_desc_bytes, len_cons. lia.
Qed.

Lemma len_preamble st c : len (AppendPreamble [] st c) = 8.
Proof. unfold AppendPreamble, le_append. by len_simpl. Qed.

#[local] Hint Rewrite len_preamble len_desc_bytes len_concat_descs : len.

(** Descriptor [i] of a table. *)
Lemma descs_at ds i d r :
  desc_ok d -> ds !! i = Some d ->
  exists t, slice_from (concat (desc_bytes <$> ds) ++ r) (Z.of_nat i * DescSize) =
    Some (desc_bytes d ++ t).
Proof.
  intros Hd. revert i. induction ds as [|d' ds IH]; intros [|i] Hi; [done..| |];
    change (concat (desc_bytes <$> d' :: ds)) with (desc_bytes d' ++ concat (desc_bytes <$> ds)).
  - injection Hi as ->. exists (concat (desc_bytes <$> ds) ++ r).
    change (Z.of_nat 0 * DescSize) with 0. rewrite slice_from_zero. by rewrite <- app_assoc.
  - destruct (IH i Hi) as [t Ht]. exists t. rewrite <- app_assoc, slice_from_skip.
    + rewrite len_desc_bytes, <- Ht. f_equal. unfold DescSize. lia.
    + rewrite len_desc_bytes. unfold DescSize. lia.
Qed.

Lemma decodeGetRespHeader_view iw st first total ds payload :
  int_width iw -> okStatus st = true -> fits 8 st -> fits 32 first -> fits 32 total ->
  fits 32 (len ds) ->
  let body := AppendPreamble [] st (len ds) ++ le_split 4 first ++ le_split 4 total ++
              concat (desc_bytes <$> ds) ++ payload in
  slice_fits iw body ->
  DecodeGetRespHeader iw body =
  Some (mkGetRespHeader (mkPreamble st (len ds)) first total (concat (desc_bytes <$> ds)), None).
Proof.
  intros Hw Hst Hst8 Hf Ht Hn body Hfit. unfold DecodeGetRespHeader.
  assert (DecodePreamble body = Some (mkPreamble st (len ds), None)) as ->
    by (by apply preamble_app).
  cbn [mbind option_bind Status Count]. rewrite Hst. cbn [negb].
  assert (len body = 16 + 16 * len ds + len payload) as Hl by (unfold body; len_simpl; lia).
  pose proof (len_nonneg payload). unfold fits in Hn. rewrite (u64_len iw) by done.
  unfold GetRespHeaderSize, PreambleSize, DescSize, u64.
  rewrite !Z.mod_small by (rewrite ?Z.mod_small by lia; lia).
  replace (_ <? _) with false by lia.
  rewrite (sint_len iw _ (len body)) by (done || lia).
  unfold body. by repeat field_step.
Qed.

(** the GET response header survives the wire in front of any payload:
    every descriptor is read back, and [PayloadOffset] points at the first
    payload byte. *)
Theorem get_header_roundtrip (iw st first total : Z) (ds : list Desc) (payload : bytes)
    (Hw : int_width iw) (Hst : okStatus st = true) (Hfirst : fits 32 first)
    (Htotal : fits 32 total) (Hn : fits 32 (len ds)) (Hds : Forall desc_ok ds)
    (Hfit : 16 + 16 * len ds + len payload < 2 ^ (iw - 1)) :
  exists hdr g, AppendGetRespHeader [] st first total ds = Some hdr /\
    DecodeGetRespHeader iw (hdr ++ payload) = Some (g, None) /\
    g_preamble g = mkPreamble st (len ds) /\ FirstIndex g = first /\ TotalKeys g = total /\
    (forall i d, ds !! i = Some d -> DescAt iw g (Z.of_nat i) = Some d) /\
    slice_from (hdr ++ payload) (PayloadOffset iw g) = Some payload.
Proof.
  assert (fits 8 st) as Hst8
    by (unfold okStatus, StatusOK, StatusOKExists in Hst; unfold fits; lia).
  rewrite getRespHeader_layout. unfold u32. rewrite (fits_mod 32) by done.
  pose proof (len_nonneg payload). pose proof Hn as Hn'. unfold fits in Hn'.
  eexists _, (mkGetRespHeader (mkPreamble st (len ds)) first total (concat (desc_bytes <$> ds))).
  split_and!; [done| |done..| |].
  - rewrite <- !app_assoc. apply decodeGetRespHeader_view; try done.
    unfold slice_fits. len_simpl. lia.
  - intros i d Hi. unfold DescAt. cbn [descs].
    assert (Z.of_nat i < len ds) by (apply lookup_lt_Some in Hi; unfold len; lia).
    rewrite (sint_len iw _ (16 + 16 * len ds)) by (done || unfold DescSize; lia).
    destruct (descs_at ds i d [] (proj1 (Forall_lookup _ _) Hds i d Hi) Hi) as [t Ht].
    rewrite app_nil_r in Ht. rewrite Ht. cbn [mbind option_bind].
    apply getDesc_layout. by eapply Forall_lookup_1.
  - unfold PayloadOffset, GetRespHeaderSize, PreambleSize, DescSize. cbn [g_preamble Count].
    rewrite (sint_len iw (len ds) (16 + 16 * len ds)), (sint_len iw _ (16 + 16 * len ds))
      by (done || lia).
    rewrite slice_from_skip by (len_simpl; lia). len_simpl.
    replace (_ - _) with 0 by lia. apply slice_from_zero.
Qed.

Lemma get_header_roundtrip_witness :
  exists hdr g, AppendGetRespHeader [] StatusOK 0 2 [mkDesc StatusOK 3 77; mkDesc StatusNotFound 0 0]
      = Some hdr /\
    DecodeGetRespHeader 32 (hdr ++ zeros 3) = Some (g, None) /\
    g_preamble g = mkPreamble StatusOK 2 /\ FirstIndex g = 0 /\ TotalKeys g = 2 /\
    (forall i d, [mkDesc StatusOK 3 77; mkDesc StatusNotFound 0 0] !! i = Some d ->
                 DescAt 32 g (Z.of_nat i) = Some d) /\
    slice_from (hdr ++ zeros 3) (PayloadOffset 32 g) = Some (zeros 3).
Proof.
  apply (get_header_roundtrip 32 StatusOK 0 2 [mkDesc StatusOK 3 77; mkDesc StatusNotFound 0 0]
    (zeros 3)); [by left|reflexivity|by split|by split|by split|repeat constructor; done|reflexivity].
Defined.

(** *** Status arrays *)

Lemma appendPad8_eq iw dst n :
  int_width iw -> 0 <= n -> n + 7 < 2 ^ (iw - 1) ->
  appendPad8 iw dst n = dst ++ zeros (Z.to_nat (8 * ((n + 7) / 8) - n)).
Proof. intros. unfold appendPad8. by rewrite padTo8_eq. Qed.

Lemma len_padding n : 0 <= n -> Z.of_nat (Z.to_nat (8 * ((n + 7) / 8) - n)) = 8 * ((n + 7) / 8) - n.
Proof. intros. pose proof (pad_bounds n). lia. Qed.

(** Reads of a status array followed by any padding bytes. *)
Lemma keyStatus_view iw st (pk pad : bytes) :
  int_width iw -> okStatus st = true -> fits 8 st -> fits 32 (len pk) ->
  len pad = 8 * ((len pk + 7) / 8) - len pk ->
  slice_fits iw (AppendPreamble [] st (len pk) ++ pk ++ pad) ->
  DecodeKeyStatusResp iw (AppendPreamble [] st (len pk) ++ pk ++ pad) =
  Some (mkPreamble st (len pk), Some pk, None).
Proof.
  intros Hw Hst Hst8 Hn Hpad Hfit. unfold DecodeKeyStatusResp.
  rewrite preamble_app by done. cbn [mbind option_bind Status Count]. rewrite Hst. cbn [negb].
  rewrite (u64_len iw) by done. unfold slice_fits in Hfit. len_simpl.
  pose proof (len_nonneg pad). unfold fits in Hn. rewrite padTo8u64_eq by lia.
  pose proof (pad_bounds (len pk)). unfold u64, PreambleSize. rewrite Z.mod_small by lia.
  replace (negb _) with false by lia. cbn iota.
  rewrite (sint_len iw (len pk) (8 + len pk)), (sint_len iw _ (8 + len pk)) by (done || lia).
  rewrite slice_skip by (len_simpl; lia). len_simpl.
  rewrite slice_here by lia. done.
Qed.

Lemma existsResp_view iw st nc (pk pad : bytes) (res : Z) :
  int_width iw -> okStatus st = true -> fits 8 st -> fits 32 (len pk) -> fits 32 nc ->
  len pad = 8 * ((len pk + 7) / 8) - len pk ->
  let body := AppendPreamble [] st (len pk) ++ le_split 4 nc ++ le_split 4 res ++ pk ++ pad in
  slice_fits iw body ->
  DecodeExistsResp iw body true =
  Some (mkExistsResp (mkPreamble st (len pk)) nc (Some pk), None).
Proof.
  intros Hw Hst Hst8 Hn Hnc Hpad body Hfit. unfold DecodeExistsResp.
  assert (len body = 16 + len pk + len pad) as Hl by (unfold body; len_simpl; lia).
  assert (DecodePreamble body = Some (mkPreamble st (len pk), None)) as ->
    by (by apply preamble_app).
  cbn [mbind option_bind Status Count]. rewrite Hst. cbn [negb].
  rewrite (u64_len iw) by done. unfold slice_fits in Hfit.
  pose proof (len_nonneg pad). unfold fits in Hn. rewrite padTo8u64_eq by lia.
  pose proof (pad_bounds (len pk)). unfold u64, PreambleSize. rewrite Z.mod_small by lia.
  replace (negb _) with false by lia. cbn iota.
  rewrite (sint_len iw (len pk) (len body)), (sint_len iw _ (len body)) by (done || lia).
  unfold body. by repeat field_step.
Qed.

(** EXISTS and per-key status responses survive the wire: the status bytes
    come back exactly, and the padding after them is skipped whatever it
    holds. *)
Theorem status_resp_roundtrip (iw nc : Z) (perKey : list Z) (pad : bytes)
    (Hw : int_width iw) (Hst : Forall (fits 8) perKey) (Hn : len perKey <= CapMaxBatchKeys)
    (Hnc : fits 32 nc) (Hpad : len pad = padTo8 iw (len perKey) - len perKey) :
  exists e k,
    AppendExistsResp iw [] (len perKey) nc (Some perKey) = e ++ zeros (length pad) /\
    DecodeExistsResp iw (e ++ pad) true =
      Some (mkExistsResp (mkPreamble StatusOK (len perKey)) nc (Some (byte.of_Z <$> perKey)), None) /\
    AppendKeyStatusResp iw [] perKey = k ++ zeros (length pad) /\
    DecodeKeyStatusResp iw (k ++ pad) =
      Some (mkPreamble StatusOK (len perKey), Some (byte.of_Z <$> perKey), None) /\
    byte.unsigned <$> (byte.of_Z <$> perKey) = perKey.
Proof.
  unfold CapMaxBatchKeys in Hn. change (1 <<| 16) with 65536 in Hn.
  pose proof (len_nonneg perKey). pose proof (pad_bounds (len perKey)) as Hb.
  assert (len perKey + 7 + 32 < 2 ^ (iw - 1)) as Hs by (destruct Hw as [-> | ->]; lia).
  rewrite padTo8_eq in Hpad by (done || lia).
  assert (fits 32 (len perKey)) as H32 by (unfold fits; lia).
  assert (length pad = Z.to_nat (8 * ((len perKey + 7) / 8) - len perKey)) as Hpl
    by (unfold len in *; lia).
  unfold AppendExistsResp, AppendKeyStatusResp, le_append.
  rewrite !appendPad8_eq, Hpl by (done || lia).
  unfold u32. rewrite (fits_mod 32) by done.
  replace (len perKey) with (len (byte.of_Z <$> perKey)) in * by (by rewrite len_fmap).
  eexists _, _. split_and!; [done| |done| |].
  - rewrite <- !app_assoc. apply (existsResp_view iw StatusOK nc (byte.of_Z <$> perKey) pad 0);
      try done. unfold slice_fits. rewrite !len_app, len_preamble, !len_le_split. lia.
  - rewrite <- !app_assoc. apply (keyStatus_view iw StatusOK (byte.of_Z <$> perKey) pad);
      try done. unfold slice_fits. rewrite !len_app, len_preamble. lia.
  - rewrite <- list_fmap_compose. clear -Hst. induction Hst as [|x l Hx _ IH]; [done|].
    cbn [fmap list_fmap]. change (list_fmap _ _ ?f l) with (f <$> l). rewrite IH. f_equal.
    unfold compose. rewrite byte.unsigned_of_Z. by apply (fits_mod 8).
Qed.

Lemma status_resp_roundtrip_witness :
  exists e k,
    AppendExistsResp 32 [] 3 2 (Some [0; 16; 1]) = e ++ zeros 5 /\
    DecodeExistsResp 32 (e ++ replicate 5 (byte.of_Z 9)) true =
      Some (mkExistsResp (mkPreamble StatusOK 3) 2 (Some (byte.of_Z <$> [0; 16; 1])), None) /\
    AppendKeyStatusResp 32 [] [0; 16; 1] = k ++ zeros 5 /\
    DecodeKeyStatusResp 32 (k ++ replicate 5 (byte.of_Z 9)) =
      Some (mkPreamble StatusOK 3, Some (byte.of_Z <$> [0; 16; 1]), None) /\
    byte.unsigned <$> (byte.of_Z <$> [0; 16; 1]) = [0; 16; 1].
Proof.
  apply (status_resp_roundtrip 32 2 [0; 16; 1] (replicate 5 (byte.of_Z 9)));
    [by left|repeat constructor; done|discriminate|by split|reflexivity].
Defined.

(** *** HELLO *)

(** The floors a server configuration satisfies, and the machine width. *)
Record limits_ok (l : Limits) : Prop := mkLimitsOk {
  lim_keys : FloorMaxBatchKeys <= MaxBatchKeys l < 2 ^ 32;
  lim_frame : FloorMaxFrameLen <= MaxFrameLen l < 2 ^ 32;
  lim_blob : FloorMaxBlobLen <= MaxBlobLen l < 2 ^ 32;
  lim_credit : FloorInitialCredit <= InitialCredit l < 2 ^ 32
}.

(** One proposal against the server's value: absent, or clamped up to the floor. *)
Definition agreed (server floor client : Z) : Z :=
  if client =? 0 then server else Z.min server (Z.max floor client).

Lemma negotiate_eq server keys frame :
  limits_ok server -> fits 32 keys -> fits 32 frame ->
  NegotiateLimits server keys frame =
  let f := agreed (MaxFrameLen server) FloorMaxFrameLen frame in
  mkLimits (agreed (MaxBatchKeys server) FloorMaxBatchKeys keys) f
    (Z.min (MaxBlobLen server) (f - GetRespHeaderSize 1)) (InitialCredit server).
Proof.
  destruct server as [sk sf sb sc]. intros [Hk Hf Hb Hc] Hkeys Hframe. cbn in Hk, Hf, Hb, Hc.
  unfold NegotiateLimits. cbv zeta. change (u32 (GetRespHeaderSize 1)) with 32.
  change (GetRespHeaderSize 1) with 32. unfold fits in *.
  unfold agreed. cbn [MaxBatchKeys MaxFrameLen MaxBlobLen InitialCredit].
  change FloorMaxFrameLen with 16777216 in *. change FloorMaxBatchKeys with 128 in *.
  set (f := if frame =? 0 then sf else Z.min sf (Z.max 16777216 frame)).
  assert (16777216 <= f < 2 ^ 32) as Hfr by (unfold f; case_if; lia).
  match goal with |- context [if negb (keys =? 0) then ?a else ?b] =>
    replace (if negb (keys =? 0) then a else b) with
      (mkLimits (if keys =? 0 then sk else Z.min sk (Z.max 128 keys)) sf sb sc) end.
  2:{ destruct (keys =? 0); cbn [negb]; [done|]. case_if; case_if; bool_props; f_equal; lia. }
  cbn [MaxBatchKeys MaxFrameLen MaxBlobLen InitialCredit].
  match goal with |- context [if negb (frame =? 0) then ?a else ?b] =>
    replace (if negb (frame =? 0) then a else b) with
      (mkLimits (if keys =? 0 then sk else Z.min sk (Z.max 128 keys)) f sb sc) end.
  2:{ unfold f. destruct (frame =? 0); cbn [negb]; [done|].
      repeat case_if; bool_props; f_equal; lia. }
  cbn [MaxBatchKeys MaxFrameLen MaxBlobLen InitialCredit].
  unfold u32. rewrite Z.mod_small by lia. case_if; bool_props; f_equal; lia.
Qed.

(** negotiation never leaves the protocol's ranges: for a server
    configuration above the floors and any two client proposals, the agreed
    limits are above the floors, no wider than the server's or than an
    in-range proposal, and a blob always fits a frame with its one-descriptor
    response header; negotiating the result again changes nothing. *)
Theorem negotiate_limits_post (server : Limits) (keys frame : Z)
    (Hs : limits_ok server) (Hk : fits 32 keys) (Hf : fits 32 frame) :
  let l := NegotiateLimits server keys frame in
  limits_ok l /\
  MaxBlobLen l + GetRespHeaderSize 1 <= MaxFrameLen l /\
  MaxBatchKeys l <= MaxBatchKeys server /\ MaxFrameLen l <= MaxFrameLen server /\
  MaxBlobLen l <= MaxBlobLen server /\ InitialCredit l = InitialCredit server /\
  (FloorMaxBatchKeys <= keys -> MaxBatchKeys l <= keys) /\
  (FloorMaxFrameLen <= frame -> MaxFrameLen l <= frame) /\
  NegotiateLimits l keys frame = l.
Proof.
  cbv zeta. rewrite (negotiate_eq server) by done.
  destruct server as [sk sf sb sc]. destruct Hs as [Hsk Hsf Hsb Hsc].
  cbn [MaxBatchKeys MaxFrameLen MaxBlobLen InitialCredit] in *. cbv zeta.
  change (GetRespHeaderSize 1) with 32. unfold fits in *.
  change FloorMaxFrameLen with 16777216 in *. change FloorMaxBatchKeys with 128 in *.
  change FloorMaxBlobLen with 4194304 in *. change FloorInitialCredit with 16777216 in *.
  assert (forall s fl c, fl <= s -> 0 < fl -> 0 <= c -> fl <= agreed s fl c <= s /\
    (fl <= c -> agreed s fl c <= c) /\ agreed (agreed s fl c) fl c = agreed s fl c) as Hag.
  { intros. unfold agreed. case_if; bool_props; lia. }
  destruct (Hag sk 128 keys) as (? & ? & Ek); [lia..|].
  destruct (Hag sf 16777216 frame) as (? & ? & Ef); [lia..|].
  assert (limits_ok (mkLimits (agreed sk 128 keys) (agreed sf 16777216 frame)
    (Z.min sb (agreed sf 16777216 frame - 32)) sc)) as Hok.
  { constructor; cbn [MaxBatchKeys MaxFrameLen MaxBlobLen InitialCredit].
    all: change FloorMaxFrameLen with 16777216; change FloorMaxBatchKeys with 128.
    all: change FloorMaxBlobLen with 4194304; change FloorInitialCredit with 16777216; lia. }
  split_and!; try done; try lia.
  rewrite negotiate_eq by done. cbn [MaxBatchKeys MaxFrameLen MaxBlobLen InitialCredit]. cbv zeta.
  change FloorMaxFrameLen with 16777216. change FloorMaxBatchKeys with 128.
  change (GetRespHeaderSize 1) with 32. rewrite Ek, Ef. f_equal; lia.
Qed.

Lemma negotiate_limits_post_witness :
  let l := NegotiateLimits DefaultLimits 1 (32 * 1024 * 1024) in
  limits_ok l /\
  MaxBlobLen l + GetRespHeaderSize 1 <= MaxFrameLen l /\
  MaxBatchKeys l <= MaxBatchKeys DefaultLimits /\ MaxFrameLen l <= MaxFrameLen DefaultLimits /\
  MaxBlobLen l <= MaxBlobLen DefaultLimits /\ InitialCredit l = InitialCredit DefaultLimits /\
  (FloorMaxBatchKeys <= 1 -> MaxBatchKeys l <= 1) /\
  (FloorMaxFrameLen <= 32 * 1024 * 1024 -> MaxFrameLen l <= 32 * 1024 * 1024) /\
  NegotiateLimits l 1 (32 * 1024 * 1024) = l.
Proof.
  apply (negotiate_limits_post DefaultLimits 1 (32 * 1024 * 1024));
    [constructor; (split; [discriminate|reflexivity])|by split|by split].
Defined.

Record helloReq_ok (r : HelloReq) : Prop := mkHelloReqOk {
  hq_min : fits 8 (ProtoMin r);
  hq_max : fits 8 (ProtoMax r);
  hq_feat : fits 64 (Features r);
  hq_keys : fits 32 (hr_MaxBatchKeys r);
  hq_frame : fits 32 (hr_MaxFrameLen r);
  hq_token : fits 16 (len (Token r));
  hq_ns : fits 16 (len (Namespace r));
  hq_name : fits 16 (len (ClientName r))
}.

Record helloResp_ok (r : HelloResp) : Prop := mkHelloRespOk {
  hs_proto : fits 8 (Proto r);
  hs_feat : fits 64 (hp_Features r);
  hs_keys : fits 32 (MaxBatchKeys (hp_Limits r));
  hs_frame : fits 32 (MaxFrameLen (hp_Limits r));
  hs_blob : fits 32 (MaxBlobLen (hp_Limits r));
  hs_credit : fits 32 (InitialCredit (hp_Limits r));
  hs_ns : fits 32 (NamespaceID r);
  hs_ld : fits 32 (LeaseDefaultMS r);
  hs_lm : fits 32 (LeaseMaxMS r);
  hs_st : fits 32 (StreamTimeoutMS r);
  hs_name : fits 16 (len (ServerName r))
}.

Lemma sint_hello iw n : int_width iw -> 0 <= n < 200000 -> n + 7 < 2 ^ (iw - 1).
Proof. intros [-> | ->] ?; lia. Qed.

Lemma padTo8_hello iw n : int_width iw -> 0 <= n < 200000 -> padTo8 iw n = 8 * ((n + 7) / 8).
Proof. intros. apply padTo8_eq; [done|lia|by apply sint_hello]. Qed.

(** Read one field of the fixed part [fx] of a body. *)
Ltac read_fixed Hb fx e v :=
  assert (e = Some v) as ->
    by (rewrite Hb; unfold fx; rewrite <- !app_assoc; cbn [Z.add Z.sub Pos.add];
        by repeat field_step).

(** The 36 fixed bytes of a HELLO request. *)
Definition helloReq_fixed (r : HelloReq) : bytes :=
  [byte.of_Z (ProtoMin r)] ++ [byte.of_Z (ProtoMax r)] ++ zeros 2 ++ le_split 8 (Features r) ++
  le_split 4 (hr_MaxBatchKeys r) ++ le_split 4 (hr_MaxFrameLen r) ++ le_split 8 0 ++
  le_split 2 (len (Token r)) ++ le_split 2 (len (Namespace r)) ++
  le_split 2 (len (ClientName r)) ++ le_split 2 0.

Lemma len_helloReq_fixed r : len (helloReq_fixed r) = 36.
Proof. unfold helloReq_fixed. by len_simpl. Qed.

Lemma helloReq_layout iw r :
  int_width iw -> helloReq_ok r ->
  exists pad, AppendHelloReq iw [] r =
    helloReq_fixed r ++ Token r ++ Namespace r ++ ClientName r ++ pad /\
    len (AppendHelloReq iw [] r) =
    padTo8 iw (36 + len (Token r) + len (Namespace r) + len (ClientName r)).
Proof.
  intros Hw []. unfold fits in hq_token0, hq_ns0, hq_name0.
  set (n := 36 + _ + _ + _). exists (zeros (Z.to_nat (8 * ((n + 7) / 8) - n))).
  pose proof (pad_bounds n) as Hb.
  assert (AppendHelloReq iw [] r = helloReq_fixed r ++ Token r ++ Namespace r ++ ClientName r ++
    zeros (Z.to_nat (8 * ((n + 7) / 8) - n))) as ->.
  { unfold AppendHelloReq, le_append, u16. rewrite !(fits_mod 16) by (unfold fits; lia).
    rewrite <- !app_assoc.
    replace (len _ - len _) with n by (unfold n; len_simpl; lia).
    rewrite appendPad8_eq by (first [done|lia|apply sint_hello; [done|lia]]).
    unfold helloReq_fixed. rewrite <- !app_assoc. done. }
  split; [done|]. rewrite !len_app, len_zeros, len_padding, len_helloReq_fixed by lia.
  rewrite padTo8_hello by (done || lia). lia.
Qed.

(** HELLO requests survive the wire: every field and all three strings
    come back for any lengths a u16 can carry, and the body stays within
    [MaxHelloBody], the cap used before negotiation. *)
Theorem hello_req_roundtrip (iw : Z) (r : HelloReq) (Hw : int_width iw) (Hr : helloReq_ok r) :
  DecodeHelloReq iw (AppendHelloReq iw [] r) = Some (r, None) /\
  len (AppendHelloReq iw [] r) <= MaxHelloBody.
Proof.
  destruct (helloReq_layout iw r Hw Hr) as (pad & Hb & Hlen). destruct Hr.
  pose proof (len_helloReq_fixed r) as Hfx. unfold DecodeHelloReq, helloReqFixed.
  set (body := AppendHelloReq iw [] r) in *.
  assert (36 <= len body) by (rewrite Hb; len_simpl; unfold fits in *; pose proof (len_nonneg pad); lia).
  replace (_ <? _) with false by lia.
  read_fixed Hb helloReq_fixed (le_at 2 body 28) (len (Token r)).
  read_fixed Hb helloReq_fixed (le_at 2 body 30) (len (Namespace r)).
  read_fixed Hb helloReq_fixed (le_at 2 body 32) (len (ClientName r)).
  read_fixed Hb helloReq_fixed (byte_at body 0) (ProtoMin r).
  read_fixed Hb helloReq_fixed (byte_at body 1) (ProtoMax r).
  read_fixed Hb helloReq_fixed (le_at 8 body 4) (Features r).
  read_fixed Hb helloReq_fixed (le_at 4 body 12) (hr_MaxBatchKeys r).
  read_fixed Hb helloReq_fixed (le_at 4 body 16) (hr_MaxFrameLen r).
  cbn [mbind option_bind]. rewrite <- Hlen, Z.eqb_refl. cbn [negb].
  rewrite (slice_mid (helloReq_fixed r) (Token r) (Namespace r ++ ClientName r ++ pad) body 36)
    by (done || lia).
  rewrite (slice_mid (helloReq_fixed r ++ Token r) (Namespace r) (ClientName r ++ pad) body
    (36 + len (Token r)))
    by (by rewrite <- ?app_assoc || (len_simpl; lia)).
  rewrite (slice_mid (helloReq_fixed r ++ Token r ++ Namespace r) (ClientName r) pad)
    by (by rewrite <- ?app_assoc || (len_simpl; lia)).
  split; [by destruct r|]. rewrite Hlen. unfold fits, MaxHelloBody, helloReqFixed in *.
  rewrite padTo8_hello by (done || lia). pose proof (pad_bounds (36 + len (Token r) +
    len (Namespace r) + len (ClientName r))). lia.
Qed.

Lemma hello_req_roundtrip_witness :
  DecodeHelloReq 32 (AppendHelloReq 32 []
    (mkHelloReq 1 1 3 512 4096 (zeros 3) (zeros 5) [])) =
  Some (mkHelloReq 1 1 3 512 4096 (zeros 3) (zeros 5) [], None) /\
  len (AppendHelloReq 32 [] (mkHelloReq 1 1 3 512 4096 (zeros 3) (zeros 5) [])) <= MaxHelloBody.
Proof.
  apply (hello_req_roundtrip 32 (mkHelloReq 1 1 3 512 4096 (zeros 3) (zeros 5) []));
    [by left|constructor; by split].
Defined.

Definition helloResp_fixed (r : HelloResp) : bytes :=
  AppendPreamble [] StatusOK 0 ++ [byte.of_Z (Proto r)] ++ zeros 3 ++ le_split 8 (hp_Features r) ++
  le_split 4 (MaxBatchKeys (hp_Limits r)) ++ le_split 4 (MaxFrameLen (hp_Limits r)) ++
  le_split 4 (MaxBlobLen (hp_Limits r)) ++ le_split 4 (NamespaceID r) ++
  le_split 4 (InitialCredit (hp_Limits r)) ++ le_split 4 (LeaseDefaultMS r) ++
  le_split 4 (LeaseMaxMS r) ++ le_split 4 (StreamTimeoutMS r) ++
  le_split 2 (len (ServerName r)) ++ le_split 2 0.

Lemma len_helloResp_fixed r : len (helloResp_fixed r) = 56.
Proof. unfold helloResp_fixed. by len_simpl. Qed.

Lemma helloResp_layout iw r :
  int_width iw -> helloResp_ok r ->
  exists pad, AppendHelloResp iw [] r = helloResp_fixed r ++ ServerName r ++ pad /\
    len (AppendHelloResp iw [] r) = padTo8 iw (56 + len (ServerName r)).
Proof.
  intros Hw []. unfold fits in hs_name0.
  set (n := 56 + _). exists (zeros (Z.to_nat (8 * ((n + 7) / 8) - n))).
  pose proof (pad_bounds n) as Hb.
  assert (AppendHelloResp iw [] r = helloResp_fixed r ++ ServerName r ++
    zeros (Z.to_nat (8 * ((n + 7) / 8) - n))) as ->.
  { unfold AppendHelloResp, le_append, u16. rewrite !(fits_mod 16) by (unfold fits; lia).
    rewrite <- !app_assoc.
    replace (len _ - len _) with n by (unfold n; len_simpl; lia).
    rewrite appendPad8_eq by (first [done|lia|apply sint_hello; [done|lia]]).
    unfold helloResp_fixed. rewrite <- !app_assoc. done. }
  split; [done|]. rewrite !len_app, len_zeros, len_padding, len_helloResp_fixed by lia.
  rewrite padTo8_hello by (done || lia). lia.
Qed.

(** HELLO responses survive the wire: the negotiated limits, ids and
    timeouts the client reads are the ones the server wrote. *)
Theorem hello_resp_roundtrip (iw : Z) (r : HelloResp) (Hw : int_width iw) (Hr : helloResp_ok r) :
  DecodeHelloResp iw (AppendHelloResp iw [] r) = Some (mkPreamble StatusOK 0, r, None).
Proof.
  destruct (helloResp_layout iw r Hw Hr) as (pad & Hb & Hlen). destruct Hr.
  pose proof (len_helloResp_fixed r) as Hfx. unfold DecodeHelloResp.
  set (body := AppendHelloResp iw [] r) in *.
  assert (DecodePreamble body = Some (mkPreamble StatusOK 0, None)) as ->.
  { rewrite Hb. unfold helloResp_fixed. rewrite <- !app_assoc. by apply preamble_app. }
  cbn [mbind option_bind Status]. change (negb (StatusOK =? StatusOK)) with false. cbn iota.
  unfold helloRespFixed, PreambleSize. pose proof (len_nonneg (ServerName r ++ pad)).
  assert (56 <= len body) by (rewrite Hb, len_app; lia).
  replace (_ <? _) with false by lia.
  read_fixed Hb helloResp_fixed (le_at 2 body (8 + 4 + 8 + 32 + 4 - 4)) (len (ServerName r)).
  read_fixed Hb helloResp_fixed (byte_at body 8) (Proto r).
  read_fixed Hb helloResp_fixed (le_at 8 body (8 + 4)) (hp_Features r).
  read_fixed Hb helloResp_fixed (le_at 4 body (8 + 12)) (MaxBatchKeys (hp_Limits r)).
  read_fixed Hb helloResp_fixed (le_at 4 body (8 + 16)) (MaxFrameLen (hp_Limits r)).
  read_fixed Hb helloResp_fixed (le_at 4 body (8 + 20)) (MaxBlobLen (hp_Limits r)).
  read_fixed Hb helloResp_fixed (le_at 4 body (8 + 28)) (InitialCredit (hp_Limits r)).
  read_fixed Hb helloResp_fixed (le_at 4 body (8 + 24)) (NamespaceID r).
  read_fixed Hb helloResp_fixed (le_at 4 body (8 + 32)) (LeaseDefaultMS r).
  read_fixed Hb helloResp_fixed (le_at 4 body (8 + 36)) (LeaseMaxMS r).
  read_fixed Hb helloResp_fixed (le_at 4 body (8 + 40)) (StreamTimeoutMS r).
  cbn [mbind option_bind]. change (8 + 4 + 8 + 32 + 4) with 56.
  rewrite <- Hlen, Z.eqb_refl. cbn [negb].
  rewrite (slice_mid (helloResp_fixed r) (ServerName r) pad) by (done || lia).
  by destruct r as [? ? [] ? ? ? ? ?].
Qed.

Lemma hello_resp_roundtrip_witness :
  DecodeHelloResp 64 (AppendHelloResp 64 []
    (mkHelloResp 1 3 DefaultLimits 7 5000 60000 30000 (zeros 9))) =
  Some (mkPreamble StatusOK 0, mkHelloResp 1 3 DefaultLimits 7 5000 60000 30000 (zeros 9), None).
Proof.
  apply (hello_resp_roundtrip 64 (mkHelloResp 1 3 DefaultLimits 7 5000 60000 30000 (zeros 9)));
    [by right|constructor; by split].
Defined.

(** *** No decoder panics *)

Section Totality.
Context (iw : Z) (body : bytes) (Hw : int_width iw) (Hfit : slice_fits iw body).

Lemma existsResp_total bm : is_Some (DecodeExistsResp iw body bm).
Proof using Hw Hfit.
  unfold DecodeExistsResp. destruct (decide (len body < PreambleSize)) as [Hs|Hs].
  { rewrite preamble_short by done. by eexists. }
  destruct (preamble_some body) as (p & -> & _ & Hc); [lia|].
  unfold PreambleSize, fits in *. cbn [mbind option_bind].
  case_if; [case_if; by eexists|]. rewrite (u64_len iw), padTo8u64_eq by (done || lia).
  pose proof (pad_bounds (Count p)). unfold u64. destruct bm.
  - rewrite Z.mod_small by lia. case_if; [by eexists|]. bool_props. decode_read.
    unfold slice_fits in Hfit.
    rewrite !(sint_len iw (Count p) (len body)), (sint_len iw _ (len body)) by (done || lia).
    decode_read. by eexists.
  - case_if; [by eexists|]. bool_props. decode_read. by eexists.
Qed.

Lemma keyStatusResp_total : is_Some (DecodeKeyStatusResp iw body).
Proof using Hw Hfit.
  unfold DecodeKeyStatusResp. destruct (decide (len body < PreambleSize)) as [Hs|Hs].
  { rewrite preamble_short by done. by eexists. }
  destruct (preamble_some body) as (p & -> & _ & Hc); [lia|].
  unfold PreambleSize, fits in *. cbn [mbind option_bind].
  case_if; [case_if; by eexists|]. rewrite (u64_len iw), padTo8u64_eq by (done || lia).
  pose proof (pad_bounds (Count p)). unfold u64.
  rewrite Z.mod_small by lia. case_if; [by eexists|]. bool_props.
  unfold slice_fits in Hfit.
  rewrite (sint_len iw (Count p) (len body)), (sint_len iw _ (len body)) by (done || lia).
  decode_read. by eexists.
Qed.

(** The header region is decoded and every descriptor under [Count] is
    readable. *)
Lemma getRespHeader_total :
  exists g err, DecodeGetRespHeader iw body = Some (g, err) /\
    forall i, 0 <= i < Count (g_preamble g) -> is_Some (DescAt iw g i).
Proof using Hw Hfit.
  unfold DecodeGetRespHeader. destruct (decide (len body < PreambleSize)) as [Hs|Hs].
  { rewrite preamble_short by done. eexists _, _; split; [done|]. cbn. lia. }
  destruct (preamble_some body) as (p & -> & _ & Hc); [lia|].
  unfold PreambleSize, fits in *. cbn [mbind option_bind].
  case_if; [case_if; eexists _, _; (split; [done|cbn; bool_props; intros; lia])|].
  unfold GetRespHeaderSize, DescSize, PreambleSize. rewrite (u64_len iw) by done.
  unfold u64. rewrite !Z.mod_small by (rewrite ?Z.mod_small by lia; lia).
  case_if; [eexists _, _; (split; [done|cbn; intros; lia])|]. bool_props.
  unfold slice_fits in Hfit. rewrite (sint_len iw _ (len body)) by (done || lia).
  decode_read. decode_read. decode_read.
  match goal with H : len ?d = _ |- _ => rename d into ds; rename H into Hds end.
  eexists _, _; split; [done|]. cbn [g_preamble]. intros i Hi. unfold DescAt. cbn [descs].
  rewrite (sint_len iw _ (len body)) by (done || unfold DescSize; lia).
  unfold slice_from, DescSize. decode_read. unfold GetDesc, DescSize in *.
  match goal with |- context [index ?b ?o] => destruct (index_some b o) as [? ->]; [lia|] end.
  cbn [mbind option_bind]. do 3 decode_read. by eexists.
Qed.

Lemma helloReq_total : is_Some (DecodeHelloReq iw body).
Proof using Hw Hfit.
  unfold DecodeHelloReq, helloReqFixed. case_if; [by eexists|]. bool_props.
  repeat decode_read. change (8 * Z.of_nat 2) with 16 in *. unfold fits in *.
  rewrite padTo8_hello by (done || lia). case_if; [by eexists|]. bool_props.
  match goal with Hb : len body = 8 * ((?n + 7) / 8) |- _ => pose proof (pad_bounds n) end.
  repeat decode_read. by eexists.
Qed.

Lemma helloResp_total : is_Some (DecodeHelloResp iw body).
Proof using Hw Hfit.
  unfold DecodeHelloResp. destruct (decide (len body < PreambleSize)) as [Hs|Hs].
  { rewrite preamble_short by done. by eexists. }
  destruct (preamble_some body) as (p & -> & _ & Hc); [lia|].
  unfold helloRespFixed, PreambleSize, fits in *. cbn [mbind option_bind].
  case_if; [case_if; by eexists|]. case_if; [by eexists|]. bool_props.
  repeat decode_read. change (8 * Z.of_nat 2) with 16 in *. unfold fits in *.
  rewrite padTo8_hello by (done || lia). case_if; [by eexists|]. bool_props.
  match goal with Hb : len body = 8 * ((?n + 7) / 8) |- _ => pose proof (pad_bounds n) end.
  repeat decode_read. by eexists.
Qed.

Lemma put_stats_total :
  is_Some (DecodePutBegin body) /\ is_Some (DecodePutCommit body) /\ is_Some (DecodeStatsReq body).
Proof using Type.
  unfold DecodePutBegin, DecodePutCommit, DecodeStatsReq, putBeginSize.
  split_and!; (case_if; [by eexists|]; bool_props; repeat decode_read; by eexists).
Qed.

End Totality.



(** Without the cap on the batch size a 32-bit build panics: the expected
    length [8 + 32*int(n)] wraps to 8 for [n = 2^27], and the second key is
    read past the end. *)
Example keylist_uncapped_panics :
  DecodeKeyList 32 (le_split 4 (2 ^ 27) ++ le_split 4 0) (2 ^ 31) [] = None.
Proof.
  unfold DecodeKeyList.
  change (len (le_split 4 (2 ^ 27) ++ le_split 4 0) <? 8) with false.
  change (le_at 4 (le_split 4 (2 ^ 27) ++ le_split 4 0) 0) with (Some (2 ^ 27)).
  cbn [mbind option_bind]. change (2 ^ 31 <? 2 ^ 27) with false.
  change (sint 32 (2 ^ 27)) with (2 ^ 27).
  replace (Z.to_nat (2 ^ 27)) with (S (S (Z.to_nat (2 ^ 27 - 2)))) by lia.
  reflexivity.
Qed.

End BodyFacts.
