(* ===== verification/SmallFloat.v ===== *)
(** Size classes of the DRAM allocator: the 8-bit float-log codes of
    [internal/store/dram/offsetalloc.go] and the [math/bits] functions they
    use.

    [fval] is the mathematical value of a code. The two rounding functions are
    characterised by it: the code of a parked range is the largest one not
    above its size, the code of a request the smallest one not below it. *)

From Stdlib Require Import ZArith Lia.
From stdpp Require Import base numbers.
From S2P Require Import Prelude.
Open Scope Z_scope.
Open Scope go_scope.

Module SmallFloat.

(** ** [math/bits] *)

Definition LeadingZeros32 (x : Z) : Z := if x =? 0 then 32 else 31 - Z.log2 x.
Definition LeadingZeros8 (x : Z) : Z := if x =? 0 then 8 else 7 - Z.log2 x.

(** The lowest set bit of [x] is [x & -x]. *)
Definition TrailingZeros32 (x : Z) : Z := if x =? 0 then 32 else Z.log2 (Z.land x (- x)).

(** ** The codes *)

Definition numTopBins : Z := 32.
Definition binsPerLeaf : Z := 8.
Definition topBinsIndexShift : Z := 3.
Definition leafBinsIndexMask : Z := 0x7.
Definition numLeafBins : Z := numTopBins * binsPerLeaf.
Definition mantissaBits : Z := 3.
Definition mantissaValue : Z := 1 <<| mantissaBits.
Definition mantissaMask : Z := mantissaValue - 1.
Definition unusedIndex : Z := 0xFFFFFFFF.

Definition uintToFloatRoundUp (size : Z) : Z :=
  if size <? mantissaValue then size else
  let highestSetBit := u32 (31 - LeadingZeros32 size) in
  let mantissaStartBit := u32 (highestSetBit - mantissaBits) in
  let exp := u32 (mantissaStartBit + 1) in
  let mantissa := Z.land (size >>| mantissaStartBit) mantissaMask in
  let lowBitsMask := u32 (u32 (1 <<| mantissaStartBit) - 1) in
  let mantissa := if negb (Z.land size lowBitsMask =? 0) then u32 (mantissa + 1) else mantissa in
  u32 (u32 (exp <<| mantissaBits) + mantissa).

Definition uintToFloatRoundDown (size : Z) : Z :=
  if size <? mantissaValue then size else
  let highestSetBit := u32 (31 - LeadingZeros32 size) in
  let mantissaStartBit := u32 (highestSetBit - mantissaBits) in
  let exp := u32 (mantissaStartBit + 1) in
  let mantissa := Z.land (size >>| mantissaStartBit) mantissaMask in
  Z.lor (u32 (exp <<| mantissaBits)) mantissa.

Definition floatToUint (f : Z) : Z :=
  let exp := f >>| mantissaBits in
  let mantissa := Z.land f mantissaMask in
  if exp =? 0 then mantissa else
  u32 (Z.lor mantissa mantissaValue <<| u32 (exp - 1)).

Definition findLowestSetBitAfter (mask start : Z) : Z :=
  let maskAfter := mask &^ (u32 (u32 (1 <<| start) - 1)) in
  if maskAfter =? 0 then unusedIndex else u32 (TrailingZeros32 maskAfter).

(** ** The value of a code *)

Definition fval (f : Z) : Z :=
  if f <? 8 then f else (8 + f `mod` 8) * 2 ^ (f / 8 - 1).

Lemma fval_succ f : 0 <= f -> fval (f + 1) = fval f + (if f <? 8 then 1 else 2 ^ (f / 8 - 1)).
Proof.
  intros Hf. unfold fval. pose proof (Z.div_mod f 8). pose proof (Z.mod_pos_bound f 8).
  destruct (decide (f + 1 < 8)); [replace (f + 1 <? 8) with true by lia; by case_if; lia|].
  replace (f + 1 <? 8) with false by lia.
  destruct (decide (f = 7)) as [->|]; [reflexivity|]. replace (f <? 8) with false by lia.
  destruct (decide (f `mod` 8 = 7)) as [E|E].
  - replace ((f + 1) `mod` 8) with 0 by (apply Z.mod_unique_pos with (f / 8 + 1); lia).
    replace ((f + 1) / 8) with (f / 8 - 1 + 2) by (apply Z.div_unique with 0; lia).
    replace (f / 8 - 1 + 2 - 1) with (f / 8 - 1 + 1) by lia.
    rewrite Z.pow_add_r by lia. lia.
  - replace ((f + 1) `mod` 8) with (f `mod` 8 + 1)
      by (apply Z.mod_unique_pos with (f / 8); lia).
    replace ((f + 1) / 8) with (f / 8) by (apply Z.div_unique with (f `mod` 8 + 1); lia).
    lia.
Qed.

Lemma fval_lt f g : 0 <= f < g -> fval f < fval g.
Proof.
  intros [Hf Hg]. replace g with (f + 1 + Z.of_nat (Z.to_nat (g - f - 1))) by lia.
  generalize (Z.to_nat (g - f - 1)). intros n. induction n as [|n IH].
  - rewrite Z.add_0_r, fval_succ by done. case_if; [lia|]. bool_props.
    pose proof (Z.pow_pos_nonneg 2 (f / 8 - 1)). pose proof (Z.div_le_lower_bound f 8 1). lia.
  - replace (f + 1 + Z.of_nat (S n)) with (f + 1 + Z.of_nat n + 1) by lia.
    rewrite fval_succ by lia. case_if; [lia|]. bool_props.
    pose proof (Z.pow_pos_nonneg 2 ((f + 1 + Z.of_nat n) / 8 - 1)).
    pose proof (Z.div_le_lower_bound (f + 1 + Z.of_nat n) 8 1). lia.
Qed.

Lemma fval_le f g : 0 <= f -> 0 <= g -> fval f <= fval g <-> f <= g.
Proof.
  intros Hf Hg. split; intros H.
  - destruct (decide (g < f)); [|lia]. pose proof (fval_lt g f). lia.
  - destruct (decide (f = g)) as [->|]; [done|]. pose proof (fval_lt f g). lia.
Qed.

(** The value of exponent [m + 1] and mantissa [r]. *)
Lemma fval_norm m r : 0 <= m -> 0 <= r < 8 -> fval (8 * (m + 1) + r) = (8 + r) * 2 ^ m.
Proof.
  intros. unfold fval. replace (_ <? 8) with false by lia.
  replace ((8 * (m + 1) + r) `mod` 8) with r by (apply Z.mod_unique_pos with (m + 1); lia).
  replace ((8 * (m + 1) + r) / 8) with (m + 1) by (apply Z.div_unique with r; lia).
  do 2 f_equal. lia.
Qed.

(** A size of at least 8 in scientific form. *)
Record sci (s m q : Z) : Prop := mkSci {
  sci_m : 0 <= m <= 28;
  sci_q : 8 <= q < 16;
  sci_s : q = s / 2 ^ m;
  sci_h : Z.log2 s = m + 3
}.

Lemma sci_exists s : 8 <= s < 2 ^ 32 -> sci s (Z.log2 s - 3) (s / 2 ^ (Z.log2 s - 3)).
Proof.
  intros Hs. pose proof (Z.log2_spec s) as Hl. pose proof (Z.log2_le_mono 8 s) as H3.
  change (Z.log2 8) with 3 in H3. pose proof (Z.log2_lt_pow2 s 32) as H32.
  set (m := Z.log2 s - 3). assert (2 ^ Z.log2 s = 8 * 2 ^ m) as E.
  { replace (Z.log2 s) with (3 + m) by (unfold m; lia). rewrite Z.pow_add_r by (unfold m; lia). lia. }
  rewrite Z.pow_succ_r in Hl by lia. rewrite E in Hl.
  assert (0 < 2 ^ m) by (apply Z.pow_pos_nonneg; unfold m; lia).
  constructor; [unfold m; lia| |done|unfold m; lia].
  split; [apply Z.div_le_lower_bound; lia|apply Z.div_lt_upper_bound; lia].
Qed.

Lemma land7 x : Z.land x mantissaMask = x `mod` 8.
Proof. change mantissaMask with (Z.ones 3). by rewrite Z.land_ones. Qed.

Lemma high_bit s m q : 8 <= s < 2 ^ 32 -> sci s m q ->
  u32 (31 - LeadingZeros32 s) = m + 3 /\ u32 (m + 3 - mantissaBits) = m /\ u32 (m + 1) = m + 1 /\
  u32 ((m + 1) <<| mantissaBits) = 8 * (m + 1) /\
  Z.land (s >>| m) mantissaMask = q - 8 /\ u32 (u32 (1 <<| m) - 1) = 2 ^ m - 1.
Proof.
  intros Hs [Hm Hq Hqs Hh]. unfold LeadingZeros32, u32, mantissaBits.
  replace (s =? 0) with false by lia. rewrite Hh.
  rewrite !Z.shiftl_mul_pow2, Z.shiftr_div_pow2, land7, <- Hqs by lia.
  assert (2 ^ m < 2 ^ 32) by (apply Z.pow_lt_mono_r; lia).
  assert (0 < 2 ^ m) by (apply Z.pow_pos_nonneg; lia).
  split_and!; try (rewrite Z.mod_small by lia; lia).
  - symmetry. apply Z.mod_unique_pos with 1; lia.
  - rewrite (Z.mod_small (1 * 2 ^ m)), Z.mod_small by lia. lia.
Qed.

Lemma roundDown_sci s m q : 8 <= s < 2 ^ 32 -> sci s m q ->
  uintToFloatRoundDown s = 8 * (m + 1) + (q - 8).
Proof.
  intros Hs Hsci. destruct (high_bit s m q Hs Hsci) as (E1 & E2 & E3 & E4 & E5 & E6).
  destruct Hsci. unfold uintToFloatRoundDown, mantissaValue. change (1 <<| mantissaBits) with 8.
  replace (s <? 8) with false by lia. cbv zeta. rewrite E1, E2, E3, E4, E5.
  replace (8 * (m + 1)) with ((m + 1) <<| 3) by (rewrite Z.shiftl_mul_pow2; lia).
  rewrite lor_shiftl_add by (unfold fits; lia). rewrite ?Z.shiftl_mul_pow2 by lia. lia.
Qed.

Lemma roundUp_sci s m q : 8 <= s < 2 ^ 32 -> sci s m q ->
  uintToFloatRoundUp s = 8 * (m + 1) + (q - 8) + (if s `mod` 2 ^ m =? 0 then 0 else 1).
Proof.
  intros Hs Hsci. destruct (high_bit s m q Hs Hsci) as (E1 & E2 & E3 & E4 & E5 & E6).
  destruct Hsci. unfold uintToFloatRoundUp, mantissaValue. change (1 <<| mantissaBits) with 8.
  replace (s <? 8) with false by lia. cbv zeta. rewrite E1, E2, E3, E4, E5, E6.
  replace (2 ^ m - 1) with (Z.ones m) by (rewrite Z.ones_equiv; lia).
  rewrite Z.land_ones by lia. unfold u32.
  destruct (s `mod` 2 ^ m =? 0); cbn [negb]; rewrite ?(Z.mod_small (q - 8 + 1)) by lia;
    rewrite Z.mod_small by lia; lia.
Qed.

(** A range is parked in the largest code not above its size. *)
Lemma roundDown_spec s : 0 <= s < 2 ^ 32 ->
  0 <= uintToFloatRoundDown s <= 239 /\
  fval (uintToFloatRoundDown s) <= s < fval (uintToFloatRoundDown s + 1).
Proof.
  intros Hs. destruct (decide (s < 8)).
  - unfold uintToFloatRoundDown. change mantissaValue with 8. replace (s <? 8) with true by lia.
    rewrite fval_succ by lia. unfold fval. replace (s <? 8) with true by lia. lia.
  - assert (8 <= s < 2 ^ 32) as Hs' by lia. pose proof (sci_exists s Hs') as Hsci.
    set (m := Z.log2 s - 3) in *. set (q := s / 2 ^ m) in *.
    rewrite (roundDown_sci s m q) by done. destruct Hsci as [Hm Hq Hqs Hh].
    assert (0 < 2 ^ m) by (apply Z.pow_pos_nonneg; lia).
    pose proof (Z.div_mod s (2 ^ m)). pose proof (Z.mod_pos_bound s (2 ^ m)).
    split; [lia|]. rewrite fval_succ, fval_norm by lia. replace (_ <? 8) with false by lia.
    replace ((8 * (m + 1) + (q - 8)) / 8) with (m + 1) by (apply Z.div_unique with (q - 8); lia).
    replace (m + 1 - 1) with m by lia. fold q in H0. nia.
Qed.

(** A request takes the smallest code not below its size. *)
Lemma roundUp_spec s : 0 <= s < 2 ^ 32 ->
  0 <= uintToFloatRoundUp s <= 240 /\
  forall g, 0 <= g -> uintToFloatRoundUp s <= g <-> s <= fval g.
Proof.
  intros Hs. assert (forall f, 0 <= f <= 240 -> s <= fval f -> (f = 0 \/ fval (f - 1) < s) ->
    0 <= f <= 240 /\ forall g, 0 <= g -> f <= g <-> s <= fval g) as Hgal.
  { intros f Hf Hle Hlt. split; [done|]. intros g Hg. split; intros H.
    - apply fval_le in H; lia.
    - destruct Hlt as [->|Hlt]; [lia|]. destruct (decide (f <= g)); [done|].
      pose proof (fval_le g (f - 1)). lia. }
  destruct (decide (s < 8)).
  - unfold uintToFloatRoundUp. change mantissaValue with 8. replace (s <? 8) with true by lia.
    apply Hgal; unfold fval; [lia|case_if; lia|].
    destruct (decide (s = 0)); [by left|right]. replace (_ <? _) with true by lia. lia.
  - assert (8 <= s < 2 ^ 32) as Hs' by lia. pose proof (sci_exists s Hs') as Hsci.
    set (m := Z.log2 s - 3) in *. set (q := s / 2 ^ m) in *.
    rewrite (roundUp_sci s m q) by done. destruct Hsci as [Hm Hq Hqs Hh].
    assert (0 < 2 ^ m) by (apply Z.pow_pos_nonneg; lia).
    pose proof (Z.div_mod s (2 ^ m)) as Hdm. pose proof (Z.mod_pos_bound s (2 ^ m)).
    fold q in Hdm. case_if; bool_props.
    + apply Hgal; [lia|rewrite Z.add_0_r, fval_norm by lia; nia|right].
      assert (fval (8 * (m + 1) + (q - 8) + 0 - 1) < fval (8 * (m + 1) + (q - 8))) as Hlt
        by (apply fval_lt; lia).
      rewrite fval_norm in Hlt by lia. nia.
    + apply Hgal; [lia| |right].
      * rewrite fval_succ, fval_norm by lia. replace (_ <? 8) with false by lia.
        replace ((8 * (m + 1) + (q - 8)) / 8) with (m + 1) by (apply Z.div_unique with (q - 8); lia).
        replace (m + 1 - 1) with m by lia. nia.
      * replace (_ + 1 - 1) with (8 * (m + 1) + (q - 8)) by lia. rewrite fval_norm by lia. nia.
Qed.

Lemma floatToUint_fval f : 0 <= f <= 239 -> floatToUint f = fval f.
Proof.
  intros Hf. unfold floatToUint, mantissaBits. rewrite land7, Z.shiftr_div_pow2 by lia.
  change (2 ^ 3) with 8. pose proof (Z.div_mod f 8). pose proof (Z.mod_pos_bound f 8).
  unfold fval. case_if; bool_props; [replace (f <? 8) with true by lia; lia|].
  replace (f <? 8) with false by lia. unfold mantissaValue. change (1 <<| mantissaBits) with (1 <<| 3).
  rewrite Z.lor_comm, lor_shiftl_add by (unfold fits; lia).
  unfold u32. rewrite (Z.mod_small (f / 8 - 1)) by lia. rewrite Z.shiftl_mul_pow2 by lia.
  apply Z.mod_small.
  assert (0 < 2 ^ (f / 8 - 1) <= 2 ^ 28)
    by (split; [apply Z.pow_pos_nonneg; lia|apply Z.pow_le_mono_r; lia]). nia.
Qed.

(** ** Scanning a bit mask *)

Lemma odd_part x : 0 < x -> exists k y, 0 <= k /\ 0 <= y /\ x = 2 ^ k * (2 * y + 1).
Proof.
  destruct x as [|p|p]; [lia| |lia]. intros _. induction p as [p IH|p IH|].
  - exists 0, (Z.pos p). lia.
  - destruct IH as (k & y & ? & ? & E). exists (k + 1), y.
    rewrite Z.pow_add_r by lia. lia.
  - exists 0, 0. lia.
Qed.

(** The bits of [2^k * (2y+1)] and of its predecessor. *)
Lemma odd_part_bits k y i : 0 <= k -> 0 <= y -> 0 <= i ->
  Z.testbit (2 ^ k * (2 * y + 1)) i =
    (if i <? k then false else if i =? k then true else Z.testbit y (i - k - 1)) /\
  Z.testbit (2 ^ k * (2 * y + 1) - 1) i =
    (if i <? k then true else if i =? k then false else Z.testbit y (i - k - 1)).
Proof.
  intros Hk Hy Hi.
  replace (2 ^ k * (2 * y + 1) - 1) with (Z.lor ((2 * y) <<| k) (Z.ones k)).
  2:{ rewrite lor_shiftl_add; [rewrite Z.ones_equiv; lia|done|].
      rewrite Z.ones_equiv. unfold fits. pose proof (Z.pow_pos_nonneg 2 k). lia. }
  replace (2 ^ k * (2 * y + 1)) with ((2 * y + 1) <<| k) by (rewrite Z.shiftl_mul_pow2; lia).
  rewrite Z.lor_spec, !Z.shiftl_spec by done. case_if; bool_props.
  - rewrite !Z.testbit_neg_r, Z.ones_spec_low by lia. done.
  - rewrite Z.ones_spec_high, orb_false_r by lia. case_if; bool_props.
    + replace (i - k) with 0 by lia. rewrite Z.testbit_odd_0, Z.testbit_even_0. done.
    + replace (i - k) with (Z.succ (i - k - 1)) by lia.
      rewrite Z.testbit_odd_succ, Z.testbit_even_succ by lia.
      replace (Z.succ (i - k - 1) - 1) with (i - k - 1) by lia. done.
Qed.

Lemma trailingZeros_spec x : 0 < x ->
  0 <= TrailingZeros32 x /\ Z.testbit x (TrailingZeros32 x) = true /\
  forall i, 0 <= i < TrailingZeros32 x -> Z.testbit x i = false.
Proof.
  intros Hx. destruct (odd_part x Hx) as (k & y & Hk & Hy & ->).
  unfold TrailingZeros32. replace (_ =? 0) with false by lia.
  replace (Z.land _ _) with (2 ^ k).
  2:{ apply Z.bits_inj'. intros i Hi. rewrite Z.land_spec, Z.bits_opp, Z.pow2_bits_eqb by done.
      rewrite <- Z.sub_1_r. destruct (odd_part_bits k y i) as [-> ->]; [done..|].
      rewrite (Z.eqb_sym k i). destruct (i <? k) eqn:E, (i =? k) eqn:E'; try done; [lia|].
      by destruct (Z.testbit _ _). }
  rewrite Z.log2_pow2 by done. split; [done|]. split.
  - destruct (odd_part_bits k y k) as [-> _]; [done..|]. rewrite Z.ltb_irrefl. by rewrite Z.eqb_refl.
  - intros i Hi. destruct (odd_part_bits k y i) as [-> _]; [lia..|].
    by replace (i <? k) with true by lia.
Qed.

(** [findLowestSetBitAfter] is the least set bit from [start] on. *)
Lemma findLowest_spec mask start : fits 32 mask -> 0 <= start < 32 ->
  let r := findLowestSetBitAfter mask start in
  (r = unusedIndex /\ forall i, start <= i -> Z.testbit mask i = false) \/
  (start <= r < 32 /\ Z.testbit mask r = true /\
   forall i, start <= i < r -> Z.testbit mask i = false).
Proof.
  intros Hm Hs. unfold findLowestSetBitAfter, u32.
  assert (1 <<| start = 2 ^ start) as E by (rewrite Z.shiftl_mul_pow2; lia). rewrite E.
  assert (0 < 2 ^ start < 2 ^ 32)
    by (split; [apply Z.pow_pos_nonneg; lia|apply Z.pow_lt_mono_r; lia]).
  rewrite (Z.mod_small (2 ^ start)), (Z.mod_small (2 ^ start - 1)) by lia.
  set (ma := mask &^ (2 ^ start - 1)).
  assert (forall i, 0 <= i -> Z.testbit ma i = if i <? start then false else Z.testbit mask i) as Hb.
  { intros i Hi. unfold ma. rewrite andnot_spec by done.
    replace (2 ^ start - 1) with (Z.ones start) by (rewrite Z.ones_equiv; lia). case_if; bool_props.
    - rewrite Z.ones_spec_low by lia. apply andb_false_r.
    - rewrite Z.ones_spec_high by lia. apply andb_true_r. }
  assert (0 <= ma) as Hma.
  { unfold ma, andnot. apply Z.land_nonneg. left. apply Hm. }
  cbv zeta. case_if; bool_props.
  - left. split; [done|]. intros i Hi. specialize (Hb i).
    rewrite Hif, Z.bits_0 in Hb. replace (i <? start) with false in Hb by lia. rewrite <- Hb; lia || done.
  - right. destruct (trailingZeros_spec ma) as (Hr & Hbit & Hlow); [lia|].
    set (r := TrailingZeros32 ma) in *. rewrite Hb in Hbit by done.
    case_if_in Hbit; [done|]. bool_props.
    assert (r < 32).
    { destruct (decide (r < 32)); [done|]. rewrite (fits_testbit 32) in Hbit by (done || lia). done. }
    rewrite Z.mod_small by lia. split_and!; [lia..|done|].
    intros i Hi. specialize (Hlow i). rewrite Hb in Hlow by lia.
    replace (i <? start) with false in Hlow by lia. apply Hlow. lia.
Qed.

End SmallFloat.
