(* ===== verification/Dll.v ===== *)
(** Doubly linked lists over index links.

    The allocator threads its nodes through two kinds of doubly linked list
    whose links are pool indices with a sentinel for "none". [dseg prv nxt p l
    q] says that the links [prv] and [nxt] thread exactly the list [l], entered
    from [p] and left to [q]. The lemmas cover the surgery the code does on
    such lists: push at the head, unlink, insert after an element. Links of
    indices outside the list are irrelevant. *)

From Stdlib Require Import ZArith Lia.
From stdpp Require Import base numbers list sets.
From S2P Require Import Prelude.
Open Scope Z_scope.

Module Dll.

(** First and last element, with the sentinel for the empty list. *)
Definition hd_ (q : Z) (l : list Z) : Z := match l with [] => q | y :: _ => y end.
Definition lst (p : Z) (l : list Z) : Z := default p (last l).

Fixpoint dseg (prv nxt : Z -> Z) (p : Z) (l : list Z) (q : Z) : Prop :=
  match l with
  | [] => True
  | x :: l' => prv x = p /\ nxt x = hd_ q l' /\ dseg prv nxt x l' q
  end.

Lemma hd_app q l1 l2 : hd_ q (l1 ++ l2) = hd_ (hd_ q l2) l1.
Proof. by destruct l1. Qed.

Lemma lst_cons p x l : lst p (x :: l) = lst x l.
Proof. unfold lst. rewrite last_cons. by destruct (last l). Qed.

Lemma lst_app p l1 l2 : lst p (l1 ++ l2) = lst (lst p l1) l2.
Proof. revert p. induction l1 as [|x l1 IH]; intros p; [done|]. cbn. by rewrite !lst_cons. Qed.

Lemma lst_snoc p l x : lst p (l ++ [x]) = x.
Proof. by rewrite lst_app. Qed.

Lemma dseg_app prv nxt p l1 l2 q :
  dseg prv nxt p (l1 ++ l2) q <->
  dseg prv nxt p l1 (hd_ q l2) /\ dseg prv nxt (lst p l1) l2 q.
Proof.
  revert p. induction l1 as [|x l1 IH]; intros p; cbn; [tauto|].
  rewrite IH, hd_app, lst_cons. tauto.
Qed.

(** The links at one element. *)
Lemma dseg_at prv nxt p l1 x l2 q :
  dseg prv nxt p (l1 ++ x :: l2) q -> prv x = lst p l1 /\ nxt x = hd_ q l2.
Proof. rewrite dseg_app. cbn. tauto. Qed.

Lemma dseg_ext prv nxt prv' nxt' p l q :
  (forall x, x ∈ l -> prv' x = prv x /\ nxt' x = nxt x) ->
  dseg prv nxt p l q -> dseg prv' nxt' p l q.
Proof.
  revert p. induction l as [|x l IH]; intros p He; cbn; [done|]. intros (? & ? & ?).
  destruct (He x) as [-> ->]; [by left|]. split_and!; [done..|].
  apply IH; [|done]. intros y Hy. apply He. by right.
Qed.

(** Change what a segment is entered from: only its first element's back link
    differs. *)
Lemma dseg_reenter prv nxt prv' nxt' p p' l q :
  NoDup l -> (forall x, hd_error l = Some x -> prv' x = p') ->
  (forall x, x ∈ l -> hd_error l <> Some x -> prv' x = prv x) ->
  (forall x, x ∈ l -> nxt' x = nxt x) ->
  dseg prv nxt p l q -> dseg prv' nxt' p' l q.
Proof.
  destruct l as [|x l]; cbn; [done|]. intros Hnd Hx Hp Hn (_ & Hnx & Hl).
  apply NoDup_cons in Hnd as [Hni Hnd].
  split_and!; [by apply Hx|rewrite Hn; [done|by left]|].
  eapply dseg_ext; [|done]. intros y Hy. split.
  - apply Hp; [by right|]. intros [= ->]. done.
  - apply Hn. by right.
Qed.

(** Change what a segment is left to: only its last element's forward link
    differs. *)
Lemma dseg_releave prv nxt prv' nxt' p l q q' :
  NoDup l -> (forall x, last l = Some x -> nxt' x = q') ->
  (forall x, x ∈ l -> last l <> Some x -> nxt' x = nxt x) ->
  (forall x, x ∈ l -> prv' x = prv x) ->
  dseg prv nxt p l q -> dseg prv' nxt' p l q'.
Proof.
  intros Hnd. revert p. induction l as [|x l IH]; intros p; cbn; [done|].
  apply NoDup_cons in Hnd as [Hni Hnd]. intros Hx Hn Hp (Hpx & Hnx & Hl).
  split_and!; [rewrite Hp; [done|by left]| |].
  - destruct l as [|y l]; [by apply Hx|]. change (nxt x = y) in Hnx. cbn [hd_]. rewrite <- Hnx.
    apply Hn; [by left|]. intros E. apply Hni. rewrite last_cons_cons in E.
    apply last_Some in E as [l' E]. rewrite E. set_solver.
  - apply IH; [done|..|done].
    + intros y Hy. apply Hx. rewrite last_cons, Hy. done.
    + intros y Hy Hly. apply Hn; [by right|]. rewrite last_cons.
      destruct (last l) eqn:E; [congruence|]. apply last_None in E as ->. by apply elem_of_nil in Hy.
    + intros y Hy. apply Hp. by right.
Qed.

Section Surgery.
Context (u : Z) (prv nxt prv' nxt' : Z -> Z).

(** Push [x] in front. *)
Lemma dll_push l x :
  NoDup l -> x ∉ l -> dseg prv nxt u l u ->
  prv' x = u -> nxt' x = hd_ u l ->
  (forall y, hd_error l = Some y -> prv' y = x) ->
  (forall y, y ∈ l -> hd_error l <> Some y -> prv' y = prv y) ->
  (forall y, y ∈ l -> nxt' y = nxt y) ->
  dseg prv' nxt' u (x :: l) u.
Proof using Type. intros. cbn. split_and!; [done..|]. by eapply dseg_reenter. Qed.

(** Unlink [x]. *)
Lemma dll_unlink l1 x l2 :
  NoDup (l1 ++ x :: l2) -> dseg prv nxt u (l1 ++ x :: l2) u ->
  (forall y, last l1 = Some y -> nxt' y = hd_ u l2) ->
  (forall y, y ∈ l1 ++ l2 -> last l1 <> Some y -> nxt' y = nxt y) ->
  (forall y, hd_error l2 = Some y -> prv' y = lst u l1) ->
  (forall y, y ∈ l1 ++ l2 -> hd_error l2 <> Some y -> prv' y = prv y) ->
  dseg prv' nxt' u (l1 ++ l2) u.
Proof using Type.
  intros Hnd Hd Hn1 Hn2 Hp1 Hp2. apply NoDup_app in Hnd as (Hnd1 & Hdis & Hnd2).
  apply NoDup_cons in Hnd2 as [Hx2 Hnd2].
  rewrite dseg_app in Hd |- *. cbn in Hd. destruct Hd as (Hd1 & _ & _ & Hd2). split.
  - eapply dseg_releave; [done|done|..|exact Hd1].
    + intros y Hy. apply Hn2. set_solver.
    + intros y Hy. apply Hp2; [set_solver|]. intros E. destruct l2 as [|z l2]; [done|].
      injection E as ->. apply (Hdis y Hy). set_solver.
  - eapply dseg_reenter; [done|done|..|exact Hd2].
    + intros y Hy. apply Hp2. set_solver.
    + intros y Hy. apply Hn2; [set_solver|]. intros E. apply last_Some in E as [l' ->].
      apply (Hdis y); set_solver.
Qed.

(** Insert [y] after [x]. *)
Lemma dll_insert_after l1 x y l2 :
  NoDup (l1 ++ x :: l2) -> y ∉ l1 ++ x :: l2 -> dseg prv nxt u (l1 ++ x :: l2) u ->
  nxt' x = y -> prv' x = prv x -> prv' y = x -> nxt' y = hd_ u l2 ->
  (forall z, z ∈ l1 ++ l2 -> nxt' z = nxt z) ->
  (forall z, hd_error l2 = Some z -> prv' z = y) ->
  (forall z, z ∈ l1 ++ l2 -> hd_error l2 <> Some z -> prv' z = prv z) ->
  dseg prv' nxt' u (l1 ++ x :: y :: l2) u.
Proof using Type.
  intros Hnd Hy Hd ???? Hn Hp1 Hp2. apply NoDup_app in Hnd as (Hnd1 & Hdis & Hnd2).
  apply NoDup_cons in Hnd2 as [Hx2 Hnd2].
  rewrite dseg_app in Hd |- *. cbn in Hd |- *. destruct Hd as (Hd1 & Hpx & Hnx & Hd2).
  split_and!; [|congruence|done..|].
  - eapply dseg_ext; [|exact Hd1]. intros z Hz. split; [apply Hp2|apply Hn]; [set_solver| |set_solver].
    intros E. destruct l2 as [|w l2]; [done|]. injection E as ->. apply (Hdis z Hz). set_solver.
  - eapply dseg_reenter; [done|done|..|exact Hd2].
    + intros z Hz. apply Hp2. set_solver.
    + intros z Hz. apply Hn. set_solver.
Qed.

End Surgery.

End Dll.
