(* ===== verification/OffsetAlloc.v ===== *)
(** The DRAM allocator: [internal/store/dram/offsetalloc.go].

    The state is the Go struct: a pool of nodes linked into an offset-sorted
    neighbour list and into one list per size class, the two-level bitmap over
    the classes, and the stack of unused node slots. Every operation is the
    sequence of reads and writes of the Go method on that state; an index out
    of range is [None]. [assertf] is the no-op of release builds. *)

From Stdlib Require Import ZArith Lia.
From stdpp Require Import base numbers list sets.
From S2P Require Import Prelude.
From S2P Require Import SmallFloat.
Import SmallFloat.
Open Scope Z_scope.
Open Scope go_scope.

Module OffsetAlloc.

Definition AllocUnitShift : Z := 12.
Definition AllocUnit : Z := 1 <<| AllocUnitShift.
Definition defaultMaxAllocs : Z := 128 * 1024.
Definition metaSlotBits : Z := 18.
Definition metaSlotMask : Z := (1 <<| metaSlotBits) - 1.
Definition genMask : Z := (1 <<| (32 - metaSlotBits)) - 1.

Record node := mkNode {
  dataOffset : Z;
  dataSize : Z;
  binListPrev : Z;
  binListNext : Z;
  neighborPrev : Z;
  neighborNext : Z;
  gen : Z;
  used : bool
}.

(** Assignments to one field of a node. *)
Definition set_dataOffset v n := mkNode v (dataSize n) (binListPrev n) (binListNext n)
  (neighborPrev n) (neighborNext n) (gen n) (used n).
Definition set_dataSize v n := mkNode (dataOffset n) v (binListPrev n) (binListNext n)
  (neighborPrev n) (neighborNext n) (gen n) (used n).
Definition set_binListPrev v n := mkNode (dataOffset n) (dataSize n) v (binListNext n)
  (neighborPrev n) (neighborNext n) (gen n) (used n).
Definition set_binListNext v n := mkNode (dataOffset n) (dataSize n) (binListPrev n) v
  (neighborPrev n) (neighborNext n) (gen n) (used n).
Definition set_neighborPrev v n := mkNode (dataOffset n) (dataSize n) (binListPrev n)
  (binListNext n) v (neighborNext n) (gen n) (used n).
Definition set_neighborNext v n := mkNode (dataOffset n) (dataSize n) (binListPrev n)
  (binListNext n) (neighborPrev n) v (gen n) (used n).
Definition set_gen v n := mkNode (dataOffset n) (dataSize n) (binListPrev n) (binListNext n)
  (neighborPrev n) (neighborNext n) v (used n).
Definition set_used v n := mkNode (dataOffset n) (dataSize n) (binListPrev n) (binListNext n)
  (neighborPrev n) (neighborNext n) (gen n) v.

Record Allocation := mkAllocation { Offset : Z; Meta : Z }.

Record StorageReport := mkStorageReport { TotalFreeSpace : Z; LargestFreeRegion : Z }.

Record Allocator := mkAllocator {
  size : Z;
  maxAllocs : Z;
  freeStorage : Z;
  usedBinsTop : Z;
  usedBins : list Z;
  binIndices : list Z;
  nodes : list node;
  freeNodes : list Z;
  freeOffset : Z
}.

Definition set_freeStorage v a := mkAllocator (size a) (maxAllocs a) v (usedBinsTop a)
  (usedBins a) (binIndices a) (nodes a) (freeNodes a) (freeOffset a).
Definition set_usedBinsTop v a := mkAllocator (size a) (maxAllocs a) (freeStorage a) v
  (usedBins a) (binIndices a) (nodes a) (freeNodes a) (freeOffset a).
Definition set_usedBins v a := mkAllocator (size a) (maxAllocs a) (freeStorage a) (usedBinsTop a)
  v (binIndices a) (nodes a) (freeNodes a) (freeOffset a).
Definition set_binIndices v a := mkAllocator (size a) (maxAllocs a) (freeStorage a)
  (usedBinsTop a) (usedBins a) v (nodes a) (freeNodes a) (freeOffset a).
Definition set_nodes v a := mkAllocator (size a) (maxAllocs a) (freeStorage a) (usedBinsTop a)
  (usedBins a) (binIndices a) v (freeNodes a) (freeOffset a).
Definition set_freeNodes v a := mkAllocator (size a) (maxAllocs a) (freeStorage a)
  (usedBinsTop a) (usedBins a) (binIndices a) (nodes a) v (freeOffset a).
Definition set_freeOffset v a := mkAllocator (size a) (maxAllocs a) (freeStorage a)
  (usedBinsTop a) (usedBins a) (binIndices a) (nodes a) (freeNodes a) v.

(** [a.nodes[i].f = v], with [f] the field's setter. *)
Definition updNode (a : Allocator) (i : Z) (f : node -> node) : option Allocator :=
  n ← index (nodes a) i;
  ns ← store (nodes a) i (f n);
  Some (set_nodes ns a).

(** [a.nodes[i] = n]. *)
Definition putNode (a : Allocator) (i : Z) (n : node) : option Allocator :=
  ns ← store (nodes a) i n;
  Some (set_nodes ns a).

(** ** The node stack *)

Definition popNode (a : Allocator) : option (Allocator * Z) :=
  let a := set_freeOffset (u32 (freeOffset a - 1)) a in
  i ← index (freeNodes a) (freeOffset a);
  Some (a, i).

Definition pushNode (a : Allocator) (idx : Z) : option Allocator :=
  fn ← store (freeNodes a) (freeOffset a) idx;
  let a := set_freeNodes fn a in
  Some (set_freeOffset (u32 (freeOffset a + 1)) a).

(** ** The bins *)

Definition insertExistingNodeIntoBin (a : Allocator) (nodeIndex : Z) : option Allocator :=
  n ← index (nodes a) nodeIndex;
  let binIndex := uintToFloatRoundDown (dataSize n) in
  let topBinIndex := binIndex >>| topBinsIndexShift in
  let leafBinIndex := Z.land binIndex leafBinsIndexMask in
  b ← index (binIndices a) binIndex;
  a ← (if b =? unusedIndex then
         ub ← index (usedBins a) topBinIndex;
         ubs ← store (usedBins a) topBinIndex (Z.lor ub (u8 (1 <<| leafBinIndex)));
         Some (set_usedBinsTop (Z.lor (usedBinsTop a) (u32 (1 <<| topBinIndex)))
                 (set_usedBins ubs a))
       else Some a);
  head ← index (binIndices a) binIndex;
  a ← updNode a nodeIndex (set_binListPrev unusedIndex);
  a ← updNode a nodeIndex (set_binListNext head);
  a ← updNode a nodeIndex (set_used false);
  a ← (if negb (head =? unusedIndex) then updNode a head (set_binListPrev nodeIndex) else Some a);
  bi ← store (binIndices a) binIndex nodeIndex;
  let a := set_binIndices bi a in
  n ← index (nodes a) nodeIndex;
  Some (set_freeStorage (u32 (freeStorage a + dataSize n)) a).

Definition insertNodeIntoBin (a : Allocator) (sz dataOff : Z) : option Allocator :=
  '(a, nodeIndex) ← popNode a;
  a ← putNode a nodeIndex
        (mkNode dataOff sz unusedIndex unusedIndex unusedIndex unusedIndex 0 false);
  insertExistingNodeIntoBin a nodeIndex.

(** [a.usedBins[top] &^= 1 << leaf; if a.usedBins[top] == 0 { a.usedBinsTop &^= 1 << top }]. *)
Definition clearBinBit (a : Allocator) (topBinIndex leafBinIndex : Z) : option Allocator :=
  ub ← index (usedBins a) topBinIndex;
  ubs ← store (usedBins a) topBinIndex (ub &^ (u8 (1 <<| leafBinIndex)));
  let a := set_usedBins ubs a in
  ub ← index (usedBins a) topBinIndex;
  Some (if ub =? 0
        then set_usedBinsTop (usedBinsTop a &^ (u32 (1 <<| topBinIndex))) a
        else a).

Definition removeNodeFromBin (a : Allocator) (nodeIndex : Z) : option Allocator :=
  n ← index (nodes a) nodeIndex;
  a ← (if negb (binListPrev n =? unusedIndex) then
         a ← updNode a (binListPrev n) (set_binListNext (binListNext n));
         if negb (binListNext n =? unusedIndex)
         then updNode a (binListNext n) (set_binListPrev (binListPrev n))
         else Some a
       else
         let binIndex := uintToFloatRoundDown (dataSize n) in
         bi ← store (binIndices a) binIndex (binListNext n);
         let a := set_binIndices bi a in
         a ← (if negb (binListNext n =? unusedIndex)
              then updNode a (binListNext n) (set_binListPrev unusedIndex) else Some a);
         b ← index (binIndices a) binIndex;
         if b =? unusedIndex
         then clearBinBit a (binIndex >>| topBinsIndexShift) (Z.land binIndex leafBinsIndexMask)
         else Some a);
  n ← index (nodes a) nodeIndex;
  Some (set_freeStorage (u32 (freeStorage a - dataSize n)) a).

(** ** Construction *)

(** [reset] of a fresh allocator: the slices are made at [poolLen]. *)
Definition emptyNode : node :=
  mkNode 0 0 unusedIndex unusedIndex unusedIndex unusedIndex 0 false.

Definition reset (a : Allocator) : option Allocator :=
  let poolLen := u32 (maxAllocs a * 2) in
  let a := mkAllocator (size a) (maxAllocs a) 0 0
             (replicate (Z.to_nat numTopBins) 0)
             (replicate (Z.to_nat numLeafBins) unusedIndex)
             (replicate (Z.to_nat poolLen) emptyNode)
             ((fun i : nat => poolLen - Z.of_nat i - 1) <$> seq 0 (Z.to_nat poolLen))
             poolLen in
  if 0 <? size a then insertNodeIntoBin a (size a) 0 else Some a.

Definition newAllocator (sz maxA : Z) : option Allocator :=
  reset (mkAllocator sz maxA 0 0 [] [] [] [] 0).

Definition NewAllocator (sz : Z) : option Allocator := newAllocator sz defaultMaxAllocs.

Definition NewAllocatorMax (sz maxA : Z) : option Allocator :=
  let maxA := if 1 <<| metaSlotBits <? u32 (maxA * 2)
              then 1 <<| (metaSlotBits - 1) else maxA in
  newAllocator sz maxA.

Definition MaxAllocs (a : Allocator) : Z := maxAllocs a.

(** ** Alloc *)

Definition failedAlloc : Allocation := mkAllocation 0 unusedIndex.

(** The bin scan: the chosen top and leaf index, or nothing. *)
Definition findBin (a : Allocator) (n : Z) : option (option (Z * Z)) :=
  let minBinIndex := uintToFloatRoundUp n in
  let minTopBinIndex := minBinIndex >>| topBinsIndexShift in
  let minLeafBinIndex := Z.land minBinIndex leafBinsIndexMask in
  leafBinIndex ←
    (if negb (Z.land (usedBinsTop a) (u32 (1 <<| minTopBinIndex)) =? 0) then
       ub ← index (usedBins a) minTopBinIndex;
       Some (findLowestSetBitAfter ub minLeafBinIndex)
     else Some unusedIndex);
  if leafBinIndex =? unusedIndex then
    let topBinIndex := findLowestSetBitAfter (usedBinsTop a) (u32 (minTopBinIndex + 1)) in
    if topBinIndex =? unusedIndex then Some None else
    ub ← index (usedBins a) topBinIndex;
    Some (Some (topBinIndex, u32 (TrailingZeros32 ub)))
  else Some (Some (minTopBinIndex, leafBinIndex)).

(** The split: the remainder becomes a new free node right after [nodeIndex]. *)
Definition splitRemainder (a : Allocator) (nodeIndex n remainder : Z) : option Allocator :=
  '(a, newNodeIndex) ← popNode a;
  nd ← index (nodes a) nodeIndex;
  a ← putNode a newNodeIndex
        (mkNode (u32 (dataOffset nd + n)) remainder unusedIndex unusedIndex
           nodeIndex (neighborNext nd) 0 false);
  nd ← index (nodes a) nodeIndex;
  a ← (if negb (neighborNext nd =? unusedIndex)
       then updNode a (neighborNext nd) (set_neighborPrev newNodeIndex) else Some a);
  a ← updNode a nodeIndex (set_neighborNext newNodeIndex);
  insertExistingNodeIntoBin a newNodeIndex.

Definition Alloc (a : Allocator) (n : Z) : option (Allocator * Allocation * bool) :=
  if n =? 0 then Some (a, failedAlloc, false) else
  if freeOffset a <? 1 then Some (a, failedAlloc, false) else
  found ← findBin a n;
  match found with
  | None => Some (a, failedAlloc, false)
  | Some (topBinIndex, leafBinIndex) =>
      let binIndex := Z.lor (u32 (topBinIndex <<| topBinsIndexShift)) leafBinIndex in
      nodeIndex ← index (binIndices a) binIndex;
      nd ← index (nodes a) nodeIndex;
      let totalSize := dataSize nd in
      bi ← store (binIndices a) binIndex (binListNext nd);
      let a := set_binIndices bi a in
      a ← (if negb (binListNext nd =? unusedIndex)
           then updNode a (binListNext nd) (set_binListPrev unusedIndex) else Some a);
      b ← index (binIndices a) binIndex;
      a ← (if b =? unusedIndex then clearBinBit a topBinIndex leafBinIndex else Some a);
      let a := set_freeStorage (u32 (freeStorage a - totalSize)) a in
      a ← updNode a nodeIndex (set_dataSize n);
      a ← updNode a nodeIndex (set_used true);
      a ← updNode a nodeIndex (fun nd => set_gen (Z.land (u32 (gen nd + 1)) genMask) nd);
      a ← updNode a nodeIndex (set_binListPrev unusedIndex);
      a ← updNode a nodeIndex (set_binListNext unusedIndex);
      let remainder := u32 (totalSize - n) in
      a ← (if 0 <? remainder then splitRemainder a nodeIndex n remainder else Some a);
      nd ← index (nodes a) nodeIndex;
      Some (a, mkAllocation (dataOffset nd) (Z.lor (u32 (gen nd <<| metaSlotBits)) nodeIndex), true)
  end.

(** ** Free *)

(** [offset, size] after the merge with a free previous neighbour. *)
Definition mergePrev (a : Allocator) (idx offset sz : Z) : option (Allocator * Z * Z) :=
  nd ← index (nodes a) idx;
  let prevIdx := neighborPrev nd in
  mergeable ← (if negb (prevIdx =? unusedIndex)
               then p ← index (nodes a) prevIdx; Some (negb (used p)) else Some false);
  if mergeable : bool then
    prev ← index (nodes a) prevIdx;
    let offset := dataOffset prev in
    let sz := u32 (sz + dataSize prev) in
    a ← removeNodeFromBin a prevIdx;
    prev ← index (nodes a) prevIdx;
    a ← updNode a idx (set_neighborPrev (neighborPrev prev));
    a ← (if negb (neighborPrev prev =? unusedIndex)
         then updNode a (neighborPrev prev) (set_neighborNext idx) else Some a);
    a ← pushNode a prevIdx;
    Some (a, offset, sz)
  else Some (a, offset, sz).

Definition mergeNext (a : Allocator) (idx sz : Z) : option (Allocator * Z) :=
  nd ← index (nodes a) idx;
  let nextIdx := neighborNext nd in
  mergeable ← (if negb (nextIdx =? unusedIndex)
               then p ← index (nodes a) nextIdx; Some (negb (used p)) else Some false);
  if mergeable : bool then
    next ← index (nodes a) nextIdx;
    let sz := u32 (sz + dataSize next) in
    a ← removeNodeFromBin a nextIdx;
    next ← index (nodes a) nextIdx;
    a ← updNode a idx (set_neighborNext (neighborNext next));
    a ← (if negb (neighborNext next =? unusedIndex)
         then updNode a (neighborNext next) (set_neighborPrev idx) else Some a);
    a ← pushNode a nextIdx;
    Some (a, sz)
  else Some (a, sz).

Definition Free (a : Allocator) (al : Allocation) : option Allocator :=
  if Meta al =? unusedIndex then Some a else
  let idx := Z.land (Meta al) metaSlotMask in
  let g := Meta al >>| metaSlotBits in
  if u32 (len (nodes a)) <=? idx then Some a else
  nd ← index (nodes a) idx;
  if negb (used nd) || negb (gen nd =? g) then Some a else
  '(a, offset, sz) ← mergePrev a idx (dataOffset nd) (dataSize nd);
  '(a, sz) ← mergeNext a idx sz;
  a ← updNode a idx (set_dataOffset offset);
  a ← updNode a idx (set_dataSize sz);
  insertExistingNodeIntoBin a idx.

(** ** StorageReport *)

Definition storageReport (a : Allocator) : option StorageReport :=
  if freeOffset a =? 0 then Some (mkStorageReport 0 0) else
  if negb (usedBinsTop a =? 0) then
    let topBinIndex := u32 (31 - LeadingZeros32 (usedBinsTop a)) in
    ub ← index (usedBins a) topBinIndex;
    let leafBinIndex := u32 (7 - LeadingZeros8 ub) in
    Some (mkStorageReport (freeStorage a)
            (floatToUint (Z.lor (u32 (topBinIndex <<| topBinsIndexShift)) leafBinIndex)))
  else Some (mkStorageReport (freeStorage a) 0).

End OffsetAlloc.
