(* ===== verification/AllocBins.v ===== *)
(** The bins of the DRAM allocator: the invariant that ties the bin heads, the
    bin lists and the two-level bitmap of [OffsetAlloc] to the set of parked
    ranges, and what inserting into, removing from and scanning the bins does
    to it. *)

From Stdlib Require Import ZArith Lia.
From stdpp Require Import base numbers list sets.
From S2P Require Import Prelude.
From S2P Require Import SmallFloat.
From S2P Require Import Dll.
From S2P Require Import OffsetAlloc.
Import SmallFloat Dll OffsetAlloc.
Open Scope Z_scope.
Open Scope go_scope.

Module AllocBins.

#[export] Instance node_inhabited : Inhabited node := populate emptyNode.

(** Slot [x] of the pool. *)
Definition N (a : Allocator) (x : Z) : node := nodes a !!! Z.to_nat x.
Definition inr (a : Allocator) (x : Z) : Prop := 0 <= x < len (nodes a).

(** An update of one slot, as a total function. *)
Definition upd (x : Z) (f : node -> node) (a : Allocator) : Allocator :=
  set_nodes (<[Z.to_nat x := f (N a x)]> (nodes a)) a.

Lemma index_N a x : inr a x -> index (nodes a) x = Some (N a x).
Proof.
  intros Hx. destruct (index_some (nodes a) x Hx) as [n Hn]. rewrite Hn. f_equal.
  unfold index in Hn. case_if_in Hn; [|done]. unfold N. by rewrite list_lookup_total_alt, Hn.
Qed.

Lemma store_some {A} (l : list A) i x :
  0 <= i < len l -> store l i x = Some (<[Z.to_nat i := x]> l).
Proof. intros. unfold store. by replace (_ && _) with true by lia. Qed.

Lemma updNode_some a x f : inr a x -> updNode a x f = Some (upd x f a).
Proof.
  intros Hx. unfold updNode. rewrite index_N by done. cbn [mbind option_bind].
  by rewrite store_some.
Qed.

Lemma putNode_some a x n : inr a x -> putNode a x n = Some (upd x (fun _ => n) a).
Proof. intros Hx. unfold putNode. by rewrite store_some. Qed.

Lemma N_upd a x f y :
  inr a x -> 0 <= y -> N (upd x f a) y = if decide (y = x) then f (N a x) else N a y.
Proof.
  intros Hx Hy. unfold N at 1, upd. cbn [nodes set_nodes]. unfold inr, len in Hx.
  case_decide as E; [subst y; apply list_lookup_total_insert_eq; lia|].
  apply list_lookup_total_insert_ne. lia.
Qed.

Lemma len_upd x f a : len (nodes (upd x f a)) = len (nodes a).
Proof. unfold upd. cbn [nodes set_nodes]. apply len_insert. Qed.

(** [if h != unusedIndex { a.nodes[h].f = v }]. *)
Definition updo (h : Z) (f : node -> node) (a : Allocator) : Allocator :=
  set_nodes (if h =? unusedIndex then nodes a else <[Z.to_nat h := f (N a h)]> (nodes a)) a.

Lemma updo_some a h f :
  h = unusedIndex \/ inr a h ->
  (if negb (h =? unusedIndex) then updNode a h f else Some a) = Some (updo h f a).
Proof.
  intros Hh. unfold updo. destruct (h =? unusedIndex) eqn:E; cbn [negb]; [by destruct a|].
  apply updNode_some. destruct Hh; [lia|done].
Qed.

Lemma N_updo a h f y :
  h = unusedIndex \/ inr a h -> 0 <= y -> y <> unusedIndex ->
  N (updo h f a) y = if decide (y = h) then f (N a y) else N a y.
Proof.
  intros Hh Hy Hu. unfold updo. destruct (h =? unusedIndex) eqn:E.
  - case_decide; [lia|done].
  - destruct Hh as [?|Hh]; [lia|]. change (N (upd h f a) y = if decide (y = h) then f (N a y) else N a y).
    rewrite N_upd by done. by case_decide; subst.
Qed.

Lemma len_updo x f a : len (nodes (updo x f a)) = len (nodes a).
Proof. unfold updo. cbn [nodes set_nodes]. case_if; [done|]. apply len_insert. Qed.

Lemma inr_updo a h f y : inr (updo h f a) y <-> inr a y.
Proof. unfold inr, updo. cbn [nodes set_nodes]. case_if; [done|]. by rewrite len_insert. Qed.

Lemma inr_upd a x f y : inr (upd x f a) y <-> inr a y.
Proof. unfold inr, upd. cbn [nodes set_nodes]. by rewrite len_insert. Qed.

Lemma index_insert {A} (l : list A) i x j :
  0 <= i < len l -> 0 <= j -> index (<[Z.to_nat i := x]> l) j = if decide (j = i) then Some x else index l j.
Proof.
  intros Hi Hj. unfold index. replace (0 <=? j) with true by lia.
  case_decide as E; [subst; apply list_lookup_insert_eq; unfold len in *; lia|].
  apply list_lookup_insert_ne. lia.
Qed.

(** ** The two-level bitmap *)

(** [ne b] says that bin [b] is not empty. *)
Record bits_ok (top : Z) (ubs : list Z) (ne : Z -> bool) : Prop := mkBitsOk {
  bits_len : len ubs = 32;
  bits_top : fits 32 top;
  bits_leaf : forall t, 0 <= t < 32 -> exists ub, index ubs t = Some ub /\ fits 8 ub /\
    Z.testbit top t = negb (ub =? 0) /\
    forall l, 0 <= l < 8 -> Z.testbit ub l = ne (8 * t + l)
}.

Lemma bits_ext top ubs ne ne' :
  (forall b, 0 <= b < 256 -> ne' b = ne b) -> bits_ok top ubs ne -> bits_ok top ubs ne'.
Proof.
  intros He [Hl Ht Hub]. split; [done..|]. intros t Htr.
  destruct (Hub t Htr) as (ub & ? & ? & ? & Hb). exists ub. split_and!; [done..|].
  intros l Hlr. rewrite He by lia. by apply Hb.
Qed.

Lemma shiftl1 w k : 0 <= k < w -> (1 <<| k) `mod` 2 ^ w = 2 ^ k.
Proof.
  intros. rewrite Z.shiftl_mul_pow2, Z.mul_1_l by lia. apply Z.mod_small.
  split; [apply Z.pow_nonneg; lia|apply Z.pow_lt_mono_r; lia].
Qed.

Lemma fits_lor w x y : 0 <= w -> fits w x -> fits w y -> fits w (Z.lor x y).
Proof.
  intros Hw Hx Hy. apply fits_of_testbit; [done|apply Z.lor_nonneg; split; [apply Hx|apply Hy]|].
  intros i Hi. rewrite Z.lor_spec, (fits_testbit w x), (fits_testbit w y) by done. done.
Qed.

Lemma fits_andnot w x y : 0 <= w -> fits w x -> fits w (x &^ y).
Proof.
  intros Hw Hx. apply fits_of_testbit; [done|apply Z.land_nonneg; left; apply Hx|].
  intros i Hi. rewrite andnot_spec, (fits_testbit w x) by (done || lia). done.
Qed.

Lemma fits_pow2 w k : 0 <= k < w -> fits w (2 ^ k).
Proof. intros. split; [apply Z.pow_nonneg; lia|apply Z.pow_lt_mono_r; lia]. Qed.

(** A nonzero byte has a set bit below 8. *)
Lemma byte_nonzero ub : fits 8 ub -> ub <> 0 -> exists l, 0 <= l < 8 /\ Z.testbit ub l = true.
Proof.
  intros Hf Hz. exists (Z.log2 ub). unfold fits in Hf. pose proof (Z.log2_lt_pow2 ub 8).
  pose proof (Z.log2_nonneg ub). split; [lia|]. apply Z.bit_log2. lia.
Qed.

Lemma bits_set top ubs ne t l :
  bits_ok top ubs ne -> 0 <= t < 32 -> 0 <= l < 8 ->
  exists ub, index ubs t = Some ub /\
    bits_ok (Z.lor top (2 ^ t)) (<[Z.to_nat t := Z.lor ub (2 ^ l)]> ubs)
      (fun b => if b =? 8 * t + l then true else ne b).
Proof.
  intros [Hlen Htop Hub] Ht Hl. destruct (Hub t Ht) as (ub & Hi & Hf & Htb & Hb).
  exists ub. split; [done|]. split; [by rewrite len_insert|by apply fits_lor, fits_pow2|].
  intros t' Ht'. rewrite index_insert by lia. rewrite Z.lor_spec, Z.pow2_bits_eqb by lia.
  case_decide as E.
  - subst t'. exists (Z.lor ub (2 ^ l)). rewrite Z.eqb_refl, orb_true_r.
    split_and!; [done|by apply fits_lor, fits_pow2| |].
    + replace (_ =? 0) with false; [done|]. symmetry. apply Z.eqb_neq. intros E.
      apply (f_equal (fun z => Z.testbit z l)) in E.
      rewrite Z.lor_spec, Z.pow2_bits_eqb, Z.eqb_refl, orb_true_r, Z.bits_0 in E by lia. done.
    + intros l' Hl'. rewrite Z.lor_spec, Z.pow2_bits_eqb, Hb by lia.
      destruct (decide (l = l')) as [->|]; [by rewrite !Z.eqb_refl, orb_true_r|].
      replace (l =? l') with false by lia. replace (_ =? _) with false by lia. apply orb_false_r.
  - destruct (Hub t' Ht') as (ub' & Hi' & Hf' & Htb' & Hb'). exists ub'.
    replace (t =? t') with false by lia. rewrite orb_false_r. split_and!; [done..|].
    intros l' Hl'. replace (_ =? _) with false by lia. by apply Hb'.
Qed.

Lemma bits_clear top ubs ne t l :
  bits_ok top ubs ne -> 0 <= t < 32 -> 0 <= l < 8 ->
  exists ub, index ubs t = Some ub /\
    bits_ok (if ub &^ (2 ^ l) =? 0 then top &^ (2 ^ t) else top)
      (<[Z.to_nat t := ub &^ (2 ^ l)]> ubs) (fun b => if b =? 8 * t + l then false else ne b).
Proof.
  intros [Hlen Htop Hub] Ht Hl. destruct (Hub t Ht) as (ub & Hi & Hf & Htb & Hb).
  exists ub. split; [done|].
  assert (forall i, 0 <= i -> Z.testbit (ub &^ 2 ^ l) i = Z.testbit ub i && negb (l =? i)) as Hc
    by (intros; by rewrite andnot_spec, Z.pow2_bits_eqb by lia).
  split; [by rewrite len_insert|case_if; [by apply fits_andnot|done]|].
  intros t' Ht'. rewrite index_insert by lia.
  assert (Z.testbit (if ub &^ 2 ^ l =? 0 then top &^ 2 ^ t else top) t' =
    if decide (t' = t) then negb (ub &^ 2 ^ l =? 0) else Z.testbit top t') as ->.
  { case_if; bool_props; [rewrite andnot_spec, Z.pow2_bits_eqb by lia|]; case_decide; subst.
    - by rewrite Z.eqb_refl, andb_false_r.
    - replace (t =? t') with false by lia. apply andb_true_r.
    - rewrite Htb. apply (f_equal negb). apply Z.eqb_neq. intros ->. apply Hif. apply Z.bits_inj'. intros i Hi'.
      by rewrite Hc, Z.bits_0 by done.
    - done. }
  case_decide as E.
  - subst t'. eexists. split_and!; [done|by apply fits_andnot|done|].
    intros l' Hl'. rewrite Hc, Hb by lia.
    destruct (decide (l = l')) as [->|]; [by rewrite !Z.eqb_refl, andb_false_r|].
    replace (l =? l') with false by lia. replace (_ =? _) with false by lia. apply andb_true_r.
  - destruct (Hub t' Ht') as (ub' & Hi' & Hf' & Htb' & Hb'). exists ub'.
    split_and!; [done..|]. intros l' Hl'. replace (_ =? _) with false by lia. by apply Hb'.
Qed.

(** ** The invariant of the bins *)

(** The code a size is parked under. *)
Abbreviation code := uintToFloatRoundDown.

Definition bset (b : Z) (l : list Z) (bins : Z -> list Z) : Z -> list Z :=
  fun c => if c =? b then l else bins c.

Lemma bset_eq b l bins : bset b l bins b = l.
Proof. unfold bset. by rewrite Z.eqb_refl. Qed.

Lemma bset_ne b l bins c : c <> b -> bset b l bins c = bins c.
Proof. intros. unfold bset. by replace (c =? b) with false by lia. Qed.

(** The total size of a list of slots. *)
Fixpoint sumsz (a : Allocator) (F : list Z) : Z :=
  match F with [] => 0 | x :: F => dataSize (N a x) + sumsz a F end.

Definition nonempty (l : list Z) : bool := match l with [] => false | _ => true end.

(** [bins b] is the list threaded through bin [b]; [F] holds all parked
    slots. *)
Record Bins (a : Allocator) (bins : Z -> list Z) (F : list Z) : Prop := mkBins {
  bn_pool : len (nodes a) <= 2 ^ 18;
  bn_len : len (binIndices a) = 256;
  bn_head : forall b, 0 <= b < 256 -> index (binIndices a) b = Some (hd_ unusedIndex (bins b));
  bn_dll : forall b, 0 <= b < 256 ->
    dseg (fun x => binListPrev (N a x)) (fun x => binListNext (N a x)) unusedIndex (bins b) unusedIndex;
  bn_mem : forall b x, 0 <= b < 256 -> x ∈ bins b <-> x ∈ F /\ code (dataSize (N a x)) = b;
  bn_nd : forall b, 0 <= b < 256 -> NoDup (bins b);
  bn_ndF : NoDup F;
  bn_F : forall x, x ∈ F -> inr a x /\ used (N a x) = false /\ 0 < dataSize (N a x) < 2 ^ 32;
  bn_bits : bits_ok (usedBinsTop a) (usedBins a) (fun b => nonempty (bins b));
  bn_sum : freeStorage a = u32 (sumsz a F)
}.

(** What the bin operations leave alone. *)
Definition core (n : node) : Z * Z * Z * Z * Z :=
  (dataOffset n, dataSize n, neighborPrev n, neighborNext n, gen n).

Record keeps (a a' : Allocator) : Prop := mkKeeps {
  kp_size : size a' = size a;
  kp_max : maxAllocs a' = maxAllocs a;
  kp_fn : freeNodes a' = freeNodes a;
  kp_fo : freeOffset a' = freeOffset a;
  kp_len : len (nodes a') = len (nodes a);
  kp_core : forall y, inr a y -> core (N a' y) = core (N a y)
}.

Lemma keeps_refl a : keeps a a.
Proof. by split. Qed.

Lemma keeps_inr a a' x : keeps a a' -> inr a' x <-> inr a x.
Proof. intros []. unfold inr. by rewrite kp_len0. Qed.

Lemma keeps_trans a b c : keeps a b -> keeps b c -> keeps a c.
Proof.
  intros Hab Hbc. destruct Hab, Hbc. split; try congruence.
  intros y Hy. rewrite kp_core1, kp_core0; [done|done|]. unfold inr in *. lia.
Qed.

Lemma keeps_fields a a' y : keeps a a' -> inr a y ->
  dataOffset (N a' y) = dataOffset (N a y) /\ dataSize (N a' y) = dataSize (N a y) /\
  neighborPrev (N a' y) = neighborPrev (N a y) /\ neighborNext (N a' y) = neighborNext (N a y) /\
  gen (N a' y) = gen (N a y).
Proof. intros [] Hy. specialize (kp_core0 y Hy). by injection kp_core0. Qed.

Lemma N_set_freeStorage v a : N (set_freeStorage v a) = N a. Proof. done. Qed.
Lemma N_set_usedBinsTop v a : N (set_usedBinsTop v a) = N a. Proof. done. Qed.
Lemma N_set_usedBins v a : N (set_usedBins v a) = N a. Proof. done. Qed.
Lemma N_set_binIndices v a : N (set_binIndices v a) = N a. Proof. done. Qed.
Lemma N_set_freeNodes v a : N (set_freeNodes v a) = N a. Proof. done. Qed.
Lemma N_set_freeOffset v a : N (set_freeOffset v a) = N a. Proof. done. Qed.

Create Rewrite HintDb alloc_N.
#[export] Hint Rewrite N_set_freeStorage N_set_usedBinsTop N_set_usedBins N_set_binIndices
  N_set_freeNodes N_set_freeOffset : alloc_N.

(** Range conditions survive every update. *)
Ltac solve_inr :=
  rewrite ?inr_upd, ?inr_updo; unfold inr in *;
  cbn [nodes set_freeStorage set_usedBinsTop set_usedBins set_binIndices set_freeNodes
       set_freeOffset set_nodes upd] in *;
  rewrite ?len_insert in *; lia.

(** Run one write of a slot. *)
Ltac step_upd := rewrite updNode_some by solve_inr; cbn [mbind option_bind].

(** The node a sequence of updates leaves in a slot. *)
Ltac norm_N := repeat (rewrite ?N_set_freeStorage, ?N_set_usedBinsTop, ?N_set_usedBins,
  ?N_set_binIndices, ?N_set_freeNodes, ?N_set_freeOffset; rewrite N_upd by solve_inr).

Lemma sumsz_ext a a' F :
  (forall x, x ∈ F -> dataSize (N a' x) = dataSize (N a x)) -> sumsz a' F = sumsz a F.
Proof.
  induction F as [|x F IH]; intros He; [done|]. cbn. rewrite He, IH; [done|set_solver|set_solver].
Qed.

Lemma sumsz_perm a F F' : F ≡ₚ F' -> sumsz a F = sumsz a F'.
Proof. induction 1; cbn; lia. Qed.

Section BinsFacts.
Context {a : Allocator} {bins : Z -> list Z} {F : list Z} (HB : Bins a bins F).

Lemma bins_inr b x : 0 <= b < 256 -> x ∈ bins b -> inr a x.
Proof using HB. intros Hb Hx. apply (bn_mem _ _ _ HB) in Hx as [Hx _]; [|done]. by apply (bn_F _ _ _ HB). Qed.

Lemma inr_used x : inr a x -> x <> unusedIndex.
Proof using HB. pose proof (bn_pool _ _ _ HB). unfold inr, unusedIndex. lia. Qed.

Lemma hd_unused b : 0 <= b < 256 -> (hd_ unusedIndex (bins b) =? unusedIndex) = negb (nonempty (bins b)).
Proof using HB.
  intros Hb. destruct (bins b) as [|x l] eqn:E; [done|]. cbn. apply Z.eqb_neq.
  apply inr_used. apply (bins_inr b); [done|]. rewrite E. by left.
Qed.

Lemma code_F x : x ∈ F -> 0 <= code (dataSize (N a x)) < 256.
Proof using HB.
  intros Hx. apply (bn_F _ _ _ HB) in Hx as (_ & _ & ?).
  pose proof (roundDown_spec (dataSize (N a x))). lia.
Qed.

End BinsFacts.

Lemma leaf_eq b : Z.land b leafBinsIndexMask = b `mod` 8.
Proof. apply land7. Qed.

Lemma top_eq b : b >>| topBinsIndexShift = b / 8.
Proof. unfold topBinsIndexShift. by rewrite Z.shiftr_div_pow2. Qed.

Lemma top_leaf b : 0 <= b < 256 -> 0 <= b / 8 < 32 /\ 0 <= b `mod` 8 < 8 /\ 8 * (b / 8) + b `mod` 8 = b.
Proof. intros. pose proof (Z.div_mod b 8). pose proof (Z.mod_pos_bound b 8). lia. Qed.

(** ** Parking a slot *)

(** The bitmap step of [insertExistingNodeIntoBin]. *)
Definition markBin (b : Z) (a : Allocator) : option Allocator :=
  let t := b >>| topBinsIndexShift in
  ub ← index (usedBins a) t;
  ubs ← store (usedBins a) t (Z.lor ub (u8 (1 <<| Z.land b leafBinsIndexMask)));
  Some (set_usedBinsTop (Z.lor (usedBinsTop a) (u32 (1 <<| t))) (set_usedBins ubs a)).

Lemma markBin_spec a b ne :
  0 <= b < 256 -> bits_ok (usedBinsTop a) (usedBins a) ne ->
  exists top ubs, markBin b a = Some (set_usedBinsTop top (set_usedBins ubs a)) /\
    bits_ok top ubs (fun c => if c =? b then true else ne c).
Proof.
  intros Hb Hbits. destruct (top_leaf b Hb) as (Ht & Hl & E).
  destruct (bits_set _ _ _ _ _ Hbits Ht Hl) as (ub & Hi & Hok). rewrite E in Hok.
  unfold markBin. rewrite top_eq, leaf_eq, Hi. cbn [mbind option_bind].
  rewrite store_some by (rewrite (bits_len _ _ _ Hbits); lia). cbn [mbind option_bind].
  unfold u8, u32. rewrite !shiftl1 by lia. eauto.
Qed.

(** The new contents of slot [y] once [x] heads the bin list [l]. *)
Definition pushed (a : Allocator) (l : list Z) (x y : Z) : node :=
  let n := if decide (y = x) then set_used false (set_binListNext (hd_ unusedIndex l)
             (set_binListPrev unusedIndex (N a x))) else N a y in
  if decide (y = hd_ unusedIndex l) then set_binListPrev x n else n.

Lemma pushed_core a l x y : x <> hd_ unusedIndex l ->
  core (pushed a l x y) = core (N a y) /\
  used (pushed a l x y) = if decide (y = x) then false else used (N a y).
Proof. intros. unfold pushed. repeat case_decide; subst; done. Qed.

Lemma Bins_push a bins F x a' :
  let b := code (dataSize (N a x)) in
  Bins a bins F -> inr a x -> x ∉ F -> 0 < dataSize (N a x) < 2 ^ 32 ->
  len (nodes a') = len (nodes a) -> binIndices a' = <[Z.to_nat b := x]> (binIndices a) ->
  bits_ok (usedBinsTop a') (usedBins a') (fun c => nonempty (bset b (x :: bins b) bins c)) ->
  freeStorage a' = u32 (freeStorage a + dataSize (N a x)) ->
  (forall y, inr a y -> N a' y = pushed a (bins b) x y) ->
  Bins a' (bset b (x :: bins b) bins) (x :: F).
Proof.
  intros b HB Hx HxF Hsz Hlen Hbi Hbits Hfs HN.
  pose proof (roundDown_spec (dataSize (N a x))) as Hrd.
  assert (0 <= b < 256) as Hb by (unfold b; lia).
  assert (x ∉ bins b) as Hxb by (intros Hin; apply (bn_mem _ _ _ HB) in Hin as [? _]; done).
  assert (x <> hd_ unusedIndex (bins b)) as Hxh.
  { pose proof (inr_used HB x Hx). destruct (bins b); cbn; set_solver. }
  assert (forall y, inr a y -> core (N a' y) = core (N a y) /\
    used (N a' y) = if decide (y = x) then false else used (N a y)) as Hcore
    by (intros; rewrite HN by done; by apply pushed_core).
  assert (forall y, inr a y -> dataSize (N a' y) = dataSize (N a y)) as Hds
    by (intros y Hy; destruct (Hcore y Hy) as [[= ] _]; done).
  assert (forall y, y ∈ F -> inr a y) as HF by (intros; by apply (bn_F _ _ _ HB)).
  split.
  - rewrite Hlen. apply HB.
  - rewrite Hbi, len_insert. apply HB.
  - intros c Hc. rewrite Hbi, index_insert by (rewrite ?(bn_len _ _ _ HB); lia).
    unfold bset. case_decide; [subst; by rewrite Z.eqb_refl|].
    replace (c =? b) with false by lia. by apply HB.
  - intros c Hc. unfold bset. destruct (c =? b) eqn:E.
    + assert (c = b) as -> by lia. eapply dll_push; [by apply HB|done|by apply HB|..].
      * cbn beta. rewrite HN by done. unfold pushed. by repeat case_decide.
      * cbn beta. rewrite HN by done. unfold pushed. by repeat case_decide.
      * intros y Hy. destruct (bins b) as [|h l] eqn:El; [done|]. injection Hy as ->.
        rewrite HN by (apply (bins_inr HB b); [done|rewrite El; by left]).
        unfold pushed. cbn [hd_]. by rewrite decide_True.
      * intros y Hy Hhd. rewrite HN by (by apply (bins_inr HB b)).
        unfold pushed. rewrite !decide_False; [done|set_solver|].
        destruct (bins b); cbn in *; [set_solver|congruence].
      * intros y Hy. rewrite HN by (by apply (bins_inr HB b)). unfold pushed.
        rewrite (decide_False (P := y = x)) by set_solver. by case_decide.
    + eapply dseg_ext; [|by apply HB]. intros y Hy. cbn beta.
      assert (y <> x) by (intros ->; apply (bn_mem _ _ _ HB) in Hy as [? _]; done).
      assert (y <> hd_ unusedIndex (bins b)) as Hyh.
      { pose proof (inr_used HB y (bins_inr HB c y Hc Hy)) as Hu. intros ->.
        destruct (bins b) as [|h l] eqn:El; [done|]. cbn [hd_] in *.
        assert (h ∈ bins b) as Hin by (rewrite El; by left).
        apply (bn_mem _ _ _ HB) in Hin as [_ ?], Hy as [_ ?]; [lia|done..]. }
      rewrite HN by (by apply (bins_inr HB c)). unfold pushed. by rewrite !decide_False.
  - intros c y Hc. unfold bset. destruct (c =? b) eqn:E.
    + assert (c = b) as -> by lia. rewrite !elem_of_cons, (bn_mem _ _ _ HB) by done. split.
      * intros [->|[Hy Hcy]]; [by rewrite Hds by done; auto|]. rewrite Hds by auto. auto.
      * intros [[->|Hy] Hcy]; [by left|right]. rewrite Hds in Hcy by auto. auto.
    + rewrite elem_of_cons, (bn_mem _ _ _ HB) by done. split.
      * intros [Hy Hcy]. rewrite Hds by auto. auto.
      * intros [[->|Hy] Hcy]; rewrite Hds in Hcy by auto; [unfold b in *; lia|auto].
  - intros c Hc. unfold bset. destruct (c =? b) eqn:E; [|by apply HB].
    constructor; [done|by apply HB].
  - constructor; [done|apply HB].
  - intros y Hy. apply elem_of_cons in Hy as [->|Hy].
    + destruct (Hcore x Hx) as [_ ->]. rewrite decide_True, Hds by done.
      unfold inr in *. rewrite Hlen. auto.
    + destruct (bn_F _ _ _ HB y Hy) as (Hi & Hu & Hz). destruct (Hcore y Hi) as [_ ->].
      rewrite Hds by done. unfold inr in *. rewrite Hlen. split_and!; try lia. by case_decide.
  - done.
  - rewrite Hfs, (bn_sum _ _ _ HB). cbn [sumsz]. rewrite Hds by done.
    rewrite (sumsz_ext a a') by (intros; apply Hds; auto). unfold u32.
    rewrite Zplus_mod_idemp_l. f_equal. lia.
Qed.

Lemma insertExisting_spec a bins F x :
  Bins a bins F -> inr a x -> x ∉ F -> 0 < dataSize (N a x) < 2 ^ 32 ->
  let b := code (dataSize (N a x)) in
  exists a', insertExistingNodeIntoBin a x = Some a' /\
    Bins a' (bset b (x :: bins b) bins) (x :: F) /\ keeps a a' /\
    forall y, inr a y -> used (N a' y) = if decide (y = x) then false else used (N a y).
Proof.
  intros HB Hx HxF Hsz b. pose proof (roundDown_spec (dataSize (N a x))) as Hrd.
  assert (0 <= b < 256) as Hb by (unfold b; lia).
  assert (x ∉ bins b) as Hxb by (intros Hin; apply (bn_mem _ _ _ HB) in Hin as [? _]; done).
  assert (exists top ubs, (if hd_ unusedIndex (bins b) =? unusedIndex then markBin b a else Some a)
      = Some (set_usedBinsTop top (set_usedBins ubs a)) /\
      bits_ok top ubs (fun c => nonempty (bset b (x :: bins b) bins c))) as (top & ubs & Hmark & Hbits).
  { rewrite (hd_unused HB) by done. destruct (nonempty (bins b)) eqn:Ene; cbn [negb].
    - exists (usedBinsTop a), (usedBins a). split; [by destruct a|].
      eapply bits_ext; [|apply HB]. intros c Hc. unfold bset. case_if; [|done]. bool_props. by subst.
    - destruct (markBin_spec a b _ Hb (bn_bits _ _ _ HB)) as (top & ubs & -> & Hok).
      exists top, ubs. split; [done|]. eapply bits_ext; [|exact Hok].
      intros c Hc. unfold bset. by case_if. }
  unfold insertExistingNodeIntoBin. rewrite index_N by done. cbn [mbind option_bind]. fold b.
  rewrite (bn_head _ _ _ HB) by done. cbn [mbind option_bind].
  unfold markBin in Hmark. rewrite Hmark. cbn [mbind option_bind].
  cbn [binIndices set_usedBinsTop set_usedBins]. rewrite (bn_head _ _ _ HB) by done.
  cbn [mbind option_bind]. do 3 step_upd.
  assert (hd_ unusedIndex (bins b) = unusedIndex \/ inr a (hd_ unusedIndex (bins b))) as Hh.
  { destruct (bins b) as [|h l] eqn:E; [by left|right]. apply (bins_inr HB b); [done|].
    rewrite E. by left. }
  rewrite updo_some by (destruct Hh; [by left|right; solve_inr]). cbn [mbind option_bind].
  cbn [binIndices updo upd set_usedBinsTop set_usedBins set_nodes].
  rewrite store_some by (rewrite (bn_len _ _ _ HB); lia). cbn [mbind option_bind].
  cbn [nodes set_binIndices].
  set (a4 := updo _ _ _).
  assert (forall y, inr a y -> N a4 y = pushed a (bins b) x y) as HN.
  { intros y Hy. pose proof (inr_used HB y Hy) as Hyu. unfold a4, pushed.
    rewrite N_updo by (first [done|destruct Hh; [by left|right; solve_inr]|apply Hy]).
    rewrite !N_upd by solve_inr. change (N (set_usedBinsTop _ _)) with (N a).
    repeat case_decide; congruence. }
  rewrite index_N by (unfold a4; solve_inr). cbn [mbind option_bind].
  eexists. split; [done|].
  assert (len (nodes a4) = len (nodes a)) as Hlen by (unfold a4; by rewrite len_updo, !len_upd).
  change (N (set_binIndices _ a4)) with (N a4).
  assert (x <> hd_ unusedIndex (bins b)) as Hxh.
  { pose proof (inr_used HB x Hx). destruct (bins b); cbn; set_solver. }
  split_and!.
  - apply (Bins_push a); try done. cbn [freeStorage set_freeStorage]. rewrite HN by done.
    destruct (pushed_core a (bins b) x x Hxh) as [[= _ -> _ _ _] _]. done.
  - split; try done. intros y Hy. change (core (N a4 y) = core (N a y)).
    rewrite HN by done. by apply pushed_core.
  - intros y Hy. change (N (set_freeStorage _ _) y) with (N a4 y). rewrite HN by done.
    by apply pushed_core.
Qed.

(** ** Unparking a slot *)

(** The new contents of slot [y] once the bin list [l1 ++ x :: l2] has lost [x]. *)
Definition unlinked (a : Allocator) (l1 l2 : list Z) (y : Z) : node :=
  let n := if decide (y = lst unusedIndex l1) then set_binListNext (hd_ unusedIndex l2) (N a y)
           else N a y in
  if decide (y = hd_ unusedIndex l2) then set_binListPrev (lst unusedIndex l1) n else n.

Lemma unlinked_core a l1 l2 y :
  core (unlinked a l1 l2 y) = core (N a y) /\ used (unlinked a l1 l2 y) = used (N a y).
Proof. unfold unlinked. repeat case_decide; done. Qed.

Lemma lst_elem p l y : y <> p -> y = lst p l -> last l = Some y.
Proof. unfold lst. destruct (last l); cbn; congruence. Qed.

Lemma hd_elem q l y : y <> q -> y = hd_ q l -> hd_error l = Some y.
Proof. destruct l; cbn; congruence. Qed.

Lemma Bins_unlink a bins F x l1 l2 F' a' :
  let b := code (dataSize (N a x)) in
  Bins a bins F -> F ≡ₚ x :: F' -> bins b = l1 ++ x :: l2 ->
  len (nodes a') = len (nodes a) -> len (binIndices a') = 256 ->
  (forall c, 0 <= c < 256 ->
     index (binIndices a') c = Some (hd_ unusedIndex (bset b (l1 ++ l2) bins c))) ->
  bits_ok (usedBinsTop a') (usedBins a') (fun c => nonempty (bset b (l1 ++ l2) bins c)) ->
  freeStorage a' = u32 (freeStorage a - dataSize (N a x)) ->
  (forall y, inr a y -> N a' y = unlinked a l1 l2 y) ->
  Bins a' (bset b (l1 ++ l2) bins) F'.
Proof.
  intros b HB HF Hbl Hlen Hbil Hbi Hbits Hfs HN.
  assert (x ∈ F) as HxF by (rewrite HF; by left).
  assert (0 <= b < 256) as Hb by (by apply (code_F HB)).
  pose proof (bn_ndF _ _ _ HB) as HndF. rewrite HF in HndF. apply NoDup_cons in HndF as [HxF' HndF].
  assert (forall y, y ∈ F' -> y ∈ F) as HFF by (intros; rewrite HF; by right).
  assert (forall y, y ∈ F -> inr a y) as HFi by (intros; by apply (bn_F _ _ _ HB)).
  assert (forall y, inr a y -> core (N a' y) = core (N a y) /\ used (N a' y) = used (N a y)) as Hcore
    by (intros; rewrite HN by done; apply unlinked_core).
  assert (forall y, inr a y -> dataSize (N a' y) = dataSize (N a y)) as Hds
    by (intros y Hy; destruct (Hcore y Hy) as [[= ] _]; done).
  pose proof (bn_nd _ _ _ HB b Hb) as Hnd. rewrite Hbl in Hnd.
  assert (forall y, y ∈ l1 ++ l2 <-> y ∈ bins b /\ y <> x) as Hll.
  { intros y. rewrite Hbl, !elem_of_app, elem_of_cons. apply NoDup_app in Hnd as (_ & Hdis & Hnd2).
    apply NoDup_cons in Hnd2 as [Hx2 _]. split; [|naive_solver].
    intros [Hy|Hy]; (split; [tauto|]); intros ->; [apply (Hdis x Hy); by left|done]. }
  assert (forall y, y ∈ bins b -> inr a y /\ y <> unusedIndex) as Hbin.
  { intros y Hy. pose proof (bins_inr HB b y Hb Hy) as Hi. split; [done|by apply (inr_used HB)]. }
  split; [rewrite Hlen; apply HB|done|done|..].
  - intros c Hc. unfold bset. destruct (c =? b) eqn:E.
    + assert (c = b) as -> by lia. pose proof (bn_dll _ _ _ HB b Hb) as Hd. rewrite Hbl in Hd.
      eapply dll_unlink; [exact Hnd|exact Hd|..]; intros y Hy; cbn beta.
      * assert (y ∈ l1) by (apply last_Some in Hy as [? ->]; set_solver).
        destruct (Hbin y) as [Hi Hu]; [apply Hll; set_solver|]. rewrite HN by done. unfold unlinked.
        rewrite (decide_True (P := y = lst unusedIndex l1)) by (unfold lst; by rewrite Hy).
        by case_decide.
      * intros Hne. destruct (Hbin y) as [Hi Hu]; [by apply Hll|]. rewrite HN by done. unfold unlinked.
        rewrite (decide_False (P := y = lst unusedIndex l1)); [by case_decide|].
        intros E'. by apply lst_elem in E'.
      * assert (y ∈ l2) by (destruct l2; [done|]; injection Hy as ->; by left).
        destruct (Hbin y) as [Hi Hu]; [apply Hll; set_solver|]. rewrite HN by done. unfold unlinked.
        rewrite (decide_True (P := y = hd_ unusedIndex l2)); [done|].
        destruct l2; [done|]. by injection Hy.
      * intros Hne. destruct (Hbin y) as [Hi Hu]; [by apply Hll|]. rewrite HN by done. unfold unlinked.
        rewrite (decide_False (P := y = hd_ unusedIndex l2)); [by case_decide|].
        intros E'. by apply hd_elem in E'.
    + eapply dseg_ext; [|by apply HB]. intros y Hy. cbn beta.
      pose proof (bins_inr HB c y Hc Hy) as Hi. pose proof (inr_used HB y Hi) as Hu.
      assert (y ∉ bins b) as Hyb.
      { intros Hyb. apply (bn_mem _ _ _ HB) in Hyb as [_ ?], Hy as [_ ?]; [lia|done..]. }
      rewrite HN by done. unfold unlinked. rewrite !decide_False; [done| |].
      * intros E'. apply lst_elem in E'; [|done]. apply Hyb. apply Hll.
        apply last_Some in E' as [? ->]. set_solver.
      * intros E'. apply hd_elem in E'; [|done]. apply Hyb. apply Hll.
        destruct l2; [done|]. injection E' as ->. set_solver.
  - intros c y Hc. assert (y ∈ F' <-> y ∈ F /\ y <> x) as HyF'.
    { rewrite HF, elem_of_cons. split; [|naive_solver]. intros Hy. split; [by right|].
      intros ->. done. }
    rewrite HyF'. unfold bset. destruct (c =? b) eqn:E.
    + assert (c = b) as -> by lia. rewrite Hll, (bn_mem _ _ _ HB) by done.
      split; intros H; destruct_ands; rewrite ?Hds in * by auto; auto.
    + rewrite (bn_mem _ _ _ HB) by done. split; intros H; destruct_ands;
        rewrite ?Hds in * by auto; split_and!; auto. intros ->. unfold b in *. lia.
  - intros c Hc. unfold bset. destruct (c =? b) eqn:E; [|by apply HB].
    apply NoDup_app in Hnd as (? & Hdis & Hnd2). apply NoDup_cons in Hnd2 as [? ?].
    apply NoDup_app. split_and!; [done| |done]. intros y Hy Hy2. apply (Hdis y Hy). by right.
  - done.
  - intros y Hy. destruct (bn_F _ _ _ HB y) as (Hi & Hu & Hz); [auto|].
    destruct (Hcore y Hi) as [_ ->]. rewrite Hds by done. unfold inr in *. rewrite Hlen. auto.
  - done.
  - rewrite Hfs, (bn_sum _ _ _ HB), (sumsz_perm a _ _ HF). cbn [sumsz].
    rewrite (sumsz_ext a a') by (intros; apply Hds; auto). unfold u32.
    rewrite Zminus_mod_idemp_l. f_equal. lia.
Qed.

Lemma clearBinBit_spec a b ne :
  0 <= b < 256 -> bits_ok (usedBinsTop a) (usedBins a) ne ->
  exists top ubs, clearBinBit a (b / 8) (b `mod` 8) =
      Some (set_usedBinsTop top (set_usedBins ubs a)) /\
    bits_ok top ubs (fun c => if c =? b then false else ne c).
Proof.
  intros Hb Hbits. destruct (top_leaf b Hb) as (Ht & Hl & E).
  destruct (bits_clear _ _ _ _ _ Hbits Ht Hl) as (ub & Hi & Hok). rewrite E in Hok.
  unfold clearBinBit. rewrite Hi. cbn [mbind option_bind].
  rewrite store_some by (rewrite (bits_len _ _ _ Hbits); lia). cbn [mbind option_bind].
  cbn [usedBins set_usedBins]. rewrite index_insert by (rewrite ?(bits_len _ _ _ Hbits); lia).
  rewrite decide_True by done. cbn [mbind option_bind].
  unfold u8, u32. rewrite !shiftl1 by lia. eexists _, _. split; [|exact Hok].
  f_equal. case_if; by destruct a.
Qed.

(** Dropping the head of bin [b], whose list continues with [nx]: shared by
    [removeNodeFromBin] and [Alloc]. *)
Definition dropHead (a : Allocator) (b nx sz : Z) : option Allocator :=
  bi ← store (binIndices a) b nx;
  let a := set_binIndices bi a in
  a ← (if negb (nx =? unusedIndex) then updNode a nx (set_binListPrev unusedIndex) else Some a);
  h ← index (binIndices a) b;
  a ← (if h =? unusedIndex then clearBinBit a (b / 8) (b `mod` 8) else Some a);
  Some (set_freeStorage (u32 (freeStorage a - sz)) a).

Lemma dropHead_spec a bins F x l2 F' :
  let b := code (dataSize (N a x)) in
  Bins a bins F -> F ≡ₚ x :: F' -> bins b = x :: l2 ->
  exists a', dropHead a b (binListNext (N a x)) (dataSize (N a x)) = Some a' /\
    Bins a' (bset b l2 bins) F' /\ keeps a a' /\
    (forall y, inr a y -> used (N a' y) = used (N a y)).
Proof.
  intros b HB HF Hbl. assert (x ∈ F) as HxF by (rewrite HF; by left).
  assert (0 <= b < 256) as Hb by (by apply (code_F HB)).
  pose proof (bn_dll _ _ _ HB b Hb) as Hd. rewrite Hbl in Hd.
  apply (dseg_at _ _ _ []) in Hd as [Hpx Hnx]. cbn beta in Hpx, Hnx. rewrite Hnx.
  assert (hd_ unusedIndex l2 = unusedIndex \/ inr a (hd_ unusedIndex l2)) as Hh.
  { destruct l2 as [|h l]; [by left|right]. apply (bins_inr HB b); [done|]. rewrite Hbl. set_solver. }
  unfold dropHead. rewrite store_some by (rewrite (bn_len _ _ _ HB); lia). cbn [mbind option_bind].
  rewrite updo_some by (destruct Hh; [by left|right; solve_inr]). cbn [mbind option_bind].
  cbn [binIndices updo set_nodes set_binIndices].
  rewrite index_insert by (rewrite ?(bn_len _ _ _ HB); lia). rewrite decide_True by done.
  cbn [mbind option_bind]. set (a2 := updo _ _ _).
  assert (exists top ubs, (if hd_ unusedIndex l2 =? unusedIndex
      then clearBinBit a2 (b / 8) (b `mod` 8) else Some a2) =
      Some (set_usedBinsTop top (set_usedBins ubs a2)) /\
      bits_ok top ubs (fun c => nonempty (bset b l2 bins c))) as (top & ubs & -> & Hbits).
  { destruct l2 as [|h l].
    - destruct (clearBinBit_spec a2 b _ Hb (bn_bits _ _ _ HB)) as (top & ubs & E & Hok).
      exists top, ubs. split; [exact E|]. eapply bits_ext; [|exact Hok].
      intros c Hc. unfold bset. by case_if.
    - replace (hd_ unusedIndex (h :: l) =? unusedIndex) with false.
      2:{ symmetry. apply Z.eqb_neq. apply (inr_used HB). destruct Hh as [Hh|Hh]; [|done].
          apply (bins_inr HB b); [done|]. rewrite Hbl. set_solver. }
      exists (usedBinsTop a2), (usedBins a2). split; [done|]. eapply bits_ext; [|apply HB].
      intros c Hc. unfold bset. case_if; [|done]. bool_props. subst c. by rewrite Hbl. }
  cbn [mbind option_bind]. eexists. split; [done|].
  assert (forall y, inr a y -> N a2 y = unlinked a [] l2 y) as HN.
  { intros y Hy. pose proof (inr_used HB y Hy) as Hyu. unfold a2, unlinked.
    rewrite N_updo by (first [done|destruct Hh; [by left|right; solve_inr]|apply Hy]).
    change (lst unusedIndex []) with unusedIndex.
    rewrite (decide_False (P := y = unusedIndex)) by done. done. }
  assert (len (nodes a2) = len (nodes a)) as Hlen by (unfold a2; by rewrite len_updo).
  split_and!.
  - eapply (Bins_unlink a bins F x [] l2); try done.
    + cbn. rewrite len_insert. apply HB.
    + intros c Hc. cbn [binIndices set_freeStorage set_usedBinsTop set_usedBins a2 updo set_nodes
        set_binIndices]. rewrite index_insert by (rewrite ?(bn_len _ _ _ HB); lia).
      unfold bset. cbn [app]. case_decide; [subst; by rewrite Z.eqb_refl|].
      replace (c =? _) with false by lia. by apply HB.
  - split; try done. intros y Hy. change (core (N a2 y) = core (N a y)).
    rewrite HN by done. by apply unlinked_core.
  - intros y Hy. change (used (N a2 y) = used (N a y)). rewrite HN by done. by apply unlinked_core.
Qed.

(** Every parked slot sits somewhere in its bin's list. *)
Lemma Bins_locate a bins F x :
  Bins a bins F -> x ∈ F -> exists l1 l2, bins (code (dataSize (N a x))) = l1 ++ x :: l2.
Proof.
  intros HB Hx. apply list_elem_of_split. apply (bn_mem _ _ _ HB); [by apply (code_F HB)|done].
Qed.

Lemma remove_inner_spec a bins F x l1 w l2 F' :
  let b := code (dataSize (N a x)) in
  Bins a bins F -> F ≡ₚ x :: F' -> bins b = (l1 ++ [w]) ++ x :: l2 ->
  exists a', removeNodeFromBin a x = Some a' /\
    Bins a' (bset b ((l1 ++ [w]) ++ l2) bins) F' /\ keeps a a' /\
    (forall y, inr a y -> used (N a' y) = used (N a y)).
Proof.
  intros b HB HF Hbl. assert (x ∈ F) as HxF by (rewrite HF; by left).
  assert (inr a x) as Hx by (by apply (bn_F _ _ _ HB)).
  assert (0 <= b < 256) as Hb by (by apply (code_F HB)).
  pose proof (bn_dll _ _ _ HB b Hb) as Hd. rewrite Hbl in Hd.
  apply dseg_at in Hd as [Hpx Hnx]. cbn beta in Hpx, Hnx. rewrite lst_snoc in Hpx.
  assert (forall y, y ∈ bins b -> inr a y) as Hin by (intros; by apply (bins_inr HB b)).
  assert (inr a w) as Hw by (apply Hin; rewrite Hbl; set_solver).
  pose proof (inr_used HB w Hw) as Hwu.
  assert (hd_ unusedIndex l2 = unusedIndex \/ inr a (hd_ unusedIndex l2)) as Hh.
  { destruct l2 as [|h l]; [by left|right]. apply Hin. rewrite Hbl. set_solver. }
  unfold removeNodeFromBin. rewrite index_N by done. cbn [mbind option_bind].
  rewrite Hpx, Hnx. replace (w =? unusedIndex) with false by lia. cbn [negb]. step_upd.
  rewrite updo_some by (destruct Hh; [by left|right; solve_inr]). cbn [mbind option_bind].
  set (a2 := updo _ _ _).
  assert (forall y, inr a y -> N a2 y = unlinked a (l1 ++ [w]) l2 y) as HN.
  { intros y Hy. pose proof (inr_used HB y Hy) as Hyu. unfold a2, unlinked.
    rewrite N_updo by (first [done|destruct Hh; [by left|right; solve_inr]|apply Hy]).
    rewrite !N_upd, lst_snoc by (done || apply Hy). repeat case_decide; congruence. }
  assert (len (nodes a2) = len (nodes a)) as Hlen by (unfold a2; by rewrite len_updo, len_upd).
  rewrite index_N by (unfold inr in *; lia). cbn [mbind option_bind].
  rewrite HN by done. eexists. split; [done|]. destruct (unlinked_core a (l1 ++ [w]) l2 x) as [[= _ -> _ _ _] _].
  split_and!.
  - eapply (Bins_unlink a bins F x (l1 ++ [w]) l2); try done.
    + apply HB.
    + intros c Hc. change (binIndices (set_freeStorage _ a2)) with (binIndices a).
      rewrite (bn_head _ _ _ HB) by done. unfold bset. case_if; [|done]. bool_props. subst c.
      fold b. rewrite Hbl. by destruct l1.
    + change (usedBinsTop (set_freeStorage _ a2)) with (usedBinsTop a).
      change (usedBins (set_freeStorage _ a2)) with (usedBins a).
      eapply bits_ext; [|apply HB]. intros c Hc. unfold bset. case_if; [|done]. bool_props. subst c.
      fold b. rewrite Hbl. by destruct l1.
  - split; try done. intros y Hy. change (core (N a2 y) = core (N a y)).
    rewrite HN by done. by apply unlinked_core.
  - intros y Hy. change (used (N a2 y) = used (N a y)). rewrite HN by done. by apply unlinked_core.
Qed.

Lemma clearBinBit_nodes a t l a' : clearBinBit a t l = Some a' -> nodes a' = nodes a.
Proof.
  unfold clearBinBit. destruct (index _ _); [|done]. cbn [mbind option_bind].
  destruct (store _ _ _); [|done]. cbn [mbind option_bind].
  destruct (index _ _); [|done]. cbn [mbind option_bind]. intros [= <-]. by case_if.
Qed.

Lemma remove_head_eq a x :
  inr a x -> x <> unusedIndex -> binListPrev (N a x) = unusedIndex ->
  len (binIndices a) = 256 -> 0 <= code (dataSize (N a x)) < 256 ->
  binListNext (N a x) = unusedIndex \/ inr a (binListNext (N a x)) ->
  removeNodeFromBin a x = dropHead a (code (dataSize (N a x))) (binListNext (N a x)) (dataSize (N a x)).
Proof.
  intros Hx Hxu Hpx Hbil Hb Hh. unfold removeNodeFromBin, dropHead. rewrite index_N by done.
  cbn [mbind option_bind]. rewrite Hpx. change (unusedIndex =? unusedIndex) with true. cbn [negb].
  rewrite top_eq, leaf_eq. rewrite store_some by lia. cbn [mbind option_bind].
  rewrite updo_some by (destruct Hh; [by left|right; solve_inr]). cbn [mbind option_bind].
  set (a2 := updo _ _ _).
  assert (len (nodes a2) = len (nodes a)) as Hlen by (unfold a2; by rewrite len_updo).
  assert (index (nodes a2) x = Some (N a2 x)) as Hi by (apply index_N; unfold inr in *; lia).
  assert (dataSize (N a2 x) = dataSize (N a x)) as Hsz.
  { unfold a2. rewrite N_updo by (first [done|destruct Hh; [by left|right; solve_inr]|apply Hx]).
    by case_decide. }
  destruct (index (binIndices a2) _) as [h|]; [|done]. cbn [mbind option_bind].
  destruct (h =? unusedIndex); [|cbn [mbind option_bind]; by rewrite Hi; cbn; rewrite Hsz].
  destruct (clearBinBit a2 _ _) as [a3|] eqn:E; [|done]. cbn [mbind option_bind].
  rewrite (clearBinBit_nodes _ _ _ _ E), Hi. cbn [mbind option_bind]. by rewrite Hsz.
Qed.

Lemma removeNodeFromBin_spec a bins F x F' :
  Bins a bins F -> F ≡ₚ x :: F' ->
  exists a' bins', removeNodeFromBin a x = Some a' /\ Bins a' bins' F' /\ keeps a a' /\
    (forall y, inr a y -> used (N a' y) = used (N a y)).
Proof.
  intros HB HF. assert (x ∈ F) as HxF by (rewrite HF; by left).
  destruct (Bins_locate _ _ _ _ HB HxF) as (l1 & l2 & Hbl).
  destruct l1 as [|w l1 _] using rev_ind.
  - assert (inr a x) as Hx by (by apply (bn_F _ _ _ HB)).
    pose proof (code_F HB x HxF) as Hb.
    pose proof (bn_dll _ _ _ HB _ Hb) as Hd. rewrite Hbl in Hd.
    apply (dseg_at _ _ _ []) in Hd as [Hpx Hnx]. cbn beta in Hpx, Hnx.
    destruct (dropHead_spec a bins F x l2 F' HB HF Hbl) as (a' & Hdrop & HB' & ?).
    exists a', (bset (code (dataSize (N a x))) l2 bins). split; [|done]. rewrite <- Hdrop.
    apply remove_head_eq; [done|by apply (inr_used HB)|done|apply HB|done|].
    rewrite Hnx. destruct l2 as [|h l]; [by left|right]. apply (bins_inr HB _ _ Hb).
    rewrite Hbl. set_solver.
  - destruct (remove_inner_spec a bins F x l1 w l2 F' HB HF Hbl) as (a' & ? & ? & ?). eauto.
Qed.

(** Slots outside the bins may change freely. *)
Lemma Bins_frame a a' bins F :
  Bins a bins F ->
  binIndices a' = binIndices a -> usedBins a' = usedBins a -> usedBinsTop a' = usedBinsTop a ->
  freeStorage a' = freeStorage a -> len (nodes a') = len (nodes a) ->
  (forall x, x ∈ F -> binListPrev (N a' x) = binListPrev (N a x) /\
     binListNext (N a' x) = binListNext (N a x) /\ dataSize (N a' x) = dataSize (N a x) /\
     used (N a' x) = used (N a x)) ->
  Bins a' bins F.
Proof.
  intros HB Hbi Hub Htop Hfs Hlen HN. split; rewrite ?Hlen, ?Hbi, ?Hub, ?Htop, ?Hfs; try apply HB.
  - intros b Hb. eapply dseg_ext; [|by apply HB]. intros x Hx. cbn beta.
    apply (bn_mem _ _ _ HB) in Hx as [Hx _]; [|done]. destruct (HN x Hx) as (? & ? & ? & ?). done.
  - intros b x Hb. rewrite (bn_mem _ _ _ HB) by done. split; intros [Hx Hc];
      destruct (HN x Hx) as (? & ? & E & ?); (split; [done|congruence]).
  - intros x Hx. destruct (HN x Hx) as (? & ? & -> & ->).
    destruct (bn_F _ _ _ HB x Hx) as (Hi & ? & ?). unfold inr in *. rewrite Hlen. auto.
  - rewrite (bn_sum _ _ _ HB). f_equal. symmetry. apply sumsz_ext. intros x Hx. by apply HN.
Qed.

(** ** Scanning the bins *)

Lemma land_pow2_zero x k : 0 <= k -> (Z.land x (2 ^ k) =? 0) = negb (Z.testbit x k).
Proof.
  intros Hk. destruct (Z.testbit x k) eqn:E; cbn [negb].
  - apply Z.eqb_neq. intros H. apply (f_equal (fun z => Z.testbit z k)) in H.
    by rewrite Z.land_spec, E, Z.pow2_bits_eqb, Z.eqb_refl, Z.bits_0 in H by done.
  - apply Z.eqb_eq. apply Z.bits_inj'. intros i Hi. rewrite Z.land_spec, Z.pow2_bits_eqb, Z.bits_0 by done.
    destruct (decide (k = i)) as [->|]; [by rewrite E|]. replace (k =? i) with false by lia.
    apply andb_false_r.
Qed.

Lemma bin_index_eq t l : 0 <= t < 32 -> 0 <= l < 8 -> Z.lor (u32 (t <<| topBinsIndexShift)) l = 8 * t + l.
Proof.
  intros. unfold u32, topBinsIndexShift. rewrite Z.mod_small.
  - rewrite lor_shiftl_add by (unfold fits; lia). lia.
  - rewrite Z.shiftl_mul_pow2 by lia. lia.
Qed.

Section Scan.
Context {a : Allocator} {bins : Z -> list Z} {F : list Z} (HB : Bins a bins F).

Lemma nonempty_false l : nonempty l = false <-> l = [].
Proof using Type. by destruct l. Qed.

Lemma nonempty_true l : nonempty l = true <-> l <> [].
Proof using Type. by destruct l. Qed.

(** A clear top bit: the whole group of bins is empty. *)
Lemma top_clear t : 0 <= t < 32 -> Z.testbit (usedBinsTop a) t = false ->
  forall l, 0 <= l < 8 -> bins (8 * t + l) = [].
Proof using HB.
  intros Ht Hbit l Hl. destruct (bits_leaf _ _ _ (bn_bits _ _ _ HB) t Ht) as (ub & _ & _ & E & Hb).
  rewrite Hbit in E. assert (ub = 0) as -> by lia. apply nonempty_false. rewrite <- Hb by done.
  apply Z.bits_0.
Qed.

Lemma top_set t : 0 <= t < 32 -> Z.testbit (usedBinsTop a) t = true ->
  exists ub, index (usedBins a) t = Some ub /\ fits 8 ub /\ 0 < ub /\
    forall l, 0 <= l < 8 -> Z.testbit ub l = nonempty (bins (8 * t + l)).
Proof using HB.
  intros Ht Hbit. destruct (bits_leaf _ _ _ (bn_bits _ _ _ HB) t Ht) as (ub & Hi & Hf & E & Hb).
  exists ub. rewrite Hbit in E. unfold fits in *. split_and!; [done|lia..|done].
Qed.

Lemma byte_bit_lt ub i : fits 8 ub -> 0 <= i -> Z.testbit ub i = true -> i < 8.
Proof using Type.
  intros Hf Hi Hb. destruct (decide (i < 8)); [done|]. rewrite (fits_testbit 8) in Hb by (done || lia). done.
Qed.

(** The second half of the scan: the groups above [T]. *)
Lemma scan_above T : 0 <= T < 31 ->
  let t := findLowestSetBitAfter (usedBinsTop a) (u32 (T + 1)) in
  (t = unusedIndex /\ forall b, 8 * (T + 1) <= b < 256 -> bins b = []) \/
  (T < t < 32 /\ exists ub, index (usedBins a) t = Some ub /\
     0 <= TrailingZeros32 ub < 8 /\ bins (8 * t + TrailingZeros32 ub) <> [] /\
     forall b, 8 * (T + 1) <= b < 8 * t + TrailingZeros32 ub -> bins b = []).
Proof using HB.
  intros HT t. unfold t. clear t. replace (u32 (T + 1)) with (T + 1)
    by (unfold u32; rewrite Z.mod_small by lia; lia).
  assert (forall b t, 0 <= b < 256 -> t = b / 8 -> Z.testbit (usedBinsTop a) t = false -> bins b = []) as Hcl.
  { intros b t Hb -> Hz. destruct (top_leaf b Hb) as (? & ? & <-). apply top_clear; try done. }
  destruct (findLowest_spec (usedBinsTop a) (T + 1)) as [[-> Hno]|(Ht & Hbit & Hlow)];
    [apply (bn_bits _ _ _ HB)|lia|left|right].
  - split; [done|]. intros b Hb. apply (Hcl b (b / 8)); [lia|done|]. apply Hno.
    apply Z.div_le_lower_bound; lia.
  - split; [lia|]. set (t := findLowestSetBitAfter _ _) in *.
    destruct (top_set t) as (ub & Hi & Hf & Hpos & Hb); [lia|done|].
    destruct (trailingZeros_spec ub Hpos) as (Hz & Hzb & Hzl).
    pose proof (byte_bit_lt ub _ Hf Hz Hzb). exists ub. split_and!; [done|done|done| |].
    + apply nonempty_true. rewrite <- Hb by lia. done.
    + intros b Hbr. destruct (decide (b < 8 * t)).
      * apply (Hcl b (b / 8)); [lia|done|]. apply Hlow. split; [apply Z.div_le_lower_bound; lia|].
        apply Z.div_lt_upper_bound; lia.
      * replace b with (8 * t + (b - 8 * t)) by lia. apply nonempty_false.
        rewrite <- Hb by lia. apply Hzl. lia.
Qed.

(** [findBin] picks the lowest non-empty bin at or above the request's code. *)
Lemma findBin_spec n : 0 < n < 2 ^ 32 ->
  exists r, findBin a n = Some r /\
    match r with
    | None => forall b, uintToFloatRoundUp n <= b < 256 -> bins b = []
    | Some (t, l) => 0 <= t < 32 /\ 0 <= l < 8 /\ uintToFloatRoundUp n <= 8 * t + l /\
        bins (8 * t + l) <> [] /\
        forall b, uintToFloatRoundUp n <= b < 8 * t + l -> bins b = []
    end.
Proof using HB.
  intros Hn. destruct (roundUp_spec n) as [Hr _]; [lia|]. unfold findBin.
  set (m := uintToFloatRoundUp n) in *. rewrite top_eq, leaf_eq.
  destruct (top_leaf m) as (HT & HL & E); [lia|].
  set (T := m / 8) in *. set (L := m `mod` 8) in *.
  replace (u32 (1 <<| T)) with (2 ^ T) by (unfold u32; by rewrite shiftl1 by lia).
  rewrite land_pow2_zero, negb_involutive by lia.
  assert (exists lf, (if Z.testbit (usedBinsTop a) T
      then index (usedBins a) T ≫= λ ub, Some (findLowestSetBitAfter ub L)
      else Some unusedIndex) = Some lf /\
    ((lf = unusedIndex /\ forall b, m <= b < 8 * (T + 1) -> bins b = []) \/
     (L <= lf < 8 /\ bins (8 * T + lf) <> [] /\ forall b, m <= b < 8 * T + lf -> bins b = [])))
    as (lf & -> & Hlf).
  { destruct (Z.testbit (usedBinsTop a) T) eqn:Eb.
    - destruct (top_set T HT Eb) as (ub & -> & Hf & Hpos & Hb). cbn [mbind option_bind].
      eexists. split; [done|]. assert (fits 32 ub) by (apply (fits_weaken 8); [lia|done]).
      destruct (findLowest_spec ub L) as [[-> Hno]|(Ht & Hbit & Hlow)]; [done|lia|left|right].
      + split; [done|]. intros b Hbr. replace b with (8 * T + (b - 8 * T)) by lia.
        apply nonempty_false. rewrite <- Hb by lia. apply Hno. lia.
      + assert (findLowestSetBitAfter ub L < 8) by (apply (byte_bit_lt ub); [done|lia|done]).
        split_and!; [lia|lia| |].
        * apply nonempty_true. rewrite <- Hb by lia. done.
        * intros b Hbr. replace b with (8 * T + (b - 8 * T)) by lia.
          apply nonempty_false. rewrite <- Hb by lia. apply Hlow. lia.
    - eexists. split; [done|left]. split; [done|]. intros b Hbr.
      replace b with (8 * T + (b - 8 * T)) by lia. apply top_clear; [lia|done|lia]. }
  cbn [mbind option_bind]. destruct Hlf as [[-> Hempty]|(Hl & Hne & Hlow)].
  - rewrite Z.eqb_refl. destruct (scan_above T) as [[-> Hno]|(Ht & ub & Hi & Hz & Hne & Hlow)]; [lia|..].
    + rewrite Z.eqb_refl. eexists. split; [done|]. intros b Hb.
      destruct (decide (b < 8 * (T + 1))); [apply Hempty|apply Hno]; lia.
    + replace (_ =? unusedIndex) with false by (unfold unusedIndex; lia).
      rewrite Hi. cbn [mbind option_bind].
      replace (u32 (TrailingZeros32 ub)) with (TrailingZeros32 ub)
        by (unfold u32; rewrite Z.mod_small by lia; lia).
      eexists. split; [done|]. cbn beta iota. split_and!; [lia..|done|].
      intros b Hb. destruct (decide (b < 8 * (T + 1))); [apply Hempty|apply Hlow]; lia.
  - replace (lf =? unusedIndex) with false by (unfold unusedIndex; lia).
    eexists. split; [done|]. cbn beta iota. split_and!; [lia..|done|done].
Qed.

(** The report names the highest non-empty bin. *)
Lemma storageReport_spec : 0 < freeOffset a ->
  exists r, storageReport a = Some r /\ TotalFreeSpace r = freeStorage a /\
    ((LargestFreeRegion r = 0 /\ forall b, 0 <= b < 256 -> bins b = []) \/
     exists b, 0 <= b <= 239 /\ bins b <> [] /\ LargestFreeRegion r = fval b /\
       forall c, b < c < 256 -> bins c = []).
Proof using HB.
  intros Hfo. unfold storageReport. replace (_ =? 0) with false by lia.
  pose proof (bits_top _ _ _ (bn_bits _ _ _ HB)) as Htf.
  destruct (usedBinsTop a =? 0) eqn:E; cbn [negb].
  - eexists. split_and!; [done..|left]. split; [done|]. intros b Hb.
    destruct (top_leaf b Hb) as (? & ? & <-). apply top_clear; [done| |done].
    replace (usedBinsTop a) with 0 by lia. apply Z.bits_0.
  - unfold fits in Htf. set (t := Z.log2 (usedBinsTop a)).
    pose proof (Z.log2_nonneg (usedBinsTop a)). pose proof (Z.log2_lt_pow2 (usedBinsTop a) 32).
    assert (u32 (31 - LeadingZeros32 (usedBinsTop a)) = t) as ->.
    { unfold LeadingZeros32, u32. rewrite E. rewrite Z.mod_small; unfold t; lia. }
    destruct (top_set t) as (ub & -> & Hf & Hpos & Hb);
      [unfold t; lia|apply Z.bit_log2; lia|]. cbn [mbind option_bind].
    set (l := Z.log2 ub). pose proof (Z.log2_nonneg ub). unfold fits in Hf.
    pose proof (Z.log2_lt_pow2 ub 8).
    assert (u32 (7 - LeadingZeros8 ub) = l) as ->.
    { unfold LeadingZeros8, u32. replace (ub =? 0) with false by lia.
      rewrite Z.mod_small; unfold l; lia. }
    rewrite bin_index_eq by (unfold t, l; lia).
    assert (bins (8 * t + l) <> []) as Hne.
    { apply nonempty_true. rewrite <- Hb by (unfold l; lia). apply Z.bit_log2. lia. }
    assert (8 * t + l <= 239) as H239.
    { destruct (bins (8 * t + l)) as [|x lx] eqn:Ex; [done|].
      assert (x ∈ bins (8 * t + l)) as Hx by (rewrite Ex; by left).
      apply (bn_mem _ _ _ HB) in Hx as [Hx Hc]; [|unfold t, l; lia].
      apply (bn_F _ _ _ HB) in Hx as (_ & _ & Hz).
      pose proof (roundDown_spec (dataSize (N a x))). lia. }
    eexists. split_and!; [done..|right]. exists (8 * t + l).
    split_and!; [unfold t, l; lia|lia|done|cbn; apply floatToUint_fval; unfold t, l in *; lia|].
    intros c Hc. destruct (top_leaf c) as (Hct & Hcl & Ec); [unfold t, l in *; lia|].
    destruct (decide (c / 8 = t)) as [Et|Et].
    + rewrite <- Ec, Et. apply nonempty_false. rewrite <- Hb by lia.
      apply Z.bits_above_log2; unfold l in *; lia.
    + rewrite <- Ec. apply top_clear; [done| |done]. apply Z.bits_above_log2; unfold t, l in *; lia.
Qed.

(** The report is exact: a request fits exactly when it is at most the
    reported region. *)
Lemma findBin_iff n r : 0 < n < 2 ^ 32 -> 0 < freeOffset a -> storageReport a = Some r ->
  (n <= LargestFreeRegion r <-> exists tl, findBin a n = Some (Some tl)).
Proof using HB.
  intros Hn Hfo Hr. destruct (storageReport_spec Hfo) as (r' & Hr' & _ & Hcase).
  rewrite Hr in Hr'. injection Hr' as <-.
  destruct (findBin_spec n Hn) as (f & -> & Hf). destruct (roundUp_spec n) as [Hru Hgal]; [lia|].
  destruct Hcase as [[-> Hempty]|(b & Hb & Hne & -> & Hhigh)].
  - split; [lia|]. intros [[t l] [= ->]]. destruct Hf as (? & ? & ? & Hne & _).
    rewrite Hempty in Hne by lia. done.
  - rewrite <- Hgal by lia. split.
    + intros Hle. destruct f as [tl|]; [by eauto|]. rewrite Hf in Hne by lia. done.
    + intros [[t l] [= ->]]. destruct Hf as (? & ? & ? & Hne' & _).
      destruct (decide (b < 8 * t + l)); [|lia]. rewrite Hhigh in Hne' by lia. done.
Qed.

End Scan.

End AllocBins.
