(* ===== verification/AllocInv.v ===== *)
(** The invariant of the DRAM allocator and the correctness of its operations.

    [Inv] ties the neighbour list, the bins and the node stack together: the
    neighbour list tiles [0, size) in address order, the parked slots are
    exactly its free ranges, no two free ranges are adjacent, and every other
    slot is on the stack. Under it no operation panics; [Alloc] and [Free]
    refine insertion into and deletion from a map from handles to ranges. *)

From Stdlib Require Import ZArith Lia.
From stdpp Require Import base numbers list gmap sets.
From S2P Require Import Prelude.
From S2P Require Import SmallFloat.
From S2P Require Import Dll.
From S2P Require Import OffsetAlloc.
From S2P Require Import AllocBins.
Import SmallFloat Dll OffsetAlloc AllocBins.
Open Scope Z_scope.
Open Scope go_scope.

Module AllocInv.

(** ** Tilings *)

(** The slots of [ch] cover [off, total) without gap or overlap. *)
Fixpoint tiles (a : Allocator) (off : Z) (ch : list Z) (total : Z) : Prop :=
  match ch with
  | [] => off = total
  | x :: ch => dataOffset (N a x) = off /\ 0 < dataSize (N a x) /\
               tiles a (off + dataSize (N a x)) ch total
  end.

Lemma tiles_app a off l1 l2 total :
  tiles a off (l1 ++ l2) total <-> exists mid, tiles a off l1 mid /\ tiles a mid l2 total.
Proof.
  revert off. induction l1 as [|x l1 IH]; intros off; cbn; [naive_solver|].
  setoid_rewrite IH. naive_solver.
Qed.

Lemma tiles_ext a a' off ch total :
  (forall x, x ∈ ch -> dataOffset (N a' x) = dataOffset (N a x) /\
                       dataSize (N a' x) = dataSize (N a x)) ->
  tiles a off ch total -> tiles a' off ch total.
Proof.
  revert off. induction ch as [|x ch IH]; intros off He; cbn; [done|].
  destruct (He x) as [-> ->]; [by left|]. intros (? & ? & ?). split_and!; [done..|].
  apply IH; [|done]. intros y Hy. apply He. by right.
Qed.

Lemma tiles_le a off ch total : tiles a off ch total -> off <= total.
Proof. revert off. induction ch as [|x ch IH]; intros off; cbn; [lia|]. intros (? & ? & ?%IH). lia. Qed.

Lemma tiles_mem a off ch total x :
  tiles a off ch total -> x ∈ ch ->
  off <= dataOffset (N a x) /\ 0 < dataSize (N a x) /\
  dataOffset (N a x) + dataSize (N a x) <= total.
Proof.
  revert off. induction ch as [|y ch IH]; intros off; cbn; [by intros _ ?%elem_of_nil|].
  intros (? & ? & Ht). rewrite elem_of_cons. intros [->|Hx].
  - pose proof (tiles_le _ _ _ _ Ht). lia.
  - destruct (IH _ Ht Hx). lia.
Qed.

Lemma tiles_disjoint a off l1 x l2 y total :
  tiles a off (l1 ++ x :: l2) total -> y ∈ l1 ++ l2 ->
  dataOffset (N a y) + dataSize (N a y) <= dataOffset (N a x) \/
  dataOffset (N a x) + dataSize (N a x) <= dataOffset (N a y).
Proof.
  rewrite tiles_app, elem_of_app. cbn. intros (mid & H1 & Hx & Hz & H2) [Hy|Hy].
  - destruct (tiles_mem _ _ _ _ _ H1 Hy). lia.
  - destruct (tiles_mem _ _ _ _ _ H2 Hy). lia.
Qed.

(** The sizes of a tiling add up. *)
Lemma tiles_sum a off ch total : tiles a off ch total -> sumsz a ch = total - off.
Proof. revert off. induction ch as [|x ch IH]; intros off; cbn; [lia|]. intros (? & ? & ?%IH). lia. Qed.

(** No two neighbours are both free. *)
Fixpoint coalesced (a : Allocator) (ch : list Z) : Prop :=
  match ch with
  | x :: ((y :: _) as l) => (used (N a x) || used (N a y) = true) /\ coalesced a l
  | _ => True
  end.

Lemma coalesced_app a l1 x l2 :
  coalesced a (l1 ++ x :: l2) <-> coalesced a (l1 ++ [x]) /\ coalesced a (x :: l2).
Proof.
  induction l1 as [|y l1 IH]; [cbn; destruct l2; cbn; tauto|].
  destruct l1 as [|z l1]; [cbn [app coalesced]; cbn; tauto|].
  change (coalesced a (y :: z :: l1 ++ x :: l2) <->
          coalesced a (y :: z :: l1 ++ [x]) /\ coalesced a (x :: l2)).
  change ((used (N a y) || used (N a z) = true) /\ coalesced a ((z :: l1) ++ x :: l2) <->
          ((used (N a y) || used (N a z) = true) /\ coalesced a ((z :: l1) ++ [x])) /\
          coalesced a (x :: l2)).
  rewrite IH. tauto.
Qed.

Lemma coalesced_ext a a' ch :
  (forall x, x ∈ ch -> used (N a' x) = used (N a x)) -> coalesced a ch -> coalesced a' ch.
Proof.
  induction ch as [|x [|y ch] IH]; intros He; [done|done|].
  intros [Hxy Hl]. split; [rewrite !He; [done|set_solver..]|]. apply IH; [|done]. set_solver.
Qed.

(** ** The links and the node stack *)

Definition nprev (a : Allocator) (x : Z) : Z := neighborPrev (N a x).
Definition nnext (a : Allocator) (x : Z) : Z := neighborNext (N a x).

(** The live part of the node stack. *)
Definition stack (a : Allocator) : list Z := take (Z.to_nat (freeOffset a)) (freeNodes a).

Record Links (a : Allocator) (ch : list Z) : Prop := mkLinks {
  lk_cap : len (nodes a) <= 2 ^ 18;
  lk_dll : dseg (nprev a) (nnext a) unusedIndex ch unusedIndex;
  lk_fo : 0 <= freeOffset a <= len (freeNodes a);
  lk_fn : len (freeNodes a) = len (nodes a);
  lk_pool : (ch ++ stack a) ≡ₚ seqZ 0 (len (nodes a))
}.

Section LinksFacts.
Context {a : Allocator} {ch : list Z} (HL : Links a ch).

Lemma links_nodup : NoDup (ch ++ stack a).
Proof using HL. rewrite (lk_pool _ _ HL). apply NoDup_seqZ. Qed.

Lemma chain_nodup : NoDup ch.
Proof using HL. pose proof links_nodup as H. by apply NoDup_app in H as [? _]. Qed.

Lemma links_inr x : inr a x <-> x ∈ ch \/ x ∈ stack a.
Proof using HL.
  rewrite <- elem_of_app, (lk_pool _ _ HL), elem_of_seqZ. unfold inr. lia.
Qed.

Lemma chain_inr x : x ∈ ch -> inr a x.
Proof using HL. intros. apply links_inr. by left. Qed.

Lemma inr_ne x : inr a x -> x <> unusedIndex.
Proof using HL. pose proof (lk_cap _ _ HL). unfold inr, unusedIndex. lia. Qed.

Lemma chain_ptr l : (forall x, x ∈ l -> x ∈ ch) ->
  hd_ unusedIndex l = unusedIndex \/ inr a (hd_ unusedIndex l).
Proof using HL. destruct l; [by left|]. intros Hl. right. apply chain_inr, Hl. by left. Qed.

Lemma chain_ptr_last l : (forall x, x ∈ l -> x ∈ ch) ->
  lst unusedIndex l = unusedIndex \/ inr a (lst unusedIndex l).
Proof using HL.
  intros Hl. unfold lst. destruct (last l) as [y|] eqn:E; [right|by left]. cbn.
  apply chain_inr, Hl. apply last_Some in E as [l' ->]. set_solver.
Qed.

End LinksFacts.

(** The middle of a chain. *)
Lemma chain_mid {a l1 x l2} : Links a (l1 ++ x :: l2) ->
  inr a x /\ x <> nnext a x /\ forall z, z ∈ l1 ++ l2 -> inr a z /\ z <> x.
Proof.
  intros HL. pose proof (chain_nodup HL) as Hnd. pose proof (chain_inr HL) as Hin.
  pose proof (inr_ne HL) as Hne. destruct (dseg_at _ _ _ _ _ _ _ (lk_dll _ _ HL)) as [_ ->].
  apply NoDup_app in Hnd as (_ & Hdis & Hnd). apply NoDup_cons in Hnd as [Hx2 _].
  assert (inr a x) as Hx by (apply Hin; clear; set_solver).
  split_and!; [done|destruct l2; cbn; [by apply Hne|clear -Hx2; set_solver]|].
  intros z Hz. split; [apply Hin; clear -Hz; set_solver|]. intros ->.
  apply elem_of_app in Hz as [Hz|Hz]; [|done]. apply (Hdis x Hz). by left.
Qed.

(** Links only depend on the neighbour fields and the stack. *)
Lemma Links_frame a a' ch :
  Links a ch -> freeNodes a' = freeNodes a -> freeOffset a' = freeOffset a ->
  len (nodes a') = len (nodes a) ->
  (forall x, x ∈ ch -> nprev a' x = nprev a x /\ nnext a' x = nnext a x) -> Links a' ch.
Proof.
  intros HL Hfn Hfo Hlen HN. split; unfold stack; rewrite ?Hlen, ?Hfn, ?Hfo; try apply HL.
  eapply dseg_ext; [|apply HL]. done.
Qed.

Lemma Links_keeps a a' ch : Links a ch -> keeps a a' -> Links a' ch.
Proof.
  intros HL HK. eapply Links_frame; try apply HK; [done|].
  intros x Hx. unfold nprev, nnext. pose proof (keeps_fields _ _ x HK (chain_inr HL x Hx)). tauto.
Qed.

Lemma popNode_spec a ch :
  Links a ch -> 1 <= freeOffset a ->
  exists y, popNode a = Some (set_freeOffset (freeOffset a - 1) a, y) /\
    inr a y /\ (y ∉ ch) /\ stack a = stack (set_freeOffset (freeOffset a - 1) a) ++ [y].
Proof.
  intros HL Hfo. pose proof (lk_fo _ _ HL) as Hfo'. pose proof (lk_fn _ _ HL) as Hfn.
  pose proof (lk_cap _ _ HL). unfold popNode.
  replace (u32 (freeOffset a - 1)) with (freeOffset a - 1)
    by (unfold u32; rewrite Z.mod_small by lia; lia).
  cbn [freeOffset set_freeOffset freeNodes].
  destruct (index_some (freeNodes a) (freeOffset a - 1)) as [y Hy]; [lia|].
  rewrite Hy. cbn [mbind option_bind]. exists y. split; [done|].
  assert (stack a = stack (set_freeOffset (freeOffset a - 1) a) ++ [y]) as Hst.
  { unfold stack. cbn [freeOffset set_freeOffset freeNodes].
    replace (Z.to_nat (freeOffset a)) with (S (Z.to_nat (freeOffset a - 1))) by lia.
    apply take_S_r. unfold index in Hy. case_if_in Hy; [done|done]. }
  assert (y ∈ stack a) as Hys by (rewrite Hst; set_solver).
  split_and!; [apply (links_inr HL); by right| |done].
  intros Hych. pose proof (links_nodup HL) as Hnd. apply NoDup_app in Hnd as (_ & Hdis & _).
  by apply (Hdis y).
Qed.

Lemma pushNode_spec a x :
  0 <= freeOffset a < len (freeNodes a) -> len (freeNodes a) <= 2 ^ 18 ->
  exists a', pushNode a x = Some a' /\ stack a' = stack a ++ [x] /\
    freeOffset a' = freeOffset a + 1 /\ len (freeNodes a') = len (freeNodes a) /\
    nodes a' = nodes a /\ size a' = size a /\ maxAllocs a' = maxAllocs a /\
    freeStorage a' = freeStorage a /\ usedBins a' = usedBins a /\
    usedBinsTop a' = usedBinsTop a /\ binIndices a' = binIndices a.
Proof.
  intros Hfo Hcap. unfold pushNode. rewrite store_some by done. cbn [mbind option_bind].
  eexists. split; [done|].
  replace (u32 (freeOffset (set_freeNodes _ a) + 1)) with (freeOffset a + 1)
    by (cbn; unfold u32; rewrite Z.mod_small by lia; lia).
  cbn. split_and!; try done; [|by rewrite len_insert].
  unfold stack. cbn. replace (Z.to_nat (freeOffset a + 1)) with (S (Z.to_nat (freeOffset a))) by lia.
  rewrite (take_S_r _ _ x) by (apply list_lookup_insert_eq; unfold len in *; lia).
  by rewrite take_insert_ge by lia.
Qed.

(** ** Splitting a range *)

(** Fields the surgery on links never touches. *)
Definition same_data (n n' : node) : Prop :=
  dataOffset n' = dataOffset n /\ dataSize n' = dataSize n /\ gen n' = gen n /\ used n' = used n.

Lemma split_links a l1 x l2 y a' :
  Links a (l1 ++ x :: l2) -> inr a y -> y ∉ l1 ++ x :: l2 ->
  len (nodes a') = len (nodes a) -> freeNodes a' = freeNodes a ->
  1 <= freeOffset a -> freeOffset a' = freeOffset a - 1 -> stack a = stack a' ++ [y] ->
  nnext a' x = y -> nprev a' x = nprev a x -> nprev a' y = x -> nnext a' y = nnext a x ->
  (forall z, z ∈ l1 ++ l2 -> nnext a' z = nnext a z) ->
  (forall z, z ∈ l1 ++ l2 -> nprev a' z = if decide (z = nnext a x) then y else nprev a z) ->
  Links a' (l1 ++ x :: y :: l2).
Proof.
  intros HL Hy Hych Hlen Hfn Hfo1 Hfo Hst ???? Hn Hp. pose proof (lk_dll _ _ HL) as Hd.
  pose proof (dseg_at _ _ _ _ _ _ _ Hd) as [Hpx Hnx]. pose proof (chain_nodup HL) as Hnd.
  assert (forall z, z ∈ l1 ++ l2 -> z <> unusedIndex) as Hu.
  { intros z Hz. apply (inr_ne HL), (chain_inr HL). set_solver. }
  split; rewrite ?Hlen, ?Hfn, ?Hfo; try apply HL.
  - eapply dll_insert_after; try done; [congruence|..].
    + intros z Hz. rewrite Hp by (destruct l2; [done|]; injection Hz as ->; set_solver).
      rewrite decide_True; [done|]. rewrite Hnx. destruct l2; [done|]. by injection Hz.
    + intros z Hz Hne. rewrite Hp by done. rewrite decide_False; [done|]. rewrite Hnx.
      intros E. apply Hne. apply hd_elem in E; [done|]. by apply Hu.
  - pose proof (lk_fo _ _ HL). lia.
  - rewrite <- (lk_pool _ _ HL), Hst. rewrite <- !app_assoc. apply Permutation_app_head. cbn.
    apply perm_skip. rewrite app_assoc, <- Permutation_cons_append. done.
Qed.

Lemma splitRemainder_spec a l1 x l2 bins F n r :
  Bins a bins F -> Links a (l1 ++ x :: l2) -> x ∉ F -> (forall z, z ∈ F -> z ∈ l1 ++ l2) ->
  1 <= freeOffset a -> 0 < r < 2 ^ 32 -> 0 <= dataOffset (N a x) + n < 2 ^ 32 ->
  exists a' y bins', splitRemainder a x n r = Some a' /\ Bins a' bins' (y :: F) /\
    Links a' (l1 ++ x :: y :: l2) /\ inr a y /\ (y ∉ l1 ++ x :: l2) /\
    dataOffset (N a' y) = dataOffset (N a x) + n /\ dataSize (N a' y) = r /\
    gen (N a' y) = 0 /\ used (N a' y) = false /\
    (forall z, inr a z -> z <> y -> same_data (N a z) (N a' z)) /\
    size a' = size a /\ maxAllocs a' = maxAllocs a /\ len (nodes a') = len (nodes a).
Proof.
  intros HB HL HxF HF Hfo Hr Hoff.
  destruct (popNode_spec a _ HL Hfo) as (y & Hpop & Hy & Hych & Hst).
  destruct (chain_mid HL) as (Hx & Hxn & Hmid).
  unfold splitRemainder. rewrite Hpop. cbn [mbind option_bind].
  assert (y <> x /\ forall z, z ∈ l1 ++ l2 -> z <> y) as [Hyx Hny].
  { clear -Hych. set_solver. }
  pose proof (inr_ne HL y Hy) as Hyu. pose proof (inr_ne HL x Hx) as Hxu.
  rewrite index_N by done. cbn [mbind option_bind].
  change (N (set_freeOffset _ a) x) with (N a x).
  replace (u32 (dataOffset (N a x) + n)) with (dataOffset (N a x) + n)
    by (unfold u32; rewrite Z.mod_small by lia; lia).
  rewrite putNode_some by done. cbn [mbind option_bind]. set (nn := mkNode _ _ _ _ _ _ _ _).
  rewrite index_N by solve_inr. cbn [mbind option_bind].
  rewrite (N_upd _ y _ x) by (done || apply Hx). rewrite decide_False by done.
  change (N (set_freeOffset _ a) x) with (N a x).
  assert (neighborNext (N a x) = unusedIndex \/ inr a (neighborNext (N a x))) as Hh.
  { destruct (dseg_at _ _ _ _ _ _ _ (lk_dll _ _ HL)) as [_ Hnx]. unfold nnext in Hnx. rewrite Hnx.
    apply (chain_ptr HL). clear. set_solver. }
  rewrite updo_some by (destruct Hh; [by left|right; solve_inr]). cbn [mbind option_bind].
  rewrite updNode_some by solve_inr. cbn [mbind option_bind]. set (a6 := upd x _ _).
  assert (forall z, inr a z -> N a6 z =
    if decide (z = y) then (if decide (y = neighborNext (N a x)) then set_neighborPrev y nn else nn)
    else let m := if decide (z = neighborNext (N a x)) then set_neighborPrev y (N a z) else N a z in
         if decide (z = x) then set_neighborNext y m else m) as HN.
  { intros z Hz. pose proof (inr_ne HL z Hz) as Hzu. unfold a6. rewrite N_upd by solve_inr.
    rewrite !N_updo by (first [done|destruct Hh; [by left|right; solve_inr]|apply Hz|apply Hx]).
    rewrite !N_upd by (done || apply Hz || apply Hx). change (N (set_freeOffset _ a)) with (N a).
    repeat case_decide; congruence. }
  assert (y <> neighborNext (N a x)) as Hyn.
  { destruct (dseg_at _ _ _ _ _ _ _ (lk_dll _ _ HL)) as [_ Hnx]. unfold nnext in Hnx. rewrite Hnx.
    destruct l2; cbn; [done|]. clear -Hych. set_solver. }
  assert (N a6 y = nn) as HNy by (rewrite HN by done; by rewrite decide_True, decide_False).
  assert (forall z, inr a z -> z <> y -> same_data (N a z) (N a6 z) /\
    binListPrev (N a6 z) = binListPrev (N a z) /\ binListNext (N a6 z) = binListNext (N a z)) as Hsd.
  { intros z Hz Hzy. rewrite HN by done. rewrite decide_False by done.
    unfold same_data. cbv zeta. repeat case_decide; done. }
  assert (len (nodes a6) = len (nodes a)) as Hlen by (unfold a6; by rewrite len_upd, len_updo, len_upd).
  assert (forall z, z ∈ F -> inr a z /\ z <> y) as HFz.
  { intros z Hz. split; [by apply (bn_F _ _ _ HB)|]. by apply Hny, HF. }
  assert (Bins a6 bins F) as HB6.
  { eapply Bins_frame; [exact HB|done..|]. intros z Hz. destruct (HFz z Hz) as [Hzi Hzy].
    destruct (Hsd z Hzi Hzy) as ((_ & ? & _ & ?) & ? & ?). done. }
  assert (Links a6 (l1 ++ x :: y :: l2)) as HL6.
  { apply (split_links a); try done; unfold nnext, nprev; rewrite ?HNy; try done.
    - rewrite HN, decide_False by done. cbv zeta. by repeat case_decide.
    - rewrite HN, decide_False by done. cbv zeta. by repeat case_decide.
    - intros z Hz. destruct (Hmid z Hz). pose proof (Hny z Hz). rewrite HN by done.
      cbv zeta. by repeat case_decide.
    - intros z Hz. destruct (Hmid z Hz). pose proof (Hny z Hz). rewrite HN by done.
      cbv zeta. by repeat case_decide. }
  destruct (insertExisting_spec a6 bins F y) as (a7 & -> & HB7 & HK & Hu7);
    [done|by unfold inr in *; rewrite Hlen|intros HyF; by destruct (HFz y HyF)|by rewrite HNy|].
  assert (forall z, inr a z -> inr a6 z) as Hi6 by (intros; unfold inr in *; by rewrite Hlen).
  eexists a7, y, _. split; [done|]. split; [exact HB7|].
  pose proof (keeps_fields _ _ y HK (Hi6 y Hy)) as (-> & -> & _ & _ & ->). rewrite HNy.
  rewrite (Hu7 y (Hi6 y Hy)), decide_True by done.
  split_and!; try done.
  - by apply (Links_keeps a6).
  - intros z Hz Hzy. destruct (Hsd z Hz Hzy) as ((E1 & E2 & E3 & E4) & _).
    pose proof (keeps_fields _ _ z HK (Hi6 z Hz)) as (E5 & E6 & _ & _ & E7).
    pose proof (Hu7 z (Hi6 z Hz)) as E8. rewrite decide_False in E8 by done.
    unfold same_data. split_and!; congruence.
  - by rewrite (kp_size _ _ HK).
  - by rewrite (kp_max _ _ HK).
  - by rewrite (kp_len _ _ HK).
Qed.

(** ** The invariant *)

Record Inv (a : Allocator) (ch : list Z) (bins : Z -> list Z) (F : list Z) : Prop := mkInv {
  iv_bins : Bins a bins F;
  iv_links : Links a ch;
  iv_tiles : tiles a 0 ch (size a);
  iv_size : 0 <= size a < 2 ^ 32;
  iv_F : forall x, x ∈ F <-> x ∈ ch /\ used (N a x) = false;
  iv_coal : coalesced a ch;
  iv_gen : forall x, inr a x -> fits 14 (gen (N a x));
  iv_idle : forall x, inr a x -> x ∉ ch -> used (N a x) = false;
  iv_max : len (nodes a) = 2 * maxAllocs a
}.

Lemma coalesced_mono a a' ch :
  (forall z, z ∈ ch -> used (N a z) = true -> used (N a' z) = true) ->
  coalesced a ch -> coalesced a' ch.
Proof.
  induction ch as [|x [|y ch] IH]; intros He; [done|done|].
  intros [Hxy Hl]. apply orb_true_iff in Hxy. split.
  - apply orb_true_iff. destruct Hxy; [left|right]; apply He; try done; set_solver.
  - apply IH; [|done]. set_solver.
Qed.

(** After a used range, a free one may be inserted if the next one is used. *)
Lemma coalesced_insert a l1 x y l2 :
  coalesced a (l1 ++ x :: l2) -> used (N a x) = true ->
  (forall z, hd_error l2 = Some z -> used (N a z) = true) ->
  coalesced a (l1 ++ x :: y :: l2).
Proof.
  intros Hc Hx Hz. apply coalesced_app in Hc as [Hc1 Hc2]. apply coalesced_app. split; [done|].
  cbn. rewrite Hx. split; [done|]. destruct l2 as [|z l2]; [done|]. cbn in Hc2.
  split; [rewrite (Hz z) by done; apply orb_true_r|apply Hc2].
Qed.

Lemma coalesced_next a l1 x l2 :
  coalesced a (l1 ++ x :: l2) -> used (N a x) = false ->
  forall z, hd_error l2 = Some z -> used (N a z) = true.
Proof.
  intros Hc Hx z Hz. apply coalesced_app in Hc as [_ Hc]. destruct l2 as [|w l2]; [done|].
  injection Hz as ->. destruct Hc as [Hc _]. by rewrite Hx in Hc.
Qed.

(** The state after [Alloc] claimed slot [x]. *)
Definition claimed (n : Z) (nd : node) : node :=
  set_binListNext unusedIndex (set_binListPrev unusedIndex
    (set_gen (Z.land (u32 (gen nd + 1)) genMask) (set_used true (set_dataSize n nd)))).

Lemma upd_upd a x f g : inr a x -> upd x f (upd x g a) = upd x (fun n => f (g n)) a.
Proof.
  intros Hx. unfold upd at 1. rewrite N_upd by (done || apply Hx). rewrite decide_True by done.
  unfold upd, set_nodes. cbn. by rewrite list_insert_insert_eq.
Qed.

Lemma gen_fits g : fits 14 (Z.land (u32 (g + 1)) genMask).
Proof.
  change genMask with (Z.ones 14). rewrite Z.land_ones by lia. apply Z.mod_pos_bound. lia.
Qed.

(** [Alloc] once a bin is found: pop the head and claim it. *)
Lemma alloc_claim a bins F t l n :
  Bins a bins F -> 0 < n < 2 ^ 32 -> 1 <= freeOffset a ->
  findBin a n = Some (Some (t, l)) -> 0 <= t < 32 -> 0 <= l < 8 -> bins (8 * t + l) <> [] ->
  exists x F' a1 bins',
    F ≡ₚ x :: F' /\ code (dataSize (N a x)) = 8 * t + l /\
    Bins a1 bins' F' /\ keeps a a1 /\ (forall y, inr a y -> used (N a1 y) = used (N a y)) /\
    let a2 := upd x (claimed n) a1 in
    Alloc a n =
      (a' ← (if 0 <? u32 (dataSize (N a x) - n)
             then splitRemainder a2 x n (u32 (dataSize (N a x) - n)) else Some a2);
       nd ← index (nodes a') x;
       Some (a', mkAllocation (dataOffset nd) (Z.lor (u32 (gen nd <<| metaSlotBits)) x), true)).
Proof.
  intros HB Hn Hfo Hfind Ht Hl Hne. set (b := 8 * t + l) in *.
  destruct (bins b) as [|x l2] eqn:Hb; [done|].
  assert (x ∈ F /\ code (dataSize (N a x)) = b) as [HxF Hcode].
  { apply (bn_mem _ _ _ HB); [unfold b; lia|]. rewrite Hb. by left. }
  assert (inr a x) as Hx by (by apply (bn_F _ _ _ HB)).
  apply list_elem_of_split in HxF as HxF'. destruct HxF' as (F1 & F2 & HF).
  assert (F ≡ₚ x :: (F1 ++ F2)) as HFp by (rewrite HF; by rewrite Permutation_middle).
  rewrite <- Hcode in Hb.
  destruct (dropHead_spec a bins F x l2 (F1 ++ F2) HB HFp Hb) as (a1 & Hdrop & HB1 & HK & Hu).
  exists x, (F1 ++ F2), a1. eexists. split_and!; [done|done|exact HB1|done|done|].
  unfold Alloc. replace (n =? 0) with false by lia. replace (_ <? 1) with false by lia.
  rewrite Hfind. cbn [mbind option_bind]. rewrite bin_index_eq by done.
  fold b. rewrite (bn_head _ _ _ HB) by (unfold b; lia). rewrite <- Hcode, Hb. cbn [mbind option_bind hd_].
  rewrite index_N by done. cbn [mbind option_bind].
  assert (t = b / 8 /\ l = b `mod` 8) as [Et El].
  { unfold b. split; [apply Z.div_unique with l; lia|apply Z.mod_unique_pos with t; lia]. }
  rewrite Et, El, <- Hcode. unfold dropHead in Hdrop.
  destruct (store (binIndices a) _ _) as [bi|] eqn:E1; [|done]. cbn [mbind option_bind] in Hdrop |- *.
  destruct (if negb (binListNext (N a x) =? unusedIndex) then _ else _) as [a3|];
    [|done]. cbn [mbind option_bind] in Hdrop |- *.
  destruct (index (binIndices a3) _) as [h|]; [|done]. cbn [mbind option_bind] in Hdrop |- *.
  destruct (if h =? unusedIndex then _ else _) as [a4|]; [|done].
  cbn [mbind option_bind] in Hdrop |- *. injection Hdrop as Hdrop. rewrite Hdrop.
  assert (inr a1 x) as Hx1 by (by apply (keeps_inr a)).
  do 5 (rewrite updNode_some by (rewrite ?inr_upd; done); cbn [mbind option_bind]).
  rewrite !upd_upd by (rewrite ?inr_upd; done). done.
Qed.

(** What a successful [Alloc] does to the slots: slot [x], free before, is the
    new live range; the other live ranges are untouched; no other slot became
    live. *)
Record granted (a a' : Allocator) (x n : Z) : Prop := mkGranted {
  gr_inr : inr a x;
  gr_free : used (N a x) = false;
  gr_fit : n <= dataSize (N a x);
  gr_off : dataOffset (N a' x) = dataOffset (N a x);
  gr_size : dataSize (N a' x) = n;
  gr_used : used (N a' x) = true;
  gr_gen : gen (N a' x) = Z.land (u32 (gen (N a x) + 1)) genMask;
  gr_live : forall z, inr a z -> z <> x -> used (N a z) = true -> same_data (N a z) (N a' z);
  gr_rest : forall z, inr a z -> z <> x -> used (N a z) = false -> used (N a' z) = false;
  gr_len : len (nodes a') = len (nodes a);
  gr_cap : size a' = size a
}.

(** The claimed slot in front of its unsplit range. *)
Section Claim.
Context {a : Allocator} {ch : list Z} {bins : Z -> list Z} {F : list Z} (HI : Inv a ch bins F).
Context {x n : Z} {F' : list Z} {a1 : Allocator} {bins' : Z -> list Z}.
Context (Hn : 0 < n) (HF : F ≡ₚ x :: F') (HB1 : Bins a1 bins' F') (HK : keeps a a1)
  (Hu : forall y, inr a y -> used (N a1 y) = used (N a y)).

Let a2 : Allocator := upd x (claimed n) a1.

Lemma claim_x : inr a x /\ x ∈ ch /\ used (N a x) = false /\ (x ∉ F') /\
  forall z, z ∈ F' <-> z ∈ F /\ z <> x.
Proof using HI HF.
  assert (x ∈ F) as HxF by (rewrite HF; by left).
  pose proof (bn_ndF _ _ _ (iv_bins _ _ _ _ HI)) as Hnd. rewrite HF in Hnd.
  apply NoDup_cons in Hnd as [Hx' _]. apply (iv_F _ _ _ _ HI) in HxF as Hx. destruct Hx as [Hxc Hxu].
  split_and!; [by apply (chain_inr (iv_links _ _ _ _ HI))|done..|].
  intros z. rewrite HF, elem_of_cons. split; [|naive_solver]. intros Hz. split; [by right|].
  intros ->. done.
Qed.

Lemma claim_N z : inr a z ->
  (z <> x -> same_data (N a z) (N a2 z) /\ nprev a2 z = nprev a z /\ nnext a2 z = nnext a z /\
     binListPrev (N a2 z) = binListPrev (N a1 z) /\ binListNext (N a2 z) = binListNext (N a1 z) /\
     dataSize (N a2 z) = dataSize (N a1 z) /\ used (N a2 z) = used (N a1 z)) /\
  (z = x -> dataOffset (N a2 z) = dataOffset (N a z) /\ dataSize (N a2 z) = n /\
     used (N a2 z) = true /\ gen (N a2 z) = Z.land (u32 (gen (N a z) + 1)) genMask /\
     nprev a2 z = nprev a z /\ nnext a2 z = nnext a z).
Proof using HI HF HK Hu.
  intros Hz. destruct claim_x as (Hx & _).
  assert (inr a1 x) as Hx1 by (by apply (keeps_inr a)).
  pose proof (keeps_fields _ _ z HK Hz) as (E1 & E2 & E3 & E4 & E5).
  pose proof (Hu z Hz) as E6. unfold a2, nprev, nnext, same_data.
  rewrite N_upd by (done || apply Hz). case_decide as E; [subst z|]; split; intros Hne; try done.
  cbn. rewrite E1, E3, E4, E5. done.
Qed.

Lemma claim_bins : Bins a2 bins' F'.
Proof using HI HF HB1 HK Hu.
  destruct claim_x as (_ & _ & _ & Hx' & HF').
  eapply Bins_frame; [exact HB1|done..|by apply len_upd|].
  intros z Hz. apply HF' in Hz as [HzF Hzx].
  destruct (claim_N z) as [Hc _]; [by apply (bn_F _ _ _ (iv_bins _ _ _ _ HI))|].
  destruct (Hc Hzx) as (_ & _ & _ & ? & ? & ? & ?). done.
Qed.

Lemma claim_links : Links a2 ch.
Proof using HI HF HK Hu.
  eapply (Links_frame a); [apply HI|apply HK|apply HK|unfold a2; rewrite len_upd; apply HK|].
  intros z Hz. destruct (claim_N z (chain_inr (iv_links _ _ _ _ HI) z Hz)) as [H1 H2].
  destruct (decide (z = x)) as [->|Hzx]; [by destruct H2 as (_ & _ & _ & _ & ? & ?)|].
  by destruct (H1 Hzx) as (_ & ? & ? & _).
Qed.

Lemma claim_coalesced : coalesced a2 ch.
Proof using HI HF HK Hu.
  eapply coalesced_mono; [|apply HI]. intros z Hz Huz.
  destruct (claim_N z (chain_inr (iv_links _ _ _ _ HI) z Hz)) as [H1 H2].
  destruct (decide (z = x)) as [->|Hzx]; [by destruct H2 as (_ & _ & ? & _)|].
  destruct (H1 Hzx) as ((_ & _ & _ & ->) & _). done.
Qed.

(** The whole range is granted: no remainder. *)
Lemma claim_whole : dataSize (N a x) = n -> Inv a2 ch bins' F' /\ granted a a2 x n.
Proof using HI HF HB1 HK Hu Hn.
  intros Hsz. destruct claim_x as (Hx & Hxc & Hxu & Hx' & HF').
  assert (inr a1 x) as Hx1 by (by apply (keeps_inr a)).
  assert (len (nodes a2) = len (nodes a)) as Hlen by (unfold a2; rewrite len_upd; apply HK).
  destruct (proj2 (claim_N x Hx) eq_refl) as (E1 & E2 & E3 & E4 & _).
  split; [split|split]; try done; try lia.
  - apply claim_bins.
  - apply claim_links.
  - change (size a2) with (size a1). rewrite (kp_size _ _ HK).
    eapply tiles_ext; [|apply HI]. intros z Hz.
    destruct (claim_N z (chain_inr (iv_links _ _ _ _ HI) z Hz)) as [H1 H2].
    destruct (decide (z = x)) as [->|Hzx]; [rewrite E1, E2; done|].
    by destruct (H1 Hzx) as ((? & ? & _) & _).
  - change (size a2) with (size a1). rewrite (kp_size _ _ HK). apply HI.
  - intros z. rewrite HF', (iv_F _ _ _ _ HI). split.
    + intros [[Hz Hzu] Hzx]. split; [done|].
      destruct (proj1 (claim_N z (chain_inr (iv_links _ _ _ _ HI) z Hz)) Hzx) as ((_ & _ & _ & ->) & _).
      done.
    + intros [Hz Hzu]. destruct (decide (z = x)) as [->|Hzx]; [congruence|].
      destruct (proj1 (claim_N z (chain_inr (iv_links _ _ _ _ HI) z Hz)) Hzx) as ((_ & _ & _ & Ez) & _).
      by rewrite <- Ez.
  - apply claim_coalesced.
  - intros z Hz. unfold inr in Hz. rewrite Hlen in Hz. destruct (claim_N z Hz) as [H1 _].
    destruct (decide (z = x)) as [->|Hzx]; [rewrite E4; apply gen_fits|].
    destruct (H1 Hzx) as ((_ & _ & -> & _) & _). by apply HI.
  - intros z Hz Hzc. unfold inr in Hz. rewrite Hlen in Hz.
    assert (z <> x) as Hzx by (intros ->; done).
    destruct (proj1 (claim_N z Hz) Hzx) as ((_ & _ & _ & ->) & _). by apply (iv_idle _ _ _ _ HI).
  - change (maxAllocs a2) with (maxAllocs a1). rewrite (kp_max _ _ HK), Hlen. apply HI.
  - intros z Hz Hzx _. by destruct (proj1 (claim_N z Hz) Hzx) as (? & _).
  - intros z Hz Hzx Hzu. by destruct (proj1 (claim_N z Hz) Hzx) as ((_ & _ & _ & ->) & _).
  - change (size a2) with (size a1). apply HK.
Qed.

(** The range is split: the remainder becomes a free range behind it. *)
Lemma claim_split : n < dataSize (N a x) -> 1 <= freeOffset a ->
  exists a' ch' bins'' F'', splitRemainder a2 x n (dataSize (N a x) - n) = Some a' /\
    Inv a' ch' bins'' F'' /\ granted a a' x n.
Proof using HI HF HB1 HK Hu Hn.
  intros Hsz Hfo. destruct claim_x as (Hx & Hxc & Hxu & Hx' & HF').
  assert (inr a1 x) as Hx1 by (by apply (keeps_inr a)).
  assert (len (nodes a2) = len (nodes a)) as Hlen by (unfold a2; rewrite len_upd; apply HK).
  destruct (proj2 (claim_N x Hx) eq_refl) as (E1 & E2 & E3 & E4 & _).
  pose proof (iv_links _ _ _ _ HI) as HL. pose proof (iv_size _ _ _ _ HI) as Hcap.
  apply list_elem_of_split in Hxc as (l1 & l2 & Hch).
  pose proof (iv_tiles _ _ _ _ HI) as Htl. rewrite Hch in Htl.
  pose proof (tiles_mem _ _ _ _ x Htl) as Hxr.
  destruct Hxr as (Ho1 & Ho2 & Ho3); [clear; set_solver|].
  pose proof claim_links as HL2. pose proof claim_bins as HB2. pose proof claim_coalesced as Hc2.
  rewrite Hch in HL, HL2, Hc2. destruct (chain_mid HL) as (_ & _ & Hmid).
  assert (forall z, z ∈ F' -> z ∈ l1 ++ l2) as HFl.
  { intros z Hz. apply HF' in Hz as [Hz Hzx]. apply (iv_F _ _ _ _ HI) in Hz as [Hz _].
    rewrite Hch in Hz. clear -Hz Hzx. set_solver. }
  destruct (splitRemainder_spec a2 l1 x l2 bins' F' n (dataSize (N a x) - n))
    as (a' & y & bins'' & Hsplit & HB' & HL' & Hy & Hyc & F1 & F2 & F3 & F4 & Hsd & Hs' & Hm' & Hlen');
    try done; [change (freeOffset a2) with (freeOffset a1); by rewrite (kp_fo _ _ HK)|lia|lia|].
  assert (inr a y) as Hya by (unfold inr in *; by rewrite <- Hlen).
  assert (y <> x /\ forall z, z ∈ l1 ++ l2 -> z <> y) as [Hyx Hny] by (clear -Hyc; set_solver).
  assert (forall z, inr a z -> inr a2 z) as Hi2 by (intros; unfold inr in *; by rewrite Hlen).
  destruct (Hsd x (Hi2 x Hx)) as (X1 & X2 & X3 & X4); [done|].
  assert (forall z, inr a z -> z <> x -> z <> y -> same_data (N a z) (N a' z)) as Hold.
  { intros z Hz Hzx Hzy. unfold same_data. destruct (Hsd z (Hi2 z Hz) Hzy) as (-> & -> & -> & ->).
    by destruct (proj1 (claim_N z Hz) Hzx) as (? & _). }
  assert (used (N a y) = false) as Hyu.
  { apply (iv_idle _ _ _ _ HI); [done|]. by rewrite Hch. }
  exists a', (l1 ++ x :: y :: l2), bins'', (y :: F').
  split; [done|]. split; [split|split]; try done; try lia.
  - rewrite Hs'. change (size a2) with (size a1). rewrite (kp_size _ _ HK).
    apply tiles_app in Htl as (mid & Ht1 & Ht2 & _ & Ht3). apply tiles_app. exists mid. split.
    + eapply tiles_ext; [|exact Ht1]. intros z Hz.
      destruct (Hmid z) as [Hzi Hzx]; [clear -Hz; set_solver|].
      destruct (Hold z Hzi Hzx) as (-> & -> & _); [|done]. apply Hny. clear -Hz; set_solver.
    + cbn. rewrite X1, X2, F1, F2, E1, E2. split_and!; [done|lia|lia|lia|].
      replace (mid + n + (dataSize (N a x) - n)) with (mid + dataSize (N a x)) by lia.
      eapply tiles_ext; [|exact Ht3]. intros z Hz.
      destruct (Hmid z) as [Hzi Hzx]; [clear -Hz; set_solver|].
      destruct (Hold z Hzi Hzx) as (-> & -> & _); [|done]. apply Hny. clear -Hz; set_solver.
  - rewrite Hs'. change (size a2) with (size a1). by rewrite (kp_size _ _ HK).
  - assert (forall z, z ∈ l1 ++ l2 -> used (N a' z) = used (N a z)) as Hul.
    { intros z Hz. destruct (Hmid z Hz) as [Hzi Hzx]. by destruct (Hold z Hzi Hzx (Hny z Hz)) as (_ & _ & _ & ?). }
    intros z. rewrite elem_of_cons, HF', (iv_F _ _ _ _ HI), Hch. split.
    + intros [->|[[Hz Hzu] Hzx]]; [split; [clear; set_solver|done]|].
      assert (z ∈ l1 ++ l2) as Hzl by (clear -Hz Hzx; set_solver).
      rewrite Hul by done. split; [clear -Hzl; set_solver|done].
    + intros [Hz Hzu]. destruct (decide (z = y)) as [->|Hzy]; [by left|right].
      destruct (decide (z = x)) as [->|Hzx]; [congruence|].
      assert (z ∈ l1 ++ l2) as Hzl by (clear -Hz Hzx Hzy; set_solver).
      rewrite Hul in Hzu by done. split_and!; [clear -Hzl; set_solver|done..].
  - assert (coalesced a' (l1 ++ x :: l2)) as Hc'.
    { eapply coalesced_ext; [|exact Hc2]. intros z Hz. apply (Hsd z).
      - apply (chain_inr HL2), Hz.
      - intros ->. done. }
    apply coalesced_insert; [done|congruence|]. intros z Hz.
    assert (z ∈ l1 ++ l2) as Hzl by (destruct l2; [done|]; injection Hz as ->; clear; set_solver).
    destruct (Hmid z Hzl) as [Hzi Hzx].
    destruct (Hold z Hzi Hzx (Hny z Hzl)) as (_ & _ & _ & ->).
    eapply (coalesced_next a l1 x l2); [rewrite <- Hch; apply HI|done..].
  - intros z Hz. assert (inr a z) as Hza by (unfold inr in *; rewrite Hlen', Hlen in Hz; done).
    destruct (decide (z = y)) as [->|Hzy]; [rewrite F3; by split|].
    destruct (decide (z = x)) as [->|Hzx]; [rewrite X3, E4; apply gen_fits|].
    destruct (Hold z Hza Hzx Hzy) as (_ & _ & -> & _). by apply HI.
  - intros z Hz Hzc. assert (inr a z) as Hza by (unfold inr in *; rewrite Hlen', Hlen in Hz; done).
    destruct (Hold z Hza) as (_ & _ & _ & ->); [clear -Hzc; set_solver..|].
    apply (iv_idle _ _ _ _ HI); [done|]. rewrite Hch. clear -Hzc. set_solver.
  - rewrite Hlen', Hlen, Hm'. change (maxAllocs a2) with (maxAllocs a1).
    rewrite (kp_max _ _ HK). apply HI.
  - congruence.
  - intros z Hz Hzx Hzu. apply Hold; [done..|]. intros ->. congruence.
  - intros z Hz Hzx Hzu. destruct (decide (z = y)) as [->|Hzy]; [done|].
    destruct (Hold z Hz Hzx Hzy) as (_ & _ & _ & ->). done.
  - rewrite Hs'. change (size a2) with (size a1). apply HK.
Qed.

End Claim.

(** A request whose code some non-empty bin reaches is granted. *)
Lemma alloc_grant a ch bins F t l n :
  Inv a ch bins F -> 0 < n < 2 ^ 32 -> 1 <= freeOffset a ->
  findBin a n = Some (Some (t, l)) ->
  exists a' x ch' bins' F', granted a a' x n /\ Inv a' ch' bins' F' /\
    Alloc a n = Some (a', mkAllocation (dataOffset (N a' x))
                            (Z.lor (u32 (gen (N a' x) <<| metaSlotBits)) x), true).
Proof.
  intros HI Hn Hfo Hfind. pose proof (iv_bins _ _ _ _ HI) as HB.
  destruct (findBin_spec HB n Hn) as (r & Hr & Hspec). rewrite Hfind in Hr. injection Hr as <-.
  destruct Hspec as (Ht & Hl & Hle & Hne & _).
  destruct (alloc_claim a bins F t l n HB Hn Hfo Hfind Ht Hl Hne)
    as (x & F' & a1 & bins' & HF & Hcode & HB1 & HK & Hu & ->).
  assert (x ∈ F) as HxF by (rewrite HF; by left).
  destruct (bn_F _ _ _ HB x HxF) as (Hx & _ & Hsz).
  assert (n <= dataSize (N a x)) as Hfit.
  { destruct (roundDown_spec (dataSize (N a x))) as [_ [Hrd _]]; [lia|].
    destruct (roundUp_spec n) as [_ Hgal]; [lia|]. apply Hgal in Hle; [|lia]. rewrite Hcode in Hrd. lia. }
  replace (u32 (dataSize (N a x) - n)) with (dataSize (N a x) - n)
    by (unfold u32; rewrite Z.mod_small by lia; lia).
  assert (0 < n) as Hn0 by lia. case_if; bool_props.
  - destruct (claim_split HI Hn0 HF HB1 HK Hu) as (a' & ch' & bins'' & F'' & -> & HI' & Hg);
      [lia|done|]. cbn [mbind option_bind].
    rewrite index_N by (unfold inr; rewrite (gr_len _ _ _ _ Hg); apply Hx). cbn [mbind option_bind].
    by eexists a', x, ch', bins'', F''.
  - destruct (claim_whole HI Hn0 HF HB1 HK Hu) as [HI' Hg]; [lia|]. cbn [mbind option_bind].
    rewrite index_N by (unfold inr; rewrite (gr_len _ _ _ _ Hg); apply Hx). cbn [mbind option_bind].
    by eexists _, x, ch, bins', F'.
Qed.

(** ** Merging with a free neighbour *)

Lemma coalesced_tail a x l : coalesced a (x :: l) -> coalesced a l.
Proof. destruct l; [done|]. by intros [_ ?]. Qed.

Lemma coalesced_app_l a l1 l2 : coalesced a (l1 ++ l2) -> coalesced a l1.
Proof.
  induction l1 as [|x [|y l1] IH]; [done|done|]. intros [Hxy Hl]. split; [done|]. by apply IH.
Qed.

Lemma coalesced_app_r a l1 l2 : coalesced a (l1 ++ l2) -> coalesced a l2.
Proof. induction l1 as [|x l1 IH]; [done|]. intros Hc. by apply coalesced_tail, IH in Hc. Qed.

Lemma coalesced_snoc a l x :
  coalesced a l -> (forall w, last l = Some w -> used (N a w) = true) -> coalesced a (l ++ [x]).
Proof.
  induction l as [|y [|z l] IH]; intros Hc Hl; [done| |].
  - split; [|done]. by rewrite (Hl y).
  - destruct Hc as [Hyz Hc]. split; [done|]. apply IH; [done|]. intros w Hw. by apply Hl.
Qed.

(** The node stack has room for a slot of the chain. *)
Lemma stack_room a ch x : Links a ch -> x ∈ ch ->
  0 <= freeOffset a < len (freeNodes a) /\ len (freeNodes a) <= 2 ^ 18.
Proof.
  intros HL Hx. pose proof (lk_fo _ _ HL). pose proof (lk_fn _ _ HL). pose proof (lk_cap _ _ HL).
  pose proof (lk_pool _ _ HL) as Hp. apply Permutation_length in Hp.
  rewrite length_app, length_seqZ in Hp. unfold stack in Hp. rewrite length_take in Hp.
  destruct ch as [|c ch]; [by apply elem_of_nil in Hx|]. unfold len in *. cbn in Hp. lia.
Qed.

Lemma coalesced_last a l p w :
  coalesced a (l ++ [p]) -> used (N a p) = false -> last l = Some w -> used (N a w) = true.
Proof.
  intros Hc Hp Hw. apply last_Some in Hw as [l' ->]. rewrite <- app_assoc in Hc. cbn in Hc.
  apply coalesced_app_r in Hc. destruct Hc as [Hc _]. rewrite Hp, orb_false_r in Hc. done.
Qed.

(** [p], unlinked from the neighbour list, goes back on the stack. *)
Lemma unlink_links a m1 p m2 a' :
  Links a (m1 ++ p :: m2) -> len (nodes a') = len (nodes a) ->
  len (freeNodes a') = len (freeNodes a) -> freeOffset a' = freeOffset a + 1 ->
  stack a' = stack a ++ [p] ->
  (forall z, z ∈ m1 ++ m2 -> nnext a' z = if decide (z = nprev a p) then nnext a p else nnext a z) ->
  (forall z, z ∈ m1 ++ m2 -> nprev a' z = if decide (z = nnext a p) then nprev a p else nprev a z) ->
  Links a' (m1 ++ m2).
Proof.
  intros HL Hlen Hfn Hfo Hst Hn Hp. pose proof (lk_dll _ _ HL) as Hd.
  pose proof (dseg_at _ _ _ _ _ _ _ Hd) as [Hpp Hnp]. pose proof (chain_nodup HL) as Hnd.
  destruct (chain_mid HL) as (_ & _ & Hmid).
  assert (forall z, z ∈ m1 ++ m2 -> z <> unusedIndex) as Hu
    by (intros z Hz; by apply (inr_ne HL), Hmid).
  assert ((m1 ++ m2) ++ stack a' ≡ₚ seqZ 0 (len (nodes a))) as Hpool.
  { rewrite <- (lk_pool _ _ HL), Hst. rewrite app_assoc, <- Permutation_cons_append.
    change (p :: (m1 ++ m2) ++ stack a) with ((p :: m1 ++ m2) ++ stack a).
    apply Permutation_app_tail, Permutation_middle. }
  split; rewrite ?Hlen, ?Hfn, ?Hfo; try done; try apply HL.
  - eapply dll_unlink; [exact Hnd|exact Hd|..]; intros z Hz.
    + assert (z ∈ m1 ++ m2) as Hzm by (apply last_Some in Hz as [? ->]; clear; set_solver).
      rewrite Hn, decide_True; [done| |done]. rewrite Hpp. unfold lst. by rewrite Hz.
    + intros Hne. rewrite Hn, decide_False; [done| |done]. rewrite Hpp. intros E.
      by apply lst_elem in E; [|apply Hu].
    + assert (z ∈ m1 ++ m2) as Hzm by (destruct m2; [done|]; injection Hz as ->; clear; set_solver).
      rewrite Hp, decide_True; [done| |done]. rewrite Hnp. destruct m2; [done|]. by injection Hz.
    + intros Hne. rewrite Hp, decide_False; [done| |done]. rewrite Hnp. intros E.
      by apply hd_elem in E; [|apply Hu].
  - destruct (stack_room a _ p HL); [clear; set_solver|]. lia.
Qed.

(** What the merges keep of the data of the slots. *)
Record merged (a a' : Allocator) : Prop := mkMerged {
  mg_data : forall z, inr a z -> same_data (N a z) (N a' z);
  mg_len : len (nodes a') = len (nodes a);
  mg_size : size a' = size a;
  mg_max : maxAllocs a' = maxAllocs a
}.

Lemma merged_refl a : merged a a.
Proof. by split. Qed.

Lemma merged_trans a b c : merged a b -> merged b c -> merged a c.
Proof.
  intros [H1 H2 H3 H4] [H5 H6 H7 H8]. split; try congruence. intros z Hz.
  destruct (H1 z Hz) as (E1 & E2 & E3 & E4).
  destruct (H5 z) as (E5 & E6 & E7 & E8); [unfold inr in *; lia|].
  unfold same_data. split_and!; congruence.
Qed.

(** The parked slots are the free ones around [x]. *)
Definition parked (a : Allocator) (l : list Z) (F : list Z) : Prop :=
  forall z, z ∈ F <-> z ∈ l /\ used (N a z) = false.

(** Slots that differ at most in their neighbour links. *)
Definition same_but_links (n n' : node) : Prop :=
  same_data n n' /\ binListPrev n' = binListPrev n /\ binListNext n' = binListNext n.

(** The end of a merge: [p] left its bin in [a1], the neighbours were relinked
    in [a3], and [p]'s slot is pushed. *)
Lemma absorb_finish a m1 p m2 a1 bins1 F1 a3 :
  Links a (m1 ++ p :: m2) -> Bins a1 bins1 F1 -> keeps a a1 ->
  (forall y, inr a y -> used (N a1 y) = used (N a y)) ->
  (exists ns, a3 = set_nodes ns a1) -> len (nodes a3) = len (nodes a1) ->
  (forall z, inr a z -> same_but_links (N a1 z) (N a3 z)) ->
  (forall z, z ∈ m1 ++ m2 -> nnext a3 z = if decide (z = nprev a p) then nnext a p else nnext a z) ->
  (forall z, z ∈ m1 ++ m2 -> nprev a3 z = if decide (z = nnext a p) then nprev a p else nprev a z) ->
  exists a4, pushNode a3 p = Some a4 /\ Bins a4 bins1 F1 /\ Links a4 (m1 ++ m2) /\ merged a a4.
Proof.
  intros HL HB1 HK Hu [ns Ha3] Hlen HN Hnn Hnp.
  assert (p ∈ m1 ++ p :: m2) as Hp by (clear; set_solver).
  destruct (stack_room a _ p HL Hp) as [Hroom Hcap].
  assert (freeOffset a3 = freeOffset a /\ freeNodes a3 = freeNodes a) as [Hfo Hfn]
    by (rewrite Ha3; cbn; rewrite (kp_fo _ _ HK), (kp_fn _ _ HK); done).
  destruct (pushNode_spec a3 p) as (a4 & Hpush & Hst & Hfo4 & Hfn4 & Hno & Hsz & Hmx & Hfs & Hub & Hubt & Hbi);
    [by rewrite Hfo, Hfn|by rewrite Hfn|].
  exists a4. split; [done|].
  assert (forall z, N a4 z = N a3 z) as HN4 by (intros; unfold N; by rewrite Hno).
  assert (len (nodes a4) = len (nodes a)) as Hlen4 by (rewrite Hno, Hlen; apply HK).
  split_and!.
  - eapply Bins_frame; [exact HB1|by rewrite ?Hbi, ?Hub, ?Hubt, ?Hfs, Ha3..|by rewrite Hno|].
    intros z Hz. rewrite HN4. apply (bn_F _ _ _ HB1) in Hz as [Hz _].
    apply (keeps_inr a) in Hz; [|done]. destruct (HN z Hz) as ((_ & ? & _ & ?) & ? & ?). done.
  - eapply (unlink_links a); try done.
    + by rewrite Hfn4, Hfn.
    + by rewrite Hfo4, Hfo.
    + rewrite Hst. unfold stack. by rewrite Hfo, Hfn.
    + intros z Hz. unfold nnext at 1. rewrite HN4. by apply Hnn.
    + intros z Hz. unfold nprev at 1. rewrite HN4. by apply Hnp.
  - split; [|done|by rewrite Hsz, Ha3; apply HK|by rewrite Hmx, Ha3; apply HK].
    intros z Hz. rewrite HN4. destruct (HN z Hz) as ((E1 & E2 & E3 & E4) & _).
    pose proof (keeps_fields _ _ z HK Hz) as (E5 & E6 & _ & _ & E7). pose proof (Hu z Hz).
    unfold same_data. split_and!; congruence.
Qed.

Lemma parked_remove a a' l F p F' l' :
  parked a l F -> F ≡ₚ p :: F' -> NoDup F -> (forall z, z ∈ l' <-> z ∈ l /\ z <> p) ->
  (forall z, z ∈ l -> used (N a' z) = used (N a z)) -> parked a' l' F'.
Proof.
  intros HP HF Hnd Hl Hu z. rewrite HF in Hnd. apply NoDup_cons in Hnd as [Hp _].
  assert (z ∈ F' <-> z ∈ F /\ z <> p) as ->.
  { rewrite HF, elem_of_cons. split; [|naive_solver]. intros Hz. split; [by right|]. by intros ->. }
  rewrite (HP z), Hl. split.
  - intros [[Hz Hzu] Hzp]. by rewrite Hu.
  - intros [[Hz Hzp] Hzu]. rewrite Hu in Hzu by done. done.
Qed.

Lemma sumsz_app a l1 l2 : sumsz a (l1 ++ l2) = sumsz a l1 + sumsz a l2.
Proof. induction l1 as [|x l1 IH]; cbn; lia. Qed.

Lemma sumsz_nonneg a l : (forall z, z ∈ l -> 0 < dataSize (N a z)) -> 0 <= sumsz a l.
Proof.
  induction l as [|x l IH]; intros Hpos; cbn [sumsz]; [lia|].
  assert (0 < dataSize (N a x)) by (apply Hpos; by left).
  assert (0 <= sumsz a l) by (apply IH; intros; apply Hpos; by right). lia.
Qed.

Lemma sumsz_mem a l x :
  (forall z, z ∈ l -> 0 < dataSize (N a z)) -> x ∈ l -> 0 < dataSize (N a x) <= sumsz a l.
Proof.
  induction l as [|y l IH]; intros Hpos; [by intros ?%elem_of_nil|]. cbn [sumsz].
  assert (0 <= sumsz a l) as Hl by (apply sumsz_nonneg; intros; apply Hpos; by right).
  assert (0 < dataSize (N a y)) by (apply Hpos; by left).
  rewrite elem_of_cons. intros [->|Hx]; [lia|].
  destruct IH; [intros; apply Hpos; by right|done|lia].
Qed.

(** The outcome of a merge to the left: the absorbed slots [P] and the range
    that [x] will span. *)
Lemma mergePrev_spec a l1 x l2 bins F off sz :
  Bins a bins F -> Links a (l1 ++ x :: l2) -> parked a (l1 ++ l2) F -> coalesced a l1 ->
  0 <= sz -> sz + sumsz a l1 < 2 ^ 32 -> (forall z, z ∈ l1 -> 0 < dataSize (N a z)) ->
  exists a' l1' P bins' F', l1 = l1' ++ P /\
    mergePrev a x off sz = Some (a', match P with [] => off | p :: _ => dataOffset (N a p) end,
                                 sz + sumsz a P) /\
    Bins a' bins' F' /\ Links a' (l1' ++ x :: l2) /\ parked a' (l1' ++ l2) F' /\ merged a a' /\
    coalesced a l1' /\ (forall w, last l1' = Some w -> used (N a w) = true) /\
    (forall z, z ∈ P -> used (N a z) = false) /\ (length P <= 1)%nat.
Proof.
  intros HB HL HP Hc Hsz Hbound Hpos. destruct (chain_mid HL) as (Hx & _ & Hmid).
  destruct (dseg_at _ _ _ _ _ _ _ (lk_dll _ _ HL)) as [Hpx Hnx].
  unfold mergePrev. rewrite index_N by done. cbn [mbind option_bind].
  change (neighborPrev (N a x)) with (nprev a x). rewrite Hpx.
  destruct l1 as [|p l1 _] using rev_ind.
  { change (lst unusedIndex []) with unusedIndex. rewrite Z.eqb_refl. cbn [negb mbind option_bind].
    exists a, [], [], bins, F. rewrite Z.add_0_r. split_and!; try done.
    all: first [apply merged_refl|by intros ? ?%elem_of_nil|cbn; lia]. }
  rewrite lst_snoc. destruct (Hmid p) as [Hp Hpx']; [clear; set_solver|].
  pose proof (inr_ne HL p Hp) as Hpu. replace (p =? unusedIndex) with false by lia. cbn [negb].
  rewrite index_N by done. cbn [mbind option_bind].
  destruct (used (N a p)) eqn:Hup; cbn [negb].
  { exists a, (l1 ++ [p]), [], bins, F. rewrite app_nil_r, Z.add_0_r.
    split_and!; try done.
    all: first [apply merged_refl|by intros ? ?%elem_of_nil|cbn; lia|idtac].
    intros w. rewrite last_snoc. by intros [= <-]. }
  assert (p ∈ F) as HpF by (apply HP; split; [clear; set_solver|done]).
  apply list_elem_of_split in HpF as (F1 & F2 & HF).
  assert (F ≡ₚ p :: (F1 ++ F2)) as HFp by (rewrite HF; by rewrite Permutation_middle).
  destruct (removeNodeFromBin_spec a bins F p (F1 ++ F2) HB HFp) as (a1 & bins1 & -> & HB1 & HK & Hu).
  cbn [mbind option_bind]. assert (forall z, inr a1 z <-> inr a z) as Hi1 by (intros; by apply keeps_inr).
  rewrite index_N by (by apply Hi1). cbn [mbind option_bind].
  assert (Links a (l1 ++ p :: x :: l2)) as HL' by (by rewrite <- app_assoc in HL).
  destruct (dseg_at _ _ _ _ _ _ _ (lk_dll _ _ HL')) as [Hpp Hnp]. cbn [hd_] in Hnp.
  assert (forall z, inr a z -> nprev a1 z = nprev a z /\ nnext a1 z = nnext a z) as Hnb1.
  { intros z Hz. pose proof (keeps_fields _ _ z HK Hz). unfold nprev, nnext. tauto. }
  change (neighborPrev (N a1 p)) with (nprev a1 p). rewrite (proj1 (Hnb1 p Hp)).
  set (pp := nprev a p) in *.
  assert (pp = unusedIndex \/ inr a1 pp) as Hpi.
  { rewrite Hpp. rewrite Hi1. apply (chain_ptr_last HL'). clear. set_solver. }
  rewrite updNode_some by (by apply Hi1). cbn [mbind option_bind].
  rewrite updo_some by (by rewrite inr_upd). cbn [mbind option_bind]. set (a3 := updo _ _ _).
  assert (forall z, inr a z -> N a3 z =
    let m := if decide (z = x) then set_neighborPrev pp (N a1 z) else N a1 z in
    if decide (z = pp) then set_neighborNext x m else m) as HN.
  { intros z Hz. pose proof (inr_ne HL z Hz) as Hzu. unfold a3.
    rewrite N_updo by (first [done|by rewrite inr_upd|apply Hz]).
    rewrite !N_upd by (first [by apply Hi1|apply Hz]). repeat case_decide; congruence. }
  destruct (absorb_finish a l1 p (x :: l2) a1 bins1 (F1 ++ F2) a3) as (a4 & -> & HB4 & HL4 & HM);
    try done.
  { unfold a3, updo, upd, set_nodes. by eexists. }
  { unfold a3. by rewrite len_updo, len_upd. }
  { intros z Hz. rewrite HN by done. unfold same_but_links, same_data. cbv zeta.
    repeat case_decide; done. }
  { intros z Hz. assert (inr a z) as Hzi by (apply (chain_inr HL'); clear -Hz; set_solver).
    destruct (Hnb1 z Hzi) as [_ Hnz]. fold pp. rewrite Hnp. unfold nnext at 1. rewrite HN by done.
    cbv zeta. repeat case_decide; done. }
  { intros z Hz. assert (inr a z) as Hzi by (apply (chain_inr HL'); clear -Hz; set_solver).
    destruct (Hnb1 z Hzi) as [Hnz _]. fold pp. rewrite Hnp. unfold nprev at 1. rewrite HN by done.
    cbv zeta. repeat case_decide; done. }
  cbn [mbind option_bind]. exists a4, l1, [p], bins1, (F1 ++ F2).
  destruct (sumsz_mem a (l1 ++ [p]) p Hpos) as [Hp0 Hps]; [clear; set_solver|].
  split_and!; try done.
  - cbn [sumsz]. do 2 f_equal. unfold u32. rewrite Z.mod_small by lia. lia.
  - eapply parked_remove; [exact HP|exact HFp|apply HB| |].
    + intros z. destruct (chain_mid HL') as (_ & _ & Hne). clear -Hne.
      assert (z ∈ l1 ++ l2 -> z <> p) by (intros; apply Hne; set_solver). set_solver.
    + intros z Hz. apply (mg_data _ _ HM). by apply Hmid.
  - by apply coalesced_app_l in Hc.
  - intros w. by apply coalesced_last with p.
  - intros z Hz. apply list_elem_of_singleton in Hz as ->. done.
Qed.

Lemma mergeNext_spec a l1 x l2 bins F sz :
  Bins a bins F -> Links a (l1 ++ x :: l2) -> parked a (l1 ++ l2) F -> coalesced a l2 ->
  0 <= sz -> sz + sumsz a l2 < 2 ^ 32 -> (forall z, z ∈ l2 -> 0 < dataSize (N a z)) ->
  exists a' l2' Q bins' F', l2 = Q ++ l2' /\
    mergeNext a x sz = Some (a', sz + sumsz a Q) /\
    Bins a' bins' F' /\ Links a' (l1 ++ x :: l2') /\ parked a' (l1 ++ l2') F' /\ merged a a' /\
    coalesced a l2' /\ (forall w, hd_error l2' = Some w -> used (N a w) = true) /\
    (forall z, z ∈ Q -> used (N a z) = false) /\ (length Q <= 1)%nat.
Proof.
  intros HB HL HP Hc Hsz Hbound Hpos. destruct (chain_mid HL) as (Hx & _ & Hmid).
  destruct (dseg_at _ _ _ _ _ _ _ (lk_dll _ _ HL)) as [_ Hnx].
  unfold mergeNext. rewrite index_N by done. cbn [mbind option_bind].
  change (neighborNext (N a x)) with (nnext a x). rewrite Hnx.
  destruct l2 as [|q l2].
  { cbn [hd_]. rewrite Z.eqb_refl. cbn [negb mbind option_bind].
    exists a, [], [], bins, F. rewrite Z.add_0_r. split_and!; try done.
    all: first [apply merged_refl|by intros ? ?%elem_of_nil|cbn; lia]. }
  cbn [hd_]. destruct (Hmid q) as [Hq Hqx']; [clear; set_solver|].
  pose proof (inr_ne HL q Hq) as Hqu. replace (q =? unusedIndex) with false by lia. cbn [negb].
  rewrite index_N by done. cbn [mbind option_bind].
  destruct (used (N a q)) eqn:Huq; cbn [negb].
  { exists a, (q :: l2), [], bins, F. rewrite Z.add_0_r. split_and!; try done.
    all: first [apply merged_refl|by intros ? ?%elem_of_nil|cbn; lia|idtac].
    by intros w [= <-]. }
  assert (q ∈ F) as HqF by (apply HP; split; [clear; set_solver|done]).
  apply list_elem_of_split in HqF as (F1 & F2 & HF).
  assert (F ≡ₚ q :: (F1 ++ F2)) as HFq by (rewrite HF; by rewrite Permutation_middle).
  destruct (removeNodeFromBin_spec a bins F q (F1 ++ F2) HB HFq) as (a1 & bins1 & -> & HB1 & HK & Hu).
  cbn [mbind option_bind]. assert (forall z, inr a1 z <-> inr a z) as Hi1 by (intros; by apply keeps_inr).
  rewrite index_N by (by apply Hi1). cbn [mbind option_bind].
  assert (Links a ((l1 ++ [x]) ++ q :: l2)) as HL' by (by rewrite <- app_assoc).
  destruct (dseg_at _ _ _ _ _ _ _ (lk_dll _ _ HL')) as [Hpq Hnq]. rewrite lst_snoc in Hpq.
  assert (forall z, inr a z -> nprev a1 z = nprev a z /\ nnext a1 z = nnext a z) as Hnb1.
  { intros z Hz. pose proof (keeps_fields _ _ z HK Hz). unfold nprev, nnext. tauto. }
  change (neighborNext (N a1 q)) with (nnext a1 q). rewrite (proj2 (Hnb1 q Hq)).
  set (nq := nnext a q) in *.
  assert (nq = unusedIndex \/ inr a1 nq) as Hni.
  { rewrite Hnq. rewrite Hi1. apply (chain_ptr HL'). clear. set_solver. }
  rewrite updNode_some by (by apply Hi1). cbn [mbind option_bind].
  rewrite updo_some by (by rewrite inr_upd). cbn [mbind option_bind]. set (a3 := updo _ _ _).
  assert (forall z, inr a z -> N a3 z =
    let m := if decide (z = x) then set_neighborNext nq (N a1 z) else N a1 z in
    if decide (z = nq) then set_neighborPrev x m else m) as HN.
  { intros z Hz. pose proof (inr_ne HL z Hz) as Hzu. unfold a3.
    rewrite N_updo by (first [done|by rewrite inr_upd|apply Hz]).
    rewrite !N_upd by (first [by apply Hi1|apply Hz]). repeat case_decide; congruence. }
  destruct (absorb_finish a (l1 ++ [x]) q l2 a1 bins1 (F1 ++ F2) a3) as (a4 & -> & HB4 & HL4 & HM);
    try done.
  { unfold a3, updo, upd, set_nodes. by eexists. }
  { unfold a3. by rewrite len_updo, len_upd. }
  { intros z Hz. rewrite HN by done. unfold same_but_links, same_data. cbv zeta.
    repeat case_decide; done. }
  { intros z Hz. assert (inr a z) as Hzi by (apply (chain_inr HL'); clear -Hz; set_solver).
    destruct (Hnb1 z Hzi) as [_ Hnz]. fold nq. rewrite Hpq. unfold nnext at 1. rewrite HN by done.
    cbv zeta. repeat case_decide; done. }
  { intros z Hz. assert (inr a z) as Hzi by (apply (chain_inr HL'); clear -Hz; set_solver).
    destruct (Hnb1 z Hzi) as [Hnz _]. fold nq. rewrite Hpq. unfold nprev at 1. rewrite HN by done.
    cbv zeta. repeat case_decide; done. }
  cbn [mbind option_bind]. exists a4, l2, [q], bins1, (F1 ++ F2).
  destruct (sumsz_mem a (q :: l2) q Hpos) as [Hq0 Hqs]; [clear; set_solver|].
  split_and!; try done.
  - cbn [sumsz]. do 2 f_equal. unfold u32. rewrite Z.mod_small by lia. lia.
  - by rewrite <- app_assoc in HL4.
  - eapply parked_remove; [exact HP|exact HFq|apply HB| |].
    + intros z. destruct (chain_mid HL') as (_ & _ & Hne). clear -Hne.
      assert (z ∈ l1 ++ l2 -> z <> q) by (intros; apply Hne; set_solver). set_solver.
    + intros z Hz. apply (mg_data _ _ HM). by apply Hmid.
  - by apply coalesced_tail in Hc.
  - intros w Hw. apply (coalesced_next a [] q l2); done.
  - intros z Hz. apply list_elem_of_singleton in Hz as ->. done.
Qed.

(** ** Free *)

(** What [Free] of slot [x] does to the slots. *)
Record released (a a' : Allocator) (x : Z) : Prop := mkReleased {
  rl_free : used (N a' x) = false;
  rl_live : forall z, inr a z -> z <> x -> used (N a z) = true -> same_data (N a z) (N a' z);
  rl_rest : forall z, inr a z -> z <> x -> used (N a z) = false -> used (N a' z) = false;
  rl_gen : forall z, inr a z -> gen (N a' z) = gen (N a z);
  rl_len : len (nodes a') = len (nodes a);
  rl_cap : size a' = size a
}.

(** The merged range in place of the slots it absorbed. *)
Lemma tiles_merge a a' l1 P x Q l2 total off sz :
  tiles a 0 ((l1 ++ P) ++ x :: Q ++ l2) total ->
  (forall z, z ∈ l1 ++ l2 -> dataOffset (N a' z) = dataOffset (N a z) /\
                             dataSize (N a' z) = dataSize (N a z)) ->
  dataOffset (N a' x) = off -> dataSize (N a' x) = sz ->
  off = (match P with [] => dataOffset (N a x) | p :: _ => dataOffset (N a p) end) ->
  sz = dataSize (N a x) + sumsz a P + sumsz a Q ->
  tiles a' 0 (l1 ++ x :: l2) total.
Proof.
  intros Ht Hsame Ho Hs -> ->. rewrite <- app_assoc in Ht.
  apply tiles_app in Ht as (m1 & Ht1 & Ht). apply tiles_app in Ht as (m2 & HtP & Hx & Hxs & Ht).
  apply tiles_app in Ht as (m3 & HtQ & Ht2).
  pose proof (tiles_sum _ _ _ _ HtP). pose proof (tiles_sum _ _ _ _ HtQ).
  pose proof (tiles_le _ _ _ _ HtP). pose proof (tiles_le _ _ _ _ HtQ).
  assert (dataOffset (N a' x) = m1) as Hm1.
  { rewrite Ho. destruct P as [|p P]; cbn in HtP; [congruence|]. by destruct HtP. }
  apply tiles_app. exists m1. split.
  - eapply tiles_ext; [|exact Ht1]. intros z Hz. apply Hsame. clear -Hz. set_solver.
  - cbn. rewrite Hm1, Hs. split_and!; [done|lia|].
    replace (m1 + _) with m3 by lia.
    eapply tiles_ext; [|exact Ht2]. intros z Hz. apply Hsame. clear -Hz. set_solver.
Qed.

(** The end of [Free]: [x] takes the merged range and is parked. *)
Lemma free_finish a l1 P x Q l2 bins F a2 bins2 F2 off sz :
  Inv a ((l1 ++ P) ++ x :: Q ++ l2) bins F -> used (N a x) = true ->
  Bins a2 bins2 F2 -> Links a2 (l1 ++ x :: l2) -> parked a2 (l1 ++ l2) F2 -> merged a a2 ->
  coalesced a l1 -> coalesced a l2 ->
  (forall w, last l1 = Some w -> used (N a w) = true) ->
  (forall w, hd_error l2 = Some w -> used (N a w) = true) ->
  (forall z, z ∈ P ++ Q -> used (N a z) = false) ->
  off = (match P with [] => dataOffset (N a x) | p :: _ => dataOffset (N a p) end) ->
  sz = dataSize (N a x) + sumsz a P + sumsz a Q -> 0 < sz < 2 ^ 32 ->
  exists a' ch' bins' F',
    (a ← updNode a2 x (set_dataOffset off); a ← updNode a x (set_dataSize sz);
     insertExistingNodeIntoBin a x) = Some a' /\ Inv a' ch' bins' F' /\ released a a' x.
Proof.
  intros HI Hxu HB2 HL2 HP2 HM Hc1 Hc2 Hlast Hhd HPQ Hoff Hsz Hszr.
  pose proof (iv_links _ _ _ _ HI) as HL. destruct (chain_mid HL) as (Hx & _ & Hmid).
  destruct (chain_mid HL2) as (Hx2 & _ & Hmid2).
  assert (forall z, inr a2 z <-> inr a z) as Hi2 by (intros; unfold inr; by rewrite (mg_len _ _ HM)).
  do 2 (rewrite updNode_some by (rewrite ?inr_upd; done); cbn [mbind option_bind]).
  rewrite upd_upd by done. set (a4 := upd x _ a2).
  assert (forall z, inr a z -> N a4 z = if decide (z = x)
    then set_dataSize sz (set_dataOffset off (N a2 x)) else N a2 z) as HN
    by (intros z Hz; unfold a4; by rewrite N_upd by (done || apply Hz)).
  assert (x ∉ F2) as HxF.
  { intros Hin. apply HP2 in Hin as [Hin _]. by destruct (Hmid2 x Hin). }
  assert (Bins a4 bins2 F2) as HB4.
  { eapply Bins_frame; [exact HB2|done..|by apply len_upd|]. intros z Hz.
    assert (inr a z) as Hza by (apply Hi2; by apply (bn_F _ _ _ HB2)).
    rewrite HN, decide_False by (done || by intros ->). done. }
  assert (Links a4 (l1 ++ x :: l2)) as HL4.
  { eapply (Links_frame a2); [done|done|done|apply len_upd|]. intros z Hz.
    assert (inr a z) as Hza by (apply Hi2; by apply (chain_inr HL2)).
    unfold nprev, nnext. rewrite HN by done. case_decide; subst; done. }
  assert (len (nodes a4) = len (nodes a)) as Hlen4 by (unfold a4; rewrite len_upd; apply HM).
  destruct (insertExisting_spec a4 bins2 F2 x) as (a5 & -> & HB5 & HK & Hu5);
    [done|unfold inr; rewrite Hlen4; apply Hx|done|by rewrite HN, decide_True|].
  assert (forall z, inr a z -> z <> x -> same_data (N a z) (N a5 z)) as Hold.
  { intros z Hz Hzx. assert (inr a4 z) as Hz4 by (unfold inr; by rewrite Hlen4).
    pose proof (keeps_fields _ _ z HK Hz4) as (E1 & E2 & _ & _ & E3). pose proof (Hu5 z Hz4) as E4.
    rewrite HN, !decide_False in * by done. destruct (mg_data _ _ HM z Hz) as (? & ? & ? & ?).
    unfold same_data. split_and!; congruence. }
  assert (inr a4 x) as Hx4 by (unfold inr; rewrite Hlen4; apply Hx).
  pose proof (keeps_fields _ _ x HK Hx4) as (X1 & X2 & _ & _ & X3). pose proof (Hu5 x Hx4) as X4.
  rewrite HN, decide_True in X1, X2, X3 by done. rewrite decide_True in X4 by done.
  cbn in X1, X2, X3. destruct (mg_data _ _ HM x Hx) as (_ & _ & X5 & _). rewrite X5 in X3.
  assert (len (nodes a5) = len (nodes a)) as Hlen5 by (rewrite (kp_len _ _ HK); done).
  assert (size a5 = size a) as Hsize by (rewrite (kp_size _ _ HK); apply HM).
  assert (forall z, z ∈ l1 ++ l2 -> used (N a5 z) = used (N a z)) as Hused.
  { intros z Hz. destruct (Hmid2 z Hz) as [Hzi Hzx]. apply Hi2 in Hzi. by apply Hold. }
  eexists a5, (l1 ++ x :: l2), _, (x :: F2). split; [done|].
  split; [split; [exact HB5|by apply (Links_keeps a4)|..]|].
  - rewrite Hsize. eapply (tiles_merge a a5 l1 P x Q l2 (size a) off sz); try done; [apply HI|].
    intros z Hz. destruct (Hmid2 z Hz) as [Hzi Hzx]. apply Hi2 in Hzi.
    by destruct (Hold z Hzi Hzx) as (? & ? & _).
  - rewrite Hsize. apply HI.
  - intros z. rewrite elem_of_cons, (HP2 z). split.
    + intros [->|[Hz Hzu]]; [split; [clear; set_solver|done]|]. split; [clear -Hz; set_solver|].
      rewrite Hused by done. destruct (Hmid2 z Hz) as [Hzi _]. apply Hi2 in Hzi.
      destruct (mg_data _ _ HM z Hzi) as (_ & _ & _ & E). congruence.
    + intros [Hz Hzu]. destruct (decide (z = x)) as [->|Hzx]; [by left|right].
      assert (z ∈ l1 ++ l2) as Hzl by (clear -Hz Hzx; set_solver). split; [done|].
      rewrite Hused in Hzu by done. destruct (Hmid2 z Hzl) as [Hzi _]. apply Hi2 in Hzi.
      destruct (mg_data _ _ HM z Hzi) as (_ & _ & _ & E). congruence.
  - apply coalesced_app. split.
    + apply coalesced_snoc.
      * eapply coalesced_ext; [|exact Hc1]. intros z Hz. apply Hused. clear -Hz. set_solver.
      * intros w Hw. rewrite Hused; [by apply Hlast|]. apply last_Some in Hw as [? ->]. clear. set_solver.
    + destruct l2 as [|w l2]; [done|]. split.
      * rewrite X4, Hused by (clear; set_solver). by apply Hhd.
      * eapply coalesced_ext; [|exact Hc2]. intros z Hz. apply Hused. clear -Hz. set_solver.
  - intros z Hz. assert (inr a z) as Hza by (unfold inr in *; by rewrite Hlen5 in Hz).
    destruct (decide (z = x)) as [->|Hzx]; [rewrite X3; by apply HI|].
    destruct (Hold z Hza Hzx) as (_ & _ & -> & _). by apply HI.
  - intros z Hz Hzc. assert (inr a z) as Hza by (unfold inr in *; by rewrite Hlen5 in Hz).
    assert (z <> x) as Hzx by (intros ->; clear -Hzc; set_solver).
    destruct (Hold z Hza Hzx) as (_ & _ & _ & ->).
    destruct (decide (z ∈ P ++ Q)) as [Hpq|Hpq]; [by apply HPQ|].
    apply (iv_idle _ _ _ _ HI); [done|]. clear -Hzc Hpq. set_solver.
  - rewrite Hlen5, (kp_max _ _ HK). change (maxAllocs a4) with (maxAllocs a2).
    rewrite (mg_max _ _ HM). apply HI.
  - split; try done.
    + intros z Hz Hzx _. by apply Hold.
    + intros z Hz Hzx Hzu. by destruct (Hold z Hz Hzx) as (_ & _ & _ & ->).
    + intros z Hz. destruct (decide (z = x)) as [->|Hzx]; [done|]. by apply Hold.
Qed.

Lemma free_grant a ch bins F x al :
  Inv a ch bins F -> inr a x -> used (N a x) = true ->
  Meta al <> unusedIndex -> Z.land (Meta al) metaSlotMask = x ->
  Meta al >>| metaSlotBits = gen (N a x) ->
  exists a' ch' bins' F', Free a al = Some a' /\ Inv a' ch' bins' F' /\ released a a' x.
Proof.
  intros HI Hx Hxu Hmeta Hidx Hgen. pose proof (iv_links _ _ _ _ HI) as HL.
  assert (x ∈ ch) as Hxc.
  { destruct (decide (x ∈ ch)); [done|]. by rewrite (iv_idle _ _ _ _ HI) in Hxu. }
  apply list_elem_of_split in Hxc as (l1 & l2 & Hch).
  pose proof (iv_tiles _ _ _ _ HI) as Htl. pose proof (iv_coal _ _ _ _ HI) as Hc.
  pose proof (iv_size _ _ _ _ HI) as Hcap. rewrite Hch in HL, Htl, Hc.
  destruct (chain_mid HL) as (_ & _ & Hmid).
  assert (parked a (l1 ++ l2) F) as HP.
  { intros z. rewrite (iv_F _ _ _ _ HI), Hch. split.
    - intros [Hz Hzu]. split; [|done]. assert (z <> x) by congruence. clear -Hz H. set_solver.
    - intros [Hz Hzu]. split; [|done]. clear -Hz. set_solver. }
  assert (forall z, z ∈ l1 ++ x :: l2 -> 0 < dataSize (N a z)) as Hpos
    by (intros z Hz; apply (tiles_mem _ _ _ _ _ Htl Hz)).
  assert (dataSize (N a x) + sumsz a l1 + sumsz a l2 = size a) as Hsum.
  { pose proof (tiles_sum _ _ _ _ Htl) as Hs.
    rewrite (sumsz_perm a _ (x :: l1 ++ l2)) in Hs by (symmetry; apply Permutation_middle).
    cbn [sumsz] in Hs. rewrite sumsz_app in Hs. lia. }
  pose proof (Hpos x) as Hx0. assert (0 < dataSize (N a x)) by (apply Hx0; clear; set_solver).
  assert (0 <= sumsz a l1 /\ 0 <= sumsz a l2) as [Hs1 Hs2]
    by (split; apply sumsz_nonneg; intros; apply Hpos; set_solver).
  unfold Free. replace (_ =? unusedIndex) with false by lia. rewrite Hidx, Hgen.
  replace (u32 (len (nodes a))) with (len (nodes a)).
  2:{ pose proof (lk_cap _ _ HL). pose proof (len_nonneg (nodes a)).
      unfold u32. rewrite Z.mod_small by lia. done. }
  replace (_ <=? x) with false by (unfold inr in Hx; lia).
  rewrite index_N by done. cbn [mbind option_bind]. rewrite Hxu, Z.eqb_refl. cbn [negb orb].
  destruct (mergePrev_spec a l1 x l2 bins F (dataOffset (N a x)) (dataSize (N a x)))
    as (a1 & l1' & P & bins1 & F1 & Hl1 & -> & HB1 & HL1 & HP1 & HM1 & Hc1 & Hlast & HPu & HP1len);
    [apply HI|done|done|by apply coalesced_app_l in Hc|lia|lia|intros; apply Hpos; set_solver|].
  cbn [mbind option_bind].
  assert (forall z, z ∈ l1 ++ x :: l2 -> inr a z) as Hin by (apply (chain_inr HL)).
  assert (forall l, (forall z, z ∈ l -> z ∈ l1 ++ x :: l2) -> sumsz a1 l = sumsz a l) as Hse.
  { intros l Hl. apply sumsz_ext. intros z Hz. apply (mg_data _ _ HM1). by apply Hin, Hl. }
  assert (coalesced a l2) as Hcl2.
  { apply coalesced_app_r in Hc. by apply coalesced_tail in Hc. }
  assert (0 <= sumsz a P <= sumsz a l1) as HPs.
  { assert (0 <= sumsz a l1') by (apply sumsz_nonneg; intros z Hz; apply Hpos; rewrite Hl1; clear -Hz; set_solver).
    assert (0 <= sumsz a P) by (apply sumsz_nonneg; intros z Hz; apply Hpos; rewrite Hl1; clear -Hz; set_solver).
    rewrite Hl1, sumsz_app. lia. }
  destruct (mergeNext_spec a1 l1' x l2 bins1 F1 (dataSize (N a x) + sumsz a P))
    as (a2 & l2' & Q & bins2 & F2 & Hl2 & -> & HB2 & HL2 & HP2 & HM2 & Hc2 & Hhd & HQu & HQlen);
    [done|done|done| |lia| | |].
  { eapply coalesced_ext; [|exact Hcl2]. intros z Hz. apply (mg_data _ _ HM1), Hin. clear -Hz. set_solver. }
  { rewrite Hse by (clear; set_solver). lia. }
  { intros z Hz. destruct (mg_data _ _ HM1 z) as (_ & -> & _); [apply Hin; clear -Hz; set_solver|].
    apply Hpos. clear -Hz. set_solver. }
  cbn [mbind option_bind].
  assert (forall z, z ∈ l2 -> used (N a1 z) = used (N a z)) as Hu1.
  { intros z Hz. apply (mg_data _ _ HM1), Hin. clear -Hz. set_solver. }
  assert (sumsz a1 Q = sumsz a Q) as HQs by (apply Hse; rewrite Hl2; clear; set_solver).
  rewrite HQs. subst l1 l2 ch.
  apply (free_finish a l1' P x Q l2' bins F a2 bins2 F2); try done.
  - by apply (merged_trans a a1).
  - eapply coalesced_ext; [|exact Hc2]. intros z Hz. symmetry. apply Hu1. clear -Hz. set_solver.
  - intros w Hw. rewrite <- Hu1; [by apply Hhd|]. destruct l2'; [done|]. injection Hw as ->. clear. set_solver.
  - intros z Hz. apply elem_of_app in Hz as [Hz|Hz]; [by apply HPu|].
    rewrite <- Hu1 by (clear -Hz; set_solver). by apply HQu.
  - assert (0 <= sumsz a Q) by (apply sumsz_nonneg; intros z Hz; apply Hpos; clear -Hz; set_solver).
    assert (0 <= sumsz a l2') by (apply sumsz_nonneg; intros z Hz; apply Hpos; clear -Hz; set_solver).
    rewrite (sumsz_app a Q l2') in *. lia.
Qed.

End AllocInv.
