(* ===== verification/AllocSpec.v ===== *)
(** What the DRAM allocator promises: the abstract view of [OffsetAlloc] as a
    map from handles to address ranges, the refinement theorems for its
    constructor, [Alloc] and [Free], exactness of the storage report, and the
    two places where the handle scheme does not do what its comments say. *)

From Stdlib Require Import ZArith Lia.
From stdpp Require Import base numbers list gmap sets.
From S2P Require Import Prelude.
From S2P Require Import SmallFloat.
From S2P Require Import Dll.
From S2P Require Import OffsetAlloc.
From S2P Require Import AllocBins.
From S2P Require Import AllocInv.
Import SmallFloat Dll OffsetAlloc AllocBins AllocInv.
Open Scope Z_scope.
Open Scope go_scope.

Module AllocSpec.

(** Well-formed allocators: some neighbour list, bins and free set satisfy the
    invariant. *)
Definition wf (a : Allocator) : Prop := exists ch bins F, Inv a ch bins F.

(** ** The abstract state *)

(** The handle of slot [x]. *)
Definition handle (a : Allocator) (x : Z) : Z :=
  Z.lor (u32 (gen (N a x) <<| metaSlotBits)) x.

(** Live handles and the ranges they stand for. *)
Definition live (a : Allocator) : gmap Z (Z * Z) :=
  list_to_map ((fun x => (handle a x, (dataOffset (N a x), dataSize (N a x)))) <$>
               filter (fun x => used (N a x) = true) (seqZ 0 (len (nodes a)))).

(** Two address ranges do not meet. *)
Definition disjoint_range (r s : Z * Z) : Prop :=
  r.1 + r.2 <= s.1 \/ s.1 + s.2 <= r.1.

Lemma handle_eq a x : inr a x -> len (nodes a) <= 2 ^ 18 -> fits 14 (gen (N a x)) ->
  handle a x = gen (N a x) * 2 ^ 18 + x /\ fits 32 (handle a x).
Proof.
  intros Hx Hcap Hg. unfold handle, metaSlotBits, inr, fits in *.
  assert (u32 (gen (N a x) <<| 18) = gen (N a x) <<| 18) as ->.
  { unfold u32. rewrite Z.shiftl_mul_pow2 by lia. apply Z.mod_small. lia. }
  rewrite lor_shiftl_add by (unfold fits; lia). lia.
Qed.

(** A handle gives back its slot and its generation. *)
Lemma handle_decode a x : inr a x -> len (nodes a) <= 2 ^ 18 -> fits 14 (gen (N a x)) ->
  Z.land (handle a x) metaSlotMask = x /\ handle a x >>| metaSlotBits = gen (N a x).
Proof.
  intros Hx Hcap Hg. destruct (handle_eq a x Hx Hcap Hg) as [-> _].
  change metaSlotMask with (Z.ones 18). unfold metaSlotBits. unfold inr, fits in *.
  rewrite Z.land_ones, Z.shiftr_div_pow2 by lia. split.
  - symmetry. apply Z.mod_unique_pos with (gen (N a x)); lia.
  - symmetry. apply Z.div_unique with x; lia.
Qed.

Section Live.
Context {a : Allocator} (Hwf : wf a).

Lemma wf_cap : len (nodes a) <= 2 ^ 18.
Proof using Hwf. destruct Hwf as (ch & bins & F & HI). apply (iv_bins _ _ _ _ HI). Qed.

Lemma wf_gen x : inr a x -> fits 14 (gen (N a x)).
Proof using Hwf. destruct Hwf as (ch & bins & F & HI). apply HI. Qed.

Lemma handle_inj x y : inr a x -> inr a y -> handle a x = handle a y -> x = y.
Proof using Hwf.
  intros Hx Hy E. pose proof wf_cap as Hcap.
  destruct (handle_decode a x Hx Hcap (wf_gen x Hx)) as [E1 _].
  destruct (handle_decode a y Hy Hcap (wf_gen y Hy)) as [E2 _]. congruence.
Qed.

Lemma live_lookup m r :
  live a !! m = Some r <->
  exists x, inr a x /\ used (N a x) = true /\ handle a x = m /\
    r = (dataOffset (N a x), dataSize (N a x)).
Proof using Hwf.
  unfold live. rewrite <- elem_of_list_to_map.
  - rewrite list_elem_of_fmap. setoid_rewrite list_elem_of_filter. setoid_rewrite elem_of_seqZ.
    unfold inr. split.
    + intros (x & [= -> ->] & Hu & ? & ?). exists x. split_and!; try done; lia.
    + intros (x & Hx & Hu & <- & ->). exists x. split_and!; try done; lia.
  - rewrite <- list_fmap_compose. apply NoDup_fmap_2_strong.
    + intros x y Hx Hy E. apply list_elem_of_filter in Hx as [_ Hx], Hy as [_ Hy].
      apply elem_of_seqZ in Hx, Hy. apply handle_inj; [unfold inr; lia..|done].
    + apply NoDup_filter, NoDup_seqZ.
Qed.

Lemma live_none m :
  live a !! m = None <-> forall x, inr a x -> used (N a x) = true -> handle a x <> m.
Proof using Hwf.
  split.
  - intros Hn x Hx Hu E. assert (live a !! m = Some (dataOffset (N a x), dataSize (N a x))) as Hs.
    { apply live_lookup. eauto. } congruence.
  - intros Hall. destruct (live a !! m) as [r|] eqn:E; [|done].
    apply live_lookup in E as (x & Hx & Hu & Hm & _). by destruct (Hall x Hx Hu).
Qed.

(** Live ranges lie in the arena and never meet. *)
Lemma live_ranges :
  (forall m r, live a !! m = Some r -> 0 <= r.1 /\ 0 < r.2 /\ r.1 + r.2 <= size a) /\
  (forall m r m' r', live a !! m = Some r -> live a !! m' = Some r' -> m <> m' ->
     disjoint_range r r').
Proof using Hwf.
  destruct Hwf as (ch & bins & F & HI).
  assert (forall x, inr a x -> used (N a x) = true -> x ∈ ch) as Hch.
  { intros x Hx Hu. destruct (decide (x ∈ ch)); [done|]. by rewrite (iv_idle _ _ _ _ HI) in Hu. }
  split.
  - intros m r (x & Hx & Hu & _ & ->)%live_lookup. cbn.
    destruct (tiles_mem _ _ _ _ x (iv_tiles _ _ _ _ HI) (Hch x Hx Hu)). lia.
  - intros m r m' r' (x & Hx & Hu & Hm & ->)%live_lookup (y & Hy & Hu' & Hm' & ->)%live_lookup Hne.
    pose proof (Hch x Hx Hu) as Hxc. apply list_elem_of_split in Hxc as (l1 & l2 & E).
    pose proof (iv_tiles _ _ _ _ HI) as Ht. rewrite E in Ht.
    assert (y <> x) as Hyx by (intros ->; congruence).
    pose proof (Hch y Hy Hu') as Hyc. rewrite E in Hyc.
    destruct (tiles_disjoint _ _ _ _ _ y _ Ht) as [|]; [clear -Hyc Hyx; set_solver|right; cbn; lia|left; cbn; lia].
Qed.

End Live.

(** ** Construction *)

Definition freshStack (pool : Z) : list Z :=
  (fun i : nat => pool - Z.of_nat i - 1) <$> seq 0 (Z.to_nat pool).

Definition blank (sz maxA : Z) : Allocator :=
  mkAllocator sz maxA 0 0 (replicate (Z.to_nat numTopBins) 0)
    (replicate (Z.to_nat numLeafBins) unusedIndex)
    (replicate (Z.to_nat (2 * maxA)) emptyNode) (freshStack (2 * maxA)) (2 * maxA).

Lemma index_replicate {A} n (x : A) i : 0 <= i < Z.of_nat n -> index (replicate n x) i = Some x.
Proof.
  intros. unfold index. replace (0 <=? i) with true by lia. apply lookup_replicate. split; [done|lia].
Qed.

Lemma freshStack_perm pool : 0 <= pool -> freshStack pool ≡ₚ seqZ 0 pool.
Proof.
  intros Hp. apply NoDup_Permutation.
  - unfold freshStack. apply NoDup_fmap_2; [|apply NoDup_seq]. intros i j. lia.
  - apply NoDup_seqZ.
  - intros x. unfold freshStack. rewrite list_elem_of_fmap, elem_of_seqZ. setoid_rewrite elem_of_seq. split.
    + intros (i & -> & ?). lia.
    + intros Hx. exists (Z.to_nat (pool - x - 1)). lia.
Qed.

Section Blank.
Context (sz maxA : Z) (Hmax : 0 < maxA) (Hcap : 2 * maxA <= 2 ^ 18).

Let a := blank sz maxA.

Lemma blank_len : len (nodes a) = 2 * maxA.
Proof using Hmax. unfold a, blank. cbn [nodes]. rewrite len_replicate. lia. Qed.

Lemma blank_N x : inr a x -> N a x = emptyNode.
Proof using Hmax.
  intros Hx. unfold inr in Hx. rewrite blank_len in Hx.
  pose proof (index_N a x) as E. unfold inr in E. rewrite blank_len in E. specialize (E Hx).
  change (nodes a) with (replicate (Z.to_nat (2 * maxA)) emptyNode) in E.
  rewrite index_replicate in E by lia. by injection E as <-.
Qed.

Lemma blank_bins : Bins a (fun _ => []) [].
Proof using Hmax Hcap.
  split; try done.
  - by rewrite blank_len.
  - intros b Hb. cbn [binIndices a blank].
    rewrite index_replicate by (change (Z.of_nat _) with 256; lia). done.
  - intros b x _. split; [by intros ?%elem_of_nil|by intros [?%elem_of_nil _]].
  - constructor.
  - constructor.
  - by intros x ?%elem_of_nil.
  - split; [done|by split|]. intros t Ht. exists 0. cbn [usedBins a blank].
    rewrite index_replicate by (change (Z.of_nat _) with 32; lia). split_and!; [done|by split|by rewrite Z.bits_0|].
    intros l Hl. by rewrite Z.bits_0.
Qed.

Lemma blank_links : Links a [].
Proof using Hmax Hcap.
  assert (len (freeNodes a) = 2 * maxA) as Hl.
  { cbn [freeNodes a blank]. unfold freshStack. rewrite len_fmap. unfold len. rewrite length_seq. lia. }
  split; rewrite ?blank_len, ?Hl; try done; [cbn [freeOffset a blank]; lia|].
  unfold stack. cbn [freeOffset a blank app]. rewrite take_ge by (unfold len in Hl; lia).
  apply freshStack_perm. lia.
Qed.

Lemma blank_size0 : sz = 0 -> Inv a [] (fun _ => []) [].
Proof using Hmax Hcap.
  intros Hz. split; try done.
  - apply blank_bins.
  - apply blank_links.
  - cbn. lia.
  - intros x. split; [by intros ?%elem_of_nil|by intros [?%elem_of_nil _]].
  - intros x Hx. rewrite blank_N by done. by split.
  - intros x Hx _. by rewrite blank_N.
  - apply blank_len.
Qed.

Lemma insertNode_blank : 0 < sz < 2 ^ 32 ->
  exists a' x, insertNodeIntoBin a sz 0 = Some a' /\ wf a' /\ size a' = sz /\
    maxAllocs a' = maxA /\ freeStorage a' = sz /\
    (forall y, inr a' y -> used (N a' y) = false) /\ tiles a' 0 [x] sz.
Proof using Hmax Hcap.
  intros Hsz. pose proof blank_links as HL.
  destruct (popNode_spec a [] HL) as (x & Hpop & Hx & _ & Hst); [cbn [freeOffset a blank]; lia|].
  unfold insertNodeIntoBin. rewrite Hpop. cbn [mbind option_bind].
  rewrite putNode_some by done. cbn [mbind option_bind]. set (nn := mkNode _ _ _ _ _ _ _ _).
  set (a1 := upd x _ _).
  assert (forall y, inr a y -> N a1 y = if decide (y = x) then nn else emptyNode) as HN.
  { intros y Hy. unfold a1. rewrite N_upd by (done || apply Hy). case_decide; [done|].
    by apply blank_N. }
  assert (len (nodes a1) = len (nodes a)) as Hlen by (unfold a1; by rewrite len_upd).
  assert (Bins a1 (fun _ => []) []) as HB1.
  { eapply Bins_frame; [apply blank_bins|done..|]. by intros y ?%elem_of_nil. }
  assert (inr a1 x) as Hx1 by (unfold inr; by rewrite Hlen).
  assert (N a1 x = nn) as HNx by (rewrite HN by done; by rewrite decide_True).
  destruct (insertExisting_spec a1 (fun _ => []) [] x) as (a2 & -> & HB2 & HK & Hu);
    [done|done|apply not_elem_of_nil|by rewrite HNx|].
  pose proof (keeps_fields _ _ x HK Hx1) as (E1 & E2 & E3 & E4 & E5). rewrite HNx in *. cbn in E1, E2, E3, E4, E5.
  assert (forall y, inr a2 y -> inr a y) as Hi by (intros y; unfold inr; by rewrite (kp_len _ _ HK), Hlen).
  assert (forall y, inr a2 y -> used (N a2 y) = false /\ gen (N a2 y) = 0) as Hug.
  { intros y Hy. apply Hi in Hy. assert (inr a1 y) as Hy1 by (unfold inr in *; by rewrite Hlen).
    pose proof (keeps_fields _ _ y HK Hy1) as (_ & _ & _ & _ & ->). rewrite Hu, HN by done.
    by case_decide. }
  assert (size a2 = sz /\ maxAllocs a2 = maxA) as [Hs2 Hm2] by (by rewrite (kp_size _ _ HK), (kp_max _ _ HK)).
  assert (tiles a2 0 [x] sz) as Ht by (cbn; lia).
  exists a2, x. split_and!; try done.
  - eexists [x], _, [x]. split; [exact HB2|..]; try done.
    + split; rewrite ?(kp_len _ _ HK), ?(kp_fn _ _ HK), ?(kp_fo _ _ HK), ?Hlen; try apply HL.
      * split_and!; done.
      * cbn [freeOffset freeNodes a1 upd set_nodes set_freeOffset a blank].
        destruct (lk_fo _ _ HL) as [_ Hf]. cbn [freeOffset freeNodes a blank] in Hf. lia.
      * unfold stack. rewrite (kp_fn _ _ HK), (kp_fo _ _ HK), <- (lk_pool _ _ HL), Hst.
        apply Permutation_cons_append.
    + by rewrite Hs2.
    + lia.
    + intros y. rewrite list_elem_of_singleton. split; [|tauto]. intros ->. split; [done|].
      apply Hug. unfold inr. by rewrite (kp_len _ _ HK).
    + intros y Hy. destruct (Hug y Hy) as [_ ->]. by split.
    + intros y Hy _. by apply Hug.
    + rewrite (kp_len _ _ HK), Hlen, Hm2. apply blank_len.
  - rewrite (bn_sum _ _ _ HB2). cbn. rewrite E2. unfold u32. rewrite Z.mod_small by lia. lia.
  - intros y Hy. by apply Hug.
Qed.

End Blank.

Lemma newAllocator_blank sz maxA :
  0 < maxA -> 2 * maxA <= 2 ^ 18 ->
  newAllocator sz maxA =
  if 0 <? sz then insertNodeIntoBin (blank sz maxA) sz 0 else Some (blank sz maxA).
Proof.
  intros Hm Hc. unfold newAllocator, reset. cbn [maxAllocs size].
  replace (u32 (maxA * 2)) with (2 * maxA) by (unfold u32; rewrite Z.mod_small by lia; lia). done.
Qed.

(** ** The operations on the abstract state *)

Lemma granted_live a a' x n :
  wf a -> wf a' -> granted a a' x n ->
  live a !! handle a' x = None /\
  live a' = <[handle a' x := (dataOffset (N a' x), n)]> (live a).
Proof.
  intros Hwf Hwf' Hg. pose proof (gr_inr _ _ _ _ Hg) as Hx.
  assert (forall z, inr a' z <-> inr a z) as Hi by (intros; unfold inr; by rewrite (gr_len _ _ _ _ Hg)).
  assert (forall z, inr a z -> used (N a z) = true -> z <> x) as Hne
    by (intros z Hz Hu ->; pose proof (gr_free _ _ _ _ Hg); congruence).
  assert (forall z, inr a z -> used (N a z) = true -> handle a' z = handle a z) as Hh.
  { intros z Hz Hu. destruct (gr_live _ _ _ _ Hg z Hz (Hne z Hz Hu) Hu) as (_ & _ & E & _).
    unfold handle. by rewrite E. }
  split.
  - apply (live_none Hwf). intros z Hz Hu E. rewrite <- (Hh z Hz Hu) in E.
    apply (handle_inj Hwf') in E; [by apply (Hne z)|by apply Hi..].
  - apply map_eq. intros m. apply option_eq. intros r. rewrite (live_lookup Hwf'). split.
    + intros (z & Hz & Hu & <- & ->). apply Hi in Hz. destruct (decide (z = x)) as [->|Hzx].
      * rewrite lookup_insert_eq. by rewrite (gr_size _ _ _ _ Hg).
      * destruct (used (N a z)) eqn:Huz; [|by rewrite (gr_rest _ _ _ _ Hg) in Hu].
        rewrite lookup_insert_ne.
        -- apply (live_lookup Hwf). exists z. destruct (gr_live _ _ _ _ Hg z Hz Hzx Huz) as (-> & -> & _).
           rewrite Hh by done. done.
        -- intros E. apply (handle_inj Hwf') in E; [done|by apply Hi..].
    + destruct (decide (m = handle a' x)) as [->|Hm].
      * rewrite lookup_insert_eq. intros [= <-]. exists x.
        split_and!; [by apply Hi|apply Hg|done|by rewrite (gr_size _ _ _ _ Hg)].
      * rewrite lookup_insert_ne by done. intros (z & Hz & Hu & <- & ->)%(live_lookup Hwf).
        exists z. destruct (gr_live _ _ _ _ Hg z Hz (Hne z Hz Hu) Hu) as (-> & -> & _ & ->).
        rewrite Hh by done. split_and!; [by apply Hi|done..].
Qed.

Lemma released_live a a' x :
  wf a -> wf a' -> inr a x -> used (N a x) = true -> released a a' x ->
  live a' = delete (handle a x) (live a).
Proof.
  intros Hwf Hwf' Hx Hxu Hr.
  assert (forall z, inr a' z <-> inr a z) as Hi by (intros; unfold inr; by rewrite (rl_len _ _ _ Hr)).
  assert (forall z, inr a z -> handle a' z = handle a z) as Hh.
  { intros z Hz. unfold handle. by rewrite (rl_gen _ _ _ Hr). }
  apply map_eq. intros m. apply option_eq. intros r. rewrite (live_lookup Hwf'). split.
  - intros (z & Hz & Hu & <- & ->). apply Hi in Hz. rewrite Hh by done.
    assert (z <> x) as Hzx by (intros ->; by rewrite (rl_free _ _ _ Hr) in Hu).
    destruct (used (N a z)) eqn:Huz; [|by rewrite (rl_rest _ _ _ Hr) in Hu].
    rewrite lookup_delete_ne by (intros E; by apply (handle_inj Hwf) in E).
    apply (live_lookup Hwf). exists z. by destruct (rl_live _ _ _ Hr z Hz Hzx Huz) as (-> & -> & _).
  - destruct (decide (m = handle a x)) as [->|Hm]; [by rewrite lookup_delete_eq|].
    rewrite lookup_delete_ne by done. intros (z & Hz & Hu & <- & ->)%(live_lookup Hwf).
    assert (z <> x) as Hzx by (intros ->; done). exists z.
    destruct (rl_live _ _ _ Hr z Hz Hzx Hu) as (-> & -> & _ & ->).
    rewrite Hh by done. split_and!; [by apply Hi|done..].
Qed.

(** *** Accounting *)

Definition live_bytes (a : Allocator) : Z :=
  foldr (fun kv s => kv.2.2 + s) 0 (map_to_list (live a)).

Lemma foldr_sum_perm {K} (l l' : list (K * (Z * Z))) :
  l ≡ₚ l' -> foldr (fun kv s => kv.2.2 + s) 0 l = foldr (fun kv s => kv.2.2 + s) 0 l'.
Proof. induction 1; cbn; lia. Qed.

Lemma live_list a : wf a ->
  map_to_list (live a) ≡ₚ
  (fun x => (handle a x, (dataOffset (N a x), dataSize (N a x)))) <$>
    filter (fun x => used (N a x) = true) (seqZ 0 (len (nodes a))).
Proof.
  intros Hwf. unfold live. apply map_to_list_to_map.
  rewrite <- list_fmap_compose. apply NoDup_fmap_2_strong.
  - intros x y Hx Hy E. apply list_elem_of_filter in Hx as [_ Hx], Hy as [_ Hy].
    apply elem_of_seqZ in Hx, Hy. apply (handle_inj Hwf); [unfold inr; lia..|done].
  - apply NoDup_filter, NoDup_seqZ.
Qed.

(** The chain splits into live and parked slots. *)
Lemma chain_split a ch bins F : Inv a ch bins F ->
  ch ≡ₚ filter (fun x => used (N a x) = true) (seqZ 0 (len (nodes a))) ++ F.
Proof.
  intros HI. pose proof (iv_links _ _ _ _ HI) as HL.
  apply NoDup_Permutation; [apply (chain_nodup HL)| |].
  - apply NoDup_app. split_and!; [apply NoDup_filter, NoDup_seqZ| |apply HI].
    intros x Hx HxF. apply list_elem_of_filter in Hx as [Hu _].
    apply (iv_F _ _ _ _ HI) in HxF as [_ ?]. congruence.
  - intros x. rewrite elem_of_app, list_elem_of_filter, elem_of_seqZ, (iv_F _ _ _ _ HI). split.
    + intros Hx. destruct (used (N a x)) eqn:E; [left|by right]. split; [done|].
      pose proof (chain_inr HL x Hx) as Hi. unfold inr in Hi. lia.
    + intros [[Hu Hx]|[Hx _]]; [|done]. destruct (decide (x ∈ ch)); [done|].
      rewrite (iv_idle _ _ _ _ HI) in Hu; [done|unfold inr; lia|done].
Qed.

Lemma sumsz_live a l :
  foldr (fun kv s => kv.2.2 + s) 0
    ((fun x => (handle a x, (dataOffset (N a x), dataSize (N a x)))) <$> l) = sumsz a l.
Proof. induction l as [|x l IH]; cbn in *; [done|]. by rewrite IH. Qed.

Lemma conservation a ch bins F : Inv a ch bins F ->
  freeStorage a + live_bytes a = size a /\ freeStorage a = sumsz a F.
Proof.
  intros HI. assert (wf a) as Hwf by (by exists ch, bins, F).
  pose proof (tiles_sum _ _ _ _ (iv_tiles _ _ _ _ HI)) as Hs.
  rewrite (sumsz_perm a _ _ (chain_split a ch bins F HI)), sumsz_app in Hs.
  unfold live_bytes. rewrite (foldr_sum_perm _ _ (live_list a Hwf)), sumsz_live.
  rewrite (bn_sum _ _ _ (iv_bins _ _ _ _ HI)).
  pose proof (iv_size _ _ _ _ HI) as Hcap.
  assert (0 <= sumsz a F).
  { apply sumsz_nonneg. intros z Hz. by apply (bn_F _ _ _ (iv_bins _ _ _ _ HI)). }
  assert (0 <= sumsz a (filter (fun x => used (N a x) = true) (seqZ 0 (len (nodes a))))).
  { apply sumsz_nonneg. intros z Hz. apply (tiles_mem _ _ _ _ _ (iv_tiles _ _ _ _ HI)).
    rewrite (chain_split a ch bins F HI). apply elem_of_app. by left. }
  unfold u32. rewrite Z.mod_small by lia. lia.
Qed.

(** Free ranges never outnumber live ones by more than one. *)
Lemma coalesced_count a ch :
  coalesced a ch ->
  (length ch <= 2 * length (filter (fun x => used (N a x) = true) ch) + 1)%nat.
Proof.
  induction ch as [ch IH] using (induction_ltof1 _ (@length Z)). unfold ltof in IH.
  destruct ch as [|x [|y ch]]; [cbn; lia|cbn; lia|]. intros Hc. destruct Hc as [Hxy Hc].
  destruct (used (N a x)) eqn:Ex.
  - rewrite filter_cons_True by done. specialize (IH (y :: ch)). cbn [length] in *.
    apply IH in Hc; lia.
  - cbn in Hxy. rewrite filter_cons_False by congruence. rewrite filter_cons_True by done.
    specialize (IH ch). cbn [length] in *. apply coalesced_tail, IH in Hc; lia.
Qed.

Lemma live_count a ch bins F : Inv a ch bins F ->
  base.size (live a) = length (filter (fun x => used (N a x) = true) ch).
Proof.
  intros HI. assert (wf a) as Hwf by (by exists ch, bins, F).
  pose proof (iv_links _ _ _ _ HI) as HL.
  rewrite <- length_map_to_list, (Permutation_length (live_list a Hwf)), length_fmap.
  apply Permutation_length, NoDup_Permutation;
    [apply NoDup_filter, NoDup_seqZ|apply NoDup_filter, (chain_nodup HL)|].
  intros x. rewrite !list_elem_of_filter, elem_of_seqZ. split; intros [Hu Hx]; (split; [done|]).
  - destruct (decide (x ∈ ch)); [done|].
    rewrite (iv_idle _ _ _ _ HI) in Hu; [done|unfold inr; lia|done].
  - pose proof (chain_inr HL x Hx) as Hi. unfold inr in Hi. lia.
Qed.

(** A concrete allocator for the witnesses. *)
Definition small : Allocator := default (blank 100 4) (newAllocator 100 4).

Lemma small_wf : wf small.
Proof.
  unfold small. rewrite newAllocator_blank by lia. change (0 <? 100) with true. cbn iota.
  destruct (insertNode_blank 100 4) as (a & x & -> & Hwf & _); [lia..|]. done.
Qed.

Definition small1 : Allocator :=
  match Alloc small 10 with Some (a, _, _) => a | None => small end.

Lemma small1_wf : wf small1.
Proof.
  destruct small_wf as (ch & bins & F & HI).
  destruct (alloc_grant small ch bins F 4 4 10 HI) as (a' & x & ch' & bins' & F' & _ & HI' & E);
    [lia|vm_compute; discriminate|vm_compute; reflexivity|].
  unfold small1. rewrite E. by exists ch', bins', F'.
Qed.

(** ** Allocation and release on the abstract state *)

Lemma Alloc_live (a : Allocator) (n : Z) (Hwf : wf a) (Hn : fits 32 n) :
  exists a' al ok, Alloc a n = Some (a', al, ok) /\ wf a' /\
    if ok : bool then
      live a !! Meta al = None /\ live a' = <[Meta al := (Offset al, n)]> (live a) /\
      0 <= Offset al /\ Offset al + n <= size a /\ size a' = size a /\
      (forall m r, live a !! m = Some r -> disjoint_range (Offset al, n) r)
    else a' = a /\ Meta al = unusedIndex /\
      (n = 0 \/ freeOffset a = 0 \/
       forall r, storageReport a = Some r -> LargestFreeRegion r < n).
Proof.
  pose proof Hwf as (ch & bins & F & HI). pose proof (iv_links _ _ _ _ HI) as HL.
  pose proof (lk_fo _ _ HL) as Hfo. unfold fits in Hn.
  destruct (decide (n = 0)) as [->|Hn0].
  { exists a, failedAlloc, false. unfold Alloc. cbn.
    split_and!; try done. by left. }
  destruct (decide (freeOffset a = 0)) as [Hf0|Hf0].
  { exists a, failedAlloc, false. unfold Alloc. replace (n =? 0) with false by lia.
    replace (_ <? 1) with true by lia. split_and!; try done. cbn. auto. }
  destruct (findBin_spec (iv_bins _ _ _ _ HI) n) as (f & Hf & Hspec); [lia|].
  destruct f as [[t l]|].
  - destruct (alloc_grant a ch bins F t l n HI) as (a' & x & ch' & bins' & F' & Hg & HI' & ->); [lia..|done|].
    assert (wf a') as Hwf' by (by eexists _, _, _).
    eexists _, _, true. split; [done|]. split; [done|]. cbn [Meta Offset].
    change (Z.lor _ x) with (handle a' x).
    destruct (granted_live a a' x n Hwf Hwf' Hg) as [Hnone Hlive].
    destruct (live_ranges Hwf') as [Hr Hd].
    assert (live a' !! handle a' x = Some (dataOffset (N a' x), n)) as Hx
      by (rewrite Hlive; apply lookup_insert_eq).
    split_and!; try done.
    + by apply (Hr _ _ Hx).
    + rewrite <- (gr_cap _ _ _ _ Hg). by apply (Hr _ _ Hx).
    + apply Hg.
    + intros m r Hm. assert (handle a' x <> m) as Hne by (intros E; rewrite E in Hnone; congruence).
      apply (Hd _ _ m r Hx); [|done]. rewrite Hlive. by rewrite lookup_insert_ne.
  - exists a, failedAlloc, false. unfold Alloc. replace (n =? 0) with false by lia.
    replace (_ <? 1) with false by lia. rewrite Hf. cbn [mbind option_bind].
    split_and!; try done. right. right. intros r Hr.
    destruct (findBin_iff (iv_bins _ _ _ _ HI) n r) as [Hiff _]; [lia|lia|done|].
    destruct (decide (n <= LargestFreeRegion r)) as [Hle|]; [|lia].
    destruct (Hiff Hle) as [tl E]. congruence.
Qed.

Lemma Free_live (a : Allocator) (al : Allocation) (Hwf : wf a)
    (Hm : fits 32 (Meta al)) (Hne : Meta al <> unusedIndex) :
  exists a', Free a al = Some a' /\ wf a' /\
    match live a !! Meta al with
    | Some r => live a' = delete (Meta al) (live a) /\ size a' = size a /\
                freeStorage a' = freeStorage a + r.2
    | None => a' = a
    end.
Proof.
  pose proof Hwf as (ch & bins & F & HI). destruct (live a !! Meta al) as [r|] eqn:Hl.
  - pose proof (proj1 (live_lookup Hwf _ _) Hl) as (x & Hx & Hu & Hh & Er).
    destruct (handle_decode a x Hx (wf_cap Hwf) (wf_gen Hwf x Hx)) as [E1 E2]. rewrite Hh in E1, E2.
    destruct (free_grant a ch bins F x al HI Hx Hu Hne E1 E2)
      as (a' & ch' & bins' & F' & -> & HI' & Hr).
    assert (wf a') as Hwf' by (by eexists _, _, _).
    pose proof (released_live a a' x Hwf Hwf' Hx Hu Hr) as Hlive. rewrite Hh in Hlive.
    exists a'. split_and!; try done; [apply Hr|].
    destruct (conservation a ch bins F HI) as [Hc _]. destruct (conservation a' ch' bins' F' HI') as [Hc' _].
    rewrite (rl_cap _ _ _ Hr) in Hc'. unfold live_bytes in *. rewrite Hlive in Hc'.
    rewrite <- (foldr_sum_perm _ _ (map_to_list_delete (live a) (Meta al) r Hl)) in Hc. cbn in Hc. lia.
  - exists a. split; [|done]. unfold Free. replace (_ =? unusedIndex) with false by lia.
    set (x := Z.land (Meta al) metaSlotMask). case_if; [done|]. bool_props.
    assert (inr a x) as Hx.
    { pose proof (wf_cap Hwf). unfold u32 in *. pose proof (len_nonneg (nodes a)).
      rewrite Z.mod_small in Hif by lia. unfold inr. split; [|lia].
      apply Z.land_nonneg. right. by vm_compute. }
    rewrite index_N by done. cbn [mbind option_bind].
    destruct (used (N a x)) eqn:Hu; [|done]. cbn [negb orb]. case_if; [done|]. exfalso.
    assert (gen (N a x) = Meta al >>| metaSlotBits) as Eg by lia.
    apply (proj1 (live_none Hwf _) Hl x Hx Hu).
    destruct (handle_eq a x Hx (wf_cap Hwf) (wf_gen Hwf x Hx)) as [-> _]. rewrite Eg.
    unfold x. change metaSlotMask with (Z.ones 18). rewrite Z.land_ones by lia.
    unfold metaSlotBits. rewrite Z.shiftr_div_pow2 by lia.
    pose proof (Z.div_mod (Meta al) (2 ^ 18)). lia.
Qed.

(** A live handle can always be freed; the failure sentinel is the one handle
    whose range stays. *)
Lemma Free_live_total a al r :
  wf a -> live a !! Meta al = Some r ->
  exists a', Free a al = Some a' /\ wf a' /\ size a' = size a /\
    (live a' = delete (Meta al) (live a) \/ live a' = live a).
Proof.
  intros Hwf Hl. destruct (decide (Meta al = unusedIndex)) as [E|Hne].
  - exists a. unfold Free. rewrite E, Z.eqb_refl. auto.
  - destruct (Free_live a al Hwf) as (a' & E & Hwf' & Hm); [|done|].
    + apply (live_lookup Hwf) in Hl as (x & Hx & _ & <- & _).
      by apply (handle_eq a x Hx (wf_cap Hwf) (wf_gen Hwf x Hx)).
    + rewrite Hl in Hm. destruct Hm as (Hd & Hs & _). exists a'. auto.
Qed.

Lemma report_total a : wf a -> is_Some (storageReport a).
Proof.
  intros (ch & bins & F & HI). destruct (decide (0 < freeOffset a)) as [Hp|Hp].
  - destruct (storageReport_spec (iv_bins _ _ _ _ HI) Hp) as (r & -> & _). by eexists.
  - pose proof (lk_fo _ _ (iv_links _ _ _ _ HI)). unfold storageReport.
    replace (freeOffset a =? 0) with true by lia. by eexists.
Qed.

Lemma NewAllocator_live (sz maxA : Z) (Hsz : 0 <= sz < 2 ^ 32) (Hmax : 1 <= maxA < 2 ^ 31) :
  exists a, NewAllocatorMax sz maxA = Some a /\ wf a /\ live a = ∅ /\ size a = sz /\
    freeStorage a = sz /\ MaxAllocs a = Z.min maxA (2 ^ 17).
Proof.
  unfold NewAllocatorMax, metaSlotBits. change (1 <<| (18 - 1)) with (2 ^ 17).
  change (1 <<| 18) with (2 ^ 18). unfold u32. rewrite (Z.mod_small (maxA * 2)) by lia.
  set (m := if 2 ^ 18 <? maxA * 2 then 2 ^ 17 else maxA).
  assert (m = Z.min maxA (2 ^ 17)) as Em by (unfold m; case_if; lia).
  assert (0 < m /\ 2 * m <= 2 ^ 18) as [Hm0 Hm1] by lia.
  rewrite newAllocator_blank by done. rewrite <- Em. case_if; bool_props.
  - destruct (insertNode_blank sz m Hm0 Hm1) as (a & x & -> & Hwf & Hs & Hma & Hfs & Hu & _); [lia|].
    exists a. split_and!; try done. apply map_eq. intros h. rewrite lookup_empty.
    apply (live_none Hwf). intros y Hy Huy. by rewrite Hu in Huy.
  - pose proof (blank_size0 sz m Hm0 Hm1) as HI. specialize (HI ltac:(lia)).
    assert (wf (blank sz m)) as Hwf by (by eexists _, _, _). eexists. split_and!; try done; try (cbn; lia).
    apply map_eq. intros h. rewrite lookup_empty. apply (live_none Hwf). intros y Hy Huy.
    by rewrite (blank_N sz m) in Huy.
Qed.

(** ** The properties *)

(** [NewAllocatorMax] never panics for a node budget below 2^31 and yields
    a well-formed allocator that holds nothing, with all of its capacity free
    and the budget clamped to what a handle can address. *)
Theorem new_allocator_ok (sz maxA : Z) (Hsz : 0 <= sz < 2 ^ 32) (Hmax : 1 <= maxA < 2 ^ 31) :
  exists a, NewAllocatorMax sz maxA = Some a /\ wf a /\ live a = ∅ /\ size a = sz /\
    freeStorage a = sz /\ MaxAllocs a = Z.min maxA (2 ^ 17).
Proof. by apply NewAllocator_live. Qed.

Lemma new_allocator_ok_witness :
  exists a, NewAllocatorMax 100 4 = Some a /\ wf a /\ live a = ∅ /\ size a = 100 /\
    freeStorage a = 100 /\ MaxAllocs a = Z.min 4 (2 ^ 17).
Proof. apply (new_allocator_ok 100 4); lia. Defined.

(** C12: [Alloc] refines insertion into the map of live ranges. On every
    well-formed state it returns without panic; a success adds one new handle
    whose range is exactly [n] units, inside the arena and disjoint from every
    live range, and changes no other handle; a failure changes nothing and
    happens only for [n = 0], an exhausted node pool, or a request above the
    reported largest region. *)
Theorem alloc_refines (a : Allocator) (n : Z) (Hwf : wf a) (Hn : fits 32 n) :
  exists a' al ok, Alloc a n = Some (a', al, ok) /\ wf a' /\
    if ok : bool then
      live a !! Meta al = None /\ live a' = <[Meta al := (Offset al, n)]> (live a) /\
      0 <= Offset al /\ Offset al + n <= size a /\ size a' = size a /\
      (forall m r, live a !! m = Some r -> disjoint_range (Offset al, n) r)
    else a' = a /\ Meta al = unusedIndex /\
      (n = 0 \/ freeOffset a = 0 \/
       forall r, storageReport a = Some r -> LargestFreeRegion r < n).
Proof. by apply Alloc_live. Qed.

Lemma alloc_refines_witness :
  exists a' al ok, Alloc small 10 = Some (a', al, ok) /\ wf a' /\
    if ok : bool then
      live small !! Meta al = None /\ live a' = <[Meta al := (Offset al, 10)]> (live small) /\
      0 <= Offset al /\ Offset al + 10 <= size small /\ size a' = size small /\
      (forall m r, live small !! m = Some r -> disjoint_range (Offset al, 10) r)
    else a' = small /\ Meta al = unusedIndex /\
      (10 = 0 \/ freeOffset small = 0 \/
       forall r, storageReport small = Some r -> LargestFreeRegion r < 10).
Proof. apply (alloc_refines small 10 small_wf). by split. Defined.



(** the storage report is exact: while a node is left on the stack, a
    request of [n] units succeeds if and only if [n] is at most the reported
    largest free region. *)
Theorem report_exact (a : Allocator) (n : Z) (Hwf : wf a) (Hn : 0 < n < 2 ^ 32)
    (Hpool : 0 < freeOffset a) :
  exists r, storageReport a = Some r /\ TotalFreeSpace r = freeStorage a /\
    (n <= LargestFreeRegion r <-> exists a' al, Alloc a n = Some (a', al, true)).
Proof.
  destruct Hwf as (ch & bins & F & HI). pose proof (iv_bins _ _ _ _ HI) as HB.
  destruct (storageReport_spec HB Hpool) as (r & Hr & Hrt & _).
  exists r. split_and!; [done|done|]. rewrite (findBin_iff HB n r Hn Hpool Hr). split.
  - intros [[t l] Hf].
    destruct (alloc_grant a ch bins F t l n HI) as (a' & x & ? & ? & ? & _ & _ & E); [lia|lia|done|].
    eauto.
  - intros (a' & al & HA). unfold Alloc in HA. replace (n =? 0) with false in HA by lia.
    replace (_ <? 1) with false in HA by lia.
    destruct (findBin_spec HB n Hn) as (f & Hf & _). rewrite Hf in HA |- *.
    destruct f as [tl|]; [by exists tl|done].
Qed.

Lemma report_exact_witness :
  exists r, storageReport small = Some r /\ TotalFreeSpace r = freeStorage small /\
    (97 <= LargestFreeRegion r <-> exists a' al, Alloc small 97 = Some (a', al, true)).
Proof. apply (report_exact small 97 small_wf); [lia|vm_compute; reflexivity]. Defined.

(** no unit is lost and freed space coalesces: free storage and live
    ranges add up to the capacity, and once nothing is live the whole arena is
    one free range again. *)
Theorem storage_conserved (a : Allocator) (Hwf : wf a) :
  freeStorage a + live_bytes a = size a /\
  (live a = ∅ -> 0 < size a ->
   exists x, inr a x /\ used (N a x) = false /\ dataOffset (N a x) = 0 /\
     dataSize (N a x) = size a).
Proof.
  pose proof Hwf as (ch & bins & F & HI). split; [by apply (conservation a ch bins F)|].
  intros He Hs. pose proof (live_count a ch bins F HI) as Hc.
  rewrite He, map_size_empty in Hc. pose proof (coalesced_count a ch (iv_coal _ _ _ _ HI)) as Hl.
  pose proof (iv_tiles _ _ _ _ HI) as Ht.
  destruct ch as [|x [|y ch]]; [cbn in Ht; lia| |cbn [length] in Hl; lia].
  destruct Ht as (Ho & _ & Ht). cbn in Ht. exists x. rewrite Ho. split_and!; [| |done|lia].
  - apply (chain_inr (iv_links _ _ _ _ HI)). by left.
  - destruct (used (N a x)) eqn:E; [|done]. rewrite filter_cons_True in Hc by done. cbn in Hc. lia.
Qed.

Lemma storage_conserved_witness :
  freeStorage small + live_bytes small = size small /\
  (live small = ∅ -> 0 < size small ->
   exists x, inr small x /\ used (N small x) = false /\ dataOffset (N small x) = 0 /\
     dataSize (N small x) = size small).
Proof. apply (storage_conserved small small_wf). Defined.

(** the node pool is never the binding constraint: as long as fewer than
    [MaxAllocs] ranges are live, a node is left on the stack. *)
Theorem pool_suffices (a : Allocator) (Hwf : wf a)
    (Hlive : Z.of_nat (base.size (live a)) < MaxAllocs a) : 0 < freeOffset a.
Proof.
  destruct Hwf as (ch & bins & F & HI). pose proof (iv_links _ _ _ _ HI) as HL.
  rewrite (live_count a ch bins F HI) in Hlive.
  pose proof (coalesced_count a ch (iv_coal _ _ _ _ HI)) as Hc.
  pose proof (lk_pool _ _ HL) as Hp. apply Permutation_length in Hp.
  rewrite length_app, length_seqZ in Hp. unfold stack in Hp. rewrite length_take in Hp.
  pose proof (lk_fo _ _ HL). pose proof (lk_fn _ _ HL). pose proof (iv_max _ _ _ _ HI).
  unfold MaxAllocs, len in *. lia.
Qed.

Lemma pool_suffices_witness : 0 < freeOffset small1.
Proof. apply (pool_suffices small1 small1_wf). vm_compute. reflexivity. Defined.

(** ** Handle reuse *)

(** Three ranges are allocated and the first two freed, each exactly once; two
    more allocations follow. *)
Definition reuse_trace : option (Allocator * Allocation * Allocation) :=
  a ← newAllocator 100 4;
  '(a, x, _) ← Alloc a 10;
  '(a, y, _) ← Alloc a 10;
  '(a, z, _) ← Alloc a 10;
  a ← Free a x;
  a ← Free a y;
  '(a, c, _) ← Alloc a 10;
  '(a, d, _) ← Alloc a 10;
  Some (a, x, d).

(** The stale [x] is freed again and one more range allocated. *)
Definition reuse_check (o : option (Allocator * Allocation * Allocation)) : bool :=
  match o with
  | Some (a, x, d) =>
      match Free a x with
      | Some a' =>
          match Alloc a' 10 with
          | Some (_, e, true) =>
              (Meta x =? Meta d) && negb (Offset x =? Offset d) &&
              bool_decide (live a !! Meta d = Some (Offset d, 10)) &&
              bool_decide (live a' !! Meta d = None) && (Offset e =? Offset d)
          | _ => false
          end
      | None => false
      end
  | None => false
  end.

Lemma reuse_check_true : reuse_check reuse_trace = true.
Proof. vm_compute. reflexivity. Qed.

Lemma reuse_check_spec o : reuse_check o = true ->
  exists a x d a' a'' e,
    o = Some (a, x, d) /\ Meta x = Meta d /\ Offset x <> Offset d /\
    live a !! Meta d = Some (Offset d, 10) /\
    Free a x = Some a' /\ live a' !! Meta d = None /\
    Alloc a' 10 = Some (a'', e, true) /\ Offset e = Offset d.
Proof.
  unfold reuse_check. intros H. destruct o as [[[a x] d]|]; [|discriminate].
  destruct (Free a x) as [a'|] eqn:E1; [|discriminate].
  destruct (Alloc a' 10) as [[[a'' e] [|]]|] eqn:E2; [|discriminate..].
  exists a, x, d, a', a'', e. apply andb_true_iff in H as [H H5]. apply andb_true_iff in H as [H H4].
  apply andb_true_iff in H as [H H3]. apply andb_true_iff in H as [H1 H2].
  apply bool_decide_eq_true in H3, H4.
  split_and!; [reflexivity|lia|lia|exact H3|exact E1|exact H4|exact E2|lia].
Qed.

(** C40: the generation check does not stop a stale handle. [Free] pushes the
    slot of an absorbed neighbour back on the stack and the split in [Alloc]
    resets that slot's generation to zero, so after seven ordinary calls the
    handle freed first is equal to the handle of a live range at another
    offset; freeing the stale handle a second time frees that live range, and
    the next [Alloc] hands its units out again. *)
Theorem stale_handle_frees_live_range :
  exists a x d a' a'' e,
    reuse_trace = Some (a, x, d) /\ Meta x = Meta d /\ Offset x <> Offset d /\
    live a !! Meta d = Some (Offset d, 10) /\
    Free a x = Some a' /\ live a' !! Meta d = None /\
    Alloc a' 10 = Some (a'', e, true) /\ Offset e = Offset d.
Proof.
  apply reuse_check_spec. exact reuse_check_true.
Qed.

(** The handle of the last slot of a full-size pool in its last generation is
    the failure sentinel, which [Free] ignores: that range is never reclaimed. *)
Lemma sentinel_handle_leaks a al :
  inr a (2 ^ 18 - 1) -> gen (N a (2 ^ 18 - 1)) = 2 ^ 14 - 1 -> Meta al = handle a (2 ^ 18 - 1) ->
  Free a al = Some a.
Proof.
  intros Hx Hg Hm. assert (Meta al = unusedIndex) as E.
  { rewrite Hm. unfold handle. rewrite Hg. vm_compute. reflexivity. }
  unfold Free. rewrite E, Z.eqb_refl. done.
Qed.

End AllocSpec.
