(* ===== verification/Tenant.v ===== *)
(** Tenancy: [internal/tenant/registry.go] and [internal/tenant/quota.go].

    The registry keeps namespaces in objects shared by two maps (by name, by
    id); the model keeps that sharing, since [SetQuota] writes through one map
    what [QuotaSnapshot] reads through the other. The quota accountant is
    modelled twice: as sequential operations on its state, and as a step
    relation in which any number of callers interleave at the granularity of
    their atomic operations and critical sections.

    SHA-256 is a parameter of the operations that hash a token. The YAML
    decoding of the namespaces file is not modelled: [LoadRegistry] starts
    from the decoded entries. *)

From Stdlib Require Import ZArith Lia.
From coqutil Require Import Byte.
From stdpp Require Import base numbers list gmap strings.
From S2P Require Import Prelude.
Open Scope Z_scope.
Open Scope go_scope.

Module Registry.

Definition TierDRAM : Z := 0.
Definition TierNVMe : Z := 1.
Definition TierS3 : Z := 2.
Definition tierCount : Z := 3.

Definition badTier (t : Z) : bool := (t <? 0) || (tierCount <=? t).

Record Namespace := mkNamespace {
  ID : Z;
  Name : string;
  TokenHash : bytes;
  Quota : list Z;
  PinQuota : Z
}.

Definition setQuotaOf (q : list Z) (ns : Namespace) : Namespace :=
  mkNamespace (ID ns) (Name ns) (TokenHash ns) q (PinQuota ns).

(** The zero [Namespace]. *)
Definition zeroNamespace : Namespace := mkNamespace 0 EmptyString (zeros 32) [0; 0; 0] 0.

(** [objs] is the heap of [*Namespace] objects; both maps hold addresses. *)
Record Registry := mkRegistry {
  objs : gmap Z Namespace;
  nextAddr : Z;
  byName : gmap string Z;
  byID : gmap Z Z
}.

Definition emptyRegistry : Registry := mkRegistry ∅ 0 ∅ ∅.

Inductive regError :=
| ErrNeedsNameAndID | ErrDuplicateName | ErrDuplicateID | ErrTokenHex | ErrNoToken.

Definition Add (r : Registry) (ns : Namespace) : Registry * option regError :=
  if bool_decide (Name ns = EmptyString) || (ID ns =? 0) then (r, Some ErrNeedsNameAndID) else
  match byName r !! Name ns with
  | Some _ => (r, Some ErrDuplicateName)
  | None =>
      match byID r !! ID ns with
      | Some _ => (r, Some ErrDuplicateID)
      | None =>
          let p := nextAddr r in
          (mkRegistry (<[p := ns]> (objs r)) (p + 1) (<[Name ns := p]> (byName r))
             (<[ID ns := p]> (byID r)), None)
      end
  end.

(** The namespace an address stands for. *)
Definition deref (r : Registry) (p : Z) : Namespace := default zeroNamespace (objs r !! p).

(** Returns the new registry, the result, and the id the listener is notified
    of after the lock is released. *)
Definition SetQuota (r : Registry) (name : string) (tier v : Z) : Registry * bool * option Z :=
  if badTier tier then (r, false, None) else
  match byName r !! name with
  | None => (r, false, None)
  | Some p =>
      let ns := deref r p in
      let r' := mkRegistry (<[p := setQuotaOf (<[Z.to_nat tier := v]> (Quota ns)) ns]> (objs r))
                  (nextAddr r) (byName r) (byID r) in
      (r', true, Some (ID ns))
  end.

Definition Lookup (r : Registry) (id : Z) : Namespace * bool :=
  match byID r !! id with
  | Some p => (deref r p, true)
  | None => (zeroNamespace, false)
  end.

Definition QuotaSnapshot (r : Registry) (id : Z) : list Z * bool :=
  match byID r !! id with
  | Some p => (Quota (deref r p), true)
  | None => ([0; 0; 0], false)
  end.

Definition PinQuotaFor (r : Registry) (id : Z) : Z :=
  match byID r !! id with Some p => PinQuota (deref r p) | None => 0 end.

(** [nil] is [true]: every namespace's override is within the arena. *)
Definition ValidatePinQuotas (r : Registry) (maxBytes : Z) : bool :=
  if maxBytes <=? 0 then true else
  forallb (fun '(_, p) => let ns := deref r p in
             negb ((PinQuota ns <? 0) || (maxBytes <? PinQuota ns)))
    (map_to_list (byID r)).

(** ** [encoding/hex] *)

Definition fromHexChar (c : Z) : option Z :=
  if (48 <=? c) && (c <=? 57) then Some (c - 48) else
  if (97 <=? c) && (c <=? 102) then Some (c - 97 + 10) else
  if (65 <=? c) && (c <=? 70) then Some (c - 65 + 10) else None.

Fixpoint hexDecode (s : bytes) : option bytes :=
  match s with
  | [] => Some []
  | a :: b :: s =>
      x ← fromHexChar (byte.unsigned a);
      y ← fromHexChar (byte.unsigned b);
      r ← hexDecode s;
      Some (byte.of_Z (Z.lor (x <<| 4) y) :: r)
  | _ :: [] => None
  end.

Section Tokens.
Context (sha256 : bytes -> bytes).

Definition Authenticate (r : Registry) (name : string) (token : bytes) : Z * bool :=
  let digest := sha256 token in
  let found := byName r !! name in
  let want := match found with Some p => TokenHash (deref r p) | None => zeros 32 end in
  let match_ := bool_decide (digest = want) in
  match found with
  | Some p => if match_ then (ID (deref r p), true) else (0, false)
  | None => (0, false)
  end.

(** One decoded entry of the namespaces file. *)
Record regEntry := mkRegEntry {
  e_Name : string;
  e_ID : Z;
  e_Token : bytes;
  e_TokenSHA256 : bytes;
  e_QuotaDRAM : Z;
  e_QuotaNVMe : Z;
  e_QuotaS3 : Z;
  e_PinQuota : Z
}.

(** The token hash of an entry: [token_sha256] has precedence over [token]. *)
Definition entryHash (e : regEntry) : bytes + regError :=
  if negb (bool_decide (e_TokenSHA256 e = [])) then
    match hexDecode (e_TokenSHA256 e) with
    | Some h => if len h =? 32 then inl h else inr ErrTokenHex
    | None => inr ErrTokenHex
    end
  else if negb (bool_decide (e_Token e = [])) then inl (sha256 (e_Token e))
  else inr ErrNoToken.

(** The namespace object built for an entry. *)
Definition entryNamespace (e : regEntry) (h : bytes) : Namespace :=
  mkNamespace (e_ID e) (e_Name e) h [e_QuotaDRAM e; e_QuotaNVMe e; e_QuotaS3 e] (e_PinQuota e).

(** The loop of [LoadRegistry] over the decoded entries. *)
Fixpoint loadEntries (r : Registry) (es : list regEntry) : Registry + regError :=
  match es with
  | [] => inl r
  | e :: es =>
      match entryHash e with
      | inr err => inr err
      | inl h =>
          match Add r (entryNamespace e h) with
          | (r, None) => loadEntries r es
          | (_, Some err) => inr err
          end
      end
  end.

Definition LoadRegistry (es : list regEntry) : Registry + regError :=
  loadEntries emptyRegistry es.

Definition NewRegistry (name : string) (id : Z) (token : bytes) : Registry :=
  fst (Add emptyRegistry (mkNamespace id name (sha256 token) [0; 0; 0] 0)).

End Tokens.

(** ** The registry invariant *)

(** Every object is in both maps, under its own name and its own id, and the
    maps hold nothing else. *)
Record reg_ok (r : Registry) : Prop := mkRegOk {
  ro_fresh : forall p ns, objs r !! p = Some ns -> p < nextAddr r;
  ro_obj : forall p ns, objs r !! p = Some ns ->
    byName r !! Name ns = Some p /\ byID r !! ID ns = Some p /\
    Name ns <> EmptyString /\ ID ns <> 0 /\ length (Quota ns) = 3%nat;
  ro_name : forall n p, byName r !! n = Some p -> exists ns, objs r !! p = Some ns /\ Name ns = n;
  ro_id : forall i p, byID r !! i = Some p -> exists ns, objs r !! p = Some ns /\ ID ns = i
}.

Lemma emptyRegistry_ok : reg_ok emptyRegistry.
Proof. split; set_solver. Qed.

Lemma deref_obj r p ns : objs r !! p = Some ns -> deref r p = ns.
Proof. intros H. unfold deref. by rewrite H. Qed.

(** What [Add] does when it succeeds. *)
Lemma Add_inv r ns r' :
  Add r ns = (r', None) ->
  Name ns <> EmptyString /\ ID ns <> 0 /\ byName r !! Name ns = None /\ byID r !! ID ns = None /\
  r' = mkRegistry (<[nextAddr r := ns]> (objs r)) (nextAddr r + 1)
         (<[Name ns := nextAddr r]> (byName r)) (<[ID ns := nextAddr r]> (byID r)).
Proof.
  unfold Add. case_if; [done|]. bool_props. bool_props.
  destruct (byName r !! Name ns) eqn:?; [done|]. destruct (byID r !! ID ns) eqn:?; [done|].
  by intros [= <-].
Qed.

Lemma Add_ok r ns r' :
  reg_ok r -> length (Quota ns) = 3%nat -> Add r ns = (r', None) -> reg_ok r'.
Proof.
  intros [Hf Ho Hn Hi] Hq (Hn0 & Hi0 & Hnone & Hinone & ->)%Add_inv.
  split; cbn [objs nextAddr byName byID].
  - intros p ns'. rewrite lookup_insert_Some. intros [[<- _]|[_ H]]; [lia|]. apply Hf in H. lia.
  - intros p ns'. rewrite lookup_insert_Some. intros [[<- <-]|[? H]].
    + by rewrite !lookup_insert_eq.
    + destruct (Ho _ _ H) as (Hbn & Hbi & ?).
      by rewrite !lookup_insert_ne by congruence.
  - intros n p. rewrite lookup_insert_Some. intros [[<- <-]|[? H]].
    + exists ns. by rewrite lookup_insert_eq.
    + destruct (Hn _ _ H) as (ns' & Hp & <-). exists ns'. rewrite lookup_insert_ne; [done|].
      apply Hf in Hp. lia.
  - intros i p. rewrite lookup_insert_Some. intros [[<- <-]|[? H]].
    + exists ns. by rewrite lookup_insert_eq.
    + destruct (Hi _ _ H) as (ns' & Hp & <-). exists ns'. rewrite lookup_insert_ne; [done|].
      apply Hf in Hp. lia.
Qed.

(** The shape of a successful [SetQuota], and that it keeps the invariant. *)
Lemma SetQuota_inv r name t v r' o :
  reg_ok r -> SetQuota r name t v = (r', true, o) ->
  exists p ns, badTier t = false /\ byName r !! name = Some p /\ objs r !! p = Some ns /\
    o = Some (ID ns) /\
    r' = mkRegistry (<[p := setQuotaOf (<[Z.to_nat t := v]> (Quota ns)) ns]> (objs r))
           (nextAddr r) (byName r) (byID r).
Proof.
  intros Hr. unfold SetQuota. case_if; [done|].
  destruct (byName r !! name) as [p|] eqn:Hb; [|done].
  destruct (ro_name _ Hr _ _ Hb) as (ns & Hp & _). rewrite (deref_obj _ _ _ Hp).
  intros [= <- <-]. by exists p, ns.
Qed.

Lemma SetQuota_ok r name t v r' o : reg_ok r -> SetQuota r name t v = (r', true, o) -> reg_ok r'.
Proof.
  intros Hr (p & ns & _ & _ & Hp & _ & ->)%SetQuota_inv; [|done].
  destruct Hr as [Hf Ho Hn Hi]. split; cbn [objs nextAddr byName byID].
  - intros q ns'. rewrite lookup_insert_Some. intros [[<- _]|[_ H]]; eauto.
  - intros q ns'. rewrite lookup_insert_Some. intros [[<- <-]|[_ H]]; [|auto].
    destruct (Ho _ _ Hp) as (?&?&?&?&?). cbn. by rewrite length_insert.
  - intros n q Hq. destruct (Hn _ _ Hq) as (ns' & Hq' & <-).
    destruct (decide (q = p)) as [->|]; [|by exists ns'; rewrite lookup_insert_ne].
    rewrite Hp in Hq'. injection Hq' as <-. eexists. by rewrite lookup_insert_eq.
  - intros n q Hq. destruct (Hi _ _ Hq) as (ns' & Hq' & <-).
    destruct (decide (q = p)) as [->|]; [|by exists ns'; rewrite lookup_insert_ne].
    rewrite Hp in Hq'. injection Hq' as <-. eexists. by rewrite lookup_insert_eq.
Qed.

(** Only the named namespace's quota changes. *)
Lemma SetQuota_snapshot_ne r name t v r' id j :
  reg_ok r -> SetQuota r name t v = (r', true, Some id) -> j <> id ->
  QuotaSnapshot r' j = QuotaSnapshot r j.
Proof.
  intros Hr (p & ns & _ & _ & Hp & [= ->] & ->)%SetQuota_inv Hj; [|done].
  unfold QuotaSnapshot, deref. cbn [byID objs].
  destruct (byID r !! j) as [q|] eqn:Hq'; [|done].
  destruct (ro_id _ Hr _ _ Hq') as (ns' & Hns & Hid).
  rewrite lookup_insert_ne; [done|]. intros ->. congruence.
Qed.

Lemma Add_snapshot_ne r ns r' j :
  reg_ok r -> Add r ns = (r', None) -> j <> ID ns -> QuotaSnapshot r' j = QuotaSnapshot r j.
Proof.
  intros Hr (_ & _ & _ & _ & ->)%Add_inv Hj. unfold QuotaSnapshot, deref. cbn [byID objs].
  rewrite lookup_insert_ne by done. destruct (byID r !! j) as [q|] eqn:Hq; [|done].
  destruct (ro_id _ Hr _ _ Hq) as (ns' & Hns & _). apply (ro_fresh _ Hr) in Hns.
  rewrite lookup_insert_ne by lia. done.
Qed.

End Registry.

Module RegistryFacts.
Import Registry.

Section Tokens.
Context (sha256 : bytes -> bytes).

(** What a registry knows of a namespace: its id and token hash under a name. *)
Definition registered (r : Registry) (name : string) (id : Z) (h : bytes) : Prop :=
  exists p ns, objs r !! p = Some ns /\ Name ns = name /\ ID ns = id /\ TokenHash ns = h.

Lemma authenticate_registered r name token id :
  reg_ok r ->
  Authenticate sha256 r name token = (id, true) <-> registered r name id (sha256 token).
Proof.
  intros Hr. unfold Authenticate, registered. split.
  - destruct (byName r !! name) as [p|] eqn:Hb; [|done].
    destruct (ro_name _ Hr _ _ Hb) as (ns & Hp & <-). rewrite (deref_obj _ _ _ Hp).
    case_if; [|done]. intros [= <-]. bool_props. exists p, ns. by rewrite Hif.
  - intros (p & ns & Hp & <- & <- & Ht). destruct (ro_obj _ Hr _ _ Hp) as (-> & _).
    rewrite (deref_obj _ _ _ Hp), Ht. by rewrite bool_decide_eq_true_2.
Qed.

Lemma Add_registered r ns r' name id h :
  reg_ok r -> Add r ns = (r', None) ->
  registered r' name id h <->
  (Name ns = name /\ ID ns = id /\ TokenHash ns = h) \/ registered r name id h.
Proof.
  intros Hr (_ & _ & _ & _ & ->)%Add_inv. unfold registered. cbn [objs]. split.
  - intros (p & ns' & Hp & ?). apply lookup_insert_Some in Hp as [[_ <-]|[_ Hp]]; [by left|].
    right. by exists p, ns'.
  - intros [?|(p & ns' & Hp & ?)].
    + exists (nextAddr r), ns. by rewrite lookup_insert_eq.
    + exists p, ns'. rewrite lookup_insert_ne; [done|]. apply (ro_fresh _ Hr) in Hp. lia.
Qed.

(** [e] is the entry of a namespace called [name] with this id and hash. *)
Definition entry_is (e : regEntry) (name : string) (id : Z) (h : bytes) : Prop :=
  e_Name e = name /\ e_ID e = id /\ entryHash sha256 e = inl h.

Lemma loadEntries_spec es r r' :
  reg_ok r -> loadEntries sha256 r es = inl r' ->
  reg_ok r' /\
  forall name id h, registered r' name id h <->
    registered r name id h \/ exists e, e ∈ es /\ entry_is e name id h.
Proof.
  revert r. induction es as [|e es IH]; intros r Hr; cbn [loadEntries].
  { intros [= <-]. split; [done|]. set_solver. }
  destruct (entryHash sha256 e) as [h0|] eqn:He; [|done].
  destruct (Add r _) as [r1 [|]] eqn:Ha; [done|]. intros Hl.
  assert (reg_ok r1) as Hr1 by (eapply Add_ok; [done| |done]; done).
  destruct (IH _ Hr1 Hl) as [Hr' Hreg]. split; [done|]. intros name id h.
  rewrite Hreg, (Add_registered _ _ _ name id h Hr Ha). cbn [Name ID TokenHash entryNamespace].
  assert (entry_is e name id h <-> e_Name e = name /\ e_ID e = id /\ h0 = h) as <-.
  { unfold entry_is. rewrite He. naive_solver. }
  setoid_rewrite elem_of_cons. naive_solver.
Qed.

(** A registry loaded from a namespaces file authenticates exactly the
    tokens the file configures: a HELLO naming [name] with [token] is accepted
    as namespace [id] if and only if some entry of the file has that name and
    that id and its token hash is the SHA-256 of the presented token. *)
Theorem load_authenticate es r name token id :
  LoadRegistry sha256 es = inl r ->
  Authenticate sha256 r name token = (id, true) <->
  exists e, e ∈ es /\ entry_is e name id (sha256 token).
Proof.
  intros Hl. destruct (loadEntries_spec _ _ _ emptyRegistry_ok Hl) as [Hr Hreg].
  rewrite authenticate_registered, Hreg by done.
  split; [|by right]. intros [(p & ns & H & _)|?]; [|done].
  cbn in H. by apply lookup_empty_Some in H.
Qed.

End Tokens.

(** Writing a quota through a namespace's name is what readers see through
    its id, and nothing else changes: the two maps share the object. *)
Theorem set_quota_visible r name t v r' id :
  reg_ok r -> SetQuota r name t v = (r', true, Some id) ->
  QuotaSnapshot r' id = (<[Z.to_nat t := v]> (fst (QuotaSnapshot r id)), true) /\
  fst (QuotaSnapshot r' id) !! Z.to_nat t = Some v /\
  (forall j, j <> id -> QuotaSnapshot r' j = QuotaSnapshot r j) /\
  (forall j, PinQuotaFor r' j = PinQuotaFor r j) /\ reg_ok r'.
Proof.
  intros Hr Hs. pose proof (SetQuota_ok _ _ _ _ _ _ Hr Hs) as Hr'.
  pose proof (fun j => SetQuota_snapshot_ne _ _ _ _ _ _ j Hr Hs) as Hne.
  apply SetQuota_inv in Hs as (p & ns & Ht & Hb & Hp & [= ->] & ->); [|done].
  destruct (ro_obj _ Hr _ _ Hp) as (_ & Hi & _ & _ & Hq).
  split_and!; [| |exact Hne| |done]; unfold QuotaSnapshot, PinQuotaFor, deref; cbn [byID objs];
    rewrite ?Hi, ?Hp, ?lookup_insert_eq; [done| |].
  - apply list_lookup_insert_eq. unfold badTier, tierCount in Ht. bool_props. lia.
  - intros j. destruct (byID r !! j) as [q|] eqn:Hq'; [|done].
    destruct (decide (q = p)) as [->|]; [by rewrite lookup_insert_eq, Hp|by rewrite lookup_insert_ne].
Qed.

(** A file with two tenants, one with a plain token; the hash is instantiated
    by a length-preserving toy function. *)
Definition toyHash (b : bytes) : bytes := take 32 (b ++ zeros 32).
Definition sampleEntries : list regEntry :=
  [mkRegEntry "a" 1 [Byte.x41] [] 10 0 0 0; mkRegEntry "b" 2 [Byte.x42] [] 20 0 0 5].
Definition sampleLoaded : Registry :=
  match LoadRegistry toyHash sampleEntries with inl r => r | inr _ => emptyRegistry end.

Lemma load_authenticate_witness :
  LoadRegistry toyHash sampleEntries = inl sampleLoaded /\
  exists e, e ∈ sampleEntries /\ entry_is toyHash e "b" 2 (toyHash [Byte.x42]).
Proof.
  split; [reflexivity|].
  apply (load_authenticate toyHash sampleEntries sampleLoaded "b" [Byte.x42] 2); reflexivity.
Defined.

Lemma set_quota_visible_witness :
  exists r', SetQuota sampleLoaded "a" TierNVMe 99 = (r', true, Some 1) /\
    QuotaSnapshot r' 1 = ([10; 99; 0], true).
Proof.
  eexists. split; [reflexivity|].
  apply (set_quota_visible sampleLoaded "a" TierNVMe 99 _ 1); [|reflexivity].
  apply (loadEntries_spec toyHash sampleEntries emptyRegistry); [apply emptyRegistry_ok|reflexivity].
Defined.

End RegistryFacts.

(** ** The quota accountant, one call at a time *)

Module Quotas.
Import Registry.

(** An [int64] after wrap-around. *)
Definition i64 (z : Z) : Z := sint 64 z.

Record nsUsage := mkUsage { used : list Z; limit : list Z }.

Record Quotas := mkQuotas { reg : option Registry; by_ : gmap Z nsUsage }.

Definition tier3 : list Z := [0; 0; 0].

Definition NewQuotas (r : option Registry) : Quotas := mkQuotas r ∅.

Definition peek (q : Quotas) (ns : Z) : option nsUsage := by_ q !! ns.

Definition putUsage (q : Quotas) (ns : Z) (u : nsUsage) : Quotas :=
  mkQuotas (reg q) (<[ns := u]> (by_ q)).

Definition refreshLimits (q : Quotas) (ns : Z) (u : nsUsage) : Quotas * nsUsage :=
  match reg q with
  | None => (q, u)
  | Some r =>
      let (l, found) := QuotaSnapshot r ns in
      if found then let u' := mkUsage (used u) l in (putUsage q ns u', u') else (q, u)
  end.

Definition reloadNS (q : Quotas) (ns : Z) : Quotas :=
  match peek q ns with
  | Some u => fst (refreshLimits q ns u)
  | None => q
  end.

(** The limits a fresh domain starts from. *)
Definition firstLimits (q : Quotas) (ns : Z) : list Z :=
  match reg q with
  | Some r => let (l, found) := QuotaSnapshot r ns in if found then l else tier3
  | None => tier3
  end.

Definition domain (q : Quotas) (ns : Z) : Quotas * nsUsage :=
  match by_ q !! ns with
  | Some u => (q, u)
  | None =>
      let limits := firstLimits q ns in
      let u := mkUsage tier3 limits in
      refreshLimits (putUsage q ns u) ns u
  end.

Definition Reload (q : Quotas) : Quotas :=
  match reg q with
  | None => q
  | Some _ => foldl (fun q '(ns, u) => fst (refreshLimits q ns u)) q (map_to_list (by_ q))
  end.

(** One tier of a triple. *)
Definition at_ (l : list Z) (t : Z) : Z := l !!! Z.to_nat t.

(** [u.used[tier].Add(d)]. *)
Definition addUsed (q : Quotas) (ns : Z) (u : nsUsage) (t d : Z) : Quotas :=
  putUsage q ns (mkUsage (<[Z.to_nat t := i64 (at_ (used u) t + d)]> (used u)) (limit u)).

Inductive quotaError := ErrQuota.

(** A call that runs alone: its compare-and-swap succeeds the first time. *)
Definition Charge (q : Quotas) (ns t n : Z) : Quotas * option quotaError :=
  if (n <=? 0) || badTier t then (q, None) else
  let (q, u) := domain q ns in
  let limit := at_ (limit u) t in
  if limit <=? 0 then (addUsed q ns u t n, None) else
  let cur := at_ (used u) t in
  if limit <? i64 (cur + n) then (q, Some ErrQuota)
  else (addUsed q ns u t n, None).

Definition Refund (q : Quotas) (ns t n : Z) : Quotas :=
  if (n <=? 0) || badTier t then q else
  let (q, u) := domain q ns in
  let bal := i64 (at_ (used u) t + - n) in
  let q := addUsed q ns u t (- n) in
  if bal <? 0 then putUsage q ns (mkUsage (<[Z.to_nat t := 0]> (used u)) (limit u)) else q.

Definition Seed (q : Quotas) (ns t n : Z) : Quotas :=
  if (n <=? 0) || badTier t then q else
  let (q, u) := domain q ns in addUsed q ns u t n.

Definition Transfer (q : Quotas) (ns from to n : Z) : Quotas :=
  if n <=? 0 then q else
  let (q, u) := domain q ns in
  let q := if (0 <=? to) && (to <? tierCount) then addUsed q ns u to n else q in
  Refund q ns from n.

Definition registryLimit (q : Quotas) (ns t : Z) : Z :=
  match reg q with
  | None => 0
  | Some r => let (l, found) := QuotaSnapshot r ns in if found then at_ l t else 0
  end.

Definition WouldExceed (q : Quotas) (ns t n : Z) : bool :=
  if (n <=? 0) || badTier t then false else
  match peek q ns with
  | Some u =>
      let limit := at_ (limit u) t in
      (0 <? limit) && (limit <? i64 (at_ (used u) t + n))
  | None =>
      let limit := registryLimit q ns t in (0 <? limit) && (limit <? n)
  end.

Definition Usage (q : Quotas) (ns t : Z) : Z :=
  if badTier t then 0 else
  match peek q ns with Some u => at_ (used u) t | None => 0 end.

Definition Limit (q : Quotas) (ns t : Z) : Z :=
  if badTier t then 0 else
  match peek q ns with Some u => at_ (limit u) t | None => registryLimit q ns t end.

(** Usage over quota in thousandths; Go's division truncates toward zero. *)
Definition OverRatio (q : Quotas) (ns t : Z) : Z :=
  if badTier t then 0 else
  match peek q ns with
  | None => 0
  | Some u =>
      let limit := at_ (limit u) t in
      if limit <=? 0 then 0 else Z.quot (i64 (at_ (used u) t * 1000)) limit
  end.

(** [Registry.SetQuota] with the accountant as its listener. *)
Definition setQuotaNotify (q : Quotas) (name : string) (t v : Z) : Quotas * bool :=
  match reg q with
  | None => (q, false)
  | Some r =>
      match SetQuota r name t v with
      | (r, ok, Some id) => (reloadNS (mkQuotas (Some r) (by_ q)) id, ok)
      | (r, ok, None) => (mkQuotas (Some r) (by_ q), ok)
      end
  end.

(** [Registry.Add] on the registry the accountant reads. *)
Definition addNamespace (q : Quotas) (ns : Namespace) : Quotas * option regError :=
  match reg q with
  | None => (q, None)
  | Some r => let (r, e) := Add r ns in (mkQuotas (Some r) (by_ q), e)
  end.

End Quotas.

(** ** One counter under interleaving

    Any number of callers work on the counter of one (namespace, tier). Each
    step is one atomic operation of one caller, so a path of steps is an
    arbitrary interleaving of [Charge] and [Refund] calls. *)

Module Ledger.
Import Quotas.

(** Where a caller is in the source. *)
Inductive pc :=
| CLoad (n : Z)               (* Charge, limited: about to load the counter *)
| CCas (n cur : Z)            (* loaded [cur] and found headroom: about to CAS *)
| CAdmitted (n : Z)           (* returned nil *)
| CRefused (n : Z)            (* returned ErrQuota *)
| RAdd (n : Z)                (* Refund: about to subtract *)
| RHeal (n bal : Z)           (* saw a negative balance: about to CAS to zero *)
| RDone (n : Z).

Record conf := mkConf { counter : Z; callers : list pc }.

Section Step.
Context (limit : Z).

(** One atomic operation of a caller, as it changes counter and position. *)
Definition act (c : Z) (p : pc) : option (Z * pc) :=
  match p with
  | CLoad n => Some (c, if limit <? i64 (c + n) then CRefused n else CCas n c)
  | CCas n cur => Some (if c =? cur then (i64 (cur + n), CAdmitted n) else (c, CLoad n))
  | RAdd n => let bal := i64 (c - n) in Some (bal, if bal <? 0 then RHeal n bal else RDone n)
  | RHeal n bal => Some (if c =? bal then 0 else c, RDone n)
  | CAdmitted _ | CRefused _ | RDone _ => None
  end.

Inductive step : conf -> conf -> Prop :=
| step_act c ps i p c' p' :
    ps !! i = Some p -> act c p = Some (c', p') ->
    step (mkConf c ps) (mkConf c' (<[i := p']> ps)).

End Step.

Definition starting (p : pc) : Prop :=
  match p with CLoad n | RAdd n => 0 < n | _ => False end.

(** Bytes admitted, bytes refunded so far, and bytes still to be refunded. *)
Definition admitted (p : pc) : Z := match p with CAdmitted n => n | _ => 0 end.
Definition refunded (p : pc) : Z := match p with RHeal n _ | RDone n => n | _ => 0 end.
Definition refunding (p : pc) : Z := match p with RAdd n => n | _ => 0 end.
Definition amount (p : pc) : Z :=
  match p with CLoad n | CCas n _ | CAdmitted n | CRefused n | RAdd n | RHeal n _ | RDone n => n end.
Fixpoint total (f : pc -> Z) (ps : list pc) : Z :=
  match ps with [] => 0 | p :: ps => f p + total f ps end.

Definition finished (p : pc) : bool :=
  match p with CAdmitted _ | CRefused _ | RDone _ => true | _ => false end.

End Ledger.

Module LedgerFacts.
Import Quotas Ledger.

Lemma total_insert f ps i p p' :
  ps !! i = Some p -> total f (<[i := p']> ps) = total f ps - f p + f p'.
Proof.
  revert i. induction ps as [|q ps IH]; intros [|i] H; simplify_eq/=; [lia|].
  rewrite (IH _ H). lia.
Qed.

Lemma total_nonneg f ps : (forall p, p ∈ ps -> 0 <= f p) -> 0 <= total f ps.
Proof.
  induction ps as [|p ps IH]; intros H; cbn; [done|].
  pose proof (H p ltac:(left)). enough (0 <= total f ps) by lia.
  apply IH. intros q Hq. apply H. by right.
Qed.

Lemma total_zero f ps : (forall p, p ∈ ps -> f p = 0) -> total f ps = 0.
Proof.
  induction ps as [|p ps IH]; intros H; cbn; [done|].
  rewrite (H p ltac:(left)), IH; [done|]. intros q Hq. apply H. by right.
Qed.

Lemma total_elem f ps p : (forall q, q ∈ ps -> 0 <= f q) -> p ∈ ps -> f p <= total f ps.
Proof.
  induction ps as [|q ps IH]; intros Hn Hp; [by apply elem_of_nil in Hp|]. cbn.
  pose proof (Hn q ltac:(left)).
  assert (forall r, r ∈ ps -> 0 <= f r) as Hn' by (intros; apply Hn; by right).
  apply elem_of_cons in Hp as [->|Hp]; [pose proof (total_nonneg f ps Hn')|specialize (IH Hn' Hp)]; lia.
Qed.

Lemma i64_id z : - 2 ^ 63 <= z < 2 ^ 63 -> i64 z = z.
Proof. intros. apply sint_id; lia. Qed.

Section Run.
Context (limit u0 : Z) (ps0 : list pc).
Hypothesis Hlimit : 0 < limit < 2 ^ 62.
Hypothesis Hu0 : - 2 ^ 62 <= u0 <= limit.
Hypothesis Hstart : forall p, p ∈ ps0 -> starting p.
Hypothesis Hsum : total amount ps0 < 2 ^ 62.

(** A caller between its load and its CAS has seen headroom. *)
Definition pc_ok (p : pc) : Prop :=
  0 < amount p /\
  match p with CCas n cur => - 2 ^ 63 <= cur + n <= limit | RHeal n bal => bal < 0 | _ => True end.

Record inv (s : conf) : Prop := mkInv {
  iv_pc : forall p, p ∈ callers s -> pc_ok p;
  iv_sum : total amount (callers s) = total amount ps0;
  iv_hi : counter s <= limit;
  iv_lo : - 2 ^ 62 - (total refunding ps0 - total refunding (callers s)) <= counter s
}.

Lemma refunding_le_amount ps : (forall p, p ∈ ps -> pc_ok p) ->
  0 <= total refunding ps <= total amount ps.
Proof.
  induction ps as [|p ps IH]; intros H; cbn; [lia|].
  destruct IH as [? ?]; [intros; apply H; by right|].
  destruct (H p ltac:(left)) as [Hp _]. destruct p; cbn in *; lia.
Qed.

Lemma start_ok p : p ∈ ps0 -> pc_ok p.
Proof. intros Hp%Hstart. destruct p; cbn in Hp; done. Qed.

Lemma led_init : inv (mkConf u0 ps0).
Proof. split; cbn; [apply start_ok|done|lia|lia]. Qed.

Lemma inv_counter s : inv s -> - 2 ^ 63 <= counter s < 2 ^ 62.
Proof.
  intros [Hp Hs Hh Hl]. pose proof (refunding_le_amount ps0 start_ok).
  pose proof (refunding_le_amount (callers s) Hp). lia.
Qed.

(** A subtraction still to come does not wrap either. *)
Lemma inv_refund s n : inv s -> RAdd n ∈ callers s -> - 2 ^ 63 <= counter s - n /\ 0 < n < 2 ^ 62.
Proof.
  intros [Hp Hs Hh Hl] Hn. pose proof (refunding_le_amount ps0 start_ok).
  assert (n <= total refunding (callers s)).
  { apply (total_elem refunding _ (RAdd n)); [|done]. intros q Hq.
    destruct (Hp q Hq) as [? _]. destruct q; cbn in *; lia. }
  pose proof (refunding_le_amount (callers s) Hp). destruct (Hp _ Hn) as [? _]. cbn in *. lia.
Qed.

Lemma inv_charge s n : inv s -> CLoad n ∈ callers s -> i64 (counter s + n) = counter s + n.
Proof.
  intros Hi Hn. pose proof (inv_counter s Hi). destruct Hi as [Hp Hs _ _].
  assert (n <= total amount (callers s)).
  { apply (total_elem amount _ (CLoad n)); [|done]. intros q Hq.
    destruct (Hp q Hq) as [? _]. lia. }
  destruct (Hp _ Hn) as [? _]. cbn in *. apply i64_id. lia.
Qed.

Lemma inv_act s i p c' p' :
  inv s -> callers s !! i = Some p -> act limit (counter s) p = Some (c', p') ->
  pc_ok p' /\ amount p' = amount p /\ c' <= limit /\
  counter s - c' <= refunding p - refunding p' /\
  (c' = counter s + admitted p' - admitted p - (refunded p' - refunded p) \/
   exists n bal, p = RHeal n bal).
Proof.
  intros Hi Hp Ha. pose proof (list_elem_of_lookup_2 _ _ _ Hp) as Hin.
  pose proof (inv_counter s Hi). pose proof (iv_hi s Hi).
  destruct (iv_pc s Hi _ Hin) as [Hpos Hok].
  destruct p as [n|n cur|n|n|n|n bal|n]; cbn in Ha, Hpos, Hok; try done.
  - rewrite (inv_charge s n Hi Hin) in Ha. injection Ha as <- <-.
    case_if; unfold pc_ok; cbn; (split_and!; [lia..|left; lia]).
  - case_if_in Ha; injection Ha as <- <-; unfold pc_ok; cbn.
    + rewrite i64_id by lia. split_and!; [lia..|left; lia].
    + split_and!; [lia..|left; lia].
  - pose proof (inv_refund s n Hi Hin) as [? ?]. rewrite i64_id in Ha by lia.
    injection Ha as <- <-. case_if; unfold pc_ok; cbn; (split_and!; [lia..|left; lia]).
  - injection Ha as <- <-. case_if; unfold pc_ok; cbn; (split_and!; [lia..|right; eauto]).
Qed.

Lemma led_step s s' : inv s -> step limit s s' -> inv s'.
Proof.
  intros Hi Hs. destruct Hs as [c ps i p c' p' Hp Ha].
  destruct (inv_act _ _ _ _ _ Hi Hp Ha) as (Hok & Ham & Hhi & Hlo & _).
  destruct Hi as [Hpc Hsm Hh Hl]. cbn in *. split; cbn.
  - intros q [->|?]%elem_insert; auto.
  - rewrite (total_insert _ _ _ _ _ Hp). lia.
  - done.
  - rewrite (total_insert _ _ _ _ _ Hp). lia.
Qed.

Lemma inv_reach s : rtc (step limit) (mkConf u0 ps0) s -> inv s.
Proof. apply rtc_invariant; [apply led_step|apply led_init]. Qed.

(** While refunds only return what was charged, nothing is lost or healed. *)
Definition exact (s : conf) : Prop :=
  inv s /\ counter s = u0 + total admitted (callers s) - total refunded (callers s) /\
  total refunding (callers s) <= counter s /\
  forall p, p ∈ callers s -> match p with RHeal _ _ => False | _ => True end.

Lemma exact_step s s' : exact s -> step limit s s' -> exact s'.
Proof.
  intros (Hi & Hc & Hr & Hh) Hs. pose proof (led_step _ _ Hi Hs) as Hi'. split; [done|].
  destruct Hs as [c ps i p c' p' Hp Ha].
  pose proof (list_elem_of_lookup_2 _ _ _ Hp) as Hin.
  destruct (inv_act _ _ _ _ _ Hi Hp Ha) as (Hok & _ & _ & Hlo & Hbal). cbn in *.
  rewrite !(total_insert _ _ _ _ _ Hp). split_and!.
  - destruct Hbal as [->|(n & bal & ->)]; [lia|]. by apply Hh in Hin.
  - lia.
  - intros q [->|?]%elem_insert; [|by apply Hh].
    destruct p' as [| | | | |n bal|]; try done. destruct Hok as [_ Hneg].
    destruct p as [n'|n' ?| | |n'|n' ?|]; cbn in Ha; try case_if_in Ha; try done.
    injection Ha as <- <- <-. pose proof (refunding_le_amount _ (iv_pc _ Hi')) as Hge.
    cbn in Hge. rewrite (total_insert _ _ _ _ _ Hp) in Hge. cbn in *. lia.
Qed.

Lemma exact_init : total refunding ps0 <= u0 -> exact (mkConf u0 ps0).
Proof.
  intros Hr. split; [apply led_init|]. cbn.
  rewrite (total_zero admitted), (total_zero refunded).
  - split_and!; [lia|done|]. intros p Hp%Hstart. by destruct p.
  - intros p Hp%Hstart. by destruct p.
  - intros p Hp%Hstart. by destruct p.
Qed.

End Run.

(** C16: Admission is exact under any interleaving. However the callers'
    atomic operations interleave, and even if some refund bytes that were
    never charged, the counter never exceeds the limit: racing charges cannot
    both take the same headroom. *)
Theorem charge_never_exceeds limit u0 ps0 s :
  0 < limit < 2 ^ 62 -> - 2 ^ 62 <= u0 <= limit ->
  (forall p, p ∈ ps0 -> starting p) -> total amount ps0 < 2 ^ 62 ->
  rtc (step limit) (mkConf u0 ps0) s -> counter s <= limit.
Proof. intros Hl Hu Hst Hsum Hs. eapply iv_hi, inv_reach; eauto. Qed.

(** No update is lost. When refunds only return bytes the counter holds,
    then at every point of every interleaving the counter is its start plus
    what was admitted minus what was refunded, and it stays within
    [0, limit]. *)
Theorem ledger_exact limit u0 ps0 s :
  0 < limit < 2 ^ 62 -> u0 <= limit -> total refunding ps0 <= u0 ->
  (forall p, p ∈ ps0 -> starting p) -> total amount ps0 < 2 ^ 62 ->
  rtc (step limit) (mkConf u0 ps0) s ->
  counter s = u0 + total admitted (callers s) - total refunded (callers s) /\
  0 <= counter s <= limit.
Proof.
  intros Hl Hu Hr Hst Hsum Hs.
  assert (0 <= total refunding ps0).
  { apply total_nonneg. intros p Hp%Hst. destruct p; cbn in *; lia. }
  assert (exact limit u0 ps0 s) as (Hi & Hc & Hlo & _).
  { revert Hs. apply rtc_invariant.
    - intros a b. apply exact_step; auto; lia.
    - apply exact_init; auto; lia. }
  pose proof (refunding_le_amount limit _ (iv_pc _ _ _ Hi)). pose proof (iv_hi _ _ _ Hi). lia.
Qed.

(** Run the callers of a schedule, one atomic operation per entry. *)
Fixpoint run (limit : Z) (sched : list nat) (s : conf) : option conf :=
  match sched with
  | [] => Some s
  | i :: sched =>
      p ← callers s !! i;
      '(c, p) ← act limit (counter s) p;
      run limit sched (mkConf c (<[i := p]> (callers s)))
  end.

Lemma run_reach limit sched s s' : run limit sched s = Some s' -> rtc (step limit) s s'.
Proof.
  revert s. induction sched as [|i sched IH]; intros [c ps]; cbn; [intros [= <-]; constructor|].
  destruct (ps !! i) as [p|] eqn:Hp; [|done]. cbn.
  destruct (act limit c p) as [[c' p']|] eqn:Ha; [|done]. cbn.
  intros H. eapply rtc_l; [by eapply step_act|eauto].
Qed.

(** Two charges of 6 race for a limit of 10: one is admitted. *)
Lemma charge_never_exceeds_witness :
  exists s, run 10 [0; 1; 0; 1; 1]%nat (mkConf 0 [CLoad 6; CLoad 6]) = Some s /\
            callers s = [CAdmitted 6; CRefused 6] /\ counter s <= 10.
Proof.
  eexists. split; [reflexivity|]. split; [reflexivity|].
  apply (charge_never_exceeds 10 0 [CLoad 6; CLoad 6]); [lia|lia| |cbn; lia|].
  - intros p Hp. repeat (apply elem_of_cons in Hp as [->|Hp]; [cbn; lia|]).
    by apply elem_of_nil in Hp.
  - by apply (run_reach 10 [0; 1; 0; 1; 1]%nat).
Defined.

Lemma ledger_exact_witness :
  exists s, run 10 [0; 1; 0; 0; 0]%nat (mkConf 4 [CLoad 6; RAdd 4]) = Some s /\
            counter s = 4 + 6 - 4 /\ 0 <= counter s <= 10.
Proof.
  eexists. split; [reflexivity|].
  apply (ledger_exact 10 4 [CLoad 6; RAdd 4]); [lia|lia|cbn; lia| |cbn; lia|].
  - intros p Hp. repeat (apply elem_of_cons in Hp as [->|Hp]; [cbn; lia|]).
    by apply elem_of_nil in Hp.
  - by apply (run_reach 10 [0; 1; 0; 0; 0]%nat).
Defined.

(** The heal of an underflow can be lost. A refund of bytes that were
    never charged drives the counter negative; if a charge lands between the
    subtraction and the heal, the heal's compare-and-swap fails, [Charge]
    heals nothing, and every caller returns with the balance left negative:
    the tenant can then hold more than its limit. *)
Theorem heal_lost_to_charge :
  exists s, rtc (step 10) (mkConf 0 [RAdd 8; CLoad 3]) s /\
    forallb finished (callers s) = true /\ counter s < 0.
Proof.
  exists (mkConf (-5) [RDone 8; CAdmitted 3]). split_and!; [|done|done].
  by apply (run_reach 10 [0; 1; 1; 0]%nat).
Qed.

End LedgerFacts.

(** ** Cached limits under interleaving

    The accountant caches each namespace's limits; [SetQuota] changes them in
    the registry and refreshes the cache afterwards, outside the registry's
    lock. Callers interleave at their critical sections. *)

Module Limits.
Import Registry.

(** A registry read: the triple and whether the namespace was found. *)
Definition snapshot : Type := list Z * bool.

Inductive pc :=
| LIdle
| LNotify (id : Z)                  (* SetQuota wrote the registry; reloadNS is next *)
| LSnap (id : Z)                    (* domain missed in [by]; registry read is next *)
| LPublish (id : Z) (l : list Z)    (* domain read the registry; publishing is next *)
| LRefresh (ids : list Z)           (* refreshLimits of these ids, in order *)
| LHeld (id : Z) (s : snapshot) (ids : list Z).  (* inside limitMu, registry read *)

Record conf := mkConf {
  lreg : Registry;
  lby : gmap Z (list Z);
  callers : list pc
}.

Definition holds (p : pc) : bool := match p with LHeld _ _ _ => true | _ => false end.

(** [limitMu] is free. *)
Definition unlocked (ps : list pc) : Prop := forall p, p ∈ ps -> holds p = false.

(** The next critical section of a caller that is inside an operation. *)
Definition advance (r : Registry) (b : gmap Z (list Z)) (p : pc) : option (gmap Z (list Z) * pc) :=
  match p with
  | LIdle => None
  | LNotify id => Some (b, match b !! id with Some _ => LRefresh [id] | None => LIdle end)
  | LSnap id =>
      let (l, found) := QuotaSnapshot r id in
      Some (b, LPublish id (if found then l else [0; 0; 0]))
  | LPublish id l =>
      Some match b !! id with
           | Some _ => (b, LIdle)
           | None => (<[id := l]> b, LRefresh [id])
           end
  | LRefresh [] => Some (b, LIdle)
  | LRefresh (id :: ids) => Some (b, LHeld id (QuotaSnapshot r id) ids)
  | LHeld id (l, found) ids => Some (if found then <[id := l]> b else b, LRefresh ids)
  end.

(** Taking [limitMu] needs it free. *)
Definition may_advance (ps : list pc) (p : pc) : Prop :=
  match p with LRefresh (_ :: _) => unlocked ps | _ => True end.

Inductive step : conf -> conf -> Prop :=
| step_add r b ps ns r' :          (* Registry.Add, before the id is first charged *)
    b !! ID ns = None -> length (Quota ns) = 3%nat -> Add r ns = (r', None) ->
    step (mkConf r b ps) (mkConf r' b ps)
| step_set r b ps i name t v r' id :
    ps !! i = Some LIdle -> SetQuota r name t v = (r', true, Some id) ->
    step (mkConf r b ps) (mkConf r' b (<[i := LNotify id]> ps))
| step_touch r b ps i id :
    ps !! i = Some LIdle -> b !! id = None ->
    step (mkConf r b ps) (mkConf r b (<[i := LSnap id]> ps))
| step_reload r b ps i ids :
    ps !! i = Some LIdle -> ids ≡ₚ (map_to_list b).*1 ->
    step (mkConf r b ps) (mkConf r b (<[i := LRefresh ids]> ps))
| step_advance r b ps i p b' p' :
    ps !! i = Some p -> may_advance ps p -> advance r b p = Some (b', p') ->
    step (mkConf r b ps) (mkConf r b' (<[i := p']> ps)).

Definition quiescent (s : conf) : Prop := forall p, p ∈ callers s -> p = LIdle.

(** ** Convergence *)

(** [p] will still read the registry for [id] and store what it reads. *)
Definition pending (id : Z) (p : pc) : Prop :=
  match p with
  | LNotify j => j = id
  | LRefresh ids | LHeld _ _ ids => id ∈ ids
  | LIdle | LSnap _ | LPublish _ _ => False
  end.

Definition holding (id : Z) (p : pc) : Prop :=
  match p with LHeld j _ _ => j = id | _ => False end.

(** Some caller will still refresh [id]; or the caller about to store has read
    the current value [q]; or nobody is and the cached value [l] is current. *)
Definition fresh_or_pending (ps : list pc) (id : Z) (l q : list Z) : Prop :=
  (exists p, p ∈ ps /\ pending id p) \/
  (exists ids, LHeld id (q, true) ids ∈ ps) \/
  ((forall p, p ∈ ps -> ~ holding id p) /\ l = q).

Definition mutex (ps : list pc) : Prop :=
  forall i j p q, ps !! i = Some p -> ps !! j = Some q -> holds p = true -> holds q = true -> i = j.

(** The namespaces a refresh is about; they are published. *)
Definition targets (p : pc) : list Z :=
  match p with LRefresh ids => ids | LHeld j _ ids => j :: ids | _ => [] end.

Record inv (s : conf) : Prop := mkInv {
  iv_reg : reg_ok (lreg s);
  iv_dom : forall p id, p ∈ callers s -> id ∈ targets p -> is_Some (lby s !! id);
  iv_lock : mutex (callers s);
  iv_fresh : forall id l q, lby s !! id = Some l -> QuotaSnapshot (lreg s) id = (q, true) ->
    fresh_or_pending (callers s) id l q
}.

(** Replacing a caller's position keeps every other one. *)
Lemma elem_keep {A} (ps : list A) i p p' q :
  ps !! i = Some p -> q ∈ ps -> q = p \/ q ∈ <[i := p']> ps.
Proof.
  intros Hp [j Hj]%list_elem_of_lookup. destruct (decide (i = j)) as [->|Hne].
  - left. congruence.
  - right. apply (list_elem_of_lookup_2 _ j). by rewrite list_lookup_insert_ne.
Qed.

Lemma elem_new {A} (ps : list A) i p p' : ps !! i = Some p -> p' ∈ <[i := p']> ps.
Proof. intros Hp. apply list_elem_of_insert. by eapply lookup_lt_Some. Qed.

Lemma lock_insert ps i p p' :
  ps !! i = Some p ->
  mutex ps ->
  (holds p' = true -> unlocked ps) ->
  mutex (<[i := p']> ps).
Proof.
  intros Hp Hl Hu a b q r Ha Hb Hq Hr.
  apply list_lookup_insert_Some in Ha as [(-> & -> & _)|[? Ha]];
  apply list_lookup_insert_Some in Hb as [(-> & -> & _)|[? Hb]]; [done| | |eauto].
  - apply list_elem_of_lookup_2 in Hb. apply Hu in Hb; congruence.
  - apply list_elem_of_lookup_2 in Ha. apply Hu in Ha; congruence.
Qed.

(** A caller that keeps its duties keeps the cache on its way to fresh. *)
Lemma fresh_keep ps i p p' id l q :
  ps !! i = Some p -> (pending id p -> pending id p') ->
  holds p = false -> ~ holding id p' ->
  fresh_or_pending ps id l q -> fresh_or_pending (<[i := p']> ps) id l q.
Proof.
  intros Hp Hpend Hn Hn' [(r & Hr & Hrp)|[[ids Hids]|[Hno ->]]].
  - left. destruct (elem_keep ps i p p' r Hp Hr) as [->|]; [|by exists r].
    exists p'. split; [by eapply elem_new|auto].
  - right; left. exists ids. destruct (elem_keep ps i p p' _ Hp Hids) as [<-|]; done.
  - right; right. split; [|done]. intros r [->|Hr]%elem_insert; auto.
Qed.

Lemma fresh_pending ps i p p' id l q :
  ps !! i = Some p -> pending id p' -> fresh_or_pending (<[i := p']> ps) id l q.
Proof. intros Hp Hpend. left. exists p'. split; [by eapply elem_new|done]. Qed.

(** While [i] holds the lock nobody else does, so releasing frees it. *)
Lemma holder_unique ps i p q :
  mutex ps -> ps !! i = Some p -> holds p = true -> q ∈ ps -> holds q = true -> q = p.
Proof.
  intros Hl Hp Hh [j Hj]%list_elem_of_lookup Hq. rewrite (Hl _ _ _ _ Hp Hj Hh Hq) in Hp. congruence.
Qed.

Lemma unlock_free ps i p p' :
  mutex ps -> ps !! i = Some p -> holds p = true -> holds p' = false -> unlocked (<[i := p']> ps).
Proof.
  intros Hl Hp Hh Hn q [j Hj]%list_elem_of_lookup.
  apply list_lookup_insert_Some in Hj as [(_ & -> & _)|[Hne Hj]]; [done|].
  destruct (holds q) eqn:Hq; [|done]. by rewrite (Hl _ _ _ _ Hp Hj Hh Hq) in Hne.
Qed.

Lemma fresh_store ps i id0 l0 found ids (b : gmap Z (list Z)) id l q :
  ps !! i = Some (LHeld id0 (l0, found) ids) -> mutex ps ->
  (forall l, b !! id = Some l -> fresh_or_pending ps id l q) -> is_Some (b !! id) ->
  (if found then <[id0 := l0]> b else b) !! id = Some l ->
  fresh_or_pending (<[i := LRefresh ids]> ps) id l q.
Proof.
  intros Hp Hl Hf [l1 Hb] Hs. destruct (Hf _ Hb) as [(r & Hr & Hrp)|[[ids' Hids]|[Hno ->]]].
  - left. destruct (elem_keep ps i _ (LRefresh ids) r Hp Hr) as [->|]; [|by exists r].
    exists (LRefresh ids). split; [by eapply elem_new|done].
  - pose proof (holder_unique _ _ _ _ Hl Hp eq_refl Hids eq_refl) as [= -> <- <- ->].
    right; right. rewrite lookup_insert_eq in Hs. split; [|congruence].
    intros r Hr. pose proof (unlock_free _ _ _ (LRefresh ids) Hl Hp eq_refl eq_refl r Hr).
    destruct r; cbn in *; tauto || discriminate.
  - right; right. assert (id <> id0) as Hne.
    { intros ->. apply (Hno _ (list_elem_of_lookup_2 _ _ _ Hp)). done. }
    split; [|destruct found; rewrite ?lookup_insert_ne in Hs by done; congruence].
    intros r [->|Hr]%elem_insert; auto.
Qed.

Lemma fresh_advance r b ps i p b' p' id l q :
  ps !! i = Some p -> mutex ps -> may_advance ps p -> advance r b p = Some (b', p') ->
  (forall p id, p ∈ ps -> id ∈ targets p -> is_Some (b !! id)) ->
  (forall l, b !! id = Some l -> fresh_or_pending ps id l q) ->
  QuotaSnapshot r id = (q, true) -> b' !! id = Some l ->
  fresh_or_pending (<[i := p']> ps) id l q.
Proof.
  intros Hp Hl Hmay Ha Hd Hf Hq Hb. destruct p as [|j|j|j lj|[|j ids]|j [lj found] ids]; cbn in Ha.
  - done.
  - injection Ha as <- <-. destruct (decide (j = id)) as [->|Hne].
    + rewrite Hb. eapply fresh_pending; [done|]. cbn. set_solver.
    + eapply fresh_keep; eauto; destruct (b !! j); cbn; auto; done.
  - destruct (QuotaSnapshot r j). injection Ha as <- <-. eapply fresh_keep; eauto.
  - destruct (b !! j) eqn:Hj; injection Ha as <- <-; [eapply fresh_keep; eauto|].
    destruct (decide (j = id)) as [->|Hne].
    + eapply fresh_pending; [done|]. cbn. set_solver.
    + rewrite lookup_insert_ne in Hb by done. eapply fresh_keep; eauto; done.
  - injection Ha as <- <-. eapply fresh_keep; eauto. cbn. set_solver.
  - injection Ha as <- <-. destruct (decide (j = id)) as [->|Hne].
    + right; left. exists ids. rewrite Hq. by eapply elem_new.
    + eapply fresh_keep; eauto; cbn. clear -Hne. set_solver.
  - injection Ha as <- <-. eapply fresh_store; eauto.
    destruct found; [|by eexists]. destruct (decide (j = id)) as [->|].
    + apply (Hd _ _ (list_elem_of_lookup_2 _ _ _ Hp)). cbn. set_solver.
    + rewrite lookup_insert_ne in Hb by done. by eexists.
Qed.

Lemma advance_targets r b p b' p' :
  (forall id, id ∈ targets p -> is_Some (b !! id)) -> advance r b p = Some (b', p') ->
  (forall id, id ∈ targets p' -> is_Some (b' !! id)) /\ (forall id, is_Some (b !! id) -> is_Some (b' !! id)).
Proof.
  intros Hd Ha. destruct p as [|j|j|j lj|[|j ids]|j [lj found] ids]; cbn in Ha.
  - done.
  - injection Ha as <- <-. split; [|done]. destruct (b !! j) eqn:Hj; cbn; [|set_solver].
    intros id ->%list_elem_of_singleton. by rewrite Hj.
  - destruct (QuotaSnapshot r j). injection Ha as <- <-. cbn. set_solver.
  - destruct (b !! j) eqn:Hj; injection Ha as <- <-; [cbn; set_solver|]. split.
    + intros id ->%list_elem_of_singleton. by rewrite lookup_insert_eq.
    + intros id. rewrite lookup_insert_is_Some'. by right.
  - injection Ha as <- <-. cbn. set_solver.
  - injection Ha as <- <-. done.
  - injection Ha as <- <-. cbn in *.
    assert (forall id, is_Some (b !! id) -> is_Some ((if found then <[j:=lj]> b else b) !! id)) as Hm.
    { intros id. destruct found; [|done]. rewrite lookup_insert_is_Some'. by right. }
    split; [|done]. intros id Hid. apply Hm, Hd. by right.
Qed.

Lemma advance_holds r b ps p b' p' :
  may_advance ps p -> advance r b p = Some (b', p') -> holds p' = true -> unlocked ps.
Proof.
  intros Hm Ha Hh. destruct p as [|j|j|j lj|[|j ids]|j [lj found] ids]; cbn in *;
    repeat case_match; simplify_eq/=; done.
Qed.

Lemma lim_step s s' : inv s -> step s s' -> inv s'.
Proof.
  intros [Hr Hd Hl Hf] Hs.
  destruct Hs as [r b ps ns r' Hb Hq Ha|r b ps i name t v r' id0 Hp Hs|r b ps i id0 Hp Hb
                 |r b ps i ids Hp Hids|r b ps i p b' p' Hp Hm Ha]; cbn in *.
  - split; cbn; [by eapply Add_ok|done|done|]. intros id l q Hid Hsnap.
    rewrite (Add_snapshot_ne _ _ _ _ Hr Ha) in Hsnap by congruence. eauto.
  - split; cbn; [by eapply SetQuota_ok| |by eapply lock_insert|].
    + intros q id [->|Hq]%elem_insert Hid; [set_solver|eauto].
    + intros id l q Hid Hsnap. destruct (decide (id = id0)) as [->|Hne].
      * by eapply fresh_pending.
      * rewrite (SetQuota_snapshot_ne _ _ _ _ _ _ _ Hr Hs Hne) in Hsnap.
        eapply fresh_keep; eauto; cbn; tauto.
  - split; cbn; [done| |by eapply lock_insert|].
    + intros q id [->|Hq]%elem_insert Hid; [set_solver|eauto].
    + intros id l q Hid Hsnap. eapply fresh_keep; eauto; cbn; done.
  - split; cbn; [done| |by eapply lock_insert|].
    + intros q id [->|Hq]%elem_insert Hid; [|eauto]. cbn in Hid.
      rewrite Hids in Hid. apply list_elem_of_fmap in Hid as ([id' l] & -> & He).
      apply elem_of_map_to_list in He. by exists l.
    + intros id l q Hid Hsnap. eapply fresh_keep; eauto; cbn; done.
  - pose proof (list_elem_of_lookup_2 _ _ _ Hp) as Hin.
    destruct (advance_targets r b p b' p' (fun id => Hd p id Hin) Ha) as [Ht Hkeep].
    split; cbn; [done| |eapply lock_insert; eauto using advance_holds|].
    + intros q id [->|Hq]%elem_insert Hid; eauto.
    + intros id l q Hid Hsnap. eapply fresh_advance; eauto.
Qed.

Lemma lim_init r n : reg_ok r -> inv (mkConf r ∅ (replicate n LIdle)).
Proof.
  intros Hr. split; cbn; [done| | |set_solver].
  - intros p id ->%elem_of_replicate_inv. set_solver.
  - intros i j p q Hi _ Hh. apply list_elem_of_lookup_2, elem_of_replicate_inv in Hi. by subst.
Qed.


End Limits.

Module QuotaFacts.
Import Registry Quotas.

Definition usage_ok (u : nsUsage) : Prop := length (used u) = 3%nat.

(** Every usage domain has its three tiers. *)
Definition quotas_ok (q : Quotas) : Prop := map_Forall (fun _ => usage_ok) (by_ q).

(** What the accountant holds for (namespace, tier), domain or not. *)
Definition usedOf (q : Quotas) (ns : Z) : list Z :=
  match by_ q !! ns with Some u => used u | None => tier3 end.
Definition limitOf (q : Quotas) (ns : Z) : list Z :=
  match by_ q !! ns with Some u => limit u | None => firstLimits q ns end.

Lemma domain_spec q ns :
  domain q ns = (putUsage q ns (mkUsage (usedOf q ns) (limitOf q ns)),
                 mkUsage (usedOf q ns) (limitOf q ns)).
Proof.
  unfold domain, usedOf, limitOf. destruct (by_ q !! ns) as [[us ls]|] eqn:Hb; cbn.
  - unfold putUsage. rewrite insert_id by done. by destruct q.
  - unfold refreshLimits, firstLimits, putUsage. cbn. destruct (reg q) as [r|]; [|done].
    destruct (QuotaSnapshot r ns) as [l []]; [|done]. cbn. by rewrite insert_insert_eq.
Qed.

Lemma usedOf_length q ns : quotas_ok q -> length (usedOf q ns) = 3%nat.
Proof.
  intros Hq. unfold usedOf. destruct (by_ q !! ns) eqn:Hb; [|done]. by apply (Hq ns) in Hb.
Qed.

Lemma Usage_usedOf q ns t : badTier t = false -> Usage q ns t = at_ (usedOf q ns) t.
Proof.
  intros Ht. unfold Usage, peek, usedOf. rewrite Ht. destruct (by_ q !! ns); [done|].
  unfold badTier, tierCount in Ht. assert (t = 0 \/ t = 1 \/ t = 2) as [-> | [-> | ->]] by lia; done.
Qed.

Lemma Usage_put q ns u ns' t :
  Usage (putUsage q ns u) ns' t =
  if decide (ns' = ns) then (if badTier t then 0 else at_ (used u) t) else Usage q ns' t.
Proof.
  unfold Usage, peek, putUsage. cbn. destruct (badTier t); [by case_decide|].
  case_decide as Hd; [subst; by rewrite lookup_insert_eq|by rewrite lookup_insert_ne].
Qed.

Lemma at_insert l t t' v :
  badTier t = false -> badTier t' = false -> length l = 3%nat ->
  at_ (<[Z.to_nat t := v]> l) t' = if decide (t' = t) then v else at_ l t'.
Proof.
  intros Ht Ht' Hl. unfold badTier, tierCount, at_ in *. case_decide as Hd.
  - subst. rewrite list_lookup_total_insert_eq; [done|lia].
  - rewrite list_lookup_total_insert_ne; [done|lia].
Qed.

(** One tier's counter of one namespace set to [v], all others as in [q]. *)
Definition usage_set (q q' : Quotas) (ns t v : Z) : Prop :=
  quotas_ok q' /\ reg q' = reg q /\
  forall ns' t', badTier t' = false ->
    Usage q' ns' t' = if decide (ns' = ns /\ t' = t) then v else Usage q ns' t'.

Lemma put_usage_set q ns t v ls :
  quotas_ok q -> badTier t = false ->
  usage_set q (putUsage q ns (mkUsage (<[Z.to_nat t := v]> (usedOf q ns)) ls)) ns t v.
Proof.
  intros Hq Ht. pose proof (usedOf_length q ns Hq) as Hl. split_and!; [|done|].
  - apply map_Forall_insert_2; [|done]. unfold usage_ok. cbn. by rewrite length_insert.
  - intros ns' t' Ht'. rewrite Usage_put, Ht'. cbn [used]. rewrite at_insert by done.
    rewrite (Usage_usedOf q ns' t') by done. repeat case_decide; naive_solver.
Qed.

(** What each accounting verb does to the counters. *)
Lemma Seed_set q ns t n :
  quotas_ok q -> badTier t = false -> 0 < n ->
  usage_set q (Seed q ns t n) ns t (i64 (Usage q ns t + n)).
Proof.
  intros Hq Ht Hn. unfold Seed. rewrite Ht. replace (n <=? 0) with false by lia. cbn [orb].
  rewrite domain_spec. unfold addUsed. cbn [used limit]. rewrite <- Usage_usedOf by done.
  unfold putUsage at 1. cbn. rewrite insert_insert_eq. by apply put_usage_set.
Qed.

Lemma Refund_set q ns t n :
  quotas_ok q -> badTier t = false -> 0 < n ->
  - 2 ^ 63 <= Usage q ns t - n < 2 ^ 63 ->
  usage_set q (Refund q ns t n) ns t (Z.max 0 (Usage q ns t - n)).
Proof.
  intros Hq Ht Hn Hb. unfold Refund. rewrite Ht. replace (n <=? 0) with false by lia. cbn [orb].
  rewrite domain_spec. unfold addUsed. cbn [used limit]. rewrite <- Usage_usedOf by done.
  replace (Usage q ns t + - n) with (Usage q ns t - n) by lia.
  unfold i64. rewrite sint_id by lia. case_if; unfold putUsage at 1; cbn; rewrite ?insert_insert_eq.
  - rewrite Z.max_l by lia. by apply put_usage_set.
  - rewrite Z.max_r by lia. by apply put_usage_set.
Qed.

Lemma tier3_at t : badTier t = false -> at_ tier3 t = 0.
Proof.
  unfold badTier, tierCount. intros Ht.
  assert (t = 0 \/ t = 1 \/ t = 2) as [-> | [-> | ->]] by lia; done.
Qed.

(** What the two probes and the admission agree on: the current usage and the
    limit in force, the registry's where there is no domain yet. *)
Lemma WouldExceed_spec q ns t n :
  badTier t = false -> 0 < n < 2 ^ 63 ->
  WouldExceed q ns t n =
  (0 <? at_ (limitOf q ns) t) && (at_ (limitOf q ns) t <? i64 (at_ (usedOf q ns) t + n)).
Proof.
  intros Ht Hn. unfold WouldExceed, peek, limitOf, usedOf, registryLimit, firstLimits. rewrite Ht.
  replace (n <=? 0) with false by lia. cbn [orb]. destruct (by_ q !! ns); [done|].
  rewrite tier3_at by done. unfold i64. rewrite sint_id by lia.
  destruct (reg q) as [r|]; [destruct (QuotaSnapshot r ns) as [l []]|]; rewrite ?tier3_at by done;
    by rewrite ?Z.add_0_l.
Qed.

Lemma Charge_spec q ns t n :
  badTier t = false -> 0 < n ->
  exists q', domain q ns = (q', mkUsage (usedOf q ns) (limitOf q ns)) /\
  Charge q ns t n =
    if (0 <? at_ (limitOf q ns) t) && (at_ (limitOf q ns) t <? i64 (at_ (usedOf q ns) t + n))
    then (q', Some ErrQuota)
    else (addUsed q' ns (mkUsage (usedOf q ns) (limitOf q ns)) t n, None).
Proof.
  intros Ht Hn. unfold Charge. rewrite Ht. replace (n <=? 0) with false by lia. cbn [orb].
  rewrite domain_spec. eexists; split; [done|]. cbn [limit used].
  rewrite Z.leb_antisym. destruct (0 <? at_ (limitOf q ns) t); done.
Qed.

Lemma Charge_set q ns t n :
  quotas_ok q -> badTier t = false -> 0 < n < 2 ^ 63 ->
  if WouldExceed q ns t n
  then snd (Charge q ns t n) = Some ErrQuota /\
       forall ns' t', Usage (fst (Charge q ns t n)) ns' t' = Usage q ns' t'
  else snd (Charge q ns t n) = None /\
       usage_set q (fst (Charge q ns t n)) ns t (i64 (Usage q ns t + n)).
Proof.
  intros Hq Ht Hn. rewrite WouldExceed_spec by done.
  destruct (Charge_spec q ns t n Ht) as (q' & Hd & ->); [lia|].
  rewrite domain_spec in Hd. injection Hd as <-. case_if; cbn [fst snd]; (split; [done|]).
  - intros ns' t'. rewrite Usage_put. case_decide as He; [subst|done]. cbn [used].
    destruct (badTier t') eqn:Ht'; [by unfold Usage; rewrite Ht'|by rewrite Usage_usedOf].
  - unfold addUsed. cbn [used limit]. unfold putUsage at 1. cbn. rewrite insert_insert_eq.
    rewrite <- Usage_usedOf by done. by apply put_usage_set.
Qed.

Lemma Charge_ok q ns t n :
  quotas_ok q -> badTier t = false -> 0 < n < 2 ^ 63 -> quotas_ok (fst (Charge q ns t n)).
Proof.
  intros Hq Ht Hn. pose proof (Charge_set q ns t n Hq Ht Hn) as Hs. case_if_in Hs; [|apply Hs].
  destruct (Charge_spec q ns t n Ht) as (q' & Hd & E); [lia|]. rewrite domain_spec in Hd.
  injection Hd as <-. rewrite E in Hs |- *. case_if; [|by destruct Hs]. cbn.
  apply map_Forall_insert_2; [|done]. by apply usedOf_length.
Qed.

(** The advisory probe at the start of a PUT tells what the binding charge
    at publish would do if nothing moved in between: [WouldExceed] is true
    exactly when [Charge] fails, and a charge that succeeds adds exactly the
    bytes to that one counter. *)
Theorem charge_matches_probe q ns t n :
  quotas_ok q -> badTier t = false -> 0 < n < 2 ^ 63 ->
  if WouldExceed q ns t n
  then snd (Charge q ns t n) = Some ErrQuota /\
       forall ns' t', Usage (fst (Charge q ns t n)) ns' t' = Usage q ns' t'
  else snd (Charge q ns t n) = None /\
       usage_set q (fst (Charge q ns t n)) ns t (i64 (Usage q ns t + n)).
Proof. apply Charge_set. Qed.

(** A tier move conserves the tenant's bytes: what leaves one tier's
    counter arrives in the other's, and no other counter changes. *)
Theorem transfer_conserves q ns from to n :
  quotas_ok q -> badTier from = false -> badTier to = false -> from <> to ->
  0 < n <= Usage q ns from -> Usage q ns from < 2 ^ 63 -> 0 <= Usage q ns to ->
  Usage q ns to + n < 2 ^ 63 ->
  forall ns' t', badTier t' = false ->
    Usage (Transfer q ns from to n) ns' t' =
    if decide (ns' = ns /\ t' = from) then Usage q ns from - n
    else if decide (ns' = ns /\ t' = to) then Usage q ns to + n else Usage q ns' t'.
Proof.
  intros Hq Hf Ht Hne Hn Hb1 Hb2 Hb3 ns' t' Ht'. unfold Transfer.
  replace (n <=? 0) with false by lia. rewrite domain_spec.
  replace ((0 <=? to) && (to <? tierCount)) with true
    by (unfold badTier, tierCount in *; lia).
  destruct (Seed_set q ns to n Hq Ht) as (Hq1 & _ & Hu1); [lia|].
  unfold Seed in Hq1, Hu1. rewrite Ht in Hq1, Hu1.
  replace (n <=? 0) with false in Hq1, Hu1 by lia. cbn [orb] in Hq1, Hu1.
  rewrite domain_spec in Hq1, Hu1.
  set (q1 := addUsed _ _ _ _ _) in *.
  assert (Usage q1 ns from = Usage q ns from) as E
    by (rewrite Hu1 by done; case_decide; naive_solver).
  destruct (Refund_set q1 ns from n Hq1 Hf) as (_ & _ & Hu2); [lia|rewrite E; lia|].
  rewrite Hu2, E, Hu1 by done. unfold i64. rewrite sint_id by lia.
  repeat case_decide; try done. lia.
Qed.

(** A namespace added at run time after its blocks were recovered has no
    enforced quota. Recovery seeds the ledger of an id that is not in the
    registry, which caches empty limits; adding the namespace with a DRAM
    quota of 100 afterwards notifies nobody, so a charge of 1000 is admitted. *)
Theorem late_add_unlimited :
  exists q, q = fst (addNamespace (Seed (NewQuotas (Some emptyRegistry)) 7 TierNVMe 1)
                       (mkNamespace 7 "tenant" (zeros 32) [100; 0; 0] 0)) /\
  registryLimit q 7 TierDRAM = 100 /\ Limit q 7 TierDRAM = 0 /\
  snd (Charge q 7 TierDRAM 1000) = None /\
  Usage (fst (Charge q 7 TierDRAM 1000)) 7 TierDRAM = 1000.
Proof. eexists. split; [reflexivity|]. by vm_compute. Qed.

(** An accountant over a registry with one tenant limited to 100 bytes of DRAM
    and 60 bytes charged. *)
Definition sampleReg : Registry :=
  fst (Add emptyRegistry (mkNamespace 7 "tenant" (zeros 32) [100; 0; 0] 0)).
Definition sample : Quotas := fst (Charge (NewQuotas (Some sampleReg)) 7 TierDRAM 60).

Lemma sample_ok : quotas_ok sample.
Proof. apply (bool_decide_unpack _). by vm_compute. Qed.

Lemma charge_matches_probe_witness :
  WouldExceed sample 7 TierDRAM 41 = true /\
  snd (Charge sample 7 TierDRAM 41) = Some ErrQuota /\
  snd (Charge sample 7 TierDRAM 40) = None.
Proof.
  split; [reflexivity|]. split.
  - apply (charge_matches_probe sample 7 TierDRAM 41); [apply sample_ok|reflexivity|lia].
  - apply (charge_matches_probe sample 7 TierDRAM 40); [apply sample_ok|reflexivity|lia].
Defined.

Lemma transfer_conserves_witness :
  Usage sample 7 TierDRAM = 60 /\
  Usage (Transfer sample 7 TierDRAM TierNVMe 25) 7 TierDRAM = 60 - 25 /\
  Usage (Transfer sample 7 TierDRAM TierNVMe 25) 7 TierNVMe = 0 + 25.
Proof.
  assert (Usage sample 7 TierDRAM = 60 /\ Usage sample 7 TierNVMe = 0) as [E1 E2] by done.
  split; [done|].
  split; rewrite (transfer_conserves sample 7 TierDRAM TierNVMe 25);
    rewrite ?E1, ?E2; solve [apply sample_ok | reflexivity | done | lia].
Defined.

End QuotaFacts.

(** A quota change that lands inside the first-touch window, end to end. *)
Module LimitsWitness.
Import Registry Limits QuotaFacts.

Definition changedReg : Registry := fst (fst (SetQuota sampleReg "tenant" TierDRAM 50)).

Definition settled : conf :=
  mkConf changedReg (<[7 := [50; 0; 0]]> (<[7 := [100; 0; 0]]> ∅)) [LIdle; LIdle].

Lemma window_run :
  rtc step (mkConf sampleReg ∅ (replicate 2 LIdle)) settled.
Proof.
  eapply rtc_l; [by apply (step_touch _ _ _ 0%nat 7)|].
  eapply rtc_l; [by apply (step_advance _ _ _ 0%nat (LSnap 7))|].
  eapply rtc_l; [by apply (step_set _ _ _ 1%nat "tenant" TierDRAM 50 changedReg 7)|].
  eapply rtc_l; [by apply (step_advance _ _ _ 1%nat (LNotify 7))|].
  eapply rtc_l; [by apply (step_advance _ _ _ 0%nat (LPublish 7 [100; 0; 0]))|].
  eapply rtc_l; [apply (step_advance _ _ _ 0%nat (LRefresh [7])); [done| |done]|].
  { intros p Hp. repeat (apply elem_of_cons in Hp as [->|Hp]; [done|]). by apply elem_of_nil in Hp. }
  eapply rtc_l; [by apply (step_advance _ _ _ 0%nat (LHeld 7 ([50; 0; 0], true) []))|].
  apply rtc_once. by apply (step_advance _ _ [LRefresh []; LIdle] 0%nat (LRefresh []) _ LIdle).
Qed.


End LimitsWitness.
