(* ===== verification/Eviction.v ===== *)
(** The eviction interface: [internal/eviction/eviction.go], and the bounded
    memory of evicted fingerprints, [internal/eviction/ghost.go].

    [Policy] is the Go interface as a type class: the DRAM store is modelled
    and verified against it, for any policy; the policies of the repository are
    its instances. *)

From Stdlib Require Import ZArith Lia.
From coqutil Require Import Byte.
From stdpp Require Import base numbers list gmap sets.
From S2P Require Import Prelude.
Open Scope Z_scope.

Module Eviction.

(** Block identity, [dram.Key] and [eviction.Key]: namespace and content hash. *)
Record Key := mkKey { NS : Z; Hash : bytes }.

#[export] Instance Key_eq_dec : EqDecision Key.
Proof. solve_decision. Defined.

#[export] Program Instance Key_countable : Countable Key :=
  inj_countable' (fun k => (NS k, Hash k)) (fun p => mkKey p.1 p.2) _.
Next Obligation. by intros []. Qed.

Record Candidate := mkCandidate { c_Key : Key; c_Size : Z }.

Record DomainUsage := mkDomainUsage { d_NS : Z; d_Bytes : Z; d_GhostBytes : Z }.

(** The policy interface; [None] is a panic. [Name] is not part of it: it has
    no behaviour. *)
Class Policy (P : Type) := {
  pol_Admit : P -> Key -> Z -> Z -> option P;
  pol_Touch : P -> Key -> Z -> option P;
  pol_Remove : P -> Key -> option P;
  pol_Victims : P -> Z -> Z -> Z -> option (P * list Candidate);
  pol_Usage : P -> Z -> option (P * list DomainUsage);
  pol_DropDomain : P -> Z -> option P
}.

(** What the store relies on: from a well-formed policy no method panics, and
    the policy stays well-formed. *)
Class PolicyLaws (P : Type) `{!Policy P} := {
  pol_wf : P -> Prop;
  pol_Admit_ok : forall p k n t, pol_wf p -> exists p', pol_Admit p k n t = Some p' /\ pol_wf p';
  pol_Touch_ok : forall p k t, pol_wf p -> exists p', pol_Touch p k t = Some p' /\ pol_wf p';
  pol_Remove_ok : forall p k, pol_wf p -> exists p', pol_Remove p k = Some p' /\ pol_wf p';
  pol_Victims_ok : forall p ns need t, pol_wf p -> exists p' cs, pol_Victims p ns need t = Some (p', cs) /\ pol_wf p';
  pol_Usage_ok : forall p t, pol_wf p -> exists p' us, pol_Usage p t = Some (p', us) /\ pol_wf p';
  pol_DropDomain_ok : forall p ns, pol_wf p -> exists p', pol_DropDomain p ns = Some p' /\ pol_wf p'
}.

End Eviction.

(** ** The ghost ring *)

Module Ghost.

(** The [nil] ring is the empty list. [set] holds the members of the ring. *)
Record ghostRing := mkGhost { ring : list Z; set_ : gset Z; head : Z; n : Z }.

Definition emptyGhost : ghostRing := mkGhost [] ∅ 0 0.

Definition ghostFloor : Z := 1024.

Definition contains (g : ghostRing) (fp : Z) : bool := bool_decide (fp ∈ set_ g).

(** [make([]uint64, n)]. *)
Definition makeRing (c : Z) : list Z := replicate (Z.to_nat c) 0.

Definition push (g : ghostRing) (fp : Z) : option ghostRing :=
  let g := match ring g with
           | [] => mkGhost (makeRing ghostFloor) ∅ (head g) (n g)
           | _ => g
           end in
  if contains g fp then Some g else
  g ← (if n g =? len (ring g) then
         old ← index (ring g) (head g);
         r ← store (ring g) (head g) fp;
         Some (mkGhost r (set_ g ∖ {[old]}) (Z.rem (head g + 1) (len (ring g))) (n g))
       else
         r ← store (ring g) (Z.rem (head g + n g) (len (ring g))) fp;
         Some (mkGhost r (set_ g) (head g) (n g + 1)));
  Some (mkGhost (ring g) ({[fp]} ∪ set_ g) (head g) (n g)).

(** The entries from position [start], oldest first: [k] of them, written to
    the front of [fresh]. *)
Fixpoint copyRing (r : list Z) (hd start : Z) (i k : nat) (fresh : list Z) : option (list Z) :=
  match k with
  | O => Some fresh
  | S k =>
      x ← index r (Z.rem (hd + start + Z.of_nat i) (len r));
      fresh ← store fresh (Z.of_nat i) x;
      copyRing r hd start (S i) k fresh
  end.

Definition grow (g : ghostRing) (newCap : Z) : option ghostRing :=
  if newCap <=? len (ring g) then Some g else
  fresh ← copyRing (ring g) (head g) 0 0 (Z.to_nat (n g)) (makeRing newCap);
  Some (mkGhost fresh (set_ g) 0 (n g)).

Definition shrink (g : ghostRing) (newCap : Z) : option ghostRing :=
  let newCap := if newCap <? ghostFloor then ghostFloor else newCap in
  if bool_decide (ring g = []) || (len (ring g) <=? newCap) then Some g else
  let keep := if newCap <? n g then newCap else n g in
  let start := n g - keep in
  fresh ← copyRing (ring g) (head g) start 0 (Z.to_nat keep) (makeRing newCap);
  Some (mkGhost fresh (list_to_set (take (Z.to_nat keep) fresh)) 0 keep).

Definition size (g : ghostRing) : Z := n g.
Definition capacity (g : ghostRing) : Z := len (ring g).
Definition ghostSetEntryBytes : Z := 48.
Definition ghostBytes (g : ghostRing) : Z := len (ring g) * 8 + n g * ghostSetEntryBytes.

(** ** What the ring remembers *)

(** The remembered fingerprints, oldest first. *)
Definition entryAt (g : ghostRing) (i : nat) : Z :=
  ring g !!! Z.to_nat ((head g + Z.of_nat i) `mod` len (ring g)).
Definition entries (g : ghostRing) : list Z := entryAt g <$> seq 0 (Z.to_nat (n g)).

Record ghost_ok (g : ghostRing) : Prop := mkGhostOk {
  go_n : 0 <= n g <= len (ring g);
  go_head : ring g <> [] -> 0 <= head g < len (ring g);
  go_nil : ring g = [] -> head g = 0;
  go_nodup : NoDup (entries g);
  go_set : set_ g = list_to_set (entries g)
}.

End Ghost.

Module GhostFacts.
Import Ghost.

Lemma ring_pos x c : 0 < c -> 0 <= x < 2 * c -> x `mod` c = if x <? c then x else x - c.
Proof.
  intros Hc Hx. case_if.
  - apply Z.mod_small. lia.
  - symmetry. apply (Z.mod_unique_pos x c 1); lia.
Qed.

Lemma rem_pos x c : 0 < c -> 0 <= x < 2 * c -> Z.rem x c = if x <? c then x else x - c.
Proof. intros Hc Hx. rewrite Z.rem_mod_nonneg by lia. by apply ring_pos. Qed.

Lemma index_total {A} `{Inhabited A} (l : list A) i :
  0 <= i < len l -> index l i = Some (l !!! Z.to_nat i).
Proof.
  intros Hi. unfold index. replace (0 <=? i) with true by lia.
  apply list_lookup_lookup_total_lt. unfold len in *. lia.
Qed.

Lemma store_total {A} (l : list A) i x : 0 <= i < len l -> store l i x = Some (<[Z.to_nat i := x]> l).
Proof. intros Hi. unfold store. by replace (_ && _) with true by lia. Qed.

Lemma insert_total_eq {A} `{Inhabited A} (l : list A) i j x :
  0 <= i < len l -> 0 <= j -> <[Z.to_nat i := x]> l !!! Z.to_nat j = if j =? i then x else l !!! Z.to_nat j.
Proof.
  intros Hi Hj. case_if.
  - apply Z.eqb_eq in Hif. subst. apply list_lookup_total_insert_eq. unfold len in *. lia.
  - apply list_lookup_total_insert_ne. lia.
Qed.

Lemma tail_drop {A} (l : list A) : tail l = drop 1 l.
Proof. by destruct l. Qed.

(** Two rings with the same entry at every position have the same entries. *)
Lemma entries_ext g g' (f : nat -> nat) :
  (forall i, Z.of_nat i < n g' -> entryAt g' i = entryAt g (f i)) ->
  entries g' = (fun i => entryAt g (f i)) <$> seq 0 (Z.to_nat (n g')).
Proof.
  intros H. unfold entries. apply list_fmap_ext. intros i x Hx.
  apply lookup_seq in Hx as [-> Hlt]. apply H. lia.
Qed.

Lemma entries_length g : length (entries g) = Z.to_nat (n g).
Proof. unfold entries. by rewrite length_fmap, length_seq. Qed.

Lemma entries_lookup g i : (i < Z.to_nat (n g))%nat -> entries g !! i = Some (entryAt g i).
Proof. intros Hi. unfold entries. rewrite list_lookup_fmap, lookup_seq_lt by done. done. Qed.

(** [copyRing] writes the chosen entries in order. *)
Lemma copyRing_spec r hd start i k fresh :
  0 <= hd < len r -> 0 <= start -> start + Z.of_nat (i + k) <= len r -> Z.of_nat (i + k) <= len fresh ->
  exists fresh', copyRing r hd start i k fresh = Some fresh' /\ len fresh' = len fresh /\
    (forall j, (j < i)%nat -> fresh' !!! j = fresh !!! j) /\
    (forall j, (i <= j < i + k)%nat ->
       fresh' !!! j = r !!! Z.to_nat ((hd + start + Z.of_nat j) `mod` len r)).
Proof.
  intros Hhd Hst. revert i fresh. induction k as [|k IH]; intros i fresh Hr Hf.
  { exists fresh. split_and!; [done|done|done|lia]. }
  cbn [copyRing]. rewrite Z.rem_mod_nonneg by lia.
  assert (0 <= (hd + start + Z.of_nat i) `mod` len r < len r) as Hm by (apply Z.mod_pos_bound; lia).
  rewrite index_total by done. cbn [mbind option_bind]. rewrite store_total by lia. cbn [mbind option_bind].
  rewrite Nat2Z.id. set (x := r !!! _).
  destruct (IH (S i) (<[i := x]> fresh)) as (fresh' & -> & Hl & Hlo & Hhi); [lia|rewrite len_insert; lia|].
  exists fresh'. split_and!; [done|by rewrite Hl, len_insert| |].
  - intros j Hj. rewrite Hlo by lia. apply list_lookup_total_insert_ne. lia.
  - intros j Hj. destruct (decide (j = i)) as [->|]; [|apply Hhi; lia].
    rewrite Hlo by lia. apply list_lookup_total_insert_eq. unfold len in *. lia.
Qed.

Lemma len_makeRing c : 0 <= c -> len (makeRing c) = c.
Proof. intros. unfold makeRing. rewrite len_replicate. lia. Qed.

(** A rebuilt ring holds a suffix of the entries. *)
Lemma copyRing_entries g start c :
  ghost_ok g -> ring g <> [] -> 0 <= start <= n g -> n g - start <= c ->
  exists fresh, copyRing (ring g) (head g) start 0 (Z.to_nat (n g - start)) (makeRing c) = Some fresh /\
    len fresh = c /\ take (Z.to_nat (n g - start)) fresh = drop (Z.to_nat start) (entries g).
Proof.
  intros [Hn Hh _ _ _] Hne Hs Hc. specialize (Hh Hne).
  destruct (copyRing_spec (ring g) (head g) start 0 (Z.to_nat (n g - start)) (makeRing c))
    as (fresh & -> & Hl & _ & He); [done|lia|lia|rewrite len_makeRing by lia; lia|].
  rewrite len_makeRing in Hl by lia. exists fresh. split_and!; [done|done|].
  apply list_eq_same_length with (Z.to_nat (n g - start)).
  - rewrite length_drop, entries_length. lia.
  - rewrite length_take. unfold len in *. lia.
  - intros i x y Hi Hx Hy. rewrite lookup_take_lt in Hx by done.
    rewrite lookup_drop, entries_lookup in Hy by lia. injection Hy as <-.
    apply list_lookup_total_correct in Hx as <-. rewrite He by lia. unfold entryAt.
    do 3 f_equal. lia.
Qed.

(** Entries of a ring that starts at position 0. *)
Lemma entries_front r s k : 0 <= k <= len r -> entries (mkGhost r s 0 k) = take (Z.to_nat k) r.
Proof.
  intros Hk. apply list_eq_same_length with (Z.to_nat k).
  - rewrite length_take. unfold len in *. lia.
  - by rewrite entries_length.
  - intros i x y Hi Hx Hy. rewrite entries_lookup in Hx by done. injection Hx as <-.
    rewrite lookup_take_lt in Hy by done. apply list_lookup_total_correct in Hy as <-.
    unfold entryAt. cbn [ring head]. rewrite Z.mod_small by lia. f_equal. lia.
Qed.

Lemma front_ok r s k :
  0 <= k <= len r -> NoDup (take (Z.to_nat k) r) -> s = list_to_set (take (Z.to_nat k) r) ->
  r <> [] -> ghost_ok (mkGhost r s 0 k).
Proof.
  intros Hk Hnd Hs Hne. split; cbn [n ring head set_]; rewrite ?entries_front by done; try done.
  intros _. destruct r; [done|]. rewrite len_cons. pose proof (len_nonneg r). lia.
Qed.

Lemma grow_spec g c :
  ghost_ok g -> exists g', grow g c = Some g' /\ ghost_ok g' /\ entries g' = entries g /\
    capacity g' = Z.max c (capacity g).
Proof.
  intros Hg. unfold grow, capacity. case_if; [exists g; bool_props; split_and!; try done; lia|].
  bool_props. destruct (decide (ring g = [])) as [E|Hne].
  - pose proof (go_n g Hg) as Hn. rewrite E in *. change (@len Z []) with 0 in *.
    assert (n g = 0) as E0 by lia. rewrite E0. cbn [Z.to_nat copyRing mbind option_bind].
    assert (entries g = []) as Ee by (unfold entries; by rewrite E0).
    assert (entries (mkGhost (makeRing c) (set_ g) 0 0) = []) as Ee' by done.
    eexists. split_and!; [done| |by rewrite Ee|cbn [ring]; rewrite len_makeRing; lia].
    split; cbn [n ring head set_]; rewrite ?Ee'.
    + rewrite len_makeRing; lia.
    + intros _. rewrite len_makeRing; lia.
    + done.
    + constructor.
    + by rewrite (go_set g Hg), Ee.
  - destruct (copyRing_entries g 0 c Hg Hne) as (fresh & Hc & Hl & Ht).
    { pose proof (go_n g Hg). lia. } { pose proof (go_n g Hg). lia. }
    rewrite Z.sub_0_r in *. rewrite Hc. cbn. rewrite drop_0 in Ht.
    pose proof (go_n g Hg). pose proof (go_nodup g Hg). pose proof (go_set g Hg).
    eexists. split_and!; [done| | |cbn; lia].
    + apply front_ok; rewrite ?Ht; try done; [lia|]. intros ->. unfold len in *. cbn in *. lia.
    + rewrite entries_front; [done|lia].
Qed.

Lemma shrink_spec g c :
  ghost_ok g -> exists g', shrink g c = Some g' /\ ghost_ok g' /\
    entries g' = drop (Z.to_nat (n g - Z.max c ghostFloor)) (entries g) /\
    capacity g' = Z.min (capacity g) (Z.max c ghostFloor).
Proof.
  intros Hg. unfold shrink, capacity. pose proof (go_n g Hg) as Hn. unfold ghostFloor in *.
  set (c' := if c <? 1024 then 1024 else c).
  assert (c' = Z.max c 1024) as <- by (unfold c'; case_if; lia).
  assert (1024 <= c') by (unfold c'; case_if; lia).
  case_if.
  { assert (len (ring g) <= c') as Hle.
    { apply orb_true_iff in Hif as [E|E]; bool_props; [rewrite E; unfold len; cbn|]; lia. }
    exists g. split_and!; [done|done| |lia].
    by replace (Z.to_nat (n g - c')) with 0%nat by lia. }
  apply orb_false_iff in Hif as [Hne Hlt]. apply bool_decide_eq_false in Hne.
  set (keep := if c' <? n g then c' else n g).
  assert (keep = Z.min c' (n g)) as Ek by (unfold keep; case_if; lia).
  destruct (copyRing_entries g (n g - keep) c' Hg Hne) as (fresh & Hc & Hl & Ht); [lia|lia|].
  replace (n g - (n g - keep)) with keep in * by lia. rewrite Hc. cbn [mbind option_bind].
  replace (Z.to_nat (n g - c')) with (Z.to_nat (n g - keep)) by lia.
  eexists. split_and!; [done| | |cbn; lia].
  - apply front_ok; [lia| |done|intros ->; unfold len in Hl; cbn in Hl; lia].
    rewrite Ht. eapply sublist_NoDup; [apply Hg|apply sublist_drop].
  - rewrite entries_front by lia. done.
Qed.

(** A materialised ring, its entries unchanged. *)
Definition materialise (g : ghostRing) : ghostRing :=
  match ring g with [] => mkGhost (makeRing ghostFloor) ∅ (head g) (n g) | _ => g end.

Lemma materialise_ok g :
  ghost_ok g -> ghost_ok (materialise g) /\ entries (materialise g) = entries g /\
  capacity (materialise g) = (if bool_decide (ring g = []) then ghostFloor else capacity g) /\
  0 < len (ring (materialise g)) /\ 0 <= head (materialise g) < len (ring (materialise g)).
Proof.
  intros Hg. unfold materialise, capacity. destruct (ring g) as [|x r] eqn:E.
  - pose proof (go_n g Hg) as Hn. pose proof (go_nil g Hg E) as Hh.
    rewrite E in Hn. change (@len Z []) with 0 in Hn. assert (n g = 0) as E0 by lia.
    assert (entries g = []) as Ee by (unfold entries; by rewrite E0).
    rewrite Hh, E0. assert (len (makeRing ghostFloor) = ghostFloor) as El by (by apply len_makeRing).
    cbn [ring head]. rewrite El. unfold ghostFloor. split_and!; try lia; [|by rewrite Ee|done].
    split; cbn [n ring head set_]; try done; fold ghostFloor; rewrite ?El; unfold ghostFloor; try lia.
    constructor.
  - assert (ring g <> []) as Hne by (by rewrite E). pose proof (go_head g Hg Hne) as Hh.
    rewrite E in Hh |- *. split_and!; try done; lia.
Qed.

(** The oldest entry goes when the ring is full. *)
Definition room (g : ghostRing) : list Z :=
  if n g =? len (ring g) then tail (entries g) else entries g.

Lemma entries_nonempty g : 0 < n g -> entries g = entryAt g 0 :: tail (entries g).
Proof.
  intros Hn. unfold entries. destruct (Z.to_nat (n g)) eqn:E; [lia|]. done.
Qed.

Lemma ok_of_entries (g' : ghostRing) l :
  entries g' = l -> NoDup l -> set_ g' = list_to_set l -> 0 <= n g' <= len (ring g') ->
  0 <= head g' < len (ring g') -> ghost_ok g'.
Proof.
  intros El Hnd Hs Hn Hh. split; rewrite ?El; try done.
  intros E. rewrite E in Hh. unfold len in Hh. cbn in Hh. lia.
Qed.

Lemma push_full_entries g fp s :
  n g = len (ring g) -> 0 <= head g < len (ring g) ->
  entries (mkGhost (<[Z.to_nat (head g) := fp]> (ring g)) s (Z.rem (head g + 1) (len (ring g))) (n g))
  = tail (entries g) ++ [fp].
Proof.
  intros Hn Hh. set (g' := mkGhost _ _ _ _).
  apply list_eq_same_length with (Z.to_nat (n g)).
  - rewrite tail_drop, length_app, length_drop, entries_length. cbn. lia.
  - apply (entries_length g').
  - intros i x y Hi Hx Hy. rewrite (entries_lookup g') in Hx by done. injection Hx as <-.
    unfold entryAt, g'. cbn [ring head]. rewrite len_insert, Z.rem_mod_nonneg by lia.
    rewrite Zplus_mod_idemp_l, <- Z.add_assoc.
    rewrite insert_total_eq; [|done|apply Z.mod_pos_bound; lia].
    assert ((head g + (1 + Z.of_nat i)) `mod` len (ring g) = head g <-> i = (Z.to_nat (n g) - 1)%nat)
      as Hpos by (rewrite ring_pos by lia; case_if; lia).
    apply lookup_app_Some in Hy as [Hy|[Hy1 Hy2]].
    + rewrite tail_drop, lookup_drop in Hy. pose proof (lookup_lt_Some _ _ _ Hy) as Hlt.
      rewrite entries_length in Hlt. rewrite entries_lookup in Hy by done. injection Hy as <-.
      case_if; bool_props; [lia|]. unfold entryAt. do 4 f_equal. lia.
    + rewrite tail_drop, length_drop, entries_length in *.
      assert (i = Z.to_nat (n g) - 1)%nat as Ei by lia. rewrite Ei in Hy2.
      replace (_ - 1 - _)%nat with 0%nat in Hy2 by lia. injection Hy2 as <-.
      case_if; bool_props; [done|tauto].
Qed.

Lemma push_room_entries g fp s :
  0 <= n g < len (ring g) -> 0 <= head g < len (ring g) ->
  entries (mkGhost (<[Z.to_nat (Z.rem (head g + n g) (len (ring g))) := fp]> (ring g)) s (head g) (n g + 1))
  = entries g ++ [fp].
Proof.
  intros Hn Hh. set (g' := mkGhost _ _ _ _).
  assert (0 <= Z.rem (head g + n g) (len (ring g)) < len (ring g)) as Hr
    by (rewrite rem_pos by lia; case_if; lia).
  apply list_eq_same_length with (Z.to_nat (n g + 1)).
  - rewrite length_app, entries_length. cbn. lia.
  - apply (entries_length g').
  - intros i x y Hi Hx Hy. rewrite (entries_lookup g') in Hx by done. injection Hx as <-.
    unfold entryAt, g'. cbn [ring head]. rewrite len_insert.
    rewrite insert_total_eq; [|done|apply Z.mod_pos_bound; lia].
    assert ((head g + Z.of_nat i) `mod` len (ring g) = Z.rem (head g + n g) (len (ring g)) <->
            Z.of_nat i = n g) as Hpos by (rewrite rem_pos, ring_pos by lia; repeat case_if; lia).
    apply lookup_app_Some in Hy as [Hy|[Hy1 Hy2]].
    + pose proof (lookup_lt_Some _ _ _ Hy) as Hlt. rewrite entries_length in Hlt.
      rewrite entries_lookup in Hy by done. injection Hy as <-. case_if; bool_props; [lia|done].
    + rewrite entries_length in *. assert (i = Z.to_nat (n g))%nat as Ei by lia.
      rewrite Ei, Nat.sub_diag in Hy2. injection Hy2 as <-. case_if; bool_props; [done|lia].
Qed.

Lemma push_spec g fp :
  ghost_ok g -> exists g', push g fp = Some g' /\ ghost_ok g' /\
    capacity g' = capacity (materialise g) /\
    entries g' = if decide (fp ∈ entries g) then entries g else room (materialise g) ++ [fp].
Proof.
  intros Hg. destruct (materialise_ok g Hg) as (Hm & He & _ & Hpos & Hh).
  unfold push. fold (materialise g). rewrite <- He. set (m := materialise g) in *.
  pose proof (go_n m Hm) as Hn. pose proof (go_set m Hm) as Hs. pose proof (go_nodup m Hm) as Hnd.
  unfold contains. rewrite Hs. case_bool_decide as Hin; rewrite elem_of_list_to_set in Hin.
  { exists m. rewrite decide_True by done. done. }
  rewrite decide_False by done. unfold room, capacity. case_if; bool_props.
  - rewrite index_total, store_total by done. cbn [mbind option_bind ring set_ head n].
    eexists. split; [done|]. rewrite push_full_entries by done. cbn [ring]. split; [|by rewrite len_insert].
    pose proof (entries_nonempty m ltac:(lia)) as Ee. rewrite Ee in Hin, Hnd.
    apply NoDup_cons in Hnd as [Hnt Hnd]. rewrite elem_of_cons in Hin.
    eapply ok_of_entries; [by apply push_full_entries|..]; cbn [n ring head set_]; rewrite ?len_insert.
    + apply NoDup_app. split_and!; [done|set_solver|apply NoDup_singleton].
    + rewrite list_to_set_app_L, Ee, list_to_set_cons. cbn [list_to_set foldr].
      assert (m.(ring) !!! Z.to_nat (head m) = entryAt m 0) as ->.
      { unfold entryAt. rewrite Z.mod_small by lia. do 2 f_equal. lia. }
      rewrite <- (elem_of_list_to_set (C := gset Z)) in Hnt. clear -Hnt. set_solver.
    + lia.
    + rewrite rem_pos by lia. case_if; lia.
  - assert (0 <= Z.rem (head m + n m) (len (ring m)) < len (ring m)) as Hr
      by (rewrite rem_pos by lia; case_if; lia).
    rewrite store_total by done. cbn [mbind option_bind ring set_ head n].
    eexists. split; [done|]. rewrite push_room_entries by lia. cbn [ring]. split; [|by rewrite len_insert].
    eapply ok_of_entries; [apply push_room_entries; lia|..]; cbn [n ring head set_]; rewrite ?len_insert.
    + apply NoDup_app. split_and!; [done|set_solver|apply NoDup_singleton].
    + rewrite list_to_set_app_L. cbn [list_to_set foldr]. clear. set_solver.
    + lia.
    + done.
Qed.

Lemma contains_entries g fp : ghost_ok g -> contains g fp = bool_decide (fp ∈ entries g).
Proof.
  intros Hg. unfold contains. apply bool_decide_ext. rewrite (go_set g Hg). apply elem_of_list_to_set.
Qed.

(** The ghost ring is a bounded FIFO memory of distinct fingerprints: the
    membership set always answers for exactly the entries of the ring, a push
    appends, dropping the oldest entry when the ring is full and nothing when
    the fingerprint is known, growing keeps every entry, and shrinking keeps
    the newest ones and forgets the rest. None of the operations panics. *)
Theorem ghost_ring_refines_fifo g fp c :
  ghost_ok g ->
  (forall x, contains g x = bool_decide (x ∈ entries g)) /\
  (exists g', push g fp = Some g' /\ ghost_ok g' /\ contains g' fp = true /\
     entries g' = if decide (fp ∈ entries g) then entries g else room (materialise g) ++ [fp]) /\
  (exists g', grow g c = Some g' /\ ghost_ok g' /\ entries g' = entries g /\
     capacity g' = Z.max c (capacity g)) /\
  (exists g', shrink g c = Some g' /\ ghost_ok g' /\
     entries g' = drop (Z.to_nat (n g - Z.max c ghostFloor)) (entries g) /\
     capacity g' = Z.min (capacity g) (Z.max c ghostFloor)).
Proof.
  intros Hg. split_and!; [intros x; by apply contains_entries| |by apply grow_spec|by apply shrink_spec].
  destruct (push_spec g fp Hg) as (g' & Hp & Hg' & _ & He). exists g'. split_and!; try done.
  rewrite contains_entries by done. apply bool_decide_eq_true_2. rewrite He.
  case_decide; [done|]. set_solver.
Qed.

Lemma emptyGhost_ok : ghost_ok emptyGhost.
Proof. split; cbn; try done. constructor. Qed.

Lemma ghost_ring_refines_fifo_witness :
  exists g', push emptyGhost 5 = Some g' /\ ghost_ok g' /\ contains g' 5 = true /\
     entries g' = if decide (5 ∈ entries emptyGhost) then entries emptyGhost
                  else room (materialise emptyGhost) ++ [5].
Proof. apply (ghost_ring_refines_fifo emptyGhost 5 0 emptyGhost_ok). Defined.

End GhostFacts.
