(* ===== verification/BlockRef.v ===== *)
(** Block metadata of the DRAM tier: [internal/store/dram/blockref.go] and
    [internal/store/dram/lifecycle.go], and the reference count under
    interleaving readers.

    Operations on a block are functions on its record; the store keeps the
    records in a heap, so that the index and in-flight readers share them. *)

From Stdlib Require Import ZArith Lia.
From coqutil Require Import Byte.
From stdpp Require Import base numbers list gmap.
From S2P Require Import Prelude.
From S2P Require Import Wire.
From S2P Require Import Tenant.
Import Ops.
Open Scope Z_scope.
Open Scope go_scope.

Module Block.

Definition pinSoftBit : Z := 1.
Definition pinHardBit : Z := 2.
Definition TierDRAM : Z := 0.

Record BlockRef := mkBlockRef {
  Offset : Z;
  Len : Z;
  NamespaceID : Z;
  XXH3 : Z;
  allocMeta : Z;
  ArenaID : Z;
  Tier : Z;
  PinFlags : Z;
  LeaseUntil : Z;
  TTLUntil : Z;
  LastAccess : Z;
  Refcount : Z;
  hits : Z
}.

(** Assignments to one of the mutable fields. *)
Definition set_PinFlags v r := mkBlockRef (Offset r) (Len r) (NamespaceID r) (XXH3 r) (allocMeta r)
  (ArenaID r) (Tier r) v (LeaseUntil r) (TTLUntil r) (LastAccess r) (Refcount r) (hits r).
Definition set_LeaseUntil v r := mkBlockRef (Offset r) (Len r) (NamespaceID r) (XXH3 r) (allocMeta r)
  (ArenaID r) (Tier r) (PinFlags r) v (TTLUntil r) (LastAccess r) (Refcount r) (hits r).
Definition set_TTLUntil v r := mkBlockRef (Offset r) (Len r) (NamespaceID r) (XXH3 r) (allocMeta r)
  (ArenaID r) (Tier r) (PinFlags r) (LeaseUntil r) v (LastAccess r) (Refcount r) (hits r).
Definition set_LastAccess v r := mkBlockRef (Offset r) (Len r) (NamespaceID r) (XXH3 r) (allocMeta r)
  (ArenaID r) (Tier r) (PinFlags r) (LeaseUntil r) (TTLUntil r) v (Refcount r) (hits r).
Definition set_Refcount v r := mkBlockRef (Offset r) (Len r) (NamespaceID r) (XXH3 r) (allocMeta r)
  (ArenaID r) (Tier r) (PinFlags r) (LeaseUntil r) (TTLUntil r) (LastAccess r) v (hits r).
Definition set_hits v r := mkBlockRef (Offset r) (Len r) (NamespaceID r) (XXH3 r) (allocMeta r)
  (ArenaID r) (Tier r) (PinFlags r) (LeaseUntil r) (TTLUntil r) (LastAccess r) (Refcount r) v.

(** A call that runs alone: its compare-and-swap succeeds the first time. *)
Definition Acquire (r : BlockRef) : BlockRef * bool :=
  if Refcount r <=? 0 then (r, false) else (set_Refcount (Refcount r + 1) r, true).

Definition Release (r : BlockRef) : BlockRef * bool :=
  let n := Refcount r - 1 in
  if n <? 0 then (set_Refcount 0 r, false) else (set_Refcount n r, n =? 0).

Definition Leased (r : BlockRef) (now : Z) : bool := now <? LeaseUntil r.
Definition Expired (r : BlockRef) (now : Z) : bool :=
  negb (TTLUntil r =? 0) && (TTLUntil r <=? now).
Definition Pinned (r : BlockRef) : bool := negb (PinFlags r =? 0).
Definition HardPinned (r : BlockRef) : bool := negb (Z.land (PinFlags r) pinHardBit =? 0).
Definition CanEvict (r : BlockRef) (now : Z) : bool :=
  (Refcount r =? 1) && negb (Leased r now) && negb (Pinned r).

End Block.

(** ** Leases, pins and TTLs *)

Module Lifecycle.
Import Block.

Definition i64 (z : Z) : Z := sint 64 z.
Definition Millisecond : Z := 1000000.

Record lifecycle := mkLifecycle {
  leaseDefaultMS : Z;
  leaseMaxMS : Z;
  pinnedCap : Z;
  pinCapFor : option (Z -> Z);
  pinned : gmap Z Z;
  ttlBlocks : Z
}.

Definition newLifecycle (dflt mx cap : Z) (capFor : option (Z -> Z)) : lifecycle :=
  mkLifecycle dflt mx cap capFor ∅ 0.

Definition set_pinned v l := mkLifecycle (leaseDefaultMS l) (leaseMaxMS l) (pinnedCap l) (pinCapFor l)
  v (ttlBlocks l).
Definition set_ttlBlocks v l := mkLifecycle (leaseDefaultMS l) (leaseMaxMS l) (pinnedCap l)
  (pinCapFor l) (pinned l) v.

(** [l.pinned[ns]], zero when absent. *)
Definition pinnedOf (l : lifecycle) (ns : Z) : Z := default 0 (pinned l !! ns).

Definition clampLeaseMS (l : lifecycle) (ttlMS : Z) : Z :=
  let t := if ttlMS =? 0 then leaseDefaultMS l else ttlMS in
  if leaseMaxMS l <? t then leaseMaxMS l else t.

Definition extendLease (r : BlockRef) (until : Z) : BlockRef :=
  if until <=? LeaseUntil r then r else set_LeaseUntil until r.

(** The clock reading [now] is an argument of the methods that draw it. *)
Definition GrantReadLease (l : lifecycle) (r : BlockRef) (now : Z) : BlockRef :=
  set_LastAccess now (extendLease r (i64 (now + leaseDefaultMS l * Millisecond))).

Definition Touch (l : lifecycle) (r : BlockRef) (ttlMS now : Z) : lifecycle * BlockRef :=
  let r := set_LastAccess now r in
  if 0 <? ttlMS then
    let old := TTLUntil r in
    (if old =? 0 then set_ttlBlocks (ttlBlocks l + 1) l else l,
     set_TTLUntil (i64 (now + ttlMS * Millisecond)) r)
  else (l, r).

Definition noteTTLGone (l : lifecycle) (r : BlockRef) : lifecycle :=
  if negb (TTLUntil r =? 0) then set_ttlBlocks (ttlBlocks l - 1) l else l.

Definition Lease (l : lifecycle) (r : BlockRef) (ttlMS now : Z) : BlockRef :=
  set_LastAccess now (extendLease r (i64 (now + clampLeaseMS l ttlMS * Millisecond))).

Definition ReleaseLease (r : BlockRef) : BlockRef := set_LeaseUntil 0 r.

(** The cap that binds a namespace: its own override, else the global cap. *)
Definition capOf (l : lifecycle) (ns : Z) : Z :=
  match pinCapFor l with
  | Some f => if 0 <? f ns then f ns else pinnedCap l
  | None => pinnedCap l
  end.

Definition refund (l : lifecycle) (r : BlockRef) : lifecycle :=
  let v := pinnedOf l (NamespaceID r) - Len r in
  set_pinned (<[NamespaceID r := if v <? 0 then 0 else v]> (pinned l)) l.

Definition Pin (l : lifecycle) (r : BlockRef) (hard : bool) : lifecycle * BlockRef * Z :=
  let wasHard := negb (Z.land (PinFlags r) pinHardBit =? 0) in
  if hard && negb wasHard then
    let capBytes := capOf l (NamespaceID r) in
    let v := i64 (pinnedOf l (NamespaceID r) + Len r) in
    if (0 <? capBytes) && (capBytes <? v) then (l, r, StatusErrPinQuota)
    else (set_pinned (<[NamespaceID r := v]> (pinned l)) l, set_PinFlags pinHardBit r, StatusOK)
  else if hard then (l, set_PinFlags pinHardBit r, StatusOK)
  else if wasHard then (refund l r, set_PinFlags pinSoftBit r, StatusOK)
  else (l, set_PinFlags pinSoftBit r, StatusOK).

Definition Unpin (l : lifecycle) (r : BlockRef) : lifecycle * BlockRef :=
  let l := if negb (Z.land (PinFlags r) pinHardBit =? 0) then refund l r else l in
  (l, set_PinFlags 0 r).

Definition unpinOnDelete (l : lifecycle) (r : BlockRef) : lifecycle * BlockRef := Unpin l r.

Definition canDelete (r : BlockRef) (force : bool) (now : Z) : Z :=
  if HardPinned r then StatusErrPinned else
  if force then StatusOK else
  if Leased r now then StatusErrLeased else
  if Pinned r then StatusErrPinned else StatusOK.

Definition pinnedBytes (l : lifecycle) : gmap Z Z := filter (fun '(_, b) => 0 < b) (pinned l).

End Lifecycle.

(** ** The reference count under interleaving

    Any number of readers and removers work on one published block. Each step
    is one atomic operation: a reader's load, its compare-and-swap, its
    release; a remover's unlinking of the index entry (under the shard lock, so
    one remover wins) and its release of the index reference. A release that
    reaches zero frees the extent. *)

Module RefCount.

Inductive pc :=
| ALoad                  (* reader: found the ref, about to load the count *)
| ACas (v : Z)           (* loaded [v] > 0, about to CAS to [v + 1] *)
| AMiss                  (* Acquire returned false *)
| AHold                  (* Acquire returned true: the view is in use *)
| ADone                  (* released *)
| DStart                 (* remover: about to take the index entry out *)
| DDrop                  (* took it out, about to drop the index reference *)
| DDone.

Record conf := mkConf {
  count : Z;
  indexed : bool;        (* the index still has its entry *)
  frees : Z;             (* how many times the extent was freed *)
  callers : list pc
}.

(** [Refcount.Add(-1)] and what its caller does with the result. *)
Definition drop (c f : Z) : Z * Z :=
  let v := c - 1 in if v <? 0 then (0, f) else (v, if v =? 0 then f + 1 else f).

Definition act (s : conf) (p : pc) : option (Z * bool * Z * pc) :=
  match p with
  | ALoad => Some (count s, indexed s, frees s, if count s <=? 0 then AMiss else ACas (count s))
  | ACas v => Some (if count s =? v then (v + 1, indexed s, frees s, AHold)
                    else (count s, indexed s, frees s, ALoad))
  | AHold => let (c, f) := drop (count s) (frees s) in Some (c, indexed s, f, ADone)
  | DStart => Some (count s, false, frees s, if indexed s then DDrop else DDone)
  | DDrop => let (c, f) := drop (count s) (frees s) in Some (c, indexed s, f, DDone)
  | AMiss | ADone | DDone => None
  end.

Inductive step : conf -> conf -> Prop :=
| step_act s i p c ix f p' :
    callers s !! i = Some p -> act s p = Some (c, ix, f, p') ->
    step s (mkConf c ix f (<[i := p']> (callers s))).

Definition starting (p : pc) : Prop := match p with ALoad | DStart => True | _ => False end.

(** The references outstanding besides the index's own. *)
Definition weight (p : pc) : Z := match p with AHold | DDrop => 1 | _ => 0 end.
Fixpoint held (ps : list pc) : Z := match ps with [] => 0 | p :: ps => weight p + held ps end.

Lemma held_insert ps i p p' :
  ps !! i = Some p -> held (<[i := p']> ps) = held ps - weight p + weight p'.
Proof.
  revert i. induction ps as [|q ps IH]; intros [|i] H; simplify_eq/=; [lia|]. rewrite (IH _ H). lia.
Qed.

Lemma held_nonneg ps : 0 <= held ps.
Proof. induction ps as [|p ps IH]; cbn; [lia|]. destruct p; cbn; lia. Qed.

Lemma held_elem ps p : p ∈ ps -> weight p <= held ps.
Proof.
  induction ps as [|q ps IH]; intros Hp; [by apply elem_of_nil in Hp|]. cbn.
  pose proof (held_nonneg ps). apply elem_of_cons in Hp as [->|Hp]; [lia|].
  specialize (IH Hp). destruct q; cbn; lia.
Qed.

Record inv (s : conf) : Prop := mkInv {
  iv_count : count s = (if indexed s then 1 else 0) + held (callers s);
  iv_frees : frees s = if count s =? 0 then 1 else 0;
  iv_cas : forall v, ACas v ∈ callers s -> 0 < v
}.

Lemma rc_step s s' : inv s -> step s s' -> inv s'.
Proof.
  intros [Hc Hf Hv] Hs. destruct Hs as [s i p c ix f p' Hp Ha].
  pose proof (list_elem_of_lookup_2 _ _ _ Hp) as Hin. pose proof (held_elem _ _ Hin) as Hw.
  pose proof (held_nonneg (callers s)) as Hn.
  assert (Hd : weight p = 1 -> drop (count s) (frees s) =
            (count s - 1, if count s - 1 =? 0 then 1 else 0)).
  { intros Hp1. unfold drop. rewrite Hf. destruct (indexed s); repeat case_if; lia || f_equal; lia. }
  assert (match p with ACas v => 0 < v | _ => True end) as Hcas by (destruct p; auto).
  assert (forall v, p' = ACas v -> 0 < v) as Hv'.
  { intros v ->. destruct p; cbn in Ha; rewrite ?Hd in Ha by done;
      repeat case_if_in Ha; simplify_eq; lia. }
  split; cbn [count indexed frees callers]; rewrite ?(held_insert _ _ _ _ Hp).
  - destruct p; cbn in Ha, Hw; rewrite ?Hd in Ha by done; repeat case_if_in Ha; simplify_eq; cbn;
      rewrite ?Hif in *; try lia; destruct (indexed s); cbn; lia.
  - destruct p; cbn in Ha, Hw; rewrite ?Hd in Ha by done; repeat case_if_in Ha; simplify_eq;
      rewrite ?Hf; repeat case_if; lia.
  - intros v [Hq|Hq]%elem_insert; [by apply Hv'|by apply Hv].
Qed.

Lemma rc_init n ps : n = 1 -> (forall p, p ∈ ps -> starting p) -> inv (mkConf n true 0 ps).
Proof.
  intros -> Hs. assert (held ps = 0) as E.
  { induction ps as [|p ps IH]; [done|]. cbn. rewrite IH by (intros; apply Hs; by right).
    specialize (Hs p ltac:(left)). by destruct p. }
  split; cbn; [lia|done|]. intros v Hv. by apply Hs in Hv.
Qed.

(** C26: The extent is freed exactly once, and never under a reader. In every
    interleaving of readers and removers of a published block, the extent has
    been freed at most once; while any reader holds a view it has not been
    freed; and once every caller has returned it has been freed if and only if
    the block was removed. *)
Theorem free_once_never_under_reader ps s :
  (forall p, p ∈ ps -> starting p) -> rtc step (mkConf 1 true 0 ps) s ->
  0 <= frees s <= 1 /\
  (AHold ∈ callers s -> frees s = 0) /\
  ((forall p, p ∈ callers s -> act s p = None) -> frees s = if indexed s then 0 else 1).
Proof.
  intros Hs Hr. assert (inv s) as [Hc Hf _].
  { revert Hr. apply rtc_invariant; [apply rc_step|by apply rc_init]. }
  pose proof (held_nonneg (callers s)). split; [rewrite Hf; case_if; lia|]. split.
  - intros Hh%held_elem. cbn in Hh. rewrite Hf. destruct (indexed s); case_if; lia.
  - intros Hd. assert (held (callers s) = 0) as E.
    { clear -Hd. induction (callers s) as [|p ps IH]; [done|]. cbn.
      rewrite IH by (intros; apply Hd; by right). specialize (Hd p ltac:(left)).
      destruct p; cbn in *; try done; by destruct (drop _ _). }
    rewrite Hf. destruct (indexed s); case_if; lia.
Qed.

(** A reader acquires, a remover unlinks and drops; the reader's release frees. *)
Lemma free_once_never_under_reader_witness :
  let s := mkConf 1 false 0 [AHold; DDone] in
  rtc step (mkConf 1 true 0 [ALoad; DStart]) s /\ (AHold ∈ callers s -> frees s = 0).
Proof.
  assert (rtc step (mkConf 1 true 0 [ALoad; DStart]) (mkConf 1 false 0 [AHold; DDone])) as Hr.
  { eapply rtc_l; [by apply (step_act _ 0%nat ALoad)|].
    eapply rtc_l; [by apply (step_act _ 0%nat (ACas 1))|].
    eapply rtc_l; [by apply (step_act _ 1%nat DStart)|].
    apply rtc_once. by apply (step_act (mkConf 2 false 0 [AHold; DDrop]) 1%nat DDrop 1 false 0 DDone). }
  split; [exact Hr|].
  apply (free_once_never_under_reader [ALoad; DStart] (mkConf 1 false 0 [AHold; DDone])); [|exact Hr].
  intros p Hp. repeat (apply elem_of_cons in Hp as [->|Hp]; [exact I|]). by apply elem_of_nil in Hp.
Defined.

End RefCount.
