(* ===== verification/Index.v ===== *)
(** The sharded block index: [internal/store/dram/index.go].

    The index maps a key to the address of its [BlockRef]. A key's shard is
    picked by a hash with a per-process random seed, and a shard is walked in
    Go's unspecified map order; both are fields of the class [IndexEnv], and
    nothing below depends on what they are. The theorems show that the 256
    shards behave as one map. *)

From Stdlib Require Import ZArith Lia.
From coqutil Require Import Byte.
From stdpp Require Import base numbers list gmap.
From S2P Require Import Prelude.
From S2P Require Import Eviction.
Import Eviction.
Open Scope Z_scope.

Module Index.

Definition indexShards : Z := 256.

(** The seeded hash of a key, and the order in which a map is walked. *)
Class IndexEnv := {
  shardHash : Key -> Z;
  order : gmap Key Z -> list (Key * Z);
  order_perm : forall m, order m ≡ₚ map_to_list m
}.

Record Index := mkIndex { shards : list (gmap Key Z); blocks : Z; bytes_ : Z }.

Definition NewIndex : Index := mkIndex (replicate (Z.to_nat indexShards) ∅) 0 0.

Section Ops.
Context `{IndexEnv}.

(** [byte(h.Sum64())]. *)
Definition shardOf (k : Key) : nat := Z.to_nat (u8 (shardHash k)).

Definition shard (idx : Index) (k : Key) : gmap Key Z := shards idx !!! shardOf k.

Definition setShard (idx : Index) (k : Key) (m : gmap Key Z) : list (gmap Key Z) :=
  <[shardOf k := m]> (shards idx).

Definition Get (idx : Index) (k : Key) : option Z := shard idx k !! k.

(** [ln] is the length of the block at [ref]. *)
Definition Put (idx : Index) (k : Key) (ref ln : Z) : Index * Z * bool :=
  match shard idx k !! k with
  | Some cur => (idx, cur, false)
  | None => (mkIndex (setShard idx k (<[k := ref]> (shard idx k))) (blocks idx + 1)
               (bytes_ idx + ln), ref, true)
  end.

(** The removal shared by [Delete] and [DeleteIf]; [lenOf] reads a block's
    length through its address. *)
Definition removeKey (idx : Index) (k : Key) (ln : Z) : Index :=
  mkIndex (setShard idx k (delete k (shard idx k))) (blocks idx - 1) (bytes_ idx - ln).

Definition Delete (idx : Index) (k : Key) (lenOf : Z -> Z) : Index * option Z :=
  match shard idx k !! k with
  | Some ref => (removeKey idx k (lenOf ref), Some ref)
  | None => (idx, None)
  end.

(** The entries in the order [Range] visits them. *)
Definition rangeList (idx : Index) : list (Key * Z) := shards idx ≫= order.

(** [Range] with a callback that updates [acc] and says whether to go on. *)
Fixpoint rangeOver {B} (fn : Key -> Z -> B -> B * bool) (l : list (Key * Z)) (acc : B) : B :=
  match l with
  | [] => acc
  | (k, ref) :: l =>
      let (acc, more) := fn k ref acc in
      if more then rangeOver fn l acc else acc
  end.

Definition Range {B} (idx : Index) (fn : Key -> Z -> B -> B * bool) (acc : B) : B :=
  rangeOver fn (rangeList idx) acc.

Definition Stats (idx : Index) : Z * Z := (blocks idx, bytes_ idx).

Definition present (idx : Index) (ns : Z) (kh : bytes) : bool :=
  bool_decide (is_Some (Get idx (mkKey ns kh))).

(** The loop of [ExistsPrefix] over the remaining keys. *)
Fixpoint existsLoop (idx : Index) (ns : Z) (keys : list bytes) (withBitmap consecutiveDone : bool)
    (nConsecutive : Z) (perKey : list bool) : Z * list bool :=
  match keys with
  | [] => (nConsecutive, perKey)
  | kh :: keys =>
      if consecutiveDone && negb withBitmap then (nConsecutive, perKey) else
      let ok := present idx ns kh in
      let nConsecutive := if ok && negb consecutiveDone then u32 (nConsecutive + 1) else nConsecutive in
      let consecutiveDone := if ok then consecutiveDone else true in
      let perKey := if withBitmap then perKey ++ [ok] else perKey in
      existsLoop idx ns keys withBitmap consecutiveDone nConsecutive perKey
  end.

(** [perKey] is empty when the bitmap was not asked for. *)
Definition ExistsPrefix (idx : Index) (ns : Z) (keys : list bytes) (withBitmap : bool)
    : Z * option (list bool) :=
  let (n, per) := existsLoop idx ns keys withBitmap false 0 [] in
  (n, if withBitmap then Some per else None).

(** ** The index as one map *)

Definition contents (idx : Index) : gmap Key Z := ⋃ (shards idx).

(** Every key is in the shard its hash picks. *)
Record index_ok (idx : Index) : Prop := mkIndexOk {
  io_len : length (shards idx) = Z.to_nat indexShards;
  io_shard : forall i m k a, shards idx !! i = Some m -> m !! k = Some a -> i = shardOf k
}.

Lemma shardOf_lt k : (shardOf k < Z.to_nat indexShards)%nat.
Proof. unfold shardOf, indexShards, u8. pose proof (Z.mod_pos_bound (shardHash k) (2 ^ 8)). lia. Qed.

Lemma union_lookup (l : list (gmap Key Z)) j k :
  (forall i m, l !! i = Some m -> i <> j -> m !! k = None) ->
  (⋃ l) !! k = (l !! j ≫= fun m => m !! k).
Proof.
  revert j. induction l as [|m l IH]; intros j Hne; cbn; [by destruct j|].
  rewrite lookup_union. destruct j as [|j]; cbn.
  - assert ((⋃ l) !! k = None) as ->; [|by destruct (m !! k)].
    clear IH. assert (forall m, m ∈ l -> m !! k = None) as Hn.
    { intros m' [i Hi]%list_elem_of_lookup. by apply (Hne (S i) m'). }
    clear Hne. induction l as [|m' l IH]; cbn; [apply lookup_empty|].
    rewrite lookup_union, (Hn m') by (by left). rewrite IH; [done|]. intros; apply Hn; by right.
  - rewrite (Hne 0%nat m) by done. rewrite (IH j); [by destruct (_ ≫= _)|].
    intros i m' Hi Hij. apply (Hne (S i) m'); [done|congruence].
Qed.

Lemma shard_lookup idx k : index_ok idx -> shards idx !! shardOf k = Some (shard idx k).
Proof.
  intros [Hl _]. apply list_lookup_lookup_total_lt. rewrite Hl. apply shardOf_lt.
Qed.

Lemma Get_contents idx k : index_ok idx -> Get idx k = contents idx !! k.
Proof.
  intros Hi. unfold contents. rewrite (union_lookup _ (shardOf k)).
  - by rewrite shard_lookup.
  - intros i m Hm Hne. destruct (m !! k) eqn:E; [|done]. by apply (io_shard _ Hi _ _ _ _ Hm) in E.
Qed.

Lemma new_ok : index_ok NewIndex.
Proof.
  split; cbn; [done|]. intros i m k a [-> _]%lookup_replicate. by rewrite lookup_empty.
Qed.

Lemma new_contents : contents NewIndex = ∅.
Proof.
  apply map_eq. intros k. rewrite <- Get_contents by apply new_ok. unfold Get, shard, NewIndex. cbn.
  rewrite lookup_total_replicate_2 by apply shardOf_lt. done.
Qed.

(** Writing one shard that keeps to its keys. *)
Lemma setShard_ok idx k m b n :
  index_ok idx -> (forall k' a, m !! k' = Some a -> shardOf k' = shardOf k) ->
  index_ok (mkIndex (setShard idx k m) b n) /\
  forall k', Get (mkIndex (setShard idx k m) b n) k' =
    if decide (shardOf k' = shardOf k) then m !! k' else Get idx k'.
Proof.
  intros Hi Hm. pose proof (shardOf_lt k) as Hlt. rewrite <- (io_len _ Hi) in Hlt. split.
  - split; cbn; unfold setShard; [by rewrite length_insert, (io_len _ Hi)|].
    intros i m' k' a Hl Ha. apply list_lookup_insert_Some in Hl as [(<- & <- & _)|[_ Hl]].
    + symmetry. eauto.
    + by eapply (io_shard _ Hi).
  - intros k'. unfold Get, shard, setShard. cbn. case_decide as E.
    + rewrite E, list_lookup_total_insert_eq by done. done.
    + rewrite list_lookup_total_insert_ne by done. done.
Qed.

Lemma Put_spec idx k ref ln :
  index_ok idx ->
  match contents idx !! k with
  | Some cur => Put idx k ref ln = (idx, cur, false)
  | None => exists idx', Put idx k ref ln = (idx', ref, true) /\ index_ok idx' /\
      contents idx' = <[k := ref]> (contents idx) /\
      blocks idx' = blocks idx + 1 /\ bytes_ idx' = bytes_ idx + ln
  end.
Proof.
  intros Hi. rewrite <- Get_contents by done. unfold Put, Get.
  destruct (shard idx k !! k) as [cur|] eqn:E; [done|].
  assert (forall k' a, <[k := ref]> (shard idx k) !! k' = Some a -> shardOf k' = shardOf k) as Hm.
  { intros k' a [[<- _]|[_ Ha]]%lookup_insert_Some; [done|].
    symmetry. eapply (io_shard _ Hi); [|done]. by apply shard_lookup. }
  destruct (setShard_ok idx k _ (blocks idx + 1) (bytes_ idx + ln) Hi Hm) as [Hok Hget].
  eexists. split_and!; try done. apply map_eq. intros k'.
  rewrite <- Get_contents, Hget by done. destruct (decide (k = k')) as [<-|Hk].
  - by rewrite decide_True, !lookup_insert_eq.
  - rewrite !lookup_insert_ne, <- Get_contents by done. case_decide as Ed; [|done].
    unfold Get, shard. by rewrite Ed.
Qed.

Lemma removeKey_spec idx k ln :
  index_ok idx ->
  index_ok (removeKey idx k ln) /\ contents (removeKey idx k ln) = delete k (contents idx).
Proof.
  intros Hi.
  assert (forall k' a, delete k (shard idx k) !! k' = Some a -> shardOf k' = shardOf k) as Hm.
  { intros k' a [_ Ha]%lookup_delete_Some. symmetry. eapply (io_shard _ Hi); [|done].
    by apply shard_lookup. }
  destruct (setShard_ok idx k _ (blocks idx - 1) (bytes_ idx - ln) Hi Hm) as [Hok Hget].
  split; [done|]. apply map_eq. intros k'. rewrite <- Get_contents by done. unfold removeKey.
  rewrite Hget. destruct (decide (k = k')) as [<-|Hk].
  - by rewrite decide_True, !lookup_delete_eq.
  - rewrite !lookup_delete_ne, <- Get_contents by done. case_decide as Ed; [|done].
    unfold Get, shard. by rewrite Ed.
Qed.

(** ** Range visits every entry once *)

Lemma rangeList_elem idx k a : index_ok idx -> (k, a) ∈ rangeList idx <-> contents idx !! k = Some a.
Proof.
  intros Hi. rewrite <- Get_contents by done. unfold rangeList. rewrite list_elem_of_bind. split.
  - intros (m & Hk & Hm). rewrite order_perm in Hk. apply elem_of_map_to_list in Hk.
    apply list_elem_of_lookup in Hm as [i Hm]. pose proof (io_shard _ Hi _ _ _ _ Hm Hk) as ->.
    rewrite shard_lookup in Hm by done. by injection Hm as <-.
  - intros Hk. exists (shard idx k). rewrite order_perm, elem_of_map_to_list. split; [done|].
    eapply list_elem_of_lookup_2. by apply shard_lookup.
Qed.

Lemma NoDup_bind_order (l : list (gmap Key Z)) :
  (forall i j m m' k a b, l !! i = Some m -> l !! j = Some m' ->
     m !! k = Some a -> m' !! k = Some b -> i = j) -> NoDup (l ≫= order).
Proof.
  induction l as [|m l IH]; intros Hd; cbn; [constructor|]. apply NoDup_app. split_and!.
  - rewrite order_perm. apply NoDup_map_to_list.
  - intros [k a] Hk Hk'. rewrite order_perm in Hk. apply elem_of_map_to_list in Hk.
    apply list_elem_of_bind in Hk' as (m' & Hk' & Hm'). rewrite order_perm in Hk'.
    apply elem_of_map_to_list in Hk'. apply list_elem_of_lookup in Hm' as [j Hj].
    by pose proof (Hd 0%nat (S j) m m' k a a eq_refl Hj Hk Hk').
  - apply IH. intros i j m1 m2 k a b Hi Hj Ha Hb.
    pose proof (Hd (S i) (S j) m1 m2 k a b Hi Hj Ha Hb). congruence.
Qed.

Lemma rangeList_perm idx : index_ok idx -> rangeList idx ≡ₚ map_to_list (contents idx).
Proof.
  intros Hi. apply NoDup_Permutation.
  - apply NoDup_bind_order. intros i j m m' k a b Hm Hm' Ha Hb.
    by rewrite (io_shard _ Hi _ _ _ _ Hm Ha), (io_shard _ Hi _ _ _ _ Hm' Hb).
  - apply NoDup_map_to_list.
  - intros [k a]. rewrite rangeList_elem by done. by rewrite elem_of_map_to_list.
Qed.

(** ** The prefix probe *)

(** Length of the run of hits at the front. *)
Fixpoint leading (l : list bool) : Z :=
  match l with true :: l => 1 + leading l | _ => 0 end.

Definition hit (idx : Index) (ns : Z) (kh : bytes) : bool :=
  bool_decide (is_Some (contents idx !! mkKey ns kh)).

Lemma leading_bound l : 0 <= leading l <= len l.
Proof.
  induction l as [|b l IH]; [unfold len; cbn; lia|]. rewrite len_cons.
  destruct b; cbn [leading]; lia.
Qed.

Lemma existsLoop_done idx ns keys wb n per :
  existsLoop idx ns keys wb true n per =
  (n, if wb then per ++ (present idx ns <$> keys) else per).
Proof.
  revert per. induction keys as [|kh keys IH]; intros per; cbn [existsLoop andb].
  { destruct wb; [by rewrite app_nil_r|done]. }
  destruct wb; cbn [negb]; [|done]. rewrite andb_false_r. destruct (present idx ns kh) eqn:E; rewrite IH;
    cbn; by rewrite E, <- app_assoc.
Qed.

Lemma existsLoop_spec idx ns keys wb n per :
  0 <= n -> n + len keys < 2 ^ 32 ->
  existsLoop idx ns keys wb false n per =
  (n + leading (present idx ns <$> keys),
   if wb then per ++ (present idx ns <$> keys) else per).
Proof.
  revert n per. induction keys as [|kh keys IH]; intros n per Hn Hl; cbn [existsLoop andb].
  { cbn. rewrite Z.add_0_r. destruct wb; [by rewrite app_nil_r|done]. }
  rewrite len_cons in Hl. pose proof (len_nonneg keys). cbn [fmap list_fmap].
  destruct (present idx ns kh) eqn:E; cbn [andb negb leading].
  - unfold u32. rewrite Z.mod_small, IH by lia. f_equal; [lia|].
    destruct wb; [by rewrite <- app_assoc|done].
  - rewrite existsLoop_done. rewrite Z.add_0_r. f_equal. destruct wb; [by rewrite <- app_assoc|done].
Qed.

(** The prefix probe answers for the whole index, whatever shards the keys
    fall into: the count is the number of keys present before the first one
    missing, and the bitmap, when asked for, tells each key apart. *)
Theorem exists_prefix_spec idx ns keys wb :
  index_ok idx -> len keys < 2 ^ 32 ->
  ExistsPrefix idx ns keys wb =
  (leading (hit idx ns <$> keys), if wb then Some (hit idx ns <$> keys) else None).
Proof.
  intros Hi Hl. unfold ExistsPrefix. rewrite existsLoop_spec by lia.
  assert (present idx ns <$> keys = hit idx ns <$> keys) as ->.
  { apply list_fmap_ext. intros i kh _. unfold hit, present. by rewrite Get_contents. }
  by destruct wb.
Qed.

End Ops.

(** A hash that puts every key in one shard, and the canonical order. *)
#[local] Instance oneShard : IndexEnv :=
  {| shardHash := fun _ => 7; order := map_to_list; order_perm := fun m => reflexivity _ |}.

Definition sampleIndex : Index :=
  fst (fst (Put (fst (fst (Put NewIndex (mkKey 1 [Byte.x01]) 10 5))) (mkKey 1 [Byte.x02]) 11 6)).

Lemma exists_prefix_spec_witness :
  ExistsPrefix sampleIndex 1 [[Byte.x01]; [Byte.x03]; [Byte.x02]] true =
  (leading (hit sampleIndex 1 <$> [[Byte.x01]; [Byte.x03]; [Byte.x02]]),
   Some (hit sampleIndex 1 <$> [[Byte.x01]; [Byte.x03]; [Byte.x02]])).
Proof.
  apply (exists_prefix_spec sampleIndex 1 _ true); [|reflexivity].
  pose proof (Put_spec NewIndex (mkKey 1 [Byte.x01]) 10 5 new_ok) as P1.
  rewrite new_contents, lookup_empty in P1. destruct P1 as (i1 & E1 & H1 & C1 & _).
  pose proof (Put_spec i1 (mkKey 1 [Byte.x02]) 11 6 H1) as P2.
  rewrite C1, lookup_insert_ne, lookup_empty in P2 by discriminate.
  destruct P2 as (i2 & E2 & H2 & _).
  unfold sampleIndex. rewrite E1. cbn [fst]. rewrite E2. exact H2.
Defined.

End Index.
