(* ===== verification/DramStore.v ===== *)
(** The DRAM tier: [internal/store/dram/store.go], [evict.go], [demotion.go]
    and the accessors of [arena.go].

    The state is the Go struct: arena bytes, the sharded index, the heap of
    block records the index and the in-flight readers share, the lease and pin
    rules, the allocator, the tenant accountant, the eviction policy and the
    counters. Methods run in the state monad of the prelude; a panic is [None].
    The allocator and the policy are used through their interfaces. The clock
    is a function of the number of readings so far, so that time may pass
    between any two readings. Counters that only grow or shrink by one per
    block are kept as unbounded integers. *)

From Stdlib Require Import ZArith Lia SpecFloat.
From coqutil Require Import Byte.
From stdpp Require Import base numbers list gmap.
From S2P Require Import Prelude.
From S2P Require Import Wire.
From S2P Require Import Tenant.
From S2P Require Import OffsetAlloc.
From S2P Require Import Eviction.
From S2P Require Import BlockRef.
From S2P Require Import Index.
Import Ops Eviction Block Lifecycle Index.
Open Scope Z_scope.
Open Scope go_scope.

Module Dram.

Abbreviation Allocation := OffsetAlloc.Allocation.
Abbreviation mkAllocation := OffsetAlloc.mkAllocation.
Abbreviation AllocUnitShift := OffsetAlloc.AllocUnitShift.
Abbreviation AllocUnit := OffsetAlloc.AllocUnit.
Abbreviation StorageReport := OffsetAlloc.StorageReport.

(** What the store calls of the allocator. *)
Class ExtentAlloc (A : Type) := {
  ea_Alloc : A -> Z -> option (A * Allocation * bool);
  ea_Free : A -> Allocation -> option A;
  ea_Report : A -> option StorageReport;
  ea_MaxAllocs : A -> Z
}.

Record EvictorConfig := mkEvictorConfig { WatermarkPct : Z; BatchPct : Z; Interval : Z }.

Definition withDefaults (c : EvictorConfig) : EvictorConfig :=
  mkEvictorConfig (if WatermarkPct c =? 0 then 95 else WatermarkPct c)
    (if BatchPct c =? 0 then 5 else BatchPct c)
    (if Interval c =? 0 then 100 * Millisecond else Interval c).

Record Store (A P : Type) := mkStore {
  arena : bytes;
  closed : bool;
  index_ : Index;
  heap : gmap Z BlockRef;
  nextRef : Z;
  life : lifecycle;
  alloc : A;
  policy : option P;
  quotas : option Quotas.Quotas;
  evict : option EvictorConfig;
  kicked : bool;
  evictions : Z;
  liveAllocs : Z;
  occGen : Z;
  lastFutileGen : Z;
  tick : nat
}.
Arguments mkStore {A P}.
Arguments arena {A P}.
Arguments closed {A P}.
Arguments index_ {A P}.
Arguments heap {A P}.
Arguments nextRef {A P}.
Arguments life {A P}.
Arguments alloc {A P}.
Arguments policy {A P}.
Arguments quotas {A P}.
Arguments evict {A P}.
Arguments kicked {A P}.
Arguments evictions {A P}.
Arguments liveAllocs {A P}.
Arguments occGen {A P}.
Arguments lastFutileGen {A P}.
Arguments tick {A P}.

Inductive evictOutcome := evictedOK | evictRefused | evictGone.

Section Store.
Context {A P : Type} `{!ExtentAlloc A} `{!Policy P} `{!IndexEnv} (time : nat -> Z).

Abbreviation st := (Store A P).
Abbreviation M := (sm st).

(** ** Assignments to one field *)

Definition set_arena v (s : st) : st := mkStore v (closed s) (index_ s) (heap s) (nextRef s) (life s)
  (alloc s) (policy s) (quotas s) (evict s) (kicked s) (evictions s) (liveAllocs s) (occGen s)
  (lastFutileGen s) (tick s).
Definition set_closed v (s : st) : st := mkStore (arena s) v (index_ s) (heap s) (nextRef s) (life s)
  (alloc s) (policy s) (quotas s) (evict s) (kicked s) (evictions s) (liveAllocs s) (occGen s)
  (lastFutileGen s) (tick s).
Definition set_index v (s : st) : st := mkStore (arena s) (closed s) v (heap s) (nextRef s) (life s)
  (alloc s) (policy s) (quotas s) (evict s) (kicked s) (evictions s) (liveAllocs s) (occGen s)
  (lastFutileGen s) (tick s).
Definition set_heap v (s : st) : st := mkStore (arena s) (closed s) (index_ s) v (nextRef s) (life s)
  (alloc s) (policy s) (quotas s) (evict s) (kicked s) (evictions s) (liveAllocs s) (occGen s)
  (lastFutileGen s) (tick s).
Definition set_nextRef v (s : st) : st := mkStore (arena s) (closed s) (index_ s) (heap s) v (life s)
  (alloc s) (policy s) (quotas s) (evict s) (kicked s) (evictions s) (liveAllocs s) (occGen s)
  (lastFutileGen s) (tick s).
Definition set_life v (s : st) : st := mkStore (arena s) (closed s) (index_ s) (heap s) (nextRef s) v
  (alloc s) (policy s) (quotas s) (evict s) (kicked s) (evictions s) (liveAllocs s) (occGen s)
  (lastFutileGen s) (tick s).
Definition set_alloc v (s : st) : st := mkStore (arena s) (closed s) (index_ s) (heap s) (nextRef s)
  (life s) v (policy s) (quotas s) (evict s) (kicked s) (evictions s) (liveAllocs s) (occGen s)
  (lastFutileGen s) (tick s).
Definition set_policy v (s : st) : st := mkStore (arena s) (closed s) (index_ s) (heap s) (nextRef s)
  (life s) (alloc s) v (quotas s) (evict s) (kicked s) (evictions s) (liveAllocs s) (occGen s)
  (lastFutileGen s) (tick s).
Definition set_quotas v (s : st) : st := mkStore (arena s) (closed s) (index_ s) (heap s) (nextRef s)
  (life s) (alloc s) (policy s) v (evict s) (kicked s) (evictions s) (liveAllocs s) (occGen s)
  (lastFutileGen s) (tick s).
Definition set_kicked v (s : st) : st := mkStore (arena s) (closed s) (index_ s) (heap s) (nextRef s)
  (life s) (alloc s) (policy s) (quotas s) (evict s) v (evictions s) (liveAllocs s) (occGen s)
  (lastFutileGen s) (tick s).
Definition set_evictions v (s : st) : st := mkStore (arena s) (closed s) (index_ s) (heap s) (nextRef s)
  (life s) (alloc s) (policy s) (quotas s) (evict s) (kicked s) v (liveAllocs s) (occGen s)
  (lastFutileGen s) (tick s).
Definition set_liveAllocs v (s : st) : st := mkStore (arena s) (closed s) (index_ s) (heap s) (nextRef s)
  (life s) (alloc s) (policy s) (quotas s) (evict s) (kicked s) (evictions s) v (occGen s)
  (lastFutileGen s) (tick s).
Definition set_occGen v (s : st) : st := mkStore (arena s) (closed s) (index_ s) (heap s) (nextRef s)
  (life s) (alloc s) (policy s) (quotas s) (evict s) (kicked s) (evictions s) (liveAllocs s) v
  (lastFutileGen s) (tick s).
Definition set_lastFutileGen v (s : st) : st := mkStore (arena s) (closed s) (index_ s) (heap s)
  (nextRef s) (life s) (alloc s) (policy s) (quotas s) (evict s) (kicked s) (evictions s)
  (liveAllocs s) (occGen s) v (tick s).
Definition set_tick v (s : st) : st := mkStore (arena s) (closed s) (index_ s) (heap s) (nextRef s)
  (life s) (alloc s) (policy s) (quotas s) (evict s) (kicked s) (evictions s) (liveAllocs s) (occGen s)
  (lastFutileGen s) v.

(** ** Clock, heap, arena *)

Definition now : M Z := fun s => Some (time (tick s), set_tick (S (tick s)) s).

(** [*ref]; a [nil] or dangling pointer panics. *)
Definition deref (p : Z) : M BlockRef := fun s => r ← heap s !! p; Some (r, s).
Definition setRef (p : Z) (r : BlockRef) : M unit := modify (fun s => set_heap (<[p := r]> (heap s)) s).

(** [&BlockRef{...}]. *)
Definition newRef (r : BlockRef) : M Z := fun s =>
  let p := nextRef s in Some (p, set_nextRef (p + 1) (set_heap (<[p := r]> (heap s)) s)).

(** [a.Bytes(off, n)] used for reading. *)
Definition arenaRead (off n : Z) : M bytes := fun s =>
  if closed s then None else
  if (len (arena s) <? off) || (len (arena s) - off <? n) then None else
  b ← slice (arena s) off (off + n); Some (b, s).

(** [copy(a.Bytes(off, n), data)]. *)
Definition arenaWrite (off n : Z) (data : bytes) : M unit := fun s =>
  if closed s then None else
  if (len (arena s) <? off) || (len (arena s) - off <? n) then None else
  b ← copy_at (arena s) off (take (Z.to_nat n) data); Some (tt, set_arena b s).

(** ** Bookkeeping shared by the methods *)

Definition bytesToUnits (n : Z) : Z := u32 ((n + AllocUnit - 1) >>| AllocUnitShift).

(** [if s.policy != nil { s.policy.f() }]. *)
Definition polDo (f : P -> option P) : M unit := fun s =>
  match policy s with
  | Some p => p ← f p; Some (tt, set_policy (Some p) s)
  | None => Some (tt, s)
  end.

Definition polAdmit (k : Key) (size t : Z) : M unit := polDo (fun p => pol_Admit p k size t).
Definition polTouch (k : Key) (t : Z) : M unit := polDo (fun p => pol_Touch p k t).
Definition polRemove (k : Key) : M unit := polDo (fun p => pol_Remove p k).

Definition refundQuota (p : Z) : M unit :=
  r ← deref p;
  modify (fun s => match quotas s with
                   | Some q => if 0 <? Len r
                               then set_quotas (Some (Quotas.Refund q (NamespaceID r) Registry.TierDRAM (Len r))) s
                               else s
                   | None => s
                   end).

(** [s.alloc.Free(al)] under the allocator's lock. *)
Definition allocFree (al : Allocation) : M unit := fun s =>
  a ← ea_Free (alloc s) al; Some (tt, set_alloc a s).

Definition allocAlloc (units : Z) : M (Allocation * bool) := fun s =>
  '(a, al, ok) ← ea_Alloc (alloc s) units; Some (al, ok, set_alloc a s).

Definition allocReport : M StorageReport := fun s => r ← ea_Report (alloc s); Some (r, s).

Definition addLive (d : Z) : M unit := modify (fun s => set_liveAllocs (liveAllocs s + d) s).
Definition bumpGen : M unit := modify (fun s => set_occGen (occGen s + 1) s).

Definition free (p : Z) : M unit :=
  addLive (-1);; bumpGen;;
  r ← deref p;
  if Len r =? 0 then mret tt else allocFree (mkAllocation (Offset r) (allocMeta r)).

(** [if ref.Release() { s.free(ref) }]. *)
Definition releaseRef (p : Z) : M unit :=
  r ← deref p;
  let (r, last) := Release r in
  setRef p r;;
  if last : bool then free p else mret tt.

Definition kickEvictor : M unit :=
  modify (fun s => match evict s with Some _ => set_kicked true s | None => s end).

Definition noteGone (p : Z) : M unit :=
  r ← deref p; modify (fun s => set_life (noteTTLGone (life s) r) s).

Definition unpinGone (p : Z) : M unit :=
  r ← deref p;
  l ← gets life;
  let (l, r) := unpinOnDelete l r in
  modify (set_life l);; setRef p r.

(** [Index.DeleteIf]: the gate runs while the entry is still in the index. *)
Definition DeleteIf (k : Key) (gate : Z -> M Z) : M (option Z * Z) :=
  o ← gets (fun s => Get (index_ s) k);
  match o with
  | None => mret (None, StatusNotFound)
  | Some p =>
      g ← gate p;
      if negb (g =? StatusOK) then mret (None, g) else
      r ← deref p;
      modify (fun s => set_index (removeKey (index_ s) k (Len r)) s);;
      mret (Some p, StatusOK)
  end.

(** ** Eviction *)

Definition occupancy : M (Z * Z) :=
  rep ← allocReport;
  total ← gets (fun s => u32 (len (arena s) >>| AllocUnitShift));
  mret (u32 (total - OffsetAlloc.TotalFreeSpace rep), total).

Definition evictGate (k : Key) (emergency : bool) (p : Z) : M Z :=
  t ← now;
  r ← deref p;
  let ok := CanEvict r t in
  let ok := if negb ok && emergency
            then (Refcount r =? 1) && negb (Leased r t) && negb (HardPinned r) else ok in
  if negb ok then mret StatusErrBusy else
  polRemove k;; unpinGone p;; mret StatusOK.

Definition evictOne (k : Key) (emergency : bool) : M (Z * evictOutcome) :=
  '(o, g) ← DeleteIf k (evictGate k emergency);
  match o with
  | None => mret (0, if g =? StatusNotFound then evictGone else evictRefused)
  | Some p =>
      noteGone p;;
      modify (fun s => set_evictions (evictions s + 1) s);;
      refundQuota p;;
      r ← deref p;
      releaseRef p;;
      mret (Len r, evictedOK)
  end.

(** The walk of [sweepExpired]: the candidate keys and the bytes they claim. *)
Definition expiredStep (h : gmap Z BlockRef) (t need : Z) (k : Key) (p : Z) (acc : list Key * Z)
    : (list Key * Z) * bool :=
  match h !! p with
  | Some r =>
      let acc := if Expired r t && (Refcount r =? 1) && negb (Leased r t)
                 then (acc.1 ++ [k], acc.2 + Len r) else acc in
      (acc, acc.2 <? need)
  | None => (acc, true)
  end.

Fixpoint evictExpired (victims : list Key) (need freed : Z) : M Z :=
  match victims with
  | [] => mret freed
  | k :: victims =>
      '(n, _) ← evictOne k false;
      let freed := if 0 <? n then freed + n else freed in
      if need <=? freed then mret freed else evictExpired victims need freed
  end.

Definition sweepExpired (t need : Z) : M Z :=
  if need <=? 0 then mret 0 else
  victims ← gets (fun s => fst (Range (index_ s) (expiredStep (heap s) t need) ([], 0)));
  evictExpired victims need 0.

(** [harvest]: the candidates of one tenant, refused ones handed back. *)
Fixpoint harvestLoop (cands : list Candidate) (t freed : Z) : M Z :=
  match cands with
  | [] => mret freed
  | c :: cands =>
      '(n, outcome) ← evictOne (c_Key c) false;
      match outcome with
      | evictedOK => harvestLoop cands t (freed + n)
      | evictRefused => polAdmit (c_Key c) (c_Size c) t;; harvestLoop cands t freed
      | evictGone => harvestLoop cands t freed
      end
  end.

Definition polVictims (ns want t : Z) : M (list Candidate) := fun s =>
  match policy s with
  | Some p => '(p, cs) ← pol_Victims p ns want t; Some (cs, set_policy (Some p) s)
  | None => None
  end.

Definition polUsage (t : Z) : M (list DomainUsage) := fun s =>
  match policy s with
  | Some p => '(p, us) ← pol_Usage p t; Some (us, set_policy (Some p) s)
  | None => None
  end.

Definition harvest (ns want t freed : Z) : M Z :=
  cands ← polVictims ns want t; harvestLoop cands t freed.

(** The tenant with the worst usage-to-quota ratio above one. *)
Definition worstTenant (q : Quotas.Quotas) (usages : list DomainUsage) : Z * Z :=
  foldl (fun '(wns, wr) u =>
           let r := Quotas.OverRatio q (d_NS u) Registry.TierDRAM in
           if wr <? r then (d_NS u, r) else (wns, wr)) (0, 1000) usages.

(** Round 0: over-quota tenants first. [fuel] bounds the number of rounds; a
    round that frees nothing is the last one. *)
Fixpoint overQuotaRound (fuel : nat) (usages : list DomainUsage) (t need freed : Z) : M Z :=
  match fuel with
  | O => fun _ => None
  | S fuel =>
      if negb (freed <? need) then mret freed else
      qo ← gets quotas;
      match qo with
      | None => mret freed
      | Some q =>
          let (worstNS, worstRatio) := worstTenant q usages in
          if worstRatio <=? 1000 then mret freed else
          let over := Quotas.i64 (Quotas.Usage q worstNS Registry.TierDRAM
                                  - Quotas.Limit q worstNS Registry.TierDRAM) in
          let want := Z.min over (need - freed) in
          if want <=? 0 then mret freed else
          freed' ← harvest worstNS want t freed;
          if freed' =? freed then mret freed' else overQuotaRound fuel usages t need freed'
      end
  end.

(** [float64] arithmetic: IEEE 754 binary64, round to nearest even. *)
Definition float64 (z : Z) : spec_float := binary_normalize 53 1024 z 0 false.
Definition fmul : spec_float -> spec_float -> spec_float := SFmul 53 1024.
Definition fdiv : spec_float -> spec_float -> spec_float := SFdiv 53 1024.

(** [int64(f)] of a value in range: truncation toward zero. *)
Definition toInt64 (f : spec_float) : Z :=
  match f with
  | S754_finite sgn m e =>
      let a := if 0 <=? e then Z.shiftl (Z.pos m) e else Z.shiftr (Z.pos m) (- e) in
      if sgn then - a else a
  | _ => 0
  end.

Definition shareOf (need bytes total : Z) : Z :=
  toInt64 (fdiv (fmul (float64 need) (float64 bytes)) (float64 total)).

(** Round 1: proportional to resident bytes. *)
Fixpoint proportionalRound (us : list DomainUsage) (total t need freed : Z) : M Z :=
  match us with
  | [] => mret freed
  | u :: us =>
      if need <=? freed then mret freed else
      let share := shareOf need (d_Bytes u) total in
      if share <=? 0 then proportionalRound us total t need freed else
      freed ← harvest (d_NS u) share t freed;
      proportionalRound us total t need freed
  end.

(** Round 2: the remainder from whoever has evictable bytes. *)
Fixpoint remainderRound (us : list DomainUsage) (t need freed : Z) : M Z :=
  match us with
  | [] => mret freed
  | u :: us =>
      if need <=? freed then mret freed else
      freed ← harvest (d_NS u) (need - freed) t freed;
      remainderRound us t need freed
  end.

Definition policyPass (t need : Z) : M Z :=
  po ← gets policy;
  match po with
  | None => mret 0
  | Some _ =>
      if need <=? 0 then mret 0 else
      usages ← polUsage t;
      let totalBytes := foldr (fun u a => d_Bytes u + a) 0 usages in
      if totalBytes =? 0 then mret 0 else
      fuel ← gets (fun s => S (length (rangeList (index_ s))));
      freed ← overQuotaRound fuel usages t need 0;
      freed ← proportionalRound usages totalBytes t need freed;
      remainderRound usages t need freed
  end.

(** The walk of [sweepEmergency]. *)
Record emAcc := mkEmAcc { em_unpinned : list Key; em_soft : list Key; em_bytes : Z; em_count : Z }.

Definition emergencyStep (h : gmap Z BlockRef) (t needBytes needCount : Z) (k : Key) (p : Z) (acc : emAcc)
    : emAcc * bool :=
  match h !! p with
  | Some r =>
      let acc :=
        if (Refcount r =? 1) && negb (Leased r t) && negb (HardPinned r) then
          if Pinned r
          then mkEmAcc (em_unpinned acc) (em_soft acc ++ [k]) (em_bytes acc + Len r) (em_count acc + 1)
          else mkEmAcc (em_unpinned acc ++ [k]) (em_soft acc) (em_bytes acc + Len r) (em_count acc + 1)
        else acc in
      (acc, (em_bytes acc <? needBytes) || (em_count acc <? needCount))
  | None => (acc, true)
  end.

(** One of the two loops: stops once both goals are met. *)
Fixpoint evictEmergency (victims : list Key) (needBytes needCount freed count : Z) : M (Z * Z * bool) :=
  match victims with
  | [] => mret (freed, count, false)
  | k :: victims =>
      '(n, outcome) ← evictOne k true;
      let '(freed, count) := match outcome with
                             | evictedOK => (freed + n, count + 1)
                             | _ => (freed, count)
                             end in
      if (needBytes <=? freed) && (needCount <=? count) then mret (freed, count, true)
      else evictEmergency victims needBytes needCount freed count
  end.

Definition sweepEmergency (t needBytes needCount : Z) : M Z :=
  if (needBytes <=? 0) && (needCount <=? 0) then mret 0 else
  acc ← gets (fun s => Range (index_ s) (emergencyStep (heap s) t needBytes needCount)
                         (mkEmAcc [] [] 0 0));
  '(freed, count, done) ← evictEmergency (em_unpinned acc) needBytes needCount 0 0;
  if done : bool then mret freed else
  '(freed, _, _) ← evictEmergency (em_soft acc) needBytes needCount freed count;
  mret freed.

(** The excess of live slots over 90% of the pool, when the pool trigger is on. *)
Definition countNeed (live maxAllocs : Z) (trigger : bool) : Z :=
  if trigger then
    let excess := live - Z.quot (maxAllocs * 90) 100 in if 0 <? excess then excess else 0
  else 0.

Definition evictOnce (cfg : EvictorConfig) (coalesce : bool) : M Z :=
  gen ← gets occGen;
  futile ← gets lastFutileGen;
  if coalesce && (gen =? futile) then mret 0 else
  '(used, total) ← occupancy;
  let byteTrigger := u64 (total * u64 (WatermarkPct cfg)) <=? u64 (used * 100) in
  maxAllocs ← gets (fun s => ea_MaxAllocs (alloc s));
  live ← gets liveAllocs;
  let allocTrigger := maxAllocs * 95 <=? live * 100 in
  if negb byteTrigger && negb allocTrigger then mret 0 else
  let floorUnits := u32 (u64 (total * u64 (WatermarkPct cfg - BatchPct cfg)) / 100) in
  let needUnits := if floorUnits <? used then u32 (used - floorUnits) else 0 in
  let needCount := countNeed live maxAllocs allocTrigger in
  if (needUnits =? 0) && (needCount =? 0) then mret 0 else
  let needBytes := needUnits <<| AllocUnitShift in
  t ← now;
  ttl ← gets (fun s => ttlBlocks (life s));
  freed ← (if 0 <? ttl then sweepExpired t needBytes else mret 0);
  freed ← (if freed <? needBytes
           then n ← policyPass t (needBytes - freed); mret (freed + n) else mret freed);
  '(used2, total2) ← occupancy;
  let stillBytes := u64 (total2 * u64 (WatermarkPct cfg)) <=? u64 (used2 * 100) in
  live2 ← gets liveAllocs;
  let stillAllocs := maxAllocs * 95 <=? live2 * 100 in
  freed ← (if stillBytes || stillAllocs then
             let emBytes := if floorUnits <? used2
                            then u32 (used2 - floorUnits) <<| AllocUnitShift else 0 in
             let emCount := countNeed live2 maxAllocs stillAllocs in
             n ← sweepEmergency t emBytes emCount; mret (freed + n)
           else mret freed);
  modify (set_lastFutileGen (if freed =? 0 then gen else 0));;
  mret freed.

Definition EvictNow : M Z :=
  ev ← gets evict;
  match ev with
  | Some cfg => evictOnce cfg true
  | None => evictOnce (withDefaults (mkEvictorConfig 0 0 0)) false
  end.

(** One turn of the evictor's loop: the ticker runs the policy's housekeeping
    and bypasses the futile-pass cache, a nudge coalesces. *)
Definition evictorTick (cfg : EvictorConfig) : M Z :=
  po ← gets policy;
  match po with
  | Some _ => t ← now; polUsage t;; evictOnce cfg false
  | None => evictOnce cfg false
  end.

Definition evictorKick (cfg : EvictorConfig) : M Z :=
  modify (set_kicked false);; evictOnce cfg true.

(** ** The store surface *)

Definition fits_ (units : Z) : M bool :=
  rep ← allocReport; mret (units <=? OffsetAlloc.LargestFreeRegion rep).

Definition CanStore (n : Z) : M bool :=
  if n =? 0 then mret true else
  let units := bytesToUnits n in
  ok ← fits_ units;
  if ok : bool then mret true else
  ev ← gets evict;
  ok ← (match ev with
        | Some _ => EvictNow;; fits_ units
        | None => mret false
        end);
  if ok : bool then mret true else kickEvictor;; mret false.

Definition CanStoreNS (ns n : Z) : M bool :=
  qo ← gets quotas;
  match qo with
  | Some q => if Quotas.WouldExceed q ns Registry.TierDRAM n
              then kickEvictor;; mret false else CanStore n
  | None => CanStore n
  end.

Definition ExistsPrefix (ns : Z) (keys : list bytes) (withBitmap : bool) : M (Z * option (list Z)) :=
  idx ← gets index_;
  let (n, hits) := Index.ExistsPrefix idx ns keys withBitmap in
  mret (n, match hits with
           | None => None
           | Some hits => Some ((fun ok : bool => if ok then StatusOK else StatusNotFound) <$> hits)
           end).

(** [GetRef]: the bytes, the digest, and the reference its release callback
    drops ([releaseRef]). *)
Definition GetRef (ns : Z) (key : bytes) : M (option (bytes * Z * Z)) :=
  let k := mkKey ns key in
  o ← gets (fun s => Get (index_ s) k);
  match o with
  | None => mret None
  | Some p =>
      r ← deref p;
      let (r, ok) := Acquire r in
      if negb ok then mret None else
      setRef p r;;
      t ← now;
      l ← gets life;
      let r := set_hits (u32 (hits r + 1)) (GrantReadLease l r t) in
      setRef p r;;
      polTouch k t;;
      data ← (if 0 <? Len r then arenaRead (u64 (Offset r <<| AllocUnitShift)) (Len r) else mret []);
      mret (Some (data, XXH3 r, p))
  end.

Definition GetCopy (ns : Z) (key : bytes) : M (option (bytes * Z)) :=
  o ← GetRef ns key;
  match o with
  | None => mret None
  | Some (data, sum, p) => releaseRef p;; mret (Some (data, sum))
  end.

Definition putExistsStatus (existing : BlockRef) (xxh3 : Z) : Z :=
  if XXH3 existing =? xxh3 then StatusOKExists else StatusErrImmutableConflict.

(** The allocation step of [Put]: one synchronous pass and one retry. *)
Definition putAlloc (units : Z) : M (Allocation * bool) :=
  '(al, ok) ← allocAlloc units;
  ev ← gets evict;
  match ok, ev with
  | false, Some _ => EvictNow;; allocAlloc units
  | _, _ => mret (al, ok)
  end.

Definition freshRef (al : Allocation) (n ns xxh3 : Z) : BlockRef :=
  mkBlockRef (OffsetAlloc.Offset al) (u32 n) ns xxh3 (OffsetAlloc.Meta al) 0 TierDRAM 0 0 0 0 1 0.

(** The binding charge; [true] when admitted. *)
Definition putCharge (ns n : Z) : M bool := fun s =>
  match quotas s with
  | Some q =>
      if 0 <? n then
        let (q, e) := Quotas.Charge q ns Registry.TierDRAM n in
        Some (match e with None => true | Some _ => false end, set_quotas (Some q) s)
      else Some (true, s)
  | None => Some (true, s)
  end.

(** From the charge on: publish, or give the extent back. *)
Definition putPublish (k : Key) (data : bytes) (xxh3 : Z) (al : Allocation) : M Z :=
  let n := len data in
  admitted ← putCharge (NS k) n;
  if negb admitted then
    allocFree al;; addLive (-1);; kickEvictor;; mret StatusErrQuotaBytes
  else
  p ← newRef (freshRef al n (NS k) xxh3);
  idx ← gets index_;
  let '(idx, existing, inserted) := Index.Put idx k p (u32 n) in
  if negb inserted then
    (if 0 <? n then allocFree al;; addLive (-1);; refundQuota p else mret tt);;
    r ← deref existing;
    mret (putExistsStatus r xxh3)
  else
  modify (set_index idx);;
  (if n =? 0 then addLive 1 else mret tt);;
  bumpGen;;
  po ← gets policy;
  match po with
  | Some _ => if 0 <? n then t ← now; polAdmit k n t;; mret StatusOK else mret StatusOK
  | None => mret StatusOK
  end.

Definition Put (ns : Z) (key data : bytes) (xxh3 : Z) : M Z :=
  let k := mkKey ns key in
  o ← gets (fun s => Get (index_ s) k);
  match o with
  | Some p => r ← deref p; mret (putExistsStatus r xxh3)
  | None =>
      if 0 <? len data then
        '(al, ok) ← putAlloc (bytesToUnits (len data));
        if negb ok then kickEvictor;; mret StatusErrQuotaBytes else
        addLive 1;;
        arenaWrite (u64 (OffsetAlloc.Offset al <<| AllocUnitShift)) (u32 (len data)) data;;
        putPublish k data xxh3 al
      else putPublish k data xxh3 (mkAllocation 0 0)
  end.

Definition Contains (ns : Z) (key : bytes) : M bool :=
  gets (fun s => bool_decide (is_Some (Get (index_ s) (mkKey ns key)))).

Definition deleteGate (k : Key) (force : bool) (p : Z) : M Z :=
  t ← now;
  r ← deref p;
  let g := canDelete r force t in
  if negb (g =? StatusOK) then mret g else
  polRemove k;; unpinGone p;; mret StatusOK.

Definition Delete (ns : Z) (key : bytes) (force : bool) : M Z :=
  let k := mkKey ns key in
  '(o, g) ← DeleteIf k (deleteGate k force);
  match o with
  | None => mret g
  | Some p => noteGone p;; refundQuota p;; releaseRef p;; mret StatusOK
  end.

Definition TouchLease (ns : Z) (key : bytes) (sub ttlMS : Z) : M Z :=
  let k := mkKey ns key in
  o ← gets (fun s => Get (index_ s) k);
  match o with
  | None => mret StatusNotFound
  | Some p =>
      r ← deref p;
      l ← gets life;
      if sub =? TouchRecency then
        t ← now;
        let (l, r) := Touch l r ttlMS t in
        modify (set_life l);; setRef p r;;
        po ← gets policy;
        match po with
        | Some _ => t ← now; polTouch k t;; mret StatusOK
        | None => mret StatusOK
        end
      else if sub =? LeaseGrant then
        t ← now; setRef p (Lease l r ttlMS t);; mret StatusOK
      else if sub =? LeaseRelease then
        setRef p (ReleaseLease r);; bumpGen;; mret StatusOK
      else mret StatusErrUnsupported
  end.

Definition PinOp (ns : Z) (key : bytes) (sub : Z) : M Z :=
  o ← gets (fun s => Get (index_ s) (mkKey ns key));
  match o with
  | None => mret StatusNotFound
  | Some p =>
      r ← deref p;
      l ← gets life;
      if (sub =? PinSoft) || (sub =? PinHard) then
        let '(l, r, g) := Pin l r (sub =? PinHard) in
        modify (set_life l);; setRef p r;; mret g
      else if sub =? Wire.Ops.Unpin then
        let (l, r) := Unpin l r in
        modify (set_life l);; setRef p r;; bumpGen;; mret StatusOK
      else mret StatusErrUnsupported
  end.

(** ** The demotion seam *)

Definition RefForDemotion (ns : Z) (key : bytes) : M (option (bytes * Z * Z * Z)) :=
  o ← gets (fun s => Get (index_ s) (mkKey ns key));
  match o with
  | None => mret None
  | Some p =>
      r ← deref p;
      if Len r =? 0 then mret None else
      let (r, ok) := Acquire r in
      if negb ok then mret None else
      setRef p r;;
      data ← arenaRead (u64 (Offset r <<| AllocUnitShift)) (Len r);
      mret (Some (data, XXH3 r, hits r, p))
  end.

(** [published] tells whether the caller passed a publish callback, which does
    not call back into the store. *)
Definition demoteGate (xxh3 : Z) (p : Z) : M Z :=
  r ← deref p;
  if negb (XXH3 r =? xxh3) then mret StatusErrBusy else
  t ← now;
  mret (if negb (CanEvict r t) then StatusErrBusy else StatusOK).

Definition CompleteDemotion (ns : Z) (key : bytes) (xxh3 : Z) (published : bool) : M bool :=
  '(o, _) ← DeleteIf (mkKey ns key) (demoteGate xxh3);
  match o with
  | None => mret false
  | Some p =>
      noteGone p;;
      (if negb published then modify (fun s => set_evictions (evictions s + 1) s) else mret tt);;
      releaseRef p;;
      mret true
  end.

Definition Occupancy : M (Z * Z) :=
  '(used, total) ← occupancy;
  mret (used <<| AllocUnitShift, total <<| AllocUnitShift).

(** ** Statistics and shutdown *)

Record StatsDoc := mkStatsDoc {
  st_Blocks : Z; st_Bytes : Z; st_ShardCount : Z; st_ArenaBytes : Z; st_ArenaFreeBytes : Z;
  st_LargestFreeRegion : Z; st_PinnedBytes : gmap Z Z; st_EvictionsTotal : Z;
  st_EvictionGhostBytes : Z; st_LiveAllocs : Z; st_MaxAllocs : Z
}.

Definition StatsSnapshot : M StatsDoc :=
  '(b, by_) ← gets (fun s => Stats (index_ s));
  rep ← allocReport;
  po ← gets policy;
  ghost ← (match po with
           | Some _ => t ← now; us ← polUsage t; mret (foldr (fun u a => d_GhostBytes u + a) 0 us)
           | None => mret 0
           end);
  gets (fun s => mkStatsDoc b by_ indexShards (len (arena s))
                   (u64 (OffsetAlloc.TotalFreeSpace rep <<| AllocUnitShift))
                   (u64 (OffsetAlloc.LargestFreeRegion rep <<| AllocUnitShift))
                   (pinnedBytes (life s)) (evictions s) ghost (liveAllocs s)
                   (ea_MaxAllocs (alloc s))).

Definition Close : M unit := modify (set_closed true).

End Store.

(** [New] over a mapped arena; [mkAlloc] is [NewAllocatorMax]. *)
Record Params := mkParams {
  p_LeaseDefaultMS : Z;
  p_LeaseMaxMS : Z;
  p_PinnedBytesCap : Z;
  p_PinCapFor : option (Z -> Z);
  p_Quotas : option Quotas.Quotas
}.

Definition NewStore {A P} (mkAlloc : Z -> Z -> option A) (arena_ : bytes) (p : Params) : option (Store A P) :=
  let units := u32 (len arena_ >>| AllocUnitShift) in
  let maxAllocs := units / 16 in
  let maxAllocs := if maxAllocs <? 1024 then 1024 else maxAllocs in
  let leaseMax := if (0 <? p_LeaseDefaultMS p) && (p_LeaseMaxMS p <? p_LeaseDefaultMS p)
                  then p_LeaseDefaultMS p else p_LeaseMaxMS p in
  a ← mkAlloc units maxAllocs;
  Some (mkStore arena_ false NewIndex ∅ 1
          (newLifecycle (p_LeaseDefaultMS p) leaseMax (p_PinnedBytesCap p) (p_PinCapFor p))
          a None (p_Quotas p) None false 0 0 1 0 0).

Definition AttachPolicy {A P} (pol : P) (s : Store A P) : Store A P := set_policy (Some pol) s.

(** The state part of [StartEvictor]. *)
Definition StartEvictor {A P} (cfg : EvictorConfig) (s : Store A P) : Store A P :=
  mkStore (arena s) (closed s) (index_ s) (heap s) (nextRef s) (life s) (alloc s) (policy s) (quotas s)
    (Some (withDefaults cfg)) (kicked s) (evictions s) (liveAllocs s) (occGen s) (lastFutileGen s) (tick s).

End Dram.
