(* ===== verification/DramInv.v ===== *)
(** The invariant of the DRAM tier and what keeps it.

    Refcounts are exact: a record's count is one for the index entry, if there
    is one, plus the readers that hold it. Every record with a positive count
    owns a live extent of the allocator, and no two share one. Every counter of
    the store is the sum it stands for. The invariant is proved against the
    allocator's contract, stated as the class [ExtentAllocLaws]. *)

From Stdlib Require Import ZArith Lia.
From coqutil Require Import Byte.
From stdpp Require Import base numbers list gmap.
From S2P Require Import Prelude.
From S2P Require Import Wire.
From S2P Require Import Tenant.
From S2P Require Import OffsetAlloc.
From S2P Require Import AllocSpec.
From S2P Require Import Eviction.
From S2P Require Import BlockRef.
From S2P Require Import Index.
From S2P Require Import DramStore.
Import Ops Eviction Block Lifecycle Index Dram.
Open Scope Z_scope.
Open Scope go_scope.

Module DramInv.

Abbreviation Meta := OffsetAlloc.Meta.
Abbreviation AOffset := OffsetAlloc.Offset.

(** What the store relies on of its allocator: live handles stand for disjoint
    ranges inside the arena, an allocation adds one, a free removes it. A free
    may also keep the range (the one handle that equals the failure sentinel). *)
Class ExtentAllocLaws (A : Type) `{!ExtentAlloc A} := {
  ea_wf : A -> Prop;
  ea_live : A -> gmap Z (Z * Z);
  ea_size : A -> Z;
  ea_range : forall a m o n, ea_wf a -> ea_live a !! m = Some (o, n) ->
    0 <= o /\ 0 < n /\ o + n <= ea_size a;
  ea_disjoint : forall a m m' r r', ea_wf a -> ea_live a !! m = Some r -> ea_live a !! m' = Some r' ->
    m <> m' -> AllocSpec.disjoint_range r r';
  ea_pack : forall a, ea_wf a -> msum snd (ea_live a) <= ea_size a;
  ea_alloc_ok : forall a n, ea_wf a -> 0 < n < 2 ^ 32 ->
    exists a' al ok, ea_Alloc a n = Some (a', al, ok) /\ ea_wf a' /\ ea_size a' = ea_size a /\
      if ok : bool then ea_live a !! Meta al = None /\
                        ea_live a' = <[Meta al := (AOffset al, n)]> (ea_live a)
      else a' = a;
  ea_free_ok : forall a al r, ea_wf a -> ea_live a !! Meta al = Some r ->
    exists a', ea_Free a al = Some a' /\ ea_wf a' /\ ea_size a' = ea_size a /\
      (ea_live a' = delete (Meta al) (ea_live a) \/ ea_live a' = ea_live a);
  ea_report_ok : forall a, ea_wf a -> is_Some (ea_Report a)
}.

(** ** Units *)

Lemma units_spec n :
  0 < n < 2 ^ 32 -> 0 < bytesToUnits n < 2 ^ 32 /\ n <= bytesToUnits n * 4096.
Proof.
  intros Hn. unfold bytesToUnits. change OffsetAlloc.AllocUnit with 4096.
  change OffsetAlloc.AllocUnitShift with 12. rewrite Z.shiftr_div_pow2 by lia.
  change (2 ^ 12) with 4096. unfold u32.
  pose proof (Z.div_mod (n + 4096 - 1) 4096 ltac:(lia)).
  pose proof (Z.mod_pos_bound (n + 4096 - 1) 4096 ltac:(lia)).
  rewrite Z.mod_small by lia. lia.
Qed.

(** ** The invariant *)

(** Ghost state: readers holding each record, bytes still charged for blocks
    that have left the index, TTL marks not yet taken back. *)
Record ghost := mkGhost { rd : Z -> Z; owed : Z -> Z; dt : Z }.

Definition addRd (g : ghost) (p d : Z) : ghost :=
  mkGhost (fun q => if decide (q = p) then rd g q + d else rd g q) (owed g) (dt g).
Definition addOwed (g : ghost) (ns d : Z) : ghost :=
  mkGhost (rd g) (fun n => if decide (n = ns) then owed g n + d else owed g n) (dt g).
Definition addDt (g : ghost) (d : Z) : ghost := mkGhost (rd g) (owed g) (dt g + d).

Record ref_ok (r : BlockRef) : Prop := mkRefOk {
  rk_len : 0 <= Len r < 2 ^ 32;
  rk_pin : PinFlags r = 0 \/ PinFlags r = 1 \/ PinFlags r = 2
}.

Definition alive (r : BlockRef) : Z := if 0 <? Refcount r then 1 else 0.
Definition hardBytes (ns : Z) (r : BlockRef) : Z :=
  if HardPinned r && (NamespaceID r =? ns) then Len r else 0.
Definition hasTTL (r : BlockRef) : Z := if TTLUntil r =? 0 then 0 else 1.
Definition nsBytes (ns : Z) (r : BlockRef) : Z := if NamespaceID r =? ns then Len r else 0.

Section Inv.
Context {A P : Type} `{!ExtentAlloc A} `{!ExtentAllocLaws A} `{!Policy P} `{!PolicyLaws P} `{!IndexEnv} (time : nat -> Z).

Abbreviation st := (Store A P).

Definition cont (s : st) : gmap Key Z := contents (index_ s).

(** The resident records, by key. *)
Definition res (s : st) : gmap Key BlockRef := omap (fun p => heap s !! p) (cont s).

Record Inv (g : ghost) (s : st) : Prop := mkInv {
  iv_idx : index_ok (index_ s);
  iv_res : forall k p, cont s !! k = Some p -> exists r, heap s !! p = Some r /\ NamespaceID r = NS k;
  iv_inj : forall k k' p, cont s !! k = Some p -> cont s !! k' = Some p -> k = k';
  iv_heap : forall p r, heap s !! p = Some r -> p < nextRef s /\ ref_ok r;
  iv_in : forall k p r, cont s !! k = Some p -> heap s !! p = Some r -> Refcount r = rd g p + 1;
  iv_out : forall p r, heap s !! p = Some r -> (forall k, cont s !! k <> Some p) -> Refcount r = rd g p;
  iv_rd : forall p, 0 <= rd g p /\ (0 < rd g p -> is_Some (heap s !! p));
  iv_ext : forall p r, heap s !! p = Some r -> 0 < Refcount r -> 0 < Len r ->
    ea_live (alloc s) !! allocMeta r = Some (Offset r, bytesToUnits (Len r));
  iv_meta : forall p p' r r', heap s !! p = Some r -> heap s !! p' = Some r' ->
    0 < Refcount r -> 0 < Refcount r' -> 0 < Len r -> 0 < Len r' ->
    allocMeta r = allocMeta r' -> p = p';
  iv_wf : ea_wf (alloc s);
  iv_arena : closed s = false /\ ea_size (alloc s) * 4096 <= len (arena s) < 2 ^ 44;
  iv_blocks : blocks (index_ s) = msum (fun _ => 1) (res s);
  iv_bytes : bytes_ (index_ s) = msum Len (res s);
  iv_live : liveAllocs s = msum alive (heap s);
  iv_pin : forall ns, pinnedOf (life s) ns = msum (hardBytes ns) (res s);
  iv_ttl : ttlBlocks (life s) = msum hasTTL (res s) + dt g;
  iv_quota : match quotas s with
             | Some q => QuotaFacts.quotas_ok q /\
                 forall ns, Quotas.Usage q ns Registry.TierDRAM = msum (nsBytes ns) (res s) + owed g ns
             | None => True
             end;
  iv_bound : forall ns, 0 <= owed g ns /\ msum Len (res s) + owed g ns < 2 ^ 62;
  iv_policy : forall p, policy s = Some p -> pol_wf p
}.

(** States that agree on what the invariant reads. *)
Definition core (s : st) := (arena s, closed s, index_ s, heap s, nextRef s, life s, alloc s, quotas s, policy s, liveAllocs s).

Lemma Inv_frame g s s' : core s = core s' -> Inv g s -> Inv g s'.
Proof.
  destruct s, s'. unfold core. cbn. intros E. simplify_eq. intros [].
  split; assumption.
Qed.

Lemma res_lookup s k r :
  res s !! k = Some r <-> exists p, cont s !! k = Some p /\ heap s !! p = Some r.
Proof. unfold res. rewrite lookup_omap. apply bind_Some. Qed.

(** Overwriting a record changes the resident map at its key, if it has one. *)
Lemma res_update s s' p r' :
  cont s' = cont s -> heap s' = <[p := r']> (heap s) -> is_Some (heap s !! p) ->
  (forall k k' q, cont s !! k = Some q -> cont s !! k' = Some q -> k = k') ->
  (forall k, cont s !! k = Some p -> res s' = <[k := r']> (res s)) /\
  ((forall k, cont s !! k <> Some p) -> res s' = res s).
Proof.
  intros Hc Hh Hp Hinj. split.
  - intros k Hk. apply map_eq. intros k'. unfold res. rewrite lookup_omap, Hc, Hh.
    destruct (decide (k = k')) as [<-|Hne].
    + rewrite lookup_insert_eq, Hk. cbn. by rewrite lookup_insert_eq.
    + rewrite lookup_insert_ne, lookup_omap by done. destruct (cont s !! k') as [q|] eqn:Hq; [|done].
      cbn. rewrite lookup_insert_ne; [done|]. intros ->. eauto.
  - intros Hno. apply map_eq. intros k'. unfold res. rewrite !lookup_omap, Hc, Hh.
    destruct (cont s !! k') as [q|] eqn:Hq; [|done]. cbn. rewrite lookup_insert_ne; [done|].
    intros ->. by apply Hno in Hq.
Qed.

(** Whether an address is in the index. *)
Lemma indexed_dec s p : (exists k, cont s !! k = Some p) \/ (forall k, cont s !! k <> Some p).
Proof.
  destruct (decide (map_Exists (fun _ q => q = p) (cont s))) as [(k & q & Hk & ->)|Hn]; [by left; exists k|].
  right. intros k Hk. apply Hn. by exists k, p.
Qed.

(** The parts of a record that never change. *)
Definition same_id (r r' : BlockRef) : Prop :=
  Offset r' = Offset r /\ Len r' = Len r /\ NamespaceID r' = NamespaceID r /\
  XXH3 r' = XXH3 r /\ allocMeta r' = allocMeta r.

(** States that differ from [s] in one record, the pin and TTL accounting and
    the count of live extents. *)
Definition upd_of (s s' : st) (p : Z) (r' : BlockRef) : Prop :=
  arena s' = arena s /\ closed s' = closed s /\ index_ s' = index_ s /\ nextRef s' = nextRef s /\
  alloc s' = alloc s /\ quotas s' = quotas s /\ policy s' = policy s /\ heap s' = <[p := r']> (heap s).

(** How the accounting follows a change of the record [r] at [p] into [r']. *)
Definition accounts (g g' : ghost) (s s' : st) (p : Z) (r r' : BlockRef) : Prop :=
  (forall q, rd g' q = if decide (q = p) then rd g q + (Refcount r' - Refcount r) else rd g q) /\
  owed g' = owed g /\
  liveAllocs s' = liveAllocs s - alive r + alive r' /\
  (forall k, cont s !! k = Some p ->
     (forall ns, pinnedOf (life s') ns = pinnedOf (life s) ns - hardBytes ns r + hardBytes ns r') /\
     ttlBlocks (life s') - dt g' = ttlBlocks (life s) - dt g - hasTTL r + hasTTL r') /\
  ((forall k, cont s !! k <> Some p) ->
     (forall ns, pinnedOf (life s') ns = pinnedOf (life s) ns) /\
     ttlBlocks (life s') - dt g' = ttlBlocks (life s) - dt g).

Lemma nsBytes_id ns r r' : same_id r r' -> nsBytes ns r' = nsBytes ns r.
Proof. intros (_ & E1 & E2 & _). unfold nsBytes. by rewrite E1, E2. Qed.

(** The sums over resident blocks after such a change. *)
Lemma msum_res_update s s' p r r' f :
  cont s' = cont s -> heap s' = <[p := r']> (heap s) -> heap s !! p = Some r ->
  (forall k k' q, cont s !! k = Some q -> cont s !! k' = Some q -> k = k') ->
  ((forall k, cont s !! k = Some p -> msum f (res s') = msum f (res s) - f r + f r') /\
   ((forall k, cont s !! k <> Some p) -> msum f (res s') = msum f (res s))).
Proof.
  intros Hc Hh Hp Hinj. destruct (res_update s s' p r' Hc Hh) as [H1 H2]; [by eexists|done|]. split.
  - intros k Hk. rewrite (H1 k Hk). apply msum_update. apply res_lookup. eauto.
  - intros Hn. by rewrite H2.
Qed.

Lemma msum_res_same s s' p r r' f :
  cont s' = cont s -> heap s' = <[p := r']> (heap s) -> heap s !! p = Some r ->
  (forall k k' q, cont s !! k = Some q -> cont s !! k' = Some q -> k = k') ->
  f r' = f r -> msum f (res s') = msum f (res s).
Proof.
  intros Hc Hh Hp Hinj Hf. destruct (msum_res_update s s' p r r' f Hc Hh Hp Hinj) as [H1 H2].
  destruct (indexed_dec s p) as [[k Hk]|Hn]; [rewrite (H1 k Hk); lia|auto].
Qed.

Lemma Inv_update g g' s s' p r r' :
  Inv g s -> heap s !! p = Some r -> same_id r r' -> ref_ok r' -> upd_of s s' p r' ->
  accounts g g' s s' p r r' -> 0 <= rd g p + (Refcount r' - Refcount r) ->
  (0 < Refcount r' -> 0 < Refcount r) -> Inv g' s'.
Proof.
  intros HI Hp Hid Hok (Ea & Ec & Ei & En & El & Eq & Epo & Eh) (Hrd & How & Hlv & Hin & Hout) Hge Hpos.
  pose proof Hid as (E1 & E2 & E3 & E4 & E5).
  assert (cont s' = cont s) as Hcont by (unfold cont; by rewrite Ei).
  pose proof (fun f => msum_res_same s s' p r r' f Hcont Eh Hp (iv_inj g s HI)) as Hsame.
  pose proof (fun f => msum_res_update s s' p r r' f Hcont Eh Hp (iv_inj g s HI)) as Hupd.
  assert (forall q x, heap s' !! q = Some x ->
            (q = p /\ x = r') \/ (q <> p /\ heap s !! q = Some x)) as Hlk.
  { intros q x. rewrite Eh. rewrite lookup_insert_Some. naive_solver. }
  split.
  - rewrite Ei. apply HI.
  - intros k q Hk. rewrite Hcont in Hk. destruct (iv_res g s HI k q Hk) as (x & Hx & Hns).
    rewrite Eh. destruct (decide (p = q)) as [<-|]; [|by rewrite lookup_insert_ne by done; eauto].
    rewrite lookup_insert_eq. exists r'. split; [done|]. congruence.
  - rewrite Hcont. apply HI.
  - intros q x [[-> ->]|[_ Hx]]%Hlk; rewrite En; [split; [by apply (iv_heap g s HI p r)|done]|].
    by apply (iv_heap g s HI).
  - intros k q x Hk Hx. rewrite Hcont in Hk. rewrite Hrd.
    apply Hlk in Hx as [[-> ->]|[Hne Hx]].
    + rewrite decide_True by done. pose proof (iv_in g s HI k p r Hk Hp). lia.
    + rewrite decide_False by done. by apply (iv_in g s HI k).
  - intros q x Hx Hn. rewrite Hcont in Hn. rewrite Hrd. apply Hlk in Hx as [[-> ->]|[Hne Hx]].
    + rewrite decide_True by done. pose proof (iv_out g s HI p r Hp Hn). lia.
    + rewrite decide_False by done. by apply (iv_out g s HI).
  - intros q. rewrite Hrd, Eh. pose proof (iv_rd g s HI q) as [H1 H2]. case_decide as Hq.
    + subst. rewrite lookup_insert_eq. split; [lia|by eexists].
    + rewrite lookup_insert_ne by done. done.
  - intros q x Hx Hr Hl. rewrite El. apply Hlk in Hx as [[-> ->]|[Hne Hx]].
    + rewrite E5, E1, E2. apply (iv_ext g s HI p); [done|auto|lia].
    + by apply (iv_ext g s HI q).
  - intros q q' x x' Hx Hx' Hr Hr' Hl Hl' Hm.
    apply Hlk in Hx as [[-> ->]|[Hne Hx]]; apply Hlk in Hx' as [[-> ->]|[Hne' Hx']]; [done| | |].
    + rewrite E2, E5 in *. eapply (iv_meta g s HI p q'); eauto.
    + rewrite E2, E5 in *. eapply (iv_meta g s HI q p); eauto.
    + eapply (iv_meta g s HI q q'); eauto.
  - rewrite El. apply HI.
  - rewrite El, Ec, Ea. apply HI.
  - rewrite Ei, (Hsame (fun _ => 1) eq_refl). apply HI.
  - rewrite Ei, (Hsame Len E2). apply HI.
  - rewrite Hlv, (iv_live g s HI), Eh. by rewrite (msum_update alive _ p r r').
  - intros ns. destruct (indexed_dec s p) as [[k Hk]|Hn].
    + destruct (Hin k Hk) as [Hpin _]. rewrite Hpin, (iv_pin g s HI).
      destruct (Hupd (hardBytes ns)) as [Hu _]. by rewrite (Hu k Hk).
    + destruct (Hout Hn) as [Hpin _]. rewrite Hpin, (iv_pin g s HI).
      destruct (Hupd (hardBytes ns)) as [_ Hu]. by rewrite (Hu Hn).
  - pose proof (iv_ttl g s HI). destruct (Hupd hasTTL) as [Hu Hu'].
    destruct (indexed_dec s p) as [[k Hk]|Hn].
    + destruct (Hin k Hk) as [_ Ht]. rewrite (Hu k Hk). lia.
    + destruct (Hout Hn) as [_ Ht]. rewrite (Hu' Hn). lia.
  - rewrite Eq. pose proof (iv_quota g s HI) as Hq. destruct (quotas s) as [q|]; [|done].
    destruct Hq as [Hq1 Hq2]. split; [done|]. intros ns. rewrite Hq2, How.
    by rewrite (Hsame (nsBytes ns) (nsBytes_id ns r r' Hid)).
  - rewrite (Hsame Len E2), How. apply HI.
  - rewrite Epo. apply HI.
Qed.

(** ** Running the store's methods *)

Lemma run_deref {B} p (k : BlockRef -> sm st B) s r :
  heap s !! p = Some r -> (deref p ≫= k) s = k r s.
Proof. intros Hp. unfold deref, mbind, sm_mbind. by rewrite Hp. Qed.

Lemma run_setRef {B} p r (k : unit -> sm st B) s :
  (setRef p r ≫= k) s = k tt (set_heap (<[p := r]> (heap s)) s).
Proof. done. Qed.

Lemma run_addLive {B} d (k : unit -> sm st B) s :
  (addLive d ≫= k) s = k tt (set_liveAllocs (liveAllocs s + d) s).
Proof. done. Qed.

Lemma run_bumpGen {B} (k : unit -> sm st B) s : (bumpGen ≫= k) s = k tt (set_occGen (occGen s + 1) s).
Proof. done. Qed.

Lemma run_now {B} (k : Z -> sm st B) s :
  (now time ≫= k) s = k (time (tick s)) (set_tick (S (tick s)) s).
Proof. done. Qed.

Lemma run_allocFree {B} al (k : unit -> sm st B) s a' :
  ea_Free (alloc s) al = Some a' -> (allocFree al ≫= k) s = k tt (set_alloc a' s).
Proof. intros Hf. unfold allocFree, mbind, sm_mbind. by rewrite Hf. Qed.

Lemma Inv_policy g s p' : Inv g s -> (forall p, p' = Some p -> pol_wf p) -> Inv g (set_policy p' s).
Proof. intros [] Hp. by split. Qed.

(** A call into the policy. *)
Lemma polDo_spec g s f :
  Inv g s -> (forall p, pol_wf p -> exists p', f p = Some p' /\ pol_wf p') ->
  exists p', polDo f s = Some (tt, set_policy p' s) /\ Inv g (set_policy p' s) /\
    (is_Some p' <-> is_Some (policy s)).
Proof.
  intros HI Hf. unfold polDo. destruct (policy s) as [p|] eqn:Hp.
  - destruct (Hf p (iv_policy g s HI p Hp)) as (p' & E & Hwf). exists (Some p'). rewrite E. split; [done|].
    split; [|done]. apply Inv_policy; [done|]. by intros ? [= <-].
  - exists None. split; [destruct s; cbn in *; by subst|]. split; [|done]. by apply Inv_policy.
Qed.

(** ** Dropping a reference *)

(** The allocator may give up an extent no live record owns. *)
Lemma Inv_alloc g s a' :
  Inv g s -> ea_wf a' -> ea_size a' = ea_size (alloc s) ->
  (forall p r, heap s !! p = Some r -> 0 < Refcount r -> 0 < Len r ->
     ea_live a' !! allocMeta r = ea_live (alloc s) !! allocMeta r) ->
  Inv g (set_alloc a' s).
Proof.
  intros HI Hwf Hsz Hlive. pose proof HI as [].
  split; try assumption; cbn.
  - intros p r Hp Hr Hl. cbn in Hp. rewrite (Hlive p r Hp Hr Hl). by apply (iv_ext g s HI p).
  - rewrite Hsz. apply HI.
Qed.

(** The state after one reference to [p] is dropped. *)
Definition dropped (s : st) (p : Z) (r : BlockRef) (a' : A) (lv og : Z) : st :=
  set_alloc a' (set_occGen og (set_liveAllocs lv (set_heap (<[p := set_Refcount (Refcount r - 1) r]> (heap s)) s))).

Lemma Inv_dropped g s p r :
  Inv g s -> heap s !! p = Some r -> 0 < rd g p ->
  0 < Refcount r /\
  Inv (addRd g p (-1)) (dropped s p r (alloc s)
     (liveAllocs s - alive r + alive (set_Refcount (Refcount r - 1) r)) (occGen s)).
Proof.
  intros HI Hp Hrd.
  assert (0 < Refcount r) as Hpos.
  { destruct (indexed_dec s p) as [[k Hk]|Hn].
    - rewrite (iv_in g s HI k p r Hk Hp). lia.
    - rewrite (iv_out g s HI p r Hp Hn). lia. }
  split; [done|].
  eapply (Inv_update g _ s _ p r (set_Refcount (Refcount r - 1) r)); try done.
  - split; apply (iv_heap g s HI p r Hp).
  - split_and!; cbn; try done.
    + intros q. cbn. case_decide; [|done]. lia.
    + intros k Hk. split; [intros ns; unfold hardBytes, HardPinned|unfold hasTTL]; cbn; lia.
  - cbn. lia.
Qed.

Lemma releaseRef_spec g s p r :
  Inv g s -> heap s !! p = Some r -> 0 < rd g p ->
  exists a' lv og, releaseRef p s = Some (tt, dropped s p r a' lv og) /\
    Inv (addRd g p (-1)) (dropped s p r a' lv og).
Proof.
  intros HI Hp Hrd. destruct (Inv_dropped g s p r HI Hp Hrd) as [Hpos HI'].
  unfold releaseRef. rewrite (run_deref p _ s r Hp). unfold Release. replace (Refcount r - 1 <? 0) with false by lia.
  set (r' := set_Refcount (Refcount r - 1) r) in *. rewrite run_setRef.
  unfold alive in HI'. replace (0 <? Refcount r) with true in HI' by lia.
  replace (0 <? Refcount r') with (negb (Refcount r - 1 =? 0)) in HI' by (cbn; lia).
  destruct (Refcount r - 1 =? 0) eqn:E0; cbn [negb] in HI'.
  2:{ exists (alloc s), (liveAllocs s), (occGen s).
      split; [by destruct s|]. eapply Inv_frame; [|exact HI']. unfold core, dropped. cbn.
      f_equal. lia. }
  unfold free. rewrite run_addLive, run_bumpGen, (run_deref p _ _ r') by apply lookup_insert_eq.
  cbn [Len set_Refcount r' Offset allocMeta]. case_if.
  { exists (alloc s), (liveAllocs s + -1), (occGen s + 1). split; [by destruct s|].
    eapply Inv_frame; [|exact HI']. unfold core, dropped. cbn. f_equal. lia. }
  assert (0 < Len r) as Hlen by (pose proof (rk_len _ (proj2 (iv_heap g s HI p r Hp))); lia).
  destruct (ea_free_ok (alloc s) (mkAllocation (Offset r) (allocMeta r)) (Offset r, bytesToUnits (Len r)))
    as (a' & Hf & Hwf & Hsz & Hlive); [apply HI|by apply (iv_ext g s HI p)|].
  exists a', (liveAllocs s + -1), (occGen s + 1). cbn in Hf. split.
  { unfold allocFree. cbn. rewrite Hf. done. }
  eapply Inv_frame; [|apply (Inv_alloc _ _ a' HI' Hwf Hsz)].
  { unfold core, dropped. cbn. f_equal. lia. }
  intros q x Hx Hr Hl. cbn in *. destruct Hlive as [->| ->]; [|done].
  rewrite lookup_delete_ne; [done|]. intros Em.
  apply lookup_insert_Some in Hx as [[<- <-]|[Hne Hx]]; [cbn in Hr; lia|].
  apply Hne. by apply (iv_meta g s HI p q r x).
Qed.

(** ** Taking a block out of the index *)

Lemma Inv_ghost g g' s :
  (forall p, rd g p = rd g' p) -> (forall ns, owed g ns = owed g' ns) -> dt g = dt g' ->
  Inv g s -> Inv g' s.
Proof.
  intros E1 E2 E3 []. split; try assumption; intros; rewrite <- ?E1, <- ?E2, <- ?E3; eauto.
  destruct (quotas s); [|done]. destruct iv_quota0 as [? Hq]. split; [done|]. intros ns.
  rewrite <- E2. apply Hq.
Qed.

Lemma len_nonneg_res g s k r : Inv g s -> res s !! k = Some r -> 0 <= Len r.
Proof.
  intros HI (p & _ & Hp)%res_lookup. apply (iv_heap g s HI p r) in Hp as [_ Hp]. apply Hp.
Qed.

Lemma hardBytes_le g s ns k r : Inv g s -> res s !! k = Some r -> 0 <= hardBytes ns r <= Len r.
Proof. intros HI Hr. pose proof (len_nonneg_res g s k r HI Hr). unfold hardBytes. case_if; lia. Qed.

Lemma nsBytes_le g s ns k r : Inv g s -> res s !! k = Some r -> 0 <= nsBytes ns r <= Len r.
Proof. intros HI Hr. pose proof (len_nonneg_res g s k r HI Hr). unfold nsBytes. case_if; lia. Qed.

Lemma hardBytes_unpinned ns r : PinFlags r = 0 -> hardBytes ns r = 0.
Proof. intros E. unfold hardBytes, HardPinned. by rewrite E. Qed.

(** Pinned bytes never go below zero, so the refund of a pin is exact. *)
Lemma refund_exact g s k p r ns :
  Inv g s -> cont s !! k = Some p -> heap s !! p = Some r -> HardPinned r = true ->
  pinnedOf (refund (life s) r) ns = pinnedOf (life s) ns - hardBytes ns r.
Proof.
  intros HI Hk Hp Hh. assert (res s !! k = Some r) as Hr by (apply res_lookup; eauto).
  assert (Len r <= pinnedOf (life s) (NamespaceID r)) as Hle.
  { rewrite (iv_pin g s HI). etrans; [|eapply (msum_elem (hardBytes (NamespaceID r)) _ k r); [|done]].
    - unfold hardBytes. by rewrite Hh, Z.eqb_refl.
    - intros k' r' Hr'. by apply (hardBytes_le g s _ k' r'). }
  unfold refund, pinnedOf at 1. cbn. unfold hardBytes. rewrite Hh. cbn [andb].
  replace (_ <? 0) with false by lia. destruct (decide (NamespaceID r = ns)) as [<-|Hne].
  - rewrite lookup_insert_eq, Z.eqb_refl. cbn. done.
  - rewrite lookup_insert_ne by done. replace (NamespaceID r =? ns) with false by lia. unfold pinnedOf. lia.
Qed.

Lemma unpinGone_spec g s k p r :
  Inv g s -> cont s !! k = Some p -> heap s !! p = Some r ->
  let s' := set_heap (<[p := set_PinFlags 0 r]> (heap s)) (set_life (fst (Lifecycle.Unpin (life s) r)) s) in
  unpinGone p s = Some (tt, s') /\ Inv g s'.
Proof.
  intros HI Hk Hp s'. split; [unfold unpinGone; by rewrite (run_deref p _ s r Hp)|].
  apply (Inv_update g g s s' p r (set_PinFlags 0 r)); try done.
  - split; [apply (iv_heap g s HI p r Hp)|by left].
  - split_and!; cbn; try done.
    + intros q. case_decide; lia.
    + unfold alive. cbn. lia.
    + intros k' Hk'. unfold hasTTL. cbn. setoid_rewrite (fun ns => hardBytes_unpinned ns (set_PinFlags 0 r) eq_refl).
      unfold Unpin. change (negb (Z.land (PinFlags r) pinHardBit =? 0)) with (HardPinned r).
      destruct (HardPinned r) eqn:Hh; cbn [fst].
      * split; [|by unfold refund; cbn; lia]. intros ns. rewrite (refund_exact g s k p r ns) by done. lia.
      * split; [|lia]. intros ns. unfold hardBytes. rewrite Hh. cbn. lia.
    + intros Hn. by apply Hn in Hk.
  - cbn. pose proof (iv_rd g s HI p). lia.
Qed.

Lemma res_delete s s' k p :
  cont s' = delete k (cont s) -> heap s' = heap s -> cont s !! k = Some p -> res s' = delete k (res s).
Proof.
  intros Hc Hh Hk. apply map_eq. intros k'. unfold res. rewrite lookup_omap, Hc, Hh.
  destruct (decide (k = k')) as [<-|Hne]; [by rewrite !lookup_delete_eq|].
  by rewrite !lookup_delete_ne, lookup_omap.
Qed.

(** The index's reference becomes one that is still to be dropped; the charge
    and the TTL mark of the block are still to be taken back. *)
Definition unlinked (g : ghost) (p : Z) (r : BlockRef) : ghost :=
  addDt (addOwed (addRd g p 1) (NamespaceID r) (Len r)) (hasTTL r).

Lemma Inv_unlink g s k p r :
  Inv g s -> cont s !! k = Some p -> heap s !! p = Some r -> PinFlags r = 0 ->
  Inv (unlinked g p r) (set_index (removeKey (index_ s) k (Len r)) s).
Proof.
  intros HI Hk Hp Hpin. set (s' := set_index _ s).
  destruct (removeKey_spec (index_ s) k (Len r) (iv_idx g s HI)) as [Hok Hcont].
  assert (cont s' = delete k (cont s)) as Hc by exact Hcont.
  assert (res s' = delete k (res s)) as Hres by (by eapply res_delete).
  assert (res s !! k = Some r) as Hr by (apply res_lookup; eauto).
  assert (forall f, msum f (res s') = msum f (res s) - f r) as Hsum.
  { intros f. rewrite Hres, (msum_delete f (res s) k r Hr). lia. }
  assert (forall k' q, cont s' !! k' = Some q -> cont s !! k' = Some q /\ q <> p) as Hin.
  { intros k' q. rewrite Hc. intros [Hne Hq]%lookup_delete_Some. split; [done|]. intros ->.
    apply Hne. by eapply (iv_inj g s HI). }
  pose proof (fun ns => hardBytes_unpinned ns r Hpin) as Hhb.
  split; try apply HI; cbn [index_ heap alloc arena closed life quotas liveAllocs nextRef set_index s'].
  - done.
  - intros k' q [Hq _]%Hin. by apply (iv_res g s HI).
  - intros k1 k2 q [H1 _]%Hin [H2 _]%Hin. by eapply (iv_inj g s HI).
  - intros k' q x [Hq Hne]%Hin Hx. cbn. rewrite decide_False by done. by apply (iv_in g s HI k').
  - intros q x Hx Hn. cbn. case_decide as Hq.
    + subst. rewrite (iv_in g s HI k p x Hk Hx). done.
    + apply (iv_out g s HI); [done|]. intros k' Hk'. apply (Hn k'). rewrite Hc.
      rewrite lookup_delete_ne; [done|]. congruence.
  - intros q. cbn. pose proof (iv_rd g s HI q). case_decide; [|done]. subst.
    split; [lia|]. intros _. by eexists.
  - rewrite Hsum. cbn. by rewrite (iv_blocks g s HI).
  - rewrite Hsum. cbn. by rewrite (iv_bytes g s HI).
  - intros ns. rewrite Hsum, Hhb, Z.sub_0_r. apply HI.
  - rewrite Hsum, (iv_ttl g s HI). cbn. lia.
  - pose proof (iv_quota g s HI) as Hq. destruct (quotas s) as [q|]; [|done].
    destruct Hq as [Hq1 Hq2]. split; [done|]. intros ns. rewrite Hsum, Hq2. cbn.
    unfold nsBytes. destruct (decide (ns = NamespaceID r)) as [->|Hne].
    + rewrite Z.eqb_refl. lia.
    + replace (NamespaceID r =? ns) with false by lia. lia.
  - intros ns. rewrite Hsum. cbn. pose proof (iv_bound g s HI ns).
    pose proof (len_nonneg_res g s k r HI Hr). case_decide; lia.
Qed.

Lemma noteGone_spec g s p r :
  Inv g s -> heap s !! p = Some r ->
  let s' := set_life (noteTTLGone (life s) r) s in
  noteGone p s = Some (tt, s') /\ Inv (addDt g (- hasTTL r)) s'.
Proof.
  intros HI Hp s'. split; [unfold noteGone; by rewrite (run_deref p _ s r Hp)|].
  assert (pinned (noteTTLGone (life s) r) = pinned (life s)) as Ep
    by (unfold noteTTLGone; by case_if).
  pose proof HI as []. split; try assumption; cbn.
  - intros ns. unfold pinnedOf. rewrite Ep. apply iv_pin0.
  - change (res s') with (res s). pose proof (iv_ttl g s HI) as Ht. rewrite Z.add_assoc, <- Ht.
    unfold noteTTLGone, hasTTL. destruct (TTLUntil r =? 0); cbn; lia.
Qed.

Lemma refundQuota_spec g s p r :
  Inv g s -> heap s !! p = Some r -> Len r <= owed g (NamespaceID r) ->
  exists q', let s' := set_quotas q' s in
  refundQuota p s = Some (tt, s') /\ Inv (addOwed g (NamespaceID r) (- Len r)) s'.
Proof.
  intros HI Hp Hle. unfold refundQuota. rewrite (run_deref p _ s r Hp). unfold modify.
  pose proof (rk_len _ (proj2 (iv_heap g s HI p r Hp))) as Hlen.
  pose proof (iv_bound g s HI (NamespaceID r)) as Hb.
  assert (forall q', (match q' with
                      | Some q => QuotaFacts.quotas_ok q /\ forall ns,
                          Quotas.Usage q ns Registry.TierDRAM =
                          msum (nsBytes ns) (res s) + owed (addOwed g (NamespaceID r) (- Len r)) ns
                      | None => True end) ->
            Inv (addOwed g (NamespaceID r) (- Len r)) (set_quotas q' s)) as Hset.
  { intros q' Hq'. pose proof HI as []. split; try assumption.
    intros ns. cbn. pose proof (iv_bound0 ns). change (res (set_quotas q' s)) with (res s).
    case_decide; [subst|]; lia. }
  pose proof (iv_quota g s HI) as Hq. destruct (quotas s) as [q|] eqn:Eq.
  2:{ exists None. split; [destruct s; cbn in *; by subst|]. by apply Hset. }
  destruct Hq as [Hq1 Hq2]. case_if.
  2:{ exists (Some q). split; [destruct s; cbn in *; by subst|]. apply Hset. split; [done|]. intros ns.
      rewrite Hq2. cbn. case_decide; lia. }
  assert (0 <= msum (nsBytes (NamespaceID r)) (res s) <= msum Len (res s)) as Hn.
  { split; [apply msum_nonneg|apply msum_le]; intros k' r' Hr'; by apply (nsBytes_le g s _ k' r'). }
  destruct (QuotaFacts.Refund_set q (NamespaceID r) Registry.TierDRAM (Len r) Hq1)
    as (Hok & _ & Hu); [done|lia|rewrite Hq2; lia|].
  eexists. split; [done|]. apply Hset. split; [done|]. intros ns. rewrite Hu by done. cbn [owed addOwed].
  destruct (decide (ns = NamespaceID r)) as [->|Hne].
  - rewrite decide_True by done. rewrite Hq2. lia.
  - rewrite decide_False by naive_solver. apply Hq2.
Qed.

End Inv.
End DramInv.
