(* ===== verification/DramEvict.v ===== *)
(** Eviction in the DRAM tier: every pass returns, keeps the store's invariant,
    removes only what the protection ladder allows, and leaves the bytes of
    every record still referenced as they were. *)

From Stdlib Require Import ZArith Lia.
From coqutil Require Import Byte.
From stdpp Require Import base numbers list gmap.
From S2P Require Import Prelude.
From S2P Require Import Wire.
From S2P Require Import Tenant.
From S2P Require Import OffsetAlloc.
From S2P Require Import Eviction.
From S2P Require Import BlockRef.
From S2P Require Import Index.
From S2P Require Import DramStore.
From S2P Require Import DramInv.
Import Ops Eviction Block Lifecycle Index Dram DramInv.
Open Scope Z_scope.
Open Scope go_scope.

Module DramEvict.

Create HintDb frees.

Section Evict.
Context {A P : Type} `{!ExtentAlloc A} `{!ExtentAllocLaws A} `{!Policy P} `{!PolicyLaws P} `{!IndexEnv} (time : nat -> Z).

Abbreviation st := (Store A P).

(** The bytes of a record. *)
Definition view (s : st) (r : BlockRef) : option bytes :=
  if 0 <? Len r
  then slice (arena s) (u64 (Offset r <<| AllocUnitShift)) (u64 (Offset r <<| AllocUnitShift) + Len r)
  else Some [].

(** Records keep their identity; a record that is still referenced was so
    before and has the same bytes. *)
Definition evolves (s s' : st) : Prop :=
  forall p r, heap s !! p = Some r -> exists r', heap s' !! p = Some r' /\ same_id r r' /\
    (0 < Refcount r' -> 0 < Refcount r /\ view s' r' = view s r).

Lemma same_id_refl r : same_id r r.
Proof. by unfold same_id. Qed.

Lemma same_id_trans r r' r'' : same_id r r' -> same_id r' r'' -> same_id r r''.
Proof. unfold same_id. intuition congruence. Qed.

#[export] Instance evolves_preorder : PreOrder evolves.
Proof.
  split.
  - intros s p r Hp. exists r. split_and!; try done.
  - intros s1 s2 s3 H12 H23 p r Hp. destruct (H12 p r Hp) as (r2 & Hp2 & Hid & Hv).
    destruct (H23 p r2 Hp2) as (r3 & Hp3 & Hid' & Hv'). exists r3. split; [done|].
    split; [by eapply same_id_trans|]. intros Hr. destruct (Hv' Hr) as [Hr2 ->]. auto.
Qed.

(** Protection of a block over the clock readings [lo], ..., [hi - 1]. *)
Definition prot (em : bool) (lo hi : nat) (r : BlockRef) : Prop :=
  Refcount r <> 1 \/ (forall i, (lo <= i < hi)%nat -> time i < LeaseUntil r) \/ HardPinned r = true \/
  (em = false /\ Pinned r = true).

(** [s] comes from [s0] by evicting blocks; [em]: soft pins may yield. *)
Record reclaims (em : bool) (s0 s : st) : Prop := mkReclaims {
  rc_tick : (tick s0 <= tick s)%nat;
  rc_sub : cont s ⊆ cont s0;
  rc_same : forall k p, cont s !! k = Some p -> heap s !! p = heap s0 !! p;
  rc_prot : forall k p r, cont s0 !! k = Some p -> heap s0 !! p = Some r ->
    tick s0 <> tick s -> prot em (tick s0) (tick s) r -> cont s !! k = Some p;
  rc_still : tick s0 = tick s -> cont s = cont s0;
  rc_evolves : evolves s0 s;
  rc_arena : arena s = arena s0 /\ closed s = closed s0 /\ nextRef s = nextRef s0 /\ evict s = evict s0;
  rc_policy : is_Some (policy s) <-> is_Some (policy s0);
  rc_quotas : is_Some (quotas s) <-> is_Some (quotas s0)
}.

Lemma prot_sub em lo hi lo' hi' r :
  (lo <= lo')%nat -> (hi' <= hi)%nat -> prot em lo hi r -> prot em lo' hi' r.
Proof.
  intros H1 H2 [?|[Hl|?]]; [by left| |by right; right].
  right; left. intros i Hi. apply Hl. lia.
Qed.

#[export] Instance reclaims_preorder em : PreOrder (reclaims em).
Proof.
  split.
  - intros s. by split.
  - intros s1 s2 s3 [T1 S1 H1 P1 L1 E1 A1 Q1 U1] [T2 S2 H2 P2 L2 E2 A2 Q2 U2]. split.
    + lia.
    + by etrans.
    + intros k p Hk. rewrite (H2 k p Hk). apply (H1 k). by eapply lookup_weaken.
    + intros k p r Hk Hp Ht Hpr.
      assert (cont s2 !! k = Some p) as Hk2.
      { destruct (decide (tick s1 = tick s2)) as [E|Hne]; [by rewrite L1|].
        apply (P1 k p r); [done..|]. eapply prot_sub; [| |done]; lia. }
      destruct (decide (tick s2 = tick s3)) as [E|Hne]; [by rewrite L2|].
      apply (P2 k p r); [done| |done|eapply prot_sub; [| |done]; lia].
      by rewrite (H1 k p Hk2).
    + intros Ht. rewrite L2, L1 by lia. done.
    + by etrans.
    + naive_solver congruence.
    + tauto.
    + tauto.
Qed.

(** ** One removal *)

(** [s'] is [s] without the block [p] of key [k], its index reference dropped. *)
Record removed (s s' : st) (k : Key) (p : Z) (r : BlockRef) : Prop := mkRemoved {
  rm_cont : cont s' = delete k (cont s);
  rm_heap : forall q, q <> p -> heap s' !! q = heap s !! q;
  rm_ref : heap s' !! p = Some (set_Refcount (Refcount r - 1) r);
  rm_same : arena s' = arena s /\ closed s' = closed s /\ nextRef s' = nextRef s /\
    evict s' = evict s /\ tick s' = tick s /\ policy s' = policy s;
  rm_quotas : is_Some (quotas s') <-> is_Some (quotas s)
}.

(** What follows the removal of the index entry, up to the evictions counter. *)
Definition afterUnlink (p : Z) (count : bool) : sm st Z :=
  noteGone p;;
  (if count then modify (fun s => set_evictions (evictions s + 1) s) else mret tt);;
  refundQuota p;;
  r ← deref p;
  releaseRef p;;
  mret (Len r).

Lemma refundQuota_some p (s : st) r s' :
  heap s !! p = Some r -> refundQuota p s = Some (tt, s') -> is_Some (quotas s') <-> is_Some (quotas s).
Proof.
  intros Hp. unfold refundQuota. rewrite (run_deref p _ s r Hp). unfold modify. intros [= <-].
  destruct (quotas s) eqn:E; [|by rewrite E]. case_if; [|by rewrite E]. cbn. split; by eexists.
Qed.

Lemma afterUnlink_spec g s k p r count :
  Inv g s -> cont s !! k = Some p -> heap s !! p = Some r -> PinFlags r = 0 ->
  exists s', afterUnlink p count (set_index (removeKey (index_ s) k (Len r)) s) = Some (Len r, s') /\
    Inv g s' /\ removed s s' k p r.
Proof.
  intros HI Hk Hp Hpin. set (s1 := set_index _ s).
  pose proof (Inv_unlink g s k p r HI Hk Hp Hpin) as HI1. fold s1 in HI1.
  destruct (noteGone_spec _ s1 p r HI1 Hp) as [E2 HI2]. set (s2 := set_life _ s1) in *.
  set (s2' := if count then set_evictions (evictions s2 + 1) s2 else s2).
  assert (Inv (addDt (unlinked g p r) (- hasTTL r)) s2') as HI2'
    by (eapply Inv_frame; [|exact HI2]; by destruct count).
  assert (heap s2' !! p = Some r) as Hp2 by (by destruct count).
  destruct (refundQuota_spec _ s2' p r HI2' Hp2) as (q' & E3 & HI3).
  { cbn. rewrite decide_True by done. pose proof (iv_bound g s HI (NamespaceID r)). lia. }
  set (s3 := set_quotas q' s2') in *.
  assert (heap s3 !! p = Some r) as Hp3 by (by destruct count).
  destruct (releaseRef_spec _ s3 p r HI3 Hp3) as (a' & lv & og & E4 & HI4).
  { cbn. rewrite decide_True by done. pose proof (iv_rd g s HI p). lia. }
  eexists. split; [|split].
  - unfold afterUnlink. rewrite (sm_bind_eq _ _ _ _ _ E2).
    assert ((if count then modify (fun s : st => set_evictions (evictions s + 1) s) else mret tt) s2
            = Some (tt, s2')) as E2' by (by destruct count).
    rewrite (sm_bind_eq _ _ _ _ _ E2'), (sm_bind_eq _ _ _ _ _ E3).
    rewrite (run_deref p _ s3 r Hp3), (sm_bind_eq _ _ _ _ _ E4). reflexivity.
  - eapply Inv_ghost; [| | |exact HI4]; cbn.
    + intros q. repeat case_decide; lia.
    + intros ns. repeat case_decide; lia.
    + lia.
  - destruct (removeKey_spec (index_ s) k (Len r) (iv_idx g s HI)) as [_ Hc].
    pose proof (refundQuota_some p s2' r s3 Hp2 E3) as Hqs.
    split; try (by destruct count).
    + intros q Hq. cbn. rewrite lookup_insert_ne by done. by destruct count.
    + cbn. by rewrite lookup_insert_eq.
Qed.

(** ** Evicting one block *)

Lemma evictOne_tail p (s : st) :
  (noteGone p;; modify (fun s : st => set_evictions (evictions s + 1) s);; refundQuota p;;
   r ← deref p; releaseRef p;; mret (Len r, evictedOK)) s
  = (afterUnlink p true ≫= fun n => mret (n, evictedOK)) s.
Proof.
  unfold afterUnlink. unfold mbind, sm_mbind. destruct (noteGone p s) as [[[] s1]|]; [|done].
  cbn -[refundQuota deref releaseRef]. destruct (refundQuota p _) as [[[] s2]|]; [|done].
  destruct (deref p s2) as [[r s3]|]; [|done]. by destruct (releaseRef p s3) as [[[] s4]|].
Qed.

(** The gate's verdict on a record at time [t]. *)
Definition evictable (em : bool) (r : BlockRef) (t : Z) : bool :=
  (Refcount r =? 1) && negb (Leased r t) && (if em then negb (HardPinned r) else negb (Pinned r)).

Lemma hard_pinned r : HardPinned r = true -> Pinned r = true.
Proof.
  unfold HardPinned, Pinned. intros Hh. destruct (PinFlags r =? 0) eqn:E; [|done].
  apply Z.eqb_eq in E. rewrite E in Hh. done.
Qed.

Lemma gate_evictable em r t :
  (if negb (CanEvict r t) && em
   then (Refcount r =? 1) && negb (Leased r t) && negb (HardPinned r) else CanEvict r t)
  = evictable em r t.
Proof.
  unfold evictable, CanEvict. pose proof (hard_pinned r).
  destruct em, (Refcount r =? 1), (Leased r t), (Pinned r), (HardPinned r); cbn; try done; naive_solver.
Qed.

Lemma evictable_prot em r i : evictable em r (time i) = true -> ~ prot em i (S i) r.
Proof.
  unfold evictable, prot, Leased. intros Hv [Hr|[Hl|[Hh|[-> Hp]]]].
  - lia.
  - specialize (Hl i ltac:(lia)). lia.
  - rewrite Hh in Hv. pose proof (hard_pinned r Hh) as Hp. rewrite Hp in Hv. destruct em; cbn in Hv; lia.
  - rewrite Hp in Hv. cbn in Hv. lia.
Qed.

(** The state in which the gate leaves a block it lets go. *)
Definition gated (s : st) (po : option P) (p : Z) (r : BlockRef) : st :=
  set_heap (<[p := set_PinFlags 0 r]> (heap s))
    (set_life (fst (Lifecycle.Unpin (life s) r)) (set_policy po (set_tick (S (tick s)) s))).

Lemma gated_inv g s k p r :
  Inv g s -> cont s !! k = Some p -> heap s !! p = Some r ->
  exists po, (polRemove k;; unpinGone p;; mret StatusOK) (set_tick (S (tick s)) s) = Some (StatusOK, gated s po p r) /\
  Inv g (gated s po p r) /\ (is_Some po <-> is_Some (policy s)).
Proof.
  intros HI Hk Hp. assert (Inv g (set_tick (S (tick s)) s)) as HI0 by (by eapply Inv_frame; [|exact HI]).
  destruct (polDo_spec g _ (fun p => pol_Remove p k) HI0 (fun p => pol_Remove_ok p k)) as (po & E & HI1 & Hpo).
  exists po. unfold polRemove. rewrite (sm_bind_eq _ _ _ _ _ E).
  destruct (unpinGone_spec g _ k p r HI1 Hk Hp) as [E2 HI2]. rewrite (sm_bind_eq _ _ _ _ _ E2). done.
Qed.

Lemma gated_evolves s s' k po p r :
  heap s !! p = Some r -> removed (gated s po p r) s' k p (set_PinFlags 0 r) -> evolves s s'.
Proof.
  intros Hp [_ Hh Hr (Ea & _) _] q x Hx. cbn in *. destruct (decide (q = p)) as [->|Hqp].
  - assert (x = r) as -> by congruence. eexists. split; [done|]. split; [done|]. cbn.
    unfold view. cbn. rewrite Ea. split; [lia|done].
  - rewrite (Hh q Hqp), lookup_insert_ne by done. exists x. split; [done|]. split; [done|].
    unfold view. by rewrite Ea.
Qed.

(** The block gone, everything else as before. *)
Lemma removed_reclaims em g s s' k po p r :
  Inv g s -> cont s !! k = Some p -> heap s !! p = Some r -> evictable em r (time (tick s)) = true ->
  (is_Some po <-> is_Some (policy s)) ->
  removed (gated s po p r) s' k p (set_PinFlags 0 r) -> reclaims em s s'.
Proof.
  intros HI Hk Hp Hev Hpo Hrm. pose proof (gated_evolves s s' k po p r Hp Hrm) as Hevo. destruct Hrm as [Hc Hh Hr (Ea & Ec & En & Ee & Et & Ep) Hq].
  change (cont (gated s po p r)) with (cont s) in Hc.
  assert (forall k' q, cont s' !! k' = Some q -> k' <> k /\ q <> p) as Hne.
  { intros k' q. rewrite Hc. intros [Hkk Hq']%lookup_delete_Some. split; [done|]. intros ->.
    apply Hkk. by eapply (iv_inj g s HI). }
  cbn in *. split.
  - lia.
  - rewrite Hc. apply delete_subseteq.
  - intros k' q Hq'. destruct (Hne k' q Hq') as [_ Hqp].
    rewrite (Hh q Hqp). by rewrite lookup_insert_ne.
  - intros k' q x Hk' Hx _ Hpr. rewrite Hc. destruct (decide (k = k')) as [<-|Hkk].
    + exfalso. assert (q = p) as -> by congruence. assert (x = r) as -> by congruence.
      rewrite Et in Hpr. by apply (evictable_prot em r (tick s)).
    + by rewrite lookup_delete_ne.
  - lia.
  - done.
  - naive_solver.
  - by rewrite Ep.
  - done.
Qed.

Lemma reclaims_tick em s n : (tick s < n)%nat -> reclaims em s (set_tick n s).
Proof.
  intros Hn. split; try done; cbn; try lia. intros p r Hp. exists r. split_and!; try done.
Qed.

Lemma evictOne_spec g s k em :
  Inv g s ->
  exists n o s', evictOne time k em s = Some ((n, o), s') /\ Inv g s' /\ reclaims em s s' /\
    match o with
    | evictedOK => exists p r, cont s !! k = Some p /\ heap s !! p = Some r /\ n = Len r /\
        evictable em r (time (tick s)) = true /\ cont s' = delete k (cont s)
    | _ => n = 0 /\ cont s' = cont s
    end.
Proof.
  intros HI. unfold evictOne, DeleteIf. rewrite run_assoc, run_gets.
  rewrite (Get_contents _ _ (iv_idx g s HI)). fold (cont s).
  destruct (cont s !! k) as [p|] eqn:Hk.
  2:{ rewrite run_ret. exists 0, evictGone, s. split; [done|]. split_and!; done. }
  destruct (iv_res g s HI k p Hk) as (r & Hp & _).
  rewrite run_assoc. unfold evictGate at 1. rewrite run_assoc, run_now, run_assoc.
  rewrite (run_deref p _ (set_tick _ s) r Hp), gate_evictable.
  destruct (evictable em r (time (tick s))) eqn:Hev; cbn [negb].
  2:{ rewrite run_ret. cbn [negb Z.eqb StatusErrBusy StatusOK]. rewrite run_ret.
      exists 0, evictRefused, (set_tick (S (tick s)) s). split; [done|].
      split; [by eapply Inv_frame; [|exact HI]|]. split; [apply reclaims_tick; lia|done]. }
  destruct (gated_inv g s k p r HI Hk Hp) as (po & E & HI1 & Hpo).
  rewrite (sm_bind_eq _ _ _ _ _ E). cbn [negb Z.eqb StatusOK]. rewrite run_assoc.
  assert (heap (gated s po p r) !! p = Some (set_PinFlags 0 r)) as Hp1 by apply lookup_insert_eq.
  rewrite (run_deref p _ _ _ Hp1), run_assoc, run_modify, run_ret, evictOne_tail.
  destruct (afterUnlink_spec g (gated s po p r) k p (set_PinFlags 0 r) true HI1 Hk Hp1 eq_refl)
    as (s' & E' & HI' & Hrm).
  rewrite (sm_bind_eq _ _ _ _ _ E'). exists (Len r), evictedOK, s'. split; [done|].
  split; [done|]. split; [by eapply (removed_reclaims em g s s' k po p r)|].
  exists p, r. split_and!; try done. apply Hrm.
Qed.

(** ** Passes *)

Definition resB (s : st) : Z := msum Len (res s).

Lemma reclaims_res em s s' :
  reclaims em s s' -> res s' = omap (fun p => heap s !! p) (cont s').
Proof.
  intros HR. apply map_eq. intros k. unfold res. rewrite !lookup_omap.
  destruct (cont s' !! k) as [p|] eqn:Hk; [|done]. cbn. by rewrite (rc_same em s s' HR k p Hk).
Qed.

Lemma reclaims_weaken s s' : reclaims false s s' -> reclaims true s s'.
Proof.
  intros []. split; try done. intros k p r Hk Hp Ht Hpr. apply (rc_prot0 k p r); [done..|].
  destruct Hpr as [?|[?|[?|[[=] _]]]]; unfold prot; auto.
Qed.

(** A computation that evicts: it returns, keeps the invariant, removes only
    what [em] allows, and its result exceeds [acc] by the bytes it took out of
    the index. [pol]: it needs an attached policy. *)
Definition freesAt (em : bool) (g : ghost) (m : sm st Z) (acc : Z) (s : st) : Prop :=
  exists x s', m s = Some (x, s') /\ Inv g s' /\ reclaims em s s' /\ x - acc = resB s - resB s'.

Definition frees (em pol : bool) (g : ghost) (m : sm st Z) (acc : Z) : Prop :=
  forall s, Inv g s -> (pol = true -> is_Some (policy s)) -> freesAt em g m acc s.

(** A computation that evicts nothing. *)
Definition quiet (pol : bool) (g : ghost) {T} (m : sm st T) (Q : T -> Prop) : Prop :=
  forall s, Inv g s -> (pol = true -> is_Some (policy s)) ->
    exists x s', m s = Some (x, s') /\ Inv g s' /\ reclaims false s s' /\ resB s' = resB s /\ Q x.

Lemma frees_ret em pol g x : frees em pol g (mret x) x.
Proof. intros s HI _. exists x, s. split_and!; [done..|lia]. Qed.

Lemma freesAt_bind em pol g m f acc s :
  (pol = true -> is_Some (policy s)) -> freesAt em g m acc s -> (forall x, frees em pol g (f x) x) ->
  freesAt em g (m ≫= f) acc s.
Proof.
  intros Hpol (x & s1 & E1 & HI1 & HR1 & Hx) Hf.
  destruct (Hf x s1 HI1) as (y & s2 & E2 & HI2 & HR2 & Hy).
  { intros Hp. apply (rc_policy _ _ _ HR1). auto. }
  exists y, s2. split; [by rewrite (sm_bind_eq _ _ _ _ _ E1)|]. split_and!; [done|by etrans|lia].
Qed.

Lemma frees_bind em pol g m f acc :
  frees em pol g m acc -> (forall x, frees em pol g (f x) x) -> frees em pol g (m ≫= f) acc.
Proof. intros Hm Hf s HI Hpol. eapply freesAt_bind; eauto. Qed.

Lemma frees_quiet em pol g {T} (m : sm st T) Q f acc :
  quiet pol g m Q -> (forall x, Q x -> frees em pol g (f x) acc) -> frees em pol g (m ≫= f) acc.
Proof.
  intros Hm Hf s HI Hpol. destruct (Hm s HI Hpol) as (x & s1 & E1 & HI1 & HR1 & Hx & HQ).
  destruct (Hf x HQ s1 HI1) as (y & s2 & E2 & HI2 & HR2 & Hy).
  { intros Hp. apply (rc_policy _ _ _ HR1). auto. }
  exists y, s2. split; [by rewrite (sm_bind_eq _ _ _ _ _ E1)|]. split_and!; [done| |lia].
  etrans; [|done]. destruct em; [by apply reclaims_weaken|done].
Qed.

Lemma frees_shift em pol g m acc f d :
  frees em pol g m acc -> (forall x, f x = mret (x + d)) -> frees em pol g (m ≫= f) (acc + d).
Proof.
  intros Hm Hf s HI Hpol. destruct (Hm s HI Hpol) as (x & s1 & E1 & HI1 & HR1 & Hx).
  exists (x + d), s1. split; [by rewrite (sm_bind_eq _ _ _ _ _ E1), Hf|]. split_and!; [done..|lia].
Qed.

Lemma frees_weaken pol g m acc : frees false pol g m acc -> frees true pol g m acc.
Proof.
  intros Hm s HI Hpol. destruct (Hm s HI Hpol) as (x & s1 & E1 & HI1 & HR1 & Hx).
  exists x, s1. split_and!; try done. by apply reclaims_weaken.
Qed.

Lemma frees_pol em pol g m acc : frees em false g m acc -> frees em pol g m acc.
Proof. intros Hm s HI _. by apply Hm. Qed.

Lemma quiet_gets pol g {T} (f : st -> T) : quiet pol g (gets f) (fun _ => True).
Proof. intros s HI _. by exists (f s), s. Qed.

Lemma reclaims_policy em s p : (is_Some p <-> is_Some (policy s)) -> reclaims em s (set_policy p s).
Proof.
  intros Hp. split; try done. intros q r Hq. exists r. split_and!; try done.
Qed.

Lemma quiet_admit pol g k n t : quiet pol g (polAdmit k n t) (fun _ => True).
Proof.
  intros s HI _. destruct (polDo_spec g s (fun p => pol_Admit p k n t) HI (fun p => pol_Admit_ok p k n t))
    as (po & E & HI1 & Hpo).
  exists tt, (set_policy po s). split; [done|]. split; [done|]. split; [by apply reclaims_policy|done].
Qed.

Lemma quiet_usage g t : quiet true g (polUsage t) (fun _ => True).
Proof.
  intros s HI Hpol. destruct (Hpol eq_refl) as [p Hp]. unfold polUsage. rewrite Hp.
  destruct (pol_Usage_ok p t (iv_policy g s HI p Hp)) as (p' & us & -> & Hwf). eexists us, _. split; [done|].
  split; [apply Inv_policy; [done|by intros ? [= <-]]|]. split; [|done]. apply reclaims_policy. by rewrite Hp.
Qed.

Lemma quiet_victims g ns want t : quiet true g (polVictims ns want t) (fun _ => True).
Proof.
  intros s HI Hpol. destruct (Hpol eq_refl) as [p Hp]. unfold polVictims. rewrite Hp.
  destruct (pol_Victims_ok p ns want t (iv_policy g s HI p Hp)) as (p' & cs & -> & Hwf). eexists cs, _.
  split; [done|]. split; [apply Inv_policy; [done|by intros ? [= <-]]|]. split; [|done].
  apply reclaims_policy. by rewrite Hp.
Qed.

Lemma quiet_now pol g : quiet pol g (now time) (fun _ => True).
Proof.
  intros s HI _. eexists _, _. split; [done|]. split; [by eapply Inv_frame; [|exact HI]|].
  split; [|done]. apply reclaims_tick. lia.
Qed.

Lemma quiet_report pol g : quiet pol g allocReport (fun _ => True).
Proof.
  intros s HI _. destruct (ea_report_ok _ (iv_wf g s HI)) as [r Hr]. exists r, s.
  unfold allocReport. by rewrite Hr.
Qed.

Lemma quiet_occupancy pol g : quiet pol g occupancy (fun _ => True).
Proof.
  intros s HI Hpol. destruct (quiet_report pol g s HI Hpol) as (r & s1 & E & HI1 & HR & HB & _).
  unfold occupancy. rewrite (sm_bind_eq _ _ _ _ _ E). by eexists _, s1.
Qed.

(** Evicting one block inside a loop that adds up what it freed. *)
Lemma frees_evictOne em pol g k f acc :
  (forall n o, 0 <= n -> (o <> evictedOK -> n = 0) -> frees em pol g (f (n, o)) (acc + n)) ->
  frees em pol g (evictOne time k em ≫= f) acc.
Proof.
  intros Hf s HI Hpol. destruct (evictOne_spec g s k em HI) as (n & o & s1 & E & HI1 & HR & Ho).
  assert (n = resB s - resB s1) as Hn.
  { unfold resB. rewrite (reclaims_res _ _ _ HR). destruct o.
    - destruct Ho as (p & r & Hk & Hp & -> & _ & ->). rewrite omap_delete. fold (res s).
      rewrite (msum_delete Len (res s) k r); [lia|]. apply res_lookup. eauto.
    - destruct Ho as [-> ->]. fold (res s). lia.
    - destruct Ho as [-> ->]. fold (res s). lia. }
  assert (0 <= n /\ (o <> evictedOK -> n = 0)) as [Hn0 Hne].
  { destruct o; [|naive_solver lia..]. destruct Ho as (p & r & _ & Hp & -> & _).
    pose proof (rk_len _ (proj2 (iv_heap g s HI p r Hp))). split; [lia|done]. }
  destruct (Hf n o Hn0 Hne s1 HI1) as (y & s2 & E2 & HI2 & HR2 & Hy).
  { intros Hp. apply (rc_policy _ _ _ HR). auto. }
  exists y, s2. split; [by rewrite (sm_bind_eq _ _ _ _ _ E)|]. split_and!; [done|by etrans|lia].
Qed.

Lemma frees_expired pol g vs need freed : frees false pol g (evictExpired time vs need freed) freed.
Proof.
  revert freed. induction vs as [|k vs IH]; intros freed; cbn [evictExpired]; [apply frees_ret|].
  apply frees_evictOne. intros n o Hn _. cbn beta iota.
  replace (if 0 <? n then freed + n else freed) with (freed + n) by (case_if; lia).
  case_if; [apply frees_ret|apply IH].
Qed.

Lemma frees_sweepExpired pol g t need : frees false pol g (sweepExpired time t need) 0.
Proof.
  unfold sweepExpired. case_if; [apply frees_ret|].
  eapply frees_quiet; [apply quiet_gets|]. intros vs _. apply frees_expired.
Qed.

Lemma frees_harvestLoop g cs t freed : frees false true g (harvestLoop time cs t freed) freed.
Proof.
  revert freed. induction cs as [|c cs IH]; intros freed; cbn [harvestLoop]; [apply frees_ret|].
  apply frees_evictOne. intros n o _ Hne. cbn beta iota. destruct o; [apply IH| |].
  - rewrite Hne, Z.add_0_r by done. eapply frees_quiet; [apply quiet_admit|]. intros _ _. apply IH.
  - rewrite Hne, Z.add_0_r by done. apply IH.
Qed.

Lemma frees_harvest g ns want t freed : frees false true g (harvest time ns want t freed) freed.
Proof.
  unfold harvest. eapply frees_quiet; [apply quiet_victims|]. intros cs _. apply frees_harvestLoop.
Qed.

(** A pass that freed bytes left fewer blocks. *)
Lemma reclaims_shrinks em s s' :
  reclaims em s s' -> resB s' <> resB s -> (size (cont s') < size (cont s))%nat.
Proof.
  intros HR Hne. apply map_subset_size. split; [apply HR|]. intros Hsub. apply Hne.
  unfold resB. rewrite (reclaims_res _ _ _ HR).
  assert (cont s' = cont s) as -> by (apply (anti_symm (⊆)); [apply HR|done]). done.
Qed.

Lemma frees_overQuota fuel g us t need freed s :
  Inv g s -> is_Some (policy s) -> (size (cont s) < fuel)%nat ->
  freesAt false g (overQuotaRound time fuel us t need freed) freed s.
Proof.
  revert freed s. induction fuel as [|fuel IH]; intros freed s HI Hpol Hsz; [lia|].
  assert (freesAt false g (mret freed) freed s) as Hret by (by apply (frees_ret false false g freed s HI)).
  cbn [overQuotaRound]. case_if; [done|]. unfold freesAt. rewrite run_gets.
  destruct (quotas s) as [q|]; [|done].
  destruct (worstTenant q us) as [wns wr]. case_if; [done|]. case_if; [done|].
  destruct (frees_harvest g wns (Z.min (Quotas.i64 (Quotas.Usage q wns Registry.TierDRAM -
      Quotas.Limit q wns Registry.TierDRAM)) (need - freed)) t freed s HI (fun _ => Hpol))
    as (x & s1 & E & HI1 & HR & Hx).
  rewrite (sm_bind_eq _ _ _ _ _ E). destruct (x =? freed) eqn:Exf; [by exists x, s1|].
  destruct (IH x s1 HI1) as (y & s2 & E2 & HI2 & HR2 & Hy).
  { by apply (rc_policy _ _ _ HR). }
  { pose proof (reclaims_shrinks _ _ _ HR). lia. }
  exists y, s2. split_and!; [done..|by etrans|lia].
Qed.

Lemma frees_proportional g us total t need freed :
  frees false true g (proportionalRound time us total t need freed) freed.
Proof.
  revert freed. induction us as [|u us IH]; intros freed; cbn [proportionalRound]; [apply frees_ret|].
  case_if; [apply frees_ret|]. case_if; [apply IH|]. apply frees_bind; [apply frees_harvest|apply IH].
Qed.

Lemma frees_remainder g us t need freed : frees false true g (remainderRound time us t need freed) freed.
Proof.
  revert freed. induction us as [|u us IH]; intros freed; cbn [remainderRound]; [apply frees_ret|].
  case_if; [apply frees_ret|]. apply frees_bind; [apply frees_harvest|apply IH].
Qed.

Lemma rangeList_length (s : st) g : Inv g s -> length (rangeList (index_ s)) = size (cont s).
Proof. intros HI. by rewrite (rangeList_perm _ (iv_idx g s HI)), length_map_to_list. Qed.

Lemma frees_rounds g us total t need :
  frees false true g (fuel ← gets (fun s : st => S (length (rangeList (index_ s))));
      freed ← overQuotaRound time fuel us t need 0;
      freed ← proportionalRound time us total t need freed;
      remainderRound time us t need freed) 0.
Proof.
  intros s HI Hpol. unfold freesAt. rewrite run_gets. apply (freesAt_bind false true); [done| |].
  - apply frees_overQuota; [done|auto|]. rewrite (rangeList_length s g HI). lia.
  - intros freed. apply frees_bind; [apply frees_proportional|]. intros freed'. apply frees_remainder.
Qed.

Lemma frees_policyPass g t need : frees false false g (policyPass time t need) 0.
Proof.
  intros s HI _. unfold policyPass, freesAt. rewrite run_gets. destruct (policy s) as [p|] eqn:Hp.
  2:{ by apply (frees_ret false false g 0). }
  case_if; [by apply (frees_ret false false g 0)|].
  eapply (frees_quiet false true); [apply quiet_usage| |done|by intros _; eexists].
  intros us _. cbn zeta. case_if; [apply frees_ret|apply frees_rounds].
Qed.

Lemma frees_emergency pol g vs nb nc freed count f :
  (forall x c d, frees true pol g (f (x, c, d)) x) ->
  frees true pol g (evictEmergency time vs nb nc freed count ≫= f) freed.
Proof.
  intros Hf. revert freed count. induction vs as [|k vs IH]; intros freed count; cbn [evictEmergency].
  { apply Hf. }
  intros s HI Hpol. unfold freesAt. rewrite run_assoc. revert s HI Hpol. apply frees_evictOne.
  intros n o _ Hne. destruct o; cbn beta iota.
  - case_if; [apply Hf|apply IH].
  - rewrite Hne, Z.add_0_r by done. case_if; [apply Hf|apply IH].
  - rewrite Hne, Z.add_0_r by done. case_if; [apply Hf|apply IH].
Qed.

Lemma frees_sweepEmergency pol g t nb nc : frees true pol g (sweepEmergency time t nb nc) 0.
Proof.
  unfold sweepEmergency. case_if; [apply frees_ret|]. eapply frees_quiet; [apply quiet_gets|].
  intros acc _. apply frees_emergency. intros x c d. destruct d; [apply frees_ret|].
  apply frees_emergency. intros x' c' d'. apply frees_ret.
Qed.

Lemma quiet_futile pol g v : quiet pol g (modify (set_lastFutileGen v)) (fun _ => True).
Proof.
  intros s HI _. eexists tt, _. split; [done|]. split; [by eapply Inv_frame; [|exact HI]|].
  split; [|done]. split; try done. intros q r Hq. exists r. split_and!; try done.
Qed.

Lemma frees_add pol em g m acc : frees em pol g m 0 -> frees em pol g (n ← m; mret (acc + n)) acc.
Proof.
  intros Hm s HI Hpol. destruct (Hm s HI Hpol) as (x & s1 & E1 & HI1 & HR1 & Hx).
  exists (acc + x), s1. split; [by rewrite (sm_bind_eq _ _ _ _ _ E1)|]. split_and!; [done..|lia].
Qed.

#[local] Hint Resolve frees_ret frees_weaken frees_sweepExpired frees_policyPass frees_sweepEmergency
  frees_add quiet_gets quiet_occupancy quiet_now quiet_futile : frees.

Ltac frees_step :=
  match goal with
  | |- frees _ _ _ (if ?b then _ else _) _ => destruct b
  | |- frees _ _ _ (gets _ ≫= _) _ => eapply frees_quiet; [apply quiet_gets|intros ? _]
  | |- frees _ _ _ (occupancy ≫= _) _ => eapply frees_quiet; [apply quiet_occupancy|intros [] _]
  | |- frees _ _ _ (now _ ≫= _) _ => eapply frees_quiet; [apply quiet_now|intros ? _]
  | |- frees _ _ _ (modify (set_lastFutileGen _) ≫= _) _ => eapply frees_quiet; [apply quiet_futile|intros ? _]
  end; cbn beta iota zeta.

Lemma frees_evictOnce g cfg coalesce : frees true false g (evictOnce time cfg coalesce) 0.
Proof.
  unfold evictOnce. repeat (frees_step; try solve [auto with frees]).
  all: apply frees_bind; [repeat frees_step; auto with frees|intros f1].
  all: apply frees_bind; [repeat frees_step; auto with frees|intros f2].
  all: repeat (frees_step; try solve [auto with frees]).
  all: apply frees_bind; [repeat frees_step; auto with frees|intros f3].
  all: repeat (frees_step; try solve [auto with frees]).
Qed.

Lemma frees_EvictNow g : frees true false g (EvictNow time) 0.
Proof.
  unfold EvictNow. eapply frees_quiet; [apply quiet_gets|]. intros [cfg|] _; apply frees_evictOnce.
Qed.

Lemma frees_evictorTick g cfg : frees true false g (evictorTick time cfg) 0.
Proof.
  intros s HI _. unfold evictorTick, freesAt. rewrite run_gets. destruct (policy s) as [p|] eqn:Hp.
  2:{ by apply frees_evictOnce. }
  eapply (frees_quiet true true); [apply quiet_now| |done|by eexists].
  intros t _. eapply frees_quiet; [apply quiet_usage|]. intros us _. apply frees_pol, frees_evictOnce.
Qed.

End Evict.
End DramEvict.
