(* ===== verification/DramSpec.v ===== *)
(** The surface of the DRAM tier: what [Put], [GetRef], [GetCopy], [Delete],
    [TouchLease], [PinOp] and the demotion seam do to the blocks a client can
    see, and that each of them keeps the invariant of [DramInv].

    The abstract state is the map from keys to (bytes, digest). *)

From Stdlib Require Import ZArith Lia.
From coqutil Require Import Byte.
From stdpp Require Import base numbers list gmap.
From S2P Require Import Prelude.
From S2P Require Import Wire.
From S2P Require Import Tenant.
From S2P Require Import OffsetAlloc.
From S2P Require Import AllocSpec.
From S2P Require Import Eviction.
From S2P Require Import BlockRef.
From S2P Require Import Index.
From S2P Require Import DramStore.
From S2P Require Import DramInv.
From S2P Require Import DramEvict.
Import Ops Eviction Block Lifecycle Index Dram DramInv DramEvict.
Open Scope Z_scope.
Open Scope go_scope.

Module DramSpec.

Section Spec.
Context {A P : Type} `{!ExtentAlloc A} `{!ExtentAllocLaws A} `{!Policy P} `{!PolicyLaws P} `{!IndexEnv} (time : nat -> Z).

Abbreviation st := (Store A P).

(** ** Addresses *)

(** The byte address of an extent inside the arena. *)
Lemma addr_spec (s : st) g o n ln m :
  Inv g s -> ea_live (alloc s) !! m = Some (o, n) -> 0 < ln <= n * 4096 ->
  u64 (o <<| AllocUnitShift) = o * 4096 /\ 0 <= o * 4096 /\ o * 4096 + ln <= len (arena s).
Proof.
  intros HI Hm Hl. pose proof (iv_arena g s HI) as (_ & Ha1 & Ha2).
  destruct (ea_range (alloc s) m o n (iv_wf g s HI) Hm) as (H1 & H2 & H3).
  assert (o * 4096 + ln <= len (arena s)) by nia.
  unfold u64. change AllocUnitShift with 12. rewrite Z.shiftl_mul_pow2 by lia.
  change (2 ^ 12) with 4096. rewrite Z.mod_small by lia. lia.
Qed.

Lemma ref_extent g (s : st) p r :
  Inv g s -> heap s !! p = Some r -> 0 < Refcount r -> 0 < Len r ->
  ea_live (alloc s) !! allocMeta r = Some (Offset r, bytesToUnits (Len r)) /\
  u64 (Offset r <<| AllocUnitShift) = Offset r * 4096 /\ 0 <= Offset r * 4096 /\
  Offset r * 4096 + Len r <= len (arena s) /\ Len r <= bytesToUnits (Len r) * 4096.
Proof.
  intros HI Hp Hr Hl. pose proof (iv_ext g s HI p r Hp Hr Hl) as He.
  pose proof (rk_len _ (proj2 (iv_heap g s HI p r Hp))) as Hlen.
  destruct (units_spec (Len r)) as [Hu Hu']; [lia|].
  destruct (addr_spec s g _ _ (Len r) _ HI He) as (H1 & H2 & H3); [lia|]. done.
Qed.

(** The bytes of a referenced record are there, and reading the arena gives
    them. *)
Lemma view_some g (s : st) p r :
  Inv g s -> heap s !! p = Some r -> 0 < Refcount r -> exists b, view s r = Some b /\ len b = Len r.
Proof.
  intros HI Hp Hr. unfold view. case_if.
  - destruct (ref_extent g s p r HI Hp Hr) as (_ & -> & H1 & H2 & _); [lia|].
    destruct (slice_some (arena s) (Offset r * 4096) (Offset r * 4096 + Len r)) as (b & -> & Hb); [lia..|].
    exists b. split; [done|lia].
  - exists []. split; [done|]. pose proof (rk_len _ (proj2 (iv_heap g s HI p r Hp))). rewrite len_nil. lia.
Qed.

Lemma readBytes_spec g (s : st) p r b :
  Inv g s -> heap s !! p = Some r -> 0 < Refcount r -> view s r = Some b ->
  (if 0 <? Len r then arenaRead (u64 (Offset r <<| AllocUnitShift)) (Len r) else mret []) s = Some (b, s).
Proof.
  intros HI Hp Hr Hv. unfold view in Hv. case_if_in Hv; [|by injection Hv as <-].
  destruct (ref_extent g s p r HI Hp Hr) as (_ & E & H1 & H2 & _); [lia|].
  unfold arenaRead. destruct (iv_arena g s HI) as [-> _]. rewrite E in *.
  replace (_ || _) with false by lia. by rewrite Hv.
Qed.

(** ** The abstract state *)

Definition absm (s : st) : gmap Key (bytes * Z) := omap (fun r => b ← view s r; Some (b, XXH3 r)) (res s).

Lemma absm_lookup g s k :
  Inv g s -> absm s !! k = match cont s !! k with
                           | Some p => r ← heap s !! p; b ← view s r; Some (b, XXH3 r)
                           | None => None
                           end.
Proof. intros HI. unfold absm, res. rewrite !lookup_omap. by destruct (cont s !! k). Qed.

Lemma absm_some g s k p r :
  Inv g s -> cont s !! k = Some p -> heap s !! p = Some r ->
  exists b, view s r = Some b /\ len b = Len r /\ absm s !! k = Some (b, XXH3 r) /\ 0 < Refcount r.
Proof.
  intros HI Hk Hp. assert (0 < Refcount r) as Hr.
  { rewrite (iv_in g s HI k p r Hk Hp). pose proof (iv_rd g s HI p). lia. }
  destruct (view_some g s p r HI Hp Hr) as (b & Hb & Hlen). exists b. split_and!; try done.
  rewrite (absm_lookup g s k HI), Hk. cbn. rewrite Hp. cbn. by rewrite Hb.
Qed.

(** Records that stay keep their bytes, so a state with the same keys on the
    same records shows the same blocks. *)
Lemma absm_evolves g g' s s' :
  Inv g s -> Inv g' s' -> evolves s s' -> cont s' ⊆ cont s ->
  absm s' ⊆ absm s /\ (forall k, is_Some (cont s' !! k) -> absm s' !! k = absm s !! k).
Proof.
  intros HI HI' Hev Hsub.
  assert (forall k, is_Some (cont s' !! k) -> absm s' !! k = absm s !! k) as Hk.
  { intros k [p Hk']. assert (cont s !! k = Some p) as Hk by (by eapply lookup_weaken).
    destruct (iv_res g s HI k p Hk) as (r & Hp & _). destruct (Hev p r Hp) as (r' & Hp' & Hid & Hv).
    destruct (absm_some g' s' k p r' HI' Hk' Hp') as (b & Hb & _ & -> & Hr).
    rewrite (absm_lookup g s k HI), Hk. cbn. rewrite Hp. cbn. destruct (Hv Hr) as [_ Hvv].
    rewrite <- Hvv, Hb. cbn. by destruct Hid as (_ & _ & _ & -> & _). }
  split; [|done]. apply map_subseteq_spec. intros k v Hv. rewrite <- Hk; [done|].
  rewrite (absm_lookup g' s' k HI') in Hv. destruct (cont s' !! k); [by eexists|done].
Qed.

Lemma absm_evolves_eq g g' s s' :
  Inv g s -> Inv g' s' -> evolves s s' -> cont s' = cont s -> absm s' = absm s.
Proof.
  intros HI HI' Hev Hc. apply map_eq. intros k. destruct (cont s' !! k) as [p|] eqn:Hk.
  - apply (absm_evolves g g' s s'); [done..|by rewrite Hc|by eexists].
  - rewrite (absm_lookup g s k HI), (absm_lookup g' s' k HI'), Hk, <- Hc, Hk. done.
Qed.

Lemma absm_evolves_delete g g' s s' k :
  Inv g s -> Inv g' s' -> evolves s s' -> cont s' = delete k (cont s) -> absm s' = delete k (absm s).
Proof.
  intros HI HI' Hev Hc. apply map_eq. intros k'. destruct (decide (k = k')) as [<-|Hne].
  - rewrite lookup_delete_eq, (absm_lookup g' s' k HI'), Hc, lookup_delete_eq. done.
  - rewrite lookup_delete_ne by done. destruct (cont s' !! k') as [p|] eqn:Hk.
    + apply (absm_evolves g g' s s'); [done..|rewrite Hc; apply delete_subseteq|by eexists].
    + rewrite (absm_lookup g s k' HI), (absm_lookup g' s' k' HI'), Hk.
      rewrite Hc, lookup_delete_ne in Hk by done. by rewrite Hk.
Qed.

(** ** Operations that change one record *)

Lemma view_id (s s' : st) r r' : arena s' = arena s -> same_id r r' -> view s' r' = view s r.
Proof. intros Ea (E1 & E2 & _). unfold view. by rewrite Ea, E1, E2. Qed.

Lemma evolves_update (s s' : st) p r r' :
  arena s' = arena s -> heap s' = <[p := r']> (heap s) -> heap s !! p = Some r -> same_id r r' ->
  (0 < Refcount r' -> 0 < Refcount r) -> evolves s s'.
Proof.
  intros Ea Eh Hp Hid Hr q x Hq. rewrite Eh. destruct (decide (q = p)) as [->|Hne].
  - rewrite lookup_insert_eq. exists r'. assert (x = r) as -> by congruence.
    split_and!; try done. intros Hr'. split; [auto|]. by apply view_id.
  - rewrite lookup_insert_ne by done. exists x. split_and!; try done. intros Hx.
    split; [lia|]. by apply view_id.
Qed.

Lemma evolves_frame (s s' : st) : arena s' = arena s -> heap s' = heap s -> evolves s s'.
Proof.
  intros Ea Eh q x Hq. exists x. rewrite Eh. split_and!; try done. intros Hx. split; [lia|].
  by apply view_id.
Qed.

(** A record whose count, pins and TTL mark stay. *)
Lemma Inv_touch g (s : st) k p r r' :
  Inv g s -> cont s !! k = Some p -> heap s !! p = Some r -> same_id r r' ->
  Refcount r' = Refcount r -> PinFlags r' = PinFlags r -> hasTTL r' = hasTTL r ->
  Inv g (set_heap (<[p := r']> (heap s)) s).
Proof.
  intros HI Hk Hp Hid Er Ep Et. pose proof Hid as (E1 & E2 & E3 & _).
  destruct (iv_heap g s HI p r Hp) as [_ [Hl Hpin]].
  apply (Inv_update g g s _ p r r'); try done.
  - split; [by rewrite E2|by rewrite Ep].
  - split_and!; cbn; try done.
    + intros q. case_decide; lia.
    + unfold alive. rewrite Er. lia.
    + intros k' _. unfold hardBytes, HardPinned. rewrite Ep, E2, E3, Et. split; [intros ns|]; lia.
  - rewrite Er. pose proof (iv_rd g s HI p). lia.
  - by rewrite Er.
Qed.

Lemma Acquire_spec g (s : st) k p r :
  Inv g s -> cont s !! k = Some p -> heap s !! p = Some r ->
  Acquire r = (set_Refcount (Refcount r + 1) r, true) /\
  Inv (addRd g p 1) (set_heap (<[p := set_Refcount (Refcount r + 1) r]> (heap s)) s).
Proof.
  intros HI Hk Hp. destruct (absm_some g s k p r HI Hk Hp) as (b & _ & _ & _ & Hr).
  split; [unfold Acquire; by replace (Refcount r <=? 0) with false by lia|].
  eapply (Inv_update g _ s _ p r (set_Refcount (Refcount r + 1) r)); try done.
  - split; apply (iv_heap g s HI p r Hp).
  - split_and!; cbn; try done.
    + intros q. cbn. case_decide; lia.
    + unfold alive. cbn. replace (0 <? Refcount r + 1) with true by lia.
      replace (0 <? Refcount r) with true by lia. lia.
    + intros k' _. split; [intros ns; unfold hardBytes, HardPinned|unfold hasTTL]; cbn; lia.
  - cbn. pose proof (iv_rd g s HI p). lia.
Qed.

Lemma grant_id l r t h :
  let r' := set_hits h (GrantReadLease l r t) in
  same_id r r' /\ Refcount r' = Refcount r /\ PinFlags r' = PinFlags r /\ hasTTL r' = hasTTL r.
Proof. unfold GrantReadLease, extendLease. case_if; done. Qed.

Lemma GetRef_spec g (s : st) ns key :
  Inv g s ->
  match cont s !! mkKey ns key with
  | None => GetRef time ns key s = Some (None, s)
  | Some p => exists r b s', heap s !! p = Some r /\ view s r = Some b /\
      GetRef time ns key s = Some (Some (b, XXH3 r, p), s') /\
      Inv (addRd g p 1) s' /\ evolves s s' /\ cont s' = cont s
  end.
Proof.
  intros HI. destruct (cont s !! mkKey ns key) as [p|] eqn:Hk;
    unfold GetRef; rewrite run_gets, (Get_contents _ _ (iv_idx g s HI)); fold (cont s); rewrite Hk; [|done].
  destruct (iv_res g s HI _ p Hk) as (r & Hp & _).
  destruct (Acquire_spec g s _ p r HI Hk Hp) as [Ea HI1].
  destruct (absm_some g s _ p r HI Hk Hp) as (b & Hb & _ & _ & Hr).
  rewrite (run_deref p _ s r Hp), Ea. cbn [negb]. set (r1 := set_Refcount (Refcount r + 1) r) in *.
  rewrite run_setRef, run_now, run_gets. set (s1 := set_tick _ _).
  set (r2 := set_hits _ _). rewrite run_setRef.
  destruct (grant_id (life s1) r1 (time (tick s)) (u32 (hits r1 + 1))) as (Hid & Er & Ep & Et).
  change (set_hits _ _) with r2 in Hid, Er, Ep, Et.
  assert (0 < Refcount r2) as Hr2 by (rewrite Er; cbn; lia).
  assert (Inv (addRd g p 1) s1) as HI1' by (by eapply Inv_frame; [|exact HI1]).
  assert (heap s1 !! p = Some r1) as Hp1 by apply lookup_insert_eq.
  pose proof (Inv_touch _ s1 _ p r1 r2 HI1' Hk Hp1 Hid Er Ep Et) as HI2.
  edestruct (polDo_spec _ _ (fun pl => pol_Touch pl (mkKey ns key) (time (tick s))) HI2 (fun pl => pol_Touch_ok pl _ _))
    as (po & Et' & HI3 & _).
  unfold polTouch. rewrite (sm_bind_eq _ _ _ _ _ Et'). set (s3 := set_policy po _) in *.
  assert (heap s3 !! p = Some r2) as Hp3 by apply lookup_insert_eq.
  assert (same_id r r2) as Hid2 by (eapply same_id_trans; [|exact Hid]; done).
  assert (view s3 r2 = Some b) as Hb3 by (rewrite <- Hb; by apply view_id).
  rewrite (sm_bind_eq _ _ _ _ _ (readBytes_spec _ s3 p r2 b HI3 Hp3 Hr2 Hb3)).
  exists r, b, s3. replace (XXH3 r2) with (XXH3 r) by (symmetry; apply Hid2). split_and!; try done.
  eapply (evolves_update s s3 p r r2); try done. cbn. by rewrite insert_insert_eq.
Qed.

(** ** Reading and releasing *)

Lemma release_spec g (s : st) p :
  Inv g s -> 0 < rd g p ->
  exists s', releaseRef p s = Some (tt, s') /\ Inv (addRd g p (-1)) s' /\ evolves s s' /\ cont s' = cont s.
Proof.
  intros HI Hrd. destruct (iv_rd g s HI p) as [_ Hs]. destruct (Hs Hrd) as [r Hp].
  destruct (releaseRef_spec g s p r HI Hp Hrd) as (a' & lv & og & E & HI').
  eexists. split; [exact E|]. split_and!; try done.
  eapply (evolves_update s _ p r); try done. cbn. lia.
Qed.

Lemma GetCopy_spec g (s : st) ns key :
  Inv g s ->
  exists s', GetCopy time ns key s = Some (absm s !! mkKey ns key, s') /\ Inv g s' /\ absm s' = absm s /\
    evolves s s' /\ cont s' = cont s.
Proof.
  intros HI. pose proof (GetRef_spec g s ns key HI) as HG. unfold GetCopy.
  rewrite (absm_lookup g s _ HI). destruct (cont s !! mkKey ns key) as [p|] eqn:Hk.
  2:{ rewrite (sm_bind_eq _ _ _ _ _ HG). exists s. split_and!; done. }
  destruct HG as (r & b & s1 & Hp & Hb & E & HI1 & Hev & Hc). rewrite (sm_bind_eq _ _ _ _ _ E).
  destruct (release_spec _ s1 p HI1) as (s2 & E2 & HI2 & Hev2 & Hc2).
  { cbn. rewrite decide_True by done. pose proof (iv_rd g s HI p). lia. }
  rewrite (sm_bind_eq _ _ _ _ _ E2). exists s2. rewrite Hp. cbn. rewrite Hb. split; [done|].
  assert (Inv g s2) as HI2'.
  { eapply Inv_ghost; [| | |exact HI2]; [|done|done]. intros q. cbn. repeat case_decide; lia. }
  assert (evolves s s2) as Hev' by (by etrans). assert (cont s2 = cont s) as Hc' by congruence.
  split_and!; try done. by eapply absm_evolves_eq.
Qed.

Lemma RefForDemotion_spec g (s : st) ns key :
  Inv g s ->
  (exists p r b s', cont s !! mkKey ns key = Some p /\ heap s !! p = Some r /\ 0 < Len r /\ view s r = Some b /\
     RefForDemotion ns key s = Some (Some (b, XXH3 r, hits r, p), s') /\
     Inv (addRd g p 1) s' /\ evolves s s' /\ cont s' = cont s) \/
  (RefForDemotion ns key s = Some (None, s) /\
   forall p r, cont s !! mkKey ns key = Some p -> heap s !! p = Some r -> Len r = 0).
Proof.
  intros HI. unfold RefForDemotion. rewrite run_gets, (Get_contents _ _ (iv_idx g s HI)). fold (cont s).
  destruct (cont s !! mkKey ns key) as [p|] eqn:Hk; [|by right].
  destruct (iv_res g s HI _ p Hk) as (r & Hp & _). rewrite (run_deref p _ s r Hp).
  destruct (Len r =? 0) eqn:El.
  { right. split; [done|]. intros p' r' [= <-] Hr. assert (r' = r) as -> by congruence. lia. }
  left. destruct (Acquire_spec g s _ p r HI Hk Hp) as [Ea HI1]. rewrite Ea. cbn [negb].
  destruct (absm_some g s _ p r HI Hk Hp) as (b & Hb & _ & _ & Hr).
  set (r1 := set_Refcount (Refcount r + 1) r) in *. rewrite run_setRef. set (s1 := set_heap _ s) in *.
  assert (heap s1 !! p = Some r1) as Hp1 by apply lookup_insert_eq.
  assert (view s1 r1 = Some b) as Hb1 by (rewrite <- Hb; by apply view_id).
  pose proof (readBytes_spec _ s1 p r1 b HI1 Hp1 ltac:(cbn; lia) Hb1) as E.
  pose proof (rk_len _ (proj2 (iv_heap g s HI p r Hp))) as Hlen.
  replace (0 <? Len r1) with true in E by (cbn; lia). rewrite (sm_bind_eq _ _ _ _ _ E).
  exists p, r, b, s1. split_and!; try done; [lia|].
  by eapply (evolves_update s s1 p r r1).
Qed.

(** ** Deleting *)

Lemma Delete_tail p (s : st) :
  (noteGone p;; refundQuota p;; releaseRef p;; mret StatusOK) s
  = (afterUnlink p false ≫= fun _ => mret StatusOK) s.
Proof.
  unfold afterUnlink. unfold mbind, sm_mbind. destruct (noteGone p s) as [[[] s1]|]; [|done].
  cbn -[refundQuota deref releaseRef]. destruct (refundQuota p _) as [[[] s2]|]; [|done].
  destruct (deref p s2) as [[r s3]|] eqn:Ed.
  - unfold deref in Ed. destruct (heap s2 !! p) eqn:Ep; [|done]. injection Ed as <- <-.
    by destruct (releaseRef p s2) as [[[] s4]|].
  - unfold releaseRef, mbind, sm_mbind. by rewrite Ed.
Qed.

Lemma Delete_spec g (s : st) ns key force :
  Inv g s ->
  exists st' s', Delete time ns key force s = Some (st', s') /\ Inv g s' /\ evolves s s' /\
    match res s !! mkKey ns key with
    | None => st' = StatusNotFound /\ s' = s
    | Some r => st' = canDelete r force (time (tick s)) /\
        cont s' = if st' =? StatusOK then delete (mkKey ns key) (cont s) else cont s
    end.
Proof.
  intros HI. set (k := mkKey ns key). unfold Delete, DeleteIf. fold k. rewrite run_assoc, run_gets.
  rewrite (Get_contents _ _ (iv_idx g s HI)). fold (cont s).
  destruct (cont s !! k) as [p|] eqn:Hk.
  2:{ unfold res. rewrite lookup_omap, Hk. exists StatusNotFound, s. by split_and!. }
  destruct (iv_res g s HI k p Hk) as (r & Hp & _).
  rewrite (proj2 (res_lookup s k r)) by eauto.
  rewrite run_assoc. unfold deleteGate at 1. rewrite run_assoc, run_now, run_assoc.
  rewrite (run_deref p _ (set_tick _ s) r Hp). set (v := canDelete r force _).
  destruct (v =? StatusOK) eqn:Ev; cbn [negb].
  2:{ rewrite run_ret, Ev. cbn [negb]. exists v, (set_tick (S (tick s)) s). rewrite Ev. split; [done|].
      split; [by eapply Inv_frame; [|exact HI]|]. split; [by apply evolves_frame|done]. }
  apply Z.eqb_eq in Ev. rewrite Ev. destruct (gated_inv g s k p r HI Hk Hp) as (po & E & HI1 & _).
  rewrite (sm_bind_eq _ _ _ _ _ E). cbn [negb Z.eqb StatusOK]. rewrite run_assoc.
  assert (heap (gated s po p r) !! p = Some (set_PinFlags 0 r)) as Hp1 by apply lookup_insert_eq.
  rewrite (run_deref p _ _ _ Hp1), run_assoc, run_modify, run_ret, Delete_tail.
  destruct (afterUnlink_spec g (gated s po p r) k p (set_PinFlags 0 r) false HI1 Hk Hp1 eq_refl)
    as (s' & E' & HI' & Hrm).
  rewrite (sm_bind_eq _ _ _ _ _ E'). exists StatusOK, s'. split; [done|]. split; [done|].
  split; [by eapply gated_evolves|]. split; [done|]. apply Hrm.
Qed.

(** ** Demoting *)

(** The demotion leaves the block's charge with the caller, who moves it to the
    tier the bytes went to. *)
Lemma CompleteDemotion_spec g (s : st) ns key x pub :
  Inv g s ->
  exists ok s', CompleteDemotion time ns key x pub s = Some (ok, s') /\ evolves s s' /\
    if ok : bool then exists p r, cont s !! mkKey ns key = Some p /\ heap s !! p = Some r /\ XXH3 r = x /\
        CanEvict r (time (tick s)) = true /\ cont s' = delete (mkKey ns key) (cont s) /\
        Inv (addOwed g ns (Len r)) s'
    else cont s' = cont s /\ Inv g s'.
Proof.
  intros HI. set (k := mkKey ns key). unfold CompleteDemotion, DeleteIf. fold k. rewrite run_assoc, run_gets.
  rewrite (Get_contents _ _ (iv_idx g s HI)). fold (cont s).
  destruct (cont s !! k) as [p|] eqn:Hk.
  2:{ exists false, s. by split_and!. }
  destruct (iv_res g s HI k p Hk) as (r & Hp & Hns). rewrite run_assoc. unfold demoteGate at 1.
  rewrite run_assoc, (run_deref p _ s r Hp). destruct (XXH3 r =? x) eqn:Ex; cbn [negb].
  2:{ exists false, s. by split_and!. }
  rewrite run_assoc, run_now, run_ret. set (s1 := set_tick _ s).
  assert (Inv g s1) as HI1 by (by eapply Inv_frame; [|exact HI]).
  destruct (CanEvict r (time (tick s))) eqn:Ec; cbn [negb].
  2:{ exists false, s1. split; [done|]. split; [by apply evolves_frame|done]. }
  cbn [negb Z.eqb StatusOK]. rewrite run_assoc, (run_deref p _ s1 r Hp), run_assoc, run_modify, run_ret.
  assert (PinFlags r = 0) as Hpin by (unfold CanEvict, Pinned in Ec; lia).
  pose proof (Inv_unlink g s1 k p r HI1 Hk Hp Hpin) as HI2. set (s2 := set_index _ s1) in *.
  destruct (noteGone_spec _ s2 p r HI2 Hp) as [E3 HI3]. set (s3 := set_life _ s2) in *.
  rewrite (sm_bind_eq _ _ _ _ _ E3).
  set (s4 := if pub then s3 else set_evictions (evictions s3 + 1) s3).
  assert ((if negb pub then modify (fun s : st => set_evictions (evictions s + 1) s) else mret tt) s3
          = Some (tt, s4)) as E4 by (by destruct pub).
  rewrite (sm_bind_eq _ _ _ _ _ E4).
  assert (Inv (addDt (unlinked g p r) (- hasTTL r)) s4) as HI4
    by (eapply Inv_frame; [|exact HI3]; by destruct pub).
  destruct (release_spec _ s4 p HI4) as (s5 & E5 & HI5 & Hev & Hc).
  { cbn. rewrite decide_True by done. pose proof (iv_rd g s HI p). lia. }
  rewrite (sm_bind_eq _ _ _ _ _ E5). exists true, s5. split; [done|].
  split; [etrans; [|exact Hev]; apply evolves_frame; by destruct pub|].
  exists p, r. split_and!; try done; [lia| |].
  - rewrite Hc. destruct (removeKey_spec (index_ s) k (Len r) (iv_idx g s HI)) as [_ Hd]. unfold cont. rewrite <- Hd.
    by destruct pub.
  - assert (NamespaceID r = ns) as En by done. eapply Inv_ghost; [| | |exact HI5]; cbn.
    + intros q. repeat case_decide; lia.
    + intros n. rewrite En. repeat case_decide; lia.
    + lia.
Qed.

(** ** Leases, TTLs and pins *)

Lemma ttl_set t ms : 0 < t < 2 ^ 62 -> 0 < ms < 2 ^ 32 -> Lifecycle.i64 (t + ms * Millisecond) = t + ms * Millisecond.
Proof. intros Ht Hm. unfold Lifecycle.i64, Millisecond. apply sint_id; lia. Qed.

Lemma Inv_Touch g (s : st) k p r ttlMS t l' r' :
  Inv g s -> cont s !! k = Some p -> heap s !! p = Some r -> 0 <= ttlMS < 2 ^ 32 -> 0 < t < 2 ^ 62 ->
  Touch (life s) r ttlMS t = (l', r') ->
  Inv g (set_heap (<[p := r']> (heap s)) (set_life l' s)) /\ same_id r r' /\ Refcount r' = Refcount r.
Proof.
  intros HI Hk Hp Hms Ht. unfold Touch. destruct (iv_heap g s HI p r Hp) as [_ [Hl Hpin]].
  assert (forall l'' r'', l'' = life s \/ l'' = set_ttlBlocks (ttlBlocks (life s) + 1) (life s) ->
            ttlBlocks l'' = ttlBlocks (life s) - hasTTL r + hasTTL r'' ->
            same_id r r'' -> Refcount r'' = Refcount r -> PinFlags r'' = PinFlags r ->
            Inv g (set_heap (<[p := r'']> (heap s)) (set_life l'' s))) as Hupd.
  { intros l'' r'' Hl'' Httl Hid Er Ep. pose proof Hid as (E1 & E2 & E3 & _).
    apply (Inv_update g g s _ p r r''); try done.
    - split; [by rewrite E2|by rewrite Ep].
    - split_and!; cbn; try done.
      + intros q. case_decide; lia.
      + unfold alive. rewrite Er. lia.
      + intros k' _. unfold hardBytes, HardPinned. rewrite Ep, E2, E3. split; [|lia].
        intros ns. unfold pinnedOf. destruct Hl'' as [-> | ->]; cbn; lia.
      + intros Hn. by apply Hn in Hk.
    - rewrite Er. pose proof (iv_rd g s HI p). lia.
    - by rewrite Er. }
  destruct (0 <? ttlMS) eqn:E0; intros [= <- <-]; (split; [apply Hupd|by split]); try done.
  - cbn. case_if; auto.
  - cbn. unfold hasTTL. cbn. rewrite ttl_set by lia.
    replace (t + ttlMS * Millisecond =? 0) with false by (unfold Millisecond; lia).
    destruct (TTLUntil r =? 0); cbn; lia.
  - by left.
  - unfold hasTTL. cbn. lia.
Qed.

Lemma extendLease_id r u :
  same_id r (extendLease r u) /\ Refcount (extendLease r u) = Refcount r /\
  PinFlags (extendLease r u) = PinFlags r /\ hasTTL (extendLease r u) = hasTTL r.
Proof. unfold extendLease. case_if; done. Qed.

Lemma TouchLease_spec g (s : st) ns key sub ttlMS :
  (forall i, 0 < time i < 2 ^ 62) -> Inv g s -> 0 <= ttlMS < 2 ^ 32 ->
  exists v s', TouchLease time ns key sub ttlMS s = Some (v, s') /\ Inv g s' /\ evolves s s' /\
    cont s' = cont s /\
    v = match cont s !! mkKey ns key with
        | None => StatusNotFound
        | Some _ => if (sub =? TouchRecency) || (sub =? LeaseGrant) || (sub =? LeaseRelease)
                    then StatusOK else StatusErrUnsupported
        end.
Proof.
  intros clock_ok HI Hms. unfold TouchLease. rewrite run_gets, (Get_contents _ _ (iv_idx g s HI)). fold (cont s).
  destruct (cont s !! mkKey ns key) as [p|] eqn:Hk.
  2:{ exists StatusNotFound, s. by split_and!. }
  destruct (iv_res g s HI _ p Hk) as (r & Hp & Hns). rewrite (run_deref p _ s r Hp), run_gets.
  destruct (sub =? TouchRecency); cbn [orb].
  { rewrite run_now. destruct (Touch (life s) r ttlMS (time (tick s))) as [l' r'] eqn:Et.
    destruct (Inv_Touch g s _ p r ttlMS _ l' r' HI Hk Hp Hms (clock_ok _) Et) as (HI1 & Hid & Er).
    rewrite run_modify, run_setRef, run_gets. set (s1 := set_heap _ _).
    assert (Inv g s1) as HI1' by (by eapply Inv_frame; [|exact HI1]).
    assert (evolves s s1) as Hev by (eapply (evolves_update s s1 p r r'); try done; by rewrite Er).
    destruct (policy s1) as [pl|].
    - rewrite run_now. set (s2 := set_tick _ s1).
      assert (Inv g s2) as HI2 by (by eapply Inv_frame; [|exact HI1']).
      destruct (polDo_spec g s2 (fun pl => pol_Touch pl (mkKey ns key) (time (tick s1))) HI2 (fun pl => pol_Touch_ok pl _ _))
        as (po & Et' & HI3 & _).
      unfold polTouch. rewrite (sm_bind_eq _ _ _ _ _ Et'). eexists _, _. split; [done|]. split; [done|].
      split; [|done]. etrans; [exact Hev|by apply evolves_frame].
    - eexists _, _. split; [done|]. done. }
  destruct (sub =? LeaseGrant); cbn [orb].
  { rewrite run_now, run_setRef. set (r' := Lease _ _ _ _).
    assert (same_id r r' /\ Refcount r' = Refcount r /\ PinFlags r' = PinFlags r /\ hasTTL r' = hasTTL r)
      as (Hid & Er & Ep & Et) by apply (extendLease_id r).
    eexists _, _. split; [done|]. split; [|split; [|done]].
    - eapply Inv_frame; [|exact (Inv_touch g s _ p r r' HI Hk Hp Hid Er Ep Et)]. done.
    - eapply (evolves_update s _ p r r'); try done. by rewrite Er. }
  destruct (sub =? LeaseRelease); cbn [orb].
  2:{ exists StatusErrUnsupported, s. by split_and!. }
  rewrite run_setRef, run_bumpGen. eexists _, _. split; [done|]. split; [|split; [|done]].
  - eapply Inv_frame; [|exact (Inv_touch g s _ p r (ReleaseLease r) HI Hk Hp
      ltac:(done) ltac:(done) ltac:(done) ltac:(done))]. done.
  - by eapply (evolves_update s _ p r (ReleaseLease r)).
Qed.

(** A change of pins with the tenant's pinned bytes following it. *)
Lemma Inv_pins g (s : st) k p r l' v :
  Inv g s -> cont s !! k = Some p -> heap s !! p = Some r -> v = 0 \/ v = 1 \/ v = 2 ->
  ttlBlocks l' = ttlBlocks (life s) ->
  (forall ns, pinnedOf l' ns = pinnedOf (life s) ns - hardBytes ns r + hardBytes ns (set_PinFlags v r)) ->
  Inv g (set_heap (<[p := set_PinFlags v r]> (heap s)) (set_life l' s)).
Proof.
  intros HI Hk Hp Hv Ht Hpin.
  apply (Inv_update g g s _ p r (set_PinFlags v r)); try done.
  - split; [apply (iv_heap g s HI p r Hp)|done].
  - split_and!; cbn; try done.
    + intros q. case_decide; lia.
    + unfold alive. cbn. lia.
    + intros k' _. split; [done|]. unfold hasTTL. cbn. lia.
    + intros Hn. by apply Hn in Hk.
  - cbn. pose proof (iv_rd g s HI p). lia.
Qed.

Lemma pinned_bound g (s : st) ns : Inv g s -> 0 <= pinnedOf (life s) ns < 2 ^ 62.
Proof.
  intros HI. rewrite (iv_pin g s HI). pose proof (iv_bound g s HI ns).
  assert (0 <= msum (hardBytes ns) (res s)) by (apply msum_nonneg; intros k' r' ?; by apply (hardBytes_le g s ns k')).
  assert (msum (hardBytes ns) (res s) <= msum Len (res s)) by (apply msum_le; intros k' r' ?; by apply (hardBytes_le g s ns k')).
  lia.
Qed.

Lemma hardBytes_hard ns r : hardBytes ns (set_PinFlags pinHardBit r) = if NamespaceID r =? ns then Len r else 0.
Proof. done. Qed.

Lemma hardBytes_soft ns r : hardBytes ns (set_PinFlags pinSoftBit r) = 0.
Proof. done. Qed.

Lemma Pin_spec g (s : st) k p r hard l' r' v :
  Inv g s -> cont s !! k = Some p -> heap s !! p = Some r -> Pin (life s) r hard = (l', r', v) ->
  Inv g (set_heap (<[p := r']> (heap s)) (set_life l' s)) /\ same_id r r' /\ Refcount r' = Refcount r /\
  (v = StatusOK \/ (v = StatusErrPinQuota /\ r' = r /\ l' = life s)).
Proof.
  intros HI Hk Hp. unfold Pin. change (negb (Z.land (PinFlags r) pinHardBit =? 0)) with (HardPinned r).
  pose proof (pinned_bound g s (NamespaceID r) HI) as Hb.
  destruct (iv_heap g s HI p r Hp) as [_ [Hl _]].
  destruct hard; cbn [andb]; destruct (HardPinned r) eqn:Hh; cbn [negb].
  - intros [= <- <- <-]. split; [|by split_and!; auto].
    apply (Inv_pins g s k p r); try done; [auto|]. intros ns. rewrite hardBytes_hard.
    unfold hardBytes. rewrite Hh. cbn. case_if; lia.
  - unfold Lifecycle.i64. rewrite sint_id by lia. case_if; intros [= <- <- <-].
    + split; [|by split_and!; auto]. eapply Inv_frame; [|exact HI]. unfold core. cbn.
      by rewrite insert_id.
    + split; [|by split_and!; auto]. apply (Inv_pins g s k p r); try done; [auto|]. intros ns.
      rewrite hardBytes_hard. unfold hardBytes, pinnedOf. rewrite Hh. cbn.
      destruct (decide (NamespaceID r = ns)) as [<-|Hne].
      * rewrite lookup_insert_eq, Z.eqb_refl. cbn. unfold pinnedOf. lia.
      * rewrite lookup_insert_ne by done. replace (NamespaceID r =? ns) with false by lia. lia.
  - intros [= <- <- <-]. split; [|by split_and!; auto].
    apply (Inv_pins g s k p r); try done; [auto|]. intros ns. rewrite hardBytes_soft.
    rewrite (refund_exact g s k p r ns) by done. cbn. lia.
  - intros [= <- <- <-]. split; [|by split_and!; auto].
    apply (Inv_pins g s k p r); try done; [auto|]. intros ns. rewrite hardBytes_soft.
    unfold hardBytes. rewrite Hh. cbn. lia.
Qed.

Lemma absm_none g (s : st) k : Inv g s -> absm s !! k = None <-> cont s !! k = None.
Proof.
  intros HI. split; [|intros Hk; by rewrite (absm_lookup g s k HI), Hk].
  destruct (cont s !! k) as [p|] eqn:Hk; [|done]. destruct (iv_res g s HI k p Hk) as (r & Hp & _).
  destruct (absm_some g s k p r HI Hk Hp) as (b & _ & _ & -> & _). done.
Qed.

Lemma PinOp_spec g (s : st) ns key sub :
  Inv g s ->
  exists v s', PinOp ns key sub s = Some (v, s') /\ Inv g s' /\ evolves s s' /\ cont s' = cont s /\
    (cont s !! mkKey ns key = None -> v = StatusNotFound).
Proof.
  intros HI. unfold PinOp. rewrite run_gets, (Get_contents _ _ (iv_idx g s HI)). fold (cont s).
  destruct (cont s !! mkKey ns key) as [p|] eqn:Hk.
  2:{ exists StatusNotFound, s. by split_and!. }
  destruct (iv_res g s HI _ p Hk) as (r & Hp & Hns). rewrite (run_deref p _ s r Hp), run_gets.
  case_if.
  { destruct (Pin (life s) r (sub =? PinHard)) as [[l' r'] v] eqn:Epin.
    destruct (Pin_spec g s _ p r _ l' r' v HI Hk Hp Epin) as (HI' & Hid & Er & _).
    rewrite run_modify, run_setRef. eexists _, _. split; [done|]. split_and!; try done.
    eapply (evolves_update s _ p r r'); try done. by rewrite Er. }
  case_if.
  2:{ exists StatusErrUnsupported, s. by split_and!. }
  destruct (unpinGone_spec g s _ p r HI Hk Hp) as [E HI1]. set (s1 := set_heap _ _) in *.
  exists StatusOK, (set_occGen (occGen s + 1) s1). split; [done|].
  split; [by eapply Inv_frame; [|exact HI1]|]. split; [|done].
  by eapply (evolves_update s _ p r (set_PinFlags 0 r)).
Qed.

(** ** Storing *)

(** No referenced record owns the handle [m]. *)
Definition unowned (s : st) (m : Z) : Prop :=
  forall p r, heap s !! p = Some r -> 0 < Refcount r -> 0 < Len r -> allocMeta r <> m.

Lemma allocAlloc_spec g (s : st) u :
  Inv g s -> 0 < u < 2 ^ 32 ->
  exists al ok a', allocAlloc u s = Some (al, ok, set_alloc a' s) /\ Inv g (set_alloc a' s) /\
    (ok = true -> ea_live a' !! OffsetAlloc.Meta al = Some (OffsetAlloc.Offset al, u) /\
                  unowned (set_alloc a' s) (OffsetAlloc.Meta al)).
Proof.
  intros HI Hu. destruct (ea_alloc_ok (alloc s) u (iv_wf g s HI) Hu) as (a' & al & ok & E & Hwf & Hsz & Hok).
  exists al, ok, a'. unfold allocAlloc. rewrite E. split; [done|]. destruct ok.
  2:{ subst a'. split; [|done]. eapply Inv_frame; [|exact HI]. done. }
  destruct Hok as [Hn Hl]. assert (unowned s (OffsetAlloc.Meta al)) as Hun.
  { intros p r Hp Hr Hlen Em. pose proof (iv_ext g s HI p r Hp Hr Hlen) as He. rewrite Em in He. congruence. }
  split; [|intros _; split; [by rewrite Hl, lookup_insert_eq|done]].
  apply Inv_alloc; try done. intros p r Hp Hr Hlen. rewrite Hl, lookup_insert_ne; [done|].
  intros Em. by apply (Hun p r Hp Hr Hlen).
Qed.

Lemma reclaims_alloc em (s : st) a' : reclaims time em s (set_alloc a' s).
Proof. split; try done. by apply evolves_frame. Qed.

Lemma putAlloc_spec g (s : st) u :
  Inv g s -> 0 < u < 2 ^ 32 ->
  exists al ok s', putAlloc time u s = Some ((al, ok), s') /\ Inv g s' /\ reclaims time true s s' /\
    (evict s = None -> cont s' = cont s) /\
    (ok = true -> ea_live (alloc s') !! OffsetAlloc.Meta al = Some (OffsetAlloc.Offset al, u) /\
                  unowned s' (OffsetAlloc.Meta al)).
Proof.
  intros HI Hu. unfold putAlloc. destruct (allocAlloc_spec g s u HI Hu) as (al & ok & a' & E & HI1 & Hok).
  rewrite (sm_bind_eq _ _ _ _ _ E), run_gets. change (evict (set_alloc a' s)) with (evict s).
  assert (exists al0 ok0 s', (mret (al, ok) : sm st _) (set_alloc a' s) = Some ((al0, ok0), s') /\
            Inv g s' /\ reclaims time true s s' /\ (evict s = None -> cont s' = cont s) /\
            (ok0 = true -> ea_live (alloc s') !! OffsetAlloc.Meta al0 = Some (OffsetAlloc.Offset al0, u) /\
                           unowned s' (OffsetAlloc.Meta al0))) as Hret.
  { exists al, ok, (set_alloc a' s). split; [done|]. split; [done|]. split; [apply reclaims_alloc|]. done. }
  destruct ok; [done|]. destruct (evict s) as [ev|] eqn:Ev; [|done]. clear Hret.
  destruct (frees_EvictNow time g _ HI1) as (n & s2 & E2 & HI2 & HR & _); [done|].
  rewrite (sm_bind_eq _ _ _ _ _ E2). destruct (allocAlloc_spec g s2 u HI2 Hu) as (al3 & ok3 & a3 & E3 & HI3 & Hok3).
  exists al3, ok3, (set_alloc a3 s2). split; [done|]. split; [done|]. split; [|done].
  etrans; [apply (reclaims_alloc _ _ a')|]. etrans; [exact HR|apply reclaims_alloc].
Qed.

Lemma Inv_arena g (s : st) b : Inv g s -> len b = len (arena s) -> Inv g (set_arena b s).
Proof.
  intros [] Hl. split; try assumption. cbn. by rewrite Hl.
Qed.

(** Writing into an extent no record owns: the bytes read back, and no record's
    bytes change. *)
Lemma write_spec g (s : st) o u m data :
  Inv g s -> ea_live (alloc s) !! m = Some (o, u) -> unowned s m ->
  0 < len data < 2 ^ 32 -> len data <= u * 4096 ->
  exists b, arenaWrite (u64 (o <<| AllocUnitShift)) (u32 (len data)) data s = Some (tt, set_arena b s) /\
    Inv g (set_arena b s) /\
    slice b (u64 (o <<| AllocUnitShift)) (u64 (o <<| AllocUnitShift) + len data) = Some data /\
    evolves s (set_arena b s).
Proof.
  intros HI Hm Hun Hd Hu. destruct (addr_spec s g o u (len data) m HI Hm) as (-> & H1 & H2); [lia|].
  destruct (copy_at (arena s) (o * 4096) data) as [b|] eqn:Hb; [|by rewrite copy_at_some in Hb].
  pose proof (len_copy_at _ _ _ _ H1 H2 Hb) as Hlen. exists b.
  assert (u32 (len data) = len data) as Eu by (unfold u32; apply Z.mod_small; lia).
  split_and!.
  - unfold arenaWrite. destruct (iv_arena g s HI) as [-> _]. rewrite Eu.
    replace (_ || _) with false by lia. rewrite take_ge by (unfold len; lia). by rewrite Hb.
  - by apply Inv_arena.
  - by apply (slice_copy_same (arena s)).
  - intros p r Hp. exists r. split_and!; try done. intros Hr. split; [done|]. unfold view. cbn.
    case_if; [|done]. destruct (ref_extent g s p r HI Hp Hr) as (He & -> & H3 & H4 & H5); [lia|].
    apply (slice_copy_disjoint (arena s) b (o * 4096) data); [done..|].
    destruct (ea_disjoint (alloc s) _ m _ _ (iv_wf g s HI) He Hm) as [Hx|Hx].
    + apply (Hun p r); [done..|lia].
    + left. cbn in Hx. lia.
    + right. cbn in Hx. lia.
Qed.

(** ** Publishing *)

(** [s'] is [s] with the new record [r] published under [k]. *)
Record published (s s' : st) (k : Key) (r : BlockRef) : Prop := mkPublished {
  pu_idx : index_ok (index_ s') /\ cont s' = <[k := nextRef s]> (cont s) /\
           blocks (index_ s') = blocks (index_ s) + 1 /\ bytes_ (index_ s') = bytes_ (index_ s) + Len r;
  pu_heap : heap s' = <[nextRef s := r]> (heap s) /\ nextRef s' = nextRef s + 1;
  pu_same : arena s' = arena s /\ closed s' = closed s /\ alloc s' = alloc s /\ life s' = life s;
  pu_live : liveAllocs s' = liveAllocs s + 1
}.

Record fresh_for (s : st) (k : Key) (r : BlockRef) : Prop := mkFreshFor {
  ff_ns : NamespaceID r = NS k;
  ff_len : 0 <= Len r < 2 ^ 32;
  ff_new : Refcount r = 1 /\ PinFlags r = 0 /\ TTLUntil r = 0;
  ff_ext : 0 < Len r -> ea_live (alloc s) !! allocMeta r = Some (Offset r, bytesToUnits (Len r)) /\
                        unowned s (allocMeta r)
}.

Lemma nextRef_free g (s : st) : Inv g s -> heap s !! nextRef s = None.
Proof.
  intros HI. destruct (heap s !! nextRef s) as [r|] eqn:E; [|done].
  apply (iv_heap g s HI) in E as [? _]. lia.
Qed.

Lemma res_insert g (s s' : st) k r :
  Inv g s -> cont s !! k = None -> published s s' k r -> res s' = <[k := r]> (res s) /\ res s !! k = None.
Proof.
  intros HI Hk [(_ & Hc & _) [Hh _] _ _]. split.
  - apply map_eq. intros k'. unfold res. rewrite lookup_omap, Hc, Hh.
    destruct (decide (k = k')) as [<-|Hne].
    + rewrite !lookup_insert_eq. cbn. by rewrite lookup_insert_eq.
    + rewrite !lookup_insert_ne, lookup_omap by done. destruct (cont s !! k') as [q|] eqn:Hq; [|done].
      cbn. rewrite lookup_insert_ne; [done|]. intros <-.
      destruct (iv_res g s HI k' _ Hq) as (x & Hx & _). rewrite (nextRef_free g s HI) in Hx. done.
  - unfold res. by rewrite lookup_omap, Hk.
Qed.

Lemma Inv_publish g (s s' : st) k r :
  Inv g s -> cont s !! k = None -> fresh_for s k r -> published s s' k r ->
  (forall ns, msum Len (res s) + Len r + owed g ns < 2 ^ 62) ->
  match quotas s' with
  | Some q => QuotaFacts.quotas_ok q /\ forall ns, Quotas.Usage q ns Registry.TierDRAM =
                msum (nsBytes ns) (res s) + nsBytes ns r + owed g ns
  | None => True
  end -> (forall pl, policy s' = Some pl -> pol_wf pl) -> Inv g s'.
Proof.
  intros HI Hk [Hns Hlen (Hr1 & Hpin & Httl) Hext] Hpub Hb Hq Hpo.
  destruct (res_insert g s s' k r HI Hk Hpub) as [Hres Hrk].
  destruct Hpub as [(Hok & Hc & Hbl & Hby) [Hh Hnr] (Ea & Ecl & Eal & El) Hlv].
  pose proof (nextRef_free g s HI) as Hfree.
  assert (rd g (nextRef s) = 0) as Hrd0.
  { destruct (iv_rd g s HI (nextRef s)) as [H1 H2]. destruct (decide (0 < rd g (nextRef s))) as [Hpos|]; [|lia].
    destruct (H2 Hpos) as [? Hx]. congruence. }
  assert (forall k' q, cont s' !! k' = Some q -> (k' = k /\ q = nextRef s) \/ (k' <> k /\ cont s !! k' = Some q)) as Hin.
  { intros k' q. rewrite Hc, lookup_insert_Some. naive_solver. }
  assert (forall q x, heap s' !! q = Some x -> (q = nextRef s /\ x = r) \/ (q <> nextRef s /\ heap s !! q = Some x)) as Hlk.
  { intros q x. rewrite Hh, lookup_insert_Some. naive_solver. }
  assert (forall k', cont s !! k' <> Some (nextRef s)) as Hnot.
  { intros k' Hk'. destruct (iv_res g s HI _ _ Hk') as (x & Hx & _). congruence. }
  assert (forall f, msum f (res s') = f r + msum f (res s)) as Hsum by (intros f; by rewrite Hres, msum_insert).
  split.
  - done.
  - intros k' q [[-> ->]|[Hne Hq']]%Hin; rewrite Hh.
    + rewrite lookup_insert_eq. eauto.
    + destruct (iv_res g s HI k' q Hq') as (x & Hx & Hxn). exists x. split; [|done].
      rewrite lookup_insert_ne; [done|]. congruence.
  - intros k1 k2 q [[-> ->]|[H1 H1']]%Hin [[-> Hq2]|[H2 H2']]%Hin; try done.
    + by destruct (Hnot k2).
    + subst q. by destruct (Hnot k1).
    + by eapply (iv_inj g s HI).
  - intros q x [[-> ->]|[Hne Hx]]%Hlk; rewrite Hnr.
    + split; [lia|]. split; [lia|by left].
    + destruct (iv_heap g s HI q x Hx). split; [lia|done].
  - intros k' q x Hq' Hx. apply Hin in Hq' as [[-> ->]|[Hne Hq']]; apply Hlk in Hx as [[Eq ->]|[Hne' Hx]]; try done.
    + lia.
    + subst q. by destruct (Hnot k').
    + by apply (iv_in g s HI k').
  - intros q x Hx Hn. apply Hlk in Hx as [[-> ->]|[Hne' Hx]].
    + exfalso. apply (Hn k). by rewrite Hc, lookup_insert_eq.
    + apply (iv_out g s HI); [done|]. intros k' Hk'. apply (Hn k'). rewrite Hc, lookup_insert_ne; [done|].
      intros <-. congruence.
  - intros q. destruct (iv_rd g s HI q) as [H1 H2]. split; [done|]. intros Hq'. rewrite Hh.
    destruct (H2 Hq') as [x Hx]. destruct (decide (nextRef s = q)) as [<-|]; [congruence|].
    rewrite lookup_insert_ne by done. by eexists.
  - intros q x Hx Hr Hl. rewrite Eal. apply Hlk in Hx as [[-> ->]|[Hne' Hx]]; [by apply Hext|].
    by apply (iv_ext g s HI q).
  - intros q q' x x' Hx Hx' Hr Hr' Hl Hl' Hm.
    apply Hlk in Hx as [[-> ->]|[Hne Hx]]; apply Hlk in Hx' as [[-> ->]|[Hne' Hx']]; [done| | |].
    + destruct (Hext Hl) as [_ Hun]. by destruct (Hun q' x' Hx' Hr' Hl').
    + destruct (Hext Hl') as [_ Hun]. by destruct (Hun q x Hx Hr Hl).
    + eapply (iv_meta g s HI q q'); eauto.
  - rewrite Eal. apply HI.
  - rewrite Eal, Ecl, Ea. apply HI.
  - rewrite Hbl, Hsum, (iv_blocks g s HI). lia.
  - rewrite Hby, Hsum, (iv_bytes g s HI). lia.
  - rewrite Hlv, (iv_live g s HI), Hh, msum_insert by done. assert (alive r = 1) as -> by (unfold alive; by rewrite Hr1). lia.
  - intros ns. rewrite El, Hsum, (iv_pin g s HI), hardBytes_unpinned by done. lia.
  - rewrite El, Hsum, (iv_ttl g s HI). assert (hasTTL r = 0) as -> by (unfold hasTTL; by rewrite Httl). lia.
  - destruct (quotas s') as [q|]; [|done]. destruct Hq as [Hq1 Hq2]. split; [done|]. intros ns.
    rewrite Hq2, Hsum. lia.
  - intros ns. rewrite Hsum. pose proof (Hb ns). pose proof (iv_bound g s HI ns). lia.
  - done.
Qed.

(** The counters of a tenant's DRAM bytes with [n] more for [ns]. *)
Definition charged (g : ghost) (s : st) (q' : option Quotas.Quotas) (ns n : Z) : Prop :=
  match q' with
  | Some q => QuotaFacts.quotas_ok q /\ forall ns', Quotas.Usage q ns' Registry.TierDRAM =
                msum (nsBytes ns') (res s) + (if ns =? ns' then n else 0) + owed g ns'
  | None => True
  end.

Lemma Inv_quotas g (s : st) q' ns : Inv g s -> charged g s q' ns 0 -> Inv g (set_quotas q' s).
Proof.
  intros [] Hq. split; try assumption. cbn [quotas set_quotas]. destruct q' as [q|]; [|done].
  destruct Hq as [Hq1 Hq2]. split; [done|]. intros ns'. rewrite Hq2.
  change (res (set_quotas _ s)) with (res s). case_if; lia.
Qed.

Lemma putCharge_spec g (s s1 : st) ns n :
  Inv g s -> quotas s1 = quotas s -> 0 <= n < 2 ^ 32 ->
  exists ok q', putCharge ns n s1 = Some (ok, set_quotas q' s1) /\
    if ok : bool then charged g s q' ns n else 0 < n /\ charged g s q' ns 0.
Proof.
  intros HI Eq Hn. unfold putCharge. rewrite Eq. pose proof (iv_quota g s HI) as Hq.
  destruct (quotas s) as [q|] eqn:Es.
  2:{ exists true, None. split; [|done]. destruct s1; cbn in *; by subst. }
  destruct Hq as [Hq1 Hq2]. destruct (0 <? n) eqn:En.
  2:{ exists true, (Some q). split; [destruct s1; cbn in *; by subst|]. split; [done|].
      intros ns'. rewrite Hq2. case_if; lia. }
  pose proof (QuotaFacts.Charge_set q ns Registry.TierDRAM n Hq1 eq_refl ltac:(lia)) as Hs.
  pose proof (QuotaFacts.Charge_ok q ns Registry.TierDRAM n Hq1 eq_refl ltac:(lia)) as Hok.
  destruct (Quotas.Charge q ns Registry.TierDRAM n) as [q' e]. cbn [fst snd] in *.
  eexists _, (Some q'). split; [done|]. case_if_in Hs; destruct Hs as [-> Hs].
  - split; [lia|]. split; [done|]. intros ns'. rewrite Hs, Hq2. case_if; lia.
  - destruct Hs as (_ & _ & Hu). split; [done|]. intros ns'. rewrite Hu by done.
    assert (0 <= msum (nsBytes ns) (res s) <= msum Len (res s)) as Hb.
    { split; [apply msum_nonneg|apply msum_le]; intros k' r' Hr'; by apply (nsBytes_le g s _ k' r'). }
    pose proof (iv_bound g s HI ns).
    destruct (decide (ns' = ns /\ Registry.TierDRAM = Registry.TierDRAM)) as [[-> _]|Hne].
    + rewrite Hq2, Z.eqb_refl. unfold Quotas.i64. rewrite sint_id by lia. lia.
    + rewrite Hq2. replace (ns =? ns') with false; [lia|]. symmetry. apply Z.eqb_neq. naive_solver.
Qed.

(** Giving back an extent no record owns. *)
Lemma allocFree_spec g (s s1 : st) al n :
  Inv g s -> alloc s1 = alloc s -> ea_live (alloc s) !! OffsetAlloc.Meta al = Some n ->
  unowned s (OffsetAlloc.Meta al) ->
  exists a', allocFree al s1 = Some (tt, set_alloc a' s1) /\ Inv g (set_alloc a' s).
Proof.
  intros HI Ea Hm Hun. destruct (ea_free_ok (alloc s) al n (iv_wf g s HI) Hm) as (a' & E & Hwf & Hsz & Hl).
  exists a'. unfold allocFree. rewrite Ea, E. split; [done|]. apply Inv_alloc; try done.
  intros p r Hp Hr Hlen. destruct Hl as [-> | ->]; [|done]. rewrite lookup_delete_ne; [done|].
  intros Em. by apply (Hun p r Hp Hr Hlen).
Qed.

Lemma kick_frame (s : st) : exists b, kickEvictor s = Some (tt, set_kicked b s).
Proof. unfold kickEvictor, modify. destruct (evict s) eqn:E; [by exists true|exists (kicked s)]. by destruct s. Qed.

(** The tail of [Put] from the charge on; the counter of live extents already
    counts the new one. *)
Definition extent_for (s : st) (al : Allocation) (data : bytes) : Prop :=
  0 < len data ->
    ea_live (alloc s) !! OffsetAlloc.Meta al = Some (OffsetAlloc.Offset al, bytesToUnits (len data)) /\
    unowned s (OffsetAlloc.Meta al) /\
    slice (arena s) (u64 (OffsetAlloc.Offset al <<| AllocUnitShift))
      (u64 (OffsetAlloc.Offset al <<| AllocUnitShift) + len data) = Some data.

Lemma fresh_ref_for (s : st) k data x al :
  len data < 2 ^ 32 -> extent_for s al data ->
  fresh_for s k (freshRef al (len data) (NS k) x) /\ view s (freshRef al (len data) (NS k) x) = Some data /\
  Len (freshRef al (len data) (NS k) x) = len data.
Proof.
  intros Hd Hext. pose proof (len_nonneg data).
  assert (Len (freshRef al (len data) (NS k) x) = len data) as El.
  { cbn. unfold u32. apply Z.mod_small. lia. }
  split_and!; [|unfold view|done].
  - split; rewrite ?El; try done. intros Hpos. by destruct (Hext Hpos) as (? & ? & _).
  - rewrite El. case_if; [|f_equal; symmetry; apply nil_length_inv; unfold len in *; lia].
    apply Hext. lia.
Qed.

(** The end of the publish: counters and the policy's admission. *)
Lemma publish_tail k n idx' (s : st) :
  (forall pl, policy s = Some pl -> pol_wf pl) ->
  exists s' po, (modify (set_index idx');;
    (if n =? 0 then addLive 1 else mret tt);;
    bumpGen;;
    po ← gets policy;
    match po with
    | Some _ => if 0 <? n then t ← now time; polAdmit k n t;; mret StatusOK else mret StatusOK
    | None => mret StatusOK
    end) s = Some (StatusOK, s') /\
  core s' = core (set_policy po (set_liveAllocs (liveAllocs s + (if n =? 0 then 1 else 0)) (set_index idx' s))) /\
  (forall pl, po = Some pl -> pol_wf pl).
Proof.
  intros Hwf. rewrite run_modify.
  assert ((if n =? 0 then addLive 1 else mret tt) (set_index idx' s) =
          Some (tt, set_liveAllocs (liveAllocs s + (if n =? 0 then 1 else 0)) (set_index idx' s))) as E.
  { case_if; [done|]. rewrite Z.add_0_r. by destruct s. }
  rewrite (sm_bind_eq _ _ _ _ _ E), run_bumpGen, run_gets.
  change (policy (set_occGen _ _)) with (policy s).
  destruct (policy s) as [pl|] eqn:Hp; [|exists (set_occGen (occGen s + 1) (set_liveAllocs (liveAllocs s + (if n =? 0 then 1 else 0)) (set_index idx' s))), None; split_and!; [done|unfold core; cbn; by rewrite Hp|done]].
  destruct (0 <? n); [|eexists _, (Some pl); split_and!; [done|unfold core; cbn; by rewrite Hp|done]].
  rewrite run_now. unfold polAdmit, polDo, mbind at 1, sm_mbind. cbn [policy set_tick set_occGen set_liveAllocs set_index].
  rewrite Hp. destruct (pol_Admit_ok pl k n (time (tick s)) (Hwf pl eq_refl)) as (pl' & E' & Hwf').
  cbn [tick set_tick set_occGen set_liveAllocs set_index]. rewrite E'. eexists _, (Some pl'). split_and!; [done|done|].
  by intros ? [= <-].
Qed.

Lemma evolves_publish g (s s' : st) k r :
  Inv g s -> published s s' k r -> evolves s s'.
Proof.
  intros HI [_ [Hh _] (Ea & _) _] q y Hy. rewrite Hh. exists y.
  pose proof (nextRef_free g s HI). rewrite lookup_insert_ne by congruence. split_and!; try done.
  intros Hr. split; [done|]. by apply view_id.
Qed.

Lemma putPublish_spec g (s : st) k data x al :
  Inv g s -> cont s !! k = None -> len data < 2 ^ 32 -> extent_for s al data ->
  (forall ns, msum Len (res s) + len data + owed g ns < 2 ^ 62) ->
  let s1 := if 0 <? len data then set_liveAllocs (liveAllocs s + 1) s else s in
  exists v s', putPublish time k data x al s1 = Some (v, s') /\ Inv g s' /\ evolves s s' /\
    ((v = StatusOK /\ cont s' = <[k := nextRef s]> (cont s) /\
      exists r, heap s' !! nextRef s = Some r /\ view s' r = Some data /\ XXH3 r = x) \/
     (v = StatusErrQuotaBytes /\ cont s' = cont s)).
Proof.
  intros HI Hk Hd Hext Hroom s1. pose proof (len_nonneg data) as Hd0.
  assert (quotas s1 = quotas s /\ alloc s1 = alloc s /\ index_ s1 = index_ s /\ nextRef s1 = nextRef s)
    as (Eq1 & Ea1 & Ei1 & En1) by (unfold s1; by case_if).
  destruct (putCharge_spec g s s1 (NS k) (len data) HI Eq1) as (ok & q' & E & Hok); [lia|].
  unfold putPublish. rewrite (sm_bind_eq _ _ _ _ _ E). set (s2 := set_quotas q' s1). destruct ok; cbn [negb].
  2:{ destruct Hok as [Hpos Hq]. destruct (Hext Hpos) as (Hm & Hun & _).
      assert (Inv g (set_quotas q' s)) as HIq by (by eapply Inv_quotas).
      destruct (allocFree_spec g (set_quotas q' s) s2 al _ HIq Ea1 Hm Hun) as (a' & E2 & HI2).
      rewrite (sm_bind_eq _ _ _ _ _ E2), run_addLive.
      edestruct (kick_frame (set_liveAllocs (liveAllocs (set_alloc a' s2) + -1) (set_alloc a' s2))) as [b E3].
      rewrite (sm_bind_eq _ _ _ _ _ E3). eexists _, _. split; [done|].
      unfold s2, s1. replace (0 <? len data) with true by lia.
      split; [|split; [by apply evolves_frame|by right]].
      eapply Inv_frame; [|exact HI2]. unfold core. cbn. f_equal. lia. }
  destruct (fresh_ref_for s k data x al Hd Hext) as (Hff & Hv & Hlen).
  set (r := freshRef _ _ _ _) in *.
  rewrite run_fun. unfold newRef. rewrite run_gets. cbn [index_ set_nextRef set_heap].
  change (index_ s2) with (index_ s1). change (nextRef s2) with (nextRef s1). rewrite Ei1, En1.
  pose proof (Put_spec (index_ s) k (nextRef s) (u32 (len data)) (iv_idx g s HI)) as HP.
  change (contents (index_ s)) with (cont s) in HP. rewrite Hk in HP.
  destruct HP as (idx' & -> & Hiok & Hic & Hbl & Hby). cbn [negb].
  edestruct (publish_tail k (len data) idx') as (s' & po & -> & Hcore & Hwf).
  { intros pl Hpl. apply (iv_policy g s HI). rewrite <- Hpl. unfold s2, s1. cbn. by case_if. }
  exists StatusOK, s'. split; [done|].
  assert (published s s' k r) as Hpub.
  { unfold core in Hcore. cbn in Hcore. injection Hcore as Ha Hcl Ei Hh Hn Hlf Hal Eq _ Hlv.
    split; rewrite ?Ha, ?Hcl, ?Hh, ?Hn, ?Hlf, ?Hal, ?Hlv; unfold s1; cbn.
    - rewrite Ei. cbn in Hlen. rewrite Hlen in Hby |- *. split_and!; try done. unfold cont. by rewrite Ei.
    - by case_if.
    - by case_if.
    - case_if; cbn; case_if; lia. }
  split_and!; [|by eapply evolves_publish|left; split_and!; [done|apply Hpub|]].
  - unfold core in Hcore. injection Hcore as _ _ _ _ _ _ _ Eq Epo _.
    eapply (Inv_publish g s s' k r); try done; [by rewrite Hlen| |by rewrite Epo]. rewrite Eq. destruct q' as [q|]; [|done].
    unfold nsBytes. cbn in Hlen. cbn [NamespaceID Len r freshRef]. rewrite Hlen. done.
  - exists r. destruct Hpub as [_ [-> _] (Ea & _) _]. rewrite lookup_insert_eq. split_and!; try done.
    rewrite <- Hv. by apply view_id.
Qed.

Lemma reclaims_bytes em g (s s' : st) :
  Inv g s -> reclaims time em s s' -> msum Len (res s') <= msum Len (res s).
Proof.
  intros HI HR. apply msum_mono; [|intros k r; by apply (len_nonneg_res g s)].
  rewrite (reclaims_res time em s s' HR). apply map_subseteq_spec. intros k r. unfold res. rewrite !lookup_omap.
  destruct (cont s' !! k) as [p|] eqn:Hk; [|done]. cbn.
  by rewrite (lookup_weaken _ _ _ _ Hk (rc_sub _ _ _ _ HR)).
Qed.

(** [Put]: write-once. A resident key answers from its digest and changes
    nothing; a new key is stored, or refused for want of room. In between at
    most one eviction pass ran. *)
Lemma StorePut_spec g (s : st) ns key data x :
  Inv g s -> len data < 2 ^ 32 -> (forall ns', msum Len (res s) + len data + owed g ns' < 2 ^ 62) ->
  exists v s', Put time ns key data x s = Some (v, s') /\ Inv g s' /\ evolves s s' /\
    match res s !! mkKey ns key with
    | Some r => v = putExistsStatus r x /\ s' = s
    | None => exists s1, Inv g s1 /\ evolves s1 s' /\ reclaims time true s s1 /\ (evict s = None -> cont s1 = cont s) /\
        ((v = StatusOK /\ cont s' = <[mkKey ns key := nextRef s]> (cont s1) /\
          exists r, heap s' !! nextRef s = Some r /\ view s' r = Some data /\ XXH3 r = x) \/
         (v = StatusErrQuotaBytes /\ cont s' = cont s1))
    end.
Proof.
  intros HI Hd Hroom. set (k := mkKey ns key). unfold Put. fold k.
  rewrite run_gets, (Get_contents _ _ (iv_idx g s HI)). fold (cont s).
  destruct (cont s !! k) as [p|] eqn:Hk.
  { destruct (iv_res g s HI k p Hk) as (r & Hp & _). rewrite (proj2 (res_lookup s k r)) by eauto.
    rewrite (run_deref p _ s r Hp). eexists _, s. by split_and!. }
  assert (res s !! k = None) as -> by (unfold res; by rewrite lookup_omap, Hk).
  destruct (0 <? len data) eqn:Ed.
  2:{ destruct (putPublish_spec g s k data x (mkAllocation 0 0) HI Hk Hd) as (v & s' & E & HI' & Hev & Hv);
        [intros ?; lia|done|].
      rewrite Ed in E. exists v, s'. split_and!; try done. exists s. split_and!; done. }
  destruct (units_spec (len data)) as [Hu Hu']; [lia|].
  destruct (putAlloc_spec g s (bytesToUnits (len data)) HI Hu) as (al & ok & s1 & E & HI1 & HR & Hne & Hok).
  rewrite (sm_bind_eq _ _ _ _ _ E). destruct ok; cbn [negb].
  2:{ destruct (kick_frame s1) as [b Ek]. rewrite (sm_bind_eq _ _ _ _ _ Ek). eexists _, _. split; [done|].
      assert (evolves s1 (set_kicked b s1)) as Hev1 by (by apply evolves_frame).
      split; [by eapply Inv_frame; [|exact HI1]|]. split; [etrans; [apply HR|done]|].
      exists s1. split_and!; try done. by right. }
  destruct (Hok eq_refl) as [Hm Hun]. rewrite run_addLive.
  destruct (write_spec g s1 _ _ _ data HI1 Hm Hun) as (b & Ew & HI2 & Hsl & Hev2); [lia..|].
  assert (arenaWrite (u64 (OffsetAlloc.Offset al <<| AllocUnitShift)) (u32 (len data)) data
            (set_liveAllocs (liveAllocs s1 + 1) s1) =
          Some (tt, set_liveAllocs (liveAllocs s1 + 1) (set_arena b s1))) as Ew'.
  { unfold arenaWrite in *. cbn. destruct (closed s1); [done|]. case_if; [done|].
    destruct (copy_at _ _ _); [|done]. cbn in *. injection Ew as <-. done. }
  rewrite (sm_bind_eq _ _ _ _ _ Ew').
  destruct (putPublish_spec g (set_arena b s1) k data x al HI2) as (v & s' & E' & HI' & Hev & Hv); [|done|..].
  - change (cont (set_arena b s1)) with (cont s1). eapply lookup_weaken_None; [exact Hk|apply HR].
  - intros _. done.
  - intros n. pose proof (Hroom n). pose proof (reclaims_bytes true g s s1 HI HR).
    change (res (set_arena b s1)) with (res s1). lia.
  - rewrite Ed in E'. exists v, s'. split; [done|]. split; [done|].
    assert (evolves s1 s') as Hev1 by (by etrans).
    split; [etrans; [apply HR|done]|]. exists s1. split_and!; try done.
    change (cont (set_arena b s1)) with (cont s1) in Hv. change (nextRef (set_arena b s1)) with (nextRef s1) in Hv.
    destruct (rc_arena _ _ _ _ HR) as (_ & _ & En & _). rewrite En in Hv. done.
Qed.

(** Publishing one key leaves the others. *)
Lemma absm_published g (s1 s' : st) k p k' v :
  Inv g s1 -> Inv g s' -> evolves s1 s' -> cont s' = <[k := p]> (cont s1) -> k <> k' ->
  absm s' !! k' = Some v -> absm s1 !! k' = Some v.
Proof.
  intros HI1 HI' Hev Hc Hne Hv. rewrite (absm_lookup g s' k' HI'), Hc, lookup_insert_ne in Hv by done.
  destruct (cont s1 !! k') as [q|] eqn:Hq; [|done].
  destruct (iv_res g s1 HI1 k' q Hq) as (r & Hr & _). destruct (Hev q r Hr) as (r' & Hr' & Hid & Hsame).
  assert (cont s' !! k' = Some q) as Hq' by (by rewrite Hc, lookup_insert_ne).
  destruct (absm_some g s' k' q r' HI' Hq' Hr') as (b & Hb & _ & _ & Hpos).
  destruct (Hsame Hpos) as [_ Hvv]. rewrite (absm_lookup g s1 k' HI1), Hq. cbn in *. rewrite Hr' in Hv. cbn in Hv.
  rewrite Hr. cbn. rewrite Hb in Hv. rewrite <- Hvv, Hb. cbn in *. rewrite <- Hv.
  by destruct Hid as (_ & _ & _ & -> & _).
Qed.

End Spec.
End DramSpec.
