(* ===== verification/S3Fifo.v ===== *)
(** The default eviction policy: [internal/eviction/s3fifo.go].

    Entries live in a heap of each tenant's domain, addressed by positive
    integers with 0 for [nil]; the two FIFOs are threaded through the entries'
    link fields, the table maps keys to entries. A method that takes the two
    locks of a domain one after the other is the composition of its two locked
    sections ([publish] then [enqueue], [takeOut] then [drop]), so that the
    sections can also be interleaved. [None] is a panic (a [nil] dereference or
    an index out of range). Byte counters and entry counts are unbounded
    integers. *)

From Stdlib Require Import ZArith Lia.
From coqutil Require Import Byte LittleEndianList.
From stdpp Require Import base numbers list gmap sets.
From S2P Require Import Prelude.
From S2P Require Import Eviction.
Import Eviction Ghost.
Open Scope Z_scope.
Open Scope go_scope.

(** Go's iteration order over a map keyed by namespace. *)
Class MapOrder := {
  nsOrder : list Z -> list Z;
  nsOrder_perm : forall l, nsOrder l ≡ₚ l
}.

Module S3.

Definition tableShards : Z := 16.
Definition golden : Z := 0x9E3779B97F4A7C15.

Definition qUnqueued : Z := 0.
Definition qSmall : Z := 1.
Definition qMain : Z := 2.
Definition qDead : Z := 3.

Record entry := mkEntry {
  e_key : Key;
  e_size : Z;
  e_prev : Z;
  e_next : Z;
  e_where : Z;
  e_freq : Z
}.

Definition set_prev v e := mkEntry (e_key e) (e_size e) v (e_next e) (e_where e) (e_freq e).
Definition set_next v e := mkEntry (e_key e) (e_size e) (e_prev e) v (e_where e) (e_freq e).
Definition set_links v w e := mkEntry (e_key e) (e_size e) v w (e_where e) (e_freq e).
Definition set_where v e := mkEntry (e_key e) (e_size e) (e_prev e) (e_next e) v (e_freq e).
Definition set_freq v e := mkEntry (e_key e) (e_size e) (e_prev e) (e_next e) (e_where e) v.

(** ** The intrusive FIFO *)

Record fifoQ := mkFifoQ { q_head : Z; q_tail : Z; q_count : Z }.

Abbreviation ptrs := (gmap Z entry).

(** [e.f = v] through a pointer. *)
Definition upd (h : ptrs) (p : Z) (f : entry -> entry) : option ptrs := e ← h !! p; Some (<[p := f e]> h).

Definition pushTail (h : ptrs) (q : fifoQ) (e : Z) : option (ptrs * fifoQ) :=
  h ← upd h e (set_links (q_tail q) 0);
  if negb (q_tail q =? 0) then
    h ← upd h (q_tail q) (set_next e);
    Some (h, mkFifoQ (q_head q) e (q_count q + 1))
  else Some (h, mkFifoQ e e (q_count q + 1)).

Definition popHead (h : ptrs) (q : fifoQ) : option (Z * ptrs * fifoQ) :=
  let e := q_head q in
  x ← h !! e;
  let hd := e_next x in
  '(h, tl) ← (if negb (hd =? 0) then h ← upd h hd (set_prev 0); Some (h, q_tail q) else Some (h, 0));
  h ← upd h e (set_links 0 0);
  Some (e, h, mkFifoQ hd tl (q_count q - 1)).

Definition unlink (h : ptrs) (q : fifoQ) (e : Z) : option (ptrs * fifoQ) :=
  x ← h !! e;
  '(h, hd) ← (if negb (e_prev x =? 0) then h ← upd h (e_prev x) (set_next (e_next x)); Some (h, q_head q)
              else Some (h, e_next x));
  x ← h !! e;
  '(h, tl) ← (if negb (e_next x =? 0) then h ← upd h (e_next x) (set_prev (e_prev x)); Some (h, q_tail q)
              else Some (h, e_prev x));
  h ← upd h e (set_links 0 0);
  Some (h, mkFifoQ hd tl (q_count q - 1)).

(** ** A tenant's domain *)

Record s3Domain := mkDomain {
  table : list (gmap Key Z);
  ents : ptrs;
  nextEnt : Z;
  small : fifoQ;
  main : fifoQ;
  smallBytes : Z;
  mainBytes : Z;
  mainCount : Z;
  mainHi : Z;
  lastDecay : Z;
  ghost : ghostRing
}.

Definition set_table v d := mkDomain v (ents d) (nextEnt d) (small d) (main d) (smallBytes d)
  (mainBytes d) (mainCount d) (mainHi d) (lastDecay d) (ghost d).
Definition set_ents v d := mkDomain (table d) v (nextEnt d) (small d) (main d) (smallBytes d)
  (mainBytes d) (mainCount d) (mainHi d) (lastDecay d) (ghost d).
Definition set_nextEnt v d := mkDomain (table d) (ents d) v (small d) (main d) (smallBytes d)
  (mainBytes d) (mainCount d) (mainHi d) (lastDecay d) (ghost d).
Definition set_small q b d := mkDomain (table d) (ents d) (nextEnt d) q (main d) b
  (mainBytes d) (mainCount d) (mainHi d) (lastDecay d) (ghost d).
Definition set_main q b c d := mkDomain (table d) (ents d) (nextEnt d) (small d) q (smallBytes d)
  b c (mainHi d) (lastDecay d) (ghost d).
Definition set_mainHi v d := mkDomain (table d) (ents d) (nextEnt d) (small d) (main d) (smallBytes d)
  (mainBytes d) (mainCount d) v (lastDecay d) (ghost d).
Definition set_lastDecay v d := mkDomain (table d) (ents d) (nextEnt d) (small d) (main d) (smallBytes d)
  (mainBytes d) (mainCount d) (mainHi d) v (ghost d).
Definition set_ghost v d := mkDomain (table d) (ents d) (nextEnt d) (small d) (main d) (smallBytes d)
  (mainBytes d) (mainCount d) (mainHi d) (lastDecay d) v.

Definition newDomain : s3Domain :=
  mkDomain (replicate (Z.to_nat tableShards) ∅) ∅ 1 (mkFifoQ 0 0 0) (mkFifoQ 0 0 0) 0 0 0 0 0 emptyGhost.

Record S3FIFO := mkS3FIFO { seed : Z; ghostMax : Z; domains : gmap Z s3Domain }.

(** [NewS3FIFO]; the seed is a random draw. *)
Definition NewS3FIFO (rnd gmax : Z) : S3FIFO := mkS3FIFO rnd gmax ∅.

Definition set_domain (ns : Z) (d : s3Domain) (p : S3FIFO) : S3FIFO :=
  mkS3FIFO (seed p) (ghostMax p) (<[ns := d]> (domains p)).

(** Keys hold 32 hash bytes. *)
Definition hashWord (k : Key) (i : nat) : Z := le_combine (take 8 (drop i (Hash k))).

Definition fingerprint (sd : Z) (k : Key) : Z :=
  Z.lxor (Z.lxor (hashWord k 0) sd) (u64 (NS k * golden)).

Definition shardIdx (sd : Z) (k : Key) : Z :=
  Z.shiftr (u64 (Z.lxor (hashWord k 8) sd * golden)) 60.

(** [d.table[p.shardIdx(k)].m[k]] and the two writes to it. *)
Definition tget (sd : Z) (d : s3Domain) (k : Key) : option Z :=
  (table d !!! Z.to_nat (shardIdx sd k)) !! k.
Definition tset (sd : Z) (d : s3Domain) (k : Key) (f : gmap Key Z -> gmap Key Z) : s3Domain :=
  let i := Z.to_nat (shardIdx sd k) in set_table (<[i := f (table d !!! i)]> (table d)) d.

Definition ensureDomain (p : S3FIFO) (ns : Z) : s3Domain := default newDomain (domains p !! ns).

(** ** Ghost sizing *)

(** [for c < want { c <<= 1 }]. *)
Fixpoint ladder (fuel : nat) (c want : Z) : Z :=
  match fuel with
  | O => c
  | S fuel => if c <? want then ladder fuel (c <<| 1) want else c
  end.
Definition ladderTo (want : Z) : Z := ladder (Z.to_nat (Z.log2_up want)) ghostFloor want.

Definition maybeGrowGhost (gmax : Z) (d : s3Domain) : option s3Domain :=
  if gmax <=? 0 then Some d else
  let want := if gmax <? mainHi d then gmax else mainHi d in
  if want <=? capacity (ghost d) then Some d else
  let c := ladderTo want in
  let c := if gmax <? c then gmax else c in
  g ← grow (ghost d) c;
  Some (set_ghost g d).

Definition ghostDecayEpoch : Z := 60000000000.

Definition maybeDecay (gmax : Z) (d : s3Domain) (now : Z) : option s3Domain :=
  if now =? 0 then Some d else
  if lastDecay d =? 0 then Some (set_lastDecay now d) else
  if now - lastDecay d <? ghostDecayEpoch then Some d else
  let d := set_lastDecay now d in
  let d := if mainCount d <? mainHi d then set_mainHi (mainHi d - Z.quot (mainHi d - mainCount d) 2) d else d in
  let want := ladderTo (mainHi d) in
  let want := if (0 <? gmax) && (gmax <? want) then gmax else want in
  g ← shrink (ghost d) want;
  Some (set_ghost g d).

(** ** Touch *)

Definition touchDomain (sd : Z) (d : s3Domain) (k : Key) : option s3Domain :=
  match tget sd d k with
  | None => Some d
  | Some e =>
      x ← ents d !! e;
      if e_freq x <? 3 then Some (set_ents (<[e := set_freq (e_freq x + 1) x]> (ents d)) d) else Some d
  end.

Definition Touch (p : S3FIFO) (k : Key) (_ : Z) : option S3FIFO :=
  match domains p !! NS k with
  | None => Some p
  | Some d => d ← touchDomain (seed p) d k; Some (set_domain (NS k) d p)
  end.

(** ** Admit *)

(** Under the table shard's lock: the new entry is in the table, unqueued. *)
Definition publish (sd : Z) (d : s3Domain) (k : Key) (size : Z) : s3Domain * option Z :=
  match tget sd d k with
  | Some _ => (d, None)
  | None =>
      let e := nextEnt d in
      (tset sd (set_nextEnt (e + 1) (set_ents (<[e := mkEntry k size 0 0 qUnqueued 0]> (ents d)) d)) k
         (insert k e), Some e)
  end.

(** [d.mainCount++] and the high-watermark. *)
Definition intoMain (gmax : Z) (d : s3Domain) (e size : Z) : option s3Domain :=
  h ← upd (ents d) e (set_where qMain);
  '(h, q) ← pushTail h (main d) e;
  let d := set_main q (mainBytes d + size) (mainCount d + 1) (set_ents h d) in
  if mainHi d <? mainCount d then maybeGrowGhost gmax (set_mainHi (mainCount d) d) else Some d.

(** Under the domain's queue lock. *)
Definition enqueue (sd gmax : Z) (d : s3Domain) (e now : Z) : option s3Domain :=
  d ← maybeDecay gmax d now;
  x ← ents d !! e;
  if e_where x =? qDead then Some d else
  if contains (ghost d) (fingerprint sd (e_key x)) then intoMain gmax d e (e_size x)
  else
    h ← upd (ents d) e (set_where qSmall);
    '(h, q) ← pushTail h (small d) e;
    Some (set_small q (smallBytes d + e_size x) (set_ents h d)).

Definition admitDomain (sd gmax : Z) (d : s3Domain) (k : Key) (size now : Z) : option s3Domain :=
  let (d, o) := publish sd d k size in
  match o with
  | None => Some d
  | Some e => enqueue sd gmax d e now
  end.

Definition Admit (p : S3FIFO) (k : Key) (size now : Z) : option S3FIFO :=
  if size <=? 0 then Some p else
  d ← admitDomain (seed p) (ghostMax p) (ensureDomain p (NS k)) k size now;
  Some (set_domain (NS k) d p).

(** ** Remove *)

(** Under the table shard's lock. *)
Definition takeOut (sd : Z) (d : s3Domain) (k : Key) : s3Domain * option Z :=
  (tset sd d k (delete k), tget sd d k).

(** Under the domain's queue lock. *)
Definition drop_ (d : s3Domain) (e : Z) : option s3Domain :=
  x ← ents d !! e;
  d ← (if e_where x =? qSmall then
         '(h, q) ← unlink (ents d) (small d) e;
         Some (set_small q (smallBytes d - e_size x) (set_ents h d))
       else if e_where x =? qMain then
         '(h, q) ← unlink (ents d) (main d) e;
         Some (set_main q (mainBytes d - e_size x) (mainCount d - 1) (set_ents h d))
       else Some d);
  h ← upd (ents d) e (set_where qDead);
  Some (set_ents h d).

Definition removeDomain (sd : Z) (d : s3Domain) (k : Key) : option s3Domain :=
  let (d, o) := takeOut sd d k in
  match o with
  | None => Some d
  | Some e => drop_ d e
  end.

Definition Remove (p : S3FIFO) (k : Key) : option S3FIFO :=
  match domains p !! NS k with
  | None => Some p
  | Some d => d ← removeDomain (seed p) d k; Some (set_domain (NS k) d p)
  end.

(** ** Victims *)

Definition expel (sd : Z) (d : s3Domain) (e : Z) (dst : list Candidate) : option (s3Domain * list Candidate) :=
  x ← ents d !! e;
  let d := set_ents (<[e := set_where qDead x]> (ents d)) d in
  Some (tset sd d (e_key x) (delete (e_key x)), dst ++ [mkCandidate (e_key x) (e_size x)]).

(** One visit of the scan; [None] inside: both queues are empty. *)
Definition visit (sd gmax : Z) (d : s3Domain) (dst : list Candidate) (got : Z)
    : option (option (s3Domain * list Candidate * Z)) :=
  let fromSmall := Z.quot (smallBytes d + mainBytes d) 10 <? smallBytes d in
  if (q_count (small d) =? 0) && (q_count (main d) =? 0) then Some None else
  let fromSmall := if fromSmall && (q_count (small d) =? 0) then false else fromSmall in
  let fromSmall := if negb fromSmall && (q_count (main d) =? 0) then true else fromSmall in
  if fromSmall then
    '(e, h, q) ← popHead (ents d) (small d);
    x ← h !! e;
    let d := set_small q (smallBytes d - e_size x) (set_ents h d) in
    if 1 <? e_freq x then
      d ← intoMain gmax d e (e_size x);
      Some (Some (d, dst, got))
    else
      g ← push (ghost d) (fingerprint sd (e_key x));
      '(d, dst) ← expel sd (set_ghost g d) e dst;
      Some (Some (d, dst, got + e_size x))
  else
    '(e, h, q) ← popHead (ents d) (main d);
    x ← h !! e;
    if 0 <? e_freq x then
      h ← upd h e (set_freq (e_freq x - 1));
      '(h, q) ← pushTail h q e;
      Some (Some (set_main q (mainBytes d) (mainCount d) (set_ents h d), dst, got))
    else
      '(d, dst) ← expel sd (set_main q (mainBytes d - e_size x) (mainCount d - 1) (set_ents h d)) e dst;
      Some (Some (d, dst, got + e_size x)).

(** The scan: [budget] visits at most. Between two visits the lock may be
    released and retaken, which has no effect on a scan that runs alone. *)
Fixpoint scan (budget : nat) (sd gmax : Z) (d : s3Domain) (need : Z) (dst : list Candidate) (got : Z)
    : option (s3Domain * list Candidate) :=
  match budget with
  | O => Some (d, dst)
  | S budget =>
      if got <? need then
        r ← visit sd gmax d dst got;
        match r with
        | None => Some (d, dst)
        | Some (d, dst, got) => scan budget sd gmax d need dst got
        end
      else Some (d, dst)
  end.

Definition victimsDomain (sd gmax : Z) (d : s3Domain) (need now : Z) : option (s3Domain * list Candidate) :=
  d ← maybeDecay gmax d now;
  scan (Z.to_nat (6 * (q_count (small d) + q_count (main d)) + 8)) sd gmax d need [] 0.

Definition Victims (p : S3FIFO) (ns need now : Z) : option (S3FIFO * list Candidate) :=
  match domains p !! ns with
  | None => Some (p, [])
  | Some d =>
      if need <=? 0 then Some (p, []) else
      '(d, dst) ← victimsDomain (seed p) (ghostMax p) d need now;
      Some (set_domain ns d p, dst)
  end.

(** ** Usage, DropDomain *)

Section Usage.
Context `{!MapOrder}.

Fixpoint usageOf (p : S3FIFO) (nss : list Z) (now : Z) (dst : list DomainUsage)
    : option (S3FIFO * list DomainUsage) :=
  match nss with
  | [] => Some (p, dst)
  | ns :: nss =>
      match domains p !! ns with
      | None => usageOf p nss now dst
      | Some d =>
          d ← maybeDecay (ghostMax p) d now;
          let b := smallBytes d + mainBytes d in
          let gb := ghostBytes (ghost d) in
          usageOf (set_domain ns d p) nss now
            (if (0 <? b) || (0 <? gb) then dst ++ [mkDomainUsage ns b gb] else dst)
      end
  end.

Definition Usage (p : S3FIFO) (now : Z) : option (S3FIFO * list DomainUsage) :=
  usageOf p (nsOrder (fst <$> map_to_list (domains p))) now [].

End Usage.

Definition DropDomain (p : S3FIFO) (ns : Z) : S3FIFO := mkS3FIFO (seed p) (ghostMax p) (delete ns (domains p)).

Definition ghostStats (p : S3FIFO) (ns : Z) : Z * Z :=
  match domains p !! ns with
  | None => (0, 0)
  | Some d => (size (ghost d), capacity (ghost d))
  end.

#[export] Instance s3fifo_policy `{!MapOrder} : Policy S3FIFO := {
  pol_Admit := Admit;
  pol_Touch := Touch;
  pol_Remove := Remove;
  pol_Victims := Victims;
  pol_Usage := Usage;
  pol_DropDomain := fun p ns => Some (DropDomain p ns)
}.

End S3.
