(* ===== verification/S3FifoInv.v ===== *)
(** The queues of [S3Fifo]: the intrusive FIFO refines a list, and every locked
    section of a domain keeps the domain's invariant. *)

From Stdlib Require Import ZArith Lia.
From coqutil Require Import Byte.
From stdpp Require Import base numbers list gmap sets.
From S2P Require Import Prelude.
From S2P Require Import Dll.
From S2P Require Import Eviction.
From S2P Require Import S3Fifo.
Import Dll Eviction Ghost GhostFacts S3.
Open Scope Z_scope.

Module S3Inv.

(** ** The FIFO as a list *)

Definition prevOf (h : ptrs) (p : Z) : Z := default 0 (e_prev <$> h !! p).
Definition nextOf (h : ptrs) (p : Z) : Z := default 0 (e_next <$> h !! p).

Record isq (h : ptrs) (q : fifoQ) (l : list Z) : Prop := mkIsq {
  iq_seg : dseg (prevOf h) (nextOf h) 0 l 0;
  iq_head : q_head q = hd_ 0 l;
  iq_tail : q_tail q = lst 0 l;
  iq_count : q_count q = len l;
  iq_mem : forall p, p ∈ l -> is_Some (h !! p) /\ p <> 0;
  iq_nd : NoDup l
}.

(** An entry up to its links. *)
Definition body (e : entry) : Key * Z * Z * Z := (e_key e, e_size e, e_where e, e_freq e).

(** [h'] differs from [h] only in the links of entries in [l]. *)
Definition relinked (l : list Z) (h h' : ptrs) : Prop :=
  (forall z, body <$> h' !! z = body <$> h !! z) /\ (forall z, z ∉ l -> h' !! z = h !! z).

Lemma relinked_trans l h1 h2 h3 : relinked l h1 h2 -> relinked l h2 h3 -> relinked l h1 h3.
Proof. intros [A B] [C D]. split; intros; [by rewrite C|by rewrite D, B]. Qed.

Lemma relinked_some l h h' z : relinked l h h' -> is_Some (h' !! z) <-> is_Some (h !! z).
Proof. intros [A _]. rewrite <- (fmap_is_Some body (h' !! z)), <- (fmap_is_Some body (h !! z)), A. done. Qed.

Lemma isq_ext h h' q l : (forall p, p ∈ l -> h' !! p = h !! p) -> isq h q l -> isq h' q l.
Proof.
  intros He []. split; try done.
  - eapply dseg_ext; [|done]. intros x Hx. unfold prevOf, nextOf. by rewrite He.
  - intros p Hp. rewrite He by done. auto.
Qed.

(** Writing one link field. *)
Lemma upd_spec h p f : is_Some (h !! p) -> (forall e, body (f e) = body e) ->
  exists e, h !! p = Some e /\ upd h p f = Some (<[p := f e]> h) /\ relinked [p] h (<[p := f e]> h).
Proof.
  intros [e He] Hf. exists e. unfold upd. rewrite He. split_and!; try done. split.
  - intros z. destruct (decide (p = z)) as [<-|]; [rewrite lookup_insert_eq, He; cbn; by rewrite Hf|by rewrite lookup_insert_ne].
  - intros z Hz. rewrite lookup_insert_ne; [done|]. set_solver.
Qed.

Lemma prevOf_insert h p e z : prevOf (<[p := e]> h) z = if decide (p = z) then e_prev e else prevOf h z.
Proof. unfold prevOf. case_decide as E; [subst; by rewrite lookup_insert_eq|by rewrite lookup_insert_ne]. Qed.

Lemma nextOf_insert h p e z : nextOf (<[p := e]> h) z = if decide (p = z) then e_next e else nextOf h z.
Proof. unfold nextOf. case_decide as E; [subst; by rewrite lookup_insert_eq|by rewrite lookup_insert_ne]. Qed.

Lemma prevOf_some h p e : h !! p = Some e -> prevOf h p = e_prev e.
Proof. intros E. unfold prevOf. by rewrite E. Qed.

Lemma nextOf_some h p e : h !! p = Some e -> nextOf h p = e_next e.
Proof. intros E. unfold nextOf. by rewrite E. Qed.

Lemma relinked_weaken l l' h h' : l ⊆ l' -> relinked l h h' -> relinked l' h h'.
Proof. intros Hs [A B]. split; [done|]. set_solver. Qed.

Lemma lst_in p l : l <> [] -> lst p l ∈ l.
Proof. intros Hl. unfold lst. destruct (last l) as [x|] eqn:E; [|by apply last_None in E]. cbn. by eapply last_Some_elem_of. Qed.

Lemma lst_last p l x : last l = Some x -> lst p l = x.
Proof. intros E. unfold lst. by rewrite E. Qed.

(** Append. *)
Lemma dll_snoc prv nxt prv' nxt' l x :
  NoDup l -> x ∉ l -> dseg prv nxt 0 l 0 -> prv' x = lst 0 l -> nxt' x = 0 ->
  (forall y, last l = Some y -> nxt' y = x) ->
  (forall y, y ∈ l -> last l <> Some y -> nxt' y = nxt y) ->
  (forall y, y ∈ l -> prv' y = prv y) ->
  dseg prv' nxt' 0 (l ++ [x]) 0.
Proof.
  intros Hnd Hx Hd Hp Hn Hl Hn2 Hp2. apply dseg_app. split; [|done].
  by eapply (dseg_releave prv nxt).
Qed.

Lemma pushTail_spec h q l p :
  isq h q l -> is_Some (h !! p) -> p <> 0 -> p ∉ l ->
  exists h' q', pushTail h q p = Some (h', q') /\ isq h' q' (l ++ [p]) /\ relinked (p :: l) h h'.
Proof.
  intros [Hs Hh Ht Hc Hm Hnd] Hp Hp0 Hpl. unfold pushTail.
  destruct (upd_spec h p (set_links (q_tail q) 0) Hp) as (e & He & -> & R1); [done|]. cbn [mbind option_bind].
  set (h1 := <[p := _]> h) in *. destruct (decide (l = [])) as [->|Hne].
  { cbn in Ht. rewrite Ht. cbn. eexists _, _. split; [done|]. split; [|by eapply relinked_weaken; [|done]].
    split; cbn; try done.
    - unfold h1. rewrite prevOf_insert, nextOf_insert, !decide_True by done. by split.
    - rewrite Hc. done.
    - intros z ->%list_elem_of_singleton. unfold h1. rewrite lookup_insert_eq. split; [by eexists|done].
    - apply NoDup_singleton. }
  pose proof (lst_in 0 l Hne) as Hin. destruct (Hm _ Hin) as [Hsome Hn0].
  rewrite Ht. replace (lst 0 l =? 0) with false by lia. cbn [negb].
  assert (p <> lst 0 l) as Hpn by (intros ->; done).
  destruct (upd_spec h1 (lst 0 l) (set_next p)) as (e2 & He2 & -> & R2).
  { unfold h1. by rewrite lookup_insert_ne. } { done. }
  cbn [mbind option_bind]. set (h2 := <[lst 0 l := _]> h1) in *.
  assert (relinked (p :: l) h h2) as R.
  { eapply relinked_trans; (eapply relinked_weaken; [|done]); set_solver. }
  eexists _, _. split; [done|]. split; [|done].
  split; cbn [q_head q_tail q_count].
  - eapply (dll_snoc (prevOf h) (nextOf h)); try done; unfold h2, h1.
    + rewrite prevOf_insert, decide_False by done. rewrite prevOf_insert, decide_True by done. by rewrite Ht.
    + rewrite nextOf_insert, decide_False by done. rewrite nextOf_insert, decide_True by done. done.
    + intros y Hy. rewrite (lst_last 0 l y Hy), nextOf_insert, decide_True by done. done.
    + intros y Hy Hly. rewrite nextOf_insert, decide_False; [rewrite nextOf_insert, decide_False; [done|set_solver]|].
      intros E. apply Hly. unfold lst in E. destruct (last l) eqn:El; [by rewrite <- E|by apply last_None in El].
    + intros y Hy. unfold h1 in He2. rewrite lookup_insert_ne in He2 by done. rewrite prevOf_insert.
      case_decide as Ey; [subst y; cbn; symmetry; by apply prevOf_some|].
      rewrite prevOf_insert, decide_False; [done|set_solver].
  - rewrite Hh. by destruct l.
  - by rewrite lst_snoc.
  - rewrite Hc, len_app. done.
  - intros z Hz. rewrite (relinked_some _ _ _ _ R). apply elem_of_app in Hz as [Hz|Hz]; [auto|].
    apply list_elem_of_singleton in Hz as ->. done.
  - apply NoDup_app. split_and!; [done| |apply NoDup_singleton]. set_solver.
Qed.

(** The write through the successor: only its back link changes. *)
Lemma fixPrev h (l : list Z) v (tl alt : Z) :
  (forall p, p ∈ l -> is_Some (h !! p) /\ p <> 0) ->
  exists h', (if negb (hd_ 0 l =? 0) then h ← upd h (hd_ 0 l) (set_prev v); Some (h, tl) else Some (h, alt))
               = Some (h', match l with [] => alt | _ => tl end) /\
    relinked l h h' /\ (forall y, nextOf h' y = nextOf h y) /\
    (forall y, prevOf h' y = if decide (hd_error l = Some y) then v else prevOf h y).
Proof.
  intros Hm. destruct l as [|x l].
  - exists h. cbn. split_and!; done.
  - destruct (Hm x) as [Hs Hn]; [by left|]. cbn [hd_]. replace (x =? 0) with false by lia. cbn [negb].
    destruct (upd_spec h x (set_prev v) Hs) as (e & He & -> & R); [done|]. eexists. split; [done|].
    split; [eapply relinked_weaken; [|done]; set_solver|]. split; intros y.
    + rewrite nextOf_insert. case_decide; [subst; cbn; symmetry; by apply nextOf_some|done].
    + rewrite prevOf_insert. repeat case_decide; naive_solver.
Qed.

(** The write through the predecessor. *)
Lemma fixNext h (l : list Z) v (hd alt : Z) :
  (forall p, p ∈ l -> is_Some (h !! p) /\ p <> 0) ->
  exists h', (if negb (lst 0 l =? 0) then h ← upd h (lst 0 l) (set_next v); Some (h, hd) else Some (h, alt))
               = Some (h', match l with [] => alt | _ => hd end) /\
    relinked l h h' /\ (forall y, prevOf h' y = prevOf h y) /\
    (forall y, nextOf h' y = if decide (last l = Some y) then v else nextOf h y).
Proof.
  intros Hm. destruct (decide (l = [])) as [->|Hne].
  - exists h. cbn. split_and!; done.
  - pose proof (lst_in 0 l Hne) as Hin. destruct (Hm _ Hin) as [Hs Hn].
    replace (lst 0 l =? 0) with false by lia. cbn [negb].
    destruct (upd_spec h (lst 0 l) (set_next v) Hs) as (e & He & -> & R); [done|].
    eexists. split; [by destruct l|]. split; [eapply relinked_weaken; [|done]; set_solver|]. split; intros y.
    + rewrite prevOf_insert. case_decide; [subst; cbn; symmetry; by apply prevOf_some|done].
    + rewrite nextOf_insert. unfold lst.
      destruct (last l) as [z|] eqn:El; [|by apply last_None in El]. cbn. repeat case_decide; naive_solver.
Qed.

(** Clearing the links of an entry that left the list. *)
Lemma clear_links h p : is_Some (h !! p) ->
  exists h', upd h p (set_links 0 0) = Some h' /\ relinked [p] h h'.
Proof. intros Hs. destruct (upd_spec h p (set_links 0 0) Hs) as (e & _ & E & R); [done|]. eauto. Qed.

Lemma unlink_spec h q l1 p l2 :
  isq h q (l1 ++ p :: l2) ->
  exists h' q', unlink h q p = Some (h', q') /\ isq h' q' (l1 ++ l2) /\ relinked (l1 ++ p :: l2) h h'.
Proof.
  intros [Hs Hh Ht Hc Hm Hnd]. destruct (dseg_at _ _ _ _ _ _ _ Hs) as [Hpv Hnx].
  destruct (Hm p) as [[x Hx] Hp0]; [clear; set_solver|]. unfold unlink. rewrite Hx. cbn [mbind option_bind].
  rewrite (prevOf_some _ _ _ Hx) in Hpv. rewrite (nextOf_some _ _ _ Hx) in Hnx. rewrite Hpv, Hnx.
  pose proof (NoDup_app l1 (p :: l2)) as [Hna _]. destruct (Hna Hnd) as (Hnd1 & Hdis & Hnd2).
  apply NoDup_cons in Hnd2 as [Hp2 Hnd2]. assert (p ∉ l1) as Hp1 by (intros E; apply (Hdis p E); by left).
  destruct (fixNext h l1 (hd_ 0 l2) (q_head q) (hd_ 0 l2)) as (h1 & -> & R1 & Hpr1 & Hnx1).
  { intros z Hz. apply Hm. clear -Hz. set_solver. }
  cbn [mbind option_bind]. destruct R1 as [R1a R1b]. rewrite (R1b p Hp1), Hx. cbn [mbind option_bind].
  rewrite Hpv, Hnx. destruct (fixPrev h1 l2 (lst 0 l1) (q_tail q) (lst 0 l1)) as (h2 & -> & R2 & Hnx2 & Hpr2).
  { intros z Hz. rewrite (relinked_some l1 h h1 z) by done. apply Hm. clear -Hz. set_solver. }
  cbn [mbind option_bind]. destruct (clear_links h2 p) as (h3 & -> & R3).
  { rewrite (relinked_some _ _ _ _ R2), (relinked_some l1 h h1) by done. by eexists. }
  assert (relinked (l1 ++ p :: l2) h h3) as R.
  { eapply relinked_trans; [eapply (relinked_weaken l1); [clear; set_solver|done]|].
    eapply relinked_trans; (eapply relinked_weaken; [|done]); clear; set_solver. }
  eexists _, _. split; [done|]. split; [|done].
  assert (forall y, y ∈ l1 ++ l2 -> y <> p) as Hyp by (intros y Hy ->; clear -Hy Hp1 Hp2; set_solver).
  assert (forall y, y ∈ l1 ++ l2 -> prevOf h3 y = prevOf h2 y /\ nextOf h3 y = nextOf h2 y) as H3.
  { intros y Hy. destruct R3 as [_ R3b]. unfold prevOf, nextOf. rewrite R3b; [done|]. specialize (Hyp y Hy). set_solver. }
  split; cbn [q_head q_tail q_count].
  - eapply (dll_unlink 0 (prevOf h) (nextOf h) (prevOf h3) (nextOf h3) l1 p l2 Hnd Hs).
    + intros y Hy. assert (y ∈ l1 ++ l2) as Hin by (apply elem_of_app; left; by eapply last_Some_elem_of).
      destruct (H3 y Hin) as [_ ->]. rewrite Hnx2, Hnx1. by rewrite decide_True.
    + intros y Hy Hl. destruct (H3 y Hy) as [_ ->]. rewrite Hnx2, Hnx1. by rewrite decide_False.
    + intros y Hy. assert (y ∈ l1 ++ l2) as Hin by (apply elem_of_app; right; destruct l2; [done|]; injection Hy as <-; by left).
      destruct (H3 y Hin) as [-> _]. rewrite Hpr2. by rewrite decide_True.
    + intros y Hy Hl. destruct (H3 y Hy) as [-> _]. rewrite Hpr2, decide_False by done. by rewrite Hpr1.
  - destruct l1; [done|]. rewrite Hh. done.
  - rewrite Ht. destruct l2; rewrite !lst_app, ?lst_cons; done.
  - rewrite Hc, !len_app, len_cons. lia.
  - intros z Hz. rewrite (relinked_some _ _ _ _ R). apply Hm. clear -Hz. set_solver.
  - apply NoDup_app. split_and!; try done. intros z Hz Hz2. apply (Hdis z Hz). by right.
Qed.

Lemma popHead_spec h q p l :
  isq h q (p :: l) ->
  exists h' q', popHead h q = Some (p, h', q') /\ isq h' q' l /\ relinked (p :: l) h h'.
Proof.
  intros HQ. pose proof HQ as [Hs Hh Ht Hc Hm Hnd]. cbn in Hs, Hh.
  destruct Hs as (Hpv & Hnx & _). destruct (Hm p) as [[x Hx] Hp0]; [by left|].
  destruct (unlink_spec h q [] p l HQ) as (h' & q' & E & HQ' & R). exists h', q'. split; [|done].
  unfold popHead. rewrite Hh, Hx. unfold unlink in E. rewrite Hx in E. cbn [mbind option_bind] in *.
  rewrite (prevOf_some _ _ _ Hx) in Hpv. rewrite Hpv in E. cbn in E. rewrite Hx in E. cbn in E. rewrite Hpv in E.
  destruct (if negb (e_next x =? 0) then _ else _) as [[h2 tl]|]; [|done]. cbn in *.
  destruct (upd h2 p (set_links 0 0)) as [h3|]; [|done]. cbn in *. by injection E as <- <-.
Qed.

(** ** The domain *)

Definition sizeOf (h : ptrs) (p : Z) : Z := default 0 (e_size <$> h !! p).
Definition sizes (h : ptrs) (l : list Z) : Z := foldr (fun p a => sizeOf h p + a) 0 l.

Lemma sizes_cons h x l : sizes h (x :: l) = sizeOf h x + sizes h l.
Proof. done. Qed.

Lemma sizes_app h l1 l2 : sizes h (l1 ++ l2) = sizes h l1 + sizes h l2.
Proof. induction l1 as [|x l1 IH]; [done|]. rewrite <- app_comm_cons, !sizes_cons, IH. lia. Qed.

Lemma sizes_ext h h' l : (forall p, p ∈ l -> e_size <$> h' !! p = e_size <$> h !! p) -> sizes h' l = sizes h l.
Proof.
  induction l as [|x l IH]; intros He; cbn; [done|]. f_equal.
  - unfold sizeOf. by rewrite He by (by left).
  - apply IH. intros p Hp. apply He. by right.
Qed.

Lemma relinked_size l h h' p : relinked l h h' -> e_size <$> h' !! p = e_size <$> h !! p.
Proof.
  intros [A _]. specialize (A p). destruct (h' !! p) as [e'|], (h !! p) as [e|]; try done.
  cbn in *. unfold body in A. congruence.
Qed.

Record ent_ok (e : entry) : Prop := mkEntOk {
  en_size : 0 < e_size e;
  en_freq : 0 <= e_freq e <= 3;
  en_where : e_where e = qUnqueued \/ e_where e = qSmall \/ e_where e = qMain \/ e_where e = qDead
}.

(** Where an entry says it is is where it is. *)
Definition placed (ls lm U : list Z) (p : Z) (e : entry) : Prop :=
  (e_where e = qSmall <-> p ∈ ls) /\ (e_where e = qMain <-> p ∈ lm) /\ (e_where e = qUnqueued -> p ∈ U).

(** [ls], [lm]: the two queues; [U]: entries published but not yet queued, each
    owned by an [Admit] in flight; [x]: an entry in hand, in no queue. *)
Record dom_at (sd : Z) (d : s3Domain) (ls lm U : list Z) (x : option Z) : Prop := mkDomAt {
  dk_small : isq (ents d) (small d) ls;
  dk_main : isq (ents d) (main d) lm;
  dk_nd : NoDup (ls ++ lm ++ U);
  dk_ptr : forall p e, ents d !! p = Some e -> 0 < p < nextEnt d /\ ent_ok e;
  dk_place : forall p e, ents d !! p = Some e ->
    if decide (x = Some p) then p ∉ ls ++ lm ++ U else placed ls lm U p e;
  dk_in : forall p, p ∈ U \/ x = Some p -> is_Some (ents d !! p);
  dk_next : 0 < nextEnt d;
  dk_sb : smallBytes d = sizes (ents d) ls;
  dk_mb : mainBytes d = sizes (ents d) lm;
  dk_mc : mainCount d = len lm;
  dk_hi : mainCount d <= mainHi d;
  dk_ghost : ghost_ok (ghost d);
  dk_tlen : length (table d) = Z.to_nat tableShards;
  dk_tab : forall k p, tget sd d k = Some p -> exists e, ents d !! p = Some e /\ e_key e = k /\ e_where e <> qDead
}.

Abbreviation dom_ok sd d ls lm U := (dom_at sd d ls lm U None).

(** What the ghost's bookkeeping leaves alone. *)
Definition queues (d : s3Domain) :=
  (table d, ents d, nextEnt d, small d, main d, smallBytes d, mainBytes d, mainCount d).

Lemma dom_frame sd d d' ls lm U x :
  queues d' = queues d -> mainCount d' <= mainHi d' -> ghost_ok (ghost d') ->
  dom_at sd d ls lm U x -> dom_at sd d' ls lm U x.
Proof. unfold queues. intros E Hh Hg []. destruct d, d'. cbn in *. simplify_eq. by split. Qed.

Lemma grow_ok sd gmax d ls lm U x :
  dom_at sd d ls lm U x ->
  exists d', maybeGrowGhost gmax d = Some d' /\ queues d' = queues d /\ dom_at sd d' ls lm U x.
Proof.
  intros Hd. unfold maybeGrowGhost. destruct (gmax <=? 0); [by exists d|].
  destruct (_ <=? capacity _); [by exists d|].
  edestruct (grow_spec (ghost d)) as (g & -> & Hg & _); [apply Hd|]. eexists. split; [done|]. split; [done|].
  eapply dom_frame; [..|exact Hd]; [done|apply Hd|done].
Qed.

Lemma decay_ok sd gmax d ls lm U x now :
  dom_at sd d ls lm U x ->
  exists d', maybeDecay gmax d now = Some d' /\ queues d' = queues d /\ dom_at sd d' ls lm U x.
Proof.
  intros Hd. pose proof (dk_hi _ _ _ _ _ _ Hd) as Hhi. unfold maybeDecay. case_if; [by exists d|].
  case_if. { eexists. split; [done|]. split; [done|]. eapply dom_frame; [..|exact Hd]; [done|apply Hd|apply Hd]. }
  case_if; [by exists d|].
  set (d2 := if mainCount (set_lastDecay now d) <? _ then _ else set_lastDecay now d).
  assert (queues d2 = queues d /\ ghost d2 = ghost d /\ mainCount d2 <= mainHi d2) as (E1 & E2 & E3).
  { unfold d2. case_if; cbn in *; split_and!; try done.
    pose proof (Z.quot_lt (mainHi d - mainCount d) 2).
    pose proof (Z.quot_le_upper_bound (mainHi d - mainCount d) 2 (mainHi d - mainCount d)). lia. }
  edestruct (shrink_spec (ghost d2)) as (g & -> & Hg & _); [rewrite E2; apply Hd|].
  eexists. split; [done|]. split; [done|]. eapply dom_frame; [..|exact Hd]; done.
Qed.

(** The table after a write. *)
Lemma shardIdx_range sd k : 0 <= shardIdx sd k < tableShards.
Proof.
  unfold shardIdx, tableShards, u64. rewrite Z.shiftr_div_pow2 by lia.
  pose proof (Z.mod_pos_bound (Z.lxor (hashWord k 8) sd * golden) (2 ^ 64)).
  split; [apply Z.div_pos; lia|apply Z.div_lt_upper_bound; lia].
Qed.

Lemma tget_tset sd d k f k' : length (table d) = Z.to_nat tableShards ->
  tget sd (tset sd d k f) k' =
  if decide (shardIdx sd k = shardIdx sd k') then f (table d !!! Z.to_nat (shardIdx sd k)) !! k' else tget sd d k'.
Proof.
  intros Hl. unfold tget, tset. cbn. pose proof (shardIdx_range sd k). pose proof (shardIdx_range sd k').
  case_decide as E.
  - rewrite <- E. rewrite list_lookup_total_insert_eq; [done|]. rewrite Hl. lia.
  - rewrite list_lookup_total_insert_ne; [done|]. lia.
Qed.

Lemma tget_insert sd d k v k' : length (table d) = Z.to_nat tableShards ->
  tget sd (tset sd d k (insert k v)) k' = if decide (k = k') then Some v else tget sd d k'.
Proof.
  intros Hl. rewrite tget_tset by done. case_decide as E.
  - case_decide as E'; [subst; by rewrite lookup_insert_eq|]. rewrite lookup_insert_ne by done.
    unfold tget. by rewrite E.
  - case_decide; [by subst|done].
Qed.

Lemma tget_delete sd d k k' : length (table d) = Z.to_nat tableShards ->
  tget sd (tset sd d k (delete k)) k' = if decide (k = k') then None else tget sd d k'.
Proof.
  intros Hl. rewrite tget_tset by done. case_decide as E.
  - case_decide as E'; [subst; by rewrite lookup_delete_eq|]. rewrite lookup_delete_ne by done.
    unfold tget. by rewrite E.
  - case_decide; [by subst|done].
Qed.

(** ** Moving entries between places *)

Lemma relinked_lookup l h h' z e' :
  relinked l h h' -> h' !! z = Some e' -> exists e, h !! z = Some e /\ body e = body e'.
Proof.
  intros [A _] Hz. specialize (A z). rewrite Hz in A. destruct (h !! z) as [e|]; [|done].
  injection A as A. exists e. split; [done|]. unfold body. congruence.
Qed.

Lemma relinked_lookup_r l h h' z e :
  relinked l h h' -> h !! z = Some e -> exists e', h' !! z = Some e' /\ body e' = body e.
Proof.
  intros [A _] Hz. specialize (A z). rewrite Hz in A. destruct (h' !! z) as [e'|]; [|done].
  injection A as A. exists e'. split; [done|]. unfold body. congruence.
Qed.

Lemma ent_ok_body e e' : body e = body e' -> ent_ok e -> ent_ok e'.
Proof. unfold body. intros [= E1 E2 E3 E4] []. split; congruence. Qed.

(** The parts of the invariant a relinking of [l] leaves alone. *)
Lemma relinked_sizes l h h' l' : relinked l h h' -> sizes h' l' = sizes h l'.
Proof. intros R. apply sizes_ext. intros p _. by eapply relinked_size. Qed.

Lemma relinked_isq l h h' q l' : relinked l h h' -> (forall p, p ∈ l' -> p ∉ l) -> isq h q l' -> isq h' q l'.
Proof. intros [_ B] Hd. apply isq_ext. intros p Hp. by apply B, Hd. Qed.

Lemma relinked_ptr sd d ls lm U x l h :
  dom_at sd d ls lm U x -> relinked l (ents d) h ->
  forall p e, h !! p = Some e -> 0 < p < nextEnt d /\ ent_ok e.
Proof.
  intros Hd R p e He. destruct (relinked_lookup _ _ _ _ _ R He) as (e0 & He0 & Hb).
  destruct (dk_ptr _ _ _ _ _ _ Hd p e0 He0). split; [done|]. by eapply ent_ok_body.
Qed.

Lemma relinked_tab sd d ls lm U x l h :
  dom_at sd d ls lm U x -> relinked l (ents d) h ->
  forall k p, tget sd d k = Some p -> exists e, h !! p = Some e /\ e_key e = k /\ e_where e <> qDead.
Proof.
  intros Hd R k p Hk. destruct (dk_tab _ _ _ _ _ _ Hd k p Hk) as (e & He & Hke & Hw).
  destruct (relinked_lookup_r _ _ _ _ _ R He) as (e' & He' & Hb). exists e'. unfold body in Hb.
  injection Hb as -> _ -> _. done.
Qed.

Lemma in_skip {A} (x y : A) l1 l2 : x <> y -> x ∈ l1 ++ y :: l2 <-> x ∈ l1 ++ l2.
Proof. intros Hne. rewrite !elem_of_app, elem_of_cons. naive_solver. Qed.

Lemma take_small sd d l1 p l2 lm U h q x :
  dom_ok sd d (l1 ++ p :: l2) lm U -> isq h q (l1 ++ l2) -> relinked (l1 ++ p :: l2) (ents d) h ->
  h !! p = Some x ->
  dom_at sd (set_small q (smallBytes d - e_size x) (set_ents h d)) (l1 ++ l2) lm U (Some p).
Proof.
  intros Hd HQ R Hx. pose proof (dk_nd _ _ _ _ _ _ Hd) as Hnd.
  assert (NoDup (p :: (l1 ++ l2) ++ lm ++ U)) as Hnd2.
  { assert (p :: (l1 ++ l2) ++ lm ++ U ≡ₚ (l1 ++ p :: l2) ++ lm ++ U) as -> by solve_Permutation. done. }
  pose proof Hnd2 as [Hpn Hnd3]%NoDup_cons. apply NoDup_app in Hnd as (_ & Hdis & _).
  split; cbn.
  - done.
  - eapply relinked_isq; [done| |apply Hd]. intros z Hz Hin. apply (Hdis z Hin). apply elem_of_app. by left.
  - done.
  - by eapply relinked_ptr.
  - intros z e He. case_decide as E; [injection E as <-; done|].
    destruct (relinked_lookup _ _ _ _ _ R He) as (e0 & He0 & Hb).
    pose proof (dk_place _ _ _ _ _ _ Hd z e0 He0) as Hpl. rewrite decide_False in Hpl by done.
    unfold placed in *. rewrite in_skip in Hpl by congruence. injection Hb as _ _ Ew _. by rewrite <- Ew.
  - intros z Hz. rewrite (relinked_some _ _ _ _ R). destruct Hz as [Hz|[= <-]]; [apply (dk_in _ _ _ _ _ _ Hd); by left|].
    rewrite <- (relinked_some _ _ _ _ R). by eexists.
  - apply Hd.
  - rewrite (relinked_sizes _ _ _ _ R), (dk_sb _ _ _ _ _ _ Hd), !sizes_app, sizes_cons.
    assert (sizeOf (ents d) p = e_size x) as ->; [|lia].
    unfold sizeOf. rewrite <- (relinked_size _ _ _ p R), Hx. done.
  - rewrite (relinked_sizes _ _ _ _ R). apply Hd.
  - apply Hd.
  - apply Hd.
  - apply Hd.
  - apply Hd.
  - exact (relinked_tab _ d _ _ _ _ _ h Hd R).
Qed.

Lemma take_main sd d ls l1 p l2 U h q x :
  dom_ok sd d ls (l1 ++ p :: l2) U -> isq h q (l1 ++ l2) -> relinked (l1 ++ p :: l2) (ents d) h ->
  h !! p = Some x ->
  dom_at sd (set_main q (mainBytes d - e_size x) (mainCount d - 1) (set_ents h d)) ls (l1 ++ l2) U (Some p).
Proof.
  intros Hd HQ R Hx. pose proof (dk_nd _ _ _ _ _ _ Hd) as Hnd.
  assert (NoDup (p :: ls ++ (l1 ++ l2) ++ U)) as Hnd2.
  { assert (p :: ls ++ (l1 ++ l2) ++ U ≡ₚ ls ++ (l1 ++ p :: l2) ++ U) as -> by solve_Permutation. done. }
  pose proof Hnd2 as [Hpn Hnd3]%NoDup_cons. apply NoDup_app in Hnd as (_ & Hdis & Hnd').
  apply NoDup_app in Hnd' as (_ & Hdis' & _).
  split; cbn.
  - eapply relinked_isq; [done| |apply Hd]. intros z Hz Hin. apply (Hdis z Hz). apply elem_of_app. by left.
  - done.
  - done.
  - by eapply relinked_ptr.
  - intros z e He. case_decide as E; [injection E as <-; done|].
    destruct (relinked_lookup _ _ _ _ _ R He) as (e0 & He0 & Hb).
    pose proof (dk_place _ _ _ _ _ _ Hd z e0 He0) as Hpl. rewrite decide_False in Hpl by done.
    unfold placed in *. rewrite in_skip in Hpl by congruence. injection Hb as _ _ Ew _. by rewrite <- Ew.
  - intros z Hz. rewrite (relinked_some _ _ _ _ R). destruct Hz as [Hz|[= <-]]; [apply (dk_in _ _ _ _ _ _ Hd); by left|].
    rewrite <- (relinked_some _ _ _ _ R). by eexists.
  - apply Hd.
  - rewrite (relinked_sizes _ _ _ _ R). apply Hd.
  - rewrite (relinked_sizes _ _ _ _ R), (dk_mb _ _ _ _ _ _ Hd), !sizes_app, sizes_cons.
    assert (sizeOf (ents d) p = e_size x) as ->; [|lia].
    unfold sizeOf. rewrite <- (relinked_size _ _ _ p R), Hx. done.
  - rewrite (dk_mc _ _ _ _ _ _ Hd), !len_app, len_cons. lia.
  - pose proof (dk_hi _ _ _ _ _ _ Hd). lia.
  - apply Hd.
  - apply Hd.
  - exact (relinked_tab _ d _ _ _ _ _ h Hd R).
Qed.

(** The entry in hand gets a new state field; the queues do not notice. *)
Definition rewhere (h : ptrs) (p : Z) (w : Z) (x : entry) : ptrs := <[p := set_where w x]> h.

Lemma rewhere_size h p w x z : h !! p = Some x -> e_size <$> (rewhere h p w x !! z) = e_size <$> (h !! z).
Proof.
  intros Hx. unfold rewhere. destruct (decide (p = z)) as [<-|]; [by rewrite lookup_insert_eq, Hx|by rewrite lookup_insert_ne].
Qed.

Lemma rewhere_isq h p w x q l : p ∉ l -> isq h q l -> isq (rewhere h p w x) q l.
Proof. intros Hp. apply isq_ext. intros z Hz. unfold rewhere. rewrite lookup_insert_ne; [done|]. by intros ->. Qed.

Lemma rewhere_ptr sd d ls lm U o p x w :
  dom_at sd d ls lm U o -> ents d !! p = Some x -> w = qSmall \/ w = qMain \/ w = qDead ->
  forall z e, rewhere (ents d) p w x !! z = Some e -> 0 < z < nextEnt d /\ ent_ok e.
Proof.
  intros Hd Hx Hw z e. unfold rewhere. rewrite lookup_insert_Some. intros [[<- <-]|[_ He]].
  - destruct (dk_ptr _ _ _ _ _ _ Hd p x Hx) as [? []]. split; [done|]. split; cbn; auto.
  - by apply (dk_ptr _ _ _ _ _ _ Hd).
Qed.

Lemma hand_out sd d ls lm U p x :
  dom_at sd d ls lm U (Some p) -> ents d !! p = Some x -> p <> 0 /\ (p ∉ ls) /\ (p ∉ lm) /\ (p ∉ U).
Proof.
  intros Hd Hx. pose proof (dk_place _ _ _ _ _ _ Hd p x Hx) as Hpl. rewrite decide_True in Hpl by done.
  destruct (dk_ptr _ _ _ _ _ _ Hd p x Hx). rewrite !elem_of_app in Hpl. split; [lia|tauto].
Qed.

Lemma put_tab sd d ls lm U p x w l h :
  dom_at sd d ls lm U (Some p) -> ents d !! p = Some x -> w <> qDead -> relinked l (rewhere (ents d) p w x) h ->
  forall k z, tget sd d k = Some z -> exists e, h !! z = Some e /\ e_key e = k /\ e_where e <> qDead.
Proof.
  intros Hd Hx Hw R k z Hk. destruct (dk_tab _ _ _ _ _ _ Hd k z Hk) as (e & He & Hke & Hwe).
  assert (exists e', rewhere (ents d) p w x !! z = Some e' /\ e_key e' = k /\ e_where e' <> qDead) as (e' & He' & Hk' & Hw').
  { unfold rewhere. destruct (decide (p = z)) as [<-|Hne].
    - rewrite lookup_insert_eq. eexists. split; [done|]. assert (e = x) as -> by congruence. done.
    - rewrite lookup_insert_ne by done. eauto. }
  destruct (relinked_lookup_r _ _ _ _ _ R He') as (e2 & He2 & Hb). exists e2.
  injection Hb as -> _ -> _. done.
Qed.

Lemma put_sizes p w x l h h0 l' :
  h0 !! p = Some x -> relinked l (rewhere h0 p w x) h -> sizes h l' = sizes h0 l' /\ sizeOf h p = e_size x.
Proof.
  intros Hx R. split.
  - rewrite (relinked_sizes _ _ _ _ R). apply sizes_ext. intros z _. by apply rewhere_size.
  - unfold sizeOf. rewrite (relinked_size _ _ _ p R), (rewhere_size _ _ _ _ _ Hx), Hx. done.
Qed.

(** The place of every entry after [p] went to the tail of a queue. *)
Lemma put_place sd d ls lm U p x w l h (ls' lm' : list Z) :
  dom_at sd d ls lm U (Some p) -> ents d !! p = Some x -> relinked l (rewhere (ents d) p w x) h ->
  (w = qSmall /\ ls' = ls ++ [p] /\ lm' = lm) \/ (w = qMain /\ ls' = ls /\ lm' = lm ++ [p]) ->
  forall z e, h !! z = Some e -> placed ls' lm' U z e.
Proof.
  intros Hd Hx R Hcase z e He. destruct (hand_out _ _ _ _ _ _ _ Hd Hx) as (_ & Hs & Hm & HU).
  destruct (relinked_lookup _ _ _ _ _ R He) as (e0 & He0 & [= _ _ Ew _]). unfold placed. rewrite <- Ew.
  unfold rewhere in He0. destruct (decide (p = z)) as [<-|Hne].
  - rewrite lookup_insert_eq in He0. injection He0 as <-. cbn.
    destruct Hcase as [(-> & -> & ->)|(-> & -> & ->)]; rewrite elem_of_app, list_elem_of_singleton;
      unfold qSmall, qMain, qUnqueued; naive_solver lia.
  - rewrite lookup_insert_ne in He0 by done. pose proof (dk_place _ _ _ _ _ _ Hd z e0 He0) as Hpl.
    rewrite decide_False in Hpl by congruence. unfold placed in Hpl.
    destruct Hcase as [(-> & -> & ->)|(-> & -> & ->)]; rewrite elem_of_app, list_elem_of_singleton; naive_solver.
Qed.

Lemma put_in sd d ls lm U p x w l h z :
  dom_at sd d ls lm U (Some p) -> ents d !! p = Some x -> relinked l (rewhere (ents d) p w x) h ->
  z ∈ U \/ None = Some z -> is_Some (h !! z).
Proof.
  intros Hd Hx R [Hz|[=]]. rewrite (relinked_some _ _ _ _ R). unfold rewhere.
  destruct (hand_out _ _ _ _ _ _ _ Hd Hx) as (_ & _ & _ & HU). rewrite lookup_insert_ne by (intros ->; done).
  apply (dk_in _ _ _ _ _ _ Hd). by left.
Qed.

Lemma put_small sd d ls lm U p x :
  dom_at sd d ls lm U (Some p) -> ents d !! p = Some x ->
  exists h q, pushTail (rewhere (ents d) p qSmall x) (small d) p = Some (h, q) /\
    dom_ok sd (set_small q (smallBytes d + e_size x) (set_ents h d)) (ls ++ [p]) lm U.
Proof.
  intros Hd Hx. destruct (hand_out _ _ _ _ _ _ _ Hd Hx) as (Hp0 & Hs & Hm & HU).
  pose proof (dk_nd _ _ _ _ _ _ Hd) as Hnd.
  destruct (pushTail_spec (rewhere (ents d) p qSmall x) (small d) ls p) as (h & q & E & HQ & R).
  { apply rewhere_isq; [done|apply Hd]. } { unfold rewhere. rewrite lookup_insert_eq. by eexists. } { done. } { done. }
  destruct (put_sizes p qSmall x _ h _ ls Hx R) as [Hsz Hpz].
  exists h, q. split; [done|]. split; cbn; try apply Hd.
  - done.
  - eapply relinked_isq; [done| |apply rewhere_isq; [done|apply Hd]].
    intros z Hz [->|Hin]%elem_of_cons; [done|]. apply NoDup_app in Hnd as (_ & Hdis & _).
    apply (Hdis z Hin). apply elem_of_app. by left.
  - assert ((ls ++ [p]) ++ lm ++ U ≡ₚ p :: ls ++ lm ++ U) as -> by solve_Permutation.
    apply NoDup_cons. split; [|done]. rewrite !elem_of_app. tauto.
  - intros z e He. destruct (relinked_lookup _ _ _ _ _ R He) as (e0 & He0 & Hb).
    destruct (rewhere_ptr _ _ _ _ _ _ p x qSmall Hd Hx ltac:(auto) z e0 He0). split; [done|]. by eapply ent_ok_body.
  - intros z e He. rewrite decide_False by done. eapply (put_place _ _ _ _ _ _ _ qSmall); eauto.
  - intros z Hz. by eapply put_in.
  - rewrite sizes_app, Hsz, (dk_sb _ _ _ _ _ _ Hd). cbn. rewrite Hpz. lia.
  - destruct (put_sizes p qSmall x _ h _ lm Hx R) as [-> _]. apply Hd.
  - exact (put_tab sd d ls lm U p x qSmall _ h Hd Hx ltac:(done) R).
Qed.

Lemma put_main sd d ls lm U p x :
  dom_at sd d ls lm U (Some p) -> ents d !! p = Some x ->
  exists h q, pushTail (rewhere (ents d) p qMain x) (main d) p = Some (h, q) /\
    forall hi, mainCount d + 1 <= hi ->
    dom_ok sd (set_mainHi hi (set_main q (mainBytes d + e_size x) (mainCount d + 1) (set_ents h d))) ls (lm ++ [p]) U.
Proof.
  intros Hd Hx. destruct (hand_out _ _ _ _ _ _ _ Hd Hx) as (Hp0 & Hs & Hm & HU).
  pose proof (dk_nd _ _ _ _ _ _ Hd) as Hnd.
  destruct (pushTail_spec (rewhere (ents d) p qMain x) (main d) lm p) as (h & q & E & HQ & R).
  { apply rewhere_isq; [done|apply Hd]. } { unfold rewhere. rewrite lookup_insert_eq. by eexists. } { done. } { done. }
  destruct (put_sizes p qMain x _ h _ lm Hx R) as [Hsz Hpz].
  exists h, q. split; [done|]. intros hi Hhi. split; cbn; try apply Hd.
  - eapply relinked_isq; [done| |apply rewhere_isq; [done|apply Hd]].
    intros z Hz [->|Hin]%elem_of_cons; [done|]. apply NoDup_app in Hnd as (_ & Hdis & _).
    apply (Hdis z Hz). apply elem_of_app. by left.
  - done.
  - assert (ls ++ (lm ++ [p]) ++ U ≡ₚ p :: ls ++ lm ++ U) as -> by solve_Permutation.
    apply NoDup_cons. split; [|done]. rewrite !elem_of_app. tauto.
  - intros z e He. destruct (relinked_lookup _ _ _ _ _ R He) as (e0 & He0 & Hb).
    destruct (rewhere_ptr _ _ _ _ _ _ p x qMain Hd Hx ltac:(auto) z e0 He0). split; [done|]. by eapply ent_ok_body.
  - intros z e He. rewrite decide_False by done. eapply (put_place _ _ _ _ _ _ _ qMain); eauto.
  - intros z Hz. by eapply put_in.
  - destruct (put_sizes p qMain x _ h _ ls Hx R) as [-> _]. apply Hd.
  - rewrite sizes_app, Hsz, (dk_mb _ _ _ _ _ _ Hd). cbn. rewrite Hpz. lia.
  - rewrite (dk_mc _ _ _ _ _ _ Hd), len_app. done.
  - done.
  - exact (put_tab sd d ls lm U p x qMain _ h Hd Hx ltac:(done) R).
Qed.

(** Promotion of the entry in hand. *)
Lemma intoMain_ok sd gmax d ls lm U p x :
  dom_at sd d ls lm U (Some p) -> ents d !! p = Some x ->
  exists d', intoMain gmax d p (e_size x) = Some d' /\ dom_ok sd d' ls (lm ++ [p]) U /\
    table d' = table d /\ nextEnt d' = nextEnt d /\ smallBytes d' = smallBytes d /\
    relinked (p :: lm) (rewhere (ents d) p qMain x) (ents d').
Proof.
  intros Hd Hx. unfold intoMain, upd. rewrite Hx. cbn [mbind option_bind].
  fold (rewhere (ents d) p qMain x).
  destruct (put_main sd d ls lm U p x Hd Hx) as (h & q & E & Hok).
  destruct (hand_out _ _ _ _ _ _ _ Hd Hx) as (Hp0 & Hs & Hm & HU).
  destruct (pushTail_spec (rewhere (ents d) p qMain x) (main d) lm p) as (h' & q' & E' & _ & R).
  { apply rewhere_isq; [done|apply Hd]. } { unfold rewhere. rewrite lookup_insert_eq. by eexists. } { done. } { done. }
  assert (h' = h /\ q' = q) as [-> ->] by (rewrite E in E'; by injection E').
  rewrite E. cbn [mbind option_bind].
  set (d1 := set_main q (mainBytes d + e_size x) (mainCount d + 1) (set_ents h d)).
  destruct (mainHi d1 <? mainCount d1) eqn:Ehi.
  - destruct (grow_ok sd gmax (set_mainHi (mainCount d1) d1) ls (lm ++ [p]) U None) as (d' & E2 & Eq & Hd').
    { apply Hok. cbn. lia. }
    exists d'. split; [done|]. split; [done|]. unfold queues in Eq. cbn in Eq. injection Eq as -> -> -> _ _ -> _ _. by split_and!.
  - exists d1. split; [done|]. split; [|by split_and!]. replace d1 with (set_mainHi (mainHi d1) d1) by done.
    apply Hok. cbn in *. lia.
Qed.

(** An entry outside the queues dies; no table entry leads to it. *)
Lemma kill_ok sd d ls lm U o p x :
  dom_at sd d ls lm U o -> ents d !! p = Some x -> (forall k, tget sd d k <> Some p) ->
  p ∉ ls -> p ∉ lm -> (forall z, o = Some z -> z = p) ->
  dom_ok sd (set_ents (rewhere (ents d) p qDead x) d) ls lm U.
Proof.
  intros Hd Hx Hno Hs Hm Ho.
  split; cbn; try apply Hd.
  - apply rewhere_isq; [done|apply Hd].
  - apply rewhere_isq; [done|apply Hd].
  - eapply rewhere_ptr; eauto.
  - intros z e. rewrite decide_False by done. unfold rewhere. rewrite lookup_insert_Some.
    intros [[<- <-]|[Hne He]].
    + unfold placed. cbn. unfold qDead, qSmall, qMain, qUnqueued. naive_solver lia.
    + pose proof (dk_place _ _ _ _ _ _ Hd z e He) as Hpl. rewrite decide_False in Hpl; [done|].
      intros E. apply Hne; symmetry; by apply Ho.
  - intros z [Hz|[=]]. unfold rewhere. destruct (decide (p = z)) as [<-|]; [rewrite lookup_insert_eq; by eexists|].
    rewrite lookup_insert_ne by done. apply (dk_in _ _ _ _ _ _ Hd). by left.
  - rewrite (dk_sb _ _ _ _ _ _ Hd). apply sizes_ext. intros z _. symmetry. by apply rewhere_size.
  - rewrite (dk_mb _ _ _ _ _ _ Hd). apply sizes_ext. intros z _. symmetry. by apply rewhere_size.
  - intros k z Hk. change (tget sd d k = Some z) in Hk. destruct (dk_tab _ _ _ _ _ _ Hd k z Hk) as (e & He & ?).
    exists e. unfold rewhere. rewrite lookup_insert_ne; [done|]. intros ->. by apply (Hno k).
Qed.

(** A table without some of its entries. *)
Lemma dom_tab sd d ls lm U x t :
  dom_at sd d ls lm U x -> length t = length (table d) ->
  (forall k p, tget sd (set_table t d) k = Some p -> tget sd d k = Some p) ->
  dom_at sd (set_table t d) ls lm U x.
Proof.
  intros [] Hl Hsub. split; try done; cbn; [by rewrite Hl|]. intros k p Hk. apply Hsub in Hk. by apply dk_tab0.
Qed.

Lemma tset_delete_ok sd d ls lm U x k :
  dom_at sd d ls lm U x -> dom_at sd (tset sd d k (delete k)) ls lm U x.
Proof.
  intros Hd. unfold tset. apply dom_tab; [done|by rewrite length_insert|].
  intros k' p Hk. change (set_table _ d) with (tset sd d k (delete k)) in Hk.
  rewrite tget_delete in Hk by apply Hd. by case_decide.
Qed.

(** ** The locked sections *)

(** Key and size of an entry never change. *)
Definition kv (e : entry) : Key * Z := (e_key e, e_size e).
Definition same_kv (h h' : ptrs) : Prop := forall z, kv <$> (h' !! z) = kv <$> (h !! z).

Lemma same_kv_refl h : same_kv h h.
Proof. done. Qed.

Lemma same_kv_trans h1 h2 h3 : same_kv h1 h2 -> same_kv h2 h3 -> same_kv h1 h3.
Proof. intros A B z. by rewrite B. Qed.

Lemma relinked_kv l h h' : relinked l h h' -> same_kv h h'.
Proof.
  intros [A _] z. specialize (A z). destruct (h' !! z), (h !! z); try done. injection A as A.
  unfold body, kv in *. cbn. congruence.
Qed.

Lemma insert_kv h p x e : h !! p = Some x -> kv e = kv x -> same_kv h (<[p := e]> h).
Proof.
  intros Hx E z. destruct (decide (p = z)) as [<-|]; [rewrite lookup_insert_eq, Hx; cbn; by rewrite E|by rewrite lookup_insert_ne].
Qed.

Lemma publish_ok sd d ls lm U k n :
  dom_ok sd d ls lm U -> 0 < n -> tget sd d k = None ->
  let p := nextEnt d in
  exists d', publish sd d k n = (d', Some p) /\ dom_ok sd d' ls lm (p :: U) /\
    ents d' = <[p := mkEntry k n 0 0 qUnqueued 0]> (ents d) /\ ents d !! p = None /\
    forall k', tget sd d' k' = if decide (k = k') then Some p else tget sd d k'.
Proof.
  intros Hd Hn Hk p. unfold publish. rewrite Hk. fold p. eexists. split; [done|].
  assert (ents d !! p = None) as Hp.
  { destruct (ents d !! p) as [e|] eqn:E; [|done]. destruct (dk_ptr _ _ _ _ _ _ Hd p e E). unfold p in *. lia. }
  assert (forall l q, isq (ents d) q l -> (p ∉ l) /\ isq (<[p := mkEntry k n 0 0 qUnqueued 0]> (ents d)) q l) as Hq.
  { intros l q HQ. assert (p ∉ l) as Hl.
    { intros Hin. destruct (iq_mem _ _ _ HQ p Hin) as [[? ?] _]. congruence. }
    split; [done|]. eapply isq_ext; [|done]. intros z Hz. rewrite lookup_insert_ne; [done|]. by intros ->. }
  destruct (Hq _ _ (dk_small _ _ _ _ _ _ Hd)) as [Hps Hs']. destruct (Hq _ _ (dk_main _ _ _ _ _ _ Hd)) as [Hpm Hm'].
  assert (p ∉ U) as HpU. { intros Hin. destruct (dk_in _ _ _ _ _ _ Hd p (or_introl Hin)) as [? ?]. congruence. }
  assert (forall l, p ∉ l -> sizes (<[p := mkEntry k n 0 0 qUnqueued 0]> (ents d)) l = sizes (ents d) l) as Hsz.
  { intros l Hl. apply sizes_ext. intros z Hz. rewrite lookup_insert_ne; [done|]. by intros ->. }
  assert (forall k', tget sd (tset sd (set_nextEnt (p + 1) (set_ents (<[p := mkEntry k n 0 0 qUnqueued 0]> (ents d)) d)) k (insert k p)) k'
                     = if decide (k = k') then Some p else tget sd d k') as Ht.
  { intros k'. rewrite tget_insert by apply Hd. done. }
  split_and!; try done. split; try done; cbn; try apply Hd.
  - assert (ls ++ lm ++ p :: U ≡ₚ p :: ls ++ lm ++ U) as -> by solve_Permutation. apply NoDup_cons.
    split; [rewrite !elem_of_app; tauto|apply Hd].
  - intros z e. rewrite lookup_insert_Some. intros [[<- <-]|[_ He]].
    + pose proof (dk_next _ _ _ _ _ _ Hd). split; [unfold p; lia|]. split; cbn; auto; lia.
    + destruct (dk_ptr _ _ _ _ _ _ Hd z e He). split; [lia|done].
  - intros z e. rewrite decide_False by done. rewrite lookup_insert_Some. intros [[<- <-]|[Hne He]].
    + unfold placed. cbn. unfold qSmall, qMain, qUnqueued. rewrite elem_of_cons. naive_solver lia.
    + pose proof (dk_place _ _ _ _ _ _ Hd z e He) as Hpl. rewrite decide_False in Hpl by done.
      unfold placed in *. rewrite elem_of_cons. tauto.
  - intros z [[->|Hz]%elem_of_cons|[=]]; [rewrite lookup_insert_eq; by eexists|].
    rewrite lookup_insert_ne by (intros ->; done). apply (dk_in _ _ _ _ _ _ Hd). by left.
  - pose proof (dk_next _ _ _ _ _ _ Hd). unfold p. lia.
  - rewrite Hsz by done. apply Hd.
  - rewrite Hsz by done. apply Hd.
  - rewrite length_insert. apply Hd.
  - intros k' z Hz. rewrite Ht in Hz. case_decide as E.
    + injection Hz as <-. rewrite lookup_insert_eq. eexists. split; [done|]. by subst.
    + destruct (dk_tab _ _ _ _ _ _ Hd k' z Hz) as (e & He & ?). exists e. rewrite lookup_insert_ne; [done|]. congruence.
Qed.

(** An unqueued entry is taken in hand. *)
Lemma hand_of sd d ls lm U1 p U2 x :
  dom_ok sd d ls lm (U1 ++ p :: U2) -> ents d !! p = Some x -> dom_at sd d ls lm (U1 ++ U2) (Some p).
Proof.
  intros Hd Hx. pose proof (dk_nd _ _ _ _ _ _ Hd) as Hnd.
  assert (NoDup (p :: ls ++ lm ++ U1 ++ U2)) as Hnd2.
  { assert (p :: ls ++ lm ++ U1 ++ U2 ≡ₚ ls ++ lm ++ U1 ++ p :: U2) as -> by solve_Permutation. done. }
  apply NoDup_cons in Hnd2 as [Hpn Hnd2]. pose proof Hd as []. split; try done.
  - intros z e He. case_decide as E; [injection E as <-; done|]. specialize (dk_place0 z e He).
    rewrite decide_False in dk_place0 by done. unfold placed in *. rewrite in_skip in dk_place0 by congruence. done.
  - intros z [Hz|[= <-]]; [|by eexists]. apply dk_in0. left. rewrite !elem_of_app, elem_of_cons in *. tauto.
Qed.

Lemma drop_dead sd d ls lm U1 p U2 x :
  dom_ok sd d ls lm (U1 ++ p :: U2) -> ents d !! p = Some x -> e_where x = qDead -> dom_ok sd d ls lm (U1 ++ U2).
Proof.
  intros Hd Hx Hw. destruct (hand_of _ _ _ _ _ _ _ _ Hd Hx) as []. split; try done.
  - intros z e He. rewrite decide_False by done. specialize (dk_place0 z e He). case_decide as E; [|done].
    injection E as <-. assert (e = x) as -> by congruence. rewrite !elem_of_app in dk_place0.
    unfold placed. rewrite Hw. unfold qDead, qSmall, qMain, qUnqueued. naive_solver lia.
  - intros z [Hz|[=]]. apply dk_in0. by left.
Qed.

Lemma enqueue_ok sd gmax d ls lm U1 p U2 now :
  dom_ok sd d ls lm (U1 ++ p :: U2) ->
  exists x d' ls' lm', ents d !! p = Some x /\ enqueue sd gmax d p now = Some d' /\ dom_ok sd d' ls' lm' (U1 ++ U2) /\
    table d' = table d /\ same_kv (ents d) (ents d') /\
    (e_where x <> qDead -> ls' ++ lm' ≡ₚ p :: ls ++ lm).
Proof.
  intros Hd. destruct (decay_ok sd gmax d ls lm _ None now Hd) as (d1 & E1 & Eq & Hd1).
  unfold queues in Eq. injection Eq as Et Ee _ _ _ _ _ _.
  destruct (dk_in _ _ _ _ _ _ Hd p) as [x Hx]; [left; clear; set_solver|].
  exists x. unfold enqueue. rewrite E1. cbn [mbind option_bind]. rewrite <- Ee in Hx |- *. rewrite Hx.
  cbn [mbind option_bind]. destruct (e_where x =? qDead) eqn:Ew.
  { exists d1, ls, lm. apply Z.eqb_eq in Ew. split_and!; try done; by eapply drop_dead. }
  pose proof (hand_of _ _ _ _ _ _ _ _ Hd1 Hx) as Hh. destruct (contains _ _).
  - destruct (intoMain_ok sd gmax d1 ls lm (U1 ++ U2) p x Hh Hx) as (d' & -> & Hd' & Et' & _ & _ & R).
    exists d', ls, (lm ++ [p]). split_and!; try done; [congruence| |intros _; solve_Permutation].
    eapply same_kv_trans; [|by eapply relinked_kv]. by eapply insert_kv.
  - unfold upd. rewrite Hx. cbn [mbind option_bind]. fold (rewhere (ents d1) p qSmall x).
    destruct (put_small sd d1 ls lm (U1 ++ U2) p x Hh Hx) as (h & q & E & Hd').
    destruct (hand_out _ _ _ _ _ _ _ Hh Hx) as (Hp0 & Hs & Hm & HU).
    destruct (pushTail_spec (rewhere (ents d1) p qSmall x) (small d1) ls p) as (h' & q' & E' & _ & R).
    { apply rewhere_isq; [done|apply Hd1]. } { unfold rewhere. rewrite lookup_insert_eq. by eexists. } { done. } { done. }
    rewrite E in E'. injection E' as <- <-. rewrite E. cbn [mbind option_bind].
    eexists _, (ls ++ [p]), lm. split_and!; try done; [|intros _; solve_Permutation].
    eapply same_kv_trans; [|by eapply relinked_kv]. by eapply insert_kv.
Qed.

Lemma where_in sd d ls lm U p x :
  dom_ok sd d ls lm U -> ents d !! p = Some x -> placed ls lm U p x.
Proof. intros Hd Hx. pose proof (dk_place _ _ _ _ _ _ Hd p x Hx) as H. by rewrite decide_False in H. Qed.

Lemma drop_ok sd d ls lm U p x :
  dom_ok sd d ls lm U -> ents d !! p = Some x -> (forall k, tget sd d k <> Some p) ->
  exists d' ls' lm', drop_ d p = Some d' /\ dom_ok sd d' ls' lm' U /\ table d' = table d /\
    same_kv (ents d) (ents d') /\
    if decide (p ∈ ls ++ lm) then ls ++ lm ≡ₚ p :: ls' ++ lm' else ls' = ls /\ lm' = lm.
Proof.
  intros Hd Hx Hno. destruct (where_in _ _ _ _ _ _ _ Hd Hx) as (Hs & Hm & _). unfold drop_. rewrite Hx.
  cbn [mbind option_bind]. destruct (e_where x =? qSmall) eqn:E1.
  { apply Z.eqb_eq, Hs, list_elem_of_split in E1 as (l1 & l2 & ->).
    destruct (unlink_spec (ents d) (small d) l1 p l2) as (h & q & -> & HQ & R); [apply Hd|]. cbn [mbind option_bind].
    destruct (relinked_lookup_r _ _ _ _ _ R Hx) as (x' & Hx' & Hb). assert (e_size x' = e_size x) as <- by (by injection Hb).
    pose proof (take_small sd d l1 p l2 lm U h q x' Hd HQ R Hx') as Hd1. unfold upd.
    cbn [ents set_small set_ents]. rewrite Hx'. cbn [mbind option_bind].
    destruct (hand_out _ _ _ _ _ _ _ Hd1 Hx') as (_ & Ha & Hc & _).
    pose proof (kill_ok _ _ _ _ _ _ p x' Hd1 Hx' Hno Ha Hc ltac:(naive_solver)) as Hd2.
    eexists _, (l1 ++ l2), lm. split; [done|]. split; [exact Hd2|]. split; [done|]. split.
    - eapply same_kv_trans; [by eapply relinked_kv|]. by eapply insert_kv.
    - rewrite decide_True by (clear; set_solver). solve_Permutation. }
  destruct (e_where x =? qMain) eqn:E2.
  { apply Z.eqb_eq, Hm, list_elem_of_split in E2 as (l1 & l2 & ->).
    destruct (unlink_spec (ents d) (main d) l1 p l2) as (h & q & -> & HQ & R); [apply Hd|]. cbn [mbind option_bind].
    destruct (relinked_lookup_r _ _ _ _ _ R Hx) as (x' & Hx' & Hb). assert (e_size x' = e_size x) as <- by (by injection Hb).
    pose proof (take_main sd d ls l1 p l2 U h q x' Hd HQ R Hx') as Hd1. unfold upd.
    cbn [ents set_main set_ents]. rewrite Hx'. cbn [mbind option_bind].
    destruct (hand_out _ _ _ _ _ _ _ Hd1 Hx') as (_ & Ha & Hc & _).
    pose proof (kill_ok _ _ _ _ _ _ p x' Hd1 Hx' Hno Ha Hc ltac:(naive_solver)) as Hd2.
    eexists _, ls, (l1 ++ l2). split; [done|]. split; [exact Hd2|]. split; [done|]. split.
    - eapply same_kv_trans; [by eapply relinked_kv|]. by eapply insert_kv.
    - rewrite decide_True by (clear; set_solver). solve_Permutation. }
  cbn [mbind option_bind]. unfold upd. rewrite Hx. cbn [mbind option_bind].
  assert (p ∉ ls) as Hps by (intros Hin; apply Hs in Hin; lia).
  assert (p ∉ lm) as Hpm by (intros Hin; apply Hm in Hin; lia).
  eexists _, ls, lm. split; [done|]. split; [eapply (kill_ok _ _ _ _ _ _ p x Hd); done|]. split; [done|].
  split; [by eapply insert_kv|]. rewrite decide_False; [done|]. rewrite elem_of_app. tauto.
Qed.

(** An eviction candidate leaves: the table entry of its key goes with it. *)
Lemma expel_ok sd d ls lm U p x dst :
  dom_at sd d ls lm U (Some p) -> ents d !! p = Some x ->
  exists d', expel sd d p dst = Some (d', dst ++ [mkCandidate (e_key x) (e_size x)]) /\ dom_ok sd d' ls lm U /\
    same_kv (ents d) (ents d') /\ ents d' = rewhere (ents d) p qDead x /\
    (forall k, tget sd d' k = if decide (e_key x = k) then None else tget sd d k).
Proof.
  intros Hd Hx. unfold expel. rewrite Hx. cbn [mbind option_bind]. fold (rewhere (ents d) p qDead x).
  eexists. split; [done|].
  assert (forall k, tget sd (tset sd d (e_key x) (delete (e_key x))) k = if decide (e_key x = k) then None else tget sd d k) as Ht.
  { intros k. apply tget_delete, Hd. }
  destruct (hand_out _ _ _ _ _ _ _ Hd Hx) as (_ & Ha & Hc & _).
  pose proof (kill_ok sd (tset sd d (e_key x) (delete (e_key x))) ls lm U (Some p) p x
    (tset_delete_ok _ _ _ _ _ _ _ Hd) Hx) as Hk. split; [|split; [by eapply insert_kv|by split]].
  apply Hk; try done; [|naive_solver]. intros k. rewrite Ht. case_decide as E; [done|]. intros Hk'.
  destruct (dk_tab _ _ _ _ _ _ Hd k p Hk') as (e & He & Hke & _). apply E. congruence.
Qed.

(** ** The scan *)

Definition freqOf (h : ptrs) (p : Z) : Z := default 0 (e_freq <$> h !! p).

(** Visits an entry can still cost: in main one per frequency point and one to
    leave, in small one, and one more for the promotion. *)
Definition costMain (h : ptrs) (p : Z) : Z := freqOf h p + 1.
Definition costSmall (h : ptrs) (p : Z) : Z := if 1 <? freqOf h p then freqOf h p + 2 else 1.
Definition lsum (f : Z -> Z) (l : list Z) : Z := foldr (fun p a => f p + a) 0 l.
Definition potential (h : ptrs) (ls lm : list Z) : Z := lsum (costSmall h) ls + lsum (costMain h) lm.

Lemma lsum_cons f x l : lsum f (x :: l) = f x + lsum f l.
Proof. done. Qed.

Lemma lsum_app f l1 l2 : lsum f (l1 ++ l2) = lsum f l1 + lsum f l2.
Proof. induction l1 as [|x l1 IH]; [done|]. rewrite <- app_comm_cons, !lsum_cons, IH. lia. Qed.

Lemma lsum_ext f g l : (forall p, p ∈ l -> f p = g p) -> lsum f l = lsum g l.
Proof.
  induction l as [|x l IH]; intros He; [done|]. rewrite !lsum_cons, He by (by left). f_equal. apply IH.
  intros p Hp. apply He. by right.
Qed.

Lemma lsum_bound f c l : (forall p, p ∈ l -> 0 <= f p <= c) -> 0 <= lsum f l <= c * len l.
Proof.
  induction l as [|x l IH]; intros Hf; [change (0 <= 0 <= c * 0); lia|]. rewrite lsum_cons, len_cons.
  pose proof (Hf x ltac:(by left)). assert (0 <= lsum f l <= c * len l) by (apply IH; intros; apply Hf; by right). lia.
Qed.

Lemma potential_ext h h' ls lm :
  (forall p, p ∈ ls ++ lm -> freqOf h' p = freqOf h p) -> potential h' ls lm = potential h ls lm.
Proof.
  intros He. unfold potential. f_equal; apply lsum_ext; intros p Hp; unfold costSmall, costMain;
    rewrite He; try done; apply elem_of_app; auto.
Qed.

Lemma relinked_freq l h h' p : relinked l h h' -> freqOf h' p = freqOf h p.
Proof.
  intros [A _]. specialize (A p). unfold freqOf. destruct (h' !! p), (h !! p); try done. injection A as _ _ _ A. cbn. congruence.
Qed.

Lemma rewhere_freq h p w x z : h !! p = Some x -> freqOf (rewhere h p w x) z = freqOf h z.
Proof.
  intros Hx. unfold freqOf, rewhere. destruct (decide (p = z)) as [<-|]; [by rewrite lookup_insert_eq, Hx|by rewrite lookup_insert_ne].
Qed.

(** The effect of one visit on what is tracked. *)
Definition visited (sd : Z) (d d' : s3Domain) (ls lm ls' lm' : list Z) (dst dst' : list Candidate) (got got' : Z) : Prop :=
  same_kv (ents d) (ents d') /\ potential (ents d') ls' lm' < potential (ents d) ls lm /\
  ((dst' = dst /\ got' = got /\ ls' ++ lm' ≡ₚ ls ++ lm /\ table d' = table d) \/
   (exists p x, ents d !! p = Some x /\ ls ++ lm ≡ₚ p :: ls' ++ lm' /\
      dst' = dst ++ [mkCandidate (e_key x) (e_size x)] /\ got' = got + e_size x /\
      forall k, tget sd d' k = if decide (e_key x = k) then None else tget sd d k)).

Lemma visit_small sd gmax d p ls lm U dst got :
  dom_ok sd d (p :: ls) lm U ->
  exists d' dst' got' ls' lm',
    ('(e, h, q) ← popHead (ents d) (small d);
     x ← h !! e;
     let d := set_small q (smallBytes d - e_size x) (set_ents h d) in
     if 1 <? e_freq x then
       d ← intoMain gmax d e (e_size x);
       Some (Some (d, dst, got))
     else
       g ← push (ghost d) (fingerprint sd (e_key x));
       '(d, dst) ← expel sd (set_ghost g d) e dst;
       Some (Some (d, dst, got + e_size x))) = Some (Some (d', dst', got')) /\
    dom_ok sd d' ls' lm' U /\ visited sd d d' (p :: ls) lm ls' lm' dst dst' got got'.
Proof.
  intros Hd. destruct (popHead_spec _ _ _ _ (dk_small _ _ _ _ _ _ Hd)) as (h & q & -> & HQ & R).
  destruct (iq_mem _ _ _ (dk_small _ _ _ _ _ _ Hd) p) as [[x0 Hx0] _]; [by left|].
  destruct (relinked_lookup_r _ _ _ _ _ R Hx0) as (x & Hx & Hb). injection Hb as Ek Es _ Ef.
  cbn [mbind option_bind]. rewrite Hx. cbn [mbind option_bind].
  pose proof (take_small sd d [] p ls lm U h q x Hd HQ R Hx) as Hd1. cbn [app] in Hd1.
  set (d1 := set_small _ _ _) in *.
  assert (freqOf (ents d) p = e_freq x) as Hfp by (unfold freqOf; rewrite Hx0; cbn; congruence).
  destruct (1 <? e_freq x) eqn:Ef1.
  - destruct (intoMain_ok sd gmax d1 ls lm U p x Hd1 Hx) as (d' & -> & Hd' & Et & _ & _ & R2).
    exists d', dst, got, ls, (lm ++ [p]). split; [done|]. split; [done|]. split_and!.
    + eapply same_kv_trans; [by eapply relinked_kv|]. eapply same_kv_trans; [|by eapply relinked_kv]. by eapply insert_kv.
    + rewrite (potential_ext (ents d)).
      * unfold potential. rewrite lsum_cons, lsum_app, lsum_cons. unfold costSmall at 2, costMain at 2. rewrite Hfp, Ef1.
        change (lsum (costMain (ents d)) []) with 0. lia.
      * intros z _. rewrite (relinked_freq _ _ _ z R2), (rewhere_freq _ _ _ _ _ Hx). by apply (relinked_freq _ _ _ z R).
    + left. split_and!; try done. solve_Permutation.
  - destruct (push_spec (ghost d1) (fingerprint sd (e_key x)) (dk_ghost _ _ _ _ _ _ Hd1)) as (g & -> & Hg & _).
    cbn [mbind option_bind].
    assert (dom_at sd (set_ghost g d1) ls lm U (Some p)) as Hd2.
    { eapply dom_frame; [..|exact Hd1]; [done|apply Hd1|done]. }
    destruct (expel_ok sd (set_ghost g d1) ls lm U p x dst Hd2 Hx) as (d' & -> & Hd' & Hkv & Ee & Ht).
    cbn [mbind option_bind]. eexists _, _, _, ls, lm. split; [done|]. split; [done|]. split_and!.
    + eapply same_kv_trans; [by eapply relinked_kv|done].
    + rewrite Ee, (potential_ext (ents d)).
      * unfold potential. rewrite lsum_cons. unfold costSmall at 2. rewrite Hfp, Ef1. lia.
      * intros z _. rewrite (rewhere_freq _ _ _ _ _ Hx). by apply (relinked_freq _ _ _ z R).
    + right. exists p, x0. rewrite Ek, Es. split_and!; try done. rewrite <- Ek. done.
Qed.

(** A new frequency for one entry. *)
Lemma dom_freq sd d ls lm U o p x f :
  dom_at sd d ls lm U o -> ents d !! p = Some x -> 0 <= f <= 3 ->
  dom_at sd (set_ents (<[p := set_freq f x]> (ents d)) d) ls lm U o.
Proof.
  intros Hd Hx Hf. set (h := <[p := set_freq f x]> (ents d)).
  assert (forall z e, h !! z = Some e -> exists e0, ents d !! z = Some e0 /\ e_key e = e_key e0 /\ e_size e = e_size e0 /\
            e_where e = e_where e0 /\ e_prev e = e_prev e0 /\ e_next e = e_next e0 /\ (e = e0 \/ e_freq e = f)) as Hl.
  { intros z e. unfold h. rewrite lookup_insert_Some. intros [[<- <-]|[_ He]]; eexists; (split; [done|]); auto 10. }
  assert (forall z, is_Some (h !! z) <-> is_Some (ents d !! z)) as Hsome.
  { intros z. unfold h. destruct (decide (p = z)) as [<-|]; [rewrite lookup_insert_eq, Hx; by split; eexists|by rewrite lookup_insert_ne]. }
  assert (forall l q, isq (ents d) q l -> isq h q l) as HQ.
  { intros l q []. split; try done.
    - eapply dseg_ext; [|done]. intros z _. unfold h. rewrite prevOf_insert, nextOf_insert.
      case_decide as E; [subst|done]. cbn. by rewrite (prevOf_some _ _ _ Hx), (nextOf_some _ _ _ Hx).
    - intros z Hz. rewrite Hsome. auto. }
  assert (forall l, sizes h l = sizes (ents d) l) as Hsz.
  { intros l. apply sizes_ext. intros z _. unfold h. destruct (decide (p = z)) as [<-|]; [by rewrite lookup_insert_eq, Hx|by rewrite lookup_insert_ne]. }
  pose proof Hd as []. split; cbn; try done; try (by apply HQ); try (by rewrite Hsz).
  - intros z e He. destruct (Hl z e He) as (e0 & He0 & _ & Es & Ew & _ & _ & Ef).
    destruct (dk_ptr0 z e0 He0) as [? Hok]. split; [done|]. destruct Ef as [->|Ef]; [done|]. destruct Hok.
    split; rewrite ?Es, ?Ew, ?Ef; auto.
  - intros z e He. destruct (Hl z e He) as (e0 & He0 & _ & _ & Ew & _). specialize (dk_place0 z e0 He0).
    unfold placed in *. by rewrite Ew.
  - intros z Hz. rewrite Hsome. auto.
  - intros k z Hz. destruct (dk_tab0 k z Hz) as (e & He & Hk & Hw). destruct (h !! z) as [e'|] eqn:He'.
    + destruct (Hl z e' He') as (e0 & He0 & Ek & _ & Ew & _). exists e'. assert (e0 = e) as -> by congruence.
      split; [done|]. by rewrite Ek, Ew.
    + assert (is_Some (h !! z)) as [? ?] by (rewrite Hsome; by eexists). congruence.
Qed.

Lemma touch_ok sd d ls lm U k :
  dom_ok sd d ls lm U ->
  exists d', touchDomain sd d k = Some d' /\ dom_ok sd d' ls lm U /\ table d' = table d /\ same_kv (ents d) (ents d').
Proof.
  intros Hd. unfold touchDomain. destruct (tget sd d k) as [p|] eqn:Hk; [|by exists d].
  destruct (dk_tab _ _ _ _ _ _ Hd k p Hk) as (x & Hx & _). rewrite Hx. cbn [mbind option_bind].
  case_if; [|by exists d]. eexists. split; [done|]. split; [|split; [done|by eapply insert_kv]].
  apply dom_freq; try done. destruct (dk_ptr _ _ _ _ _ _ Hd p x Hx) as [_ []]. lia.
Qed.

Lemma visit_main sd d ls p lm U dst got :
  dom_ok sd d ls (p :: lm) U ->
  exists d' dst' got' ls' lm',
    ('(e, h, q) ← popHead (ents d) (main d);
     x ← h !! e;
     if 0 <? e_freq x then
       h ← upd h e (set_freq (e_freq x - 1));
       '(h, q) ← pushTail h q e;
       Some (Some (set_main q (mainBytes d) (mainCount d) (set_ents h d), dst, got))
     else
       '(d, dst) ← expel sd (set_main q (mainBytes d - e_size x) (mainCount d - 1) (set_ents h d)) e dst;
       Some (Some (d, dst, got + e_size x))) = Some (Some (d', dst', got')) /\
    dom_ok sd d' ls' lm' U /\ visited sd d d' ls (p :: lm) ls' lm' dst dst' got got'.
Proof.
  intros Hd. destruct (popHead_spec _ _ _ _ (dk_main _ _ _ _ _ _ Hd)) as (h & q & -> & HQ & R).
  destruct (iq_mem _ _ _ (dk_main _ _ _ _ _ _ Hd) p) as [[x0 Hx0] _]; [by left|].
  destruct (relinked_lookup_r _ _ _ _ _ R Hx0) as (x & Hx & Hb). injection Hb as Ek Es Ew Ef.
  destruct (where_in _ _ _ _ _ _ _ Hd Hx0) as (_ & [_ Hm] & _). rewrite <- Ew in Hm.
  cbn [mbind option_bind]. rewrite Hx. cbn [mbind option_bind].
  pose proof (take_main sd d ls [] p lm U h q x Hd HQ R Hx) as Hd1. cbn [app] in Hd1.
  assert (freqOf (ents d) p = e_freq x) as Hfp by (unfold freqOf; rewrite Hx0; cbn; congruence).
  set (d1 := set_main _ _ _ _) in *. destruct (0 <? e_freq x) eqn:Ef1.
  - unfold upd. rewrite Hx. cbn [mbind option_bind]. set (x1 := set_freq (e_freq x - 1) x).
    destruct (dk_ptr _ _ _ _ _ _ Hd1 p x Hx) as [_ [_ Hfr _]].
    pose proof (dom_freq _ _ _ _ _ _ p x (e_freq x - 1) Hd1 Hx ltac:(lia)) as Hd2. fold x1 in Hd2.
    set (d2 := set_ents _ d1) in *. assert (ents d2 !! p = Some x1) as Hx1 by apply lookup_insert_eq.
    destruct (put_main sd d2 ls lm U p x1 Hd2 Hx1) as (h' & q' & E & Hok).
    assert (rewhere (ents d2) p qMain x1 = ents d2) as Er.
    { unfold rewhere. rewrite insert_id; [done|]. rewrite Hx1. f_equal. unfold x1, set_where, set_freq. cbn.
      by rewrite <- Hm by (by left). }
    destruct (hand_out _ _ _ _ _ _ _ Hd2 Hx1) as (Hp0 & _ & Hpm & _).
    destruct (pushTail_spec (ents d2) (main d2) lm p) as (h2 & q2 & E' & _ & R'); [apply Hd2|by eexists|done..|].
    rewrite Er in E. rewrite E in E'. injection E' as <- <-. change (<[p := x1]> h) with (ents d2).
    change (main d2) with q in E. rewrite E. cbn [mbind option_bind].
    pose proof (Hok (mainHi d) ltac:(cbn; pose proof (dk_hi _ _ _ _ _ _ Hd); lia)) as Hd3.
    eexists _, dst, got, ls, (lm ++ [p]). split; [done|]. split; [|split_and!].
    + eapply dom_frame; [| | |exact Hd3]; [|apply Hd..]. unfold queues. cbn. f_equal; [f_equal|]; lia.
    + cbn. eapply same_kv_trans; [by eapply relinked_kv|]. eapply same_kv_trans; [|by eapply relinked_kv]. by eapply insert_kv.
    + cbn [ents set_main set_ents]. unfold potential. rewrite lsum_app, !lsum_cons. change (lsum (costMain h') []) with 0.
      assert (forall z, freqOf h' z = if decide (p = z) then e_freq x - 1 else freqOf (ents d) z) as Hfz.
      { intros z. rewrite (relinked_freq _ _ _ z R'), <- (relinked_freq _ _ _ z R). unfold freqOf, d2. cbn.
        case_decide as E2; [subst; by rewrite lookup_insert_eq|by rewrite lookup_insert_ne]. }
      pose proof (dk_nd _ _ _ _ _ _ Hd) as Hnd. apply NoDup_app in Hnd as (_ & Hdis & Hnd). apply NoDup_app in Hnd as (Hnd & _ & _).
      apply NoDup_cons in Hnd as [Hpl _].
      rewrite (lsum_ext (costSmall h') (costSmall (ents d)) ls), (lsum_ext (costMain h') (costMain (ents d)) lm).
      * assert (costMain h' p = e_freq x) as -> by (unfold costMain; rewrite Hfz, decide_True by done; lia).
        assert (costMain (ents d) p = e_freq x + 1) as -> by (unfold costMain; by rewrite Hfp). lia.
      * intros z Hz. unfold costMain. rewrite Hfz, decide_False; [done|]. intros ->. done.
      * intros z Hz. unfold costSmall. rewrite Hfz, decide_False; [done|]. intros ->. apply (Hdis z Hz). by left.
    + left. split_and!; try done. solve_Permutation.
  - destruct (expel_ok sd d1 ls lm U p x dst Hd1 Hx) as (d' & -> & Hd' & Hkv & Ee & Ht).
    cbn [mbind option_bind]. eexists _, _, _, ls, lm. split; [done|]. split; [done|]. split_and!.
    + eapply same_kv_trans; [by eapply relinked_kv|done].
    + rewrite Ee, (potential_ext (ents d)).
      * unfold potential. rewrite lsum_cons. unfold costMain at 2. pose proof (dk_ptr _ _ _ _ _ _ Hd p x0 Hx0) as [_ []].
        rewrite Hfp. lia.
      * intros z _. rewrite (rewhere_freq _ _ _ _ _ Hx). by apply (relinked_freq _ _ _ z R).
    + right. exists p, x0. rewrite Ek, Es. split_and!; try done; [solve_Permutation|]. by rewrite <- Ek.
Qed.

Lemma visit_ok sd gmax d ls lm U dst got :
  dom_ok sd d ls lm U ->
  exists r, visit sd gmax d dst got = Some r /\
    match r with
    | None => ls = [] /\ lm = []
    | Some (d', dst', got') => exists ls' lm', dom_ok sd d' ls' lm' U /\ visited sd d d' ls lm ls' lm' dst dst' got got'
    end.
Proof.
  intros Hd. pose proof (iq_count _ _ _ (dk_small _ _ _ _ _ _ Hd)) as Cs. pose proof (iq_count _ _ _ (dk_main _ _ _ _ _ _ Hd)) as Cm.
  pose proof (len_nonneg ls). pose proof (len_nonneg lm).
  assert (forall l : list Z, len l = 0 -> l = []) as Hnil by (intros [|? l]; [done|]; rewrite len_cons; pose proof (len_nonneg l); lia).
  unfold visit. rewrite Cs, Cm. destruct ((len ls =? 0) && (len lm =? 0)) eqn:E0.
  { exists None. split; [done|]. split; apply Hnil; lia. }
  set (b1 := if _ && (len ls =? 0) then false else _). set (b2 := if negb b1 && _ then true else b1).
  assert (if b2 then ls <> [] else lm <> []) as Hb.
  { unfold b2, b1. destruct (_ <? smallBytes d), ls, lm; cbn in *; try done; rewrite ?len_cons in *;
      repeat match goal with |- context [1 + len ?l =? 0] => pose proof (len_nonneg l); replace (1 + len l =? 0) with false by lia end; done. }
  destruct b2.
  - destruct ls as [|p ls]; [done|]. destruct (visit_small sd gmax d p ls lm U dst got Hd) as (d' & dst' & got' & ls' & lm' & E & Hok).
    exists (Some (d', dst', got')). split; [exact E|]. eauto.
  - destruct lm as [|p lm]; [done|]. destruct (visit_main sd d ls p lm U dst got Hd) as (d' & dst' & got' & ls' & lm' & E & Hok).
    exists (Some (d', dst', got')). split; [exact E|]. eauto.
Qed.

End S3Inv.
