(* ===== verification/S3FifoSpec.v ===== *)
(** What S3-FIFO promises: it tracks exactly the admitted blocks that were
    neither removed nor handed out, a victim scan covers the need or runs the
    tenant dry within its visit budget, usage is exact, and no interleaving of
    the locked sections corrupts a queue. *)

From Stdlib Require Import ZArith Lia.
From coqutil Require Import Byte.
From stdpp Require Import base numbers list gmap sets.
From S2P Require Import Prelude.
From S2P Require Import Dll.
From S2P Require Import Eviction.
From S2P Require Import S3Fifo.
From S2P Require Import S3FifoInv.
Import Dll Eviction Ghost GhostFacts S3 S3Inv.
Open Scope Z_scope.

Module S3Spec.

(** ** The tracked blocks of a domain *)

Definition tr (sd : Z) (d : s3Domain) (k : Key) : option Z := p ← tget sd d k; e_size <$> ents d !! p.

(** No section is in flight: every queued entry is in the table. *)
Record quiet_dom (sd ns : Z) (d : s3Domain) (ls lm : list Z) : Prop := mkQuietDom {
  qd_ok : dom_ok sd d ls lm [];
  qd_tab : forall p e, p ∈ ls ++ lm -> ents d !! p = Some e -> tget sd d (e_key e) = Some p /\ NS (e_key e) = ns
}.

(** [m]: the tracked keys and their sizes. *)
Definition full (sd ns : Z) (d : s3Domain) (m : gmap Key Z) : Prop :=
  exists ls lm, quiet_dom sd ns d ls lm /\ forall k, tr sd d k = m !! k.

Lemma tget_queued sd ns d ls lm k p :
  quiet_dom sd ns d ls lm -> tget sd d k = Some p -> exists e, ents d !! p = Some e /\ e_key e = k /\ p ∈ ls ++ lm.
Proof.
  intros [Hd _] Hk. destruct (dk_tab _ _ _ _ _ _ Hd k p Hk) as (e & He & Hke & Hw). exists e. split_and!; try done.
  destruct (where_in _ _ _ _ _ _ _ Hd He) as (Hs & Hm & HU). destruct (dk_ptr _ _ _ _ _ _ Hd p e He) as [_ [_ _ Hcase]].
  rewrite elem_of_app. destruct Hcase as [E|[E|[E|E]]]; [apply HU, elem_of_nil in E as []|tauto|tauto|done].
Qed.

Lemma queued_some sd d ls lm U x p : dom_at sd d ls lm U x -> p ∈ ls ++ lm -> exists e, ents d !! p = Some e.
Proof.
  intros Hd [Hp|Hp]%elem_of_app; [apply (iq_mem _ _ _ (dk_small _ _ _ _ _ _ Hd))|apply (iq_mem _ _ _ (dk_main _ _ _ _ _ _ Hd))]; done.
Qed.

(** The domain's byte counters are the sum of the tracked sizes. *)
Lemma sizes_msum sd ns d ls lm m l :
  quiet_dom sd ns d ls lm -> (forall k, tr sd d k = m !! k) -> NoDup l -> (forall p, p ∈ l -> p ∈ ls ++ lm) ->
  exists m0, m0 ⊆ m /\ sizes (ents d) l = msum id m0 /\
    (forall k n, m0 !! k = Some n <-> exists p, p ∈ l /\ tget sd d k = Some p /\ m !! k = Some n).
Proof.
  intros Hq Hm. induction l as [|p l IH]; intros Hnd Hin.
  - exists ∅. split; [apply map_empty_subseteq|]. split; [by rewrite msum_empty|]. intros k n. rewrite lookup_empty.
    split; [done|]. intros (p & Hp & _). by apply elem_of_nil in Hp.
  - apply NoDup_cons in Hnd as [Hpl Hnd]. destruct IH as (m0 & Hsub & Hs & Hiff); [done|intros z Hz; apply Hin; by right|].
    assert (p ∈ ls ++ lm) as Hpin by (apply Hin; by left).
    destruct (queued_some _ _ _ _ _ _ p (qd_ok _ _ _ _ _ Hq) Hpin) as [e He].
    destruct (qd_tab _ _ _ _ _ Hq p e Hpin He) as [Ht _].
    assert (m !! e_key e = Some (e_size e)) as Hmk by (rewrite <- Hm; unfold tr; rewrite Ht; cbn; by rewrite He).
    assert (m0 !! e_key e = None) as Hnone.
    { destruct (m0 !! e_key e) as [n|] eqn:E; [|done]. apply Hiff in E as (z & Hz & Htz & _). congruence. }
    exists (<[e_key e := e_size e]> m0). split_and!.
    + apply insert_subseteq_l; done.
    + rewrite sizes_cons, msum_insert, Hs by done. unfold sizeOf. rewrite He. done.
    + intros k n. rewrite lookup_insert_Some, Hiff. split.
      * intros [[<- <-]|[Hne (z & Hz & Htz & Hkn)]]; [exists p|exists z]; rewrite elem_of_cons; auto.
      * intros (z & [->|Hz]%elem_of_cons & Htz & Hkn).
        -- left. destruct (tget_queued _ _ _ _ _ _ _ Hq Htz) as (e' & He' & Hke & _). assert (e' = e) as -> by congruence.
           split; [done|]. congruence.
        -- right. split; [|eauto]. intros <-. congruence.
Qed.

Lemma full_bytes sd ns d m : full sd ns d m -> smallBytes d + mainBytes d = msum id m.
Proof.
  intros (ls & lm & Hq & Hm). pose proof (qd_ok _ _ _ _ _ Hq) as Hd.
  rewrite (dk_sb _ _ _ _ _ _ Hd), (dk_mb _ _ _ _ _ _ Hd), <- sizes_app.
  destruct (sizes_msum sd ns d ls lm m (ls ++ lm) Hq Hm) as (m0 & Hsub & -> & Hiff); [|done|].
  { pose proof (dk_nd _ _ _ _ _ _ Hd) as Hnd. by rewrite app_nil_r in Hnd. }
  f_equal. apply map_eq. intros k. destruct (m !! k) as [n|] eqn:Hk.
  - apply Hiff. rewrite <- Hm in Hk. unfold tr in Hk. destruct (tget sd d k) as [p|] eqn:Ht; [|done].
    destruct (tget_queued _ _ _ _ _ _ _ Hq Ht) as (e & He & _ & Hin). exists p. split; [done|]. split; [done|].
    rewrite <- Hm. unfold tr. by rewrite Ht.
  - destruct (m0 !! k) as [n|] eqn:E; [|done]. rewrite (lookup_weaken _ _ _ _ E Hsub) in Hk. done.
Qed.

Lemma new_full sd ns : full sd ns newDomain ∅.
Proof.
  assert (forall k, tget sd newDomain k = None) as Ht.
  { intros k. unfold tget. cbn [table newDomain]. pose proof (shardIdx_range sd k). unfold tableShards in *.
    rewrite lookup_total_replicate_2 by lia. apply lookup_empty. }
  exists [], []. split; [split; [split|]|].
  1,2: by split; cbn; try done; [intros ? ?%elem_of_nil|constructor].
  all: cbn; try done.
  - constructor.
  - intros p [Hp|Hp]; [by apply elem_of_nil in Hp|done].
  - apply emptyGhost_ok.
  - intros k p Hk. by rewrite Ht in Hk.
  - intros k. unfold tr. by rewrite Ht, lookup_empty.
Qed.

Lemma tr_kv sd d d' k : table d' = table d -> same_kv (ents d) (ents d') -> tr sd d' k = tr sd d k.
Proof.
  intros Et Hkv. unfold tr, tget. rewrite Et. destruct (_ !! k) as [p|]; [|done]. cbn. specialize (Hkv p).
  destruct (ents d' !! p), (ents d !! p); try done. injection Hkv as _ E. cbn. by rewrite E.
Qed.

Lemma kv_lookup h h' p e' : same_kv h h' -> h' !! p = Some e' -> exists e, h !! p = Some e /\ e_key e' = e_key e /\ e_size e' = e_size e.
Proof.
  intros Hkv He. specialize (Hkv p). rewrite He in Hkv. destruct (h !! p) as [e|]; [|done].
  injection Hkv as E1 E2. eauto.
Qed.

Lemma admit_full sd gmax ns d m k n now :
  full sd ns d m -> 0 < n -> NS k = ns ->
  exists d', admitDomain sd gmax d k n now = Some d' /\
    full sd ns d' (match m !! k with Some _ => m | None => <[k := n]> m end).
Proof.
  intros (ls & lm & Hq & Hm) Hn Hns. unfold admitDomain. destruct (tget sd d k) as [p|] eqn:Hk.
  { unfold publish. rewrite Hk. exists d. split; [done|]. exists ls, lm. split; [done|].
    destruct (m !! k) eqn:E; [done|]. rewrite <- Hm in E. unfold tr in E. rewrite Hk in E. cbn in E.
    destruct (tget_queued _ _ _ _ _ _ _ Hq Hk) as (e & He & _). by rewrite He in E. }
  assert (m !! k = None) as -> by (rewrite <- Hm; unfold tr; by rewrite Hk).
  destruct (publish_ok sd d ls lm [] k n (qd_ok _ _ _ _ _ Hq) Hn Hk) as (d1 & -> & Hd1 & Ee & Hfresh & Ht).
  set (p := nextEnt d) in *.
  destruct (enqueue_ok sd gmax d1 ls lm [] p [] now Hd1) as (x & d' & ls' & lm' & Hx & E & Hd' & Et & Hkv & Hperm).
  rewrite Ee, lookup_insert_eq in Hx. injection Hx as <-. specialize (Hperm ltac:(done)).
  exists d'. split; [done|]. exists ls', lm'.
  assert (forall k', tget sd d' k' = if decide (k = k') then Some p else tget sd d k') as Ht'.
  { intros k'. rewrite <- Ht. unfold tget. by rewrite Et. }
  split; [split; [done|]|].
  - intros z e Hz He. destruct (kv_lookup _ _ _ _ Hkv He) as (e1 & He1 & Hke & _). rewrite Hke, Ht'. rewrite Ee in He1.
    rewrite Hperm in Hz. apply elem_of_cons in Hz as [->|Hz].
    + rewrite lookup_insert_eq in He1. injection He1 as <-. cbn. by rewrite decide_True.
    + destruct (queued_some _ _ _ _ _ _ z (qd_ok _ _ _ _ _ Hq) Hz) as [e0 He0].
      rewrite lookup_insert_ne in He1 by congruence. destruct (qd_tab _ _ _ _ _ Hq z e1 Hz He1) as [Hte Hnse].
      rewrite decide_False; [done|]. congruence.
  - intros k'. rewrite (tr_kv sd d1 d' k' Et Hkv). unfold tr. rewrite Ht, Ee. case_decide as E'.
    + subst k'. cbn. by rewrite !lookup_insert_eq.
    + rewrite lookup_insert_ne by done. rewrite <- Hm. unfold tr. destruct (tget sd d k') as [z|] eqn:Hz; [|done]. cbn.
      destruct (tget_queued _ _ _ _ _ _ _ Hq Hz) as (e & He & _). rewrite lookup_insert_ne; [done|]. congruence.
Qed.

Lemma remove_full sd ns d m k :
  full sd ns d m -> exists d', removeDomain sd d k = Some d' /\ full sd ns d' (delete k m).
Proof.
  intros (ls & lm & Hq & Hm). unfold removeDomain, takeOut. set (d1 := tset sd d k (delete k)).
  pose proof (qd_ok _ _ _ _ _ Hq) as Hd. pose proof (tset_delete_ok _ _ _ _ _ _ k Hd) as Hd1. fold d1 in Hd1.
  assert (forall k', tget sd d1 k' = if decide (k = k') then None else tget sd d k') as Ht by (intros k'; apply tget_delete, Hd).
  assert (forall k', tr sd d1 k' = delete k m !! k') as Htr.
  { intros k'. unfold tr. rewrite Ht. case_decide as E; [subst; by rewrite lookup_delete_eq|].
    rewrite lookup_delete_ne by done. rewrite <- Hm. done. }
  destruct (tget sd d k) as [p|] eqn:Hk.
  2:{ exists d1. split; [done|]. exists ls, lm. split; [split; [done|]|done]. intros z e Hz He. rewrite Ht.
      destruct (qd_tab _ _ _ _ _ Hq z e Hz He) as [Hte ?]. rewrite decide_False; [done|]. congruence. }
  destruct (tget_queued _ _ _ _ _ _ _ Hq Hk) as (x & Hx & Hkx & Hin).
  destruct (drop_ok sd d1 ls lm [] p x Hd1 Hx) as (d' & ls' & lm' & E & Hd' & Et & Hkv & Hperm).
  { intros k'. rewrite Ht. case_decide as E; [done|]. intros Hk'.
    destruct (tget_queued _ _ _ _ _ _ _ Hq Hk') as (e & He & Hke & _). apply E. congruence. }
  rewrite decide_True in Hperm by done. exists d'. split; [done|]. exists ls', lm'.
  split; [split; [done|]|intros k'; by rewrite (tr_kv sd d1 d' k' Et Hkv)].
  intros z e Hz He. destruct (kv_lookup _ _ _ _ Hkv He) as (e1 & He1 & Hke & _). rewrite Hke.
  assert (z ∈ ls ++ lm) as Hz' by (rewrite Hperm; by right).
  destruct (qd_tab _ _ _ _ _ Hq z e1 Hz' He1) as [Hte Hnse]. split; [|done].
  replace (tget sd d' (e_key e1)) with (tget sd d1 (e_key e1)) by (unfold tget; by rewrite Et).
  rewrite Ht, decide_False; [done|]. intros Ek. rewrite <- Ek, Hk in Hte. injection Hte as <-.
  pose proof (dk_nd _ _ _ _ _ _ Hd) as Hnd. rewrite app_nil_r, Hperm in Hnd. apply NoDup_cons in Hnd as [Hni _]. done.
Qed.

Lemma touch_full sd ns d m k :
  full sd ns d m -> exists d', touchDomain sd d k = Some d' /\ full sd ns d' m.
Proof.
  intros (ls & lm & Hq & Hm). destruct (touch_ok sd d ls lm [] k (qd_ok _ _ _ _ _ Hq)) as (d' & E & Hd' & Et & Hkv).
  exists d'. split; [done|]. exists ls, lm. split; [split; [done|]|intros k'; by rewrite (tr_kv sd d d' k' Et Hkv)].
  intros z e Hz He. destruct (kv_lookup _ _ _ _ Hkv He) as (e1 & He1 & Hke & _). rewrite Hke.
  unfold tget. rewrite Et. by apply (qd_tab _ _ _ _ _ Hq z e1).
Qed.

Lemma decay_full sd gmax ns d m now :
  full sd ns d m -> exists d', maybeDecay gmax d now = Some d' /\ queues d' = queues d /\ full sd ns d' m.
Proof.
  intros (ls & lm & Hq & Hm). destruct (decay_ok sd gmax d ls lm [] None now (qd_ok _ _ _ _ _ Hq)) as (d' & E & Eq & Hd').
  exists d'. split; [done|]. split; [done|]. unfold queues in Eq. injection Eq as Et Ee _ _ _ _ _ _. exists ls, lm.
  split; [split; [done|]|intros k'; rewrite <- Hm; unfold tr, tget; by rewrite Et, Ee].
  intros z e Hz He. rewrite Ee in He. unfold tget. rewrite Et. by apply (qd_tab _ _ _ _ _ Hq z e).
Qed.

(** ** The scan *)

(** The candidates [cs] are distinct blocks of [m] with their sizes; [m'] is
    what is left. *)
Fixpoint taken (m : gmap Key Z) (cs : list Candidate) (m' : gmap Key Z) : Prop :=
  match cs with
  | [] => m' = m
  | c :: cs => m !! c_Key c = Some (c_Size c) /\ taken (delete (c_Key c) m) cs m'
  end.

Definition csum (cs : list Candidate) : Z := foldr (fun c a => c_Size c + a) 0 cs.

Lemma visit_full sd ns d d' ls lm ls' lm' (m : gmap Key Z) dst dst' got got' :
  quiet_dom sd ns d ls lm -> (forall k, tr sd d k = m !! k) ->
  dom_ok sd d' ls' lm' [] -> visited sd d d' ls lm ls' lm' dst dst' got got' ->
  quiet_dom sd ns d' ls' lm' /\
  ((dst' = dst /\ got' = got /\ forall k, tr sd d' k = m !! k) \/
   (exists k n, m !! k = Some n /\ dst' = dst ++ [mkCandidate k n] /\ got' = got + n /\
      forall k', tr sd d' k' = delete k m !! k')).
Proof.
  intros Hq Hm Hd' (Hkv & _ & [(-> & -> & Hperm & Et)|(p & x & Hx & Hperm & -> & -> & Ht)]).
  - split; [split; [done|]|left; split_and!; try done; intros k; by rewrite (tr_kv sd d d' k Et Hkv)].
    intros z e Hz He. destruct (kv_lookup _ _ _ _ Hkv He) as (e1 & He1 & Hke & _). rewrite Hke.
    unfold tget. rewrite Et. apply (qd_tab _ _ _ _ _ Hq z e1); [by rewrite <- Hperm|done].
  - assert (p ∈ ls ++ lm) as Hp by (rewrite Hperm; by left).
    destruct (qd_tab _ _ _ _ _ Hq p x Hp Hx) as [Hpx _]. split; [split; [done|]|right].
    + intros z e Hz He. destruct (kv_lookup _ _ _ _ Hkv He) as (e1 & He1 & Hke & _). rewrite Hke, Ht.
      destruct (qd_tab _ _ _ _ _ Hq z e1) as [Hte ?]; [rewrite Hperm; by right|done|].
      rewrite decide_False; [done|]. intros Ek. rewrite <- Ek, Hpx in Hte. injection Hte as <-.
      pose proof (dk_nd _ _ _ _ _ _ (qd_ok _ _ _ _ _ Hq)) as Hnd. rewrite app_nil_r, Hperm in Hnd.
      by apply NoDup_cons in Hnd as [Hni _].
    + exists (e_key x), (e_size x). split_and!; try done.
      * rewrite <- Hm. unfold tr. rewrite Hpx. cbn. by rewrite Hx.
      * intros k'. unfold tr. rewrite Ht. case_decide as E; [subst; by rewrite lookup_delete_eq|].
        rewrite lookup_delete_ne by done. rewrite <- Hm. unfold tr. destruct (tget sd d k') as [z|]; [|done]. cbn.
        specialize (Hkv z). destruct (ents d' !! z), (ents d !! z); try done. cbn in *. by injection Hkv as _ ->.
Qed.

Lemma empty_full sd ns d (m : gmap Key Z) : quiet_dom sd ns d [] [] -> (forall k, tr sd d k = m !! k) -> m = ∅.
Proof.
  intros Hq Hm. apply map_eq. intros k. rewrite lookup_empty, <- Hm. unfold tr.
  destruct (tget sd d k) as [p|] eqn:Hk; [|done]. destruct (tget_queued _ _ _ _ _ _ _ Hq Hk) as (e & _ & _ & Hin).
  by apply elem_of_nil in Hin.
Qed.

Lemma cost_bounds sd d ls lm U x p :
  dom_at sd d ls lm U x -> 1 <= costSmall (ents d) p <= 5 /\ 1 <= costMain (ents d) p <= 4.
Proof.
  intros Hd. unfold costSmall, costMain, freqOf. destruct (ents d !! p) as [e|] eqn:E; cbn.
  - destruct (dk_ptr _ _ _ _ _ _ Hd p e E) as [_ [_ ? _]]. case_if; lia.
  - lia.
Qed.

Lemma potential_bounds sd d ls lm U x :
  dom_at sd d ls lm U x -> len ls + len lm <= potential (ents d) ls lm <= 5 * (len ls + len lm).
Proof.
  intros Hd. unfold potential.
  assert (forall l, len l <= lsum (costSmall (ents d)) l <= 5 * len l /\ len l <= lsum (costMain (ents d)) l <= 4 * len l) as Hl.
  { induction l as [|p l IH]; [by split|]. rewrite !lsum_cons, len_cons. pose proof (cost_bounds _ _ _ _ _ _ p Hd). lia. }
  pose proof (Hl ls). pose proof (Hl lm). pose proof (len_nonneg lm). lia.
Qed.

Lemma scan_full b sd gmax ns d ls lm (m : gmap Key Z) need dst got :
  quiet_dom sd ns d ls lm -> (forall k, tr sd d k = m !! k) ->
  exists d' cs m', scan b sd gmax d need dst got = Some (d', dst ++ cs) /\ full sd ns d' m' /\ taken m cs m' /\
    (potential (ents d) ls lm <= Z.of_nat b -> need <= got + csum cs \/ m' = ∅).
Proof.
  revert d ls lm m dst got. induction b as [|b IH]; intros d ls lm m dst got Hq Hm; cbn [scan].
  { exists d, [], m. rewrite app_nil_r. split; [done|]. split; [by exists ls, lm|]. split; [done|]. intros Hp. right.
    pose proof (potential_bounds _ _ _ _ _ _ (qd_ok _ _ _ _ _ Hq)) as Hb. pose proof (len_nonneg ls). pose proof (len_nonneg lm).
    assert (ls = [] /\ lm = []) as [-> ->].
    { split; apply nil_length_inv; unfold len in *; lia. }
    by eapply empty_full. }
  destruct (got <? need) eqn:Eg.
  2:{ exists d, [], m. rewrite app_nil_r. split; [done|]. split; [by exists ls, lm|]. split; [done|]. intros _. left. cbn. lia. }
  destruct (visit_ok sd gmax d ls lm [] dst got (qd_ok _ _ _ _ _ Hq)) as (r & -> & Hr). cbn [mbind option_bind].
  destruct r as [[[d1 dst1] got1]|].
  2:{ destruct Hr as [-> ->]. exists d, [], m. rewrite app_nil_r. split; [done|]. split; [by exists [], []|].
      split; [done|]. intros _. right. by eapply empty_full. }
  destruct Hr as (ls1 & lm1 & Hd1 & Hv). pose proof Hv as (_ & Hpot & _).
  destruct (visit_full _ _ _ _ _ _ _ _ _ _ _ _ _ Hq Hm Hd1 Hv) as [Hq1 [(-> & -> & Hm1)|(k & n & Hk & -> & -> & Hm1)]].
  - destruct (IH d1 ls1 lm1 m dst got Hq1 Hm1) as (d' & cs & m' & E & Hf & Ht & Hn). exists d', cs, m'.
    split_and!; try done. intros Hp. apply Hn. lia.
  - destruct (IH d1 ls1 lm1 (delete k m) (dst ++ [mkCandidate k n]) (got + n) Hq1 Hm1) as (d' & cs & m' & E & Hf & Ht & Hn).
    exists d', (mkCandidate k n :: cs), m'. rewrite E, <- app_assoc. split_and!; try done.
    intros Hp. cbn. destruct Hn as [Hn|Hn]; [lia|left; unfold csum in *; lia|by right].
Qed.

Lemma victims_full sd gmax ns d m need now :
  full sd ns d m ->
  exists d' cs m', victimsDomain sd gmax d need now = Some (d', cs) /\ full sd ns d' m' /\ taken m cs m' /\
    (need <= csum cs \/ m' = ∅).
Proof.
  intros Hf. destruct (decay_full sd gmax ns d m now Hf) as (d1 & E & _ & (ls & lm & Hq & Hm)).
  unfold victimsDomain. rewrite E. cbn [mbind option_bind]. pose proof (qd_ok _ _ _ _ _ Hq) as Hd.
  rewrite (iq_count _ _ _ (dk_small _ _ _ _ _ _ Hd)), (iq_count _ _ _ (dk_main _ _ _ _ _ _ Hd)).
  pose proof (potential_bounds _ _ _ _ _ _ Hd) as Hb. pose proof (len_nonneg ls). pose proof (len_nonneg lm).
  destruct (scan_full (Z.to_nat (6 * (len ls + len lm) + 8)) sd gmax ns d1 ls lm m need [] 0 Hq Hm)
    as (d' & cs & m' & E2 & Hf' & Ht & Hn).
  exists d', cs, m'. split_and!; try done. destruct Hn as [Hn|Hn]; [lia|left; lia|by right].
Qed.

(** ** The policy *)

Definition wf (p : S3FIFO) : Prop := map_Forall (fun ns d => exists m, full (seed p) ns d m) (domains p).

(** The size a block is tracked with. *)
Definition tracked (p : S3FIFO) (k : Key) : option Z := d ← domains p !! NS k; tr (seed p) d k.

(** [m] is what the policy tracks of tenant [ns]. *)
Definition tenant_is (p : S3FIFO) (ns : Z) (m : gmap Key Z) : Prop :=
  forall k, m !! k = if decide (NS k = ns) then tracked p k else None.

Lemma full_ns sd ns d m k n : full sd ns d m -> m !! k = Some n -> NS k = ns.
Proof.
  intros (ls & lm & Hq & Hm) Hk. rewrite <- Hm in Hk. unfold tr in Hk. destruct (tget sd d k) as [p|] eqn:Ht; [|done].
  destruct (tget_queued _ _ _ _ _ _ _ Hq Ht) as (e & He & <- & Hin). by apply (qd_tab _ _ _ _ _ Hq p e).
Qed.

Lemma full_tr sd ns d m k : full sd ns d m -> tr sd d k = m !! k.
Proof. intros (ls & lm & _ & Hm). apply Hm. Qed.

Lemma full_tenant p ns d m : domains p !! ns = Some d -> full (seed p) ns d m -> tenant_is p ns m.
Proof.
  intros Hd Hf k. case_decide as E.
  - unfold tracked. rewrite E, Hd. cbn. by rewrite (full_tr _ _ _ _ _ Hf).
  - destruct (m !! k) eqn:Hk; [|done]. by apply (full_ns _ _ _ _ _ _ Hf) in Hk.
Qed.

Lemma wf_new rnd gmax : wf (NewS3FIFO rnd gmax).
Proof. apply map_Forall_empty. Qed.

Lemma wf_set p ns d m : wf p -> full (seed p) ns d m -> wf (set_domain ns d p).
Proof. intros Hp Hd. apply map_Forall_insert_2; [by exists m|done]. Qed.

Lemma tracked_set p ns d k :
  tracked (set_domain ns d p) k = if decide (NS k = ns) then tr (seed p) d k else tracked p k.
Proof.
  unfold tracked. cbn. case_decide as E; [subst; by rewrite lookup_insert_eq|by rewrite lookup_insert_ne].
Qed.

(** The domain of a tenant, fresh or not, and what it tracks. *)
Lemma ensure_full p ns : wf p -> exists m, full (seed p) ns (ensureDomain p ns) m /\ tenant_is p ns m.
Proof.
  intros Hp. unfold ensureDomain. destruct (domains p !! ns) as [d|] eqn:Hd.
  - destruct (Hp ns d Hd) as [m Hm]. exists m. split; [done|]. by eapply full_tenant.
  - exists ∅. split; [apply new_full|]. intros k. rewrite lookup_empty. case_decide as E; [|done].
    unfold tracked. by rewrite E, Hd.
Qed.

Lemma tracked_tenant p ns m k : tenant_is p ns m -> NS k = ns -> tracked p k = m !! k.
Proof. intros Hm Hk. rewrite Hm. by rewrite decide_True. Qed.

Lemma Admit_spec p k n t :
  wf p -> exists p', Admit p k n t = Some p' /\ wf p' /\
    forall k', tracked p' k' = if decide (k = k' /\ 0 < n /\ tracked p k = None) then Some n else tracked p k'.
Proof.
  intros Hp. unfold Admit. case_if.
  { exists p. split_and!; try done. intros k'. rewrite decide_False by lia. done. }
  destruct (ensure_full p (NS k) Hp) as (m & Hf & Hm).
  destruct (admit_full _ (ghostMax p) _ _ _ k n t Hf ltac:(lia) eq_refl) as (d' & -> & Hf'). cbn [mbind option_bind].
  eexists. split; [done|]. split; [by eapply wf_set|]. intros k'. rewrite tracked_set.
  rewrite (tracked_tenant p _ m k Hm eq_refl). destruct (decide (NS k' = NS k)) as [E|E].
  - rewrite (full_tr _ _ _ _ _ Hf'), (tracked_tenant p _ m k' Hm E). destruct (m !! k) eqn:Hk.
    + rewrite decide_False; [done|]. naive_solver.
    + destruct (decide (k = k')) as [<-|Hne]; [rewrite lookup_insert_eq, decide_True; [done|split_and!; [done|lia|done]]|].
      rewrite lookup_insert_ne, decide_False by naive_solver. done.
  - rewrite decide_False; [done|]. naive_solver.
Qed.

Lemma Touch_spec p k t :
  wf p -> exists p', Touch p k t = Some p' /\ wf p' /\ forall k', tracked p' k' = tracked p k'.
Proof.
  intros Hp. unfold Touch. destruct (domains p !! NS k) as [d|] eqn:Hd; [|by exists p].
  destruct (Hp _ d Hd) as [m Hf]. destruct (touch_full _ _ _ _ k Hf) as (d' & -> & Hf'). cbn [mbind option_bind].
  eexists. split; [done|]. split; [by eapply wf_set|]. intros k'. rewrite tracked_set. case_decide as E; [|done].
  rewrite (full_tr _ _ _ _ _ Hf'). symmetry. apply tracked_tenant with (NS k); [by eapply full_tenant|done].
Qed.

Lemma Remove_spec p k :
  wf p -> exists p', Remove p k = Some p' /\ wf p' /\
    forall k', tracked p' k' = if decide (k = k') then None else tracked p k'.
Proof.
  intros Hp. unfold Remove. destruct (domains p !! NS k) as [d|] eqn:Hd.
  2:{ exists p. split_and!; try done. intros k'. case_decide as E; [subst|done]. unfold tracked. by rewrite Hd. }
  destruct (Hp _ d Hd) as [m Hf]. destruct (remove_full _ _ _ _ k Hf) as (d' & -> & Hf'). cbn [mbind option_bind].
  eexists. split; [done|]. split; [by eapply wf_set|]. intros k'. rewrite tracked_set.
  pose proof (full_tenant p _ d m Hd Hf) as Hm. destruct (decide (NS k' = NS k)) as [E|E].
  - rewrite (full_tr _ _ _ _ _ Hf'), (tracked_tenant p _ m k' Hm E). case_decide as E'; [subst; by rewrite lookup_delete_eq|by rewrite lookup_delete_ne].
  - rewrite decide_False; [done|]. naive_solver.
Qed.

Lemma taken_spec m cs m' :
  taken m cs m' -> NoDup (c_Key <$> cs) /\ (forall c, c ∈ cs -> m !! c_Key c = Some (c_Size c)) /\
    (forall k, m' !! k = if decide (k ∈ c_Key <$> cs) then None else m !! k).
Proof.
  revert m. induction cs as [|c cs IH]; intros m; cbn [taken].
  - intros ->. split_and!; [constructor|by intros ? ?%elem_of_nil|]. intros k. rewrite decide_False; [done|]. apply not_elem_of_nil.
  - intros [Hc Ht]. destruct (IH _ Ht) as (Hnd & Hin & Hm'). rewrite fmap_cons.
    assert (c_Key c ∉ c_Key <$> cs) as Hni.
    { intros (c' & E & Hc')%list_elem_of_fmap. specialize (Hin c' Hc'). by rewrite <- E, lookup_delete_eq in Hin. }
    split_and!.
    + by apply NoDup_cons.
    + intros c' [->|Hc']%elem_of_cons; [done|]. specialize (Hin c' Hc'). by apply lookup_delete_Some in Hin as [_ ?].
    + intros k. rewrite Hm'. destruct (decide (c_Key c = k)) as [<-|Hne].
      * rewrite lookup_delete_eq, (decide_True (P := c_Key c ∈ _ :: _)) by (by left). by case_decide.
      * rewrite lookup_delete_ne by done. destruct (decide (k ∈ c_Key <$> cs)) as [Hk|Hk].
        -- rewrite decide_True; [done|]. by right.
        -- rewrite decide_False; [done|]. rewrite elem_of_cons. naive_solver.
Qed.

Lemma Victims_spec p ns need t :
  wf p -> exists p' cs, Victims p ns need t = Some (p', cs) /\ wf p' /\ NoDup (c_Key <$> cs) /\
    (forall c, c ∈ cs -> NS (c_Key c) = ns /\ tracked p (c_Key c) = Some (c_Size c)) /\
    (forall k, tracked p' k = if decide (k ∈ c_Key <$> cs) then None else tracked p k) /\
    (need <= csum cs \/ forall k, NS k = ns -> tracked p' k = None).
Proof.
  intros Hp. unfold Victims.
  assert (forall k, tracked p k = if decide (k ∈ c_Key <$> []) then None else tracked p k) as Hnil.
  { intros k. rewrite decide_False; [done|]. apply not_elem_of_nil. }
  destruct (domains p !! ns) as [d|] eqn:Hd.
  2:{ exists p, []. split_and!; try done; [constructor|by intros ? ?%elem_of_nil|]. right. intros k E. unfold tracked. by rewrite E, Hd. }
  case_if.
  { exists p, []. split_and!; try done; [constructor|by intros ? ?%elem_of_nil|]. left. cbn. lia. }
  destruct (Hp _ d Hd) as [m Hf]. pose proof (full_tenant p _ d m Hd Hf) as Hm.
  destruct (victims_full _ (ghostMax p) _ _ _ need t Hf) as (d' & cs & m' & -> & Hf' & Ht & Hn). cbn [mbind option_bind].
  destruct (taken_spec _ _ _ Ht) as (Hnd & Hin & Hm').
  eexists _, cs. split; [done|]. split; [by eapply wf_set|]. split; [done|].
  assert (forall c, c ∈ cs -> NS (c_Key c) = ns /\ tracked p (c_Key c) = Some (c_Size c)) as Hc.
  { intros c Hc. specialize (Hin c Hc). pose proof (full_ns _ _ _ _ _ _ Hf Hin) as E. split; [done|].
    by rewrite (tracked_tenant p ns m _ Hm E). }
  split; [done|]. split.
  - intros k. rewrite tracked_set. destruct (decide (NS k = ns)) as [E|E].
    + by rewrite (full_tr _ _ _ _ _ Hf'), Hm', (tracked_tenant p ns m k Hm E).
    + rewrite decide_False; [done|]. intros (c & -> & Hc')%list_elem_of_fmap. by destruct (Hc c Hc').
  - destruct Hn as [Hn| ->]; [by left|]. right. intros k E. rewrite tracked_set, decide_True by done.
    by rewrite (full_tr _ _ _ _ _ Hf'), lookup_empty.
Qed.

Lemma DropDomain_spec p ns :
  wf p -> wf (DropDomain p ns) /\ forall k, tracked (DropDomain p ns) k = if decide (NS k = ns) then None else tracked p k.
Proof.
  intros Hp. split; [by apply map_Forall_delete|]. intros k. unfold tracked. cbn.
  case_decide as E; [subst; by rewrite lookup_delete_eq|by rewrite lookup_delete_ne].
Qed.

Lemma tenant_unique p ns m m' : tenant_is p ns m -> tenant_is p ns m' -> m = m'.
Proof. intros H1 H2. apply map_eq. intros k. by rewrite H1, H2. Qed.

Lemma tenant_ext p p' ns m : (forall k, tracked p' k = tracked p k) -> tenant_is p' ns m -> tenant_is p ns m.
Proof. intros E Hm k. by rewrite Hm, E. Qed.

Section Usage.
Context `{!MapOrder}.

(** The usage report lists tenants once, with exactly their tracked bytes, and
    leaves out no tenant that has any. *)
Definition reports (p : S3FIFO) (nss : list Z) (us : list DomainUsage) : Prop :=
  NoDup (d_NS <$> us) /\ (forall u, u ∈ us -> d_NS u ∈ nss /\ exists m, tenant_is p (d_NS u) m /\ d_Bytes u = msum id m) /\
  (forall ns m, ns ∈ nss -> tenant_is p ns m -> 0 < msum id m -> exists u, u ∈ us /\ d_NS u = ns).

Lemma usageOf_spec p nss now dst :
  wf p -> NoDup nss -> (forall ns, ns ∈ nss -> is_Some (domains p !! ns)) ->
  exists p' us, usageOf p nss now dst = Some (p', dst ++ us) /\ wf p' /\ (forall k, tracked p' k = tracked p k) /\
    reports p nss us.
Proof.
  revert p dst. induction nss as [|ns nss IH]; intros p dst Hp Hnd Hin; cbn [usageOf].
  { exists p, []. rewrite app_nil_r. split; [done|]. split; [done|]. split; [done|].
    split; [constructor|]. split; [by intros ? ?%elem_of_nil|by intros ? ? ?%elem_of_nil]. }
  apply NoDup_cons in Hnd as [Hni Hnd]. destruct (Hin ns) as [d Hd]; [by left|]. rewrite Hd.
  destruct (Hp _ d Hd) as [m Hf]. destruct (decay_full _ (ghostMax p) _ _ _ now Hf) as (d' & -> & _ & Hf'). cbn [mbind option_bind].
  set (p1 := set_domain ns d' p). assert (wf p1) as Hp1 by (by eapply wf_set).
  pose proof (full_tenant p ns d m Hd Hf) as Hm.
  assert (forall k, tracked p1 k = tracked p k) as Htr.
  { intros k. unfold p1. rewrite tracked_set. case_decide as E; [|done].
    by rewrite (full_tr _ _ _ _ _ Hf'), (tracked_tenant p ns m k Hm E). }
  set (rep := (0 <? smallBytes d' + mainBytes d') || (0 <? ghostBytes (ghost d'))).
  set (u := mkDomainUsage ns (smallBytes d' + mainBytes d') (ghostBytes (ghost d'))).
  destruct (IH p1 (if rep then dst ++ [u] else dst) Hp1 Hnd) as (p' & us & E & Hp' & Htr' & Hndu & Hus & Hall).
  { intros z Hz. unfold p1. cbn. rewrite lookup_insert_ne; [apply Hin; by right|]. by intros ->. }
  exists p', (if rep then u :: us else us). rewrite E. split; [destruct rep; [by rewrite <- app_assoc|done]|].
  split; [done|]. split; [intros k; by rewrite Htr', Htr|].
  assert (forall v, v ∈ us -> d_NS v ∈ ns :: nss /\ exists m, tenant_is p (d_NS v) m /\ d_Bytes v = msum id m) as Hus'.
  { intros v Hv. destruct (Hus v Hv) as (Hvn & mv & Hmv & Hb). split; [by right|]. exists mv. split; [|done].
    by eapply tenant_ext; [|done]. }
  assert (d_Bytes u = msum id m) as Hbu by (apply (full_bytes _ _ _ _ Hf')).
  assert (forall v, v ∈ us -> d_NS v <> ns) as Hne by (intros v Hv E0; apply Hni; rewrite <- E0; by apply Hus).
  split_and!.
  - destruct rep; [|done]. rewrite fmap_cons. apply NoDup_cons. split; [|done].
    intros (v & E' & Hv)%list_elem_of_fmap. by apply (Hne v Hv).
  - intros v Hv. destruct rep; [|by apply Hus']. apply elem_of_cons in Hv as [->|Hv]; [|by apply Hus'].
    split; [by left|]. exists m. done.
  - intros z mz [->|Hz]%elem_of_cons Hmz Hpos.
    + assert (mz = m) as -> by (by eapply tenant_unique). assert (rep = true) as -> by (unfold rep; rewrite <- Hbu in Hpos; cbn in Hpos; lia).
      exists u. split; [by left|done].
    + destruct (Hall z mz Hz) as (v & Hv & Ev); [by eapply tenant_ext; [|done]; intros k; rewrite Htr|done|].
      exists v. split; [|done]. destruct rep; [by right|done].
Qed.

Lemma Usage_spec p t :
  wf p -> exists p' us, Usage p t = Some (p', us) /\ wf p' /\ (forall k, tracked p' k = tracked p k) /\
    reports p (nsOrder (fst <$> map_to_list (domains p))) us.
Proof.
  intros Hp. unfold Usage. apply (usageOf_spec p _ t []); [done| |].
  - rewrite nsOrder_perm. apply NoDup_fst_map_to_list.
  - intros ns Hns. rewrite nsOrder_perm in Hns. apply list_elem_of_fmap in Hns as ([ns' d] & -> & Hd).
    apply elem_of_map_to_list in Hd. by eexists.
Qed.

#[export] Program Instance s3fifo_laws : PolicyLaws S3FIFO := { pol_wf := wf }.
Next Obligation. intros p k n t Hp. destruct (Admit_spec p k n t Hp) as (p' & E & ? & _). eauto. Qed.
Next Obligation. intros p k t Hp. destruct (Touch_spec p k t Hp) as (p' & E & ? & _). eauto. Qed.
Next Obligation. intros p k Hp. destruct (Remove_spec p k Hp) as (p' & E & ? & _). eauto. Qed.
Next Obligation. intros p ns need t Hp. destruct (Victims_spec p ns need t Hp) as (p' & cs & E & ? & _). eauto. Qed.
Next Obligation. intros p t Hp. destruct (Usage_spec p t Hp) as (p' & us & E & ? & _). eauto. Qed.
Next Obligation. intros p ns Hp. destruct (DropDomain_spec p ns Hp) as [? _]. eauto. Qed.

End Usage.

(** ** Interleaved sections *)

(** One tenant's domain with any number of calls in flight: [published] are
    entries whose [Admit] has not yet taken the queue lock, [removing] entries
    whose [Remove] has not. *)
Record conf := mkConf { dom_ : s3Domain; published : list Z; removing : list Z }.

Inductive action :=
| APublish (k : Key) (n : Z)      (* Admit, first section *)
| AEnqueue (i : nat) (now : Z)    (* Admit, second section *)
| ATake (k : Key)                 (* Remove, first section *)
| ADrop (i : nat)                 (* Remove, second section *)
| ATouch (k : Key)
| AVisit                          (* one visit of a Victims scan *)
| ADecay (now : Z).

(** One section; [None] is a panic. *)
Definition act (sd gmax : Z) (a : action) (c : conf) : option conf :=
  match a with
  | APublish k n =>
      let (d, o) := publish sd (dom_ c) k n in
      Some (mkConf d (match o with Some p => p :: published c | None => published c end) (removing c))
  | AEnqueue i now =>
      match published c !! i with
      | Some p => d ← enqueue sd gmax (dom_ c) p now; Some (mkConf d (delete i (published c)) (removing c))
      | None => Some c
      end
  | ATake k =>
      let (d, o) := takeOut sd (dom_ c) k in
      Some (mkConf d (published c) (match o with Some p => p :: removing c | None => removing c end))
  | ADrop i =>
      match removing c !! i with
      | Some p => d ← drop_ (dom_ c) p; Some (mkConf d (published c) (delete i (removing c)))
      | None => Some c
      end
  | ATouch k => d ← touchDomain sd (dom_ c) k; Some (mkConf d (published c) (removing c))
  | AVisit =>
      r ← visit sd gmax (dom_ c) [] 0;
      Some (match r with Some (d, _, _) => mkConf d (published c) (removing c) | None => c end)
  | ADecay now => d ← maybeDecay gmax (dom_ c) now; Some (mkConf d (published c) (removing c))
  end.

Fixpoint acts (sd gmax : Z) (l : list action) (c : conf) : option conf :=
  match l with
  | [] => Some c
  | a :: l => c ← act sd gmax a c; acts sd gmax l c
  end.

Definition positive (a : action) : bool := match a with APublish _ n => 0 <? n | _ => true end.

Definition conf_ok (sd : Z) (c : conf) : Prop :=
  (exists ls lm, dom_ok sd (dom_ c) ls lm (published c)) /\
  forall p, p ∈ removing c -> is_Some (ents (dom_ c) !! p) /\ forall k, tget sd (dom_ c) k <> Some p.

Lemma kv_some h h' p : same_kv h h' -> is_Some (h' !! p) <-> is_Some (h !! p).
Proof. intros Hkv. rewrite <- (fmap_is_Some kv (h' !! p)), <- (fmap_is_Some kv (h !! p)), Hkv. done. Qed.

(** A section that adds no table entry keeps the removers' entries out. *)
Lemma conf_step sd c d ls lm U R :
  conf_ok sd c -> dom_ok sd d ls lm U -> same_kv (ents (dom_ c)) (ents d) ->
  (forall k p, tget sd d k = Some p -> tget sd (dom_ c) k = Some p) -> (forall p, p ∈ R -> p ∈ removing c) ->
  conf_ok sd (mkConf d U R).
Proof.
  intros [_ HR] Hd Hkv Ht Hsub. split; [by exists ls, lm|]. cbn. intros p Hp. destruct (HR p (Hsub p Hp)) as [Hs Hn].
  split; [by rewrite (kv_some _ _ _ Hkv)|]. intros k Hk. apply (Hn k). auto.
Qed.

Lemma act_ok sd gmax a c :
  conf_ok sd c -> positive a = true -> exists c', act sd gmax a c = Some c' /\ conf_ok sd c'.
Proof.
  intros Hc Ha. pose proof Hc as [(ls & lm & Hd) HR].
  assert (forall d, table d = table (dom_ c) -> forall k p, tget sd d k = Some p -> tget sd (dom_ c) k = Some p) as Hsame
    by (intros d E k p; unfold tget; by rewrite E).
  destruct a as [k n|i now|k|i|k| |now]; cbn [act].
  - destruct (tget sd (dom_ c) k) as [p|] eqn:Hk.
    { unfold publish. rewrite Hk. eexists. split; [done|]. by destruct c. }
    destruct (publish_ok sd (dom_ c) ls lm (published c) k n Hd ltac:(cbn in Ha; lia) Hk) as (d & -> & Hd' & Ee & Hf & Ht).
    eexists. split; [done|]. split; [by exists ls, lm|]. cbn. intros p Hp. destruct (HR p Hp) as [Hs Hn].
    assert (p <> nextEnt (dom_ c)) as Hne by (intros ->; destruct Hs; congruence). split.
    + rewrite Ee, lookup_insert_ne by done. done.
    + intros k'. rewrite Ht. case_decide; [congruence|done].
  - destruct (published c !! i) as [p|] eqn:Hi; [|by exists c].
    pose proof (take_drop_middle _ _ _ Hi) as Es. rewrite <- Es in Hd.
    destruct (enqueue_ok sd gmax (dom_ c) ls lm _ p _ now Hd) as (x & d & ls' & lm' & _ & -> & Hd' & Et & Hkv & _).
    eexists. split; [done|]. rewrite delete_take_drop. eapply conf_step; eauto.
  - unfold takeOut. eexists. split; [done|]. pose proof (tset_delete_ok _ _ _ _ _ _ k Hd) as Hd'.
    assert (forall k' p, tget sd (tset sd (dom_ c) k (delete k)) k' = Some p -> k <> k' /\ tget sd (dom_ c) k' = Some p) as Ht.
    { intros k' p. rewrite tget_delete by apply Hd. by case_decide. }
    split; [by exists ls, lm|]. cbn. destruct (tget sd (dom_ c) k) as [q|] eqn:Hk.
    2:{ intros p Hp. destruct (HR p Hp) as [Hs Hn]. split; [done|]. intros k' [_ Hk']%Ht. by apply (Hn k'). }
    intros p [->|Hp]%elem_of_cons.
    + destruct (dk_tab _ _ _ _ _ _ Hd k q Hk) as (e & He & Hke & _). split; [by eexists|]. intros k' [Hne Hk']%Ht.
      destruct (dk_tab _ _ _ _ _ _ Hd k' q Hk') as (e' & He' & Hke' & _). congruence.
    + destruct (HR p Hp) as [Hs Hn]. split; [done|]. intros k' [_ Hk']%Ht. by apply (Hn k').
  - destruct (removing c !! i) as [p|] eqn:Hi; [|by exists c].
    destruct (HR p) as [[x Hx] Hn]; [by eapply list_elem_of_lookup_2|].
    destruct (drop_ok sd (dom_ c) ls lm _ p x Hd Hx Hn) as (d & ls' & lm' & -> & Hd' & Et & Hkv & _).
    eexists. split; [done|]. eapply conf_step; eauto. intros z Hz. rewrite (delete_Permutation _ _ _ Hi). by right.
  - destruct (touch_ok sd (dom_ c) ls lm _ k Hd) as (d & -> & Hd' & Et & Hkv). eexists. split; [done|].
    eapply conf_step; eauto.
  - destruct (visit_ok sd gmax (dom_ c) ls lm _ [] 0 Hd) as (r & -> & Hr). cbn [mbind option_bind].
    destruct r as [[[d dst] got]|]; [|by exists c]. destruct Hr as (ls' & lm' & Hd' & Hkv & _ & Hv). eexists. split; [done|].
    eapply conf_step; eauto. intros k p Hk. destruct Hv as [(_ & _ & _ & Et)|(q & x & _ & _ & _ & _ & Ht)].
    + by apply (Hsame d Et).
    + rewrite Ht in Hk. by case_decide.
  - destruct (decay_ok sd gmax (dom_ c) ls lm _ None now Hd) as (d & -> & Eq & Hd'). eexists. split; [done|].
    unfold queues in Eq. injection Eq as Et Ee _ _ _ _ _ _. eapply conf_step; eauto. by rewrite Ee.
Qed.

Lemma acts_ok sd gmax l c :
  conf_ok sd c -> forallb positive l = true -> exists c', acts sd gmax l c = Some c' /\ conf_ok sd c'.
Proof.
  revert c. induction l as [|a l IH]; intros c Hc Hl; cbn [acts]; [eauto|].
  cbn in Hl. apply andb_true_iff in Hl as [Ha Hl]. destruct (act_ok sd gmax a c Hc Ha) as (c1 & -> & Hc1). by apply IH.
Qed.

(** ** The properties *)


(** A victim scan returns, within its budget of [6N + 8] visits, distinct
    tracked blocks of that tenant with their sizes that cover the need, or it
    runs the tenant dry: the budget is never what ends the scan. The blocks
    handed out leave the policy and no other block does. *)
Theorem s3fifo_victims_cover p ns need t :
  wf p ->
  exists p' cs, Victims p ns need t = Some (p', cs) /\ wf p' /\ NoDup (c_Key <$> cs) /\
    (forall c, c ∈ cs -> NS (c_Key c) = ns /\ tracked p (c_Key c) = Some (c_Size c)) /\
    (forall k, tracked p' k = if decide (k ∈ c_Key <$> cs) then None else tracked p k) /\
    (need <= csum cs \/ forall k, NS k = ns -> tracked p' k = None).
Proof. apply Victims_spec. Qed.

(** The usage report is exact for every iteration order of the tenant map:
    each tenant appears at most once, with the sum of its tracked sizes, and a
    tenant that tracks any bytes is not left out. *)
Theorem s3fifo_usage_exact `{!MapOrder} p t :
  wf p ->
  exists p' us, Usage p t = Some (p', us) /\ (forall k, tracked p' k = tracked p k) /\ NoDup (d_NS <$> us) /\
    (forall u, u ∈ us -> exists m, tenant_is p (d_NS u) m /\ d_Bytes u = msum id m) /\
    (forall ns m, tenant_is p ns m -> 0 < msum id m -> exists u, u ∈ us /\ d_NS u = ns).
Proof.
  intros Hp. destruct (Usage_spec p t Hp) as (p' & us & E & _ & Htr & Hnd & Hus & Hall). exists p', us.
  split_and!; try done; [intros u Hu; by apply Hus|]. intros ns m Hm Hpos. apply (Hall ns m); try done.
  rewrite nsOrder_perm. destruct (domains p !! ns) as [d|] eqn:Hd.
  - apply list_elem_of_fmap. exists (ns, d). split; [done|]. by apply elem_of_map_to_list.
  - assert (m = ∅) as ->; [|by rewrite msum_empty in Hpos]. apply map_eq. intros k. rewrite Hm, lookup_empty.
    case_decide as E'; [|done]. unfold tracked. by rewrite E', Hd.
Qed.

(** No interleaving of the locked sections corrupts a domain. Admits and
    removes in flight may be cut between their two sections, and scan visits,
    touches and decay ticks may fall anywhere: no section dereferences [nil],
    both FIFOs stay well-linked disjoint lists, and the byte and entry counters
    stay exact. *)
Theorem s3fifo_interleaving_safe sd gmax l :
  forallb positive l = true ->
  exists c ls lm, acts sd gmax l (mkConf newDomain [] []) = Some c /\
    isq (ents (dom_ c)) (small (dom_ c)) ls /\ isq (ents (dom_ c)) (main (dom_ c)) lm /\ NoDup (ls ++ lm) /\
    smallBytes (dom_ c) = sizes (ents (dom_ c)) ls /\ mainBytes (dom_ c) = sizes (ents (dom_ c)) lm /\
    mainCount (dom_ c) = len lm.
Proof.
  intros Hl. destruct (acts_ok sd gmax l (mkConf newDomain [] [])) as (c & E & (ls & lm & Hd) & _); [|done|].
  - split; [|by intros ? ?%elem_of_nil]. destruct (new_full sd 0) as (ls & lm & Hq & _). exists ls, lm. apply Hq.
  - exists c, ls, lm. split; [done|]. pose proof (dk_nd _ _ _ _ _ _ Hd) as Hnd. rewrite app_assoc in Hnd.
    apply NoDup_app in Hnd as [Hnd _]. split_and!; try done; apply Hd.
Qed.

(** ** Concrete inputs *)

#[local] Instance listOrder : MapOrder := {| nsOrder := id; nsOrder_perm := fun l => reflexivity l |}.

Definition keyA : Key := mkKey 1 [Byte.x01].
Definition keyB : Key := mkKey 1 [Byte.x02].
Definition sampleP : S3FIFO :=
  default (NewS3FIFO 0 0) (p ← Admit (NewS3FIFO 7 4096) keyA 10 1; p ← Touch p keyA 2; Admit p keyB 20 3).

Lemma sampleP_wf : wf sampleP.
Proof.
  unfold sampleP. destruct (Admit_spec (NewS3FIFO 7 4096) keyA 10 1 (wf_new _ _)) as (p1 & -> & H1 & _). cbn [mbind option_bind].
  destruct (Touch_spec p1 keyA 2 H1) as (p2 & -> & H2 & _). cbn [mbind option_bind].
  destruct (Admit_spec p2 keyB 20 3 H2) as (p3 & -> & H3 & _). done.
Qed.


Lemma s3fifo_victims_cover_witness :
  exists p' cs, Victims sampleP 1 15 9 = Some (p', cs) /\ wf p' /\ NoDup (c_Key <$> cs) /\
    (forall c, c ∈ cs -> NS (c_Key c) = 1 /\ tracked sampleP (c_Key c) = Some (c_Size c)) /\
    (forall k, tracked p' k = if decide (k ∈ c_Key <$> cs) then None else tracked sampleP k) /\
    (15 <= csum cs \/ forall k, NS k = 1 -> tracked p' k = None).
Proof. apply (s3fifo_victims_cover sampleP 1 15 9 sampleP_wf). Defined.

Lemma s3fifo_usage_exact_witness :
  exists p' us, Usage sampleP 9 = Some (p', us) /\ (forall k, tracked p' k = tracked sampleP k) /\ NoDup (d_NS <$> us) /\
    (forall u, u ∈ us -> exists m, tenant_is sampleP (d_NS u) m /\ d_Bytes u = msum id m) /\
    (forall ns m, tenant_is sampleP ns m -> 0 < msum id m -> exists u, u ∈ us /\ d_NS u = ns).
Proof. apply (s3fifo_usage_exact sampleP 9 sampleP_wf). Defined.

(** A remove that runs between the two sections of an admit of the same key,
    with a scan visit in between. *)
Lemma s3fifo_interleaving_safe_witness :
  exists c ls lm, acts 7 4096 [APublish keyA 10; APublish keyB 20; ATake keyA; AEnqueue 0 1; ADrop 0; AVisit; AEnqueue 0 2]
      (mkConf newDomain [] []) = Some c /\
    isq (ents (dom_ c)) (small (dom_ c)) ls /\ isq (ents (dom_ c)) (main (dom_ c)) lm /\ NoDup (ls ++ lm) /\
    smallBytes (dom_ c) = sizes (ents (dom_ c)) ls /\ mainBytes (dom_ c) = sizes (ents (dom_ c)) lm /\
    mainCount (dom_ c) = len lm.
Proof. apply (s3fifo_interleaving_safe 7 4096 [APublish keyA 10; APublish keyB 20; ATake keyA; AEnqueue 0 1; ADrop 0; AVisit; AEnqueue 0 2]). reflexivity. Defined.

End S3Spec.
