(* ===== verification/DramRefine.v ===== *)
(** The DRAM tier as a whole: the store over the real allocator, serving any
    sequence of requests with any number of views held open.

    The contract is a lossy write-once cache ([allows]): a key answers with the
    bytes it was stored with or not at all, never with others. *)

From Stdlib Require Import ZArith Lia.
From coqutil Require Import Byte.
From stdpp Require Import base numbers list gmap.
From S2P Require Import Prelude.
From S2P Require Import Wire.
From S2P Require Import Tenant.
From S2P Require Import OffsetAlloc.
From S2P Require Import AllocBins.
From S2P Require Import AllocInv.
From S2P Require Import AllocSpec.
From S2P Require Import Eviction.
From S2P Require Import BlockRef.
From S2P Require Import Index.
From S2P Require Import DramStore.
From S2P Require Import DramInv.
From S2P Require Import DramEvict.
From S2P Require Import DramSpec.
From S2P Require Import S3Fifo.
From S2P Require Import S3FifoSpec.
Import Ops Eviction Block Lifecycle Index Dram DramInv DramEvict DramSpec.
Open Scope Z_scope.
Open Scope go_scope.

Module DramRefine.

(** ** The allocator of [offsetalloc.go] keeps the store's contract *)

#[export] Instance offset_alloc : ExtentAlloc OffsetAlloc.Allocator := {
  ea_Alloc := OffsetAlloc.Alloc;
  ea_Free := OffsetAlloc.Free;
  ea_Report := OffsetAlloc.storageReport;
  ea_MaxAllocs := OffsetAlloc.MaxAllocs
}.

Lemma live_bytes_msum a : AllocSpec.live_bytes a = msum snd (AllocSpec.live a).
Proof. unfold AllocSpec.live_bytes, msum. rewrite map_fold_foldr. induction (map_to_list _) as [|[? ?] ? IH]; cbn; congruence. Qed.

Lemma offset_pack a : AllocSpec.wf a -> msum snd (AllocSpec.live a) <= OffsetAlloc.size a.
Proof.
  intros (ch & bins & F & HI). rewrite <- live_bytes_msum.
  destruct (AllocSpec.conservation a ch bins F HI) as [Hc _].
  pose proof (AllocBins.bn_sum _ _ _ (AllocInv.iv_bins _ _ _ _ HI)) as Hf. unfold u32 in Hf.
  pose proof (Z.mod_pos_bound (AllocBins.sumsz a F) (2 ^ 32)). lia.
Qed.

#[export] Program Instance offset_alloc_laws : ExtentAllocLaws OffsetAlloc.Allocator := {
  ea_wf := AllocSpec.wf;
  ea_live := AllocSpec.live;
  ea_size := OffsetAlloc.size
}.
Next Obligation. intros a m o n Hwf Hm. by apply (proj1 (AllocSpec.live_ranges Hwf) m (o, n)). Qed.
Next Obligation. intros a m m' r r' Hwf Hm Hm' Hne. by apply (proj2 (AllocSpec.live_ranges Hwf) m r m' r'). Qed.
Next Obligation. apply offset_pack. Qed.
Next Obligation.
  intros a n Hwf Hn. destruct (AllocSpec.Alloc_live a n Hwf) as (a' & al & ok & E & Hwf' & Hok); [split; lia|].
  exists a', al, ok. destruct ok.
  - destruct Hok as (H1 & H2 & _ & _ & H3 & _). auto.
  - destruct Hok as (-> & _). auto.
Qed.
Next Obligation. apply AllocSpec.Free_live_total. Qed.
Next Obligation. apply AllocSpec.report_total. Qed.

(** ** Requests *)

Inductive request :=
| RPut (ns : Z) (key data : bytes) (xxh3 : Z)
| RGet (ns : Z) (key : bytes)          (* a view, kept open *)
| RRelease (i : nat)                   (* the [i]-th open view *)
| RCopy (ns : Z) (key : bytes)
| RDelete (ns : Z) (key : bytes) (force : bool)
| RTouch (ns : Z) (key : bytes) (sub ttlMS : Z)
| RPin (ns : Z) (key : bytes) (sub : Z)
| REvict
| RTick.

Inductive response :=
| Status (v : Z)
| Block (o : option (bytes * Z))
| Freed (n : Z)
| Done.

Section System.
Context {P : Type} `{!Policy P} `{!PolicyLaws P} `{!IndexEnv} (time : nat -> Z).

Abbreviation st := (Store OffsetAlloc.Allocator P).

(** The store and the open views: the record each pins and the bytes it shows. *)
Record conf := mkConf { dram : st; held : list (Z * bytes) }.

Definition evictorCfg (s : st) : EvictorConfig :=
  default (withDefaults (mkEvictorConfig 0 0 0)) (evict s).

(** One request, run alone. *)
Definition exec (q : request) (c : conf) : option (response * conf) :=
  let with_ {T} (m : sm st T) (f : T -> response * list (Z * bytes)) :=
    '(x, s) ← m (dram c); let (r, h) := f x in Some (r, mkConf s h) in
  match q with
  | RPut ns key data xxh3 => with_ (Put time ns key data xxh3) (fun v => (Status v, held c))
  | RGet ns key => with_ (GetRef time ns key)
      (fun o => match o with
                | Some (b, sum, p) => (Block (Some (b, sum)), (p, b) :: held c)
                | None => (Block None, held c)
                end)
  | RRelease i =>
      match held c !! i with
      | Some (p, _) => with_ (releaseRef p) (fun _ => (Done, delete i (held c)))
      | None => Some (Done, c)
      end
  | RCopy ns key => with_ (GetCopy time ns key) (fun o => (Block o, held c))
  | RDelete ns key force => with_ (Delete time ns key force) (fun v => (Status v, held c))
  | RTouch ns key sub ttlMS => with_ (TouchLease time ns key sub ttlMS) (fun v => (Status v, held c))
  | RPin ns key sub => with_ (PinOp ns key sub) (fun v => (Status v, held c))
  | REvict => with_ (EvictNow time) (fun n => (Freed n, held c))
  | RTick => with_ (evictorTick time (evictorCfg (dram c))) (fun n => (Freed n, held c))
  end.

Fixpoint serve (qs : list request) (c : conf) : option (list response * conf) :=
  match qs with
  | [] => Some ([], c)
  | q :: qs =>
      '(r, c) ← exec q c;
      '(rs, c) ← serve qs c;
      Some (r :: rs, c)
  end.

(** What the frame parser and the PUT assembler admit. *)
Definition admissible (q : request) : bool :=
  match q with
  | RPut _ _ data _ => len data <? 2 ^ 32
  | RTouch _ _ _ ttlMS => (0 <=? ttlMS) && (ttlMS <? 2 ^ 32)
  | _ => true
  end.

(** ** The contract *)

(** [m], [q], [r], [m']: from the blocks [m], request [q] may answer [r] and
    leave the blocks [m']. *)
Definition allows (m : gmap Key (bytes * Z)) (q : request) (r : response) (m' : gmap Key (bytes * Z)) : Prop :=
  match q with
  | RPut ns key data x =>
      match m !! mkKey ns key with
      | Some (_, x') => r = Status (if x' =? x then StatusOKExists else StatusErrImmutableConflict) /\ m' = m
      | None => (r = Status StatusOK /\ m' !! mkKey ns key = Some (data, x) /\ delete (mkKey ns key) m' ⊆ m) \/
                (r = Status StatusErrQuotaBytes /\ m' ⊆ m)
      end
  | RGet ns key | RCopy ns key => r = Block (m !! mkKey ns key) /\ m' = m
  | RRelease _ => r = Done /\ m' = m
  | RDelete ns key _ =>
      match m !! mkKey ns key with
      | None => r = Status StatusNotFound /\ m' = m
      | Some _ => (r = Status StatusOK /\ m' = delete (mkKey ns key) m) \/
                  ((r = Status StatusErrPinned \/ r = Status StatusErrLeased) /\ m' = m)
      end
  | RTouch ns key _ _ | RPin ns key _ => (m !! mkKey ns key = None -> r = Status StatusNotFound) /\ m' = m
  | REvict | RTick => (exists n, r = Freed n) /\ m' ⊆ m
  end.

Inductive allowed : gmap Key (bytes * Z) -> list request -> list response -> gmap Key (bytes * Z) -> Prop :=
| allowed_nil m : allowed m [] [] m
| allowed_cons m q r m' qs rs m'' :
    allows m q r m' -> allowed m' qs rs m'' -> allowed m (q :: qs) (r :: rs) m''.

(** ** The invariant of the system *)

(** Readers per record, from the open views; nothing owed between requests. *)
Definition readers (h : list (Z * bytes)) : ghost :=
  mkGhost (fun p => len (filter (fun e => e.1 = p) h)) (fun _ => 0) 0.

Record sys_ok (c : conf) : Prop := mkSysOk {
  so_inv : Inv (readers (held c)) (dram c);
  so_views : forall p b, (p, b) ∈ held c -> exists r, heap (dram c) !! p = Some r /\ view (dram c) r = Some b
}.

(** The resident bytes fit the arena. *)
Lemma resident_fit g (s : st) : Inv g s -> msum Len (res s) <= len (arena s).
Proof.
  intros HI. destruct (iv_arena g s HI) as (_ & Ha & _).
  pose proof (ea_pack (alloc s) (iv_wf g s HI)) as Hpack.
  enough (msum Len (res s) <= msum (fun r => r.2 * 4096) (ea_live (alloc s))) as Hle.
  { assert (msum (fun r => r.2 * 4096) (ea_live (alloc s)) = msum snd (ea_live (alloc s)) * 4096) as E
      by apply msum_scale. lia. }
  apply (msum_cover _ _ (fun _ r => allocMeta r)).
  - intros k r (p & Hk & Hp)%res_lookup. destruct (absm_some g s k p r HI Hk Hp) as (b & _ & _ & _ & Hr).
    destruct (decide (Len r <= 0)) as [|Hl]; [by left|]. right.
    destruct (ref_extent g s p r HI Hp Hr) as (He & _ & _ & _ & Hu); [lia|]. eauto.
  - intros k r k2 r2 (p & Hk & Hp)%res_lookup (p2 & Hk2 & Hp2)%res_lookup Hl Hl2 Hm.
    destruct (absm_some g s k p r HI Hk Hp) as (b & _ & _ & _ & Hr).
    destruct (absm_some g s k2 p2 r2 HI Hk2 Hp2) as (b2 & _ & _ & _ & Hr2).
    assert (p = p2) as <- by (by apply (iv_meta g s HI p p2 r r2)). by eapply (iv_inj g s HI).
  - intros m [o n] Hm. destruct (ea_range (alloc s) m o n (iv_wf g s HI) Hm). cbn. lia.
Qed.

(** ** Each request keeps the invariant and is allowed *)

Lemma readers_pos h p b : (p, b) ∈ h -> 0 < rd (readers h) p.
Proof.
  intros Hin. cbn. assert ((p, b) ∈ filter (fun e : Z * bytes => e.1 = p) h) as Hf by (by apply list_elem_of_filter).
  destruct (filter _ h); [by apply elem_of_nil in Hf|]. rewrite len_cons. pose proof (len_nonneg l). lia.
Qed.

Lemma reader_ref g (s : st) p r : Inv g s -> heap s !! p = Some r -> 0 < rd g p -> 0 < Refcount r.
Proof.
  intros HI Hp Hr. destruct (indexed_dec s p) as [[k Hk]|Hn].
  - rewrite (iv_in g s HI k p r Hk Hp). lia.
  - rewrite (iv_out g s HI p r Hp Hn). lia.
Qed.

(** Open views show the same bytes as before. *)
Lemma sys_step c (s' : st) h' :
  sys_ok c -> Inv (readers h') s' -> evolves (dram c) s' -> (forall e, e ∈ h' -> e ∈ held c) ->
  sys_ok (mkConf s' h').
Proof.
  intros [HI Hv] HI' Hev Hsub. split; [done|]. cbn. intros p b Hin.
  destruct (Hv p b (Hsub _ Hin)) as (r & Hp & Hb). destruct (Hev p r Hp) as (r' & Hp' & _ & Hsame).
  exists r'. split; [done|]. destruct (Hsame (reader_ref _ s' p r' HI' Hp' (readers_pos h' p b Hin))) as [_ ->]. done.
Qed.

Lemma readers_cons h p b q : rd (readers ((p, b) :: h)) q = rd (addRd (readers h) p 1) q.
Proof.
  unfold readers, addRd. cbn [rd]. rewrite filter_cons. cbn [fst]. destruct (decide (p = q)) as [<-|Hne].
  - rewrite decide_True by done. rewrite len_cons. lia.
  - by rewrite decide_False by naive_solver.
Qed.

Lemma readers_delete h i p b q :
  h !! i = Some (p, b) -> rd (readers (delete i h)) q = rd (addRd (readers h) p (-1)) q.
Proof.
  intros Hi. pose proof (readers_cons (delete i h) p b q) as E.
  unfold readers, addRd in *. cbn [rd] in *.
  assert (len (filter (fun e : Z * bytes => e.1 = q) h) =
          len (filter (fun e : Z * bytes => e.1 = q) ((p, b) :: delete i h))) as E2.
  { unfold len. f_equal. apply Permutation_length, filter_Permutation. by apply delete_Permutation. }
  case_decide; lia.
Qed.

Hypothesis clock_ok : forall i, 0 < time i < 2 ^ 62.

Lemma room_for g (s : st) n : Inv g s -> n < 2 ^ 32 -> msum Len (res s) + n + 0 < 2 ^ 62.
Proof. intros HI Hn. pose proof (resident_fit g s HI). destruct (iv_arena g s HI) as (_ & _ & Hl). lia. Qed.

Lemma exec_put ns key data x c :
  sys_ok c -> len data < 2 ^ 32 ->
  exists r c', exec (RPut ns key data x) c = Some (r, c') /\ sys_ok c' /\
    allows (absm (dram c)) (RPut ns key data x) r (absm (dram c')).
Proof.
  intros Hok Hd. pose proof (so_inv c Hok) as HI. set (k := mkKey ns key).
  destruct (StorePut_spec time _ _ ns key data x HI Hd) as (v & s' & E & HI' & Hev & Hcase).
  { intros ns'. by eapply room_for. }
  exists (Status v), (mkConf s' (held c)). cbn -[Put absm]. rewrite E. split; [done|].
  split; [by eapply sys_step|]. fold k in Hcase |- *.
  destruct (res (dram c) !! k) as [r|] eqn:Hr.
  - apply res_lookup in Hr as (p & Hk & Hp). destruct Hcase as [-> ->].
    destruct (absm_some _ _ k p r HI Hk Hp) as (b & _ & _ & -> & _). done.
  - assert (cont (dram c) !! k = None) as Hk.
    { destruct (cont (dram c) !! k) as [p|] eqn:Hk; [|done]. destruct (iv_res _ _ HI k p Hk) as (r & Hp & _).
      rewrite (proj2 (res_lookup (dram c) k r)) in Hr by eauto. done. }
    rewrite (proj2 (absm_none _ _ k HI) Hk).
    destruct Hcase as (s1 & HI1 & Hev1 & HR & _ & Hcase).
    destruct (absm_evolves _ _ _ _ HI HI1 (rc_evolves _ _ _ _ HR) (rc_sub _ _ _ _ HR)) as [Hsub _].
    destruct Hcase as [(-> & Hc & r & Hr' & Hv & Hx)|(-> & Hc)].
    + left. split; [done|]. rewrite (absm_lookup _ s' k HI'), Hc, lookup_insert_eq. cbn.
      rewrite Hr'. cbn. rewrite Hv. cbn. rewrite Hx. split; [done|].
      etrans; [|exact Hsub]. apply map_subseteq_spec. intros k' v' [Hne Hv']%lookup_delete_Some.
      by apply (absm_published _ s1 s' k _ k' v' HI1 HI' Hev1 Hc Hne).
    + right. split; [done|]. by rewrite (absm_evolves_eq _ _ s1 s' HI1 HI' Hev1 Hc).
Qed.

Lemma exec_get ns key c :
  sys_ok c -> exists r c', exec (RGet ns key) c = Some (r, c') /\ sys_ok c' /\
    allows (absm (dram c)) (RGet ns key) r (absm (dram c')).
Proof.
  intros Hok. pose proof (so_inv c Hok) as HI. pose proof (GetRef_spec time _ _ ns key HI) as HG.
  cbn -[absm GetRef]. rewrite (absm_lookup _ _ (mkKey ns key) HI).
  destruct (cont (dram c) !! mkKey ns key) as [p|].
  2:{ rewrite HG. exists (Block None), (mkConf (dram c) (held c)). split; [done|]. by destruct c. }
  destruct HG as (r & b & s' & Hp & Hb & E & HI' & Hev & Hc). rewrite E.
  exists (Block (Some (b, XXH3 r))), (mkConf s' ((p, b) :: held c)). split; [done|].
  assert (Inv (readers ((p, b) :: held c)) s') as HI2.
  { eapply Inv_ghost; [| | |exact HI']; [|done..]. intros q. by rewrite readers_cons. }
  split; [split; [done|]|].
  - cbn [held dram]. intros q b' Hin. destruct (Hev p r Hp) as (r' & Hp' & _ & Hsame).
    apply elem_of_cons in Hin as [[= -> ->]|Hin].
    + exists r'. split; [done|]. rewrite <- Hb. apply Hsame.
      apply (reader_ref _ s' p r' HI2 Hp'). apply (readers_pos _ p b). by left.
    + destruct (so_views c Hok q b' Hin) as (x & Hq & Hbx). destruct (Hev q x Hq) as (x' & Hq' & _ & Hsx).
      exists x'. split; [done|]. rewrite <- Hbx. apply Hsx. apply (reader_ref _ s' q x' HI2 Hq').
      apply (readers_pos _ q b'). by right.
  - split; [|by eapply absm_evolves_eq]. rewrite Hp. cbn. by rewrite Hb.
Qed.

Lemma exec_release i c :
  sys_ok c -> exists r c', exec (RRelease i) c = Some (r, c') /\ sys_ok c' /\
    allows (absm (dram c)) (RRelease i) r (absm (dram c')).
Proof.
  intros Hok. pose proof (so_inv c Hok) as HI. cbn -[absm releaseRef].
  destruct (held c !! i) as [[p b]|] eqn:Hi; [|by exists Done, c].
  destruct (release_spec (readers (held c)) (dram c) p HI) as (s' & E & HI' & Hev & Hc).
  { eapply readers_pos. by eapply list_elem_of_lookup_2. }
  rewrite E. exists Done, (mkConf s' (delete i (held c))). split; [done|].
  assert (Inv (readers (delete i (held c))) s') as HI2.
  { eapply Inv_ghost; [| | |exact HI']; [|done..]. intros q. by rewrite (readers_delete _ _ _ _ _ Hi). }
  split; [|split; [done|by eapply absm_evolves_eq]]. eapply sys_step; try done.
  intros e He. rewrite (delete_Permutation _ _ _ Hi). by right.
Qed.

Lemma canDelete_cases r force t :
  canDelete r force t = StatusOK \/ canDelete r force t = StatusErrPinned \/ canDelete r force t = StatusErrLeased.
Proof. unfold canDelete. repeat case_if; auto. Qed.

Lemma exec_delete ns key force c :
  sys_ok c -> exists r c', exec (RDelete ns key force) c = Some (r, c') /\ sys_ok c' /\
    allows (absm (dram c)) (RDelete ns key force) r (absm (dram c')).
Proof.
  intros Hok. pose proof (so_inv c Hok) as HI. set (k := mkKey ns key).
  destruct (Delete_spec time _ _ ns key force HI) as (v & s' & E & HI' & Hev & Hcase).
  exists (Status v), (mkConf s' (held c)). cbn -[absm Delete]. rewrite E. split; [done|].
  split; [by eapply sys_step|]. fold k in Hcase |- *. rewrite (absm_lookup _ _ k HI).
  unfold res in Hcase. rewrite lookup_omap in Hcase.
  destruct (cont (dram c) !! k) as [p|] eqn:Hk; cbn in Hcase |- *; [|by destruct Hcase as [-> ->]].
  destruct (iv_res _ _ HI k p Hk) as (r & Hp & _). rewrite Hp in Hcase |- *. cbn.
  destruct (absm_some _ _ k p r HI Hk Hp) as (b & -> & _). cbn. destruct Hcase as [-> Hc].
  destruct (canDelete_cases r force (time (tick (dram c)))) as [Ev|Ev].
  - left. rewrite Ev in Hc |- *. split; [done|]. by eapply absm_evolves_delete.
  - right. assert (cont s' = cont (dram c)) as Hc' by (by destruct Ev as [Ev|Ev]; rewrite Ev in Hc).
    split; [by destruct Ev as [-> | ->]; auto|]. by eapply absm_evolves_eq.
Qed.

Lemma exec_evict (m : sm st Z) c :
  sys_ok c -> frees time true false (readers (held c)) m 0 ->
  exists n s', m (dram c) = Some (n, s') /\ sys_ok (mkConf s' (held c)) /\ absm s' ⊆ absm (dram c).
Proof.
  intros Hok Hm. pose proof (so_inv c Hok) as HI. destruct (Hm _ HI) as (n & s' & E & HI' & HR & _); [done|].
  exists n, s'. split; [done|]. split; [eapply sys_step; try done; apply HR|].
  eapply absm_evolves; [exact HI|exact HI'|apply HR|apply HR].
Qed.

Lemma exec_spec q c :
  sys_ok c -> admissible q = true ->
  exists r c', exec q c = Some (r, c') /\ sys_ok c' /\ allows (absm (dram c)) q r (absm (dram c')).
Proof.
  intros Hok Hq. pose proof (so_inv c Hok) as HI. destruct q as [ns key data x|ns key|i|ns key|ns key force|ns key sub ttl|ns key sub| |].
  - apply exec_put; [done|]. cbn in Hq. lia.
  - by apply exec_get.
  - by apply exec_release.
  - destruct (GetCopy_spec time _ _ ns key HI) as (s' & E & HI' & Ha & Hev & Hc). cbn -[absm GetCopy].
    rewrite E. eexists _, _. split; [done|]. split; [by eapply sys_step|]. done.
  - by apply exec_delete.
  - destruct (TouchLease_spec time _ _ ns key sub ttl clock_ok HI) as (v & s' & E & HI' & Hev & Hc & Hv).
    { cbn in Hq. lia. }
    cbn -[absm TouchLease]. rewrite E. eexists _, _. split; [done|]. split; [by eapply sys_step|].
    split; [|by eapply absm_evolves_eq]. intros Hn. apply (absm_none _ _ _ HI) in Hn. by rewrite Hv, Hn.
  - destruct (PinOp_spec _ _ ns key sub HI) as (v & s' & E & HI' & Hev & Hc & Hv).
    cbn -[absm PinOp]. rewrite E. eexists _, _. split; [done|]. split; [by eapply sys_step|].
    split; [|by eapply absm_evolves_eq]. intros Hn. apply (absm_none _ _ _ HI) in Hn. by rewrite Hv.
  - destruct (exec_evict (EvictNow time) c Hok) as (n & s' & E & Hok' & Hsub); [apply frees_EvictNow|].
    cbn -[absm EvictNow]. rewrite E. eexists _, _. split; [done|]. split; [done|]. eauto.
  - destruct (exec_evict (evictorTick time (evictorCfg (dram c))) c Hok) as (n & s' & E & Hok' & Hsub);
      [apply frees_evictorTick|].
    cbn -[absm evictorTick]. rewrite E. eexists _, _. split; [done|]. split; [done|]. eauto.
Qed.

Lemma serve_spec qs c :
  sys_ok c -> forallb admissible qs = true ->
  exists rs c', serve qs c = Some (rs, c') /\ sys_ok c' /\ allowed (absm (dram c)) qs rs (absm (dram c')).
Proof.
  revert c. induction qs as [|q qs IH]; intros c Hok Hq; cbn [serve].
  { exists [], c. split; [done|]. split; [done|constructor]. }
  cbn in Hq. apply andb_true_iff in Hq as [Hq Hqs].
  destruct (exec_spec q c Hok Hq) as (r & c1 & -> & Hok1 & Ha).
  destruct (IH c1 Hok1 Hqs) as (rs & c2 & E & Hok2 & Hal). cbn. rewrite E. cbn. eexists _, _. split; [done|].
  split; [done|]. by econstructor.
Qed.

(** ** Starting up *)

(** [New] over the allocator of [offsetalloc.go], then the optional policy and
    evictor. *)
Definition boot (mem : bytes) (p : Params) (pol : option P) (ev : option EvictorConfig) : option st :=
  s ← NewStore OffsetAlloc.NewAllocatorMax mem p;
  let s := match pol with Some q => AttachPolicy q s | None => s end in
  Some (match ev with Some cfg => StartEvictor cfg s | None => s end).

(** A fresh accountant, or none. *)
Definition fresh_quotas (p : Params) : Prop :=
  match p_Quotas p with Some q => Quotas.by_ q = ∅ | None => True end.

Lemma boot_spec mem p pol ev :
  len mem < 2 ^ 44 -> fresh_quotas p -> (forall q, pol = Some q -> pol_wf q) ->
  exists s, boot mem p pol ev = Some s /\ sys_ok (mkConf s []) /\ absm s = ∅.
Proof.
  intros Hmem Hq Hpol. pose proof (len_nonneg mem) as Hm0. unfold boot, NewStore.
  change AllocUnitShift with 12. rewrite Z.shiftr_div_pow2 by lia. change (2 ^ 12) with 4096.
  assert (0 <= len mem / 4096 < 2 ^ 32) as Hu by (split; [apply Z.div_pos|apply Z.div_lt_upper_bound]; lia).
  unfold u32. rewrite Z.mod_small by lia. set (u := len mem / 4096) in *.
  set (mx := if u / 16 <? 1024 then 1024 else u / 16).
  assert (1 <= mx < 2 ^ 31) as Hmx.
  { unfold mx. pose proof (Z.div_le_upper_bound u 16 (2 ^ 28)). pose proof (Z.div_pos u 16). case_if; lia. }
  destruct (AllocSpec.NewAllocator_live u mx Hu Hmx) as (a & -> & Hwf & Hl & Hs & _). cbn [mbind option_bind].
  set (leaseMax := if _ && _ then _ else _).
  set (s0 := mkStore mem false NewIndex ∅ 1 _ a None (p_Quotas p) None false 0 0 1 0 0).
  assert (Inv (readers []) s0) as HI.
  { assert (cont s0 = ∅) as Hc by apply new_contents.
    assert (res s0 = ∅) as Hr by (unfold res; by rewrite Hc).
    split; rewrite ?Hc, ?Hr; try (by intros *; rewrite ?lookup_empty); try done.
    - apply new_ok.
    - cbn. split; [done|]. rewrite Hs. pose proof (Z.mul_div_le (len mem) 4096). lia.
    - cbn [quotas s0]. unfold fresh_quotas in Hq. destruct (p_Quotas p) as [q|]; [|done]. split.
      + unfold QuotaFacts.quotas_ok. rewrite Hq. apply map_Forall_empty.
      + intros ns. unfold Quotas.Usage, Quotas.peek. rewrite Hq, lookup_empty. by rewrite msum_empty. }
  assert (absm s0 = ∅) as Ha.
  { unfold absm, res. assert (cont s0 = ∅) as -> by apply new_contents. done. }
  eexists. split; [done|]. split; [split; [|by intros ? ? ?%elem_of_nil]|].
  - eapply Inv_frame; [|apply (Inv_policy _ _ pol HI Hpol)]. by destruct pol, ev.
  - by destruct pol, ev.
Qed.

Lemma served_ok mem p pol ev s qs rs c :
  len mem < 2 ^ 44 -> fresh_quotas p -> (forall q, pol = Some q -> pol_wf q) -> boot mem p pol ev = Some s -> forallb admissible qs = true ->
  serve qs (mkConf s []) = Some (rs, c) -> sys_ok c.
Proof.
  intros Hmem Hq Hpol Hb Hqs Hs. destruct (boot_spec mem p pol ev Hmem Hq Hpol) as (s1 & Hb' & Hok & _).
  assert (s1 = s) as -> by congruence. destruct (serve_spec qs _ Hok Hqs) as (rs' & c' & E & Hok' & _).
  congruence.
Qed.

End System.

(** ** The properties *)

Section Properties.
Context {P : Type} `{!Policy P} `{!PolicyLaws P} `{!IndexEnv} (time : nat -> Z) (mem : bytes) (p : Params)
  (pol : option P) (ev : option EvictorConfig).
Hypotheses (clock_ok : forall i, 0 < time i < 2 ^ 62) (mem_ok : len mem < 2 ^ 44) (quotas_new : fresh_quotas p)
  (pol_new : forall q, pol = Some q -> pol_wf q).


(** C14: A reader's view never changes while it is open: whatever was put,
    deleted, evicted or reallocated since, the record it pins is still
    referenced and its arena bytes are the ones handed out. *)
Theorem open_views_stable s qs rs c q b :
  boot mem p pol ev = Some s -> forallb admissible qs = true ->
  serve time qs (mkConf s []) = Some (rs, c) -> (q, b) ∈ held c ->
  exists r, heap (dram c) !! q = Some r /\ 0 < Refcount r /\ view (dram c) r = Some b.
Proof.
  intros Hb Hqs Hs Hin. pose proof (served_ok time clock_ok mem p pol ev s qs rs c mem_ok quotas_new pol_new Hb Hqs Hs) as Hok.
  destruct (so_views c Hok q b Hin) as (r & Hr & Hv). exists r. split_and!; try done.
  eapply reader_ref; [apply (so_inv c Hok)|done|]. by eapply readers_pos.
Qed.


(** One eviction pass is total and exact and respects the protection
    ladder: its result is the number of bytes that left the index, and a block
    that is held by a reader, hard-pinned, or leased at every clock reading of
    the pass is still resident with the same metadata. *)
Theorem evict_now_spares_protected s qs rs c :
  boot mem p pol ev = Some s -> forallb admissible qs = true ->
  serve time qs (mkConf s []) = Some (rs, c) ->
  exists n s', EvictNow time (dram c) = Some (n, s') /\
    n = bytes_ (index_ (dram c)) - bytes_ (index_ s') /\
    forall k q r, Get (index_ (dram c)) k = Some q -> heap (dram c) !! q = Some r ->
      1 < Refcount r \/ HardPinned r = true \/
      (forall i, (tick (dram c) <= i < tick s')%nat -> time i < LeaseUntil r) ->
      Get (index_ s') k = Some q /\ heap s' !! q = Some r.
Proof.
  intros Hb Hqs Hs. pose proof (served_ok time clock_ok mem p pol ev s qs rs c mem_ok quotas_new pol_new Hb Hqs Hs) as Hok.
  pose proof (so_inv c Hok) as HI. destruct (frees_EvictNow time _ _ HI) as (n & s' & E & HI' & HR & Hn); [done|].
  exists n, s'. split; [done|]. unfold resB in Hn. rewrite (iv_bytes _ _ HI), (iv_bytes _ _ HI'). split; [lia|].
  intros k q r Hk Hr Hp. rewrite (Get_contents _ _ (iv_idx _ _ HI)) in Hk.
  rewrite (Get_contents _ _ (iv_idx _ _ HI')). assert (cont s' !! k = Some q) as Hk'.
  { destruct (decide (tick (dram c) = tick s')) as [Et|Ht]; [by rewrite (rc_still _ _ _ _ HR Et)|].
    apply (rc_prot _ _ _ _ HR k q r Hk Hr Ht). unfold prot. destruct Hp as [?|[?|?]]; auto. left. lia. }
  split; [done|]. by rewrite (rc_same _ _ _ _ HR k q Hk').
Qed.

(** The passes below the emergency rung never take a pinned block: the
    expiry sweep and the policy pass leave every soft- or hard-pinned block
    resident, whatever candidates the policy hands out. *)
Theorem policy_passes_spare_pins s qs rs c t need k q r :
  boot mem p pol ev = Some s -> forallb admissible qs = true ->
  serve time qs (mkConf s []) = Some (rs, c) ->
  Get (index_ (dram c)) k = Some q -> heap (dram c) !! q = Some r -> Pinned r = true ->
  (exists n s', policyPass time t need (dram c) = Some (n, s') /\ Get (index_ s') k = Some q) /\
  (exists n s', sweepExpired time t need (dram c) = Some (n, s') /\ Get (index_ s') k = Some q).
Proof.
  intros Hb Hqs Hs Hk Hr Hp.
  pose proof (served_ok time clock_ok mem p pol ev s qs rs c mem_ok quotas_new pol_new Hb Hqs Hs) as Hok.
  pose proof (so_inv c Hok) as HI. rewrite (Get_contents _ _ (iv_idx _ _ HI)) in Hk.
  assert (forall m, frees time false false (readers (held c)) m 0 ->
            exists n s', m (dram c) = Some (n, s') /\ Get (index_ s') k = Some q) as Hgo.
  { intros m Hm. destruct (Hm _ HI) as (n & s' & E & HI' & HR & _); [done|]. exists n, s'. split; [done|].
    rewrite (Get_contents _ _ (iv_idx _ _ HI')).
    destruct (decide (tick (dram c) = tick s')) as [Et|Ht].
    - change (cont s' !! k = Some q). by rewrite (rc_still _ _ _ _ HR Et).
    - apply (rc_prot _ _ _ _ HR k q r Hk Hr Ht). unfold prot. auto. }
  split; apply Hgo; [apply frees_policyPass|apply frees_sweepExpired].
Qed.

End Properties.


(** ** A concrete store

    Two allocation units, the default policy and a running evictor. *)

#[local] Instance sampleIndexEnv : IndexEnv :=
  {| shardHash := fun k => NS k; order := map_to_list; order_perm := fun m => reflexivity _ |}.
#[local] Instance sampleOrder : MapOrder := {| nsOrder := id; nsOrder_perm := fun l => reflexivity l |}.

#[local] Existing Instance S3.s3fifo_policy.
#[local] Existing Instance S3Spec.s3fifo_laws.

Definition sampleTime (i : nat) : Z := 1000 + Z.min (Z.of_nat i) 1000.
Definition sampleMem : bytes := zeros (Z.to_nat 8192).
Definition sampleParams : Params := mkParams 0 0 0 None (Some (Quotas.NewQuotas None)).
Definition samplePol : option S3.S3FIFO := Some (S3.NewS3FIFO 7 4096).
Definition sampleEv : option EvictorConfig := Some (mkEvictorConfig 0 0 0).
Definition hashOf (b : Byte.byte) : bytes := replicate 32 b.
Definition sampleReqs : list request :=
  [RPut 1 (hashOf Byte.x01) [Byte.x0a; Byte.x0b] 11; RGet 1 (hashOf Byte.x01);
   RPut 1 (hashOf Byte.x02) [Byte.x0c] 12; RPin 1 (hashOf Byte.x02) PinHard;
   RDelete 1 (hashOf Byte.x01) true; RPut 1 (hashOf Byte.x03) [Byte.x0d] 13].

Abbreviation sampleBoot := (boot sampleMem sampleParams samplePol sampleEv).
Definition sampleRun (qs : list request) : option (list response * conf) :=
  s ← sampleBoot; serve sampleTime qs (mkConf s []).

Lemma sampleTime_ok i : 0 < sampleTime i < 2 ^ 62.
Proof. unfold sampleTime. lia. Qed.

Lemma samplePol_ok q : samplePol = Some q -> pol_wf q.
Proof. intros [= <-]. apply S3Spec.wf_new. Qed.

Lemma sampleMem_ok : len sampleMem < 2 ^ 44.
Proof. unfold sampleMem. rewrite len_zeros. lia. Qed.

Lemma sample_run_ok qs :
  forallb admissible qs = true ->
  exists s rs c, sampleBoot = Some s /\ serve sampleTime qs (mkConf s []) = Some (rs, c) /\ sampleRun qs = Some (rs, c).
Proof.
  intros Hq. destruct (boot_spec sampleMem sampleParams samplePol sampleEv sampleMem_ok eq_refl samplePol_ok) as (s & Hb & Hok & _).
  destruct (serve_spec sampleTime sampleTime_ok qs _ Hok Hq) as (rs & c & E & _). exists s, rs, c.
  split; [exact Hb|]. split; [exact E|]. unfold sampleRun. rewrite Hb. cbn [mbind option_bind]. exact E.
Qed.



Lemma evict_now_spares_protected_witness :
  exists s rs c, sampleBoot = Some s /\ serve sampleTime sampleReqs (mkConf s []) = Some (rs, c) /\
  exists n s', EvictNow sampleTime (dram c) = Some (n, s') /\
    n = bytes_ (index_ (dram c)) - bytes_ (index_ s') /\
    forall k q r, Get (index_ (dram c)) k = Some q -> heap (dram c) !! q = Some r ->
      1 < Refcount r \/ HardPinned r = true \/
      (forall i, (tick (dram c) <= i < tick s')%nat -> sampleTime i < LeaseUntil r) ->
      Get (index_ s') k = Some q /\ heap s' !! q = Some r.
Proof.
  destruct (sample_run_ok sampleReqs eq_refl) as (s & rs & c & Hb & Hs & _). exists s, rs, c. split; [exact Hb|].
  split; [exact Hs|].
  apply (evict_now_spares_protected sampleTime sampleMem sampleParams samplePol sampleEv sampleTime_ok sampleMem_ok
           eq_refl samplePol_ok s sampleReqs rs c Hb eq_refl Hs).
Defined.

(** The view opened before the delete is still open at the end of the run. *)
Lemma sample_held : (fun r : list response * conf => held (snd r)) <$> sampleRun sampleReqs = Some [(1, [Byte.x0a; Byte.x0b])].
Proof. vm_compute. reflexivity. Qed.

Lemma open_views_stable_witness :
  exists s rs c, sampleBoot = Some s /\ serve sampleTime sampleReqs (mkConf s []) = Some (rs, c) /\
  exists r, heap (dram c) !! 1 = Some r /\ 0 < Refcount r /\ view (dram c) r = Some [Byte.x0a; Byte.x0b].
Proof.
  destruct (sample_run_ok sampleReqs eq_refl) as (s & rs & c & Hb & Hs & Hr). exists s, rs, c. split; [exact Hb|].
  split; [exact Hs|].
  apply (open_views_stable sampleTime sampleMem sampleParams samplePol sampleEv sampleTime_ok sampleMem_ok eq_refl
           samplePol_ok s sampleReqs rs c 1 [Byte.x0a; Byte.x0b] Hb eq_refl Hs).
  pose proof sample_held as Hh. rewrite Hr in Hh. injection Hh as ->. by left.
Defined.

(** Key 2 is pinned at the end of the run. *)
Definition pinned2 (c : conf (P := S3.S3FIFO)) : option bool :=
  q ← Get (index_ (dram c)) (mkKey 1 (hashOf Byte.x02)); r ← heap (dram c) !! q; Some (Pinned r).

Lemma sample_pinned :
  (r ← sampleRun sampleReqs; pinned2 (snd r)) = Some true.
Proof. vm_compute. reflexivity. Qed.

Lemma policy_passes_spare_pins_witness :
  exists s rs c q, sampleBoot = Some s /\ serve sampleTime sampleReqs (mkConf s []) = Some (rs, c) /\
  (exists n s', policyPass sampleTime 5000 4096 (dram c) = Some (n, s') /\
     Get (index_ s') (mkKey 1 (hashOf Byte.x02)) = Some q) /\
  (exists n s', sweepExpired sampleTime 5000 4096 (dram c) = Some (n, s') /\
     Get (index_ s') (mkKey 1 (hashOf Byte.x02)) = Some q).
Proof.
  destruct (sample_run_ok sampleReqs eq_refl) as (s & rs & c & Hb & Hs & Hr).
  pose proof sample_pinned as Hp. rewrite Hr in Hp. cbn [mbind option_bind snd] in Hp. unfold pinned2 in Hp.
  destruct (Get (index_ (dram c)) (mkKey 1 (hashOf Byte.x02))) as [q|] eqn:Hk; [|discriminate]. cbn [mbind option_bind] in Hp.
  destruct (heap (dram c) !! q) as [r|] eqn:Hq; [|discriminate]. injection Hp as Hpin.
  exists s, rs, c, q. split; [exact Hb|]. split; [exact Hs|].
  apply (policy_passes_spare_pins sampleTime sampleMem sampleParams samplePol sampleEv sampleTime_ok sampleMem_ok
           eq_refl samplePol_ok s sampleReqs rs c 5000 4096 (mkKey 1 (hashOf Byte.x02)) q r Hb eq_refl Hs Hk Hq Hpin).
Defined.

(** ** Where the evictor departs from its comments *)

Definition sampleFirst : Key := mkKey 1 (hashOf Byte.x01).
Definition sampleSecond : Key := mkKey 1 (hashOf Byte.x02).

(** Two blocks, one of them soft-pinned; the other is free to go. *)
Definition softReqs (k : Key) : list request :=
  [RPut 1 (Hash sampleFirst) [Byte.x0a] 11; RPut 1 (Hash sampleSecond) [Byte.x0b] 12; RPin 1 (Hash k) PinSoft].

(** Whether block [k] is resident and, if so, whether an ordinary pass may take it. *)
Definition residentFree (s : Store OffsetAlloc.Allocator S3.S3FIFO) (k : Key) (t : Z) : option bool :=
  q ← Get (index_ s) k; r ← heap s !! q; Some (CanEvict r t).

(** The emergency sweep for one slot from that state: what happened to the two. *)
Definition emergencyRun (soft plain : Key) : option (Z * option bool * option bool) :=
  '(_, c) ← sampleRun (softReqs soft);
  '(_, s) ← sweepEmergency sampleTime 5000 0 1 (dram c);
  Some (evictions s, residentFree s soft 5000, residentFree s plain 5000).

(** The emergency sweep does not put unpinned blocks strictly before
    soft-pinned ones: it stops collecting once the two kinds together meet the
    goal, so with a goal of one slot it evicts a soft-pinned block while an
    unpinned, unleased, unread block stays. *)
Theorem emergency_takes_soft_pin_first :
  exists soft plain, soft <> plain /\ emergencyRun soft plain = Some (1, None, Some true).
Proof. exists sampleFirst, sampleSecond. split; [discriminate|]. vm_compute. reflexivity. Qed.

(** Both blocks hard-pinned, a pass that frees nothing, one pin downgraded to
    soft, another pass. *)
Definition futileReqs : list request :=
  [RPut 1 (Hash sampleFirst) [Byte.x0a] 11; RPut 1 (Hash sampleSecond) [Byte.x0b] 12;
   RPin 1 (Hash sampleFirst) PinHard; RPin 1 (Hash sampleSecond) PinHard; REvict; RPin 1 (Hash sampleFirst) PinSoft].

Definition futileRun : option (Z * Z) :=
  '(_, c) ← sampleRun futileReqs;
  '(cached, _) ← EvictNow sampleTime (dram c);
  '(fresh, _) ← evictOnce sampleTime (evictorCfg (dram c)) false (dram c);
  Some (cached, fresh).

(** The futile-pass cache is stale after a hard pin is downgraded to soft:
    the downgrade does not move the occupancy generation, so the synchronous
    pass answers zero from the cache although the same pass, run, frees a
    block. *)
Theorem futile_cache_misses_repin : exists n, 0 < n /\ futileRun = Some (0, n).
Proof. exists 1. split; [lia|]. vm_compute. reflexivity. Qed.

End DramRefine.
