(* ===== verification/NvmeFormat.v ===== *)
(** The on-disk formats of the NVMe tier: records, sealed-segment footers and
    trailers ([internal/store/nvme/segment.go]), and the checkpoint file
    ([checkpoint.go]: the encoder of [writeCkptFile], the parser of
    [readCkptFile]).

    Each encoder is shown to produce one concatenation of fields, each parser
    to read it back; the parsers return an error or a value on every input,
    never a panic ([None]). *)

From Stdlib Require Import ZArith Lia.
From coqutil Require Import Byte Word.LittleEndianList.
From stdpp Require Import base numbers list.
From S2P Require Import Prelude.
From S2P Require Import Wire.
Import Crc CrcFacts.
Open Scope Z_scope.
Open Scope go_scope.

Module Seg.

Definition recordAlign : Z := 4096.
Definition recordHdrSize : Z := 56.
Definition footerEntrySz : Z := 52.
Definition trailerSize : Z := 64.

(** [uint32('K') | uint32('V')<<8 | uint32('B')<<16 | uint32(c)<<24]. *)
Definition magicOf (c : Z) : Z :=
  Z.lor (Z.lor (Z.lor 75 (86 <<| 8)) (66 <<| 16)) (c <<| 24).
Definition recordMagic : Z := Eval vm_compute in magicOf 82.
Definition trailerMagic : Z := Eval vm_compute in magicOf 70.
Definition segmentVersion : Z := 1.

Record Loc := mkLoc { SegmentID : Z; Offset : Z; LenOf : Z }.

#[export] Instance Loc_eq_dec : EqDecision Loc.
Proof. solve_decision. Defined.

Definition roundUpAlign (n : Z) : Z := u64 (n + recordAlign - 1) &^ (recordAlign - 1).
Definition recordSpan (payloadLen : Z) : Z := roundUpAlign (recordHdrSize + payloadLen).
Definition MinSegmentBytes (maxBlobLen : Z) : Z := recordSpan maxBlobLen + 2 * recordAlign + trailerSize.

(** Why a parser refused its input. *)
Inductive fmtError := ErrShort | ErrMagic | ErrVersion | ErrLen | ErrSegID | ErrCRC | ErrCount.

#[export] Instance fmtError_eq_dec : EqDecision fmtError.
Proof. solve_decision. Defined.

(** [copy(b[off:off+32], key[:])]. *)
Definition put_key (b : bytes) (off : Z) (key : bytes) : option bytes :=
  _ ← slice b off (off + 32); copy_at b off key.

Record recordHeader := mkRecordHeader { h_NS : Z; h_Key : bytes; h_Len : Z; h_XXH3 : Z }.

Definition appendRecord (dst : bytes) (h : recordHeader) (payload : bytes) : option bytes :=
  let start := len dst in
  hdr ← le_put 4 (zeros 56) 0 recordMagic;
  hdr ← le_put 4 hdr 4 (h_NS h);
  hdr ← put_key hdr 8 (h_Key h);
  hdr ← le_put 4 hdr 40 (h_Len h);
  hdr ← le_put 8 hdr 48 (h_XXH3 h);
  let dst := dst ++ hdr in
  let dst := dst ++ payload in
  let span := recordSpan (h_Len h) in
  Some (dst ++ zeros (Z.to_nat (start + span - len dst))).

Definition parseRecordHeader (b : bytes) (maxLen : Z) : option (fmtError + recordHeader) :=
  if len b <? recordHdrSize then Some (inl ErrShort) else
  m ← le_at 4 b 0;
  if negb (m =? recordMagic) then Some (inl ErrMagic) else
  ns ← le_at 4 b 4;
  key ← slice b 8 40;
  ln ← le_at 4 b 40;
  x ← le_at 8 b 48;
  if maxLen <? ln then Some (inl ErrLen)
  else Some (inr (mkRecordHeader ns key ln x)).

Record footerEntry := mkEntry { e_NS : Z; e_Key : bytes; e_Off : Z; e_Len : Z; e_XXH3 : Z }.

#[export] Instance footerEntry_eq_dec : EqDecision footerEntry.
Proof. solve_decision. Defined.

Fixpoint putEntries (out : bytes) (i : Z) (entries : list footerEntry) : option bytes :=
  match entries with
  | [] => Some out
  | e :: entries =>
      let o := i * footerEntrySz in
      out ← le_put 4 out o (e_NS e);
      out ← put_key out (o + 4) (e_Key e);
      out ← le_put 4 out (o + 36) (e_Off e);
      out ← le_put 4 out (o + 40) (e_Len e);
      out ← le_put 8 out (o + 44) (e_XXH3 e);
      putEntries out (i + 1) entries
  end.

Definition encodeEntries (entries : list footerEntry) : option bytes :=
  let raw := roundUpAlign (u64 (len entries * footerEntrySz)) in
  putEntries (zeros (Z.to_nat raw)) 0 entries.

Definition getEntry (c : bytes) : option footerEntry :=
  ns ← le_at 4 c 0;
  key ← slice c 4 36;
  off ← le_at 4 c 36;
  ln ← le_at 4 c 40;
  x ← le_at 8 c 44;
  Some (mkEntry ns key off ln x).

Fixpoint getEntries (b : bytes) (i : Z) (n : nat) : option (list footerEntry) :=
  match n with
  | O => Some []
  | S n =>
      c ← slice_from b (i * footerEntrySz);
      e ← getEntry c;
      es ← getEntries b (i + 1) n;
      Some (e :: es)
  end.

Definition decodeEntries (b : bytes) (count : Z) : option (fmtError + list footerEntry) :=
  let need := count * footerEntrySz in
  if len b <? need then Some (inl ErrShort) else
  es ← getEntries b 0 (Z.to_nat count); Some (inr es).

Record trailer := mkTrailer { EntryCount : Z; DataEnd : Z; FooterOff : Z; SegID : Z; t_CRC : Z }.

Definition encodeTrailer (t : trailer) : option bytes :=
  b ← le_put 4 (zeros 64) 0 trailerMagic;
  b ← le_put 4 b 4 segmentVersion;
  b ← le_put 4 b 8 (EntryCount t);
  b ← le_put 4 b 12 (DataEnd t);
  b ← le_put 4 b 16 (FooterOff t);
  b ← le_put 4 b 20 (SegID t);
  le_put 4 b 60 (t_CRC t).

Definition decodeTrailer (b : bytes) (wantSegID : Z) : option (fmtError + trailer) :=
  if len b <? trailerSize then Some (inl ErrShort) else
  m ← le_at 4 b 0;
  if negb (m =? trailerMagic) then Some (inl ErrMagic) else
  v ← le_at 4 b 4;
  if negb (v =? segmentVersion) then Some (inl ErrVersion) else
  ec ← le_at 4 b 8;
  de ← le_at 4 b 12;
  fo ← le_at 4 b 16;
  id ← le_at 4 b 20;
  crc ← le_at 4 b 60;
  if negb (id =? wantSegID) then Some (inl ErrSegID)
  else Some (inr (mkTrailer ec de fo id crc)).

Definition sealCRC (entryTable trailerPrefix60 : bytes) : Z :=
  crc32_update (crc32_update 0 entryTable) trailerPrefix60.

End Seg.

Module Ckpt.
Import Seg.

Definition ckptMagic : Z := Eval vm_compute in magicOf 67.
Definition ckptVersion : Z := 1.
Definition ckptHdrSize : Z := 24.
Definition ckptEntrySize : Z := 56.
Definition ckptMaxBytes : Z := 512 <<| 20.

Record ckptEntry := mkCkptEntry { c_NS : Z; c_Key : bytes; c_SegID : Z; c_Off : Z; c_Len : Z; c_XXH3 : Z }.

#[export] Instance ckptEntry_eq_dec : EqDecision ckptEntry.
Proof. solve_decision. Defined.

Definition putCkptEntry (e : ckptEntry) : option bytes :=
  rec ← le_put 4 (zeros 56) 0 (c_NS e);
  rec ← put_key rec 4 (c_Key e);
  rec ← le_put 4 rec 36 (c_SegID e);
  rec ← le_put 4 rec 40 (c_Off e);
  rec ← le_put 4 rec 44 (c_Len e);
  le_put 8 rec 48 (c_XXH3 e).

Fixpoint putCkptEntries (buf : bytes) (es : list ckptEntry) : option bytes :=
  match es with
  | [] => Some buf
  | e :: es => rec ← putCkptEntry e; putCkptEntries (buf ++ rec) es
  end.

(** The bytes [writeCkptFile] writes. *)
Definition encodeCkpt (nowNanos maxSealed : Z) (entries : list ckptEntry) : option bytes :=
  buf ← le_put 4 (zeros 24) 0 ckptMagic;
  buf ← le_put 4 buf 4 ckptVersion;
  buf ← le_put 8 buf 8 (u64 nowNanos);
  buf ← le_put 4 buf 16 maxSealed;
  buf ← le_put 4 buf 20 (u32 (len entries));
  buf ← putCkptEntries buf entries;
  Some (le_append 4 buf (crc32_checksum buf)).

Definition getCkptEntry (rec : bytes) : option ckptEntry :=
  ns ← le_at 4 rec 0;
  key ← slice rec 4 36;
  seg ← le_at 4 rec 36;
  off ← le_at 4 rec 40;
  ln ← le_at 4 rec 44;
  x ← le_at 8 rec 48;
  Some (mkCkptEntry ns key seg off ln x).

Fixpoint getCkptEntries (body : bytes) (i : Z) (n : nat) : option (list ckptEntry) :=
  match n with
  | O => Some []
  | S n =>
      rec ← slice_from body (ckptHdrSize + i * ckptEntrySize);
      e ← getCkptEntry rec;
      es ← getCkptEntries body (i + 1) n;
      Some (e :: es)
  end.

(** [readCkptFile] on the bytes of the file. *)
Definition parseCkpt (buf : bytes) : option (fmtError + (list ckptEntry * Z)) :=
  if ckptMaxBytes <? len buf then Some (inl ErrLen) else
  if len buf <? ckptHdrSize + 4 then Some (inl ErrShort) else
  body ← slice buf 0 (len buf - 4);
  crcB ← slice_from buf (len buf - 4);
  crc ← le_get 4 crcB;
  if negb (crc32_checksum body =? crc) then Some (inl ErrCRC) else
  m ← le_at 4 body 0;
  if negb (m =? ckptMagic) then Some (inl ErrMagic) else
  ver ← le_at 4 body 4;
  if negb (ver =? ckptVersion) then Some (inl ErrVersion) else
  maxSealed ← le_at 4 body 16;
  count ← le_at 4 body 20;
  if negb (len body =? ckptHdrSize + count * ckptEntrySize) then Some (inl ErrCount) else
  es ← getCkptEntries body 0 (Z.to_nat count);
  Some (inr (es, maxSealed)).

End Ckpt.

(** ** What the encoders write and the parsers read *)

Module SegFacts.
Import Seg.

Lemma roundUpAlign_spec n :
  0 <= n < 2 ^ 63 -> n <= roundUpAlign n < n + 4096 /\ roundUpAlign n `mod` 4096 = 0.
Proof.
  intros Hn. unfold roundUpAlign, recordAlign, u64. rewrite Z.mod_small by lia.
  rewrite (andnot_ones _ 12) by lia. change (2 ^ 12) with 4096.
  pose proof (Z.div_mod (n + 4096 - 1) 4096). pose proof (Z.mod_pos_bound (n + 4096 - 1) 4096).
  rewrite Z.mul_comm, Z.mod_mul by lia. lia.
Qed.

Lemma recordSpan_spec n :
  0 <= n < 2 ^ 32 -> n + 56 <= recordSpan n < n + 56 + 4096 /\ recordSpan n `mod` 4096 = 0.
Proof.
  intros. unfold recordSpan, recordHdrSize. destruct (roundUpAlign_spec (56 + n)) as [? ->]; lia.
Qed.

Lemma recordSpan_mono a b : 0 <= a <= b -> b < 2 ^ 32 -> recordSpan a <= recordSpan b.
Proof.
  intros. destruct (recordSpan_spec a) as [? Ha], (recordSpan_spec b) as [? Hb]; [lia..|].
  apply Z.mod_divide in Ha as [x Hx]; [|lia]. apply Z.mod_divide in Hb as [y Hy]; [|lia]. nia.
Qed.

Lemma put_key_skip (x b : bytes) off key :
  len x <= off -> put_key (x ++ b) off key = app x <$> put_key b (off - len x) key.
Proof.
  intros. unfold put_key. rewrite slice_skip by done.
  replace (off + 32 - len x) with (off - len x + 32) by lia.
  destruct (slice b _ _); [|done]. cbn [mbind option_bind]. by apply copy_at_skip.
Qed.

Lemma put_key_zero (old r key : bytes) :
  len old = 32 -> len key = 32 -> put_key (old ++ r) 0 key = Some (key ++ r).
Proof. intros. unfold put_key. rewrite slice_here by done. apply copy_at_zero. lia. Qed.

Ltac key_step :=
  first [ rewrite put_key_zero by field_cond | rewrite put_key_skip by field_cond; field_nums ];
  cbn [mbind option_bind fmap option_fmap option_map].
Ltac layout := repeat (first [ key_step | field_step ]).

Lemma zeros_app n k : zeros (n + k) = zeros n ++ zeros k.
Proof. apply replicate_add. Qed.

(** *** Records *)

Record header_fits (h : recordHeader) : Prop := mkHeaderFits {
  hf_ns : fits 32 (h_NS h); hf_key : len (h_Key h) = 32;
  hf_len : fits 32 (h_Len h); hf_xxh : fits 64 (h_XXH3 h)
}.

Definition header_bytes (h : recordHeader) : bytes :=
  le_split 4 recordMagic ++ le_split 4 (h_NS h) ++ h_Key h ++ le_split 4 (h_Len h) ++
  zeros 4 ++ le_split 8 (h_XXH3 h).

Definition record_bytes (h : recordHeader) (payload : bytes) : bytes :=
  header_bytes h ++ payload ++ zeros (Z.to_nat (recordSpan (h_Len h) - 56 - len payload)).

Lemma len_record_header h : len (h_Key h) = 32 -> len (header_bytes h) = 56.
Proof. intros. unfold header_bytes. field_lens. lia. Qed.

Lemma put_header_layout {A} h (k : bytes -> option A) :
  len (h_Key h) = 32 ->
  (hdr ← le_put 4 (zeros 56) 0 recordMagic;
   hdr ← le_put 4 hdr 4 (h_NS h);
   hdr ← put_key hdr 8 (h_Key h);
   hdr ← le_put 4 hdr 40 (h_Len h);
   hdr ← le_put 8 hdr 48 (h_XXH3 h);
   k hdr) = k (header_bytes h).
Proof.
  intros Hk.
  change (zeros 56) with (zeros 4 ++ zeros 4 ++ zeros 32 ++ zeros 4 ++ zeros 4 ++ zeros 8 ++ []).
  layout. unfold header_bytes. by rewrite !app_nil_r.
Qed.

Lemma appendRecord_layout dst h payload :
  len (h_Key h) = 32 -> appendRecord dst h payload = Some (dst ++ record_bytes h payload).
Proof.
  intros Hk. unfold appendRecord, record_bytes. rewrite put_header_layout by done.
  rewrite <- !app_assoc. do 5 f_equal.
  rewrite !len_app, len_record_header by done. lia.
Qed.

Lemma len_record_bytes h payload :
  len (h_Key h) = 32 -> len payload = h_Len h -> fits 32 (h_Len h) ->
  len (record_bytes h payload) = recordSpan (h_Len h).
Proof.
  intros Hk Hl Hf. unfold record_bytes. rewrite !len_app, len_record_header, len_zeros by done.
  destruct (recordSpan_spec (h_Len h)) as [? _]; [done|]. lia.
Qed.

(** Parsing reads the header off the front, whatever follows. *)
Lemma parse_header_here h r maxLen :
  header_fits h ->
  parseRecordHeader (header_bytes h ++ r) maxLen =
  Some (if maxLen <? h_Len h then inl ErrLen else inr h).
Proof.
  intros []. unfold parseRecordHeader, recordHdrSize.
  rewrite len_app, len_record_header by done. pose proof (len_nonneg r).
  replace (_ <? _) with false by lia. unfold header_bytes. rewrite <- !app_assoc.
  layout. change (recordMagic `mod` _) with recordMagic. rewrite Z.eqb_refl. cbn [negb].
  layout. destruct h; cbn in *. by case_if.
Qed.

(** A parsed header is one the buffer starts with. *)
Lemma parse_header_inv b maxLen h :
  parseRecordHeader b maxLen = Some (inr h) ->
  exists res r, b = le_split 4 recordMagic ++ le_split 4 (h_NS h) ++ h_Key h ++ le_split 4 (h_Len h) ++
      res ++ le_split 8 (h_XXH3 h) ++ r /\ len res = 4 /\ header_fits h /\ h_Len h <= maxLen.
Proof.
  unfold parseRecordHeader, recordHdrSize. case_if; [done|]. bool_props.
  cut_int b 4%nat m. cut_int b 4%nat ns. cut_field b 32. cut_int b 4%nat ln. cut_field b 4.
  cut_int b 8%nat x. layout. case_if; [done|]. layout. case_if; [done|]. intros [= <-]. bool_props. subst m.
  exists f0, b. split_and!; [done|done|by constructor|done].
Qed.

Lemma parse_header_some b maxLen : exists r, parseRecordHeader b maxLen = Some r.
Proof.
  unfold parseRecordHeader, recordHdrSize. case_if; [eauto|]. bool_props.
  cut_int b 4%nat m. cut_int b 4%nat ns. cut_field b 32. cut_int b 4%nat ln. cut_field b 4.
  cut_int b 8%nat x. layout. case_if; [eauto|]. layout. case_if; eauto.
Qed.

(** Nothing behind the header matters. *)
Lemma parse_header_app b r maxLen : 56 <= len b -> parseRecordHeader (b ++ r) maxLen = parseRecordHeader b maxLen.
Proof.
  intros Hl. unfold parseRecordHeader, recordHdrSize. rewrite len_app. pose proof (len_nonneg r).
  replace (len b <? 56) with false by lia. replace (len b + len r <? 56) with false by lia.
  cut_int b 4%nat m. cut_int b 4%nat ns. cut_field b 32. cut_int b 4%nat ln. cut_field b 4.
  cut_int b 8%nat x. rewrite <- !app_assoc. layout. case_if; [done|]. by layout.
Qed.

(** *** Entry tables *)

Record entry_fits (e : footerEntry) : Prop := mkEntryFits {
  ef_ns : fits 32 (e_NS e); ef_key : len (e_Key e) = 32; ef_off : fits 32 (e_Off e);
  ef_len : fits 32 (e_Len e); ef_xxh : fits 64 (e_XXH3 e)
}.

Definition entry_bytes (e : footerEntry) : bytes :=
  le_split 4 (e_NS e) ++ e_Key e ++ le_split 4 (e_Off e) ++ le_split 4 (e_Len e) ++ le_split 8 (e_XXH3 e).

Definition tableLen (n : Z) : Z := roundUpAlign (n * 52).

Definition table_bytes (es : list footerEntry) : bytes :=
  concat (entry_bytes <$> es) ++ zeros (Z.to_nat (tableLen (len es) - len es * 52)).

Lemma len_entry_bytes e : len (e_Key e) = 32 -> len (entry_bytes e) = 52.
Proof. intros. unfold entry_bytes. field_lens. lia. Qed.

Lemma len_concat_entries es :
  Forall entry_fits es -> len (concat (entry_bytes <$> es)) = len es * 52.
Proof.
  induction 1 as [|e es [] _ IH]; [done|]. cbn. rewrite len_app, len_cons, IH, len_entry_bytes by done. lia.
Qed.

Lemma len_table_bytes es :
  Forall entry_fits es -> len es < 2 ^ 32 -> len (table_bytes es) = tableLen (len es).
Proof.
  intros. unfold table_bytes. rewrite len_app, len_concat_entries, len_zeros by done.
  pose proof (len_nonneg es). destruct (roundUpAlign_spec (len es * 52)); [lia|]. unfold tableLen. lia.
Qed.

Lemma putEntries_layout es : forall (a : bytes) i k,
  Forall entry_fits es -> len a = i * 52 ->
  putEntries (a ++ zeros (52 * length es + k)) i es = Some (a ++ concat (entry_bytes <$> es) ++ zeros k).
Proof.
  induction es as [|e es IH]; intros a i k Hf Ha; [done|].
  apply Forall_cons in Hf as [[] Hf]. cbn [putEntries].
  replace (52 * length (e :: es) + k)%nat with (4 + (32 + (4 + (4 + (8 + (52 * length es + k))))))%nat
    by (cbn [length]; lia).
  rewrite (zeros_app 4), (zeros_app 32), (zeros_app 4), (zeros_app 4), (zeros_app 8).
  unfold footerEntrySz. rewrite le_put_skip by lia. rewrite Ha.
  replace (i * 52 - i * 52) with 0 by lia. rewrite le_put_zero by done.
  cbn [mbind option_bind fmap option_fmap option_map].
  rewrite put_key_skip, Ha by lia. replace (i * 52 + 4 - i * 52) with 4 by lia. layout.
  replace (i * 52 + 36 - i * 52 - 4 - 32) with 0 by lia. layout.
  replace (i * 52 + 40 - i * 52 - 4 - 32 - 4) with 0 by lia. layout.
  replace (i * 52 + 44 - i * 52 - 4 - 32 - 4 - 4) with 0 by lia. layout.
  replace (a ++ _) with ((a ++ entry_bytes e) ++ zeros (52 * length es + k))
    by (unfold entry_bytes; by rewrite <- !app_assoc).
  rewrite IH; [by rewrite fmap_cons; cbn [concat]; rewrite <- !app_assoc|done|].
  rewrite len_app, len_entry_bytes by done. lia.
Qed.

Lemma encodeEntries_layout es :
  Forall entry_fits es -> len es < 2 ^ 32 -> encodeEntries es = Some (table_bytes es).
Proof.
  intros Hf Hl. unfold encodeEntries. pose proof (len_nonneg es).
  replace (u64 _) with (len es * 52) by (unfold u64, footerEntrySz; rewrite Z.mod_small; lia).
  destruct (roundUpAlign_spec (len es * 52)) as [? _]; [lia|].
  replace (Z.to_nat _) with (52 * length es + Z.to_nat (tableLen (len es) - len es * 52))%nat
    by (unfold tableLen, len in *; lia).
  exact (putEntries_layout es [] 0 _ Hf eq_refl).
Qed.

Lemma getEntry_here e r : entry_fits e -> getEntry (entry_bytes e ++ r) = Some e.
Proof.
  intros []. unfold getEntry, entry_bytes. rewrite <- !app_assoc. layout. by destruct e.
Qed.

Lemma getEntry_some c : 52 <= len c -> exists e, getEntry c = Some e /\ entry_fits e.
Proof.
  intros. unfold getEntry.
  cut_int c 4%nat ns. cut_field c 32. cut_int c 4%nat off. cut_int c 4%nat ln. cut_int c 8%nat x.
  layout. eexists; split; [done|by constructor].
Qed.

Lemma getEntries_layout es : forall (a r : bytes) i,
  Forall entry_fits es -> len a = i * 52 -> 0 <= i ->
  getEntries (a ++ concat (entry_bytes <$> es) ++ r) i (length es) = Some es.
Proof.
  induction es as [|e es IH]; intros a r i Hf Ha Hi; [done|].
  apply Forall_cons in Hf as [He Hf]. cbn [getEntries length]. unfold footerEntrySz.
  rewrite slice_from_skip, Ha by lia. rewrite Z.sub_diag, slice_from_zero. cbn [mbind option_bind].
  rewrite fmap_cons. cbn [concat]. rewrite <- !app_assoc, getEntry_here by done. cbn [mbind option_bind].
  rewrite (app_assoc a), IH; [done..| |lia]. destruct He. rewrite len_app, len_entry_bytes by done. lia.
Qed.

Lemma decodeEntries_table es :
  Forall entry_fits es -> len es < 2 ^ 32 -> decodeEntries (table_bytes es) (len es) = Some (inr es).
Proof.
  intros Hf Hl. unfold decodeEntries. rewrite len_table_bytes by done. pose proof (len_nonneg es).
  destruct (roundUpAlign_spec (len es * 52)); [lia|]. unfold tableLen, footerEntrySz.
  replace (_ <? _) with false by lia. unfold len at 1. rewrite Nat2Z.id.
  unfold table_bytes.
  pose proof (getEntries_layout es [] (zeros (Z.to_nat (tableLen (len es) - len es * 52))) 0 Hf eq_refl) as E.
  cbn [app] in E. by rewrite E.
Qed.

Lemma getEntries_some n : forall b i,
  0 <= i -> (i + Z.of_nat n) * 52 <= len b ->
  exists es, getEntries b i n = Some es /\ length es = n /\ Forall entry_fits es.
Proof.
  induction n as [|n IH]; intros b i Hi Hl; [eexists; split_and!; constructor|].
  destruct (IH b (i + 1)) as (es & Hes & Hlen & Hfit); [lia..|].
  cbn [getEntries]. unfold footerEntrySz. rewrite Hes. rewrite slice_from_some by lia. cbn [mbind option_bind].
  destruct (getEntry_some (drop (Z.to_nat (i * 52)) b)) as (e & -> & He).
  { unfold len in *. rewrite length_drop. lia. }
  eexists; split_and!; [done|by cbn; lia|by constructor].
Qed.

Lemma decodeEntries_some b n :
  0 <= n -> exists r, decodeEntries b n = Some r /\
    (forall es, r = inr es -> len es = n /\ Forall entry_fits es).
Proof.
  intros Hn. unfold decodeEntries, footerEntrySz. case_if; [by eexists|]. bool_props.
  destruct (getEntries_some (Z.to_nat n) b 0) as (es & -> & Hl & Hf); [lia..|].
  eexists; split; [done|]. intros es' [= <-]. split; [unfold len; lia|done].
Qed.

(** *** Trailers *)

Record trailer_fits (t : trailer) : Prop := mkTrailerFits {
  tf_count : fits 32 (EntryCount t); tf_end : fits 32 (DataEnd t); tf_foot : fits 32 (FooterOff t);
  tf_seg : fits 32 (SegID t); tf_crc : fits 32 (t_CRC t)
}.

Definition trailer_prefix (t : trailer) : bytes :=
  le_split 4 trailerMagic ++ le_split 4 segmentVersion ++ le_split 4 (EntryCount t) ++
  le_split 4 (DataEnd t) ++ le_split 4 (FooterOff t) ++ le_split 4 (SegID t) ++ zeros 36.

Lemma len_trailer_prefix t : len (trailer_prefix t) = 60.
Proof. done. Qed.

Lemma encodeTrailer_layout t : encodeTrailer t = Some (trailer_prefix t ++ le_split 4 (t_CRC t)).
Proof.
  unfold encodeTrailer, trailer_prefix.
  change (zeros 64) with (zeros 4 ++ zeros 4 ++ zeros 4 ++ zeros 4 ++ zeros 4 ++ zeros 4 ++ zeros 36 ++ zeros 4 ++ []).
  layout. rewrite <- !app_assoc. by rewrite app_nil_r.
Qed.

Lemma decodeTrailer_here t r :
  trailer_fits t -> decodeTrailer (trailer_prefix t ++ le_split 4 (t_CRC t) ++ r) (SegID t) = Some (inr t).
Proof.
  intros []. unfold decodeTrailer, trailerSize. rewrite !len_app, len_trailer_prefix, len_le_split.
  pose proof (len_nonneg r). of_nat_simpl; replace (_ <? _) with false by lia.
  unfold trailer_prefix. rewrite <- !app_assoc. layout.
  change (trailerMagic `mod` _) with trailerMagic. rewrite Z.eqb_refl. cbn [negb]. layout.
  change (segmentVersion `mod` _) with segmentVersion. rewrite Z.eqb_refl. cbn [negb]. layout.
  rewrite Z.eqb_refl. by destruct t.
Qed.

Lemma decodeTrailer_some b id :
  exists r, decodeTrailer b id = Some r /\ (forall t, r = inr t -> trailer_fits t /\ SegID t = id).
Proof.
  unfold decodeTrailer, trailerSize. case_if; [by eexists|]. bool_props.
  cut_int b 4%nat m. cut_int b 4%nat v. cut_int b 4%nat ec. cut_int b 4%nat de. cut_int b 4%nat fo.
  cut_int b 4%nat i. cut_field b 36. cut_int b 4%nat crc. layout. case_if; [by eexists|]. layout.
  case_if; [by eexists|]. layout. case_if; (eexists; split; [done|]); intros t [= <-]. bool_props.
  split; [by constructor|done].
Qed.

Lemma sealCRC_fits a b : fits 32 (sealCRC a b).
Proof.
  unfold sealCRC, crc32_update. apply fits_lxor; [lia| |by unfold fits].
  apply crc_run_fits. apply fits_lxor; [lia| |by unfold fits].
  apply fits_lxor; [lia| |by unfold fits]. by apply crc_run_fits.
Qed.

End SegFacts.

Module CkptFacts.
Import Seg Ckpt SegFacts.

Record ckpt_fits (e : ckptEntry) : Prop := mkCkptFits {
  cf_ns : fits 32 (c_NS e); cf_key : len (c_Key e) = 32; cf_seg : fits 32 (c_SegID e);
  cf_off : fits 32 (c_Off e); cf_len : fits 32 (c_Len e); cf_xxh : fits 64 (c_XXH3 e)
}.

Definition ckpt_entry_bytes (e : ckptEntry) : bytes :=
  le_split 4 (c_NS e) ++ c_Key e ++ le_split 4 (c_SegID e) ++ le_split 4 (c_Off e) ++
  le_split 4 (c_Len e) ++ le_split 8 (c_XXH3 e).

Definition ckpt_header (nowNanos maxSealed n : Z) : bytes :=
  le_split 4 ckptMagic ++ le_split 4 ckptVersion ++ le_split 8 (u64 nowNanos) ++
  le_split 4 maxSealed ++ le_split 4 n.

Definition ckpt_body (nowNanos maxSealed : Z) (es : list ckptEntry) : bytes :=
  ckpt_header nowNanos maxSealed (len es) ++ concat (ckpt_entry_bytes <$> es).

Ltac layout := repeat (first [ key_step | field_step ]).

Lemma len_ckpt_entry_bytes e : len (c_Key e) = 32 -> len (ckpt_entry_bytes e) = 56.
Proof. intros. unfold ckpt_entry_bytes. field_lens. lia. Qed.

Lemma len_ckpt_entries es : Forall ckpt_fits es -> len (concat (ckpt_entry_bytes <$> es)) = len es * 56.
Proof.
  induction 1 as [|e es [] _ IH]; [done|]. cbn. rewrite len_app, len_cons, IH, len_ckpt_entry_bytes by done. lia.
Qed.

Lemma putCkptEntry_layout e : len (c_Key e) = 32 -> putCkptEntry e = Some (ckpt_entry_bytes e).
Proof.
  intros Hk. unfold putCkptEntry.
  change (zeros 56) with (zeros 4 ++ zeros 32 ++ zeros 4 ++ zeros 4 ++ zeros 4 ++ zeros 8 ++ []).
  layout. unfold ckpt_entry_bytes. by rewrite !app_nil_r.
Qed.

Lemma putCkptEntries_layout es : forall buf,
  Forall ckpt_fits es -> putCkptEntries buf es = Some (buf ++ concat (ckpt_entry_bytes <$> es)).
Proof.
  induction es as [|e es IH]; intros buf Hf; [by cbn; rewrite app_nil_r|].
  apply Forall_cons in Hf as [[] Hf]. cbn [putCkptEntries]. rewrite putCkptEntry_layout by done.
  cbn [mbind option_bind]. rewrite IH by done. by rewrite fmap_cons; cbn [concat]; rewrite app_assoc.
Qed.

Lemma encodeCkpt_layout t m es :
  Forall ckpt_fits es -> len es < 2 ^ 32 ->
  encodeCkpt t m es = Some (ckpt_body t m es ++ le_split 4 (crc32_checksum (ckpt_body t m es))).
Proof.
  intros Hf Hl. unfold encodeCkpt. pose proof (len_nonneg es).
  rewrite (u32_small (len es)) by lia.
  change (zeros 24) with (zeros 4 ++ zeros 4 ++ zeros 8 ++ zeros 4 ++ zeros 4 ++ []). layout.
  rewrite app_nil_r. fold (ckpt_header t m (len es)).
  by rewrite putCkptEntries_layout.
Qed.

Lemma getCkptEntry_here e r : ckpt_fits e -> getCkptEntry (ckpt_entry_bytes e ++ r) = Some e.
Proof. intros []. unfold getCkptEntry, ckpt_entry_bytes. rewrite <- !app_assoc. layout. by destruct e. Qed.

Lemma getCkptEntries_layout es : forall (a : bytes) i,
  Forall ckpt_fits es -> len a = 24 + i * 56 -> 0 <= i ->
  getCkptEntries (a ++ concat (ckpt_entry_bytes <$> es)) i (length es) = Some es.
Proof.
  induction es as [|e es IH]; intros a i Hf Ha Hi; [done|].
  apply Forall_cons in Hf as [He Hf]. cbn [getCkptEntries length]. unfold ckptHdrSize, ckptEntrySize.
  rewrite slice_from_skip, Ha by lia. rewrite Z.sub_diag, slice_from_zero. cbn [mbind option_bind].
  rewrite fmap_cons. cbn [concat]. rewrite getCkptEntry_here by done. cbn [mbind option_bind].
  rewrite (app_assoc a), IH; [done..| |lia]. destruct He. rewrite len_app, len_ckpt_entry_bytes by done. lia.
Qed.

Lemma getCkptEntries_some n : forall b i,
  0 <= i -> 24 + (i + Z.of_nat n) * 56 <= len b -> exists es, getCkptEntries b i n = Some es.
Proof.
  induction n as [|n IH]; intros b i Hi Hl; [by eexists|].
  destruct (IH b (i + 1)) as (es & Hes); [lia..|].
  cbn [getCkptEntries]. unfold ckptHdrSize, ckptEntrySize. rewrite Hes.
  rewrite slice_from_some by lia. cbn [mbind option_bind].
  set (c := drop _ b). assert (56 <= len c) by (unfold c, len in *; rewrite length_drop; lia).
  clearbody c. unfold getCkptEntry. cut_int c 4%nat ns. cut_field c 32. cut_int c 4%nat sg.
  cut_int c 4%nat off. cut_int c 4%nat ln. cut_int c 8%nat x. layout. by eexists.
Qed.

(** The parse of a file that is [body] followed by its checksum: the checks in
    the order of [readCkptFile]. *)
Lemma parse_ckpt_body t m es :
  Forall ckpt_fits es -> fits 32 m -> len es < 2 ^ 32 -> 28 + len es * 56 <= ckptMaxBytes ->
  parseCkpt (ckpt_body t m es ++ le_split 4 (crc32_checksum (ckpt_body t m es))) = Some (inr (es, m)).
Proof.
  intros Hf Hm Hl Hcap. unfold parseCkpt. set (body := ckpt_body t m es).
  assert (len body = 24 + len es * 56) as Hb.
  { unfold body, ckpt_body. by rewrite len_app, len_ckpt_entries. }
  rewrite len_app, len_le_split, Hb. unfold ckptHdrSize, ckptEntrySize. pose proof (len_nonneg es). of_nat_simpl.
  replace (ckptMaxBytes <? _) with false by lia. replace (_ <? 24 + 4) with false by lia.
  rewrite slice_here by lia. cbn [mbind option_bind].
  rewrite slice_from_skip by lia. replace (_ - len body) with 0 by lia. rewrite slice_from_zero.
  cbn [mbind option_bind]. unfold le_get. rewrite len_le_split. change (_ <=? _) with true. cbn beta iota.
  rewrite firstn_all2 by (by rewrite length_le_split). rewrite le_combine_split.
  change (Z.of_nat 4 * 8) with 32. rewrite (fits_mod 32) by apply crc32_fits. cbn [mbind option_bind].
  rewrite Z.eqb_refl. cbn [negb]. rewrite Hb.
  assert (body = ckpt_header t m (len es) ++ concat (ckpt_entry_bytes <$> es)) as Eb by done.
  clearbody body. assert (fits 32 (len es)) by (unfold fits; lia).
  pose proof (getCkptEntries_layout es (ckpt_header t m (len es)) 0 Hf eq_refl (Z.le_refl 0)) as E.
  rewrite Eb. unfold ckpt_header in *. rewrite <- !app_assoc in *. layout.
  change (ckptMagic `mod` _) with ckptMagic. rewrite Z.eqb_refl. cbn [negb]. layout.
  change (ckptVersion `mod` _) with ckptVersion. rewrite Z.eqb_refl. cbn [negb]. layout.
  rewrite Z.eqb_refl. cbn [negb]. unfold len at 2. rewrite Nat2Z.id. by rewrite E.
Qed.

Lemma parse_ckpt_some buf : exists r, parseCkpt buf = Some r.
Proof.
  unfold parseCkpt, ckptHdrSize. case_if; [by eexists|]. case_if; [by eexists|]. bool_props.
  destruct (slice_some buf 0 (len buf - 4)) as (body & -> & Hb); [lia|lia|]. cbn [mbind option_bind].
  rewrite slice_from_some by lia. cbn [mbind option_bind].
  rewrite le_get_some by (unfold len in *; rewrite length_drop; lia). cbn [mbind option_bind].
  case_if; [by eexists|].
  destruct (le_at_some 4 body 0) as (m & -> & _); [lia|lia|]. cbn [mbind option_bind]. case_if; [by eexists|].
  destruct (le_at_some 4 body 4) as (v & -> & _); [lia|lia|]. cbn [mbind option_bind]. case_if; [by eexists|].
  destruct (le_at_some 4 body 16) as (ms & -> & _); [lia|lia|]. cbn [mbind option_bind].
  destruct (le_at_some 4 body 20) as (n & -> & Hn); [lia|lia|]. cbn [mbind option_bind].
  case_if; [by eexists|]. bool_props. unfold fits, ckptEntrySize in *.
  destruct (getCkptEntries_some (Z.to_nat n) body 0) as (es & ->); [lia..|]. by eexists.
Qed.

End CkptFacts.
