(* ===== verification/NvmeVolume.v ===== *)
(** The NVMe volume: [internal/store/nvme] - the segment log with its writer
    ([writer.go]), the verified read ([reader.go], [Volume.Read]), checkpoints
    ([checkpoint.go]), the retire protocol ([reclaim.go]) and recovery
    ([recovery.go], [OpenVolume]).

    The state is the process memory of a [Volume] together with its directory:
    segment files by id, checkpoint files by sequence number. A file keeps the
    ranges written since its last fdatasync ([dirty]); what a power failure
    leaves there is arbitrary. Every device or file-system call takes its
    outcome from the environment: success, an error after part of the work, or
    the machine stopping there ([Crash]). A Go panic is [Panic].

    The writer goroutine is modelled by its turns, which run on the queue as it
    is at their start; the checkpoint goroutine by its two phases, the snapshot
    and the file write, which other steps may separate. An unlink and a rename
    take effect on disk when they return. Leftover temporary files, whose names
    no lister matches, and log output are not part of the state. *)

From Stdlib Require Import ZArith Lia.
From coqutil Require Import Byte Word.LittleEndianList.
From stdpp Require Import base numbers list gmap sorting.
From S2P Require Import Prelude.
From S2P Require Import NvmeFormat.
Import Seg Ckpt.
Open Scope Z_scope.
Open Scope go_scope.

(** ** The environment *)

Inductive ioError := EIO | ENOSPC.

(** [IoErr n e]: the call fails with [e] after [n] bytes; [IoCrash n]: power is
    lost in the call, after [n] bytes. *)
Inductive ioResult := IoOk | IoErr (n : Z) (e : ioError) | IoCrash (n : Z).

(** What one run meets: the outcome of its n-th call, the clock, and the order
    in which Go iterates over the segment map. *)
Class World := {
  io : nat -> ioResult;
  clock : nat -> Z;
  segOrder : list Z -> list Z;
  segOrder_perm : forall l, segOrder l ≡ₚ l
}.

Module Nvme.

Record file := mkFile { content : bytes; dirty : list (Z * Z) }.

Record segment := mkSegment {
  s_size : Z; s_sealed : bool; s_spilled : bool; s_dataEnd : Z;
  s_entries : list footerEntry; s_dying : bool; s_reads : Z
}.

(** [r_OnWritten] names the callback; calling it appends to [acks]. *)
Record AppendReq := mkAppendReq { r_NS : Z; r_Key : bytes; r_XXH3 : Z; r_Data : bytes; r_OnWritten : Z }.

Record pendingRec := mkPending { p_entry : footerEntry; p_req : AppendReq }.

Record snapshot := mkSnapshot { sn_seq : Z; sn_now : Z; sn_max : Z; sn_entries : list ckptEntry }.

Record VolumeParams := mkVolumeParams {
  SegmentBytes : Z; MaxBytes : Z; SyncEveryBytes : Z; CkptEverySegs : Z; MaxBlobLen : Z
}.

Record Volume := mkVolume {
  files : gmap Z file;                       (* seg-<id>.kvbs *)
  ckptFiles : gmap Z bytes;                  (* ckpt-<seq>.kvbi *)
  segs : gmap Z segment;
  active : option Z;
  nextID : Z;
  readOnly : bool;
  closed : bool;
  reqs : list AppendReq;
  unsynced : Z;
  sealsSinceCkpt : Z;
  ckptSeq : Z;
  ckptJob : option Z;                        (* the goroutine of [maybeCheckpoint], not yet in its lock *)
  ckptSnap : option snapshot;                (* the holder of [ckptWriteMu] *)
  used : Z;
  counters : Z * Z * Z * Z * Z;              (* appended, seals, ckpts, enospc, reclaims *)
  acks : list (AppendReq * option Loc);      (* [OnWritten] calls, newest first *)
  tick : nat
}.


Definition set_files v s := mkVolume v (ckptFiles s) (segs s) (active s) (nextID s) (readOnly s) (closed s) (reqs s)
  (unsynced s) (sealsSinceCkpt s) (ckptSeq s) (ckptJob s) (ckptSnap s) (used s) (counters s) (acks s) (tick s).
Definition set_ckptFiles v s := mkVolume (files s) v (segs s) (active s) (nextID s) (readOnly s) (closed s) (reqs s)
  (unsynced s) (sealsSinceCkpt s) (ckptSeq s) (ckptJob s) (ckptSnap s) (used s) (counters s) (acks s) (tick s).
Definition set_segs v s := mkVolume (files s) (ckptFiles s) v (active s) (nextID s) (readOnly s) (closed s) (reqs s)
  (unsynced s) (sealsSinceCkpt s) (ckptSeq s) (ckptJob s) (ckptSnap s) (used s) (counters s) (acks s) (tick s).
Definition set_active v s := mkVolume (files s) (ckptFiles s) (segs s) v (nextID s) (readOnly s) (closed s) (reqs s)
  (unsynced s) (sealsSinceCkpt s) (ckptSeq s) (ckptJob s) (ckptSnap s) (used s) (counters s) (acks s) (tick s).
Definition set_nextID v s := mkVolume (files s) (ckptFiles s) (segs s) (active s) v (readOnly s) (closed s) (reqs s)
  (unsynced s) (sealsSinceCkpt s) (ckptSeq s) (ckptJob s) (ckptSnap s) (used s) (counters s) (acks s) (tick s).
Definition set_readOnly v s := mkVolume (files s) (ckptFiles s) (segs s) (active s) (nextID s) v (closed s) (reqs s)
  (unsynced s) (sealsSinceCkpt s) (ckptSeq s) (ckptJob s) (ckptSnap s) (used s) (counters s) (acks s) (tick s).
Definition set_closed v s := mkVolume (files s) (ckptFiles s) (segs s) (active s) (nextID s) (readOnly s) v (reqs s)
  (unsynced s) (sealsSinceCkpt s) (ckptSeq s) (ckptJob s) (ckptSnap s) (used s) (counters s) (acks s) (tick s).
Definition set_reqs v s := mkVolume (files s) (ckptFiles s) (segs s) (active s) (nextID s) (readOnly s) (closed s) v
  (unsynced s) (sealsSinceCkpt s) (ckptSeq s) (ckptJob s) (ckptSnap s) (used s) (counters s) (acks s) (tick s).
Definition set_unsynced v s := mkVolume (files s) (ckptFiles s) (segs s) (active s) (nextID s) (readOnly s) (closed s)
  (reqs s) v (sealsSinceCkpt s) (ckptSeq s) (ckptJob s) (ckptSnap s) (used s) (counters s) (acks s) (tick s).
Definition set_sealsSinceCkpt v s := mkVolume (files s) (ckptFiles s) (segs s) (active s) (nextID s) (readOnly s)
  (closed s) (reqs s) (unsynced s) v (ckptSeq s) (ckptJob s) (ckptSnap s) (used s) (counters s) (acks s) (tick s).
Definition set_ckptSeq v s := mkVolume (files s) (ckptFiles s) (segs s) (active s) (nextID s) (readOnly s) (closed s)
  (reqs s) (unsynced s) (sealsSinceCkpt s) v (ckptJob s) (ckptSnap s) (used s) (counters s) (acks s) (tick s).
Definition set_ckptJob v s := mkVolume (files s) (ckptFiles s) (segs s) (active s) (nextID s) (readOnly s) (closed s)
  (reqs s) (unsynced s) (sealsSinceCkpt s) (ckptSeq s) v (ckptSnap s) (used s) (counters s) (acks s) (tick s).
Definition set_ckptSnap v s := mkVolume (files s) (ckptFiles s) (segs s) (active s) (nextID s) (readOnly s) (closed s)
  (reqs s) (unsynced s) (sealsSinceCkpt s) (ckptSeq s) (ckptJob s) v (used s) (counters s) (acks s) (tick s).
Definition set_used v s := mkVolume (files s) (ckptFiles s) (segs s) (active s) (nextID s) (readOnly s) (closed s)
  (reqs s) (unsynced s) (sealsSinceCkpt s) (ckptSeq s) (ckptJob s) (ckptSnap s) v (counters s) (acks s) (tick s).
Definition set_counters v s := mkVolume (files s) (ckptFiles s) (segs s) (active s) (nextID s) (readOnly s) (closed s)
  (reqs s) (unsynced s) (sealsSinceCkpt s) (ckptSeq s) (ckptJob s) (ckptSnap s) (used s) v (acks s) (tick s).
Definition set_acks v s := mkVolume (files s) (ckptFiles s) (segs s) (active s) (nextID s) (readOnly s) (closed s)
  (reqs s) (unsynced s) (sealsSinceCkpt s) (ckptSeq s) (ckptJob s) (ckptSnap s) (used s) (counters s) v (tick s).
Definition set_tick v s := mkVolume (files s) (ckptFiles s) (segs s) (active s) (nextID s) (readOnly s) (closed s)
  (reqs s) (unsynced s) (sealsSinceCkpt s) (ckptSeq s) (ckptJob s) (ckptSnap s) (used s) (counters s) (acks s) v.

Definition bump (f : Z * Z * Z * Z * Z -> Z * Z * Z * Z * Z) s := set_counters (f (counters s)) s.

(** ** Programs over the volume: a value, a power failure, or a panic *)

Inductive result (A : Type) := Ret (a : A) (s : Volume) | Crash (s : Volume) | Panic.
#[global] Arguments Ret {A} a s.
#[global] Arguments Crash {A} s.
#[global] Arguments Panic {A}.

Definition M (A : Type) : Type := Volume -> result A.

#[export] Instance M_ret : MRet M := fun A a s => Ret a s.
#[export] Instance M_bind : MBind M := fun A B f m s =>
  match m s with Ret a s' => f a s' | Crash s' => Crash s' | Panic => Panic end.

Definition gets {A} (f : Volume -> A) : M A := fun s => Ret (f s) s.
Definition modify (f : Volume -> Volume) : M unit := fun s => Ret tt (f s).
Definition lift {A} (o : option A) : M A := fun s => match o with Some a => Ret a s | None => Panic end.

(** The defaults [OpenVolume] fills in. *)
Definition volumeDefaults (p : VolumeParams) : VolumeParams :=
  mkVolumeParams (SegmentBytes p) (MaxBytes p)
    (if SyncEveryBytes p <=? 0 then 8 <<| 20 else SyncEveryBytes p) (CkptEverySegs p)
    (if MaxBlobLen p =? 0 then 32 <<| 20 else MaxBlobLen p).

Section Env.
Context `{!Xxh3, !World} (p : VolumeParams).

Definition nextIo : M ioResult := fun s => Ret (io (tick s)) (set_tick (S (tick s)) s).
Definition stop {A} : M A := fun s => Crash s.
Definition now : M Z := fun s => Ret (clock (tick s)) (set_tick (S (tick s)) s).

(** *** File calls: [None] is success *)

(** The bytes of a file after [data] is written at [off]; a gap reads as zeros. *)
Definition splice (c : bytes) (off : Z) (data : bytes) : bytes :=
  take (Z.to_nat off) (c ++ zeros (Z.to_nat (off - len c))) ++ data ++ drop (Z.to_nat (off + len data)) c.

Definition putFile (id off : Z) (data : bytes) : M unit :=
  modify (fun s => set_files (alter (fun f => mkFile (splice (content f) off data) ((off, len data) :: dirty f)) id
                                    (files s)) s).

(** A call with no partial effect: an error, or the failure of power, before it. *)
Definition ioStep : M (option ioError) :=
  r ← nextIo;
  match r with
  | IoOk => mret None
  | IoErr _ e => mret (Some e)
  | IoCrash _ => stop
  end.

Definition Open (id : Z) : M (option ioError) :=
  e ← ioStep;
  match e with
  | None => modify (fun s => set_files (<[id := default (mkFile [] []) (files s !! id)]> (files s)) s);; mret None
  | Some e => mret (Some e)
  end.

Definition ReadAt (id off n : Z) : M (option bytes) :=
  e ← ioStep;
  match e with
  | Some _ => mret None
  | None => f ← gets (fun s => files s !! id); mret (f ← f; slice (content f) off (off + n))
  end.

Definition WriteAt (id off : Z) (data : bytes) : M (option ioError) :=
  r ← nextIo;
  match r with
  | IoOk => putFile id off data;; mret None
  | IoErr n e => putFile id off (take (Z.to_nat n) data);; mret (Some e)
  | IoCrash n => putFile id off (take (Z.to_nat n) data);; stop
  end.

Definition Datasync (id : Z) : M (option ioError) :=
  e ← ioStep;
  match e with
  | None => modify (fun s => set_files (alter (fun f => mkFile (content f) []) id (files s)) s);; mret None
  | Some e => mret (Some e)
  end.

(** The file is zero-extended to [size]. *)
Definition extend (size : Z) (f : file) : file :=
  mkFile (content f ++ zeros (Z.to_nat (size - len (content f)))) (dirty f).

Definition Preallocate (id size : Z) : M (option ioError) :=
  r ← nextIo;
  let grow n := modify (fun s => set_files (alter (extend n) id (files s)) s) in
  match r with
  | IoOk => grow size;; mret None
  | IoErr n e => grow (Z.min n size);; mret (Some e)
  | IoCrash n => grow (Z.min n size);; stop
  end.

Definition SyncDir : M (option ioError) := ioStep.

(** [os.Remove]; a failure leaves the file. *)
Definition Remove (id : Z) : M (option ioError) :=
  e ← ioStep;
  match e with
  | None => modify (fun s => set_files (delete id (files s)) s);; mret None
  | Some e => mret (Some e)
  end.

(** [os.Stat]: the size. *)
Definition Stat (id : Z) : M (option Z) :=
  e ← ioStep;
  match e with
  | Some _ => mret None
  | None => f ← gets (fun s => files s !! id); mret ((fun f => len (content f)) <$> f)
  end.

(** [mmapBuf], behind [alignedTemp] and [bufPool.Get]. *)
Definition mmapBuf : M bool := e ← ioStep; mret (match e with None => true | Some _ => false end).

(** [bufPool] ([alignedbuf.go]): the class that serves a request of [n] bytes;
    whether its buffer is recycled or mapped does not matter here. *)
Definition poolClasses : list Z :=
  let maxClass := u32 (roundUpAlign (u32 (recordSpan (MaxBlobLen p)))) in
  filter (fun c => c < maxClass) [128 <<| 10; 1 <<| 20] ++ [maxClass].

Definition poolGet (n : Z) : M (option Z) :=
  match list_find (fun c => n <= c) poolClasses with
  | None => mret None
  | Some (_, c) => ok ← mmapBuf; mret (if ok : bool then Some c else None)
  end.

(** [buf[:span]] of a pooled buffer. *)
Definition cutBuf (c span : Z) : M unit := lift (if span <=? c then Some tt else None).

(** ** Sealing ([writer.go], [recovery.go]) *)

Definition encodeSeal (segID dataEnd : Z) (entries : list footerEntry) : option (bytes * bytes) :=
  table ← encodeEntries entries;
  let tr := mkTrailer (u32 (len entries)) dataEnd dataEnd segID in
  pre ← encodeTrailer (tr 0);
  pre60 ← slice pre 0 60;
  full ← encodeTrailer (tr (sealCRC table pre60));
  tail ← copy_at (zeros 4096) (recordAlign - trailerSize) full;
  Some (table, tail).

(** A write from a fresh page-aligned buffer. *)
Definition writeAligned (id off : Z) (data : bytes) : M (option ioError) :=
  ok ← mmapBuf;
  if negb ok then mret (Some EIO) else WriteAt id off data.

Definition writeSeal (id segBytes dataEnd : Z) (entries : list footerEntry) : M (option ioError) :=
  seal ← lift (encodeSeal id dataEnd entries);
  let '(table, tail) := seal in
  err ← (if 0 <? len table then writeAligned id dataEnd table else mret None);
  match err with
  | Some e => mret (Some e)
  | None =>
      err ← writeAligned id (segBytes - recordAlign) tail;
      match err with
      | Some e => mret (Some e)
      | None => Datasync id
      end
  end.

(** The bounds every entry is checked against. *)
Definition entryIn (maxBlob limit : Z) (e : footerEntry) : bool :=
  (e_Len e <=? maxBlob) && (e_Off e `mod` recordAlign =? 0) && (e_Off e + recordSpan (e_Len e) <=? limit).

Definition readSeal (id segBytes maxBlob : Z) : M (option (trailer * list footerEntry)) :=
  ok ← mmapBuf;
  if negb ok then mret None else
  tail ← ReadAt id (segBytes - recordAlign) recordAlign;
  match tail with
  | None => mret None
  | Some tail =>
      tl ← lift (slice_from tail (recordAlign - trailerSize));
      tr ← lift (decodeTrailer tl id);
      match tr with
      | inl _ => mret None
      | inr tr =>
          let tableLen := roundUpAlign (EntryCount tr * footerEntrySz) in
          if negb (FooterOff tr =? DataEnd tr) || (segBytes <? FooterOff tr + tableLen + recordAlign)
          then mret None else
          table ← (if 0 <? tableLen then
                     ok ← mmapBuf;
                     if negb ok then mret None else ReadAt id (FooterOff tr) tableLen
                   else mret (Some []));
          match table with
          | None => mret None
          | Some table =>
              pre ← lift (slice tail (recordAlign - trailerSize) (recordAlign - 4));
              if negb (sealCRC table pre =? t_CRC tr) then mret None else
              es ← lift (decodeEntries table (EntryCount tr));
              match es with
              | inl _ => mret None
              | inr es => mret (Some (tr, filter (fun e => entryIn maxBlob (DataEnd tr) e = true) es))
              end
          end
      end
  end.

(** ** The writer ([writer.go]) *)

Definition setReadOnly : M unit := modify (set_readOnly true).
Definition clearReadOnly : M unit := modify (set_readOnly false).

Definition appendFailed (e : ioError) : M unit :=
  modify (bump (fun '(a, b, c, d, r) => match e with ENOSPC => (a, b, c, d + 1, r) | _ => (a, b, c, d, r) end));;
  setReadOnly.

(** [OnWritten]: [None] is [ok=false]. *)
Definition onWritten (r : AppendReq) (loc : option Loc) : M unit :=
  modify (fun s => set_acks ((r, loc) :: acks s) s).

Definition failAll (pending : list pendingRec) : M unit :=
  modify (fun s => set_acks (reverse ((fun q => (p_req q, None)) <$> pending) ++ acks s) s).

Definition activeSeg : M (option (Z * segment)) :=
  gets (fun s => id ← active s; seg ← segs s !! id; Some (id, seg)).

Definition activeDataEnd : M Z :=
  a ← activeSeg; mret (match a with Some (_, seg) => s_dataEnd seg | None => 0 end).

Definition fitsActive (span staged extra : Z) : M bool :=
  a ← activeSeg;
  mret (match a with
        | None => false
        | Some (_, seg) =>
            let entries := len (s_entries seg) + extra in
            let reserve := roundUpAlign (entries * footerEntrySz) + recordAlign in
            s_dataEnd seg + staged + span + reserve <=? SegmentBytes p
        end).

Definition with_data (dataEnd : Z) (entries : list footerEntry) (s : segment) : segment :=
  mkSegment (s_size s) (s_sealed s) (s_spilled s) dataEnd entries (s_dying s) (s_reads s).

Definition flushBatch (staging : bytes) (pending : list pendingRec) : M bool :=
  a ← activeSeg;
  match a with
  | None => failAll pending;; mret false
  | Some (id, seg) =>
      err ← WriteAt id (s_dataEnd seg) staging;
      match err with
      | Some e => appendFailed e;; failAll pending;; mret false
      | None =>
          modify (fun s => set_segs (alter (fun g => with_data (u32 (s_dataEnd g + len staging))
                                                       (s_entries g ++ (p_entry <$> pending)) g) id (segs s)) s);;
          modify (fun s => set_unsynced (unsynced s + len staging) s);;
          u ← gets unsynced;
          (if SyncEveryBytes p <=? u then
             err ← Datasync id;
             (match err with Some _ => setReadOnly | None => mret tt end);;
             modify (set_unsynced 0)
           else mret tt);;
          modify (bump (fun '(a, b, c, d, r) => (a + len pending, b, c, d, r)));;
          modify (fun s => set_acks (reverse ((fun q => (p_req q, Some (mkLoc id (e_Off (p_entry q)) (e_Len (p_entry q)))))
                                              <$> pending) ++ acks s) s);;
          mret true
      end
  end.

Definition flush (staging : bytes) (pending : list pendingRec) : M bool :=
  match pending with [] => mret true : M bool | _ => flushBatch staging pending end.

Definition sealActive : M (option ioError) :=
  a ← activeSeg;
  match a with
  | None => mret None
  | Some (id, seg) =>
      err ← writeSeal id (s_size seg) (s_dataEnd seg) (s_entries seg);
      match err with
      | Some e => mret (Some e)
      | None =>
          modify (fun s => set_segs (alter (fun g => mkSegment (s_size g) true (s_spilled g) (s_dataEnd g) (s_entries g)
                                                       (s_dying g) (s_reads g)) id (segs s)) s);;
          modify (set_active None);;
          modify (fun s => set_sealsSinceCkpt (sealsSinceCkpt s + 1) s);;
          modify (bump (fun '(a, b, c, d, r) => (a, b + 1, c, d, r)));;
          mret None
      end
  end.

Definition openActive : M (option ioError) :=
  id ← gets nextID;
  modify (fun s => set_nextID (u32 (nextID s + 1)) s);;
  err ← Open id;
  match err with Some e => mret (Some e) | None =>
  err ← Preallocate id (SegmentBytes p);
  match err with Some e => mret (Some e) | None =>
  err ← Datasync id;
  match err with Some e => mret (Some e) | None =>
  err ← SyncDir;
  match err with Some e => mret (Some e) | None =>
    modify (fun s => set_segs (<[id := mkSegment (SegmentBytes p) false false 0 [] false 0]> (segs s)) s);;
    modify (set_active (Some id));;
    modify (fun s => set_used (used s + SegmentBytes p) s);;
    mret None
  end end end end.

(** The goroutine is started with its clock sample; one at a time. *)
Definition maybeCheckpoint : M unit :=
  n ← gets sealsSinceCkpt;
  if negb ((0 <? CkptEverySegs p) && (CkptEverySegs p <=? n)) then mret tt else
  j ← gets ckptJob;
  match j with
  | Some _ => mret tt
  | None => ts ← now; modify (set_ckptJob (Some ts))
  end.

Definition rotate : M bool :=
  err ← sealActive;
  match err with
  | Some e => appendFailed e;; mret false
  | None =>
      err ← openActive;
      match err with
      | Some e => appendFailed e;; mret false
      | None => maybeCheckpoint;; mret true
      end
  end.

Definition receive : M (option AppendReq) := fun s =>
  match reqs s with r :: rs => Ret (Some r) (set_reqs rs s) | [] => Ret None s end.

Definition stagingCap : Z := if recordSpan (MaxBlobLen p) <? 4 <<| 20 then 4 <<| 20 else recordSpan (MaxBlobLen p).

(** Frame one record behind what is staged. *)
Definition stageRec (req : AppendReq) (staging : bytes) (pending : list pendingRec)
  : M (bytes * list pendingRec) :=
  de ← activeDataEnd;
  let off := u32 (de + u32 (len staging)) in
  let h := mkRecordHeader (r_NS req) (r_Key req) (u32 (len (r_Data req))) (r_XXH3 req) in
  st ← lift (appendRecord staging h (r_Data req));
  mret (st, pending ++ [mkPending (mkEntry (r_NS req) (r_Key req) off (h_Len h) (r_XXH3 req)) req]).

(** From the label [stage] to the next blocking receive: [stage] handles a
    request with what is staged, [drain] takes further requests off the queue.
    The recursion is bounded: each call receives a request, or is the one
    re-entry into [stage] after a flush. Running out of fuel is a panic, which
    the theorems exclude. *)
Fixpoint stage (fuel : nat) (req : AppendReq) (staging : bytes) (pending : list pendingRec) : M unit :=
  match fuel with O => lift None | S fuel =>
  if MaxBlobLen p <? len (r_Data req) then onWritten req None else
  let span := recordSpan (u32 (len (r_Data req))) in
  fa ← fitsActive span (len staging) (len pending + 1);
  st ← ((if negb fa then
           ok ← flush staging pending;
           if negb ok then mret None else
           ok ← rotate;
           mret (if ok : bool then Some ([], []) else None)
         else mret (Some (staging, pending))) : M (option (bytes * list pendingRec)));
  match st with
  | None => onWritten req None
  | Some (staging, pending) =>
      if stagingCap <? len staging + span then
        ok ← flush staging pending;
        if negb ok then onWritten req None else stage fuel req [] []
      else
        st ← stageRec req staging pending;
        drain fuel (fst st) (snd st)
  end
  end
with drain (fuel : nat) (staging : bytes) (pending : list pendingRec) : M unit :=
  match fuel with O => lift None | S fuel =>
  if 64 <=? len pending then flush staging pending;; mret tt else
  nxt ← receive;
  match nxt with
  | None => flush staging pending;; mret tt
  | Some nxt =>
      if MaxBlobLen p <? len (r_Data nxt) then onWritten nxt None;; drain fuel staging pending else
      let nspan := recordSpan (u32 (len (r_Data nxt))) in
      fa ← (if stagingCap <? len staging + nspan then mret false : M bool
            else fitsActive nspan (len staging) (len pending + 1));
      if negb fa then
        ok ← flush staging pending;
        if negb ok then onWritten nxt None;; drain fuel [] []
        else stage fuel nxt [] []
      else
        st ← stageRec nxt staging pending;
        drain fuel (fst st) (snd st)
  end
  end.

(** One turn of [writerLoop]: from a receive to the next one. *)
Definition writerTurn : M unit :=
  r ← receive;
  match r with
  | None => mret tt
  | Some req => n ← gets (fun s => length (reqs s)); stage (3 * n + 4) req [] []
  end.

(** The turn of [writerLoop] that sees [writerStop]: nothing is staged. *)
Definition finalSync : M unit :=
  u ← gets unsynced;
  if u =? 0 then mret tt else
  a ← activeSeg;
  match a with
  | Some (id, _) => Datasync id;; mret tt
  | None => mret tt
  end.

(** ** The calls of other goroutines ([volume.go], [reclaim.go], [spillsurface.go]) *)

Definition Append (r : AppendReq) : M bool :=
  c ← gets closed;
  if c : bool then mret false else
  ro ← gets readOnly;
  if ro : bool then mret false else
  q ← gets reqs;
  if 128 <=? len q then mret false else
  modify (set_reqs (q ++ [r]));; mret true.

Definition failQueuedAppends : M unit :=
  q ← gets reqs;
  modify (set_reqs []);;
  modify (fun s => set_acks (reverse ((fun r => (r, None)) <$> q) ++ acks s) s).

(** The writer's last turn, the queue and the segments; checkpoints and readers
    have been waited for. *)
Definition Close : M unit :=
  c ← gets closed;
  if c : bool then mret tt else
  modify (set_closed true);;
  finalSync;;
  failQueuedAppends;;
  modify (set_segs ∅);;
  modify (set_active None).

Definition TryRecoverWrites : M unit :=
  c ← gets closed;
  if c : bool then mret tt else
  ro ← gets readOnly;
  a ← gets active;
  match a with
  | Some _ => mret tt
  | None =>
      if negb ro then mret tt else
      err ← openActive;
      match err with
      | Some _ => mret tt
      | None => clearReadOnly
      end
  end.

Definition with_dying (v : bool) (s : segment) : segment :=
  mkSegment (s_size s) (s_sealed s) (s_spilled s) (s_dataEnd s) (s_entries s) v (s_reads s).
Definition with_reads (v : Z) (s : segment) : segment :=
  mkSegment (s_size s) (s_sealed s) (s_spilled s) (s_dataEnd s) (s_entries s) (s_dying s) v.
Definition with_spilled (s : segment) : segment :=
  mkSegment (s_size s) (s_sealed s) true (s_dataEnd s) (s_entries s) (s_dying s) (s_reads s).

Definition OldestSealed (from : Z) : M (option (Z * list footerEntry)) :=
  gets (fun s =>
    let pick acc '(sid, seg) :=
      if (sid <? from) || negb (s_sealed seg) || s_dying seg then acc else
      match acc with
      | Some (id, _) => if sid <? id then Some (sid, s_entries seg) else acc
      | None => Some (sid, s_entries seg)
      end in
    foldl pick None (omap (fun id => pair id <$> segs s !! id) (segOrder (elements (dom (segs s)))))).

Definition RetireBegin (id : Z) : M bool :=
  g ← gets (fun s => segs s !! id);
  match g with
  | None => mret false
  | Some g =>
      if negb (s_sealed g) || s_dying g then mret false else
      modify (fun s => set_segs (<[id := with_dying true g]> (segs s)) s);; mret true
  end.

Definition RetireAbort (id : Z) : M unit :=
  modify (fun s => set_segs (alter (with_dying false) id (segs s)) s).

(** The wait for readers that hold the file between the two halves changes
    nothing here: the segment is no longer in the map. *)
Definition RetireFinish (id : Z) : M bool :=
  g ← gets (fun s => segs s !! id);
  match g with
  | None => mret false
  | Some g =>
      if negb (s_dying g) then mret false else
      modify (fun s => set_segs (delete id (segs s)) s);;
      Remove id;;
      modify (fun s => set_used (used s - s_size g) s);;
      modify (bump (fun '(a, b, c, d, r) => (a, b, c, d, r + 1)));;
      clearReadOnly;;
      SyncDir;;
      mret true
  end.

Definition MarkSpilled (id : Z) : M unit :=
  modify (fun s => set_segs (alter with_spilled id (segs s)) s).

(** ** Verified reads ([reader.go], [Volume.Read] without cancellation) *)

Inductive ReadStatus := ReadOK | ReadBusy | ReadGone | ReadCorrupt.

#[export] Instance ReadStatus_eq_dec : EqDecision ReadStatus.
Proof. solve_decision. Defined.

Definition acquireRead (id : Z) : M bool :=
  g ← gets (fun s => segs s !! id);
  match g with
  | None => mret false
  | Some g =>
      if s_dying g then mret false else
      modify (fun s => set_segs (<[id := with_reads (s_reads g + 1) g]> (segs s)) s);; mret true
  end.

Definition releaseRead (id : Z) : M unit :=
  modify (fun s => set_segs (alter (fun g => with_reads (s_reads g - 1) g) id (segs s)) s).

Definition readOne (loc : Loc) (ns : Z) (key : bytes) (want : Z) : M (ReadStatus * bytes) :=
  let span := recordSpan (LenOf loc) in
  buf ← poolGet (u32 span);
  match buf with None => mret (ReadBusy, []) | Some c =>
  cutBuf c span;;
  chunk ← ReadAt (SegmentID loc) (Offset loc) span;
  match chunk with
  | None => mret (ReadCorrupt, [])
  | Some chunk =>
      h ← lift (parseRecordHeader chunk (MaxBlobLen p));
      match h with
      | inl _ => mret (ReadCorrupt, [])
      | inr h =>
          if negb ((h_NS h =? ns) && bool_decide (h_Key h = key) && (h_Len h =? LenOf loc) && (h_XXH3 h =? want))
          then mret (ReadCorrupt, []) else
          payload ← lift (slice chunk recordHdrSize (recordHdrSize + h_Len h));
          if negb (xxh3 payload =? want) then mret (ReadCorrupt, []) else mret (ReadOK, payload)
      end
  end end.

(** Whether the reader queue has room. *)
Definition readqSlot : M bool := e ← ioStep; mret (match e with None => true | Some _ => false end).

(** On [ReadOK] the caller owns the read-hold until its release. *)
Definition Read (loc : Loc) (ns : Z) (key : bytes) (want : Z) : M (ReadStatus * bytes) :=
  c ← gets closed;
  if c : bool then mret (ReadGone, []) else
  ok ← acquireRead (SegmentID loc);
  if negb ok then mret (ReadGone, []) else
  queued ← readqSlot;
  if negb queued then releaseRead (SegmentID loc);; mret (ReadBusy, []) else
  res ← readOne loc ns key want;
  (if bool_decide (res.1 = ReadOK) then mret tt else releaseRead (SegmentID loc));;
  mret res.

(** ** Checkpoints ([checkpoint.go]) *)

Record ckptAcc := mkCkptAcc { ca_sealed : list (Z * segment); ca_have : bool; ca_max : Z; ca_dying : option Z }.

Definition ckptVisit (acc : ckptAcc) (g : Z * segment) : ckptAcc :=
  let '(id, seg) := g in
  if negb (s_sealed seg) then acc else
  if s_dying seg then
    let lower := match ca_dying acc with Some d => id <? d | None => true end in
    mkCkptAcc (ca_sealed acc) (ca_have acc) (ca_max acc) (if lower then Some id else ca_dying acc)
  else
    let higher := negb (ca_have acc) || (ca_max acc <? id) in
    mkCkptAcc (ca_sealed acc ++ [(id, seg)]) true (if higher then id else ca_max acc) (ca_dying acc).

Definition ckptEntriesOf (g : Z * segment) : list ckptEntry :=
  (fun e => mkCkptEntry (e_NS e) (e_Key e) (g.1) (e_Off e) (e_Len e) (e_XXH3 e)) <$> s_entries g.2.

(** What [writeCheckpointAt] collects under the lock; [None] when this round
    covers nothing. *)
Definition snapshotCkpt (nowNanos : Z) (s : Volume) : option snapshot :=
  let all := omap (fun id => pair id <$> segs s !! id) (segOrder (elements (dom (segs s)))) in
  let acc := foldl ckptVisit (mkCkptAcc [] false 0 None) all in
  maxSealed ← match ca_dying acc with
              | Some d => if d <=? ca_max acc then (if d =? 0 then None else Some (d - 1)) else Some (ca_max acc)
              | None => Some (ca_max acc)
              end;
  if negb (ca_have acc) then None else
  let covered := filter (fun g : Z * segment => g.1 <= maxSealed) (ca_sealed acc) in
  Some (mkSnapshot (ckptSeq s + 1) nowNanos maxSealed (covered ≫= ckptEntriesOf)).

Definition Rename (seq : Z) (buf : bytes) : M (option ioError) :=
  r ← nextIo;
  let install := modify (fun s => set_ckptFiles (<[seq := buf]> (ckptFiles s)) s) in
  match r with
  | IoOk => install;; mret None
  | IoErr _ e => mret (Some e)
  | IoCrash n => if 0 <? n then install;; stop else stop
  end.

Definition writeCkptFile (sn : snapshot) : M (option ioError) :=
  buf ← lift (encodeCkpt (sn_now sn) (sn_max sn) (sn_entries sn));
  err ← ioStep; (* create the temporary file *)
  match err with Some e => mret (Some e) | None =>
  err ← ioStep; (* write *)
  match err with Some e => mret (Some e) | None =>
  err ← ioStep; (* fsync *)
  match err with Some e => mret (Some e) | None =>
  err ← ioStep; (* close *)
  match err with Some e => mret (Some e) | None =>
  err ← Rename (sn_seq sn) buf;
  match err with Some e => mret (Some e) | None => SyncDir end end end end end.

Fixpoint pruneList (seqs : list Z) (keep : Z) : M unit :=
  match seqs with
  | [] => mret tt
  | q :: seqs =>
      (if keep <=? q then mret tt else
         e ← ioStep;
         match e with
         | None => modify (fun s => set_ckptFiles (delete q (ckptFiles s)) s)
         | Some _ => mret tt
         end);;
      pruneList seqs keep
  end.

Definition listCkptSeqs : M (list Z) :=
  e ← ioStep;
  match e with
  | Some _ => mret []
  | None => gets (fun s => merge_sort Z.le (elements (dom (ckptFiles s))))
  end.

Definition pruneCkpts (keep : Z) : M unit := seqs ← listCkptSeqs; pruneList seqs keep.

(** The goroutine of [maybeCheckpoint] ends. *)
Definition ckptDone (ok : bool) : M unit :=
  (if ok then modify (fun s => bump (fun '(a, b, c, d, r) => (a, b, c + 1, d, r)) (set_sealsSinceCkpt 0 s)) else mret tt);;
  modify (set_ckptJob None).

(** It enters [ckptWriteMu] and takes the snapshot ... *)
Definition ckptBegin : M unit :=
  j ← gets ckptJob;
  c ← gets ckptSnap;
  match j, c with
  | Some ts, None =>
      sn ← gets (snapshotCkpt ts);
      match sn with
      | None => ckptDone true
      | Some sn => modify (set_ckptSnap (Some sn))
      end
  | _, _ => mret tt
  end.

(** ... and writes the file, outside the lock that guards the segment map. *)
Definition ckptFinish : M unit :=
  c ← gets ckptSnap;
  match c with
  | None => mret tt
  | Some sn =>
      err ← writeCkptFile sn;
      modify (set_ckptSnap None);;
      match err with
      | Some _ => ckptDone false
      | None =>
          modify (set_ckptSeq (sn_seq sn));;
          pruneCkpts (sn_seq sn);;
          ckptDone true
      end
  end.

(** [loadNewestCkpt]: newest first, falling back on damage. *)
Fixpoint loadCkpts (seqs : list Z) : M (option (list ckptEntry * Z * Z)) :=
  match seqs with
  | [] => mret None
  | q :: seqs =>
      e ← ioStep; (* stat *)
      match e with Some _ => loadCkpts seqs | None =>
      e ← ioStep; (* read *)
      match e with Some _ => loadCkpts seqs | None =>
      f ← gets (fun s => ckptFiles s !! q);
      match f with
      | None => loadCkpts seqs
      | Some buf =>
          r ← lift (parseCkpt buf);
          match r with
          | inl _ => loadCkpts seqs
          | inr (es, ms) => mret (Some (es, ms, q))
          end
      end
      end end
  end.

Definition loadNewestCkpt : M (option (list ckptEntry * Z * Z)) :=
  seqs ← listCkptSeqs; loadCkpts (reverse (merge_sort Z.le seqs)).

(** ** Recovery ([recovery.go]) *)

Record RecoveredEntry := mkRecovered { re_NS : Z; re_Key : bytes; re_Loc : Loc; re_XXH3 : Z }.

Definition allZero (b : bytes) : bool := forallb (fun x => bool_decide (x = Byte.x00)) b.

(** One record of the forward scan at [off]; [None] ends the scan, with what it
    counts as torn. *)
Definition scanRecord (id limit off : Z) : M (Z + footerEntry) :=
  hdr ← ReadAt id off recordAlign;
  match hdr with
  | None => mret (inl recordAlign)
  | Some hdr =>
      h ← lift (parseRecordHeader hdr (MaxBlobLen p));
      match h with
      | inl _ =>
          z ← lift (slice hdr 0 recordHdrSize);
          mret (inl (if allZero z then 0 else recordAlign))
      | inr h =>
          let span := recordSpan (h_Len h) in
          if limit <? off + span then mret (inl span) else
          buf ← poolGet (u32 span);
          match buf with None => mret (inl 0) | Some c =>
          cutBuf c span;;
          chunk ← ReadAt id off span;
          match chunk with
          | None => mret (inl span)
          | Some chunk =>
              payload ← lift (slice chunk recordHdrSize (recordHdrSize + h_Len h));
              if negb (xxh3 payload =? h_XXH3 h) then mret (inl span) else
              mret (inr (mkEntry (h_NS h) (h_Key h) (u32 off) (h_Len h) (h_XXH3 h)))
          end end
      end
  end.

Fixpoint scanFrom (fuel : nat) (id limit off : Z) (recovered : list footerEntry)
  : M (list footerEntry * Z * Z) :=
  match fuel with O => lift None | S fuel =>
  if negb (off + recordAlign <=? limit) then mret (recovered, u32 off, 0) else
  r ← scanRecord id limit off;
  match r with
  | inl torn => mret (recovered, u32 off, torn)
  | inr e => scanFrom fuel id limit (off + recordSpan (e_Len e)) (recovered ++ [e])
  end
  end.

Definition scanTail (id segBytes : Z) : M (list footerEntry * Z * Z) :=
  ok ← mmapBuf;
  if negb ok then mret ([], 0, 0) else
  scanFrom (S (Z.to_nat segBytes)) id (segBytes - recordAlign) 0 [].

Record recState := mkRecState {
  merged : gmap bytes RecoveredEntry; scanned : Z; blocks : Z; truncated : Z
}.

Definition mergeKey (ns : Z) (key : bytes) : bytes := le_split 4 ns ++ key.

Definition insert (m : gmap bytes RecoveredEntry) (e : RecoveredEntry) : gmap bytes RecoveredEntry :=
  let k := mergeKey (re_NS e) (re_Key e) in
  match m !! k with
  | Some prev =>
      if (SegmentID (re_Loc e) <? SegmentID (re_Loc prev)) ||
         ((SegmentID (re_Loc prev) =? SegmentID (re_Loc e)) && (Offset (re_Loc e) <=? Offset (re_Loc prev)))
      then m else <[k := e]> m
  | None => <[k := e]> m
  end.

Definition recoveredOf (id : Z) (e : footerEntry) : RecoveredEntry :=
  mkRecovered (e_NS e) (e_Key e) (mkLoc id (e_Off e) (e_Len e)) (e_XXH3 e).

Definition indexSegment (id : Z) (entries : list footerEntry) (r : recState) : recState :=
  mkRecState (foldl (fun m e => insert m (recoveredOf id e)) (merged r) entries) (scanned r)
    (blocks r + len entries) (truncated r).

Definition addSegment (id size dataEnd : Z) (entries : list footerEntry) : M unit :=
  modify (fun s => set_segs (<[id := mkSegment size true false dataEnd entries false 0]> (segs s)) s);;
  modify (fun s => set_used (used s + size) s).

Definition ckBySeg (es : list ckptEntry) (id : Z) : list footerEntry :=
  (fun ce => mkEntry (c_NS ce) (c_Key ce) (c_Off ce) (c_Len ce) (c_XXH3 ce)) <$>
    filter (fun ce => c_SegID ce = id) es.

Definition recoverSegment (ck : option (list ckptEntry * Z * Z)) (id : Z) (r : recState) : M recState :=
  err ← Open id;
  match err with Some _ => mret r | None =>
  st ← Stat id;
  let size := default (-1) st in
  if bool_decide (st = None) || negb (size `mod` recordAlign =? 0) || (size <? MinSegmentBytes (MaxBlobLen p))
  then Remove id;; mret r else
  let r := mkRecState (merged r) (scanned r + 1) (blocks r) (truncated r) in
  let entries := match ck with
                 | Some (es, ms, _) => if id <=? ms then ckBySeg es id else []
                 | None => []
                 end in
  match entries with
  | _ :: _ =>
      let limit := size - recordAlign in
      let valid := filter (fun e => entryIn (MaxBlobLen p) limit e = true) entries in
      let dataEnd := foldl (fun d e => Z.max d (e_Off e + recordSpan (e_Len e))) 0 valid in
      addSegment id size (u32 dataEnd) valid;;
      mret (indexSegment id valid r)
  | [] =>
      sl ← readSeal id size (MaxBlobLen p);
      match sl with
      | Some (tr, entries) =>
          addSegment id size (DataEnd tr) entries;; mret (indexSegment id entries r)
      | None =>
          t ← scanTail id size;
          let '(recovered, dataEnd, torn) := t in
          let r := mkRecState (merged r) (scanned r) (blocks r) (truncated r + torn) in
          match recovered with
          | [] => Remove id;; mret r
          | _ =>
              err ← writeSeal id size dataEnd recovered;
              match err with
              | Some _ => Remove id;; mret r
              | None => addSegment id size dataEnd recovered;; mret (indexSegment id recovered r)
              end
          end
      end
  end
  end.

Fixpoint recoverSegments (ck : option (list ckptEntry * Z * Z)) (ids : list Z) (r : recState) : M recState :=
  match ids with
  | [] => mret r
  | id :: ids => r ← recoverSegment ck id r; recoverSegments ck ids r
  end.

Definition recoverDir : M (option recState) :=
  e ← ioStep; (* list the directory *)
  match e with
  | Some _ => mret None
  | None =>
      segIDs ← gets (fun s => merge_sort Z.le (elements (dom (files s))));
      ck ← loadNewestCkpt;
      (match ck with Some (_, _, seq) => modify (set_ckptSeq seq) | None => mret tt end);;
      r ← recoverSegments ck segIDs (mkRecState ∅ 0 0 0);
      (match last segIDs with Some id => modify (set_nextID (u32 (id + 1))) | None => mret tt end);;
      (match ck with
       | Some (_, ms, _) =>
           modify (fun s => if nextID s <? u32 (ms + 1) then set_nextID (u32 (ms + 1)) s else s)
       | None => mret tt
       end);;
      mret (Some r)
  end.

(** A volume with nothing but its directory. *)
Definition unopened (fs : gmap Z file) (cks : gmap Z bytes) (t : nat) : Volume :=
  mkVolume fs cks ∅ None 0 false false [] 0 0 0 None None 0 (0, 0, 0, 0, 0) [] t.

(** The check of the segment size; [p] holds the parameters after
    [volumeDefaults]. *)
Definition paramsOK : bool :=
  (MinSegmentBytes (MaxBlobLen p) <=? SegmentBytes p) && (SegmentBytes p `mod` recordAlign =? 0) &&
  (SegmentBytes p <? 2 ^ 32 - 1).

Definition OpenVolume : M (option recState) :=
  if negb paramsOK then mret None else
  r ← recoverDir;
  match r with
  | None => mret None
  | Some r =>
      err ← openActive;
      mret (match err with Some _ => None | None => Some r end)
  end.

End Env.
End Nvme.
