(* ===== verification/NvmeSpill.v ===== *)
(** What the cold tier needs of a volume: [internal/store/nvme/spillsurface.go].

    Listings of the segment map, and [AdoptSegment], which writes a downloaded
    segment back. It is cut where it holds no lock: the checks, the download into
    a temporary file up to the rename, the publication. A temporary file is not
    part of the directory the other operations see; it is kept here as the only
    file of a directory of its own. *)

From Stdlib Require Import ZArith Lia.
From coqutil Require Import Byte.
From stdpp Require Import base numbers list gmap.
From S2P Require Import Prelude.
From S2P Require Import NvmeFormat.
From S2P Require Import NvmeVolume.
Import Seg Ckpt Nvme.
Open Scope Z_scope.
Open Scope go_scope.

Module NvmeSpill.

Record SegmentInfo := mkSegmentInfo { si_ID : Z; si_Size : Z; si_Entries : Z }.

Definition RecordDataOffset (recordOff : Z) : Z := recordOff + recordHdrSize.

(** What the reader of [AdoptSegment] yields: bytes, then the end of the stream
    or an error. *)
Record stream := mkStream { st_bytes : bytes; st_fails : bool }.

Section Env.
Context `{!Xxh3, !World} (p : VolumeParams).

Definition SealedUnspilled : M (list SegmentInfo) :=
  gets (fun s => omap (fun id =>
    g ← segs s !! id;
    if negb (s_sealed g) || s_spilled g || s_dying g then None
    else Some (mkSegmentInfo id (s_size g) (len (s_entries g))))
    (segOrder (elements (dom (segs s))))).

Definition IsSpilled (id : Z) : M bool :=
  gets (fun s => match segs s !! id with Some g => s_spilled g | None => false end).

(** The footer entries the callback is run on. *)
Definition SegmentEntryKeys (id : Z) : M (list footerEntry) :=
  gets (fun s => match segs s !! id with Some g => s_entries g | None => [] end).

Definition HasSegment (id : Z) : M bool := gets (fun s => bool_decide (is_Some (segs s !! id))).

(** ** [AdoptSegment] *)

(** Run [m] on the temporary file of segment [id], which holds [f] before. *)
Definition inTmp {A} (id : Z) (f : file) (m : M A) : M (A * file) := fun s =>
  match m (set_files {[id := f]} s) with
  | Ret a s' => Ret (a, default f (files s' !! id)) (set_files (files s) s')
  | Crash s' => Crash (set_files (files s) s')
  | Panic => Panic
  end.

Definition maxSegBytes : Z := 2 ^ 32 - 1.
Definition copyChunk : Z := 1 <<| 20.

(** [None] is an error. [fuel] bounds the number of chunks. *)
Fixpoint copyLoop (fuel : nat) (id : Z) (rest : bytes) (fails : bool) (off : Z) : M (option Z) :=
  match fuel with O => lift None | S fuel =>
  let chunk := take (Z.to_nat copyChunk) rest in
  let n := len chunk in
  off ← ((if 0 <? n then
            if negb (n `mod` recordAlign =? 0) then mret None else
            if maxSegBytes <=? off + n then mret None else
            err ← WriteAt id off chunk;
            mret (match err with Some _ => None | None => Some (off + n) end)
          else mret (Some off)) : M (option Z));
  match off with
  | None => mret None
  | Some off =>
      if n =? copyChunk then copyLoop fuel id (drop (Z.to_nat copyChunk) rest) fails off
      else mret (if fails then None else Some off)
  end
  end.

Definition copyAligned (id : Z) (r : stream) : M (option Z) :=
  ok ← mmapBuf;
  if negb ok then mret None else copyLoop (S (length (st_bytes r))) id (st_bytes r) (st_fails r) 0.

(** From the copy to the validated seal. *)
Definition adoptTmp (id : Z) (r : stream) : M (option (Z * trailer * list footerEntry)) :=
  err ← Open id;
  match err with Some _ => mret None | None =>
  size ← copyAligned id r;
  match size with None => mret None | Some size =>
  if (size <? 2 * recordAlign) || negb (size `mod` recordAlign =? 0) || (maxSegBytes <=? size) then mret None else
  err ← Datasync id;
  match err with Some _ => mret None | None =>
  sl ← readSeal id size (MaxBlobLen p);
  mret (match sl with None => None | Some (tr, es) => Some (size, tr, es) end)
  end end end.

Definition adoptCheck (id : Z) : M bool :=
  c ← gets closed;
  if c : bool then mret false else
  exists_ ← gets (fun s => bool_decide (is_Some (segs s !! id)));
  next ← gets nextID;
  mret (negb exists_ && (id <? next)).

(** [os.Rename(tmp, path)]. *)
Definition installFile (id : Z) (f : file) : M (option ioError) :=
  r ← nextIo;
  let install := modify (fun s => set_files (<[id := f]> (files s)) s) in
  match r with
  | IoOk => install;; mret None
  | IoErr _ e => mret (Some e)
  | IoCrash n => if 0 <? n then install;; stop else stop
  end.

Definition adoptInstall (id : Z) (r : stream) : M (option (Z * trailer * list footerEntry)) :=
  t ← inTmp id (mkFile [] []) (adoptTmp id r);
  match t with
  | (None, _) => mret None
  | (Some seal, f) =>
      err ← installFile id f;
      match err with Some _ => mret None | None =>
      err ← SyncDir;
      match err with
      | Some _ => Remove id;; mret None
      | None => mret (Some seal)
      end end
  end.

Definition adoptPublish (id : Z) (seal : Z * trailer * list footerEntry) : M bool :=
  let '(size, tr, entries) := seal in
  c ← gets closed;
  g ← gets (fun s => segs s !! id);
  if c || bool_decide (is_Some g) then Remove id;; mret false else
  modify (fun s => set_segs (<[id := mkSegment size true true (DataEnd tr) entries false 0]> (segs s)) s);;
  modify (fun s => set_used (used s + size) s);;
  mret true.

(** [writeCheckpoint] by the goroutine that adopts, while no other holds
    [ckptWriteMu]. *)
Definition writeCheckpoint : M bool :=
  ts ← now;
  sn ← gets (snapshotCkpt ts);
  match sn with
  | None => mret true
  | Some sn =>
      err ← writeCkptFile sn;
      match err with
      | Some _ => mret false
      | None => modify (set_ckptSeq (sn_seq sn));; pruneCkpts (sn_seq sn);; mret true
      end
  end.

Definition adoptCkpt : M unit :=
  if 0 <? CkptEverySegs p then
    ok ← writeCheckpoint;
    if ok : bool then modify (bump (fun '(a, b, c, d, r) => (a, b, c + 1, d, r))) else mret tt
  else mret tt.

(** The calls in a row, as one goroutine makes them. *)
Definition AdoptSegment (id : Z) (r : stream) : M bool :=
  ok ← adoptCheck id;
  if negb ok then mret false else
  seal ← adoptInstall id r;
  match seal with
  | None => mret false
  | Some seal =>
      ok ← adoptPublish id seal;
      if negb ok then mret false else adoptCkpt;; mret true
  end.

End Env.
End NvmeSpill.
