(* ===== verification/NvmeIndex.v ===== *)
(** The index of the blocks below DRAM: [internal/store/nvmeindex.go].

    The index maps a key to the address of an [nvmeRef]; the records live in a
    heap of their own, because callers compare addresses and change a record
    through the address they hold. The shards are those of [Index]: 256, picked
    by a seeded hash modulo 256. *)

From Stdlib Require Import ZArith Lia.
From coqutil Require Import Byte.
From stdpp Require Import base numbers list gmap.
From S2P Require Import Prelude.
From S2P Require Import Eviction.
From S2P Require Import Index.
From S2P Require Import NvmeFormat.
Import Eviction Index Seg.
Open Scope Z_scope.

Module NvmeIndex.

Record nvmeRef := mkRef {
  Loc_ : Loc; Len : Z; XXH3 : Z;
  S3 : bool; S3Only : bool;
  LeaseUntil : Z; TTLUntil : Z; LastAccess : Z; PinFlags : Z
}.

Definition set_S3 v r := mkRef (Loc_ r) (Len r) (XXH3 r) v (S3Only r) (LeaseUntil r) (TTLUntil r) (LastAccess r)
  (PinFlags r).
Definition set_S3Only v r := mkRef (Loc_ r) (Len r) (XXH3 r) (S3 r) v (LeaseUntil r) (TTLUntil r) (LastAccess r)
  (PinFlags r).
Definition set_LeaseUntil v r := mkRef (Loc_ r) (Len r) (XXH3 r) (S3 r) (S3Only r) v (TTLUntil r) (LastAccess r)
  (PinFlags r).
Definition set_TTLUntil v r := mkRef (Loc_ r) (Len r) (XXH3 r) (S3 r) (S3Only r) (LeaseUntil r) v (LastAccess r)
  (PinFlags r).
Definition set_LastAccess v r := mkRef (Loc_ r) (Len r) (XXH3 r) (S3 r) (S3Only r) (LeaseUntil r) (TTLUntil r) v
  (PinFlags r).
Definition set_PinFlags v r := mkRef (Loc_ r) (Len r) (XXH3 r) (S3 r) (S3Only r) (LeaseUntil r) (TTLUntil r)
  (LastAccess r) v.

Definition nvPinSoftBit : Z := 1.
Definition nvPinHardBit : Z := 2.

Definition leased (r : nvmeRef) (now : Z) : bool := now <? LeaseUntil r.
Definition pinned (r : nvmeRef) : bool := negb (PinFlags r =? 0).
Definition hardPinned (r : nvmeRef) : bool := negb (Z.land (PinFlags r) nvPinHardBit =? 0).

(** The compare-and-swap loop, on a record only this goroutine writes. *)
Definition extendNvmeLease (r : nvmeRef) (until : Z) : nvmeRef :=
  if until <=? LeaseUntil r then r else set_LeaseUntil until r.

(** A block demoted or recovered: everything else starts at zero. *)
Definition freshRef (loc : Loc) (xxh3 ttl : Z) : nvmeRef := mkRef loc (LenOf loc) xxh3 false false 0 ttl 0 0.

Section Ops.
Context `{IndexEnv}.

(** The map and the counters of [putThen]; [old] is the length of the block the
    key had before. *)
Definition putKey (idx : Index) (k : Key) (ref ln : Z) (old : option Z) : Index :=
  let m := setShard idx k (<[k := ref]> (shard idx k)) in
  match old with
  | Some o => mkIndex m (blocks idx) (bytes_ idx + (ln - o))
  | None => mkIndex m (blocks idx + 1) (bytes_ idx + ln)
  end.

Lemma putKey_spec idx k ref ln old :
  index_ok idx ->
  index_ok (putKey idx k ref ln old) /\ contents (putKey idx k ref ln old) = <[k := ref]> (contents idx).
Proof.
  intros Hi.
  assert (forall k' a, <[k := ref]> (shard idx k) !! k' = Some a -> shardOf k' = shardOf k) as Hm.
  { intros k' a [[<- _]|[_ Ha]]%lookup_insert_Some; [done|].
    symmetry. eapply (io_shard _ Hi); [|done]. by apply shard_lookup. }
  assert (forall b n, let i' := mkIndex (setShard idx k (<[k := ref]> (shard idx k))) b n in
    index_ok i' /\ contents i' = <[k := ref]> (contents idx)) as Hs.
  { intros b n i'. destruct (setShard_ok idx k _ b n Hi Hm) as [Hok Hget]. split; [done|].
    apply map_eq. intros k'. rewrite <- Get_contents by done. unfold i'. rewrite Hget.
    destruct (decide (k = k')) as [<-|Hk].
    - by rewrite decide_True, !lookup_insert_eq.
    - rewrite !lookup_insert_ne, <- Get_contents by done. case_decide as Ed; [|done].
      unfold Get, shard. by rewrite Ed. }
  unfold putKey. destruct old; apply Hs.
Qed.

End Ops.
End NvmeIndex.
