(* ===== verification/NvmeLog.v ===== *)
(** The log inside a segment file, as facts on bytes: what it means that a run
    of bytes is a sequence of whole records ([logged]), which seal a file
    carries ([sealOf], the pure core of [readSeal]), what a power failure may
    leave of a file ([survives]), and how writes at an offset act on these. *)

From Stdlib Require Import ZArith Lia.
From coqutil Require Import Byte Word.LittleEndianList.
From stdpp Require Import base numbers list gmap sorting.
From S2P Require Import Prelude.
From S2P Require Import NvmeFormat.
From S2P Require Import NvmeVolume.
Import Seg SegFacts Nvme.
Open Scope Z_scope.
Open Scope go_scope.

Module NvmeLog.

(** ** Bytes at an offset *)

Lemma len_take {A} (l : list A) n : 0 <= n <= len l -> len (take (Z.to_nat n) l) = n.
Proof. unfold len. intros. rewrite length_take. lia. Qed.

Lemma len_drop {A} (l : list A) n : 0 <= n <= len l -> len (drop (Z.to_nat n) l) = len l - n.
Proof. unfold len. intros. rewrite length_drop. lia. Qed.

Lemma splice_inside (a old r data : bytes) off :
  off = len a -> len old = len data -> splice (a ++ old ++ r) off data = a ++ data ++ r.
Proof.
  intros -> Ho. unfold splice. rewrite !len_app. pose proof (len_nonneg old). pose proof (len_nonneg r).
  replace (Z.to_nat (len a - _)) with O by lia. cbn [zeros replicate]. rewrite app_nil_r.
  replace (Z.to_nat (len a)) with (length a) by (unfold len; lia). rewrite take_app_length. f_equal. f_equal.
  rewrite app_assoc, drop_app_ge by (unfold len in *; rewrite length_app; lia).
  replace (_ - _)%nat with O by (unfold len in *; rewrite length_app; lia). done.
Qed.

Lemma len_splice c off data : 0 <= off -> off + len data <= len c -> len (splice c off data) = len c.
Proof.
  intros. unfold splice. rewrite !len_app. pose proof (len_nonneg data).
  replace (Z.to_nat (off - len c)) with O by lia. cbn [zeros replicate]. rewrite app_nil_r.
  rewrite len_take, len_drop by lia. lia.
Qed.

Lemma splice_below c off data n :
  0 <= n <= off -> off <= len c -> take (Z.to_nat n) (splice c off data) = take (Z.to_nat n) c.
Proof.
  intros. unfold splice. replace (Z.to_nat (off - len c)) with O by lia. cbn [zeros replicate].
  rewrite app_nil_r, take_app_le, take_take by (unfold len in *; rewrite length_take; lia).
  f_equal. lia.
Qed.

Lemma splice_prefix (b r : bytes) off data :
  len b <= off <= len (b ++ r) -> exists r', splice (b ++ r) off data = b ++ r'.
Proof.
  intros Hoff. exists (drop (length b) (splice (b ++ r) off data)).
  rewrite <- (take_drop (length b) (splice (b ++ r) off data)) at 1. f_equal.
  pose proof (splice_below (b ++ r) off data (len b)) as Ht. pose proof (len_nonneg b).
  replace (Z.to_nat (len b)) with (length b) in Ht by (unfold len; lia). by rewrite Ht, take_app_length by lia.
Qed.

Lemma filter_all {A} (P : A -> Prop) `{!forall x, Decision (P x)} (l : list A) :
  (forall x, x ∈ l -> P x) -> filter P l = l.
Proof.
  induction l as [|x l IH]; [done|]. intros Hl. rewrite filter_cons, decide_True by (apply Hl; constructor).
  f_equal. apply IH. intros y Hy. apply Hl. by constructor.
Qed.

(** ** Records and logs *)

Section Log.
Context `{!Xxh3} (maxBlob : Z).

Definition headerOf (e : footerEntry) : recordHeader := mkRecordHeader (e_NS e) (e_Key e) (e_Len e) (e_XXH3 e).
Definition endOf (e : footerEntry) : Z := e_Off e + recordSpan (e_Len e).

(** The bytes [r] are a record for [e] whose payload hashes to its checksum. *)
Record record_for (e : footerEntry) (r : bytes) : Prop := mkRecordFor {
  rf_fits : entry_fits e;
  rf_max : e_Len e <= maxBlob;
  rf_len : len r = recordSpan (e_Len e);
  rf_parse : parseRecordHeader r maxBlob = Some (inr (headerOf e));
  rf_sum : exists payload, slice r 56 (56 + e_Len e) = Some payload /\ xxh3 payload = e_XXH3 e
}.

(** [b] is the records of [es], one after the other, from offset [off]. *)
Fixpoint logged (b : bytes) (off : Z) (es : list footerEntry) : Prop :=
  match es with
  | [] => b = []
  | e :: es => exists r b', b = r ++ b' /\ e_Off e = off /\ record_for e r /\ logged b' (off + recordSpan (e_Len e)) es
  end.

Lemma span_pos e r : record_for e r -> 56 <= recordSpan (e_Len e) /\ recordSpan (e_Len e) `mod` 4096 = 0.
Proof.
  intros [[] ? ? ? ?]. destruct (recordSpan_spec (e_Len e)) as [? ?]; [done|]. unfold fits in *. lia.
Qed.

Lemma span_block e r : record_for e r -> 4096 <= recordSpan (e_Len e).
Proof.
  intros Hr. destruct (span_pos e r Hr) as [? Hm]. apply Z.mod_divide in Hm as [k ?]; [|lia]. nia.
Qed.

Lemma logged_app b1 b2 off es1 es2 :
  logged b1 off es1 -> logged b2 (off + len b1) es2 -> logged (b1 ++ b2) off (es1 ++ es2).
Proof.
  revert b1 off. induction es1 as [|e es1 IH]; intros b1 off H1 H2.
  - cbn in H1. subst. by rewrite Z.add_0_r in H2.
  - destruct H1 as (r & b' & -> & Ho & Hr & H1). exists r, (b' ++ b2). rewrite <- app_assoc.
    split_and!; try done. apply IH; [done|]. rewrite len_app in H2.
    replace (off + recordSpan (e_Len e) + len b') with (off + (len r + len b')); [done|].
    rewrite (rf_len e r Hr). lia.
Qed.

Lemma logged_snoc b off es e r :
  logged b off es -> record_for e r -> e_Off e = off + len b -> logged (b ++ r) off (es ++ [e]).
Proof.
  intros Hl Hr Ho. apply logged_app; [done|]. exists r, []. by rewrite app_nil_r.
Qed.

(** Every record lies inside the log, on a block boundary. *)
Lemma logged_elem b off es e :
  off `mod` 4096 = 0 -> logged b off es -> e ∈ es ->
  off <= e_Off e /\ endOf e <= off + len b /\ e_Off e `mod` 4096 = 0 /\ e_Len e <= maxBlob /\ entry_fits e /\
  exists r, record_for e r /\ slice b (e_Off e - off) (endOf e - off) = Some r.
Proof.
  revert b off. induction es as [|x es IH]; intros b off Hm Hl He; [by apply elem_of_nil in He|].
  destruct Hl as (r & b' & -> & Ho & Hr & Hl). destruct (span_pos x r Hr) as [Hp Hsm].
  assert (len r = recordSpan (e_Len x)) as Hlr by apply (rf_len x r Hr). pose proof (len_nonneg b').
  apply elem_of_cons in He as [->|He].
  - unfold endOf. rewrite len_app. split_and!; [lia|lia|by rewrite Ho|by destruct Hr|by destruct Hr|].
    exists r. split; [done|]. replace (e_Off x - off) with 0 by lia.
    apply slice_here. lia.
  - destruct (IH b' (off + recordSpan (e_Len x))) as (H1 & H2 & H3 & H4 & H5 & r' & Hr' & Hs); [|done..|].
    { by rewrite Z.add_mod, Hm, Hsm by lia. }
    rewrite len_app. split_and!; [lia|lia|done..|]. exists r'. split; [done|].
    rewrite slice_skip by lia. unfold endOf in *.
    by replace (e_Off e - off - len r) with (e_Off e - (off + recordSpan (e_Len x))) by lia;
       replace (e_Off e + recordSpan (e_Len e) - off - len r)
         with (e_Off e + recordSpan (e_Len e) - (off + recordSpan (e_Len x))) by lia.
Qed.

(** The records that end below a mark are a prefix of the log. *)
Lemma logged_below b off es low :
  off `mod` 4096 = 0 -> logged b off es -> exists es1 es2 b1 b2,
    es = es1 ++ es2 /\ b = b1 ++ b2 /\ logged b1 off es1 /\ (es1 = [] \/ off + len b1 <= low) /\
    filter (fun e => endOf e <= low) es = es1.
Proof.
  revert b off. induction es as [|e es IH]; intros b off Hm Hl.
  - cbn in Hl. subst. exists [], [], [], []. split_and!; try done. by left.
  - pose proof Hl as Hl0. destruct Hl as (r & b' & -> & Ho & Hr & Hl). destruct (span_pos e r Hr) as [Hp Hsm].
    assert (len r = recordSpan (e_Len e)) as Hlr by apply (rf_len e r Hr).
    assert ((off + recordSpan (e_Len e)) `mod` 4096 = 0) as Hm' by (by rewrite Z.add_mod, Hm, Hsm by lia).
    rewrite filter_cons. destruct (decide (endOf e <= low)) as [Hlow|Hlow].
    + destruct (IH b' _ Hm' Hl) as (es1 & es2 & b1 & b2 & -> & -> & Hl1 & Hend & Hf).
      exists (e :: es1), es2, (r ++ b1), b2. rewrite app_assoc. split_and!; [done|done| | |by rewrite Hf].
      * by exists r, b1.
      * right. rewrite len_app. unfold endOf in *. destruct Hend as [->|]; [|lia].
        cbn in Hl1. subst b1. rewrite len_nil. lia.
    + exists [], (e :: es), [], (r ++ b'). split_and!; [done..|by left|].
      destruct (filter (fun e0 => endOf e0 <= low) es) as [|x l] eqn:Hf; [done|].
      assert (x ∈ filter (fun e0 => endOf e0 <= low) es) as Hx by (rewrite Hf; constructor).
      apply list_elem_of_filter in Hx as [Hxl Hx].
      destruct (logged_elem b' _ es x Hm' Hl Hx) as (? & ? & ? & ? & ? & r' & Hr' & _).
      destruct (span_pos x r' Hr'). unfold endOf in *. lia.
Qed.

(** Framing a request is a record for its entry. *)
Lemma record_bytes_for ns key off data x :
  fits 32 ns -> len key = 32 -> fits 32 off -> len data <= maxBlob -> fits 32 (len data) -> x = xxh3 data ->
  record_for (mkEntry ns key off (len data) x) (record_bytes (mkRecordHeader ns key (len data) x) data).
Proof.
  intros Hns Hk Ho Hmax Hl ->. pose proof (xxh3_fits data).
  assert (header_fits (mkRecordHeader ns key (len data) (xxh3 data))) as Hf by (by constructor).
  constructor; cbn; [by constructor|done| | |].
  - by rewrite len_record_bytes.
  - unfold record_bytes. rewrite parse_header_here by done. cbn. by replace (_ <? _) with false by lia.
  - exists data. split; [|done]. unfold record_bytes. rewrite slice_skip; rewrite len_record_header by done; [|lia].
    replace (56 - 56) with 0 by lia. replace (56 + len data - 56) with (len data) by lia. by apply slice_here.
Qed.

(** ** Seals *)

(** The footer of a file of [len c] bytes whose checksum verifies: its trailer
    and its entry table. *)
Definition footerOf (c : bytes) (id : Z) : option (trailer * bytes) :=
  tail ← slice c (len c - 4096) (len c);
  tl ← slice_from tail 4032;
  r ← decodeTrailer tl id;
  match r with
  | inl _ => None
  | inr tr =>
      let tlen := roundUpAlign (EntryCount tr * 52) in
      if negb (FooterOff tr =? DataEnd tr) || (len c <? FooterOff tr + tlen + 4096) then None else
      table ← slice c (FooterOff tr) (FooterOff tr + tlen);
      pre ← slice tail 4032 4092;
      if negb (sealCRC table pre =? t_CRC tr) then None else Some (tr, table)
  end.

(** The seal it stands for; [None] when there is none. *)
Definition sealOf (c : bytes) (id : Z) : option (trailer * list footerEntry) :=
  '(tr, table) ← footerOf c id;
  es ← decodeEntries table (EntryCount tr);
  match es with
  | inl _ => None
  | inr es => Some (tr, filter (fun e => entryIn maxBlob (DataEnd tr) e = true) es)
  end.

Lemma logged_fits b off es : off `mod` 4096 = 0 -> logged b off es -> Forall entry_fits es.
Proof.
  intros Hm Hlog. apply Forall_forall. intros e He.
  by destruct (logged_elem b off es e Hm Hlog He) as (?&?&?&?&?&?).
Qed.

(** The entries of a log pass the checks of [readSeal]. *)
Lemma logged_valid b es limit :
  logged b 0 es -> len b <= limit -> filter (fun e => entryIn maxBlob limit e = true) es = es.
Proof.
  intros Hlog Hl. apply filter_all. intros e He.
  destruct (logged_elem b 0 es e eq_refl Hlog He) as (? & ? & ? & ? & _). unfold endOf, entryIn, recordAlign in *.
  replace (e_Len e <=? maxBlob) with true by lia. replace (_ =? 0) with true by lia.
  by replace (_ <=? limit) with true by lia.
Qed.

(** The trailer a seal of [es] ending at [de] carries. *)
Definition sealTrailer (id de : Z) (es : list footerEntry) : trailer :=
  let pre := trailer_prefix (mkTrailer (len es) de de id 0) in
  mkTrailer (len es) de de id (sealCRC (table_bytes es) pre).

Definition tail_bytes (id de : Z) (es : list footerEntry) : bytes :=
  zeros 4032 ++ trailer_prefix (sealTrailer id de es) ++ le_split 4 (t_CRC (sealTrailer id de es)).

Lemma len_tail_bytes id de es : len (tail_bytes id de es) = 4096.
Proof. unfold tail_bytes. rewrite !len_app, len_zeros, len_trailer_prefix, len_le_split. lia. Qed.

Lemma tail_trailer id de es :
  slice_from (tail_bytes id de es) 4032 =
  Some (trailer_prefix (sealTrailer id de es) ++ le_split 4 (t_CRC (sealTrailer id de es))).
Proof. unfold tail_bytes. by rewrite slice_from_skip, slice_from_zero by done. Qed.

Lemma tail_prefix id de es :
  slice (tail_bytes id de es) 4032 4092 = Some (trailer_prefix (sealTrailer id de es)).
Proof. unfold tail_bytes. rewrite slice_skip by done. by rewrite slice_here by done. Qed.

Lemma encodeSeal_layout id de es :
  Forall entry_fits es -> len es < 2 ^ 32 ->
  encodeSeal id de es = Some (table_bytes es, tail_bytes id de es).
Proof.
  intros Hf Hl. unfold encodeSeal. rewrite encodeEntries_layout by done. cbn [mbind option_bind].
  pose proof (len_nonneg es). rewrite (u32_small (len es)) by lia.
  rewrite encodeTrailer_layout. cbn [mbind option_bind]. rewrite slice_here by done. cbn [mbind option_bind].
  rewrite encodeTrailer_layout. cbn [mbind option_bind]. unfold recordAlign, trailerSize.
  change (zeros 4096) with (zeros 4032 ++ zeros 64 ++ []). rewrite copy_at_here; [|done|done].
  by rewrite app_nil_r.
Qed.

(** A file whose last block and whose block at [de] hold a seal of [es] has
    that footer. *)
Lemma footerOf_sealed id (b mid : bytes) es :
  Forall entry_fits es -> len es < 2 ^ 32 -> fits 32 id -> fits 32 (len b) ->
  footerOf (b ++ table_bytes es ++ mid ++ tail_bytes id (len b) es) id =
  Some (sealTrailer id (len b) es, table_bytes es).
Proof.
  intros Hf Hl Hid Hb. set (c := b ++ _). set (de := len b) in *.
  pose proof (len_table_bytes es Hf Hl) as Htl. pose proof (len_tail_bytes id de es) as Htail.
  pose proof (len_nonneg mid). pose proof (len_nonneg (table_bytes es)).
  assert (len c = de + len (table_bytes es) + len mid + 4096) as Hc by (unfold c; rewrite !len_app; lia).
  unfold footerOf. assert (slice c (len c - 4096) (len c) = Some (tail_bytes id de es)) as ->.
  { apply (slice_mid (b ++ table_bytes es ++ mid) _ []); [|rewrite !len_app; lia|lia].
    unfold c. by rewrite app_nil_r, <- !app_assoc. }
  cbn [mbind option_bind]. rewrite tail_trailer. cbn [mbind option_bind].
  assert (trailer_fits (sealTrailer id de es)) as Htf.
  { pose proof (len_nonneg es). constructor; cbn; [unfold fits; lia|done|done|done|apply sealCRC_fits]. }
  rewrite <- (app_nil_r (le_split _ _)).
  rewrite (decodeTrailer_here (sealTrailer id de es) [] Htf : decodeTrailer _ id = _). cbn [mbind option_bind].
  change (EntryCount _) with (len es). change (FooterOff _) with de. change (DataEnd _) with de.
  rewrite Z.eqb_refl. cbn [negb orb]. unfold tableLen in Htl. replace (_ <? _) with false by lia.
  rewrite (slice_mid b (table_bytes es) (mid ++ tail_bytes id de es) c de _ eq_refl eq_refl) by lia.
  cbn [mbind option_bind]. rewrite tail_prefix. cbn [mbind option_bind].
  assert (trailer_prefix (sealTrailer id de es) = trailer_prefix (mkTrailer (len es) de de id 0)) as -> by done.
  change (t_CRC _) with (sealCRC (table_bytes es) (trailer_prefix (mkTrailer (len es) de de id 0))).
  by rewrite Z.eqb_refl.
Qed.

(** A footer that encodes a log is a seal of that log. *)
Lemma sealOf_footer c id tr b es :
  footerOf c id = Some (tr, table_bytes es) -> EntryCount tr = len es -> logged b 0 es -> len b <= DataEnd tr ->
  len es < 2 ^ 32 -> sealOf c id = Some (tr, es).
Proof.
  intros Hf Hn Hlog Hb Hl. unfold sealOf. rewrite Hf. cbn [mbind option_bind]. rewrite Hn.
  rewrite decodeEntries_table by (done || by eapply (logged_fits b 0)). cbn [mbind option_bind].
  by rewrite (logged_valid b).
Qed.

Lemma sealOf_sealed id (b mid : bytes) es :
  logged b 0 es -> len es < 2 ^ 32 -> fits 32 id -> fits 32 (len b) ->
  sealOf (b ++ table_bytes es ++ mid ++ tail_bytes id (len b) es) id = Some (sealTrailer id (len b) es, es).
Proof.
  intros Hlog Hl Hid Hb. eapply sealOf_footer; [apply footerOf_sealed|..]; try done.
  by eapply (logged_fits b 0).
Qed.

(** Whatever a seal lists is within the cap, block-aligned and below the end of
    the data. *)
Lemma sealOf_entries c id tr es e :
  sealOf c id = Some (tr, es) -> e ∈ es -> entry_fits e /\ entryIn maxBlob (DataEnd tr) e = true.
Proof.
  unfold sealOf. destruct (footerOf c id) as [[t table]|] eqn:Hf; [|done]. cbn [mbind option_bind].
  destruct (decodeEntries table (EntryCount t)) as [[|es']|] eqn:Hd; cbn [mbind option_bind]; [done| |done].
  intros [= <- <-] He. apply list_elem_of_filter in He as [Hin He]. split; [|done].
  assert (0 <= EntryCount t) as Hn.
  { clear -Hf. unfold footerOf in Hf. destruct (slice c _ _) as [tl|]; [|done]. cbn [mbind option_bind] in Hf.
    destruct (slice_from tl 4032) as [tb|]; [|done]. cbn [mbind option_bind] in Hf.
    destruct (decodeTrailer_some tb id) as (r & Hr & Ht). rewrite Hr in Hf. cbn [mbind option_bind] in Hf.
    destruct r as [|t']; [done|]. destruct (Ht t' eq_refl) as [[[? _]] _]. cbv zeta in Hf. case_if_in Hf; [done|].
    destruct (slice c (FooterOff t') _); [|done]. destruct (slice tl 4032 4092); [|done].
    cbn [mbind option_bind] in Hf. case_if_in Hf; [done|].
    by injection Hf as <- _. }
  destruct (decodeEntries_some table (EntryCount t) Hn) as (r & Hr & Hfit). rewrite Hr in Hd. injection Hd as ->.
  destruct (Hfit es' eq_refl) as [_ Hall]. by rewrite Forall_forall in Hall; apply Hall.
Qed.

(** ** Power failure *)

(** A footer whose checksum verifies is one that was written for this segment:
    it encodes a log that the durable entries [es] start or that starts them.
    This excludes a collision of the CRC on torn bytes. *)
Definition honest (c : bytes) (id : Z) (es : list footerEntry) : Prop :=
  forall tr table, footerOf c id = Some (tr, table) ->
  exists b E, logged b 0 E /\ E <> [] /\ len E < 2 ^ 32 /\ table = table_bytes E /\ EntryCount tr = len E /\
    DataEnd tr = len b /\ (E `prefix_of` es \/ es `prefix_of` E).

Lemma logged_split b off es1 es2 :
  logged b off (es1 ++ es2) -> exists b1 b2, b = b1 ++ b2 /\ logged b1 off es1 /\ logged b2 (off + len b1) es2.
Proof.
  revert b off. induction es1 as [|e es1 IH]; intros b off Hl.
  - exists [], b. rewrite len_nil, Z.add_0_r. done.
  - destruct Hl as (r & b' & -> & Ho & Hr & Hl). destruct (IH _ _ Hl) as (b1 & b2 & -> & H1 & H2).
    exists (r ++ b1), b2. rewrite <- app_assoc, len_app. split_and!; [done| |].
    + by exists r, b1.
    + by rewrite (rf_len e r Hr), Z.add_assoc.
Qed.

Lemma logged_len b b' off es : logged b off es -> logged b' off es -> len b = len b'.
Proof.
  revert b b' off. induction es as [|e es IH]; intros b b' off; [by intros -> ->|].
  intros (r & c & -> & _ & Hr & H1) (r' & c' & -> & _ & Hr' & H2).
  rewrite !len_app, (rf_len e r Hr), (rf_len e r' Hr'), (IH c c' _ H1 H2). done.
Qed.

(** A record starts with the magic, a table with a namespace. *)
Lemma record_starts e r : record_for e r -> exists r', r = le_split 4 recordMagic ++ r'.
Proof. intros Hr. destruct (parse_header_inv r maxBlob _ (rf_parse e r Hr)) as (res & r' & -> & _). eauto. Qed.

Lemma table_starts e es : exists t, table_bytes (e :: es) = le_split 4 (e_NS e) ++ t.
Proof. unfold table_bytes. cbn. unfold entry_bytes. rewrite <- !app_assoc. eauto. Qed.

Lemma le_split_inj_fits n x y :
  fits (8 * Z.of_nat n) x -> fits (8 * Z.of_nat n) y -> le_split n x = le_split n y -> x = y.
Proof.
  intros Hx Hy E. apply (f_equal le_combine) in E. rewrite !le_combine_split in E.
  replace (Z.of_nat n * 8) with (8 * Z.of_nat n) in E by lia. by rewrite !fits_mod in E.
Qed.

Lemma footerOf_table c id tr table :
  footerOf c id = Some (tr, table) -> slice c (DataEnd tr) (DataEnd tr + len table) = Some table.
Proof.
  unfold footerOf. destruct (slice _ (_ - 4096) _) as [tl|]; [|done]. cbn [mbind option_bind].
  destruct (slice_from tl 4032) as [tb|]; [|done]. cbn [mbind option_bind].
  destruct (decodeTrailer tb id) as [[|t']|]; [done| |done]. cbn [mbind option_bind]. case_if; [done|].
  destruct (slice _ (FooterOff t') _) as [x|] eqn:Hx; [|done]. destruct (slice tl 4032 4092); [|done].
  cbn [mbind option_bind]. case_if; [done|]. intros [= <- ->]. bool_props.
  pose proof (slice_len _ _ _ _ Hx) as Hl. rewrite <- Hx. f_equal; lia.
Qed.

(** The stale footer of an attempt to seal that was overtaken by further
    records cannot verify: its table has been overwritten. *)
Lemma stale_footer c id tr b E e es rest :
  footerOf c id = Some (tr, table_bytes E) -> DataEnd tr = len b -> E <> [] -> logged b 0 E ->
  logged rest 0 (E ++ e :: es) -> (exists r, c = rest ++ r) -> Forall (fun e => e_NS e <> recordMagic) E -> False.
Proof.
  intros Hf Hde Hne Hb Hlog [r ->] Hns. destruct (logged_split rest 0 E (e :: es) Hlog) as (b1 & b2 & -> & H1 & H2).
  assert (len b1 = len b) as Hlen by (by eapply logged_len).
  destruct H2 as (r2 & b2' & -> & _ & Hr & _). destruct (record_starts e r2 Hr) as [r2' ->].
  apply footerOf_table in Hf. destruct E as [|e0 E]; [done|]. destruct (table_starts e0 E) as [t Ht].
  rewrite Ht in Hf. apply Forall_cons in Hns as [Hns _]. apply Hns.
  assert (fits 32 (e_NS e0)) by (by destruct Hb as (? & ? & _ & _ & [[] ? ? ? ?] & _)).
  apply (le_split_inj_fits 4); [done|by split; vm_compute|].
  rewrite Hde, <- Hlen, <- !app_assoc, slice_skip, Z.sub_diag in Hf by lia. apply slice_split in Hf.
  rewrite Z2Nat.inj_0, take_0, app_nil_l, <- !app_assoc in Hf.
  apply app_inj_1 in Hf as [Hf _]; [done|by rewrite !length_le_split].
Qed.

(** So a footer that verifies lists every durable entry. *)
Lemma honest_seal c id es b r :
  honest c id es -> c = b ++ r -> logged b 0 es -> Forall (fun e => e_NS e <> recordMagic) es ->
  forall tr E, sealOf c id = Some (tr, E) -> es `prefix_of` E /\ exists b', logged b' 0 E /\ len b' = DataEnd tr.
Proof.
  intros Hh -> Hlog Hns tr E Hs.
  unfold sealOf in Hs. destruct (footerOf _ id) as [[t table]|] eqn:Hf; [|done]. cbn [mbind option_bind] in Hs.
  destruct (Hh t table Hf) as (b' & E' & Hb' & Hne & Hl & -> & Hn & Hde & Hcmp).
  assert (sealOf (b ++ r) id = Some (t, E')) as Hs' by (eapply sealOf_footer; [done..|lia|done]).
  unfold sealOf in Hs'. rewrite Hf in Hs'. cbn [mbind option_bind] in Hs'. rewrite Hs' in Hs. injection Hs as -> ->.
  split; [|by exists b']. destruct Hcmp as [[k ->]|]; [|done].
  destruct k as [|e k]; [by rewrite app_nil_r|]. exfalso.
  apply Forall_app in Hns as [Hns _]. by eapply stale_footer; eauto.
Qed.

(** What a power failure may leave of a file: everything outside the ranges
    written since the last sync. *)
Record survives (f f' : file) : Prop := mkSurvives {
  sv_clean : dirty f' = [];
  sv_len : len (content f') = len (content f);
  sv_same : forall i : nat, (forall r, r ∈ dirty f -> ~ (r.1 <= Z.of_nat i < r.1 + r.2)) ->
            content f' !! i = content f !! i
}.

(** Everything below this mark is on disk. *)
Definition lowmark (f : file) : Z := foldr (fun r a => Z.min (r.1) a) (len (content f)) (dirty f).

Lemma lowmark_le f : lowmark f <= len (content f) /\ forall r, r ∈ dirty f -> lowmark f <= r.1.
Proof.
  unfold lowmark. induction (dirty f) as [|x l [IH1 IH2]]; cbn.
  - split; [done|]. intros r Hr. by apply elem_of_nil in Hr.
  - split; [lia|]. intros r Hr. apply elem_of_cons in Hr as [->|Hr]; [lia|]. specialize (IH2 r Hr). lia.
Qed.

Lemma survives_below f f' n :
  survives f f' -> n <= lowmark f -> take (Z.to_nat n) (content f') = take (Z.to_nat n) (content f).
Proof.
  intros [_ Hl Hs] Hn. destruct (lowmark_le f) as [? Hlow]. apply list_eq. intros i.
  destruct (decide (i < Z.to_nat n)%nat).
  - rewrite !lookup_take_lt by done. apply Hs. intros r Hr. specialize (Hlow r Hr). lia.
  - rewrite !lookup_take_ge by lia. done.
Qed.

Lemma survives_clean f f' : survives f f' -> dirty f = [] -> f' = f.
Proof.
  intros [Hd Hl Hs] Hc. destruct f as [c d], f' as [c' d']. cbn in *. subst. f_equal.
  apply list_eq. intros i. apply Hs. intros r Hr. by apply elem_of_nil in Hr.
Qed.

End Log.

#[global] Arguments tail_bytes id de es : simpl never.
#[global] Arguments table_bytes es : simpl never.
#[global] Arguments record_bytes h payload : simpl never.

End NvmeLog.
