(* ===== verification/NvmeInv.v ===== *)
(** What holds of an open NVMe volume and its directory at every call it makes,
    whatever that call answers: the invariant [Inv] and its preservation by the
    writer, the calls of other goroutines, and both phases of a checkpoint.

    [wp] is the weakest precondition of a program over the volume: no panic, a
    postcondition where it returns, and a crash condition wherever the power may
    fail. Here the crash condition is the invariant itself. *)

From Stdlib Require Import ZArith Lia.
From coqutil Require Import Byte Word.LittleEndianList.
From stdpp Require Import base numbers list gmap sorting.
From S2P Require Import Prelude.
From S2P Require Import NvmeFormat.
From S2P Require Import NvmeVolume.
From S2P Require Import NvmeLog.
Import Seg SegFacts Ckpt CkptFacts Nvme NvmeLog.
Open Scope Z_scope.
Open Scope go_scope.

Module NvmeInv.

(** ** Weakest preconditions with a crash condition *)

Definition wp {A} (m : M A) (s : Volume) (Q : A -> Volume -> Prop) (C : Volume -> Prop) : Prop :=
  match m s with Ret a s' => Q a s' | Crash s' => C s' | Panic => False end.

Lemma wp_bind {A B} (m : M A) (f : A -> M B) s Q C :
  wp m s (fun a s' => wp (f a) s' Q C) C -> wp (m ≫= f) s Q C.
Proof. unfold wp. cbn. unfold mbind, M_bind. by destruct (m s). Qed.

Lemma wp_mono {A} (m : M A) s (Q Q' : A -> Volume -> Prop) (C C' : Volume -> Prop) :
  wp m s Q C -> (forall a s', Q a s' -> Q' a s') -> (forall s', C s' -> C' s') -> wp m s Q' C'.
Proof. unfold wp. destruct (m s); auto. Qed.

Lemma wp_ret {A} (a : A) s (Q : A -> Volume -> Prop) C : Q a s -> wp (mret a) s Q C.
Proof. done. Qed.

Lemma wp_gets {A B} (g : Volume -> A) (f : A -> M B) s Q C : wp (f (g s)) s Q C -> wp (gets g ≫= f) s Q C.
Proof. done. Qed.

Lemma wp_modify {B} (g : Volume -> Volume) (f : unit -> M B) s Q C : wp (f tt) (g s) Q C -> wp (modify g ≫= f) s Q C.
Proof. done. Qed.

Lemma wp_modify_end (g : Volume -> Volume) s (Q : unit -> Volume -> Prop) C : Q tt (g s) -> wp (modify g) s Q C.
Proof. done. Qed.

Lemma wp_lift {A B} (a : A) (f : A -> M B) s Q C : wp (f a) s Q C -> wp (lift (Some a) ≫= f) s Q C.
Proof. done. Qed.

Section Inv.
Context `{!Xxh3, !World} (p : VolumeParams).

Abbreviation maxBlob := (MaxBlobLen p).
Abbreviation ticked s := (set_tick (S (tick s)) s).

Lemma wp_io s (Q : option ioError -> Volume -> Prop) (C : Volume -> Prop) :
  C (ticked s) -> (forall e, Q e (ticked s)) -> wp ioStep s Q C.
Proof.
  intros HC HQ. unfold wp, ioStep, nextIo, mbind, M_bind, stop. destruct (io (tick s)); cbn; auto.
Qed.

(** The outcome of a write at [off]: a prefix of the data reached the file, all
    of it when it succeeds. *)
Definition wrote (id off : Z) (data : bytes) (s : Volume) : Volume :=
  set_files (alter (fun f => mkFile (splice (content f) off data) ((off, len data) :: dirty f)) id (files s)) s.

Lemma wp_write id off data s (Q : option ioError -> Volume -> Prop) (C : Volume -> Prop) :
  Q None (wrote id off data (ticked s)) ->
  (forall n e, Q (Some e) (wrote id off (take n data) (ticked s))) ->
  (forall n, C (wrote id off (take n data) (ticked s))) ->
  wp (WriteAt id off data) s Q C.
Proof.
  intros H1 H2 H3. unfold wp, WriteAt, nextIo, mbind, M_bind, putFile, modify, stop.
  destruct (io (tick s)); cbn; [apply H1|apply H2|apply H3].
Qed.

Definition synced (id : Z) (s : Volume) : Volume :=
  set_files (alter (fun f => mkFile (content f) []) id (files s)) s.

Lemma wp_sync id s (Q : option ioError -> Volume -> Prop) (C : Volume -> Prop) :
  Q None (synced id (ticked s)) -> (forall e, Q (Some e) (ticked s)) -> C (ticked s) ->
  wp (Datasync id) s Q C.
Proof.
  intros H1 H2 H3. unfold Datasync. apply wp_bind, wp_io; [done|]. intros [e|]; [apply H2|apply H1].
Qed.

(** ** The invariant *)

Definition geometry (size : Z) : Prop := size `mod` 4096 = 0 /\ MinSegmentBytes maxBlob <= size < 2 ^ 32.

(** The active segment: its file starts with the records of its entries, and a
    footer for them still fits behind. *)
Record open_log (f : file) (g : segment) : Prop := mkOpenLog {
  ol_size : s_size g = SegmentBytes p;
  ol_log : exists b r, content f = b ++ r /\ logged maxBlob b 0 (s_entries g) /\ len b = s_dataEnd g;
  ol_room : s_dataEnd g + tableLen (len (s_entries g)) + 4096 <= s_size g;
  ol_ns : Forall (fun e => e_NS e <> recordMagic) (s_entries g);
  ol_dying : s_dying g = false
}.

Definition sealed_as (f : file) (id : Z) (es : list footerEntry) : Prop :=
  dirty f = [] /\ geometry (len (content f)) /\ exists tr, sealOf maxBlob (content f) id = Some (tr, es).

(** A file nothing was ever written to. *)
Definition blank (f : file) : Prop := exists n, f = mkFile (zeros n) [].

Definition seg_ok (s : Volume) (id : Z) (g : segment) : Prop :=
  exists f, files s !! id = Some f /\ len (content f) = s_size g /\ geometry (s_size g) /\
    if s_sealed g then sealed_as f id (s_entries g) else active s = Some id /\ open_log f g.

(** A checkpoint that lists [es] up to segment [ms] tells the truth about every
    file it would be believed for. *)
Definition trusts (fs : gmap Z file) (es : list ckptEntry) (ms : Z) : Prop :=
  forall id f, fs !! id = Some f -> id <= ms -> ckBySeg es id <> [] -> sealed_as f id (ckBySeg es id).

(** The ids a checkpoint vouches for are spent: no segment will get one. *)
Definition spent (s : Volume) (ms : Z) : Prop :=
  0 <= ms < nextID s /\ forall id, active s = Some id -> ms < id.

Definition req_ok (r : AppendReq) : Prop :=
  fits 32 (r_NS r) /\ len (r_Key r) = 32 /\ r_XXH3 r = xxh3 (r_Data r) /\ r_NS r <> recordMagic.

Definition snap_ok (s : Volume) (sn : snapshot) : Prop :=
  sn_seq sn = ckptSeq s + 1 /\ trusts (files s) (sn_entries sn) (sn_max sn) /\ spent s (sn_max sn) /\
  Forall ckpt_fits (sn_entries sn) /\ 28 + len (sn_entries sn) * 56 <= ckptMaxBytes.

(** A request acknowledged at [loc]: while the segment is live, its record is
    listed and there, below the end of the data. *)
Definition entry_at (r : AppendReq) (loc : Loc) : footerEntry :=
  mkEntry (r_NS r) (r_Key r) (Offset loc) (LenOf loc) (r_XXH3 r).

Definition acked (s : Volume) (r : AppendReq) (loc : Loc) : Prop :=
  0 <= SegmentID loc < nextID s /\ LenOf loc = len (r_Data r) /\ len (r_Data r) <= maxBlob /\ req_ok r /\
  forall g f, segs s !! SegmentID loc = Some g -> files s !! SegmentID loc = Some f ->
    entry_at r loc ∈ s_entries g /\
    0 <= Offset loc /\ Offset loc + recordSpan (LenOf loc) <= s_dataEnd g <= len (content f) /\
    slice (content f) (Offset loc) (Offset loc + recordSpan (LenOf loc)) =
    Some (record_bytes (mkRecordHeader (r_NS r) (r_Key r) (len (r_Data r)) (r_XXH3 r)) (r_Data r)).

Record Inv (s : Volume) : Prop := mkInv {
  iv_files : forall id f, files s !! id = Some f -> 0 <= id < nextID s /\ len (content f) < 2 ^ 32;
  iv_stray : forall id f, files s !! id = Some f -> segs s !! id = None -> blank f \/ exists es, sealed_as f id es;
  iv_next : 0 <= nextID s < 2 ^ 32;
  iv_segs : forall id g, segs s !! id = Some g -> seg_ok s id g;
  iv_active : forall id, active s = Some id -> exists g, segs s !! id = Some g /\ s_sealed g = false /\
                forall id' g', segs s !! id' = Some g' -> id' <= id;
  iv_ckpt : forall q buf, ckptFiles s !! q = Some buf -> q <= ckptSeq s + 1 /\
              (ckptSeq s <= q -> exists es ms, parseCkpt buf = Some (inr (es, ms)) /\
                 trusts (files s) es ms /\ spent s ms);
  iv_newest : ckptFiles s <> ∅ -> is_Some (ckptFiles s !! ckptSeq s) \/ is_Some (ckptFiles s !! (ckptSeq s + 1));
  iv_snap : forall sn, ckptSnap s = Some sn -> snap_ok s sn;
  iv_reqs : Forall req_ok (reqs s);
  iv_acks : forall r loc, (r, Some loc) ∈ acks s -> acked s r loc
}.

(** The parts of the state the invariant depends on. *)
Definition core (s : Volume) :=
  (files s, ckptFiles s, segs s, active s, nextID s, ckptSeq s, ckptSnap s, reqs s, acks s).

Lemma Inv_core s s' : core s = core s' -> Inv s -> Inv s'.
Proof.
  destruct s, s'. unfold core. cbn. intros [= -> -> -> -> -> -> -> -> ->] [].
  constructor; assumption.
Qed.

Lemma slice_same_take {A} (a b : list A) n lo hi :
  take (Z.to_nat n) a = take (Z.to_nat n) b -> n <= len a -> n <= len b -> hi <= n ->
  slice a lo hi = slice b lo hi.
Proof.
  intros Ht Ha Hb Hhi. unfold slice. case_if; case_if; bool_props; [|exfalso; intuition lia..|done].
  f_equal. apply list_eq. intros i. destruct (decide (i < Z.to_nat (hi - lo))%nat).
  - rewrite !lookup_take_lt, !lookup_drop by done.
    rewrite <- (lookup_take_lt a (Z.to_nat n)), Ht, lookup_take_lt by lia. done.
  - by rewrite !lookup_take_ge by lia.
Qed.

Lemma slice_app_l {A} (a b : list A) lo hi : hi <= len a -> slice (a ++ b) lo hi = slice a lo hi.
Proof.
  intros. apply (slice_same_take _ _ (len a)); [|rewrite ?len_app; pose proof (len_nonneg b); lia..].
  replace (Z.to_nat (len a)) with (length a) by (unfold len; lia). by rewrite take_app_length, take_ge.
Qed.

(** Changing the file of the active segment behind its data. *)
Lemma Inv_behind s id g f f' :
  Inv s -> active s = Some id -> segs s !! id = Some g -> files s !! id = Some f ->
  len (content f') = len (content f) ->
  take (Z.to_nat (s_dataEnd g)) (content f') = take (Z.to_nat (s_dataEnd g)) (content f) ->
  Inv (set_files (<[id := f']> (files s)) s).
Proof.
  intros Hs Ha Hg Hf Hlen Htake. pose proof Hs as [H1 Hstr H2 H3 H4 H5 H6 H7 H8 H9].
  assert (forall es ms, trusts (files s) es ms -> spent s ms -> trusts (<[id:=f']> (files s)) es ms) as Ht.
  { intros es ms Ht [_ Hsp] id' f0 Hf0 Hle. apply lookup_insert_Some in Hf0 as [[<- <-]|[? Hf0]]; [|by apply Ht].
    specialize (Hsp id Ha). lia. }
  constructor; cbn; try assumption.
  - intros id' f0 Hf0. apply lookup_insert_Some in Hf0 as [[<- <-]|[_ Hf0]]; [|eauto]. rewrite Hlen. eauto.
  - intros id' f0 Hf0 Hg0. apply lookup_insert_Some in Hf0 as [[<- <-]|[_ Hf0]]; [congruence|eauto].
  - intros id' g' Hg'. destruct (H3 id' g' Hg') as (f0 & Hf0 & Hl & Hgeo & Hk). unfold seg_ok. cbn.
    destruct (decide (id' = id)) as [->|].
    + assert (f0 = f) as -> by congruence. assert (g' = g) as -> by congruence.
      exists f'. rewrite lookup_insert_eq. split_and!; [done|lia|done|].
      destruct (H4 id Ha) as (g0 & Hg0 & Hsl & _). assert (g0 = g) as -> by congruence. rewrite Hsl in Hk |- *.
      destruct Hk as [_ [? (b & r & Hc & Hlog & Hb) ? ? ?]]. split; [done|]. constructor; try done.
      exists b, (drop (length b) (content f')). split_and!; [|done..].
      assert (take (length b) (content f') = b) as Hb'; [|by rewrite <- Hb' at 1; rewrite take_drop].
      replace (length b) with (Z.to_nat (s_dataEnd g)) by (unfold len in Hb; lia).
      rewrite Htake, Hc. replace (Z.to_nat (s_dataEnd g)) with (length b) by (unfold len in Hb; lia).
      apply take_app_length.
    + exists f0. rewrite lookup_insert_ne by done. done.
  - intros q buf Hq. destruct (H5 q buf Hq) as [? Hp]. split; [done|]. intros Hle.
    destruct (Hp Hle) as (es & ms & ? & ? & ?). exists es, ms. split_and!; [done|by apply Ht|done].
  - intros sn Hsn. destruct (H7 sn Hsn) as (? & ? & ? & ? & ?). split_and!; [done|by apply Ht|done..].
  - intros r loc Hr. destruct (H9 r loc Hr) as (? & ? & ? & ? & Hat).
    do 4 (split; [done|]). cbn. intros g' f0 Hg' Hf0.
    apply lookup_insert_Some in Hf0 as [[E <-]|[? Hf0]]; [|by apply Hat]. rewrite <- E in *.
    assert (g' = g) as -> by congruence. destruct (Hat g f Hg' Hf) as (? & ? & ? & Hsl). split_and!; [done|done|lia|lia|].
    rewrite <- Hsl. apply (slice_same_take _ _ (s_dataEnd g)); [done|lia..].
Qed.

Lemma alter_some {K V} `{Countable K} (h : V -> V) (m : gmap K V) k v : m !! k = Some v -> alter h k m = <[k := h v]> m.
Proof.
  intros Hk. apply map_eq. intros i. destruct (decide (i = k)) as [->|].
  - by rewrite lookup_alter_eq, Hk, lookup_insert_eq.
  - by rewrite lookup_alter_ne, lookup_insert_ne.
Qed.

(** The active segment and its file. *)
Lemma Inv_active s id :
  Inv s -> active s = Some id -> exists g f, segs s !! id = Some g /\ files s !! id = Some f /\ s_sealed g = false /\
    len (content f) = s_size g /\ geometry (s_size g) /\ open_log f g /\ 0 <= s_dataEnd g.
Proof.
  intros Hs Ha. destruct (iv_active s Hs id Ha) as (g & Hg & Hsl & _).
  destruct (iv_segs s Hs id g Hg) as (f & Hf & Hl & Hgeo & Hk). rewrite Hsl in Hk. destruct Hk as [_ Hk].
  exists g, f. split_and!; try done; try apply Hgeo.
  destruct (ol_log f g Hk) as (b & r & _ & _ & <-). apply len_nonneg.
Qed.

Lemma Inv_wrote s id g off data :
  Inv s -> active s = Some id -> segs s !! id = Some g -> s_dataEnd g <= off -> off + len data <= s_size g ->
  Inv (wrote id off data s).
Proof.
  intros Hs Ha Hg Hoff Hend. destruct (Inv_active s id Hs Ha) as (g' & f & Hg' & Hf & _ & Hl & _ & _ & Hde).
  assert (g' = g) as -> by congruence. pose proof (len_nonneg data).
  unfold wrote. rewrite (alter_some _ _ _ f) by done. apply (Inv_behind s id g f); try done; cbn.
  - apply len_splice; lia.
  - apply splice_below; lia.
Qed.

Lemma Inv_synced s id : Inv s -> active s = Some id -> Inv (synced id s).
Proof.
  intros Hs Ha. destruct (Inv_active s id Hs Ha) as (g & f & Hg & Hf & _).
  unfold synced. rewrite (alter_some _ _ _ f) by done. by apply (Inv_behind s id g f).
Qed.

Lemma Inv_tick s t : Inv s -> Inv (set_tick t s).
Proof. by apply Inv_core. Qed.

(** ** Staging and flushing *)

(** The parameters passed the check of [OpenVolume]; the cap is a [uint32]. *)
Definition params_ok : Prop := paramsOK p = true /\ fits 32 maxBlob.

Lemma params_bounds :
  params_ok -> 0 <= maxBlob < 2 ^ 32 /\ geometry (SegmentBytes p) /\
    recordSpan maxBlob + 8192 + 64 <= SegmentBytes p < 2 ^ 32 - 1.
Proof.
  intros [Hp Hm]. unfold paramsOK, geometry, MinSegmentBytes, recordAlign, trailerSize, fits in *. bool_props.
  split_and!; try done; lia.
Qed.

Context (Hp : params_ok).

Fixpoint staged (b : bytes) (off : Z) (qs : list pendingRec) : Prop :=
  match qs with
  | [] => b = []
  | q :: qs =>
      let r := p_req q in exists b',
      b = record_bytes (mkRecordHeader (r_NS r) (r_Key r) (len (r_Data r)) (r_XXH3 r)) (r_Data r) ++ b' /\
      p_entry q = mkEntry (r_NS r) (r_Key r) off (len (r_Data r)) (r_XXH3 r) /\ req_ok r /\
      len (r_Data r) <= maxBlob /\ staged b' (off + recordSpan (len (r_Data r))) qs
  end.

Lemma record_len r :
  req_ok r -> len (r_Data r) <= maxBlob ->
  len (record_bytes (mkRecordHeader (r_NS r) (r_Key r) (len (r_Data r)) (r_XXH3 r)) (r_Data r)) =
  recordSpan (len (r_Data r)).
Proof using Hp.
  intros (? & Hk & _) Hl. destruct (params_bounds Hp) as [? _]. pose proof (len_nonneg (r_Data r)).
  apply (len_record_bytes (mkRecordHeader _ _ _ _)); cbn; [done|done|unfold fits; lia].
Qed.

Lemma staged_snoc b off qs r :
  staged b off qs -> req_ok r -> len (r_Data r) <= maxBlob ->
  staged (b ++ record_bytes (mkRecordHeader (r_NS r) (r_Key r) (len (r_Data r)) (r_XXH3 r)) (r_Data r)) off
    (qs ++ [mkPending (mkEntry (r_NS r) (r_Key r) (off + len b) (len (r_Data r)) (r_XXH3 r)) r]).
Proof using Hp.
  intros Hst Hr Hl. revert b off Hst. induction qs as [|q qs IH]; intros b off Hst.
  - cbn in Hst. subst b. exists []. rewrite app_nil_r, Z.add_0_r. done.
  - destruct Hst as (b' & -> & He & Hq & Hql & Hst). eexists. rewrite <- app_assoc. split; [done|].
    split_and!; [done..|]. rewrite len_app, record_len, Z.add_assoc by done. by apply IH.
Qed.

(** What is staged is a log. *)
Lemma staged_logged b off qs :
  staged b off qs -> 0 <= off -> off + len b < 2 ^ 32 ->
  logged maxBlob b off (p_entry <$> qs) /\ Forall (fun e => e_NS e <> recordMagic) (p_entry <$> qs).
Proof using Hp.
  destruct (params_bounds Hp) as [? _].
  revert b off. induction qs as [|q qs IH]; intros b off Hst Hoff Hend; [by split|].
  destruct Hst as (b' & -> & He & Hq & Hql & Hst). cbn [fmap list_fmap].
  pose proof (record_len _ Hq Hql) as Hlen. pose proof (len_nonneg (r_Data (p_req q))).
  destruct (recordSpan_spec (len (r_Data (p_req q)))); [lia|]. pose proof (len_nonneg b').
  rewrite len_app in Hend. destruct (IH b' _ Hst) as [IH1 IH2]; [lia..|]. destruct Hq as (? & ? & ? & ?).
  split; [|by constructor; [rewrite He|]]. eexists _, b'. rewrite He. cbn. split_and!; [done..| |done].
  apply record_bytes_for; try done; unfold fits; lia.
Qed.

(** Each staged record is at its entry's offset. *)
Lemma staged_elem b off qs q :
  staged b off qs -> q ∈ qs -> let r := p_req q in
  req_ok r /\ len (r_Data r) <= maxBlob /\ e_Len (p_entry q) = len (r_Data r) /\
  off <= e_Off (p_entry q) /\ e_Off (p_entry q) + recordSpan (len (r_Data r)) <= off + len b /\
  slice b (e_Off (p_entry q) - off) (e_Off (p_entry q) + recordSpan (len (r_Data r)) - off) =
  Some (record_bytes (mkRecordHeader (r_NS r) (r_Key r) (len (r_Data r)) (r_XXH3 r)) (r_Data r)) /\
  p_entry q = mkEntry (r_NS r) (r_Key r) (e_Off (p_entry q)) (len (r_Data r)) (r_XXH3 r).
Proof using Hp.
  destruct (params_bounds Hp) as [? _].
  revert b off. induction qs as [|q' qs IH]; intros b off Hst Hq; [by apply elem_of_nil in Hq|].
  destruct Hst as (b' & -> & He & Hq' & Hql & Hst). pose proof (record_len _ Hq' Hql) as Hlen.
  pose proof (len_nonneg (r_Data (p_req q'))). pose proof (len_nonneg b').
  destruct (recordSpan_spec (len (r_Data (p_req q')))); [lia|]. rewrite len_app, Hlen.
  apply elem_of_cons in Hq as [->|Hq].
  - rewrite He. cbn. split_and!; try done; try lia. rewrite Z.sub_diag. apply slice_here. lia.
  - destruct (IH b' _ Hst Hq) as (? & ? & ? & ? & ? & Hs & ?). split_and!; try done; try lia.
    rewrite slice_skip, Hlen by lia. rewrite <- Hs. f_equal; lia.
Qed.

(** A batch that can be flushed: empty, or staged behind the active segment's
    data with room for it and for the footer. *)
Definition ready (s : Volume) (staging : bytes) (pending : list pendingRec) : Prop :=
  (pending = [] /\ staging = []) \/
  exists id g, active s = Some id /\ segs s !! id = Some g /\ staged staging (s_dataEnd g) pending /\
    s_dataEnd g + len staging + tableLen (len (s_entries g) + len pending) + 4096 <= s_size g.

(** What programs other than [openActive] keep. *)
Definition keeps (s s' : Volume) : Prop := nextID s' = nextID s /\ reqs s' = reqs s.

Lemma keeps_both s1 s2 s3 : keeps s1 s2 -> keeps s2 s3 -> keeps s1 s3.
Proof. intros [] []. split; congruence. Qed.

Lemma tableLen_nonneg n : 0 <= tableLen n.
Proof. unfold tableLen, roundUpAlign, andnot. apply Z.land_nonneg. left. unfold u64. by apply Z.mod_pos_bound. Qed.

(** Replacing the active segment's bookkeeping by one that covers more data. *)
Lemma Inv_grow s id g g' f :
  Inv s -> active s = Some id -> segs s !! id = Some g -> files s !! id = Some f ->
  s_sealed g' = false -> s_size g' = s_size g -> open_log f g' -> s_dataEnd g <= s_dataEnd g' <= len (content f) ->
  (forall e, e ∈ s_entries g -> e ∈ s_entries g') -> Inv (set_segs (<[id := g']> (segs s)) s).
Proof.
  intros Hs Ha Hg Hf Hsl Hsz Hol Hde Hsub. pose proof Hs as [I1 Istr I2 I3 I4 I5 I6 I7 I8 I9].
  constructor; cbn; try assumption.
  - intros id' f0 Hf0 Hn. apply lookup_insert_None in Hn as [Hn _]. eauto.
  - intros id' g0 Hg0. apply lookup_insert_Some in Hg0 as [[<- <-]|[? Hg0]]; [|by apply I3].
    destruct (I3 id g Hg) as (f0 & Hf0 & Hl & Hgeo & _). exists f. rewrite Hsl, Hsz.
    assert (f0 = f) as -> by congruence. done.
  - intros id' Ha'. destruct (I4 id' Ha') as (g0 & Hg0 & Hs0 & Hmax). assert (id' = id) as -> by congruence.
    exists g'. rewrite lookup_insert_eq. split_and!; [done..|]. intros id' g1 Hg1.
    apply lookup_insert_Some in Hg1 as [[<- _]|[_ Hg1]]; [lia|by eapply Hmax].
  - intros r loc Hr. destruct (I9 r loc Hr) as (? & ? & ? & ? & Hat). do 4 (split; [done|]). cbn. intros g1 f1 Hg1 Hf1.
    apply lookup_insert_Some in Hg1 as [[E <-]|[? Hg1]]; [|by apply Hat]. rewrite <- E in *.
    assert (f1 = f) as -> by congruence. destruct (Hat g f Hg Hf) as (? & ? & ? & Hsl'). split_and!; [auto|done|lia|lia|done].
Qed.

Lemma acked_core s s' r loc :
  (segs s, nextID s) = (segs s', nextID s') ->
  (forall id f', files s' !! id = Some f' -> exists f, files s !! id = Some f /\ content f = content f') ->
  acked s r loc -> acked s' r loc.
Proof.
  intros [= Hsg Hn] Hf (H1 & H2 & H3 & H4 & Hat). unfold acked. rewrite <- Hn, <- Hsg. do 4 (split; [done|]).
  intros g f' Hg Hf'. destruct (Hf _ f' Hf') as (f & Hf0 & <-). by apply Hat.
Qed.

(** [OnWritten(loc, true)] for every record of a batch. *)
Definition locOf (id : Z) (q : pendingRec) : Loc := mkLoc id (e_Off (p_entry q)) (e_Len (p_entry q)).

Lemma Inv_acks_add s new :
  Inv s -> (forall r loc, (r, Some loc) ∈ new -> acked s r loc) -> Inv (set_acks (new ++ acks s) s).
Proof.
  intros [] Hn. constructor; cbn; try assumption. intros r loc Hr.
  apply elem_of_app in Hr as [Hr|Hr]; [by apply Hn|by apply iv_acks0].
Qed.

(** The batch is on the device and in the segment's table: the invariant holds
    and its records can be acknowledged. *)
Lemma flushed_ok s id g staging pending :
  let s' := set_segs (alter (fun g => with_data (u32 (s_dataEnd g + len staging))
                                        (s_entries g ++ (p_entry <$> pending)) g) id (segs s))
              (wrote id (s_dataEnd g) staging s) in
  Inv s -> active s = Some id -> segs s !! id = Some g -> staged staging (s_dataEnd g) pending ->
  s_dataEnd g + len staging + tableLen (len (s_entries g) + len pending) + 4096 <= s_size g ->
  Inv s' /\ forall q, q ∈ pending -> acked s' (p_req q) (locOf id q).
Proof using Hp.
  intros s' Hs Ha Hg Hst Hroom. destruct (Inv_active s id Hs Ha) as (g0 & f & Hg0 & Hf & Hsl & Hl & Hgeo & Hol & Hde).
  assert (g0 = g) as -> by congruence. pose proof Hgeo as [_ [_ Hsz]].
  pose proof (len_nonneg staging). pose proof (len_nonneg (s_entries g)). pose proof (len_nonneg pending).
  pose proof (tableLen_nonneg (len (s_entries g) + len pending)).
  destruct (staged_logged staging _ pending Hst) as [Hlog Hns]; [lia..|].
  destruct (ol_log f g Hol) as (b & r & Hc & Hlb & Hb).
  set (f' := mkFile (splice (content f) (s_dataEnd g) staging) ((s_dataEnd g, len staging) :: dirty f)).
  set (g' := with_data (u32 (s_dataEnd g + len staging)) (s_entries g ++ (p_entry <$> pending)) g).
  assert (u32 (s_dataEnd g + len staging) = s_dataEnd g + len staging) as Hu by (unfold u32; apply Z.mod_small; lia).
  destruct (cut_at (len staging) r) as (old & r' & -> & Hold); [rewrite Hc, len_app in Hl; lia|].
  assert (content f' = b ++ staging ++ r') as Hc' by (cbn; rewrite Hc; by apply splice_inside).
  assert (files (wrote id (s_dataEnd g) staging s) = <[id := f']> (files s)) as Hfs
    by (cbn; by rewrite (alter_some _ _ _ f)).
  assert (s' = set_segs (<[id := g']> (segs s)) (wrote id (s_dataEnd g) staging s)) as ->
    by (unfold s'; by rewrite (alter_some _ _ _ g)).
  assert (Inv (wrote id (s_dataEnd g) staging s)) as Hw by (apply (Inv_wrote s id g); [done..|lia|lia]).
  assert (len (content f') = s_size g) as Hlf by (cbn; rewrite len_splice; lia).
  clearbody f'. split.
  - apply (Inv_grow (wrote id (s_dataEnd g) staging s) id g g' f' Hw); try done.
    + by rewrite Hfs, lookup_insert_eq.
    + constructor; cbn.
      * apply Hol.
      * exists (b ++ staging), r'. rewrite Hc', <- app_assoc, len_app, Hu, Hb. split_and!; [done| |done].
        apply logged_app; [done|]. by rewrite Hb.
      * rewrite Hu, len_app, len_fmap. lia.
      * apply Forall_app. split; [apply Hol|done].
      * apply Hol.
    + cbn. rewrite Hu. lia.
    + intros e He. apply elem_of_app. by left.
  - intros q Hq. destruct (staged_elem staging _ pending q Hst Hq) as (Hr & Hrl & Hel & H1' & H2' & Hs2 & Hpe).
    unfold acked, locOf. cbn [SegmentID LenOf Offset]. rewrite Hel. cbn [nextID set_segs wrote set_files].
    split; [by eapply (iv_files s Hs)|]. do 3 (split; [done|]). intros g1 f1 Hg1 Hf1.
    cbn [segs set_segs] in Hg1. rewrite lookup_insert_eq in Hg1. injection Hg1 as <-.
    change (files _) with (files (wrote id (s_dataEnd g) staging s)) in Hf1. rewrite Hfs, lookup_insert_eq in Hf1.
    injection Hf1 as <-. cbn [s_dataEnd s_entries g' with_data]. rewrite Hu. split_and!; [|lia|lia|lia|].
    { apply elem_of_app. right. apply list_elem_of_fmap. exists q. split; [|done]. rewrite Hpe. unfold entry_at. by rewrite <- Hel. }
    rewrite Hc', slice_skip, Hb by lia. rewrite <- Hs2. apply slice_app_l. lia.
Qed.

Ltac core_inv := eapply Inv_core; [|eassumption]; reflexivity.

Lemma activeSeg_run {B} s id g (k : option (Z * segment) -> M B) Q C :
  active s = Some id -> segs s !! id = Some g -> wp (k (Some (id, g))) s Q C -> wp (activeSeg ≫= k) s Q C.
Proof. intros Ha Hg Hk. unfold activeSeg. apply wp_gets. rewrite Ha. cbn. by rewrite Hg. Qed.

Lemma activeSeg_none {B} s (k : option (Z * segment) -> M B) Q C :
  active s = None -> wp (k None) s Q C -> wp (activeSeg ≫= k) s Q C.
Proof. intros Ha Hk. unfold activeSeg. apply wp_gets. by rewrite Ha. Qed.

Lemma failAll_run {B} s pending (k : unit -> M B) Q C :
  Inv s -> (forall s', Inv s' -> keeps s s' -> wp (k tt) s' Q C) -> wp (failAll pending ≫= k) s Q C.
Proof.
  intros Hs Hk. unfold failAll. apply wp_modify, Hk; [|done]. apply Inv_acks_add; [done|].
  intros r loc Hr. rewrite elem_of_reverse in Hr. by apply list_elem_of_fmap in Hr as (? & [=] & _).
Qed.

Lemma flush_ok s staging pending :
  Inv s -> ready s staging pending ->
  wp (flush p staging pending) s (fun _ s' => Inv s' /\ keeps s s') Inv.
Proof using Hp.
  intros Hs Hr. unfold flush. destruct pending as [|q0 qs]; [done|].
  destruct Hr as [[? _]|(id & g & Ha & Hg & Hst & Hroom)]; [done|]. set (pending := q0 :: qs) in *. clearbody pending.
  destruct (Inv_active s id Hs Ha) as (g0 & f & Hg0 & Hf & _ & Hl & Hgeo & _ & Hde).
  assert (g0 = g) as -> by congruence. pose proof (tableLen_nonneg (len (s_entries g) + len pending)).
  assert (forall n, Inv (wrote id (s_dataEnd g) (take n staging) (ticked s))) as Hpart.
  { intros n. apply (Inv_wrote (ticked s) id g); [by apply Inv_tick|done..| |].
    - done.
    - assert (len (take n staging) <= len staging) by (unfold len; rewrite length_take; lia). cbn. lia. }
  unfold flushBatch. eapply activeSeg_run; [done..|]. apply wp_bind, wp_write.
  2: { intros n e. specialize (Hpart n). set (s1 := wrote _ _ _ _) in *.
       assert (keeps s s1) as Hk by done. clearbody s1. unfold appendFailed, setReadOnly. apply wp_bind, wp_modify, wp_modify_end.
       eapply failAll_run; [core_inv|]. intros s' Hs' Hk'. apply wp_ret. split; [done|].
       eapply keeps_both; [|exact Hk']. exact Hk. }
  2: done.
  destruct (flushed_ok (ticked s) id g staging pending) as [Hinv Hack]; [by apply Inv_tick|done..|].
  apply wp_modify. set (s1 := set_segs _ _) in *. assert (keeps s s1) as Hk by done.
  assert (active s1 = Some id) as Ha1 by done. clearbody s1. apply wp_modify, wp_gets.
  assert (forall s2 : Volume, Inv s2 -> (forall q, q ∈ pending -> acked s2 (p_req q) (locOf id q)) -> keeps s s2 ->
    wp (modify (bump (fun '(a, b, c, d, r) => (a + len pending, b, c, d, r)));;
        modify (fun s => set_acks (reverse ((fun q => (p_req q, Some (mkLoc id (e_Off (p_entry q)) (e_Len (p_entry q)))))
                                              <$> pending) ++ acks s) s);; mret true) s2
       (fun _ s' => Inv s' /\ keeps s s') Inv) as Hfin.
  { intros s2 Hs2 Hack2 Hk2. do 2 apply wp_modify. apply wp_ret. split; [|done].
    apply Inv_acks_add; [core_inv|]. intros r loc Hr.
    rewrite elem_of_reverse in Hr. apply list_elem_of_fmap in Hr as (q & [= -> ->] & Hq).
    eapply acked_core; [..|by apply Hack2]; [done|]. intros i f' Hf'. by exists f'. }
  apply wp_bind. case_if.
  - apply wp_bind, wp_sync.
    + apply wp_bind, wp_ret, wp_modify_end, Hfin; [|intros q Hq; eapply acked_core; [..|by apply Hack]; [done|]|done].
      * eapply Inv_core; [|apply (Inv_synced (ticked s1)); [by apply Inv_tick|done]]. done.
      * cbn. intros i f' Hf'. destruct (decide (i = id)) as [->|].
        -- rewrite lookup_alter_eq in Hf'. destruct (files s1 !! id) as [f0|]; [|done]. injection Hf' as <-. by exists f0.
        -- rewrite lookup_alter_ne in Hf' by done. by exists f'.
    + intros e. apply wp_bind, wp_modify_end, wp_modify_end, Hfin; [core_inv|intros q Hq; eapply acked_core; [..|by apply Hack]; [done|]|done].
      intros i f' Hf'. by exists f'.
    + core_inv.
  - apply wp_ret, Hfin; [core_inv|intros q Hq; eapply acked_core; [..|by apply Hack]; [done|]|done].
    intros i f' Hf'. by exists f'.
Qed.

(** ** Sealing *)

Lemma logged_count b off es : logged maxBlob b off es -> len es * 4096 <= len b.
Proof.
  revert b off. induction es as [|e es IH]; intros b off Hl; [cbn; apply len_nonneg|].
  destruct Hl as (r & b' & -> & _ & Hr & Hl). rewrite len_cons, len_app, (rf_len _ e r Hr).
  pose proof (span_block _ e r Hr). specialize (IH _ _ Hl). lia.
Qed.

(** [s'] differs from [s] in its files and its clock only. *)
Definition only_files (s s' : Volume) : Prop := exists fs t, s' = set_tick t (set_files fs s).

Lemma only_files_refl s : only_files s s.
Proof. exists (files s), (tick s). by destruct s. Qed.

Lemma only_files_trans s1 s2 s3 : only_files s1 s2 -> only_files s2 s3 -> only_files s1 s3.
Proof. intros (? & ? & ->) (fs & t & ->). by exists fs, t. Qed.

Lemma only_files_wrote id off data s : only_files s (wrote id off data (ticked s)).
Proof. by eexists _, _. Qed.

Lemma only_files_tick s : only_files s (ticked s).
Proof. exists (files s), (S (tick s)). by destruct s. Qed.

Lemma only_files_synced id s : only_files s (synced id (ticked s)).
Proof. by eexists _, _. Qed.

(** A predicate that survives whatever is written to file [id] from [de] on. *)
Record behind (J : Volume -> Prop) (id size de : Z) : Prop := mkBehind {
  bh_tick : forall s, J s -> J (ticked s);
  bh_write : forall s off data, J s -> de <= off -> off + len data <= size -> J (wrote id off data s);
  bh_sync : forall s, J s -> J (synced id s)
}.

Lemma behind_write J id size de off data s :
  behind J id size de -> J s -> de <= off -> off + len data <= size ->
  wp (WriteAt id off data) s (fun e s' => J s' /\ only_files s s' /\ (e = None -> files s' = files (wrote id off data s))) J.
Proof.
  intros [Jt Jw Js] HJ Hlo Hhi.
  assert (forall n, len (take n data) <= len data) as Hn by (intros n; unfold len; rewrite length_take; lia).
  apply wp_write.
  - split_and!; [apply Jw; auto|apply only_files_wrote|done].
  - intros n e. specialize (Hn n). split_and!; [apply Jw; auto; lia|apply only_files_wrote|done].
  - intros n. specialize (Hn n). apply Jw; auto. lia.
Qed.

Lemma behind_buffered J id size de off data s :
  behind J id size de -> J s -> de <= off -> off + len data <= size ->
  wp (writeAligned id off data) s
    (fun e s' => J s' /\ only_files s s' /\ (e = None -> files s' = files (wrote id off data s))) J.
Proof.
  intros HJb HJ Hlo Hhi. pose proof (bh_tick _ _ _ _ HJb s HJ) as HJt. unfold writeAligned, mmapBuf.
  apply wp_bind, wp_bind, wp_io; [done|]. intros [e|]; apply wp_ret; cbn [negb].
  - apply wp_ret. split_and!; [done|apply only_files_tick|done].
  - eapply wp_mono; [by apply (behind_write J id size de)|..|done]. intros e s' (? & ? & Hs).
    split_and!; [done| |done]. eapply only_files_trans; [apply only_files_tick|done].
Qed.

(** [writeSeal] writes behind the data only. When it succeeds, the file is
    sealed with the entries of its log and on disk. *)
Lemma writeSeal_ok (J : Volume -> Prop) id size de es s f b r :
  behind J id size de -> J s -> files s !! id = Some f -> content f = b ++ r -> logged maxBlob b 0 es -> len b = de ->
  len (content f) = size -> de + tableLen (len es) + 4096 <= size -> size < 2 ^ 32 -> fits 32 id ->
  wp (writeSeal id size de es) s
    (fun e s' => J s' /\ only_files s s' /\ (e = None -> exists c' tr, files s' = <[id := mkFile c' []]> (files s) /\
       len c' = size /\ sealOf maxBlob c' id = Some (tr, es) /\ DataEnd tr = de /\ exists r', c' = b ++ r')) J.
Proof using Hp.
  intros HJb HJ Hf Hc Hlog Hb Hsz Hroom Hmax Hid. unfold writeSeal.
  pose proof (logged_count _ _ _ Hlog). pose proof (len_nonneg es). pose proof (len_nonneg b).
  pose proof (logged_fits maxBlob b 0 es eq_refl Hlog) as Hfit.
  assert (len es < 2 ^ 32) as Hle by (rewrite Hc, len_app in Hsz; pose proof (len_nonneg r); lia).
  rewrite encodeSeal_layout by done. apply wp_lift.
  pose proof (len_table_bytes es Hfit Hle) as Htl. pose proof (tableLen_nonneg (len es)).
  pose proof (len_tail_bytes id de es) as Htail. pose proof (len_nonneg (table_bytes es)).
  rewrite Hc, len_app in Hsz. destruct (cut_at (len (table_bytes es)) r) as (t0 & r1 & -> & Ht0); [lia|].
  rewrite len_app in Hsz. destruct (cut_at (len r1 - 4096) r1) as (mid & r2 & -> & Hmid); [lia|].
  rewrite len_app in Hsz, Hmid.
  apply wp_bind. eapply (wp_mono _ _ (fun e s' => J s' /\ only_files s s' /\ (e = None -> exists d,
    files s' = <[id := mkFile (b ++ table_bytes es ++ mid ++ r2) d]> (files s))) _ J); [| |done].
  { case_if; bool_props.
    - eapply wp_mono; [apply (behind_buffered J id size de); try done; lia|..|done].
      intros e s' (? & ? & Hs). split_and!; [done..|]. intros He. eexists. rewrite (Hs He). cbn.
      rewrite (alter_some _ _ _ f), Hc by done. by rewrite (splice_inside b t0) by done.
    - apply wp_ret. split_and!; [done|apply only_files_refl|]. intros _. exists (dirty f).
      assert (t0 = []) as -> by (apply len_zero_nil; lia).
      rewrite (len_zero_nil (table_bytes es)) by lia. rewrite insert_id; [done|]. rewrite Hf. f_equal. destruct f; cbn in *. by rewrite Hc. }
  intros [e|] s1 (HJ1 & Ho1 & Hf1); [apply wp_ret; split_and!; done|]. destruct (Hf1 eq_refl) as [d Hf1']. clear Hf1.
  apply wp_bind. eapply wp_mono; [apply (behind_buffered J id size de); try done; unfold recordAlign; lia|..|done].
  intros [e|] s2 (HJ2 & Ho2 & Hf2); cbn beta iota.
  { apply wp_ret. split_and!; [done|by eapply only_files_trans|done]. }
  set (c2 := b ++ table_bytes es ++ mid ++ tail_bytes id de es).
  assert (exists d, files s2 = <[id := mkFile c2 d]> (files s)) as [d2 Hf2'].
  { rewrite (Hf2 eq_refl). cbn. rewrite Hf1'. eexists. rewrite (alter_some _ _ _ _ (lookup_insert_eq _ _ _)), insert_insert_eq.
    cbn [content dirty]. unfold c2.
    pose proof (splice_inside (b ++ table_bytes es ++ mid) r2 [] (tail_bytes id de es) (size - recordAlign)) as E.
    rewrite !app_nil_r, <- !app_assoc in E. rewrite E; [done|rewrite !len_app; unfold recordAlign|]; lia. }
  assert (only_files s s2) as Ho by (by eapply only_files_trans).
  pose proof (bh_tick _ _ _ _ HJb s2 HJ2) as HJ3. pose proof (bh_sync _ _ _ _ HJb _ HJ3) as HJ4.
  apply wp_sync; [|intros e; split_and!; [done|eapply only_files_trans; [done|apply only_files_tick]|done]|done].
  split_and!; [done|eapply only_files_trans; [done|apply only_files_synced]|]. intros _.
  exists c2, (sealTrailer id de es). split_and!.
  - cbn. rewrite Hf2'. by rewrite (alter_some _ _ _ _ (lookup_insert_eq _ _ _)), insert_insert_eq.
  - unfold c2. rewrite !len_app. lia.
  - unfold c2. rewrite <- Hb. apply sealOf_sealed; try done. unfold fits. lia.
  - done.
  - by eexists.
Qed.

Definition sealed_now (g : segment) : segment :=
  mkSegment (s_size g) true (s_spilled g) (s_dataEnd g) (s_entries g) (s_dying g) (s_reads g).

Lemma Inv_seal s id g c' tr :
  Inv s -> active s = Some id -> segs s !! id = Some g -> files s !! id = Some (mkFile c' []) ->
  sealOf maxBlob c' id = Some (tr, s_entries g) ->
  Inv (set_active None (set_segs (<[id := sealed_now g]> (segs s)) s)).
Proof.
  intros Hs Ha Hg Hf Hseal. pose proof Hs as [I1 Istr I2 I3 I4 I5 I6 I7 I8 I9].
  assert (forall ms, spent s ms -> spent (set_active None (set_segs (<[id := sealed_now g]> (segs s)) s)) ms) as Hsp
    by (intros ms [? _]; by split).
  constructor; cbn; try assumption; try done.
  - intros id' f0 Hf0 Hn. apply lookup_insert_None in Hn as [Hn _]. eauto.
  - intros id' g' Hg'. apply lookup_insert_Some in Hg' as [[<- <-]|[Hne Hg']].
    + destruct (I3 id g Hg) as (f & Hf' & Hl & Hgeo & Hk). rewrite Hf in Hf'. injection Hf' as <-.
      exists (mkFile c' []). split_and!; [done..|]. split_and!; [done|by rewrite Hl|by exists tr].
    + destruct (I3 id' g' Hg') as (f & Hf' & Hl & Hgeo & Hk). exists f. split_and!; [done..|].
      destruct (s_sealed g'); [done|]. destruct Hk as [Ha' _]. congruence.
  - intros q buf Hq. destruct (I5 q buf Hq) as [? Hpq]. split; [done|]. intros Hle.
    destruct (Hpq Hle) as (es & ms & ? & ? & ?). exists es, ms. split_and!; auto.
  - intros sn Hsn. destruct (I7 sn Hsn) as (? & ? & ? & ? & ?). split_and!; auto.
  - intros r loc Hr. destruct (I9 r loc Hr) as (? & ? & ? & ? & Hat). do 4 (split; [done|]). cbn. intros g1 f1 Hg1 Hf1.
    apply lookup_insert_Some in Hg1 as [[E <-]|[? Hg1]]; [|by apply Hat]. rewrite <- E in *. cbn. by apply (Hat g).
Qed.

(** Claims of checkpoints are not affected by a file under the next id. *)
Lemma trusts_fresh s f es ms :
  trusts (files s) es ms -> spent s ms -> trusts (<[nextID s := f]> (files s)) es ms.
Proof.
  intros Ht [Hsp _] id' f' Hf' Hle. apply lookup_insert_Some in Hf' as [[<- _]|[_ Hf']]; [lia|by apply Ht].
Qed.

Lemma Inv_free s : Inv s -> files s !! nextID s = None /\ forall id g, segs s !! id = Some g -> id < nextID s.
Proof.
  intros [I1 ? ? I3 ? ? ? ? ? ?]. split.
  - destruct (files s !! nextID s) as [f|] eqn:Hf; [|done]. specialize (I1 _ _ Hf). lia.
  - intros id g Hg. destruct (I3 id g Hg) as (f & Hf & _). by destruct (I1 _ _ Hf) as [[_ ?] _].
Qed.

(** A file under the next id, which no segment has, no checkpoint vouches for
    and no acknowledgement names. *)
Definition stray (s : Volume) (f : file) : Volume :=
  set_files (<[nextID s := f]> (files s)) (set_nextID (nextID s + 1) s).

Lemma Inv_stray s n :
  Inv s -> nextID s + 1 < 2 ^ 32 -> Z.of_nat n < 2 ^ 32 -> Inv (stray s (mkFile (zeros n) [])).
Proof.
  intros Hs Hn Hlen. set (f := mkFile _ _). pose proof Hs as [I1 Istr I2 I3 I4 I5 I6 I7 I8 I9]. destruct (Inv_free s Hs) as [Hfree Hlt].
  assert (forall ms, spent s ms -> spent (stray s f) ms) as Hsp
    by (intros ms [? ?]; split; cbn; [lia|done]).
  constructor; cbn; try assumption.
  - intros id' f' Hf'. apply lookup_insert_Some in Hf' as [[<- <-]|[_ Hf']].
    + cbn. rewrite len_zeros. lia.
    + specialize (I1 _ _ Hf'). lia.
  - intros id' f' Hf' Hg'. apply lookup_insert_Some in Hf' as [[<- <-]|[_ Hf']]; [left; by exists n|eauto].
  - lia.
  - intros id' g' Hg'. destruct (I3 id' g' Hg') as (f' & Hf' & Hk). exists f'. cbn. split; [|done].
    rewrite lookup_insert_ne; [done|]. congruence.
  - intros q buf Hq. destruct (I5 q buf Hq) as [? Hpq]. split; [done|]. intros Hle.
    destruct (Hpq Hle) as (es & ms & ? & ? & ?). exists es, ms. split_and!; [done|by apply trusts_fresh|by apply Hsp].
  - intros sn Hsn. destruct (I7 sn Hsn) as (? & ? & ? & ? & ?).
    split_and!; [done|by apply trusts_fresh|by apply Hsp|done..].
  - intros r loc Hr. destruct (I9 r loc Hr) as (Hid & ? & ? & ? & Hat). split; [cbn; lia|]. do 3 (split; [done|]).
    cbn. intros g1 f1 Hg1 Hf1. rewrite lookup_insert_ne in Hf1 by lia. by apply (Hat g1).
Qed.

Definition newSegment : segment := mkSegment (SegmentBytes p) false false 0 [] false 0.

(** That file, filled with zeros, becomes the active segment. *)
Lemma Inv_new s :
  Inv s -> active s = None -> nextID s + 1 < 2 ^ 32 ->
  Inv (set_active (Some (nextID s)) (set_segs (<[nextID s := newSegment]> (segs s))
        (stray s (mkFile (zeros (Z.to_nat (SegmentBytes p))) [])))).
Proof using Hp.
  intros Hs Ha Hn. set (f := mkFile _ _). pose proof Hs as [I1 Istr I2 I3 I4 I5 I6 I7 I8 I9].
  destruct (params_bounds Hp) as (? & Hgeo & ?). destruct (recordSpan_spec maxBlob); [lia|].
  destruct (Inv_stray s (Z.to_nat (SegmentBytes p)) Hs Hn) as [J1 Jstr J2 J3 _ _ _ _ _ _]; [lia|]. fold f in J1, Jstr, J2, J3.
  destruct (Inv_free s Hs) as [Hfree Hlt].
  set (s' := set_active _ _).
  assert (forall ms, spent s ms -> spent s' ms) as Hsp.
  { intros ms [? _]. split; cbn; [lia|]. intros ? [= <-]. lia. }
  constructor; cbn; try assumption.
  - intros id' f' Hf' Hg'. apply lookup_insert_None in Hg' as [Hg' _]. by apply Jstr.
  - intros id' g' Hg'. apply lookup_insert_Some in Hg' as [[<- <-]|[Hne Hg']].
    + exists f. cbn. rewrite lookup_insert_eq. split; [done|]. split; [rewrite len_zeros; lia|]. split; [done|].
      split; [done|]. constructor; cbn; [done| |change (tableLen (len [])) with 0; lia|done|done].
      by exists [], (zeros (Z.to_nat (SegmentBytes p))).
    + destruct (J3 id' g' Hg') as (f' & Hf' & Hl & Hgeo' & Hk). exists f'. split; [done|]. do 2 (split; [done|]).
      destruct (s_sealed g'); [done|]. destruct Hk as [Ha' _]. cbn in Ha'. congruence.
  - intros id' [= <-]. exists newSegment. rewrite lookup_insert_eq. do 2 (split; [done|]). intros id' g' Hg'.
    apply lookup_insert_Some in Hg' as [[<- _]|[_ Hg']]; [lia|]. specialize (Hlt _ _ Hg'). lia.
  - intros q buf Hq. destruct (I5 q buf Hq) as [? Hpq]. split; [done|]. intros Hle.
    destruct (Hpq Hle) as (es & ms & ? & ? & ?). exists es, ms. split_and!; [done|by apply trusts_fresh|by apply Hsp].
  - intros sn Hsn. destruct (I7 sn Hsn) as (? & ? & ? & ? & ?).
    split_and!; [done|by apply trusts_fresh|by apply Hsp|done..].
  - intros r loc Hr. destruct (I9 r loc Hr) as (? & ? & ? & ? & Hat). split; [cbn; lia|]. do 3 (split; [done|]).
    cbn. intros g1 f1 Hg1 Hf1. rewrite lookup_insert_ne in Hg1 by lia. rewrite lookup_insert_ne in Hf1 by lia.
    by apply (Hat g1).
Qed.

Lemma Inv_id s id f : Inv s -> files s !! id = Some f -> fits 32 id.
Proof. intros Hs Hf. destruct (iv_files s Hs id f Hf), (iv_next s Hs). unfold fits. lia. Qed.

Lemma only_files_core s s' :
  only_files s s' -> segs s' = segs s /\ active s' = active s /\ nextID s' = nextID s /\ reqs s' = reqs s /\
    ckptFiles s' = ckptFiles s /\ ckptSeq s' = ckptSeq s /\ ckptSnap s' = ckptSnap s /\ acks s' = acks s.
Proof. by intros (? & ? & ->). Qed.

Lemma sealActive_ok s :
  Inv s -> wp sealActive s (fun e s' => Inv s' /\ keeps s s' /\ (e = None -> active s' = None)) Inv.
Proof using Hp.
  intros Hs. unfold sealActive. destruct (active s) as [id|] eqn:Ha; [|by eapply activeSeg_none].
  destruct (Inv_active s id Hs Ha) as (g & f & Hg & Hf & Hsl & Hl & Hgeo & Hol & Hde).
  eapply activeSeg_run; [done..|]. destruct (ol_log f g Hol) as (b & r & Hc & Hlog & Hb).
  set (J := fun s => Inv s /\ active s = Some id /\ segs s !! id = Some g).
  assert (behind J id (s_size g) (s_dataEnd g)) as HJ.
  { constructor; unfold J.
    - intros s' (? & ? & ?). split; [by apply Inv_tick|done].
    - intros s' off data (? & ? & ?) ? ?. split; [by apply (Inv_wrote s' id g)|done].
    - intros s' (? & ? & ?). split; [by apply Inv_synced|done]. }
  apply wp_bind. eapply wp_mono; [apply (writeSeal_ok J id _ _ _ s f b r)|..|by intros s' [? _]];
    try done; [apply Hol|apply Hgeo|by eapply Inv_id|].
  intros [e|] s1 ((Hs1 & Ha1 & Hg1) & Ho & Hd); apply only_files_core in Ho as (_ & _ & Hn & Hr & _).
  { apply wp_ret. by split_and!. }
  destruct (Hd eq_refl) as (c' & tr & Hfs & Hlc & Hseal & _).
  do 4 apply wp_modify. apply wp_ret. split_and!; [|done..].
  eapply Inv_core; [|apply (Inv_seal s1 id g c' tr Hs1 Ha1 Hg1); [by rewrite Hfs, lookup_insert_eq|done]].
  cbn. by rewrite (alter_some _ _ _ g).
Qed.

Lemma Inv_next s : Inv s -> nextID s + 1 < 2 ^ 32 -> Inv (set_nextID (nextID s + 1) s).
Proof.
  intros Hs Hn. pose proof Hs as [I1 Istr I2 I3 I4 I5 I6 I7 I8 I9]. constructor; cbn; try assumption.
  - intros i f Hf. specialize (I1 i f Hf). lia.
  - lia.
  - intros q buf Hq. destruct (I5 q buf Hq) as [? Hpq]. split; [done|]. intros Hle.
    destruct (Hpq Hle) as (es & ms & ? & ? & [? ?]). exists es, ms. split_and!; try done. split; cbn; [lia|done].
  - intros sn Hsn. destruct (I7 sn Hsn) as (? & ? & [? ?] & ? & ?). split_and!; try done. split; cbn; [lia|done].
  - intros r loc Hr. destruct (I9 r loc Hr) as (? & ? & ? & ? & Hat). split; [cbn; lia|done].
Qed.

Definition grown (id n : Z) (s : Volume) : Volume := set_files (alter (extend n) id (files s)) s.

Lemma wp_prealloc id size s (Q : option ioError -> Volume -> Prop) (C : Volume -> Prop) :
  Q None (grown id size (ticked s)) -> (forall n e, n <= size -> Q (Some e) (grown id n (ticked s))) ->
  (forall n, n <= size -> C (grown id n (ticked s))) -> wp (Preallocate id size) s Q C.
Proof.
  intros H1 H2 H3. unfold wp, Preallocate, nextIo, mbind, M_bind, modify, stop.
  destruct (io (tick s)); cbn; [apply H1|apply H2; lia|apply H3; lia].
Qed.

Lemma openActive_ok s :
  Inv s -> active s = None -> nextID s + 1 < 2 ^ 32 ->
  wp (openActive p) s (fun e s' => Inv s' /\ reqs s' = reqs s /\ nextID s' = nextID s + 1 /\
    match e with
    | None => active s' = Some (nextID s) /\ segs s' !! nextID s = Some newSegment
    | Some _ => active s' = None
    end) Inv.
Proof using Hp.
  intros Hs Ha Hn. unfold openActive. apply wp_gets. destruct (Inv_free s Hs) as [Hfree _].
  pose proof (Inv_next s Hs Hn) as Hnext. destruct (params_bounds Hp) as (? & Hgeo & ?).
  pose proof (iv_next s Hs). destruct (recordSpan_spec maxBlob); [lia|].
  pose proof (fun n => Inv_stray s n Hs Hn) as Hstray. set (zs := fun n => mkFile (zeros n) []).
  set (fail := fun s' => Inv s' /\ reqs s' = reqs s /\ nextID s' = nextID s + 1 /\ active s' = None).
  assert (forall s' n, Z.of_nat n <= SegmentBytes p -> core s' = core (stray s (zs n)) -> fail s') as Hfail.
  { intros s' n Hle Hc. split; [eapply Inv_core; [by symmetry|apply Hstray; unfold geometry in Hgeo; lia]|]. unfold core in Hc. injection Hc as _ _ _ -> -> _ _ -> _. done. }
  apply wp_modify. rewrite (u32_small (nextID s + 1)) by lia.
  apply wp_bind. unfold Open. apply wp_bind, wp_io; [core_inv|]. intros [e|].
  { do 2 apply wp_ret. split_and!; [core_inv|done..]. }
  apply wp_modify, wp_ret. cbn [files set_tick set_nextID]. rewrite Hfree. cbn [default].
  set (s1 := set_files _ _). assert (core s1 = core (stray s (zs 0%nat))) as Hc1 by done. clearbody s1.
  assert (forall n, core (grown (nextID s) n (ticked s1)) = core (stray s (zs (Z.to_nat n)))) as Hgrow.
  { intros n. unfold core in Hc1 |- *. cbn. injection Hc1 as -> -> -> -> -> -> -> -> ->.
    rewrite (alter_some _ _ _ _ (lookup_insert_eq _ _ _)), insert_insert_eq.
    unfold extend, zs. change (zeros 0) with (@nil byte). cbn [content dirty app]. by rewrite len_nil, Z.sub_0_r. }
  assert (0 <= SegmentBytes p) as Hpos by (unfold geometry in Hgeo; lia).
  apply wp_bind, wp_prealloc;
    [|intros n e ?; apply wp_ret, (Hfail _ (Z.to_nat n)); [lia|apply Hgrow]
     |intros n ?; apply (Hfail _ (Z.to_nat n)); [lia|apply Hgrow]].
  set (N := Z.to_nat (SegmentBytes p)). assert (Z.of_nat N <= SegmentBytes p) as HN by (unfold N; lia).
  set (f1 := zs N). pose proof (Hgrow (SegmentBytes p)) as Hc2. fold N f1 in Hc2.
  set (s2 := grown _ _ _) in *. clearbody s2. clear Hgrow Hc1 s1.
  assert (core (synced (nextID s) (ticked s2)) = core (stray s f1)) as Hc3.
  { unfold core in Hc2 |- *. cbn. injection Hc2 as -> -> -> -> -> -> -> -> ->.
    by rewrite (alter_some _ _ _ _ (lookup_insert_eq _ _ _)), insert_insert_eq. }
  apply wp_bind, wp_sync; [|intros e; by apply (Hfail _ N)|by apply (Hfail _ N)].
  set (s3 := synced _ _) in *. clearbody s3. unfold SyncDir. apply wp_bind, wp_io; [by apply (Hfail _ N)|].
  intros [e|]; [by apply (Hfail _ N)|]. do 3 apply wp_modify. apply wp_ret.
  pose proof (Inv_new s Hs Ha Hn) as Hnew. fold N in Hnew. fold (zs N) in Hnew. fold f1 in Hnew. unfold core in Hc3. cbn in Hc3.
  injection Hc3 as E1 E2 E3 E4 E5 E6 E7 E8 E9. cbn. rewrite E8, E5, E3, lookup_insert_eq. split_and!; [|done..].
  eapply Inv_core; [|exact Hnew]. unfold core. cbn. by rewrite ?E1, ?E2, ?E3, ?E5, ?E6, ?E7, ?E8, ?E9.
Qed.

(** ** The writer *)

Lemma appendFailed_run {B} s e (k : unit -> M B) Q C :
  (forall s', core s' = core s -> wp (k tt) s' Q C) -> wp (appendFailed e ≫= k) s Q C.
Proof. intros Hk. unfold appendFailed, setReadOnly. apply wp_bind, wp_modify, wp_modify_end, Hk. done. Qed.

Lemma rotate_ok s :
  Inv s -> nextID s + 1 < 2 ^ 32 ->
  wp (rotate p) s (fun ok s' => Inv s' /\ reqs s' = reqs s /\ nextID s <= nextID s' <= nextID s + 1 /\
    (ok = true -> exists id, active s' = Some id /\ segs s' !! id = Some newSegment)) Inv.
Proof using Hp.
  intros Hs Hn. unfold rotate. apply wp_bind. eapply wp_mono; [by apply sealActive_ok|..|done].
  intros [e|] s1 (Hs1 & [Hk1 Hk2] & Ha).
  { apply appendFailed_run. intros s' Hc. apply wp_ret. unfold core in Hc. pose proof Hc as Hc'.
    injection Hc' as _ _ _ _ E5 _ _ E8 _. split_and!; [by eapply Inv_core|congruence|lia|lia|done]. }
  apply wp_bind. eapply wp_mono; [apply openActive_ok; [done|by apply Ha|lia]|..|done].
  intros e s2 (Hs2 & Hr & Hn2 & He). destruct e as [e|].
  - apply appendFailed_run. intros s' Hc. apply wp_ret. unfold core in Hc. pose proof Hc as Hc'.
    injection Hc' as _ _ _ _ E5 _ _ E8 _. split_and!; [by eapply Inv_core|congruence|lia|lia|done].
  - assert (forall s', core s' = core s2 -> Inv s' /\ reqs s' = reqs s /\ nextID s <= nextID s' <= nextID s + 1 /\
      (true = true -> exists id, active s' = Some id /\ segs s' !! id = Some newSegment)) as Hend.
    { intros s' Hc. unfold core in Hc. pose proof Hc as Hc'. injection Hc' as _ _ E3 E4 E5 _ _ E8 _.
      split_and!; [by eapply Inv_core|congruence|lia|lia|]. intros _. exists (nextID s1). by rewrite E4, E3. }
    apply wp_bind. unfold maybeCheckpoint. apply wp_gets. case_if; [by apply Hend|]. apply wp_gets.
    destruct (ckptJob s2); [by apply Hend|]. apply wp_bind. unfold now, wp at 1. apply wp_modify_end, wp_ret. by apply Hend.
Qed.

Lemma onWritten_none s r : Inv s -> Inv (set_acks ((r, None) :: acks s) s).
Proof.
  intros Hs. apply (Inv_acks_add s [(r, None)] Hs). intros r' loc Hr. by apply list_elem_of_singleton in Hr.
Qed.

Lemma Inv_pop s r rs : Inv s -> reqs s = r :: rs -> req_ok r /\ Inv (set_reqs rs s).
Proof.
  intros [I1 Istr I2 I3 I4 I5 I6 I7 I8 I9] Hr. rewrite Hr in I8. apply Forall_cons in I8 as [? ?].
  split; [done|]. by constructor.
Qed.

(** A record that fits the active segment behind what is staged. *)
Lemma fits_room s staging pending span :
  Inv s -> ready s staging pending ->
  wp (fitsActive p span (len staging) (len pending + 1)) s (fun b s' => s' = s /\ (b = true ->
    exists id g, active s = Some id /\ segs s !! id = Some g /\ staged staging (s_dataEnd g) pending /\
      s_dataEnd g + len staging + span + tableLen (len (s_entries g) + (len pending + 1)) + 4096 <= s_size g)) Inv.
Proof using Hp.
  intros Hs Hr. unfold fitsActive. destruct (active s) as [id|] eqn:Ha; [|by eapply activeSeg_none].
  destruct (Inv_active s id Hs Ha) as (g & f & Hg & Hf & Hsl & Hl & Hgeo & Hol & Hde).
  eapply activeSeg_run; [done..|]. apply wp_ret. split; [done|]. intros Hb. apply Z.leb_le in Hb.
  exists id, g. split_and!; [done..| |].
  - destruct Hr as [[-> ->]|(id' & g' & Ha' & Hg' & Hst & _)]; [done|].
    assert (id' = id) as -> by congruence. assert (g' = g) as -> by congruence. done.
  - rewrite (ol_size f g Hol). unfold tableLen, recordAlign, footerEntrySz in *. lia.
Qed.

Lemma stageRec_ok s staging pending r id g :
  Inv s -> req_ok r -> len (r_Data r) <= maxBlob -> active s = Some id -> segs s !! id = Some g ->
  staged staging (s_dataEnd g) pending ->
  s_dataEnd g + len staging + recordSpan (len (r_Data r)) + tableLen (len (s_entries g) + (len pending + 1)) + 4096
    <= s_size g ->
  wp (stageRec r staging pending) s (fun st s' => s' = s /\ ready s st.1 st.2) Inv.
Proof using Hp.
  intros Hs Hr Hl Ha Hg Hst Hroom. destruct (Inv_active s id Hs Ha) as (g0 & f & Hg0 & Hf & _ & _ & Hgeo & _ & Hde).
  assert (g0 = g) as -> by congruence. destruct (params_bounds Hp) as [? _]. destruct Hgeo as [_ [_ Hsz]].
  pose proof (len_nonneg (r_Data r)). pose proof (len_nonneg staging). destruct (recordSpan_spec (len (r_Data r))); [lia|].
  pose proof (tableLen_nonneg (len (s_entries g) + (len pending + 1))).
  unfold stageRec, activeDataEnd. apply wp_bind. eapply activeSeg_run; [done..|]. apply wp_ret.
  rewrite (u32_small (len staging)) by lia.
  rewrite (u32_small (len (r_Data r))) by lia.
  rewrite (u32_small (s_dataEnd g + len staging)) by lia.
  rewrite appendRecord_layout by apply Hr. apply wp_lift, wp_ret. split; [done|]. right. exists id, g. cbn.
  split_and!; [done|done|by apply staged_snoc|]. rewrite !len_app, record_len by done. change (len [_]) with 1. lia.
Qed.

(** Room for one record in a fresh segment. *)
Lemma fresh_room s id l :
  active s = Some id -> segs s !! id = Some newSegment -> 0 <= l <= maxBlob ->
  s_dataEnd newSegment + len (@nil Init.Byte.byte) + recordSpan l + tableLen (len (s_entries newSegment) + (len (@nil pendingRec) + 1)) + 4096
    <= s_size newSegment.
Proof using Hp.
  intros _ _ Hl. destruct (params_bounds Hp) as (? & _ & ?). pose proof (recordSpan_mono l maxBlob).
  change (s_entries newSegment) with (@nil footerEntry). rewrite (@len_nil Init.Byte.byte), (@len_nil footerEntry), (@len_nil pendingRec).
  change (tableLen (0 + (0 + 1))) with 4096.
  change (s_dataEnd newSegment) with 0. change (s_size newSegment) with (SegmentBytes p). lia.
Qed.

Definition writer_post (s : Volume) (fuel : nat) : unit -> Volume -> Prop :=
  fun _ s' => Inv s' /\ nextID s <= nextID s' <= nextID s + Z.of_nat fuel.

Lemma stage_drain_ok fuel :
  (forall s r, Inv s -> req_ok r -> nextID s + Z.of_nat fuel < 2 ^ 32 -> (2 * length (reqs s) + 2 <= fuel)%nat ->
     wp (stage p fuel r [] []) s (writer_post s fuel) Inv) /\
  (forall s staging pending, Inv s -> ready s staging pending -> nextID s + Z.of_nat fuel < 2 ^ 32 ->
     (2 * length (reqs s) + 1 <= fuel)%nat -> wp (drain p fuel staging pending) s (writer_post s fuel) Inv).
Proof using Hp.
  induction fuel as [|fuel [IHs IHd]]; [split; intros; lia|]. destruct (params_bounds Hp) as [? _]. split.
  - intros s r Hs Hr Hn Hfuel. cbn [stage]. case_if; bool_props.
    { unfold onWritten. apply wp_modify_end. split; [by apply onWritten_none|cbn; lia]. }
    pose proof (len_nonneg (r_Data r)).
    rewrite (u32_small (len (r_Data r))) by lia.
    assert (forall s1, Inv s1 -> reqs s1 = reqs s -> nextID s <= nextID s1 <= nextID s + 1 ->
      (exists id g, active s1 = Some id /\ segs s1 !! id = Some g /\ s_dataEnd g + len (@nil Init.Byte.byte) +
         recordSpan (len (r_Data r)) + tableLen (len (s_entries g) + (len (@nil pendingRec) + 1)) + 4096 <= s_size g) ->
      wp (if stagingCap p <? len (@nil Init.Byte.byte) + recordSpan (len (r_Data r)) then
            ok ← flush p [] []; if negb ok then onWritten r None else stage p fuel r [] []
          else st ← stageRec r [] []; drain p fuel (fst st) (snd st)) s1 (writer_post s (S fuel)) Inv) as Hgo.
    { intros s1 Hs1 Hr1 Hn1 (id & g & Ha & Hg & Hroom). pose proof (recordSpan_mono (len (r_Data r)) maxBlob).
      replace (stagingCap p <? _) with false
        by (symmetry; apply Z.ltb_ge; unfold stagingCap; rewrite len_nil; case_if; bool_props; lia).
      apply wp_bind. eapply wp_mono; [by eapply (stageRec_ok s1 [] [] r id g)|..|done].
      intros st s2 [-> Hrd]. eapply wp_mono; [apply IHd; [done..|lia|rewrite Hr1; lia]|..|done].
      intros [] s3 [? ?]. split; [done|lia]. }
    apply wp_bind.
    eapply wp_mono; [apply (fits_room s [] [] _ Hs); by left|..|done]. intros b s1 [-> Hfit]. apply wp_bind.
    destruct b; cbn [negb].
    + apply wp_ret. destruct (Hfit eq_refl) as (id & g & Ha & Hg & _ & Hroom). apply Hgo; [done..|lia|eauto].
    + apply wp_bind. cbn [flush]. apply wp_ret. cbn [negb]. apply wp_bind.
      eapply wp_mono; [by apply rotate_ok; [|lia]|..|done]. intros ok s2 (Hs2 & Hr2 & Hn2 & Hok). apply wp_ret.
      destruct ok.
      * destruct (Hok eq_refl) as (id & Ha & Hg). apply Hgo; [done..|]. exists id, newSegment.
        split_and!; [done..|]. by eapply fresh_room.
      * unfold onWritten. apply wp_modify_end. split; [by apply onWritten_none|cbn; lia].
  - intros s staging pending Hs Hrd Hn Hfuel. cbn [drain].
    assert (forall s0, wp (flush p staging pending;; mret tt) s0 (fun _ s' => Inv s' /\ keeps s0 s') Inv ->
      nextID s0 = nextID s -> wp (flush p staging pending;; mret tt) s0 (writer_post s (S fuel)) Inv) as Hend.
    { intros s0 H0' Hn0. eapply wp_mono; [exact H0'|..|done]. intros [] s' [? [? ?]]. split; [done|lia]. }
    assert (wp (flush p staging pending;; mret tt) s (fun _ s' => Inv s' /\ keeps s s') Inv) as Hfl.
    { apply wp_bind. eapply wp_mono; [by apply flush_ok|..|done]. by intros. }
    case_if; [by apply Hend|]. apply wp_bind. unfold receive at 1, wp at 1.
    destruct (reqs s) as [|r rs] eqn:Hq; [by apply Hend|].
    destruct (Inv_pop s r rs Hs Hq) as [Hr Hs1]. set (s1 := set_reqs rs s) in *.
    assert (ready s1 staging pending) as Hrd1 by done. assert (nextID s1 = nextID s) as Hn1 by done.
    assert (reqs s1 = rs) as Hq1 by done. clearbody s1. cbn [length] in Hfuel.
    case_if; bool_props.
    { apply wp_bind. unfold onWritten at 1. apply wp_modify_end.
      eapply wp_mono; [apply IHd; [by apply onWritten_none|done|cbn; lia|cbn; rewrite Hq1; lia]|..|done].
      intros [] s' [? ?]. split; [done|cbn in *; lia]. }
    pose proof (len_nonneg (r_Data r)).
    rewrite (u32_small (len (r_Data r))) by lia.
    apply wp_bind. eapply (wp_mono _ _ (fun b s' => s' = s1 /\ (b = true -> exists id g, active s1 = Some id /\
      segs s1 !! id = Some g /\ staged staging (s_dataEnd g) pending /\ s_dataEnd g + len staging +
      recordSpan (len (r_Data r)) + tableLen (len (s_entries g) + (len pending + 1)) + 4096 <= s_size g))); [|..|done].
    { case_if; [by apply wp_ret|]. by apply fits_room. }
    intros b s2 [-> Hfit]. destruct b; cbn [negb].
    + destruct (Hfit eq_refl) as (id & g & Ha & Hg & Hst & Hroom). apply wp_bind.
      eapply wp_mono; [by eapply (stageRec_ok s1 staging pending r id g)|..|done]. intros st s2 [-> Hrd2].
      eapply wp_mono; [apply IHd; [done..|lia|rewrite Hq1; lia]|..|done]. intros [] s3 [? ?]. split; [done|lia].
    + apply wp_bind. eapply wp_mono; [by apply flush_ok|..|done]. intros ok s2 (Hs2 & Hn2 & Hq2).
      destruct ok; cbn [negb].
      * eapply wp_mono; [apply IHs; [done..|lia|rewrite Hq2, Hq1; lia]|..|done]. intros [] s3 [? ?]. split; [done|lia].
      * apply wp_bind. unfold onWritten at 1. apply wp_modify_end.
        eapply wp_mono; [apply IHd; [by apply onWritten_none|by left|cbn; lia|cbn; rewrite Hq2, Hq1; lia]|..|done].
        intros [] s3 [? ?]. split; [done|cbn in *; lia].
Qed.

Lemma writerTurn_ok s :
  Inv s -> nextID s + 3 * len (reqs s) + 4 < 2 ^ 32 ->
  wp (writerTurn p) s (fun _ s' => Inv s' /\ nextID s <= nextID s') Inv.
Proof using Hp.
  intros Hs Hn. unfold writerTurn. apply wp_bind. unfold receive, wp at 1.
  destruct (reqs s) as [|r rs] eqn:Hq; [apply wp_ret; split; [done|lia]|].
  destruct (Inv_pop s r rs Hs Hq) as [Hr Hs1]. apply wp_gets. cbn [reqs set_reqs].
  rewrite len_cons in Hn. destruct (stage_drain_ok (3 * length rs + 4)) as [Hst _].
  eapply wp_mono; [apply Hst; [done|done|unfold len in *; cbn; lia|cbn; lia]|..|done].
  intros [] s' [? ?]. split; [done|cbn in *; lia].
Qed.

Lemma finalSync_ok s : Inv s -> wp finalSync s (fun _ s' => Inv s' /\ only_files s s') Inv.
Proof.
  intros Hs. unfold finalSync. apply wp_gets. case_if; [by split; [|apply only_files_refl]|].
  destruct (active s) as [id|] eqn:Ha.
  - destruct (Inv_active s id Hs Ha) as (g & f & Hg & _). eapply activeSeg_run; [done..|].
    apply wp_bind, wp_sync; [|intros e|]; try (split; [|apply only_files_tick]); try by apply Inv_tick.
    split; [apply (Inv_synced (ticked s)); [by apply Inv_tick|done]|apply only_files_synced].
  - eapply activeSeg_none; [done|]. by split; [|apply only_files_refl].
Qed.

(** ** The calls of other goroutines *)

(** Flags and counters of a segment do not matter here. *)
Lemma Inv_meta s id g g' :
  Inv s -> segs s !! id = Some g ->
  (s_size g', s_sealed g', s_dataEnd g', s_entries g') = (s_size g, s_sealed g, s_dataEnd g, s_entries g) ->
  (s_sealed g = false -> s_dying g' = false) -> Inv (set_segs (<[id := g']> (segs s)) s).
Proof.
  intros Hs Hg [= E1 E2 E3 E4] Hd. pose proof Hs as [I1 Istr I2 I3 I4 I5 I6 I7 I8 I9].
  constructor; cbn; try assumption.
  - intros id' f0 Hf0 Hn. apply lookup_insert_None in Hn as [Hn _]. eauto.
  - intros id' g0 Hg0. apply lookup_insert_Some in Hg0 as [[<- <-]|[? Hg0]]; [|by apply I3].
    destruct (I3 id g Hg) as (f & Hf & Hl & Hgeo & Hk). exists f. rewrite E1, E2, E4. do 3 (split; [done|]).
    destruct (s_sealed g); [done|]. destruct Hk as [Ha [O1 O2 O3 O4 O5]]. split; [done|].
    constructor; rewrite ?E1, ?E3, ?E4; try done. by apply Hd.
  - intros id' Ha. destruct (I4 id' Ha) as (g0 & Hg0 & Hs0 & Hmax).
    assert (forall i x, <[id := g']> (segs s) !! i = Some x -> i <= id') as Hle.
    { intros i x Hx. apply lookup_insert_Some in Hx as [[<- _]|[_ Hx]]; eauto. }
    destruct (decide (id = id')) as [->|].
    + exists g'. rewrite lookup_insert_eq. split_and!; [done|congruence|done].
    + exists g0. rewrite lookup_insert_ne by done. done.
  - intros r loc Hr. destruct (I9 r loc Hr) as (? & ? & ? & ? & Hat). do 4 (split; [done|]). cbn. intros g1 f1 Hg1 Hf1.
    apply lookup_insert_Some in Hg1 as [[E <-]|[? Hg1]]; [|by apply Hat]. rewrite <- E in *. rewrite E3, E4. by apply (Hat g).
Qed.

Lemma Inv_alter s id (h : segment -> segment) :
  Inv s ->
  (forall g, (s_size (h g), s_sealed (h g), s_dataEnd (h g), s_entries (h g)) =
             (s_size g, s_sealed g, s_dataEnd g, s_entries g)) ->
  (forall g, s_dying g = false -> s_dying (h g) = false) -> Inv (set_segs (alter h id (segs s)) s).
Proof.
  intros Hs Hm Hd. destruct (segs s !! id) as [g|] eqn:Hg.
  - rewrite (alter_some _ _ _ g) by done. apply (Inv_meta s id g); [done..|]. intros Hsl. apply Hd.
    destruct (iv_segs s Hs id g Hg) as (f & _ & _ & _ & Hk). rewrite Hsl in Hk. apply (ol_dying _ _ (proj2 Hk)).
  - replace (alter h id (segs s)) with (segs s); [core_inv|]. symmetry.
    apply map_eq. intros i. destruct (decide (i = id)) as [->|]; [by rewrite lookup_alter_eq, Hg|by rewrite lookup_alter_ne].
Qed.

(** Forgetting a sealed segment, and unlinking a file no segment uses. *)
Lemma Inv_forget s id g : Inv s -> segs s !! id = Some g -> s_sealed g = true -> Inv (set_segs (delete id (segs s)) s).
Proof.
  intros Hs Hg Hsl. pose proof Hs as [I1 Istr I2 I3 I4 I5 I6 I7 I8 I9]. constructor; cbn; try assumption.
  - intros id' f' Hf' Hn. apply lookup_delete_None in Hn as [<-|Hn]; [|by apply Istr]. right.
    destruct (I3 id g Hg) as (f0 & Hf0 & _ & _ & Hk). rewrite Hsl in Hk. exists (s_entries g). congruence.
  - intros id' g' Hg'. apply lookup_delete_Some in Hg' as [_ Hg']. by apply I3.
  - intros id' Ha. destruct (I4 id' Ha) as (g0 & Hg0 & Hs0 & Hmax). exists g0.
    rewrite lookup_delete_ne by congruence. split_and!; [done..|]. intros i x Hx.
    apply lookup_delete_Some in Hx as [_ Hx]. eauto.
  - intros r loc Hr. destruct (I9 r loc Hr) as (? & ? & ? & ? & Hat). do 4 (split; [done|]). cbn. intros g1 f1 Hg1 Hf1.
    apply lookup_delete_Some in Hg1 as [_ Hg1]. by apply Hat.
Qed.

Lemma trusts_delete fs id es ms : trusts fs es ms -> trusts (delete id fs) es ms.
Proof. intros Ht i f Hf. apply lookup_delete_Some in Hf as [_ Hf]. by apply Ht. Qed.

Lemma Inv_unlinked s id : Inv s -> segs s !! id = None -> Inv (set_files (delete id (files s)) s).
Proof.
  intros Hs Hg. pose proof Hs as [I1 Istr I2 I3 I4 I5 I6 I7 I8 I9]. constructor; cbn; try assumption.
  - intros i f Hf. apply lookup_delete_Some in Hf as [_ Hf]. eauto.
  - intros i f Hf Hn. apply lookup_delete_Some in Hf as [_ Hf]. eauto.
  - intros id' g' Hg'. destruct (I3 id' g' Hg') as (f & Hf & Hk). exists f. cbn. split; [|done].
    rewrite lookup_delete_ne by congruence. done.
  - intros q buf Hq. destruct (I5 q buf Hq) as [? Hpq]. split; [done|]. intros Hle.
    destruct (Hpq Hle) as (es & ms & ? & ? & ?). exists es, ms. split_and!; [done|by apply trusts_delete|done].
  - intros sn Hsn. destruct (I7 sn Hsn) as (? & ? & ? & ? & ?). split_and!; [done|by apply trusts_delete|done..].
  - intros r loc Hr. destruct (I9 r loc Hr) as (? & ? & ? & ? & Hat). do 4 (split; [done|]). cbn. intros g1 f1 Hg1 Hf1.
    apply lookup_delete_Some in Hf1 as [_ Hf1]. by apply (Hat g1).
Qed.

Definition inv_post {A} (s : Volume) : A -> Volume -> Prop := fun _ s' => Inv s' /\ nextID s <= nextID s'.

Lemma RetireBegin_ok s id : Inv s -> wp (RetireBegin id) s (inv_post s) Inv.
Proof.
  intros Hs. unfold RetireBegin. apply wp_gets. destruct (segs s !! id) as [g|] eqn:Hg; [|by split; [|lia]].
  case_if; [by split; [|lia]|]. do 2 bool_props. apply wp_modify, wp_ret. split; [|cbn; lia].
  apply (Inv_meta s id g); try done. intros. congruence.
Qed.

Lemma RetireAbort_ok s id : Inv s -> wp (RetireAbort id) s (inv_post s) Inv.
Proof.
  intros Hs. unfold RetireAbort. apply wp_modify_end. split; [|cbn; lia]. by apply Inv_alter.
Qed.

Lemma RetireFinish_ok s id : Inv s -> wp (RetireFinish id) s (inv_post s) Inv.
Proof.
  intros Hs. unfold RetireFinish. apply wp_gets. destruct (segs s !! id) as [g|] eqn:Hg; [|by split; [|lia]].
  case_if; [by split; [|lia]|]. bool_props.
  assert (s_sealed g = true) as Hsl.
  { destruct (iv_segs s Hs id g Hg) as (f & _ & _ & _ & Hk). destruct (s_sealed g); [done|].
    destruct Hk as [_ Hk]. rewrite (ol_dying f g Hk) in Hif. done. }
  apply wp_modify. pose proof (Inv_forget s id g Hs Hg Hsl) as Hs1. set (s1 := set_segs _ s) in *.
  assert (segs s1 !! id = None) as Hg1 by (cbn; apply lookup_delete_eq). assert (nextID s1 = nextID s) as Hn1 by done.
  clearbody s1. apply wp_bind. unfold Remove. apply wp_bind, wp_io; [by apply Inv_tick|].
  assert (forall s2 : Volume, Inv s2 -> nextID s2 = nextID s ->
    wp (modify (fun s => set_used (used s - s_size g) s);;
        modify (bump (fun '(a, b, c, d, r) => (a, b, c, d, r + 1)));; clearReadOnly;; SyncDir;; mret true) s2
      (inv_post s) Inv) as Hend.
  { intros s2 Hs2 Hn2. do 2 apply wp_modify. unfold clearReadOnly. apply wp_modify, wp_bind. unfold SyncDir.
    apply wp_io; [core_inv|]. intros e. apply wp_ret. split; [core_inv|cbn; lia]. }
  intros [e|]; [apply wp_ret, Hend; [by apply Inv_tick|done]|].
  apply wp_modify, wp_ret, Hend; [|done]. by apply Inv_unlinked; [apply Inv_tick|].
Qed.

Lemma MarkSpilled_ok s id : Inv s -> wp (MarkSpilled id) s (inv_post s) Inv.
Proof.
  intros Hs. unfold MarkSpilled. apply wp_modify_end. split; [|cbn; lia].
  destruct (segs s !! id) as [g|] eqn:Hg.
  - rewrite (alter_some _ _ _ g) by done. apply (Inv_meta s id g); [done..|]. cbn. intros Hsl.
    destruct (iv_segs s Hs id g Hg) as (f & _ & _ & _ & Hk). rewrite Hsl in Hk. by destruct Hk as [_ []].
  - replace (alter with_spilled id (segs s)) with (segs s); [core_inv|]. symmetry.
    apply map_eq. intros i. destruct (decide (i = id)) as [->|]; [by rewrite lookup_alter_eq, Hg|by rewrite lookup_alter_ne].
Qed.

Lemma Append_ok s r : Inv s -> req_ok r -> wp (Append r) s (inv_post s) Inv.
Proof.
  intros Hs Hr. unfold Append. apply wp_gets. destruct (closed s); [by split; [|lia]|]. apply wp_gets.
  destruct (readOnly s); [by split; [|lia]|]. apply wp_gets. case_if; [by split; [|lia]|]. apply wp_modify, wp_ret.
  split; [|cbn; lia]. destruct Hs. constructor; cbn; try assumption. apply Forall_app. split; [done|by constructor].
Qed.

Lemma TryRecoverWrites_ok s :
  Inv s -> nextID s + 1 < 2 ^ 32 -> wp (TryRecoverWrites p) s (inv_post s) Inv.
Proof using Hp.
  intros Hs Hn. unfold TryRecoverWrites. apply wp_gets. destruct (closed s); [by split; [|lia]|]. do 2 apply wp_gets.
  destruct (active s) eqn:Ha; [by split; [|lia]|]. destruct (readOnly s); cbn [negb]; [|by split; [|lia]].
  apply wp_bind. eapply wp_mono; [by apply openActive_ok|..|done]. intros [e|] s1 (Hs1 & _ & Hn1 & _).
  - apply wp_ret. split; [done|lia].
  - unfold clearReadOnly. apply wp_modify_end. split; [core_inv|cbn; lia].
Qed.

(** ** Reads *)

Lemma wp_readAt id off n s (Q : option bytes -> Volume -> Prop) (C : Volume -> Prop) :
  C (ticked s) -> Q None (ticked s) ->
  (forall f, files s !! id = Some f -> Q (slice (content f) off (off + n)) (ticked s)) ->
  wp (ReadAt id off n) s Q C.
Proof.
  intros H1 H2 H3. unfold ReadAt. apply wp_bind, wp_io; [done|]. intros [e|]; [done|]. apply wp_gets, wp_ret.
  change (files (ticked s)) with (files s). destruct (files s !! id) as [f|] eqn:Hf; [exact (H3 f eq_refl)|exact H2].
Qed.

(** ** Checkpoints *)

(** What the loop of [writeCheckpointAt] has collected. *)
Definition live_sealed (g : Z * segment) : Prop := s_sealed g.2 = true /\ s_dying g.2 = false.

Lemma ckptVisit_fold l : forall acc,
  let r := foldl ckptVisit acc l in
  ca_sealed r = ca_sealed acc ++ filter live_sealed l /\
  (ca_have r = true -> ca_have acc = true /\ ca_max r = ca_max acc \/ exists g, (ca_max r, g) ∈ l /\ s_sealed g = true) /\
  (ca_have acc = true -> ca_max acc <= ca_max r) /\
  (forall d, ca_dying r = Some d -> ca_dying acc = Some d \/ exists g, (d, g) ∈ l).
Proof.
  induction l as [|[id g] l IH]; intros acc; cbn [foldl].
  - rewrite app_nil_r. split_and!; auto. lia.
  - destruct (IH (ckptVisit acc (id, g))) as (H1 & H2 & H3 & H4). rewrite filter_cons.
    set (r := foldl ckptVisit _ l) in *. clearbody r. unfold ckptVisit in *.
    destruct (s_sealed g) eqn:Hsl; cbn [negb] in *.
    + destruct (s_dying g) eqn:Hd; cbn [ca_sealed ca_have ca_max ca_dying] in *.
      * rewrite decide_False by (unfold live_sealed; cbn; intros [? ?]; congruence). split_and!; [done| |done|].
        -- intros Hh. destruct (H2 Hh) as [?|(g0 & ? & ?)]; [by left|]. right. exists g0. split; [by constructor|done].
        -- intros d Hdr. destruct (H4 d Hdr) as [Hdd|(g0 & ?)]; [|right; exists g0; by constructor].
           destruct (match ca_dying acc with Some d => id <? d | None => true end); [|by left].
           injection Hdd as <-. right. exists g. constructor.
      * rewrite decide_True by done. split_and!.
        -- by rewrite H1, <- app_assoc.
        -- intros Hh. destruct (H2 Hh) as [[_ Hm]|(g0 & ? & ?)]; [|right; exists g0; split; [by constructor|done]].
           destruct (negb (ca_have acc) || (ca_max acc <? id)) eqn:Hb.
           ++ right. exists g. rewrite Hm. split; [constructor|done].
           ++ left. apply orb_false_iff in Hb as [Hb _]. apply negb_false_iff in Hb. done.
        -- intros Hh. specialize (H3 eq_refl). rewrite Hh in H3. cbn [negb orb] in H3.
           destruct (ca_max acc <? id) eqn:Hb; [apply Z.ltb_lt in Hb|]; lia.
        -- intros d Hdr. destruct (H4 d Hdr) as [?|(g0 & ?)]; [by left|right; exists g0; by constructor].
    + rewrite decide_False by (unfold live_sealed; cbn; intros [? ?]; congruence). split_and!; [done| |done|].
      * intros Hh. destruct (H2 Hh) as [?|(g0 & ? & ?)]; [by left|]. right. exists g0. split; [by constructor|done].
      * intros d Hdr. destruct (H4 d Hdr) as [?|(g0 & ?)]; [by left|right; exists g0; by constructor].
Qed.

(** Grouping the entries of a checkpoint by segment gives each segment's table
    back. *)
Lemma ckBySeg_app a b id : ckBySeg (a ++ b) id = ckBySeg a id ++ ckBySeg b id.
Proof. unfold ckBySeg. by rewrite filter_app, fmap_app. Qed.

Lemma ckBySeg_one g id : ckBySeg (ckptEntriesOf g) id = if decide (g.1 = id) then s_entries g.2 else [].
Proof.
  unfold ckBySeg, ckptEntriesOf. destruct g as [i g]. cbn [fst snd]. induction (s_entries g) as [|e es IH].
  - by case_decide.
  - rewrite fmap_cons, filter_cons. cbn [c_SegID]. case_decide; [|done]. rewrite fmap_cons, IH. by destruct e.
Qed.

Lemma ckBySeg_tables (l : list (Z * segment)) id :
  NoDup l.*1 -> ckBySeg (l ≫= ckptEntriesOf) id <> [] ->
  exists g, (id, g) ∈ l /\ ckBySeg (l ≫= ckptEntriesOf) id = s_entries g.
Proof.
  induction l as [|[i g] l IH]; cbn [fmap list_fmap]; [done|]. intros Hnd. apply NoDup_cons in Hnd as [Hni Hnd].
  rewrite bind_cons, ckBySeg_app, ckBySeg_one. cbn [fst snd]. case_decide as Hi.
  - subst i. intros _. exists g. split; [constructor|].
    destruct (ckBySeg (l ≫= ckptEntriesOf) id) as [|x xs] eqn:Hx; [by rewrite app_nil_r|].
    destruct IH as (g0 & Hg0 & _); [done|congruence|]. exfalso. apply Hni, list_elem_of_fmap. by exists (id, g0).
  - cbn [app]. intros Hne. destruct (IH Hnd Hne) as (g0 & ? & ?). exists g0. split; [by constructor|done].
Qed.

(** The segments in the order of the map. *)
Definition allSegs (s : Volume) : list (Z * segment) :=
  omap (fun id => pair id <$> segs s !! id) (segOrder (elements (dom (segs s)))).

Lemma allSegs_elem s id g : (id, g) ∈ allSegs s -> segs s !! id = Some g.
Proof.
  unfold allSegs. rewrite list_elem_of_omap. intros (i & _ & Hi). destruct (segs s !! i) as [g0|] eqn:Hg; [|done].
  cbn in Hi. by injection Hi as <- <-.
Qed.

Lemma omap_keys (m : gmap Z segment) (l : list Z) : NoDup l -> NoDup (omap (fun id => pair id <$> m !! id) l).*1.
Proof.
  induction 1 as [|i l Hi Hl IH]; [constructor|]. cbn. destruct (m !! i) as [g|]; cbn; [|done].
  constructor; [|done]. intros Hin. apply Hi. apply list_elem_of_fmap in Hin as ([j x] & -> & Hj).
  apply list_elem_of_omap in Hj as (k & Hk & Hjk). destruct (m !! k); [|done]. cbn in Hjk. by injection Hjk as <- _.
Qed.

Lemma allSegs_nodup s : NoDup (allSegs s).*1.
Proof. apply omap_keys. rewrite segOrder_perm. apply NoDup_elements. Qed.

Lemma fmap_sublist {A B} (h : A -> B) l k : l `sublist_of` k -> (h <$> l) `sublist_of` (h <$> k).
Proof. induction 1; cbn; by constructor. Qed.

(** A snapshot is believed only where it is true. *)
Lemma snapshot_ok s ts sn :
  Inv s -> snapshotCkpt ts s = Some sn -> 28 + len (sn_entries sn) * 56 <= ckptMaxBytes -> snap_ok s sn.
Proof.
  intros Hs Hsn Hcap. unfold snapshotCkpt in Hsn. fold (allSegs s) in Hsn.
  destruct (ckptVisit_fold (allSegs s) (mkCkptAcc [] false 0 None)) as (H1 & H2 & _ & H4).
  set (acc := foldl ckptVisit _ _) in *. cbn [ca_sealed ca_have ca_max ca_dying app] in *. cbn zeta in Hsn.
  destruct (match ca_dying acc with Some d => _ | None => _ end) as [ms|] eqn:Hms; [|done].
  cbn [mbind option_bind] in Hsn. destruct (ca_have acc) eqn:Hhave; [|done]. cbn [negb] in Hsn. injection Hsn as <-.
  destruct (H2 eq_refl) as [[? _]|(g & Hin & Hsl)]; [done|]. apply allSegs_elem in Hin.
  destruct (Inv_free s Hs) as [_ Hlt]. pose proof (Hlt _ _ Hin) as Hmax.
  destruct (iv_segs s Hs _ _ Hin) as (f0 & Hf0 & _). destruct (iv_files s Hs _ _ Hf0) as [Hge _].
  assert (0 <= ms <= ca_max acc) as Hmsb.
  { destruct (ca_dying acc) as [d|] eqn:Hd; [|injection Hms as <-; lia].
    destruct (H4 d eq_refl) as [?|(gd & Hgd)]; [done|]. apply allSegs_elem in Hgd.
    destruct (iv_segs s Hs _ _ Hgd) as (fd & Hfd & _). destruct (iv_files s Hs _ _ Hfd) as [Hged _].
    destruct (d <=? ca_max acc) eqn:Hb; [|injection Hms as <-; lia]. apply Z.leb_le in Hb.
    destruct (d =? 0) eqn:Hz; [done|]. apply Z.eqb_neq in Hz. injection Hms as <-. lia. }
  set (l := filter (fun g : Z * segment => g.1 <= ms) (ca_sealed acc)) in *. cbn [sn_entries] in Hcap.
  assert (forall i x, (i, x) ∈ l -> segs s !! i = Some x /\ s_sealed x = true) as Hl.
  { intros i x Hx. unfold l in Hx. rewrite H1 in Hx. apply list_elem_of_filter in Hx as [_ Hx].
    apply list_elem_of_filter in Hx as [[? _] Hx]. split; [by apply allSegs_elem|done]. }
  assert (NoDup l.*1) as Hnd.
  { unfold l. rewrite H1. eapply sublist_NoDup; [apply (allSegs_nodup s)|]. apply fmap_sublist.
    etrans; apply sublist_filter. }
  split; [done|]. cbn [sn_entries sn_max]. split; [|split; [split; [lia|]|split; [|done]]].
  - intros id f Hf Hle Hne. destruct (ckBySeg_tables l id Hnd Hne) as (x & Hx & ->). destruct (Hl _ _ Hx) as [Hsx Hslx].
    destruct (iv_segs s Hs id x Hsx) as (f' & Hf' & _ & _ & Hk). rewrite Hslx in Hk.
    assert (f' = f) as -> by congruence. done.
  - intros id Ha. destruct (iv_active s Hs id Ha) as (ga & Hga & Hsa & Hall). specialize (Hall _ _ Hin).
    assert (id <> ca_max acc) by congruence. lia.
  - apply Forall_forall. intros ce Hce. apply list_elem_of_bind in Hce as ([i x] & Hce & Hx).
    destruct (Hl _ _ Hx) as [Hsx Hslx]. unfold ckptEntriesOf in Hce. cbn in Hce.
    apply list_elem_of_fmap in Hce as (e & -> & He). destruct (iv_segs s Hs i x Hsx) as (f' & Hf' & _ & _ & Hk).
    rewrite Hslx in Hk. destruct Hk as (_ & _ & tr & Htr). destruct (sealOf_entries _ _ _ _ _ _ Htr He) as [[] _].
    pose proof (Inv_id s i f' Hs Hf'). by constructor.
Qed.

Lemma ckptBegin_ok s :
  Inv s -> (forall ts sn, snapshotCkpt ts s = Some sn -> 28 + len (sn_entries sn) * 56 <= ckptMaxBytes) ->
  wp ckptBegin s (inv_post s) Inv.
Proof.
  intros Hs Hcap. unfold ckptBegin. do 2 apply wp_gets.
  destruct (ckptJob s) as [ts|]; [|by split; [|lia]]. destruct (ckptSnap s) eqn:Hsn0; [by split; [|lia]|].
  apply wp_gets. destruct (snapshotCkpt ts s) as [sn|] eqn:Hsn.
  - apply wp_modify_end. split; [|cbn; lia]. pose proof (snapshot_ok s ts sn Hs Hsn (Hcap ts sn Hsn)) as Hok.
    destruct Hs. constructor; cbn; try assumption. by intros sn' [= <-].
  - unfold ckptDone. apply wp_bind, wp_modify_end, wp_modify_end. split; [core_inv|cbn; lia].
Qed.

Lemma Inv_install s sn :
  Inv s -> ckptSnap s = Some sn ->
  exists buf, encodeCkpt (sn_now sn) (sn_max sn) (sn_entries sn) = Some buf /\
    Inv (set_ckptFiles (<[sn_seq sn := buf]> (ckptFiles s)) s).
Proof.
  intros Hs Hsn. pose proof Hs as [I1 Istr I2 I3 I4 I5 I6 I7 I8 I9].
  destruct (I7 sn Hsn) as (Hseq & Htr & Hsp & Hfit & Hcap).
  assert (len (sn_entries sn) < 2 ^ 32) as Hl by (change ckptMaxBytes with 536870912 in Hcap; lia).
  rewrite encodeCkpt_layout by done. eexists. split; [done|]. constructor; cbn; try assumption.
  - intros q buf Hq. apply lookup_insert_Some in Hq as [[<- <-]|[_ Hq]]; [|by apply I5].
    split; [lia|]. intros _. exists (sn_entries sn), (sn_max sn). split; [|done].
    apply parse_ckpt_body; try done. destruct Hsp. unfold fits. lia.
  - intros _. right. rewrite <- Hseq, lookup_insert_eq. done.
Qed.

(** [s'] differs from [s] in its checkpoint files and its clock only. *)
Definition only_ckpts (s s' : Volume) : Prop := exists cf t, s' = set_tick t (set_ckptFiles cf s).

Lemma writeCkptFile_ok s sn :
  Inv s -> ckptSnap s = Some sn ->
  wp (writeCkptFile sn) s (fun e s' => Inv s' /\ only_ckpts s s' /\ (e = None -> is_Some (ckptFiles s' !! sn_seq sn))) Inv.
Proof.
  intros Hs Hsn. unfold writeCkptFile. destruct (Inv_install s sn Hs Hsn) as (buf & -> & Hinst). apply wp_lift.
  assert (forall t, Inv (set_tick t s)) as Ht by (intros; by apply Inv_tick).
  assert (forall t e, Inv (set_tick t s) /\ only_ckpts s (set_tick t s) /\
    (Some e = None :> option ioError -> is_Some (ckptFiles (set_tick t s) !! sn_seq sn))) as Hbad.
  { intros t e. split_and!; [done| |done]. exists (ckptFiles s), t. by destruct s. }
  do 4 (apply wp_bind, wp_io; [apply Ht|]; intros [e|]; [apply wp_ret, (Hbad _ e)|]).
  apply wp_bind. unfold Rename. unfold wp at 1, nextIo, mbind, M_bind, modify, stop. cbn [tick set_tick].
  destruct (io _) as [|n e|n]; cbn [mret M_ret]; [|apply wp_ret, (Hbad _ e)|].
  - unfold SyncDir. apply wp_io; [core_inv|]. intros e. split_and!; [core_inv|by eexists _, _|].
    intros _. cbn. by rewrite lookup_insert_eq.
  - case_if; cbn; [core_inv|apply Ht].
Qed.

Lemma Inv_prune s q : Inv s -> q <> ckptSeq s -> is_Some (ckptFiles s !! ckptSeq s) ->
  Inv (set_ckptFiles (delete q (ckptFiles s)) s).
Proof.
  intros Hs Hq Hc. pose proof Hs as [I1 Istr I2 I3 I4 I5 I6 I7 I8 I9]. constructor; cbn; try assumption.
  - intros q' buf Hq'. apply lookup_delete_Some in Hq' as [_ Hq']. by apply I5.
  - intros _. left. by rewrite lookup_delete_ne.
Qed.

Lemma pruneList_ok seqs : forall s,
  Inv s -> is_Some (ckptFiles s !! ckptSeq s) ->
  wp (pruneList seqs (ckptSeq s)) s (fun _ s' => Inv s' /\ only_ckpts s s') Inv.
Proof.
  induction seqs as [|q seqs IH]; intros s Hs Hc; cbn [pruneList].
  - apply wp_ret. split; [done|]. exists (ckptFiles s), (tick s). by destruct s.
  - apply wp_bind. eapply (wp_mono _ _ (fun _ s' => Inv s' /\ only_ckpts s s' /\ ckptSeq s' = ckptSeq s /\
      is_Some (ckptFiles s' !! ckptSeq s')) _ Inv); [| |done].
    + case_if; bool_props.
      { apply wp_ret. split_and!; [done| |done..]. exists (ckptFiles s), (tick s). by destruct s. }
      apply wp_bind, wp_io; [by apply Inv_tick|]. intros [e|].
      { apply wp_ret. split_and!; [by apply Inv_tick| |done..]. exists (ckptFiles s), (S (tick s)). by destruct s. }
      apply wp_modify_end. split_and!; [apply (Inv_prune (ticked s)); [by apply Inv_tick|cbn; lia|done]|by eexists _, _|done|].
      cbn. by rewrite lookup_delete_ne by lia.
    + intros [] s1 (Hs1 & (cf & t & E) & Hseq & Hc1). rewrite <- Hseq. eapply wp_mono; [by apply IH|..|done].
      intros [] s2 (? & cf' & t' & ->). split; [done|]. subst s1. by exists cf', t'.
Qed.

Lemma ckptDone_ok s0 s ok : Inv s -> nextID s0 <= nextID s -> wp (ckptDone ok) s (inv_post s0) Inv.
Proof.
  intros Hs Hn. unfold ckptDone. apply wp_bind. destruct ok; [apply wp_modify_end|apply wp_ret]; apply wp_modify_end;
    (split; [core_inv|cbn; lia]).
Qed.

Lemma ckptFinish_ok s : Inv s -> wp ckptFinish s (inv_post s) Inv.
Proof.
  intros Hs. unfold ckptFinish. apply wp_gets. destruct (ckptSnap s) as [sn|] eqn:Hsn; [|by split; [|lia]].
  destruct (iv_snap s Hs sn Hsn) as (Hseq & _).
  apply wp_bind. eapply wp_mono; [by apply writeCkptFile_ok|..|done]. intros e s1 (Hs1 & (cf & t & ->) & He).
  assert (Inv (set_ckptSnap None (set_tick t (set_ckptFiles cf s)))) as Hs2.
  { destruct Hs1. constructor; cbn in *; try assumption. done. }
  apply wp_modify. destruct e as [e|]; [apply ckptDone_ok; [done|cbn; lia]|]. specialize (He eq_refl). cbn in He.
  set (s2 := set_ckptSnap None _) in *. apply wp_modify.
  assert (Inv (set_ckptSeq (sn_seq sn) s2)) as Hs3.
  { pose proof Hs2 as [I1 Istr I2 I3 I4 I5 I6 I7 I8 I9]. constructor; cbn in *; try assumption; try done.
    - intros q buf Hq. destruct (I5 q buf Hq) as [Hle Hpq]. split; [lia|]. intros Hge. apply Hpq. lia.
    - intros _. by left. }
  set (s3 := set_ckptSeq (sn_seq sn) s2) in *. assert (ckptSeq s3 = sn_seq sn) as Hq3 by done.
  assert (is_Some (ckptFiles s3 !! ckptSeq s3)) as Hc3 by done. assert (nextID s3 = nextID s) as Hn3 by done.
  clearbody s3. clear s2 Hs2 Hs1. apply wp_bind. unfold pruneCkpts, listCkptSeqs. apply wp_bind.
  assert (forall seqs t, wp (pruneList seqs (sn_seq sn)) (set_tick t s3)
    (fun a s' => wp (ckptDone true) s' (inv_post s) Inv) Inv) as Hpr.
  { intros seqs t'. rewrite <- Hq3. eapply wp_mono;
      [apply (pruneList_ok seqs (set_tick t' s3)); [by apply Inv_tick|done]|..|done].
    intros [] s4 (Hs4 & cf' & t4 & ->). apply ckptDone_ok; [done|cbn; lia]. }
  apply wp_bind, wp_io; [by apply Inv_tick|]. intros [e|]; apply Hpr.
Qed.

End Inv.
End NvmeInv.
