(* ===== verification/NvmeRead.v ===== *)
(** Reading blocks back from an NVMe volume ([volume.go], [reader.go]): a read
    never hands out bytes other than the block it was asked for, on any disk
    whatsoever; a read of an acknowledged append, with a device that answers,
    returns that append's data; reads keep the volume's invariant. *)

From Stdlib Require Import ZArith Lia.
From coqutil Require Import Byte Word.LittleEndianList.
From stdpp Require Import base numbers list gmap sorting.
From S2P Require Import Prelude.
From S2P Require Import NvmeFormat.
From S2P Require Import NvmeVolume.
From S2P Require Import NvmeLog.
From S2P Require Import NvmeInv.
Import Seg SegFacts Ckpt CkptFacts Nvme NvmeLog NvmeInv.
Open Scope Z_scope.
Open Scope go_scope.

Module NvmeRead.
Section Read.
Context `{!Xxh3, !World} (p : VolumeParams) (Hp : params_ok p).

Abbreviation maxBlob := (MaxBlobLen p).
Abbreviation ticked s := (set_tick (S (tick s)) s).

(** Only the clock of the volume's calls has moved. *)
Definition ticks (s s' : Volume) : Prop := exists t, s' = set_tick t s.

Lemma ticks_refl s : ticks s s.
Proof. exists (tick s). by destruct s. Qed.

Lemma ticks_step s s' : ticks s s' -> ticks s (ticked s').
Proof. intros [t ->]. by eexists. Qed.

Hint Resolve ticks_refl ticks_step : core.

Lemma ticks_files s s' : ticks s s' -> files s' = files s.
Proof. by intros [t ->]. Qed.

(** A device that never reports an error; it may still lose power. *)
Definition reliable : Prop := forall n k e, io n <> IoErr k e.

Lemma wp_io_ok s (Q : option ioError -> Volume -> Prop) (C : Volume -> Prop) :
  reliable -> C (ticked s) -> Q None (ticked s) -> wp ioStep s Q C.
Proof.
  intros Hr HC HQ. unfold wp, ioStep, nextIo, mbind, M_bind, stop. destruct (io (tick s)) eqn:E; cbn; [done| |done].
  by destruct (Hr _ _ _ E).
Qed.

Lemma wp_readAt_ok id off n f s (Q : option bytes -> Volume -> Prop) (C : Volume -> Prop) :
  reliable -> files s !! id = Some f -> C (ticked s) -> Q (slice (content f) off (off + n)) (ticked s) ->
  wp (ReadAt id off n) s Q C.
Proof.
  intros Hr Hf HC HQ. unfold ReadAt. apply wp_bind, wp_io_ok; [done..|]. apply wp_gets, wp_ret.
  change (files (ticked s)) with (files s). by rewrite Hf.
Qed.

(** *** The buffer pool *)

Lemma pool_top : recordSpan maxBlob ∈ poolClasses p.
Proof using Hp.
  destruct (params_bounds p Hp) as (? & Hgeo & ?). destruct (recordSpan_spec maxBlob) as [? Hm]; [lia|].
  unfold poolClasses. apply elem_of_app. right. apply list_elem_of_singleton.
  rewrite (u32_small (recordSpan maxBlob)) by lia. destruct (roundUpAlign_spec (recordSpan maxBlob)) as [? Hr]; [lia|].
  rewrite u32_small; Z.div_mod_to_equations; lia.
Qed.

Lemma pool_find n : n <= recordSpan maxBlob -> exists i c, list_find (fun c => n <= c) (poolClasses p) = Some (i, c) /\ n <= c.
Proof using Hp.
  intros Hn. destruct (list_find_elem_of (fun c => n <= c) (poolClasses p) (recordSpan maxBlob)) as [[i c] Hf];
    [apply pool_top|done|]. exists i, c. split; [done|]. by apply list_find_Some in Hf as (_ & ? & _).
Qed.

Lemma poolGet_ok n s (Q : option Z -> Volume -> Prop) (C : Volume -> Prop) :
  n <= recordSpan maxBlob -> C (ticked s) -> Q None (ticked s) -> (forall c, n <= c -> Q (Some c) (ticked s)) ->
  wp (poolGet p n) s Q C.
Proof using Hp.
  intros Hn HC H1 H2. unfold poolGet. destruct (pool_find n Hn) as (i & c & -> & Hc).
  unfold mmapBuf. apply wp_bind, wp_bind, wp_io; [done|]. intros [e|]; apply wp_ret, wp_ret; auto.
Qed.

Lemma poolGet_some n s (Q : option Z -> Volume -> Prop) (C : Volume -> Prop) :
  reliable -> n <= recordSpan maxBlob -> C (ticked s) -> (forall c, n <= c -> Q (Some c) (ticked s)) ->
  wp (poolGet p n) s Q C.
Proof using Hp.
  intros Hr Hn HC H2. unfold poolGet. destruct (pool_find n Hn) as (i & c & -> & Hc).
  unfold mmapBuf. apply wp_bind, wp_bind, wp_io_ok; [done..|]. apply wp_ret, wp_ret; auto.
Qed.

Lemma cutBuf_ok {B} c span s (k : unit -> M B) Q C : span <= c -> wp (k tt) s Q C -> wp (cutBuf c span ≫= k) s Q C.
Proof. intros Hc Hk. unfold cutBuf. replace (span <=? c) with true by lia. by apply wp_lift. Qed.

Lemma span_fits n : 0 <= n <= maxBlob -> u32 (recordSpan n) = recordSpan n /\ 56 <= recordSpan n <= recordSpan maxBlob.
Proof using Hp.
  intros Hn. destruct (params_bounds p Hp) as (? & _ & ?). destruct (recordSpan_spec n) as [? _]; [lia|].
  pose proof (recordSpan_mono n maxBlob). split; [apply u32_small|]; lia.
Qed.

(** *** One read *)

(** [x] is the record of block [(ns, key)] whose payload is [data]. *)
Definition block_at (f : file) (loc : Loc) (ns : Z) (key : bytes) (want : Z) (data : bytes) : Prop :=
  exists x, slice (content f) (Offset loc) (Offset loc + recordSpan (LenOf loc)) = Some x /\
    parseRecordHeader x maxBlob = Some (inr (mkRecordHeader ns key (LenOf loc) want)) /\
    slice x 56 (56 + LenOf loc) = Some data /\ xxh3 data = want.

Lemma readOne_ok loc ns key want s :
  0 <= LenOf loc <= maxBlob ->
  wp (readOne p loc ns key want) s
    (fun res s' => ticks s s' /\
       if decide (res.1 = ReadOK)
       then exists f, files s !! SegmentID loc = Some f /\ block_at f loc ns key want res.2
       else res.2 = []) (ticks s).
Proof using Hp.
  intros Hl. destruct (span_fits _ Hl) as [Hu Hsp]. unfold readOne. rewrite Hu.
  apply wp_bind, poolGet_ok; [lia|auto|apply wp_ret; by split; auto|]. intros c Hc.
  apply cutBuf_ok; [done|]. apply wp_bind, wp_readAt; [auto|apply wp_ret; by split; auto|].
  intros f Hf. change (files (ticked s)) with (files s) in Hf.
  destruct (slice _ _ _) as [x|] eqn:Hx; [|apply wp_ret; by split; auto].
  destruct (parse_header_some x maxBlob) as [[e|h] Hh]; rewrite Hh; apply wp_lift; [apply wp_ret; by split; auto|].
  case_if; [apply wp_ret; by split; auto|]. do 2 bool_props. destruct h as [hns hk hl hx]. cbn [h_NS h_Key h_Len h_XXH3] in *.
  subst. pose proof (slice_len _ _ _ _ Hx) as Hlx.
  destruct (recordSpan_spec (LenOf loc)) as [? _]; [destruct (params_bounds p Hp); lia|].
  destruct (slice_some x 56 (56 + LenOf loc)) as (pl & Hpl & _); [lia..|].
  unfold recordHdrSize. rewrite Hpl. apply wp_lift. case_if; apply wp_ret; (split; [by auto|]); [done|].
  exists f. split; [done|]. bool_props. by exists x.
Qed.

Lemma readOne_hit loc ns key want data f s :
  reliable -> 0 <= LenOf loc <= maxBlob -> files s !! SegmentID loc = Some f -> block_at f loc ns key want data ->
  wp (readOne p loc ns key want) s (fun res s' => ticks s s' /\ res = (ReadOK, data)) (ticks s).
Proof using Hp.
  intros Hr Hl Hf (x & Hx & Hh & Hd & Hsum). destruct (span_fits _ Hl) as [Hu Hsp]. unfold readOne. rewrite Hu.
  apply wp_bind, poolGet_some; [done|lia|auto|]. intros c Hc. apply cutBuf_ok; [done|].
  apply wp_bind. eapply wp_readAt_ok; [done|exact Hf|auto|]. rewrite Hx, Hh. apply wp_lift.
  cbn [h_NS h_Key h_Len h_XXH3]. rewrite !Z.eqb_refl, bool_decide_eq_true_2 by done. cbn [negb andb].
  unfold recordHdrSize. rewrite Hd. apply wp_lift. rewrite Hsum, Z.eqb_refl. apply wp_ret. split; auto.
Qed.

(** *** Read-holds *)

Lemma acquireRead_ok id s :
  Inv p s -> wp (acquireRead id) s (fun ok s' => Inv p s' /\ files s' = files s /\ closed s' = closed s /\
    nextID s' = nextID s) (Inv p).
Proof.
  intros Hs. unfold acquireRead. apply wp_gets. destruct (segs s !! id) as [g|] eqn:Hg; [|by apply wp_ret].
  destruct (s_dying g) eqn:Hd; [by apply wp_ret|]. apply wp_modify, wp_ret. split_and!; [|done..].
  by eapply (Inv_meta p s id g).
Qed.

Lemma releaseRead_ok id s :
  Inv p s -> wp (releaseRead id) s (fun _ s' => Inv p s' /\ nextID s' = nextID s) (Inv p).
Proof.
  intros Hs. unfold releaseRead. apply wp_modify_end. split; [|done]. by apply Inv_alter.
Qed.

(** *** [Read] *)

(** What a read leaves of the volume: with the block, one more hold on its
    segment; otherwise nothing. *)
Definition held (loc : Loc) (s s' : Volume) : Prop :=
  exists g, segs s !! SegmentID loc = Some g /\ s_dying g = false /\
    segs s' = <[SegmentID loc := with_reads (s_reads g + 1) g]> (segs s).

Definition read_post (loc : Loc) (ns : Z) (key : bytes) (want : Z) (s : Volume)
  (res : ReadStatus * bytes) (s' : Volume) : Prop :=
  (files s' = files s /\ nextID s' = nextID s) /\
  if decide (res.1 = ReadOK) then held loc s s' /\ exists f, files s !! SegmentID loc = Some f /\
    block_at f loc ns key want res.2
  else segs s' = segs s /\ res.2 = [].

Lemma with_reads_back g : with_reads (s_reads (with_reads (s_reads g + 1) g) - 1) (with_reads (s_reads g + 1) g) = g.
Proof. destruct g. unfold with_reads. cbn. f_equal. lia. Qed.

Lemma Read_run loc ns key want s (P : ReadStatus * bytes -> Prop) :
  0 <= LenOf loc <= maxBlob ->
  (forall s', files s' = files s -> wp (readOne p loc ns key want) s' (fun res s'' => ticks s' s'' /\
     (if decide (res.1 = ReadOK) then P res else res.2 = [])) (ticks s')) ->
  wp (Read p loc ns key want) s (fun res s' => (files s' = files s /\ nextID s' = nextID s) /\
    if decide (res.1 = ReadOK) then held loc s s' /\ P res else segs s' = segs s /\ res.2 = []) (fun _ => True).
Proof using Hp.
  intros Hl Hone. unfold Read. apply wp_gets. destruct (closed s); [by apply wp_ret|].
  apply wp_bind. unfold acquireRead. apply wp_gets.
  destruct (segs s !! SegmentID loc) as [g|] eqn:Hg; [|by do 2 apply wp_ret].
  destruct (s_dying g) eqn:Hd; [by do 2 apply wp_ret|]. apply wp_modify, wp_ret. cbn [negb].
  set (s1 := set_segs _ s). unfold readqSlot, releaseRead.
  assert (forall s', ticks s1 s' -> segs (set_segs (alter (fun g0 => with_reads (s_reads g0 - 1) g0) (SegmentID loc) (segs s')) s') = segs s) as Hback.
  { intros s' [t ->]. cbn. rewrite (alter_some _ _ _ _ (lookup_insert_eq _ _ _)), insert_insert_eq.
    rewrite with_reads_back. by apply insert_id. }
  apply wp_bind, wp_bind, wp_io; [done|]. intros [e|]; apply wp_ret; cbn [negb].
  { apply wp_modify, wp_ret. split; [done|]. cbn [decide fst snd]. split; [by apply Hback; eauto|done]. }
  apply wp_bind. eapply wp_mono; [by apply Hone|..|done]. intros res s2 [Ht HP].
  assert (ticks s1 s2) as Ht1 by (destruct Ht as [t ->]; by eexists).
  destruct (decide (res.1 = ReadOK)) as [Hok|Hok].
  - rewrite bool_decide_eq_true_2 by done. apply wp_bind, wp_ret, wp_ret.
    rewrite decide_True by done. destruct Ht1 as [t ->]. split; [done|]. split; [|done]. by exists g.
  - rewrite bool_decide_eq_false_2 by done. apply wp_bind, wp_modify_end, wp_ret.
    rewrite decide_False by done. split; [destruct Ht1 as [t ->]; done|]. split; [by apply Hback|done].
Qed.

Lemma Read_verifies loc ns key want s :
  0 <= LenOf loc <= maxBlob ->
  wp (Read p loc ns key want) s (read_post loc ns key want s) (fun _ => True).
Proof using Hp.
  intros Hl. eapply wp_mono; [apply (Read_run loc ns key want s (fun res =>
    exists f, files s !! SegmentID loc = Some f /\ block_at f loc ns key want res.2) Hl)|by intros res s' ?|done].
  intros s' <-. by apply readOne_ok.
Qed.

Lemma Read_ok loc ns key want s :
  Inv p s -> 0 <= LenOf loc <= maxBlob -> wp (Read p loc ns key want) s (inv_post p s) (Inv p).
Proof using Hp.
  intros Hs Hl. unfold Read, inv_post. apply wp_gets. destruct (closed s); [apply wp_ret; split; [done|lia]|].
  apply wp_bind. eapply wp_mono; [by apply acquireRead_ok|..|done]. intros ok s1 (Hs1 & _ & _ & Hn1).
  assert (forall s', ticks s1 s' -> Inv p s') as Ht by (intros s' [t ->]; by apply Inv_tick).
  destruct ok; cbn [negb]; [|apply wp_ret; split; [done|lia]]. unfold readqSlot.
  apply wp_bind, wp_bind, wp_io; [by apply Inv_tick|]. intros [e|]; apply wp_ret; cbn [negb].
  { apply wp_bind. eapply wp_mono; [by apply releaseRead_ok, Inv_tick|..|done]. intros _ s2 [? Hn2].
    apply wp_ret. split; [done|]. cbn in Hn2. lia. }
  apply wp_bind. eapply wp_mono; [by apply readOne_ok|..]; [|intros s' [t ->]; by do 2 apply Inv_tick].
  intros res s2 [[t ->] _]. apply wp_bind.
  assert (Inv p (set_tick t (ticked s1))) as Hs2 by (by do 2 apply Inv_tick).
  destruct (bool_decide _); [do 2 apply wp_ret; split; [done|cbn; lia]|].
  eapply wp_mono; [by apply releaseRead_ok|..|done]. intros _ s3 [? Hn3]. apply wp_ret. cbn in Hn3. split; [done|lia].
Qed.

(** *** Acknowledged appends *)

Lemma record_payload h data :
  header_fits h -> h_Len h = len data -> slice (record_bytes h data) 56 (56 + len data) = Some data.
Proof.
  intros Hf Hl. unfold record_bytes. rewrite slice_skip; rewrite len_record_header by apply Hf; [|lia].
  replace (56 - 56) with 0 by lia. replace (56 + len data - 56) with (len data) by lia. by apply slice_here.
Qed.

Lemma framed_block f r loc :
  LenOf loc = len (r_Data r) -> len (r_Data r) <= maxBlob -> req_ok r ->
  slice (content f) (Offset loc) (Offset loc + recordSpan (LenOf loc)) =
    Some (record_bytes (mkRecordHeader (r_NS r) (r_Key r) (len (r_Data r)) (r_XXH3 r)) (r_Data r)) ->
  0 <= LenOf loc <= maxBlob /\ block_at f loc (r_NS r) (r_Key r) (r_XXH3 r) (r_Data r).
Proof using Hp.
  intros Hl Hmax (Hns & Hk & Hx & _) Hs. destruct (params_bounds p Hp) as [? _]. pose proof (len_nonneg (r_Data r)).
  assert (fits 32 (len (r_Data r))) as Hfit by (unfold fits; lia). split; [lia|]. eexists. split; [exact Hs|].
  destruct (record_bytes_for maxBlob (r_NS r) (r_Key r) 0 (r_Data r) (r_XXH3 r)) as [_ _ _ Hp' _]; try done.
  split_and!; [by rewrite Hl| |by rewrite Hx]. rewrite Hl. apply record_payload; [|done].
  constructor; cbn; try done. rewrite Hx. apply xxh3_fits.
Qed.

Lemma Read_hit s loc ns key want data g f :
  reliable -> segs s !! SegmentID loc = Some g -> s_dying g = false -> closed s = false ->
  files s !! SegmentID loc = Some f -> 0 <= LenOf loc <= maxBlob -> block_at f loc ns key want data ->
  wp (Read p loc ns key want) s (fun res s' => res = (ReadOK, data) /\ held loc s s') (fun _ => True).
Proof using Hp.
  intros Hr Hg Hd Hc Hf Hl Hb. unfold Read. apply wp_gets. rewrite Hc. apply wp_bind. unfold acquireRead. apply wp_gets.
  rewrite Hg, Hd. apply wp_modify, wp_ret. cbn [negb]. unfold readqSlot. apply wp_bind, wp_bind, wp_io_ok; [done..|].
  apply wp_ret. cbn [negb]. apply wp_bind. eapply wp_mono; [by eapply readOne_hit|..|done].
  intros res s' [[t ->] ->]. rewrite bool_decide_eq_true_2 by done. apply wp_bind, wp_ret, wp_ret.
  split; [done|]. by exists g.
Qed.

Lemma Read_acked s r loc g :
  reliable -> Inv p s -> (r, Some loc) ∈ acks s -> segs s !! SegmentID loc = Some g -> s_dying g = false ->
  closed s = false ->
  wp (Read p loc (r_NS r) (r_Key r) (r_XXH3 r)) s
    (fun res s' => res = (ReadOK, r_Data r) /\ held loc s s') (fun _ => True).
Proof using Hp.
  intros Hr Hs Hack Hg Hd Hc. destruct (iv_segs p s Hs _ g Hg) as (f & Hf & _).
  destruct (iv_acks p s Hs r loc Hack) as (_ & Hl & Hmax & Hok & Hat). destruct (Hat g f Hg Hf) as (_ & _ & _ & Hsl).
  destruct (framed_block f r loc Hl Hmax Hok Hsl). by eapply Read_hit.
Qed.

End Read.
End NvmeRead.
