(* ===== verification/NvmeCrash.v ===== *)
(** What a power failure leaves of an NVMe volume.

    [durable] says which blocks are on disk in an open volume. [Disk] is what
    holds of the directory at every moment, running or recovering; [Down] what
    holds of it once the power is gone and every file has lost an arbitrary
    part of what was written since its last sync. *)

From Stdlib Require Import ZArith Lia.
From coqutil Require Import Byte Word.LittleEndianList.
From stdpp Require Import base numbers list gmap sorting.
From S2P Require Import Prelude.
From S2P Require Import NvmeFormat.
From S2P Require Import NvmeVolume.
From S2P Require Import NvmeLog.
From S2P Require Import NvmeInv.
Import Seg SegFacts Ckpt CkptFacts Nvme NvmeLog NvmeInv.
Open Scope Z_scope.
Open Scope go_scope.

Module NvmeCrash.
Section Crash.
Context `{!Xxh3} (p : VolumeParams).

Abbreviation maxBlob := (MaxBlobLen p).

(** The bytes of the record of [e] are [x], in a file. *)
Definition at_ (f : file) (e : footerEntry) (x : bytes) : Prop :=
  slice (content f) (e_Off e) (endOf e) = Some x.

(** A block that is on disk: listed by its segment, its record intact and below
    everything that was written since the last sync. *)
Definition durable (s : Volume) (id : Z) (e : footerEntry) (x : bytes) : Prop :=
  exists g f, segs s !! id = Some g /\ files s !! id = Some f /\ e ∈ s_entries g /\ endOf e <= lowmark f /\
    at_ f e x /\ record_for maxBlob e x.

Definition no_magic (es : list footerEntry) : Prop := Forall (fun e => e_NS e <> recordMagic) es.

(** *** The directory at any moment *)

(** A set of blocks of one file, by entry and record. *)
Abbreviation blocks_of := (footerEntry -> bytes -> Prop).

Definition all_in (D : blocks_of) (f : file) (es : list footerEntry) : Prop :=
  forall e x, D e x -> e ∈ es /\ at_ f e x.

Inductive kept (D : blocks_of) (id : Z) (f : file) : Prop :=
  | kept_blank : blank f -> (forall e x, ~ D e x) -> kept D id f
  | kept_sealed E : sealed_as p f id E -> all_in D f E -> kept D id f
  | kept_open b es r : geometry p (len (content f)) -> content f = b ++ r -> logged maxBlob b 0 es -> no_magic es ->
      (b = [] \/ len b <= lowmark f) -> len b + 4096 <= len (content f) -> all_in D f es -> kept D id f.

Record Disk (D : Z -> blocks_of) (N : Z) (fs : gmap Z file) (cks : gmap Z bytes) : Prop := mkDisk {
  dk_file : forall id f, fs !! id = Some f -> 0 <= id < N /\ len (content f) < 2 ^ 32 /\ kept (D id) id f;
  dk_have : forall id e x, D id e x -> is_Some (fs !! id) /\ record_for maxBlob e x;
  dk_ckpt : forall q buf, cks !! q = Some buf -> (forall q', is_Some (cks !! q') -> q' <= q) ->
              exists es ms, parseCkpt buf = Some (inr (es, ms)) /\ trusts p fs es ms /\ 0 <= ms < N
}.

Lemma at_prefix f f' b r r' e x es :
  content f = b ++ r -> content f' = b ++ r' -> logged maxBlob b 0 es -> e ∈ es -> at_ f e x -> at_ f' e x.
Proof.
  unfold at_. intros -> -> Hl He Hx. destruct (logged_elem maxBlob b 0 es e eq_refl Hl He) as (_ & Hend & _).
  rewrite slice_app_l in Hx by lia. by rewrite slice_app_l by lia.
Qed.

(** An open volume: its durable blocks are kept. *)
Lemma Inv_disk s : Inv p s -> Disk (durable s) (nextID s) (files s) (ckptFiles s).
Proof.
  intros Hs. pose proof Hs as [I1 Istr I2 I3 I4 I5 I6 I7 I8 I9]. constructor.
  - intros id f Hf. destruct (I1 id f Hf). do 2 (split; [done|]). destruct (segs s !! id) as [g|] eqn:Hg.
    + destruct (I3 id g Hg) as (f' & Hf' & Hl & Hgeo & Hk). simplify_eq. destruct (s_sealed g).
      * eapply kept_sealed; [done|]. intros e x (g' & f'' & ? & ? & ? & ? & ? & ?). by simplify_eq.
      * destruct Hk as [_ [Hsz (b & r & Hc & Hlog & Hb) Hroom Hns _]].
        destruct (logged_below maxBlob b 0 _ (lowmark f) eq_refl Hlog)
          as (es1 & es2 & b1 & b2 & Hes & -> & Hl1 & Hend & Hfil).
        rewrite Hes in Hns. apply Forall_app in Hns as [Hns _]. destruct (lowmark_le f) as [_ Hlow].
        assert (b1 = [] \/ len b1 <= lowmark f) as Hb1 by (destruct Hend as [->|?]; [by left|right; lia]).
        eapply (kept_open _ _ _ b1 es1 (b2 ++ r)); [by rewrite Hl|by rewrite app_assoc|done|done|done| |].
        -- rewrite len_app in Hb. pose proof (len_nonneg b2). pose proof (tableLen_nonneg (len (s_entries g))). lia.
        -- intros e x (g' & f'' & ? & ? & ? & ? & ? & ?). simplify_eq. split; [|done].
           apply list_elem_of_filter. done.
    + destruct (Istr id f Hf Hg) as [Hb|[es He]].
      * apply kept_blank; [done|]. intros e x (g & ? & ? & _). congruence.
      * eapply kept_sealed; [done|]. intros e x (g & ? & ? & _). congruence.
  - intros id e x (g & f & ? & Hf & _ & _ & _ & ?). by rewrite Hf.
  - intros q buf Hq Hmax. destruct (I5 q buf Hq) as [_ Hpq].
    destruct Hpq as (es & ms & ? & ? & [? _]); [|by exists es, ms].
    destruct I6 as [Hc|Hc]; [intros He; by rewrite He in Hq|..]; apply Hmax in Hc; lia.
Qed.

(** Fewer blocks are easier to keep. *)
Lemma Disk_weaken (D D' : Z -> blocks_of) N N' fs cks :
  (forall id e x, D' id e x -> D id e x) -> N <= N' -> Disk D N fs cks -> Disk D' N' fs cks.
Proof.
  intros HD HN [H1 H2 H3]. constructor.
  - intros id f Hf. destruct (H1 id f Hf) as (? & ? & Hk). split; [lia|]. split; [done|].
    destruct Hk as [Hb Hn|E He Ha|b es r ? ? ? ? ? ? Ha]; [apply kept_blank|eapply kept_sealed|eapply kept_open]; eauto;
      try (intros e x Hx; eapply Hn, HD, Hx); intros e x Hx; eapply Ha, HD, Hx.
  - intros id e x Hx. eauto.
  - intros q buf Hq Hm. destruct (H3 q buf Hq Hm) as (es & ms & ? & ? & ?). exists es, ms. split_and!; try done; lia.
Qed.

(** A file without durable blocks goes. *)
Lemma trusts_del fs id es ms : trusts p fs es ms -> trusts p (delete id fs) es ms.
Proof. intros Ht i f Hf. apply lookup_delete_Some in Hf as [_ Hf]. by apply Ht. Qed.

Lemma Disk_unlink D N fs cks id :
  Disk D N fs cks -> (forall e x, ~ D id e x) -> Disk D N (delete id fs) cks.
Proof.
  intros [H1 H2 H3] Hid. constructor.
  - intros i f Hf. apply lookup_delete_Some in Hf as [_ Hf]. eauto.
  - intros i e x Hx. destruct (H2 i e x Hx). split; [|done].
    rewrite lookup_delete_ne; [done|]. intros ->. by destruct (Hid e x).
  - intros q buf Hq Hm. destruct (H3 q buf Hq Hm) as (es & ms & ? & ? & ?). exists es, ms.
    split_and!; [done|by apply trusts_del|lia..].
Qed.

(** *** Power failure *)

(** Every log in [c] leaves room for its footer: whole records in what was not
    synced are records the writer staged, and it stages none that would not. *)
Definition roomy (c : bytes) : Prop :=
  forall b E r, c = b ++ r -> logged maxBlob b 0 E -> len b + tableLen (len E) + 4096 <= len c.

(** [c] is a possible image of [f]: footers in it are no accident, and neither
    are records. *)
Definition honest_image (f : file) (id : Z) (c : bytes) : Prop :=
  roomy c /\ forall b es r, content f = b ++ r -> logged maxBlob b 0 es -> no_magic es ->
             (b = [] \/ len b <= lowmark f) -> honest maxBlob c id es.

Definition crash_image (fs fs' : gmap Z file) : Prop :=
  forall id, match fs !! id, fs' !! id with
             | Some f, Some f' => survives f f' /\ honest_image f id (content f')
             | None, None => True
             | _, _ => False
             end.

Inductive lost (D : blocks_of) (id : Z) (f : file) : Prop :=
  | lost_blank : blank f -> (forall e x, ~ D e x) -> lost D id f
  | lost_sealed E : sealed_as p f id E -> all_in D f E -> lost D id f
  | lost_open b es r : sealOf maxBlob (content f) id = None -> roomy (content f) -> geometry p (len (content f)) ->
      content f = b ++ r -> logged maxBlob b 0 es -> no_magic es -> len b + 4096 <= len (content f) -> all_in D f es ->
      lost D id f.

Record Down (D : Z -> blocks_of) (N : Z) (fs : gmap Z file) (cks : gmap Z bytes) : Prop := mkDown {
  dn_file : forall id f, fs !! id = Some f ->
              0 <= id < N /\ len (content f) < 2 ^ 32 /\ dirty f = [] /\ lost (D id) id f;
  dn_have : forall id e x, D id e x -> is_Some (fs !! id) /\ record_for maxBlob e x;
  dn_ckpt : forall q buf, cks !! q = Some buf -> (forall q', is_Some (cks !! q') -> q' <= q) ->
              exists es ms, parseCkpt buf = Some (inr (es, ms)) /\ trusts p fs es ms /\ 0 <= ms < N
}.

Lemma survives_prefix f f' b r :
  survives f f' -> content f = b ++ r -> (b = [] \/ len b <= lowmark f) -> exists r', content f' = b ++ r'.
Proof.
  intros Hsv Hc [->|Hb]; [by exists (content f')|]. pose proof (survives_below f f' (len b) Hsv Hb) as Ht.
  exists (drop (length b) (content f')). rewrite <- (take_drop (length b) (content f')) at 1. f_equal.
  unfold len in Ht. rewrite Nat2Z.id in Ht. by rewrite Ht, Hc, take_app_length.
Qed.

Lemma blank_clean f : blank f -> dirty f = [].
Proof. by intros [n ->]. Qed.

Lemma kept_lost D id f f' :
  kept D id f -> survives f f' -> honest_image f id (content f') -> lost D id f'.
Proof.
  intros Hk Hsv [Hroom Hh]. destruct Hk as [Hb Hn|E He Ha|b es r Hgeo Hc Hlog Hns Hb Hend Ha].
  - rewrite (survives_clean f f') by auto using blank_clean. by apply lost_blank.
  - rewrite (survives_clean f f') by (try done; apply He). by eapply lost_sealed.
  - destruct (survives_prefix f f' b r Hsv Hc Hb) as [r' Hc'].
    assert (all_in D f' es) as Ha'.
    { intros e x Hx. destruct (Ha e x Hx). split; [done|]. by eapply (at_prefix f f'). }
    rewrite <- (sv_len f f' Hsv) in Hgeo, Hend.
    destruct (sealOf maxBlob (content f') id) as [[tr E]|] eqn:Hs; [|by eapply lost_open].
    destruct (honest_seal maxBlob _ id es b r' (Hh b es r Hc Hlog Hns Hb) Hc' Hlog Hns tr E Hs) as [[k ->] _].
    eapply (lost_sealed _ _ _ (es ++ k)); [split_and!; [apply Hsv|done|by exists tr]|].
    intros e x Hx. destruct (Ha' e x Hx). split; [|done]. apply elem_of_app. by left.
Qed.

Lemma crash_down D N fs fs' cks : Disk D N fs cks -> crash_image fs fs' -> Down D N fs' cks.
Proof.
  intros [H1 H2 H3] Him. constructor.
  - intros id f' Hf'. specialize (Him id). rewrite Hf' in Him. destruct (fs !! id) as [f|] eqn:Hf; [|done].
    destruct Him as [Hsv Hh]. destruct (H1 id f Hf) as (? & ? & Hk). split; [done|].
    rewrite (sv_len f f' Hsv). split_and!; [done|apply Hsv|by eapply kept_lost].
  - intros id e x Hx. destruct (H2 id e x Hx) as [[f Hf] ?]. split; [|done]. specialize (Him id). rewrite Hf in Him.
    by destruct (fs' !! id).
  - intros q buf Hq Hm. destruct (H3 q buf Hq Hm) as (es & ms & ? & Ht & ?). exists es, ms. split_and!; try done; try lia.
    intros id f' Hf' Hle Hck. specialize (Him id). rewrite Hf' in Him. destruct (fs !! id) as [f|] eqn:Hf; [|done].
    destruct Him as [Hsv _]. specialize (Ht id f Hf Hle Hck). by rewrite (survives_clean f f' Hsv (proj1 Ht)).
Qed.

(** Conversely, a directory nothing is pending in is one the volume may have. *)
Lemma Down_disk D N fs cks : Down D N fs cks -> Disk D N fs cks.
Proof.
  intros [H1 H2 H3]. constructor; [|done..]. intros id f Hf. destruct (H1 id f Hf) as (? & ? & Hd & Hl).
  do 2 (split; [done|]). destruct Hl as [| |b es r ? ? ? Hc ? ? ? ?]; [by apply kept_blank|by eapply kept_sealed|].
  eapply kept_open; [done..| | |done]; [|done]. right. unfold lowmark. rewrite Hd. cbn. rewrite Hc, len_app.
  pose proof (len_nonneg r). lia.
Qed.
End Crash.
End NvmeCrash.
