(* ===== verification/NvmeScan.v ===== *)
(** Reading a segment back at start-up ([recovery.go]): [readSeal] returns the
    footer the file holds, and [scanTail] the longest log at its start, in time
    bounded by its length. *)

From Stdlib Require Import ZArith Lia.
From coqutil Require Import Byte Word.LittleEndianList.
From stdpp Require Import base numbers list gmap sorting.
From S2P Require Import Prelude.
From S2P Require Import NvmeFormat.
From S2P Require Import NvmeVolume.
From S2P Require Import NvmeLog.
From S2P Require Import NvmeInv.
From S2P Require Import NvmeRead.
Import Seg SegFacts Ckpt CkptFacts Nvme NvmeLog NvmeInv NvmeRead.
Open Scope Z_scope.
Open Scope go_scope.

Module NvmeScan.
Section Scan.
Context `{!Xxh3, !World} (p : VolumeParams) (Hp : params_ok p) (Hr : reliable).

Abbreviation maxBlob := (MaxBlobLen p).
Abbreviation ticked s := (set_tick (S (tick s)) s).

#[local] Hint Resolve ticks_refl ticks_step : core.

Lemma mmapBuf_ok {B} s (k : bool -> M B) Q C : C (ticked s) -> wp (k true) (ticked s) Q C -> wp (mmapBuf ≫= k) s Q C.
Proof using Hr. intros HC Hk. unfold mmapBuf. by apply wp_bind, wp_bind, wp_io_ok; [..|apply wp_ret]. Qed.

(** *** The footer *)

Lemma geometry_min size : geometry p size -> recordSpan maxBlob + 8192 + 64 <= size < 2 ^ 32 /\ 0 <= recordSpan maxBlob.
Proof using Hp.
  intros [_ Hsz]. destruct (params_bounds p Hp) as [? _]. destruct (recordSpan_spec maxBlob) as [? _]; [lia|].
  unfold MinSegmentBytes, recordAlign, trailerSize in Hsz. lia.
Qed.

Lemma readSeal_run id f s :
  files s !! id = Some f -> geometry p (len (content f)) ->
  wp (readSeal id (len (content f)) maxBlob) s
    (fun r s' => ticks s s' /\ r = sealOf maxBlob (content f) id) (ticks s).
Proof using Hr Hp.
  intros Hf Hgeo. destruct (geometry_min _ Hgeo) as [Hge ?]. set (c := content f) in *.
  unfold readSeal, recordAlign, trailerSize.
  destruct (slice_some c (len c - 4096) (len c)) as (tl & Htl & Hlen); [lia..|].
  assert (exists tb, slice_from tl 4032 = Some tb) as [tb Htb] by (eexists; apply slice_from_some; lia).
  destruct (decodeTrailer_some tb id) as (r & Hd & Ht).
  apply mmapBuf_ok; [auto|]. cbn [negb]. apply wp_bind. eapply (wp_readAt_ok _ _ _ f); [done|done|auto|]. fold c.
  replace (len c - 4096 + 4096) with (len c) by lia. rewrite Htl. change (4096 - 64) with 4032. rewrite Htb. apply wp_lift.
  rewrite Hd. apply wp_lift. unfold sealOf, footerOf. rewrite Htl. cbn [mbind option_bind]. rewrite Htb.
  cbn [mbind option_bind]. rewrite Hd. cbn [mbind option_bind]. destruct r as [e|tr]; [apply wp_ret; split; auto|].
  destruct (Ht tr eq_refl) as [[Hc1 Hc2 Hc3 _ _] _]. unfold footerEntrySz.
  destruct (roundUpAlign_spec (EntryCount tr * 52)) as [Htbl _]; [unfold fits in *; lia|].
  set (tlen := roundUpAlign (EntryCount tr * 52)) in *. case_if; [apply wp_ret; split; auto|]. bool_props.
  destruct (slice_some c (FooterOff tr) (FooterOff tr + tlen)) as (table & Htab & _); [unfold fits in *; lia..|].
  destruct (slice_some tl 4032 4092) as (pre & Hpre & _); [lia..|].
  change (4096 - 4) with 4092. rewrite Htab, Hpre. cbn [mbind option_bind].
  apply wp_bind. eapply (wp_mono _ _ (fun t s' => ticks s s' /\ t = Some table)); [| |by intros s' ?].
  { case_if; bool_props.
    - apply mmapBuf_ok; [auto|]. cbn [negb]. eapply (wp_readAt_ok _ _ _ f); [done|done|auto|]. fold c. by split; auto.
    - apply wp_ret. split; [auto|]. replace tlen with 0 in Htab by (unfold fits in *; lia). pose proof (slice_len _ _ _ _ Htab).
      by rewrite (len_zero_nil table) by lia. }
  intros ? s' [Hts ->]. apply wp_lift. case_if; [apply wp_ret; split; auto|]. cbn [mbind option_bind].
  destruct (decodeEntries_some table (EntryCount tr)) as (es & Hes & _); [unfold fits in *; lia|].
  rewrite Hes. apply wp_lift. cbn [mbind option_bind]. destruct es; apply wp_ret; split; auto.
Qed.

(** *** The forward scan *)

Lemma slice_longer (c : bytes) off n m a x :
  n <= m -> slice c off (off + n) = Some a -> slice c off (off + m) = Some x -> exists r, x = a ++ r.
Proof.
  intros Hn Ha Hx. unfold slice in Ha, Hx. case_if_in Ha; [|done]. case_if_in Hx; [|done]. bool_props.
  injection Ha as <-. injection Hx as <-. eexists (drop (Z.to_nat n) _).
  rewrite <- (take_drop (Z.to_nat n) (take _ (drop _ c))) at 1. f_equal. rewrite take_take. f_equal. lia.
Qed.

Lemma record_head c off x hdr e :
  slice c off (off + 4096) = Some hdr -> slice c off (off + recordSpan (e_Len e)) = Some x -> record_for maxBlob e x ->
  parseRecordHeader hdr maxBlob = Some (inr (headerOf e)).
Proof.
  intros Hh Hx He. rewrite <- (rf_parse _ _ _ He). pose proof (span_block _ _ _ He) as Hb.
  pose proof (slice_len _ _ _ _ Hh). pose proof (slice_len _ _ _ _ Hx).
  destruct (slice_longer c off 4096 _ hdr x Hb Hh Hx) as [r ->].
  symmetry. apply parse_header_app. lia.
Qed.

Definition scan_post (c : bytes) (limit off : Z) (r : Z + footerEntry) : Prop :=
  match r with
  | inr e => e_Off e = off /\ off + recordSpan (e_Len e) <= limit /\
      exists x, slice c off (off + recordSpan (e_Len e)) = Some x /\ record_for maxBlob e x
  | inl _ => forall e x, e_Off e = off -> off + recordSpan (e_Len e) <= limit ->
      slice c off (off + recordSpan (e_Len e)) = Some x -> ~ record_for maxBlob e x
  end.

Lemma scanRecord_run id f s limit off :
  files s !! id = Some f -> limit <= len (content f) < 2 ^ 32 -> 0 <= off -> off + 4096 <= limit ->
  wp (scanRecord p id limit off) s (fun r s' => ticks s s' /\ scan_post (content f) limit off r) (ticks s).
Proof using Hr Hp.
  intros Hf Hlim Ho Hoff. set (c := content f) in *. unfold scanRecord, recordAlign.
  destruct (params_bounds p Hp) as (? & _ & _).
  destruct (slice_some c off (off + 4096)) as (hdr & Hh & Hlh); [lia..|].
  apply wp_bind. eapply (wp_readAt_ok _ _ _ f); [done|done|auto|]. fold c. rewrite Hh.
  destruct (parse_header_some hdr maxBlob) as [[e|h] Hph]; rewrite Hph; apply wp_lift.
  { destruct (slice_some hdr 0 recordHdrSize) as (z & Hz & _); [unfold recordHdrSize; lia..|]. rewrite Hz. apply wp_lift.
    apply wp_ret. split; [auto|]. intros e' x _ _ Hx Hrec. pose proof (record_head _ _ _ _ _ Hh Hx Hrec). congruence. }
  destruct (parse_header_inv _ _ _ Hph) as (_ & _ & _ & _ & Hfit & Hmax).
  destruct (span_fits p Hp (h_Len h)) as [Hu Hsp]; [destruct Hfit; unfold fits in *; lia|]. cbv zeta. rewrite Hu.
  case_if; bool_props.
  { apply wp_ret. split; [auto|]. intros e' x _ Hle Hx Hrec. pose proof (record_head _ _ _ _ _ Hh Hx Hrec) as E.
    rewrite Hph in E. injection E as ->. cbn in *. lia. }
  apply wp_bind, poolGet_some; [done|done|lia|auto|]. intros cl Hcl. apply cutBuf_ok; [done|].
  destruct (slice_some c off (off + recordSpan (h_Len h))) as (x & Hx & Hlx); [lia..|].
  apply wp_bind. eapply (wp_readAt_ok _ _ _ f); [done|done|auto|]. fold c. rewrite Hx.
  destruct (recordSpan_spec (h_Len h)) as [Hs Hsm]; [destruct Hfit; unfold fits in *; lia|].
  destruct (slice_some x 56 (56 + h_Len h)) as (pl & Hpl & _); [destruct Hfit; unfold fits in *; lia..|].
  unfold recordHdrSize. rewrite Hpl. apply wp_lift. case_if; bool_props; apply wp_ret; (split; [by auto|]).
  - intros e' x' _ _ Hx' Hrec. pose proof (record_head _ _ _ _ _ Hh Hx' Hrec) as E. rewrite Hph in E. injection E as ->.
    cbn in *. rewrite Hx in Hx'. injection Hx' as <-. destruct (rf_sum _ _ _ Hrec) as (pl' & Hpl' & Hs'). congruence.
  - cbn. rewrite u32_small by lia. split_and!; [done|done|]. exists x. split; [done|].
    destruct h as [ns key ln xx]. cbn in *. destruct Hfit as [? ? ? ?]. cbn in *.
    constructor; cbn; [by constructor; cbn; unfold fits; try done; lia|done|lia| |by exists pl].
    assert (4096 <= recordSpan ln) as Hge by (Z.div_mod_to_equations; lia).
    destruct (slice_longer c off 4096 _ hdr x Hge Hh Hx) as [r ->].
    rewrite parse_header_app by lia. done.
Qed.

(** Two logs at the start of the same bytes: one is a prefix of the other. *)
Lemma record_same e e' x x' r r' :
  record_for maxBlob e x -> record_for maxBlob e' x' -> e_Off e = e_Off e' -> x ++ r = x' ++ r' -> e = e' /\ x = x' /\ r = r'.
Proof.
  intros He He' Ho E. pose proof (span_block _ _ _ He). pose proof (span_block _ _ _ He').
  pose proof (rf_len _ _ _ He). pose proof (rf_len _ _ _ He').
  pose proof (parse_header_app x r maxBlob) as P1. pose proof (parse_header_app x' r' maxBlob) as P2.
  rewrite E in P1. rewrite P2, (rf_parse _ _ _ He), (rf_parse _ _ _ He') in P1 by lia. specialize (P1 ltac:(lia)).
  injection P1 as E1 E2 E3 E4. destruct e, e'. cbn in *. subst.
  apply app_inj_1 in E as [-> ->]; [done|]. unfold len in *. lia.
Qed.

Lemma log_compare es : forall b off b' E r r',
  logged maxBlob b off es -> logged maxBlob b' off E -> b ++ r = b' ++ r' -> es `prefix_of` E \/ E `prefix_of` es.
Proof.
  induction es as [|e es IH]; intros b off b' E r r' Hl Hl' Hc; [left; apply prefix_nil|].
  destruct E as [|e' E]; [right; apply prefix_nil|].
  destruct Hl as (x & b1 & -> & Ho & He & Hl). destruct Hl' as (x' & b1' & -> & Ho' & He' & Hl').
  rewrite <- !app_assoc in Hc. destruct (record_same e e' x x' (b1 ++ r) (b1' ++ r') He He') as (-> & -> & Hc'); [congruence|done|].
  destruct (IH _ _ _ _ _ _ Hl Hl' Hc'); [left|right]; by apply prefix_cons.
Qed.

(** What the scan returns: a log at the start of [c], and every other one that
    ends below [limit] is a prefix of it. *)
Definition longest (c : bytes) (limit : Z) (es : list footerEntry) (de : Z) : Prop :=
  (exists b r, c = b ++ r /\ logged maxBlob b 0 es /\ len b = de /\ de <= limit) /\
  forall b E r, c = b ++ r -> logged maxBlob b 0 E -> len b <= limit -> E `prefix_of` es.

(** Nothing follows: the log is the longest one. *)
Lemma longest_here c limit b r es :
  c = b ++ r -> logged maxBlob b 0 es -> len b <= limit ->
  (forall e x, e_Off e = len b -> len b + recordSpan (e_Len e) <= limit ->
     slice c (len b) (len b + recordSpan (e_Len e)) = Some x -> ~ record_for maxBlob e x) ->
  longest c limit es (len b).
Proof.
  intros Hc Hlog Hlim Hno. split; [by exists b, r|]. intros b' E r' Hc' Hlog' Hlim'.
  destruct (log_compare es b 0 b' E r r') as [[k ->]|?]; [done|done|congruence| |done].
  destruct k as [|e k]; [by rewrite app_nil_r|]. exfalso.
  destruct (logged_split maxBlob b' 0 es (e :: k) Hlog') as (b1 & b2 & -> & Hl1 & x & b3 & -> & Ho & He & _).
  assert (len b1 = len b) as Hb by (by eapply logged_len). rewrite !len_app in Hlim'. pose proof (len_nonneg b3).
  pose proof (rf_len _ _ _ He) as Hlx. apply (Hno e x); [lia|lia| |done].
  rewrite Hc', <- !app_assoc. apply (slice_mid b1 x (b3 ++ r')); [done|lia|lia].
Qed.

Lemma scanFrom_run fuel : forall id f s limit b r es,
  files s !! id = Some f -> limit <= len (content f) < 2 ^ 32 -> content f = b ++ r -> logged maxBlob b 0 es ->
  len b <= limit -> limit - len b < Z.of_nat fuel ->
  wp (scanFrom p fuel id limit (len b) es) s
    (fun t s' => ticks s s' /\ longest (content f) limit t.1.1 t.1.2) (ticks s).
Proof using Hr Hp.
  induction fuel as [|fuel IH]; intros id f s limit b r es Hf Hlim Hc Hlog Hb Hfuel; [lia|].
  pose proof (len_nonneg b). cbn [scanFrom]. unfold recordAlign. case_if; bool_props.
  { apply wp_ret. cbn [fst snd]. rewrite u32_small by lia. split; [auto|]. eapply longest_here; [done..|].
    intros e x _ Hle _ He. pose proof (span_block _ _ _ He). lia. }
  apply wp_bind. eapply wp_mono; [by apply (scanRecord_run id f)|..|done].
  intros [torn|e] s' [Ht Hpost]; cbn beta iota.
  { apply wp_ret. cbn [fst snd]. rewrite u32_small by lia. split; [done|]. by eapply longest_here. }
  destruct Hpost as (Ho & Hle & x & Hx & He). pose proof (rf_len _ _ _ He) as Hlx. pose proof (span_block _ _ _ He).
  assert (exists r', content f = (b ++ x) ++ r') as [r' Hc'].
  { exists (drop (Z.to_nat (len b + recordSpan (e_Len e))) (content f)).
    pose proof (slice_split _ _ _ _ Hx) as E. rewrite E at 1. rewrite <- app_assoc. f_equal.
    rewrite Hc. unfold len. by rewrite Nat2Z.id, take_app_length. }
  assert (logged maxBlob (b ++ x) 0 (es ++ [e])) as Hlog' by (apply logged_snoc; [done..|lia]).
  replace (len b + recordSpan (e_Len e)) with (len (b ++ x)) by (rewrite len_app; lia).
  eapply wp_mono; [eapply (IH id f s' limit (b ++ x) r')|..]; try done.
  - by rewrite (ticks_files _ _ Ht).
  - rewrite len_app. lia.
  - rewrite len_app. lia.
  - intros t s'' [Ht' ?]. split; [|done]. destruct Ht as [? ->], Ht' as [? ->]. by eexists.
  - intros s'' Ht'. destruct Ht as [? ->], Ht' as [? ->]. by eexists.
Qed.

Lemma scanTail_run id f s :
  files s !! id = Some f -> geometry p (len (content f)) ->
  wp (scanTail p id (len (content f))) s
    (fun t s' => ticks s s' /\ longest (content f) (len (content f) - 4096) t.1.1 t.1.2) (ticks s).
Proof using Hr Hp.
  intros Hf Hgeo. destruct (geometry_min _ Hgeo). unfold scanTail, recordAlign.
  apply mmapBuf_ok; [auto|]. cbn [negb]. rewrite <- (len_nil (A := byte)) at 1.
  eapply wp_mono; [eapply (scanFrom_run _ id f _ _ [] (content f) [])|..]; try done; rewrite ?len_nil; try lia.
Qed.

End Scan.
End NvmeScan.
