(* ===== verification/NvmeRecover.v ===== *)
(** Recovery ([recovery.go], [OpenVolume]): from any directory a power failure
    may leave, and with a device that answers, opening the volume succeeds, all
    durable blocks are live again, and the index that is rebuilt has for each
    key the newest record of all segments. Should the power fail again on the
    way, nothing durable is lost. *)

From Stdlib Require Import ZArith Lia.
From coqutil Require Import Byte Word.LittleEndianList.
From stdpp Require Import base numbers list gmap sorting.
From S2P Require Import Prelude.
From S2P Require Import NvmeFormat.
From S2P Require Import NvmeVolume.
From S2P Require Import NvmeLog.
From S2P Require Import NvmeInv.
From S2P Require Import NvmeRead.
From S2P Require Import NvmeCrash.
From S2P Require Import NvmeScan.
Import Seg SegFacts Ckpt CkptFacts Nvme NvmeLog NvmeInv NvmeRead NvmeCrash NvmeScan.
Open Scope Z_scope.
Open Scope go_scope.

Module NvmeRecover.

(** *** The merged index *)

Definition keyOf (x : RecoveredEntry) : bytes := mergeKey (re_NS x) (re_Key x).

(** [a] was written no later than [b]. *)
Definition older (a b : RecoveredEntry) : Prop :=
  let la := re_Loc a in let lb := re_Loc b in
  SegmentID la < SegmentID lb \/ (SegmentID la = SegmentID lb /\ Offset la <= Offset lb).

Lemma older_refl x : older x x.
Proof. right. lia. Qed.

Lemma older_trans x y z : older x y -> older y z -> older x z.
Proof. unfold older. lia. Qed.

(** [m] has, for each key of [P], the newest record of [P]. *)
Record indexes (m : gmap bytes RecoveredEntry) (P : RecoveredEntry -> Prop) : Prop := mkIndexes {
  ix_sound : forall k x, m !! k = Some x -> P x /\ k = keyOf x;
  ix_newest : forall x, P x -> exists y, m !! keyOf x = Some y /\ older x y
}.

Lemma indexes_ext m (P Q : RecoveredEntry -> Prop) : (forall x, P x <-> Q x) -> indexes m P -> indexes m Q.
Proof.
  intros E [H1 H2]. constructor.
  - intros k x Hx. destruct (H1 k x Hx). split; [by apply E|done].
  - intros x Hx. by apply H2, E.
Qed.

Lemma indexes_insert m P e : indexes m P -> indexes (Nvme.insert m e) (fun x => P x \/ x = e).
Proof.
  intros [H1 H2]. unfold Nvme.insert. fold (keyOf e).
  assert (forall m', m' = <[keyOf e := e]> m -> (forall y, m !! keyOf e = Some y -> older y e) ->
            indexes m' (fun x => P x \/ x = e)) as Hins.
  { intros m' -> Hold. constructor.
    - intros k x Hx. apply lookup_insert_Some in Hx as [[<- <-]|[_ Hx]]; [by split; [right|]|].
      destruct (H1 k x Hx). split; [by left|done].
    - intros x [Hx| ->]; [|exists e; split; [by rewrite lookup_insert_eq|apply older_refl]].
      destruct (H2 x Hx) as (y & Hy & Ho). destruct (decide (keyOf x = keyOf e)) as [E|].
      + exists e. rewrite E, lookup_insert_eq. split; [done|]. eapply older_trans; [done|]. apply Hold. by rewrite <- E.
      + exists y. by rewrite lookup_insert_ne by done. }
  destruct (m !! keyOf e) as [prev|] eqn:Hm; [|by apply Hins].
  case_if; [|apply Hins; [done|]; intros y [= <-]; do 2 bool_props; unfold older; cbn; lia].
  constructor.
  - intros k x Hx. destruct (H1 k x Hx). split; [by left|done].
  - intros x [Hx| ->]; [by apply H2|]. exists prev. split; [done|]. unfold older. do 2 bool_props; lia.
Qed.

Lemma indexes_fold es : forall m P, indexes m P -> indexes (foldl Nvme.insert m es) (fun x => P x \/ x ∈ es).
Proof.
  induction es as [|e es IH]; intros m P Hm; cbn [foldl].
  - eapply indexes_ext; [|done]. intros x. rewrite elem_of_nil. tauto.
  - eapply indexes_ext; [|apply IH, indexes_insert, Hm]. intros x. cbn. rewrite elem_of_cons. tauto.
Qed.

(** The records the segments list. *)
Definition listed (gs : gmap Z segment) (x : RecoveredEntry) : Prop :=
  exists id g e, gs !! id = Some g /\ e ∈ s_entries g /\ x = recoveredOf id e.

Lemma indexSegment_ok r gs id g :
  indexes (merged r) (listed gs) -> gs !! id = None ->
  indexes (merged (indexSegment id (s_entries g) r)) (listed (<[id := g]> gs)).
Proof.
  intros Hm Hg. unfold indexSegment. cbn [merged].
  replace (foldl (fun m e => Nvme.insert m (recoveredOf id e)) (merged r) (s_entries g))
    with (foldl Nvme.insert (merged r) (recoveredOf id <$> s_entries g)).
  2:{ generalize (merged r). induction (s_entries g) as [|e es IH]; intros m; cbn; [done|]. apply IH. }
  eapply indexes_ext; [|by apply indexes_fold]. intros x. cbn. unfold listed. rewrite list_elem_of_fmap. split.
  - intros [(i & g' & e & Hi & He & ->)|(e & -> & He)].
    + exists i, g', e. rewrite lookup_insert_ne by congruence. done.
    + exists id, g, e. by rewrite lookup_insert_eq.
  - intros (i & g' & e & Hi & He & ->). apply lookup_insert_Some in Hi as [[<- <-]|[? Hi]]; [right|left]; eauto.
    by exists i, g', e.
Qed.

(** *** One segment *)

Section Recover.
Context `{!Xxh3, !World} (p : VolumeParams) (Hp : params_ok p) (Hr : reliable).

Abbreviation maxBlob := (MaxBlobLen p).
Abbreviation ticked s := (set_tick (S (tick s)) s).

#[local] Hint Resolve ticks_refl ticks_step : core.

(** The directory that is found, and the durable blocks in it. *)
Context (D : Z -> footerEntry -> bytes -> Prop) (N : Z) (fs0 : gmap Z file) (cks : gmap Z bytes).
Context (Hdown : Down p D N fs0 cks) (HN : N <= 2 ^ 32).

(** The checkpoint that is loaded: the newest, if there is one. *)
Definition newest (ck : option (list ckptEntry * Z * Z)) : Prop :=
  match ck with
  | Some (es, ms, q) => exists buf, cks !! q = Some buf /\ parseCkpt buf = Some (inr (es, ms)) /\
                          forall q', is_Some (cks !! q') -> q' <= q
  | None => cks = ∅
  end.

Context (ck : option (list ckptEntry * Z * Z)) (Hck : newest ck).

(** What it says of a segment. *)
Definition groupOf (id : Z) : list footerEntry :=
  match ck with Some (es, ms, _) => if id <=? ms then ckBySeg es id else [] | None => [] end.

Definition seqOf : Z := match ck with Some (_, _, q) => q | None => 0 end.

(** After the segments that are not in [rest]. *)
Record Rec (rest : list Z) (s : Volume) (r : recState) : Prop := mkRec {
  rc_disk : Disk p D N (files s) cks;
  rc_cks : ckptFiles s = cks;
  rc_idle : (active s, reqs s, acks s, ckptSnap s) = (None, [], [], None) /\
              ckptSeq s = seqOf /\ nextID s = 0 /\ closed s = false;
  rc_clean : forall id f, files s !! id = Some f -> dirty f = [];
  rc_segs : forall id g, segs s !! id = Some g -> (id ∉ rest) /\ (s_sealed g, s_dying g) = (true, false) /\
              exists f, files s !! id = Some f /\ len (content f) = s_size g /\ sealed_as p f id (s_entries g);
  rc_rest : forall id, id ∈ rest -> files s !! id = fs0 !! id;
  rc_done : forall id e x, D id e x -> id ∉ rest -> exists g, segs s !! id = Some g /\ e ∈ s_entries g;
  rc_stray : forall id f, files s !! id = Some f -> id ∉ rest -> is_Some (segs s !! id);
  rc_dom : forall id, is_Some (files s !! id) -> is_Some (fs0 !! id);
  rc_index : indexes (merged r) (listed (segs s))
}.

Definition at_disk (s : Volume) : Prop := Disk p D N (files s) (ckptFiles s).

Lemma Rec_at rest s r : Rec rest s r -> at_disk s.
Proof. intros [? E ? ? ? ? ? ? ? ?]. unfold at_disk. by rewrite E. Qed.

Lemma at_disk_ticks s s' : at_disk s -> ticks s s' -> at_disk s'.
Proof. by intros ? [t ->]. Qed.

Lemma Rec_ticks rest s s' r : Rec rest s r -> ticks s s' -> Rec rest s' r.
Proof. intros [] [t ->]. by constructor. Qed.

Lemma Rec_counts rest s r r' : Rec rest s r -> merged r' = merged r -> Rec rest s r'.
Proof. intros [] E. constructor; try done. by rewrite E. Qed.

(** A file without durable blocks is dropped. *)
Lemma Rec_drop id rest s r :
  Rec (id :: rest) s r -> id ∉ rest -> (forall e x, ~ D id e x) -> Rec rest (set_files (delete id (files s)) s) r.
Proof.
  intros [H1 H2 H3 H4 H5 H6 H7 H8 Hdom H9] Hid HD. constructor; cbn; try done.
  - by apply Disk_unlink.
  - intros i f Hf. apply lookup_delete_Some in Hf as [_ Hf]. eauto.
  - intros i g Hg. destruct (H5 i g Hg) as (Hi & ? & f & Hf & ? & ?). apply not_elem_of_cons in Hi as [? ?].
    split_and!; [done..|]. exists f. by rewrite lookup_delete_ne by done.
  - intros i Hi. rewrite lookup_delete_ne by congruence. apply H6. by right.
  - intros i e x Hx Hi. apply (H7 i e x Hx). apply not_elem_of_cons. split; [|done]. intros ->. by apply (HD e x).
  - intros i f Hf Hi. apply lookup_delete_Some in Hf as [? Hf]. apply (H8 i f Hf). apply not_elem_of_cons. by split.
  - intros i [f Hf]. apply lookup_delete_Some in Hf as [_ Hf]. apply Hdom. by eexists.
Qed.

(** A sealed file becomes a segment. *)
Lemma Rec_add id rest s s' r f g :
  Rec (id :: rest) s r -> id ∉ rest -> is_Some (files s !! id) -> only_files s s' -> files s' = <[id := f]> (files s) ->
  Disk p D N (files s') cks -> len (content f) = s_size g ->
  (s_sealed g, s_dying g) = (true, false) -> sealed_as p f id (s_entries g) -> (forall e x, D id e x -> e ∈ s_entries g) ->
  Rec rest (set_segs (<[id := g]> (segs s')) s') (indexSegment id (s_entries g) r).
Proof.
  intros [H1 H2 H3 H4 H5 H6 H7 H8 Hdom H9] Hid Hold (fs & t & ->) Hf Hdisk Hsz Hsl Hse HD. cbn in Hf, Hdisk. subst fs.
  assert (segs s !! id = None) as Hn.
  { destruct (segs s !! id) as [g'|] eqn:Hg; [|done]. destruct (H5 id g' Hg) as [Hi _].
    by apply not_elem_of_cons in Hi as [? _]. }
  constructor; cbn; try done.
  - intros i f' Hf'. apply lookup_insert_Some in Hf' as [[<- <-]|[_ Hf']]; [apply Hse|eauto].
  - intros i g' Hg'. apply lookup_insert_Some in Hg' as [[<- <-]|[? Hg']].
    + split_and!; [done..|]. exists f. by rewrite lookup_insert_eq.
    + rewrite lookup_insert_ne by done. destruct (H5 i g' Hg') as (Hi & ?). by apply not_elem_of_cons in Hi as [_ ?].
  - intros i Hi. rewrite lookup_insert_ne by congruence. apply H6. by right.
  - intros i e x Hx Hi. destruct (decide (i = id)) as [->|].
    + exists g. rewrite lookup_insert_eq. eauto.
    + rewrite lookup_insert_ne by done. apply (H7 i e x Hx). apply not_elem_of_cons. by split.
  - intros i f' Hf' Hi. destruct (decide (i = id)) as [->|]; [by rewrite lookup_insert_eq|].
    rewrite lookup_insert_ne in Hf' by done. rewrite lookup_insert_ne by done. apply (H8 i f' Hf'). apply not_elem_of_cons. by split.
  - intros i [f' Hf']. apply lookup_insert_Some in Hf' as [[<- <-]|[_ Hf']]; [|by apply Hdom; eexists].
    rewrite <- H6 by left. done.
  - by apply indexSegment_ok.
Qed.

Lemma Rec_keep id rest s r f g :
  Rec (id :: rest) s r -> id ∉ rest -> files s !! id = Some f -> len (content f) = s_size g ->
  (s_sealed g, s_dying g) = (true, false) -> sealed_as p f id (s_entries g) -> (forall e x, D id e x -> e ∈ s_entries g) ->
  Rec rest (set_segs (<[id := g]> (segs s)) s) (indexSegment id (s_entries g) r).
Proof.
  intros Hs Hid Hf. apply (Rec_add id rest s s); [done|done|by rewrite Hf|apply only_files_refl|by rewrite insert_id|apply Hs].
Qed.

Lemma newest_trusts fs : Disk p D N fs cks -> forall es ms q, ck = Some (es, ms, q) -> trusts p fs es ms /\ 0 <= ms < N.
Proof using Hck.
  intros [_ _ Hd] es ms q E. pose proof Hck as Hk. rewrite E in Hk. destruct Hk as (buf & Hq & Hb & Hmax).
  destruct (Hd q buf Hq Hmax) as (es' & ms' & Hb' & ? & ?). rewrite Hb in Hb'. by simplify_eq.
Qed.

Lemma group_sealed id f s r rest :
  Rec (id :: rest) s r -> files s !! id = Some f -> groupOf id <> [] -> sealed_as p f id (groupOf id).
Proof using Hck.
  intros Hs Hf Hg. pose proof (newest_trusts _ (rc_disk _ _ _ Hs)) as Hn. clear Hck Hs. unfold groupOf in *.
  destruct ck as [[[es ms] q]|]; [|done]. destruct (Hn es ms q eq_refl) as [Ht _]. case_if; [|done]. apply Ht; [done|lia|done].
Qed.

(** *** Sealing a tail that was scanned *)

Lemma wp_and {A} (m : M A) s (Q Q' : A -> Volume -> Prop) (C C' : Volume -> Prop) :
  wp m s Q C -> wp m s Q' C' -> wp m s (fun a s' => Q a s' /\ Q' a s') C.
Proof. unfold wp. destruct (m s); auto. Qed.

Lemma writeAligned_none id off data s : wp (writeAligned id off data) s (fun e _ => e = None) (fun _ => True).
Proof using Hr.
  unfold writeAligned. apply mmapBuf_ok; [done..|]. cbn [negb]. unfold wp, WriteAt, nextIo, mbind, M_bind, putFile, modify, stop.
  cbn. destruct (io _) eqn:E; cbn; [done| |done]. by destruct (Hr _ _ _ E).
Qed.

Lemma writeSeal_none id size de es seal s :
  encodeSeal id de es = Some seal -> wp (writeSeal id size de es) s (fun e _ => e = None) (fun _ => True).
Proof using Hr.
  intros Hs. unfold writeSeal. rewrite Hs. apply wp_lift. destruct seal as [table tail]. apply wp_bind.
  eapply (wp_mono _ _ (fun e _ => e = None)); [|intros ? s1 ->|done].
  { case_if; [apply writeAligned_none|by apply wp_ret]. }
  apply wp_bind. eapply wp_mono; [apply writeAligned_none|intros ? s2 ->|done].
  unfold Datasync. apply wp_bind, wp_io_ok; [done..|]. by apply wp_modify, wp_ret.
Qed.

(** While the seal of file [id] is written behind its log [b]. *)
Definition resealing (s : Volume) (id : Z) (b : bytes) (size : Z) (s' : Volume) : Prop :=
  only_files s s' /\ (forall i, i <> id -> files s' !! i = files s !! i) /\
  exists f, files s' !! id = Some f /\ len (content f) = size /\ (exists r, content f = b ++ r) /\
    forall d, d ∈ dirty f -> len b <= d.1.

Lemma lowmark_ge f n : n <= len (content f) -> (forall d, d ∈ dirty f -> n <= d.1) -> n <= lowmark f.
Proof.
  unfold lowmark. intros Hn Hd. induction (dirty f) as [|d l IH]; cbn; [done|].
  pose proof (Hd d ltac:(left)). assert (n <= foldr (fun r a => Z.min r.1 a) (len (content f)) l); [|lia].
  apply IH. intros d' Hd'. apply Hd. by right.
Qed.

Lemma resealing_behind s id b size : behind (resealing s id b size) id size (len b).
Proof.
  constructor.
  - intros s' (Ho & Hi & Hf). split; [|done]. eapply only_files_trans; [done|apply only_files_tick].
  - intros s' off data (Ho & Hi & f & Hf & Hl & (r & Hc) & Hd) Hlo Hhi. split; [|split].
    + destruct Ho as (fs & t & ->). by eexists _, _.
    + intros i Hne. cbn. rewrite lookup_alter_ne by done. by apply Hi.
    + cbn. rewrite lookup_alter_eq, Hf. eexists. split; [done|]. cbn [content dirty].
      pose proof (len_nonneg b). pose proof (len_nonneg data). rewrite len_splice by lia. split_and!; [done| |].
      * rewrite Hc. apply splice_prefix. rewrite <- Hc. lia.
      * intros d Hin. apply elem_of_cons in Hin as [->|Hin]; [done|by apply Hd].
  - intros s' (Ho & Hi & f & Hf & Hl & Hc & Hd). split; [|split].
    + destruct Ho as (fs & t & ->). by eexists _, _.
    + intros i Hne. cbn. rewrite lookup_alter_ne by done. by apply Hi.
    + cbn. rewrite lookup_alter_eq, Hf. eexists. split; [done|]. cbn. split_and!; [done..|]. intros d Hin. by apply elem_of_nil in Hin.
Qed.

Lemma resealing_disk s r rest id b size f0 b0 es0 r0 s' :
  Rec (id :: rest) s r -> files s !! id = Some f0 -> groupOf id = [] -> resealing s id b size s' ->
  len (content f0) = size -> geometry p size -> content f0 = b0 ++ r0 -> logged maxBlob b0 0 es0 -> no_magic es0 ->
  (exists b1, b = b0 ++ b1) -> len b0 + 4096 <= size -> all_in (D id) f0 es0 -> at_disk s'.
Proof using Hck.
  intros Hs Hf0 Hgr (Ho & Hi & f & Hf & Hl & (r1 & Hc) & Hd) Hl0 Hgeo Hc0 Hlog Hns [b1 ->] Hend Ha.
  pose proof (newest_trusts (files s) (rc_disk _ _ _ Hs)) as Htr.
  assert (ckptFiles s' = cks) as Ecks by (destruct Ho as (? & ? & ->); apply Hs).
  destruct (rc_disk _ _ _ Hs) as [H1 H2 H3]. destruct (H1 id f0 Hf0) as (? & ? & _).
  unfold at_disk. rewrite Ecks. rewrite <- app_assoc in Hc. constructor.
  - intros i f' Hf'. destruct (decide (i = id)) as [->|]; [|rewrite Hi in Hf' by done; by apply H1].
    rewrite Hf in Hf'. injection Hf' as <-. split_and!; [lia|lia|lia|].
    eapply (kept_open _ _ _ _ b0 es0); [by rewrite Hl|done..| |lia|].
    + right. apply lowmark_ge; [rewrite Hc, len_app; pose proof (len_nonneg (b1 ++ r1)); lia|].
      intros d Hin. specialize (Hd d Hin). rewrite len_app in Hd. pose proof (len_nonneg b1). lia.
    + intros e x Hx. destruct (Ha e x Hx). split; [done|]. by eapply (at_prefix p f0 f).
  - intros i e x Hx. destruct (H2 i e x Hx). split; [|done]. destruct (decide (i = id)) as [->|]; [by rewrite Hf|].
    by rewrite Hi.
  - intros q buf Hq Hm. destruct (H3 q buf Hq Hm) as (es & ms & Hb & Ht & ?). exists es, ms. split_and!; [done| |lia..].
    assert (exists q', ck = Some (es, ms, q')) as [q' E].
    { clear -Hck Hq Hb Hm. unfold newest in Hck. destruct ck as [[[es' ms'] q']|]; [|by rewrite Hck in Hq].
      destruct Hck as (buf' & Hq' & Hb' & Hm'). assert (q' = q) as ->.
      { apply Z.le_antisymm; [apply Hm; by rewrite Hq'|apply Hm'; by rewrite Hq]. }
      exists q. by simplify_eq. }
    intros i f' Hf' Hle Hne. destruct (decide (i = id)) as [->|]; [|rewrite Hi in Hf' by done; by apply Ht].
    exfalso. unfold groupOf in Hgr. rewrite E in Hgr. by replace (id <=? ms) with true in Hgr by lia.
Qed.

Lemma Open_run {B} id f s (k : option ioError -> M B) Q C :
  files s !! id = Some f -> C (ticked s) -> wp (k None) (ticked s) Q C -> wp (Open id ≫= k) s Q C.
Proof using Hr.
  intros Hf HC Hk. unfold Open. apply wp_bind, wp_bind, wp_io_ok; [done..|]. apply wp_modify, wp_ret.
  cbn [files set_tick]. rewrite Hf. cbn [default]. rewrite insert_id by done. by destruct s.
Qed.

Lemma Stat_run {B} id f s (k : option Z -> M B) Q C :
  files s !! id = Some f -> C (ticked s) -> wp (k (Some (len (content f)))) (ticked s) Q C -> wp (Stat id ≫= k) s Q C.
Proof using Hr.
  intros Hf HC Hk. unfold Stat. apply wp_bind, wp_bind, wp_io_ok; [done..|]. apply wp_gets, wp_ret.
  cbn [files set_tick]. by rewrite Hf.
Qed.

Lemma dropFile_ok id rest s r :
  Rec (id :: rest) s r -> id ∉ rest -> (forall e x, ~ D id e x) ->
  wp (Remove id;; mret r) s (fun r' s' => Rec rest s' r') at_disk.
Proof using Hr.
  intros Hs Hid HD. unfold Remove. apply wp_bind, wp_bind, wp_io_ok; [done|by apply (Rec_at _ _ _ Hs)|].
  apply wp_modify, wp_ret, wp_ret. apply (Rec_drop id rest (ticked s)); [|done..]. eapply Rec_ticks; [done|auto].
Qed.

Lemma sealOf_bound c id tr es : sealOf maxBlob c id = Some (tr, es) -> DataEnd tr + 4096 <= len c.
Proof.
  unfold sealOf, footerOf. destruct (slice c _ _) as [tl|]; [|done]. cbn [mbind option_bind].
  destruct (slice_from tl 4032) as [tb|]; [|done]. cbn [mbind option_bind].
  destruct (decodeTrailer_some tb id) as (r & Hd & Ht). rewrite Hd. cbn [mbind option_bind].
  destruct r as [|t']; [done|]. destruct (Ht t' eq_refl) as [[Hc1 _ _ _ _] _].
  destruct (roundUpAlign_spec (EntryCount t' * 52)) as [Htbl _]; [unfold fits in *; lia|]. cbv zeta. case_if; [done|].
  destruct (slice c (FooterOff t') _); [|done]. destruct (slice tl 4032 4092); [|done]. cbn [mbind option_bind].
  case_if; [done|]. cbn [mbind option_bind]. destruct (decodeEntries _ _) as [[|]|]; [done| |done]. cbn [mbind option_bind].
  intros [= <- _]. bool_props. unfold fits in *. lia.
Qed.

(** All entries of a seal pass the checks again. *)
Lemma sealed_valid f id es :
  sealed_as p f id es -> filter (fun e => entryIn maxBlob (len (content f) - recordAlign) e = true) es = es.
Proof.
  intros (_ & _ & tr & Hs). apply filter_all. intros e He. destruct (sealOf_entries _ _ _ _ _ _ Hs He) as [_ Hin].
  pose proof (sealOf_bound _ _ _ _ Hs). unfold entryIn, recordAlign in *. bool_props.
  rewrite !andb_true_iff, Z.leb_le, Z.eqb_eq, Z.leb_le. lia.
Qed.

(** *** What was lost of a file decides what becomes of it *)

Lemma blank_no_log f b r e es : blank f -> content f = b ++ r -> ~ logged maxBlob b 0 (e :: es).
Proof.
  intros [n ->] Hc (x & b' & -> & _ & He & _). cbn in Hc. destruct (record_starts _ _ _ He) as [x' ->].
  rewrite <- !app_assoc in Hc. apply (f_equal (take 1)) in Hc. destruct n; [done|]. vm_compute in Hc. congruence.
Qed.

Lemma lost_geometry id f : lost p (D id) id f -> ~ geometry p (len (content f)) -> forall e x, ~ D id e x.
Proof. intros Hl Hg. destruct Hl as [|E [_ [? _]] _|]; [done|contradiction|contradiction]. Qed.

Lemma lost_seal id f tr E :
  lost p (D id) id f -> sealOf maxBlob (content f) id = Some (tr, E) -> forall e x, D id e x -> e ∈ E.
Proof.
  intros Hl Hs e x Hx. destruct Hl as [_ Hn|E' (_ & _ & tr' & Hs') Ha|]; [by destruct (Hn e x)| |congruence].
  rewrite Hs in Hs'. injection Hs' as _ ->. by destruct (Ha e x Hx).
Qed.

Lemma lost_scan id f es de :
  lost p (D id) id f -> sealOf maxBlob (content f) id = None -> longest p (content f) (len (content f) - 4096) es de ->
  ((forall e x, ~ D id e x) /\ es = []) \/
  exists b0 es0 r0, content f = b0 ++ r0 /\ logged maxBlob b0 0 es0 /\ no_magic es0 /\ all_in (D id) f es0 /\
    len b0 + 4096 <= len (content f) /\ roomy p (content f) /\ es0 `prefix_of` es.
Proof.
  intros Hl Hs [(b & r & Hc & Hlog & _) Hmax]. destruct Hl as [Hb Hn|E (_ & _ & tr' & Hs') Ha|b0 es0 r0 _ ? ? ? ? ? ? ?].
  - left. split; [done|]. destruct es as [|e es]; [done|]. by destruct (blank_no_log f b r e es).
  - congruence.
  - right. exists b0, es0, r0. split_and!; try done. apply (Hmax b0 es0 r0); [done..|lia].
Qed.

(** *** One segment *)

Lemma reseal_ok id rest s r f b0 es0 r0 es de :
  Rec (id :: rest) s r -> id ∉ rest -> files s !! id = Some f -> groupOf id = [] -> geometry p (len (content f)) ->
  content f = b0 ++ r0 -> logged maxBlob b0 0 es0 -> no_magic es0 -> all_in (D id) f es0 ->
  len b0 + 4096 <= len (content f) -> roomy p (content f) -> es0 `prefix_of` es ->
  longest p (content f) (len (content f) - 4096) es de ->
  wp (writeSeal id (len (content f)) de es) s
    (fun e s' => e = None /\ Rec rest (set_segs (<[id := mkSegment (len (content f)) true false de es false 0]> (segs s')) s')
                               (indexSegment id es r)) at_disk.
Proof using Hp Hr Hck HN.
  intros Hs Hid Hf Hgr Hgeo Hc0 Hlog0 Hns Ha Hend0 Hroom [k ->] [(b & r1 & Hc & Hlog & Hb & Hde) _].
  destruct (logged_split maxBlob b 0 es0 k Hlog) as (b1 & b2 & -> & Hl1 & _).
  assert (b1 = b0) as ->.
  { apply (app_inj_1 b1 b0 (b2 ++ r1) r0); [|by rewrite app_assoc, <- Hc, <- Hc0].
    pose proof (logged_len maxBlob b1 b0 0 es0 Hl1 Hlog0). unfold len in *. lia. }
  destruct (dk_file _ _ _ _ _ (rc_disk _ _ _ Hs) id f Hf) as (? & ? & _).
  pose proof (Hroom _ _ _ Hc Hlog) as Hr1. pose proof (len_nonneg (b0 ++ b2)).
  set (J := resealing s id (b0 ++ b2) (len (content f))).
  assert (forall s', J s' -> at_disk s') as HJ by (intros s' HJ; by eapply (resealing_disk s r rest id _ _ f b0 es0 r0); eauto).
  assert (J s) as HJs.
  { split; [apply only_files_refl|]. split; [done|]. exists f. split_and!; [done..|by exists r1|].
    intros d Hd. rewrite (rc_clean _ _ _ Hs id f Hf) in Hd. by apply elem_of_nil in Hd. }
  pose proof (logged_fits maxBlob _ 0 _ eq_refl Hlog) as Hfit. pose proof (logged_count p _ _ _ Hlog) as Hcnt.
  assert (len (es0 ++ k) < 2 ^ 32) as Hlen by (pose proof (tableLen_nonneg (len (es0 ++ k))); lia).
  eapply wp_mono; [eapply wp_and|..]; [| |cbv beta|exact HJ].
  - apply (writeSeal_ok p Hp J id (len (content f)) de (es0 ++ k) s f (b0 ++ b2) r1); try done; try lia; [|unfold fits; lia].
    rewrite <- Hb. apply resealing_behind.
  - eapply writeSeal_none. by apply encodeSeal_layout.
  - intros e s' [(HJ' & Ho & Hd) ->]. split; [done|]. destruct (Hd eq_refl) as (c' & tr & Hfs & Hlc & Hseal & _ & r' & Hc').
    apply (Rec_add id rest s s' r (mkFile c' []) (mkSegment _ true false de (es0 ++ k) false 0)); try done; cbn.
    + apply HJ in HJ'. unfold at_disk in HJ'. replace (ckptFiles s') with cks in HJ'; [done|].
      destruct Ho as (? & ? & ->). by destruct Hs.
    + split_and!; [done|cbn; by rewrite Hlc|by exists tr].
    + intros e x Hx. destruct (Ha e x Hx). apply elem_of_app. by left.
Qed.

Lemma addSegment_run id size de es rest s r :
  Rec rest (set_segs (<[id := mkSegment size true false de es false 0]> (segs s)) s) r ->
  wp (addSegment id size de es;; mret r) s (fun r' s' => Rec rest s' r') at_disk.
Proof.
  intros Hs. unfold addSegment. apply wp_bind, wp_modify, wp_modify_end, wp_ret. destruct Hs. by constructor.
Qed.

(** The footer decides, or the scan. *)
Lemma recoverBody_ok id rest s r f :
  Rec (id :: rest) s r -> id ∉ rest -> files s !! id = Some f -> geometry p (len (content f)) ->
  lost p (D id) id f -> groupOf id = [] ->
  wp (sl ← readSeal id (len (content f)) maxBlob;
      match sl with
      | Some (tr, entries) => addSegment id (len (content f)) (DataEnd tr) entries;; mret (indexSegment id entries r)
      | None =>
          t ← scanTail p id (len (content f));
          let '(recovered, dataEnd, torn) := t in
          let r := mkRecState (merged r) (scanned r) (blocks r) (truncated r + torn) in
          match recovered with
          | [] => Remove id;; mret r
          | _ =>
              err ← writeSeal id (len (content f)) dataEnd recovered;
              match err with
              | Some _ => Remove id;; mret r
              | None => addSegment id (len (content f)) dataEnd recovered;; mret (indexSegment id recovered r)
              end
          end
      end) s (fun r' s' => Rec rest s' r') at_disk.
Proof using Hp Hr Hck HN.
  intros Hs Hid Hf Hgeo Hlost Hgr. pose proof (Rec_at _ _ _ Hs) as Hat.
  destruct (dk_file _ _ _ _ _ (rc_disk _ _ _ Hs) id f Hf) as (_ & Hmax & _).
  pose proof (rc_clean _ _ _ Hs id f Hf) as Hcl.
  apply wp_bind. eapply wp_mono; [by apply (readSeal_run p Hp Hr id f)|..|intros s' ?; by eapply at_disk_ticks].
  intros sl s1 [Ht1 ->]. pose proof (Rec_ticks _ _ _ _ Hs Ht1) as Hs1.
  rewrite <- (ticks_files _ _ Ht1) in Hf. clear Hs Hat s Ht1. pose proof (Rec_at _ _ _ Hs1) as Hat.
  destruct (sealOf maxBlob (content f) id) as [[tr E]|] eqn:Hseal.
  { apply addSegment_run. apply (Rec_keep id rest s1 r f (mkSegment _ true false _ E false 0)); try done; cbn.
    - split_and!; [done|done|by exists tr].
    - by eapply lost_seal. }
  apply wp_bind. eapply wp_mono; [by apply (scanTail_run p Hp Hr id f)|..|intros s' ?; by eapply at_disk_ticks].
  intros [[es de] torn] s2 [Ht2 Hlong]. cbn [fst snd] in Hlong. pose proof (Rec_ticks _ _ _ _ Hs1 Ht2) as Hs.
  rewrite <- (ticks_files _ _ Ht2) in Hf. clear Hs1 Hat s1 Ht2. cbv zeta. set (r2 := mkRecState _ _ _ _).
  assert (Rec (id :: rest) s2 r2) as Hs2 by (by eapply Rec_counts). clearbody r2. clear Hs.
  destruct (lost_scan id f es de Hlost Hseal Hlong) as [[HD ->]|(b0 & es0 & r0 & Hc0 & Hl0 & Hns & Ha & Hend & Hroom & Hpre)].
  { by apply dropFile_ok. }
  destruct es as [|e es].
  { apply dropFile_ok; [done..|]. intros e x Hx. destruct (Ha e x Hx) as [He _]. destruct Hpre as [k Hk].
    destruct es0; [by apply elem_of_nil in He|done]. }
  apply wp_bind. eapply wp_mono; [by eapply (reseal_ok id rest s2 r2 f b0 es0 r0)|..|done].
  intros ? s3 [-> Hs3]. by apply addSegment_run.
Qed.

Lemma recoverSegment_ok id rest s r :
  Rec (id :: rest) s r -> id ∉ rest -> is_Some (fs0 !! id) ->
  wp (recoverSegment p ck id r) s (fun r' s' => Rec rest s' r') at_disk.
Proof using Hp Hr Hck HN Hdown.
  intros Hs Hid [f Hf0]. assert (id ∈ id :: rest) as Hin by left. pose proof (rc_rest _ _ _ Hs id Hin) as Hf.
  rewrite Hf0 in Hf. destruct (dn_file _ _ _ _ _ Hdown id f Hf0) as (_ & Hmax & _ & Hlost).
  pose proof (Rec_at _ _ _ Hs) as Hat. unfold recoverSegment.
  eapply Open_run; [done..|]. eapply Stat_run; [done..|]. set (s1 := ticked (ticked s)).
  assert (Rec (id :: rest) s1 r) as Hs1 by (eapply Rec_ticks; [done|unfold s1; auto]). clearbody s1. clear Hs Hat s Hf.
  pose proof (rc_rest _ _ _ Hs1 id Hin) as Hf. rewrite Hf0 in Hf. rewrite bool_decide_eq_false_2 by done.
  change (default (-1) (Some (len (content f)))) with (len (content f)). cbn [orb]. case_if.
  { apply dropFile_ok; [done..|]. eapply lost_geometry; [done|]. intros [Hm Hsz]. unfold recordAlign in Hif.
    apply orb_true_iff in Hif as [Hif|Hif]; bool_props; lia. }
  assert (geometry p (len (content f))) as Hgeo by (unfold recordAlign in Hif; bool_props; split; lia).
  set (r1 := mkRecState _ _ _ _). assert (Rec (id :: rest) s1 r1) as Hs by (by eapply Rec_counts).
  clearbody r1. clear Hs1. fold (groupOf id).
  destruct (groupOf id) as [|e0 grp] eqn:Hgr; [by apply recoverBody_ok|]. rewrite <- Hgr.
  assert (sealed_as p f id (groupOf id)) as Hse by (eapply group_sealed; [done..|by rewrite Hgr]).
  rewrite (sealed_valid f id) by done. apply addSegment_run.
  apply (Rec_keep id rest s1 r1 f (mkSegment _ true false _ (groupOf id) false 0)); try done; cbn.
  destruct Hse as (_ & _ & tr & Hseal). by eapply lost_seal.
Qed.

(** *** All segments *)

Lemma recoverSegments_ok ids : forall s r,
  Rec ids s r -> NoDup ids -> (forall id, id ∈ ids -> is_Some (fs0 !! id)) ->
  wp (recoverSegments p ck ids r) s (fun r' s' => Rec [] s' r') at_disk.
Proof using Hp Hr Hck HN Hdown.
  induction ids as [|id ids IH]; intros s r Hs Hnd Hin; cbn [recoverSegments]; [by apply wp_ret|].
  apply NoDup_cons in Hnd as [Hid Hnd]. apply wp_bind.
  eapply wp_mono; [apply recoverSegment_ok; [done..|apply Hin; left]|..|done].
  intros r' s' Hs'. apply IH; [done..|]. intros i Hi. apply Hin. by right.
Qed.

Lemma Rec_durable s r id e x : Rec [] s r -> D id e x -> durable p s id e x.
Proof.
  intros Hs Hx. destruct (rc_done _ _ _ Hs id e x Hx (not_elem_of_nil _)) as (g & Hg & He).
  destruct (rc_segs _ _ _ Hs id g Hg) as (_ & _ & f & Hf & _). exists g, f.
  destruct (dk_have _ _ _ _ _ (rc_disk _ _ _ Hs) id e x Hx) as [_ Hrec].
  destruct (dk_file _ _ _ _ _ (rc_disk _ _ _ Hs) id f Hf) as (_ & _ & Hk).
  assert (at_ f e x) as Hat.
  { destruct Hk as [_ Hn|E _ Ha|b es r' _ _ _ _ _ _ Ha]; [by destruct (Hn e x)|by destruct (Ha e x Hx)..]. }
  split_and!; try done. unfold lowmark. rewrite (rc_clean _ _ _ Hs id f Hf). cbn. unfold at_, slice in Hat.
  case_if_in Hat; [|done]. bool_props. lia.
Qed.

Lemma Rec_inv s r n :
  Rec [] s r -> 0 <= n < 2 ^ 32 -> (forall id f, files s !! id = Some f -> id < n) ->
  (forall es ms q, ck = Some (es, ms, q) -> ms < n) -> Inv p (set_nextID n s).
Proof using Hck.
  intros Hs Hn Hids Hms. pose proof (newest_trusts _ (rc_disk _ _ _ Hs)) as Htr.
  pose proof Hs as [H1 H2 (H3 & Hseq & _) H4 H5 H6 H7 H8 Hdom H9]. injection H3 as Ea Er Ek Es.
  constructor; cbn; rewrite ?Ea, ?Er, ?Ek, ?Es; try done.
  - intros id f Hf. destruct (dk_file _ _ _ _ _ H1 id f Hf) as (? & ? & _). specialize (Hids id f Hf). split; [lia|done].
  - intros id f Hf Hg. destruct (H8 id f Hf (not_elem_of_nil _)). congruence.
  - intros id g Hg. destruct (H5 id g Hg) as (_ & [= Hsl _] & f & Hf & Hl & Hse). exists f. rewrite Hsl, <- Hl.
    split_and!; [done..|apply Hse|done].
  - intros q buf Hq. rewrite H2 in Hq. pose proof Hck as Hk. rewrite Hseq. unfold seqOf.
    clear H5 H7 H8 H9 Hseq Hs H6. revert Hk Htr Hms. clear Hck. destruct ck as [[[es ms] q0]|]; intros Hk Htr Hms; cbn in Hk.
    + destruct Hk as (buf0 & Hq0 & Hb0 & Hmax). pose proof (Hmax q ltac:(by rewrite Hq)).
      split; [lia|]. intros Hle. assert (q = q0) as -> by lia. rewrite Hq in Hq0. injection Hq0 as ->.
      destruct (Htr es ms q0 eq_refl). exists es, ms. split_and!; [done..|]. split; cbn; [specialize (Hms es ms q0 eq_refl); lia|].
      intros id. by rewrite Ea.
    + by rewrite Hk in Hq.
  - intros Hne. rewrite H2, Hseq in *. left. unfold seqOf. clear -Hck Hne. destruct ck as [[[es ms] q0]|]; [|done].
    destruct Hck as (buf0 & Hq0 & _). by rewrite Hq0.
  - intros r0 loc Hin. by apply elem_of_nil in Hin.
Qed.
End Recover.

(** *** Opening *)

Lemma sorted_last (l : list Z) x y : last (merge_sort Z.le l) = Some x -> y ∈ l -> y <= x.
Proof.
  intros Hl Hy. apply last_Some in Hl as [l' E].
  assert (y ∈ l' ++ [x]) as Hin by (rewrite <- E; by rewrite merge_sort_Permutation).
  apply elem_of_app in Hin as [Hin|Hin]; [|apply list_elem_of_singleton in Hin; lia].
  assert (StronglySorted Z.le (l' ++ [x])) as Hs by (rewrite <- E; apply (StronglySorted_merge_sort Z.le); apply _).
  eapply (StronglySorted_app_1_elem_of Z.le l' [x]); [done|done|left].
Qed.

Lemma wp_gets_end {A} (g : Volume -> A) s (Q : A -> Volume -> Prop) C : Q (g s) s -> wp (gets g) s Q C.
Proof. done. Qed.

Section Open.
Context `{!Xxh3, !World} (p : VolumeParams) (Hp : params_ok p) (Hr : reliable).
Abbreviation ticked s := (set_tick (S (tick s)) s).
#[local] Hint Resolve ticks_refl ticks_step : core.

Lemma loadCkpts_head q seqs buf es ms s :
  ckptFiles s !! q = Some buf -> parseCkpt buf = Some (inr (es, ms)) ->
  wp (loadCkpts (q :: seqs)) s (fun r s' => ticks s s' /\ r = Some (es, ms, q)) (ticks s).
Proof using Hr.
  intros Hq Hb. cbn [loadCkpts]. apply wp_bind, wp_io_ok; [done|auto|]. apply wp_bind, wp_io_ok; [done|auto|].
  apply wp_gets. change (ckptFiles (ticked (ticked s))) with (ckptFiles s). rewrite Hq, Hb. apply wp_lift, wp_ret.
  split; auto.
Qed.

Lemma loadNewestCkpt_ok cks s :
  ckptFiles s = cks ->
  (forall q buf, cks !! q = Some buf -> (forall q', is_Some (cks !! q') -> q' <= q) ->
     exists es ms, parseCkpt buf = Some (inr (es, ms))) ->
  wp loadNewestCkpt s (fun r s' => ticks s s' /\ newest cks r) (ticks s).
Proof using Hr.
  intros <- Hgood. unfold loadNewestCkpt, listCkptSeqs. apply wp_bind, wp_bind, wp_io_ok; [done|auto|].
  apply wp_gets_end. change (ckptFiles (ticked s)) with (ckptFiles s). set (l := merge_sort Z.le (elements _)).
  assert (forall q, q ∈ l <-> is_Some (ckptFiles s !! q)) as Hl.
  { intros q. unfold l. rewrite merge_sort_Permutation, elem_of_elements. apply elem_of_dom. }
  destruct (last (merge_sort Z.le l)) as [q|] eqn:Hlast.
  - pose proof Hlast as E. apply last_Some in E as [l' E]. rewrite E, reverse_app. cbn [reverse app].
    assert (q ∈ l) as Hq by (rewrite <- (merge_sort_Permutation Z.le l), E; apply elem_of_app; right; left).
    apply Hl in Hq as [buf Hbuf].
    assert (forall q', is_Some (ckptFiles s !! q') -> q' <= q) as Hmax by (intros q' Hq'; eapply sorted_last; [done|by apply Hl]).
    destruct (Hgood q buf Hbuf Hmax) as (es & ms & Hb).
    eapply wp_mono; [by eapply (loadCkpts_head q (reverse l') buf es ms)|..].
    + intros r s' [[t ->] ->]. split; [by eexists|]. by exists buf.
    + intros s' [t ->]. by eexists.
  - apply last_None in Hlast. rewrite Hlast. change (reverse []) with (@nil Z). cbn [loadCkpts]. apply wp_ret. split; [auto|]. cbn.
    apply map_empty. intros q. destruct (ckptFiles s !! q) eqn:E; [|done].
    assert (q ∈ l) as Hq by (apply Hl; by rewrite E). rewrite <- (merge_sort_Permutation Z.le l), Hlast in Hq.
    by apply elem_of_nil in Hq.
Qed.

(** Opening the active segment leaves the others alone. *)
Record opens (s s' : Volume) : Prop := mkOpens {
  op_files : forall i, i <> nextID s -> files s' !! i = files s !! i;
  op_segs : segs s' = segs s \/ segs s' = <[nextID s := newSegment p]> (segs s);
  op_next : nextID s <= nextID s' <= nextID s + 1;
  op_rest : closed s' = closed s /\ acks s' = acks s
}.

Lemma openActive_frame s : 0 <= nextID s < 2 ^ 32 - 1 -> wp (openActive p) s (fun _ => opens s) (opens s).
Proof.
  intros Hn. unfold openActive. apply wp_gets, wp_modify. rewrite u32_small by lia.
  set (s1 := set_nextID (nextID s + 1) s).
  assert (forall s', (forall i, i <> nextID s -> files s' !! i = files s !! i) -> segs s' = segs s ->
            nextID s' = nextID s + 1 -> (closed s', acks s') = (closed s, acks s) -> opens s s') as Hop.
  { intros s' ? ? ? [= ? ?]. constructor; [done|by left|lia|done]. }
  unfold Open, SyncDir. apply wp_bind, wp_bind, wp_io; [by apply Hop|]. intros [e|]; [do 2 apply wp_ret; by apply Hop|].
  apply wp_modify, wp_ret. set (s2 := set_files _ _).
  assert (forall i, i <> nextID s -> files s2 !! i = files s !! i) as F2 by (intros; cbn; by rewrite lookup_insert_ne).
  assert (segs s2 = segs s /\ nextID s2 = nextID s + 1 /\ (closed s2, acks s2) = (closed s, acks s)) as (? & ? & ?) by done.
  clearbody s2.
  assert (forall n i, i <> nextID s -> files (grown (nextID s) n (ticked s2)) !! i = files s !! i) as G3
    by (intros n i Hi; cbn; rewrite lookup_alter_ne by done; by apply F2).
  apply wp_bind, wp_prealloc; [|intros n e _; apply wp_ret|intros n _]; [|apply Hop; [apply G3|done..]..].
  set (s3 := grown _ _ _) in *. assert (forall i, i <> nextID s -> files s3 !! i = files s !! i) as F3 by apply G3.
  assert (segs s3 = segs s /\ nextID s3 = nextID s + 1 /\ (closed s3, acks s3) = (closed s, acks s)) as (? & ? & E3) by done.
  clearbody s3.
  assert (forall i, i <> nextID s -> files (synced (nextID s) (ticked s3)) !! i = files s !! i) as F4
    by (intros i Hi; cbn; rewrite lookup_alter_ne by done; by apply F3).
  apply wp_bind, wp_sync; [|intros e; by apply Hop|by apply Hop].
  apply wp_bind, wp_io; [by apply Hop|]. intros [e|]; [apply wp_ret; by apply Hop|].
  do 3 apply wp_modify. apply wp_ret. injection E3 as ? ?.
  constructor; cbn; [by apply F4| |lia|done]. right. by f_equal.
Qed.

Lemma wp_prealloc_ok id size s (Q : option ioError -> Volume -> Prop) (C : Volume -> Prop) :
  Q None (grown id size (ticked s)) -> (forall s', C s') -> wp (Preallocate id size) s Q C.
Proof using Hr.
  intros HQ HC. unfold wp, Preallocate, nextIo, mbind, M_bind, modify, stop.
  destruct (io (tick s)) eqn:E; cbn; [apply HQ|by destruct (Hr _ _ _ E)|apply HC].
Qed.

Lemma openActive_none s : wp (openActive p) s (fun e _ => e = None) (fun _ => True).
Proof using Hr.
  unfold openActive. apply wp_gets, wp_modify. unfold Open, SyncDir. apply wp_bind, wp_bind, wp_io_ok; [done..|].
  apply wp_modify, wp_ret, wp_bind, wp_prealloc_ok; [|done]. unfold Datasync.
  apply wp_bind, wp_bind, wp_io_ok; [done..|]. apply wp_modify, wp_ret, wp_bind, wp_io_ok; [done..|].
  do 3 apply wp_modify. by apply wp_ret.
Qed.

Lemma wp_both {A} (m : M A) s (Q Q' : A -> Volume -> Prop) (C C' : Volume -> Prop) :
  wp m s Q C -> wp m s Q' C' -> wp m s (fun a s' => Q a s' /\ Q' a s') (fun s' => C s' /\ C' s').
Proof. unfold wp. destruct (m s); auto. Qed.

Lemma durable_opens s s' id e x :
  Inv p s -> Inv p s' -> opens s s' -> durable p s id e x -> durable p s' id e x.
Proof.
  intros Hs Hs' [Hf Hg _ _] (g & f & Hgi & Hfi & Hd). destruct (Inv_free p s Hs) as [_ Hlt]. specialize (Hlt id g Hgi).
  exists g, f. rewrite Hf by lia. destruct Hg as [->| ->]; [done|]. by rewrite lookup_insert_ne by lia.
Qed.

Lemma listed_opens s s' x : Inv p s -> opens s s' -> listed (segs s) x <-> listed (segs s') x.
Proof.
  intros Hs [_ Hg _ _]. destruct (Inv_free p s Hs) as [_ Hlt]. destruct Hg as [->| ->]; [done|]. split.
  - intros (id & g & e & Hi & ?). specialize (Hlt id g Hi). exists id, g, e. by rewrite lookup_insert_ne by lia.
  - intros (id & g & e & Hi & He & ->). apply lookup_insert_Some in Hi as [[_ <-]|[_ Hi]]; [by apply elem_of_nil in He|].
    by exists id, g, e.
Qed.

Context (D : Z -> footerEntry -> bytes -> Prop) (N : Z) (fs : gmap Z file) (cks : gmap Z bytes).
Context (Hdown : Down p D N fs cks) (HN : 0 <= N < 2 ^ 32 - 1).

(** What recovery has rebuilt. *)
Record recovered (r : recState) (s : Volume) : Prop := mkRebuilt {
  rv_inv : Inv p s;
  rv_open : closed s = false /\ acks s = [];
  rv_next : nextID s <= N;
  rv_live : forall id g, segs s !! id = Some g -> s_dying g = false;
  rv_all : forall id e x, D id e x -> durable p s id e x;
  rv_index : indexes (merged r) (listed (segs s))
}.

Abbreviation crash_ok := (fun s => Disk p D (N + 1) (files s) (ckptFiles s)).

Lemma Rec_start ck s :
  newest cks ck -> ticks (unopened fs cks (tick s)) s ->
  Rec p D N fs cks ck (merge_sort Z.le (elements (dom fs))) (set_ckptSeq (seqOf ck) s) (mkRecState ∅ 0 0 0).
Proof using Hdown.
  intros Hck [t ->]. constructor; cbn; try done.
  - by apply Down_disk.
  - intros id f Hf. by destruct (dn_file _ _ _ _ _ Hdown id f Hf) as (_ & _ & ? & _).
  - intros id e x Hx Hid. exfalso. apply Hid. rewrite merge_sort_Permutation, elem_of_elements. apply elem_of_dom.
    by destruct (dn_have _ _ _ _ _ Hdown id e x Hx).
  - intros id f Hf Hid. exfalso. apply Hid. rewrite merge_sort_Permutation, elem_of_elements. apply elem_of_dom. by eexists.
  - constructor; [done|]. intros x (id & g & e & Hg & _). done.
Qed.

(** The id that is handed out next is above every file and every checkpoint. *)
Definition nextOf (ck : option (list ckptEntry * Z * Z)) : Z :=
  let a := match last (merge_sort Z.le (elements (dom fs))) with Some id => id + 1 | None => 0 end in
  match ck with Some (_, ms, _) => Z.max a (ms + 1) | None => a end.

Lemma last_file i : last (merge_sort Z.le (elements (dom fs))) = Some i -> 0 <= i < N.
Proof using Hdown.
  intros Hl. assert (i ∈ elements (dom fs)) as Hi.
  { apply last_Some in Hl as [l' E]. rewrite <- (merge_sort_Permutation Z.le), E. apply elem_of_app. right. left. }
  apply elem_of_elements, elem_of_dom in Hi as [f Hf]. by destruct (dn_file _ _ _ _ _ Hdown i f Hf).
Qed.

Lemma nextOf_ok ck :
  newest cks ck -> 0 <= nextOf ck <= N /\ (forall id, is_Some (fs !! id) -> id < nextOf ck) /\
  (forall es ms q, ck = Some (es, ms, q) -> 0 <= ms < nextOf ck).
Proof using Hdown HN.
  intros Hck. pose proof (newest_trusts p D N cks ck Hck fs (Down_disk _ _ _ _ _ Hdown)) as Htr. unfold nextOf.
  set (a := match last _ with Some id => id + 1 | None => 0 end).
  assert (0 <= a <= N /\ forall id, is_Some (fs !! id) -> id < a) as [Ha Hlt].
  { unfold a. destruct (last _) as [i|] eqn:Hl.
    - pose proof (last_file i Hl).
      split; [lia|]. intros id Hid. apply elem_of_dom, elem_of_elements in Hid. pose proof (sorted_last _ _ _ Hl Hid). lia.
    - split; [lia|]. intros id Hid. apply elem_of_dom, elem_of_elements in Hid.
      apply last_None in Hl. rewrite <- (merge_sort_Permutation Z.le), Hl in Hid. by apply elem_of_nil in Hid. }
  destruct ck as [[[es ms] q]|].
  - destruct (Htr es ms q eq_refl). split_and!; [lia|lia|intros id Hid; specialize (Hlt id Hid); lia|].
    intros ? ? ? [= <- <- <-]. lia.
  - by split_and!; try lia.
Qed.

Lemma nextID_run {B} ck s (k : unit -> M B) (Q : B -> Volume -> Prop) C :
  newest cks ck -> nextID s = 0 -> wp (k tt) (set_nextID (nextOf ck) s) Q C ->
  wp ((match last (merge_sort Z.le (elements (dom fs))) with
       | Some id => modify (set_nextID (u32 (id + 1))) | None => mret tt end);;
      (match ck with
       | Some (_, ms, _) => modify (fun s => if nextID s <? u32 (ms + 1) then set_nextID (u32 (ms + 1)) s else s)
       | None => mret tt end) ≫= k) s Q C.
Proof using Hdown HN.
  intros Hck Hz Hk. destruct (nextOf_ok ck Hck) as (Hn & Hids & Hms). unfold nextOf in *.
  destruct (last _) as [i|] eqn:Hl; [pose proof (last_file i Hl)|].
  - apply wp_modify. destruct ck as [[[es ms] q]|].
    + specialize (Hms es ms q eq_refl). apply wp_modify. rewrite !u32_small by lia. cbn [nextID set_nextID].
      destruct (Z.ltb_spec (i + 1) (ms + 1)); [rewrite Z.max_r in Hk by lia|rewrite Z.max_l in Hk by lia]; done.
    + apply wp_bind, wp_ret. rewrite u32_small by lia. done.
  - apply wp_bind, wp_ret. destruct ck as [[[es ms] q]|].
    + specialize (Hms es ms q eq_refl). apply wp_modify. rewrite !u32_small by lia. rewrite Hz.
      destruct (Z.ltb_spec 0 (ms + 1)); [rewrite Z.max_r in Hk by lia; done|lia].
    + apply wp_bind, wp_ret. destruct s. cbn in *. by subst.
Qed.

Lemma recoverDir_ok t :
  wp (recoverDir p) (unopened fs cks t) (fun r s => exists rs, r = Some rs /\ recovered rs s /\ active s = None)
    (fun s => Disk p D N (files s) (ckptFiles s)).
Proof using Hp Hr Hdown HN.
  assert (Disk p D N fs cks) as Hdisk by (by apply Down_disk).
  unfold recoverDir. apply wp_bind, wp_io_ok; [done|done|]. apply wp_gets. cbn [files unopened set_tick].
  set (ids := merge_sort Z.le (elements (dom fs))). set (s1 := set_tick _ _). apply wp_bind.
  eapply wp_mono; [apply (loadNewestCkpt_ok cks); [done|]|..|].
  { intros q buf Hq Hm. destruct (dk_ckpt _ _ _ _ _ Hdisk q buf Hq Hm) as (es & ms & ? & _). eauto. }
  2:{ by intros s' [t' ->]. }
  intros ck s2 [[t' ->] Hck]. set (s2 := set_tick t' s1).
  assert (Rec p D N fs cks ck ids (set_ckptSeq (seqOf ck) s2) (mkRecState ∅ 0 0 0)) as Hrec
    by (apply Rec_start; [done|by eexists]).
  apply wp_bind. eapply (wp_mono _ _ (fun _ s => s = set_ckptSeq (seqOf ck) s2) _ (fun _ => False)); [| |done].
  { destruct ck as [[[es ms] q]|]; [by apply wp_modify_end|by apply wp_ret]. }
  intros _ ? ->. apply wp_bind. assert (N <= 2 ^ 32) as HN' by lia.
  eapply wp_mono; [apply (recoverSegments_ok p Hp Hr D N fs cks Hdown HN' ck Hck ids _ _ Hrec)|..].
  - unfold ids. rewrite merge_sort_Permutation. apply NoDup_elements.
  - intros id Hid. unfold ids in Hid. rewrite merge_sort_Permutation, elem_of_elements in Hid. by apply elem_of_dom.
  - intros r s3 Hs3. apply nextID_run; [done|apply (rc_idle _ _ _ _ _ _ _ _ _ Hs3)|]. apply wp_ret.
    exists r. split; [done|]. destruct (nextOf_ok ck Hck) as (Hn & Hids & Hms). destruct (rc_idle _ _ _ _ _ _ _ _ _ Hs3) as (E & ? & ? & ?).
    injection E as ? ? ? ?. split; [|done].
    assert (Inv p (set_nextID (nextOf ck) s3)) as Hinv.
    { eapply (Rec_inv p D N fs cks ck Hck); [exact Hs3|lia| |].
      - intros id f Hf. apply Hids, (rc_dom _ _ _ _ _ _ _ _ _ Hs3). by eexists.
      - intros es ms q Hq. by destruct (Hms es ms q Hq). }
    constructor; [done|done|cbn; lia| | |apply Hs3].
    { intros id g Hg. by destruct (rc_segs _ _ _ _ _ _ _ _ _ Hs3 id g Hg) as (_ & [= _ ?] & _). }
    intros id e x Hx. by apply (Rec_durable p D N fs cks ck s3 r).
  - done.
Qed.

Lemma OpenVolume_ok t :
  wp (OpenVolume p) (unopened fs cks t) (fun r s => exists rs, r = Some rs /\ Inv p s /\ closed s = false /\
       nextID s <= N + 1 /\ (forall id g, segs s !! id = Some g -> s_dying g = false) /\
       (forall id e x, D id e x -> durable p s id e x) /\ indexes (merged rs) (listed (segs s)))
    crash_ok.
Proof using Hp Hr Hdown HN.
  unfold OpenVolume. rewrite (proj1 Hp). cbn [negb]. apply wp_bind.
  eapply wp_mono; [apply recoverDir_ok|..|intros s Hs; apply (Disk_weaken p D D N); [done|lia|exact Hs]].
  intros ? s (rs & -> & [Hinv [Hcl Hak] Hn Hlive Hall Hix] & Ha). apply wp_bind. pose proof (iv_next p s Hinv).
  eapply wp_mono; [apply wp_both; [by apply openActive_ok; [..|lia]|apply wp_and with (C' := fun _ => True)]|..];
    [apply openActive_frame; lia|apply openActive_none|..].
  - intros e s' [(Hinv' & _ & Hn' & _) [Hop ->]]. apply wp_ret. exists rs. split_and!; try done; [by rewrite (proj1 (op_rest _ _ Hop))|lia|..].
    + intros id g Hg. destruct (op_segs _ _ Hop) as [E|E]; rewrite E in Hg; [eauto|].
      apply lookup_insert_Some in Hg as [[_ <-]|[_ Hg]]; [done|eauto].
    + intros id e x Hx. apply (durable_opens s); auto.
    + eapply indexes_ext; [|done]. intros x. by apply listed_opens.
  - intros s' [Hinv' Hop]. eapply Disk_weaken; [| |by apply Inv_disk].
    + intros id e x Hx. apply (durable_opens s); auto.
    + destruct Hop. lia.
Qed.

End Open.
End NvmeRecover.
