(* ===== verification/NvmeTotal.v ===== *)
(** A call stops in the middle only when the power fails: none of the loops of
    the volume gets stuck, and nothing else ends a call early. *)

From Stdlib Require Import ZArith Lia.
From coqutil Require Import Byte.
From stdpp Require Import base numbers list gmap sorting.
From S2P Require Import Prelude.
From S2P Require Import NvmeFormat.
From S2P Require Import NvmeVolume.
Import Seg Ckpt Nvme.
Open Scope Z_scope.
Open Scope go_scope.

Module NvmeTotal.
Section Total.
Context `{!Xxh3, !World} (p : VolumeParams).

Definition power_fails : Prop := exists n k, io n = IoCrash k.

Definition powered {A} (m : M A) : Prop := forall s s', m s = Crash s' -> power_fails.

Lemma pw_ret {A} (a : A) : powered (mret a).
Proof. done. Qed.

Lemma pw_bind {A B} (m : M A) (f : A -> M B) : powered m -> (forall a, powered (f a)) -> powered (m ≫= f).
Proof. intros Hm Hf s s' E. unfold mbind, M_bind in E. destruct (m s) as [a s1|s1|] eqn:Em; [by eapply Hf|by eapply Hm|done]. Qed.

Lemma pw_next {A} (f : ioResult -> M A) :
  powered (f IoOk) -> (forall n e, powered (f (IoErr n e))) -> powered (nextIo ≫= f).
Proof.
  intros H1 H2 s s' E. unfold nextIo, mbind, M_bind in E. destruct (io (tick s)) as [|n e|k] eqn:Eio;
    [by eapply H1|by eapply H2|by exists (tick s), k].
Qed.

Lemma pw_gets {A} (g : Volume -> A) : powered (gets g).
Proof. done. Qed.

Lemma pw_modify (g : Volume -> Volume) : powered (modify g).
Proof. done. Qed.

Lemma pw_lift {A} (o : option A) : powered (lift o).
Proof. by destruct o. Qed.

Lemma pw_receive : powered receive.
Proof. intros s s'. unfold receive. by destruct (reqs s). Qed.

Lemma pw_now : powered now.
Proof. done. Qed.

End Total.

Create HintDb pw.
#[export] Hint Resolve pw_ret pw_gets pw_modify pw_lift pw_receive pw_now : pw.

(** Follow the program; calls are solved by their lemmas. *)
Ltac pw_step :=
  match goal with
  | |- powered (nextIo ≫= _) => apply pw_next; [|intros ? ?]
  | |- powered (_ ≫= _) => apply pw_bind; [|intros ?]
  | |- powered (match ?x with _ => _ end) => destruct x
  | |- powered (match ?x with _ => _ end _) => destruct x
  | |- powered (let _ := _ in _) => cbv zeta
  | |- powered _ => solve [eauto 2 with pw nocore]
  end.
Ltac head t := match t with ?f _ => head f | _ => t end.
Ltac pw := intros; match goal with |- powered ?m => let h := head m in unfold h end; repeat pw_step.

Section Calls.
Context `{!Xxh3, !World} (p : VolumeParams).

Lemma pw_ioStep : powered ioStep.
Proof. pw. Qed.
#[local] Hint Resolve pw_ioStep : pw.
Lemma pw_Open id : powered (Open id).
Proof. pw. Qed.
Lemma pw_ReadAt id off n : powered (ReadAt id off n).
Proof. pw. Qed.
Lemma pw_putFile id off d : powered (putFile id off d).
Proof. pw. Qed.
#[local] Hint Resolve pw_Open pw_ReadAt pw_putFile : pw.
Lemma pw_WriteAt id off d : powered (WriteAt id off d).
Proof. pw. Qed.
Lemma pw_Datasync id : powered (Datasync id).
Proof. pw. Qed.
Lemma pw_Preallocate id n : powered (Preallocate id n).
Proof. pw. Qed.
Lemma pw_SyncDir : powered SyncDir.
Proof. pw. Qed.
Lemma pw_Remove id : powered (Remove id).
Proof. pw. Qed.
Lemma pw_Stat id : powered (Stat id).
Proof. pw. Qed.
Lemma pw_mmapBuf : powered mmapBuf.
Proof. pw. Qed.
#[local] Hint Resolve pw_WriteAt pw_Datasync pw_Preallocate pw_SyncDir pw_Remove pw_Stat pw_mmapBuf : pw.
Lemma pw_poolGet n : powered (poolGet p n).
Proof. pw. Qed.
Lemma pw_cutBuf c n : powered (cutBuf c n).
Proof. pw. Qed.
Lemma pw_writeAligned id off d : powered (writeAligned id off d).
Proof. pw. Qed.
#[local] Hint Resolve pw_poolGet pw_cutBuf pw_writeAligned : pw.
Lemma pw_writeSeal id n de es : powered (writeSeal id n de es).
Proof. pw. Qed.
Lemma pw_readSeal id n m : powered (readSeal id n m).
Proof. pw. Qed.
#[local] Hint Resolve pw_writeSeal pw_readSeal : pw.
Lemma pw_setReadOnly : powered (setReadOnly).
Proof. pw. Qed.
Lemma pw_clearReadOnly : powered (clearReadOnly).
Proof. pw. Qed.
#[local] Hint Resolve pw_setReadOnly pw_clearReadOnly : pw.
Lemma pw_appendFailed e : powered (appendFailed e).
Proof. pw. Qed.
Lemma pw_onWritten r l : powered (onWritten r l).
Proof. pw. Qed.
Lemma pw_failAll l : powered (failAll l).
Proof. pw. Qed.
Lemma pw_activeSeg : powered (activeSeg).
Proof. pw. Qed.
#[local] Hint Resolve pw_appendFailed pw_onWritten pw_failAll pw_activeSeg : pw.
Lemma pw_activeDataEnd : powered (activeDataEnd).
Proof. pw. Qed.
Lemma pw_fitsActive a b c : powered (fitsActive p a b c).
Proof. pw. Qed.
#[local] Hint Resolve pw_activeDataEnd pw_fitsActive : pw.
Lemma pw_flushBatch st q : powered (flushBatch p st q).
Proof. pw. Qed.
#[local] Hint Resolve pw_flushBatch : pw.
Lemma pw_flush st q : powered (flush p st q).
Proof. pw. Qed.
Lemma pw_sealActive : powered (sealActive).
Proof. pw. Qed.
Lemma pw_openActive : powered (openActive p).
Proof. pw. Qed.
Lemma pw_maybeCheckpoint : powered (maybeCheckpoint p).
Proof. pw. Qed.
#[local] Hint Resolve pw_flush pw_sealActive pw_openActive pw_maybeCheckpoint : pw.
Lemma pw_rotate : powered (rotate p).
Proof. pw. Qed.
#[local] Hint Resolve pw_rotate : pw.
Lemma pw_stageRec r st q : powered (stageRec r st q).
Proof. pw. Qed.
Lemma pw_finalSync : powered finalSync.
Proof. pw. Qed.
#[local] Hint Resolve pw_stageRec pw_finalSync : pw.
Lemma pw_Append r : powered (Append r).
Proof. pw. Qed.
Lemma pw_failQueuedAppends : powered (failQueuedAppends).
Proof. pw. Qed.
#[local] Hint Resolve pw_Append pw_failQueuedAppends : pw.
Lemma pw_Close : powered (Close).
Proof. pw. Qed.
Lemma pw_TryRecoverWrites : powered (TryRecoverWrites p).
Proof. pw. Qed.
Lemma pw_RetireBegin i : powered (RetireBegin i).
Proof. pw. Qed.
Lemma pw_RetireAbort i : powered (RetireAbort i).
Proof. pw. Qed.
Lemma pw_RetireFinish i : powered (RetireFinish i).
Proof. pw. Qed.
Lemma pw_MarkSpilled i : powered (MarkSpilled i).
Proof. pw. Qed.
Lemma pw_acquireRead i : powered (acquireRead i).
Proof. pw. Qed.
Lemma pw_releaseRead i : powered (releaseRead i).
Proof. pw. Qed.
#[local] Hint Resolve pw_Close pw_TryRecoverWrites pw_RetireBegin pw_RetireAbort pw_RetireFinish pw_MarkSpilled pw_acquireRead pw_releaseRead : pw.
Lemma pw_readOne l n k w : powered (readOne p l n k w).
Proof. pw. Qed.
Lemma pw_readqSlot : powered (readqSlot).
Proof. pw. Qed.
#[local] Hint Resolve pw_readOne pw_readqSlot : pw.
Lemma pw_Read l n k w : powered (Read p l n k w).
Proof. pw. Qed.
Lemma pw_Rename q b : powered (Rename q b).
Proof. pw. Qed.
Lemma pw_listCkptSeqs : powered (listCkptSeqs).
Proof. pw. Qed.
Lemma pw_ckptDone b : powered (ckptDone b).
Proof. pw. Qed.
#[local] Hint Resolve pw_Read pw_Rename pw_listCkptSeqs pw_ckptDone : pw.
Lemma pw_writeCkptFile sn : powered (writeCkptFile sn).
Proof. pw. Qed.
#[local] Hint Resolve pw_writeCkptFile : pw.
Lemma pw_ckptBegin : powered (ckptBegin).
Proof. pw. Qed.
#[local] Hint Resolve pw_ckptBegin : pw.

Lemma pw_pruneList keep seqs : powered (pruneList seqs keep).
Proof. induction seqs as [|q seqs IH]; cbn [pruneList]; repeat first [apply IH|pw_step]. Qed.
#[local] Hint Resolve pw_pruneList : pw.
Lemma pw_pruneCkpts keep : powered (pruneCkpts keep).
Proof. pw. Qed.
#[local] Hint Resolve pw_pruneCkpts : pw.
Lemma pw_ckptFinish : powered ckptFinish.
Proof. pw. Qed.

Lemma pw_stage_drain fuel :
  (forall r st q, powered (stage p fuel r st q)) /\ forall st q, powered (drain p fuel st q).
Proof.
  induction fuel as [|fuel [IH1 IH2]]; [by split; intros; apply pw_lift|].
  split; intros; [cbn [stage]|cbn [drain]]; repeat first [apply IH1|apply IH2|pw_step].
Qed.

Lemma pw_writerTurn : powered (writerTurn p).
Proof. unfold writerTurn. repeat first [apply pw_stage_drain|pw_step]. Qed.

(** *** Start-up *)

Lemma pw_loadCkpts seqs : powered (loadCkpts seqs).
Proof. induction seqs as [|q seqs IH]; cbn [loadCkpts]; repeat first [apply IH|pw_step]. Qed.
#[local] Hint Resolve pw_loadCkpts : pw.
Lemma pw_loadNewestCkpt : powered loadNewestCkpt.
Proof. pw. Qed.
Lemma pw_scanRecord id limit off : powered (scanRecord p id limit off).
Proof. pw. Qed.
#[local] Hint Resolve pw_loadNewestCkpt pw_scanRecord : pw.
Lemma pw_scanFrom fuel : forall id limit off es, powered (scanFrom p fuel id limit off es).
Proof. induction fuel as [|fuel IH]; intros; cbn [scanFrom]; repeat first [apply IH|pw_step]. Qed.
#[local] Hint Resolve pw_scanFrom : pw.
Lemma pw_scanTail id n : powered (scanTail p id n).
Proof. pw. Qed.
Lemma pw_addSegment id n de es : powered (addSegment id n de es).
Proof. pw. Qed.
#[local] Hint Resolve pw_scanTail pw_addSegment : pw.
Lemma pw_recoverSegment ck id r : powered (recoverSegment p ck id r).
Proof. pw. Qed.
#[local] Hint Resolve pw_recoverSegment : pw.
Lemma pw_recoverSegments ck ids : forall r, powered (recoverSegments p ck ids r).
Proof. induction ids as [|id ids IH]; intros; cbn [recoverSegments]; repeat first [apply IH|pw_step]. Qed.
#[local] Hint Resolve pw_recoverSegments : pw.
Lemma pw_recoverDir : powered (recoverDir p).
Proof. pw. Qed.
#[local] Hint Resolve pw_recoverDir : pw.
Lemma pw_OpenVolume : powered (OpenVolume p).
Proof. pw. Qed.

End Calls.
End NvmeTotal.
