(* ===== verification/Tiered.v ===== *)
(** The three tiers together: [internal/store/tiered.go], [demote.go] and
    [s3tier.go].

    The state is the [Tiered] struct with the tiers it routes to: the DRAM store
    (which holds the policy and the tenant accountant the tiers share), the
    volumes, the index below DRAM with its records, the channels, the cold tier's
    latches and counters. Methods are handlers in the sense of [Conc]: one action
    is one critical section, one atomic operation, one channel operation, or one
    call of a DRAM or volume method, which are taken as indivisible. A turn of a
    volume's writer is one action together with the [OnWritten] callbacks it
    makes, which run on the writer's goroutine before it seals or goes on.

    What the object store answers, and which requests end early because their
    caller went away, comes from the environment. Products of byte counts and
    percentages are taken in [Z]: they stay below 2^63 for any volume. *)

From Stdlib Require Import ZArith Lia SpecFloat.
From coqutil Require Import Byte Word.LittleEndianList.
From stdpp Require Import base numbers list gmap sets relations.
From S2P Require Import Prelude.
From S2P Require Import Conc.
From S2P Require Import Wire.
From S2P Require Import Tenant.
From S2P Require Import Eviction.
From S2P Require Import BlockRef.
From S2P Require Import Index.
From S2P Require Import DramStore.
From S2P Require Import NvmeFormat.
From S2P Require Import NvmeVolume.
From S2P Require Import NvmeSpill.
From S2P Require Import NvmeIndex.
Import Conc Ops Eviction Seg NvmeIndex.
Open Scope Z_scope.
Open Scope go_scope.
Open Scope conc_scope.

(** ** The environment *)

(** [ReadRange]: the bytes; an object-level not-found; any other failure. *)
Inductive rangeAnswer := RangeOk (data : bytes) | RangeGone | RangeSick.

(** [RestoreSegment]: fails before the sink; runs the sink and reports; or is cut
    off by its deadline while the sink goes on. *)
Inductive restoreAnswer := RestoreFails | RestoreStreams (r : NvmeSpill.stream) | RestoreDetached (r : NvmeSpill.stream).

(** What the n-th question to the environment is answered. [dropAnswer]: whether
    the call succeeds, and whether the object is gone. *)
Class Outside := {
  nvShards : Index.IndexEnv;
  volWorld : nat -> World;
  canceled : nat -> bool;
  spillAccepts : nat -> bool;
  rangeRead : nat -> rangeAnswer;
  restoreSegment : nat -> restoreAnswer;
  dropAnswer : nat -> bool * bool
}.

Module Tiered.

Abbreviation Loc := Seg.Loc.

Record Params := mkParams {
  DemoteWatermarkPct : Z; DemoteBatchPct : Z; AdmitMinHits : Z; PromoteWindow : Z;
  LeaseDefaultMS : Z; LeaseMaxMS : Z; Spill : bool; Restore : bool
}.

Definition withDefaults (p : Params) : Params :=
  mkParams (if DemoteWatermarkPct p =? 0 then 90 else DemoteWatermarkPct p)
    (if DemoteBatchPct p =? 0 then 5 else DemoteBatchPct p) (AdmitMinHits p) (PromoteWindow p)
    (LeaseDefaultMS p) (LeaseMaxMS p) (Spill p) (Restore p).

(** The parameters [NewTiered] goes on with: a lease maximum below the default is
    raised to it. *)
Definition newParams (p : Params) : Params :=
  let p := if (0 <? LeaseDefaultMS p) && (LeaseMaxMS p <? LeaseDefaultMS p)
           then mkParams (DemoteWatermarkPct p) (DemoteBatchPct p) (AdmitMinHits p) (PromoteWindow p)
                  (LeaseDefaultMS p) (LeaseDefaultMS p) (Spill p) (Restore p)
           else p in
  withDefaults p.

Inductive counter :=
| cDemotions | cDemoteDrops | cDedupSkips | cAdmitRefusals | cPromotions | cS3Hits | cS3ReadErrs
| cS3ReadNotFound | cS3ReadBusy | cS3BreakerOpens | cS3BreakerSkips | cS3ChecksumErrs | cS3SegRestores
| cS3RestoreErrs | cS3RestoreSkips | cS3GCs | cS3GCErrs | cS3GCSkips | cReclaims | cReclaimSkips
| cReclaimBlocked | cReadBusy | cChecksumErrs.

#[export] Instance counter_eq_dec : EqDecision counter.
Proof. solve_decision. Defined.

(** The variables an [OnWritten] closure captures. *)
Record demotion := mkDemotion { dm_k : Key; dm_size : Z; dm_now : Z; dm_sum : Z; dm_ref : Z }.

Record Tiered (A P : Type) := mkTiered {
  d : Dram.Store A P;
  vols : list Nvme.Volume;
  idx : Index.Index;
  refs : gmap Z nvmeRef;
  nextPtr : Z;
  closures : gmap Z demotion;               (* [OnWritten] callbacks not yet made *)
  nextClosure : Z;
  kick : bool;
  promote : list (Key * Z);
  restoreq : list (Key * Z);
  dropq : list Z;
  readSem : Z;                              (* slots of [s3ReadSem] taken *)
  breaker : Z * Z;                          (* consecutive failures, open until *)
  spillInflight : gset Z;
  gcQueued : gset Z;
  segRefs : gmap Z Z;
  s3Blocks : Z;
  s3Bytes : Z;
  counters : counter -> Z;
  uploads : list (nat * Z);                 (* accepted by the backend, not yet reported *)
  downloads : list (nat * Z * NvmeSpill.stream); (* sinks that outlived their deadline *)
  objects : gset Z;                         (* segments with an object in the bucket *)
  replaced : list (Key * nvmeRef);          (* entries a publication overwrote *)
  tick : nat
}.
Arguments mkTiered {A P}.
Arguments d {A P}.
Arguments vols {A P}.
Arguments idx {A P}.
Arguments refs {A P}.
Arguments nextPtr {A P}.
Arguments closures {A P}.
Arguments nextClosure {A P}.
Arguments kick {A P}.
Arguments promote {A P}.
Arguments restoreq {A P}.
Arguments dropq {A P}.
Arguments readSem {A P}.
Arguments breaker {A P}.
Arguments spillInflight {A P}.
Arguments gcQueued {A P}.
Arguments segRefs {A P}.
Arguments s3Blocks {A P}.
Arguments s3Bytes {A P}.
Arguments counters {A P}.
Arguments uploads {A P}.
Arguments downloads {A P}.
Arguments objects {A P}.
Arguments replaced {A P}.
Arguments tick {A P}.

Section Setters.
Context {A P : Type}.
Abbreviation T := (Tiered A P).
Definition set_d v (t : T) : T := mkTiered v (vols t) (idx t) (refs t) (nextPtr t) (closures t) (nextClosure t) (kick
  t) (promote t) (restoreq t) (dropq t) (readSem t) (breaker t) (spillInflight t) (gcQueued t) (segRefs t) (s3Blocks
  t) (s3Bytes t) (counters t) (uploads t) (downloads t) (objects t) (replaced t) (tick t).
Definition set_vols v (t : T) : T := mkTiered (d t) v (idx t) (refs t) (nextPtr t) (closures t) (nextClosure t) (kick
  t) (promote t) (restoreq t) (dropq t) (readSem t) (breaker t) (spillInflight t) (gcQueued t) (segRefs t) (s3Blocks
  t) (s3Bytes t) (counters t) (uploads t) (downloads t) (objects t) (replaced t) (tick t).
Definition set_idx v (t : T) : T := mkTiered (d t) (vols t) v (refs t) (nextPtr t) (closures t) (nextClosure t) (kick
  t) (promote t) (restoreq t) (dropq t) (readSem t) (breaker t) (spillInflight t) (gcQueued t) (segRefs t) (s3Blocks
  t) (s3Bytes t) (counters t) (uploads t) (downloads t) (objects t) (replaced t) (tick t).
Definition set_refs v (t : T) : T := mkTiered (d t) (vols t) (idx t) v (nextPtr t) (closures t) (nextClosure t) (kick
  t) (promote t) (restoreq t) (dropq t) (readSem t) (breaker t) (spillInflight t) (gcQueued t) (segRefs t) (s3Blocks
  t) (s3Bytes t) (counters t) (uploads t) (downloads t) (objects t) (replaced t) (tick t).
Definition set_nextPtr v (t : T) : T := mkTiered (d t) (vols t) (idx t) (refs t) v (closures t) (nextClosure t) (kick
  t) (promote t) (restoreq t) (dropq t) (readSem t) (breaker t) (spillInflight t) (gcQueued t) (segRefs t) (s3Blocks
  t) (s3Bytes t) (counters t) (uploads t) (downloads t) (objects t) (replaced t) (tick t).
Definition set_closures v (t : T) : T := mkTiered (d t) (vols t) (idx t) (refs t) (nextPtr t) v (nextClosure t) (kick
  t) (promote t) (restoreq t) (dropq t) (readSem t) (breaker t) (spillInflight t) (gcQueued t) (segRefs t) (s3Blocks
  t) (s3Bytes t) (counters t) (uploads t) (downloads t) (objects t) (replaced t) (tick t).
Definition set_nextClosure v (t : T) : T := mkTiered (d t) (vols t) (idx t) (refs t) (nextPtr t) (closures t) v (kick
  t) (promote t) (restoreq t) (dropq t) (readSem t) (breaker t) (spillInflight t) (gcQueued t) (segRefs t) (s3Blocks
  t) (s3Bytes t) (counters t) (uploads t) (downloads t) (objects t) (replaced t) (tick t).
Definition set_kick v (t : T) : T := mkTiered (d t) (vols t) (idx t) (refs t) (nextPtr t) (closures t) (nextClosure t)
  v (promote t) (restoreq t) (dropq t) (readSem t) (breaker t) (spillInflight t) (gcQueued t) (segRefs t) (s3Blocks t)
  (s3Bytes t) (counters t) (uploads t) (downloads t) (objects t) (replaced t) (tick t).
Definition set_promote v (t : T) : T := mkTiered (d t) (vols t) (idx t) (refs t) (nextPtr t) (closures t) (nextClosure
  t) (kick t) v (restoreq t) (dropq t) (readSem t) (breaker t) (spillInflight t) (gcQueued t) (segRefs t) (s3Blocks t)
  (s3Bytes t) (counters t) (uploads t) (downloads t) (objects t) (replaced t) (tick t).
Definition set_restoreq v (t : T) : T := mkTiered (d t) (vols t) (idx t) (refs t) (nextPtr t) (closures t)
  (nextClosure t) (kick t) (promote t) v (dropq t) (readSem t) (breaker t) (spillInflight t) (gcQueued t) (segRefs t)
  (s3Blocks t) (s3Bytes t) (counters t) (uploads t) (downloads t) (objects t) (replaced t) (tick t).
Definition set_dropq v (t : T) : T := mkTiered (d t) (vols t) (idx t) (refs t) (nextPtr t) (closures t) (nextClosure
  t) (kick t) (promote t) (restoreq t) v (readSem t) (breaker t) (spillInflight t) (gcQueued t) (segRefs t) (s3Blocks
  t) (s3Bytes t) (counters t) (uploads t) (downloads t) (objects t) (replaced t) (tick t).
Definition set_readSem v (t : T) : T := mkTiered (d t) (vols t) (idx t) (refs t) (nextPtr t) (closures t) (nextClosure
  t) (kick t) (promote t) (restoreq t) (dropq t) v (breaker t) (spillInflight t) (gcQueued t) (segRefs t) (s3Blocks t)
  (s3Bytes t) (counters t) (uploads t) (downloads t) (objects t) (replaced t) (tick t).
Definition set_breaker v (t : T) : T := mkTiered (d t) (vols t) (idx t) (refs t) (nextPtr t) (closures t) (nextClosure
  t) (kick t) (promote t) (restoreq t) (dropq t) (readSem t) v (spillInflight t) (gcQueued t) (segRefs t) (s3Blocks t)
  (s3Bytes t) (counters t) (uploads t) (downloads t) (objects t) (replaced t) (tick t).
Definition set_spillInflight v (t : T) : T := mkTiered (d t) (vols t) (idx t) (refs t) (nextPtr t) (closures t)
  (nextClosure t) (kick t) (promote t) (restoreq t) (dropq t) (readSem t) (breaker t) v (gcQueued t) (segRefs t)
  (s3Blocks t) (s3Bytes t) (counters t) (uploads t) (downloads t) (objects t) (replaced t) (tick t).
Definition set_gcQueued v (t : T) : T := mkTiered (d t) (vols t) (idx t) (refs t) (nextPtr t) (closures t)
  (nextClosure t) (kick t) (promote t) (restoreq t) (dropq t) (readSem t) (breaker t) (spillInflight t) v (segRefs t)
  (s3Blocks t) (s3Bytes t) (counters t) (uploads t) (downloads t) (objects t) (replaced t) (tick t).
Definition set_segRefs v (t : T) : T := mkTiered (d t) (vols t) (idx t) (refs t) (nextPtr t) (closures t) (nextClosure
  t) (kick t) (promote t) (restoreq t) (dropq t) (readSem t) (breaker t) (spillInflight t) (gcQueued t) v (s3Blocks t)
  (s3Bytes t) (counters t) (uploads t) (downloads t) (objects t) (replaced t) (tick t).
Definition set_s3Blocks v (t : T) : T := mkTiered (d t) (vols t) (idx t) (refs t) (nextPtr t) (closures t)
  (nextClosure t) (kick t) (promote t) (restoreq t) (dropq t) (readSem t) (breaker t) (spillInflight t) (gcQueued t)
  (segRefs t) v (s3Bytes t) (counters t) (uploads t) (downloads t) (objects t) (replaced t) (tick t).
Definition set_s3Bytes v (t : T) : T := mkTiered (d t) (vols t) (idx t) (refs t) (nextPtr t) (closures t) (nextClosure
  t) (kick t) (promote t) (restoreq t) (dropq t) (readSem t) (breaker t) (spillInflight t) (gcQueued t) (segRefs t)
  (s3Blocks t) v (counters t) (uploads t) (downloads t) (objects t) (replaced t) (tick t).
Definition set_counters v (t : T) : T := mkTiered (d t) (vols t) (idx t) (refs t) (nextPtr t) (closures t)
  (nextClosure t) (kick t) (promote t) (restoreq t) (dropq t) (readSem t) (breaker t) (spillInflight t) (gcQueued t)
  (segRefs t) (s3Blocks t) (s3Bytes t) v (uploads t) (downloads t) (objects t) (replaced t) (tick t).
Definition set_uploads v (t : T) : T := mkTiered (d t) (vols t) (idx t) (refs t) (nextPtr t) (closures t) (nextClosure
  t) (kick t) (promote t) (restoreq t) (dropq t) (readSem t) (breaker t) (spillInflight t) (gcQueued t) (segRefs t)
  (s3Blocks t) (s3Bytes t) (counters t) v (downloads t) (objects t) (replaced t) (tick t).
Definition set_downloads v (t : T) : T := mkTiered (d t) (vols t) (idx t) (refs t) (nextPtr t) (closures t)
  (nextClosure t) (kick t) (promote t) (restoreq t) (dropq t) (readSem t) (breaker t) (spillInflight t) (gcQueued t)
  (segRefs t) (s3Blocks t) (s3Bytes t) (counters t) (uploads t) v (objects t) (replaced t) (tick t).
Definition set_objects v (t : T) : T := mkTiered (d t) (vols t) (idx t) (refs t) (nextPtr t) (closures t) (nextClosure
  t) (kick t) (promote t) (restoreq t) (dropq t) (readSem t) (breaker t) (spillInflight t) (gcQueued t) (segRefs t)
  (s3Blocks t) (s3Bytes t) (counters t) (uploads t) (downloads t) v (replaced t) (tick t).
Definition set_replaced v (t : T) : T := mkTiered (d t) (vols t) (idx t) (refs t) (nextPtr t) (closures t)
  (nextClosure t) (kick t) (promote t) (restoreq t) (dropq t) (readSem t) (breaker t) (spillInflight t) (gcQueued t)
  (segRefs t) (s3Blocks t) (s3Bytes t) (counters t) (uploads t) (downloads t) (objects t) v (tick t).
Definition set_tick v (t : T) : T := mkTiered (d t) (vols t) (idx t) (refs t) (nextPtr t) (closures t) (nextClosure t)
  (kick t) (promote t) (restoreq t) (dropq t) (readSem t) (breaker t) (spillInflight t) (gcQueued t) (segRefs t)
  (s3Blocks t) (s3Bytes t) (counters t) (uploads t) (downloads t) (objects t) (replaced t) v.
End Setters.

Section Tiers.
Context {A P : Type} `{!Dram.ExtentAlloc A} `{!Policy P} `{!Index.IndexEnv} `{!Xxh3} `{!Outside}.
Context (time : nat -> Z) (vp : nat -> Nvme.VolumeParams) (p : Params).

Abbreviation T := (Tiered A P).
Abbreviation act := (act T).
Abbreviation prog := (prog T).

(** ** Actions *)

(** A call into the DRAM tier, and one into the [i]-th volume. *)
Definition dram {B} (m : sm (Dram.Store A P) B) : act B := fun t =>
  match m (d t) with Some (b, s) => Next b (set_d s t) | None => Panicked end.

Definition vol {B} (i : nat) (m : Nvme.M B) : act B := fun t =>
  match vols t !! i with
  | None => Panicked
  | Some v => match m v with
              | Nvme.Ret b v' => Next b (set_vols (<[i := v']> (vols t)) t)
              | Nvme.Crash _ => Halted
              | Nvme.Panic => Panicked
              end
  end.

Definition now : act Z := dram (Dram.now time).
Definition bump (c : counter) : act unit :=
  put (fun t => set_counters (fun c' => if decide (c' = c) then counters t c' + 1 else counters t c') t).

(** The next answer of the environment. *)
Definition ask {B} (f : nat -> B) : act B := fun t => Next (f (tick t)) (set_tick (S (tick t)) t).

(** [if t.p.Quotas != nil { t.p.Quotas.f() }]: the accountant of the DRAM tier. *)
Definition quotas (f : Quotas.Quotas -> Quotas.Quotas) : act unit :=
  put (fun t => match Dram.quotas (d t) with
                | Some q => set_d (Dram.set_quotas (Some (f q)) (d t)) t
                | None => t
                end).

Definition readmit (k : Key) (size t : Z) : act unit := dram (Dram.polAdmit k size t).

(** A send on [kick] that does not wait. *)
Definition kickDemoter : act unit := put (set_kick true).

(** ** The index below DRAM ([nvmeindex.go]) *)

Definition iget (k : Key) : act (option Z) := get (fun t => @Index.Get nvShards (idx t) k).

Definition deref (ref : Z) : act nvmeRef := fun t =>
  match refs t !! ref with Some r => Next r t | None => Panicked end.

Definition setRef (ref : Z) (r : nvmeRef) : act unit := put (fun t => set_refs (<[ref := r]> (refs t)) t).

(** [&nvmeRef{...}]. *)
Definition newRef (r : nvmeRef) : act Z := fun t =>
  Next (nextPtr t) (set_nextPtr (nextPtr t + 1) (set_refs (<[nextPtr t := r]> (refs t)) t)).

(** The source asserts, in debug builds, that an overwritten record is not
    s3-resident; here every overwritten record is noted. *)
Definition putThen (k : Key) (ref : Z) (fn : act unit) : act unit :=
  o ← iget k;
  old ← (match o with
         | Some q => r ← deref q; put (fun t => set_replaced ((k, r) :: replaced t) t);; mret (Some (Len r))
         | None => mret None
         end);
  r ← deref ref;
  put (fun t => set_idx (@putKey nvShards (idx t) k ref (Len r) old) t);;
  fn.

Definition deleteIf (k : Key) (gate : Z -> act Z) : act (option Z * Z) :=
  o ← iget k;
  match o with
  | None => mret (None, StatusNotFound)
  | Some ref =>
      st ← gate ref;
      if negb (st =? StatusOK) then mret (None, st) else
      r ← deref ref;
      put (fun t => set_idx (@Index.removeKey nvShards (idx t) k (Len r)) t);;
      mret (Some ref, StatusOK)
  end.

Definition withShardLock {B} (k : Key) (fn : option Z -> act B) : act B := o ← iget k; fn o.

(** [t.volumeFor(key)]; without volumes the division panics. *)
Definition volumeFor (key : bytes) : act nat := fun t =>
  match le_get 8 key, vols t with
  | Some h, _ :: _ => Next (Z.to_nat (h `mod` len (vols t))) t
  | _, _ => Panicked
  end.

(** [vol.Read(ctx, ...)]: [ctx] tells whether the caller can go away. The hold on
    the segment of a successful read is the caller's. *)
Definition volRead (ctx : bool) (i : nat) (loc : Loc) (ns : Z) (key : bytes) (want : Z) : act (Nvme.ReadStatus * bytes) :=
  c ← (if ctx then ask canceled else mret false);
  if c : bool then mret (Nvme.ReadGone, [])
  else vol i (@Nvme.Read _ (volWorld i) (vp i) loc ns key want).

(** ** Object liveness and its garbage collection ([s3tier.go]) *)

(** Whether the count just reached zero by a removal. *)
Definition s3SegAdd (id dl : Z) : act bool := fun t =>
  let n := default 0 (segRefs t !! id) + dl in
  Next ((n <=? 0) && (dl <? 0))
    (set_segRefs (if n <=? 0 then delete id (segRefs t) else <[id := n]> (segRefs t)) t).

Definition s3SegLive (id : Z) : act bool := get (fun t => 0 <? default 0 (segRefs t !! id)).

(** [LoadOrStore] on a [sync.Map] used as a set: whether the key was there. *)
Definition latch (id : Z) : act bool := fun t =>
  Next (bool_decide (id ∈ spillInflight t)) (set_spillInflight ({[id]} ∪ spillInflight t) t).
Definition unlatch (id : Z) : act unit := put (fun t => set_spillInflight (spillInflight t ∖ {[id]}) t).

Definition nominate (id : Z) : act bool := fun t =>
  Next (bool_decide (id ∈ gcQueued t)) (set_gcQueued ({[id]} ∪ gcQueued t) t).
Definition unnominate (id : Z) : act unit := put (fun t => set_gcQueued (gcQueued t ∖ {[id]}) t).

(** Sends that do not wait, on channels of capacity 64, 64 and 4. *)
Definition sendDrop (id : Z) : act bool := fun t =>
  if 64 <=? len (dropq t) then Next false t else Next true (set_dropq (dropq t ++ [id]) t).
Definition sendPromote (r : Key * Z) : act bool := fun t =>
  if 64 <=? len (promote t) then Next false t else Next true (set_promote (promote t ++ [r]) t).
Definition sendRestore (r : Key * Z) : act bool := fun t =>
  if 4 <=? len (restoreq t) then Next false t else Next true (set_restoreq (restoreq t ++ [r]) t).

Definition enqueueObjectGC (id : Z) : prog unit :=
  if negb (Spill p) then mret tt else
  queued ⇐ nominate id;
  if queued : bool then mret tt else
  sent ⇐ sendDrop id;
  if sent : bool then mret tt else
  _ ⇐ unnominate id;
  _ ⇐ bump cS3GCSkips;
  mret tt.

Definition refundNvmeQuota (ns : Z) (ref : option Z) : prog unit :=
  match ref with
  | None => mret tt
  | Some ref =>
      r ⇐ deref ref;
      if Len r =? 0 then mret tt else
      only ⇐ S3Only <$> deref ref;
      tier ← (if only : bool then
                _ ⇐ put (fun t => set_s3Blocks (s3Blocks t - 1) t);
                _ ⇐ put (fun t => set_s3Bytes (s3Bytes t - Len r) t);
                zero ⇐ s3SegAdd (SegmentID (Loc_ r)) (-1);
                (if zero : bool then enqueueObjectGC (SegmentID (Loc_ r)) else mret tt);;
                mret Registry.TierS3
              else mret Registry.TierNVMe);
      _ ⇐ quotas (fun q => Quotas.Refund q ns tier (Len r));
      mret tt
  end.

(** ** The cold read ([s3tier.go]) *)

Definition s3ColdReadConcurrency : Z := 16.
Definition s3BreakerTripAfter : Z := 8.
Definition s3BreakerCooldown : Z := 5000 * Lifecycle.Millisecond.

Definition i64 (z : Z) : Z := sint 64 z.

Definition s3BreakerOpen (t : Z) : act bool :=
  get (fun s => negb ((breaker s).2 =? 0) && (t <? (breaker s).2)).

Definition s3BreakerAllow (t : Z) : prog bool :=
  until ⇐ get (fun s => (breaker s).2);
  if until =? 0 then mret true else
  if t <? until then mret false else
  won ⇐ (fun s => if (breaker s).2 =? until
                  then Next true (set_breaker ((breaker s).1, i64 (t + s3BreakerCooldown)) s) else Next false s);
  mret won.

Definition s3BreakerNote (ok : bool) (t : Z) : prog unit :=
  if ok then
    _ ⇐ put (fun s => set_breaker (0, (breaker s).2) s);
    _ ⇐ put (fun s => set_breaker ((breaker s).1, 0) s);
    mret tt
  else
    n ⇐ (fun s => let n := sint 32 ((breaker s).1 + 1) in Next n (set_breaker (n, (breaker s).2) s));
    if s3BreakerTripAfter <=? n then
      old ⇐ (fun s => Next (breaker s).2 (set_breaker ((breaker s).1, i64 (t + s3BreakerCooldown)) s));
      if old =? 0 then _ ⇐ bump cS3BreakerOpens; mret tt else mret tt
    else mret tt.

Definition tryReadSem : act bool := fun t =>
  if s3ColdReadConcurrency <=? readSem t then Next false t else Next true (set_readSem (readSem t + 1) t).
Definition leaveReadSem : act unit := put (fun t => set_readSem (readSem t - 1) t).

(** What follows the semaphore. The buffer has the block's length. *)
Definition readRange (ctx : bool) (r : nvmeRef) (t : Z) : prog (Z * bytes) :=
  ans ⇐ ask rangeRead;
  match ans with
  | RangeGone => _ ⇐ bump cS3ReadNotFound; s3BreakerNote true t;; mret (StatusNotFound, [])
  | RangeSick =>
      c ⇐ (if ctx then ask canceled else mret false);
      if c : bool then mret (StatusNotFound, []) else
      _ ⇐ bump cS3ReadErrs;
      s3BreakerNote false t;; mret (StatusNotFound, [])
  | RangeOk data =>
      let buf := resize (Z.to_nat (Len r)) Byte.x00 data in
      s3BreakerNote true t;;
      if negb (xxh3 buf =? XXH3 r) then _ ⇐ bump cS3ChecksumErrs; mret (StatusNotFound, [])
      else _ ⇐ bump cS3Hits; mret (StatusOK, buf)
  end.

Definition readS3 (ctx : bool) (ref : Z) : prog (Z * bytes) :=
  if negb (Restore p) then mret (StatusNotFound, []) else
  r ⇐ deref ref;
  if negb (S3 r) then mret (StatusNotFound, []) else
  t ⇐ now;
  allowed ← s3BreakerAllow t;
  if negb allowed then _ ⇐ bump cS3BreakerSkips; mret (StatusNotFound, []) else
  slot ⇐ tryReadSem;
  if negb slot then _ ⇐ bump cS3ReadBusy; mret (StatusErrBusy, []) else
  res ← readRange ctx r t;
  _ ⇐ leaveReadSem;
  mret res.

(** ** Reads *)

Inductive tierName := OnDram | OnNvme | OnS3.

(** What [release] gives back. *)
Inductive hold := HoldDram (ref : Z) | HoldSegment (i : nat) (id : Z) | HoldNone.

Inductive got := Served (tier : tierName) (data : bytes) (sum : Z) (h : hold) | Answer (st : Z).

Definition clampLeaseMS (ttlMS : Z) : Z :=
  let t := if ttlMS =? 0 then LeaseDefaultMS p else ttlMS in
  if LeaseMaxMS p <? t then LeaseMaxMS p else t.

Definition promoteMinGap : Z := 10 * Lifecycle.Millisecond.

(** The lease and the access time of a hit, when the key still has this record;
    [None] when it does not. *)
Definition noteHit (k : Key) (e t : Z) : act (option Z) :=
  withShardLock k (fun o =>
    if bool_decide (o = Some e) then
      r ← deref e;
      setRef e (set_LastAccess t (extendNvmeLease r (i64 (t + clampLeaseMS 0 * Lifecycle.Millisecond))));;
      mret (Some (LastAccess r))
    else mret None).

Definition secondHit (prev : option Z) (t : Z) : bool :=
  match prev with
  | None => false
  | Some prev => (0 <? PromoteWindow p) && negb (prev =? 0) && (i64 (t - prev) <=? PromoteWindow p)
                 && (promoteMinGap <=? i64 (t - prev))
  end.

(** The identity gate of the self-heal. *)
Definition healGate (e ref : Z) : act Z := mret (if ref =? e then StatusOK else StatusErrBusy).

Definition getCold (ctx : bool) (k : Key) (e sum : Z) : prog got :=
  '(cst, data) ← readS3 ctx e;
  if cst =? StatusErrBusy then _ ⇐ bump cReadBusy; mret (Answer StatusErrBusy) else
  if cst =? StatusOK then
    t ⇐ now;
    prev ⇐ noteHit k e t;
    (if secondHit prev t then
       only ⇐ S3Only <$> deref e;
       if only : bool then
         sent ⇐ sendRestore (k, e);
         if sent : bool then mret tt else _ ⇐ bump cS3RestoreSkips; mret tt
       else mret tt
     else mret tt);;
    mret (Served OnS3 data sum HoldNone)
  else mret (Answer StatusNotFound).

Definition getNvme (ctx : bool) (k : Key) (e : Z) : prog got :=
  r ⇐ deref e;
  i ⇐ volumeFor (Hash k);
  '(rst, blob) ⇐ volRead ctx i (Loc_ r) (NS k) (Hash k) (XXH3 r);
  match rst with
  | Nvme.ReadBusy => _ ⇐ bump cReadBusy; mret (Answer StatusErrBusy)
  | Nvme.ReadGone =>
      c ⇐ (if ctx then ask canceled else mret false);
      if c : bool then mret (Answer StatusNotFound) else getCold ctx k e (XXH3 r)
  | Nvme.ReadCorrupt =>
      _ ⇐ bump cChecksumErrs;
      '(healed, _) ⇐ deleteIf k (healGate e);
      refundNvmeQuota (NS k) healed;;
      mret (Answer StatusNotFound)
  | Nvme.ReadOK =>
      t ⇐ now;
      prev ⇐ noteHit k e t;
      (if secondHit prev t then _ ⇐ sendPromote (k, e); mret tt else mret tt);;
      mret (Served OnNvme blob (XXH3 r) (HoldSegment i (SegmentID (Loc_ r))))
  end.

Definition GetRefTier (ctx : bool) (ns : Z) (key : bytes) : prog got :=
  hit ⇐ dram (Dram.GetRef time ns key);
  match hit with
  | Some (data, sum, ref) => mret (Served OnDram data sum (HoldDram ref))
  | None =>
      let k := mkKey ns key in
      e ⇐ iget k;
      match e with
      | None => mret (Answer StatusNotFound)
      | Some e => getNvme ctx k e
      end
  end.

(** The callback a served read is released by. *)
Definition release (h : hold) : prog unit :=
  match h with
  | HoldDram ref => _ ⇐ dram (Dram.releaseRef ref); mret tt
  | HoldSegment i id => _ ⇐ vol i (Nvme.releaseRead id); mret tt
  | HoldNone => mret tt
  end.

Definition Get (ns : Z) (key : bytes) : prog (option (bytes * Z)) :=
  g ← GetRefTier false ns key;
  match g with
  | Answer _ => mret None
  | Served _ data sum h => release h;; mret (Some (data, sum))
  end.

(** ** The rest of the store surface ([tiered.go]) *)

(** A refusal nudges the demoter. *)
Definition kicking (m : act bool) : prog bool :=
  ok ⇐ m;
  if ok : bool then mret true else _ ⇐ kickDemoter; mret false.

Definition CanStore (n : Z) : prog bool := kicking (dram (Dram.CanStore time n)).
Definition CanStoreNS (ns n : Z) : prog bool := kicking (dram (Dram.CanStoreNS time ns n)).

Definition icontains (k : Key) : act bool := (fun o => bool_decide (is_Some o)) <$> iget k.

Definition Contains (ns : Z) (key : bytes) : prog bool :=
  hit ⇐ dram (Dram.Contains ns key);
  if hit : bool then mret true else hit ⇐ icontains (mkKey ns key); mret hit.

Fixpoint existsLoop (ns : Z) (keys : list bytes) (counting : bool) (n : Z) (perKey : list Z) : prog (Z * list Z) :=
  match keys with
  | [] => mret (n, perKey)
  | key :: keys =>
      hit ← Contains ns key;
      let n := if hit && counting then u32 (n + 1) else n in
      existsLoop ns keys (hit && counting) n (perKey ++ [if hit : bool then StatusOK else StatusNotFound])
  end.

Definition ExistsPrefix (ns : Z) (keys : list bytes) (withBitmap : bool) : prog (Z * option (list Z)) :=
  '(n, perKey) ← existsLoop ns keys true 0 [];
  mret (n, if withBitmap then Some perKey else None).

Definition Put (ns : Z) (key data : bytes) (sum : Z) : prog Z :=
  let k := mkKey ns key in
  e ⇐ iget k;
  match e with
  | Some e => r ⇐ deref e; mret (if XXH3 r =? sum then StatusOKExists else StatusErrImmutableConflict)
  | None =>
      st ⇐ dram (Dram.Put time ns key data sum);
      if negb (st =? StatusOK) then mret st else
      e ⇐ iget k;
      match e with
      | Some e =>
          r ⇐ deref e;
          if XXH3 r =? sum then mret st else
          _ ⇐ dram (Dram.Delete time ns key true);
          mret StatusErrImmutableConflict
      | None => mret st
      end
  end.

Definition canDeleteNvme (force : bool) (ref : Z) : act Z :=
  r ← deref ref;
  if hardPinned r then mret StatusErrPinned else
  if force then mret StatusOK else
  t ← now;
  mret (if leased r t then StatusErrLeased else if pinned r then StatusErrPinned else StatusOK).

Definition deleteNvme (k : Key) (force : bool) : prog (bool * Z) :=
  '(ref, st) ⇐ deleteIf k (canDeleteNvme force);
  refundNvmeQuota (NS k) ref;;
  mret (bool_decide (is_Some ref), st).

Definition Delete (ns : Z) (key : bytes) (force : bool) : prog Z :=
  '(removed, nvSt) ← deleteNvme (mkKey ns key) force;
  if (nvSt =? StatusErrLeased) || (nvSt =? StatusErrPinned) then mret nvSt else
  dSt ⇐ dram (Dram.Delete time ns key force);
  mret (if negb (dSt =? StatusNotFound) then dSt else if removed : bool then StatusOK else StatusNotFound).

Definition touchNvme (sub ttlMS t : Z) (o : option Z) : act Z :=
  match o with
  | None => mret StatusNotFound
  | Some e =>
      r ← deref e;
      if sub =? TouchRecency then
        (if 0 <? ttlMS then setRef e (set_TTLUntil (i64 (t + ttlMS * Lifecycle.Millisecond)) r) else mret tt);;
        mret StatusOK
      else if sub =? LeaseGrant then
        setRef e (extendNvmeLease r (i64 (t + clampLeaseMS ttlMS * Lifecycle.Millisecond)));; mret StatusOK
      else if sub =? LeaseRelease then setRef e (set_LeaseUntil 0 r);; mret StatusOK
      else mret StatusErrUnsupported
  end.

Definition TouchLease (ns : Z) (key : bytes) (sub ttlMS : Z) : prog Z :=
  st ⇐ dram (Dram.TouchLease time ns key sub ttlMS);
  if negb (st =? StatusNotFound) then mret st else
  t ⇐ now;
  st ⇐ withShardLock (mkKey ns key) (touchNvme sub ttlMS t);
  mret st.

(** ** Promotion ([demote.go]) *)

(** The bytes a promotion puts back, or the status it fails with. *)
Definition promoteRead (k : Key) (e : Z) : prog (Z + bytes) :=
  r ⇐ deref e;
  i ⇐ volumeFor (Hash k);
  '(st, blob) ⇐ volRead false i (Loc_ r) (NS k) (Hash k) (XXH3 r);
  match st with
  | Nvme.ReadOK => _ ⇐ vol i (Nvme.releaseRead (SegmentID (Loc_ r))); mret (inr blob)
  | Nvme.ReadBusy => mret (inl StatusErrBusy)
  | Nvme.ReadCorrupt => mret (inl StatusNotFound)
  | Nvme.ReadGone =>
      '(cst, data) ← readS3 false e;
      if cst =? StatusOK then mret (inr data) else
      if cst =? StatusErrBusy then mret (inl StatusErrBusy) else
      t ⇐ now;
      open ⇐ s3BreakerOpen t;
      mret (inl (if open : bool then StatusErrBusy else StatusNotFound))
  end.

Definition promoteSync (k : Key) (e : Z) : prog Z :=
  res ← promoteRead k e;
  match res with
  | inl st => mret st
  | inr heap =>
      r ⇐ deref e;
      pst ⇐ dram (Dram.Put time (NS k) (Hash k) heap (XXH3 r));
      if pst =? StatusOK then _ ⇐ bump cPromotions; mret StatusOK
      else mret (if pst =? StatusOKExists then StatusOK else StatusErrBusy)
  end.

Definition promoteOne (req : Key * Z) : prog unit :=
  cur ⇐ iget req.1;
  if bool_decide (cur = Some req.2) then promoteSync req.1 req.2;; mret tt else mret tt.

Definition pinNvme (sub : Z) (o : option Z) : act Z :=
  match o with
  | None => mret StatusNotFound
  | Some e => r ← deref e; setRef e (set_PinFlags (if sub =? PinSoft then nvPinSoftBit else 0) r);; mret StatusOK
  end.

Definition PinOp (ns : Z) (key : bytes) (sub : Z) : prog Z :=
  st ⇐ dram (Dram.PinOp ns key sub);
  if negb (st =? StatusNotFound) then mret st else
  let k := mkKey ns key in
  e ⇐ iget k;
  match e with
  | None => mret StatusNotFound
  | Some e =>
      if (sub =? PinSoft) || (sub =? Wire.Ops.Unpin) then st ⇐ withShardLock k (pinNvme sub); mret st
      else if sub =? PinHard then
        st ← promoteSync k e;
        if negb (st =? StatusOK) then mret st else st ⇐ dram (Dram.PinOp ns key sub); mret st
      else mret StatusErrUnsupported
  end.

(** ** Demotion ([demote.go]) *)

(** [t.d.CompleteDemotion] with its callback, which runs under the DRAM shard's
    lock once the gate has passed and gets the record's TTL. *)
Definition completeDemotion (k : Key) (sum : Z) (publish : option (Z -> act unit)) : act bool :=
  ttl ← get (fun t => match Index.Get (Dram.index_ (d t)) k with
                      | Some q => match Dram.heap (d t) !! q with Some r => Block.TTLUntil r | None => 0 end
                      | None => 0
                      end);
  ok ← dram (Dram.CompleteDemotion time (NS k) (Hash k) sum (bool_decide (is_Some publish)));
  if negb ok then mret false else
  (match publish with Some f => f ttl | None => mret tt end);; mret true.

(** The publication of a written block. *)
Definition publish (k : Key) (loc : Loc) (sum ttl : Z) : act unit :=
  nr ← newRef (freshRef loc sum ttl);
  putThen k nr (quotas (fun q => Quotas.Transfer q (NS k) Registry.TierDRAM Registry.TierNVMe (LenOf loc))).

(** A victim the demotion gives back to the policy. *)
Definition dropDemotion (dm : demotion) : act unit :=
  bump cDemoteDrops;; readmit (dm_k dm) (dm_size dm) (dm_now dm).

(** [OnWritten]: [None] is [wok=false]. *)
Definition onWritten (dm : demotion) (loc : option Loc) : act unit :=
  dram (Dram.releaseRef (dm_ref dm));;
  match loc with
  | None => dropDemotion dm
  | Some loc =>
      published ← completeDemotion (dm_k dm) (dm_sum dm) (Some (publish (dm_k dm) loc (dm_sum dm)));
      if published : bool then bump cDemotions else dropDemotion dm
  end.

(** The callback named by a request. *)
Definition callback (a : Nvme.AppendReq * option Loc) : act unit := fun t =>
  match closures t !! Nvme.r_OnWritten a.1 with
  | Some dm => onWritten dm a.2 (set_closures (delete (Nvme.r_OnWritten a.1) (closures t)) t)
  | None => Panicked
  end.

(** A volume call whose callbacks are then made, in order. *)
Definition calling (i : nat) (m : Nvme.M unit) : act unit :=
  vol i (Nvme.modify (Nvme.set_acks []));;
  vol i m;;
  acks ← vol i (Nvme.gets Nvme.acks);
  each callback (reverse acks).

Definition writerTurn (i : nat) : prog unit := _ ⇐ calling i (@Nvme.writerTurn (volWorld i) (vp i)); mret tt.

(** [vol.Append] of a request with a fresh closure. *)
Definition append (i : nat) (k : Key) (sum : Z) (data : bytes) (dm : demotion) : act bool :=
  c ← get nextClosure;
  ok ← vol i (Nvme.Append (Nvme.mkAppendReq (NS k) (Hash k) sum data c));
  (if ok : bool then put (fun t => set_nextClosure (c + 1) (set_closures (<[c := dm]> (closures t)) t)) else mret tt);;
  mret ok.

(** The completion of a demotion that writes nothing; [pub] when the block stays
    resident below. *)
Definition demoteDone (k : Key) (sum ref size resident t : Z) (c : counter) (pub : bool) : prog Z :=
  _ ⇐ dram (Dram.releaseRef ref);
  ok ⇐ completeDemotion k sum (if pub then Some (fun _ => mret tt) else None);
  if ok : bool then
    _ ⇐ bump c;
    _ ⇐ quotas (fun q => Quotas.Refund q (NS k) Registry.TierDRAM resident);
    mret size
  else _ ⇐ readmit k size t; mret 0.

Definition demoteWrite (k : Key) (size t : Z) (data : bytes) (sum ref : Z) : prog Z :=
  i ⇐ volumeFor (Hash k);
  accepted ⇐ append i k sum data (mkDemotion k size t sum ref);
  if accepted : bool then mret size else
  _ ⇐ dram (Dram.releaseRef ref);
  _ ⇐ dropDemotion (mkDemotion k size t sum ref);
  mret 0.

Definition demoteOne (k : Key) (size t : Z) : prog Z :=
  held ⇐ dram (Dram.RefForDemotion (NS k) (Hash k));
  match held with
  | None => mret 0
  | Some (data, sum, hits, ref) =>
      let resident := len data in
      e ⇐ iget k;
      same ← (match e with Some e => r ⇐ deref e; mret (XXH3 r =? sum) | None => mret false end);
      if same : bool then demoteDone k sum ref size resident t cDedupSkips true else
      if hits <? AdmitMinHits p then demoteDone k sum ref size resident t cAdmitRefusals false else
      demoteWrite k size t data sum ref
  end.

(** [harvest] over the candidates of one namespace. *)
Fixpoint demoteAll (cands : list Candidate) (t moved processed : Z) : prog (Z * Z) :=
  match cands with
  | [] => mret (moved, processed)
  | c :: cands =>
      n ← demoteOne (c_Key c) (c_Size c) t;
      demoteAll cands t (moved + n) (processed + 1)
  end.

Definition harvest (ns want t moved processed : Z) : prog (Z * Z) :=
  cands ⇐ dram (Dram.polVictims ns want t);
  demoteAll cands t moved processed.

Fixpoint demoteShares (us : list DomainUsage) (total t need moved processed : Z) : prog (Z * Z) :=
  match us with
  | [] => mret (moved, processed)
  | u :: us =>
      let share := Dram.shareOf need (d_Bytes u) total in
      if share <=? 0 then demoteShares us total t need moved processed else
      '(moved, processed) ← harvest (d_NS u) share t moved processed;
      demoteShares us total t need moved processed
  end.

Fixpoint demoteRest (us : list DomainUsage) (t need moved processed : Z) : prog Z :=
  match us with
  | [] => mret processed
  | u :: us =>
      if need <=? moved then mret processed else
      '(moved, processed) ← harvest (d_NS u) (need - moved) t moved processed;
      demoteRest us t need moved processed
  end.

Definition demotePass : prog Z :=
  none ⇐ get (fun t => bool_decide (vols t = []) || negb (bool_decide (is_Some (Dram.policy (d t)))));
  if none : bool then mret 0 else
  '(used, total) ⇐ dram Dram.Occupancy;
  if (total =? 0) || (used * 100 <? total * DemoteWatermarkPct p) then mret 0 else
  let need := used - Z.quot (total * (DemoteWatermarkPct p - DemoteBatchPct p)) 100 in
  if need <=? 0 then mret 0 else
  t ⇐ now;
  usages ⇐ dram (Dram.polUsage t);
  let totalBytes := foldr (fun u a => d_Bytes u + a) 0 usages in
  if totalBytes =? 0 then mret 0 else
  '(moved, processed) ← demoteShares usages totalBytes t need 0 0;
  demoteRest usages t need moved processed.

(** ** Moving a retired segment to the object store and back ([s3tier.go]) *)

Definition entryKey (e : footerEntry) : Key := mkKey (e_NS e) (e_Key e).

(** One entry of [s3FlipRetired], under its shard lock. *)
Definition flipRetired (id stranded : Z) (e : footerEntry) : act Z :=
  withShardLock (entryKey e) (fun o =>
    match o with
    | None => mret stranded
    | Some ref =>
        r ← deref ref;
        if negb (SegmentID (Loc_ r) =? id) || S3Only r then mret stranded else
        if 0 <? stranded then mret stranded else
        t ← now;
        if negb (S3 r) || leased r t || pinned r then mret (stranded + 1) else
        quotas (fun q => Quotas.Transfer q (e_NS e) Registry.TierNVMe Registry.TierS3 (Len r));;
        setRef ref (set_S3Only true r);;
        put (fun t => set_s3Blocks (s3Blocks t + 1) t);;
        put (fun t => set_s3Bytes (s3Bytes t + Len r) t);;
        s3SegAdd id 1;;
        mret stranded
    end).

Fixpoint flipRetiredAll (id stranded : Z) (es : list footerEntry) : prog Z :=
  match es with
  | [] => mret stranded
  | e :: es => n ⇐ flipRetired id stranded e; flipRetiredAll id n es
  end.

Definition s3FlipRetired (i : nat) (id : Z) : prog Z :=
  es ⇐ vol i (NvmeSpill.SegmentEntryKeys id);
  flipRetiredAll id 0 es.

(** One entry of [s3FlipRestored]. *)
Definition flipRestored (id : Z) (e : footerEntry) : act unit :=
  withShardLock (entryKey e) (fun o =>
    match o with
    | None => mret tt
    | Some ref =>
        r ← deref ref;
        if negb (SegmentID (Loc_ r) =? id) || negb (S3Only r) then mret tt else
        quotas (fun q => Quotas.Transfer q (e_NS e) Registry.TierS3 Registry.TierNVMe (Len r));;
        setRef ref (set_S3Only false r);;
        put (fun t => set_s3Blocks (s3Blocks t - 1) t);;
        put (fun t => set_s3Bytes (s3Bytes t - Len r) t);;
        s3SegAdd id (-1);;
        mret tt
    end).

Definition s3FlipRestored (i : nat) (id : Z) : prog unit :=
  es ⇐ vol i (NvmeSpill.SegmentEntryKeys id);
  forEach (fun e => _ ⇐ flipRestored id e; mret tt) es.

(** ** Reclaim ([demote.go]) *)

Inductive reclaimOutcome := reclaimStop | reclaimBusy | reclaimRetired.

Definition reclaimSkipBudget : Z := 8.

(** The advisory check of one entry. *)
Definition protectedIn (id t : Z) (e : footerEntry) : act bool :=
  withShardLock (entryKey e) (fun o =>
    match o with
    | None => mret false
    | Some ref => r ← deref ref; mret ((SegmentID (Loc_ r) =? id) && (leased r t || pinned r))
    end).

Fixpoint anyProtected (id t : Z) (es : list footerEntry) : prog bool :=
  match es with
  | [] => mret false
  | e :: es => b ⇐ protectedIn id t e; if b : bool then mret true else anyProtected id t es
  end.

Definition retireGate (id ref : Z) : act Z :=
  r ← deref ref;
  if negb (SegmentID (Loc_ r) =? id) then mret StatusErrBusy else
  t ← now;
  mret (if leased r t || pinned r then StatusErrLeased else StatusOK).

(** The walk that deletes; [false] when protection landed meanwhile. *)
Fixpoint deleteRetired (id : Z) (es : list footerEntry) : prog bool :=
  match es with
  | [] => mret true
  | e :: es =>
      '(removed, st) ⇐ deleteIf (entryKey e) (retireGate id);
      refundNvmeQuota (e_NS e) removed;;
      if st =? StatusErrLeased then mret false else deleteRetired id es
  end.

(** Under the segment's latch. *)
Definition retireHeld (i : nat) (id : Z) (es : list footerEntry) : prog (reclaimOutcome * Z) :=
  t ⇐ now;
  protected ← anyProtected id t es;
  if protected : bool then _ ⇐ bump cReclaimSkips; _ ⇐ bump cReclaimBlocked; mret (reclaimBusy, id) else
  begun ⇐ vol i (Nvme.RetireBegin id);
  if negb begun then mret (reclaimStop, id) else
  flip ← (if Spill p then b ⇐ vol i (NvmeSpill.IsSpilled id); mret b else mret false);
  done ← (if flip : bool then n ← s3FlipRetired i id; mret (n <=? 0) else deleteRetired id es);
  if negb done then _ ⇐ vol i (Nvme.RetireAbort id); _ ⇐ bump cReclaimSkips; mret (reclaimStop, id) else
  finished ⇐ vol i (@Nvme.RetireFinish (volWorld i) id);
  if negb finished then mret (reclaimStop, id) else
  _ ⇐ bump cReclaims;
  (if flip : bool then enqueueObjectGC id else mret tt);;
  mret (reclaimRetired, id).

Definition reclaimSegment (i : nat) (from : Z) : prog (reclaimOutcome * Z) :=
  o ⇐ vol i (@Nvme.OldestSealed (volWorld i) from);
  match o with
  | None => mret (reclaimStop, 0)
  | Some (id, es) =>
      loaded ⇐ latch id;
      if loaded : bool then _ ⇐ bump cReclaimSkips; mret (reclaimBusy, id) else
      res ← retireHeld i id es;
      _ ⇐ unlatch id;
      mret res
  end.

(** The loop over one volume; each round retires or skips a segment, so the
    twelve rounds of [fuel] are never used up. *)
Fixpoint reclaimVolume (fuel : nat) (i : nat) (from retired skipped : Z) : prog unit :=
  match fuel with
  | O => mret tt
  | S fuel =>
      if negb ((retired <? 4) && (skipped <? reclaimSkipBudget)) then mret tt else
      used ⇐ vol i (Nvme.gets Nvme.used);
      let max := Nvme.MaxBytes (vp i) in
      if (max <=? 0) || (used * 100 <=? max * 90) then mret tt else
      '(out, id) ← reclaimSegment i from;
      match out with
      | reclaimStop => mret tt
      | reclaimBusy => reclaimVolume fuel i (u32 (id + 1)) retired (skipped + 1)
      | reclaimRetired => reclaimVolume fuel i from (retired + 1) skipped
      end
  end.

Definition reclaimPass : prog unit :=
  n ⇐ get (fun t => length (vols t));
  forEach (fun i => reclaimVolume 12 i 0 0 0;;
                    _ ⇐ vol i (@Nvme.TryRecoverWrites (volWorld i) (vp i)); mret tt) (seq 0 n).

(** ** Spill ([s3tier.go]) *)

Definition spillOne (i : nat) (si : NvmeSpill.SegmentInfo) : prog unit :=
  let id := NvmeSpill.si_ID si in
  loaded ⇐ latch id;
  if loaded : bool then mret tt else
  ok ⇐ (fun t => if spillAccepts (tick t)
                 then Next true (set_uploads (uploads t ++ [(i, id)]) (set_tick (S (tick t)) t))
                 else Next false (set_tick (S (tick t)) t));
  if ok : bool then mret tt else _ ⇐ unlatch id; mret tt.

Definition spillPass : prog unit :=
  if negb (Spill p) then mret tt else
  n ⇐ get (fun t => length (vols t));
  forEach (fun i =>
    sis ⇐ vol i (@NvmeSpill.SealedUnspilled (volWorld i));
    forEach (spillOne i) sis) (seq 0 n).

(** One entry of the spill acknowledgement. *)
Definition markOne (id : Z) (e : footerEntry) : prog unit :=
  o ⇐ iget (entryKey e);
  match o with
  | None => mret tt
  | Some ref =>
      r ⇐ deref ref;
      if SegmentID (Loc_ r) =? id then
        _ ⇐ (r ← deref ref; setRef ref (set_S3 true r));
        mret tt
      else mret tt
  end.

(** The backend reports the [j]-th pending upload: the object is in the bucket
    when [up]. *)
Definition takeUpload (j : nat) (up : bool) : act (option (nat * Z)) := fun t =>
  match uploads t !! j with
  | None => Next None t
  | Some (i, id) =>
      Next (Some (i, id)) (set_uploads (delete j (uploads t))
                             (if up then set_objects ({[id]} ∪ objects t) t else t))
  end.

Definition onUp (j : nat) (up : bool) : prog unit :=
  u ⇐ takeUpload j up;
  match u with
  | None => mret tt
  | Some (i, id) =>
      (if up then
         es ⇐ vol i (NvmeSpill.SegmentEntryKeys id);
         forEach (markOne id) es;;
         _ ⇐ vol i (Nvme.MarkSpilled id);
         mret tt
       else mret tt);;
      _ ⇐ unlatch id;
      mret tt
  end.

(** ** Restore ([s3tier.go]) *)

(** [vol.AdoptSegment]; the checkpoint waits for [ckptWriteMu]. *)
Definition adopt (i : nat) (id : Z) (r : NvmeSpill.stream) : prog bool :=
  ok ⇐ vol i (NvmeSpill.adoptCheck id);
  if negb ok then mret false else
  seal ⇐ vol i (@NvmeSpill.adoptInstall (volWorld i) (vp i) id r);
  match seal with
  | None => mret false
  | Some seal =>
      ok ⇐ vol i (@NvmeSpill.adoptPublish (volWorld i) id seal);
      if negb ok then mret false else
      _ ⇐ (fun t => match vols t !! i with
                    | Some v => match Nvme.ckptSnap v with
                                | Some _ => Blocked
                                | None => vol i (@NvmeSpill.adoptCkpt (volWorld i) (vp i)) t
                                end
                    | None => Panicked
                    end);
      mret true
  end.

(** A download whose waiter has given up reaches its sink. *)
Definition takeDownload (j : nat) : act (option (nat * Z * NvmeSpill.stream)) := fun t =>
  match downloads t !! j with
  | None => Next None t
  | Some dl => Next (Some dl) (set_downloads (delete j (downloads t)) t)
  end.

Definition lateAdopt (j : nat) : prog unit :=
  o ⇐ takeDownload j;
  match o with
  | None => mret tt
  | Some (i, id, r) => adopt i id r;; mret tt
  end.

(** Under the segment's latch: whether the segment is now in the volume. *)
Definition restoreHeld (i : nat) (id : Z) : prog bool :=
  has ⇐ vol i (NvmeSpill.HasSegment id);
  if has : bool then mret true else
  used ⇐ vol i (Nvme.gets Nvme.used);
  let max := Nvme.MaxBytes (vp i) in
  if (0 <? max) && (max <? used + Nvme.SegmentBytes (vp i)) then
    _ ⇐ bump cS3RestoreSkips;
    _ ⇐ kickDemoter;
    mret false
  else
  ans ⇐ ask restoreSegment;
  ok ← (match ans with
        | RestoreFails => mret false
        | RestoreStreams r => adopt i id r
        | RestoreDetached r => _ ⇐ put (fun t => set_downloads (downloads t ++ [(i, id, r)]) t); mret false
        end);
  if ok : bool then mret true else _ ⇐ bump cS3RestoreErrs; mret false.

Definition restoreOne (req : Key * Z) : prog unit :=
  if negb (Restore p) then mret tt else
  let '(k, ref) := req in
  cur ⇐ iget k;
  if negb (bool_decide (cur = Some ref)) then mret tt else
  r ⇐ deref ref;
  if negb (S3Only r) then mret tt else
  let id := SegmentID (Loc_ r) in
  i ⇐ volumeFor (Hash k);
  loaded ⇐ latch id;
  if loaded : bool then _ ⇐ bump cS3RestoreSkips; mret tt else
  live ← restoreHeld i id;
  (if live : bool then s3FlipRestored i id;; _ ⇐ bump cS3SegRestores; mret tt else mret tt);;
  _ ⇐ unlatch id;
  mret tt.

(** ** Object drops ([s3tier.go]) *)

Fixpoint anySpilled (id : Z) (vs : list nat) : prog bool :=
  match vs with
  | [] => mret false
  | i :: vs => b ⇐ vol i (NvmeSpill.IsSpilled id); if b : bool then mret true else anySpilled id vs
  end.

(** [t.p.Spill.Drop]. *)
Definition dropCall (id : Z) : act bool := fun t =>
  let '(ok, gone) := dropAnswer (tick t) in
  Next ok (set_tick (S (tick t)) (if gone : bool then set_objects (objects t ∖ {[id]}) t else t)).

Definition dropObjectHeld (id : Z) : prog unit :=
  if negb (Spill p) then mret tt else
  live ⇐ s3SegLive id;
  if live : bool then mret tt else
  n ⇐ get (fun t => length (vols t));
  spilled ← anySpilled id (seq 0 n);
  if spilled : bool then mret tt else
  ok ⇐ dropCall id;
  _ ⇐ bump (if ok : bool then cS3GCs else cS3GCErrs);
  mret tt.

Definition dropObject (id : Z) : prog unit :=
  loaded ⇐ latch id;
  if loaded : bool then _ ⇐ bump cS3GCSkips; mret tt else
  dropObjectHeld id;;
  _ ⇐ unlatch id;
  mret tt.

(** ** Background loops and shutdown ([tiered.go]) *)

(** The ticker's body. Passes are taken one at a time in the source; here they
    may also overlap. *)
Definition tickBody : prog unit := demotePass;; spillPass;; reclaimPass.

(** A receive; [None] when there is nothing, and the loop waits on. *)
Definition recvDrop : act (option Z) := fun t =>
  match dropq t with [] => Next None t | id :: q => Next (Some id) (set_dropq q t) end.
Definition recvPromote : act (option (Key * Z)) := fun t =>
  match promote t with [] => Next None t | r :: q => Next (Some r) (set_promote q t) end.
Definition recvRestore : act (option (Key * Z)) := fun t =>
  match restoreq t with [] => Next None t | r :: q => Next (Some r) (set_restoreq q t) end.

Definition dropBody : prog unit :=
  o ⇐ recvDrop;
  match o with None => mret tt | Some id => _ ⇐ unnominate id; dropObject id end.
Definition promoteBody : prog unit :=
  o ⇐ recvPromote; match o with None => mret tt | Some r => promoteOne r end.
Definition restoreBody : prog unit :=
  o ⇐ recvRestore; match o with None => mret tt | Some r => restoreOne r end.

(** The volumes one by one, with the callbacks of the appends they fail; then
    the DRAM tier. *)
Definition Close : prog unit :=
  n ⇐ get (fun t => length (vols t));
  forEach (fun i => _ ⇐ calling i (@Nvme.Close (volWorld i)); mret tt) (seq 0 n);;
  _ ⇐ dram Dram.Close;
  mret tt.

(** The two tier counts of [Stats], each as the loads are made. *)
Definition tierCounts : prog (Z * Z * Z * Z) :=
  sb ⇐ get s3Blocks;
  sy ⇐ get s3Bytes;
  b ⇐ get (fun t => Index.blocks (idx t));
  y ⇐ get (fun t => Index.bytes_ (idx t));
  mret (if 0 <? sb then (Z.max 0 (b - sb), Z.max 0 (y - sy), sb, sy) else (b, y, sb, sy)).

(** ** Construction ([NewTiered]) *)

(** One recovered block. *)
Definition seedEntry (e : Nvme.RecoveredEntry) : act unit :=
  let k := mkKey (Nvme.re_NS e) (Nvme.re_Key e) in
  ref ← newRef (freshRef (Nvme.re_Loc e) (Nvme.re_XXH3 e) 0);
  putThen k ref (mret tt);;
  quotas (fun q => Quotas.Seed q (Nvme.re_NS e) Registry.TierNVMe (LenOf (Nvme.re_Loc e))).

Definition emptyTiered (s : Dram.Store A P) (vs : list Nvme.Volume) : T :=
  mkTiered s vs Index.NewIndex ∅ 1 ∅ 0 false [] [] [] 0 (0, 0) ∅ ∅ ∅ 0 0 (fun _ => 0) [] [] ∅ [] 0.

Definition NewTiered (s : Dram.Store A P) (vs : list Nvme.Volume) (recovered : list (list Nvme.RecoveredEntry))
  : outcome T unit := each seedEntry (concat recovered) (emptyTiered s vs).

(** ** What happens to the store *)

Inductive event :=
| EGet (ctx : bool) (ns : Z) (key : bytes)
| ERelease (h : hold)
| EPut (ns : Z) (key data : bytes) (sum : Z)
| EContains (ns : Z) (key : bytes)
| EExists (ns : Z) (keys : list bytes) (withBitmap : bool)
| EDelete (ns : Z) (key : bytes) (force : bool)
| ETouch (ns : Z) (key : bytes) (sub ttlMS : Z)
| EPin (ns : Z) (key : bytes) (sub : Z)
| ECanStore (ns n : Z)
| EStats
| EWriter (i : nat)                       (* a turn of a volume's writer *)
| ECkpt (i : nat)                         (* its checkpoint goroutine, started and done *)
| ECkptDone (i : nat)
| ETick
| EPromote
| ERestore
| EDrop
| EUploaded (j : nat) (up : bool)         (* the backend reports an upload *)
| ELate (j : nat).                        (* a cut-off download reaches its sink *)

Inductive reply :=
| RGot (g : got) | RStatus (st : Z) | RBool (b : bool) | RExists (n : Z) (perKey : option (list Z))
| RStats (c : Z * Z * Z * Z) | RDone.

Definition handler (e : event) : prog reply :=
  match e with
  | EGet ctx ns key => g ← GetRefTier ctx ns key; mret (RGot g)
  | ERelease h => release h;; mret RDone
  | EPut ns key data sum => st ← Put ns key data sum; mret (RStatus st)
  | EContains ns key => b ← Contains ns key; mret (RBool b)
  | EExists ns keys wb => '(n, per) ← ExistsPrefix ns keys wb; mret (RExists n per)
  | EDelete ns key force => st ← Delete ns key force; mret (RStatus st)
  | ETouch ns key sub ttl => st ← TouchLease ns key sub ttl; mret (RStatus st)
  | EPin ns key sub => st ← PinOp ns key sub; mret (RStatus st)
  | ECanStore ns n => b ← CanStoreNS ns n; mret (RBool b)
  | EStats => c ← tierCounts; mret (RStats c)
  | EWriter i => writerTurn i;; mret RDone
  | ECkpt i => _ ⇐ vol i (@Nvme.ckptBegin (volWorld i)); mret RDone
  | ECkptDone i => _ ⇐ vol i (@Nvme.ckptFinish (volWorld i)); mret RDone
  | ETick => tickBody;; mret RDone
  | EPromote => promoteBody;; mret RDone
  | ERestore => restoreBody;; mret RDone
  | EDrop => dropBody;; mret RDone
  | EUploaded j up => onUp j up;; mret RDone
  | ELate j => lateAdopt j;; mret RDone
  end.

End Tiers.
End Tiered.
