(* ===== verification/TieredVol.v ===== *)
(** What the tiered store relies on of a volume: how each call changes the
    segment map, the queue and the acknowledgements.

    Segments are looked at through [bare], which keeps the two flags and the
    entries.
    A turn of the writer only adds segments and entries: it leaves sealed
    segments as they are, and a block it acknowledges is listed in a segment
    that was not sealed when the turn began. *)

From Stdlib Require Import ZArith Lia.
From coqutil Require Import Byte.
From stdpp Require Import base numbers list gmap.
From S2P Require Import Prelude.
From S2P Require Import NvmeFormat.
From S2P Require Import NvmeVolume.
From S2P Require Import NvmeSpill.
Import Seg Ckpt Nvme.
Open Scope Z_scope.
Open Scope go_scope.

Module TieredVol.

Definition bare (g : segment) : segment :=
  mkSegment 0 (s_sealed g) (s_spilled g) 0 (s_entries g) false 0.
Definition sv (v : Volume) : gmap Z segment := bare <$> segs v.

(** What the calls below leave alone unless they say otherwise. *)
Definition vview (v : Volume) := (sv v, nextID v, reqs v, acks v, active v).

Definition still {A} (m : M A) : Prop := forall v a v', m v = Ret a v' -> vview v' = vview v.

Lemma still_ret {A} (a : A) : still (mret a).
Proof. by intros v b v' [= _ <-]. Qed.

Lemma still_bind {A B} (m : M A) (f : A -> M B) : still m -> (forall a, still (f a)) -> still (m ≫= f).
Proof.
  intros Hm Hf v b v' E. unfold mbind, M_bind in E. destruct (m v) as [a v1|v1|] eqn:Em; try done.
  rewrite (Hf _ _ _ _ E). by eapply Hm.
Qed.

Lemma still_gets {A} (g : Volume -> A) : still (gets g).
Proof. by intros v b v' [= _ <-]. Qed.

Lemma still_modify (g : Volume -> Volume) : (forall v, vview (g v) = vview v) -> still (modify g).
Proof. intros Hg v b v' [= _ <-]. apply Hg. Qed.

Lemma still_lift {A} (o : option A) : still (lift o).
Proof. intros v b v'. unfold lift. by destruct o; intros [= _ <-]. Qed.

Lemma still_stop {A} : still (stop (A := A)).
Proof. done. Qed.

Section Io.
Context `{!World}.

Lemma still_nextIo : still nextIo.
Proof. by intros v b v' [= _ <-]. Qed.
Lemma still_now : still now.
Proof. by intros v b v' [= _ <-]. Qed.

End Io.

Create HintDb still.
#[export] Hint Resolve still_ret still_gets still_lift still_stop still_nextIo still_now : still.

(** Follow the program; calls are solved by their lemmas. *)
Ltac still_step :=
  match goal with
  | |- still (_ ≫= _) => apply still_bind; [|intros ?]
  | |- still (modify _) => apply still_modify; intros ?; reflexivity
  | |- still (match ?x with _ => _ end) => destruct x
  | |- still (match ?x with _ => _ end _) => destruct x
  | |- still (let _ := _ in _) => cbv zeta
  | |- still _ => solve [eauto 2 with still nocore]
  end.
Ltac head t := match t with ?f _ => head f | _ => t end.
Ltac still := intros; match goal with |- still ?m => let h := head m in unfold h end; repeat still_step.

Section Calls.
Context `{!Xxh3, !World} (p : VolumeParams).

Lemma still_ioStep : still ioStep.
Proof. still. Qed.
#[local] Hint Resolve still_ioStep : still.
Lemma still_putFile id off dt : still (putFile id off dt).
Proof. still. Qed.
#[local] Hint Resolve still_putFile : still.
Lemma still_Open id : still (Open id).
Proof. still. Qed.
Lemma still_ReadAt id off n : still (ReadAt id off n).
Proof. still. Qed.
Lemma still_WriteAt id off dt : still (WriteAt id off dt).
Proof. still. Qed.
Lemma still_Datasync id : still (Datasync id).
Proof. still. Qed.
Lemma still_Preallocate id n : still (Preallocate id n).
Proof. still. Qed.
Lemma still_SyncDir : still SyncDir.
Proof. still. Qed.
Lemma still_Remove id : still (Remove id).
Proof. still. Qed.
Lemma still_mmapBuf : still mmapBuf.
Proof. still. Qed.
#[local] Hint Resolve still_Open still_ReadAt still_WriteAt still_Datasync still_Preallocate still_SyncDir
  still_Remove still_mmapBuf : still.
Lemma still_writeAligned id off dt : still (writeAligned id off dt).
Proof. still. Qed.
#[local] Hint Resolve still_writeAligned : still.
Lemma still_writeSeal id n de es : still (writeSeal id n de es).
Proof. still. Qed.
Lemma still_readSeal id n mx : still (readSeal id n mx).
Proof. still. Qed.
Lemma still_poolGet n : still (poolGet p n).
Proof. still. Qed.
Lemma still_cutBuf c n : still (cutBuf c n).
Proof. still. Qed.
#[local] Hint Resolve still_writeSeal still_readSeal still_poolGet still_cutBuf : still.
Lemma still_readOne loc ns key want : still (readOne p loc ns key want).
Proof. still. Qed.
Lemma still_readqSlot : still readqSlot.
Proof. still. Qed.
#[local] Hint Resolve still_readOne still_readqSlot : still.

(** A change of one segment that [bare] does not see. *)
Lemma sv_alter f id v : (forall g, bare (f g) = bare g) -> sv (set_segs (alter f id (segs v)) v) = sv v.
Proof.
  intros Hf. apply map_eq. intros j. unfold sv. cbn. rewrite !lookup_fmap.
  destruct (decide (j = id)) as [->|Hj]; [rewrite lookup_alter_eq|by rewrite lookup_alter_ne].
  destruct (segs v !! id) as [g|]; cbn; [by rewrite Hf|done].
Qed.

Lemma sv_insert id g v : sv (set_segs (<[id := g]> (segs v)) v) = <[id := bare g]> (sv v).
Proof. unfold sv. cbn. apply fmap_insert. Qed.

Lemma sv_lookup v id : sv v !! id = bare <$> segs v !! id.
Proof. apply lookup_fmap. Qed.

Lemma still_acquireRead id : still (acquireRead id).
Proof.
  intros v b v'. unfold acquireRead, mbind, M_bind, gets. destruct (segs v !! id) as [g|] eqn:Eg; [|by intros [= _ <-]].
  destruct (s_dying g) eqn:Ed; intros [= _ <-]; [done|].
  unfold vview. rewrite sv_insert. cbn. rewrite insert_id; [done|]. rewrite sv_lookup, Eg. done.
Qed.

Lemma still_releaseRead id : still (releaseRead id).
Proof.
  intros v b v' [= _ <-]. unfold vview. by rewrite sv_alter.
Qed.
#[local] Hint Resolve still_acquireRead still_releaseRead : still.

Lemma still_Read loc ns key want : still (Read p loc ns key want).
Proof. still. Qed.

Lemma still_maybeCheckpoint : still (maybeCheckpoint p).
Proof. still. Qed.
Lemma still_writeCkptFile sn : still (writeCkptFile sn).
Proof.
  unfold writeCkptFile, Rename. repeat still_step.
Qed.
Lemma still_listCkptSeqs : still listCkptSeqs.
Proof. still. Qed.
Lemma still_pruneList l k : still (pruneList l k).
Proof. induction l as [|q l IH]; cbn [pruneList]; repeat first [apply IH|still_step]. Qed.
#[local] Hint Resolve still_writeCkptFile still_listCkptSeqs still_pruneList : still.
Lemma still_pruneCkpts k : still (pruneCkpts k).
Proof. still. Qed.
Lemma still_ckptDone b : still (ckptDone b).
Proof. still. Qed.
#[local] Hint Resolve still_pruneCkpts still_ckptDone : still.
Lemma still_ckptBegin : still ckptBegin.
Proof. still. Qed.
Lemma still_ckptFinish : still ckptFinish.
Proof. still. Qed.
Lemma still_writeCheckpoint : still NvmeSpill.writeCheckpoint.
Proof. still. Qed.
#[local] Hint Resolve still_writeCheckpoint : still.
Lemma still_adoptCkpt : still (NvmeSpill.adoptCkpt p).
Proof. still. Qed.
Lemma still_adoptCheck id : still (NvmeSpill.adoptCheck id).
Proof. still. Qed.

Lemma still_inTmp {A} id f (m : M A) : still m -> still (NvmeSpill.inTmp id f m).
Proof.
  intros Hm v b v'. unfold NvmeSpill.inTmp. destruct (m _) as [a v1|v1|] eqn:Em; try done.
  intros [= _ <-]. exact (Hm _ _ _ Em).
Qed.

Lemma still_copyLoop fuel id rest fails off : still (NvmeSpill.copyLoop fuel id rest fails off).
Proof.
  revert rest off. induction fuel as [|fuel IH]; intros rest off; cbn [NvmeSpill.copyLoop]; repeat first [apply IH|still_step].
Qed.
#[local] Hint Resolve still_copyLoop : still.
Lemma still_copyAligned id r : still (NvmeSpill.copyAligned id r).
Proof. still. Qed.
#[local] Hint Resolve still_copyAligned : still.
Lemma still_adoptTmp id r : still (NvmeSpill.adoptTmp p id r).
Proof. still. Qed.
Lemma still_installFile id f : still (NvmeSpill.installFile id f).
Proof. still. Qed.
#[local] Hint Resolve still_adoptTmp still_installFile still_inTmp : still.
Lemma still_adoptInstall id r : still (NvmeSpill.adoptInstall p id r).
Proof. still. Qed.

Lemma still_setReadOnly : still setReadOnly.
Proof. still. Qed.
Lemma still_clearReadOnly : still clearReadOnly.
Proof. still. Qed.
#[local] Hint Resolve still_setReadOnly still_clearReadOnly : still.
Lemma still_appendFailed e : still (appendFailed e).
Proof. still. Qed.
Lemma still_activeSeg : still activeSeg.
Proof. still. Qed.
#[local] Hint Resolve still_appendFailed still_activeSeg : still.
Lemma still_activeDataEnd : still activeDataEnd.
Proof. still. Qed.
Lemma still_fitsActive a b c : still (fitsActive p a b c).
Proof. still. Qed.
#[local] Hint Resolve still_activeDataEnd still_fitsActive still_maybeCheckpoint : still.

(** ** Turns of the writer *)

Record volume_ok (v : Volume) : Prop := mkVolumeOk {
  vo_next : 0 <= nextID v;
  vo_active : forall id, active v = Some id -> exists g, sv v !! id = Some g /\ s_sealed g = false;
  vo_segs : forall id g, sv v !! id = Some g ->
    id < nextID v /\ (s_sealed g = false -> s_spilled g = false)
}.

(** A segment before and after. *)
Definition advances (g g' : segment) : Prop :=
  s_spilled g' = s_spilled g /\ (s_sealed g = true -> g' = g) /\ s_entries g ⊆ s_entries g'.

Lemma advances_refl g : advances g g.
Proof. by repeat split. Qed.

Lemma advances_trans g1 g2 g3 : advances g1 g2 -> advances g2 g3 -> advances g1 g3.
Proof.
  intros (A1 & C1 & D1) (A2 & C2 & D2). split_and!; [congruence| |by etrans].
  intros Hs. rewrite <- (C1 Hs). apply C2. by rewrite (C1 Hs).
Qed.

Context (Good : AppendReq -> Prop).

(** An acknowledged block is listed, in a segment that was not sealed before. *)
Definition ack_ok (v v' : Volume) (r : AppendReq) (loc : Loc) : Prop :=
  LenOf loc = len (r_Data r) /\ len (r_Data r) < 2 ^ 32 /\
  (exists g' e, sv v' !! SegmentID loc = Some g' /\ e ∈ s_entries g' /\ e_NS e = r_NS r /\ e_Key e = r_Key r) /\
  (forall g, sv v !! SegmentID loc = Some g -> s_sealed g = false).

Record grows (n : Z) (v v' : Volume) : Prop := mkGrows {
  gr_old : forall id g, sv v !! id = Some g -> exists g', sv v' !! id = Some g' /\ advances g g';
  gr_new : forall id g', sv v' !! id = Some g' -> sv v !! id = None ->
    nextID v <= id /\ s_spilled g' = false;
  gr_from : forall id g' e, sv v' !! id = Some g' -> e ∈ s_entries g' ->
    (exists g, sv v !! id = Some g /\ e ∈ s_entries g) \/ exists r, Good r /\ e_NS e = r_NS r /\ e_Key e = r_Key r;
  gr_next : nextID v <= nextID v' <= nextID v + n;
  gr_reqs : reqs v' ⊆ reqs v /\ (length (reqs v') <= length (reqs v))%nat;
  gr_acks : exists new, acks v' = new ++ acks v /\
    (forall r o, (r, o) ∈ new -> Good r) /\ forall r loc, (r, Some loc) ∈ new -> ack_ok v v' r loc
}.

Lemma grows_refl v v' : vview v' = vview v -> grows 0 v v'.
Proof.
  intros [= E1 E2 E3 E4 _]. split; rewrite ?E1, ?E2, ?E3, ?E4.
  - intros id g Hg. exists g. split; [done|apply advances_refl].
  - intros id g' Hg Hn. congruence.
  - intros id g' e Hg He. left. by exists g'.
  - lia.
  - done.
  - exists []. split; [done|]. split; by intros ? ? ?%elem_of_nil.
Qed.

Lemma grows_trans n1 n2 v1 v2 v3 : grows n1 v1 v2 -> grows n2 v2 v3 -> grows (n1 + n2) v1 v3.
Proof.
  intros [O1 N1 F1 X1 R1 (a1 & E1 & G1 & K1)] [O2 N2 F2 X2 R2 (a2 & E2 & G2 & K2)]. split.
  - intros id g Hg. destruct (O1 _ _ Hg) as (g2 & Hg2 & Ha1). destruct (O2 _ _ Hg2) as (g3 & Hg3 & Ha2).
    exists g3. split; [done|by eapply advances_trans].
  - intros id g3 Hg3 Hn. destruct (sv v2 !! id) as [g2|] eqn:Eg2.
    + destruct (N1 _ _ Eg2 Hn) as (? & Hs). destruct (O2 _ _ Eg2) as (g3' & Hg3' & Ha).
      simplify_eq. by destruct Ha as (-> & _).
    + destruct (N2 _ _ Hg3 Eg2) as (? & ?). split; [lia|done].
  - intros id g3 e Hg3 He. destruct (F2 _ _ _ Hg3 He) as [(g2 & Hg2 & He2)|?]; [by eapply F1|by right].
  - lia.
  - destruct R1, R2. split; [by etrans|lia].
  - exists (a2 ++ a1). split; [by rewrite E2, E1, app_assoc|]. split.
    + intros r o [Hr|Hr]%elem_of_app; eauto.
    + intros r loc [Hr|Hr]%elem_of_app.
      * destruct (K2 _ _ Hr) as (Hl & Hl' & Hg & Hs). split_and!; [done..|]. intros g Hg1.
        destruct (O1 _ _ Hg1) as (g2 & Hg2 & Ha). specialize (Hs _ Hg2).
        destruct (s_sealed g) eqn:Eg; [|done]. destruct Ha as (_ & Ha & _). rewrite (Ha Eg) in Hs. congruence.
      * destruct (K1 _ _ Hr) as (Hl & Hl' & (g2 & e & Hg2 & He & Hns & Hk) & Hs). split_and!; [done..| |done].
        destruct (O2 _ _ Hg2) as (g3 & Hg3 & Ha). exists g3, e. split_and!; [done|by apply Ha|done..].
Qed.

(** [turn n m Q]: [m] opens at most [n] segments. *)
Definition turn {A} (n : Z) (m : M A) (Q : A -> Prop) : Prop := forall v a v',
  volume_ok v -> Forall Good (reqs v) -> nextID v + n < 2 ^ 32 -> m v = Ret a v' ->
  volume_ok v' /\ grows n v v' /\ Q a.

Lemma volume_ok_view v v' : vview v' = vview v -> volume_ok v -> volume_ok v'.
Proof. intros [= E1 E2 _ _ E5] [Hn Ha Hs]. split; by rewrite ?E1, ?E2, ?E5. Qed.

Lemma turn_still {A} (m : M A) : still m -> turn 0 m (fun _ => True).
Proof. intros Hm v a v' Hv _ _ E. split_and!; [|by apply grows_refl, (Hm _ _ _ E)|done]. by eapply volume_ok_view; [eapply Hm|]. Qed.

Lemma good_sub n v v' : grows n v v' -> Forall Good (reqs v) -> Forall Good (reqs v').
Proof. intros Hg. rewrite !Forall_forall. intros HG r Hr. apply HG. by apply (gr_reqs _ _ _ Hg). Qed.

Lemma turn_bind {A B} n1 n2 (m : M A) (f : A -> M B) P Q :
  0 <= n1 -> 0 <= n2 -> turn n1 m P -> (forall a, P a -> turn n2 (f a) Q) -> turn (n1 + n2) (m ≫= f) Q.
Proof.
  intros Hn1 Hn2 Hm Hf v b v' Hv HG Hn E. unfold mbind, M_bind in E. destruct (m v) as [a v1|v1|] eqn:Em; try done.
  destruct (Hm v a v1 Hv HG ltac:(lia) Em) as (Hv1 & Hg1 & HP).
  pose proof (gr_next _ _ _ Hg1). destruct (Hf a HP v1 b v' Hv1) as (Hv' & Hg2 & HQ); [by eapply good_sub|lia|done|].
  split_and!; [done| |done]. by eapply grows_trans.
Qed.

Lemma turn_ret {A} (a : A) (Q : A -> Prop) : Q a -> turn 0 (mret a) Q.
Proof. intros HQ v b v' Hv _ _ [= <- <-]. split_and!; [done|by apply grows_refl|done]. Qed.

Lemma turn_mono {A} n n' (m : M A) (P Q : A -> Prop) : n <= n' -> (forall a, P a -> Q a) -> turn n m P -> turn n' m Q.
Proof.
  intros Hn HPQ Hm v a v' Hv HG Hx E. destruct (Hm v a v' Hv HG ltac:(lia) E) as (Hv' & Hg & HP).
  split_and!; [done| |by apply HPQ]. destruct Hg. split; [done..|lia|done|done].
Qed.

(** What is staged belongs to requests of the queue. *)
Definition staged (q : pendingRec) : Prop :=
  Good (p_req q) /\ e_NS (p_entry q) = r_NS (p_req q) /\ e_Key (p_entry q) = r_Key (p_req q) /\
  e_Len (p_entry q) = len (r_Data (p_req q)) /\ len (r_Data (p_req q)) < 2 ^ 32.

Lemma grows_failed v l :
  (forall q, q ∈ l -> Good q) -> grows 0 v (set_acks (reverse ((fun q => (q, None)) <$> l) ++ acks v) v).
Proof.
  intros HG. split; cbn.
  - intros id g Hg. exists g. split; [done|apply advances_refl].
  - intros id g' Hg Hn. unfold sv in *. cbn in *. congruence.
  - intros id g' e Hg He. left. by exists g'.
  - lia.
  - done.
  - eexists. split; [done|]. split.
    + intros r o Hr. rewrite elem_of_reverse in Hr. apply list_elem_of_fmap in Hr as (q & [= -> _] & Hq). by apply HG.
    + intros r loc Hr. rewrite elem_of_reverse in Hr. apply list_elem_of_fmap in Hr as (q & [= _] & _).
Qed.

Lemma turn_onWritten r : Good r -> turn 0 (onWritten r None) (fun _ => True).
Proof.
  intros HG v a v' Hv _ _ [= _ <-]. split_and!; [by destruct Hv; split| |done].
  apply (grows_failed v [r]). by intros q ->%list_elem_of_singleton.
Qed.

Lemma turn_failAll l : Forall staged l -> turn 0 (failAll l) (fun _ => True).
Proof.
  intros HG v a v' Hv _ _ [= _ <-]. split_and!; [by destruct Hv; split| |done].
  pose proof (grows_failed v (p_req <$> l)) as Hf. rewrite <- list_fmap_compose in Hf. apply Hf.
  intros q (x & -> & Hx)%list_elem_of_fmap. rewrite Forall_forall in HG. by apply HG.
Qed.

Lemma turn_receive : turn 0 receive (fun o => forall r, o = Some r -> Good r).
Proof.
  intros v a v' Hv HG _ E. unfold receive in E. destruct (reqs v) as [|r rs] eqn:Er; injection E as <- <-.
  - split_and!; [done|by apply grows_refl|done].
  - rewrite Forall_cons in HG. destruct HG as [Hr _]. split_and!; [by destruct Hv; split| |by intros ? [= <-]].
    split; cbn.
    + intros id g Hg. exists g. split; [done|apply advances_refl].
    + intros id g' Hg Hn. unfold sv in *. cbn in *. congruence.
    + intros id g' e Hg He. left. by exists g'.
    + lia.
    + rewrite Er. cbn. split; [|lia]. intros x Hx. by right.
    + exists []. split; [done|]. split; by intros ? ? ?%elem_of_nil.
Qed.

(** The entries a flush adds to the active segment, with their acknowledgements. *)
Definition flushed (id : Z) (de : segment -> Z) (pending : list pendingRec) (v : Volume) : Volume :=
  set_acks (reverse ((fun q => (p_req q, Some (mkLoc id (e_Off (p_entry q)) (e_Len (p_entry q))))) <$> pending) ++ acks v)
    (set_segs (alter (fun g => with_data (de g) (s_entries g ++ (p_entry <$> pending)) g) id (segs v)) v).

Lemma flushed_lookup id de pending v g :
  sv v !! id = Some g ->
  sv (flushed id de pending v) =
  <[id := mkSegment 0 (s_sealed g) (s_spilled g) 0 (s_entries g ++ (p_entry <$> pending)) false 0]> (sv v).
Proof.
  intros Hg. apply map_eq. intros j. unfold sv in *. cbn. rewrite lookup_fmap in *.
  destruct (segs v !! id) as [g0|] eqn:Eg; [|done]. injection Hg as <-.
  destruct (decide (j = id)) as [->|Hj].
  - by rewrite lookup_alter_eq, lookup_insert_eq, Eg.
  - by rewrite lookup_alter_ne, lookup_insert_ne, lookup_fmap by done.
Qed.

Lemma grows_flushed id de pending v g :
  sv v !! id = Some g -> s_sealed g = false -> Forall staged pending -> grows 0 v (flushed id de pending v).
Proof.
  intros Hg Hs HF. pose proof (flushed_lookup id de pending v g Hg) as Hl. split.
  - intros j h Hh. rewrite Hl. destruct (decide (j = id)) as [->|Hj].
    + rewrite lookup_insert_eq. eexists. split; [done|]. simplify_eq. split_and!; cbn; [done..|congruence|].
      intros x Hx. apply elem_of_app. by left.
    + rewrite lookup_insert_ne by done. exists h. split; [done|apply advances_refl].
  - intros j h Hh Hn. rewrite Hl in Hh. destruct (decide (j = id)) as [->|Hj]; [congruence|].
    rewrite lookup_insert_ne in Hh by done. congruence.
  - intros j h e. rewrite Hl. intros [[<- <-]|[Hne Hh]]%lookup_insert_Some He; [|left; by exists h]. cbn in He.
    apply elem_of_app in He as [He|(q & -> & Hq)%list_elem_of_fmap]; [left; by exists g|right].
    rewrite Forall_forall in HF. destruct (HF q Hq) as (HG & Hns & Hk & _). by exists (p_req q).
  - cbn. lia.
  - done.
  - eexists. split; [done|]. rewrite Forall_forall in HF. split.
    + intros r o Hr. rewrite elem_of_reverse in Hr. apply list_elem_of_fmap in Hr as (q & [= -> _] & Hq). by apply HF.
    + intros r loc Hr. rewrite elem_of_reverse in Hr. apply list_elem_of_fmap in Hr as (q & [= -> ->] & Hq).
      destruct (HF q Hq) as (_ & Hns & Hk & Hln & Hln'). split_and!; [done..| |by cbn; intros ? ?; simplify_eq].
      rewrite Hl; cbn [SegmentID]; rewrite lookup_insert_eq. eexists _, (p_entry q). split_and!; [done| |done..]. cbn.
      apply elem_of_app. right. by apply list_elem_of_fmap_2.
Qed.

Lemma volume_ok_flushed id de pending v g :
  sv v !! id = Some g -> s_sealed g = false -> volume_ok v -> volume_ok (flushed id de pending v).
Proof.
  intros Hg Hs [Hn0 Ha Hv]. pose proof (flushed_lookup id de pending v g Hg) as Hl. split; [done|..].
  - intros j Hj. destruct (Ha j Hj) as (h & Hh & Hsh). rewrite Hl. destruct (decide (j = id)) as [->|Hn].
    + rewrite lookup_insert_eq. eexists. split; [done|]. by simplify_eq.
    + rewrite lookup_insert_ne by done. by exists h.
  - intros j h Hh. rewrite Hl in Hh. destruct (decide (j = id)) as [->|Hn].
    + rewrite lookup_insert_eq in Hh. injection Hh as <-. cbn. destruct (Hv _ _ Hg) as [? Hd]. split; [done|]. by intros _; apply Hd.
    + rewrite lookup_insert_ne in Hh by done. by apply Hv.
Qed.

Lemma activeSeg_now v : activeSeg v = Ret (id ← active v; g ← segs v !! id; Some (id, g)) v.
Proof. done. Qed.

Lemma active_sv v id g : (id ← active v; g ← segs v !! id; Some (id, g)) = Some (id, g) ->
  volume_ok v -> sv v !! id = Some (bare g) /\ s_sealed g = false.
Proof.
  intros E Hv. destruct (active v) as [id'|] eqn:Ea; cbn in E; [|done]. destruct (segs v !! id') as [g'|] eqn:Eg; cbn in E; [|done].
  injection E as -> ->. destruct (vo_active _ Hv _ Ea) as (h & Hh & Hs). rewrite sv_lookup, Eg in *. split; [done|].
  cbn in Hh. injection Hh as <-. done.
Qed.

Lemma ret_bind {A B} (m : M A) (f : A -> M B) v b v' :
  (m ≫= f) v = Ret b v' -> exists a v1, m v = Ret a v1 /\ f a v1 = Ret b v'.
Proof. unfold mbind, M_bind. destruct (m v) as [a v1|v1|]; [by eauto|done..]. Qed.

Lemma grows_end n v v1 v2 : vview v2 = vview v1 -> grows n v v1 -> grows n v v2.
Proof. intros E Hg. replace n with (n + 0) by lia. eapply grows_trans; [done|by apply grows_refl]. Qed.

Lemma grows_start n v v1 v2 : vview v1 = vview v -> grows n v1 v2 -> grows n v v2.
Proof. intros E Hg. apply (grows_trans 0 n v v1 v2); [by apply grows_refl|done]. Qed.

Ltac next_ret E v := let a := fresh "a" in let E1 := fresh "E" in apply ret_bind in E as (a & v & E1 & E).

Lemma turn_flushBatch st pending : Forall staged pending -> turn 0 (flushBatch p st pending) (fun _ => True).
Proof.
  intros HF v b v' Hv HG Hn E. unfold flushBatch in E. next_ret E v0. rewrite activeSeg_now in E0.
  injection E0 as Ea ->. destruct a as [[id seg]|].
  2: { assert (turn 0 (failAll pending;; mret false) (fun _ => True)) as Ht.
       { apply (turn_bind 0 0) with (P := fun _ => True); [lia..|by apply turn_failAll|]. intros _ _. by apply turn_ret. }
       exact (Ht _ _ _ Hv HG Hn E). }
  destruct (active_sv _ _ _ Ea Hv) as [Hg Hs]. next_ret E v1. pose proof (still_WriteAt _ _ _ _ _ _ E0) as V1.
  destruct a as [e|].
  { assert (turn 0 (appendFailed e;; failAll pending;; mret false) (fun _ => True)) as Ht.
    { apply (turn_bind 0 0) with (P := fun _ => True); [lia..|apply turn_still; apply still_appendFailed|]. intros _ _.
      apply (turn_bind 0 0) with (P := fun _ => True); [lia..|by apply turn_failAll|]. intros _ _. by apply turn_ret. }
    injection V1 as W1 W2 W3 W4 W5.
    destruct (Ht v1 b v') as (A1 & A2 & _); [by split; rewrite ?W1, ?W2, ?W5; apply Hv|by rewrite W3|by rewrite W2|done|].
    split_and!; [done| |done]. eapply grows_start; [|done]. unfold vview. congruence. }
  next_ret E v2. injection E1 as _ <-. next_ret E v3. injection E1 as _ <-. next_ret E v4. injection E1 as -> <-.
  next_ret E v5. match type of E1 with ?m _ = _ => assert (still m) as Hsync by (repeat still_step) end.
  pose proof (Hsync _ _ _ E1) as V2. clear Hsync. next_ret E v6. injection E2 as _ <-. next_ret E v7. injection E2 as _ <-.
  injection E as _ <-.
  match goal with |- volume_ok ?w /\ _ => assert (vview w = vview (flushed id (fun g => u32 (s_dataEnd g + len st)) pending v1)) as V3 end.
  { injection V2 as U1 U2 U3 U4 U5. unfold vview, bump. cbn in *. unfold sv in *. cbn in *. congruence. }
  assert (sv v1 !! id = Some (bare seg)) as Hg1 by (injection V1 as U1 U2 U3 U4 U5; by rewrite U1).
  split_and!; [| |done].
  - eapply volume_ok_view; [exact V3|]. eapply volume_ok_flushed; [done|done|]. by eapply volume_ok_view.
  - eapply grows_end; [exact V3|]. eapply grows_start; [exact V1|]. by eapply grows_flushed.
Qed.

Lemma turn_flush st pending : Forall staged pending -> turn 0 (flush p st pending) (fun _ => True).
Proof. intros HF. destruct pending; [by apply turn_ret|]. by apply turn_flushBatch. Qed.

(** [sealActive] seals the active segment, or changes nothing. *)
Lemma turn_sealActive : turn 0 sealActive (fun _ => True).
Proof.
  intros v b v' Hv HG Hn E. unfold sealActive in E. next_ret E v0. rewrite activeSeg_now in E0. injection E0 as Ea ->.
  destruct a as [[id seg]|]; [|by apply (turn_ret None (fun _ => True) I) in E].
  destruct (active_sv _ _ _ Ea Hv) as [Hg Hs]. next_ret E v1. pose proof (still_writeSeal _ _ _ _ _ _ _ E0) as V1.
  destruct a as [e|].
  { injection E as _ <-. split_and!; [by eapply volume_ok_view|by apply grows_refl|done]. }
  next_ret E v2. injection E1 as _ <-. next_ret E v3. injection E1 as _ <-. next_ret E v4. injection E1 as _ <-.
  next_ret E v5. injection E1 as _ <-. injection E as _ <-.
  match goal with |- volume_ok ?x /\ _ => set (w := x) in * end.
  assert (sv w = <[id := mkSegment 0 true (s_spilled seg) 0 (s_entries seg) false 0]> (sv v1)) as Hw.
  { injection V1 as U1 U2 U3 U4 U5. apply map_eq. intros j. unfold sv in *. cbn. rewrite lookup_fmap.
    destruct (decide (j = id)) as [->|Hj].
    - rewrite lookup_alter_eq, lookup_insert_eq. rewrite <- U1, lookup_fmap in Hg. destruct (segs v1 !! id) as [h|]; [|done].
      cbn in *. unfold bare in *. cbn. by injection Hg as _ -> ->.
    - by rewrite lookup_alter_ne, lookup_insert_ne, lookup_fmap by done. }
  injection V1 as U1 U2 U3 U4 U5. rewrite U1 in Hw.
  change (nextID v1) with (nextID w) in U2. change (reqs v1) with (reqs w) in U3. change (acks v1) with (acks w) in U4.
  assert (active w = None) as U6 by done. clearbody w. split_and!; [| |done].
  - split; [rewrite U2; apply Hv|congruence|]. intros j h. rewrite Hw, U2. intros [[<- <-]|[Hne Hh]]%lookup_insert_Some.
    + split; [|done]. by apply (vo_segs _ Hv) in Hg as [? _].
    + by apply (vo_segs _ Hv).
  - split; rewrite ?U2, ?U3, ?U4; [| | |lia|done|].
    + intros j h Hh. rewrite Hw. destruct (decide (j = id)) as [->|Hj].
      * rewrite lookup_insert_eq. eexists. split; [done|]. simplify_eq. by split_and!; cbn; [..|congruence|].
      * rewrite lookup_insert_ne by done. exists h. split; [done|apply advances_refl].
    + intros j h. rewrite Hw. intros [[<- <-]|[Hne Hh]]%lookup_insert_Some Hno; congruence.
    + intros j h e. rewrite Hw. intros [[<- <-]|[Hne Hh]]%lookup_insert_Some He; left; [by eexists|by exists h].
    + exists []. split; [done|]. split; by intros ? ? ?%elem_of_nil.
Qed.

(** [openActive] adds a fresh segment, or changes nothing but [nextID]. *)
Lemma turn_openActive : turn 1 (openActive p) (fun _ => True).
Proof.
  intros v b v' Hv HG Hn E. unfold openActive in E. next_ret E v0. injection E0 as <- <-. next_ret E v1. injection E0 as _ <-.
  pose proof (vo_next _ Hv) as Hpos. assert (u32 (nextID v + 1) = nextID v + 1) as Hu by (apply Z.mod_small; lia).
  rewrite Hu in E. set (w := set_nextID (nextID v + 1) v) in *.
  assert (forall v1, vview v1 = vview w -> volume_ok v1 /\ grows 1 v v1 /\ True) as Hquit.
  { intros v1 V. assert (volume_ok w) as Hw.
    { split; cbn; [lia|apply Hv|]. intros id g Hg. destruct (vo_segs _ Hv _ _ Hg) as [? ?]. split; [lia|done]. }
    split_and!; [by eapply volume_ok_view| |done]. eapply grows_end; [exact V|].
    split; cbn; [| | |lia|done|].
    - intros id g Hg. exists g. split; [done|apply advances_refl].
    - intros id g' Hg Hno. unfold sv in *. cbn in *. congruence.
    - intros id g' e0 Hg He. left. by exists g'.
    - exists []. split; [done|]. split; by intros ? ? ?%elem_of_nil. }
  next_ret E v1. pose proof (still_Open _ _ _ _ E0) as V1. destruct a0 as [e|]; [injection E as _ <-; by apply Hquit|].
  next_ret E v2. pose proof (still_Preallocate _ _ _ _ _ E1) as V2. rewrite V1 in V2.
  destruct a0 as [e|]; [injection E as _ <-; by apply Hquit|].
  next_ret E v3. pose proof (still_Datasync _ _ _ _ E2) as V3. rewrite V2 in V3.
  destruct a0 as [e|]; [injection E as _ <-; by apply Hquit|].
  next_ret E v4. pose proof (still_SyncDir _ _ _ E3) as V4. rewrite V3 in V4.
  destruct a0 as [e|]; [injection E as _ <-; by apply Hquit|].
  next_ret E v5. injection E4 as _ <-. next_ret E v6. injection E4 as _ <-. next_ret E v7. injection E4 as _ <-. injection E as _ <-.
  injection V4 as U1 U2 U3 U4 U5.
  match goal with |- volume_ok ?y /\ _ => set (x := y) in * end.
  assert (sv x = <[nextID v := mkSegment 0 false false 0 [] false 0]> (sv v)) as Hx.
  { change (sv w) with (sv v) in U1. rewrite <- U1. unfold sv. cbn. by rewrite fmap_insert. }
  change (nextID v4) with (nextID x) in U2. change (reqs v4) with (reqs x) in U3. change (acks v4) with (acks x) in U4.
  assert (active x = Some (nextID v)) as U6 by done. clearbody x.
  assert (sv v !! nextID v = None) as Hfresh.
  { destruct (sv v !! nextID v) as [g|] eqn:Eg; [|done]. apply (vo_segs _ Hv) in Eg as [? _]. lia. }
  split_and!; [| |done].
  - split; rewrite ?U2; [lia|..].
    + rewrite U6. intros id [= <-]. rewrite Hx, lookup_insert_eq. by eexists.
    + intros id g. rewrite Hx. intros [[<- <-]|[Hne Hg]]%lookup_insert_Some; [split; [lia|done]|].
      destruct (vo_segs _ Hv _ _ Hg). split; [lia|done].
  - split; rewrite ?U2, ?U3, ?U4; [| | |lia|done|].
    + intros id g Hg. exists g. rewrite Hx, lookup_insert_ne by congruence. split; [done|apply advances_refl].
    + intros id g. rewrite Hx. intros [[<- <-]|[Hne Hg]]%lookup_insert_Some Hno; [done|congruence].
    + intros id g e. rewrite Hx. intros [[<- <-]|[Hne Hg]]%lookup_insert_Some He; [by apply elem_of_nil in He|left; by exists g].
    + exists []. split; [done|]. split; by intros ? ? ?%elem_of_nil.
Qed.

Lemma turn_rotate : turn 1 (rotate p) (fun _ => True).
Proof.
  unfold rotate. apply (turn_bind 0 1) with (P := fun _ => True); [lia..|apply turn_sealActive|]. intros [e|] _.
  { apply turn_mono with 0 (fun _ => True); [lia|done|]. apply turn_still. repeat still_step. }
  apply (turn_bind 1 0) with (P := fun _ => True); [lia..|apply turn_openActive|]. intros [e|] _; apply turn_still; repeat still_step.
Qed.

Lemma turn_stageRec req st pending :
  0 <= MaxBlobLen p < 2 ^ 32 -> len (r_Data req) <= MaxBlobLen p -> Good req -> Forall staged pending ->
  turn 0 (stageRec req st pending) (fun x => Forall staged (snd x)).
Proof.
  intros Hm Hl HG HF v b v' Hv HGs Hn E. unfold stageRec in E. next_ret E v0. pose proof (still_activeDataEnd _ _ _ E0) as V0.
  next_ret E v1. pose proof (still_lift _ _ _ _ E1) as V1. injection E as <- <-. rewrite V0 in V1.
  split_and!; [by eapply volume_ok_view|by apply grows_refl|]. cbn. apply Forall_app. split; [done|]. constructor; [|done].
  split_and!; cbn; [done..| |lia]. pose proof (len_nonneg (r_Data req)). unfold u32. by rewrite Z.mod_small by lia.
Qed.

Ltac zero := apply turn_mono with 0 (fun _ => True); [lia|done|].
Ltac seq_turn n1 n2 P := apply (turn_bind n1 n2 _ _ P); [lia|lia| |].

Lemma turn_flush_ret st pending : Forall staged pending -> turn 0 (flush p st pending;; mret tt) (fun _ => True).
Proof. intros HF. seq_turn 0 0 (fun _ : bool => True); [by apply turn_flush|]. intros _ _. by apply turn_ret. Qed.

(** What [stage] does when the record does not fit: flush and rotate. *)
Lemma turn_makeRoom (fa : bool) st pending :
  Forall staged pending ->
  turn 1 (if negb fa then
            ok ← flush p st pending;
            if negb ok then mret None else ok ← rotate p; mret (if ok : bool then Some ([], []) else None)
          else mret (Some (st, pending))) (fun o => forall x, o = Some x -> Forall staged (snd x)).
Proof.
  intros HF. destruct fa; cbn [negb].
  { apply turn_mono with 0 (fun o => o = Some (st, pending)); [lia|by intros ? -> ? [= <-]|by apply turn_ret]. }
  seq_turn 0 1 (fun _ : bool => True); [by apply turn_flush|]. intros ok _. destruct ok; cbn [negb].
  - seq_turn 1 0 (fun _ : bool => True); [apply turn_rotate|]. intros ok _. apply turn_ret.
    destruct ok; [|done]. intros x [= <-]. by constructor.
  - apply turn_mono with 0 (fun o => o = None); [lia|by intros ? ->|by apply turn_ret].
Qed.

Lemma turn_stage (fuel : nat) :
  0 <= MaxBlobLen p < 2 ^ 32 ->
  (forall req st pending, Good req -> Forall staged pending ->
     turn (Z.of_nat fuel) (stage p fuel req st pending) (fun _ => True)) /\
  (forall st pending, Forall staged pending -> turn (Z.of_nat fuel) (drain p fuel st pending) (fun _ => True)).
Proof.
  intros Hblob. induction fuel as [|fuel [IHs IHd]]; [split; intros; by intros v a v' ? ? ? ?|].
  replace (Z.of_nat (S fuel)) with (1 + Z.of_nat fuel) by lia. split.
  - intros req st pending HG HF. cbn [stage]. case_if; [zero; by apply turn_onWritten|]. apply Z.ltb_ge in Hif.
    seq_turn 0 (1 + Z.of_nat fuel) (fun _ : bool => True); [by apply turn_still, still_fitsActive|]. intros fa _.
    seq_turn 1 (Z.of_nat fuel) (fun o : option (bytes * list pendingRec) => forall x, o = Some x -> Forall staged (snd x));
      [by apply turn_makeRoom|].
    intros [[st' pending']|] Hst; [|zero; by apply turn_onWritten]. specialize (Hst _ eq_refl). cbn in Hst. case_if.
    + seq_turn 0 (Z.of_nat fuel) (fun _ : bool => True); [by apply turn_flush|].
      intros ok _. destruct ok; cbn [negb]; [by apply IHs|zero; by apply turn_onWritten].
    + seq_turn 0 (Z.of_nat fuel) (fun x : bytes * list pendingRec => Forall staged (snd x)); [by apply turn_stageRec|].
      intros x Hx. by apply IHd.
  - intros st pending HF. cbn [drain]. case_if; [zero; by apply turn_flush_ret|].
    seq_turn 0 (1 + Z.of_nat fuel) (fun o => forall r, o = Some r -> Good r); [apply turn_receive|].
    intros [nxt|] Hr; [|zero; by apply turn_flush_ret]. specialize (Hr _ eq_refl).
    apply turn_mono with (Z.of_nat fuel) (fun _ => True); [lia|done|]. case_if.
    { seq_turn 0 (Z.of_nat fuel) (fun _ : unit => True); [by apply turn_onWritten|]. intros _ _. by apply IHd. }
    apply Z.ltb_ge in Hif0. seq_turn 0 (Z.of_nat fuel) (fun _ : bool => True); [apply turn_still; case_if; repeat still_step|].
    intros fa _. destruct fa; cbn [negb].
    + seq_turn 0 (Z.of_nat fuel) (fun x : bytes * list pendingRec => Forall staged (snd x)); [by apply turn_stageRec|].
      intros x Hx. by apply IHd.
    + seq_turn 0 (Z.of_nat fuel) (fun _ : bool => True); [by apply turn_flush|]. intros ok _. destruct ok; cbn [negb]; [by apply IHs|].
      seq_turn 0 (Z.of_nat fuel) (fun _ : unit => True); [by apply turn_onWritten|]. intros _ _. by apply IHd.
Qed.

(** A turn of the writer on a queue that [Append] keeps short. *)
Lemma turn_writer v a v' :
  0 <= MaxBlobLen p < 2 ^ 32 -> volume_ok v -> Forall Good (reqs v) -> (length (reqs v) <= 128)%nat ->
  nextID v < 2 ^ 31 -> writerTurn p v = Ret a v' -> volume_ok v' /\ grows (2 ^ 31) v v'.
Proof.
  intros Hblob Hv HG Hlen Hn E. unfold writerTurn in E. next_ret E v0.
  destruct (turn_receive v a0 v0 Hv HG ltac:(lia) E0) as (Hv0 & Hg0 & Hr).
  destruct a0 as [req|]; [|injection E as _ <-; split; [done|destruct Hg0; split; [done..|lia|done|done]]].
  next_ret E v1. injection E1 as <- <-. destruct (gr_reqs _ _ _ Hg0) as [_ Hl0].
  pose proof (gr_next _ _ _ Hg0).
  destruct (proj1 (turn_stage (3 * length (reqs v0) + 4) Hblob) req [] [] (Hr _ eq_refl) (Forall_nil_2 _) v0 a v' Hv0
              (good_sub _ _ _ Hg0 HG)) as (Hv' & Hg & _); [lia|done|].
  split; [done|]. pose proof (grows_trans _ _ _ _ _ Hg0 Hg) as [O1 N1 F1 X1 R1 A1]. split; [done..|lia|done|done].
Qed.

Lemma turn_recoverWrites : turn 1 (TryRecoverWrites p) (fun _ => True).
Proof.
  unfold TryRecoverWrites. seq_turn 0 1 (fun _ : bool => True); [by apply turn_still, still_gets|]. intros c _.
  destruct c; [zero; by apply turn_ret|]. seq_turn 0 1 (fun _ : bool => True); [by apply turn_still, still_gets|]. intros ro _.
  seq_turn 0 1 (fun _ : option Z => True); [by apply turn_still, still_gets|]. intros [id|] _; [zero; by apply turn_ret|].
  destruct ro; cbn [negb]; [|zero; by apply turn_ret]. seq_turn 1 0 (fun _ : option ioError => True); [apply turn_openActive|].
  intros [e|] _; [by apply turn_ret|apply turn_still, still_clearReadOnly].
Qed.

(** ** The other calls *)

Lemma Append_view r v b v' :
  Append r v = Ret b v' ->
  (b = false /\ v' = v) \/ (b = true /\ v' = set_reqs (reqs v ++ [r]) v /\ len (reqs v) < 128).
Proof.
  intros E. unfold Append in E. next_ret E v1. injection E0 as <- <-. destruct (closed v); [injection E as <- <-; by left|].
  next_ret E v1. injection E0 as <- <-. destruct (readOnly v); [injection E as <- <-; by left|].
  next_ret E v1. injection E0 as <- <-. destruct (128 <=? len (reqs v)) eqn:El; [injection E as <- <-; by left|].
  next_ret E v1. injection E0 as _ <-. injection E as <- <-. right. apply Z.leb_gt in El. done.
Qed.

Lemma RetireBegin_view id v b v' :
  RetireBegin id v = Ret b v' ->
  vview v' = vview v /\ (b = true -> exists g, sv v !! id = Some g /\ s_sealed g = true).
Proof.
  intros E. unfold RetireBegin in E. next_ret E v1. injection E0 as <- <-. destruct (segs v !! id) as [g|] eqn:Eg; [|by injection E as <- <-].
  destruct (negb (s_sealed g) || s_dying g) eqn:Eb; [by injection E as <- <-|].
  next_ret E v1. injection E0 as _ <-. injection E as <- <-. apply orb_false_iff in Eb as [Eb _]. apply negb_false_iff in Eb. split.
  - unfold vview. rewrite sv_insert. cbn. rewrite insert_id; [done|]. by rewrite sv_lookup, Eg.
  - intros _. exists (bare g). by rewrite sv_lookup, Eg.
Qed.

Lemma still_RetireAbort id : still (RetireAbort id).
Proof. intros v b v' [= _ <-]. unfold vview. by rewrite sv_alter. Qed.

Lemma RetireFinish_view id v b v' :
  RetireFinish id v = Ret b v' ->
  (b = false /\ v' = v) \/
  (b = true /\ vview v' = (delete id (sv v), nextID v, reqs v, acks v, active v)).
Proof.
  intros E. unfold RetireFinish in E. next_ret E v1. injection E0 as <- <-. destruct (segs v !! id) as [g|]; [|injection E as <- <-; by left].
  destruct (s_dying g); [|injection E as <- <-; by left]. cbn [negb] in E. right. next_ret E v1. injection E0 as _ <-.
  next_ret E v2. pose proof (still_Remove _ _ _ _ E0) as V. next_ret E v3. injection E1 as _ <-. next_ret E v3. injection E1 as _ <-.
  next_ret E v3. pose proof (still_clearReadOnly _ _ _ E1) as V3. next_ret E v4. pose proof (still_SyncDir _ _ _ E2) as V4.
  injection E as <- <-. split; [done|]. rewrite V4, V3. etrans; [exact V|]. unfold vview, sv. cbn. by rewrite fmap_delete.
Qed.

Lemma MarkSpilled_view id v b v' :
  MarkSpilled id v = Ret b v' -> vview v' = (alter with_spilled id (sv v), nextID v, reqs v, acks v, active v).
Proof.
  intros [= _ <-]. unfold vview. cbn. do 4 f_equal. unfold sv. cbn. apply map_eq. intros j. rewrite lookup_fmap.
  destruct (decide (j = id)) as [->|Hj]; [rewrite !lookup_alter_eq, lookup_fmap; by destruct (segs v !! id)|].
  by rewrite !lookup_alter_ne, lookup_fmap by done.
Qed.

Lemma adoptPublish_view id size tr es v b v' :
  NvmeSpill.adoptPublish id (size, tr, es) v = Ret b v' ->
  (b = false /\ vview v' = vview v) \/
  (b = true /\ sv v !! id = None /\
   vview v' = (<[id := mkSegment 0 true true 0 es false 0]> (sv v), nextID v, reqs v, acks v, active v)).
Proof.
  intros E. unfold NvmeSpill.adoptPublish in E. next_ret E v1. injection E0 as <- <-. next_ret E v1. injection E0 as <- <-.
  destruct (closed v || bool_decide (is_Some (segs v !! id))) eqn:Eb.
  { next_ret E v1. injection E as <- <-. left. split; [done|]. by eapply still_Remove. }
  next_ret E v1. injection E0 as _ <-. next_ret E v1. injection E0 as _ <-. injection E as <- <-. right. split; [done|].
  apply orb_false_iff in Eb as [_ Eb]. apply bool_decide_eq_false in Eb. rewrite <- eq_None_not_Some in Eb.
  rewrite sv_lookup, Eb. split; [done|]. unfold vview, sv. cbn. by rewrite fmap_insert.
Qed.

Lemma adoptCheck_next id v b v' : NvmeSpill.adoptCheck id v = Ret b v' -> v' = v /\ (b = true -> id < nextID v).
Proof.
  intros E. unfold NvmeSpill.adoptCheck in E. next_ret E v1. injection E0 as <- <-. destruct (closed v); [by injection E as <- <-|].
  next_ret E v1. injection E0 as <- <-. next_ret E v1. injection E0 as <- <-. injection E as <- <-. split; [done|].
  intros [_ Hlt%Z.ltb_lt]%andb_true_iff. done.
Qed.

(** The oldest sealed segment, with its entries. *)
Lemma OldestSealed_view from v o v' :
  OldestSealed from v = Ret o v' ->
  v' = v /\ forall id es, o = Some (id, es) -> exists g, sv v !! id = Some g /\ s_sealed g = true /\ s_entries g = es.
Proof.
  intros E. injection E as <- <-. split; [done|].
  set (l := omap _ _). assert (forall id g, (id, g) ∈ l -> segs v !! id = Some g) as Hl.
  { intros id g. unfold l. rewrite list_elem_of_omap. intros (j & _ & Hj). destruct (segs v !! j) eqn:Ej; [|done].
    cbn in Hj. injection Hj as <- <-. done. }
  clearbody l. match goal with |- forall _ _, foldl ?f None l = _ -> _ => set (pick := f) end.
  set (okacc := fun acc : option (Z * list footerEntry) =>
    forall id es, acc = Some (id, es) -> exists g, sv v !! id = Some g /\ s_sealed g = true /\ s_entries g = es).
  assert (forall acc, okacc acc -> okacc (foldl pick acc l)) as Hf; [|by apply Hf].
  induction l as [|[j h] l IH]; intros acc Ha; cbn [foldl]; [done|]. apply IH; [intros; apply Hl; by right|].
  unfold pick at 1. destruct ((j <? from) || negb (s_sealed h) || s_dying h) eqn:Eb; [done|].
  apply orb_false_iff in Eb as [Eb _]. apply orb_false_iff in Eb as [_ Eb]. apply negb_false_iff in Eb.
  assert (okacc (Some (j, s_entries h))) as Hn.
  { intros id es [= <- <-]. exists (bare h). rewrite sv_lookup, (Hl j h) by (by left). done. }
  destruct acc as [[i0 e0]|]; [|done]. destruct (j <? i0); done.
Qed.

Lemma SealedUnspilled_view v l v' :
  NvmeSpill.SealedUnspilled v = Ret l v' ->
  v' = v /\ forall si, si ∈ l -> exists g, sv v !! NvmeSpill.si_ID si = Some g /\ s_sealed g = true.
Proof.
  intros [= <- <-]. split; [done|]. intros si. rewrite list_elem_of_omap. intros (j & _ & Hj).
  destruct (segs v !! j) as [g|] eqn:Eg; cbn in Hj; [|done].
  destruct (negb (s_sealed g) || s_spilled g || s_dying g) eqn:Eb; [done|]. injection Hj as <-. cbn.
  exists (bare g). rewrite sv_lookup, Eg. apply orb_false_iff in Eb as [Eb _]. apply orb_false_iff in Eb as [Eb _].
  apply negb_false_iff in Eb. done.
Qed.

(** ** How many callbacks a turn makes *)

Definition lone {A} (m : M A) : Prop := forall v a v', m v = Ret a v' -> acks v' = acks v /\ reqs v' = reqs v.

Lemma lone_still {A} (m : M A) : still m -> lone m.
Proof. intros Hm v a v' E. apply Hm in E. injection E as _ _ -> -> _. done. Qed.

Lemma lone_bind {A B} (m : M A) (f : A -> M B) : lone m -> (forall a, lone (f a)) -> lone (m ≫= f).
Proof.
  intros Hm Hf v b v' (a & v1 & E1 & E2)%ret_bind. destruct (Hm _ _ _ E1) as [<- <-]. by eapply Hf.
Qed.

Lemma lone_modify (f : Volume -> Volume) : (forall v, acks (f v) = acks v /\ reqs (f v) = reqs v) -> lone (modify f).
Proof. intros Hf v a v' [= _ <-]. apply Hf. Qed.

(** One step of [lone m]. *)
Ltac lone_step :=
  match goal with
  | |- lone (_ ≫= _) => apply lone_bind; [|intros ?]
  | |- lone (modify _) => apply lone_modify; by intros ?
  | |- lone (match ?x with _ => _ end) => destruct x
  | |- lone _ => apply lone_still; solve [repeat still_step]
  end.

Lemma lone_sealActive : lone sealActive.
Proof. unfold sealActive. repeat lone_step. Qed.

Lemma lone_openActive : lone (openActive p).
Proof. unfold openActive. repeat lone_step. Qed.

Lemma lone_rotate : lone (rotate p).
Proof.
  unfold rotate. apply lone_bind; [apply lone_sealActive|]. intros [e|]; [by repeat lone_step|].
  apply lone_bind; [apply lone_openActive|]. intros [e|]; repeat lone_step.
Qed.

(** [k] requests in hand before [m], [k' a] after it. *)
Definition counts {A} (k : nat) (m : M A) (k' : A -> nat) : Prop := forall v a v', m v = Ret a v' ->
  (length (acks v') + length (reqs v') + k' a <= length (acks v) + length (reqs v) + k)%nat.

Lemma counts_lone {A} k (m : M A) : lone m -> counts k m (fun _ => k).
Proof. intros Hm v a v' E. destruct (Hm _ _ _ E) as [-> ->]. done. Qed.

Lemma counts_bind {A B} k k1 k2 (m : M A) (f : A -> M B) :
  counts k m k1 -> (forall a, counts (k1 a) (f a) k2) -> counts k (m ≫= f) k2.
Proof. intros Hm Hf v b v' (a & v1 & E1 & E2)%ret_bind. pose proof (Hm _ _ _ E1). pose proof (Hf _ _ _ _ E2). lia. Qed.

Lemma counts_ret {A} k (a : A) (k' : A -> nat) : (k' a <= k)%nat -> counts k (mret a) k'.
Proof. intros Hk v b v' [= <- <-]. lia. Qed.

Lemma counts_mono {A} k k1 (m : M A) (k' k1' : A -> nat) :
  (k <= k1)%nat -> (forall a, (k1' a <= k' a)%nat) -> counts k m k' -> counts k1 m k1'.
Proof. intros Hk Hk' Hm v a v' E. pose proof (Hm _ _ _ E). specialize (Hk' a). lia. Qed.

Lemma counts_onWritten k r o : counts (S k) (onWritten r o) (fun _ => k).
Proof. intros v a v' [= _ <-]. cbn. lia. Qed.

Lemma counts_receive k : counts k receive (fun o => match o with Some _ => S k | None => k end).
Proof.
  intros v a v' E. unfold receive in E. destruct (reqs v) as [|r rs] eqn:Er; injection E as <- <-; rewrite ?Er; cbn; lia.
Qed.

Lemma counts_failAll k l : counts (length l + k) (failAll l) (fun _ => k).
Proof. intros v a v' [= _ <-]. cbn. rewrite length_app, length_reverse, length_fmap. lia. Qed.

Ltac seq_counts k1 := apply (counts_bind _ k1); [|intros ?].

Lemma counts_flushBatch k st pending : counts (length pending + k) (flushBatch p st pending) (fun _ => k).
Proof.
  unfold flushBatch. seq_counts (fun _ : option (Z * segment) => (length pending + k)%nat); [apply counts_lone; by lone_step|].
  destruct a as [[id seg]|]; [|seq_counts (fun _ : unit => k); [apply counts_failAll|by apply counts_ret]].
  seq_counts (fun _ : option ioError => (length pending + k)%nat); [apply counts_lone; by lone_step|]. destruct a as [e|].
  { seq_counts (fun _ : unit => (length pending + k)%nat); [apply counts_lone; by lone_step|].
    seq_counts (fun _ : unit => k); [apply counts_failAll|by apply counts_ret]. }
  do 2 (seq_counts (fun _ : unit => (length pending + k)%nat); [apply counts_lone; by lone_step|]).
  seq_counts (fun _ : Z => (length pending + k)%nat); [apply counts_lone; by lone_step|].
  do 2 (seq_counts (fun _ : unit => (length pending + k)%nat); [apply counts_lone; by repeat lone_step|]).
  seq_counts (fun _ : unit => k); [|by apply counts_ret].
  intros v u v' [= _ <-]. cbn. rewrite length_app, length_reverse, length_fmap. lia.
Qed.

Lemma counts_flush k st pending : counts (length pending + k) (flush p st pending) (fun _ => k).
Proof. unfold flush. destruct pending; [by apply counts_ret|apply counts_flushBatch]. Qed.

Lemma counts_stageRec req st pending :
  counts (S (length pending)) (stageRec req st pending) (fun x => length (snd x)).
Proof.
  unfold stageRec. seq_counts (fun _ : Z => S (length pending)); [apply counts_lone, lone_still; by repeat still_step|].
  seq_counts (fun _ : bytes => S (length pending)); [apply counts_lone; by lone_step|]. apply counts_ret. cbn.
  rewrite length_app. cbn. lia.
Qed.

Lemma counts_stage (fuel : nat) :
  (forall req st pending, counts (S (length pending)) (stage p fuel req st pending) (fun _ => O)) /\
  (forall st pending, counts (length pending) (drain p fuel st pending) (fun _ => O)).
Proof.
  assert (forall st pending, counts (length pending) (flush p st pending;; mret tt) (fun _ => O)) as Hfl.
  { intros st pending. seq_counts (fun _ : bool => O); [|by apply counts_ret].
    eapply counts_mono; [| |apply (counts_flush 0)]; [lia|done]. }
  assert (forall k st pending, counts (S (length pending) + k) (flush p st pending) (fun _ => S k)) as Hfl1.
  { intros k st pending. eapply counts_mono; [| |apply (counts_flush (S k))]; [lia|done]. }
  induction fuel as [|fuel [IHs IHd]]; [split; intros; by intros v a v' ?|]. split.
  - intros req st pending. cbn [stage]. case_if; [eapply counts_mono; [| |apply (counts_onWritten (length pending))]; [lia|intros; cbn; lia]|].
    cbv zeta. seq_counts (fun _ : bool => S (length pending)); [apply counts_lone; by lone_step|].
    seq_counts (fun o : option (bytes * list pendingRec) => match o with Some x => S (length (snd x)) | None => 1%nat end).
    { destruct a; cbn [negb]; [by apply counts_ret|]. seq_counts (fun _ : bool => 1%nat).
      { eapply counts_mono; [| |apply (Hfl1 0%nat)]; [lia|done]. }
      destruct a; cbn [negb]; [|by apply counts_ret]. seq_counts (fun _ : bool => 1%nat); [apply counts_lone, lone_rotate|].
      apply counts_ret. by destruct a. }
    destruct a0 as [[st' pending']|]; [cbn [snd]|apply counts_onWritten]. case_if.
    + seq_counts (fun _ : bool => 1%nat); [eapply counts_mono; [| |apply (Hfl1 0%nat)]; [lia|done]|].
      destruct a0; cbn [negb]; [apply (IHs req [] [])|apply counts_onWritten].
    + seq_counts (fun x : bytes * list pendingRec => length (snd x)); [apply counts_stageRec|apply IHd].
  - intros st pending. cbn [drain]. case_if; [apply Hfl|].
    seq_counts (fun o : option AppendReq => match o with Some _ => S (length pending) | None => length pending end);
      [apply counts_receive|]. destruct a as [nxt|]; [|apply Hfl]. case_if.
    { seq_counts (fun _ : unit => length pending); [apply counts_onWritten|apply IHd]. }
    cbv zeta. seq_counts (fun _ : bool => S (length pending)); [apply counts_lone; case_if; by lone_step|].
    destruct a; cbn [negb].
    + seq_counts (fun x : bytes * list pendingRec => length (snd x)); [apply counts_stageRec|apply IHd].
    + seq_counts (fun _ : bool => 1%nat); [eapply counts_mono; [| |apply (Hfl1 0%nat)]; [lia|done]|].
      destruct a; cbn [negb]; [apply (IHs nxt [] [])|]. seq_counts (fun _ : unit => O); [apply counts_onWritten|apply (IHd [] [])].
Qed.

(** A turn makes at most one callback for each request in the queue. *)
Lemma counts_writer : counts 0 (writerTurn p) (fun _ => O).
Proof.
  unfold writerTurn. seq_counts (fun o : option AppendReq => match o with Some _ => 1%nat | None => O end); [apply counts_receive|].
  destruct a as [req|]; [|by apply counts_ret]. seq_counts (fun _ : nat => 1%nat); [apply counts_lone; by lone_step|].
  apply counts_stage.
Qed.

End Calls.
End TieredVol.
