(* ===== verification/TieredDram.v ===== *)
(** What the tiered store relies on of the DRAM tier: no call of the DRAM store
    changes what the accountant holds for the tiers below. *)

From Stdlib Require Import ZArith Lia SpecFloat.
From coqutil Require Import Byte.
From stdpp Require Import base numbers list gmap.
From S2P Require Import Prelude.
From S2P Require Import Wire.
From S2P Require Import Tenant.
From S2P Require Import Eviction.
From S2P Require Import BlockRef.
From S2P Require Import Index.
From S2P Require Import DramStore.
Import Ops Eviction Block Lifecycle Dram.
Open Scope Z_scope.
Open Scope go_scope.

Module TieredDram.

Abbreviation Usage := Quotas.Usage.
Abbreviation quotas_ok := QuotaFacts.quotas_ok.

(** The counters below DRAM are the same. *)
Definition below (q q' : Quotas.Quotas) : Prop :=
  quotas_ok q -> quotas_ok q' /\
  forall ns t, t = Registry.TierNVMe \/ t = Registry.TierS3 -> Usage q' ns t = Usage q ns t.

Definition same_below (o o' : option Quotas.Quotas) : Prop :=
  match o, o' with Some q, Some q' => below q q' | None, None => True | _, _ => False end.

Lemma same_below_refl o : same_below o o.
Proof. destruct o; [|done]. by intros Hq. Qed.

Lemma same_below_trans o1 o2 o3 : same_below o1 o2 -> same_below o2 o3 -> same_below o1 o3.
Proof.
  destruct o1, o2, o3; try done. intros H1 H2 Hq. destruct (H1 Hq) as [Hq2 E1]. destruct (H2 Hq2) as [Hq3 E2].
  split; [done|]. intros ns t Ht. by rewrite E2, E1.
Qed.

(** Whatever a verb on the DRAM counter makes of it, the others stay. *)
Lemma usage_set_below q q' ns v : (quotas_ok q -> QuotaFacts.usage_set q q' ns Registry.TierDRAM v) -> below q q'.
Proof.
  intros Hs Hq. destruct (Hs Hq) as (Hq' & _ & Hu). split; [done|].
  intros ns' t [-> | ->]; rewrite Hu by done; rewrite decide_False; by try intros [_ [=]].
Qed.

Lemma Refund_below q ns n : below q (Quotas.Refund q ns Registry.TierDRAM n).
Proof.
  destruct (Z_lt_le_dec 0 n) as [Hn|Hn].
  2: { unfold Quotas.Refund. replace (n <=? 0) with true by lia. by intros Hq. }
  eapply (usage_set_below _ _ ns). intros Hq. unfold Quotas.Refund. replace (n <=? 0) with false by lia. cbn [orb].
  replace (Registry.badTier Registry.TierDRAM) with false by done. rewrite QuotaFacts.domain_spec. unfold Quotas.addUsed.
  cbn [Quotas.used Quotas.limit].
  instantiate (1 := if Quotas.i64 (Quotas.at_ (QuotaFacts.usedOf q ns) Registry.TierDRAM + - n) <? 0 then 0
                    else Quotas.i64 (Quotas.at_ (QuotaFacts.usedOf q ns) Registry.TierDRAM + - n)).
  case_if; unfold Quotas.putUsage at 1; cbn; rewrite ?insert_insert_eq; by apply QuotaFacts.put_usage_set.
Qed.

Lemma Charge_below q ns n : below q (fst (Quotas.Charge q ns Registry.TierDRAM n)).
Proof.
  destruct (Z_lt_le_dec 0 n) as [Hn|Hn].
  2: { unfold Quotas.Charge. replace (n <=? 0) with true by lia. by intros Hq. }
  destruct (QuotaFacts.Charge_spec q ns Registry.TierDRAM n eq_refl Hn) as (q' & Hd & ->).
  rewrite QuotaFacts.domain_spec in Hd. injection Hd as <-. case_if; cbn [fst].
  - intros Hq. split.
    + apply map_Forall_insert_2; [|done]. by apply QuotaFacts.usedOf_length.
    + intros ns' t Ht. rewrite QuotaFacts.Usage_put. case_decide as Hd; [|done]. subst.
      cbn [Quotas.used]. destruct Ht as [-> | ->]; by rewrite QuotaFacts.Usage_usedOf.
  - eapply (usage_set_below _ _ ns). intros Hq. unfold Quotas.addUsed. cbn [Quotas.used Quotas.limit].
    unfold Quotas.putUsage at 1. cbn. rewrite insert_insert_eq. by apply QuotaFacts.put_usage_set.
Qed.

(** ** Programs *)

Section Frame.
Context {A P : Type}.
Abbreviation st := (Store A P).

Definition frames {B} (m : sm st B) : Prop := forall s b s', m s = Some (b, s') -> same_below (quotas s) (quotas s').

Lemma fr_ret {B} (b : B) : frames (mret b).
Proof. intros s c s' [= _ <-]. apply same_below_refl. Qed.

Lemma fr_bind {B C} (m : sm st B) (f : B -> sm st C) : frames m -> (forall b, frames (f b)) -> frames (m ≫= f).
Proof.
  intros Hm Hf s c s' E. unfold mbind, sm_mbind in E. destruct (m s) as [[b s1]|] eqn:Em; [|done].
  eapply same_below_trans; [by eapply Hm|by eapply Hf].
Qed.

Lemma fr_gets {B} (f : st -> B) : frames (gets f).
Proof. intros s c s' [= _ <-]. apply same_below_refl. Qed.

Lemma fr_modify (f : st -> st) : (forall s, same_below (quotas s) (quotas (f s))) -> frames (modify f).
Proof. intros Hf s c s' [= _ <-]. apply Hf. Qed.

(** A step that hands the quotas on. *)
Lemma fr_same {B} (m : sm st B) : (forall s b s', m s = Some (b, s') -> quotas s' = quotas s) -> frames m.
Proof. intros Hm s b s' E. rewrite (Hm _ _ _ E). apply same_below_refl. Qed.

End Frame.

Create HintDb fr.
#[export] Hint Resolve fr_ret fr_gets : fr.

Ltac fr_step :=
  match goal with
  | |- frames (_ ≫= _) => apply fr_bind; [|intros ?]
  | |- frames (modify _) => apply fr_modify; intros ?; first [apply same_below_refl | repeat case_match; apply same_below_refl]
  | |- frames (match ?x with _ => _ end) => destruct x
  | |- frames (match ?x with _ => _ end _) => destruct x
  | |- frames (let _ := _ in _) => cbv zeta
  | |- frames _ => solve [eauto 2 with fr nocore]
  end.
Ltac fr_head t := match t with ?f _ => fr_head f | _ => t end.
Ltac fr := intros; match goal with |- frames ?m => let h := fr_head m in unfold h end; repeat fr_step.
(** A primitive that reads or replaces one field. *)
Ltac fr_prim :=
  intros; apply fr_same; intros ? ? ? Hrun;
  match type of Hrun with ?m _ = _ => let h := fr_head m in unfold h in Hrun end;
  repeat first [ apply bind_Some in Hrun as (? & _ & Hrun)
               | match type of Hrun with (match ?x with _ => _ end) = _ => destruct x end ];
  by simplify_eq/=.

Section Calls.
Context {A P : Type} `{!ExtentAlloc A} `{!Policy P} `{!Index.IndexEnv} (time : nat -> Z).
Abbreviation st := (Store A P).

Lemma fr_now : frames (A := A) (P := P) (now time).
Proof. fr_prim. Qed.
Lemma fr_deref q : frames (A := A) (P := P) (deref q).
Proof. fr_prim. Qed.
Lemma fr_setRef q r : frames (A := A) (P := P) (setRef q r).
Proof. fr. Qed.
Lemma fr_newRef r : frames (A := A) (P := P) (newRef r).
Proof. fr_prim. Qed.
Lemma fr_arenaRead off n : frames (A := A) (P := P) (arenaRead off n).
Proof. fr_prim. Qed.
Lemma fr_arenaWrite off n b : frames (A := A) (P := P) (arenaWrite off n b).
Proof. fr_prim. Qed.
Lemma fr_polDo f : frames (A := A) (P := P) (polDo f).
Proof. fr_prim. Qed.
Lemma fr_allocFree al : frames (A := A) (P := P) (allocFree al).
Proof. fr_prim. Qed.
Lemma fr_allocAlloc u : frames (A := A) (P := P) (allocAlloc u).
Proof. fr_prim. Qed.
Lemma fr_allocReport : frames (A := A) (P := P) allocReport.
Proof. fr_prim. Qed.
Lemma fr_polVictims a b c : frames (A := A) (P := P) (polVictims a b c).
Proof. fr_prim. Qed.
Lemma fr_polUsage t : frames (A := A) (P := P) (polUsage t).
Proof. fr_prim. Qed.
Lemma fr_refundQuota q : frames (A := A) (P := P) (refundQuota q).
Proof.
  apply fr_bind; [apply fr_deref|]. intros r. apply fr_modify. intros s. destruct (quotas s) as [qs|] eqn:Eq; [|by rewrite Eq].
  case_if; [|rewrite Eq; apply same_below_refl]. cbn. apply Refund_below.
Qed.
Lemma fr_putCharge ns n : frames (A := A) (P := P) (putCharge ns n).
Proof.
  intros s b s' E. unfold putCharge in E. destruct (quotas s) as [qs|] eqn:Eq; [|injection E as _ <-; by rewrite Eq].
  case_if_in E; [|injection E as _ <-; rewrite Eq; apply same_below_refl].
  pose proof (Charge_below qs ns n) as Hc. destruct (Quotas.Charge qs ns Registry.TierDRAM n) as [qs' e]. by injection E as _ <-.
Qed.
End Calls.
#[export] Hint Resolve fr_now fr_deref fr_setRef fr_newRef fr_arenaRead fr_arenaWrite fr_polDo fr_allocFree fr_allocAlloc
  fr_allocReport fr_polVictims fr_polUsage fr_refundQuota fr_putCharge : fr.

Section Methods.
Context {A P : Type} `{!ExtentAlloc A} `{!Policy P} `{!Index.IndexEnv} (time : nat -> Z).

Lemma fr_polAdmit a b c : frames (A := A) (P := P) (polAdmit a b c).
Proof. fr. Qed.
Lemma fr_polTouch a b : frames (A := A) (P := P) (polTouch a b).
Proof. fr. Qed.
Lemma fr_polRemove a : frames (A := A) (P := P) (polRemove a).
Proof. fr. Qed.
Lemma fr_addLive n : frames (A := A) (P := P) (addLive n).
Proof. fr. Qed.
Lemma fr_bumpGen : frames (A := A) (P := P) (bumpGen).
Proof. fr. Qed.
Lemma fr_kickEvictor : frames (A := A) (P := P) (kickEvictor).
Proof. fr. Qed.
Lemma fr_noteGone q : frames (A := A) (P := P) (noteGone q).
Proof. fr. Qed.
Lemma fr_unpinGone q : frames (A := A) (P := P) (unpinGone q).
Proof. fr. Qed.
#[local] Hint Resolve fr_polAdmit fr_polTouch fr_polRemove fr_addLive fr_bumpGen fr_kickEvictor fr_noteGone fr_unpinGone : fr.
Lemma fr_free q : frames (A := A) (P := P) (free q).
Proof. fr. Qed.
#[local] Hint Resolve fr_free : fr.
Lemma fr_releaseRef q : frames (A := A) (P := P) (releaseRef q).
Proof. fr. Qed.
Lemma fr_occupancy : frames (A := A) (P := P) (occupancy).
Proof. fr. Qed.
#[local] Hint Resolve fr_releaseRef fr_occupancy : fr.
Lemma fr_DeleteIf k (gate : Z -> sm (Store A P) Z) : (forall q, frames (gate q)) -> frames (DeleteIf k gate).
Proof. intros Hg. unfold DeleteIf. repeat first [apply Hg | fr_step]. Qed.
Lemma fr_evictGate a b q : frames (A := A) (P := P) (evictGate time a b q).
Proof. fr. Qed.
Lemma fr_deleteGate a b q : frames (A := A) (P := P) (deleteGate time a b q).
Proof. fr. Qed.
Lemma fr_demoteGate a q : frames (A := A) (P := P) (demoteGate time a q).
Proof. fr. Qed.
#[local] Hint Resolve fr_evictGate fr_deleteGate fr_demoteGate : fr.
#[local] Hint Resolve fr_DeleteIf : fr.
Lemma fr_evictOne a b : frames (A := A) (P := P) (evictOne time a b).
Proof. fr. Qed.
#[local] Hint Resolve fr_evictOne : fr.
Lemma fr_evictExpired vs need freed : frames (A := A) (P := P) (evictExpired time vs need freed).
Proof. revert freed. induction vs as [|v vs IH]; intros; cbn [evictExpired]; repeat first [apply IH | fr_step]. Qed.
Lemma fr_harvestLoop cs t freed : frames (A := A) (P := P) (harvestLoop time cs t freed).
Proof. revert freed. induction cs as [|v vs IH]; intros; cbn [harvestLoop]; repeat first [apply IH | fr_step]. Qed.
#[local] Hint Resolve fr_evictExpired fr_harvestLoop : fr.
Lemma fr_sweepExpired t need : frames (A := A) (P := P) (sweepExpired time t need).
Proof. fr. Qed.
Lemma fr_harvest ns want t freed : frames (A := A) (P := P) (harvest time ns want t freed).
Proof. fr. Qed.
#[local] Hint Resolve fr_sweepExpired fr_harvest : fr.
Lemma fr_overQuotaRound fuel us t need freed : frames (A := A) (P := P) (overQuotaRound time fuel us t need freed).
Proof. revert freed. induction fuel as [|n IH]; intros; cbn [overQuotaRound]; [by intros ? ? ?|repeat first [apply IH | fr_step]]. Qed.
Lemma fr_proportionalRound us tot t need freed : frames (A := A) (P := P) (proportionalRound time us tot t need freed).
Proof. revert freed. induction us as [|v vs IH]; intros; cbn [proportionalRound]; repeat first [apply IH | fr_step]. Qed.
Lemma fr_remainderRound us t need freed : frames (A := A) (P := P) (remainderRound time us t need freed).
Proof. revert freed. induction us as [|v vs IH]; intros; cbn [remainderRound]; repeat first [apply IH | fr_step]. Qed.
#[local] Hint Resolve fr_overQuotaRound fr_proportionalRound fr_remainderRound : fr.
Lemma fr_policyPass t need : frames (A := A) (P := P) (policyPass time t need).
Proof. fr. Qed.
#[local] Hint Resolve fr_policyPass : fr.
Lemma fr_evictEmergency vs nb nc freed count : frames (A := A) (P := P) (evictEmergency time vs nb nc freed count).
Proof. revert freed count. induction vs as [|v vs IH]; intros; cbn [evictEmergency]; repeat first [apply IH | fr_step]. Qed.
#[local] Hint Resolve fr_evictEmergency : fr.
Lemma fr_sweepEmergency t nb nc : frames (A := A) (P := P) (sweepEmergency time t nb nc).
Proof. fr. Qed.
#[local] Hint Resolve fr_sweepEmergency : fr.
Lemma fr_evictOnce cfg b : frames (A := A) (P := P) (evictOnce time cfg b).
Proof. fr. Qed.
#[local] Hint Resolve fr_evictOnce : fr.
Lemma fr_EvictNow : frames (A := A) (P := P) (EvictNow time).
Proof. fr. Qed.
Lemma fr_fits_ u : frames (A := A) (P := P) (fits_ u).
Proof. fr. Qed.
#[local] Hint Resolve fr_EvictNow fr_fits_ : fr.
Lemma fr_CanStore n : frames (A := A) (P := P) (CanStore time n).
Proof. fr. Qed.
#[local] Hint Resolve fr_CanStore : fr.
Lemma fr_CanStoreNS ns n : frames (A := A) (P := P) (CanStoreNS time ns n).
Proof. fr. Qed.
Lemma fr_GetRef ns key : frames (A := A) (P := P) (GetRef time ns key).
Proof. fr. Qed.
Lemma fr_putAlloc u : frames (A := A) (P := P) (putAlloc time u).
Proof. fr. Qed.
Lemma fr_putPublish k b x al : frames (A := A) (P := P) (putPublish time k b x al).
Proof. fr. Qed.
#[local] Hint Resolve fr_CanStoreNS fr_GetRef fr_putAlloc fr_putPublish : fr.
Lemma fr_Put ns key b x : frames (A := A) (P := P) (Put time ns key b x).
Proof. fr. Qed.
Lemma fr_Contains ns key : frames (A := A) (P := P) (Contains ns key).
Proof. fr. Qed.
Lemma fr_Delete ns key force : frames (A := A) (P := P) (Delete time ns key force).
Proof. fr. Qed.
Lemma fr_TouchLease ns key sub ttl : frames (A := A) (P := P) (TouchLease time ns key sub ttl).
Proof. fr. Qed.
Lemma fr_PinOp ns key sub : frames (A := A) (P := P) (PinOp ns key sub).
Proof. fr. Qed.
Lemma fr_RefForDemotion ns key : frames (A := A) (P := P) (RefForDemotion ns key).
Proof. fr. Qed.
Lemma fr_CompleteDemotion ns key x pub : frames (A := A) (P := P) (CompleteDemotion time ns key x pub).
Proof. fr. Qed.
Lemma fr_Occupancy : frames (A := A) (P := P) (Occupancy).
Proof. fr. Qed.
#[local] Hint Resolve fr_Put fr_Contains fr_Delete fr_TouchLease fr_PinOp fr_RefForDemotion fr_CompleteDemotion fr_Occupancy : fr.

End Methods.
Create HintDb frames.
#[export] Hint Resolve fr_now fr_releaseRef fr_CanStore fr_CanStoreNS fr_GetRef fr_Put fr_Contains fr_Delete fr_TouchLease
  fr_PinOp fr_RefForDemotion fr_CompleteDemotion fr_Occupancy fr_polVictims fr_polUsage fr_polAdmit : frames.
End TieredDram.
