(* ===== verification/TieredInv.v ===== *)
(** The invariant of the tiers under interleaving handlers.

    Two things are kept together. The accounting: the counters of the index, of
    the object tier and of the tenants are exactly what the index entries and the
    refunds still under way add up to. The homes: an entry that is not s3-only is
    listed by a live segment of its volume, an s3-only entry has an object.

    A token is what one handler owns: a record it took out of the index and has
    not refunded yet, a slot of the read semaphore, the latch of a segment with
    what the handler has established under it, or a fact about a segment that no
    other handler can change. *)

From Stdlib Require Import ZArith Lia.
From coqutil Require Import Byte.
From stdpp Require Import base numbers list gmap sets.
From S2P Require Import Prelude.
From S2P Require Import Conc.
From S2P Require Import Wire.
From S2P Require Import Tenant.
From S2P Require Import Eviction.
From S2P Require Import BlockRef.
From S2P Require Import Index.
From S2P Require Import DramStore.
From S2P Require Import NvmeFormat.
From S2P Require Import NvmeVolume.
From S2P Require Import NvmeSpill.
From S2P Require Import NvmeIndex.
From S2P Require Import Tiered.
From S2P Require Import TieredVol.
From S2P Require Import TieredDram.
Import Conc Ops Eviction Seg NvmeIndex Tiered TieredVol TieredDram.
Open Scope Z_scope.
Open Scope go_scope.

Module TieredInv.

Definition segOf (r : nvmeRef) : Z := SegmentID (Loc_ r).
Definition tierOf (r : nvmeRef) : Z := if S3Only r then Registry.TierS3 else Registry.TierNVMe.

(** The volume of a key, out of [n]. *)
Definition volIx (n : nat) (key : bytes) : nat :=
  match le_get 8 key with Some h => Z.to_nat (h `mod` Z.of_nat n) | None => 0%nat end.

(** What the holder of a latch has established.
    [PMark]: the object is there, and every local entry outside [todo] is flagged;
    when a key is being looked at, only the record read for it can be in the segment.
    [PRetire]: the segment is live, and every entry outside [todo] is s3-only.
    [PLive]: the segment is live and lists [es].
    [PDead], [PBare]: no entry is s3-only; no entry is flagged. *)
Inductive phase :=
| PHeld
| PMark (i : nat) (todo : list Key) (cur : option (Key * Z))
| PRetire (i : nat) (flip : bool) (todo : list Key)
| PLive (i : nat) (es : list footerEntry)
| PDead
| PBare.

Inductive token :=
| TGone (ns ref : Z) (r : nvmeRef)         (* taken out of the index, not refunded *)
| TBlock | TBytes (n : Z) | TSeg (id : Z) | TCharge (ns tier n : Z) (* parts of a refund *)
| TSem
| TLatch (id : Z) (ph : phase)
| TSealed (i : nat) (id : Z)               (* sealed, if live *)
| TSnap (i : nat) (id : Z) (es : list footerEntry) (* lists exactly [es], if live and not restored *)
| TOld (i : nat) (id : Z)                  (* a segment number that was handed out *)
| TAt (ref id : Z).                        (* the record is homed in segment [id] *)

(** ** What entries and tokens weigh *)

Definition isOnly (r : nvmeRef) : Z := if S3Only r then 1 else 0.
Definition onlyBytes (r : nvmeRef) : Z := if S3Only r then Len r else 0.
Definition onlyIn (id : Z) (r : nvmeRef) : Z := if S3Only r && (segOf r =? id) then 1 else 0.
Definition charged (ns tier ns' : Z) (r : nvmeRef) : Z := if (ns' =? ns) && (tierOf r =? tier) then Len r else 0.

Definition wBlocks (x : token) : Z := match x with TGone _ _ r => isOnly r | TBlock => 1 | _ => 0 end.
Definition wBytes (x : token) : Z := match x with TGone _ _ r => onlyBytes r | TBytes n => n | _ => 0 end.
Definition wSeg (id : Z) (x : token) : Z :=
  match x with TGone _ _ r => onlyIn id r | TSeg id' => if id' =? id then 1 else 0 | _ => 0 end.
Definition wCharge (ns tier : Z) (x : token) : Z :=
  match x with
  | TGone ns' _ r => charged ns tier ns' r
  | TCharge ns' t' n => if (ns' =? ns) && (t' =? tier) then n else 0
  | _ => 0
  end.
Definition wSem (x : token) : Z := match x with TSem => 1 | _ => 0 end.

Fixpoint total {B} (w : B -> Z) (l : list B) : Z := match l with [] => 0 | x :: l => w x + total w l end.

Lemma total_app {B} (w : B -> Z) l k : total w (l ++ k) = total w l + total w k.
Proof. induction l as [|x l IH]; cbn; lia. Qed.

Lemma total_perm {B} (w : B -> Z) l k : l ≡ₚ k -> total w l = total w k.
Proof. induction 1; cbn; lia. Qed.

Lemma total_pos {B} (w : B -> Z) l : (forall x, x ∈ l -> 0 <= w x) -> 0 <= total w l.
Proof.
  induction l as [|x l IH]; intros Hw; cbn; [done|]. pose proof (Hw x ltac:(left)).
  enough (0 <= total w l) by lia. apply IH. intros y Hy. apply Hw. by right.
Qed.

(** The segments latched by handlers. *)
Definition latched (x : token) : list Z := match x with TLatch id _ => [id] | _ => [] end.

Section Inv.
Context {A P : Type} `{!Dram.ExtentAlloc A} `{!Policy P} `{!Index.IndexEnv} `{!Xxh3} `{!Outside}.
Context (N : nat) (cold : bool).

Abbreviation T := (Tiered A P).

(** ** The index as a map of records *)

Definition cont (t : T) : gmap Key Z := Index.contents (idx t).
Definition ents (t : T) : gmap Key (Z * nvmeRef) := map_imap (fun k q => pair (NS k) <$> refs t !! q) (cont t).

Lemma ents_lookup t k ns r :
  ents t !! k = Some (ns, r) <-> ns = NS k /\ exists q, cont t !! k = Some q /\ refs t !! q = Some r.
Proof.
  unfold ents. rewrite map_lookup_imap. split.
  - destruct (cont t !! k) as [q|]; cbn; [|done]. destruct (refs t !! q) as [r'|] eqn:E; cbn; [|done].
    intros [= <- <-]. split; [done|]. by exists q.
  - intros (-> & q & -> & Hr). cbn. by rewrite Hr.
Qed.

Definition esum (f : Z -> nvmeRef -> Z) (t : T) : Z := msum (fun e => f e.1 e.2) (ents t).
Definition rsum (f : Z -> nvmeRef -> Z) (t : T) : Z := total (fun e : Key * nvmeRef => f (NS e.1) e.2) (replaced t).

(** The part of a record no other handler changes once it left the index. *)
Definition frozen (r r' : nvmeRef) : Prop := Loc_ r' = Loc_ r /\ Len r' = Len r /\ S3Only r' = S3Only r.

Definition gone_ok (t : T) (x : token) : Prop :=
  match x with
  | TGone _ q r => (exists r', refs t !! q = Some r' /\ frozen r r') /\ forall k, cont t !! k <> Some q
  | TCharge _ _ n => 0 < n
  | _ => True
  end.

Record Acc (l : list token) (t : T) : Prop := mkAcc {
  ac_idx : @Index.index_ok nvShards (idx t);
  ac_ref : forall k q, cont t !! k = Some q -> is_Some (refs t !! q);
  ac_rec : forall q r, refs t !! q = Some r -> q < nextPtr t /\ 0 < Len r;
  ac_inj : forall k k' q, cont t !! k = Some q -> cont t !! k' = Some q -> k = k';
  ac_gone : forall x, x ∈ l -> gone_ok t x;
  ac_repl : forall k r, (k, r) ∈ replaced t -> 0 < Len r;
  ac_blocks : Index.blocks (idx t) = esum (fun _ _ => 1) t;
  ac_bytes : Index.bytes_ (idx t) = esum (fun _ => Len) t;
  ac_s3Blocks : s3Blocks t = esum (fun _ => isOnly) t + total wBlocks l + rsum (fun _ => isOnly) t;
  ac_s3Bytes : s3Bytes t = esum (fun _ => onlyBytes) t + total wBytes l + rsum (fun _ => onlyBytes) t;
  ac_segRefs : forall id, default 0 (segRefs t !! id) =
    esum (fun _ => onlyIn id) t + total (wSeg id) l + rsum (fun _ => onlyIn id) t;
  ac_sem : readSem t = total wSem l;
  ac_quota : match Dram.quotas (d t) with
             | Some q => quotas_ok q /\ forall ns tier, tier = Registry.TierNVMe \/ tier = Registry.TierS3 ->
                 Usage q ns tier = esum (charged ns tier) t + total (wCharge ns tier) l + rsum (charged ns tier) t
             | None => True
             end
}.

(** ** Homes *)

Definition seg_at (t : T) (i : nat) (id : Z) (g : Nvme.segment) : Prop :=
  exists v, vols t !! i = Some v /\ sv v !! id = Some g.

Definition listed (k : Key) (g : Nvme.segment) : Prop := exists e, e ∈ Nvme.s_entries g /\ entryKey e = k.

Definition home (k : Key) : nat := volIx N (Hash k).

(** Closed before, and no segment opened later has this number. *)
Definition sealed_if (t : T) (i : nat) (id : Z) : Prop :=
  exists v, vols t !! i = Some v /\ id < Nvme.nextID v /\ forall g, sv v !! id = Some g -> Nvme.s_sealed g = true.

Definition phase_ok (t : T) (id : Z) (ph : phase) : Prop :=
  match ph with
  | PHeld => True
  | PMark i todo cur => id ∈ objects t /\ sealed_if t i id /\ N = 1%nat /\
      (forall k ns r, ents t !! k = Some (ns, r) -> home k = i -> segOf r = id -> S3Only r = false -> S3 r = true \/ k ∈ todo) /\
      match cur with
      | None => True
      | Some (k, q) => forall q' r, cont t !! k = Some q' -> refs t !! q' = Some r -> home k = i -> segOf r = id -> q' = q
      end
  | PRetire i flip todo => (exists g, seg_at t i id g /\ Nvme.s_sealed g = true /\ (flip = true -> Nvme.s_spilled g = true)) /\
      forall k ns r, ents t !! k = Some (ns, r) -> home k = i -> segOf r = id -> S3Only r = true \/ k ∈ todo
  | PLive i es => exists g, seg_at t i id g /\ es ⊆ Nvme.s_entries g
  | PDead => forall k ns r, ents t !! k = Some (ns, r) -> segOf r = id -> S3Only r = false
  | PBare => forall k ns r, ents t !! k = Some (ns, r) -> segOf r = id -> S3 r = false
  end.

Definition token_ok (t : T) (x : token) : Prop :=
  match x with
  | TLatch id ph => phase_ok t id ph
  | TSealed i id => sealed_if t i id
  | TSnap i id es => sealed_if t i id /\
      forall g, seg_at t i id g -> (Nvme.s_spilled g = true /\ cold = true) \/ Nvme.s_entries g = es
  | TOld i id => exists v, vols t !! i = Some v /\ id < Nvme.nextID v
  | TAt q id => exists r, refs t !! q = Some r /\ segOf r = id
  | _ => True
  end.

(** A request waiting in the [i]-th volume's queue. *)
Definition queued (t : T) (i : nat) (r : Nvme.AppendReq) : Prop :=
  0 < len (Nvme.r_Data r) /\ Nvme.r_OnWritten r < nextClosure t /\ volIx N (Nvme.r_Key r) = i /\
  forall dm, closures t !! Nvme.r_OnWritten r = Some dm -> dm_k dm = mkKey (Nvme.r_NS r) (Nvme.r_Key r).

Record Home (l : list token) (t : T) : Prop := mkHome {
  ho_len : length (vols t) = N;
  ho_vol : forall i v, vols t !! i = Some v ->
    volume_ok v /\ (length (Nvme.reqs v) <= 128)%nat /\ forall r, r ∈ Nvme.reqs v -> queued t i r;
  ho_list : forall i id g e, seg_at t i id g -> e ∈ Nvme.s_entries g -> home (entryKey e) = i;
  ho_old : forall k ns r, ents t !! k = Some (ns, r) -> exists v, vols t !! home k = Some v /\ segOf r < Nvme.nextID v;
  ho_home : forall k ns r, ents t !! k = Some (ns, r) -> S3Only r = false ->
    exists g, seg_at t (home k) (segOf r) g /\ listed k g;
  ho_s3 : forall k ns r, ents t !! k = Some (ns, r) -> S3Only r = true -> S3 r = true;
  ho_obj : forall k ns r, ents t !! k = Some (ns, r) -> S3 r = true -> segOf r ∈ objects t;
  ho_mark : forall k ns r, ents t !! k = Some (ns, r) -> S3 r = true -> S3Only r = false ->
    (exists g, seg_at t (home k) (segOf r) g /\ Nvme.s_spilled g = true) \/ exists i todo cur, TLatch (segOf r) (PMark i todo cur) ∈ l;
  ho_only : forall k ns r g, ents t !! k = Some (ns, r) -> S3Only r = true -> seg_at t (home k) (segOf r) g ->
    Nvme.s_spilled g = true;
  ho_flag : forall k ns r g, ents t !! k = Some (ns, r) -> seg_at t (home k) (segOf r) g -> Nvme.s_spilled g = true ->
    S3 r = true;
  ho_latch : spillInflight t = list_to_set ((l ≫= latched) ++ (snd <$> uploads t)) /\
    NoDup ((l ≫= latched) ++ (snd <$> uploads t));
  ho_up : forall i id, (i, id) ∈ uploads t -> N = 1%nat /\ sealed_if t i id;
  ho_down : forall x, x ∈ downloads t -> N = 1%nat /\ cold = true;
  ho_tok : forall x, x ∈ l -> token_ok t x
}.

Definition Inv (l : list token) (t : T) : Prop := Acc l t /\ Home l t.

Lemma latches_perm l l' (u : list Z) (s : gset Z) :
  l ≡ₚ l' -> s = list_to_set (l ++ u) /\ NoDup (l ++ u) -> s = list_to_set (l' ++ u) /\ NoDup (l' ++ u).
Proof.
  intros Hp [-> Hn]. assert (l ++ u ≡ₚ l' ++ u) as Hpu by (by apply Permutation_app_tail).
  split; [|by rewrite <- Hpu]. apply set_eq. intros x. rewrite !elem_of_list_to_set. by rewrite Hpu.
Qed.

Lemma Inv_perm l l' t : l ≡ₚ l' -> Inv l t -> Inv l' t.
Proof.
  intros Hp [HA HH]. split.
  - destruct HA as [K1 K2 K3 K4 K5 K5' K6 K7 K8 K9 K10 K11 K12].
    split; rewrite <- ?(total_perm _ _ _ Hp); try done.
    + intros x Hin. apply K5. by rewrite Hp.
    + intros id. by rewrite <- (total_perm _ _ _ Hp).
    + destruct (Dram.quotas (d t)) as [q|]; [|done]. destruct K12 as [Hq Hu]. split; [done|].
      intros ns tier Ht. by rewrite <- (total_perm _ _ _ Hp), Hu.
  - destruct HH as [K1 K2 K3 K0 K4 K5 K6 K7 K8 K9 [K10 K10'] K11 K13 K12]. split; try done.
    + intros k ns r He Hs Ho. destruct (K7 k ns r He Hs Ho) as [?|(i & todo & cur & Hin)]; [by left|right].
      exists i, todo, cur. by rewrite <- Hp.
    + eapply latches_perm; [|by split]. by rewrite Hp.
    + intros x Hx. apply K12. by rewrite Hp.
Qed.

(** ** Steps of the volumes *)

(** A volume that only gained segments and entries. *)
Record vkeeps (i : nat) (v v' : Nvme.Volume) : Prop := mkVkeeps {
  vk_next : Nvme.nextID v <= Nvme.nextID v';
  vk_old : forall id g, sv v !! id = Some g -> exists g', sv v' !! id = Some g' /\ advances g g';
  vk_new : forall id g', sv v' !! id = Some g' -> sv v !! id = None -> Nvme.nextID v <= id /\ Nvme.s_spilled g' = false;
  vk_from : forall id g' e, sv v' !! id = Some g' -> e ∈ Nvme.s_entries g' ->
    (exists g, sv v !! id = Some g /\ e ∈ Nvme.s_entries g) \/ volIx N (e_Key e) = i
}.

Lemma vkeeps_view i v v' : sv v' = sv v -> Nvme.nextID v' = Nvme.nextID v -> vkeeps i v v'.
Proof.
  intros E1 E2. split; rewrite ?E1, ?E2; [done|..].
  - intros id g Hg. exists g. split; [done|apply advances_refl].
  - intros id g' Hg Hn. congruence.
  - intros id g' e Hg He. left. by exists g'.
Qed.

Lemma vkeeps_grows (Good : Nvme.AppendReq -> Prop) i n v v' :
  (forall r, Good r -> volIx N (Nvme.r_Key r) = i) -> grows Good n v v' -> vkeeps i v v'.
Proof.
  intros HG [O Nw F X _ _]. split; [lia|done..|]. intros id g' e Hg He.
  destruct (F _ _ _ Hg He) as [?|(r & Hr & _ & ->)]; [by left|right; by apply HG].
Qed.

Record vsteps (t t' : T) : Prop := mkVsteps {
  vs_len : length (vols t') = length (vols t);
  vs_vol : forall i v', vols t' !! i = Some v' -> exists v, vols t !! i = Some v /\ vkeeps i v v'
}.

Lemma vsteps_fwd t t' i v : vsteps t t' -> vols t !! i = Some v -> exists v', vols t' !! i = Some v' /\ vkeeps i v v'.
Proof.
  intros [Hl Hv] Hi. destruct (vols t' !! i) as [v'|] eqn:E.
  - exists v'. split; [done|]. destruct (Hv _ _ E) as (v0 & Hv0 & Hk). by simplify_eq.
  - apply lookup_ge_None in E. apply lookup_lt_Some in Hi. lia.
Qed.

Lemma seg_fwd t t' i id g : vsteps t t' -> seg_at t i id g -> exists g', seg_at t' i id g' /\ advances g g'.
Proof.
  intros Hs (v & Hv & Hg). destruct (vsteps_fwd _ _ _ _ Hs Hv) as (v' & Hv' & Hk).
  destruct (vk_old _ _ _ Hk _ _ Hg) as (g' & Hg' & Ha). exists g'. split; [|done]. by exists v'.
Qed.

Lemma seg_bwd t t' i id g' : vsteps t t' -> seg_at t' i id g' ->
  (exists g, seg_at t i id g /\ advances g g') \/
  (Nvme.s_spilled g' = false /\ exists v, vols t !! i = Some v /\ Nvme.nextID v <= id).
Proof.
  intros Hs (v' & Hv' & Hg'). destruct (vs_vol _ _ Hs _ _ Hv') as (v & Hv & Hk).
  destruct (sv v !! id) as [g|] eqn:Eg.
  - left. exists g. split; [by exists v|]. destruct (vk_old _ _ _ Hk _ _ Eg) as (g2 & Hg2 & Ha). by simplify_eq.
  - right. destruct (vk_new _ _ _ Hk _ _ Hg' Eg). split; [done|]. by exists v.
Qed.

(** A segment number that is in use, or was. *)
Lemma seg_known t t' i id g' v :
  vsteps t t' -> vols t !! i = Some v -> id < Nvme.nextID v -> seg_at t' i id g' -> exists g, seg_at t i id g /\ advances g g'.
Proof.
  intros Hs Hv Hlt Hg. destruct (seg_bwd _ _ _ _ _ Hs Hg) as [?|(_ & v2 & Hv2 & Hle)]; [done|]. simplify_eq. lia.
Qed.

Lemma sealed_if_step t t' i id : vsteps t t' -> sealed_if t i id -> sealed_if t' i id.
Proof.
  intros Hs (v & Hv & Hlt & Hse). destruct (vsteps_fwd _ _ _ _ Hs Hv) as (v' & Hv' & Hk). exists v'.
  pose proof (vk_next _ _ _ Hk). split_and!; [done|lia|]. intros g' Hg'.
  destruct (seg_known t t' i id g' v Hs Hv Hlt) as (g & (v0 & Hv0 & Hg) & Ha); [by exists v'|]. simplify_eq.
  specialize (Hse _ Hg). destruct Ha as (_ & Ha & _). by rewrite (Ha Hse).
Qed.

(** Everything but the volumes is as before. *)
Definition same_but_vols (t t' : T) : Prop :=
  idx t' = idx t /\ refs t' = refs t /\ objects t' = objects t /\ spillInflight t' = spillInflight t /\ uploads t' = uploads t /\ downloads t' = downloads t.

Lemma ents_same t t' : idx t' = idx t -> refs t' = refs t -> ents t' = ents t.
Proof. intros E1 E2. unfold ents, cont. by rewrite E1, E2. Qed.

Lemma phase_step t t' id ph : vsteps t t' -> same_but_vols t t' -> phase_ok t id ph -> phase_ok t' id ph.
Proof.
  intros Hs (E1 & E2 & E3 & _) Hp. pose proof (ents_same _ _ E1 E2) as Ee.
  destruct ph as [|i todo cur|i fl todo|i es| |]; cbn in *; rewrite ?Ee; try done.
  - destruct Hp as (Ho & Hse & HN & Hf & Hc). unfold cont. rewrite E1, E2, E3. split_and!; try done. by eapply sealed_if_step.
  - destruct Hp as ((g & Hg & Hse & Hsp) & Hf). split; [|done].
    destruct (seg_fwd _ _ _ _ _ Hs Hg) as (g' & Hg' & Ha). destruct Ha as (_ & Ha & _). rewrite (Ha Hse) in Hg'. by exists g.
  - destruct Hp as (g & Hg & Hsub). destruct (seg_fwd _ _ _ _ _ Hs Hg) as (g' & Hg' & Ha). exists g'. split; [done|].
    etrans; [done|]. apply Ha.
Qed.

Lemma token_step t t' x : vsteps t t' -> same_but_vols t t' -> token_ok t x -> token_ok t' x.
Proof.
  intros Hs Hr Hx. destruct x as [| | | | | |id ph|i id|i id es|i id|q id]; cbn in *; try done.
  - by eapply phase_step.
  - by eapply sealed_if_step.
  - destruct Hx as [Hse Hsn]. split; [by eapply sealed_if_step|]. intros g' Hg'. destruct Hse as (v & Hv & Hlt & Hse).
    destruct (seg_known _ _ _ _ _ _ Hs Hv Hlt Hg') as (g & Hg & Ha). destruct Hg as (v0 & Hv0 & Hg). simplify_eq.
    destruct Ha as (_ & Ha & _). rewrite (Ha (Hse _ Hg)). apply Hsn. by exists v.
  - destruct Hx as (v & Hv & Hlt). destruct (vsteps_fwd _ _ _ _ Hs Hv) as (v' & Hv' & Hk). exists v'.
    pose proof (vk_next _ _ _ Hk). split; [done|lia].
  - destruct Hr as (_ & -> & _). done.
Qed.

Lemma Home_vsteps l t t' :
  Home l t -> vsteps t t' -> same_but_vols t t' ->
  (forall i v, vols t' !! i = Some v ->
     volume_ok v /\ (length (Nvme.reqs v) <= 128)%nat /\ forall r, r ∈ Nvme.reqs v -> queued t' i r) ->
  Home l t'.
Proof.
  intros [K1 K2 K3 K0 K4 K5 K6 K7 K8 K9 K10 K11 K13 K12] Hs Hr Hq. pose proof Hr as (E1 & E2 & E3 & E4 & E5 & E6).
  pose proof (ents_same _ _ E1 E2) as Ee. split; rewrite ?Ee, ?E3, ?E4, ?E5, ?E6; try done.
  - by rewrite (vs_len _ _ Hs).
  - intros i id g e (v' & Hv' & Hg) He. destruct (vs_vol _ _ Hs _ _ Hv') as (v & Hv & Hk).
    destruct (vk_from _ _ _ Hk _ _ _ Hg He) as [(g0 & Hg0 & He0)|?]; [|done]. eapply K3; [by exists v|done].
  - intros k ns r Hk. destruct (K0 _ _ _ Hk) as (v & Hv & Hlt). destruct (vsteps_fwd _ _ _ _ Hs Hv) as (v' & Hv' & Hkv).
    exists v'. split; [done|]. pose proof (vk_next _ _ _ Hkv). lia.
  - intros k ns r Hk Ho. destruct (K4 _ _ _ Hk Ho) as (g & Hg & e & He & Hek).
    destruct (seg_fwd _ _ _ _ _ Hs Hg) as (g' & Hg' & Ha). exists g'. split; [done|]. exists e. split; [by apply Ha|done].
  - intros k ns r Hk J1 J2. destruct (K7 _ _ _ Hk J1 J2) as [(g & Hg & Hsp)|?]; [left|by right].
    destruct (seg_fwd _ _ _ _ _ Hs Hg) as (g' & Hg' & Ha). exists g'. split; [done|]. by rewrite (proj1 Ha).
  - intros k ns r g' Hk Ho Hg'. destruct (K0 _ _ _ Hk) as (v & Hv & Hlt).
    destruct (seg_known _ _ _ _ _ _ Hs Hv Hlt Hg') as (g & Hg & Ha). rewrite (proj1 Ha). by eapply K8.
  - intros k ns r g' Hk Hg' Hsp. destruct (K0 _ _ _ Hk) as (v & Hv & Hlt).
    destruct (seg_known _ _ _ _ _ _ Hs Hv Hlt Hg') as (g & Hg & Ha). rewrite (proj1 Ha) in Hsp. by eapply K9.
  - intros i id Hin. destruct (K11 _ _ Hin). split; [done|by eapply sealed_if_step].
  - intros x Hx. eapply token_step; [done..|by apply K12].
Qed.

(** ** Other tokens, same state *)

Definition marking (l : list token) (id : Z) : Prop := exists i todo cur, TLatch id (PMark i todo cur) ∈ l.

Lemma marking_app l k id : marking (l ++ k) id <-> marking l id \/ marking k id.
Proof. unfold marking. setoid_rewrite elem_of_app. naive_solver. Qed.

(** Every flagged local entry of [id] is in a spilled segment. *)
Definition settled (t : T) (id : Z) : Prop := forall k ns r, ents t !! k = Some (ns, r) -> S3 r = true -> S3Only r = false ->
  segOf r = id -> exists g, seg_at t (home k) id g /\ Nvme.s_spilled g = true.

Lemma Home_swap own own' l t :
  (own ≫= latched) ≡ₚ (own' ≫= latched) -> (forall id, marking own id -> marking own' id \/ settled t id) ->
  (forall x, x ∈ own' -> token_ok t x) -> Home (own ++ l) t -> Home (own' ++ l) t.
Proof.
  intros Hl Hm Ho [K1 K2 K3 K0 K4 K5 K6 K7 K8 K9 [K10 K10'] K11 K13 K12]. split; try done.
  - intros k ns r He Hs Hn. destruct (K7 k ns r He Hs Hn) as [?|Hk]; [by left|].
    change (marking (own ++ l) (segOf r)) in Hk. apply marking_app in Hk as [Hk|Hk].
    + destruct (Hm _ Hk) as [?|Hse]; [right; apply marking_app; by left|left]. by eapply Hse.
    + right. apply marking_app. by right.
  - eapply latches_perm; [|split; [exact K10|exact K10']]. rewrite !bind_app. by apply Permutation_app_tail.
  - intros x [Hx|Hx]%elem_of_app; [by apply Ho|]. apply K12, elem_of_app. by right.
Qed.

(** Tokens that weigh the same. *)
Definition weigh_same (own own' : list token) : Prop :=
  total wBlocks own = total wBlocks own' /\ total wBytes own = total wBytes own' /\
  (forall id, total (wSeg id) own = total (wSeg id) own') /\
  (forall ns tier, total (wCharge ns tier) own = total (wCharge ns tier) own') /\ total wSem own = total wSem own'.

Lemma Acc_swap own own' l t :
  weigh_same own own' -> (forall x, x ∈ own' -> gone_ok t x) -> Acc (own ++ l) t -> Acc (own' ++ l) t.
Proof.
  intros (W1 & W2 & W3 & W4 & W5) Hg [K1 K2 K3 K4 K5 K5' K6 K7 K8 K9 K10 K11 K12].
  setoid_rewrite total_app in K10. rewrite total_app in K8, K9, K11.
  split; rewrite ?total_app, <- ?W1, <- ?W2, <- ?W5; try done.
  - intros x [Hx|Hx]%elem_of_app; [exact (Hg _ Hx)|]. apply K5, elem_of_app. by right.
  - intros id. by rewrite total_app, <- W3.
  - destruct (Dram.quotas (d t)) as [q|]; [|done]. destruct K12 as [Hq Hu]. split; [done|].
    intros ns tier Ht. by rewrite (Hu _ _ Ht), !total_app, W4.
Qed.

Lemma Inv_swap own own' l t :
  weigh_same own own' -> (own ≫= latched) ≡ₚ (own' ≫= latched) -> (forall id, marking own id -> marking own' id \/ settled t id) ->
  (forall x, x ∈ own' -> gone_ok t x /\ token_ok t x) -> Inv (own ++ l) t -> Inv (own' ++ l) t.
Proof.
  intros Hw Hl Hm Ho [HA HH]. split.
  - eapply Acc_swap; [done| |done]. naive_solver.
  - eapply Home_swap; [done..| |done]. naive_solver.
Qed.

(** ** Steps that change nothing the invariant speaks about *)

Definition core (r : nvmeRef) := (Loc_ r, Len r, S3 r, S3Only r).

(** Entries may go, their fields may change outside [core]; records may come. *)
Record fewer (t t' : T) : Prop := mkFewer {
  fw_cont : forall k q, cont t' !! k = Some q -> cont t !! k = Some q;
  fw_refs : forall q r, refs t !! q = Some r -> exists r', refs t' !! q = Some r' /\ core r' = core r
}.

Lemma fewer_ents t t' : (forall k q, cont t !! k = Some q -> is_Some (refs t !! q)) -> fewer t t' ->
  forall k ns r', ents t' !! k = Some (ns, r') -> exists r, ents t !! k = Some (ns, r) /\ core r' = core r.
Proof.
  intros Hr [Hc Hf] k ns r' (-> & q & Hq & Hr')%ents_lookup. apply Hc in Hq as Hq'.
  destruct (Hr _ _ Hq') as [r Er]. destruct (Hf _ _ Er) as (r2 & Hr2 & Hc2). rewrite Hr' in Hr2. injection Hr2 as <-.
  exists r. split; [|done]. apply ents_lookup. split; [done|]. by exists q.
Qed.

Definition same_queue (t t' : T) : Prop := closures t' = closures t /\ nextClosure t' = nextClosure t.

(** What [Home] reads besides the index and its records. *)
Definition same_home (t t' : T) : Prop :=
  vols t' = vols t /\ objects t' = objects t /\ spillInflight t' = spillInflight t /\ uploads t' = uploads t /\
  downloads t' = downloads t /\ same_queue t t'.

Lemma core_eq r r' : core r' = core r -> segOf r' = segOf r /\ S3 r' = S3 r /\ S3Only r' = S3Only r /\ Len r' = Len r.
Proof. unfold core, segOf. intros [= -> -> -> ->]. done. Qed.

Lemma token_fewer t t' x :
  (forall k q, cont t !! k = Some q -> is_Some (refs t !! q)) -> fewer t t' -> same_home t t' -> token_ok t x -> token_ok t' x.
Proof.
  intros Hr Hf (E1 & E2 & _). pose proof (fewer_ents _ _ Hr Hf) as He. unfold token_ok, sealed_if, seg_at. rewrite E1.
  destruct x as [| | | | | |id ph|i id|i id es|i id|q id]; try done.
  - unfold phase_ok, sealed_if, seg_at. rewrite E1, E2. destruct ph as [|i todo cur|i fl todo|i es| |]; try done.
    + intros (Ho & Hse & HN & Hk & Hc). split_and!; try done.
      * intros k ns r (r0 & K1 & (E & -> & -> & _)%core_eq)%He. rewrite E. by eauto.
      * destruct cur as [[k q]|]; [|done]. intros q' r Hq Hrr. apply (fw_cont _ _ Hf) in Hq.
        destruct (Hr _ _ Hq) as [r0 Er]. destruct (fw_refs _ _ Hf _ _ Er) as (r1 & Hr1 & (Es & _)%core_eq). simplify_eq.
        rewrite Es. by eapply Hc.
    + intros (Hg & Hk). split; [done|]. intros k ns r (r0 & K1 & (E & _ & -> & _)%core_eq)%He. rewrite E. by eauto.
    + intros Hk k ns r (r0 & K1 & (E & _ & -> & _)%core_eq)%He. rewrite E. by eauto.
    + intros Hk k ns r (r0 & K1 & (E & -> & _)%core_eq)%He. rewrite E. by eauto.
  - intros (r & Hq & Hid). destruct (fw_refs _ _ Hf _ _ Hq) as (r' & Hr' & (Es & _)%core_eq). exists r'. split; [done|]. congruence.
Qed.

Lemma Home_fewer l t t' :
  Home l t -> (forall k q, cont t !! k = Some q -> is_Some (refs t !! q)) -> fewer t t' -> same_home t t' -> Home l t'.
Proof.
  intros [K1 K2 K3 K0 K4 K5 K6 K7 K8 K9 K10 K11 K13 K12] Hr Hf Hs. pose proof Hs as (E1 & E2 & E3 & E4 & E5 & E6 & E7).
  pose proof (fewer_ents _ _ Hr Hf) as He.
  split; unfold seg_at, sealed_if, queued; rewrite ?E1, ?E2, ?E3, ?E4, ?E5, ?E6, ?E7; try done.
  - intros k ns r (r0 & Hk & (-> & _)%core_eq)%He. by eauto.
  - intros k ns r (r0 & Hk & (-> & _ & -> & _)%core_eq)%He. by eauto.
  - intros k ns r (r0 & Hk & (_ & -> & -> & _)%core_eq)%He. by eauto.
  - intros k ns r (r0 & Hk & (-> & -> & _)%core_eq)%He. by eauto.
  - intros k ns r (r0 & Hk & (-> & -> & -> & _)%core_eq)%He. by eauto.
  - intros k ns r g (r0 & Hk & (-> & _ & -> & _)%core_eq)%He. by eauto.
  - intros k ns r g (r0 & Hk & (-> & -> & _)%core_eq)%He. by eauto.
  - intros x Hx. eapply token_fewer; [done..|by apply K12].
Qed.

(** What [Acc] reads besides the accountant. *)
Definition same_acc (t t' : T) : Prop :=
  idx t' = idx t /\ refs t' = refs t /\ nextPtr t' = nextPtr t /\ s3Blocks t' = s3Blocks t /\ s3Bytes t' = s3Bytes t /\
  segRefs t' = segRefs t /\ readSem t' = readSem t /\ replaced t' = replaced t.

Lemma Acc_same l t t' :
  same_acc t t' -> same_below (Dram.quotas (d t)) (Dram.quotas (d t')) -> Acc l t -> Acc l t'.
Proof.
  intros (E1 & E2 & E3 & E4 & E5 & E6 & E7 & E8) Hq [K1 K2 K3 K4 K5 K5' K6 K7 K8 K9 K10 K11 K12].
  pose proof (ents_same _ _ E1 E2) as Ee.
  split; unfold gone_ok, cont, esum, rsum; rewrite ?Ee, ?E1, ?E2, ?E3, ?E4, ?E5, ?E6, ?E7, ?E8; try done.
  destruct (Dram.quotas (d t)) as [q|], (Dram.quotas (d t')) as [q'|]; try done. destruct K12 as [Kq Ku].
  destruct (Hq Kq) as [Hq' Hu]. split; [done|]. intros ns tier Ht. rewrite Hu by done. by apply Ku.
Qed.

(** A volume that looks the same to the tiers. *)
Definition vsame (v v' : Nvme.Volume) : Prop :=
  sv v' = sv v /\ Nvme.nextID v' = Nvme.nextID v /\ Nvme.reqs v' = Nvme.reqs v /\ Nvme.active v' = Nvme.active v.

Lemma vsame_view v v' : vview v' = vview v -> vsame v v'.
Proof. unfold vview, vsame. intros [= -> -> -> _ ->]. done. Qed.

Lemma volume_ok_same v v' : vsame v v' -> volume_ok v -> volume_ok v'.
Proof. intros (E1 & E2 & _ & E4) [O1 O2 O3]. split; rewrite ?E1, ?E2, ?E4; done. Qed.

Lemma Inv_quiet l t t' :
  same_acc t t' -> same_but_vols t t' -> same_queue t t' ->
  same_below (Dram.quotas (d t)) (Dram.quotas (d t')) -> Forall2 vsame (vols t) (vols t') -> Inv l t -> Inv l t'.
Proof.
  intros Ha Hv Hu Hq HV [HA HH]. split; [by eapply Acc_same|]. eapply Home_vsteps; [done| |done|].
  - split; [by rewrite (Forall2_length _ _ _ HV)|]. intros i v' Hi.
    destruct (Forall2_lookup_r _ _ _ _ _ HV Hi) as (v & Hvi & E1 & E2 & _). exists v. split; [done|by apply vkeeps_view].
  - intros i v' Hi. destruct (Forall2_lookup_r _ _ _ _ _ HV Hi) as (v & Hvi & Hs).
    destruct (ho_vol _ _ HH _ _ Hvi) as (Ho & Hl & Hr). pose proof Hs as (_ & _ & E3 & _). rewrite E3. split_and!; [|done|].
    + by eapply volume_ok_same.
    + intros r Hin. unfold queued. destruct Hu as [-> ->]. by apply Hr.
Qed.

Lemma Inv_quiet_vols l t t' :
  same_acc t t' -> same_but_vols t t' -> same_queue t t' ->
  same_below (Dram.quotas (d t)) (Dram.quotas (d t')) -> vols t' = vols t -> Inv l t -> Inv l t'.
Proof.
  intros ???? E. apply Inv_quiet; try done. rewrite E. by apply Forall_Forall2_diag, Forall_forall.
Qed.

(** ** Changes of one record *)

Lemma ents_set_hit t k q r' :
  (forall k' q, cont t !! k = Some q -> cont t !! k' = Some q -> k = k') -> cont t !! k = Some q ->
  ents (set_refs (<[q := r']> (refs t)) t) = <[k := (NS k, r')]> (ents t).
Proof.
  intros Hi Hq. apply map_eq. intros k'. unfold ents. rewrite map_lookup_imap. unfold cont at 1. cbn. fold (cont t).
  destruct (decide (k = k')) as [<-|Hne].
  - rewrite Hq. cbn. by rewrite !lookup_insert_eq.
  - rewrite lookup_insert_ne by done. rewrite map_lookup_imap. destruct (cont t !! k') as [q'|] eqn:Ek; cbn; [|done].
    rewrite lookup_insert_ne; [done|]. intros <-. by apply Hne, (Hi k' q).
Qed.

Lemma ents_set_miss t q r' : (forall k, cont t !! k <> Some q) -> ents (set_refs (<[q := r']> (refs t)) t) = ents t.
Proof.
  intros Hq. apply map_eq. intros k'. unfold ents. rewrite !map_lookup_imap. unfold cont at 1. cbn. fold (cont t).
  destruct (cont t !! k') as [q'|] eqn:Ek; cbn; [|done]. rewrite lookup_insert_ne; [done|]. intros <-. by apply (Hq k').
Qed.

Lemma cont_elem t q : (exists k, cont t !! k = Some q) \/ forall k, cont t !! k <> Some q.
Proof.
  destruct (decide (q ∈ (map_to_list (cont t)).*2)) as [Hin|Hn].
  - apply list_elem_of_fmap in Hin as ([k q'] & -> & Hin%elem_of_map_to_list). left. by exists k.
  - right. intros k Hk. apply Hn, list_elem_of_fmap. exists (k, q). split; [done|]. by apply elem_of_map_to_list.
Qed.

Lemma esum_set f t k q r r' :
  (forall k' q, cont t !! k = Some q -> cont t !! k' = Some q -> k = k') -> cont t !! k = Some q -> refs t !! q = Some r ->
  esum f (set_refs (<[q := r']> (refs t)) t) = esum f t - f (NS k) r + f (NS k) r'.
Proof.
  intros Hi Hq Hr. unfold esum. rewrite (ents_set_hit _ k) by done.
  rewrite (msum_update _ _ _ (NS k, r)); [done|]. apply ents_lookup. split; [done|]. by exists q.
Qed.

Lemma esum_set_same f t q r r' :
  (forall k k' q, cont t !! k = Some q -> cont t !! k' = Some q -> k = k') -> refs t !! q = Some r ->
  (forall ns, f ns r' = f ns r) -> esum f (set_refs (<[q := r']> (refs t)) t) = esum f t.
Proof.
  intros Hi Hr Hf. destruct (cont_elem t q) as [[k Hk]|Hn].
  - rewrite (esum_set f t k q r r') by (done || (intros k'; apply Hi)). rewrite Hf. lia.
  - unfold esum. by rewrite ents_set_miss.
Qed.

Lemma frozen_w r r' : frozen r r' ->
  segOf r' = segOf r /\ Len r' = Len r /\ isOnly r' = isOnly r /\ onlyBytes r' = onlyBytes r /\
  (forall id, onlyIn id r' = onlyIn id r) /\ forall ns tier ns', charged ns tier ns' r' = charged ns tier ns' r.
Proof.
  intros (E1 & E2 & E3). unfold isOnly, onlyBytes, onlyIn, charged, tierOf, segOf. rewrite E1, E2, E3. done.
Qed.

Lemma Acc_setRef l t q r r' :
  Acc l t -> refs t !! q = Some r -> frozen r r' -> Acc l (set_refs (<[q := r']> (refs t)) t).
Proof.
  intros [K1 K2 K3 K4 K5 K5' K6 K7 K8 K9 K10 K11 K12] Hr Hf.
  pose proof (frozen_w _ _ Hf) as (W1 & W2 & W3 & W4 & W5 & W6).
  assert (forall f, (forall ns, f ns r' = f ns r) -> esum f (set_refs (<[q := r']> (refs t)) t) = esum f t) as He
    by (intros f; by apply esum_set_same).
  split; cbn; unfold rsum; cbn; try done.
  - intros k q' Hk. destruct (K2 k q' Hk) as [r0 E0]. destruct (decide (q = q')) as [<-|Hne].
    + rewrite lookup_insert_eq. done.
    + rewrite lookup_insert_ne by done. done.
  - intros q' r0 [[<- <-]|[_ H']]%lookup_insert_Some; [|by apply K3]. rewrite W2. by eapply K3.
  - intros x Hin. specialize (K5 _ Hin). destruct x as [ns q' r0| | | | | | | | | |]; try done.
    destruct K5 as [(r1 & Hr1 & Hf1) Hn]. split; [|done]. cbn.
    destruct (decide (q = q')) as [<-|Hne]; [|rewrite lookup_insert_ne by done; by exists r1].
    rewrite lookup_insert_eq. exists r'. split; [done|]. simplify_eq. destruct Hf1 as (F1 & F2 & F3), Hf as (F4 & F5 & F6).
    split_and!; congruence.
  - by rewrite He.
  - by rewrite He.
  - by rewrite He.
  - by rewrite He.
  - intros id. rewrite He; [apply K10|]. done.
  - destruct (Dram.quotas (d t)) as [qq|]; [|done]. destruct K12 as [Kq Ku]. split; [done|]. intros ns tier Ht.
    rewrite He; [by apply Ku|]. done.
Qed.

Lemma Inv_touchRecord l t q r r' :
  Inv l t -> refs t !! q = Some r -> core r' = core r -> Inv l (set_refs (<[q := r']> (refs t)) t).
Proof.
  intros [HA HH] Hr Hc. split.
  - eapply Acc_setRef; [done..|]. unfold core in Hc. injection Hc as E1 E2 _ E3. done.
  - eapply Home_fewer; [done|apply HA| |done]. split; [done|]. cbn. intros q' r0 Hq.
    destruct (decide (q = q')) as [<-|Hne].
    + rewrite lookup_insert_eq. exists r'. split; [done|]. congruence.
    + rewrite lookup_insert_ne by done. by exists r0.
Qed.

End Inv.

#[global] Arguments esum {A P} f t : simpl never.
#[global] Arguments rsum {A P} f t : simpl never.
End TieredInv.
