(* ===== verification/TieredActs.v ===== *)
(** What single actions of the tiers do to the invariant.

    Most keep it whatever the running handler owns ([calm]): calls of the DRAM
    tier, reads of a volume, counters, channels, lease and pin updates. The
    others move tokens. *)

From Stdlib Require Import ZArith Lia.
From coqutil Require Import Byte.
From stdpp Require Import base numbers list gmap sets.
From S2P Require Import Prelude.
From S2P Require Import Conc.
From S2P Require Import Wire.
From S2P Require Import Tenant.
From S2P Require Import Eviction.
From S2P Require Import BlockRef.
From S2P Require Import Index.
From S2P Require Import DramStore.
From S2P Require Import NvmeFormat.
From S2P Require Import NvmeVolume.
From S2P Require Import NvmeSpill.
From S2P Require Import NvmeIndex.
From S2P Require Import Tiered.
From S2P Require Import TieredVol.
From S2P Require Import TieredDram.
From S2P Require Import TieredInv.
Import Conc Ops Eviction Seg NvmeIndex Tiered TieredVol TieredDram TieredInv.
Open Scope Z_scope.
Open Scope go_scope.
Open Scope conc_scope.

Module TieredActs.

Create HintDb calm.

Section Acts.
Context {A P : Type} `{!Dram.ExtentAlloc A} `{!Policy P} `{!Index.IndexEnv} `{!Xxh3} `{!Outside}.
Context (time : nat -> Z) (vp : nat -> Nvme.VolumeParams) (p : Params) (N : nat).

Abbreviation T := (Tiered A P).
Abbreviation act := (act T).
Abbreviation prog := (prog T).
Abbreviation Inv := (Inv N (Spill p)).

(** The runs that are followed: no volume has opened 2^31 segments, and no
    tenant has 2^62 bytes below DRAM. *)
Definition small (u : Quotas.nsUsage) : Prop :=
  Quotas.at_ (Quotas.used u) Registry.TierNVMe < 2 ^ 62 /\ Quotas.at_ (Quotas.used u) Registry.TierS3 < 2 ^ 62.

Definition legal (t : T) : bool :=
  forallb (fun v => Nvme.nextID v <? 2 ^ 31) (vols t) &&
  match Dram.quotas (d t) with
  | Some q => bool_decide (map_Forall (fun _ u => small u) (Quotas.by_ q))
  | None => true
  end.

Abbreviation safe := (safe legal Inv).

(** ** Actions that keep the invariant *)

Definition calm {B} (m : act B) : Prop := forall l t b t', Inv l t -> m t = Next b t' -> Inv l t'.

Lemma next_bind {B C} (m : act B) (f : B -> act C) t c t' :
  (m ≫= f) t = Next c t' -> exists b t1, m t = Next b t1 /\ f b t1 = Next c t'.
Proof. unfold mbind, act_bind. destruct (m t) as [b t1| | |]; try done. by exists b, t1. Qed.

Lemma calm_ret {B} (b : B) : calm (mret b).
Proof. intros l t b' t' Hi [= _ <-]. done. Qed.

Lemma calm_bind {B C} (m : act B) (f : B -> act C) : calm m -> (forall b, calm (f b)) -> calm (m ≫= f).
Proof. intros Hm Hf l t c t' Hi (b & t1 & E1 & E2)%next_bind. eapply Hf; [|done]. by eapply Hm. Qed.

Lemma calm_fmap {B C} (f : B -> C) (m : act B) : calm m -> calm (f <$> m).
Proof.
  intros Hm l t c t' Hi E. unfold fmap, act_fmap in E. destruct (m t) as [b t1| | |] eqn:Em; try done.
  injection E as _ <-. by eapply Hm.
Qed.

Lemma calm_get {B} (f : T -> B) : calm (get f).
Proof. intros l t b t' Hi [= _ <-]. done. Qed.

(** Fields nothing is said about. *)
Definition quiet (t t' : T) : Prop :=
  same_acc t t' /\ same_but_vols t t' /\ same_queue t t' /\ d t' = d t /\ vols t' = vols t.

Lemma quiet_inv l t t' : quiet t t' -> Inv l t -> Inv l t'.
Proof. intros (Q1 & Q2 & Q3 & Q4 & Q5) Hi. eapply (Inv_quiet_vols _ _ _ t); try done. rewrite Q4. apply same_below_refl. Qed.

Lemma calm_quiet {B} (m : act B) : (forall t b t', m t = Next b t' -> quiet t t') -> calm m.
Proof. intros Hm l t b t' Hi E. eapply quiet_inv; [|done]. by eapply Hm. Qed.

Lemma calm_dram {B} (m : sm (Dram.Store A P) B) : frames m -> calm (dram m).
Proof.
  intros Hm l t b t' Hi E. unfold dram in E. destruct (m (d t)) as [[b' s]|] eqn:Em; [|done]. injection E as _ <-.
  eapply (Inv_quiet_vols _ _ _ t); try done. by eapply Hm.
Qed.

Lemma Inv_vol_same l (t : T) i v v' :
  Inv l t -> vols t !! i = Some v -> vsame v v' -> Inv l (set_vols (<[i := v']> (vols t)) t).
Proof.
  intros Hi Ev Hs. eapply (Inv_quiet _ _ _ t); try done; [apply same_below_refl|]. cbn.
  rewrite <- (list_insert_id _ _ _ Ev) at 1. apply Forall2_insert; [by apply Forall_Forall2_diag, Forall_forall|done].
Qed.

Lemma calm_vol {B} i (m : Nvme.M B) : (forall v b v', m v = Nvme.Ret b v' -> vsame v v') -> calm (vol i m).
Proof.
  intros Hm l t b t' Hi E. unfold vol in E. destruct (vols t !! i) as [v|] eqn:Ev; [|done].
  destruct (m v) as [b' v'| |] eqn:Em; try done. injection E as _ <-. eapply Inv_vol_same; [done..|]. by eapply Hm.
Qed.

Lemma calm_still {B} i (m : Nvme.M B) : still m -> calm (vol i m).
Proof. intros Hm. apply calm_vol. intros v b v' E. apply vsame_view. by eapply Hm. Qed.

Lemma calm_now : calm (now time).
Proof. apply calm_dram, fr_now. Qed.
Lemma calm_bump c : calm (bump c).
Proof. apply calm_quiet. by intros t b t' [= _ <-]. Qed.
Lemma calm_ask {B} (f : nat -> B) : calm (ask f).
Proof. apply calm_quiet. by intros t b t' [= _ <-]. Qed.
Lemma calm_readmit k s t : calm (readmit k s t).
Proof. apply calm_dram, fr_polAdmit. Qed.
Lemma calm_kick : calm kickDemoter.
Proof. apply calm_quiet. by intros t b t' [= _ <-]. Qed.
Lemma calm_iget k : calm (iget k).
Proof. apply calm_get. Qed.
Lemma calm_deref q : calm (deref q).
Proof. apply calm_quiet. intros t b t'. unfold deref. destruct (refs t !! q); [by intros [= _ <-]|done]. Qed.
Lemma calm_nominate id : calm (nominate id).
Proof. apply calm_quiet. by intros t b t' [= _ <-]. Qed.
Lemma calm_unnominate id : calm (unnominate id).
Proof. apply calm_quiet. by intros t b t' [= _ <-]. Qed.
Lemma calm_sendDrop id : calm (sendDrop id).
Proof. apply calm_quiet. unfold sendDrop. intros t b t'. case_if; by intros [= _ <-]. Qed.
Lemma calm_sendPromote r : calm (sendPromote r).
Proof. apply calm_quiet. unfold sendPromote. intros t b t'. case_if; by intros [= _ <-]. Qed.
Lemma calm_sendRestore r : calm (sendRestore r).
Proof. apply calm_quiet. unfold sendRestore. intros t b t'. case_if; by intros [= _ <-]. Qed.
Lemma calm_recvDrop : calm recvDrop.
Proof. apply calm_quiet. unfold recvDrop. intros t b t'. destruct (dropq t); by intros [= _ <-]. Qed.
Lemma calm_recvPromote : calm recvPromote.
Proof. apply calm_quiet. unfold recvPromote. intros t b t'. destruct (promote t); by intros [= _ <-]. Qed.
Lemma calm_recvRestore : calm recvRestore.
Proof. apply calm_quiet. unfold recvRestore. intros t b t'. destruct (restoreq t); by intros [= _ <-]. Qed.
Lemma calm_volumeFor key : calm (volumeFor key).
Proof.
  apply calm_quiet. unfold volumeFor. intros t b t'. destruct (le_get 8 key), (vols t); try done. by intros [= _ <-].
Qed.
Lemma calm_s3SegLive id : calm (s3SegLive id).
Proof. apply calm_get. Qed.

(** ** Handlers made of such actions *)

Definition keeps (t t' : T) : Prop := forall l, Inv l t -> Inv l t'.

Lemma safe_calm {B} own (q : prog B) : every keeps q -> safe own (fun _ o => o = own) q.
Proof.
  induction q as [b|C m k IH]; intros He; cbn in *; [done|]. destruct He as [Hm Hk].
  intros rest t c t' Hl Hi E. exists own. split; [by apply (Hm _ _ _ E)|]. by apply IH.
Qed.

Lemma every_calm {B C} (m : act B) (k : B -> prog C) : calm m -> (forall b, every keeps (k b)) -> every keeps (Atom B m k).
Proof. intros Hm Hk. split; [|done]. intros t b t' E l Hi. by eapply Hm. Qed.

End Acts.

#[export] Hint Resolve calm_ret calm_bind calm_fmap calm_get calm_now calm_bump calm_ask calm_readmit calm_kick calm_iget
  calm_deref calm_nominate calm_unnominate calm_sendDrop calm_sendPromote calm_sendRestore calm_recvDrop
  calm_recvPromote calm_recvRestore calm_volumeFor calm_s3SegLive : calm.

(** [calm m], by the structure of [m]. *)
Ltac calm_step :=
  match goal with
  | |- calm _ _ (_ ≫= _) => apply calm_bind; [|intros ?]
  | |- calm _ _ (dram _) => apply calm_dram; solve [eauto with frames]
  | |- calm _ _ (if ?b then _ else _) => destruct b
  | |- calm _ _ (match ?x with _ => _ end) => destruct x
  | |- calm _ _ (let _ := _ in _) => cbv zeta
  | |- calm _ _ _ => solve [eauto with calm]
  | |- calm _ _ (put _) => apply calm_quiet; by intros ??? [= _ <-]
  end.

(** [every keeps q], by the structure of [q]. *)
Ltac keeps_step :=
  match goal with
  | |- every _ (Atom _ _ _) => apply every_calm; [repeat calm_step|intros ?]
  | |- every _ (_ ≫= _) => apply every_bind; [|intros ?]
  | |- every _ (mret _) => exact I
  | |- every _ (Done _) => exact I
  | |- every _ (if ?b then _ else _) => destruct b
  | |- every _ (match ?x with _ => _ end) => destruct x
  | |- every _ (let _ := _ in _) => cbv zeta
  | |- every _ _ => solve [eauto with calm]
  end.

Section Handlers.
Context {A P : Type} `{!Dram.ExtentAlloc A} `{!Policy P} `{!Index.IndexEnv} `{!Xxh3} `{!Outside}.
Context (time : nat -> Z) (vp : nat -> Nvme.VolumeParams) (p : Params) (N : nat).

Abbreviation T := (Tiered A P).
Abbreviation act := (act T).
Abbreviation prog := (prog T).
Abbreviation calm := (calm (A := A) (P := P) p N).
Abbreviation keeps := (keeps (A := A) (P := P) p N).

Lemma deref_next q (t : T) r t' : deref q t = Next r t' -> t' = t /\ refs t !! q = Some r.
Proof. unfold deref. destruct (refs t !! q); [by intros [= <- <-]|done]. Qed.

(** Rewriting a record outside its core. *)
Lemma calm_update {B} e (f : nvmeRef -> nvmeRef) (k : nvmeRef -> act B) :
  (forall r, core (f r) = core r) -> (forall r, calm (k r)) -> calm (r ← deref e; setRef e (f r);; k r).
Proof.
  intros Hf Hk l t b t' Hi (r & t1 & [-> Hr]%deref_next & E)%next_bind. eapply Hk; [|exact E].
  cbn. by eapply Inv_touchRecord.
Qed.

Lemma core_lease r u : core (extendNvmeLease r u) = core r.
Proof. unfold extendNvmeLease. by case_if. Qed.

Lemma calm_noteHit k e t : calm (noteHit p k e t).
Proof.
  unfold noteHit, withShardLock. apply calm_bind; [apply calm_iget|]. intros o. case_bool_decide; [|apply calm_ret].
  apply (calm_update e (fun r => set_LastAccess t (extendNvmeLease r (i64 (t + clampLeaseMS p 0 * Lifecycle.Millisecond))))
    (fun r => mret (Some (LastAccess r)))); [|by intros; apply calm_ret].
  intros r. unfold core. cbn. apply core_lease.
Qed.

Lemma calm_touchNvme sub ttl t o : calm (touchNvme p sub ttl t o).
Proof.
  destruct o as [e|]; [|apply calm_ret]. intros l s b s' Hi (r & t1 & [-> Hr]%deref_next & E)%next_bind.
  assert (forall r' u, core r' = core r -> (setRef e r';; mret u) s = Next b s' -> Inv N (Spill p) l s') as Hset.
  { intros r' u Hc [= _ <-]. by eapply Inv_touchRecord. }
  repeat case_match; try (injection E as _ <-; done); (eapply Hset; [|exact E]); try done. apply core_lease.
Qed.

Lemma calm_pinNvme sub o : calm (pinNvme sub o).
Proof.
  destruct o as [e|]; [|apply calm_ret].
  apply (calm_update e (fun r => set_PinFlags (if sub =? PinSoft then nvPinSoftBit else 0) r) (fun _ => mret StatusOK)).
  - done.
  - intros. apply calm_ret.
Qed.

Lemma calm_volRead ctx i loc ns key want : calm (volRead vp ctx i loc ns key want).
Proof. unfold volRead. repeat calm_step. apply calm_still, still_Read. Qed.

Lemma calm_release i id : calm (vol i (Nvme.releaseRead id)).
Proof. apply calm_still, still_releaseRead. Qed.

End Handlers.

#[export] Hint Resolve calm_noteHit calm_touchNvme calm_pinNvme calm_volRead calm_release : calm.
End TieredActs.
