(* ===== verification/TieredMoves.v ===== *)
(** Actions of the tiers that move tokens: removals and refunds, the read
    semaphore, the latches. *)

From Stdlib Require Import ZArith Lia.
From coqutil Require Import Byte.
From stdpp Require Import base numbers list gmap sets.
From S2P Require Import Prelude.
From S2P Require Import Conc.
From S2P Require Import Wire.
From S2P Require Import Tenant.
From S2P Require Import Eviction.
From S2P Require Import BlockRef.
From S2P Require Import Index.
From S2P Require Import DramStore.
From S2P Require Import NvmeFormat.
From S2P Require Import NvmeVolume.
From S2P Require Import NvmeSpill.
From S2P Require Import NvmeIndex.
From S2P Require Import Tiered.
From S2P Require Import TieredVol.
From S2P Require Import TieredDram.
From S2P Require Import TieredInv.
From S2P Require Import TieredActs.
Import Conc Ops Eviction Seg NvmeIndex Tiered TieredVol TieredDram TieredInv TieredActs.
Open Scope Z_scope.
Open Scope go_scope.
Open Scope conc_scope.

Module TieredMoves.

Section Moves.
Context {A P : Type} `{!Dram.ExtentAlloc A} `{!Policy P} `{!Index.IndexEnv} `{!Xxh3} `{!Outside}.
Context (p : Params) (N : nat).

Abbreviation T := (Tiered A P).
Abbreviation act := (act T).
Abbreviation prog := (prog T).
Abbreviation Inv := (Inv (A := A) (P := P) N (Spill p)).
Abbreviation Home := (Home (A := A) (P := P) N (Spill p)).
Abbreviation calm := (calm (A := A) (P := P) p N).
Abbreviation keeps := (keeps (A := A) (P := P) p N).
Abbreviation safe := (safe (legal (A := A) (P := P)) Inv).

(** ** Nothing weighs less than zero *)

Lemma ents_pos l (t : T) k ns r : Acc l t -> ents t !! k = Some (ns, r) -> 0 < Len r.
Proof. intros HA (_ & q & _ & Hr)%ents_lookup. by eapply ac_rec. Qed.

Lemma esum_pos l (t : T) f : Acc l t -> (forall ns r, 0 < Len r -> 0 <= f ns r) -> 0 <= esum f t.
Proof. intros HA Hf. apply msum_nonneg. intros k [ns r] Hk. apply Hf. by eapply ents_pos. Qed.

Lemma rsum_pos l (t : T) f : Acc l t -> (forall ns r, 0 < Len r -> 0 <= f ns r) -> 0 <= rsum f t.
Proof. intros HA Hf. apply total_pos. intros [k r] Hk. apply Hf. by eapply ac_repl. Qed.

Lemma charged_pos ns tier ns' r : 0 < Len r -> 0 <= charged ns tier ns' r.
Proof. unfold charged. case_if; lia. Qed.

Lemma onlyIn_pos id r : 0 <= onlyIn id r.
Proof. unfold onlyIn. case_if; lia. Qed.

Lemma wCharge_pos l (t : T) ns tier x : Acc l t -> x ∈ l -> 0 <= wCharge ns tier x.
Proof.
  intros HA Hx. pose proof (ac_gone _ _ HA _ Hx) as Hg. destruct x; cbn in *; try done; [|case_if; lia].
  destruct Hg as ((r' & Hr' & Hf) & _). apply charged_pos. pose proof (ac_rec _ _ HA _ _ Hr') as [_ ?].
  by destruct Hf as (_ & <- & _).
Qed.

Lemma segs_pos l id : 0 <= total (wSeg id) l.
Proof. apply total_pos. intros [ns ref r| | | | | | | | | |] _; cbn; try done; [apply onlyIn_pos|case_if; lia]. Qed.

(** ** Removing an entry *)

Lemma frozen_refl r : frozen r r.
Proof. done. Qed.

Lemma Inv_remove l t k q r :
  Inv l t -> cont t !! k = Some q -> refs t !! q = Some r ->
  Inv (TGone (NS k) q r :: l) (set_idx (@Index.removeKey nvShards (idx t) k (Len r)) t).
Proof.
  intros [HA HH] Hk Hr. destruct HA as [K1 K2 K3 K4 K5 K5' K6 K7 K8 K9 K10 K11 K12].
  destruct (Index.removeKey_spec (idx t) k (Len r) K1) as [Hok Hc].
  set (t' := set_idx _ t).
  assert (cont t' = delete k (cont t)) as Ec by exact Hc.
  assert (ents t' = delete k (ents t)) as Ee.
  { apply map_eq. intros k'. unfold ents. rewrite map_lookup_imap, Ec. destruct (decide (k = k')) as [<-|Hne].
    - by rewrite !lookup_delete_eq.
    - by rewrite !lookup_delete_ne, map_lookup_imap by done. }
  assert (forall f, esum f t = f (NS k) r + esum f t') as Es.
  { intros f. unfold esum. rewrite Ee. apply (msum_delete (fun e : Z * nvmeRef => f e.1 e.2) _ k (NS k, r)).
    apply ents_lookup. split; [done|]. by exists q. }
  assert (forall k' q', cont t' !! k' = Some q' -> cont t !! k' = Some q') as Hsub.
  { intros k' q'. rewrite Ec. by intros [_ ?]%lookup_delete_Some. }
  split.
  - split; cbn [total wBlocks wBytes wSeg wCharge wSem].
    + exact Hok.
    + intros k' q' Hk'. exact (K2 _ _ (Hsub _ _ Hk')).
    + exact K3.
    + intros k1 k2 q' H1' H2'. eapply K4; by apply Hsub.
    + intros x [->|Hx]%elem_of_cons.
      * split; [by exists r|]. intros k'. rewrite Ec. intros [Hne Hk']%lookup_delete_Some. apply Hne. by eapply K4.
      * specialize (K5 _ Hx). destruct x; try done. destruct K5 as [K5 Kn]. split; [done|]. intros k' Hk'.
        by apply Hsub, Kn in Hk'.
    + exact K5'.
    + specialize (Es (fun _ _ => 1)). cbn in *. lia.
    + specialize (Es (fun _ => Len)). cbn in *. lia.
    + specialize (Es (fun _ => isOnly)). unfold rsum in *. cbn in *. lia.
    + specialize (Es (fun _ => onlyBytes)). unfold rsum in *. cbn in *. lia.
    + intros id. specialize (Es (fun _ => onlyIn id)). specialize (K10 id). unfold rsum in *. cbn in *. lia.
    + exact K11.
    + cbn. destruct (Dram.quotas (d t)) as [qq|]; [|done]. destruct K12 as [Kq Ku]. split; [done|]. intros ns tier Ht.
      specialize (Ku ns tier Ht). specialize (Es (charged ns tier)). unfold rsum in *. cbn in *. lia.
  - apply (Home_swap _ _ [] [TGone (NS k) q r] l); try done.
    + intros id (i & todo & cur & Hin). by apply not_elem_of_nil in Hin.
    + intros x ->%list_elem_of_singleton. done.
    + eapply Home_fewer; [exact HH|exact K2| |done]. split; [exact Hsub|]. intros q' r' Hq. by exists r'.
Qed.

(** ** Refunds *)

Lemma Home_weight x l t : latched x = [] -> Home (x :: l) t -> Home l t.
Proof.
  intros Hx. apply (Home_swap _ _ [x] [] l); cbn; [by rewrite Hx| |].
  - intros id (i & todo & cur & Hin%list_elem_of_singleton). by subst x.
  - intros y Hy. by apply not_elem_of_nil in Hy.
Qed.

(** Fields the homes do not depend on. *)
Lemma Home_same l t t' : idx t' = idx t -> refs t' = refs t -> same_home t t' -> Home l t -> Home l t'.
Proof.
  intros E1 E2 Hs HH. destruct Hs as (S1 & S2 & S3 & S4 & S5 & S6).
  eapply Home_vsteps; [exact HH| |done|].
  - split; [by rewrite S1|]. intros i v. rewrite S1. intros Hv. exists v. split; [done|]. by apply vkeeps_view.
  - rewrite S1. unfold queued. destruct S6 as [-> ->]. apply HH.
Qed.

Lemma Inv_s3Blocks l t : Inv (TBlock :: l) t -> Inv l (set_s3Blocks (s3Blocks t - 1) t).
Proof.
  intros [HA HH]. split.
  - destruct HA as [K1 K2 K3 K4 K5 K5' K6 K7 K8 K9 K10 K11 K12]. split; try done; try (intros; by apply K5; right).
    cbn in *. unfold rsum in *. cbn in *. fold (esum (fun _ => isOnly) t). change (esum (fun _ => isOnly) (set_s3Blocks (s3Blocks t - 1) t)) with (esum (fun _ => isOnly) t). lia.
  - apply (Home_same _ t); try done. by apply (Home_weight TBlock).
Qed.

Lemma Inv_s3Bytes n l t : Inv (TBytes n :: l) t -> Inv l (set_s3Bytes (s3Bytes t - n) t).
Proof.
  intros [HA HH]. split.
  - destruct HA as [K1 K2 K3 K4 K5 K5' K6 K7 K8 K9 K10 K11 K12]. split; try done; try (intros; by apply K5; right).
    cbn in *. unfold rsum in *. cbn in *. change (esum (fun _ => onlyBytes) (set_s3Bytes (s3Bytes t - n) t)) with (esum (fun _ => onlyBytes) t). lia.
  - apply (Home_same _ t); try done. by apply (Home_weight (TBytes n)).
Qed.

Lemma segRefs_set (t : T) id n m :
  0 <= n -> default 0 ((if n <=? 0 then delete id (segRefs t) else <[id := n]> (segRefs t)) !! m) =
  if decide (id = m) then n else default 0 (segRefs t !! m).
Proof.
  intros Hn. destruct (n <=? 0) eqn:E; (destruct (decide (id = m)) as [<-|Hne];
    [rewrite ?lookup_delete_eq, ?lookup_insert_eq|rewrite ?lookup_delete_ne, ?lookup_insert_ne by done]); cbn; try done. lia.
Qed.

Lemma Inv_segDrop id l t b t' : Inv (TSeg id :: l) t -> s3SegAdd id (-1) t = Next b t' -> Inv l t'.
Proof.
  intros [HA HH] [= _ <-]. pose proof (ac_segRefs _ _ HA) as Hs.
  assert (0 <= default 0 (segRefs t !! id) + -1) as Hn.
  { rewrite Hs. cbn [total wSeg]. rewrite Z.eqb_refl. pose proof (segs_pos l id).
    pose proof (esum_pos _ t (fun _ => onlyIn id) HA ltac:(intros; apply onlyIn_pos)).
    pose proof (rsum_pos _ t (fun _ => onlyIn id) HA ltac:(intros; apply onlyIn_pos)). lia. }
  split.
  - destruct HA as [K1 K2 K3 K4 K5 K5' K6 K7 K8 K9 K10 K11 K12]. split; try done; try (intros; by apply K5; right).
    intros m. cbn [segRefs set_segRefs]. rewrite segRefs_set by done. specialize (Hs m). cbn [total wSeg] in Hs.
    change (esum (fun _ => onlyIn m) (set_segRefs _ t)) with (esum (fun _ => onlyIn m) t).
    change (rsum (fun _ => onlyIn m) (set_segRefs _ t)) with (rsum (fun _ => onlyIn m) t).
    destruct (decide (id = m)) as [<-|Hne]; [rewrite Z.eqb_refl in Hs; lia|].
    replace (id =? m) with false in Hs by lia. lia.
  - apply (Home_same _ t); try done. by apply (Home_weight (TSeg id)).
Qed.

Definition low (tier : Z) : Prop := tier = Registry.TierNVMe \/ tier = Registry.TierS3.

Lemma low_ok tier : low tier -> Registry.badTier tier = false.
Proof. by intros [-> | ->]. Qed.

Lemma legal_small (t : T) q ns tier :
  legal t = true -> Dram.quotas (d t) = Some q -> low tier -> Usage q ns tier < 2 ^ 62.
Proof.
  unfold legal. intros [_ Hq]%andb_true_iff E Ht. rewrite E in Hq. apply bool_decide_eq_true in Hq.
  unfold Usage, Quotas.peek. rewrite low_ok by done. destruct (Quotas.by_ q !! ns) as [u|] eqn:Eu; [|done].
  destruct (Hq _ _ Eu) as [K1 K2]. by destruct Ht as [-> | ->].
Qed.

Lemma legal_next (t : T) i v : legal t = true -> vols t !! i = Some v -> Nvme.nextID v < 2 ^ 31.
Proof.
  unfold legal. intros [Hv _]%andb_true_iff Hi. rewrite forallb_forall in Hv.
  apply Z.ltb_lt, Hv. apply list_elem_of_In. by eapply list_elem_of_lookup_2.
Qed.

(** The accountant of a state, changed. *)
Definition with_quotas (q : option Quotas.Quotas) (t : T) : T := set_d (Dram.set_quotas q (d t)) t.

Lemma quotas_next f (t : T) b t' :
  quotas f t = Next b t' ->
  (Dram.quotas (d t) = None /\ t' = t) \/ exists q, Dram.quotas (d t) = Some q /\ t' = with_quotas (Some (f q)) t.
Proof. intros [= _ <-]. destruct (Dram.quotas (d t)) as [q|]; [right; by exists q|by left]. Qed.

Lemma Acc_quotas l l' t q q' :
  Acc l t -> Dram.quotas (d t) = Some q -> quotas_ok q' ->
  total wBlocks l' = total wBlocks l -> total wBytes l' = total wBytes l -> (forall id, total (wSeg id) l' = total (wSeg id) l) ->
  total wSem l' = total wSem l -> (forall x, x ∈ l' -> gone_ok t x) ->
  (forall ns tier, low tier -> Usage q' ns tier = Usage q ns tier + total (wCharge ns tier) l' - total (wCharge ns tier) l) ->
  Acc l' (with_quotas (Some q') t).
Proof.
  intros [K1 K2 K3 K4 K5 K5' K6 K7 K8 K9 K10 K11 K12] E Hq W1 W2 W3 W4 Hg Hu. rewrite E in K12. destruct K12 as [_ K12].
  split; try done; rewrite ?W1, ?W2, ?W4; try done; [by intros id; rewrite W3|].
  cbn. split; [done|]. intros ns tier Ht. rewrite (Hu _ _ Ht).
  enough (Usage q ns tier - total (wCharge ns tier) l = esum (charged ns tier) t + rsum (charged ns tier) t) as Hx.
  { change (esum (charged ns tier) _) with (esum (charged ns tier) t).
    change (rsum (charged ns tier) _) with (rsum (charged ns tier) t). lia. }
  rewrite (K12 _ _ Ht). lia.
Qed.

Lemma Inv_refund ns tier n l t b t' :
  legal t = true -> low tier -> Inv (TCharge ns tier n :: l) t ->
  quotas (fun q => Quotas.Refund q ns tier n) t = Next b t' -> Inv l t'.
Proof.
  intros Hl Ht [HA HH] E. pose proof (Home_weight (TCharge ns tier n) l t eq_refl HH) as HH'.
  pose proof (ac_gone _ _ HA (TCharge ns tier n) ltac:(left)) as Hn. cbn in Hn.
  apply quotas_next in E as [[E ->]|(q & E & ->)].
  { split; [|done]. destruct HA as [K1 K2 K3 K4 K5 K5' K6 K7 K8 K9 K10 K11 K12]. rewrite E in K12.
    split; try done; try (intros; by apply K5; right). by rewrite E. }
  split; [|by apply (Home_same _ t)].
  pose proof (ac_quota _ _ HA) as Hq. rewrite E in Hq. destruct Hq as [Hq Hu].
  pose proof (legal_small _ _ ns tier Hl E Ht) as Hs. pose proof (Hu ns tier Ht) as Hu1. cbn [total wCharge] in Hu1.
  rewrite !Z.eqb_refl in Hu1. cbn [andb] in Hu1.
  assert (n <= Usage q ns tier) as Hle.
  { pose proof (esum_pos _ t (charged ns tier) HA ltac:(intros; by apply charged_pos)).
    pose proof (rsum_pos _ t (charged ns tier) HA ltac:(intros; by apply charged_pos)).
    assert (0 <= total (wCharge ns tier) l); [|lia]. apply total_pos. intros x Hx. eapply wCharge_pos; [exact HA|by right]. }
  destruct (QuotaFacts.Refund_set q ns tier n Hq (low_ok _ Ht) Hn) as (Hq' & _ & Hr); [lia|].
  eapply Acc_quotas; [exact HA|exact E|exact Hq'|done..| |].
  - intros x Hx. eapply ac_gone; [exact HA|by right].
  - intros ns' tier' Ht'. rewrite Hr by (by apply low_ok). cbn [total wCharge].
    destruct (decide (ns' = ns /\ tier' = tier)) as [[-> ->]|Hne].
    + rewrite !Z.eqb_refl. cbn [andb]. lia.
    + replace ((ns =? ns') && (tier =? tier')) with false; [lia|]. symmetry. apply andb_false_iff.
      destruct (Z.eqb_spec ns ns') as [->|]; [|by left]. right. apply Z.eqb_neq. intros ->. by apply Hne.
Qed.

Lemma Transfer_low q ns from to n :
  quotas_ok q -> low to -> Registry.badTier from = false -> from <> to -> 0 < n -> 0 <= Usage q ns to -> Usage q ns to + n < 2 ^ 63 ->
  (low from -> n <= Usage q ns from < 2 ^ 63) -> (low from \/ from = Registry.TierDRAM) ->
  quotas_ok (Quotas.Transfer q ns from to n) /\ forall ns' tier, low tier ->
    Usage (Quotas.Transfer q ns from to n) ns' tier =
    Usage q ns' tier + (if (ns' =? ns) && (tier =? to) then n else 0) - (if (ns' =? ns) && (tier =? from) then n else 0).
Proof.
  intros Hq Ht Hf Hne Hn Hu Hn' Hlow Hfrom. pose proof (low_ok _ Ht) as Hto.
  assert (Quotas.Transfer q ns from to n = Quotas.Refund (Quotas.Seed q ns to n) ns from n) as ->.
  { unfold Quotas.Transfer, Quotas.Seed. rewrite Hto. replace (n <=? 0) with false by lia. cbn [orb].
    destruct (Quotas.domain q ns) as [q1 u]. by destruct Ht as [-> | ->]. }
  destruct (QuotaFacts.Seed_set q ns to n Hq Hto Hn) as (Hq1 & _ & Hu1). set (q1 := Quotas.Seed q ns to n) in *.
  assert (forall ns' tier, low tier -> Usage q1 ns' tier = Usage q ns' tier + (if (ns' =? ns) && (tier =? to) then n else 0)) as HS.
  { intros ns' tier Hl. rewrite Hu1 by (by apply low_ok). destruct (decide (ns' = ns /\ tier = to)) as [[-> ->]|Hd].
    - rewrite !Z.eqb_refl. cbn [andb]. unfold Quotas.i64. rewrite sint_id; lia.
    - replace ((ns' =? ns) && (tier =? to)) with false; [lia|]. symmetry. apply andb_false_iff. rewrite !Z.eqb_neq.
      destruct (decide (ns' = ns)); [right|by left]. naive_solver. }
  destruct Hfrom as [Hl| ->].
  - assert (Usage q1 ns from = Usage q ns from) as Ef.
    { rewrite HS by done. replace (from =? to) with false by lia. rewrite andb_false_r. lia. }
    specialize (Hlow Hl). destruct (QuotaFacts.Refund_set q1 ns from n Hq1 Hf Hn) as (Hq2 & _ & Hu2); [lia|]. split; [done|].
    intros ns' tier Hl'. rewrite Hu2 by (by apply low_ok). destruct (decide (ns' = ns /\ tier = from)) as [[-> ->]|Hd].
    + rewrite !Z.eqb_refl, Ef. replace (from =? to) with false by lia. cbn [andb]. lia.
    + rewrite HS by done. replace ((ns' =? ns) && (tier =? from)) with false; [lia|]. symmetry. apply andb_false_iff.
      rewrite !Z.eqb_neq. destruct (decide (ns' = ns)); [right|by left]. naive_solver.
  - destruct (Refund_below q1 ns n Hq1) as [Hq2 Hu2]. split; [done|]. intros ns' tier Hl'. rewrite Hu2, HS by done.
    replace (tier =? Registry.TierDRAM) with false by (by destruct Hl' as [-> | ->]). rewrite andb_false_r. lia.
Qed.

(** ** Handlers, one action at a time *)

Lemma safe_calm_act {B C} own (m : act B) (k : B -> prog C) Q : calm m -> (forall b, safe own Q (k b)) -> safe own Q (Atom B m k).
Proof. intros Hm Hk rest t b t' _ Hi E. exists own. split; [by eapply Hm|done]. Qed.

(** What the handler owns afterwards may depend on the answer. *)
Lemma safe_act {B C} own (own' : B -> list token) (m : act B) (k : B -> prog C) Q :
  (forall l t b t', legal t = true -> Inv (own ++ l) t -> m t = Next b t' -> Inv (own' b ++ l) t') ->
  (forall b, safe (own' b) Q (k b)) -> safe own Q (Atom B m k).
Proof. intros Hm Hk rest t b t' Hl Hi E. exists (own' b). split; [by eapply Hm|done]. Qed.

Lemma safe_if {C} own Q (b : bool) (k1 k2 : prog C) :
  (b = true -> safe own Q k1) -> (b = false -> safe own Q k2) -> safe own Q (if b then k1 else k2).
Proof. destruct b; auto. Qed.

Lemma safe_keeps {B} own (q : prog B) : every keeps q -> safe own (fun _ o => o = own) q.
Proof. apply safe_calm. Qed.

Lemma keeps_gc id : every keeps (enqueueObjectGC p id).
Proof. unfold enqueueObjectGC. repeat keeps_step. Qed.

(** What a refund is made of. *)
Definition parts (ns : Z) (r : nvmeRef) : list token :=
  if S3Only r then [TBlock; TBytes (Len r); TSeg (segOf r); TCharge ns Registry.TierS3 (Len r)]
  else [TCharge ns Registry.TierNVMe (Len r)].

Lemma parts_weigh ns q r : weigh_same [TGone ns q r] (parts ns r).
Proof.
  unfold parts. destruct (S3Only r) eqn:E; repeat split; intros;
    cbn; unfold isOnly, onlyBytes, onlyIn, charged, tierOf; rewrite E; cbn; try lia; repeat case_if; lia.
Qed.

Lemma Inv_parts ns q r l t : Inv (TGone ns q r :: l) t -> Inv (parts ns r ++ l) t.
Proof.
  intros Hi. apply (Inv_swap _ _ [TGone ns q r]); try done.
  - apply parts_weigh.
  - unfold parts. by destruct (S3Only r).
  - intros id (i & todo & cur & Hin%list_elem_of_singleton). done.
  - assert (0 < Len r) as Hr.
    { destruct Hi as [HA _]. destruct (ac_gone _ _ HA (TGone ns q r) ltac:(left)) as ((r' & Hr' & Hf) & _).
      pose proof (ac_rec _ _ HA _ _ Hr') as [_ ?]. by destruct Hf as (_ & <- & _). }
    intros x Hx. unfold parts in Hx. destruct (S3Only r); set_unfold in Hx; naive_solver.
Qed.

Lemma gone_deref ns q r l t r1 t' :
  Inv (TGone ns q r :: l) t -> deref q t = Next r1 t' -> t' = t /\ frozen r r1 /\ 0 < Len r.
Proof.
  intros [HA _] [-> Hr]%deref_next. split; [done|].
  destruct (ac_gone _ _ HA (TGone ns q r) ltac:(left)) as ((r' & Hr' & Hf) & _). rewrite Hr in Hr'.
  injection Hr' as <-. split; [done|]. pose proof (ac_rec _ _ HA _ _ Hr) as [_ ?]. by destruct Hf as (_ & <- & _).
Qed.

Lemma safe_refund ns q r : safe [TGone ns q r] (fun _ o => o = []) (refundNvmeQuota p ns (Some q)).
Proof.
  intros rest t r1 t' _ Hi E. exists [TGone ns q r]. destruct (gone_deref _ _ _ _ _ _ _ Hi E) as (-> & Hf & Hpos).
  split; [done|]. destruct Hf as (F1 & F2 & F3). rewrite F1, F2. replace (Len r =? 0) with false by lia.
  clear rest t Hi E. intros rest t b t' _ Hi E. exists (parts ns r).
  unfold fmap, act_fmap in E. destruct (deref q t) as [r2 t2| | |] eqn:E2; try done. injection E as <- <-.
  destruct (gone_deref _ _ _ _ _ _ _ Hi E2) as (-> & (_ & _ & ->) & _). split; [by eapply Inv_parts|].
  assert (forall tier, low tier -> safe [TCharge ns tier (Len r)] (fun _ o => o = [])
    (_ ⇐ quotas (fun q => Quotas.Refund q ns tier (Len r)); mret tt)) as Hlast.
  { intros tier Ht. apply (safe_act _ (fun _ => [])); [|done]. intros l s b s' Hl Hi' E'. by eapply Inv_refund. }
  unfold parts. destruct (S3Only r).
  - eapply safe_bind with (P := fun a o => a = Registry.TierS3 /\ o = [TCharge ns Registry.TierS3 (Len r)]).
    2: { intros a o [-> ->]. apply Hlast. by right. }
    apply (safe_act _ (fun _ => [TBytes (Len r); TSeg (segOf r); TCharge ns Registry.TierS3 (Len r)])).
    { intros l s b s' _ Hi' [= _ <-]. by apply Inv_s3Blocks. }
    intros _. apply (safe_act _ (fun _ => [TSeg (segOf r); TCharge ns Registry.TierS3 (Len r)])).
    { intros l s b s' _ Hi' [= _ <-]. by apply Inv_s3Bytes. }
    intros _. apply (safe_act _ (fun _ => [TCharge ns Registry.TierS3 (Len r)])).
    { intros l s b s' _ Hi' E'. eapply Inv_segDrop; [|exact E']. exact Hi'. }
    intros zero. eapply safe_bind; [apply safe_keeps; destruct zero; [apply keeps_gc|done]|]. by intros _ o ->.
  - apply Hlast. by left.
Qed.

Lemma safe_refund_own ns q r own : safe (TGone ns q r :: own) (fun _ o => o = own) (refundNvmeQuota p ns (Some q)).
Proof.
  eapply safe_mono; [|exact (safe_frame _ _ own [TGone ns q r] _ _ (safe_refund ns q r))]. by intros _ o (o' & -> & ->).
Qed.

End Moves.
End TieredMoves.
