(* ===== verification/TieredSurface.v ===== *)
(** The handlers of the store surface keep the invariant of the tiers: reads,
    writes, probes, deletes, leases, pins and promotions. *)
From Stdlib Require Import ZArith Lia.
From coqutil Require Import Byte.
From stdpp Require Import base numbers list gmap sets.
From S2P Require Import Prelude.
From S2P Require Import Conc.
From S2P Require Import Wire.
From S2P Require Import Tenant.
From S2P Require Import Eviction.
From S2P Require Import BlockRef.
From S2P Require Import Index.
From S2P Require Import DramStore.
From S2P Require Import NvmeFormat.
From S2P Require Import NvmeVolume.
From S2P Require Import NvmeSpill.
From S2P Require Import NvmeIndex.
From S2P Require Import Tiered.
From S2P Require Import TieredVol.
From S2P Require Import TieredDram.
From S2P Require Import TieredInv.
From S2P Require Import TieredActs.
From S2P Require Import TieredMoves.
Import Conc Ops Eviction Seg NvmeIndex Tiered TieredVol TieredDram TieredInv TieredActs TieredMoves.
Open Scope Z_scope.
Open Scope go_scope.
Open Scope conc_scope.

Module TieredSurface.

Section Surface.
Context {A P : Type} `{!Dram.ExtentAlloc A} `{!Policy P} `{!Index.IndexEnv} `{!Xxh3} `{!Outside}.
Context (time : nat -> Z) (vp : nat -> Nvme.VolumeParams) (p : Params) (N : nat).

Abbreviation T := (Tiered A P).
Abbreviation act := (act T).
Abbreviation prog := (prog T).
Abbreviation Inv := (Inv (A := A) (P := P) N (Spill p)).
Abbreviation calm := (calm (A := A) (P := P) p N).
Abbreviation keeps := (keeps (A := A) (P := P) p N).
Abbreviation safe := (safe (legal (A := A) (P := P)) Inv).

(** ** Deletion under a gate *)

(** A gate looks, and may ask for the time. *)
Definition peeks {B} (m : act B) : Prop := forall t b t', m t = Next b t' -> idx t' = idx t /\ refs t' = refs t.

Lemma peeks_ret {B} (b : B) : peeks (mret b).
Proof. by intros t b' t' [= _ <-]. Qed.
Lemma peeks_bind {B C} (m : act B) (f : B -> act C) : peeks m -> (forall b, peeks (f b)) -> peeks (m ≫= f).
Proof.
  intros Hm Hf t c t' (b & t1 & E1 & E2)%next_bind. destruct (Hm _ _ _ E1) as [<- <-]. by eapply Hf.
Qed.
Lemma peeks_deref q : peeks (deref q).
Proof. by intros t r t' [-> _]%deref_next. Qed.
Lemma peeks_now : peeks (now time).
Proof. intros t b t' E. unfold now, dram in E. by destruct (Dram.now time (d t)) as [[]|]; [injection E as _ <-|]. Qed.

Definition gate_ok (gate : Z -> act Z) : Prop := forall q, calm (gate q) /\ peeks (gate q).

Lemma iget_cont l t k : Inv l t -> @Index.Get nvShards (idx t) k = cont t !! k.
Proof. intros [HA _]. apply Index.Get_contents, HA. Qed.

Lemma deleteIf_next k gate l t o st t' :
  gate_ok gate -> Inv l t -> deleteIf k gate t = Next (o, st) t' -> refs t' = refs t /\
  ((o = None /\ Inv l t' /\ cont t' = cont t /\
    (cont t !! k = None \/ exists q t1, cont t !! k = Some q /\ gate q t = Next st t1 /\ st <> StatusOK)) \/
   (exists q r, o = Some q /\ st = StatusOK /\ cont t !! k = Some q /\ Inv (TGone (NS k) q r :: l) t' /\
      cont t' = delete k (cont t))).
Proof.
  intros Hg Hi E. unfold deleteIf in E. apply next_bind in E as (o1 & t1 & [= <- <-] & E).
  rewrite (iget_cont _ _ _ Hi) in E. destruct (cont t !! k) as [q|] eqn:Ek.
  2: { injection E as <- <- <-. split; [done|]. left. split_and!; try done. by left. }
  apply next_bind in E as (s1 & t1 & Eg & E). destruct (Hg q) as [Hc Hp].
  pose proof (Hc _ _ _ _ Hi Eg) as Hi1. destruct (Hp _ _ _ Eg) as [Ei Er].
  assert (cont t1 = cont t) as Ec by (unfold cont; by rewrite Ei).
  destruct (Z.eqb_spec s1 StatusOK) as [->|Hne]; cbn [negb] in E.
  - apply next_bind in E as (r & t2 & [-> Hr]%deref_next & E). injection E as <- <- <-. split; [done|]. right.
    exists q, r. rewrite <- Ec in Ek. split_and!; try done.
    + by apply Inv_remove.
    + rewrite <- Ec. apply Index.removeKey_spec, Hi1.
  - injection E as <- <- <-. split; [done|]. left. split_and!; try done. right. by exists q, t1.
Qed.

Lemma safe_deleteIf {C} k gate (K : option Z * Z -> prog C) own Q :
  gate_ok gate -> (forall st, safe own Q (K (None, st))) ->
  (forall q r, safe (TGone (NS k) q r :: own) Q (K (Some q, StatusOK))) -> safe own Q (Atom _ (deleteIf k gate) K).
Proof.
  intros Hg Hn Hs rest t [o st] t' _ Hi E.
  destruct (deleteIf_next _ _ _ _ _ _ _ Hg Hi E) as [_ [(-> & Hi' & _)|(q & r & -> & -> & _ & Hi' & _)]].
  - exists own. split; [done|apply Hn].
  - exists (TGone (NS k) q r :: own). split; [done|apply Hs].
Qed.

Lemma gate_heal e : gate_ok (healGate e).
Proof. intros q. split; [apply calm_ret|apply peeks_ret]. Qed.

Lemma gate_delete force : gate_ok (canDeleteNvme time force).
Proof.
  intros q. split; unfold canDeleteNvme; [repeat calm_step|].
  apply peeks_bind; [apply peeks_deref|]. intros r. destruct (hardPinned r); [apply peeks_ret|].
  destruct force; [apply peeks_ret|]. apply peeks_bind; [apply peeks_now|]. intros t. apply peeks_ret.
Qed.

Lemma gate_retire id : gate_ok (retireGate time id).
Proof.
  intros q. split; unfold retireGate; [repeat calm_step|].
  apply peeks_bind; [apply peeks_deref|]. intros r. case_if; [apply peeks_ret|].
  apply peeks_bind; [apply peeks_now|]. intros t. apply peeks_ret.
Qed.

(** ** The cold read *)

Lemma safe_tryReadSem {C} (k : bool -> prog C) own Q :
  safe own Q (k false) -> safe (TSem :: own) Q (k true) -> safe own Q (b ⇐ tryReadSem; k b).
Proof.
  intros Hf Ht. apply (safe_act _ _ _ (fun b : bool => if b then TSem :: own else own)); [|by intros []].
  intros l t b t' _ [HA HH]. unfold tryReadSem. case_if; intros [= <- <-]; [done|]. split.
  - destruct HA as [K1 K2 K3 K4 K5 K5' K6 K7 K8 K9 K10 K11 K12]. split; try done; cbn [total]; try done.
    + intros x [->|Hx]%elem_of_cons; [done|by apply K5].
    + cbn. lia.
  - apply (Home_same _ _ _ t); try done. apply (Home_swap _ _ [] [TSem]); try done.
    + intros id (i & todo & cur & Hin). by apply not_elem_of_nil in Hin.
    + intros x ->%list_elem_of_singleton. done.
Qed.

Lemma Inv_leaveReadSem l t : Inv (TSem :: l) t -> Inv l (set_readSem (readSem t - 1) t).
Proof.
  intros [HA HH]. split.
  - destruct HA as [K1 K2 K3 K4 K5 K5' K6 K7 K8 K9 K10 K11 K12]. split; try done; cbn in *; try lia.
    intros x Hx. apply K5. by right.
  - apply (Home_same _ _ _ t); try done. by apply (Home_weight p N TSem).
Qed.

Lemma calm_breaker b : calm (fun t => Next tt (set_breaker b t)).
Proof. apply calm_quiet. by intros ??? [= _ <-]. Qed.

Lemma keeps_breakerNote ok t : every keeps (s3BreakerNote ok t).
Proof.
  unfold s3BreakerNote. repeat keeps_step; apply calm_quiet; by intros ??? [= _ <-].
Qed.

Lemma keeps_breakerAllow t : every keeps (s3BreakerAllow t).
Proof.
  unfold s3BreakerAllow. repeat keeps_step. apply calm_quiet. intros s c s'. case_if; by intros [= _ <-].
Qed.

Lemma keeps_readRange ctx r t : every keeps (readRange ctx r t).
Proof.
  unfold readRange. repeat first [apply keeps_breakerNote|keeps_step].
Qed.

Lemma safe_readS3 ctx e own : safe own (fun _ o => o = own) (readS3 time p ctx e).
Proof.
  unfold readS3. case_if; [done|]. apply safe_calm_act; [apply calm_deref|]. intros r. case_if; [done|].
  apply safe_calm_act; [apply calm_now|]. intros t. eapply safe_bind; [apply safe_keeps, keeps_breakerAllow|].
  intros allowed o ->. destruct allowed; cbn [negb]; [|by apply safe_keeps; repeat keeps_step].
  apply safe_tryReadSem; cbn [negb]; [by apply safe_keeps; repeat keeps_step|].
  eapply safe_bind; [apply safe_keeps, keeps_readRange|]. intros res o ->.
  apply (safe_act _ _ _ (fun _ => own)); [|done]. intros l s b s' _ Hi [= _ <-]. by apply Inv_leaveReadSem.
Qed.

(** ** Reads *)

Abbreviation back own := (fun _ o => o = own).

Lemma safe_getCold ctx k e sum own : safe own (back own) (getCold time p ctx k e sum).
Proof.
  unfold getCold. eapply safe_bind; [apply safe_readS3|]. intros [cst data] o ->. apply safe_keeps. repeat keeps_step.
Qed.

Lemma safe_getNvme ctx k e own : safe own (back own) (getNvme time vp p ctx k e).
Proof.
  unfold getNvme. apply safe_calm_act; [apply calm_deref|]. intros r. apply safe_calm_act; [apply calm_volumeFor|].
  intros i. apply safe_calm_act; [apply calm_volRead|]. intros [[] blob].
  - apply safe_keeps. repeat keeps_step.
  - apply safe_keeps. repeat keeps_step.
  - apply safe_calm_act; [destruct ctx; [apply calm_ask|apply calm_ret]|]. intros c. destruct c; [done|apply safe_getCold].
  - apply safe_calm_act; [apply calm_bump|]. intros _.
    apply safe_deleteIf; [apply gate_heal|done|]. intros q r'. eapply safe_bind; [apply safe_refund_own|]. by intros _ o ->.
Qed.

Lemma safe_GetRefTier ctx ns key own : safe own (back own) (GetRefTier time vp p ctx ns key).
Proof.
  unfold GetRefTier. apply safe_calm_act; [by repeat calm_step|]. intros [[[data sum] ref]|]; [done|].
  apply safe_calm_act; [apply calm_iget|]. intros [e|]; [apply safe_getNvme|done].
Qed.

Lemma keeps_release h : every keeps (release h).
Proof. unfold release. repeat keeps_step. Qed.

(** ** Writes, probes, deletes *)

Lemma keeps_Contains ns key : every keeps (Contains ns key).
Proof. unfold Contains, icontains. repeat keeps_step. Qed.

Lemma keeps_ExistsPrefix ns keys wb : every keeps (ExistsPrefix ns keys wb).
Proof.
  unfold ExistsPrefix. apply every_bind; [|by intros []]. generalize true 0 (@nil Z).
  induction keys as [|key keys IH]; intros c n l; [done|]. cbn [existsLoop].
  apply every_bind; [apply keeps_Contains|]. intros hit. apply IH.
Qed.

Lemma keeps_CanStoreNS ns n : every keeps (CanStoreNS time ns n).
Proof. unfold CanStoreNS, kicking. repeat keeps_step. Qed.

Lemma keeps_Put ns key data sum : every keeps (Put time ns key data sum).
Proof. unfold Put. repeat keeps_step. Qed.

Lemma safe_Delete ns key force own : safe own (back own) (Delete time p ns key force).
Proof.
  unfold Delete, deleteNvme. set (k := mkKey ns key).
  apply (safe_bind _ _ _ _ (back own)); [|intros [removed st] o ->; apply safe_keeps; repeat keeps_step].
  apply safe_deleteIf; [apply gate_delete|done|]. intros q r. eapply safe_bind; [apply safe_refund_own|]. by intros _ o ->.
Qed.

Lemma keeps_TouchLease ns key sub ttl : every keeps (TouchLease time p ns key sub ttl).
Proof. unfold TouchLease, withShardLock. repeat keeps_step. Qed.

(** ** Promotion and pins *)

Lemma safe_promoteRead k e own : safe own (back own) (promoteRead time vp p k e).
Proof.
  unfold promoteRead. apply safe_calm_act; [apply calm_deref|]. intros r. apply safe_calm_act; [apply calm_volumeFor|].
  intros i. apply safe_calm_act; [apply calm_volRead|]. intros [[] blob]; [by apply safe_keeps; repeat keeps_step|done| |done].
  eapply safe_bind; [apply safe_readS3|]. intros [cst data] o ->. apply safe_keeps. unfold s3BreakerOpen. repeat keeps_step.
Qed.

Lemma safe_promoteSync k e own : safe own (back own) (promoteSync time vp p k e).
Proof.
  unfold promoteSync. eapply safe_bind; [apply safe_promoteRead|]. intros res o ->. apply safe_keeps. repeat keeps_step.
Qed.

Lemma safe_promoteBody own : safe own (back own) (promoteBody time vp p).
Proof.
  unfold promoteBody. apply safe_calm_act; [apply calm_recvPromote|]. intros [[k e]|]; [|done].
  unfold promoteOne. apply safe_calm_act; [apply calm_iget|]. intros cur. case_bool_decide; [|done].
  eapply safe_bind; [apply safe_promoteSync|]. by intros st o ->.
Qed.

Lemma safe_PinOp ns key sub own : safe own (back own) (PinOp time vp p ns key sub).
Proof.
  unfold PinOp. apply safe_calm_act; [by repeat calm_step|]. intros st. case_if; [done|].
  apply safe_calm_act; [apply calm_iget|]. intros [e|]; [|done]. case_if.
  { apply safe_keeps. unfold withShardLock. repeat keeps_step. }
  case_if; [|done]. eapply safe_bind; [apply safe_promoteSync|]. intros st' o ->. apply safe_keeps. repeat keeps_step.
Qed.

Lemma keeps_tierCounts : every keeps tierCounts.
Proof. unfold tierCounts. repeat keeps_step. Qed.

End Surface.
End TieredSurface.
