(* ===== verification/TieredLatch.v ===== *)
(** Latches of segments, and changes of one segment, under the invariant of the
    tiers. *)

From Stdlib Require Import ZArith Lia.
From coqutil Require Import Byte.
From stdpp Require Import base numbers list gmap sets.
From S2P Require Import Prelude.
From S2P Require Import Conc.
From S2P Require Import Wire.
From S2P Require Import Tenant.
From S2P Require Import Eviction.
From S2P Require Import BlockRef.
From S2P Require Import Index.
From S2P Require Import DramStore.
From S2P Require Import NvmeFormat.
From S2P Require Import NvmeVolume.
From S2P Require Import NvmeSpill.
From S2P Require Import NvmeIndex.
From S2P Require Import Tiered.
From S2P Require Import TieredVol.
From S2P Require Import TieredDram.
From S2P Require Import TieredInv.
From S2P Require Import TieredActs.
From S2P Require Import TieredMoves.
From S2P Require Import TieredSurface.
Import Conc Ops Eviction Seg NvmeIndex Tiered TieredVol TieredDram TieredInv TieredActs TieredMoves TieredSurface.
Open Scope Z_scope.
Open Scope go_scope.
Open Scope conc_scope.

Module TieredLatch.

Section Latch.
Context {A P : Type} `{!Dram.ExtentAlloc A} `{!Policy P} `{!Index.IndexEnv} `{!Xxh3} `{!Outside}.
Context (p : Params) (N : nat).

Abbreviation T := (Tiered A P).
Abbreviation act := (act T).
Abbreviation prog := (prog T).
Abbreviation Inv := (Inv (A := A) (P := P) N (Spill p)).
Abbreviation Home := (Home (A := A) (P := P) N (Spill p)).
Abbreviation token_ok := (token_ok (A := A) (P := P) N (Spill p)).
Abbreviation phase_ok := (phase_ok (A := A) (P := P) N).
Abbreviation settled := (settled (A := A) (P := P) N).
Abbreviation calm := (calm (A := A) (P := P) p N).
Abbreviation keeps := (keeps (A := A) (P := P) p N).
Abbreviation safe := (safe (legal (A := A) (P := P)) Inv).

(** ** Latches *)

(** Other latches and pending uploads; the rest as it was. *)
Lemma Home_latch l l' t t' :
  Home l t -> idx t' = idx t -> refs t' = refs t -> vols t' = vols t -> objects t' = objects t ->
  downloads t' = downloads t -> same_queue t t' ->
  spillInflight t' = list_to_set ((l' ≫= latched) ++ (snd <$> uploads t')) /\
    NoDup ((l' ≫= latched) ++ (snd <$> uploads t')) ->
  (forall i id, (i, id) ∈ uploads t' -> N = 1%nat /\ sealed_if t i id) ->
  (forall id, marking l id -> marking l' id \/ settled t id) -> (forall x, x ∈ l' -> token_ok t x) -> Home l' t'.
Proof.
  intros [K1 K2 K3 K0 K4 K5 K6 K7 K8 K9 K10 K11 K13 K12] E1 E2 E3 E4 E5 [E6 E7] Hl Hu Hm Hx.
  pose proof (ents_same _ _ E1 E2) as Ee.
  split; unfold seg_at, sealed_if, queued; rewrite ?Ee, ?E3, ?E4, ?E5, ?E6, ?E7; try done.
  - intros k ns r He Hs Ho. destruct (K7 k ns r He Hs Ho) as [?|Hk]; [by left|].
    destruct (Hm _ Hk) as [?|Hse]; [by right|left]. by eapply Hse.
  - intros x Hin. specialize (Hx _ Hin).
    unfold TieredInv.token_ok, TieredInv.phase_ok, sealed_if, seg_at, cont in *. rewrite ?Ee, ?E1, ?E2, ?E3, ?E4. exact Hx.
Qed.

Lemma Acc_weightless own own' l (t t' : T) :
  weigh_same own own' -> (forall x, x ∈ own' -> gone_ok t x) -> same_acc t t' -> d t' = d t -> Acc (own ++ l) t -> Acc (own' ++ l) t'.
Proof.
  intros Hw Hg Hs Hd HA. eapply Acc_same; [exact Hs|rewrite Hd; apply same_below_refl|]. by eapply Acc_swap.
Qed.

Lemma Inv_latch id l t b t' :
  Inv l t -> latch id t = Next b t' -> Inv ((if b then [] else [TLatch id PHeld]) ++ l) t'.
Proof.
  intros [HA HH] [= <- <-]. case_bool_decide as Hin; cbn [app].
  - replace ({[id]} ∪ spillInflight t) with (spillInflight t) by set_solver.
    by apply (quiet_inv p N l t).
  - split.
    + apply (Acc_weightless [] [TLatch id PHeld] l t); try done. by intros x ->%list_elem_of_singleton.
    + eapply Home_latch; [exact HH|done..| | | |].
      * cbn. destruct (ho_latch _ _ _ _ HH) as [Es En]. rewrite Es in Hin |- *. split; [done|]. constructor; [|done].
        by rewrite elem_of_list_to_set in Hin.
      * apply HH.
      * intros id' (i & todo & cur & Hx). left. exists i, todo, cur. by right.
      * intros x [->|Hx]%elem_of_cons; [done|]. by apply HH.
Qed.

Definition not_mark (ph : phase) : Prop := match ph with PMark _ _ _ => False | _ => True end.

Lemma Inv_unlatch id ph l t b t' : not_mark ph -> Inv (TLatch id ph :: l) t -> unlatch id t = Next b t' -> Inv l t'.
Proof.
  intros Hp [HA HH] [= _ <-]. split.
  - apply (Acc_weightless [TLatch id ph] [] l t); try done. intros x Hx. by apply not_elem_of_nil in Hx.
  - eapply Home_latch; [exact HH|done..| | | |].
    + destruct (ho_latch _ _ _ _ HH) as [Es En]. cbn in *. rewrite Es. apply NoDup_cons in En as [En1 En2]. split; [|done].
      apply set_eq. intros x. rewrite elem_of_difference, !elem_of_union, !elem_of_singleton, elem_of_list_to_set. naive_solver.
    + apply HH.
    + intros id' (i & todo & cur & [E|Hx]%elem_of_cons); [by injection E as -> <-|]. left. by exists i, todo, cur.
    + intros x Hx. apply HH. by right.
Qed.

(** What the holder has established, replaced by something else that holds. *)
Lemma Inv_phase id ph ph' l t :
  (not_mark ph \/ settled t id \/ exists i todo cur, ph' = PMark i todo cur) ->
  Inv (TLatch id ph :: l) t -> phase_ok t id ph' -> Inv (TLatch id ph' :: l) t.
Proof.
  intros Hp Hi Hph. apply (Inv_swap _ _ [TLatch id ph] [TLatch id ph'] l); try done.
  - intros id' (i & todo & cur & [= <- <-]%list_elem_of_singleton).
    destruct Hp as [[]|[?|(i' & todo' & cur' & ->)]]; [by right|left]. exists i', todo', cur'. by left.
  - by intros x ->%list_elem_of_singleton.
Qed.

(** Facts about segments, noted and forgotten. *)
Definition fact (x : token) : Prop := match x with TSealed _ _ | TSnap _ _ _ | TOld _ _ | TAt _ _ => True | _ => False end.

Lemma fact_light x : fact x -> latched x = [] /\ weigh_same [x] [] /\ forall t : T, gone_ok t x.
Proof. destruct x; try done. Qed.

Lemma Inv_note x l t : fact x -> token_ok t x -> Inv l t -> Inv (x :: l) t.
Proof.
  intros Hf Hx Hi. destruct (fact_light x Hf) as (Hl & (W1 & W2 & W3 & W4 & W5) & Hg). apply (Inv_swap _ _ [] [x] l); try done.
  - cbn. by rewrite Hl.
  - intros id (i & todo & cur & Hin). by apply not_elem_of_nil in Hin.
  - intros y ->%list_elem_of_singleton. done.
Qed.

Lemma Inv_dropFact x l t : fact x -> Inv (x :: l) t -> Inv l t.
Proof.
  intros Hf Hi. destruct (fact_light x Hf) as (Hl & Hw & Hg). apply (Inv_swap _ _ [x] [] l); try done.
  - cbn. by rewrite Hl.
  - intros id (i & todo & cur & Hin%list_elem_of_singleton). by subst x.
  - intros y Hy. by apply not_elem_of_nil in Hy.
Qed.

(** ** Changes of one segment *)

Lemma vol_next {B} i (m : Nvme.M B) (t : T) b t' :
  vol i m t = Next b t' -> exists v v', vols t !! i = Some v /\ m v = Nvme.Ret b v' /\ t' = set_vols (<[i := v']> (vols t)) t.
Proof.
  unfold vol. destruct (vols t !! i) as [v|]; [|done]. destruct (m v) as [b' v'| |] eqn:E; try done.
  intros [= <- <-]. by exists v, v'.
Qed.

(** Only segment [id0] of volume [i0] may differ. If it is live afterwards it is
    sealed, and lists what it did or was restored. *)
Record onlySeg (i0 : nat) (id0 : Z) (t t' : T) : Prop := mkOnlySeg {
  os_len : length (vols t') = length (vols t);
  os_vol : forall i v', vols t' !! i = Some v' -> exists v, vols t !! i = Some v /\ Nvme.nextID v' = Nvme.nextID v /\
    forall id, (i, id) <> (i0, id0) -> sv v' !! id = sv v !! id;
  os_seg : forall g', seg_at t' i0 id0 g' -> Nvme.s_sealed g' = true /\
    ((exists g, seg_at t i0 id0 g /\ Nvme.s_entries g' = Nvme.s_entries g /\ (Nvme.s_spilled g = true -> Nvme.s_spilled g' = true)) \/
     Nvme.s_spilled g' = true /\ Spill p = true)
}.

Lemma os_fwd i0 id0 t t' i v : onlySeg i0 id0 t t' -> vols t !! i = Some v ->
  exists v', vols t' !! i = Some v' /\ Nvme.nextID v' = Nvme.nextID v /\ forall id, (i, id) <> (i0, id0) -> sv v' !! id = sv v !! id.
Proof.
  intros Ho Hv. destruct (vols t' !! i) as [v'|] eqn:E.
  - destruct (os_vol _ _ _ _ Ho _ _ E) as (v0 & Hv0 & Hn). simplify_eq. by exists v'.
  - apply lookup_ge_None in E. apply lookup_lt_Some in Hv. rewrite (os_len _ _ _ _ Ho) in E. lia.
Qed.

Lemma os_seg_at i0 id0 t t' i id g :
  onlySeg i0 id0 t t' -> (i, id) <> (i0, id0) -> seg_at t' i id g <-> seg_at t i id g.
Proof.
  intros Ho Hne. split.
  - intros (v' & Hv' & Hg). destruct (os_vol _ _ _ _ Ho _ _ Hv') as (v & Hv & _ & Hs). exists v. by rewrite <- Hs.
  - intros (v & Hv & Hg). destruct (os_fwd _ _ _ _ _ _ Ho Hv) as (v' & Hv' & _ & Hs). exists v'. by rewrite Hs.
Qed.

Lemma os_sealed i0 id0 t t' i id : onlySeg i0 id0 t t' -> sealed_if t i id -> sealed_if t' i id.
Proof.
  intros Ho (v & Hv & Hlt & Hse). destruct (os_fwd _ _ _ _ _ _ Ho Hv) as (v' & Hv' & En & Hs). exists v'.
  split_and!; [done|lia|]. intros g Hg. destruct (decide ((i, id) = (i0, id0))) as [[= -> ->]|Hne].
  - apply (os_seg _ _ _ _ Ho). by exists v'.
  - apply Hse. by rewrite <- Hs.
Qed.

Lemma token_onlySeg i0 id0 t t' x :
  onlySeg i0 id0 t t' -> same_but_vols t t' -> latched x <> [id0] -> token_ok t x -> token_ok t' x.
Proof.
  intros Ho (E1 & E2 & E3 & _) Hl Hx. pose proof (ents_same _ _ E1 E2) as Ee.
  destruct x as [| | | | | |id ph|i id|i id es|i id|q id]; cbn in *; try done.
  - assert (forall i, (i, id) <> (i0, id0)) as Hne by (intros i [= -> ->]; done).
    destruct ph as [|i todo cur|i fl todo|i es| |]; cbn in *; rewrite ?Ee; try done.
    + destruct Hx as (Hobj & Hse & HN & Hf & Hc). unfold cont. rewrite E1, E2, E3. split_and!; try done. by eapply os_sealed.
    + destruct Hx as ((g & Hg & Hse & Hsp) & Hf). split; [|done]. exists g. by rewrite (os_seg_at _ _ _ _ _ _ _ Ho (Hne i)).
    + destruct Hx as (g & Hg & Hsub). exists g. by rewrite (os_seg_at _ _ _ _ _ _ _ Ho (Hne i)).
  - by eapply os_sealed.
  - destruct Hx as [Hse Hsn]. split; [by eapply os_sealed|]. intros g' Hg'.
    destruct (decide ((i, id) = (i0, id0))) as [[= -> ->]|Hne].
    + destruct (os_seg _ _ _ _ Ho _ Hg') as [_ [(g & Hg & -> & Hsp)|?]]; [|by left].
      destruct (Hsn _ Hg) as [[? ?]|?]; [left; auto|by right].
    + apply Hsn. by rewrite <- (os_seg_at _ _ _ _ _ _ _ Ho Hne).
  - destruct Hx as (v & Hv & Hlt). destruct (os_fwd _ _ _ _ _ _ Ho Hv) as (v' & Hv' & En & _). exists v'. split; [done|lia].
  - by rewrite E2.
Qed.

Lemma Home_onlySeg l t t' i0 id0 :
  Home l t -> onlySeg i0 id0 t t' -> same_but_vols t t' ->
  (forall i v, vols t' !! i = Some v ->
     volume_ok v /\ (length (Nvme.reqs v) <= 128)%nat /\ forall r, r ∈ Nvme.reqs v -> queued N t' i r) ->
  (forall ph, TLatch id0 ph ∈ l -> phase_ok t' id0 ph) ->
  (forall g e, seg_at t' i0 id0 g -> e ∈ Nvme.s_entries g -> home N (entryKey e) = i0) ->
  (forall k ns r, ents t !! k = Some (ns, r) -> home N k = i0 -> segOf r = id0 ->
     (S3Only r = false -> exists g, seg_at t' i0 id0 g /\ listed k g) /\
     (S3 r = true -> S3Only r = false -> (exists g, seg_at t' i0 id0 g /\ Nvme.s_spilled g = true) \/ marking l id0) /\
     (forall g, seg_at t' i0 id0 g -> S3Only r = true -> Nvme.s_spilled g = true) /\
     (forall g, seg_at t' i0 id0 g -> Nvme.s_spilled g = true -> S3 r = true)) ->
  Home l t'.
Proof.
  intros [K1 K2 K3 K0 K4 K5 K6 K7 K8 K9 K10 K11 K13 K12] Ho Hr Hq Hp Hli Hk. pose proof Hr as (E1 & E2 & E3 & E4 & E5 & E6).
  pose proof (ents_same _ _ E1 E2) as Ee.
  assert (forall i id g, (i, id) <> (i0, id0) -> seg_at t' i id g <-> seg_at t i id g) as Hat
    by (intros; by eapply os_seg_at).
  split; rewrite ?Ee, ?E3, ?E4, ?E5, ?E6; try done.
  - by rewrite (os_len _ _ _ _ Ho).
  - intros i id g e Hg He. destruct (decide ((i, id) = (i0, id0))) as [[= -> ->]|Hne]; [by eapply Hli|].
    eapply K3; [|done]. by apply Hat.
  - intros k ns r He. destruct (K0 _ _ _ He) as (v & Hv & Hlt). destruct (os_fwd _ _ _ _ _ _ Ho Hv) as (v' & Hv' & En & _).
    exists v'. split; [done|lia].
  - intros k ns r He. destruct (decide ((home N k, segOf r) = (i0, id0))) as [[= Eh Es]|Hne].
    + rewrite Eh, Es. by apply (Hk k ns r).
    + setoid_rewrite Hat; [|done]. by eapply K4.
  - intros k ns r He. destruct (decide ((home N k, segOf r) = (i0, id0))) as [[= Eh Es]|Hne].
    + rewrite Eh, Es. by apply (Hk k ns r).
    + setoid_rewrite Hat; [|done]. by eapply K7.
  - intros k ns r g He Hon Hg. destruct (decide ((home N k, segOf r) = (i0, id0))) as [[= Eh Es]|Hne].
    + rewrite Eh, Es in Hg. by eapply (Hk k ns r).
    + apply Hat in Hg; [|done]. by eapply K8.
  - intros k ns r g He Hg Hsp. destruct (decide ((home N k, segOf r) = (i0, id0))) as [[= Eh Es]|Hne].
    + rewrite Eh, Es in Hg. by eapply (Hk k ns r).
    + apply Hat in Hg; [|done]. by eapply K9.
  - intros i id Hin. destruct (K11 _ _ Hin). split; [done|by eapply os_sealed].
  - intros x Hx. destruct (decide (latched x = [id0])) as [El|El]; [|by eapply token_onlySeg; [..|apply K12]].
    destruct x; try done. injection El as ->. by apply Hp.
Qed.

End Latch.
End TieredLatch.
