(* ===== verification/TieredCold.v ===== *)
(** The handlers that hold a segment's latch keep the invariant of the tiers:
    spill acknowledgements, restores, object drops and reclaim. *)

From Stdlib Require Import ZArith Lia.
From coqutil Require Import Byte.
From stdpp Require Import base numbers list gmap sets.
From S2P Require Import Prelude.
From S2P Require Import Conc.
From S2P Require Import Wire.
From S2P Require Import Tenant.
From S2P Require Import Eviction.
From S2P Require Import BlockRef.
From S2P Require Import Index.
From S2P Require Import DramStore.
From S2P Require Import NvmeFormat.
From S2P Require Import NvmeVolume.
From S2P Require Import NvmeSpill.
From S2P Require Import NvmeIndex.
From S2P Require Import Tiered.
From S2P Require Import TieredVol.
From S2P Require Import TieredDram.
From S2P Require Import TieredInv.
From S2P Require Import TieredActs.
From S2P Require Import TieredMoves.
From S2P Require Import TieredSurface.
From S2P Require Import TieredLatch.
Import Conc Ops Eviction Seg NvmeIndex Tiered TieredVol TieredDram TieredInv TieredActs TieredMoves TieredSurface TieredLatch.
Open Scope Z_scope.
Open Scope go_scope.
Open Scope conc_scope.

Module TieredCold.

Section Cold.
Context {A P : Type} `{!Dram.ExtentAlloc A} `{!Policy P} `{!Index.IndexEnv} `{!Xxh3} `{!Outside}.
Context (p : Params) (N : nat).

Abbreviation T := (Tiered A P).
Abbreviation act := (act T).
Abbreviation prog := (prog T).
Abbreviation Inv := (Inv (A := A) (P := P) N (Spill p)).
Abbreviation Home := (Home (A := A) (P := P) N (Spill p)).
Abbreviation token_ok := (token_ok (A := A) (P := P) N (Spill p)).
Abbreviation phase_ok := (phase_ok (A := A) (P := P) N).
Abbreviation settled := (settled (A := A) (P := P) N).
Abbreviation calm := (calm (A := A) (P := P) p N).
Abbreviation keeps := (keeps (A := A) (P := P) p N).
Abbreviation safe := (safe (legal (A := A) (P := P)) Inv).
Abbreviation back own := (fun _ o => o = own).

(** ** Objects *)

Lemma Inv_objects l t o :
  Inv l t -> (forall k ns r, ents t !! k = Some (ns, r) -> S3 r = true -> segOf r ∈ o) ->
  (forall id, marking l id -> id ∈ o) -> Inv l (set_objects o t).
Proof.
  intros [HA HH] Ho Hm. split.
  - by apply (Acc_same _ t); [|apply same_below_refl|].
  - destruct HH as [K1 K2 K3 K0 K4 K5 K6 K7 K8 K9 K10 K11 K13 K12]. split; try done.
    intros x Hx. specialize (K12 _ Hx). destruct x as [| | | | | |id ph| | | |]; try done.
    destruct ph as [|i todo cur| | | |]; try done. destruct K12 as (_ & K12). split; [|done]. apply Hm.
    by exists i, todo, cur.
Qed.

(** ** Spill acknowledgements *)

Lemma Inv_takeUpload j up l t o t' :
  Inv l t -> takeUpload j up t = Next o t' ->
  match o with
  | None => t' = t
  | Some (i, id) => N = 1%nat /\
      exists todo, Inv (TLatch id (if up then PMark i todo None else PHeld) :: l) t'
  end.
Proof.
  intros Hi E. unfold takeUpload in E. destruct (uploads t !! j) as [[i id]|] eqn:Ej; [|by injection E as <- <-].
  injection E as <- <-. destruct (ho_up _ _ _ _ (proj2 Hi) i id) as [HN Hse]; [by eapply list_elem_of_lookup_2|]. split; [done|].
  exists (map_to_list (ents t)).*1. set (t1 := if up then _ else t).
  assert (Inv l t1) as Hi1.
  { unfold t1. destruct up; [|done]. apply Inv_objects; [done|..].
    - intros k ns r He Hs. apply elem_of_union_r. by eapply (ho_obj _ _ _ _ (proj2 Hi)).
    - intros id' (i' & todo & cur & Hin). apply elem_of_union_r. by apply (ho_tok _ _ _ _ (proj2 Hi) _ Hin). }
  assert (uploads t1 = uploads t) as Eu by (unfold t1; by destruct up).
  assert (phase_ok t1 id (if up then PMark i (map_to_list (ents t)).*1 None else PHeld)) as Hph.
  { unfold t1. destruct up; [|done]. cbn. split_and!; try done; [set_solver|]. intros k ns r He _ _ _. right.
    apply list_elem_of_fmap. exists (k, (ns, r)). split; [done|]. by apply elem_of_map_to_list. }
  destruct Hi1 as [HA1 HH1]. split.
  - apply (Acc_weightless [] [TLatch id _] l t1); try done. by intros x ->%list_elem_of_singleton.
  - eapply Home_latch; [exact HH1|done..| | | |].
    + cbn [uploads set_uploads]. rewrite <- Eu. destruct (ho_latch _ _ _ _ HH1) as [Es En].
      assert ((l ≫= latched) ++ (uploads t1).*2 ≡ₚ
        ((TLatch id (if up then PMark i (map_to_list (ents t)).*1 None else PHeld) :: l) ≫= latched) ++ (delete j (uploads t1)).*2) as Hp.
      { rewrite <- Eu in Ej. etrans; [apply Permutation_app_head, fmap_Permutation, (delete_Permutation _ _ _ Ej)|].
        symmetry. apply Permutation_middle. }
      split; [|by rewrite <- Hp]. cbn [spillInflight set_uploads]. rewrite Es. apply set_eq. intros x.
      rewrite !elem_of_list_to_set. by rewrite Hp.
    + intros i' id' Hin. apply HH1. cbn in Hin. rewrite Eu. apply list_elem_of_lookup in Hin as [m Hm].
      rewrite list_lookup_delete in Hm. case_decide; by eapply list_elem_of_lookup_2.
    + intros id' (i' & todo & cur & Hx). left. exists i', todo, cur. by right.
    + intros x [->|Hx]%elem_of_cons; [done|]. by apply HH1.
Qed.

Lemma vol_gets {B} i (f : Nvme.Volume -> B) (t : T) b t' :
  vol i (Nvme.gets f) t = Next b t' -> t' = t /\ exists v, vols t !! i = Some v /\ b = f v.
Proof.
  intros (v & v' & Hv & [= <- <-] & ->)%vol_next. split; [|by exists v]. rewrite list_insert_id by done. by destruct t.
Qed.

(** What [SegmentEntryKeys] lists. *)
Lemma entryKeys_next i id (t : T) es t' :
  vol i (NvmeSpill.SegmentEntryKeys id) t = Next es t' ->
  t' = t /\ (forall g, seg_at t i id g -> Nvme.s_entries g = es) /\ exists v, vols t !! i = Some v.
Proof.
  intros [-> (v & Hv & ->)]%vol_gets. split_and!; [done| |by exists v]. intros g (v0 & Hv0 & Hg). simplify_eq.
  rewrite sv_lookup in Hg. destruct (Nvme.segs v !! id); [|done]. by injection Hg as <-.
Qed.

Lemma Inv_markKeys i id todo l t es t' :
  Inv (TLatch id (PMark i todo None) :: l) t -> vol i (NvmeSpill.SegmentEntryKeys id) t = Next es t' ->
  Inv (TLatch id (PMark i (entryKey <$> es) None) :: l) t'.
Proof.
  intros Hi (-> & Hes & _)%entryKeys_next. apply (Inv_phase _ _ _ (PMark i todo None)); [|done|].
  { right; right. by eexists _, _, _. }
  pose proof (ho_tok _ _ _ _ (proj2 Hi) _ ltac:(left)) as (Ho & Hse & HN & _). cbn. split_and!; try done.
  intros k ns r He <- <- Hon. right. destruct (ho_home _ _ _ _ (proj2 Hi) _ _ _ He Hon) as (g & Hg & e & Hin & <-).
  rewrite <- (Hes _ Hg). by apply list_elem_of_fmap_2.
Qed.

(** The entries after one record has changed. *)
Lemma ents_set (t : T) q r r' k ns r1 :
  refs t !! q = Some r -> ents (set_refs (<[q := r']> (refs t)) t) !! k = Some (ns, r1) ->
  (cont t !! k = Some q /\ r1 = r' /\ ents t !! k = Some (ns, r)) \/ (cont t !! k <> Some q /\ ents t !! k = Some (ns, r1)).
Proof.
  intros Hr (-> & q' & Hq' & Hr1)%ents_lookup. change (cont t !! k = Some q') in Hq'. cbn in Hr1.
  destruct (decide (q = q')) as [<-|Hne].
  - rewrite lookup_insert_eq in Hr1. injection Hr1 as <-. left. split_and!; [done..|]. apply ents_lookup. split; [done|]. by exists q.
  - rewrite lookup_insert_ne in Hr1 by done. right. split; [congruence|]. apply ents_lookup. split; [done|]. by exists q'.
Qed.

(** Nobody else holds the latch. *)
Lemma latch_alone l t id ph x : Inv (TLatch id ph :: l) t -> x ∈ l -> latched x <> [id].
Proof.
  intros [_ HH] Hx El. destruct (ho_latch _ _ _ _ HH) as [_ Hn]. cbn in Hn. apply NoDup_cons in Hn as [Hn _]. apply Hn.
  apply elem_of_app. left. apply list_elem_of_bind. exists x. rewrite El. split; [by left|done].
Qed.

(** A record of the segment changes its flags: the other holders' facts stay. *)
Lemma token_flags t q r r' id x :
  refs t !! q = Some r -> Loc_ r' = Loc_ r -> segOf r = id -> latched x <> [id] -> token_ok t x ->
  token_ok (set_refs (<[q := r']> (refs t)) t) x.
Proof.
  intros Hr El Hid Hl Hx. pose proof (fun k ns r1 => ents_set t q r r' k ns r1 Hr) as Hes.
  assert (segOf r' = id) as Hid' by (unfold segOf in *; by rewrite El).
  destruct x as [| | | | | |id' ph| | | |q' id']; try done.
  - assert (id' <> id) as Hne by (intros ->; done). destruct ph as [|i todo cur|i fl todo|i es| |]; cbn in *; try done.
    + destruct Hx as (Ho & Hse & HN & Hf & Hc). split_and!; try done.
      * intros k ns r1 [(_ & -> & He)|[_ He]]%Hes; [congruence|by eapply Hf].
      * destruct cur as [[k q0]|]; [|done]. intros q' r1 Hq' Hr1. change (cont t !! k = Some q') in Hq'.
        destruct (decide (q = q')) as [<-|Hnq]; [|rewrite lookup_insert_ne in Hr1 by done; by eapply Hc].
        rewrite lookup_insert_eq in Hr1. injection Hr1 as <-. congruence.
    + destruct Hx as (Hg & Hf). split; [done|]. intros k ns r1 [(_ & -> & He)|[_ He]]%Hes; [congruence|by eapply Hf].
    + intros k ns r1 [(_ & -> & He)|[_ He]]%Hes; [congruence|by eapply Hx].
    + intros k ns r1 [(_ & -> & He)|[_ He]]%Hes; [congruence|by eapply Hx].
  - cbn in *. destruct Hx as (r0 & Hr0 & Hs0). destruct (decide (q = q')) as [<-|Hnq].
    + rewrite lookup_insert_eq. eexists. split; [done|]. congruence.
    + rewrite lookup_insert_ne by done. by exists r0.
Qed.

Lemma Inv_mark i id k todo q r l t :
  Inv (TLatch id (PMark i (k :: todo) (Some (k, q))) :: l) t -> refs t !! q = Some r -> segOf r = id ->
  Inv (TLatch id (PMark i todo None) :: l) (set_refs (<[q := set_S3 true r]> (refs t)) t).
Proof.
  intros Hi Hr Hid. pose proof Hi as [HA HH]. pose proof (fun k ns r1 => ents_set t q r (set_S3 true r) k ns r1 Hr) as Hes.
  pose proof (ho_tok _ _ _ _ HH _ ltac:(left)) as (Ho & Hse & HN & Hf & Hc). split.
  { eapply Acc_setRef; [|exact Hr|done].
    apply (Acc_weightless [TLatch id (PMark i (k :: todo) (Some (k, q)))] [TLatch id (PMark i todo None)] l t); try done.
    by intros x ->%list_elem_of_singleton. }
  destruct HH as [K1 K2 K3 K0 K4 K5 K6 K7 K8 K9 K10 K11 K13 K12]. split; try done.
  - intros k' ns r1 [(_ & -> & He)|[_ He]]%Hes; by eapply (K0 _ _ _ He).
  - intros k' ns r1 [(_ & -> & He)|[_ He]]%Hes; by eapply (K4 _ _ _ He).
  - intros k' ns r1 [(_ & -> & He)|[_ He]]%Hes; [done|by eapply (K5 _ _ _ He)].
  - intros k' ns r1 [(_ & -> & He)|[_ He]]%Hes; [intros _; cbn|by eapply (K6 _ _ _ He)]. by rewrite <- Hid in Ho.
  - intros k' ns r1 [(_ & -> & He)|[_ He]]%Hes Hs Hn.
    + right. exists i, todo, None. rewrite <- Hid. by left.
    + destruct (K7 _ _ _ He Hs Hn) as [?|(i' & todo' & cur' & [E|Hx]%elem_of_cons)]; [by left|right|right].
      * injection E as -> -> -> ->. exists i, todo, None. by left.
      * exists i', todo', cur'. by right.
  - intros k' ns r1 g [(_ & -> & He)|[_ He]]%Hes; by eapply (K8 _ _ _ _ He).
  - intros k' ns r1 g [(_ & -> & He)|[_ He]]%Hes; [done|by eapply (K9 _ _ _ _ He)].
  - intros x [->|Hx]%elem_of_cons.
    + cbn. split_and!; try done. intros k' ns r1 [(_ & -> & He)|[Hn He]]%Hes Hh Hs Hon; [by left|].
      destruct (Hf _ _ _ He Hh Hs Hon) as [?|[->|?]%elem_of_cons]; [by left| |by right]. exfalso. apply Hn.
      apply ents_lookup in He as (_ & q' & Hq' & Hr'). rewrite Hq'. f_equal. by eapply Hc.
    + eapply token_flags; [done..|by eapply latch_alone|]. apply K12. by right.
Qed.

Lemma Inv_remark id i todo todo' cur cur' l t :
  Inv (TLatch id (PMark i todo cur) :: l) t -> phase_ok t id (PMark i todo' cur') ->
  Inv (TLatch id (PMark i todo' cur') :: l) t.
Proof. intros Hi Hp. eapply Inv_phase; [|exact Hi|done]. right; right. by eexists _, _, _. Qed.

Lemma safe_markOne id i e todo :
  safe [TLatch id (PMark i (entryKey e :: todo) None)] (fun _ o => o = [TLatch id (PMark i todo None)]) (markOne id e).
Proof.
  unfold markOne. set (k := entryKey e). intros rest t o t' _ Hi [= <- <-]. rewrite (iget_cont p N _ _ _ Hi).
  pose proof (ho_tok _ _ _ _ (proj2 Hi) _ ltac:(left)) as (Ho & Hse & HN & Hf & _).
  destruct (cont t !! k) as [q|] eqn:Ek.
  2: { exists [TLatch id (PMark i todo None)]. split; [|done]. eapply Inv_remark; [exact Hi|]. cbn. split_and!; try done.
       intros k' ns r He Hh Hs Hon. destruct (Hf _ _ _ He Hh Hs Hon) as [?|[->|?]%elem_of_cons]; [by left| |by right].
       apply ents_lookup in He as (_ & q & Hq & _). congruence. }
  exists [TLatch id (PMark i (k :: todo) (Some (k, q)))]. split.
  { eapply Inv_remark; [exact Hi|]. cbn. split_and!; try done. intros q' r Hq'. congruence. }
  clear rest t Hi Ho Hse Hf Ek. intros rest t r t' _ Hi [-> Hr]%deref_next.
  pose proof (ho_tok _ _ _ _ (proj2 Hi) _ ltac:(left)) as (Ho & Hse & _ & Hf & Hc).
  fold (segOf r). destruct (Z.eqb_spec (segOf r) id) as [Es|Es].
  2: { exists [TLatch id (PMark i todo None)]. split; [|done]. eapply Inv_remark; [exact Hi|]. cbn. split_and!; try done.
       intros k' ns r' He Hh Hs Hon. destruct (Hf _ _ _ He Hh Hs Hon) as [?|[->|?]%elem_of_cons]; [by left| |by right].
       apply ents_lookup in He as (_ & q' & Hq' & Hr'). rewrite (Hc _ _ Hq' Hr' Hh Hs) in Hr'. congruence. }
  exists [TAt q id; TLatch id (PMark i (k :: todo) (Some (k, q)))]. split.
  { apply Inv_note; [done| |exact Hi]. by exists r. }
  clear rest t Hi Hr Ho Hse Hf Hc. intros rest t [] t' _ Hi (r' & t1 & [-> Hr']%deref_next & [= <-])%next_bind.
  exists [TLatch id (PMark i todo None)]. split; [|done].
  destruct (ho_tok _ _ _ _ (proj2 Hi) _ ltac:(left)) as (r0 & Hr0 & Hs0). rewrite Hr' in Hr0. injection Hr0 as <-.
  apply (Inv_mark _ _ k); [|done..]. by apply (Inv_dropFact p N (TAt q id)).
Qed.

Lemma safe_markAll id i es :
  safe [TLatch id (PMark i (entryKey <$> es) None)] (fun _ o => o = [TLatch id (PMark i [] None)]) (forEach (markOne id) es).
Proof.
  induction es as [|e es IH]; [done|]. cbn [forEach]. eapply safe_bind; [apply safe_markOne|]. intros _ o ->. apply IH.
Qed.

(** ** Segments that change *)

Lemma vols_set (t : T) i v v' : vols t !! i = Some v -> vols (set_vols (<[i := v']> (vols t)) t) !! i = Some v'.
Proof. intros Hv. cbn. apply list_lookup_insert_eq. by eapply lookup_lt_Some. Qed.

(** The volumes after one of them changed one segment. *)
Lemma onlySeg_set (t : T) i v v' id :
  vols t !! i = Some v -> Nvme.nextID v' = Nvme.nextID v -> (forall id', id' <> id -> sv v' !! id' = sv v !! id') ->
  (forall g', sv v' !! id = Some g' -> Nvme.s_sealed g' = true /\
    ((exists g, sv v !! id = Some g /\ Nvme.s_entries g' = Nvme.s_entries g /\ (Nvme.s_spilled g = true -> Nvme.s_spilled g' = true)) \/
     Nvme.s_spilled g' = true /\ Spill p = true)) ->
  onlySeg p i id t (set_vols (<[i := v']> (vols t)) t).
Proof.
  intros Hv Hn Hs Hg. split.
  - cbn. by rewrite length_insert.
  - cbn. intros j w [[-> [<- _]]|[Hne Hw]]%list_lookup_insert_Some.
    + exists v. split_and!; [done..|]. intros id' Hne. apply Hs. by intros ->.
    + exists w. split_and!; done.
  - intros g' (w & Hw & Hg'). rewrite (vols_set _ _ _ _ Hv) in Hw. injection Hw as <-. destruct (Hg _ Hg') as [? [(g & ? & ?)|?]].
    + split; [done|left]. exists g. split; [by exists v|done].
    + split; [done|by right].
Qed.

(** The invariant of the volumes after one of them changed. *)
Lemma ho_vol_set l t i v v' :
  Home l t -> vols t !! i = Some v -> Nvme.reqs v' = Nvme.reqs v -> volume_ok v' ->
  forall j w, vols (set_vols (<[i := v']> (vols t)) t) !! j = Some w ->
    volume_ok w /\ (length (Nvme.reqs w) <= 128)%nat /\ forall r, r ∈ Nvme.reqs w -> queued N (set_vols (<[i := v']> (vols t)) t) j r.
Proof.
  intros HH Hv Er Ho j w. cbn. intros [[-> [<- _]]|[Hne Hw]]%list_lookup_insert_Some; [|by apply HH].
  rewrite Er. split; [done|]. by apply HH.
Qed.

Lemma home_one k i (t : T) : N = 1%nat -> length (vols t) = N -> is_Some (vols t !! i) -> home N k = i.
Proof.
  intros -> Hl [v Hv]. apply lookup_lt_Some in Hv. unfold home, volIx.
  destruct (le_get 8 (Hash k)); [rewrite Z.mod_1_r|]; cbn; lia.
Qed.

Lemma latch_only l t id ph ph' : Inv (TLatch id ph :: l) t -> TLatch id ph' ∈ TLatch id ph :: l -> ph' = ph.
Proof.
  intros Hi [E|Hx]%elem_of_cons; [by injection E|]. exfalso. by eapply (latch_alone _ _ _ _ _ Hi Hx).
Qed.

Lemma sealed_at (t : T) i id v g : sealed_if t i id -> vols t !! i = Some v -> sv v !! id = Some g -> Nvme.s_sealed g = true.
Proof. intros (v0 & Hv0 & _ & Hs) Hv Hg. simplify_eq. by apply Hs. Qed.

Lemma Inv_markSpilled i id l t b t' :
  Inv (TLatch id (PMark i [] None) :: l) t -> vol i (Nvme.MarkSpilled id) t = Next b t' -> Inv (TLatch id PHeld :: l) t'.
Proof.
  intros Hi (v & v' & Hv & E & ->)%vol_next. apply MarkSpilled_view in E. injection E as Es En Er _ Ea.
  pose proof Hi as [HA HH]. pose proof (ho_tok _ _ _ _ HH _ ltac:(left)) as (Ho & Hse & HN & Hf & _).
  assert (forall k, home N k = i) as Hh by (intros k; apply (home_one k i t); [done|apply HH|by exists v]).
  set (t' := set_vols _ t).
  assert (forall g', seg_at t' i id g' <-> exists g, sv v !! id = Some g /\ g' = Nvme.with_spilled g) as Hat.
  { intros g'. unfold seg_at, t'. setoid_rewrite (vols_set _ _ _ _ Hv). split.
    - intros (w & [= <-] & Hg). rewrite Es, lookup_alter_eq in Hg. destruct (sv v !! id) as [g|]; [|done]. injection Hg as <-. by exists g.
    - intros (g & Hg & ->). exists v'. split; [done|]. by rewrite Es, lookup_alter_eq, Hg. }
  assert (onlySeg p i id t t') as Hos.
  { apply onlySeg_set with v; [done..| |].
    - intros id' Hne. by rewrite Es, lookup_alter_ne.
    - intros g'. rewrite Es, lookup_alter_eq. destruct (sv v !! id) as [g|] eqn:Eg; [|done]. intros [= <-]. cbn.
      split; [by eapply sealed_at|]. left. by exists g. }
  assert (Home (TLatch id (PMark i [] None) :: l) t') as HH'.
  { apply (Home_onlySeg _ _ _ t _ i id); try done.
    - apply (ho_vol_set (TLatch id (PMark i [] None) :: l) t i v v' HH Hv Er).
      destruct (ho_vol _ _ _ _ HH _ _ Hv) as ([O1 O2 O3] & _). split; rewrite ?Es, ?En, ?Ea; [done|..].
      + intros id' Hid. destruct (O2 _ Hid) as (g & Hg & Hs). destruct (decide (id = id')) as [<-|Hne].
        * rewrite lookup_alter_eq, Hg. by eexists.
        * rewrite lookup_alter_ne by done. by exists g.
      + intros id' g'. destruct (decide (id = id')) as [<-|Hne]; [|rewrite lookup_alter_ne by done; by apply O3].
        rewrite lookup_alter_eq. destruct (sv v !! id) as [g|] eqn:Eg; [|done]. intros [= <-]. cbn.
        destruct (O3 _ _ Eg) as [? _]. split; [done|]. by rewrite (sealed_at _ _ _ _ _ Hse Hv Eg).
    - intros ph ->%(latch_only _ _ _ _ _ Hi). cbn. split_and!; try done. by eapply os_sealed.
    - intros k ns r He _ Hs. split_and!.
      + intros Hon. destruct (ho_home _ _ _ _ HH _ _ _ He Hon) as (g & (v0 & Hv0 & Hg) & Hl). rewrite Hh in Hv0. rewrite Hs in Hg.
        simplify_eq. exists (Nvme.with_spilled g). split; [apply Hat; by exists g|done].
      + intros _ _. right. exists i, [], None. by left.
      + intros g (g0 & _ & ->)%Hat _. done.
      + intros g _ _. destruct (S3Only r) eqn:Eon; [by eapply (ho_s3 _ _ _ _ HH)|].
        destruct (Hf _ _ _ He (Hh k) Hs Eon) as [?|Hx]; [done|]. by apply not_elem_of_nil in Hx. }
  split.
  - apply (Acc_weightless [TLatch id (PMark i [] None)] [TLatch id PHeld] l t); try done. by intros x ->%list_elem_of_singleton.
  - apply (Home_swap _ _ [TLatch id (PMark i [] None)] [TLatch id PHeld] l); try done.
    + intros id' (i' & todo' & cur' & [= <- _ _ _]%list_elem_of_singleton). right. intros k ns r He Hs Hon Hid.
      rewrite Hh. destruct (ho_home _ _ _ _ HH _ _ _ He Hon) as (g & (v0 & Hv0 & Hg) & Hl). rewrite Hh in Hv0. rewrite Hid in Hg.
      simplify_eq. exists (Nvme.with_spilled g). split; [apply Hat; by exists g|done].
    + by intros x ->%list_elem_of_singleton.
Qed.

Lemma safe_unlatch {C} id ph own Q (k : unit -> prog C) :
  not_mark ph -> safe own Q (k tt) -> safe (TLatch id ph :: own) Q (u ⇐ unlatch id; k u).
Proof.
  intros Hp Hk. apply (safe_act _ _ _ (fun _ => own)); [|by intros []]. intros l t b t' _ Hi E. eapply Inv_unlatch; [exact Hp|exact Hi|done].
Qed.

Lemma safe_onUp j up own : safe own (back own) (onUp j up).
Proof.
  intros rest t o t' _ Hi E. pose proof (Inv_takeUpload _ _ _ _ _ _ Hi E) as Ht.
  destruct o as [[i id]|]; [|exists own; split; [congruence|done]]. destruct Ht as (_ & todo & Hi').
  exists (TLatch id (if up then PMark i todo None else PHeld) :: own). split; [done|]. clear rest t t' Hi E Hi'.
  eapply safe_bind with (P := back (TLatch id PHeld :: own)); [|by intros _ o ->; apply safe_unlatch].
  destruct up; [|done].
  apply (safe_act _ _ _ (fun es : list footerEntry => TLatch id (PMark i (entryKey <$> es) None) :: own)).
  { intros l t es t' _ Hi E. by eapply Inv_markKeys. }
  intros es. eapply safe_bind; [exact (safe_frame _ _ own _ _ _ (safe_markAll id i es))|]. intros _ o (o' & -> & ->).
  apply (safe_act _ _ _ (fun _ => TLatch id PHeld :: own)); [|done]. intros l t b t' _ Hi E. eapply Inv_markSpilled; [exact Hi|exact E].
Qed.

(** ** Retirement *)

Lemma Inv_retireFinish i id fl l t b t' :
  Inv (TLatch id (PRetire i fl []) :: l) t -> vol i (@Nvme.RetireFinish (volWorld i) id) t = Next b t' ->
  Inv (TLatch id PHeld :: l) t'.
Proof.
  intros Hi (v & v' & Hv & E & ->)%vol_next. pose proof Hi as [HA HH].
  pose proof (ho_tok _ _ _ _ HH _ ltac:(left)) as ((g & (v0 & Hv0 & Hg) & Hsl & _) & Hf). simplify_eq.
  assert (Inv (TLatch id PHeld :: l) t) as Hi' by (by apply (Inv_phase _ _ id (PRetire i fl [])); [left| |]). clear HA HH.
  apply RetireFinish_view in E as [[-> ->]|[-> E]].
  { rewrite list_insert_id by done. by destruct t. }
  injection E as Es En Er _ Ea. destruct Hi' as [HA HH]. split; [by apply (Acc_same _ t); [|apply same_below_refl|]|].
  set (t' := set_vols _ t).
  assert (forall g', ~ seg_at t' i id g') as Hat.
  { intros g' (w & Hw & Hg'). unfold t' in Hw. rewrite (vols_set _ _ _ _ Hv) in Hw. injection Hw as <-.
    by rewrite Es, lookup_delete_eq in Hg'. }
  apply (Home_onlySeg _ _ _ t _ i id); try done.
  - apply onlySeg_set with v; [done..| |].
    + intros id' Hne. by rewrite Es, lookup_delete_ne.
    + intros g'. by rewrite Es, lookup_delete_eq.
  - apply (ho_vol_set (TLatch id PHeld :: l) t i v v' HH Hv Er).
    destruct (ho_vol _ _ _ _ HH _ _ Hv) as ([O1 O2 O3] & _). split; rewrite ?Es, ?En, ?Ea; [done|..].
    + intros id' Hid. destruct (O2 _ Hid) as (g1 & Hg1 & Hs1). destruct (decide (id = id')) as [<-|Hne]; [congruence|].
      rewrite lookup_delete_ne by done. by exists g1.
    + intros id' g' [_ Hg']%lookup_delete_Some. by apply O3.
  - intros ph Hph. apply elem_of_cons in Hph as [[= ->]|Hph]; [done|]. exfalso. by eapply (latch_alone _ _ _ _ _ Hi Hph).
  - intros g' e Hg'. by apply Hat in Hg'.
  - intros k ns r He Hh Hs. assert (S3Only r = true) as Hon.
    { destruct (Hf _ _ _ He Hh Hs) as [?|Hx]; [done|]. by apply not_elem_of_nil in Hx. }
    split_and!; try (intros; congruence); intros g' Hg'; by apply Hat in Hg'.
Qed.

(** ** Moving an entry between NVMe and the object tier *)

Definition tierIf (b : bool) : Z := if b then Registry.TierS3 else Registry.TierNVMe.
Definition sgn (b : bool) : Z := if b then 1 else -1.

(** What [s3FlipRetired] and [s3FlipRestored] do for one entry. *)
Definition flipOne (b : bool) (ns id ref : Z) (r : nvmeRef) : act bool :=
  quotas (fun q => Quotas.Transfer q ns (tierIf (negb b)) (tierIf b) (Len r));;
  setRef ref (set_S3Only b r);;
  put (fun t => set_s3Blocks (s3Blocks t + sgn b) t);;
  put (fun t => set_s3Bytes (s3Bytes t + sgn b * Len r) t);;
  s3SegAdd id (sgn b).

(** The state it leaves, before the accountant. *)
Definition flipped (b : bool) (id q : Z) (r : nvmeRef) (t : T) : T :=
  let n := default 0 (segRefs t !! id) + sgn b in
  set_segRefs (if n <=? 0 then delete id (segRefs t) else <[id := n]> (segRefs t))
    (set_s3Bytes (s3Bytes t + sgn b * Len r) (set_s3Blocks (s3Blocks t + sgn b)
      (set_refs (<[q := set_S3Only b r]> (refs t)) t))).

Lemma flipOne_next b ns id q r t z t' :
  flipOne b ns id q r t = Next z t' ->
  match Dram.quotas (d t) with
  | None => t' = flipped b id q r t
  | Some qs => t' = with_quotas (Some (Quotas.Transfer qs ns (tierIf (negb b)) (tierIf b) (Len r))) (flipped b id q r t)
  end.
Proof.
  intros (u & t1 & E1 & E2)%next_bind. apply quotas_next in E1 as [[-> ->]|(qs & -> & ->)]; injection E2 as _ <-; done.
Qed.

Lemma flip_weights b r : S3Only r = negb b ->
  isOnly (set_S3Only b r) - isOnly r = sgn b /\ onlyBytes (set_S3Only b r) - onlyBytes r = sgn b * Len r /\
  (forall id, onlyIn id (set_S3Only b r) - onlyIn id r = if segOf r =? id then sgn b else 0) /\
  forall ns tier ns', charged ns tier ns' (set_S3Only b r) - charged ns tier ns' r =
    (if (ns =? ns') && (tier =? tierIf b) then Len r else 0) - (if (ns =? ns') && (tier =? tierIf (negb b)) then Len r else 0).
Proof.
  intros E. unfold isOnly, onlyBytes, onlyIn, charged, tierOf, segOf. rewrite E. cbn [S3Only set_S3Only Len Loc_].
  split_and!; [destruct b; cbn; lia..|intros; destruct b; cbn; case_if; lia|]. intros ns tier ns'.
  rewrite (Z.eqb_sym ns' ns), (Z.eqb_sym tier (tierIf b)), (Z.eqb_sym tier (tierIf (negb b))).
  destruct b, (ns =? ns'); cbn [negb tierIf andb]; lia.
Qed.

(** Only that record changed, and its length did not. *)
Lemma Acc_flip l t k q r b qs :
  legal t = true -> Acc l t -> cont t !! k = Some q -> refs t !! q = Some r -> S3Only r = negb b ->
  Dram.quotas (d t) = qs ->
  Acc l (with_quotas ((fun qs => Quotas.Transfer qs (NS k) (tierIf (negb b)) (tierIf b) (Len r)) <$> qs) (flipped b (segOf r) q r t)).
Proof.
  intros Hl HA Hk Hr Hb Eq. pose proof (flip_weights b r Hb) as (W1 & W2 & W3 & W4).
  set (t' := with_quotas _ _). set (r' := set_S3Only b r) in *.
  assert (forall f, esum f t' = esum f t - f (NS k) r + f (NS k) r') as He.
  { intros f. change (esum f t') with (esum f (set_refs (<[q := r']> (refs t)) t)). apply esum_set; [|done..].
    intros k'. apply (ac_inj _ _ HA). }
  assert (In_pos : forall id, 0 <= esum (fun _ => onlyIn id) t + total (wSeg id) l + rsum (fun _ => onlyIn id) t).
  { intros id. pose proof (segs_pos l id). pose proof (esum_pos _ t (fun _ => onlyIn id) HA ltac:(intros; apply onlyIn_pos)).
    pose proof (rsum_pos _ t (fun _ => onlyIn id) HA ltac:(intros; apply onlyIn_pos)). lia. }
  destruct (ac_rec _ _ HA _ _ Hr) as [Hptr Hpos]. pose proof HA as HA0.
  destruct HA as [K1 K2 K3 K4 K5 K5' K6 K7 K8 K9 K10 K11 K12].
  split; try done.
  - intros k' q' Hk'. destruct (K2 k' q' Hk') as [r0 E0]. cbn. destruct (decide (q = q')) as [<-|Hne];
      [by rewrite lookup_insert_eq|by rewrite lookup_insert_ne].
  - intros q' r0. cbn. intros [[<- <-]|[_ Hq']]%lookup_insert_Some; [done|by apply K3].
  - intros x Hx. specialize (K5 _ Hx). destruct x as [ns q' r0| | | | | | | | | |]; try done.
    destruct K5 as [(r1 & Hr1 & Hf1) Hn]. split; [|done]. cbn. rewrite lookup_insert_ne; [by exists r1|].
    intros <-. by apply (Hn k).
  - rewrite He. change (idx t') with (idx t). lia.
  - rewrite He. change (idx t') with (idx t). cbn. lia.
  - rewrite He. change (s3Blocks t') with (s3Blocks t + sgn b). change (rsum (fun _ => isOnly) t') with (rsum (fun _ => isOnly) t). lia.
  - rewrite He. change (s3Bytes t') with (s3Bytes t + sgn b * Len r).
    change (rsum (fun _ => onlyBytes) t') with (rsum (fun _ => onlyBytes) t). lia.
  - intros id. rewrite He. change (rsum (fun _ => onlyIn id) t') with (rsum (fun _ => onlyIn id) t).
    change (segRefs t') with (if default 0 (segRefs t !! segOf r) + sgn b <=? 0 then delete (segOf r) (segRefs t)
      else <[segOf r := default 0 (segRefs t !! segOf r) + sgn b]> (segRefs t)).
    assert (0 <= default 0 (segRefs t !! segOf r) + sgn b) as Hn.
    { destruct b; cbn [sgn]; [rewrite K10; pose proof (In_pos (segOf r)); lia|]. rewrite K10.
      pose proof (segs_pos l (segOf r)). pose proof (rsum_pos _ t (fun _ => onlyIn (segOf r)) HA0 ltac:(intros; apply onlyIn_pos)).
      assert (1 <= esum (fun _ => onlyIn (segOf r)) t); [|lia]. unfold esum.
      replace 1 with ((fun e : Z * nvmeRef => onlyIn (segOf r) e.2) (NS k, r)) by (cbn; unfold onlyIn; by rewrite Hb, Z.eqb_refl).
      apply (msum_elem (fun e : Z * nvmeRef => onlyIn (segOf r) e.2) (ents t) k (NS k, r)); [intros; apply onlyIn_pos|].
      apply ents_lookup. split; [done|]. by exists q. }
    rewrite segRefs_set by done. specialize (W3 id). pose proof (K10 id).
    destruct (decide (segOf r = id)) as [<-|Hne]; [rewrite Z.eqb_refl in W3; lia|].
    replace (segOf r =? id) with false in W3 by lia. lia.
  - cbn [with_quotas d set_d Dram.quotas Dram.set_quotas]. rewrite Eq in K12. destruct qs as [qs|]; [|done].
    cbn [fmap option_fmap option_map]. destruct K12 as [Kq Ku].
    assert (forall tier, low tier -> 0 <= Usage qs (NS k) tier) as Hu0.
    { intros tier Ht. rewrite (Ku _ _ Ht). pose proof (esum_pos _ t (charged (NS k) tier) HA0 ltac:(intros; by apply charged_pos)).
      pose proof (rsum_pos _ t (charged (NS k) tier) HA0 ltac:(intros; by apply charged_pos)).
      pose proof (total_pos (wCharge (NS k) tier) l ltac:(intros; by eapply wCharge_pos)). lia. }
    assert (forall c, low (tierIf c)) as Hlow by (intros []; [by right|by left]).
    assert (Len r <= Usage qs (NS k) (tierIf (negb b))) as Hle.
    { rewrite (Ku _ _ (Hlow _)). pose proof (rsum_pos _ t (charged (NS k) (tierIf (negb b))) HA0 ltac:(intros; by apply charged_pos)).
      pose proof (total_pos (wCharge (NS k) (tierIf (negb b))) l ltac:(intros; by eapply wCharge_pos)).
      assert (Len r <= esum (charged (NS k) (tierIf (negb b))) t); [|lia]. unfold esum.
      replace (Len r) with ((fun e : Z * nvmeRef => charged (NS k) (tierIf (negb b)) e.1 e.2) (NS k, r))
        by (cbn; unfold charged, tierOf; rewrite Hb, Z.eqb_refl; destruct b; done).
      apply (msum_elem (fun e : Z * nvmeRef => charged (NS k) (tierIf (negb b)) e.1 e.2) (ents t) k (NS k, r)).
      - intros k' [ns' r0] Hk'. apply charged_pos. by eapply ents_pos.
      - apply ents_lookup. split; [done|]. by exists q. }
    pose proof (legal_small _ _ (NS k) (tierIf b) Hl Eq (Hlow b)). pose proof (legal_small _ _ (NS k) (tierIf (negb b)) Hl Eq (Hlow _)).
    destruct (Transfer_low qs (NS k) (tierIf (negb b)) (tierIf b) (Len r)) as [Hq' Hu'];
      [done|apply Hlow|by apply low_ok, Hlow|by destruct b|done|apply Hu0, Hlow|lia|lia|by left|].
    split; [done|]. intros ns tier Ht. rewrite (Hu' _ _ Ht), (Ku _ _ Ht), He. specialize (W4 ns tier (NS k)).
    change (rsum (charged ns tier) t') with (rsum (charged ns tier) t). lia.
Qed.

(** A local entry of a spilled segment under retirement goes to the object tier. *)
Lemma Home_flipUp i id k todo q r l t :
  N = 1%nat -> Inv (TLatch id (PRetire i true (k :: todo)) :: l) t -> cont t !! k = Some q -> refs t !! q = Some r ->
  segOf r = id -> S3 r = true ->
  Home (TLatch id (PRetire i true todo) :: l) (set_refs (<[q := set_S3Only true r]> (refs t)) t).
Proof.
  intros HN Hi Hk Hr Hid Hs3. pose proof Hi as [HA HH].
  pose proof (fun k ns r1 => ents_set t q r (set_S3Only true r) k ns r1 Hr) as Hes.
  pose proof (ho_tok _ _ _ _ HH _ ltac:(left)) as ((g & Hg & Hsl & Hsp) & Hf).
  assert (forall k, home N k = i) as Hh.
  { destruct Hg as (v & Hv & _). intros k'. apply (home_one k' i t); [done|apply HH|by exists v]. }
  assert (forall x, x ∈ l -> latched x <> [id]) as Hal by (intros x; by eapply latch_alone).
  destruct HH as [K1 K2 K3 K0 K4 K5 K6 K7 K8 K9 K10 K11 K13 K12]. split; try done.
  - intros k' ns r1 [(_ & -> & He)|[_ He]]%Hes; by eapply (K0 _ _ _ He).
  - intros k' ns r1 [(_ & -> & He)|[_ He]]%Hes; [done|by eapply (K4 _ _ _ He)].
  - intros k' ns r1 [(_ & -> & He)|[_ He]]%Hes; [done|by eapply (K5 _ _ _ He)].
  - intros k' ns r1 [(_ & -> & He)|[_ He]]%Hes; by eapply (K6 _ _ _ He).
  - intros k' ns r1 [(_ & -> & He)|[_ He]]%Hes Hs Hn; [done|].
    destruct (K7 _ _ _ He Hs Hn) as [?|(i' & todo' & cur' & [E|Hx]%elem_of_cons)]; [by left|done|right].
    exists i', todo', cur'. by right.
  - intros k' ns r1 g' [(_ & -> & He)|[_ He]]%Hes Hon Hg'; [|by eapply (K8 _ _ _ _ He)].
    change (seg_at t (home N k') (segOf r) g') in Hg'. rewrite Hh, Hid in Hg'. destruct Hg as (v & Hv & Hg), Hg' as (v' & Hv' & Hg').
    simplify_eq. by apply Hsp.
  - intros k' ns r1 g' [(_ & -> & He)|[_ He]]%Hes; [done|by eapply (K9 _ _ _ _ He)].
  - intros x [->|Hx]%elem_of_cons.
    + cbn. split; [by exists g|]. intros k' ns r1 [(_ & -> & He)|[Hn He]]%Hes _ Hs; [by left|].
      destruct (Hf _ _ _ He (Hh _) Hs) as [?|[->|?]%elem_of_cons]; [by left|done|by right].
    + eapply token_flags; [done..|by apply Hal|]. apply K12. by right.
Qed.

(** An entry of a restored segment comes back. *)
Lemma Home_flipDown i id e es q r l t :
  Inv (TLatch id (PLive i es) :: l) t -> e ∈ es -> cont t !! entryKey e = Some q -> refs t !! q = Some r ->
  segOf r = id -> S3Only r = true ->
  Home (TLatch id (PLive i es) :: l) (set_refs (<[q := set_S3Only false r]> (refs t)) t).
Proof.
  intros Hi Hin Hk Hr Hid Hon. pose proof Hi as [HA HH].
  pose proof (fun k ns r1 => ents_set t q r (set_S3Only false r) k ns r1 Hr) as Hes.
  pose proof (ho_tok _ _ _ _ HH _ ltac:(left)) as (g & Hg & Hsub). apply Hsub in Hin as Hin'.
  pose proof (ho_list _ _ _ _ HH _ _ _ _ Hg Hin') as Hh.
  assert (ents t !! entryKey e = Some (NS (entryKey e), r)) as Het by (apply ents_lookup; split; [done|by exists q]).
  assert (forall k', cont t !! k' = Some q -> k' = entryKey e) as Hinj by (intros; by eapply (ac_inj _ _ HA)).
  assert (seg_at t (home N (entryKey e)) (segOf r) g) as Hg2 by (rewrite Hh, Hid; done).
  assert (forall x, x ∈ l -> latched x <> [id]) as Hal by (intros x; by eapply latch_alone).
  destruct HH as [K1 K2 K3 K0 K4 K5 K6 K7 K8 K9 K10 K11 K13 K12]. split; try done.
  - intros k' ns r1 [(_ & -> & He)|[_ He]]%Hes; by eapply (K0 _ _ _ He).
  - intros k' ns r1 [(Hq & -> & He)|[_ He]]%Hes Ho; [|by eapply (K4 _ _ _ He)]. rewrite (Hinj _ Hq). exists g. split; [done|].
    by exists e.
  - intros k' ns r1 [(_ & -> & He)|[_ He]]%Hes; [done|by eapply (K5 _ _ _ He)].
  - intros k' ns r1 [(_ & -> & He)|[_ He]]%Hes; by eapply (K6 _ _ _ He).
  - intros k' ns r1 [(Hq & -> & He)|[_ He]]%Hes Hs Hn.
    + left. rewrite (Hinj _ Hq). exists g. split; [done|]. by eapply (K8 _ _ _ _ Het).
    + destruct (K7 _ _ _ He Hs Hn) as [?|(i' & todo' & cur' & [E|Hx]%elem_of_cons)]; [by left|done|right].
      exists i', todo', cur'. by right.
  - intros k' ns r1 g' [(_ & -> & He)|[_ He]]%Hes; [done|by eapply (K8 _ _ _ _ He)].
  - intros k' ns r1 g' [(_ & -> & He)|[_ He]]%Hes; by eapply (K9 _ _ _ _ He).
  - intros x [->|Hx]%elem_of_cons; [by exists g|]. eapply token_flags; [done..|by apply Hal|]. apply K12. by right.
Qed.

Lemma Inv_flip l t k q r b z t' :
  legal t = true -> Acc l t -> cont t !! k = Some q -> refs t !! q = Some r -> S3Only r = negb b ->
  Home l (set_refs (<[q := set_S3Only b r]> (refs t)) t) -> flipOne b (NS k) (segOf r) q r t = Next z t' -> Inv l t'.
Proof.
  intros Hl HA Hk Hr Hon HH E. pose proof (Acc_flip l t k q r b _ Hl HA Hk Hr Hon eq_refl) as HA2. apply flipOne_next in E.
  destruct (Dram.quotas (d t)) as [qs|] eqn:Eq; subst t';
    (split; [|by apply (Home_same _ _ _ (set_refs (<[q := set_S3Only b r]> (refs t)) t))]); [done|].
  eapply Acc_same; [| |exact HA2]; [done|]. cbn. by rewrite Eq.
Qed.

End Cold.
End TieredCold.
