(* ===== verification/TieredRetire.v ===== *)
(** Reclaim keeps the invariant of the tiers: a segment is retired only when no
    local entry needs it. *)

From Stdlib Require Import ZArith Lia.
From coqutil Require Import Byte.
From stdpp Require Import base numbers list gmap sets.
From S2P Require Import Prelude.
From S2P Require Import Conc.
From S2P Require Import Wire.
From S2P Require Import Tenant.
From S2P Require Import Eviction.
From S2P Require Import BlockRef.
From S2P Require Import Index.
From S2P Require Import DramStore.
From S2P Require Import NvmeFormat.
From S2P Require Import NvmeVolume.
From S2P Require Import NvmeSpill.
From S2P Require Import NvmeIndex.
From S2P Require Import Tiered.
From S2P Require Import TieredVol.
From S2P Require Import TieredDram.
From S2P Require Import TieredInv.
From S2P Require Import TieredActs.
From S2P Require Import TieredMoves.
From S2P Require Import TieredSurface.
From S2P Require Import TieredLatch.
From S2P Require Import TieredCold.
Import Conc Ops Eviction Seg NvmeIndex Tiered TieredVol TieredDram TieredInv TieredActs TieredMoves TieredSurface TieredLatch TieredCold.
Open Scope Z_scope.
Open Scope go_scope.
Open Scope conc_scope.

Module TieredRetire.

Section Retire.
Context {A P : Type} `{!Dram.ExtentAlloc A} `{!Policy P} `{!Index.IndexEnv} `{!Xxh3} `{!Outside}.
Context (time : nat -> Z) (vp : nat -> Nvme.VolumeParams) (p : Params) (N : nat).

Abbreviation T := (Tiered A P).
Abbreviation act := (act T).
Abbreviation prog := (prog T).
Abbreviation Inv := (Inv (A := A) (P := P) N (Spill p)).
Abbreviation Home := (Home (A := A) (P := P) N (Spill p)).
Abbreviation phase_ok := (phase_ok (A := A) (P := P) N).
Abbreviation calm := (calm (A := A) (P := P) p N).
Abbreviation keeps := (keeps (A := A) (P := P) p N).
Abbreviation safe := (safe (legal (A := A) (P := P)) Inv).
Abbreviation back own := (fun _ o => o = own).

(** ** The walk that moves entries to the object tier *)

Lemma now_next (t : T) z t' : now time t = Next z t' -> legal t' = legal t /\ refs t' = refs t /\ cont t' = cont t /\ vols t' = vols t.
Proof. intros [= _ <-]. done. Qed.

Lemma Inv_flipRetired i id e st todo l t n t' :
  N = 1%nat -> legal t = true -> Inv (TLatch id (PRetire i true (entryKey e :: todo)) :: l) t -> 0 <= st ->
  flipRetired time id st e t = Next n t' ->
  st <= n /\ exists todo', Inv (TLatch id (PRetire i true todo') :: l) t' /\ (n <= 0 -> todo' = todo).
Proof.
  intros HN Hl Hi Hst E. unfold flipRetired, withShardLock in E. set (k := entryKey e) in *.
  apply next_bind in E as (o & t1 & [= <- <-] & E). rewrite (iget_cont p N _ _ _ Hi) in E.
  pose proof (ho_tok _ _ _ _ (proj2 Hi) _ ltac:(left)) as (Hg & Hf).
  assert (forall ph, phase_ok t id ph -> Inv (TLatch id ph :: l) t) as Hph
    by (intros ph; apply (Inv_phase _ _ id (PRetire i true (k :: todo))); [by left|done]).
  assert (forall q r, cont t !! k = Some q -> refs t !! q = Some r -> segOf r <> id \/ S3Only r = true ->
    phase_ok t id (PRetire i true todo)) as Hdrop.
  { intros q r Hq Hr Hor. split; [done|]. intros k' ns r' He Hh Hs.
    destruct (Hf _ _ _ He Hh Hs) as [?|[->|?]%elem_of_cons]; [by left| |by right].
    apply ents_lookup in He as (_ & q' & Hq' & Hr'). simplify_eq. left. by destruct Hor. }
  destruct (cont t !! k) as [q|] eqn:Ek.
  2: { injection E as <- <-. split; [done|]. exists todo. split; [|done]. apply Hph. split; [done|]. intros k' ns r' He Hh Hs.
       destruct (Hf _ _ _ He Hh Hs) as [?|[->|?]%elem_of_cons]; [by left| |by right].
       apply ents_lookup in He as (_ & q' & Hq' & _). congruence. }
  apply next_bind in E as (r & t1 & [-> Hr]%deref_next & E). fold (segOf r) in E.
  destruct (negb (segOf r =? id) || S3Only r) eqn:Eor.
  { injection E as <- <-. split; [done|]. exists todo. split; [|done]. apply Hph, (Hdrop q r); [done..|].
    apply orb_true_iff in Eor as [Eor|?]; [left|by right]. apply negb_true_iff, Z.eqb_neq in Eor. done. }
  apply orb_false_iff in Eor as [Es Eon]. apply negb_false_iff, Z.eqb_eq in Es.
  destruct (0 <? st) eqn:Est; [injection E as <- <-; split; [done|]; eexists; split; [exact Hi|lia]|].
  apply next_bind in E as (z & t1 & En & E). pose proof (calm_now time p N _ _ _ _ Hi En) as Hi1.
  destruct (now_next _ _ _ En) as (El1 & Er1 & Ec1 & _).
  destruct (negb (S3 r) || leased r z || pinned r) eqn:Ep.
  { injection E as <- <-. split; [lia|]. eexists. split; [exact Hi1|lia]. }
  apply orb_false_iff in Ep as [Ep _]. apply orb_false_iff in Ep as [Ep _]. apply negb_false_iff in Ep.
  assert (exists z2, flipOne true (NS k) (segOf r) q r t1 = Next z2 t' /\ n = st) as (z2 & Eflip & ->).
  { rewrite Es. unfold flipOne. cbn [sgn]. rewrite Z.mul_1_l. clear -E. unfold mbind, act_bind in *.
    destruct (quotas _ t1) as [u1 s1| | |]; try done. cbn in E |- *. injection E as <- <-. by eexists. }
  split; [done|]. exists todo. split; [|done]. rewrite <- Er1 in Hr. rewrite <- Ec1 in Ek.
  eapply (Inv_flip p N _ t1 k q r true); [congruence| |done..| |exact Eflip].
  - apply (Acc_weightless [TLatch id (PRetire i true (k :: todo))] [TLatch id (PRetire i true todo)] l t1); try done; [|apply Hi1].
    by intros x ->%list_elem_of_singleton.
  - by apply (Home_flipUp p N i id k).
Qed.

Lemma flipRetired_stranded id e st (t : T) n t' : 0 < st -> flipRetired time id st e t = Next n t' -> n = st /\ t' = t.
Proof.
  intros Hst E. unfold flipRetired, withShardLock in E. apply next_bind in E as (o & t1 & [= <- <-] & E).
  destruct (Index.Get (idx t) (entryKey e)) as [q|]; [|by injection E as <- <-].
  apply next_bind in E as (r & t1 & [-> _]%deref_next & E).
  destruct (negb (SegmentID (Loc_ r) =? id) || S3Only r); [by injection E as <- <-|].
  replace (0 <? st) with true in E by lia. by injection E as <- <-.
Qed.

Lemma safe_flipAll i id es st todo own :
  N = 1%nat -> 0 <= st -> (st <= 0 -> todo = entryKey <$> es) ->
  safe (TLatch id (PRetire i true todo) :: own)
    (fun n o => exists todo, o = TLatch id (PRetire i true todo) :: own /\ (n <= 0 -> todo = [])) (flipRetiredAll time id st es).
Proof.
  intros HN. revert st todo. induction es as [|e es IH]; intros st todo Hst Ht; cbn [flipRetiredAll]; [by exists todo|].
  intros rest t n t' Hl Hi E. destruct (Z_le_gt_dec st 0) as [Hle|Hgt].
  - rewrite (Ht Hle) in Hi. destruct (Inv_flipRetired i id e st _ (own ++ rest) t n t' HN Hl Hi Hst E) as (Hn & todo' & Hi' & Ht').
    exists (TLatch id (PRetire i true todo') :: own). split; [done|]. apply IH; [lia|done].
  - apply flipRetired_stranded in E as [-> ->]; [|lia]. exists (TLatch id (PRetire i true todo) :: own). split; [done|]. apply IH; lia.
Qed.

(** ** The walk that deletes *)

Lemma Inv_deleteRetired i id e todo l t o st t' :
  Inv (TLatch id (PRetire i false (entryKey e :: todo)) :: l) t ->
  deleteIf (entryKey e) (retireGate time id) t = Next (o, st) t' ->
  exists own, Inv (own ++ TLatch id (PRetire i false (if st =? StatusErrLeased then entryKey e :: todo else todo)) :: l) t' /\
    match o with None => own = [] | Some q => exists r, own = [TGone (e_NS e) q r] end.
Proof.
  intros Hi E. set (k := entryKey e) in *.
  destruct (deleteIf_next p N k _ _ _ _ _ _ (gate_retire time p N id) Hi E) as [Er [(-> & Hi' & Ec & Hor)|(q & r & -> & -> & Hk & Hi' & Ec)]].
  - exists []. split; [|done]. cbn [app]. destruct (Z.eqb_spec st StatusErrLeased) as [->|Hne]; [done|].
    eapply (Inv_phase _ _ id (PRetire i false (k :: todo))); [by left|done|].
    pose proof (ho_tok _ _ _ _ (proj2 Hi') _ ltac:(left)) as (Hg & Hf). split; [done|]. intros k' ns r' He Hh Hs.
    destruct (Hf _ _ _ He Hh Hs) as [?|[->|?]%elem_of_cons]; [by left| |by right].
    apply ents_lookup in He as (_ & q' & Hq' & Hr'). rewrite Ec in Hq'. rewrite Er in Hr'.
    destruct Hor as [Hn|(q & t1 & Hq & Eg & Hok)]; [congruence|]. simplify_eq. unfold retireGate in Eg.
    apply next_bind in Eg as (r0 & t2 & [-> Hr0]%deref_next & Eg). simplify_eq. fold (segOf r0) in Eg.
    rewrite Z.eqb_refl in Eg. cbn [negb] in Eg. apply next_bind in Eg as (z & t2 & _ & Eg). injection Eg as <- <-.
    by destruct (leased r0 z || pinned r0).
  - exists [TGone (NS k) q r]. split; [|by exists r]. cbn [app]. change (StatusOK =? StatusErrLeased) with false. cbn [negb].
    eapply Inv_perm; [apply Permutation_swap|].
    eapply (Inv_phase _ _ id (PRetire i false (k :: todo))); [by left|eapply Inv_perm; [apply Permutation_swap|done]|].
    pose proof (ho_tok _ _ _ _ (proj2 Hi') (TLatch id (PRetire i false (k :: todo))) ltac:(by right; left)) as (Hg & Hf).
    split; [done|]. intros k' ns r' He Hh Hs. destruct (Hf _ _ _ He Hh Hs) as [?|[->|?]%elem_of_cons]; [by left| |by right].
    apply ents_lookup in He as (_ & q' & Hq' & _). by rewrite Ec, lookup_delete_eq in Hq'.
Qed.

Lemma safe_deleteRetired i id es own :
  safe (TLatch id (PRetire i false (entryKey <$> es)) :: own)
    (fun (b : bool) o => exists todo, o = TLatch id (PRetire i false todo) :: own /\ (b = true -> todo = [])) (deleteRetired time p id es).
Proof.
  induction es as [|e es IH]; cbn [deleteRetired]; [by exists []|].
  intros rest t [o st] t' _ Hi E. destruct (Inv_deleteRetired i id e _ (own ++ rest) t o st t' Hi E) as (gone & Hi' & Hgone).
  set (todo' := if st =? StatusErrLeased then _ else _) in *.
  exists (gone ++ TLatch id (PRetire i false todo') :: own). split; [by rewrite <- app_assoc|].
  eapply safe_bind with (P := back (TLatch id (PRetire i false todo') :: own)).
  { destruct o as [q|]; [|by subst gone]. destruct Hgone as [r ->]. apply safe_refund_own. }
  intros _ o' ->. unfold todo'. destruct (st =? StatusErrLeased); [by eexists|apply IH].
Qed.

(** ** One segment *)

Lemma seg_fun (t : T) i id g g' : seg_at t i id g -> seg_at t i id g' -> g = g'.
Proof. intros (v & Hv & Hg) (v' & Hv' & Hg'). by simplify_eq. Qed.

(** What a live sealed segment lists is all there is to do. *)
Lemma phase_listed l t i id g fl :
  Home l t -> seg_at t i id g -> Nvme.s_sealed g = true -> (fl = true -> Nvme.s_spilled g = true) ->
  phase_ok t id (PRetire i fl (entryKey <$> Nvme.s_entries g)).
Proof.
  intros HH Hg Hsl Hsp. split; [by exists g|]. intros k ns r He Hh Hs. destruct (S3Only r) eqn:Eon; [by left|right].
  destruct (ho_home _ _ _ _ HH _ _ _ He Eon) as (g' & Hg' & e & Hin & <-). rewrite Hh, Hs in Hg'.
  rewrite (seg_fun _ _ _ _ _ Hg Hg'). by apply list_elem_of_fmap_2.
Qed.

Lemma Inv_retireBegin i id es l t b t' :
  Inv (TLatch id PHeld :: TSnap i id es :: l) t -> vol i (Nvme.RetireBegin id) t = Next b t' ->
  exists todo, Inv (TLatch id (if b then PRetire i false todo else PHeld) :: TSnap i id es :: l) t' /\
    (Spill p = false -> todo = entryKey <$> es).
Proof.
  intros Hi E. assert (Inv (TLatch id PHeld :: TSnap i id es :: l) t') as Hi'.
  { eapply calm_vol; [|exact Hi|exact E]. intros v b' v' E'. apply vsame_view. by apply RetireBegin_view in E' as [? _]. }
  apply vol_next in E as (v & v' & Hv & E & ->). apply RetireBegin_view in E as [Evw Hb]. injection Evw as Es _ _ _ _.
  destruct b; [|exists (entryKey <$> es); by split]. destruct (Hb eq_refl) as (g & Hg & Hsl). set (t' := set_vols _ t) in *.
  assert (seg_at t' i id g) as Hat. { exists v'. unfold t'. rewrite (vols_set _ _ _ _ Hv), Es. done. }
  exists (entryKey <$> Nvme.s_entries g). split.
  - eapply (Inv_phase _ _ id PHeld); [by left|done|]. eapply phase_listed; [apply Hi'|done..].
  - intros Hsp. destruct (ho_tok _ _ _ _ (proj2 Hi') (TSnap i id es) ltac:(by right; left)) as [_ Hsn].
    destruct (Hsn _ Hat) as [[_ Hc]| ->]; [congruence|done].
Qed.

Lemma Inv_retireSpilled i id es todo l t b t' :
  Inv (TLatch id (PRetire i false todo) :: TSnap i id es :: l) t -> vol i (NvmeSpill.IsSpilled id) t = Next b t' ->
  Inv (TLatch id (PRetire i b (if b then todo else entryKey <$> es)) :: TSnap i id es :: l) t'.
Proof.
  intros Hi [-> (v & Hv & ->)]%vol_gets. pose proof (ho_tok _ _ _ _ (proj2 Hi) _ ltac:(left)) as ((g & Hg & Hsl & _) & Hf).
  eapply (Inv_phase _ _ id (PRetire i false todo)); [by left|done|]. pose proof Hg as (v0 & Hv0 & Hg0). simplify_eq.
  rewrite sv_lookup in Hg0. destruct (Nvme.segs v !! id) as [g1|]; [|done]. injection Hg0 as <-.
  destruct (Nvme.s_spilled g1) eqn:Esp; [split; [by exists (bare g1)|done]|].
  destruct (ho_tok _ _ _ _ (proj2 Hi) (TSnap i id es) ltac:(by right; left)) as [_ Hsn].
  destruct (Hsn _ Hg) as [[Hc _]|<-]; [cbn in Hc; congruence|]. eapply phase_listed; [apply Hi|done..].
Qed.

Lemma Inv_retireKeys i id todo l t es t' :
  Inv (TLatch id (PRetire i true todo) :: l) t -> vol i (NvmeSpill.SegmentEntryKeys id) t = Next es t' ->
  Inv (TLatch id (PRetire i true (entryKey <$> es)) :: l) t'.
Proof.
  intros Hi (-> & Hes & _)%entryKeys_next. eapply (Inv_phase _ _ id (PRetire i true todo)); [by left|done|].
  destruct (ho_tok _ _ _ _ (proj2 Hi) _ ltac:(left)) as ((g & Hg & Hsl & Hsp) & Hf). rewrite <- (Hes _ Hg).
  eapply phase_listed; [apply Hi|done..].
Qed.

Lemma keeps_anyProtected id t es : every keeps (anyProtected id t es).
Proof.
  induction es as [|e es IH]; [done|]. cbn [anyProtected]. apply every_calm; [|by intros []].
  unfold protectedIn, withShardLock. repeat calm_step.
Qed.

Definition held {B} (id : Z) (own : list token) (_ : B) (o : list token) : Prop :=
  exists ph, not_mark ph /\ o = TLatch id ph :: own.

Lemma safe_held {B} id ph own (q : prog B) : not_mark ph -> every keeps q -> safe (TLatch id ph :: own) (held id own) q.
Proof. intros Hp Hq. eapply safe_mono; [|by apply safe_keeps]. intros b o ->. by exists ph. Qed.

Lemma calm_retireAbort i id : calm (vol i (Nvme.RetireAbort id)).
Proof. apply calm_still, still_RetireAbort. Qed.

#[local] Hint Resolve calm_retireAbort : calm.

Lemma safe_retireHeld i id es own :
  (Spill p = true -> N = 1%nat) ->
  safe (TLatch id PHeld :: TSnap i id es :: own) (held id (TSnap i id es :: own)) (retireHeld time p i id es).
Proof.
  intros HN. unfold retireHeld. set (own' := TSnap i id es :: own). apply safe_calm_act; [apply calm_now|]. intros t.
  eapply safe_bind; [apply safe_keeps, keeps_anyProtected|]. intros b o ->.
  destruct b; [by apply safe_held; [|repeat keeps_step]|].
  intros rest s b s' _ Hi E. destruct (Inv_retireBegin i id es (own ++ rest) s b s' Hi E) as (todo & Hi' & Htodo).
  exists (TLatch id (if b then PRetire i false todo else PHeld) :: own'). split; [done|]. clear Hi E Hi'.
  destruct b; cbn [negb]; [|by exists PHeld].
  eapply safe_bind with (P := fun (flip : bool) o => exists todo, o = TLatch id (PRetire i flip todo) :: own' /\
    if flip then Spill p = true else todo = entryKey <$> es).
  { apply safe_if; intros Esp; [|exists todo; by rewrite Htodo].
    apply (safe_act _ _ _ (fun b : bool => TLatch id (PRetire i b (if b then todo else entryKey <$> es)) :: own')).
    - intros l t1 b t2 _ Hi E. eapply Inv_retireSpilled; [exact Hi|exact E].
    - intros []; by eexists. }
  intros flip o (todo1 & -> & Hflip).
  eapply safe_bind with (P := fun (b : bool) o => exists todo, o = TLatch id (PRetire i flip todo) :: own' /\ (b = true -> todo = [])).
  { destruct flip; [|rewrite Hflip; apply safe_deleteRetired]. unfold s3FlipRetired.
    apply (safe_bind _ _ _ _ (fun n o => exists todo, o = TLatch id (PRetire i true todo) :: own' /\ (n <= 0 -> todo = []))).
    - apply (safe_act _ _ _ (fun es : list footerEntry => TLatch id (PRetire i true (entryKey <$> es)) :: own')).
      + intros l t1 es1 t2 _ Hi E. eapply Inv_retireKeys; [exact Hi|exact E].
      + intros es1. by apply safe_flipAll; [apply HN| |].
    - intros n o (todo2 & -> & Hn). exists todo2. split; [done|]. intros Hle%Z.leb_le. by apply Hn. }
  intros b o (todo2 & -> & Hb). destruct b; cbn [negb].
  2: { apply safe_held; [done|]. repeat keeps_step. }
  rewrite (Hb eq_refl). apply (safe_act _ _ _ (fun _ => TLatch id PHeld :: own')).
  - intros l t1 b t2 _ Hi E. eapply Inv_retireFinish; [exact Hi|exact E].
  - intros b. apply safe_held; [done|]. repeat first [apply keeps_gc|keeps_step].
Qed.

(** ** The pass *)

Lemma safe_reclaimSegment i from own :
  (Spill p = true -> N = 1%nat) -> safe own (back own) (reclaimSegment time p i from).
Proof.
  intros HN. unfold reclaimSegment. intros rest t o t' _ Hi (v & v' & Hv & E & ->)%vol_next.
  apply OldestSealed_view in E as [-> Ho]. rewrite list_insert_id by done.
  replace (set_vols (vols t) t) with t by (by destruct t).
  destruct o as [[id es]|]; [|exists own; by split]. destruct (Ho id es eq_refl) as (g & Hg & Hsl & <-).
  exists (TSnap i id (Nvme.s_entries g) :: own). split.
  { apply (Inv_note p N); [done| |done]. destruct (ho_vol _ _ _ _ (proj2 Hi) _ _ Hv) as ([_ _ Hvs] & _).
    destruct (Hvs _ _ Hg) as [Hlt _]. split.
    - exists v. split_and!; [done..|]. intros g' Hg'. by simplify_eq.
    - intros g' (v0 & Hv0 & Hg'). simplify_eq. by right. }
  clear rest t Hi Hv Ho v Hg Hsl. set (own' := TSnap i id (Nvme.s_entries g) :: own).
  apply (safe_act _ _ _ (fun b : bool => (if b then [] else [TLatch id PHeld]) ++ (if b then own else own'))).
  { intros l t b t' _ Hi E. pose proof (Inv_latch p N id (own' ++ l) t b t' Hi E) as Hi'. destruct b; [|exact Hi'].
    by eapply (Inv_dropFact p N (TSnap i id (Nvme.s_entries g))). }
  intros []; cbn [app]; [by apply safe_keeps; repeat keeps_step|].
  eapply safe_bind; [by apply safe_retireHeld|]. intros res o (ph & Hp & ->).
  apply (safe_act _ _ _ (fun _ => own)); [|done]. intros l t b t' _ Hi E.
  eapply (Inv_dropFact p N (TSnap i id (Nvme.s_entries g))); [done|]. eapply Inv_unlatch; [exact Hp|exact Hi|exact E].
Qed.

Lemma safe_reclaimVolume fuel i from retired skipped own :
  (Spill p = true -> N = 1%nat) -> safe own (back own) (reclaimVolume time vp p fuel i from retired skipped).
Proof.
  intros HN. revert from retired skipped. induction fuel as [|fuel IH]; intros from retired skipped; [done|]. cbn [reclaimVolume].
  case_if; [done|]. apply safe_calm_act; [apply calm_still, still_gets|]. intros used. cbv zeta. case_if; [done|].
  eapply safe_bind; [by apply safe_reclaimSegment|]. intros [[] id] o ->; [done|apply IH..].
Qed.

End Retire.

End TieredRetire.
