(* ===== verification/TieredRestore.v ===== *)
(** Uploads, restores and object drops keep the invariant of the tiers. *)

From Stdlib Require Import ZArith Lia.
From coqutil Require Import Byte.
From stdpp Require Import base numbers list gmap sets.
From S2P Require Import Prelude.
From S2P Require Import Conc.
From S2P Require Import Wire.
From S2P Require Import Tenant.
From S2P Require Import Eviction.
From S2P Require Import BlockRef.
From S2P Require Import Index.
From S2P Require Import DramStore.
From S2P Require Import NvmeFormat.
From S2P Require Import NvmeVolume.
From S2P Require Import NvmeSpill.
From S2P Require Import NvmeIndex.
From S2P Require Import Tiered.
From S2P Require Import TieredVol.
From S2P Require Import TieredDram.
From S2P Require Import TieredInv.
From S2P Require Import TieredActs.
From S2P Require Import TieredMoves.
From S2P Require Import TieredSurface.
From S2P Require Import TieredLatch.
From S2P Require Import TieredCold.
From S2P Require Import TieredRetire.
Import Conc Ops Eviction Seg NvmeIndex Tiered TieredVol TieredDram TieredInv TieredActs TieredMoves TieredSurface TieredLatch TieredCold TieredRetire.
Open Scope Z_scope.
Open Scope go_scope.
Open Scope conc_scope.

Module TieredRestore.

Section Restore.
Context {A P : Type} `{!Dram.ExtentAlloc A} `{!Policy P} `{!Index.IndexEnv} `{!Xxh3} `{!Outside}.
Context (vp : nat -> Nvme.VolumeParams) (p : Params) (N : nat).

Abbreviation T := (Tiered A P).
Abbreviation act := (act T).
Abbreviation prog := (prog T).
Abbreviation Inv := (Inv (A := A) (P := P) N (Spill p)).
Abbreviation Home := (Home (A := A) (P := P) N (Spill p)).
Abbreviation phase_ok := (phase_ok (A := A) (P := P) N).
Abbreviation calm := (calm (A := A) (P := P) p N).
Abbreviation keeps := (keeps (A := A) (P := P) p N).
Abbreviation safe := (safe (legal (A := A) (P := P)) Inv).
Abbreviation back own := (fun _ o => o = own).

(** ** Uploads *)

Lemma Inv_accept i id l t n :
  N = 1%nat -> Inv (TLatch id PHeld :: TSealed i id :: l) t -> Inv l (set_uploads (uploads t ++ [(i, id)]) (set_tick n t)).
Proof.
  intros HN [HA HH]. split.
  - apply (Acc_weightless [TLatch id PHeld; TSealed i id] [] l t); try done. intros x Hx. by apply not_elem_of_nil in Hx.
  - eapply Home_latch; [exact HH|done..| | | |].
    + cbn [uploads set_uploads spillInflight set_tick]. destruct (ho_latch _ _ _ _ HH) as [Es En]. rewrite Es.
      change ((TLatch id PHeld :: TSealed i id :: l) ≫= latched) with (id :: (l ≫= latched)) in *.
      assert ((id :: (l ≫= latched)) ++ (uploads t).*2 ≡ₚ (l ≫= latched) ++ (uploads t ++ [(i, id)]).*2) as Hp.
      { rewrite fmap_app, app_assoc. cbn. apply Permutation_cons_append. }
      split; [|by rewrite <- Hp]. apply set_eq. intros x. rewrite !elem_of_list_to_set. by rewrite Hp.
    + cbn. intros j id' [Hin|Hin]%elem_of_app; [by apply HH|]. apply list_elem_of_singleton in Hin as [= -> ->]. split; [done|].
      exact (ho_tok _ _ _ _ HH (TSealed i id) ltac:(by right; left)).
    + intros id' (j & todo & cur & [E|[E|Hx]%elem_of_cons]%elem_of_cons); [done..|]. left. by exists j, todo, cur.
    + intros x Hx. apply HH. by right; right.
Qed.

Lemma safe_spillOne i si own :
  N = 1%nat -> safe (TSealed i (NvmeSpill.si_ID si) :: own) (back own) (spillOne i si).
Proof.
  intros HN. unfold spillOne. set (id := NvmeSpill.si_ID si).
  apply (safe_act _ _ _ (fun b : bool => if b then own else TLatch id PHeld :: TSealed i id :: own)).
  { intros l t b t' _ Hi E. pose proof (Inv_latch p N id (TSealed i id :: own ++ l) t b t' Hi E) as Hi'. destruct b; [|exact Hi'].
    by eapply (Inv_dropFact p N (TSealed i id)). }
  intros []; [done|].
  apply (safe_act _ _ _ (fun b : bool => if b then own else TLatch id PHeld :: TSealed i id :: own)).
  { intros l t b t' _ Hi. destruct (spillAccepts (tick t)); intros [= <- <-].
    - by apply (Inv_accept i id (own ++ l)).
    - by apply (quiet_inv p N _ t). }
  intros []; [done|]. apply (safe_act _ _ _ (fun _ => own)); [|done]. intros l t b t' _ Hi E.
  eapply (Inv_dropFact p N (TSealed i id)); [done|]. eapply (Inv_unlatch _ _ id PHeld); [done|exact Hi|exact E].
Qed.

Lemma Inv_noteAll {B} (f : B -> token) (l : list B) own t :
  (forall b, b ∈ l -> fact (f b) /\ token_ok N (Spill p) t (f b)) -> Inv own t -> Inv ((f <$> l) ++ own) t.
Proof.
  induction l as [|b l IH]; intros Hf Hi; [done|]. cbn. apply Inv_note; [by apply Hf; left..|].
  apply IH; [|done]. intros b' Hb. apply Hf. by right.
Qed.

Lemma safe_spillPass own : (Spill p = true -> N = 1%nat) -> safe own (back own) (spillPass p).
Proof.
  intros HN. unfold spillPass. apply safe_if; [done|]. intros Esp%negb_false_iff. specialize (HN Esp).
  apply safe_calm_act; [apply calm_get|]. intros n. apply safe_forEach. intros i _.
  intros rest t sis t' _ Hi (v & v' & Hv & E & ->)%vol_next. apply SealedUnspilled_view in E as [-> Hs].
  rewrite list_insert_id by done. replace (set_vols (vols t) t) with t by (by destruct t).
  exists (((fun si => TSealed i (NvmeSpill.si_ID si)) <$> sis) ++ own). split.
  { rewrite <- app_assoc. apply Inv_noteAll; [|done]. intros si Hsi. split; [done|]. destruct (Hs _ Hsi) as (g & Hg & Hsl).
    exists v. destruct (ho_vol _ _ _ _ (proj2 Hi) _ _ Hv) as ([_ _ Hvs] & _). destruct (Hvs _ _ Hg) as [Hlt _]. split_and!; [done..|].
    intros g' Hg'. by simplify_eq. }
  clear rest t Hi Hs Hv v. induction sis as [|si sis IH]; [done|]. cbn [forEach fmap list_fmap app].
  eapply safe_bind; [by apply safe_spillOne|]. intros _ o ->. apply IH.
Qed.

(** ** Adopting a downloaded segment *)

Lemma Inv_adoptPublish i id seal l t b t' :
  N = 1%nat -> Spill p = true -> Inv (TOld i id :: l) t -> vol i (@NvmeSpill.adoptPublish (volWorld i) id seal) t = Next b t' ->
  Inv l t' /\ (b = true -> exists g, seg_at t' i id g).
Proof.
  intros HN Hsp Hi (v & v' & Hv & E & ->)%vol_next. destruct seal as [[size tr] es].
  destruct (ho_tok _ _ _ _ (proj2 Hi) _ ltac:(left)) as (v0 & Hv0 & Hlt). rewrite Hv in Hv0. injection Hv0 as <-.
  apply (Inv_dropFact p N (TOld i id)) in Hi; [|done].
  apply adoptPublish_view in E as [[-> E]|(-> & Hnone & E)].
  { split; [|done]. eapply (Inv_vol_same p N); [done..|by apply vsame_view]. }
  injection E as Es En Er _ Ea. destruct Hi as [HA HH]. set (t' := set_vols _ t).
  assert (forall g', seg_at t' i id g' <-> g' = Nvme.mkSegment 0 true true 0 es false 0) as Hat.
  { intros g'. unfold seg_at, t'. setoid_rewrite (vols_set _ _ _ _ Hv).
    split; [intros (w & [= <-] & Hg); rewrite Es, lookup_insert_eq in Hg; by injection Hg|].
    intros ->. exists v'. by rewrite Es, lookup_insert_eq. }
  assert (forall k, home N k = i) as Hh by (intros k; apply (home_one N k i t); [done|apply HH|by exists v]).
  assert (forall j g', seg_at t j id g' -> False) as Habs.
  { intros j g' (w & Hw & Hg'). assert (j = i) as ->; [|by simplify_eq].
    pose proof (lookup_lt_Some _ _ _ Hw). pose proof (lookup_lt_Some _ _ _ Hv). rewrite (ho_len _ _ _ _ HH) in *. lia. }
  assert (forall k ns r, ents t !! k = Some (ns, r) -> segOf r = id -> S3Only r = true) as Hon.
  { intros k ns r He Hs. destruct (S3Only r) eqn:Eon; [done|]. destruct (ho_home _ _ _ _ HH _ _ _ He Eon) as (g & Hg & _).
    rewrite Hs in Hg. by apply Habs in Hg. }
  split; [|intros _; eexists; by apply Hat]. split; [by apply (Acc_same _ t); [|apply same_below_refl|]|].
  assert (onlySeg p i id t t') as Hos.
  { apply onlySeg_set with v; [done..| |].
    - intros id' Hne. by rewrite Es, lookup_insert_ne.
    - intros g'. rewrite Es, lookup_insert_eq. intros [= <-]. split; [done|by right]. }
  apply (Home_onlySeg _ _ _ t _ i id); try done.
  - apply (ho_vol_set p N l t i v v' HH Hv Er). destruct (ho_vol _ _ _ _ HH _ _ Hv) as ([O1 O2 O3] & _).
    split; rewrite ?Es, ?En, ?Ea; [done|..].
    + intros id' Hid. destruct (O2 _ Hid) as (g & Hg & Hs). rewrite lookup_insert_ne by congruence. by exists g.
    + intros id' g' [[<- <-]|[_ Hg']]%lookup_insert_Some; [done|by apply O3].
  - intros ph Hph. pose proof (ho_tok _ _ _ _ HH _ Hph) as Hok. destruct ph as [|j todo cur|j fl todo|j es0| |]; cbn in *; try done.
    + destruct Hok as (Ho & Hse & _ & Hf & Hc). split_and!; try done. by eapply os_sealed.
    + destruct Hok as ((g & Hg & _) & _). by apply Habs in Hg.
    + destruct Hok as (g & Hg & _). by apply Habs in Hg.
  - intros k ns r He _ Hs. pose proof (Hon _ _ _ He Hs) as Ho. split_and!; try congruence.
    + intros g ->%Hat _. done.
    + intros g _ _. by eapply (ho_s3 _ _ _ _ HH).
Qed.

(** [own1]: what the caller owns once the segment is live. *)
Lemma safe_adopt i id r own own1 :
  N = 1%nat -> Spill p = true ->
  (forall l t, Inv (own ++ l) t -> (exists g, seg_at t i id g) -> Inv (own1 ++ l) t) ->
  safe own (fun (b : bool) o => o = if b then own1 else own) (adopt vp i id r).
Proof.
  intros HN Hsp H1'. unfold adopt.
  apply (safe_act _ _ _ (fun b : bool => if b then TOld i id :: own else own)).
  { intros l t b t' _ Hi E. assert (Inv (own ++ l) t') as Hi' by (eapply calm_still; [apply still_adoptCheck|exact Hi|exact E]).
    destruct b; [|done]. apply (Inv_note p N); [done| |done]. apply vol_next in E as (v & v' & Hv & E & ->).
    apply adoptCheck_next in E as [-> Hlt]. exists v. rewrite (vols_set _ _ _ _ Hv). split; [done|by apply Hlt]. }
  intros []; cbn [negb]; [|done].
  apply (safe_act _ _ _ (fun o : option (Z * trailer * list footerEntry) => match o with Some _ => TOld i id :: own | None => own end)).
  { intros l t b t' _ Hi E. assert (Inv ((TOld i id :: own) ++ l) t') as Hi' by (eapply calm_still; [|exact Hi|exact E]; apply still_adoptInstall).
    destruct b; [done|]. by eapply (Inv_dropFact p N (TOld i id)). }
  intros [seal|]; [|done].
  apply (safe_act _ _ _ (fun b : bool => if b then own1 else own)).
  { intros l t b t' _ Hi E. destruct (Inv_adoptPublish i id seal (own ++ l) t b t' HN Hsp Hi E) as [Hi' Hlive].
    destruct b; [|done]. apply H1'; [done|by apply Hlive]. }
  intros []; cbn [negb]; [|done]. apply safe_calm_act; [|done]. intros l t b t' Hi E.
  destruct (vols t !! i) as [v|]; [|done]. destruct (Nvme.ckptSnap v); [done|].
  eapply calm_still; [|exact Hi|exact E]; apply still_adoptCkpt.
Qed.

Lemma safe_lateAdopt j own : safe own (back own) (lateAdopt vp j).
Proof.
  intros rest t o t' _ Hi E. exists own. unfold takeDownload in E. destruct (downloads t !! j) as [dl|] eqn:Ej.
  2: { injection E as <- <-. done. }
  injection E as <- <-. destruct dl as [[i id] r].
  destruct (ho_down _ _ _ _ (proj2 Hi) (i, id, r)) as [HN Hsp]; [by eapply list_elem_of_lookup_2|]. split.
  - destruct Hi as [HA HH]. split; [by apply (Acc_same _ t); [|apply same_below_refl|]|].
    destruct HH as [K1 K2 K3 K0 K4 K5 K6 K7 K8 K9 K10 K11 K13 K12]. split; done.
  - eapply safe_bind; [by apply (safe_adopt i id r own own)|]. by intros [] o ->.
Qed.

(** ** Restores *)

Lemma Inv_flipRestored i id e es l t b t' :
  legal t = true -> e ∈ es -> Inv (TLatch id (PLive i es) :: l) t -> flipRestored id e t = Next b t' ->
  Inv (TLatch id (PLive i es) :: l) t'.
Proof.
  intros Hl Hin Hi E. unfold flipRestored, withShardLock in E. set (k := entryKey e) in *.
  apply next_bind in E as (o & t1 & [= <- <-] & E). rewrite (iget_cont p N _ _ _ Hi) in E.
  destruct (cont t !! k) as [q|] eqn:Ek; [|by injection E as _ <-].
  apply next_bind in E as (r & t1 & [-> Hr]%deref_next & E). fold (segOf r) in E.
  destruct (negb (segOf r =? id) || negb (S3Only r)) eqn:Eor; [by injection E as _ <-|].
  apply orb_false_iff in Eor as [Es Eon]. apply negb_false_iff, Z.eqb_eq in Es. apply negb_false_iff in Eon.
  assert (exists z, flipOne false (NS k) (segOf r) q r t = Next z t') as (z & Eflip).
  { rewrite Es. unfold flipOne. cbn [sgn]. replace (-1 * Len r) with (- Len r) by lia. clear -E. unfold mbind, act_bind in *.
    destruct (quotas _ t) as [u1 s1| | |]; try done. cbn in E |- *. injection E as _ <-. by eexists. }
  eapply (Inv_flip p N _ t k q r false); [done|apply Hi|done..| |exact Eflip]. by apply (Home_flipDown p N i id e es).
Qed.

Lemma Inv_liveKeys i id es0 l t es t' :
  Inv (TLatch id (PLive i es0) :: l) t -> vol i (NvmeSpill.SegmentEntryKeys id) t = Next es t' ->
  Inv (TLatch id (PLive i es) :: l) t'.
Proof.
  intros Hi (-> & Hes & _)%entryKeys_next. eapply (Inv_phase _ _ id (PLive i es0)); [by left|done|].
  destruct (ho_tok _ _ _ _ (proj2 Hi) _ ltac:(left)) as (g & Hg & _). exists g. split; [done|]. by rewrite (Hes _ Hg).
Qed.

Lemma safe_flipRestored i id es0 own :
  safe (TLatch id (PLive i es0) :: own) (fun _ o => exists es, o = TLatch id (PLive i es) :: own) (s3FlipRestored i id).
Proof.
  unfold s3FlipRestored. apply (safe_act _ _ _ (fun es => TLatch id (PLive i es) :: own)).
  { intros l t es t' _ Hi E. by eapply Inv_liveKeys. }
  intros es. eapply safe_mono; [|apply safe_forEach].
  { intros u o ->. by exists es. }
  intros e He. apply (safe_act _ _ _ (fun _ => TLatch id (PLive i es) :: own)); [|done].
  intros l t b t' Hl Hi E. by eapply Inv_flipRestored.
Qed.

Lemma Inv_live i id l t : Inv (TLatch id PHeld :: l) t -> (exists g, seg_at t i id g) -> Inv (TLatch id (PLive i []) :: l) t.
Proof. intros Hi [g Hg]. apply (Inv_phase _ _ id PHeld); [by left|done|]. exists g. split; [done|apply list_subseteq_nil]. Qed.

Lemma calm_download i id r : N = 1%nat -> Spill p = true ->
  calm (put (fun t => set_downloads (downloads t ++ [(i, id, r)]) t)).
Proof.
  intros HN Hsp l t b t' [HA HH] [= _ <-]. split; [by apply (Acc_same _ t); [|apply same_below_refl|]|].
  destruct HH as [K1 K2 K3 K0 K4 K5 K6 K7 K8 K9 K10 K11 K13 K12]. split; done.
Qed.

Lemma safe_restoreHeld i id own :
  N = 1%nat -> Spill p = true ->
  safe (TLatch id PHeld :: own) (fun (b : bool) o => o = TLatch id (if b then PLive i [] else PHeld) :: own) (restoreHeld vp i id).
Proof.
  intros HN Hsp. unfold restoreHeld.
  apply (safe_act _ _ _ (fun b : bool => TLatch id (if b then PLive i [] else PHeld) :: own)).
  { intros l t b t' _ Hi [-> (v & Hv & ->)]%vol_gets. case_bool_decide as Hg; [|done]. apply Inv_live; [done|].
    destruct Hg as [g Hg]. exists (bare g), v. by rewrite sv_lookup, Hg. }
  intros []; [done|]. apply safe_calm_act; [apply calm_still, still_gets|]. intros used. cbv zeta.
  case_if.
  { apply safe_calm_act; [apply calm_bump|]. intros _. by apply safe_calm_act; [apply calm_kick|]. }
  apply safe_calm_act; [apply calm_ask|]. intros ans.
  eapply safe_bind with (P := fun (b : bool) o => o = TLatch id (if b then PLive i [] else PHeld) :: own).
  { destruct ans as [|r|r]; [done| |].
    - eapply safe_mono; [|apply (safe_adopt i id r _ (TLatch id (PLive i []) :: own)); [done..|]]; [by intros [] o ->|].
      intros l t Hi Hg. by apply Inv_live.
    - apply safe_calm_act; [by apply calm_download|done]. }
  intros [] o ->; [done|]. apply safe_calm_act; [apply calm_bump|done].
Qed.

Lemma safe_restoreBody own : (Restore p = true -> Spill p = true) -> (Spill p = true -> N = 1%nat) ->
  safe own (back own) (restoreBody vp p).
Proof.
  intros Hboth HN. unfold restoreBody. apply safe_calm_act; [apply calm_recvRestore|]. intros [[k ref]|]; [|done].
  unfold restoreOne. apply safe_if; [done|]. intros Hre%negb_false_iff. specialize (Hboth Hre). specialize (HN Hboth).
  apply safe_calm_act; [apply calm_iget|]. intros cur. case_if; [done|]. apply safe_calm_act; [apply calm_deref|]. intros r.
  case_if; [done|]. cbv zeta. set (id := SegmentID (Loc_ r)). apply safe_calm_act; [apply calm_volumeFor|]. intros i.
  apply (safe_act _ _ _ (fun b : bool => (if b then [] else [TLatch id PHeld]) ++ own)).
  { intros l t b t' _ Hi E. rewrite <- app_assoc. by apply (Inv_latch p N id (own ++ l) t). }
  intros []; [by apply safe_keeps; repeat keeps_step|]. cbn [app]. eapply safe_bind; [by apply safe_restoreHeld|]. intros live o ->.
  eapply safe_bind with (P := held id own).
  { destruct live; [|by exists PHeld]. eapply safe_bind; [apply safe_flipRestored|]. intros _ o (es & ->).
    apply safe_held; [done|]. repeat keeps_step. }
  intros _ o (ph & Hp & ->). by apply safe_unlatch.
Qed.

(** ** Object drops *)

(** Nothing s3-only is left in a segment with no references. *)
Lemma Inv_dead id l t : Inv (TLatch id PHeld :: l) t -> default 0 (segRefs t !! id) <= 0 -> Inv (TLatch id PDead :: l) t.
Proof.
  intros Hi Hz. apply (Inv_phase _ _ id PHeld); [by left|done|]. intros k ns r He Hs. destruct (S3Only r) eqn:Eon; [|done].
  destruct Hi as [HA _]. rewrite (ac_segRefs _ _ HA) in Hz. pose proof (segs_pos (TLatch id PHeld :: l) id).
  pose proof (rsum_pos _ t (fun _ => onlyIn id) HA ltac:(intros; apply onlyIn_pos)).
  pose proof (msum_elem (fun e : Z * nvmeRef => onlyIn id e.2) (ents t) k (ns, r) ltac:(intros; apply onlyIn_pos) He) as Hle.
  cbn in Hle. unfold onlyIn in Hle at 1. rewrite Eon, Hs, Z.eqb_refl in Hle. unfold esum in Hz. cbn in Hle. lia.
Qed.

Lemma Inv_bare i id l t :
  N = 1%nat -> Inv (TLatch id PDead :: l) t -> (forall g, seg_at t i id g -> Nvme.s_spilled g = false) -> is_Some (vols t !! i) ->
  Inv (TLatch id PBare :: l) t.
Proof.
  intros HN Hi Hg Hv. apply (Inv_phase _ _ id PDead); [by left|done|]. intros k ns r He Hs. destruct (S3 r) eqn:Es3; [|done].
  pose proof (ho_tok _ _ _ _ (proj2 Hi) _ ltac:(left)) as Hd. pose proof (Hd _ _ _ He Hs) as Hon.
  assert (home N k = i) as Hh by (apply (home_one N k i t); [done|apply Hi|done]).
  destruct (ho_mark _ _ _ _ (proj2 Hi) _ _ _ He Es3 Hon) as [(g & Hg' & Hsp)|(j & todo & cur & Hin)].
  - rewrite Hh, Hs in Hg'. rewrite (Hg _ Hg') in Hsp. done.
  - rewrite Hs in Hin. by apply (latch_only p N _ _ _ _ _ Hi) in Hin.
Qed.

Lemma safe_dropObjectHeld id own : (Spill p = true -> N = 1%nat) -> safe (TLatch id PHeld :: own) (held id own) (dropObjectHeld p id).
Proof.
  intros HN. unfold dropObjectHeld. apply safe_if; [by intros _; exists PHeld|]. intros Hsp%negb_false_iff. specialize (HN Hsp).
  apply (safe_act _ _ _ (fun b : bool => TLatch id (if b then PHeld else PDead) :: own)).
  { intros l t b t' _ Hi [= <- <-]. destruct (0 <? _) eqn:E; [done|]. apply Inv_dead; [done|]. lia. }
  intros []; [by exists PHeld|]. intros rest t n t' _ Hi [= <- <-]. exists (TLatch id PDead :: own). split; [done|].
  rewrite (ho_len _ _ _ _ (proj2 Hi)). replace (seq 0 N) with [0%nat] by (by rewrite HN). cbn [anySpilled]. clear rest t Hi.
  apply (safe_act _ _ _ (fun b : bool => TLatch id (if b then PDead else PBare) :: own)).
  { intros l t b t' _ Hi [-> (v & Hv & ->)]%vol_gets. destruct (Nvme.segs v !! id) as [g|] eqn:Eg.
    - destruct (Nvme.s_spilled g) eqn:Esp; [done|]. apply (Inv_bare 0); [done..| |by exists v].
      intros g' (w & Hw & Hg'). simplify_eq. rewrite sv_lookup, Eg in Hg'. by injection Hg' as <-.
    - apply (Inv_bare 0); [done..| |by exists v]. intros g' (w & Hw & Hg'). simplify_eq. by rewrite sv_lookup, Eg in Hg'. }
  intros []; [by exists PDead|]. apply (safe_act _ _ _ (fun _ => TLatch id PBare :: own)).
  { intros l t b t' _ Hi E. unfold dropCall in E. destruct (dropAnswer (tick t)) as [ok gone]. injection E as _ <-.
    apply (quiet_inv p N _ (if gone then set_objects (objects t ∖ {[id]}) t else t)); [done|]. destruct gone; [|done].
    apply (Inv_objects p N); [done|..].
    - intros k ns r He Hs. apply elem_of_difference. split; [by eapply (ho_obj _ _ _ _ (proj2 Hi))|].
      intros Hid%elem_of_singleton. pose proof (ho_tok _ _ _ _ (proj2 Hi) _ ltac:(left)) as Hb. by rewrite (Hb _ _ _ He Hid) in Hs.
    - intros id' (j & todo & cur & Hin). apply elem_of_difference. split; [by apply (ho_tok _ _ _ _ (proj2 Hi) _ Hin)|].
      intros ->%elem_of_singleton. by apply (latch_only p N _ _ _ _ _ Hi) in Hin. }
  intros b. apply safe_held; [done|]. repeat keeps_step.
Qed.

Lemma safe_dropBody own : (Spill p = true -> N = 1%nat) -> safe own (back own) (dropBody p).
Proof.
  intros HN. unfold dropBody. apply safe_calm_act; [apply calm_recvDrop|]. intros [id|]; [|done].
  apply safe_calm_act; [apply calm_unnominate|]. intros _. unfold dropObject.
  apply (safe_act _ _ _ (fun b : bool => (if b then [] else [TLatch id PHeld]) ++ own)).
  { intros l t b t' _ Hi E. rewrite <- app_assoc. by apply (Inv_latch p N id (own ++ l) t). }
  intros []; [by apply safe_keeps; repeat keeps_step|]. cbn [app]. eapply safe_bind; [by apply safe_dropObjectHeld|].
  intros _ o (ph & Hp & ->). by apply safe_unlatch.
Qed.

End Restore.
End TieredRestore.
