(* ===== verification/TieredDemote.v ===== *)
(** Demotion keeps the invariant of the tiers: appends, the turns of a volume's
    writer with the publications they make, and the passes that feed it. *)

From Stdlib Require Import ZArith Lia.
From coqutil Require Import Byte.
From stdpp Require Import base numbers list gmap sets.
From S2P Require Import Prelude.
From S2P Require Import Conc.
From S2P Require Import Wire.
From S2P Require Import Tenant.
From S2P Require Import Eviction.
From S2P Require Import BlockRef.
From S2P Require Import Index.
From S2P Require Import DramStore.
From S2P Require Import NvmeFormat.
From S2P Require Import NvmeVolume.
From S2P Require Import NvmeSpill.
From S2P Require Import NvmeIndex.
From S2P Require Import Tiered.
From S2P Require Import TieredVol.
From S2P Require Import TieredDram.
From S2P Require Import TieredInv.
From S2P Require Import TieredActs.
From S2P Require Import TieredMoves.
From S2P Require Import TieredSurface.
From S2P Require Import TieredLatch.
From S2P Require Import TieredCold.
From S2P Require Import TieredRetire.
From S2P Require Import TieredRestore.
Import Conc Ops Eviction Seg NvmeIndex Tiered TieredVol TieredDram TieredInv TieredActs TieredMoves TieredSurface TieredLatch TieredCold TieredRetire TieredRestore.
Open Scope Z_scope.
Open Scope go_scope.
Open Scope conc_scope.

Module TieredDemote.

Section Demote.
Context {A P : Type} `{!Dram.ExtentAlloc A} `{!Policy P} `{!Index.IndexEnv} `{!Xxh3} `{!Outside}.
Context (p : Params) (N : nat).

Abbreviation T := (Tiered A P).
Abbreviation act := (act T).
Abbreviation prog := (prog T).
Abbreviation Inv := (Inv (A := A) (P := P) N (Spill p)).
Abbreviation Home := (Home (A := A) (P := P) N (Spill p)).
Abbreviation token_ok := (token_ok (A := A) (P := P) N (Spill p)).
Abbreviation calm := (calm (A := A) (P := P) p N).
Abbreviation keeps := (keeps (A := A) (P := P) p N).
Abbreviation safe := (safe (legal (A := A) (P := P)) Inv).
Abbreviation back own := (fun _ o => o = own).

(** ** Volumes that grow *)

Lemma Inv_grows l t i v v' n :
  Inv l t -> vols t !! i = Some v -> volume_ok v' -> grows (queued N t i) n v v' ->
  Inv l (set_vols (<[i := v']> (vols t)) t).
Proof.
  intros [HA HH] Hv Ho Hg. split; [by apply (Acc_same _ t); [|apply same_below_refl|]|].
  eapply Home_vsteps; [exact HH| |done|].
  - split; [cbn; by rewrite length_insert|]. cbn. intros j w [[-> [<- _]]|[Hne Hw]]%list_lookup_insert_Some.
    + exists v. split; [done|]. eapply vkeeps_grows; [|exact Hg]. by intros r (_ & _ & ? & _).
    + exists w. split; [done|by apply vkeeps_view].
  - cbn. intros j w [[-> [<- _]]|[Hne Hw]]%list_lookup_insert_Some; [|by apply HH].
    destruct (ho_vol _ _ _ _ HH _ _ Hv) as (_ & Hl & Hq). destruct (gr_reqs _ _ _ _ Hg) as [Hsub Hlen].
    split_and!; [done|lia|]. intros r Hr. apply Hq. by apply Hsub.
Qed.

Lemma queued_all l t i v : Inv l t -> vols t !! i = Some v -> Forall (queued N t i) (Nvme.reqs v).
Proof. intros [_ HH] Hv. apply Forall_forall. by apply HH. Qed.

Lemma safe_recoverWrites vp i own {C} (k : unit -> prog C) Q :
  (forall u, safe own Q (k u)) -> safe own Q (u ⇐ vol i (@Nvme.TryRecoverWrites (volWorld i) vp); k u).
Proof.
  intros Hk. apply (safe_act _ _ _ (fun _ => own)); [|done]. intros l t b t' Hl Hi (v & v' & Hv & E & ->)%vol_next.
  pose proof (legal_next _ _ _ Hl Hv) as Hn. destruct (ho_vol _ _ _ _ (proj2 Hi) _ _ Hv) as (Ho & _).
  destruct (turn_recoverWrites vp (queued N t i) v b v' Ho (queued_all _ _ _ _ Hi Hv) ltac:(lia) E) as (Ho' & Hg & _).
  by eapply Inv_grows.
Qed.

(** ** Publication *)

(** The block of [k] at [loc] is on its volume, in a segment the object store
    does not have. *)
Definition landed (t : T) (i : nat) (k : Key) (loc : Loc) : Prop :=
  0 < LenOf loc < 2 ^ 32 /\ home N k = i /\
  exists g, seg_at t i (SegmentID loc) g /\ listed k g /\ Nvme.s_spilled g = false.

Lemma landed_vols t t' i k loc : vols t' = vols t -> landed t i k loc -> landed t' i k loc.
Proof. unfold landed, seg_at. by intros ->. Qed.

(** No latch holder has settled what segment [id] of volume [i] holds. *)
Definition unclaimed (l : list token) (i : nat) (id : Z) : Prop := forall x, x ∈ l ->
  match x with TLatch id' (PMark i' _ _) | TLatch id' (PRetire i' _ _) => (i', id') <> (i, id) | _ => True end.

(** The state after [publish], before the accountant. *)
Definition published (k : Key) (r : nvmeRef) (t : T) : T :=
  let old := q ← cont t !! k; refs t !! q in
  set_idx (@putKey nvShards (idx t) k (nextPtr t) (Len r) (Len <$> old))
    (set_replaced (match old with Some o => (k, o) :: replaced t | None => replaced t end)
      (set_nextPtr (nextPtr t + 1) (set_refs (<[nextPtr t := r]> (refs t)) t))).

Lemma putNew_run l t k r (fn : act unit) :
  Inv l t -> (nr ← newRef r; putThen k nr fn) t = fn (published k r t).
Proof.
  intros Hi. unfold mbind at 1, act_bind at 1, newRef. set (t1 := set_nextPtr _ _).
  assert (refs t1 !! nextPtr t = Some r) as Hr by apply lookup_insert_eq.
  unfold putThen, mbind at 1, act_bind at 1, iget, get. change (idx t1) with (idx t). rewrite (iget_cont p N _ _ _ Hi).
  unfold published. cbv zeta. destruct (cont t !! k) as [q|] eqn:Ek; cbn [mbind option_bind].
  - destruct (ac_ref _ _ (proj1 Hi) _ _ Ek) as [r0 Hr0].
    assert (refs t1 !! q = Some r0) as Hq1.
    { cbn. rewrite lookup_insert_ne; [done|]. intros <-. destruct (ac_rec _ _ (proj1 Hi) _ _ Hr0) as [? _]. lia. }
    rewrite Hr0. unfold mbind, act_bind, deref, put. rewrite Hq1. cbn -[putKey lookup]. by rewrite lookup_insert_eq.
  - unfold mbind, act_bind, deref, put. cbn -[putKey lookup]. rewrite lookup_insert_eq. by destruct t.
Qed.

Lemma putNew_next l t k r (fn : act unit) b t' :
  Inv l t -> (nr ← newRef r; putThen k nr fn) t = Next b t' -> fn (published k r t) = Next b t'.
Proof. intros Hi. by rewrite (putNew_run l). Qed.

Lemma publish_next l t k loc sum ttl b t' :
  Inv l t -> publish k loc sum ttl t = Next b t' ->
  t' = match Dram.quotas (d t) with
       | None => published k (freshRef loc sum ttl) t
       | Some q => with_quotas (Some (Quotas.Transfer q (NS k) Registry.TierDRAM Registry.TierNVMe (LenOf loc)))
                     (published k (freshRef loc sum ttl) t)
       end.
Proof.
  intros Hi [[E ->]|(q & E & ->)]%(putNew_next l)%quotas_next; [..|done]; cbn in E; by rewrite E.
Qed.

Lemma published_maps l t k r :
  Inv l t -> cont (published k r t) = <[k := nextPtr t]> (cont t) /\
  ents (published k r t) = <[k := (NS k, r)]> (ents t) /\ @Index.index_ok nvShards (idx (published k r t)).
Proof.
  intros [HA _]. set (t' := published k r t).
  assert (@Index.index_ok nvShards (idx t') /\ cont t' = <[k := nextPtr t]> (cont t)) as [Hok Hc]
    by (apply putKey_spec, HA).
  split_and!; [done| |done]. apply map_eq. intros k'. unfold ents. rewrite map_lookup_imap, Hc. unfold t'. cbn.
  destruct (decide (k = k')) as [<-|Hne]; [by rewrite !lookup_insert_eq; cbn; rewrite lookup_insert_eq|].
  rewrite !lookup_insert_ne, map_lookup_imap by done. destruct (cont t !! k') as [q|] eqn:Ek; cbn; [|done].
  rewrite lookup_insert_ne; [done|]. intros <-. destruct (ac_ref _ _ HA _ _ Ek) as [r0 Hr0].
  destruct (ac_rec _ _ HA _ _ Hr0) as [? _]. lia.
Qed.

(** Entries and overwritten entries together gain the new one. *)
Lemma published_sum l t k r f :
  Inv l t -> esum f (published k r t) + rsum f (published k r t) = esum f t + rsum f t + f (NS k) r.
Proof.
  intros Hi. destruct (published_maps l t k r Hi) as (_ & Ee & _). unfold esum. rewrite Ee.
  destruct (cont t !! k) as [q|] eqn:Ek.
  - destruct (ac_ref _ _ (proj1 Hi) _ _ Ek) as [r0 Hr0].
    rewrite (msum_update _ _ k (NS k, r0)) by (apply ents_lookup; split; [done|by exists q]).
    unfold rsum, published. cbn. rewrite Ek. cbn. rewrite Hr0. cbn. lia.
  - rewrite msum_insert by (unfold ents; by rewrite map_lookup_imap, Ek).
    unfold rsum, published. cbn. rewrite Ek. cbn. lia.
Qed.

Lemma published_count l t k r f :
  Inv l t -> esum f (published k r t) =
  esum f t + f (NS k) r - match q ← cont t !! k; refs t !! q with Some o => f (NS k) o | None => 0 end.
Proof.
  intros Hi. destruct (published_maps l t k r Hi) as (_ & Ee & _). unfold esum. rewrite Ee.
  destruct (cont t !! k) as [q|] eqn:Ek; cbn.
  - destruct (ac_ref _ _ (proj1 Hi) _ _ Ek) as [r0 Hr0]. rewrite Hr0.
    rewrite (msum_update _ _ k (NS k, r0)) by (apply ents_lookup; split; [done|by exists q]). cbn. lia.
  - rewrite msum_insert by (unfold ents; by rewrite map_lookup_imap, Ek). cbn. lia.
Qed.

Lemma putKey_counts idx k ref ln old :
  Index.blocks (@putKey nvShards idx k ref ln old) = Index.blocks idx + 1 - match old with Some _ => 1 | None => 0 end /\
  Index.bytes_ (@putKey nvShards idx k ref ln old) = Index.bytes_ idx + ln - match old with Some o => o | None => 0 end.
Proof. unfold putKey. destruct old; cbn; lia. Qed.

Lemma fresh_weights loc sum ttl : let r := freshRef loc sum ttl in
  isOnly r = 0 /\ onlyBytes r = 0 /\ (forall id, onlyIn id r = 0) /\
  forall ns tier ns', charged ns tier ns' r = if (ns' =? ns) && (Registry.TierNVMe =? tier) then LenOf loc else 0.
Proof. done. Qed.

(** The bytes below DRAM a tenant may have while callbacks run. *)
Definition bounded (B : Z) (t : T) : Prop := forall q ns, Dram.quotas (d t) = Some q -> Usage q ns Registry.TierNVMe < B.

(** What the accountant must show for it: the new block's bytes on NVMe. *)
Definition recharged (k : Key) (n : Z) (o o' : option Quotas.Quotas) : Prop :=
  match o, o' with
  | Some q, Some q' => quotas_ok q' /\ forall ns tier, low tier ->
      Usage q' ns tier = Usage q ns tier + (if (ns =? NS k) && (tier =? Registry.TierNVMe) then n else 0)
  | None, None => True
  | _, _ => False
  end.

Lemma Acc_published l t k loc sum ttl o :
  Inv l t -> 0 < LenOf loc -> recharged k (LenOf loc) (Dram.quotas (d t)) o ->
  Acc l (with_quotas o (published k (freshRef loc sum ttl) t)).
Proof.
  intros Hi Hlen HQ. set (r := freshRef loc sum ttl). set (tp := published k r t). set (t' := with_quotas _ tp).
  destruct (published_maps l t k r Hi) as (Ec & Ee & Hok). fold tp in Ec, Ee, Hok.
  destruct (fresh_weights loc sum ttl) as (W1 & W2 & W3 & W4). fold r in W1, W2, W3, W4.
  pose proof (published_sum l t k r) as Hsum. pose proof (published_count l t k r) as Hcnt. fold tp in Hsum, Hcnt.
  assert (forall f, esum f t' = esum f tp /\ rsum f t' = rsum f tp) as Ht' by done.
  pose proof Hi as [HA HH]. assert (refs t !! nextPtr t = None) as Hnew.
  { destruct (refs t !! nextPtr t) eqn:E; [|done]. destruct (ac_rec _ _ HA _ _ E) as [? _]. lia. }
  destruct HA as [K1 K2 K3 K4 K5 K5' K6 K7 K8 K9 K10 K11 K12]. split.
  - exact Hok.
  - change (cont t') with (cont tp). rewrite Ec. cbn. intros k' q [[<- <-]|[_ Hq]]%lookup_insert_Some; [by rewrite lookup_insert_eq|].
    destruct (K2 _ _ Hq) as [r0 Hr0]. rewrite lookup_insert_ne by congruence. done.
  - cbn. intros q r0 [[<- <-]|[_ Hq]]%lookup_insert_Some; [cbn; lia|]. destruct (K3 _ _ Hq). lia.
  - change (cont t') with (cont tp). rewrite Ec.
    assert (forall k', cont t !! k' <> Some (nextPtr t)) as Hno by (intros k' Hk'; destruct (K2 _ _ Hk'); congruence).
    intros k1 k2 q [[<- <-]|[N1 Q1]]%lookup_insert_Some [[<- Eq]|[N2 Q2]]%lookup_insert_Some; try done; [by apply Hno in Q2|
      subst q; by apply Hno in Q1|by eapply K4].
  - intros x Hx. specialize (K5 _ Hx). destruct x as [ns q r0| | | | | | | | | |]; try done. destruct K5 as [(r1 & Hr1 & Hf) Hno].
    split; [exists r1; cbn; by rewrite lookup_insert_ne by congruence|]. change (cont t') with (cont tp). rewrite Ec.
    intros k' [[_ <-]|[_ Hq]]%lookup_insert_Some; [congruence|by eapply Hno].
  - cbn. intros k' r' Hin. destruct (q ← cont t !! k; refs t !! q) as [old|] eqn:Eo; [|by eapply K5'].
    apply elem_of_cons in Hin as [[= -> ->]|Hin]; [|by eapply K5'].
    destruct (cont t !! k) as [q|]; [|done]. cbn in Eo. by eapply K3.
  - destruct (Ht' (fun _ _ => 1)) as [-> _]. rewrite Hcnt by done. change (idx t') with (idx tp). unfold tp, published. cbn [idx set_idx].
    rewrite (proj1 (putKey_counts _ _ _ _ _)), K6. destruct (q ← cont t !! k; refs t !! q); cbn; lia.
  - destruct (Ht' (fun _ => Len)) as [-> _]. rewrite Hcnt by done. change (idx t') with (idx tp). unfold tp, published. cbn [idx set_idx].
    rewrite (proj2 (putKey_counts _ _ _ _ _)), K7. destruct (q ← cont t !! k; refs t !! q); cbn; lia.
  - destruct (Ht' (fun _ => isOnly)) as [-> ->]. specialize (Hsum (fun _ => isOnly) Hi). cbn in *. lia.
  - destruct (Ht' (fun _ => onlyBytes)) as [-> ->]. specialize (Hsum (fun _ => onlyBytes) Hi). cbn in *. lia.
  - intros id. destruct (Ht' (fun _ => onlyIn id)) as [-> ->]. specialize (Hsum (fun _ => onlyIn id) Hi). specialize (W3 id).
    specialize (K10 id). cbn in *. lia.
  - exact K11.
  - cbn [with_quotas d set_d Dram.quotas Dram.set_quotas t']. destruct (Dram.quotas (d t)) as [q|], o as [q'|]; try done.
    destruct HQ as (Q1 & Q2). destruct K12 as [_ Ku]. split; [done|]. intros ns tier Ht. rewrite (Q2 _ _ Ht), (Ku _ _ Ht).
    specialize (Hsum (charged ns tier) Hi). rewrite W4 in Hsum. rewrite (Z.eqb_sym ns), (Z.eqb_sym tier).
    destruct (Ht' (charged ns tier)) as [-> ->]. lia.
Qed.

Lemma recharged_transfer l t k n B :
  Inv l t -> 0 < n < 2 ^ 32 -> bounded B t -> B < 2 ^ 62 + 2 ^ 40 ->
  recharged k n (Dram.quotas (d t)) ((fun q => Quotas.Transfer q (NS k) Registry.TierDRAM Registry.TierNVMe n) <$> Dram.quotas (d t)).
Proof.
  intros [HA _] Hn Hb HB. pose proof (ac_quota _ _ HA) as Kq. destruct (Dram.quotas (d t)) as [q|] eqn:Eq; [|done]. destruct Kq as [Kq Ku].
  assert (0 <= Usage q (NS k) Registry.TierNVMe) as Hu0.
  { rewrite Ku by (by left). pose proof (esum_pos _ t (charged (NS k) Registry.TierNVMe) HA ltac:(intros; by apply charged_pos)).
    pose proof (rsum_pos _ t (charged (NS k) Registry.TierNVMe) HA ltac:(intros; by apply charged_pos)).
    pose proof (total_pos (wCharge (NS k) Registry.TierNVMe) l ltac:(intros; by eapply wCharge_pos)). lia. }
  pose proof (Hb q (NS k) Eq).
  destruct (Transfer_low q (NS k) Registry.TierDRAM Registry.TierNVMe n) as [Q1 Q2];
    [done|by left|done|done|lia|done|lia|by intros [|]|by right|]. split; [done|].
  intros ns tier Ht. rewrite (Q2 _ _ Ht). replace (tier =? Registry.TierDRAM) with false by (by destruct Ht as [-> | ->]).
  rewrite andb_false_r. lia.
Qed.

Lemma recharged_bounded k n o o' B t t' :
  recharged k n o o' -> n < 2 ^ 32 -> Dram.quotas (d t) = o -> Dram.quotas (d t') = o' -> bounded B t -> bounded (B + 2 ^ 32) t'.
Proof.
  intros HQ Hn E E' Hb q' ns Hq. rewrite Hq in E'. subst o'. destruct o as [q|]; [|done]. destruct HQ as [_ HQ].
  rewrite HQ by (by left). specialize (Hb q ns E). case_if; lia.
Qed.

Lemma published_ents l t k r k' ns r' :
  Inv l t -> ents (published k r t) !! k' = Some (ns, r') -> (k' = k /\ ns = NS k /\ r' = r) \/ (k' <> k /\ ents t !! k' = Some (ns, r')).
Proof.
  intros Hi. destruct (published_maps l t k r Hi) as (_ & -> & _).
  intros [[<- [= <- <-]]|[Hne He]]%lookup_insert_Some; [by left|by right].
Qed.

Lemma token_published l t i k loc sum ttl x :
  Inv l t -> landed t i k loc -> unclaimed l i (SegmentID loc) -> x ∈ l -> token_ok (published k (freshRef loc sum ttl) t) x.
Proof.
  intros Hi (_ & Hh & _) Hun Hx. pose proof (ho_tok _ _ _ _ (proj2 Hi) _ Hx) as Hok. specialize (Hun _ Hx).
  set (r := freshRef loc sum ttl). pose proof (fun k' ns r' => published_ents l t k r k' ns r' Hi) as He.
  assert (refs t !! nextPtr t = None) as Hnew.
  { destruct (refs t !! nextPtr t) eqn:E; [|done]. destruct (ac_rec _ _ (proj1 Hi) _ _ E) as [? _]. lia. }
  destruct (published_maps l t k r Hi) as (Ec & _ & _).
  destruct x as [| | | | | |id ph| | | |q id]; try done.
  - destruct ph as [|j todo cur|j fl todo|j es| |]; try done.
    + destruct Hok as (Ho & Hse & HN & Hf & Hc). split_and!; try done.
      * intros k' ns r' [(-> & _ & ->)|[_ Hk]]%He; [|by eapply Hf]. intros E1 E2. destruct Hun. by rewrite <- E1, <- E2, Hh.
      * destruct cur as [[k0 q]|]; [|done]. intros q' r'. rewrite Ec. cbn.
        intros [[-> <-]|[_ Hq']]%lookup_insert_Some.
        -- rewrite lookup_insert_eq. intros [= <-] E1 E2. destruct Hun. by rewrite <- E1, <- E2, Hh.
        -- destruct (ac_ref _ _ (proj1 Hi) _ _ Hq'). rewrite lookup_insert_ne by congruence. by apply Hc.
    + destruct Hok as (Hg & Hf). split; [done|]. intros k' ns r' [(-> & _ & ->)|[_ Hk]]%He; [|by eapply Hf].
      intros E1 E2. destruct Hun. by rewrite <- E1, <- E2, Hh.
    + intros k' ns r' [(-> & _ & ->)|[_ Hk]]%He; [done|by eapply Hok].
    + intros k' ns r' [(-> & _ & ->)|[_ Hk]]%He; [done|by eapply Hok].
  - destruct Hok as (r0 & Hr0 & Hs). exists r0. split; [|done]. cbn. rewrite lookup_insert_ne by congruence. done.
Qed.

Lemma Home_published l t i k loc sum ttl :
  Inv l t -> landed t i k loc -> unclaimed l i (SegmentID loc) -> Home l (published k (freshRef loc sum ttl) t).
Proof.
  intros Hi Hla Hun. pose proof Hla as (_ & Hh & g & Hg & Hli & Hsp). set (r := freshRef loc sum ttl).
  pose proof (fun k' ns r' => published_ents l t k r k' ns r' Hi) as He.
  assert (seg_at t (home N k) (segOf r) g) as Hg2 by (by rewrite Hh).
  assert (forall x, x ∈ l -> token_ok (published k r t) x) as Htok by (intros; by eapply token_published).
  destruct Hi as [HA [K1 K2 K3 K0 K4 K5 K6 K7 K8 K9 K10 K11 K13 K12]]. split; try done.
  - intros k' ns r' [(-> & _ & ->)|[_ Hk]]%He; [|by eapply K0]. destruct Hg2 as (v & Hv & Hsv). exists v. split; [done|].
    destruct (K2 _ _ Hv) as ([_ _ O3] & _). by apply (O3 _ _ Hsv).
  - intros k' ns r' [(-> & _ & ->)|[_ Hk]]%He; [|by eapply K4]. intros _. by exists g.
  - intros k' ns r' [(-> & _ & ->)|[_ Hk]]%He; [done|by eapply K5].
  - intros k' ns r' [(-> & _ & ->)|[_ Hk]]%He; [done|by eapply K6].
  - intros k' ns r' [(-> & _ & ->)|[_ Hk]]%He; [done|by eapply K7].
  - intros k' ns r' g' [(-> & _ & ->)|[_ Hk]]%He; [done|by eapply K8].
  - intros k' ns r' g' [(-> & _ & ->)|[_ Hk]]%He; [|by eapply K9]. intros Hg' Hs'. change (seg_at t (home N k) (segOf r) g') in Hg'.
    rewrite (seg_fun _ _ _ _ _ Hg' Hg2) in Hs'. congruence.
Qed.

Lemma Inv_tierPublish l t i k loc sum ttl B b t' :
  Inv l t -> landed t i k loc -> unclaimed l i (SegmentID loc) -> bounded B t -> B < 2 ^ 62 + 2 ^ 40 ->
  publish k loc sum ttl t = Next b t' ->
  Inv l t' /\ bounded (B + 2 ^ 32) t' /\ vols t' = vols t /\ closures t' = closures t.
Proof.
  intros Hi Hla Hun Hb HB E. apply (publish_next l) in E; [|done].
  destruct Hla as (Hlen & Hla). pose proof (recharged_transfer l t k (LenOf loc) B Hi Hlen Hb HB) as HQ.
  pose proof (Acc_published l t k loc sum ttl _ Hi (proj1 Hlen) HQ) as HA'.
  pose proof (Home_published l t i k loc sum ttl Hi (conj Hlen Hla) Hun) as HH'.
  destruct (Dram.quotas (d t)) as [q|] eqn:Eq; subst t'.
  - split_and!; try done; [|by eapply (recharged_bounded _ _ _ _ B t); [exact HQ|lia|..]].
    split; [done|]. by apply (Home_same _ _ _ (published k (freshRef loc sum ttl) t)).
  - split_and!; try done.
    + split; [|done]. eapply Acc_same; [| |exact HA']; [done|]. cbn. by rewrite Eq.
    + intros q0 ns. cbn. by rewrite Eq.
Qed.

(** ** Callbacks *)

(** What actions beside the publication leave alone. *)
Definition aloof {B} (m : act B) : Prop := forall l t b t', Inv l t -> m t = Next b t' ->
  Inv l t' /\ vols t' = vols t /\ closures t' = closures t /\ forall B0, bounded B0 t -> bounded B0 t'.

Lemma aloof_bind {B C} (m : act B) (f : B -> act C) : aloof m -> (forall b, aloof (f b)) -> aloof (m ≫= f).
Proof.
  intros Hm Hf l t c t' Hi (b & t1 & E1 & E2)%next_bind. destruct (Hm _ _ _ _ Hi E1) as (Hi1 & <- & <- & Hb).
  destruct (Hf _ _ _ _ _ Hi1 E2) as (Hi2 & -> & -> & Hb2). split_and!; auto.
Qed.

Lemma aloof_ret {B} (b : B) : aloof (mret b).
Proof. by intros l t b' t' Hi [= _ <-]. Qed.

Lemma aloof_bump c : aloof (bump c).
Proof. intros l t b t' Hi E. split; [by eapply calm_bump|]. by injection E as _ <-. Qed.

Lemma aloof_dram {B} (m : sm (Dram.Store A P) B) : frames m -> aloof (dram m).
Proof.
  intros Hm l t b t' Hi E. split; [by eapply calm_dram|]. unfold dram in E. destruct (m (d t)) as [[b' s]|] eqn:Em; [|done].
  injection E as _ <-. split_and!; try done. intros B0 Hb q ns Hq. cbn in Hq. apply Hm in Em. rewrite Hq in Em.
  pose proof (ac_quota _ _ (proj1 Hi)) as Kq. specialize (Hb) as Hb'. unfold bounded in Hb'.
  destruct (Dram.quotas (d t)) as [q0|] eqn:Eq; [|done]. destruct Kq as [Kq _]. destruct (Em Kq) as [_ Hu].
  rewrite Hu by (by left). by apply Hb.
Qed.

Lemma aloof_drop dm : aloof (dropDemotion dm).
Proof. apply aloof_bind; [apply aloof_bump|]. intros _. apply aloof_dram, fr_polAdmit. Qed.

Section Callbacks.
Context (time : nat -> Z).

Lemma Inv_onWritten l t i dm loc B b t' :
  Inv l t -> (forall lo, loc = Some lo -> landed t i (dm_k dm) lo /\ unclaimed l i (SegmentID lo)) ->
  bounded B t -> 0 <= B < 2 ^ 62 + 2 ^ 40 -> onWritten time dm loc t = Next b t' ->
  Inv l t' /\ bounded (B + 2 ^ 32) t' /\ vols t' = vols t /\ closures t' = closures t.
Proof.
  intros Hi Hla Hb HB E.
  assert (forall s s', bounded B s -> (forall B0, bounded B0 s -> bounded B0 s') -> bounded (B + 2 ^ 32) s') as Hup.
  { intros s s' Hs Hss q ns Hq. specialize (Hss B Hs q ns Hq). lia. }
  unfold onWritten in E. apply next_bind in E as (u & t1 & E1 & E).
  destruct (aloof_dram _ (fr_releaseRef _) _ _ _ _ Hi E1) as (Hi1 & V1 & C1 & B1).
  destruct loc as [lo|].
  2: { destruct (aloof_drop dm _ _ _ _ Hi1 E) as (Hi2 & -> & -> & B2). split_and!; try done. eapply Hup; [exact (B1 _ Hb)|done]. }
  destruct (Hla _ eq_refl) as [Hl Hun]. apply next_bind in E as (pub & t2 & Ec & E).
  assert (Inv l t2 /\ bounded (B + 2 ^ 32) t2 /\ vols t2 = vols t /\ closures t2 = closures t) as (Hi2 & B2 & V2 & C2).
  { unfold completeDemotion in Ec. apply next_bind in Ec as (ttl & s1 & [= _ <-] & Ec).
    apply next_bind in Ec as (ok & s2 & Ed & Ec).
    destruct (aloof_dram _ (fr_CompleteDemotion time _ _ _ _) _ _ _ _ Hi1 Ed) as (Hi2 & V2 & C2 & B2).
    destruct ok; cbn [negb] in Ec.
    - apply next_bind in Ec as (w & s3 & Ep & [= _ <-]).
      assert (landed s2 i (dm_k dm) lo) as Hl2 by (apply (landed_vols t); [congruence|done]).
      destruct (Inv_tierPublish l s2 i _ _ _ _ B _ _ Hi2 Hl2 Hun (B2 _ (B1 _ Hb)) ltac:(lia) Ep) as (? & ? & -> & ->).
      split_and!; try done; congruence.
    - injection Ec as _ <-. split_and!; try done; try congruence. eapply Hup; [exact (B1 _ Hb)|done]. }
  destruct pub.
  - destruct (aloof_bump _ _ _ _ _ Hi2 E) as (? & -> & -> & B3). split_and!; try done. by apply B3.
  - destruct (aloof_drop dm _ _ _ _ Hi2 E) as (? & -> & -> & B3). split_and!; try done. by apply B3.
Qed.

(** An acknowledgement whose callback may run. *)
Definition ready (l : list token) (t : T) (i : nat) (a : Nvme.AppendReq * option Loc) : Prop :=
  (forall dm, closures t !! Nvme.r_OnWritten a.1 = Some dm -> dm_k dm = mkKey (Nvme.r_NS a.1) (Nvme.r_Key a.1)) /\
  forall lo, a.2 = Some lo -> landed t i (mkKey (Nvme.r_NS a.1) (Nvme.r_Key a.1)) lo /\ unclaimed l i (SegmentID lo).

Lemma Inv_uncall l t c : Inv l t -> Inv l (set_closures (delete c (closures t)) t).
Proof.
  intros [HA HH]. split; [by apply (Acc_same _ t); [|apply same_below_refl|]|].
  destruct HH as [K1 K2 K3 K0 K4 K5 K6 K7 K8 K9 K10 K11 K13 K12]. split; try done.
  intros i v Hv. destruct (K2 _ _ Hv) as (O & Hl & Hq). split_and!; try done. intros r Hr.
  destruct (Hq _ Hr) as (Q1 & Q2 & Q3 & Q4). split_and!; try done. cbn. intros dm [_ Hd]%lookup_delete_Some. by apply Q4.
Qed.

Lemma Inv_callbacks l i acks t B b t' :
  Inv l t -> (forall a, a ∈ acks -> ready l t i a) -> bounded B t -> 0 <= B ->
  B + 2 ^ 32 * Z.of_nat (length acks) < 2 ^ 62 + 2 ^ 40 -> each (callback time) acks t = Next b t' -> Inv l t'.
Proof.
  revert t B. induction acks as [|[r loc] acks IH]; intros t B Hi Hr Hb HB Hn E; cbn [each] in E; [by injection E as _ <-|].
  apply next_bind in E as (u & t1 & E1 & E). unfold callback in E1. cbn [fst snd] in E1. cbn [length] in Hn.
  destruct (closures t !! Nvme.r_OnWritten r) as [dm|] eqn:Ed; [|done]. set (t0 := set_closures _ t) in *.
  pose proof (Inv_uncall l t (Nvme.r_OnWritten r) Hi) as Hi0. fold t0 in Hi0.
  destruct (Hr (r, loc) ltac:(left)) as [Hk Hla]. cbn [fst snd] in Hk, Hla. specialize (Hk _ Ed).
  destruct (Inv_onWritten l t0 i dm loc B u t1 Hi0) as (Hi1 & Hb1 & V1 & C1); [|exact Hb|lia|exact E1|].
  { intros lo ->. rewrite Hk. exact (Hla lo eq_refl). }
  eapply (IH t1 (B + 2 ^ 32)); [done| |done|lia|lia|exact E]. intros a Ha. destruct (Hr a ltac:(by right)) as [R1 R2]. split.
  - intros dm0. rewrite C1. cbn. intros [_ Hd]%lookup_delete_Some. by apply R1.
  - intros lo Hlo. destruct (R2 _ Hlo) as [Hl Hu]. split; [|done]. by apply (landed_vols t).
Qed.

(** Where a turn of the writer lands a block. *)
Lemma ready_turn l t i v v' a :
  Inv l t -> vols t !! i = Some v -> grows (queued N t i) (2 ^ 31) v v' -> Nvme.acks v = [] -> a ∈ Nvme.acks v' ->
  ready l (set_vols (<[i := v']> (vols t)) t) i a.
Proof.
  intros Hi Hv [O Nw F X R (new & Ea & HG & Hok)] Hnil Hin. rewrite Hnil, app_nil_r in Ea. rewrite Ea in Hin. destruct a as [r o].
  destruct (HG _ _ Hin) as (Q1 & Q2 & Q3 & Q4). split; [done|]. cbn [fst snd]. intros lo ->.
  destruct (Hok _ _ Hin) as (E1 & E2 & (g & e & Hg & He & En & Ek) & Hns).
  destruct (ho_vol _ _ _ _ (proj2 Hi) _ _ Hv) as ([_ _ O3] & _). split.
  - split_and!; [lia|lia|done|]. exists g. split_and!.
    + exists v'. split; [by apply (vols_set _ _ v)|done].
    + exists e. split; [done|]. unfold entryKey. by rewrite En, Ek.
    + destruct (sv v !! SegmentID lo) as [g0|] eqn:Eg; [|by apply (Nw _ _ Hg Eg)].
      destruct (O _ _ Eg) as (g1 & Hg1 & Had). simplify_eq. rewrite (proj1 Had). apply (O3 _ _ Eg). by apply Hns.
  - assert (forall id g0, seg_at t i id g0 -> Nvme.s_sealed g0 = true -> id <> SegmentID lo) as Hse.
    { intros id g0 (w & Hw & Hg0) Hs ->. simplify_eq. rewrite (Hns _ Hg0) in Hs. done. }
    assert (forall id, sealed_if t i id -> id <> SegmentID lo) as Hsi.
    { intros id (w & Hw & Hlt & Hs) ->. simplify_eq. destruct (sv v !! SegmentID lo) as [g0|] eqn:Eg.
      - specialize (Hs _ eq_refl). rewrite (Hns _ eq_refl) in Hs. done.
      - destruct (Nw _ _ Hg Eg). lia. }
    intros x Hx. pose proof (ho_tok _ _ _ _ (proj2 Hi) _ Hx) as Ht.
    destruct x as [| | | | | |id [|j todo cur|j fl todo| | |]| | | |]; try done.
    + intros [= -> ->]. by apply (Hsi (SegmentID lo)); [apply Ht|].
    + intros [= -> ->]. destruct Ht as ((g0 & Hg0 & Hs & _) & _). by apply (Hse _ _ Hg0 Hs).
Qed.

Lemma bounded_legal (t : T) : legal t = true -> bounded (2 ^ 62) t.
Proof. intros Hl q ns Hq. eapply legal_small; [done..|by left]. Qed.

Lemma Inv_writerTurn vp l t i b t' :
  0 <= Nvme.MaxBlobLen vp < 2 ^ 32 -> legal t = true -> Inv l t ->
  calling time i (@Nvme.writerTurn (volWorld i) vp) t = Next b t' -> Inv l t'.
Proof.
  intros Hvp Hl Hi E. pose proof (bounded_legal _ Hl) as Hb. unfold calling in E.
  apply next_bind in E as (u1 & t1 & (v & v1 & Hv & [= _ <-] & ->)%vol_next & E).
  pose proof (legal_next _ _ _ Hl Hv) as Hn.
  assert (Inv l (set_vols (<[i := Nvme.set_acks [] v]> (vols t)) t)) as Hi1 by (by eapply (Inv_vol_same p N)).
  set (t1 := set_vols _ t) in *. set (v1 := Nvme.set_acks [] v) in *.
  assert (vols t1 !! i = Some v1) as Hv1 by (by apply (vols_set _ _ v)).
  apply next_bind in E as (u2 & t2 & (w & v2 & Hw & Et & ->)%vol_next & E). rewrite Hv1 in Hw. injection Hw as <-.
  destruct (ho_vol _ _ _ _ (proj2 Hi1) _ _ Hv1) as (Ho & Hlen & _).
  destruct (turn_writer vp (queued N t1 i) v1 u2 v2 Hvp Ho (queued_all _ _ _ _ Hi1 Hv1) Hlen Hn Et) as [Ho2 Hg].
  pose proof (counts_writer vp _ _ _ Et) as Hc. cbn in Hc.
  pose proof (Inv_grows l t1 i v1 v2 _ Hi1 Hv1 Ho2 Hg) as Hi2.
  apply next_bind in E as (acks & t3 & [-> (w & Hw & ->)]%vol_gets & E). rewrite (vols_set _ _ v1) in Hw by done. injection Hw as <-.
  eapply (Inv_callbacks l i (reverse (Nvme.acks v2)) _ (2 ^ 62)); [exact Hi2| |exact Hb|lia| |exact E].
  - intros a Ha. rewrite elem_of_reverse in Ha. by apply (ready_turn l t1 i v1 v2 a Hi1 Hv1 Hg).
  - rewrite length_reverse. cbn in Hlen. lia.
Qed.

End Callbacks.

(** ** Appends *)

Lemma Inv_append l t i k sum data dm b t' :
  Inv l t -> 0 < len data -> volIx N (Hash k) = i -> dm_k dm = k -> append i k sum data dm t = Next b t' -> Inv l t'.
Proof.
  intros Hi Hd Hix Hk E. unfold append in E. apply next_bind in E as (c & t1 & [= <- <-] & E).
  apply next_bind in E as (ok & t1 & (v & v' & Hv & Ea & ->)%vol_next & E).
  apply Append_view in Ea as [[-> ->]|(-> & -> & Hlen)].
  { injection E as _ <-. rewrite list_insert_id by done. by destruct t. }
  injection E as _ <-. set (r := Nvme.mkAppendReq _ _ _ _ _). destruct Hi as [HA HH].
  split; [by apply (Acc_same _ t); [|apply same_below_refl|]|].
  assert (forall j q, queued N t j q -> queued N (set_nextClosure (nextClosure t + 1) (set_closures (<[nextClosure t := dm]> (closures t)) t)) j q) as Hold.
  { intros j q (Q1 & Q2 & Q3 & Q4). split_and!; try done; cbn; [lia|]. intros dm0. rewrite lookup_insert_ne by lia. apply Q4. }
  eapply Home_vsteps; [exact HH| |done|].
  - split; [cbn; by rewrite length_insert|]. cbn. intros j w [[-> [<- _]]|[Hne Hw]]%list_lookup_insert_Some.
    + exists v. split; [done|by apply vkeeps_view].
    + exists w. split; [done|by apply vkeeps_view].
  - cbn. intros j w [[-> [<- _]]|[Hne Hw]]%list_lookup_insert_Some.
    + destruct (ho_vol _ _ _ _ HH _ _ Hv) as ([O1 O2 O3] & Hl & Hq). split_and!; [by split| |].
      * cbn. rewrite length_app. cbn. unfold len in Hlen. lia.
      * cbn. intros q [Hq'|Hq']%elem_of_app; [by apply Hold, Hq|]. apply list_elem_of_singleton in Hq' as ->.
        split_and!; try done; cbn; [lia|]. intros dm0. rewrite lookup_insert_eq. intros [= <-]. rewrite Hk. by destruct k.
    + destruct (ho_vol _ _ _ _ HH _ _ Hw) as (O & Hl & Hq). split_and!; [done..|]. intros q Hq'. by apply Hold, Hq.
Qed.

Lemma some_bind {S B C} (m : sm S B) (f : B -> sm S C) s c s' :
  (m ≫= f) s = Some (c, s') -> exists b s1, m s = Some (b, s1) /\ f b s1 = Some (c, s').
Proof. unfold mbind, sm_mbind. destruct (m s) as [[b s1]|]; [|done]. by exists b, s1. Qed.

(** What is demoted is not empty. *)
Lemma RefForDemotion_data ns key (s : Dram.Store A P) data sum hits ref s' :
  Dram.RefForDemotion ns key s = Some (Some (data, sum, hits, ref), s') -> 0 < len data.
Proof.
  intros (o & s1 & _ & E)%some_bind. destruct o as [q|]; [|done]. apply some_bind in E as (r & s2 & _ & E).
  destruct (Z.eqb_spec (Block.Len r) 0) as [|Hn]; [done|]. destruct (Block.Acquire r) as [r' ok] eqn:Ea. destruct ok; [|done].
  cbn [negb] in E. apply some_bind in E as (u & s3 & _ & E). apply some_bind in E as (b & s4 & Er & E). injection E as <- _ _ _ _.
  unfold Dram.arenaRead in Er. destruct (Dram.closed s3); [done|]. case_if_in Er; [done|].
  destruct (slice (Dram.arena s3) _ _) as [b'|] eqn:Es; [|done]. injection Er as <- _.
  assert (Block.Len r' = Block.Len r) as El by (unfold Block.Acquire in Ea; case_if_in Ea; by inversion Ea).
  pose proof (slice_len _ _ _ _ Es) as Hl. pose proof (len_nonneg b'). lia.
Qed.

Lemma volumeFor_next key l t i t' : Inv l t -> volumeFor key t = Next i t' -> i = volIx N key.
Proof.
  intros [_ HH] E. unfold volumeFor in E. destruct (le_get 8 key) as [h|] eqn:Eh; [|done]. destruct (vols t) eqn:Ev; [done|].
  injection E as <- _. unfold volIx. rewrite Eh. rewrite <- Ev. unfold len. by rewrite (ho_len _ _ _ _ HH).
Qed.

(** ** The pass *)

Section Pass.
Context (time : nat -> Z).

Lemma calm_dramRefund ns n : calm (quotas (fun q => Quotas.Refund q ns Registry.TierDRAM n)).
Proof.
  intros l t b t' Hi [[_ ->]|(q & Eq & ->)]%quotas_next; [done|]. eapply (Inv_quiet_vols _ _ _ t); try done.
  cbn. rewrite Eq. apply Refund_below.
Qed.

Lemma calm_complete k sum (pub : bool) : calm (completeDemotion time k sum (if pub then Some (fun _ => mret tt) else None)).
Proof. unfold completeDemotion. destruct pub; repeat calm_step. Qed.

Lemma calm_dropDemotion dm : calm (dropDemotion dm).
Proof. unfold dropDemotion. repeat calm_step. Qed.

#[local] Hint Resolve calm_dramRefund calm_complete calm_dropDemotion : calm.

Lemma keeps_demoteDone k sum ref size resident t c pub : every keeps (demoteDone time k sum ref size resident t c pub).
Proof. unfold demoteDone. repeat keeps_step. Qed.

Lemma safe_demoteOne k size t own : safe own (back own) (demoteOne time p k size t).
Proof.
  unfold demoteOne. intros rest s o s' _ Hi E. exists own. split; [eapply calm_dram; [apply fr_RefForDemotion|done..]|].
  destruct o as [[[[data sum] hits] ref]|]; [|done].
  assert (0 < len data) as Hd.
  { unfold dram in E. destruct (Dram.RefForDemotion (NS k) (Hash k) (d s)) as [[o s1]|] eqn:Er; [|done].
    injection E as -> _. by eapply RefForDemotion_data. }
  clear rest s s' Hi E. cbv zeta. apply safe_calm_act; [apply calm_iget|]. intros e.
  eapply safe_bind; [apply safe_keeps; destruct e; repeat keeps_step|]. intros same o ->.
  destruct same; [apply safe_keeps, keeps_demoteDone|]. case_if; [apply safe_keeps, keeps_demoteDone|].
  unfold demoteWrite. intros rest s i s' _ Hi E. exists own. split; [by eapply calm_volumeFor|].
  pose proof (volumeFor_next _ _ _ _ _ Hi E) as Hix. clear rest s s' Hi E.
  apply (safe_act _ _ _ (fun _ => own)); [intros l s b s' _ Hi E; eapply Inv_append; [exact Hi|exact Hd|by symmetry| |exact E]; done|].
  intros []; [done|]. apply safe_keeps. repeat keeps_step.
Qed.

Lemma safe_harvest ns want t moved processed own : safe own (back own) (harvest time p ns want t moved processed).
Proof.
  unfold harvest. apply safe_calm_act; [by repeat calm_step|]. intros cands. revert moved processed.
  induction cands as [|c cands IH]; intros moved processed; [done|]. cbn [demoteAll].
  eapply safe_bind; [apply safe_demoteOne|]. intros n o ->. apply IH.
Qed.

Lemma safe_demoteShares us total t need moved processed own :
  safe own (back own) (demoteShares time p us total t need moved processed).
Proof.
  revert moved processed. induction us as [|u us IH]; intros moved processed; [done|]. cbn [demoteShares]. cbv zeta.
  case_if; [apply IH|]. eapply safe_bind; [apply safe_harvest|]. intros [m q] o ->. apply IH.
Qed.

Lemma safe_demoteRest us t need moved processed own : safe own (back own) (demoteRest time p us t need moved processed).
Proof.
  revert moved processed. induction us as [|u us IH]; intros moved processed; [done|]. cbn [demoteRest].
  case_if; [done|]. eapply safe_bind; [apply safe_harvest|]. intros [m q] o ->. apply IH.
Qed.

Lemma safe_demotePass own : safe own (back own) (demotePass time p).
Proof.
  unfold demotePass. apply safe_calm_act; [apply calm_get|]. intros none. destruct none; [done|].
  apply safe_calm_act; [by repeat calm_step|]. intros [used total]. case_if; [done|]. cbv zeta. case_if; [done|].
  apply safe_calm_act; [apply calm_now|]. intros t. apply safe_calm_act; [by repeat calm_step|]. intros us. case_if; [done|].
  eapply safe_bind; [apply safe_demoteShares|]. intros [m q] o ->. apply safe_demoteRest.
Qed.

Lemma safe_reclaimPass vp own : (Spill p = true -> N = 1%nat) -> safe own (back own) (reclaimPass time vp p).
Proof.
  intros HN. unfold reclaimPass. apply safe_calm_act; [apply calm_get|]. intros n. apply safe_forEach. intros i _.
  eapply safe_bind; [by apply safe_reclaimVolume|]. intros _ o ->. by apply safe_recoverWrites.
Qed.

Lemma safe_tickBody vp own : (Spill p = true -> N = 1%nat) -> safe own (back own) (tickBody time vp p).
Proof.
  intros HN. unfold tickBody. eapply safe_bind; [apply safe_demotePass|]. intros _ o ->.
  eapply safe_bind; [by apply safe_spillPass|]. intros _ o ->. by apply safe_reclaimPass.
Qed.

End Pass.

End Demote.
End TieredDemote.
