(* ===== verification/TieredBoot.v ===== *)
(** Construction: the index seeded from recovery satisfies the invariant of the
    tiers; and every handler keeps it. *)

From Stdlib Require Import ZArith Lia.
From coqutil Require Import Byte.
From stdpp Require Import base numbers list gmap sets.
From S2P Require Import Prelude.
From S2P Require Import Conc.
From S2P Require Import Wire.
From S2P Require Import Tenant.
From S2P Require Import Eviction.
From S2P Require Import BlockRef.
From S2P Require Import Index.
From S2P Require Import DramStore.
From S2P Require Import NvmeFormat.
From S2P Require Import NvmeVolume.
From S2P Require Import NvmeSpill.
From S2P Require Import NvmeIndex.
From S2P Require Import Tiered.
From S2P Require Import TieredVol.
From S2P Require Import TieredDram.
From S2P Require Import TieredInv.
From S2P Require Import TieredActs.
From S2P Require Import TieredMoves.
From S2P Require Import TieredSurface.
From S2P Require Import TieredLatch.
From S2P Require Import TieredCold.
From S2P Require Import TieredRetire.
From S2P Require Import TieredRestore.
From S2P Require Import TieredDemote.
Import Conc Ops Eviction Seg NvmeIndex Tiered TieredVol TieredDram TieredInv TieredActs TieredMoves TieredSurface TieredLatch TieredCold TieredRetire TieredRestore TieredDemote.
Open Scope Z_scope.
Open Scope go_scope.
Open Scope conc_scope.

Module TieredBoot.

Section Boot.
Context {A P : Type} `{!Dram.ExtentAlloc A} `{!Policy P} `{!Index.IndexEnv} `{!Xxh3} `{!Outside}.
Context (p : Params) (N : nat).

Abbreviation T := (Tiered A P).
Abbreviation Inv := (Inv (A := A) (P := P) N (Spill p)).
Abbreviation Home := (Home (A := A) (P := P) N (Spill p)).

(** ** Seeding *)

(** A recovered block is listed by a segment of its key's volume. *)
Definition recovered_ok (vs : list Nvme.Volume) (e : Nvme.RecoveredEntry) : Prop :=
  0 < LenOf (Nvme.re_Loc e) < 2 ^ 32 /\
  exists v g, vs !! volIx N (Nvme.re_Key e) = Some v /\ sv v !! SegmentID (Nvme.re_Loc e) = Some g /\
    listed (mkKey (Nvme.re_NS e) (Nvme.re_Key e)) g.

(** A volume as recovery leaves it. *)
Definition booted (i : nat) (v : Nvme.Volume) : Prop :=
  volume_ok v /\ Nvme.reqs v = [] /\ forall id g, sv v !! id = Some g ->
    Nvme.s_spilled g = false /\ forall e, e ∈ Nvme.s_entries g -> volIx N (e_Key e) = i.

(** An accountant that has seen nothing below DRAM. *)
Definition unspent (o : option Quotas.Quotas) : Prop :=
  match o with Some q => quotas_ok q /\ forall ns tier, low tier -> Usage q ns tier = 0 | None => True end.

Lemma Inv_empty (s : Dram.Store A P) vs :
  length vs = N -> (forall i v, vs !! i = Some v -> booted i v) -> unspent (Dram.quotas s) -> Inv [] (emptyTiered s vs).
Proof.
  intros Hl Hv Hq.
  assert (cont (emptyTiered s vs) = ∅) as Ec by apply (@Index.new_contents nvShards).
  assert (ents (emptyTiered s vs) = ∅) as Ee.
  { apply map_eq. intros k. unfold ents. by rewrite map_lookup_imap, Ec, !lookup_empty. }
  assert (forall f, esum f (emptyTiered s vs) = 0) as Hs by (intros f; unfold esum; rewrite Ee; apply msum_empty).
  split; split; rewrite ?Ec, ?Ee, ?Hs; try done.
  - apply (@Index.new_ok nvShards).
  - by intros x ?%not_elem_of_nil.
  - by intros k r ?%not_elem_of_nil.
  - cbn. intros i v Hi. destruct (Hv _ _ Hi) as (Ho & Er & _). rewrite Er. split_and!; [done|cbn; lia|]. intros r Hr. by apply not_elem_of_nil in Hr.
  - intros i id g e (v & Hi & Hg) He. destruct (Hv _ _ Hi) as (_ & _ & Hb). by apply (Hb _ _ Hg).
  - split; [done|constructor].
  - by intros i id ?%not_elem_of_nil.
  - by intros x ?%not_elem_of_nil.
  - by intros x ?%not_elem_of_nil.
Qed.

Lemma Inv_seed vs e t B b t' :
  Inv [] t -> vols t = vs -> (forall i v, vs !! i = Some v -> booted i v) -> recovered_ok vs e ->
  bounded B t -> 0 <= B < 2 ^ 62 -> seedEntry e t = Next b t' -> Inv [] t' /\ vols t' = vs /\ bounded (B + LenOf (Nvme.re_Loc e)) t'.
Proof.
  intros Hi Ev Hb (Hlen & v & g & Hv & Hg & Hli) Hbd HB E. set (k := mkKey (Nvme.re_NS e) (Nvme.re_Key e)) in *.
  set (loc := Nvme.re_Loc e) in *. set (r := freshRef loc (Nvme.re_XXH3 e) 0).
  assert (exists t1, published k r t = t1 /\ quotas (fun q => Quotas.Seed q (NS k) Registry.TierNVMe (LenOf loc)) t1 = Next b t') as (t1 & <- & E1).
  { unfold seedEntry in E. cbv zeta in E. fold loc k r in E. apply next_bind in E as (nr & s1 & En & E).
    apply next_bind in E as (u & s2 & Ep & E). exists s2. split; [|exact E].
    assert ((nr ← newRef r; putThen k nr (mret tt)) t = Next u s2) as Eall by (unfold mbind, act_bind at 1; by rewrite En).
    apply (putNew_next p N []) in Eall; [|done]. by injection Eall. }
  assert (landed N t (volIx N (Nvme.re_Key e)) k loc) as Hla.
  { split_and!; [apply Hlen..|done|]. exists g. split_and!; [exists v; by rewrite Ev|done|].
    destruct (Hb _ _ Hv) as (_ & _ & Hs). by apply (Hs _ _ Hg). }
  assert (unclaimed [] (volIx N (Nvme.re_Key e)) (SegmentID loc)) as Hun by (by intros x ?%not_elem_of_nil).
  pose proof (Home_published p N [] t _ k loc (Nvme.re_XXH3 e) 0 Hi Hla Hun) as HH'. fold r in HH'.
  assert (recharged k (LenOf loc) (Dram.quotas (d t))
    ((fun q => Quotas.Seed q (NS k) Registry.TierNVMe (LenOf loc)) <$> Dram.quotas (d t))) as HQ.
  { pose proof (ac_quota _ _ (proj1 Hi)) as Kq. destruct (Dram.quotas (d t)) as [q|] eqn:Eq; [|done]. destruct Kq as [Kq Ku].
    destruct (QuotaFacts.Seed_set q (NS k) Registry.TierNVMe (LenOf loc) Kq eq_refl (proj1 Hlen)) as (Q1 & _ & Q2). split; [done|].
    intros ns tier Ht. rewrite Q2 by (by apply low_ok).
    destruct (decide (ns = NS k /\ tier = Registry.TierNVMe)) as [[-> ->]|Hd].
    - rewrite !Z.eqb_refl. cbn [andb]. specialize (Hbd q (NS k) Eq). unfold Quotas.i64. rewrite sint_id; [done..|].
      rewrite Ku by (by left). cbn [total].
      pose proof (esum_pos _ t (charged (NS k) Registry.TierNVMe) (proj1 Hi) ltac:(intros; by apply charged_pos)).
      pose proof (rsum_pos _ t (charged (NS k) Registry.TierNVMe) (proj1 Hi) ltac:(intros; by apply charged_pos)).
      rewrite Ku in Hbd by (by left). cbn [total] in Hbd. lia.
    - replace ((ns =? NS k) && (tier =? Registry.TierNVMe)) with false; [lia|]. symmetry. apply andb_false_iff. rewrite !Z.eqb_neq.
      destruct (decide (ns = NS k)); [right|by left]. naive_solver. }
  pose proof (Acc_published p N [] t k loc (Nvme.re_XXH3 e) 0 _ Hi (proj1 Hlen) HQ) as HA'. fold r in HA'.
  assert (forall o, recharged k (LenOf loc) (Dram.quotas (d t)) o -> Dram.quotas (d t') = o -> bounded (B + LenOf loc) t') as Hbd'.
  { intros o Ho Eo q' ns Hq'. rewrite Hq' in Eo. subst o. unfold recharged in Ho.
    destruct (Dram.quotas (d t)) as [q|] eqn:Eq; [|done]. destruct Ho as [_ Ho]. rewrite Ho by (by left). specialize (Hbd q ns Eq). case_if; lia. }
  apply quotas_next in E1 as [[En ->]|(q & Eq & ->)]; cbn in En || cbn in Eq.
  - rewrite En in HA', HQ. split_and!; [|done|apply (Hbd' None); [by rewrite En|exact En]]. split; [|done].
    eapply Acc_same; [| |exact HA']; [done|]. cbn. by rewrite En.
  - rewrite Eq in HA', HQ. split_and!; [|done|apply (Hbd' _ ltac:(rewrite Eq; exact HQ)); done]. split; [done|].
    by apply (Home_same _ _ _ (published k r t)).
Qed.

(** The bytes recovery found. *)
Definition seeded (es : list Nvme.RecoveredEntry) : Z := total (fun e => LenOf (Nvme.re_Loc e)) es.

Lemma Inv_seeds vs es t B b t' :
  Inv [] t -> vols t = vs -> (forall i v, vs !! i = Some v -> booted i v) -> (forall e, e ∈ es -> recovered_ok vs e) ->
  bounded B t -> 0 <= B -> B + seeded es < 2 ^ 62 -> each seedEntry es t = Next b t' -> Inv [] t'.
Proof.
  revert t B. induction es as [|e es IH]; intros t B Hi Ev Hb Hr Hbd HB Hs E; cbn [each] in E; [by injection E as _ <-|].
  apply next_bind in E as (u & t1 & E1 & E). unfold seeded in Hs. cbn [total] in Hs. fold (seeded es) in Hs.
  assert (0 <= seeded es) as Hpos.
  { apply total_pos. intros x Hx. destruct (Hr x ltac:(by right)) as [? _]. lia. }
  destruct (Hr e ltac:(left)) as [Hlen Hrest].
  destruct (Inv_seed vs e t B u t1 Hi Ev Hb (conj Hlen Hrest) Hbd ltac:(lia) E1) as (Hi1 & Ev1 & Hbd1).
  eapply (IH t1 (B + LenOf (Nvme.re_Loc e))); [done..| |done|lia|lia|exact E]. intros x Hx. apply Hr. by right.
Qed.

(** Seeding goes through, and leaves the last record of each key. *)
Lemma seed_run e t :
  Inv [] t -> let k := mkKey (Nvme.re_NS e) (Nvme.re_Key e) in
  exists t', seedEntry e t = Next tt t' /\ ents t' = <[k := (NS k, freshRef (Nvme.re_Loc e) (Nvme.re_XXH3 e) 0)]> (ents t).
Proof.
  intros Hi k. set (r := freshRef (Nvme.re_Loc e) (Nvme.re_XXH3 e) 0). destruct (published_maps p N [] t k r Hi) as (_ & Ee & _).
  assert (exists t', quotas (fun q => Quotas.Seed q (Nvme.re_NS e) Registry.TierNVMe (LenOf (Nvme.re_Loc e))) (published k r t) = Next tt t'
            /\ ents t' = ents (published k r t)) as (t' & E & Et).
  { unfold quotas, put. eexists. split; [done|]. by destruct (Dram.quotas (d (published k r t))). }
  exists t'. split; [|congruence]. rewrite <- E. pose proof (putNew_run p N [] t k r (mret tt) Hi) as Hput.
  unfold mbind, act_bind in Hput. unfold seedEntry, mbind, act_bind. fold k. fold r.
  destruct (newRef r t) as [nr t1| | |]; [|discriminate Hput..]. by rewrite Hput.
Qed.

Lemma seeds_run vs es t B :
  Inv [] t -> vols t = vs -> (forall i v, vs !! i = Some v -> booted i v) -> (forall e, e ∈ es -> recovered_ok vs e) ->
  bounded B t -> 0 <= B -> B + seeded es < 2 ^ 62 ->
  exists t', each seedEntry es t = Next tt t' /\ vols t' = vs /\
    (forall k, is_Some (ents t !! k) -> is_Some (ents t' !! k)) /\
    (forall e, e ∈ es -> is_Some (ents t' !! mkKey (Nvme.re_NS e) (Nvme.re_Key e))) /\
    forall k x, ents t' !! k = Some x -> ents t !! k = Some x \/
      exists e, e ∈ es /\ mkKey (Nvme.re_NS e) (Nvme.re_Key e) = k /\ x = (NS k, freshRef (Nvme.re_Loc e) (Nvme.re_XXH3 e) 0).
Proof.
  revert t B. induction es as [|e es IH]; intros t B Hi Ev Hb Hr Hbd HB Hs; cbn [each].
  { exists t. split_and!; [done..| |]; [by intros e ?%not_elem_of_nil|]. intros k x Hx. by left. }
  unfold seeded in Hs. cbn [total] in Hs. fold (seeded es) in Hs.
  assert (0 <= seeded es) as Hpos by (apply total_pos; intros x Hx; destruct (Hr x ltac:(by right)) as [? _]; lia).
  pose proof (Hr e ltac:(left)) as Hre. pose proof (proj1 Hre) as Hlen. destruct (seed_run e t Hi) as (t1 & E1 & Ee).
  destruct (Inv_seed vs e t B tt t1 Hi Ev Hb Hre Hbd ltac:(lia) E1) as (Hi1 & Ev1 & Hbd1).
  destruct (IH t1 (B + LenOf (Nvme.re_Loc e)) Hi1 Ev1 Hb ltac:(intros; apply Hr; by right) Hbd1 ltac:(lia) ltac:(lia))
    as (t' & E & Ev' & Hold & Hnew & He').
  exists t'. split_and!; [unfold mbind, act_bind; by rewrite E1|done|..].
  { intros k Hk. apply Hold. rewrite Ee. by apply lookup_insert_is_Some'; right. }
  { intros e' [->|Hin]%elem_of_cons; [|by apply Hnew]. apply Hold. rewrite Ee, lookup_insert_eq. done. }
  intros k x [Hx|(e' & Hin & Hk & Hx)]%He'.
  - rewrite Ee in Hx. apply lookup_insert_Some in Hx as [[<- <-]|[_ Hx]]; [right|by left].
    exists e. split_and!; [left|done..].
  - right. exists e'. split_and!; [by right|done..].
Qed.

(** Without an accountant, seeding leaves the DRAM tier alone. *)
Lemma seed_dram e t b t' : Inv [] t -> Dram.quotas (d t) = None -> seedEntry e t = Next b t' -> d t' = d t.
Proof.
  intros Hi Hq E. unfold seedEntry in E. cbv zeta in E. set (k := mkKey _ _) in E. set (r := freshRef _ _ _) in E.
  apply next_bind in E as (nr & s1 & En & E). apply next_bind in E as (u & s2 & Ep & E).
  assert ((nr ← newRef r; putThen k nr (mret tt)) t = Next u s2) as Eall by (unfold mbind, act_bind at 1; by rewrite En).
  apply (putNew_next p N []) in Eall; [|done]. injection Eall as _ <-.
  apply quotas_next in E as [[_ ->]|(q & Eq & _)]; [done|]. cbn in Eq. congruence.
Qed.

(** What [NewTiered] is given. *)
Record boot_ok (s : Dram.Store A P) (vs : list Nvme.Volume) (recovered : list (list Nvme.RecoveredEntry)) : Prop := mkBootOk {
  bo_len : length vs = N;
  bo_vol : forall i v, vs !! i = Some v -> booted i v;
  bo_rec : forall e, e ∈ concat recovered -> recovered_ok vs e;
  bo_sum : seeded (concat recovered) < 2 ^ 61;
  bo_quota : unspent (Dram.quotas s)
}.

Lemma Inv_boot s vs recovered b t :
  boot_ok s vs recovered -> NewTiered s vs recovered = Next b t -> Inv [] t.
Proof.
  intros [H1' H2' H3' H4' H5'] E. eapply (Inv_seeds vs (concat recovered) _ 1); [by apply Inv_empty|done..| |done| |exact E].
  - intros q ns Hq. cbn in Hq. unfold unspent in H5'. rewrite Hq in H5'. destruct H5' as [_ Hu]. rewrite Hu by (by left). done.
  - lia.
Qed.

(** ** Every handler *)

(** What the configuration guarantees: the object tier is on for spills and
    restores alike, and then there is one volume; a block fits a record. *)
Record configured (vp : nat -> Nvme.VolumeParams) : Prop := mkConfigured {
  cf_both : Restore p = true -> Spill p = true;
  cf_one : Spill p = true -> N = 1%nat;
  cf_blob : forall i, 0 <= Nvme.MaxBlobLen (vp i) < 2 ^ 32
}.

Abbreviation safe := (safe (legal (A := A) (P := P)) Inv).
Abbreviation calm := (calm (A := A) (P := P) p N).
Abbreviation keeps := (keeps (A := A) (P := P) p N).

Lemma safe_reply {B C} (q : prog T B) (f : B -> C) own :
  safe own (fun _ o => o = own) q -> safe own (fun _ o => o = own) (b ← q; mret (f b)).
Proof. intros Hq. eapply safe_bind; [exact Hq|]. by intros b o ->. Qed.

Lemma safe_writerTurn time vp i own : configured vp -> safe own (fun _ o => o = own) (writerTurn time vp i).
Proof.
  intros Hc. apply (safe_act _ _ _ (fun _ => own)); [|done]. intros l t b t' Hl Hi E.
  eapply (Inv_writerTurn p N time (vp i)); [apply Hc|done|exact Hi|exact E].
Qed.

Lemma handler_safe time vp e : configured vp -> safe [] (fun _ o => o = []) (handler time vp p e).
Proof.
  intros Hc. pose proof (cf_both _ Hc) as Hboth. pose proof (cf_one _ Hc) as Hone.
  destruct e; cbn [handler].
  - apply (safe_reply _ RGot), safe_GetRefTier.
  - apply (safe_reply _ (fun _ => RDone)), safe_keeps, keeps_release.
  - apply (safe_reply _ RStatus), safe_keeps, keeps_Put.
  - apply (safe_reply _ RBool), safe_keeps, keeps_Contains.
  - eapply safe_bind; [apply safe_keeps, keeps_ExistsPrefix|]. by intros [n per] o ->.
  - apply (safe_reply _ RStatus), safe_Delete.
  - apply (safe_reply _ RStatus), safe_keeps, keeps_TouchLease.
  - apply (safe_reply _ RStatus), safe_PinOp.
  - apply (safe_reply _ RBool), safe_keeps, keeps_CanStoreNS.
  - apply (safe_reply _ RStats), safe_keeps, keeps_tierCounts.
  - by apply (safe_reply _ (fun _ => RDone)), safe_writerTurn.
  - apply safe_calm_act; [|done]. eapply calm_still, still_ckptBegin.
  - apply safe_calm_act; [|done]. eapply calm_still, still_ckptFinish.
  - by apply (safe_reply _ (fun _ => RDone)), safe_tickBody.
  - apply (safe_reply _ (fun _ => RDone)), safe_promoteBody.
  - by apply (safe_reply _ (fun _ => RDone)), safe_restoreBody.
  - by apply (safe_reply _ (fun _ => RDone)), safe_dropBody.
  - apply (safe_reply _ (fun _ => RDone)), safe_onUp.
  - apply (safe_reply _ (fun _ => RDone)), safe_lateAdopt.
Qed.

(** A state the running store can be in. *)
Definition running time vp s vs recovered (c : conf (S := T) (R := reply)) : Prop :=
  exists b t0, NewTiered s vs recovered = Next b t0 /\ reachable (handler time vp p) legal t0 c.

Lemma running_inv time vp s vs recovered c :
  configured vp -> boot_ok s vs recovered -> running time vp s vs recovered c ->
  exists l, Inv l (shared c) /\ (finished c -> l = []).
Proof.
  intros Hc Hb (b & t0 & E & Hr). eapply (pool_inv (handler time vp p) legal Inv); [| |by eapply Inv_boot|exact Hr].
  - intros l l' t. apply Inv_perm.
  - intros e. by apply handler_safe.
Qed.

End Boot.
End TieredBoot.
