(* ===== verification/TieredOpen.v ===== *)
(** The volumes the store is built over: what opening a directory leaves in
    memory, and that it is what construction relies on. *)

From Stdlib Require Import ZArith Lia.
From coqutil Require Import Byte.
From stdpp Require Import base numbers list gmap sets.
From S2P Require Import Prelude.
From S2P Require Import Conc.
From S2P Require Import Wire.
From S2P Require Import Tenant.
From S2P Require Import Eviction.
From S2P Require Import Index.
From S2P Require Import DramStore.
From S2P Require Import NvmeFormat.
From S2P Require Import NvmeVolume.
From S2P Require Import NvmeLog.
From S2P Require Import NvmeInv.
From S2P Require Import NvmeCrash.
From S2P Require Import NvmeRecover.
From S2P Require Import NvmeSpec.
From S2P Require Import NvmeIndex.
From S2P Require Import Tiered.
From S2P Require Import TieredVol.
From S2P Require Import TieredInv.
From S2P Require Import TieredBoot.
Import Nvme Conc Ops Eviction Seg NvmeIndex Tiered TieredVol TieredInv TieredBoot.
Open Scope Z_scope.
Open Scope go_scope.
Open Scope conc_scope.

Module TieredOpen.

(** ** Nothing is queued and nothing is marked as spilled *)

Definition unspilled (v : Nvme.Volume) : Prop :=
  Nvme.reqs v = [] /\ forall id g, sv v !! id = Some g -> Nvme.s_spilled g = false.

Definition opening {B} (m : Nvme.M B) : Prop := forall v b v', m v = Nvme.Ret b v' -> unspilled v -> unspilled v'.

Lemma opening_still {B} (m : Nvme.M B) : still m -> opening m.
Proof. intros Hm v b v' E [H1 H2]. injection (Hm _ _ _ E) as Es _ Er _ _. split; [congruence|by rewrite Es]. Qed.

Lemma opening_bind {B C} (m : Nvme.M B) (f : B -> Nvme.M C) : opening m -> (forall b, opening (f b)) -> opening (m ≫= f).
Proof.
  intros Hm Hf v c v' E Hv. unfold mbind, Nvme.M_bind in E. destruct (m v) as [b v1| |] eqn:Em; try done. by eapply Hf, Hm.
Qed.

Lemma opening_modify g : (forall v, unspilled v -> unspilled (g v)) -> opening (Nvme.modify g).
Proof. intros Hg v b v' [= _ <-]. apply Hg. Qed.

Lemma unspilled_insert id g v : Nvme.s_spilled g = false -> unspilled v ->
  unspilled (Nvme.set_segs (<[id := g]> (Nvme.segs v)) v).
Proof.
  intros Hg [H1 H2]. split; [done|]. intros id' g'. rewrite sv_insert.
  intros [[_ <-]|[_ Hl]]%lookup_insert_Some; [done|eauto].
Qed.

Section Open.
Context `{!Xxh3, !World} (p : Nvme.VolumeParams).

#[local] Hint Resolve still_ioStep still_Open still_ReadAt still_Remove still_mmapBuf still_writeSeal still_readSeal
  still_listCkptSeqs still_poolGet still_cutBuf still_Preallocate still_Datasync still_SyncDir : still.

Lemma still_Stat id : still (Nvme.Stat id).
Proof. still. Qed.
Lemma still_scanRecord id limit off : still (Nvme.scanRecord p id limit off).
Proof. still. Qed.
#[local] Hint Resolve still_Stat still_scanRecord : still.

Lemma still_scanFrom fuel : forall id limit off es, still (Nvme.scanFrom p fuel id limit off es).
Proof. induction fuel as [|fuel IH]; intros; cbn [Nvme.scanFrom]; repeat still_step. Qed.
#[local] Hint Resolve still_scanFrom : still.

Lemma still_scanTail id n : still (Nvme.scanTail p id n).
Proof. still. Qed.
Lemma still_loadCkpts seqs : still (Nvme.loadCkpts seqs).
Proof. induction seqs as [|q seqs IH]; cbn [Nvme.loadCkpts]; repeat still_step; done. Qed.
#[local] Hint Resolve still_scanTail still_loadCkpts : still.
Lemma still_loadNewestCkpt : still Nvme.loadNewestCkpt.
Proof. still. Qed.
#[local] Hint Resolve still_loadNewestCkpt : still.

Create HintDb opening.
#[local] Hint Resolve opening_still : opening.

Ltac open_step :=
  match goal with
  | |- opening (_ ≫= _) => apply opening_bind; [|intros ?]
  | |- opening (match ?x with _ => _ end) => destruct x
  | |- opening (let _ := _ in _) => cbv zeta
  | |- opening (Nvme.modify _) => apply opening_modify; solve [by intros ? []|intros ? []; by case_if|intros; by apply unspilled_insert]
  | |- opening _ => apply opening_still; solve [eauto 2 with still nocore]
  | |- opening _ => solve [eauto with opening]
  end.

Lemma opening_addSegment id n de es : opening (Nvme.addSegment id n de es).
Proof. unfold Nvme.addSegment. repeat open_step. Qed.
#[local] Hint Resolve opening_addSegment : opening.

Lemma opening_recoverSegment ck id r : opening (Nvme.recoverSegment p ck id r).
Proof. unfold Nvme.recoverSegment. repeat open_step. Qed.
#[local] Hint Resolve opening_recoverSegment : opening.

Lemma opening_recoverSegments ck ids : forall r, opening (Nvme.recoverSegments p ck ids r).
Proof. induction ids as [|id ids IH]; intros r; cbn [Nvme.recoverSegments]; repeat open_step. Qed.
#[local] Hint Resolve opening_recoverSegments : opening.

Lemma opening_openActive : opening (Nvme.openActive p).
Proof. unfold Nvme.openActive. repeat open_step. Qed.
#[local] Hint Resolve opening_openActive : opening.

Lemma opening_OpenVolume : opening (Nvme.OpenVolume p).
Proof. unfold Nvme.OpenVolume, Nvme.recoverDir. repeat open_step. Qed.

End Open.

Lemma unspilled_unopened fs cks t : unspilled (Nvme.unopened fs cks t).
Proof. split; [done|]. intros id g. unfold sv. cbn. by rewrite fmap_empty, lookup_empty. Qed.

Section Reopen.
Context `{!Xxh3}.

Lemma reboot_unspilled p n fs cks rs v : NvmeSpec.reboot p n fs cks rs v -> unspilled v.
Proof.
  induction 1 as [W t fs cks rs v Hr Hrun|]; [|done]. eapply (opening_OpenVolume p); [exact Hrun|]. apply unspilled_unopened.
Qed.

(** A volume that has come up over a directory in order, after any number of
    interrupted attempts, with the index it reports. *)
Definition reopened (p : Nvme.VolumeParams) (v : Nvme.Volume) (es : list Nvme.RecoveredEntry) : Prop :=
  exists n fs cks rs D M, NvmeInv.params_ok p /\ NvmeCrash.Down p D M fs cks /\ 0 <= M /\ M + n < 2 ^ 32 /\
    NvmeSpec.reboot p n fs cks rs v /\ es ≡ₚ (map_to_list (Nvme.merged rs)).*2.

(** The blocks a volume lists are not empty and belong to it. *)
Definition affine (N i : nat) (v : Nvme.Volume) : Prop :=
  forall id g e, Nvme.segs v !! id = Some g -> e ∈ Nvme.s_entries g -> volIx N (e_Key e) = i /\ 0 < e_Len e.

Lemma reopened_restored p v es : reopened p v es ->
  unspilled v /\ exists D rs, NvmeSpec.restored p D rs v /\ es ≡ₚ (map_to_list (Nvme.merged rs)).*2.
Proof.
  intros (n & fs & cks & rs & D & M & Hp & Hd & HM & HMn & Hr & Hes). split; [by eapply reboot_unspilled|].
  exists D, rs. split; [|done]. by eapply NvmeSpec.reboot_ok.
Qed.

Lemma listed_len p v id g e : NvmeInv.Inv p v -> Nvme.segs v !! id = Some g -> e ∈ Nvme.s_entries g -> e_Len e < 2 ^ 32.
Proof.
  intros Hi Hg He. destruct (NvmeInv.iv_segs _ _ Hi _ _ Hg) as (f & _ & _ & _ & Hk). destruct (Nvme.s_sealed g).
  - destruct Hk as (_ & _ & tr & Hs). destruct (NvmeLog.sealOf_entries _ _ _ _ _ _ Hs He) as [Hf _]. apply (SegFacts.ef_len _ Hf).
  - destruct Hk as [_ Hl]. destruct (NvmeInv.ol_log _ _ _ Hl) as (b & r & _ & Hlog & _).
    pose proof (NvmeLog.logged_fits _ b 0 _ eq_refl Hlog) as Hf. rewrite Forall_forall in Hf. apply (SegFacts.ef_len _ (Hf _ He)).
Qed.

Lemma reopened_booted N p i v es : reopened p v es -> affine N i v -> booted N i v.
Proof.
  intros ([Hq Hsp] & D & rs & [Hi _ _ _ _] & _)%reopened_restored Ha. split_and!; [|done|].
  - split; [apply (NvmeInv.iv_next _ _ Hi)| |].
    + intros id Hid. destruct (NvmeInv.iv_active _ _ Hi _ Hid) as (g & Hg & Hs & _). exists (bare g). by rewrite sv_lookup, Hg.
    + intros id g Hg. split; [|intros _; by apply (Hsp id)]. rewrite sv_lookup in Hg. destruct (Nvme.segs v !! id) as [g'|] eqn:Eg; [|done].
      destruct (NvmeInv.iv_segs _ _ Hi _ _ Eg) as (f & Hf & _). apply (NvmeInv.iv_files _ _ Hi _ _ Hf).
  - intros id g Hg. split; [by apply (Hsp id)|]. intros e He. rewrite sv_lookup in Hg.
    destruct (Nvme.segs v !! id) as [g'|] eqn:Eg; [|done]. injection Hg as <-. apply (Ha _ _ _ Eg He).
Qed.

Lemma reopened_entry p v es y : reopened p v es -> y ∈ es ->
  exists id g e, Nvme.segs v !! id = Some g /\ e ∈ Nvme.s_entries g /\ y = Nvme.recoveredOf id e /\ e_Len e < 2 ^ 32.
Proof.
  intros (_ & D & rs & [Hi _ _ _ [Hso _]] & Hes)%reopened_restored Hy. rewrite Hes in Hy.
  apply list_elem_of_fmap in Hy as ([k y'] & -> & Hk). apply elem_of_map_to_list in Hk.
  destruct (Hso _ _ Hk) as [(id & g & e & Hg & He & Ey) _]. exists id, g, e. split_and!; [done..|]. by eapply listed_len.
Qed.

Lemma reopened_unique p v es y y' :
  reopened p v es -> y ∈ es -> y' ∈ es -> Nvme.re_NS y = Nvme.re_NS y' -> Nvme.re_Key y = Nvme.re_Key y' -> y = y'.
Proof.
  intros (_ & D & rs & [_ _ _ _ [Hso _]] & Hes)%reopened_restored Hy Hy' E1 E2. rewrite Hes in Hy, Hy'.
  apply list_elem_of_fmap in Hy as ([k z] & -> & Hk), Hy' as ([k' z'] & -> & Hk'). apply elem_of_map_to_list in Hk, Hk'.
  destruct (Hso _ _ Hk) as [_ ->], (Hso _ _ Hk') as [_ ->]. unfold NvmeRecover.keyOf in Hk, Hk'. cbn in E1, E2.
  rewrite E1, E2, Hk' in Hk. by injection Hk.
Qed.

End Reopen.
End TieredOpen.
