(* ===== verification/TieredSpec.v ===== *)
(** What the tiers promise, whatever runs beside what. *)

From Stdlib Require Import ZArith Lia.
From coqutil Require Import Byte.
From stdpp Require Import base numbers list gmap sets.
From S2P Require Import Prelude.
From S2P Require Import Conc.
From S2P Require Import Wire.
From S2P Require Import Tenant.
From S2P Require Import Eviction.
From S2P Require Import BlockRef.
From S2P Require Import Index.
From S2P Require Import DramStore.
From S2P Require Import NvmeFormat.
From S2P Require Import NvmeVolume.
From S2P Require Import NvmeSpill.
From S2P Require Import NvmeIndex.
From S2P Require Import Tiered.
From S2P Require Import TieredVol.
From S2P Require Import TieredDram.
From S2P Require Import TieredInv.
From S2P Require Import TieredActs.
From S2P Require Import TieredMoves.
From S2P Require Import TieredSurface.
From S2P Require Import TieredLatch.
From S2P Require Import TieredCold.
From S2P Require Import TieredRetire.
From S2P Require Import TieredRestore.
From S2P Require Import TieredDemote.
From S2P Require Import TieredBoot.
From S2P Require Import TieredOpen.
Import Conc Ops Eviction Seg NvmeIndex Tiered TieredVol TieredDram TieredInv TieredActs TieredMoves TieredSurface TieredLatch TieredCold TieredRetire TieredRestore TieredDemote TieredBoot TieredOpen.
Open Scope Z_scope.
Open Scope go_scope.
Open Scope conc_scope.

Module TieredSpec.

Section Spec.
Context {A P : Type} `{!Dram.ExtentAlloc A} `{!Policy P} `{!Index.IndexEnv} `{!Xxh3} `{!Outside}.
Context (N : nat).

Abbreviation T := (Tiered A P).
Abbreviation act := (act T).
Abbreviation prog := (prog T).

(** ** Homes *)

(** Key [k] has record [r] below DRAM. *)
Definition below (t : T) (k : Key) (r : nvmeRef) : Prop :=
  exists q, @Index.Get nvShards (idx t) k = Some q /\ refs t !! q = Some r.

(** The live segment a record points into, on the volume of its key. *)
Definition segment_of (t : T) (k : Key) (r : nvmeRef) : option Nvme.segment :=
  v ← vols t !! volIx N (Hash k); Nvme.segs v !! SegmentID (Loc_ r).

Lemma below_ents l (t : T) k r : Acc l t -> below t k r <-> ents t !! k = Some (NS k, r).
Proof.
  intros HA. unfold below. rewrite ents_lookup, Index.Get_contents by apply HA. naive_solver.
Qed.

Lemma segment_of_at t k r g : segment_of t k r = Some g -> seg_at t (home N k) (segOf r) (bare g).
Proof.
  unfold segment_of, seg_at, home. destruct (vols t !! volIx N (Hash k)) as [v|]; cbn [mbind option_bind]; [|done].
  fold (segOf r). intros Hg.
  exists v. split; [done|]. by rewrite sv_lookup, Hg.
Qed.

Lemma segment_of_seg t k r g : seg_at t (home N k) (segOf r) g -> exists g', segment_of t k r = Some g' /\ g = bare g'.
Proof.
  intros (v & Hv & Hg). unfold segment_of. unfold home in Hv. rewrite Hv. cbn [mbind option_bind]. rewrite sv_lookup in Hg. fold (segOf r).
  destruct (Nvme.segs v !! segOf r) as [g'|]; [|done]. injection Hg as <-. by exists g'.
Qed.

Context (vp : nat -> Nvme.VolumeParams) (p : Params).

(** ** Restart *)

(** The volumes and the indexes recovery reported, of a store that kept its
    directories and their order. *)
Definition came_up (vs : list Nvme.Volume) (recovered : list (list Nvme.RecoveredEntry)) : Prop :=
  length vs = N /\ length recovered = N /\
  forall i v es, vs !! i = Some v -> recovered !! i = Some es -> reopened (vp i) v es /\ affine N i v.

Lemma elem_of_concat {B} (y : B) ls : y ∈ concat ls -> exists l, l ∈ ls /\ y ∈ l.
Proof. rewrite list_elem_of_In, in_concat. setoid_rewrite list_elem_of_In. done. Qed.

Lemma came_up_entry vs recovered y : came_up vs recovered -> y ∈ concat recovered ->
  exists v es, vs !! volIx N (Nvme.re_Key y) = Some v /\ recovered !! volIx N (Nvme.re_Key y) = Some es /\ y ∈ es /\
    reopened (vp (volIx N (Nvme.re_Key y))) v es /\ recovered_ok N vs y.
Proof.
  intros (Hl & Hl' & Hup) (es & (i & Hi)%list_elem_of_lookup & Hy)%elem_of_concat.
  destruct (lookup_lt_is_Some_2 vs i) as [v Hv]; [apply lookup_lt_Some in Hi; lia|].
  destruct (Hup _ _ _ Hv Hi) as [Hr Ha]. destruct (reopened_entry _ _ _ _ Hr Hy) as (id & g & e & Hg & He & -> & Hlen).
  destruct (Ha _ _ _ Hg He) as [Hix Hpos]. cbn [Nvme.re_Key Nvme.recoveredOf]. rewrite Hix. exists v, es. split_and!; try done.
  split; [cbn; lia|]. exists v, (bare g). cbn. rewrite Hix, sv_lookup, Hg. split_and!; [done..|]. by exists e.
Qed.

Lemma came_up_unique vs recovered y y' : came_up vs recovered -> y ∈ concat recovered -> y' ∈ concat recovered ->
  mkKey (Nvme.re_NS y) (Nvme.re_Key y) = mkKey (Nvme.re_NS y') (Nvme.re_Key y') -> y = y'.
Proof.
  intros Hup Hy Hy' [= E1 E2]. destruct (came_up_entry _ _ _ Hup Hy) as (v & es & _ & He & Hin & Hr & _).
  destruct (came_up_entry _ _ _ Hup Hy') as (v' & es' & _ & He' & Hin' & _). rewrite <- E2, He in He'. injection He' as <-.
  by eapply reopened_unique.
Qed.

Lemma came_up_boot (s : Dram.Store A P) vs recovered :
  came_up vs recovered -> seeded (concat recovered) < 2 ^ 61 -> unspent (Dram.quotas s) -> boot_ok N s vs recovered.
Proof.
  intros Hup Hs Hu. pose proof Hup as (Hl & Hl' & Hvs).
  split; [done| |by intros y (v & es & _ & _ & _ & _ & ?)%(came_up_entry vs)|done|done].
  intros i v Hi. destruct (lookup_lt_is_Some_2 recovered i) as [es Hes]; [apply lookup_lt_Some in Hi; lia|].
  destruct (Hvs _ _ _ Hi Hes). by eapply reopened_booted.
Qed.


(** ** Every interleaving *)

Context (time : nat -> Z).

(** C4: No ghost entries, in any interleaving of client requests, writer turns,
    checkpoints, demotion, spill, reclaim, restore, promotion and object
    collection: every index entry has a record; a record that is not s3-only is
    listed by a live segment of its key's volume; an s3-only record is flagged as
    spilled; and whenever a record is flagged, the bucket holds the object of its
    segment, so the collector never drops an object a record still needs. *)
Theorem tiered_no_ghosts s vs recovered c k q :
  configured p N vp -> boot_ok N s vs recovered -> running p time vp s vs recovered c ->
  @Index.Get nvShards (idx (shared c)) k = Some q ->
  exists r, refs (shared c) !! q = Some r /\
    (S3Only r = false -> exists g e, segment_of (shared c) k r = Some g /\ e ∈ Nvme.s_entries g /\ entryKey e = k) /\
    (S3Only r = true -> S3 r = true) /\
    (S3 r = true -> SegmentID (Loc_ r) ∈ objects (shared c)).
Proof.
  intros Hc Hb Hr Hk. destruct (running_inv p N _ _ _ _ _ _ Hc Hb Hr) as (l & [HA HH] & _).
  rewrite Index.Get_contents in Hk by apply HA. destruct (ac_ref _ _ HA _ _ Hk) as [r Er]. exists r. split; [done|].
  assert (ents (shared c) !! k = Some (NS k, r)) as He by (apply ents_lookup; split; [done|by exists q]). split_and!.
  - intros Hon. destruct (ho_home _ _ _ _ HH _ _ _ He Hon) as (g & Hg & e & Hin & Hek).
    apply segment_of_seg in Hg as (g' & Hg' & ->). by exists g', e.
  - by apply (ho_s3 _ _ _ _ HH _ _ _ He).
  - by apply (ho_obj _ _ _ _ HH _ _ _ He).
Qed.

(** C18: A segment marked as spilled can be reclaimed without losing a block, in
    any interleaving: every record that points into it is flagged, hence has its
    object; and once no handler is under way, a flagged record whose segment is
    live points into one that is marked. *)
Theorem tiered_spilled_flagged s vs recovered c k r g :
  configured p N vp -> boot_ok N s vs recovered -> running p time vp s vs recovered c ->
  below (shared c) k r -> segment_of (shared c) k r = Some g ->
  (Nvme.s_spilled g = true -> S3 r = true) /\ (finished c -> S3 r = true -> Nvme.s_spilled g = true).
Proof.
  intros Hc Hb Hr Hk Hg. destruct (running_inv p N _ _ _ _ _ _ Hc Hb Hr) as (l & [HA HH] & Hfin).
  apply (below_ents l) in Hk; [|done]. apply segment_of_at in Hg. split.
  - intros Hs. by apply (ho_flag _ _ _ _ HH _ _ _ _ Hk Hg).
  - intros Hf Hs. destruct (S3Only r) eqn:Eon; [by apply (ho_only _ _ _ _ HH _ _ _ _ Hk Eon Hg)|].
    destruct (ho_mark _ _ _ _ HH _ _ _ Hk Hs Eon) as [(g' & Hg' & Hsp)|(i & todo & cur & Hin)].
    + pose proof (seg_fun _ _ _ _ _ Hg Hg') as <-. done.
    + rewrite (Hfin Hf) in Hin. by apply not_elem_of_nil in Hin.
Qed.

(** ** Accounting *)

(** The sum of [f] over the records of the index, and over the records a
    publication overwrote. *)
Definition over_index (f : Z -> nvmeRef -> Z) (t : T) : Z := esum f t + rsum f t.


(** C19: Nothing is leaked by error paths or early returns: once no handler is
    under way, every slot of the cold-read semaphore is free, and the segments
    latched are exactly those whose upload the backend has accepted and not yet
    reported. *)
Theorem tiered_no_leaks s vs recovered c :
  configured p N vp -> boot_ok N s vs recovered -> running p time vp s vs recovered c -> finished c ->
  readSem (shared c) = 0 /\ (forall id, id ∈ spillInflight (shared c) <-> exists i, (i, id) ∈ uploads (shared c)) /\
  NoDup (uploads (shared c)).*2.
Proof.
  intros Hc Hb Hr Hf. destruct (running_inv p N _ _ _ _ _ _ Hc Hb Hr) as (l & [HA HH] & Hfin). rewrite (Hfin Hf) in HA, HH.
  destruct (ho_latch _ _ _ _ HH) as [Es En]. cbn in Es, En. split_and!; [by rewrite (ac_sem _ _ HA)| |done].
  intros id. rewrite Es, elem_of_list_to_set, list_elem_of_fmap. split.
  - intros ([i id'] & -> & Hin). by exists i.
  - intros [i Hin]. by exists (i, id).
Qed.

End Spec.
End TieredSpec.
