(* ===== verification/TieredServe.v ===== *)
(** Which records background work must leave alone: a walk through all handlers
    for relations between the states before and after an action, and the one that
    pinned and leased records stay. *)

From Stdlib Require Import ZArith Lia.
From coqutil Require Import Byte.
From stdpp Require Import base numbers list gmap sets.
From S2P Require Import Prelude.
From S2P Require Import Conc.
From S2P Require Import Wire.
From S2P Require Import Tenant.
From S2P Require Import Eviction.
From S2P Require Import BlockRef.
From S2P Require Import Index.
From S2P Require Import DramStore.
From S2P Require Import NvmeFormat.
From S2P Require Import NvmeVolume.
From S2P Require Import NvmeSpill.
From S2P Require Import NvmeIndex.
From S2P Require Import Tiered.
From S2P Require Import TieredVol.
From S2P Require Import TieredInv.
From S2P Require Import TieredActs.
Import Conc Ops Eviction Seg NvmeIndex Tiered TieredVol TieredInv TieredActs.
Open Scope Z_scope.
Open Scope go_scope.
Open Scope conc_scope.

Module TieredServe.

Section Serve.
Context {A P : Type} `{!Dram.ExtentAlloc A} `{!Policy P} `{!Index.IndexEnv} `{!Xxh3} `{!Outside}.
Context (time : nat -> Z) (vp : nat -> Nvme.VolumeParams) (p : Params).

Abbreviation T := (Tiered A P).
Abbreviation act := (act T).
Abbreviation prog := (prog T).

(** ** Walking through handlers *)

(** Actions that leave the index and the records as they are. *)
Definition unmoved (t t' : T) : Prop := idx t' = idx t /\ refs t' = refs t /\ nextPtr t' = nextPtr t.

Definition inert {B} (m : act B) : Prop := forall t b t', m t = Next b t' -> unmoved t t'.

Lemma inert_bind {B C} (m : act B) (f : B -> act C) : inert m -> (forall b, inert (f b)) -> inert (m ≫= f).
Proof.
  intros Hm Hf t c t' (b & t1 & E1 & E2)%next_bind. destruct (Hm _ _ _ E1) as (? & ? & ?), (Hf _ _ _ _ E2) as (? & ? & ?). unfold unmoved. split_and!; congruence.
Qed.

Lemma inert_fmap {B C} (f : B -> C) (m : act B) : inert m -> inert (f <$> m).
Proof.
  intros Hm t c t' E. unfold fmap, act_fmap in E. destruct (m t) as [b t1| | |] eqn:Em; try done. injection E as _ <-. eauto.
Qed.

Lemma inert_dram {B} (m : sm (Dram.Store A P) B) : inert (dram m).
Proof. intros t b t'. unfold dram. destruct (m (d t)) as [[? ?]|]; [|done]. by intros [= _ <-]. Qed.

Lemma inert_vol {B} i (m : Nvme.M B) : inert (vol i m).
Proof. intros t b t'. unfold vol. destruct (vols t !! i) as [v|]; [|done]. destruct (m v); try done. by intros [= _ <-]. Qed.

Lemma inert_put f : (forall t, unmoved t (f t)) -> inert (put f).
Proof. intros Hf t b t' [= _ <-]. apply Hf. Qed.

Lemma inert_ret {B} (b : B) : inert (mret b).
Proof. by intros t b' t' [= _ <-]. Qed.
Lemma inert_get {B} (f : T -> B) : inert (get f).
Proof. by intros t b' t' [= _ <-]. Qed.
Lemma inert_ask {B} (f : nat -> B) : inert (ask f).
Proof. by intros t b' t' [= _ <-]. Qed.
Lemma inert_deref q : inert (deref q).
Proof. intros t r t' [-> _]%deref_next. done. Qed.
Lemma inert_quotas f : inert (quotas f).
Proof. apply inert_put. intros t. by destruct (Dram.quotas (d t)). Qed.
Lemma inert_volumeFor key : inert (volumeFor key).
Proof. intros t b t'. unfold volumeFor. destruct (le_get 8 key), (vols t); try done. by intros [= _ <-]. Qed.

(** A relation between the states before and after an action that such actions
    have. *)
Class Quietly (G : T -> T -> Prop) := quietly t t' : unmoved t t' -> G t t'.

Lemma every_inert G `{!Quietly G} {B C} (m : act B) (k : B -> prog C) :
  inert m -> (forall b, every G (k b)) -> every G (Atom B m k).
Proof. intros Hm Hk. split; [|done]. intros t b t' E. eapply quietly, Hm, E. Qed.

(** What is left: one result, whichever way it was reached. *)
Lemma inert_cases {B} (m : act B) :
  (forall t, match m t with Next _ t' => unmoved t t' | _ => True end) -> inert m.
Proof. intros Hm t b t' E. specialize (Hm t). by rewrite E in Hm. Qed.

End Serve.

Create HintDb inert.
Create HintDb spare.
#[export] Hint Resolve inert_ret inert_get inert_ask inert_deref inert_quotas inert_volumeFor inert_dram inert_vol : inert.

Ltac inert_step :=
  match goal with
  | |- inert (_ ≫= _) => apply inert_bind; [|intros ?]
  | |- inert (_ <$> _) => apply inert_fmap
  | |- inert (if ?b then _ else _) => destruct b
  | |- inert (match ?x with _ => _ end) => destruct x
  | |- inert (let _ := _ in _) => cbv zeta
  | |- inert (put _) => apply inert_put; by intros []
  | |- inert _ => solve [eauto with inert]
  | |- inert ?m => let h := head m in unfold h
  | |- inert _ => apply inert_cases; intros ?; cbv beta zeta;
      repeat match goal with |- match (match ?x with _ => _ end) with _ => _ end => destruct x end;
      repeat match goal with |- context [if ?b then _ else _] => destruct b end; done
  end.

(** [every G q], by the structure of [q], where inert actions have [G]. *)
Ltac spare_step :=
  match goal with
  | |- every _ (Atom _ _ _) =>
      apply every_inert; [typeclasses eauto|solve [repeat inert_step]|intros ?]
  | |- every _ (_ ≫= _) => apply every_bind; [|intros ?]
  | |- every _ (forEach _ _) => apply every_forEach; intros ?
  | |- every _ (mret _) => exact I
  | |- every _ (Done _) => exact I
  | |- every _ (if ?b then _ else _) => destruct b
  | |- every _ (match ?x with _ => _ end) => destruct x
  | |- every _ (let _ := _ in _) => cbv zeta
  | |- every _ _ => solve [eauto with spare typeclass_instances]
  end.

Section Walk.
Context {A P : Type} `{!Dram.ExtentAlloc A} `{!Policy P} `{!Index.IndexEnv} `{!Xxh3} `{!Outside}.
Context (time : nat -> Z) (vp : nat -> Nvme.VolumeParams) (p : Params).

Abbreviation T := (Tiered A P).
Abbreviation act := (act T).
Abbreviation prog := (prog T).

(** A relation kept by every action but those of some gates, of hits, of leases
    and pins, and of the writer. *)
Context (G : T -> T -> Prop) `{!Quietly G}.
Context (gate_fine : (Z -> act Z) -> Prop).

Class Walked := mkWalked {
  wk_delete : forall k gate t b t', gate_fine gate -> deleteIf k gate t = Next b t' -> G t t';
  wk_retire : forall id, gate_fine (retireGate time id);
  wk_flip : forall id n e t b t', flipRetired time id n e t = Next b t' -> G t t';
  wk_unflip : forall id e t b t', flipRestored id e t = Next b t' -> G t t';
  wk_mark : forall q t r, refs t !! q = Some r -> G t (set_refs (<[q := set_S3 true r]> (refs t)) t)
}.
Context `{!Walked}.


Lemma spare_GC id : every G (enqueueObjectGC p id).
Proof. unfold enqueueObjectGC. repeat spare_step. Qed.
#[local] Hint Resolve spare_GC : spare.

Lemma spare_refund ns o : every G (refundNvmeQuota p ns o).
Proof. unfold refundNvmeQuota. repeat spare_step. Qed.
#[local] Hint Resolve spare_refund : spare.

Lemma spare_deleteRetired id es : every G (deleteRetired time p id es).
Proof.
  induction es as [|e es IH]; cbn [deleteRetired]; [done|].
  split; [intros t b t'; apply wk_delete, wk_retire|]. intros [o st]. repeat spare_step.
Qed.

Lemma spare_flipRetiredAll id es : forall n, every G (flipRetiredAll time id n es).
Proof. induction es as [|e es IH]; intros n; cbn [flipRetiredAll]; [done|]. split; [apply wk_flip|intros; apply IH]. Qed.

Lemma spare_anyProtected id z es : every G (anyProtected id z es).
Proof. induction es as [|e es IH]; cbn [anyProtected]; [done|]. repeat spare_step. Qed.
#[local] Hint Resolve spare_deleteRetired spare_flipRetiredAll spare_anyProtected : spare.

Lemma spare_reclaimVolume fuel i : forall from a b, every G (reclaimVolume time vp p fuel i from a b).
Proof.
  induction fuel as [|fuel IH]; intros; cbn [reclaimVolume]; [done|].
  unfold reclaimSegment, retireHeld, s3FlipRetired. repeat spare_step.
Qed.
#[local] Hint Resolve spare_reclaimVolume : spare.

Lemma spare_demoteOne k n t : every G (demoteOne time p k n t).
Proof. unfold demoteOne, demoteDone, demoteWrite. repeat spare_step. Qed.
#[local] Hint Resolve spare_demoteOne : spare.

Lemma spare_demoteAll cands t : forall a b, every G (demoteAll time p cands t a b).
Proof. induction cands as [|c cands IH]; intros; cbn [demoteAll]; repeat spare_step. Qed.
#[local] Hint Resolve spare_demoteAll : spare.

Lemma spare_demoteShares us tot t n : forall a b, every G (demoteShares time p us tot t n a b).
Proof. induction us as [|u us IH]; intros; cbn [demoteShares]; unfold harvest; repeat spare_step. Qed.
Lemma spare_demoteRest us t n : forall a b, every G (demoteRest time p us t n a b).
Proof. induction us as [|u us IH]; intros; cbn [demoteRest]; unfold harvest; repeat spare_step. Qed.
#[local] Hint Resolve spare_demoteShares spare_demoteRest : spare.

Lemma spare_tick : every G (tickBody time vp p).
Proof. unfold tickBody, demotePass, spillPass, spillOne, reclaimPass. repeat spare_step. Qed.

Lemma spare_note ok t : every G (s3BreakerNote ok t).
Proof. unfold s3BreakerNote. repeat spare_step. Qed.
#[local] Hint Resolve spare_note : spare.

Lemma spare_readS3 ctx e : every G (readS3 time p ctx e).
Proof. unfold readS3, s3BreakerAllow, readRange. repeat spare_step. Qed.
#[local] Hint Resolve spare_readS3 : spare.

Lemma spare_promote : every G (promoteBody time vp p).
Proof. unfold promoteBody, promoteOne, promoteSync, promoteRead. repeat spare_step. Qed.

Lemma spare_adopt i id r : every G (adopt vp i id r).
Proof.
  unfold adopt. repeat spare_step. apply every_inert; [done| |intros; exact I]. intros t u t'.
  destruct (vols t !! i) as [v|]; [|done]. destruct (Nvme.ckptSnap v); [done|]. apply inert_vol.
Qed.
#[local] Hint Resolve spare_adopt : spare.

Lemma spare_flipRestored i id : every G (s3FlipRestored i id).
Proof.
  unfold s3FlipRestored. repeat spare_step. split; [apply wk_unflip|done].
Qed.
#[local] Hint Resolve spare_flipRestored : spare.

Lemma spare_restore : every G (restoreBody vp p).
Proof. unfold restoreBody, restoreOne, restoreHeld. repeat spare_step. Qed.

Lemma spare_anySpilled id l : every G (anySpilled id l).
Proof. induction l as [|i l IH]; cbn [anySpilled]; repeat spare_step. Qed.
#[local] Hint Resolve spare_anySpilled : spare.

Lemma spare_drop : every G (dropBody p).
Proof. unfold dropBody, dropObject, dropObjectHeld. repeat spare_step. Qed.

Lemma spare_markOne id e : every G (markOne id e).
Proof.
  unfold markOne. repeat spare_step. split; [|done].
  intros t u t' (r & t1 & [-> Hr]%deref_next & [= _ <-])%next_bind. by apply wk_mark.
Qed.
#[local] Hint Resolve spare_markOne : spare.

Lemma spare_onUp j up : every G (onUp j up).
Proof. unfold onUp. repeat spare_step. Qed.

Lemma spare_delete ns key force : gate_fine (canDeleteNvme time force) -> every G (Delete time p ns key force).
Proof.
  intros Hg.
unfold Delete, deleteNvme. repeat spare_step. split; [|intros [o st]; repeat spare_step].
  intros t b t'. by apply wk_delete.
Qed.

Lemma spare_exists ns keys : forall c n per, every G (existsLoop ns keys c n per).
Proof. induction keys as [|key keys IH]; intros; cbn [existsLoop]; unfold Contains; repeat spare_step. Qed.
End Walk.

#[export] Hint Resolve spare_tick spare_promote spare_restore spare_drop spare_onUp spare_exists spare_adopt
  spare_refund spare_readS3 : spare.

(** ** Pinned and leased records *)

Section Spare.
Context {A P : Type} `{!Dram.ExtentAlloc A} `{!Policy P} `{!Index.IndexEnv} `{!Xxh3} `{!Outside}.
Context (time : nat -> Z) (vp : nat -> Nvme.VolumeParams) (p : Params).

Abbreviation T := (Tiered A P).
Abbreviation act := (act T).
Abbreviation prog := (prog T).

(** Protected at the next reading of the clock. *)
Definition protected (t : T) (r : nvmeRef) : bool := pinned r || leased r (time (Dram.tick (d t))).

(** The record keeps its block, its protection, and its copy on NVMe. *)
Definition kept (r r' : nvmeRef) : Prop :=
  Loc_ r' = Loc_ r /\ XXH3 r' = XXH3 r /\ PinFlags r' = PinFlags r /\ LeaseUntil r' = LeaseUntil r /\
  (S3Only r' = true -> S3Only r = true).

Definition spares (t t' : T) : Prop :=
  @Index.index_ok nvShards (idx t) -> forall k q r,
  @Index.Get nvShards (idx t) k = Some q -> refs t !! q = Some r -> protected t r = true ->
  @Index.Get nvShards (idx t') k = Some q /\ exists r', refs t' !! q = Some r' /\ kept r r'.

Lemma spares_refl t : spares t t.
Proof. intros _ k q r Hk Hr _. split; [done|]. exists r. by repeat split. Qed.

(** A change of one record that keeps all this, or is not protected. *)
Lemma spares_update t e r r' :
  refs t !! e = Some r -> (protected t r = true -> kept r r') -> spares t (set_refs (<[e := r']> (refs t)) t).
Proof.
  intros Hr Hk _ k q r0 Hq Hr0 Hp. split; [done|]. cbn. destruct (decide (e = q)) as [->|Hne].
  - rewrite lookup_insert_eq. exists r'. split; [done|]. rewrite Hr0 in Hr. injection Hr as ->. by apply Hk.
  - rewrite lookup_insert_ne by done. exists r0. by repeat split.
Qed.

Lemma spares_after (t t1 t' : T) : idx t1 = idx t -> refs t1 = refs t -> Dram.tick (d t1) = Dram.tick (d t) -> spares t1 t' -> spares t t'.
Proof. intros Ei Er Et Hs. unfold spares, protected. by rewrite <- Ei, <- Er, <- Et. Qed.

Lemma spares_before (t t1 t' : T) : idx t' = idx t1 -> refs t' = refs t1 -> spares t t1 -> spares t t'.
Proof. intros Ei Er Hs. unfold spares. by rewrite Ei, Er. Qed.

(** A removal whose gate refuses protected records. *)
Definition refuses (gate : Z -> act Z) : Prop := forall q t st t1, gate q t = Next st t1 -> unmoved t t1 /\
  forall r, refs t !! q = Some r -> protected t r = true -> st <> StatusOK.

Lemma spares_deleteIf k gate t b t' : refuses gate -> deleteIf k gate t = Next b t' -> spares t t'.
Proof.
  intros Hg (o & t1 & [= <- <-] & E)%next_bind Hok k' q' r Hk' Hr Hp.
  destruct (@Index.Get nvShards (idx t) k) as [q|] eqn:Ek; [|injection E as _ <-; split; [done|by exists r; repeat split]].
  apply next_bind in E as (st & t1 & Eg & E). destruct (Hg _ _ _ _ Eg) as [(Ei & Er & _) Hst].
  destruct (st =? StatusOK) eqn:Es; cbn [negb] in E; [|injection E as _ <-; rewrite Ei, Er; split; [done|by exists r; repeat split]].
  apply next_bind in E as (r1 & t2 & [-> Hr1]%deref_next & E). apply next_bind in E as (u & t3 & [= _ <-] & E).
  injection E as _ <-. cbn. rewrite Er. split; [|by exists r; repeat split]. rewrite Ei.
  assert (k' <> k) as Hne.
  { intros ->. rewrite Ek in Hk'. injection Hk' as <-. apply (Hst r Hr Hp). by apply Z.eqb_eq. }
  destruct (Index.removeKey_spec (idx t) k (Len r1) Hok) as [Hok' Hc].
  rewrite (Index.Get_contents _ _ Hok'), Hc, lookup_delete_ne, <- (Index.Get_contents _ _ Hok) by congruence. done.
Qed.

Lemma refuses_retire id : refuses (retireGate time id).
Proof.
  intros q t st t1 (r & t0 & [-> Hr]%deref_next & E)%next_bind.
  destruct (negb (SegmentID (Loc_ r) =? id)); [injection E as <- <-; split; [done|]; intros; done|].
  apply next_bind in E as (z & t2 & [= <- <-] & E). injection E as <- <-. split; [done|]. intros r' Hr' Hp.
  rewrite Hr in Hr'. injection Hr' as <-. unfold protected in Hp. rewrite orb_comm in Hp. by rewrite Hp.
Qed.

Lemma refuses_delete : refuses (canDeleteNvme time false).
Proof.
  intros q t st t1 (r & t0 & [-> Hr]%deref_next & E)%next_bind.
  destruct (hardPinned r); [injection E as <- <-; split; [done|]; intros; done|].
  apply next_bind in E as (z & t2 & [= <- <-] & E). injection E as <- <-. split; [done|]. intros r' Hr' Hp.
  rewrite Hr in Hr'. injection Hr' as <-. unfold protected in Hp. destruct (leased r _); [done|]. rewrite orb_false_r in Hp.
  by rewrite Hp.
Qed.

Lemma spares_flipRetired id n e t b t' : flipRetired time id n e t = Next b t' -> spares t t'.
Proof.
  intros (o & t1 & [= <- <-] & E)%next_bind.
  destruct (@Index.Get nvShards (idx t) (entryKey e)) as [q|]; [|by injection E as _ <-; apply spares_refl].
  apply next_bind in E as (r & t1 & [-> Hr]%deref_next & E).
  destruct (negb _ || S3Only r); [by injection E as _ <-; apply spares_refl|].
  destruct (0 <? n); [by injection E as _ <-; apply spares_refl|]. apply next_bind in E as (z & t1 & [= <- <-] & E).
  destruct (negb (S3 r) || leased r _ || pinned r) eqn:Ep;
    [injection E as _ <-; apply (spares_before _ t); [done..|apply spares_refl]|].
  apply orb_false_iff in Ep as [[_ El]%orb_false_iff Epin].
  apply next_bind in E as (u & t1 & Eq & E). apply inert_quotas in Eq as (Ei & Er & _).
  injection E as _ <-. apply (spares_before _ (set_refs (<[q := set_S3Only true r]> (refs t)) t)); [cbn; by rewrite Ei|cbn; by rewrite Er|].
  apply (spares_update _ _ r); [done|]. unfold protected. by rewrite El, Epin.
Qed.

Lemma spares_flipRestored id e t b t' : flipRestored id e t = Next b t' -> spares t t'.
Proof.
  intros (o & t1 & [= <- <-] & E)%next_bind.
  destruct (@Index.Get nvShards (idx t) (entryKey e)) as [q|]; [|by injection E as _ <-; apply spares_refl].
  apply next_bind in E as (r & t1 & [-> Hr]%deref_next & E).
  destruct (negb _ || negb (S3Only r)); [by injection E as _ <-; apply spares_refl|].
  apply next_bind in E as (u & t1 & Eq & E). apply inert_quotas in Eq as (Ei & Er & _).
  injection E as _ <-. apply (spares_before _ (set_refs (<[q := set_S3Only false r]> (refs t)) t)); [cbn; by rewrite Ei|cbn; by rewrite Er|].
  by apply (spares_update _ _ r).
Qed.

#[export] Instance spares_quiet : Quietly spares.
Proof. intros t t' (Ei & Er & _). by apply (spares_before _ t), spares_refl. Qed.

#[export] Instance spares_walked : Walked time spares refuses.
Proof.
  split; [intros; by eapply spares_deleteIf|apply refuses_retire|apply spares_flipRetired|apply spares_flipRestored|].
  intros q t r Hr. by apply (spares_update _ _ r).
Qed.

(** Requests that may not end a protection, and all background work but the
    writer's. *)
Definition sparing (e : event) : bool :=
  match e with
  | EGet _ _ _ | ETouch _ _ _ _ | EPin _ _ _ | EWriter _ => false
  | EDelete _ _ force => negb force
  | _ => true
  end.


End Spare.

End TieredServe.
