(* ===== verification/TieredReads.v ===== *)
(** What a read may serve, whatever runs beside it.

    No handler ever changes the location or the checksum of a record; from that,
    a block served from below DRAM hashes to the checksum it is served with. *)

From Stdlib Require Import ZArith Lia.
From coqutil Require Import Byte.
From stdpp Require Import base numbers list gmap sets.
From S2P Require Import Prelude.
From S2P Require Import Conc.
From S2P Require Import Wire.
From S2P Require Import Tenant.
From S2P Require Import Eviction.
From S2P Require Import BlockRef.
From S2P Require Import Index.
From S2P Require Import DramStore.
From S2P Require Import NvmeFormat.
From S2P Require Import NvmeVolume.
From S2P Require Import NvmeSpill.
From S2P Require Import NvmeIndex.
From S2P Require Import Tiered.
From S2P Require Import TieredVol.
From S2P Require Import TieredInv.
From S2P Require Import TieredActs.
From S2P Require Import TieredServe.
Import Conc Ops Eviction Seg NvmeIndex Tiered TieredVol TieredInv TieredActs TieredServe.
Open Scope Z_scope.
Open Scope go_scope.
Open Scope conc_scope.

Module TieredReads.

Section Frozen.
Context {A P : Type} `{!Dram.ExtentAlloc A} `{!Policy P} `{!Index.IndexEnv} `{!Xxh3} `{!Outside}.
Context (time : nat -> Z) (vp : nat -> Nvme.VolumeParams) (p : Params).

Abbreviation T := (Tiered A P).
Abbreviation act := (act T).
Abbreviation prog := (prog T).

(** ** Records keep their location and their checksum *)

Definition below_next (t : T) : Prop := forall q r, refs t !! q = Some r -> q < nextPtr t.

Definition frozen (t t' : T) : Prop := forall q r, refs t !! q = Some r ->
  exists r', refs t' !! q = Some r' /\ Loc_ r' = Loc_ r /\ XXH3 r' = XXH3 r.

Lemma below_frozen_refl t : frozen t t.
Proof. intros q r Hr. by exists r. Qed.

Lemma frozen_trans t1 t2 t3 : frozen t1 t2 -> frozen t2 t3 -> frozen t1 t3.
Proof.
  intros H12 H23 q r Hr. destruct (H12 _ _ Hr) as (r' & Hr' & El & Ex). destruct (H23 _ _ Hr') as (r'' & ? & ? & ?).
  exists r''. split_and!; congruence.
Qed.

Abbreviation G := (guarantees below_next frozen).

Lemma G_refl t : G t t.
Proof. intros Hw. split; [done|apply below_frozen_refl]. Qed.

Lemma G_trans t1 t2 t3 : G t1 t2 -> G t2 t3 -> G t1 t3.
Proof. intros H12 H23 Hw. destruct (H12 Hw) as [Hw2 ?]. destruct (H23 Hw2). split; [done|by eapply frozen_trans]. Qed.

Lemma G_same t t' : refs t' = refs t -> nextPtr t' = nextPtr t -> G t t'.
Proof. intros Er En Hw. split; [intros q r; rewrite Er, En; apply Hw|]. intros q r Hr. rewrite Er. by exists r. Qed.

#[export] Instance G_quiet : Quietly G.
Proof. intros t t' (_ & Er & En). by apply G_same. Qed.

Lemma G_update t q r r' : refs t !! q = Some r -> Loc_ r' = Loc_ r -> XXH3 r' = XXH3 r ->
  G t (set_refs (<[q := r']> (refs t)) t).
Proof.
  intros Hr El Ex Hw. split.
  - intros q' r0. cbn. intros [[<- _]|[_ H']]%lookup_insert_Some; eauto.
  - intros q' r0 Hr0. cbn. destruct (decide (q = q')) as [->|Hne].
    + rewrite lookup_insert_eq. exists r'. split_and!; congruence.
    + rewrite lookup_insert_ne by done. by exists r0.
Qed.

Definition holds {B} (m : act B) : Prop := forall t b t', m t = Next b t' -> G t t'.

Lemma holds_inert {B} (m : act B) : inert m -> holds m.
Proof. intros Hm t b t' E. eapply quietly, Hm, E. Qed.

Lemma holds_bind {B C} (m : act B) (f : B -> act C) : holds m -> (forall b, holds (f b)) -> holds (m ≫= f).
Proof. intros Hm Hf t c t' (b & t1 & E1 & E2)%next_bind. eapply G_trans; [by eapply Hm|by eapply Hf]. Qed.

Lemma holds_put f : (forall t, refs (f t) = refs t /\ nextPtr (f t) = nextPtr t) -> holds (put f).
Proof. intros Hf t b t' [= _ <-]. by apply G_same; apply Hf. Qed.

(** A record rewritten in one action. *)
Lemma holds_update {B} q (f : nvmeRef -> nvmeRef) (k : nvmeRef -> act B) :
  (forall r, Loc_ (f r) = Loc_ r /\ XXH3 (f r) = XXH3 r) -> (forall r, holds (k r)) ->
  holds (r ← deref q; setRef q (f r);; k r).
Proof.
  intros Hf Hk t b t' (r & t1 & [-> Hr]%deref_next & (u & t2 & [= _ <-] & E)%next_bind)%next_bind.
  eapply G_trans; [|by eapply Hk]. apply (G_update _ _ r); [done|apply Hf..].
Qed.

Lemma holds_newRef r : holds (newRef r).
Proof.
  intros t b t' [= _ <-] Hw. assert (refs t !! nextPtr t = None) as Hn.
  { destruct (refs t !! nextPtr t) eqn:E; [|done]. specialize (Hw _ _ E). lia. }
  split.
  - intros q r0. cbn. intros [[<- _]|[_ H']]%lookup_insert_Some; [cbn; lia|]. cbn. specialize (Hw _ _ H'). lia.
  - intros q r0 Hr0. cbn. rewrite lookup_insert_ne by congruence. by exists r0.
Qed.

Lemma holds_each {B} (f : B -> act unit) l : (forall b, holds (f b)) -> holds (each f l).
Proof. intros Hf. induction l as [|b l IH]; cbn [each]; [by apply holds_inert, inert_ret|]. by apply holds_bind. Qed.

End Frozen.

Create HintDb holds.

Ltac holds_step :=
  match goal with
  | |- holds (if ?b then _ else _) => destruct b
  | |- holds (match ?x with _ => _ end) => destruct x
  | |- holds (let _ := _ in _) => cbv zeta
  | |- holds _ => solve [eauto with holds]
  | |- holds _ => apply holds_inert; solve [repeat inert_step]
  | |- holds (put _) => apply holds_put; by intros []
  | |- holds (_ ≫= _) => apply holds_bind; [|intros ?]
  | |- holds ?m => let h := head m in unfold h
  end.

Section Handlers.
Context {A P : Type} `{!Dram.ExtentAlloc A} `{!Policy P} `{!Index.IndexEnv} `{!Xxh3} `{!Outside}.
Context (time : nat -> Z) (vp : nat -> Nvme.VolumeParams) (p : Params).

Abbreviation T := (Tiered A P).
Abbreviation act := (act T).
Abbreviation prog := (prog T).
Abbreviation G := (guarantees (below_next (A := A) (P := P)) frozen).

#[local] Hint Resolve holds_newRef : holds.

Lemma holds_putThen k q (fn : act unit) : holds fn -> holds (putThen k q fn).
Proof. intros Hf. unfold putThen. repeat holds_step. Qed.

Lemma holds_publish k loc sum ttl : holds (publish (A := A) (P := P) k loc sum ttl).
Proof. unfold publish. apply holds_bind; [apply holds_newRef|]. intros q. apply holds_putThen. repeat holds_step. Qed.
#[local] Hint Resolve holds_publish : holds.

Lemma holds_callback a : holds (callback (A := A) (P := P) time a).
Proof.
  intros t b t'. unfold callback. destruct (closures t !! _) as [dm|]; [|done]. intros E.
  eapply (G_trans _ (set_closures (delete (Nvme.r_OnWritten a.1) (closures t)) t)); [by apply G_same|].
  revert E. generalize (set_closures (delete (Nvme.r_OnWritten a.1) (closures t)) t). intros t1. revert t1 b t'.
  change (holds (onWritten time dm a.2)). unfold onWritten, completeDemotion. repeat holds_step.
Qed.

Lemma holds_calling i m : holds (calling (A := A) (P := P) time i m).
Proof. unfold calling. repeat holds_step. apply holds_each, holds_callback. Qed.

Definition gate_still (gate : Z -> act Z) : Prop := forall q, inert (gate q).

Lemma holds_deleteIf k gate : gate_still gate -> holds (deleteIf k gate).
Proof.
  intros Hg. unfold deleteIf. apply holds_bind; [repeat holds_step|]. intros [q|]; [|repeat holds_step].
  apply holds_bind; [apply holds_inert, Hg|]. intros st. repeat holds_step.
Qed.

(** The end of a flip: one record is rewritten outside its location and checksum. *)
Lemma G_flip (t t' : T) q r r' : refs t !! q = Some r -> Loc_ r' = Loc_ r -> XXH3 r' = XXH3 r ->
  refs t' = <[q := r']> (refs t) -> nextPtr t' = nextPtr t -> G t t'.
Proof. intros Hr El Ex Er En. eapply G_trans; [by apply (G_update t q r r')|]. by apply G_same. Qed.

Lemma holds_flipRetired id n e : holds (flipRetired (A := A) (P := P) time id n e).
Proof.
  unfold flipRetired, withShardLock. apply holds_bind; [repeat holds_step|]. intros [q|]; [|repeat holds_step].
  intros t b t' (r & t1 & [-> Hr]%deref_next & E)%next_bind.
  repeat (case_if_in E; [by injection E as _ <-; apply G_refl|]). apply next_bind in E as (z & t1 & [= _ <-] & E).
  case_if_in E; [injection E as _ <-; by apply G_same|].
  apply next_bind in E as (u & t1 & (_ & Er & En)%inert_quotas & E). injection E as _ <-.
  eapply (G_flip _ _ q r (set_S3Only true r)); [done..| |]; cbn; by rewrite ?Er, ?En.
Qed.

Lemma holds_flipRestored id e : holds (flipRestored (A := A) (P := P) id e).
Proof.
  unfold flipRestored, withShardLock. apply holds_bind; [repeat holds_step|]. intros [q|]; [|repeat holds_step].
  intros t b t' (r & t1 & [-> Hr]%deref_next & E)%next_bind. case_if_in E; [by injection E as _ <-; apply G_refl|].
  apply next_bind in E as (u & t1 & (_ & Er & En)%inert_quotas & E). injection E as _ <-.
  eapply (G_flip _ _ q r (set_S3Only false r)); [done..| |]; cbn; by rewrite ?Er, ?En.
Qed.

#[local] Instance G_walked : Walked time G gate_still.
Proof.
  split.
  - intros k gate t b t' Hg. by apply holds_deleteIf.
  - intros id q. unfold retireGate. repeat inert_step.
  - intros id n e. apply holds_flipRetired.
  - intros id e. apply holds_flipRestored.
  - intros q t r Hr. by apply (G_update _ _ r).
Qed.

Lemma holds_noteHit k e z : holds (noteHit (A := A) (P := P) p k e z).
Proof.
  unfold noteHit, withShardLock. apply holds_bind; [repeat holds_step|]. intros o. case_bool_decide; [|repeat holds_step].
  apply (holds_update e (fun r => set_LastAccess z (extendNvmeLease r (i64 (z + clampLeaseMS p 0 * Lifecycle.Millisecond))))
    (fun r => mret (Some (LastAccess r)))); [|intros; repeat holds_step].
  intros r. unfold extendNvmeLease. by case_if.
Qed.

Lemma holds_touchNvme sub ttl z o : holds (touchNvme (A := A) (P := P) p sub ttl z o).
Proof.
  destruct o as [e|]; [|apply holds_inert, inert_ret]. intros s b s' (r & t1 & [-> Hr]%deref_next & E)%next_bind.
  assert (forall r' u, Loc_ r' = Loc_ r -> XXH3 r' = XXH3 r -> (setRef e r';; mret u) s = Next b s' -> G s s') as Hset.
  { intros r' u El Ex [= _ <-]. by apply (G_update _ _ r). }
  repeat case_match; try (injection E as _ <-; apply G_refl); (eapply Hset; [..|exact E]); try done;
    unfold extendNvmeLease; by case_if.
Qed.

Lemma holds_pinNvme sub o : holds (pinNvme (A := A) (P := P) sub o).
Proof.
  destruct o as [e|]; [|apply holds_inert, inert_ret].
  apply (holds_update e (fun r => set_PinFlags (if sub =? PinSoft then nvPinSoftBit else 0) r) (fun _ => mret StatusOK)); [done|].
  intros. repeat holds_step.
Qed.

(** ** Every handler *)

Lemma every_holds {B C} (m : act B) (k : B -> prog C) : holds m -> (forall b, every G (k b)) -> every G (Atom B m k).
Proof. intros Hm Hk. split; [apply Hm|done]. Qed.

Lemma still_heal e : gate_still (healGate e).
Proof. intros q. repeat inert_step. Qed.
Lemma still_canDelete force : gate_still (canDeleteNvme time force).
Proof. intros q. unfold canDeleteNvme. repeat inert_step. Qed.
#[local] Hint Resolve holds_noteHit holds_touchNvme holds_pinNvme holds_deleteIf still_heal : holds.

Lemma every_GetRefTier ctx ns key : every G (GetRefTier time vp p ctx ns key).
Proof.
  unfold GetRefTier, getNvme, getCold.
  repeat first [spare_step|apply every_holds; [solve [eauto with holds]|intros ?]|unfold volRead].
Qed.

Lemma every_TouchLease ns key sub ttl : every G (TouchLease time p ns key sub ttl).
Proof.
  unfold TouchLease. repeat spare_step. apply every_holds; [|done]. unfold withShardLock.
  apply holds_bind; [repeat holds_step|]. intros o. apply holds_touchNvme.
Qed.

Lemma every_PinOp ns key sub : every G (PinOp time vp p ns key sub).
Proof.
  unfold PinOp, promoteSync, promoteRead. repeat spare_step. apply every_holds; [|done]. unfold withShardLock.
  apply holds_bind; [repeat holds_step|]. intros o. apply holds_pinNvme.
Qed.

(** Every handler keeps to the relation. *)
Lemma every_handler e : every G (handler time vp p e).
Proof.
  destruct e; cbn [handler];
    try (apply every_bind; [first [apply every_GetRefTier|apply every_TouchLease|apply every_PinOp
      |apply (spare_delete time p G gate_still), still_canDelete]|done]);
    try (split; [apply holds_calling|done]);
    unfold release, Put, Contains, ExistsPrefix, CanStoreNS, kicking, tierCounts, lateAdopt; repeat spare_step.
Qed.

(** ** What a read serves *)

(** A block from below DRAM hashes to the checksum it is served with; from a
    segment, it comes with the hold on that segment. *)
Definition verified (g : got) : Prop :=
  match g with
  | Served OnDram _ _ h => exists ref, h = HoldDram ref
  | Served OnNvme data sum h => xxh3 data = sum /\ exists i id, h = HoldSegment i id
  | Served OnS3 data sum h => xxh3 data = sum /\ h = HoldNone
  | Answer st => st = StatusNotFound \/ st = StatusErrBusy
  end.

Lemma readOne_sum (W : World) q loc ns key want v b v' :
  Nvme.readOne q loc ns key want v = Nvme.Ret (Nvme.ReadOK, b) v' -> xxh3 b = want.
Proof.
  unfold Nvme.readOne. cbv zeta. intros E.
  repeat (apply ret_bind in E as (? & ? & ? & E) || case_match || (injection E as <- _) || discriminate E); try done.
  all: try (by apply Z.eqb_eq, negb_false_iff).
Qed.

Lemma Read_sum (W : World) q loc ns key want v b v' :
  Nvme.Read q loc ns key want v = Nvme.Ret (Nvme.ReadOK, b) v' -> xxh3 b = want.
Proof.
  unfold Nvme.Read. intros E. apply ret_bind in E as (c & v1 & _ & E). case_if_in E; [discriminate E|].
  apply ret_bind in E as (ok & v2 & _ & E). case_if_in E; [discriminate E|].
  apply ret_bind in E as (sl & v3 & _ & E). case_if_in E; [by apply ret_bind in E as (? & ? & _ & E)|].
  apply ret_bind in E as ([st b'] & v4 & Er & E). apply ret_bind in E as (? & ? & _ & E). injection E as -> -> _.
  by eapply readOne_sum.
Qed.

Lemma volRead_sum ctx i loc ns key want (t : T) b t' :
  volRead vp ctx i loc ns key want t = Next (Nvme.ReadOK, b) t' -> xxh3 b = want.
Proof.
  unfold volRead. intros (c & t1 & _ & E)%next_bind. destruct c; [done|]. unfold vol in E.
  destruct (vols t1 !! i) as [v|]; [|done]. destruct (Nvme.Read _ _ _ _ _ v) as [[st b'] v'| |] eqn:Er; try done.
  injection E as -> -> _. by eapply Read_sum.
Qed.

Abbreviation yields := (yields (below_next (A := A) (P := P)) frozen).

(** What the cold read returns hashes to the checksum of the record. *)
Lemma yields_readS3 ctx e s r :
  refs s !! e = Some r -> yields (fun res _ => res.1 = StatusOK -> xxh3 res.2 = XXH3 r) s (readS3 time p ctx e).
Proof.
  intros Hr. unfold readS3. case_if; [done|]. intros s1 r1 s2 _ Hg [-> Hr1]%deref_next.
  destruct (Hg _ _ Hr) as (r' & Hr' & _ & <-). rewrite Hr1 in Hr'. injection Hr' as <-. clear s Hg Hr Hr1.
  case_if; [done|]. intros s1' z s2 _ _ _. eapply (yields_bind _ _ (fun _ _ => True)); [by apply yields_any|]. intros ok s3 _.
  case_if; [by intros ? ? ? _ _ _|]. intros s4 slot s5 _ _ _. case_if; [by intros ? ? ? _ _ _|].
  eapply (yields_bind _ _ (fun res _ => res.1 = StatusOK -> xxh3 res.2 = XXH3 r1)); [|intros res s6 Hres ? ? ? _ _ _; exact Hres].
  unfold readRange. intros s6 ans s7 _ _ _. destruct ans as [data| |].
  - cbv zeta. eapply (yields_bind _ _ (fun _ _ => True)); [by apply yields_any|]. intros _ s8 _.
    destruct (xxh3 _ =? XXH3 r1) eqn:Ex; cbn [negb]; intros ? ? ? _ _ _; [|done]. intros _. by apply Z.eqb_eq.
  - intros ? ? ? _ _ _. eapply (yields_bind _ _ (fun _ _ => True)); [by apply yields_any|]. done.
  - intros ? c ? _ _ _. destruct c; [done|]. intros ? ? ? _ _ _.
    eapply (yields_bind _ _ (fun _ _ => True)); [by apply yields_any|]. done.
Qed.

Lemma yields_getCold ctx k e s r :
  refs s !! e = Some r -> yields (fun g _ => verified g) s (getCold time p ctx k e (XXH3 r)).
Proof.
  intros Hr. unfold getCold. eapply yields_bind; [by apply yields_readS3|]. intros [cst data] s1 Hd. cbn in Hd.
  case_if; [intros ? ? ? _ _ _; by right|]. destruct (cst =? StatusOK) eqn:Ec; [|by left].
  intros ? z ? _ _ _ ? prev ? _ _ _. eapply (yields_bind _ _ (fun _ _ => True)); [by apply yields_any|]. intros _ ? _.
  split; [|done]. by apply Hd, Z.eqb_eq.
Qed.

Lemma yields_GetRefTier ctx ns key s : yields (fun g _ => verified g) s (GetRefTier time vp p ctx ns key).
Proof.
  unfold GetRefTier. intros s1 hit s2 _ _ _. destruct hit as [[[data sum] ref]|]; [by exists ref|]. cbv zeta.
  intros s3 e s4 _ _ _. destruct e as [e|]; [|by left]. unfold getNvme. intros s5 r s6 _ _ [-> Hr]%deref_next.
  intros s7 i s8 _ Hg Ei. destruct (Hg _ _ Hr) as (r7 & Hr7 & _ & E7).
  assert (refs s8 !! e = Some r7) as Hr8 by (destruct (inert_volumeFor _ _ _ _ Ei) as (_ & -> & _); done).
  intros s9 [rst blob] s10 _ Hg9 Er. destruct (Hg9 _ _ Hr8) as (r9 & Hr9 & _ & E9).
  assert (exists r10, refs s10 !! e = Some r10 /\ XXH3 r10 = XXH3 r) as (r10 & Hr10 & E10).
  { assert (inert (volRead (A := A) (P := P) vp ctx i (Loc_ r) ns key (XXH3 r))) as Hin by (unfold volRead; repeat inert_step).
    destruct (Hin _ _ _ Er) as (_ & Hrefs & _). exists r9. rewrite Hrefs. split; congruence. }
  destruct rst.
  - apply volRead_sum in Er. intros ? z ? _ _ _ ? prev ? _ _ _. eapply (yields_bind _ _ (fun _ _ => True)); [by apply yields_any|].
    intros _ ? _. split; [done|]. by eexists _, _.
  - intros ? ? ? _ _ _. by right.
  - intros s11 c s12 _ Hg11 Ec. destruct (Hg11 _ _ Hr10) as (r11 & Hr11 & _ & E11).
    assert (refs s12 !! e = Some r11) as Hr12.
    { assert (inert (if ctx then ask canceled else mret false : act bool)) as Hin by (repeat inert_step).
      by destruct (Hin _ _ _ Ec) as (_ & -> & _). }
    destruct c; [by left|]. rewrite <- E10, <- E11. by apply yields_getCold.
  - intros ? ? ? _ _ _ ? [healed st] ? _ _ _. eapply (yields_bind _ _ (fun _ _ => True)); [by apply yields_any|]. by left.
Qed.

Lemma holds_seedEntry e : holds (seedEntry (A := A) (P := P) e).
Proof.
  unfold seedEntry. cbv zeta. apply holds_bind; [apply holds_newRef|]. intros q.
  apply holds_bind; [apply holds_putThen|intros ?]; repeat holds_step.
Qed.

Definition good_reply (r : reply) : Prop := match r with RGot g => verified g | _ => True end.

Lemma yields_handler e s : below_next s -> yields (fun r _ => good_reply r) s (handler time vp p e).
Proof.
  intros _. destruct e; cbn [handler]; try (eapply (yields_bind _ _ (fun _ _ => True)); [by apply yields_any|]; by intros).
  - eapply yields_bind; [apply yields_GetRefTier|]. done.
  - eapply (yields_bind _ _ (fun _ _ => True)); [by apply yields_any|]. by intros [n per].
  - done.
  - done.
Qed.

(** C11: No interleaving makes a GET serve the wrong bytes. Whatever ran beside
    it since the store was built, a GET that has answered with a block from NVMe
    or from the object store has bytes that hash to the checksum it answers with;
    from NVMe they come with a hold on their segment, from DRAM with one on their
    extent; and all it answers otherwise is NOT_FOUND or BUSY. *)
Theorem tiered_serves_verified s vs recovered b t0 c i g :
  NewTiered s vs recovered = Next b t0 -> reachable (handler time vp p) (fun _ => true) t0 c ->
  threads c !! i = Some (Done (RGot g)) -> verified g.
Proof.
  intros E Hr Hi.
  assert (below_next t0) as Hw.
  { eapply (holds_each seedEntry (concat recovered) holds_seedEntry _ _ _ E). intros q r Hq. cbn in Hq. by rewrite lookup_empty in Hq. }
  destruct (pool_results below_next frozen below_frozen_refl frozen_trans _ _ good_reply _ _ every_handler yields_handler Hw Hr) as [_ Hall].
  apply (Hall _ _ Hi).
Qed.

End Handlers.
End TieredReads.
