(* ===== verification/TieredAlone.v ===== *)
(** Handlers that run by themselves: what EXISTS and DELETE answer and leave; and
    that the loop over a volume's segments ends within its rounds. *)

From Stdlib Require Import ZArith Lia FunctionalExtensionality.
From coqutil Require Import Byte.
From stdpp Require Import base numbers list gmap sets.
From S2P Require Import Prelude.
From S2P Require Import Conc.
From S2P Require Import Wire.
From S2P Require Import Tenant.
From S2P Require Import Eviction.
From S2P Require Import BlockRef.
From S2P Require Import Index.
From S2P Require Import DramStore.
From S2P Require Import NvmeFormat.
From S2P Require Import NvmeVolume.
From S2P Require Import NvmeSpill.
From S2P Require Import NvmeIndex.
From S2P Require Import Tiered.
From S2P Require Import TieredVol.
From S2P Require Import TieredDram.
From S2P Require Import TieredInv.
From S2P Require Import TieredActs.
From S2P Require Import TieredMoves.
From S2P Require Import TieredSurface.
From S2P Require Import DramInv.
From S2P Require Import DramSpec.
From S2P Require Import DramRefine.
Import Conc Ops Eviction Seg NvmeIndex Tiered TieredVol TieredDram TieredInv TieredActs TieredMoves TieredSurface.
Open Scope Z_scope.
Open Scope go_scope.
Open Scope conc_scope.

Module TieredAlone.

Section Alone.
Context {A P : Type} `{!Dram.ExtentAlloc A} `{!DramInv.ExtentAllocLaws A} `{!Policy P} `{!PolicyLaws P} `{!Index.IndexEnv} `{!Xxh3} `{!Outside}.
Context (time : nat -> Z) (p : Params).

Abbreviation T := (Tiered A P).
Abbreviation act := (act T).
Abbreviation prog := (prog T).

(** A block is in DRAM or below. *)
Definition in_dram (t : T) (k : Key) : bool := bool_decide (is_Some (Index.Get (Dram.index_ (d t)) k)).
Definition in_index (t : T) (k : Key) : bool := bool_decide (is_Some (@Index.Get nvShards (idx t) k)).
Definition resident (t : T) (k : Key) : bool := in_dram t k || in_index t k.

(** ** EXISTS *)

Fixpoint leading (f : bytes -> bool) (keys : list bytes) : list bytes :=
  match keys with [] => [] | k :: keys => if f k then k :: leading f keys else [] end.

Lemma alone_Contains ns key (t : T) : alone (Contains ns key) t = Next (resident t (mkKey ns key)) t.
Proof.
  unfold Contains, resident, in_dram, in_index. cbn. unfold dram, Dram.Contains, gets. cbn.
  destruct (bool_decide (is_Some (Index.Get (Dram.index_ (d t)) _))); by destruct t.
Qed.

Lemma alone_existsLoop ns keys : forall c n per (t : T), 0 <= n -> n + len keys < 2 ^ 32 ->
  alone (existsLoop ns keys c n per) t =
  Next (n + (if c then len (leading (fun key => resident t (mkKey ns key)) keys) else 0),
        per ++ ((fun key => if resident t (mkKey ns key) then StatusOK else StatusNotFound) <$> keys)) t.
Proof.
  induction keys as [|key keys IH]; intros c n per t Hn Hl; cbn [existsLoop leading fmap list_fmap].
  - cbn. rewrite app_nil_r. destruct c; do 2 f_equal; unfold len; cbn; lia.
  - rewrite alone_bind, alone_Contains. rewrite len_cons in Hl. pose proof (len_nonneg keys).
    destruct (resident t (mkKey ns key)), c; cbn [andb]; rewrite IH; rewrite ?u32_small, ?len_cons, <- ?app_assoc by lia; try lia; do 2 f_equal; lia.
Qed.

(** The tiered EXISTS agrees with its definition: run by itself, it returns
    the number of leading keys that are resident, in DRAM or below, and the status
    of every key, and changes nothing. *)
Theorem tiered_exists_prefix ns keys withBitmap (t : T) :
  len keys < 2 ^ 32 ->
  alone (ExistsPrefix ns keys withBitmap) t =
  Next (len (leading (fun key => resident t (mkKey ns key)) keys),
        if withBitmap then Some ((fun key => if resident t (mkKey ns key) then StatusOK else StatusNotFound) <$> keys)
        else None) t.
Proof. intros Hl. unfold ExistsPrefix. rewrite alone_bind, alone_existsLoop by lia. done. Qed.

(** ** DELETE *)

(** The DRAM tier does not mind the clock or the counters of the other tiers. *)
Lemma dram_inv_frame g (s : Dram.Store A P) n o :
  DramInv.Inv g s ->
  match Dram.quotas s, o with
  | Some q, Some q' => quotas_ok q' /\ forall ns, Usage q' ns Registry.TierDRAM = Usage q ns Registry.TierDRAM
  | None, None => True
  | _, _ => False
  end -> DramInv.Inv g (Dram.set_quotas o (Dram.set_tick n s)).
Proof.
  intros [] Ho. constructor; try done. cbn [Dram.quotas Dram.set_quotas]. destruct o as [q'|]; [|done]. destruct (Dram.quotas s) as [q|]; [|done].
  destruct Ho as [Hq Hu]. split; [done|]. intros ns. change (DramInv.res (Dram.set_quotas _ _)) with (DramInv.res s).
  rewrite Hu. apply iv_quota.
Qed.

Lemma Refund_above q ns tier n : quotas_ok q -> low tier ->
  quotas_ok (Quotas.Refund q ns tier n) /\
  forall ns', Usage (Quotas.Refund q ns tier n) ns' Registry.TierDRAM = Usage q ns' Registry.TierDRAM.
Proof.
  intros Hq Ht. destruct (Z_lt_le_dec 0 n) as [Hn|Hn].
  2: { unfold Quotas.Refund. replace (n <=? 0) with true by lia. done. }
  assert (exists v, QuotaFacts.usage_set q (Quotas.Refund q ns tier n) ns tier v) as (v & Hq' & _ & Hu).
  { exists (if Quotas.i64 (Quotas.at_ (QuotaFacts.usedOf q ns) tier + - n) <? 0 then 0
            else Quotas.i64 (Quotas.at_ (QuotaFacts.usedOf q ns) tier + - n)).
    unfold Quotas.Refund. replace (n <=? 0) with false by lia. rewrite (low_ok _ Ht), QuotaFacts.domain_spec. cbn [orb].
    unfold Quotas.addUsed. cbn [Quotas.used Quotas.limit].
    case_if; unfold Quotas.putUsage at 1; cbn; rewrite ?insert_insert_eq; by apply QuotaFacts.put_usage_set, low_ok. }
  split; [done|]. intros ns'. rewrite Hu by done. rewrite decide_False; [done|]. by intros [_ <-]; destruct Ht.
Qed.

(** Only the clock and counters below DRAM have moved. *)
Definition kin (s s' : Dram.Store A P) : Prop :=
  (forall g, DramInv.Inv g s -> DramInv.Inv g s') /\ Dram.index_ s' = Dram.index_ s /\ Dram.heap s' = Dram.heap s.

Lemma kin_refl s : kin s s.
Proof. done. Qed.

Lemma kin_tick s n : kin s (Dram.set_tick n s).
Proof.
  split; [|done]. intros g Hg. pose proof (dram_inv_frame g s n (Dram.quotas s) Hg) as Hf.
  replace (Dram.set_tick n s) with (Dram.set_quotas (Dram.quotas s) (Dram.set_tick n s)) by (by destruct s). apply Hf.
  pose proof (DramInv.iv_quota _ _ Hg) as Hq. destruct (Dram.quotas s); [|done]. by destruct Hq.
Qed.

Lemma kin_refund s q ns tier n : low tier -> Dram.quotas s = Some q ->
  kin s (Dram.set_quotas (Some (Quotas.Refund q ns tier n)) s).
Proof.
  intros Ht Eq. split; [|done]. intros g Hg.
  replace s with (Dram.set_tick (Dram.tick s) s) at 1 by (by destruct s). apply (dram_inv_frame g s); [done|].
  rewrite Eq. apply Refund_above; [|done]. pose proof (DramInv.iv_quota _ _ Hg) as Hq. rewrite Eq in Hq. apply Hq.
Qed.

Lemma kin_trans s1 s2 s3 : kin s1 s2 -> kin s2 s3 -> kin s1 s3.
Proof. intros (H1' & E1 & E2) (H2' & E3 & E4). split_and!; [auto|congruence..]. Qed.

Lemma alone_gc id (t : T) : exists t', alone (enqueueObjectGC p id) t = Next tt t' /\ idx t' = idx t /\ d t' = d t.
Proof.
  unfold enqueueObjectGC. destruct (negb (Spill p)); [by exists t|]. cbn. case_bool_decide; [by eexists|]. cbn.
  unfold sendDrop. cbn. destruct (64 <=? len (dropq t)); cbn; by eexists.
Qed.

Lemma alone_quotas ns tier n (t : T) : low tier ->
  exists t', alone (_ ⇐ quotas (fun q => Quotas.Refund q ns tier n); mret tt) t = Next tt t' /\ idx t' = idx t /\ kin (d t) (d t').
Proof.
  intros Ht. cbn. destruct (Dram.quotas (d t)) as [q|] eqn:Eq; [|by exists t]. eexists. split_and!; [done..|]. by apply kin_refund.
Qed.

Lemma alone_refund ns o (t : T) : (forall q, o = Some q -> is_Some (refs t !! q)) ->
  exists t', alone (refundNvmeQuota p ns o) t = Next tt t' /\ idx t' = idx t /\ kin (d t) (d t').
Proof.
  intros Ho. destruct o as [q|]; [|by exists t]. destruct (Ho q eq_refl) as [r Hr]. unfold refundNvmeQuota.
  assert (deref q t = Next r t) as Ed by (unfold deref; by rewrite Hr).
  cbn [alone]. rewrite Ed. destruct (Len r =? 0); [by exists t|]. cbn [alone]. unfold fmap, act_fmap. rewrite Ed.
  destruct (S3Only r).
  - rewrite alone_bind. cbn [alone]. unfold put at 1 2. unfold s3SegAdd. cbv zeta beta.
    set (t1 := set_segRefs _ _). rewrite alone_bind.
    assert (idx t1 = idx t /\ d t1 = d t) as [Ei Ed1] by done.
    assert (exists t2, alone (if (default 0 (segRefs (set_s3Bytes (s3Bytes (set_s3Blocks (s3Blocks t - 1) t) - Len r)
        (set_s3Blocks (s3Blocks t - 1) t)) !! SegmentID (Loc_ r)) + -1 <=? 0) && (-1 <? 0)
        then enqueueObjectGC p (SegmentID (Loc_ r)) else mret tt) t1 = Next tt t2 /\ idx t2 = idx t1 /\ d t2 = d t1) as (t2 & -> & Ei2 & Ed2).
    { case_if; [apply alone_gc|by exists t1]. }
    cbn [alone mret]. destruct (alone_quotas ns Registry.TierS3 (Len r) t2 ltac:(by right)) as (t3 & E3 & Ei3 & Hk).
    exists t3. split_and!; [exact E3|congruence|]. congruence.
  - apply alone_quotas. by left.
Qed.

(** The gate's answer for a record, and the state it leaves. *)
Definition verdict (force : bool) (t : T) (r : nvmeRef) : Z :=
  if hardPinned r then StatusErrPinned else if force then StatusOK else
  if leased r (time (Dram.tick (d t))) then StatusErrLeased else if pinned r then StatusErrPinned else StatusOK.

Lemma verdict_cases force t r :
  verdict force t r = StatusOK \/ verdict force t r = StatusErrLeased \/ verdict force t r = StatusErrPinned.
Proof. unfold verdict. repeat case_if; auto. Qed.

Lemma gate_run force q (t : T) r : refs t !! q = Some r ->
  exists n, canDeleteNvme time force q t = Next (verdict force t r) (set_d (Dram.set_tick n (d t)) t).
Proof.
  intros Hr. unfold canDeleteNvme, verdict. unfold mbind at 1, act_bind at 1. unfold deref at 1. rewrite Hr.
  assert (exists n, set_d (Dram.set_tick n (d t)) t = t) as [n En] by (exists (Dram.tick (d t)); destruct t as [[]]; done).
  destruct (hardPinned r); [exists n; by rewrite En|]. destruct force; [exists n; by rewrite En|].
  exists (S (Dram.tick (d t))). cbn. done.
Qed.

(** The removal below DRAM. *)
Lemma alone_deleteNvme l k force (t : T) : Acc l t -> exists removed st t1,
  alone (deleteNvme time p k force) t = Next (removed, st) t1 /\ kin (d t) (d t1) /\
  match @Index.Get nvShards (idx t) k with
  | None => removed = false /\ st = StatusNotFound /\ idx t1 = idx t
  | Some q => (removed = true /\ st = StatusOK /\ exists ln, idx t1 = @Index.removeKey nvShards (idx t) k ln) \/
              (removed = false /\ (st = StatusErrLeased \/ st = StatusErrPinned) /\ idx t1 = idx t)
  end.
Proof.
  intros HA. unfold deleteNvme. cbn [alone]. unfold deleteIf, mbind at 1, act_bind at 1, iget, get.
  destruct (@Index.Get nvShards (idx t) k) as [q|] eqn:Ek.
  2:{ cbn. by exists false, StatusNotFound, t. }
  pose proof Ek as Ek'. rewrite Index.Get_contents in Ek' by apply HA. destruct (ac_ref _ _ HA _ _ Ek') as [r Hr].
  destruct (gate_run force q t r Hr) as [n Eg]. set (t0 := set_d _ t) in *. unfold mbind at 1, act_bind at 1. rewrite Eg.
  destruct (verdict_cases force t r) as [Ev|Ev].
  - rewrite Ev. cbn [negb Z.eqb StatusOK]. unfold mbind, act_bind, deref. change (refs t0) with (refs t). rewrite Hr. cbn [put mret act_ret].
    unfold put. set (t1 := set_idx _ t0).
    match goal with |- context [prog_bind _ _ _ ?f ?m] => change (prog_bind _ _ _ f m) with (m ≫= f) end. rewrite alone_bind.
    destruct (alone_refund (NS k) (Some q) t1) as (t2 & -> & Ei & Hk); [intros q' [= <-]; by exists r|].
    exists true, StatusOK, t2. split_and!; [done|eapply kin_trans; [apply (kin_tick _ n)|exact Hk]|]. left. split_and!; [done..|]. exists (Len r). exact Ei.
  - assert (negb (verdict force t r =? StatusOK) = true) as -> by (by destruct Ev as [-> | ->]). cbn.
    exists false, (verdict force t r), t0. split_and!; [done|apply kin_tick|]. by right.
Qed.

Lemma in_index_spec l (t : T) k : Acc l t -> in_index t k = bool_decide (is_Some (cont t !! k)).
Proof. intros HA. unfold in_index. by rewrite Index.Get_contents by apply HA. Qed.

Lemma in_dram_spec g (t : T) k : DramInv.Inv g (d t) -> in_dram t k = bool_decide (is_Some (DramInv.cont (d t) !! k)).
Proof. intros HD. unfold in_dram. by rewrite Index.Get_contents by apply HD. Qed.

(** After the removal below DRAM the index is the old one, without the key or
    not. *)
Lemma in_index_after l (t t1 : T) k (gone : bool) ln :
  Acc l t -> idx t1 = (if gone then @Index.removeKey nvShards (idx t) k ln else idx t) ->
  forall k', in_index t1 k' = if gone && bool_decide (k' = k) then false else in_index t k'.
Proof.
  intros HA Ei k'. unfold in_index. rewrite Ei. destruct gone; cbn [andb]; [|done].
  destruct (Index.removeKey_spec (idx t) k ln (ac_idx _ _ HA)) as [Hok Hc].
  rewrite (Index.Get_contents _ _ Hok), Hc. destruct (decide (k' = k)) as [->|Hne].
  - by rewrite (bool_decide_true (k = k)), lookup_delete_eq.
  - rewrite (bool_decide_false (k' = k)) by done. by rewrite lookup_delete_ne, <- (Index.Get_contents _ _ (ac_idx _ _ HA)) by congruence.
Qed.

Lemma dram_delete g ns key force (t : T) : DramInv.Inv g (d t) -> exists st t',
  dram (Dram.Delete time ns key force) t = Next st t' /\
  idx t' = idx t /\
  ((st = StatusNotFound /\ in_dram t (mkKey ns key) = false /\ d t' = d t) \/
   (st = StatusOK /\ in_dram t (mkKey ns key) = true /\ forall k', in_dram t' k' = if bool_decide (k' = mkKey ns key) then false else in_dram t k') \/
   ((st = StatusErrLeased \/ st = StatusErrPinned) /\ in_dram t (mkKey ns key) = true /\ forall k', in_dram t' k' = in_dram t k')).
Proof.
  intros HD. destruct (DramSpec.Delete_spec time g (d t) ns key force HD) as (st & s' & E & HD' & _ & Hcase).
  exists st, (set_d s' t). unfold dram. rewrite E. split_and!; [done..|].
  assert (DramInv.res (d t) !! mkKey ns key = (q ← DramInv.cont (d t) !! mkKey ns key; Dram.heap (d t) !! q)) as Er
    by (unfold DramInv.res; by rewrite lookup_omap).
  rewrite (in_dram_spec g) by done. destruct (DramInv.cont (d t) !! mkKey ns key) as [q|] eqn:Ek; cbn in Er.
  2:{ rewrite Er in Hcase. destruct Hcase as [-> ->]. left. by destruct t. }
  destruct (DramInv.iv_res _ _ HD _ _ Ek) as (r & Hr & _). rewrite Er, Hr in Hcase. destruct Hcase as [Est Hc]. right.
  destruct (DramRefine.canDelete_cases r force (time (Dram.tick (d t)))) as [Ev|Ev]; rewrite <- Est in Ev; [left|right].
  - split_and!; [done..|]. intros k'. rewrite !(in_dram_spec g) by done. cbn [d set_d]. rewrite Hc, Ev. cbn [Z.eqb StatusOK].
    destruct (decide (k' = mkKey ns key)) as [->|Hne].
    + by rewrite (bool_decide_true (mkKey ns key = _)), lookup_delete_eq.
    + by rewrite (bool_decide_false (k' = _)), lookup_delete_ne by congruence.
  - split_and!; [tauto|done|]. intros k'. rewrite !(in_dram_spec g) by done. cbn [d set_d]. rewrite Hc.
    by destruct Ev as [-> | ->].
Qed.

(** C24: DELETE, run by itself on a store in order, always answers and does what
    it answers: after OK the block, which was resident, is in neither tier; after
    NOT_FOUND it was in neither; after a refusal - a lease or a pin - it is still
    resident. No other block is touched. *)
Theorem tiered_delete_contract N cold g ns key force (t : T) :
  Inv N cold [] t -> DramInv.Inv g (d t) -> let k := mkKey ns key in
  exists st t', alone (Delete time p ns key force) t = Next st t' /\
    ((st = StatusOK /\ resident t k = true /\ resident t' k = false) \/
     (st = StatusNotFound /\ resident t k = false /\ resident t' k = false) \/
     ((st = StatusErrLeased \/ st = StatusErrPinned) /\ resident t' k = true)) /\
    forall k', k' <> k -> resident t' k' = resident t k'.
Proof.
  intros [HA _] HD k. destruct (alone_deleteNvme [] k force t HA) as (removed & st & t1 & E1 & Hk & Hcase).
  unfold Delete. rewrite alone_bind. fold k. rewrite E1.
  assert (forall k', in_dram t1 k' = in_dram t k') as Hd by (intros k'; unfold in_dram; destruct Hk as (_ & -> & _); done).
  assert (exists gone : bool, removed = gone /\ in_index t k = (gone || negb (st =? StatusNotFound)) /\
    ((st = StatusErrLeased \/ st = StatusErrPinned) /\ gone = false \/ st = (if gone then StatusOK else StatusNotFound)) /\
    forall k', in_index t1 k' = if gone && bool_decide (k' = k) then false else in_index t k') as (gone & -> & Hin & Hst & Hix).
  { unfold in_index at 1. destruct (@Index.Get nvShards (idx t) k) as [q|].
    - destruct Hcase as [(-> & -> & ln & Ei)|(-> & Hst & Ei)].
      + exists true. split_and!; [done..|by right|]. by apply (in_index_after [] _ _ _ true ln).
      + exists false. split_and!; [done|by destruct Hst as [-> | ->]|by left|]. by apply (in_index_after [] _ _ _ false 0).
    - destruct Hcase as (-> & -> & Ei). exists false. split_and!; [done..|by right|]. by apply (in_index_after [] _ _ _ false 0). }
  clear Hcase. destruct Hst as [[Hst ->]| ->].
  - assert ((st =? StatusErrLeased) || (st =? StatusErrPinned) = true) as -> by (by destruct Hst as [-> | ->]).
    exists st, t1. cbn [alone mret prog_ret]. cbn [andb] in Hix. split_and!; [done| |].
    + right. right. split; [done|]. unfold resident. rewrite Hix, Hin. destruct Hst as [-> | ->]; apply orb_true_r.
    + intros k' _. unfold resident. by rewrite Hd, Hix.
  - assert (((if gone then StatusOK else StatusNotFound) =? StatusErrLeased) || ((if gone then StatusOK else StatusNotFound) =? StatusErrPinned) = false)
      as -> by (by destruct gone).
    destruct (dram_delete g ns key force t1 (proj1 Hk g HD)) as (dSt & t2 & E2 & Ei2 & Hcase). fold k in Hcase.
    assert (forall k', in_index t2 k' = in_index t1 k') as Hi2 by (intros k'; unfold in_index; by rewrite Ei2).
    cbn [alone]. rewrite E2. cbn [alone mret prog_ret]. eexists _, t2. split; [done|]. unfold resident.
    assert (forall k', k' <> k -> in_index t1 k' = in_index t k') as Hne.
    { intros k' Hk'. rewrite Hix, (bool_decide_false (k' = k)), andb_false_r by done. done. }
    rewrite Hi2, Hix, (bool_decide_true (k = k)), andb_true_r by done.
    destruct Hcase as [(-> & Ek & Ed)|[(-> & Ek & Ed)|(Hs & Ek & Ed)]]; rewrite Hd in Ek; rewrite Ek.
    + assert (forall k', in_dram t2 k' = in_dram t k') as Hd2 by (intros k'; rewrite <- Hd; unfold in_dram; by rewrite Ed).
      cbn. rewrite !Hd2, Ek, Hin. split; [destruct gone; cbn; tauto|]. intros k' Hk'. by rewrite Hd2, Hi2, Hne.
    + cbn. rewrite Ed, (bool_decide_true (k = k)) by done. split; [left; destruct gone; cbn in Hin; by rewrite ?Hin|].
      intros k' Hk'. by rewrite Ed, Hd, Hi2, Hne, bool_decide_false by done.
    + split; [right; right|intros k' Hk'; by rewrite Ed, Hd, Hi2, Hne].
      rewrite Ed, Hd, Ek. split; [|done]. by destruct Hs as [-> | ->]; [left|right].
Qed.

(** ** Reclaim ends *)

Context (vp : nat -> Nvme.VolumeParams).

Lemma reclaim_fuel n i : forall fuel from retired skipped,
  retired <= 4 -> skipped <= 8 -> (4 - retired) + (8 - skipped) <= Z.of_nat fuel ->
  reclaimVolume (A := A) (P := P) time vp p (fuel + n) i from retired skipped = reclaimVolume time vp p fuel i from retired skipped.
Proof.
  induction fuel as [|fuel IH]; intros from retired skipped Hr Hs Hf.
  - destruct n as [|n]; [done|]. cbn [Nat.add reclaimVolume]. unfold reclaimSkipBudget.
    replace (retired <? 4) with false by lia. done.
  - cbn [Nat.add reclaimVolume]. unfold reclaimSkipBudget. destruct (negb _) eqn:Eg; [done|].
    apply negb_false_iff, andb_true_iff in Eg as [Eg1%Z.ltb_lt Eg2%Z.ltb_lt].
    f_equal. apply functional_extensionality. intros used. cbv zeta. destruct (_ || _); [done|]. f_equal.
    apply functional_extensionality. intros [[] id]; [done|apply IH; lia..].
Qed.

(** The reclaim loop of a volume ends by itself: after four retirements or
    eight skips it stops, so that allowing it more than twelve rounds changes
    nothing. *)
Theorem reclaim_terminates n i from :
  reclaimVolume (A := A) (P := P) time vp p (12 + n) i from 0 0 = reclaimVolume time vp p 12 i from 0 0.
Proof. by apply reclaim_fuel. Qed.

End Alone.
End TieredAlone.
