(* ===== verification/TieredDemo.v ===== *)
(** A store at work: two units of DRAM over one volume with small segments, and
    runs of it on which the theorems of the tiers are applied. *)

From Stdlib Require Import ZArith Lia.
From coqutil Require Import Byte.
From stdpp Require Import base numbers list gmap sets.
From S2P Require Import Prelude.
From S2P Require Import Conc.
From S2P Require Import Wire.
From S2P Require Import OffsetAlloc.
From S2P Require Import Tenant.
From S2P Require Import Eviction.
From S2P Require Import Index.
From S2P Require Import DramStore.
From S2P Require Import DramInv.
From S2P Require Import S3Fifo.
From S2P Require Import S3FifoSpec.
From S2P Require Import DramRefine.
From S2P Require Import NvmeFormat.
From S2P Require Import NvmeVolume.
From S2P Require Import NvmeInv.
From S2P Require Import NvmeCrash.
From S2P Require Import NvmeRecover.
From S2P Require Import NvmeSpec.
From S2P Require Import NvmeSpill.
From S2P Require Import NvmeIndex.
From S2P Require Import Tiered.
From S2P Require Import TieredInv.
From S2P Require Import TieredActs.
From S2P Require Import TieredBoot.
From S2P Require Import TieredOpen.
From S2P Require Import TieredSpec.
From S2P Require Import TieredServe.
From S2P Require Import TieredReads.
From S2P Require Import TieredAlone.
Import Conc Ops Eviction Seg NvmeIndex Tiered TieredInv TieredActs TieredBoot TieredOpen TieredSpec TieredServe TieredReads TieredAlone.
Open Scope Z_scope.
Open Scope go_scope.
Open Scope conc_scope.

Module TieredDemo.

#[local] Existing Instance NvmeSpec.Demo.demoHash.
#[local] Existing Instance S3.s3fifo_policy.
#[local] Existing Instance S3Spec.s3fifo_laws.
#[local] Existing Instance DramRefine.offset_alloc.
#[local] Existing Instance DramRefine.offset_alloc_laws.

#[local] Instance shards : Index.IndexEnv :=
  {| Index.shardHash := fun k => NS k; Index.order := map_to_list; Index.order_perm := fun m => reflexivity _ |}.
#[local] Instance nsOrders : MapOrder := {| nsOrder := id; nsOrder_perm := fun l => reflexivity l |}.

(** A bucket that takes and drops what it is given; reads find one block. *)
#[local] Instance outside : Outside :=
  {| nvShards := shards; volWorld := fun _ => NvmeSpec.Demo.fine; canceled := fun _ => false; spillAccepts := fun _ => true;
     rangeRead := fun _ => RangeOk [Byte.x01; Byte.x07]; restoreSegment := fun _ => RestoreFails; dropAnswer := fun _ => (true, true) |}.

Definition clock (i : nat) : Z := 1000 + Z.min (Z.of_nat i) 1000.
Definition params : Params := mkParams 90 5 0 0 1000 1000 true true.
Definition volParams : Nvme.VolumeParams := Nvme.mkVolumeParams 16384 32768 1 0 8.
Definition vps (_ : nat) : Nvme.VolumeParams := volParams.
Definition hashOf (b : Byte.byte) : bytes := replicate 32 b.

Abbreviation T := (Tiered OffsetAlloc.Allocator S3.S3FIFO).

Definition dramMem : bytes := zeros (Z.to_nat 8192).
Definition dramParams : Dram.Params := Dram.mkParams 0 0 0 None (Some (Quotas.NewQuotas None)).
Abbreviation bootDram := (DramRefine.boot dramMem dramParams (Some (S3.NewS3FIFO 7 4096)) None).

Definition openFirst : Nvme.result (option Nvme.recState) :=
  @Nvme.OpenVolume _ NvmeSpec.Demo.fine volParams (Nvme.unopened ∅ ∅ 0).
Definition firstVol : Nvme.Volume := NvmeSpec.Demo.stateOf openFirst.
Definition firstIndex : Nvme.recState := NvmeSpec.Demo.recovered_by openFirst.

Abbreviation legal := (legal (A := OffsetAlloc.Allocator) (P := S3.S3FIFO)).
Abbreviation pool := (conf (S := T) (R := reply)).

Definition run_on (o : option (Dram.Store OffsetAlloc.Allocator S3.S3FIFO)) (es : list event) : option pool :=
  s ← o; serve (handler clock vps params) legal 400 es (mkConf (emptyTiered s [firstVol]) []).
Abbreviation run := (run_on bootDram).

(** Six blocks written to NVMe two at a time; the first segment is full. *)
Definition block (b : Byte.byte) : event := EPut 1 (hashOf b) [b; Byte.x07] (xxh3 [b; Byte.x07]).
Definition filled : list event :=
  [block Byte.x01; block Byte.x02; ETick; EWriter 0; block Byte.x03; block Byte.x04; ETick; EWriter 0].

(** The first segment goes to the bucket, and is then reclaimed. *)
Definition spilled : list event := filled ++ [ETick; EUploaded 0 true; ETick].
Definition served : list event := spilled ++ [EGet false 1 (hashOf Byte.x01); EGet true 1 (hashOf Byte.x03); EDelete 1 (hashOf Byte.x02) false; EDrop].

(** ** The store is in order when it starts *)

Lemma volParams_fine : NvmeInv.params_ok volParams.
Proof. split; [by vm_compute|]. unfold fits. cbn. lia. Qed.

Lemma opens_first : NvmeSpec.Demo.opens_fine openFirst = true.
Proof. by vm_compute. Qed.

Lemma first_reopened : reopened volParams firstVol (map_to_list (Nvme.merged firstIndex)).*2.
Proof.
  exists 1, ∅, ∅, firstIndex, (fun _ _ _ => False), 0. split_and!; [apply volParams_fine|by apply NvmeSpec.Down_empty; auto|lia..| |done].
  apply (NvmeSpec.reboot_done volParams NvmeSpec.Demo.fine 0); [apply NvmeSpec.Demo.fine_reliable|].
  apply NvmeSpec.Demo.opens_ret, opens_first.
Qed.

Lemma first_empty : (map_to_list (Nvme.merged firstIndex)).*2 = [] /\
  bool_decide (map_Forall (fun _ g => Nvme.s_entries g = []) (Nvme.segs firstVol)) = true.
Proof. by vm_compute. Qed.

Lemma first_up : came_up 1 vps [firstVol] [[]].
Proof.
  destruct first_empty as [He Hs%bool_decide_eq_true]. split_and!; [done..|].
  intros [|i] v es [= <-] [= <-]. split; [rewrite <- He; apply first_reopened|].
  intros id g e Hg Hin. rewrite (Hs id g Hg) in Hin. by apply not_elem_of_nil in Hin.
Qed.

Lemma boot_quotas : Dram.quotas <$> bootDram = Some (Some (Quotas.NewQuotas None)).
Proof. by vm_compute. Qed.

Lemma dram_boots : exists s, bootDram = Some s /\ DramInv.Inv (DramRefine.readers []) s /\ Dram.quotas s = Some (Quotas.NewQuotas None).
Proof.
  destruct (DramRefine.boot_spec dramMem dramParams (Some (S3.NewS3FIFO 7 4096)) None) as (s & Hs & Hok & _).
  - unfold dramMem. rewrite len_zeros. lia.
  - done.
  - intros q [= <-]. apply S3Spec.wf_new.
  - exists s. split_and!; [exact Hs|apply Hok|].
    pose proof boot_quotas as E. rewrite Hs in E. by injection E.
Qed.

Lemma fresh_unspent : unspent (Some (Quotas.NewQuotas None)).
Proof. split; [apply map_Forall_empty|]. intros ns tier [-> | ->]; reflexivity. Qed.

Lemma demo_configured : configured params 1 vps.
Proof. split; [done..|]. intros i. cbn. lia. Qed.

Lemma run_on_serve o es c : run_on o es = Some c ->
  exists s, o = Some s /\ serve (handler clock vps params) legal 400 es (mkConf (emptyTiered s [firstVol]) []) = Some c.
Proof. destruct o as [s|]; [|done]. intros E. by exists s. Qed.

(** Whatever the events, the run is one of the store. *)
Lemma run_running es c : run es = Some c ->
  exists s, boot_ok 1 s [firstVol] [[]] /\ running params clock vps s [firstVol] [[]] c.
Proof.
  intros (s & Hs & E)%run_on_serve. destruct dram_boots as (s' & Hs' & _ & Hq). rewrite Hs in Hs'. injection Hs' as <-.
  exists s. split.
  - apply (came_up_boot 1 vps); [apply first_up|by vm_compute|rewrite Hq; apply fresh_unspent].
  - exists tt, (emptyTiered s [firstVol]). split; [done|]. by eapply serve_steps.
Qed.

(** What a run ends in can be computed. *)
Definition ends (f : pool -> bool) (es : list event) : bool := match run es with Some c => f c | None => false end.

Lemma run_ends f es : ends f es = true -> exists c, run es = Some c /\ f c = true.
Proof. unfold ends. destruct (run es) as [c|]; [|done]. by exists c. Qed.

Definition key (b : Byte.byte) : Key := mkKey 1 (hashOf b).

(** What the index has for a key. *)
Definition found (c : pool) (k : Key) : option (Z * nvmeRef) :=
  q ← @Index.Get nvShards (idx (shared c)) k; r ← refs (shared c) !! q; Some (q, r).

Lemma found_below c k q r : found c k = Some (q, r) ->
  @Index.Get nvShards (idx (shared c)) k = Some q /\ refs (shared c) !! q = Some r.
Proof.
  unfold found. destruct (@Index.Get nvShards (idx (shared c)) k) as [q'|]; [|done]. cbn.
  destruct (refs (shared c) !! q') as [r'|] eqn:Er; [|done]. cbn. intros [= <- <-]. done.
Qed.

Definition at_rest (c : pool) : bool := forallb (fun p => match p with Done _ => true | _ => false end) (threads c).

Lemma at_rest_finished c : at_rest c = true -> finished c.
Proof.
  intros Hf i q Hi. unfold at_rest in Hf. rewrite forallb_forall in Hf.
  assert (In q (threads c)) as Hin by (apply list_elem_of_In; by eapply list_elem_of_lookup_2).
  specialize (Hf _ Hin). destruct q as [a|]; [by exists a|done].
Qed.

(** ** The theorems at work *)

Definition cold_seen (c : pool) : bool :=
  at_rest c && match found c (key Byte.x01), found c (key Byte.x03) with
  | Some (1, r), Some (3, r') => S3Only r && negb (S3Only r')
  | _, _ => false
  end.

Lemma served_ends : ends cold_seen served = true.
Proof. by vm_compute. Qed.

Lemma cold_seen_spec c : cold_seen c = true -> finished c /\ exists r1 r3,
  (found c (key Byte.x01) = Some (1, r1) /\ S3Only r1 = true) /\ (found c (key Byte.x03) = Some (3, r3) /\ S3Only r3 = false).
Proof.
  unfold cold_seen. intros [Hf Hc]%andb_true_iff. split; [by apply at_rest_finished|].
  destruct (found c (key Byte.x01)) as [[[|[]|] r1]|]; try done.
  destruct (found c (key Byte.x03)) as [[[|[[]|[]|]|] r3]|]; try done.
  apply andb_true_iff in Hc as [H1 H3%negb_true_iff]. by exists r1, r3.
Qed.

Lemma served_running : exists c, run served = Some c /\ cold_seen c = true /\
  exists s, boot_ok 1 s [firstVol] [[]] /\ running params clock vps s [firstVol] [[]] c.
Proof. destruct (run_ends _ _ served_ends) as (c & E & Hc). exists c. split; [exact E|]. split; [exact Hc|]. exact (run_running _ _ E). Qed.

Lemma tiered_no_ghosts_witness : exists c r, run served = Some c /\
  @Index.Get nvShards (idx (shared c)) (key Byte.x03) = Some 3 /\ refs (shared c) !! 3 = Some r /\
  exists g e, segment_of 1 (shared c) (key Byte.x03) r = Some g /\ e ∈ Nvme.s_entries g /\ entryKey e = key Byte.x03.
Proof.
  destruct served_running as (c & E & Hc & s & Hb & Hr). destruct (cold_seen_spec c Hc) as (_ & _ & r3 & _ & E3 & Hon).
  destruct (found_below _ _ _ _ E3) as [Hg Hr3]. exists c, r3. split; [exact E|]. clear E. split; [exact Hg|]. split; [exact Hr3|].
  destruct (tiered_no_ghosts 1 vps params clock s [firstVol] [[]] c (key Byte.x03) 3 demo_configured Hb Hr Hg)
    as (r & Hr' & Hhome & _). rewrite Hr3 in Hr'. injection Hr' as <-. exact (Hhome Hon).
Defined.

Lemma tiered_no_leaks_witness : exists c, run served = Some c /\ finished c /\ readSem (shared c) = 0 /\
  (forall id, id ∈ spillInflight (shared c) <-> exists i, (i, id) ∈ uploads (shared c)) /\ NoDup (uploads (shared c)).*2.
Proof.
  destruct served_running as (c & E & Hc & s & Hb & Hr). destruct (cold_seen_spec c Hc) as [Hf _]. exists c. split; [exact E|]. clear E.
  split; [exact Hf|]. exact (tiered_no_leaks 1 vps params clock s [firstVol] [[]] c demo_configured Hb Hr Hf).
Defined.

Definition counted (c : pool) : bool := at_rest c && bool_decide (is_Some (Dram.quotas (d (shared c)))).

Lemma served_counted : ends counted served = true.
Proof. by vm_compute. Qed.


(** The first segment is in the bucket and still live. *)
Definition uploaded : list event := filled ++ [ETick; EUploaded 0 true].
Definition flagged (c : pool) : bool :=
  at_rest c && match found c (key Byte.x01) with
  | Some (_, r) => S3 r && match segment_of 1 (shared c) (key Byte.x01) r with Some g => Nvme.s_spilled g | None => false end
  | None => false
  end.

Lemma uploaded_flagged : ends flagged uploaded = true.
Proof. by vm_compute. Qed.

Lemma flagged_spec c : flagged c = true -> finished c /\ exists r g,
  below (shared c) (key Byte.x01) r /\ segment_of 1 (shared c) (key Byte.x01) r = Some g.
Proof.
  unfold flagged. intros [Hf Hc]%andb_true_iff. split; [by apply at_rest_finished|].
  destruct (found c (key Byte.x01)) as [[q r]|] eqn:E; [|done]. apply andb_true_iff in Hc as [_ Hc].
  destruct (segment_of _ _ _ _) as [g|] eqn:Eg; [|done]. exists r, g. split; [|exact Eg].
  destruct (found_below _ _ _ _ E) as [H1 H2]. by exists q.
Qed.

Lemma tiered_spilled_flagged_witness : exists c r g, run uploaded = Some c /\
  below (shared c) (key Byte.x01) r /\ segment_of 1 (shared c) (key Byte.x01) r = Some g /\
  (Nvme.s_spilled g = true -> S3 r = true) /\ (S3 r = true -> Nvme.s_spilled g = true).
Proof.
  destruct (run_ends _ _ uploaded_flagged) as (c & E & (Hf & r & g & Hr & Hg)%flagged_spec).
  destruct (run_running _ _ E) as (s & Hb & Hrun). exists c, r, g. split; [exact E|]. clear E. split; [exact Hr|]. split; [exact Hg|].
  destruct (tiered_spilled_flagged 1 vps params clock s [firstVol] [[]] c _ r g demo_configured Hb Hrun Hr Hg) as [H1 H2].
  split; [exact H1|exact (H2 Hf)].
Defined.


(** Both reads of [served] were answered with blocks. *)
Definition answered (c : pool) : bool :=
  match threads c !! 11%nat, threads c !! 12%nat with
  | Some (Done (RGot (Served OnS3 _ _ _))), Some (Done (RGot (Served OnNvme _ _ _))) => true
  | _, _ => false
  end.

Lemma served_answered : ends answered served = true.
Proof. by vm_compute. Qed.

Lemma answered_spec c : answered c = true -> exists data sum h, threads c !! 11%nat = Some (Done (RGot (Served OnS3 data sum h))).
Proof.
  unfold answered. destruct (threads c !! 11%nat) as [[[[[] data sum h|]| | | | |]|]|]; try done. intros _. by exists data, sum, h.
Qed.

Lemma tiered_serves_verified_witness : exists c data sum h, run served = Some c /\
  threads c !! 11%nat = Some (Done (RGot (Served OnS3 data sum h))) /\ xxh3 data = sum /\ h = HoldNone.
Proof.
  destruct (run_ends _ _ served_answered) as (c & E & (data & sum & h & Hi)%answered_spec).
  destruct (run_running _ _ E) as (s & _ & b & t0 & En & Hr). exists c, data, sum, h. split; [exact E|]. clear E. split; [exact Hi|].
  exact (tiered_serves_verified clock vps params s [firstVol] [[]] b t0 c 11 _ En (reachable_legal _ _ _ _ Hr) Hi).
Defined.

Lemma tiered_exists_prefix_witness : exists c : pool, run filled = Some c /\
  alone (ExistsPrefix 1 [hashOf Byte.x01; hashOf Byte.x04; hashOf Byte.x05; hashOf Byte.x02] false) (shared c) =
  Next (len (leading (fun k => resident (shared c) (mkKey 1 k)) [hashOf Byte.x01; hashOf Byte.x04; hashOf Byte.x05; hashOf Byte.x02]), None) (shared c).
Proof.
  destruct (run_ends at_rest filled) as (c & E & _); [by vm_compute|]. exists c. split; [exact E|]. clear E.
  apply (tiered_exists_prefix 1 [hashOf Byte.x01; hashOf Byte.x04; hashOf Byte.x05; hashOf Byte.x02] false (shared c)). reflexivity.
Defined.

(** ** A restart

    The volume of the NVMe tier's own example, which was written to and lost
    power, under a DRAM tier without an accountant. *)

Definition oldParams (_ : nat) : Nvme.VolumeParams := NvmeSpec.Demo.params.
Definition oldBlocks : list Nvme.RecoveredEntry := (map_to_list (Nvme.merged NvmeSpec.Demo.index)).*2.

Lemma written_next : Nvme.nextID NvmeSpec.Demo.written =? 1 = true.
Proof. by vm_compute. Qed.

Lemma again_reopened : reopened NvmeSpec.Demo.params NvmeSpec.Demo.again oldBlocks.
Proof.
  pose proof NvmeSpec.Demo.params_fine as Hp. pose proof written_next as Hn%Z.eqb_eq.
  destruct (NvmeSpec.stopped_disk _ Hp _ _ (NvmeSpec.reachable_inv _ Hp _ NvmeSpec.Demo.reach_written) (NvmeSpec.stopped_here _ _)) as [Hd H0].
  exists 1, NvmeSpec.Demo.left_over, (Nvme.ckptFiles NvmeSpec.Demo.written), NvmeSpec.Demo.index,
    (NvmeCrash.durable NvmeSpec.Demo.params NvmeSpec.Demo.written), (Nvme.nextID NvmeSpec.Demo.written).
  split; [exact Hp|]. split; [exact (NvmeCrash.crash_down _ _ _ _ _ _ Hd NvmeSpec.Demo.image_fine)|].
  split; [exact H0|]. split; [rewrite Hn; reflexivity|]. split; [exact NvmeSpec.Demo.reboot_fine|]. unfold oldBlocks. reflexivity.
Qed.

Definition mine (v : Nvme.Volume) : bool :=
  forallb (fun g => forallb (fun e => bool_decide (volIx 1 (e_Key e) = 0%nat) && (0 <? e_Len e)) (Nvme.s_entries g.2))
    (map_to_list (Nvme.segs v)).

Lemma mine_affine v : mine v = true -> affine 1 0 v.
Proof.
  unfold mine. rewrite forallb_forall. intros Hm id g e Hg He.
  specialize (Hm (id, g) ltac:(by apply list_elem_of_In, elem_of_map_to_list)). cbn in Hm. rewrite forallb_forall in Hm.
  specialize (Hm e ltac:(by apply list_elem_of_In)). apply andb_true_iff in Hm as [Hm1%bool_decide_eq_true Hm2%Z.ltb_lt]. done.
Qed.

Lemma again_mine : mine NvmeSpec.Demo.again = true.
Proof. by vm_compute. Qed.

Lemma again_up : came_up 1 oldParams [NvmeSpec.Demo.again] [oldBlocks].
Proof.
  split; [reflexivity|]. split; [reflexivity|]. intros [|i] v es Hv He; [|discriminate Hv].
  apply (inj Some) in Hv, He. subst v es. split; [exact again_reopened|exact (mine_affine _ again_mine)].
Qed.

Lemma old_small : seeded (concat [oldBlocks]) <? 2 ^ 61 = true.
Proof. by vm_compute. Qed.

Abbreviation bareDram := (DramRefine.boot dramMem (Dram.mkParams 0 0 0 None None) (Some (S3.NewS3FIFO 7 4096)) None).

Lemma bare_quotas : Dram.quotas <$> bareDram = Some None.
Proof. by vm_compute. Qed.

Lemma bare_boots : exists s, bareDram = Some s /\ DramInv.Inv (DramRefine.readers []) s /\ Dram.quotas s = None.
Proof.
  destruct (DramRefine.boot_spec dramMem (Dram.mkParams 0 0 0 None None) (Some (S3.NewS3FIFO 7 4096)) None) as (s & Hs & Hok & _).
  - unfold dramMem. rewrite len_zeros. lia.
  - done.
  - intros q [= <-]. apply S3Spec.wf_new.
  - exists s. split; [exact Hs|]. split; [apply Hok|]. pose proof bare_quotas as E. rewrite Hs in E. by injection E.
Qed.


(** The one block recovery found is deleted. *)
Definition oldKey : Key := mkKey 7 (zeros 32).

Lemma old_one : match oldBlocks with [y] => bool_decide (mkKey (Nvme.re_NS y) (Nvme.re_Key y) = oldKey) | _ => false end = true.
Proof. by vm_compute. Qed.

Lemma restarted : exists s (t : T), NewTiered s [NvmeSpec.Demo.again] [oldBlocks] = Next tt t /\
  Inv 1 true [] t /\ DramInv.Inv (DramRefine.readers []) (d t) /\ resident t oldKey = true.
Proof.
  destruct bare_boots as (s & _ & HD & Hq).
  pose proof (came_up_boot 1 oldParams s [NvmeSpec.Demo.again] [oldBlocks] again_up (proj1 (Z.ltb_lt _ _) old_small)
                ltac:(rewrite Hq; exact I)) as Hb. pose proof old_one as Ho.
  assert (exists y, oldBlocks = [y] /\ mkKey (Nvme.re_NS y) (Nvme.re_Key y) = oldKey) as (y & Ey & Hy).
  { destruct oldBlocks as [|y [|]]; [discriminate Ho| |discriminate Ho]. exists y. split; [reflexivity|]. exact (bool_decide_eq_true_1 _ Ho). }
  clear Ho. rewrite Ey in *. pose proof (Inv_empty params 1 s [NvmeSpec.Demo.again] (bo_len _ _ _ _ Hb) (bo_vol _ _ _ _ Hb) (bo_quota _ _ _ _ Hb)) as Hi.
  destruct (seed_run params 1 y (emptyTiered s [NvmeSpec.Demo.again]) Hi) as (t & Et & Ee).
  assert (NewTiered s [NvmeSpec.Demo.again] [[y]] = Next tt t) as En by (unfold NewTiered; cbn [concat app each]; unfold mbind, act_bind; rewrite Et; reflexivity).
  pose proof (Inv_boot params 1 s _ _ _ _ Hb En) as Hi'. exists s, t. split; [exact En|]. split; [exact Hi'|].
  split; [rewrite (seed_dram params 1 _ _ _ _ Hi Hq Et); exact HD|].
  unfold resident, in_index. apply orb_true_iff. right. apply bool_decide_eq_true. cbv zeta in Ee. rewrite Hy in Ee.
  assert (ents t !! oldKey = Some (NS oldKey, freshRef (Nvme.re_Loc y) (Nvme.re_XXH3 y) 0)) as Hk by (rewrite Ee; apply lookup_insert_eq).
  apply (below_ents [] t) in Hk as (q & Hq' & _); [|apply Hi']. rewrite Hq'. by exists q.
Qed.

Lemma tiered_delete_contract_witness : exists (t : T) st t', resident t oldKey = true /\
  alone (Delete clock params 7 (zeros 32) true) t = Next st t' /\
  ((st = StatusOK /\ resident t oldKey = true /\ resident t' oldKey = false) \/
   (st = StatusNotFound /\ resident t oldKey = false /\ resident t' oldKey = false) \/
   ((st = StatusErrLeased \/ st = StatusErrPinned) /\ resident t' oldKey = true)).
Proof.
  destruct restarted as (s & t & _ & Hi & HD & Hres).
  destruct (tiered_delete_contract clock params 1 true (DramRefine.readers []) 7 (zeros 32) true t Hi HD) as (st & t' & E & Hcase & _).
  exists t, st, t'. split; [exact Hres|]. split; [exact E|exact Hcase].
Defined.

(** ** Races

    Schedules under which requests that overlap with the movement of blocks are
    answered wrongly. *)

Definition plays_to (clk : nat -> Z) (pr : Params) (o : option (Dram.Store OffsetAlloc.Allocator S3.S3FIFO)) (xs : list (cmd (E := event))) (f : pool -> bool) : bool :=
  match o with
  | Some s => match play (handler clk vps pr) legal 400 xs (mkConf (emptyTiered s [firstVol]) []) with Some c => f c | None => false end
  | None => false
  end.

Lemma play_ends clk pr o xs f : plays_to clk pr o xs f = true ->
  exists s c, o = Some s /\ play (handler clk vps pr) legal 400 xs (mkConf (emptyTiered s [firstVol]) []) = Some c /\ f c = true.
Proof.
  destruct o as [s|]; [|done]. unfold plays_to. destruct (play _ _ _ _ _) as [c|] eqn:E; [|done]. intros Hc. by exists s, c.
Qed.

Definition replied (c : pool) (i : nat) (st : Z) : bool :=
  match threads c !! i with Some (Done (RStatus st')) => st' =? st | _ => false end.

Lemma replied_spec c i st : replied c i st = true -> threads c !! i = Some (Done (RStatus st)).
Proof.
  unfold replied. destruct (threads c !! i) as [[[]|]|]; try done. by intros ->%Z.eqb_eq.
Qed.

(** The block is stored and queued for demotion; its DELETE finds nothing below
    DRAM, the writer publishes it there, and the DELETE finds nothing in DRAM. *)
Definition deleteRace : list (cmd (E := event)) :=
  [Spawn (block Byte.x01); Finish 0; Spawn (block Byte.x02); Finish 1; Spawn ETick; Finish 2;
   Spawn (EDelete 1 (hashOf Byte.x01) true); Step 3; Spawn (EWriter 0); Finish 4; Finish 3].

Definition lostDelete (c : pool) : bool :=
  replied c 0 StatusOK && (replied c 3 StatusNotFound && in_index (shared c) (key Byte.x01)).

Lemma lostDelete_spec c : lostDelete c = true -> threads c !! 0%nat = Some (Done (RStatus StatusOK)) /\
  threads c !! 3%nat = Some (Done (RStatus StatusNotFound)) /\ resident (shared c) (key Byte.x01) = true.
Proof.
  intros [H0%replied_spec [H3%replied_spec Hin]%andb_true_iff]%andb_true_iff. split; [done|]. split; [done|].
  unfold resident. rewrite Hin. apply orb_true_r.
Qed.

Lemma deleteRace_ends : plays_to clock params bootDram deleteRace lostDelete = true.
Proof. by vm_compute. Qed.

(** C37: A forced DELETE can answer NOT_FOUND and leave the block: DRAM and the
    index below are searched one after the other, and a demotion that completes in
    between moves the block behind the search. The PUT was acknowledged before the
    DELETE began, nothing else touches the key, and it is still served. *)
Theorem delete_lost_to_demotion : exists s c, bootDram = Some s /\
  play (handler clock vps params) legal 400 deleteRace (mkConf (emptyTiered s [firstVol]) []) = Some c /\
  threads c !! 0%nat = Some (Done (RStatus StatusOK)) /\
  threads c !! 3%nat = Some (Done (RStatus StatusNotFound)) /\ resident (shared c) (key Byte.x01) = true.
Proof.
  destruct (play_ends _ _ _ _ _ deleteRace_ends) as (s & c & Hs & Hp & Hc). exists s, c. split; [exact Hs|]. split; [exact Hp|].
  exact (lostDelete_spec c Hc).
Qed.

(** The block is hit twice and queued for promotion; the promotion has read it
    when a DELETE removes it, and then puts it back. *)
Definition slowClock (i : nat) : Z := 1000 + Z.of_nat (Nat.min i 1000) * 20000000.
Definition promoting : Params := mkParams 90 5 0 1000000000 1000 1000 true true.
Definition promoteRace : list (cmd (E := event)) :=
  [Spawn (block Byte.x01); Finish 0; Spawn (block Byte.x02); Finish 1; Spawn ETick; Finish 2; Spawn (EWriter 0); Finish 3;
   Spawn (EGet false 1 (hashOf Byte.x01)); Finish 4; Spawn (EGet false 1 (hashOf Byte.x01)); Finish 5;
   Spawn EPromote; Step 6; Step 6; Step 6; Step 6; Step 6; Step 6;
   Spawn (EDelete 1 (hashOf Byte.x01) true); Finish 7; Finish 6; Spawn (EGet false 1 (hashOf Byte.x01)); Finish 8].

Definition cameBack (c : pool) : bool :=
  replied c 7 StatusOK && match threads c !! 8%nat with Some (Done (RGot (Served _ _ _ _))) => true | _ => false end.

Lemma cameBack_spec c : cameBack c = true -> threads c !! 7%nat = Some (Done (RStatus StatusOK)) /\
  exists tier data sum h, threads c !! 8%nat = Some (Done (RGot (Served tier data sum h))).
Proof.
  intros [H7%replied_spec Hc]%andb_true_iff. split; [done|].
  destruct (threads c !! 8%nat) as [[[[tier data sum h|]| | | | |]|]|]; try done. by exists tier, data, sum, h.
Qed.

Lemma promoteRace_ends : plays_to slowClock promoting bootDram promoteRace cameBack = true.
Proof. by vm_compute. Qed.

(** C38: A block can come back after its DELETE was acknowledged: a promotion
    checks that the record is still the key's before it reads the block, and not
    again when it puts the block into DRAM. The GET that finds it begins after the
    DELETE has answered OK, and no PUT follows. *)
Theorem promotion_resurrects : exists s c, bootDram = Some s /\
  play (handler slowClock vps promoting) legal 400 promoteRace (mkConf (emptyTiered s [firstVol]) []) = Some c /\
  threads c !! 7%nat = Some (Done (RStatus StatusOK)) /\
  exists tier data sum h, threads c !! 8%nat = Some (Done (RGot (Served tier data sum h))).
Proof.
  destruct (play_ends _ _ _ _ _ promoteRace_ends) as (s & c & Hs & Hp & Hc). exists s, c. split; [exact Hs|]. split; [exact Hp|].
  exact (cameBack_spec c Hc).
Qed.

(** A second PUT of a key, with other bytes, has checked the index below when the
    first block arrives there; its own block is demoted in turn, over the first,
    before it checks again. *)
Definition putRace : list (cmd (E := event)) :=
  [Spawn (block Byte.x01); Finish 0; Spawn (block Byte.x02); Finish 1; Spawn ETick; Finish 2;
   Spawn (EPut 1 (hashOf Byte.x01) [Byte.x0f; Byte.x07] (xxh3 [Byte.x0f; Byte.x07])); Step 3; Spawn (EWriter 0); Finish 4; Step 3;
   Spawn (block Byte.x05); Finish 5; Spawn ETick; Finish 6; Spawn (EWriter 0); Finish 7; Finish 3].

Definition leaked (t : T) : Z :=
  match Dram.quotas (d t) with Some q => Quotas.Usage q 1 Registry.TierNVMe - Index.bytes_ (idx t) | None => 0 end.

Definition overwrote (c : pool) : bool :=
  replied c 0 StatusOK && (replied c 3 StatusOK && (at_rest c && (leaked (shared c) =? 2))).

Lemma overwrote_spec c : overwrote c = true -> threads c !! 0%nat = Some (Done (RStatus StatusOK)) /\
  threads c !! 3%nat = Some (Done (RStatus StatusOK)) /\ finished c /\ leaked (shared c) = 2.
Proof.
  intros [H0%replied_spec [H3%replied_spec [Hf%at_rest_finished Hl%Z.eqb_eq]%andb_true_iff]%andb_true_iff]%andb_true_iff. done.
Qed.

Lemma putRace_ends : plays_to clock params bootDram putRace overwrote = true.
Proof. by vm_compute. Qed.

(** C39: Write-once does not hold against a demotion on either side of the
    second check: two PUTs of one key with different checksums are both
    acknowledged with OK, the second record overwrites the first in the index
    below DRAM, and the bytes charged for the first stay charged after every
    handler is done. *)
Theorem put_overwrites_demoted : xxh3 [Byte.x01; Byte.x07] <> xxh3 [Byte.x0f; Byte.x07] /\ exists s c, bootDram = Some s /\
  play (handler clock vps params) legal 400 putRace (mkConf (emptyTiered s [firstVol]) []) = Some c /\
  threads c !! 0%nat = Some (Done (RStatus StatusOK)) /\ threads c !! 3%nat = Some (Done (RStatus StatusOK)) /\
  finished c /\ leaked (shared c) = 2.
Proof.
  split; [discriminate|]. destruct (play_ends _ _ _ _ _ putRace_ends) as (s & c & Hs & Hp & Hc).
  exists s, c. split; [exact Hs|]. split; [exact Hp|]. exact (overwrote_spec c Hc).
Qed.

End TieredDemo.
