(* ===== verification/Credit.v ===== *)
(** The server's ledger of the client's send window: [internal/transport/credit.go].

    Every method runs under the window's lock and is a function on it. The byte
    counts are unsigned 64-bit integers with their wrap-around. *)

From Stdlib Require Import ZArith Lia.
From stdpp Require Import base numbers.
From S2P Require Import Prelude.
Open Scope Z_scope.

Module Credit.

Inductive Violation := ViolationNone | ViolationBusy | ViolationFatal.

Record CreditWindow := mkWindow {
  window : Z;
  maxFrame : Z;
  outstanding : Z;
  pending : Z;
  strikes : Z;
  consumed : Z;
  granted : Z
}.

Definition zeroWindow : CreditWindow := mkWindow 0 0 0 0 0 0 0.

Definition SetWindow (win maxFrame : Z) (w : CreditWindow) : CreditWindow :=
  mkWindow win maxFrame (outstanding w) (pending w) (strikes w) (consumed w) (granted w).

Definition Account (n : Z) (w : CreditWindow) : CreditWindow :=
  mkWindow (window w) (maxFrame w) (u64 (outstanding w + n)) (pending w) (strikes w) (u64 (consumed w + n)) (granted w).

Definition Consume (n : Z) (w : CreditWindow) : Violation * CreditWindow :=
  let w := Account n w in
  if outstanding w <=? u64 (window w + maxFrame w) then (ViolationNone, w) else
  let w := mkWindow (window w) (maxFrame w) (outstanding w) (pending w) (strikes w + 1) (consumed w) (granted w) in
  (if strikes w =? 1 then ViolationBusy else ViolationFatal, w).

Definition Grant (n : Z) (w : CreditWindow) : CreditWindow :=
  let n := if outstanding w <? n then u32 (outstanding w) else n in
  mkWindow (window w) (maxFrame w) (u64 (outstanding w - n)) (u64 (pending w + n)) (strikes w) (consumed w)
    (u64 (granted w + n)).

Definition TakeGrant (w : CreditWindow) : Z * CreditWindow :=
  let g := if 2 ^ 32 - 1 <? pending w then 2 ^ 32 - 1 else pending w in
  (u32 g, mkWindow (window w) (maxFrame w) (outstanding w) (u64 (pending w - g)) (strikes w) (consumed w) (granted w)).

Definition PendingGrant (w : CreditWindow) : bool := 0 <? pending w.

Definition Totals (w : CreditWindow) : Z * Z := (consumed w, granted w).

(** ** The books *)

(** [n] bytes are debited and not yet granted; [sent] bytes of grants have been
    stamped into headers. The lifetime totals agree up to the width of their
    counters. *)
Record books (n sent : Z) (w : CreditWindow) : Prop := mkBooks {
  bk_out : outstanding w = n;
  bk_range : 0 <= n < 2 ^ 33;
  bk_win : 0 <= window w < 2 ^ 32 /\ 0 <= maxFrame w < 2 ^ 32;
  bk_granted : 0 <= granted w < 2 ^ 64;
  bk_pending : 0 <= pending w < 2 ^ 64;
  bk_total : consumed w = u64 (granted w + n);
  bk_sent : u64 (sent + pending w) = granted w;
  bk_calm : strikes w = 0
}.

Lemma u64_range z : 0 <= u64 z < 2 ^ 64.
Proof. apply Z.mod_pos_bound. lia. Qed.

Lemma u64_small z : 0 <= z < 2 ^ 64 -> u64 z = z.
Proof. apply Z.mod_small. Qed.

Lemma u64_add_l x y : u64 (u64 x + y) = u64 (x + y).
Proof. apply Zplus_mod_idemp_l. Qed.

Lemma u64_add_r x y : u64 (x + u64 y) = u64 (x + y).
Proof. apply Zplus_mod_idemp_r. Qed.

Lemma books_Account n w sent m : books 0 sent w -> 0 <= n < 2 ^ 32 -> m = n -> books m sent (Account n w).
Proof.
  intros [Eo _ Hw Hg Hp Et Es Ec] Hn ->. unfold Account. split; cbn; try done; [|lia|].
  - rewrite Eo, Z.add_0_l. apply u64_small. lia.
  - by rewrite Et, u64_add_l, Z.add_0_r.
Qed.

(** A frame no longer than the cap is within the window when nothing is
    outstanding. *)
Lemma books_Consume n w sent :
  books 0 sent w -> 0 <= n <= maxFrame w -> exists w', Consume n w = (ViolationNone, w') /\ books n sent w'.
Proof.
  intros Hb Hn. assert (books n sent (Account n w)) as Ha.
  { apply books_Account; [done| |done]. destruct Hb as [_ _ [_ ?] _ _ _ _]. lia. }
  unfold Consume. pose proof Ha as [Eo _ [Hw Hm] _ _ _ _]. rewrite Eo.
  rewrite (u64_small (window (Account n w) + _)) by lia. replace (n <=? _) with true by (cbn in *; lia). by eexists.
Qed.

Lemma books_Grant n w sent : books n sent w -> n < 2 ^ 32 -> books 0 sent (Grant n w).
Proof.
  intros [Eo Hn Hw Hg Hp Et Es Ec] Hlt. unfold Grant. rewrite Eo, Z.ltb_irrefl. split; cbn; try done; try apply u64_range.
  - by rewrite Z.sub_diag.
  - by rewrite Et, u64_add_l, Z.add_0_r.
  - rewrite u64_add_r, Z.add_assoc, <- u64_add_l, Es. done.
Qed.

Lemma books_TakeGrant n w sent :
  books n sent w -> let (g, w') := TakeGrant w in 0 <= g < 2 ^ 32 /\ books n (sent + g) w'.
Proof.
  intros [Eo Hn Hw Hg Hp Et Es Ec]. unfold TakeGrant.
  set (g := if 2 ^ 32 - 1 <? pending w then 2 ^ 32 - 1 else pending w).
  assert (0 <= g <= pending w /\ g < 2 ^ 32) as [Hg1 Hg2] by (unfold g; case_if; bool_props; lia).
  rewrite u32_small by lia. split; [lia|]. split; cbn; try done; [apply u64_range|].
  rewrite u64_add_r, <- Es. f_equal. lia.
Qed.

Lemma books_SetWindow n w sent win mf :
  books n sent w -> 0 <= win < 2 ^ 32 -> 0 <= mf < 2 ^ 32 -> books n sent (SetWindow win mf w).
Proof. by intros [Eo Hn Hw Hg Hp Et Es Ec] ? ?; split. Qed.

Lemma books_zero win mf : 0 <= win < 2 ^ 32 -> 0 <= mf < 2 ^ 32 -> books 0 0 (SetWindow win mf zeroWindow).
Proof. by intros; split; cbn. Qed.

End Credit.
