(* ===== verification/ServerState.v ===== *)
(** The state a running server shares between its goroutines: the connections of
    [internal/transport/conn.go], the sessions of [internal/server/session.go] and
    the block store behind the interfaces of [internal/server/server.go].

    Handlers are programs of atomic actions ([Conc]). What the network does, the
    clock, and which case a [select] with several ready cases takes, come from
    the environment. *)

From Stdlib Require Import ZArith Lia.
From coqutil Require Import Byte Word.LittleEndianList.
From stdpp Require Import base numbers list gmap sets.
From S2P Require Import Prelude.
From S2P Require Import Conc.
From S2P Require Import Wire.
From S2P Require Import Bodies.
From S2P Require Import Tenant.
From S2P Require Import Credit.
Import Conc Hdr.
Open Scope Z_scope.
Open Scope conc_scope.

(** ** The store the server dispatches to *)

Inductive tierName := OnDram | OnNvme | OnS3.

(** What [GetRefTier] returns: the tuple of a hit with its release, or a status
    with nothing else. *)
Inductive tierAnswer (H : Type) :=
| Hit (data : bytes) (sum : Z) (release : option H) (tier : tierName)
| Refused (st : Z).
#[global] Arguments Hit {H} data sum release tier.
#[global] Arguments Refused {H} st.

(** The read methods a store may have, the most specific first: [tierRefGetter],
    [refGetter], or only [Get]. *)
Inductive getter (St H : Type) :=
| ByTier (f : Z -> bytes -> prog St (tierAnswer H))
| ByRef (f : Z -> bytes -> prog St (option (bytes * Z * H)))
| ByCopy (f : Z -> bytes -> prog St (option (bytes * Z))).
#[global] Arguments ByTier {St H} f.
#[global] Arguments ByRef {St H} f.
#[global] Arguments ByCopy {St H} f.

(** [nsQuotaChecker], [quotaChecker], or neither. *)
Inductive prober (St : Type) :=
| ByNS (f : Z -> Z -> prog St bool)
| BySize (f : Z -> prog St bool)
| NoProbe.
#[global] Arguments ByNS {St} f.
#[global] Arguments BySize {St} f.
#[global] Arguments NoProbe {St}.

(** [lifecycler]. *)
Record lifecycler (St : Type) := mkLifecycler {
  lc_TouchLease : Z -> bytes -> Z -> Z -> prog St Z;
  lc_PinOp : Z -> bytes -> Z -> prog St Z
}.
#[global] Arguments lc_TouchLease {St}.
#[global] Arguments lc_PinOp {St}.

(** The [Store] interface with its optional extensions. A [hold] is what a
    release callback gives back. *)
Class BlockStore (St : Type) := {
  hold : Type;
  bs_ExistsPrefix : Z -> list bytes -> bool -> prog St (Z * option (list Z));
  bs_Get : getter St hold;
  bs_release : hold -> prog St unit;
  bs_Put : Z -> bytes -> bytes -> Z -> prog St Z;
  bs_Contains : Z -> bytes -> prog St bool;
  bs_Delete : Z -> bytes -> bool -> prog St Z;
  bs_Stats : prog St bytes;
  bs_lifecycle : option (lifecycler St);
  bs_quota : prober St
}.

(** ** The environment *)

(** github.com/zeebo/xxh3's streaming hasher: the digest of what was written is
    the hash of the bytes in order. *)
Class Hasher `{!Xxh3} := {
  hasher : Type;
  hNew : hasher;
  hWrite : hasher -> bytes -> hasher;
  hSum64 : hasher -> Z;
  hSum64_spec : forall l, hSum64 (foldl hWrite hNew l) = xxh3 (concat l)
}.

(** The outcome of the n-th question: a read or write that fails, how many bytes
    a failed write took, the case a [select] takes, the time. *)
Class Net := {
  ioFails : nat -> bool;
  ioTaken : nat -> nat;
  pick : nat -> bool;
  nowAt : nat -> Z
}.

(** The part of the configuration the server reads. *)
Record Config := mkConfig {
  WireLimits : Body.Limits;
  LeaseDefaultMS : Z;
  LeaseMaxMS : Z;
  StreamTimeoutMS : Z;
  PreNegCap : Z;
  CoalesceBytes : Z;
  WriteChunkBytes : Z;
  MaxConns : Z
}.

Module Srv.

(** ** Connections *)

(** One queued frame; [w_release] are the holds its release callback drops. *)
Record writeReq (H : Type) := mkReq { w_hdr : Header; w_bufs : list bytes; w_release : list H }.
#[global] Arguments mkReq {H}.
#[global] Arguments w_hdr {H}.
#[global] Arguments w_bufs {H}.
#[global] Arguments w_release {H}.

(** Where the read loop is, and where the write loop is: waiting in its outer
    [select], in an iteration of it, draining after the close, or returned. *)
Inductive readPhase := RIdle | RRunning | REnded.
Inductive writePhase := WWaiting | WBusy | WDraining | WDrainBusy | WEnded.

(** The goroutine that waits for both: before the final drain, in it, after. *)
Inductive endPhase := EWaiting | EDraining | EDone.

#[export] Instance readPhase_eq_dec : EqDecision readPhase.
Proof. solve_decision. Defined.
#[export] Instance writePhase_eq_dec : EqDecision writePhase.
Proof. solve_decision. Defined.
#[export] Instance endPhase_eq_dec : EqDecision endPhase.
Proof. solve_decision. Defined.

(** [sent] counts the credit stamped into headers, [wire] is what the kernel
    accepted; [served] are the frames the read loop is done with, [emitted] the
    headers of the responses it made. *)
Record Conn (H : Type) := mkConn {
  input : bytes;
  credit : Credit.CreditWindow;
  maxPayload : Z;
  wq : list (writeReq H);
  closed : bool;
  reader : readPhase;
  writer : writePhase;
  sent : Z;
  wire : bytes;
  done : endPhase;
  served : list Header;
  emitted : list Header
}.
#[global] Arguments mkConn {H}.
#[global] Arguments input {H}.
#[global] Arguments credit {H}.
#[global] Arguments maxPayload {H}.
#[global] Arguments wq {H}.
#[global] Arguments closed {H}.
#[global] Arguments reader {H}.
#[global] Arguments writer {H}.
#[global] Arguments sent {H}.
#[global] Arguments wire {H}.
#[global] Arguments done {H}.
#[global] Arguments served {H}.
#[global] Arguments emitted {H}.

Section ConnSetters.
Context {H : Type}.
Definition set_credit v (c : Conn H) : Conn H := mkConn (input c) v (maxPayload c) (wq c) (closed c) (reader c)
  (writer c) (sent c) (wire c) (done c) (served c) (emitted c).
Definition set_maxPayload v (c : Conn H) : Conn H := mkConn (input c) (credit c) v (wq c) (closed c) (reader c)
  (writer c) (sent c) (wire c) (done c) (served c) (emitted c).
Definition set_wq v (c : Conn H) : Conn H := mkConn (input c) (credit c) (maxPayload c) v (closed c) (reader c)
  (writer c) (sent c) (wire c) (done c) (served c) (emitted c).
Definition set_closed v (c : Conn H) : Conn H := mkConn (input c) (credit c) (maxPayload c) (wq c) v (reader c)
  (writer c) (sent c) (wire c) (done c) (served c) (emitted c).
Definition set_reader v (c : Conn H) : Conn H := mkConn (input c) (credit c) (maxPayload c) (wq c) (closed c) v
  (writer c) (sent c) (wire c) (done c) (served c) (emitted c).
Definition set_writer v (c : Conn H) : Conn H := mkConn (input c) (credit c) (maxPayload c) (wq c) (closed c) (reader
  c) v (sent c) (wire c) (done c) (served c) (emitted c).
Definition set_sent v (c : Conn H) : Conn H := mkConn (input c) (credit c) (maxPayload c) (wq c) (closed c) (reader c)
  (writer c) v (wire c) (done c) (served c) (emitted c).
Definition set_wire v (c : Conn H) : Conn H := mkConn (input c) (credit c) (maxPayload c) (wq c) (closed c) (reader c)
  (writer c) (sent c) v (done c) (served c) (emitted c).
Definition set_done v (c : Conn H) : Conn H := mkConn (input c) (credit c) (maxPayload c) (wq c) (closed c) (reader c)
  (writer c) (sent c) (wire c) v (served c) (emitted c).
Definition set_served v (c : Conn H) : Conn H := mkConn (input c) (credit c) (maxPayload c) (wq c) (closed c) (reader
  c) (writer c) (sent c) (wire c) (done c) v (emitted c).
Definition set_emitted v (c : Conn H) : Conn H := mkConn (input c) (credit c) (maxPayload c) (wq c) (closed c) (reader
  c) (writer c) (sent c) (wire c) (done c) (served c) v.
End ConnSetters.

(** ** Sessions *)

(** [buf]: the bytes of the staging slice and its capacity, or [nil]. *)
Record putStream (D : Type) := mkStream {
  p_ns : Z;
  p_key : bytes;
  totalLen : Z;
  ttlMS : Z;
  xxh3Hint : Z;
  buf : option (bytes * Z);
  digest : option D;
  oneShot : Z;
  received : Z;
  tombstoned : bool;
  lastActive : Z;
  tombstonedAt : Z
}.
#[global] Arguments mkStream {D}.
#[global] Arguments p_ns {D}.
#[global] Arguments p_key {D}.
#[global] Arguments totalLen {D}.
#[global] Arguments ttlMS {D}.
#[global] Arguments xxh3Hint {D}.
#[global] Arguments buf {D}.
#[global] Arguments digest {D}.
#[global] Arguments oneShot {D}.
#[global] Arguments received {D}.
#[global] Arguments tombstoned {D}.
#[global] Arguments lastActive {D}.
#[global] Arguments tombstonedAt {D}.

(** [len(st.buf)] and [cap(st.buf)]. *)
Definition staged {D} (st : putStream D) : Z := match buf st with Some (b, _) => len b | None => 0 end.
Definition reserved {D} (st : putStream D) : Z := match buf st with Some (_, c) => c | None => 0 end.

Record session (D : Type) := mkSession {
  authed : bool;
  ns : Z;
  limits : Body.Limits;
  feats : Z;
  lendCap : Z;
  streamMu : bool;
  streams : gmap Z (putStream D);
  liveStreams : Z;
  stagedBytes : Z
}.
#[global] Arguments mkSession {D}.
#[global] Arguments authed {D}.
#[global] Arguments ns {D}.
#[global] Arguments limits {D}.
#[global] Arguments feats {D}.
#[global] Arguments lendCap {D}.
#[global] Arguments streamMu {D}.
#[global] Arguments streams {D}.
#[global] Arguments liveStreams {D}.
#[global] Arguments stagedBytes {D}.

Section SessionSetters.
Context {D : Type}.
Definition set_auth a n l f (s : session D) : session D := mkSession a n l f (lendCap s) (streamMu s) (streams s) (liveStreams s) (stagedBytes s).
Definition set_lendCap v (s : session D) : session D := mkSession (authed s) (ns s) (limits s) (feats s) v (streamMu s) (streams s) (liveStreams s) (stagedBytes s).
Definition set_streamMu v (s : session D) : session D := mkSession (authed s) (ns s) (limits s) (feats s) (lendCap s) v (streams s) (liveStreams s) (stagedBytes s).
Definition set_table m l b (s : session D) : session D := mkSession (authed s) (ns s) (limits s) (feats s) (lendCap s) (streamMu s) m l b.
End SessionSetters.

(** ** The server *)

(** The store calls made, by connection. *)
Inductive call :=
| CExists (ns : Z) (keys : list bytes)
| CGet (ns : Z) (key : bytes)
| CPut (ns : Z) (key data : bytes) (sum : Z)
| CContains (ns : Z) (key : bytes)
| CDelete (ns : Z) (key : bytes) (force : bool)
| CTouch (ns : Z) (key : bytes) (sub ttl : Z)
| CPin (ns : Z) (key : bytes) (sub : Z)
| CCanStore (ns n : Z)
| CStats (ns : Z).

Definition callNS (c : call) : Z :=
  match c with
  | CExists ns _ | CGet ns _ | CPut ns _ _ _ | CContains ns _ | CDelete ns _ _ | CTouch ns _ _ _ | CPin ns _ _
  | CCanStore ns _ | CStats ns => ns
  end.

(** The accept loop: in [Accept], in its body, or returned. *)
Inductive acceptPhase := AWaiting | ABusy | AEnded.

#[export] Instance acceptPhase_eq_dec : EqDecision acceptPhase.
Proof. solve_decision. Defined.

(** [tracked] is the set of live connections the server keeps, [slots] those whose
    slot is still taken, [calls] the calls made so far, [acquired] and [released] the
    holds taken and given back; [touched]: the store was used after it was closed. *)
Record Server (St H D : Type) := mkServer {
  store : St;
  reg : Registry.Registry;
  conns : gmap nat (Conn H);
  sessions : gmap nat (session D);
  nextConn : nat;
  tracked : gset nat;
  draining : bool;
  accepting : acceptPhase;
  listening : bool;
  live : Z;
  slots : gset nat;
  refused : Z;
  storeClosed : bool;
  calls : list (nat * call);
  acquired : list (nat * H);
  released : list (nat * H);
  touched : bool;
  tick : nat
}.
#[global] Arguments mkServer {St H D}.
#[global] Arguments store {St H D}.
#[global] Arguments reg {St H D}.
#[global] Arguments conns {St H D}.
#[global] Arguments sessions {St H D}.
#[global] Arguments nextConn {St H D}.
#[global] Arguments tracked {St H D}.
#[global] Arguments draining {St H D}.
#[global] Arguments accepting {St H D}.
#[global] Arguments listening {St H D}.
#[global] Arguments live {St H D}.
#[global] Arguments slots {St H D}.
#[global] Arguments refused {St H D}.
#[global] Arguments storeClosed {St H D}.
#[global] Arguments calls {St H D}.
#[global] Arguments acquired {St H D}.
#[global] Arguments released {St H D}.
#[global] Arguments touched {St H D}.
#[global] Arguments tick {St H D}.

Section ServerSetters.
Context {St H D : Type}.
Abbreviation S := (Server St H D).
Definition set_store v (s : S) : S := mkServer v (reg s) (conns s) (sessions s) (nextConn s) (tracked s) (draining s)
  (accepting s) (listening s) (live s) (slots s) (refused s) (storeClosed s) (calls s) (acquired s) (released s)
  (touched s) (tick s).
Definition set_reg v (s : S) : S := mkServer (store s) v (conns s) (sessions s) (nextConn s) (tracked s) (draining s)
  (accepting s) (listening s) (live s) (slots s) (refused s) (storeClosed s) (calls s) (acquired s) (released s)
  (touched s) (tick s).
Definition set_conns v (s : S) : S := mkServer (store s) (reg s) v (sessions s) (nextConn s) (tracked s) (draining s)
  (accepting s) (listening s) (live s) (slots s) (refused s) (storeClosed s) (calls s) (acquired s) (released s)
  (touched s) (tick s).
Definition set_sessions v (s : S) : S := mkServer (store s) (reg s) (conns s) v (nextConn s) (tracked s) (draining s)
  (accepting s) (listening s) (live s) (slots s) (refused s) (storeClosed s) (calls s) (acquired s) (released s)
  (touched s) (tick s).
Definition set_nextConn v (s : S) : S := mkServer (store s) (reg s) (conns s) (sessions s) v (tracked s) (draining s)
  (accepting s) (listening s) (live s) (slots s) (refused s) (storeClosed s) (calls s) (acquired s) (released s)
  (touched s) (tick s).
Definition set_tracked v (s : S) : S := mkServer (store s) (reg s) (conns s) (sessions s) (nextConn s) v (draining s)
  (accepting s) (listening s) (live s) (slots s) (refused s) (storeClosed s) (calls s) (acquired s) (released s)
  (touched s) (tick s).
Definition set_draining v (s : S) : S := mkServer (store s) (reg s) (conns s) (sessions s) (nextConn s) (tracked s) v
  (accepting s) (listening s) (live s) (slots s) (refused s) (storeClosed s) (calls s) (acquired s) (released s)
  (touched s) (tick s).
Definition set_accepting v (s : S) : S := mkServer (store s) (reg s) (conns s) (sessions s) (nextConn s) (tracked s)
  (draining s) v (listening s) (live s) (slots s) (refused s) (storeClosed s) (calls s) (acquired s) (released s)
  (touched s) (tick s).
Definition set_listening v (s : S) : S := mkServer (store s) (reg s) (conns s) (sessions s) (nextConn s) (tracked s)
  (draining s) (accepting s) v (live s) (slots s) (refused s) (storeClosed s) (calls s) (acquired s) (released s)
  (touched s) (tick s).
Definition set_live v (s : S) : S := mkServer (store s) (reg s) (conns s) (sessions s) (nextConn s) (tracked s)
  (draining s) (accepting s) (listening s) v (slots s) (refused s) (storeClosed s) (calls s) (acquired s) (released s)
  (touched s) (tick s).
Definition set_slots v (s : S) : S := mkServer (store s) (reg s) (conns s) (sessions s) (nextConn s) (tracked s)
  (draining s) (accepting s) (listening s) (live s) v (refused s) (storeClosed s) (calls s) (acquired s) (released s)
  (touched s) (tick s).
Definition set_refused v (s : S) : S := mkServer (store s) (reg s) (conns s) (sessions s) (nextConn s) (tracked s)
  (draining s) (accepting s) (listening s) (live s) (slots s) v (storeClosed s) (calls s) (acquired s) (released s)
  (touched s) (tick s).
Definition set_storeClosed v (s : S) : S := mkServer (store s) (reg s) (conns s) (sessions s) (nextConn s) (tracked s)
  (draining s) (accepting s) (listening s) (live s) (slots s) (refused s) v (calls s) (acquired s) (released s)
  (touched s) (tick s).
Definition set_calls v (s : S) : S := mkServer (store s) (reg s) (conns s) (sessions s) (nextConn s) (tracked s)
  (draining s) (accepting s) (listening s) (live s) (slots s) (refused s) (storeClosed s) v (acquired s) (released s)
  (touched s) (tick s).
Definition set_acquired v (s : S) : S := mkServer (store s) (reg s) (conns s) (sessions s) (nextConn s) (tracked s)
  (draining s) (accepting s) (listening s) (live s) (slots s) (refused s) (storeClosed s) (calls s) v (released s)
  (touched s) (tick s).
Definition set_released v (s : S) : S := mkServer (store s) (reg s) (conns s) (sessions s) (nextConn s) (tracked s)
  (draining s) (accepting s) (listening s) (live s) (slots s) (refused s) (storeClosed s) (calls s) (acquired s) v
  (touched s) (tick s).
Definition set_touched v (s : S) : S := mkServer (store s) (reg s) (conns s) (sessions s) (nextConn s) (tracked s)
  (draining s) (accepting s) (listening s) (live s) (slots s) (refused s) (storeClosed s) (calls s) (acquired s)
  (released s) v (tick s).
Definition set_tick v (s : S) : S := mkServer (store s) (reg s) (conns s) (sessions s) (nextConn s) (tracked s)
  (draining s) (accepting s) (listening s) (live s) (slots s) (refused s) (storeClosed s) (calls s) (acquired s)
  (released s) (touched s) v.
End ServerSetters.

(** ** Actions *)

Section Actions.
Context {St : Type} `{BS : !BlockStore St} `{XX : !Xxh3} `{HA : !Hasher} `{NE : !Net}.

Abbreviation S := (Server St hold hasher).
Abbreviation act := (act S).
Abbreviation prog := (prog S).
Abbreviation Conn := (Conn hold).
Abbreviation session := (session hasher).

(** The next answer of the environment. *)
Definition ask {B} (f : nat -> B) : act B := fun s => Next (f (tick s)) (set_tick (Datatypes.S (tick s)) s).

(** [time.Now]. *)
Definition nowFn : act Z := ask nowAt.

(** A value that a Go panic may stand in for. *)
Definition must {B} (o : option B) : act B := fun s => match o with Some b => Next b s | None => Panicked end.

(** Goroutines of a connection wait until it is there. *)
Definition onConn {B} (i : nat) (f : Conn -> B * Conn) : act B := fun s =>
  match conns s !! i with
  | Some c => let (b, c) := f c in Next b (set_conns (<[i := c]> (conns s)) s)
  | None => Blocked
  end.

Definition onSession {B} (i : nat) (f : session -> B * session) : act B := fun s =>
  match sessions s !! i with
  | Some c => let (b, c) := f c in Next b (set_sessions (<[i := c]> (sessions s)) s)
  | None => Blocked
  end.

Definition ofConn {B} (i : nat) (f : Conn -> B) : act B := onConn i (fun c => (f c, c)).
Definition ofSession {B} (i : nat) (f : session -> B) : act B := onSession i (fun s => (f s, s)).
Definition modConn (i : nat) (f : Conn -> Conn) : act unit := onConn i (fun c => (tt, f c)).
Definition modSession (i : nat) (f : session -> session) : act unit := onSession i (fun s => (tt, f s)).

(** A section under [streamMu] that does nothing else, and the two ends of a
    longer one. *)
Definition locked {B} (i : nat) (m : act B) : act B := fun s =>
  match sessions s !! i with
  | Some x => if streamMu x then Blocked else m s
  | None => Blocked
  end.
Definition lock (i : nat) : act unit := locked i (modSession i (set_streamMu true)).
Definition unlock (i : nat) : act unit := modSession i (set_streamMu false).

(** A call into the store, whose actions are the store's own. *)
Definition inStore {B} (m : Conc.act St B) : act B := fun s =>
  match m (store s) with
  | Next b t => Next b (set_store t (set_touched (touched s || storeClosed s) s))
  | Blocked => Blocked
  | Halted => Halted
  | Panicked => Panicked
  end.

Fixpoint zoom {B} (p : Conc.prog St B) : prog B :=
  match p with
  | Done b => Done b
  | Atom C m k => Atom C (inStore m) (fun c => zoom (k c))
  end.

Definition calling {B} (i : nat) (c : call) (p : Conc.prog St B) : prog B :=
  _ ⇐ put (fun s => set_calls ((i, c) :: calls s) s); zoom p.

(** A release callback. *)
Definition release (i : nat) (h : hold) : prog unit :=
  _ ⇐ put (fun s => set_released ((i, h) :: released s) s); zoom (bs_release h).

Definition fire (i : nat) (hs : list hold) : prog unit := forEach (release i) hs.

End Actions.

End Srv.
