(* ===== verification/Transport.v ===== *)
(** A connection's loops: [internal/transport/conn.go].

    The read loop runs on what the peer sends, [inp], with one round of fuel per
    header that can still come. An iteration of the write loop is one program,
    and so is each round of the drain after a close; the loop's phase is part of
    the connection, so that the rounds follow one another. *)

From Stdlib Require Import ZArith Lia.
From coqutil Require Import Byte Word.LittleEndianList.
From stdpp Require Import base numbers list gmap sets.
From S2P Require Import Prelude.
From S2P Require Import Conc.
From S2P Require Import Wire.
From S2P Require Import Bodies.
From S2P Require Import Tenant.
From S2P Require Import Credit.
From S2P Require Import ServerState.
Import Conc Ops Hdr Srv.
Open Scope Z_scope.
Open Scope conc_scope.

Module Transport.

Section Transport.
Context {St : Type} `{BS : !BlockStore St} `{XX : !Xxh3} `{HA : !Hasher} `{NE : !Net}.
Context (cfg : Config).

Abbreviation S := (Server St hold hasher).
Abbreviation act := (act S).
Abbreviation prog := (prog S).
Abbreviation writeReq := (writeReq hold).

(** ** Credit *)

Definition GrantCredit (i : nat) (n : Z) : act unit := modConn i (fun c => set_credit (Credit.Grant n (credit c)) c).

Definition Account (i : nat) (n : Z) : act unit := modConn i (fun c => set_credit (Credit.Account n (credit c)) c).

Definition Consume (i : nat) (n : Z) : act Credit.Violation :=
  onConn i (fun c => let (v, w) := Credit.Consume n (credit c) in (v, set_credit w c)).

(** [maxPayload] is read by the read goroutine only, which this runs on. *)
Definition SetLimits (i : nat) (l : Body.Limits) : act unit :=
  modConn i (fun c => set_credit (Credit.SetWindow (Body.InitialCredit l) (Body.MaxFrameLen l) (credit c))
                        (set_maxPayload (Body.MaxFrameLen l) c)).

(** ** The write queue *)

Definition queueCap : Z := 256.

Definition Close (i : nat) : act unit := modConn i (set_closed true).

(** [select { case c.wq <- r: ; case <-c.closed: }]; [false] for the second. *)
Definition enqueue (i : nat) (r : writeReq) : act bool := fun s =>
  match conns s !! i with
  | None => Blocked
  | Some c =>
      let s' := set_tick (Datatypes.S (tick s)) s in
      if len (wq c) <? queueCap then
        if closed c && pick (tick s) then Next false s'
        else Next true (set_conns (<[i := set_wq (wq c ++ [r]) c]> (conns s)) s')
      else if closed c then Next false s' else Blocked
  end.

Definition totalOf (bufs : list bytes) : Z := u64 (foldr (fun b n => len b + n) 0 bufs).

Definition set_PayloadLen (n : Z) (h : Header) : Header :=
  mkHeader (Magic h) (Version h) (Opcode h) (Flags h) (NamespaceID h) (Hdr.Credit h) (RequestID h) (Key h) n (CRC h).
Definition set_Credit (n : Z) (h : Header) : Header :=
  mkHeader (Magic h) (Version h) (Opcode h) (Flags h) (NamespaceID h) n (RequestID h) (Key h) (PayloadLen h) (CRC h).

(** [Header{Opcode: op, Flags: fl, NamespaceID: ns, RequestID: id}]. *)
Definition respHeader (op fl nsid id : Z) : Header := mkHeader (zeros 4) 0 op fl nsid 0 id (zeros 32) 0 0.

(** The read loop makes a response. *)
Definition emit (i : nat) (h : Header) : act unit := modConn i (fun c => set_emitted (emitted c ++ [h]) c).

Definition WriteFrames (i : nat) (hdr : Header) (bufs : list bytes) (rel : list hold) : prog unit :=
  let hdr := set_PayloadLen (u32 (totalOf bufs)) hdr in
  _ ⇐ emit i hdr;
  shut ⇐ ofConn i closed;
  if shut : bool then fire i rel else
  ok ⇐ enqueue i (mkReq hdr bufs rel);
  if ok : bool then mret tt else fire i rel.

(** A send that does not wait. *)
Definition tryEnqueue (i : nat) (r : writeReq) : act unit :=
  modConn i (fun c => if len (wq c) <? queueCap then set_wq (wq c ++ [r]) c else c).

Definition Abort (i : nat) (st : Z) : prog unit :=
  let body := Body.AppendErrorResp [] st in
  let hdr := set_PayloadLen (u32 (len body)) (respHeader OpNop (Z.lor FlagResp FlagFatal) 0 0) in
  _ ⇐ emit i hdr;
  _ ⇐ tryEnqueue i (mkReq hdr [body] []);
  _ ⇐ Close i;
  mret tt.

Definition respondError (i : nat) (h : Header) (st : Z) : prog unit :=
  let body := Body.AppendErrorResp [] st in
  let hdr := set_PayloadLen (u32 (len body)) (respHeader (Opcode h) FlagResp (NamespaceID h) (RequestID h)) in
  _ ⇐ emit i hdr;
  _ ⇐ enqueue i (mkReq hdr [body] []);
  mret tt.

(** ** The read loop *)

(** [io.ReadFull]: the bytes and what follows them. *)
Definition readFull (n : Z) (inp : bytes) : act (option (bytes * bytes)) :=
  bad ← ask ioFails;
  mret (if bad || (len inp <? n) then None else Some (take (Z.to_nat n) inp, drop (Z.to_nat n) inp)).

(** [io.CopyBuffer] of at most [n] bytes, for which an early end of the stream is
    no error. *)
Definition discard (n : Z) (inp : bytes) : act (option bytes) :=
  bad ← ask ioFails;
  mret (if bad : bool then None else Some (drop (Z.to_nat n) inp)).

Definition maxLendReuse : Z := 2 * 2 ^ 20.

(** [session.Lend]: the capacity of the buffer that is kept. *)
Definition Lend (i : nat) (n : Z) : act unit :=
  modSession i (fun s => if maxLendReuse <? n then s else if lendCap s <? n then set_lendCap maxLendReuse s else s).

(** The frame handler. *)
Context (HandleFrame : nat -> Header -> bytes -> prog unit).

(** A frame that [Consume] let through. *)
Definition readBody (i : nat) (h : Header) (inp : bytes) : prog (option bytes) :=
  _ ⇐ Lend i (PayloadLen h);
  b ⇐ readFull (PayloadLen h) inp;
  match b with
  | None => _ ⇐ GrantCredit i (PayloadLen h); mret None
  | Some (body, inp) => HandleFrame i h body;; mret (Some inp)
  end.

(** One frame whose header has been read; the input left, or [None] when the
    loop returns. *)
Definition route (i : nat) (h : Header) (overCap : bool) (inp : bytes) : prog (option bytes) :=
  if Opcode h =? OpNop then d ⇐ discard (PayloadLen h) inp; mret d
  else if overCap then
    _ ⇐ Account i (PayloadLen h);
    d ⇐ discard (PayloadLen h) inp;
    _ ⇐ GrantCredit i (PayloadLen h);
    match d with
    | None => mret None
    | Some inp => respondError i h StatusErrTooLarge;; mret (Some inp)
    end
  else
    v ⇐ Consume i (PayloadLen h);
    match v with
    | Credit.ViolationBusy =>
        d ⇐ discard (PayloadLen h) inp;
        _ ⇐ GrantCredit i (PayloadLen h);
        match d with
        | None => mret None
        | Some inp => respondError i h StatusErrBusy;; mret (Some inp)
        end
    | Credit.ViolationFatal =>
        _ ⇐ discard (PayloadLen h) inp;
        _ ⇐ GrantCredit i (PayloadLen h);
        Abort i StatusErrBusy;; mret None
    | Credit.ViolationNone => readBody i h inp
    end.

(** One round of the loop. *)
Definition readFrame (i : nat) (inp : bytes) : prog (option bytes) :=
  r ⇐ readFull HeaderSize inp;
  match r with
  | None => mret None
  | Some (hdrBuf, inp) =>
      cap ⇐ ofConn i maxPayload;
      '(h, err) ⇐ must (ParseHeader hdrBuf cap);
      let overCap := bool_decide (err = Some ErrPayloadTooLarge) in
      if bool_decide (is_Some err) && negb overCap then Abort i StatusFatalProtocol;; mret None
      else
        rest ← route i h overCap inp;
        match rest with
        | None => mret None
        | Some inp => _ ⇐ modConn i (fun c => set_served (served c ++ [h]) c); mret (Some inp)
        end
  end.

(** A round takes a header at least, so more fuel than bytes is enough. *)
Fixpoint readRounds (fuel : nat) (i : nat) (inp : bytes) : prog unit :=
  match fuel with
  | O => _ ⇐ panic (A := unit); mret tt
  | Datatypes.S fuel =>
      r ← readFrame i inp;
      match r with None => mret tt | Some inp => readRounds fuel i inp end
  end.

(** The loop, which begins once and closes the connection when it returns. *)
Definition readLoop (i : nat) : prog unit :=
  go ⇐ onConn i (fun c => if decide (reader c = RIdle) then (Some (input c), set_reader RRunning c) else (None, c));
  match go with
  | None => mret tt
  | Some inp =>
      readRounds (Datatypes.S (length inp)) i inp;;
      _ ⇐ Close i;
      _ ⇐ modConn i (set_reader REnded);
      mret tt
  end.

(** ** The write loop *)

Definition maxFlushFrames : Z := 512.

Definition recv (i : nat) : act (option writeReq) :=
  onConn i (fun c => match wq c with [] => (None, c) | r :: q => (Some r, set_wq q c) end).

(** Frames that are already queued, up to the flush target. *)
Fixpoint coalesce (fuel : nat) (i : nat) (reqs : list writeReq) (total : Z) : prog (list writeReq) :=
  match fuel with
  | O => mret reqs
  | Datatypes.S fuel =>
      if (total <? u64 (CoalesceBytes cfg)) && (len reqs <? maxFlushFrames) then
        o ⇐ recv i;
        match o with
        | Some r => coalesce fuel i (reqs ++ [r]) (u64 (total + PayloadLen (w_hdr r)))
        | None => mret reqs
        end
      else mret reqs
  end.

(** The header slot and the payload slices of one frame. *)
Definition vectorOf (r : writeReq) (credit : Z) : option (list bytes) :=
  hb ← MarshalTo (set_Credit credit (w_hdr r)) (zeros 64);
  Some (hb :: w_bufs r).

Fixpoint vectors (reqs : list writeReq) (credit : Z) : option (list bytes) :=
  match reqs with
  | [] => Some []
  | r :: reqs => v ← vectorOf r credit; vs ← vectors reqs 0; Some (v ++ vs)
  end.

(** One system call: all of it, or a part and an error. *)
Definition writeTo (i : nat) (bufs : list bytes) : act bool :=
  '(bad, n) ← ask (fun k => (ioFails k, ioTaken k));
  let data := concat bufs in
  modConn i (fun c => set_wire (wire c ++ (if bad : bool then take n data else data)) c);;
  mret (negb bad).

(** The first window of at least [chunk] bytes. *)
Fixpoint window (chunk n : Z) (bufs : list bytes) : list bytes * list bytes :=
  match bufs with
  | [] => ([], [])
  | b :: bufs => if n <? chunk then let (w, r) := window chunk (n + len b) bufs in (b :: w, r) else ([], b :: bufs)
  end.

(** A window takes a slice at least, so as much fuel as slices is enough. *)
Fixpoint writeWindows (fuel : nat) (i : nat) (chunk : Z) (bufs : list bytes) : prog bool :=
  match bufs with
  | [] => mret true
  | _ =>
      match fuel with
      | O => _ ⇐ panic (A := unit); mret false
      | Datatypes.S fuel =>
          let (w, rest) := window chunk 0 bufs in
          ok ⇐ writeTo i w;
          if ok : bool then writeWindows fuel i chunk rest else mret false
      end
  end.

Definition writeVector (i : nat) (bufs : list bytes) : prog bool :=
  if WriteChunkBytes cfg <=? 0 then ok ⇐ writeTo i bufs; mret ok
  else writeWindows (length bufs) i (WriteChunkBytes cfg) bufs.

Definition flushBy (i : nat) (reqs : list writeReq) : prog bool :=
  credit ⇐ onConn i (fun c => let (g, w) := Credit.TakeGrant (credit c) in (g, set_sent (sent c + g) (set_credit w c)));
  bufs ⇐ must (vectors reqs credit);
  ok ← writeVector i bufs;
  fire i (concat (w_release <$> reqs));;
  mret ok.

Definition setWriter (i : nat) (p : writePhase) : act unit := modConn i (set_writer p).

(** After a flush: the next iteration, or the end of the loop. *)
Definition flushed (i : nat) (ok : bool) : prog unit :=
  if ok then _ ⇐ setWriter i WWaiting; mret tt
  else _ ⇐ Close i; _ ⇐ setWriter i WEnded; mret tt.

(** The cases of the outer [select]. *)
Inductive writerCase := FrameReady | GrantTick | ClosedSeen.

Definition writeIteration (i : nat) (case : writerCase) : prog unit :=
  enter ⇐ onConn i (fun c => if decide (writer c = WWaiting) then (true, set_writer WBusy c) else (false, c));
  if negb enter then mret tt else
  match case with
  | FrameReady =>
      o ⇐ recv i;
      match o with
      | None => _ ⇐ setWriter i WWaiting; mret tt
      | Some first =>
          reqs ← coalesce (Z.to_nat maxFlushFrames) i [first] (PayloadLen (w_hdr first));
          ok ← flushBy i reqs;
          flushed i ok
      end
  | GrantTick =>
      due ⇐ ofConn i (fun c => Credit.PendingGrant (credit c));
      if due : bool then ok ← flushBy i [mkReq (respHeader OpNop 0 0 0) [] []]; flushed i ok
      else _ ⇐ setWriter i WWaiting; mret tt
  | ClosedSeen =>
      shut ⇐ ofConn i closed;
      _ ⇐ setWriter i (if shut : bool then WDraining else WWaiting); mret tt
  end.

(** One round of the drain after the close. *)
Definition drainRound (i : nat) : prog unit :=
  enter ⇐ onConn i (fun c => if decide (writer c = WDraining) then (true, set_writer WDrainBusy c) else (false, c));
  if negb enter then mret tt else
  o ⇐ recv i;
  match o with
  | None => _ ⇐ setWriter i WEnded; mret tt
  | Some r =>
      ok ← flushBy i [r];
      _ ⇐ setWriter i (if ok : bool then WDraining else WEnded);
      mret tt
  end.

(** ** Teardown *)

(** [finalDrain]: nothing is queued any more, so the queue's length is enough
    fuel. *)
Fixpoint finalDrain (fuel : nat) (i : nat) : prog unit :=
  match fuel with
  | O => mret tt
  | Datatypes.S fuel =>
      o ⇐ recv i;
      match o with
      | None => _ ⇐ modConn i (set_done EDone); mret tt
      | Some r => fire i (w_release r);; finalDrain fuel i
      end
  end.

(** What runs once both loops have returned. *)
Definition teardown (i : nat) : prog unit :=
  go ⇐ onConn i (fun c =>
         if bool_decide (reader c = REnded) && bool_decide (writer c = WEnded) && bool_decide (done c = EWaiting)
         then (Some (length (wq c)), set_done EDraining c) else (None, c));
  match go with
  | None => mret tt
  | Some n => finalDrain (Datatypes.S n) i
  end.

End Transport.

End Transport.
