(* ===== verification/Session.v ===== *)
(** One connection's session: [internal/server/session.go], [handlers.go] and
    [putstream.go].

    Handlers run on the connection's read goroutine; [streamMu] protects the
    stream table against the reaper. Request counters and logging are left out,
    and so is the reuse of scratch slices, which nothing outlives. *)

From Stdlib Require Import ZArith Lia.
From coqutil Require Import Byte Word.LittleEndianList.
From stdpp Require Import base numbers list gmap sets strings.
From S2P Require Import Prelude.
From S2P Require Import Conc.
From S2P Require Import Wire.
From S2P Require Import Bodies.
From S2P Require Import Tenant.
From S2P Require Import Credit.
From S2P Require Import ServerState.
From S2P Require Import Transport.
Import Conc Ops Hdr Srv Transport.
Open Scope Z_scope.
Open Scope conc_scope.

Module Session.

Definition maxLiveStreams : Z := 256.
Definition maxStreamEntries : Z := 4 * maxLiveStreams.
Definition maxStagedPerConn : Z := 256 * 2 ^ 20.

Section Session.
Context {St : Type} `{BS : !BlockStore St} `{XX : !Xxh3} `{HA : !Hasher} `{NE : !Net}.

(** [iw]: the width of [int]; [sha256]: of crypto/sha256; [scopeStatsToNS]: the
    removal of other tenants' entries from the statistics document, an edit of
    JSON text. *)
Context (cfg : Config) (iw : Z) (sha256 : bytes -> bytes) (scopeStatsToNS : bytes -> Z -> bytes).

Abbreviation S := (Server St hold hasher).
Abbreviation act := (act S).
Abbreviation prog := (prog S).
Abbreviation putStream := (putStream hasher).
Abbreviation session := (session hasher).

Definition newSession : session := mkSession false 0 (WireLimits cfg) 0 0 false ∅ 0 0.

(** ** Responses *)

(** [consume]: the body is returned and its bytes granted. *)
Definition consume (i : nat) (h : Header) : act unit := GrantCredit i (PayloadLen h).

Definition respNS (x : session) (h : Header) : Z := if authed x then ns x else NamespaceID h.

Definition writeRespFlags (i : nat) (h : Header) (flags : Z) (bufs : list bytes) (rel : list hold) : prog unit :=
  n ⇐ ofSession i (fun x => respNS x h);
  WriteFrames i (respHeader (Opcode h) flags n (RequestID h)) bufs rel.

Definition writeResp (i : nat) (h : Header) (body : bytes) : prog unit := writeRespFlags i h FlagResp [body] [].

Definition respondStatus (i : nat) (h : Header) (st : Z) : prog unit := writeResp i h (Body.AppendPreamble [] st 0).

(** ** HELLO *)

Definition fatalHello (i : nat) (h : Header) (st : Z) : prog unit :=
  WriteFrames i (respHeader OpHello (Z.lor FlagResp FlagFatal) (NamespaceID h) (RequestID h))
    [Body.AppendPreamble [] st 0] [];;
  _ ⇐ Close i;
  mret tt.

(** Go's conversion of bytes to a string. *)
Definition goString (b : bytes) : string := String.string_of_list_byte b.

Definition serverName : bytes := String.list_byte_of_string "kvblockd".

Definition accept (i : nat) (h : Header) (req : Body.HelloReq) (id : Z) : prog unit :=
  let feats := Body.IntersectFeatures (Body.Features req) Body.ServerFeatures in
  let lim := Body.NegotiateLimits (WireLimits cfg) (Body.hr_MaxBatchKeys req) (Body.hr_MaxFrameLen req) in
  _ ⇐ SetLimits i lim;
  _ ⇐ modSession i (set_auth true id lim feats);
  writeResp i h (Body.AppendHelloResp iw []
    (Body.mkHelloResp Version1 feats lim id (LeaseDefaultMS cfg) (LeaseMaxMS cfg) (StreamTimeoutMS cfg) serverName)).

Definition handleHello (i : nat) (h : Header) (body : bytes) : prog unit :=
  '(req, err) ⇐ must (Body.DecodeHelloReq iw body);
  _ ⇐ consume i h;
  if bool_decide (is_Some err) then fatalHello i h StatusErrMalformed else
  if (Version1 <? Body.ProtoMin req) || (Body.ProtoMax req <? Version1) then fatalHello i h StatusErrUnsupported else
  '(id, ok) ⇐ get (fun s => Registry.Authenticate sha256 (reg s) (goString (Body.Namespace req)) (Body.Token req));
  if negb ok then fatalHello i h StatusErrAuthFailed else accept i h req id.

(** ** Batches *)

(** The keys, unless the body was refused and answered. *)
Definition decodeKeys (i : nat) (h : Header) (body : bytes) : prog (option (Z * list bytes)) :=
  maxKeys ⇐ ofSession i (fun x => Body.MaxBatchKeys (limits x));
  '(aux, keys, err) ⇐ must (Body.DecodeKeyList iw body maxKeys []);
  _ ⇐ consume i h;
  match err with
  | Some e => respondStatus i h (Body.ErrorStatus (Body.BodyErr e));; mret None
  | None => mret (Some (aux, keys))
  end.

Definition handleBatchExists (i : nat) (h : Header) (body : bytes) : prog unit :=
  o ← decodeKeys i h body;
  match o with
  | None => mret tt
  | Some (_, keys) =>
      '(n, fe) ⇐ ofSession i (fun x => (ns x, feats x));
      let withBitmap := negb (Z.land fe FeatExistsBitmap =? 0) in
      '(nConsec, perKey) ← calling i (CExists n keys) (bs_ExistsPrefix n keys withBitmap);
      writeResp i h (Body.AppendExistsResp iw [] (u32 (len keys)) nConsec perKey)
  end.

(** One key of a GET: a hit with its release, or a status. *)
Definition fetch (i : nat) (n : Z) (key : bytes) : prog (tierAnswer hold) :=
  a ← (match bs_Get with
       | ByTier f => calling i (CGet n key) (f n key)
       | ByRef f =>
           o ← calling i (CGet n key) (f n key);
           mret (match o with
                 | Some (data, sum, h) => Hit data sum (Some h) OnDram
                 | None => Refused StatusNotFound
                 end)
       | ByCopy f =>
           o ← calling i (CGet n key) (f n key);
           mret (match o with Some (data, sum) => Hit data sum None OnDram | None => Refused StatusNotFound end)
       end);
  match a with
  | Hit _ _ (Some h) _ => _ ⇐ put (fun s => set_acquired ((i, h) :: acquired s) s); mret a
  | _ => mret a
  end.

Definition descOf (a : tierAnswer hold) : Body.Desc :=
  match a with
  | Hit data sum _ _ => Body.mkDesc StatusOK (u32 (len data)) sum
  | Refused st => if st =? StatusErrBusy then Body.mkDesc StatusErrBusy 0 0 else Body.mkDesc StatusNotFound 0 0
  end.

Definition blockLen (a : tierAnswer hold) : Z := match a with Hit data _ _ _ => len data | Refused _ => 0 end.

Definition releaseOf (a : tierAnswer hold) : list hold :=
  match a with Hit _ _ (Some h) _ => [h] | _ => [] end.

Definition payloadOf (a : tierAnswer hold) : list bytes :=
  match a with Hit data _ _ _ => if 0 <? len data then [data] else [] | Refused _ => [] end.

(** The blocks of one frame, from the front of [keys], and the keys left. *)
Fixpoint pack (i : nat) (n maxFrame : Z) (keys : list bytes) (descs : list Body.Desc) (bufs : list bytes)
    (rels : list hold) (payload : Z) : prog (list Body.Desc * list bytes * list hold * list bytes) :=
  match keys with
  | [] => mret (descs, bufs, rels, [])
  | key :: rest =>
      a ← fetch i n key;
      let projected := Body.GetRespHeaderSize (len descs + 1) + payload + blockLen a in
      if (0 <? len descs) && (maxFrame <? projected) then fire i (releaseOf a);; mret (descs, bufs, rels, keys)
      else pack i n maxFrame rest (descs ++ [descOf a]) (bufs ++ payloadOf a) (rels ++ releaseOf a) (payload + blockLen a)
  end.

(** The frames of the response; each takes a key at least, so [fuel] is the
    number of keys. *)
Fixpoint getFrames (fuel : nat) (i : nat) (h : Header) (n maxFrame total : Z) (keys : list bytes) : prog unit :=
  match keys with
  | [] => mret tt
  | _ =>
      match fuel with
      | O => _ ⇐ panic (A := unit); mret tt
      | Datatypes.S fuel =>
          '(descs, bufs, rels, rest) ← pack i n maxFrame keys [] [] [] 0;
          region ⇐ must (Body.AppendGetRespHeader [] StatusOK (u32 (total - len keys)) (u32 total) descs);
          let flags := if bool_decide (rest = []) then FlagResp else Z.lor FlagResp FlagMore in
          writeRespFlags i h flags (region :: bufs) rels;;
          getFrames fuel i h n maxFrame total rest
      end
  end.

Definition handleBatchGet (i : nat) (h : Header) (body : bytes) : prog unit :=
  o ← decodeKeys i h body;
  match o with
  | None => mret tt
  | Some (_, keys) =>
      '(n, maxFrame) ⇐ ofSession i (fun x => (ns x, sint iw (Body.MaxFrameLen (limits x))));
      if bool_decide (keys = []) then
        region ⇐ must (Body.AppendGetRespHeader [] StatusOK 0 0 []);
        writeRespFlags i h FlagResp [region] []
      else getFrames (length keys) i h n maxFrame (len keys) keys
  end.

(** [for i, k := range keys { perKey[i] = f(k) }]. *)
Fixpoint perKey (f : bytes -> prog Z) (keys : list bytes) : prog (list Z) :=
  match keys with
  | [] => mret []
  | k :: keys => st ← f k; sts ← perKey f keys; mret (st :: sts)
  end.

Definition keyStatus (i : nat) (h : Header) (n ttl : Z) (key : bytes) : prog Z :=
  match bs_lifecycle with
  | None => hit ← calling i (CContains n key) (bs_Contains n key); mret (if hit : bool then StatusOK else StatusNotFound)
  | Some lc =>
      if Opcode h =? OpTouchLease then calling i (CTouch n key (SubOp (Flags h)) ttl) (lc_TouchLease lc n key (SubOp (Flags h)) ttl)
      else calling i (CPin n key (SubOp (Flags h))) (lc_PinOp lc n key (SubOp (Flags h)))
  end.

Definition handleKeyStatusVerb (i : nat) (h : Header) (body : bytes) : prog unit :=
  if Unpin <? SubOp (Flags h) then _ ⇐ consume i h; respondStatus i h StatusErrUnsupported else
  o ← decodeKeys i h body;
  match o with
  | None => mret tt
  | Some (ttl, keys) =>
      n ⇐ ofSession i ns;
      sts ← perKey (keyStatus i h n ttl) keys;
      writeResp i h (Body.AppendKeyStatusResp iw [] sts)
  end.

Definition handleDelete (i : nat) (h : Header) (body : bytes) : prog unit :=
  o ← decodeKeys i h body;
  match o with
  | None => mret tt
  | Some (_, keys) =>
      n ⇐ ofSession i ns;
      let force := negb (Z.land (Flags h) FlagForce =? 0) in
      sts ← perKey (fun k => calling i (CDelete n k force) (bs_Delete n k force)) keys;
      writeResp i h (Body.AppendKeyStatusResp iw [] sts)
  end.

Definition handleStats (i : nat) (h : Header) (body : bytes) : prog unit :=
  '(_, err) ⇐ must (Body.DecodeStatsReq body);
  _ ⇐ consume i h;
  match err with
  | Some e => respondStatus i h (Body.ErrorStatus (Body.BodyErr e))
  | None =>
      n ⇐ ofSession i ns;
      doc ← calling i (CStats n) bs_Stats;
      let doc := scopeStatsToNS doc n in
      writeResp i h (Body.AppendPreamble [] StatusOK (u32 (len doc)) ++ doc)
  end.

(** ** PUT streams *)

(** [tombstoneLive] on the stream of [id]. *)
Definition tomb (now : Z) (st : putStream) : putStream :=
  mkStream (p_ns st) (p_key st) (totalLen st) (ttlMS st) (xxh3Hint st) None None (oneShot st) (received st) true
    (lastActive st) now.

Definition tombstoneLive (id : Z) (st : putStream) (now : Z) (x : session) : session :=
  set_table (<[id := tomb now st]> (streams x)) (liveStreams x - 1) (stagedBytes x - staged st) x.

(** Whether the request has a live stream. *)
Definition liveStream (id : Z) (x : session) : bool :=
  match streams x !! id with Some st => negb (tombstoned st) | None => false end.

Definition insertStream (h : Header) (b : Body.PutBeginBody) (now : Z) (x : session) : session :=
  set_table (<[RequestID h := mkStream (ns x) (Key h) (Body.TotalLen b) (Body.TTLms b) (Body.XXH3Hint b) None None 0 0
                                false now 0]> (streams x)) (liveStreams x + 1) (stagedBytes x) x.

Definition probe (i : nat) (n len : Z) : prog bool :=
  match bs_quota with
  | ByNS f => calling i (CCanStore n len) (f n len)
  | BySize f => calling i (CCanStore n len) (f len)
  | NoProbe => mret true
  end.

(** The status of a BEGIN, in the critical section. *)
Definition beginLocked (i : nat) (h : Header) (b : Body.PutBeginBody) (sealed : bool) : prog Z :=
  x ⇐ ofSession i id;
  if liveStream (RequestID h) x then mret StatusErrMalformed else
  if sealed then mret StatusOKExists else
  if Body.MaxBlobLen (limits x) <? Body.TotalLen b then mret StatusErrTooLarge else
  ok ← probe i (ns x) (Body.TotalLen b);
  if negb ok then mret StatusErrQuotaBytes else
  full ⇐ ofSession i (fun x => (maxLiveStreams <=? liveStreams x) || (maxStreamEntries <=? Z.of_nat (size (streams x))));
  if full : bool then mret StatusErrBusy else
  now ⇐ nowFn;
  _ ⇐ modSession i (insertStream h b now);
  mret StatusOK.

Definition putBegin (i : nat) (h : Header) (body : bytes) : prog unit :=
  '(b, err) ⇐ must (Body.DecodePutBegin body);
  _ ⇐ consume i h;
  match err with
  | Some e => respondStatus i h (Body.ErrorStatus (Body.BodyErr e))
  | None =>
      n ⇐ ofSession i ns;
      sealed ← calling i (CContains n (Key h)) (bs_Contains n (Key h));
      _ ⇐ lock i;
      st ← beginLocked i h b sealed;
      respondStatus i h st;;
      _ ⇐ unlock i;
      mret tt
  end.

(** The chunk's bytes into the staging slice, which was made with the declared
    length as its capacity, and into the digest. *)
Definition appendChunk (body : bytes) (n now : Z) (st : putStream) : putStream :=
  let '(b, c) := match buf st with Some bc => bc | None => ([], totalLen st) end in
  let b := b ++ body in
  let rec := u32 (received st + n) in
  let '(dg, one) :=
    match digest st with
    | Some d => (Some (hWrite d body), oneShot st)
    | None => if rec =? totalLen st then (None, xxh3 b) else (Some (hWrite hNew b), oneShot st)
    end in
  mkStream (p_ns st) (p_key st) (totalLen st) (ttlMS st) (xxh3Hint st) (Some (b, Z.max c (len b))) dg one rec
    (tombstoned st) now (tombstonedAt st).

Definition chunkLocked (h : Header) (body : bytes) (now : Z) (x : session) : session :=
  match streams x !! RequestID h with
  | None => x
  | Some st =>
      if tombstoned st then x else
      if PayloadLen h =? 0 then x else
      if totalLen st <? u32 (received st + PayloadLen h) then tombstoneLive (RequestID h) st now x else
      if maxStagedPerConn <? stagedBytes x + PayloadLen h then tombstoneLive (RequestID h) st now x else
      set_table (<[RequestID h := appendChunk body (PayloadLen h) now st]> (streams x)) (liveStreams x)
        (stagedBytes x + PayloadLen h) x
  end.

Definition putChunk (i : nat) (h : Header) (body : bytes) : prog unit :=
  _ ⇐ locked i (now ← nowFn; modSession i (chunkLocked h body now));
  _ ⇐ consume i h;
  mret tt.

(** The stream of a COMMIT or ABORT, taken out of the table. *)
Definition commitLocked (id : Z) (x : session) : option putStream * session :=
  match streams x !! id with
  | None => (None, set_table (delete id (streams x)) (liveStreams x) (stagedBytes x) x)
  | Some st =>
      if tombstoned st then (None, set_table (delete id (streams x)) (liveStreams x) (stagedBytes x) x)
      else (Some st, set_table (delete id (streams x)) (liveStreams x - 1) (stagedBytes x - staged st) x)
  end.

Definition abortLocked (id : Z) (x : session) : option putStream * session :=
  match streams x !! id with
  | None => (None, x)
  | Some st =>
      (Some st, set_table (delete id (streams x)) (if tombstoned st then liveStreams x else liveStreams x - 1)
                  (stagedBytes x - staged st) x)
  end.

Definition emptyXXH3 : Z := xxh3 [].

Definition digestOf (st : putStream) : Z :=
  match digest st with
  | Some d => hSum64 d
  | None => if 0 <? received st then oneShot st else emptyXXH3
  end.

(** The status of a COMMIT whose stream is complete. *)
Definition commitStream (i : nat) (st : putStream) (sum : Z) : prog Z :=
  let data := match buf st with Some (b, _) => b | None => [] end in
  status ← calling i (CPut (p_ns st) (p_key st) data sum) (bs_Put (p_ns st) (p_key st) data sum);
  let status := if status =? StatusErrQuotaBytes then StatusErrBusy else status in
  (if (status =? StatusOK) && (0 <? ttlMS st) then
     match bs_lifecycle with
     | Some lc => calling i (CTouch (p_ns st) (p_key st) TouchRecency (ttlMS st))
                    (lc_TouchLease lc (p_ns st) (p_key st) TouchRecency (ttlMS st));; mret tt
     | None => mret tt
     end
   else mret tt);;
  mret status.

Definition putCommit (i : nat) (h : Header) (body : bytes) : prog unit :=
  '(sum, err) ⇐ must (Body.DecodePutCommit body);
  _ ⇐ consume i h;
  match err with
  | Some e => respondStatus i h (Body.ErrorStatus (Body.BodyErr e))
  | None =>
      o ⇐ locked i (onSession i (commitLocked (RequestID h)));
      match o with
      | None => respondStatus i h StatusErrStaleStream
      | Some st =>
          if negb (received st =? totalLen st) then respondStatus i h StatusErrShortStream else
          if negb (digestOf st =? sum) then respondStatus i h StatusErrChecksum else
          status ← commitStream i st sum;
          respondStatus i h status
      end
  end.

Definition putAbort (i : nat) (h : Header) : prog unit :=
  _ ⇐ consume i h;
  o ⇐ locked i (onSession i (abortLocked (RequestID h)));
  respondStatus i h (match o with
                     | Some st => if tombstoned st then StatusErrStaleStream else StatusOK
                     | None => StatusErrStaleStream
                     end).

Definition handlePutStream (i : nat) (h : Header) (body : bytes) : prog unit :=
  let sub := SubOp (Flags h) in
  if sub =? PutBegin then putBegin i h body
  else if sub =? PutChunk then putChunk i h body
  else if sub =? PutCommit then putCommit i h body
  else if sub =? PutAbort then putAbort i h
  else _ ⇐ consume i h; respondStatus i h StatusErrUnsupported.

(** ** Dispatch *)

Definition HandleFrame (i : nat) (h : Header) (body : bytes) : prog unit :=
  auth ⇐ ofSession i authed;
  if negb auth then
    if Opcode h =? OpHello then handleHello i h body
    else _ ⇐ consume i h; Abort i StatusErrAuthRequired
  else if negb (Z.land (Flags h) FlagResp =? 0) then _ ⇐ consume i h; respondStatus i h StatusErrMalformed
  else if Opcode h =? OpNop then _ ⇐ consume i h; mret tt
  else if Opcode h =? OpHello then _ ⇐ consume i h; respondStatus i h StatusErrMalformed
  else if Opcode h =? OpBatchExists then handleBatchExists i h body
  else if Opcode h =? OpBatchGet then handleBatchGet i h body
  else if Opcode h =? OpPutStream then handlePutStream i h body
  else if (Opcode h =? OpTouchLease) || (Opcode h =? OpPin) then handleKeyStatusVerb i h body
  else if Opcode h =? OpDelete then handleDelete i h body
  else if Opcode h =? OpStats then handleStats i h body
  else _ ⇐ consume i h; respondStatus i h StatusErrUnsupported.

(** ** The reaper *)

Definition reapTimeout : Z :=
  (if StreamTimeoutMS cfg =? 0 then DefaultStreamTimeoutMS else StreamTimeoutMS cfg) * 1000000.

Definition sweepOne (now timeout : Z) (x : session) (id : Z) : session :=
  match streams x !! id with
  | None => x
  | Some st =>
      if tombstoned st then
        if timeout <? now - tombstonedAt st then set_table (delete id (streams x)) (liveStreams x) (stagedBytes x) x else x
      else if timeout <? now - lastActive st then tombstoneLive id st now x else x
  end.

Definition sweepStreams (now timeout : Z) (x : session) : session :=
  foldl (sweepOne now timeout) x (map_to_list (streams x)).*1.

(** One tick of the reaper, which has exited once the connection is done. *)
Definition reaperTick (i : nat) : prog unit :=
  gone ⇐ ofConn i (fun c => bool_decide (done c = EDone));
  if gone : bool then mret tt else
  _ ⇐ locked i (now ← nowFn; modSession i (sweepStreams now reapTimeout));
  mret tt.

End Session.

End Session.
