(* ===== verification/Server.v ===== *)
(** The server as a whole: [internal/server/server.go] and the accept path of
    [internal/transport/listener.go]; and everything that can happen to it.

    A [Drain] waits for connections with a deadline; when the deadline passes is
    the environment's choice. *)

From Stdlib Require Import ZArith Lia.
From coqutil Require Import Byte Word.LittleEndianList.
From stdpp Require Import base numbers list gmap sets strings.
From S2P Require Import Prelude.
From S2P Require Import Conc.
From S2P Require Import Wire.
From S2P Require Import Bodies.
From S2P Require Import Tenant.
From S2P Require Import Credit.
From S2P Require Import ServerState.
From S2P Require Import Transport.
From S2P Require Import Session.
Import Conc Ops Hdr Srv Transport Session.
Open Scope Z_scope.
Open Scope conc_scope.

Module Server.

Section Server.
Context {St : Type} `{BS : !BlockStore St} `{XX : !Xxh3} `{HA : !Hasher} `{NE : !Net}.
Context (cfg : Config) (iw : Z) (sha256 : bytes -> bytes) (scopeStatsToNS : bytes -> Z -> bytes).

Abbreviation S := (Server St hold hasher).
Abbreviation act := (act S).
Abbreviation prog := (prog S).

(** ** Accepting *)

(** [Listen] floors the cap before HELLO. *)
Definition preNegCap : Z := if PreNegCap cfg <? Body.MaxHelloBody then Body.MaxHelloBody else PreNegCap cfg.

(** [startConn]; the loops run from here on. *)
Definition startConn (inp : bytes) : Conn hold :=
  mkConn inp (Credit.SetWindow preNegCap preNegCap Credit.zeroWindow) preNegCap [] false RIdle WWaiting 0 [] EWaiting [] [].

(** [Listener.Accept] of a peer that will send [inp]: the new connection; [None]
    when the peer was refused, or there is no listener any more. *)
Definition Accept (inp : bytes) : act (option nat) := fun s =>
  if 0 <? MaxConns cfg then
    if MaxConns cfg <? live s + 1 then Next None (set_refused (refused s + 1) s)
    else
      let i := nextConn s in
      Next (Some i) (set_live (live s + 1) (set_slots ({[i]} ∪ slots s) (set_nextConn (Datatypes.S i)
        (set_conns (<[i := startConn inp]> (conns s)) (set_sessions (<[i := newSession cfg]> (sessions s)) s)))))
  else
    let i := nextConn s in
    Next (Some i) (set_nextConn (Datatypes.S i)
      (set_conns (<[i := startConn inp]> (conns s)) (set_sessions (<[i := newSession cfg]> (sessions s)) s))).

Definition track (i : nat) : act bool := fun s =>
  if draining s then Next false s else Next true (set_tracked ({[i]} ∪ tracked s) s).

Definition untrack (i : nat) : act unit := put (fun s => set_tracked (tracked s ∖ {[i]}) s).

(** [<-c.Done()]. *)
Definition waitDone (i : nat) : act unit := fun s =>
  match conns s !! i with
  | Some c => if decide (done c = EDone) then Next tt s else Blocked
  | None => Blocked
  end.

(** The accept loop is between two calls of [Accept], in one round of its body,
    or has returned ([acceptDone] is closed). A peer arrives. *)
Definition acceptRound (inp : bytes) : prog unit :=
  go ⇐ (fun s => match accepting s with
                 | AWaiting => if listening s then Next true (set_accepting ABusy s) else Next false s
                 | _ => Next false s
                 end);
  if negb go then mret tt else
  o ⇐ Accept inp;
  match o with
  | None => _ ⇐ put (set_accepting AWaiting); mret tt
  | Some i =>
      ok ⇐ track i;
      if ok : bool then _ ⇐ put (set_accepting AWaiting); mret tt
      else
        _ ⇐ Close i;
        _ ⇐ waitDone i;
        _ ⇐ put (set_accepting AEnded);
        mret tt
  end.

(** [Accept] fails because the listener is closed. *)
Definition acceptFails : act unit := fun s =>
  match accepting s with
  | AWaiting => if listening s then Next tt s else Next tt (set_accepting AEnded s)
  | _ => Next tt s
  end.

(** [reapOnClose], and the goroutine that frees the slot of a finished
    connection. *)
Definition reapOnClose (i : nat) : prog unit := _ ⇐ waitDone i; _ ⇐ untrack i; mret tt.
Definition freeSlot (i : nat) : act unit := fun s =>
  match conns s !! i with
  | Some c =>
      if bool_decide (i ∈ slots s) then
        if decide (done c = EDone) then Next tt (set_live (live s - 1) (set_slots (slots s ∖ {[i]}) s)) else Blocked
      else Next tt s
  | None => Next tt s
  end.

(** ** Draining *)

(** [select { case <-c.Done(): ; case <-ctx.Done(): return false }]; either case
    may be taken when both are ready. *)
Definition doneOr (ready : S -> option bool) : act bool := fun s =>
  match ready s with
  | None => Blocked
  | Some true =>
      if ioFails (tick s) && pick (tick s) then Next false (set_tick (Datatypes.S (tick s)) s) else Next true s
  | Some false => if ioFails (tick s) then Next false (set_tick (Datatypes.S (tick s)) s) else Blocked
  end.

Definition connDone (i : nat) (s : S) : option bool := (fun c => bool_decide (done c = EDone)) <$> conns s !! i.

Fixpoint waitAll (cs : list nat) : prog bool :=
  match cs with
  | [] => mret true
  | i :: cs => ok ⇐ doneOr (connDone i); if ok : bool then waitAll cs else mret false
  end.

Definition Drain : prog bool :=
  _ ⇐ put (set_listening false);
  cs ⇐ (fun s => Next (elements (tracked s)) (set_draining true s));
  forEach (fun i => _ ⇐ Close i; mret tt) cs;;
  ok ← waitAll cs;
  if negb ok then mret false else
  ok ⇐ doneOr (fun s => Some (bool_decide (accepting s = AEnded)));
  mret ok.

(** The end of [main]: the store is closed, and its memory unmapped, only after a
    drain that saw every connection finish. *)
Definition shutdown : prog bool :=
  ok ← Drain;
  if negb ok then mret false else _ ⇐ put (set_storeClosed true); mret true.

(** ** What happens to the server *)

Inductive event :=
| EAccept (inp : bytes)                  (* a peer connects; what it will send *)
| EAcceptFails
| ERead (i : nat)                        (* the read goroutine runs *)
| EWrite (i : nat) (case : writerCase)   (* an iteration of the write loop *)
| EWriteDrain (i : nat)
| ETeardown (i : nat)
| EReap (i : nat)                        (* the reaper's tick *)
| EClose (i : nat)
| EReapOnClose (i : nat)
| EFreeSlot (i : nat)
| ECancel                                (* the context of [Start] is cancelled: the listener closes *)
| ERegister (id : Z) (name : string) (hash : bytes) (dram nvme s3 pin : Z)   (* a tenant is added *)
| EShutdown.

Inductive reply := RDone | RShutdown (clean : bool).

Definition handler (e : event) : prog reply :=
  match e with
  | EAccept inp => acceptRound inp;; mret RDone
  | EAcceptFails => _ ⇐ acceptFails; mret RDone
  | ERead i => readLoop (HandleFrame cfg iw sha256 scopeStatsToNS) i;; mret RDone
  | EWrite i case => writeIteration cfg i case;; mret RDone
  | EWriteDrain i => drainRound cfg i;; mret RDone
  | ETeardown i => teardown i;; mret RDone
  | EReap i => reaperTick cfg i;; mret RDone
  | EClose i => _ ⇐ Close i; mret RDone
  | EReapOnClose i => reapOnClose i;; mret RDone
  | EFreeSlot i => _ ⇐ freeSlot i; mret RDone
  | ECancel => _ ⇐ put (set_listening false); mret RDone
  | ERegister id name hash q0 q1 q2 pin =>
      _ ⇐ put (fun s => set_reg (Registry.Add (reg s) (Registry.mkNamespace id name hash [q0; q1; q2] pin)).1 s);
      mret RDone
  | EShutdown => ok ← shutdown; mret (RShutdown ok)
  end.

(** A server that has just started to listen. *)
Definition New (st : St) (r : Registry.Registry) : S :=
  mkServer st r ∅ ∅ O ∅ false AWaiting true 0 ∅ 0 false [] [] [] false O.

End Server.

End Server.
