(* ===== verification/ServerInv.v ===== *)
(** The invariant of a server under interleaving goroutines.

    A token is what one goroutine owns: being the read loop of a connection, with
    the bytes it has debited and the responses it has made to the frame at hand;
    an iteration of a write loop; the final drain; the lock of a stream table; a
    hold on a block that is in nobody's queue; the accept loop's round; a fact that
    stays true. *)

From Stdlib Require Import ZArith Lia.
From coqutil Require Import Byte Word.LittleEndianList.
From stdpp Require Import base numbers list gmap sets strings.
From S2P Require Import Prelude.
From S2P Require Import Conc.
From S2P Require Import Wire.
From S2P Require Import Bodies.
From S2P Require Import Tenant.
From S2P Require Import Credit.
From S2P Require Import ServerState.
From S2P Require Import Transport.
From S2P Require Import Session.
From S2P Require Import Server.
Import Conc Ops Hdr Srv Transport Session Server.
Open Scope Z_scope.

(** What is assumed of the configuration: what [Validate] checks of the limits. *)
Record config_ok (cfg : Config) : Prop := mkConfigOk {
  co_limits : BodyFacts.limits_ok (WireLimits cfg);
  co_frame : Body.MaxFrameLen (WireLimits cfg) <= CapMaxFrameLen;
  co_preneg : 0 <= PreNegCap cfg <= CapMaxFrameLen
}.

Module SrvInv.

(** ** Requests and their responses *)

(** [f] answers the request [h]. *)
Definition echoes (h f : Header) : Prop :=
  Opcode f = Opcode h /\ RequestID f = RequestID h /\ Z.testbit (Flags f) 0 = true.

Definition more (f : Header) : bool := Z.testbit (Flags f) 1.

(** A report after which the connection closes. *)
Definition fatalReport (f : Header) : Prop := Z.testbit (Flags f) 2 = true.

(** Frames that may go unanswered: NOP and the chunks of a PUT. *)
Definition quiet (h : Header) : Prop :=
  Opcode h = OpNop \/ (Opcode h = OpPutStream /\ SubOp (Flags h) = PutChunk).

(** The responses to one frame: none to a quiet one; a fatal report; or a
    sequence that echoes the request, in which all but the last say that more
    follow. *)
Definition answers (h : Header) (fs : list Header) : Prop :=
  (fs = [] /\ quiet h) \/ (exists f, fs = [f] /\ fatalReport f) \/
  (exists fs' f, fs = fs' ++ [f] /\ Forall (fun g => echoes h g /\ more g = true) fs' /\ echoes h f /\ more f = false).

(** The responses made so far: those to the frames that are done with, and
    [part]. *)
Definition answered (hs : list Header) (fs part : list Header) : Prop :=
  exists fss, Forall2 answers hs fss /\ fs = concat fss ++ part.

Lemma answered_part hs fs part f : answered hs fs part -> answered hs (fs ++ [f]) (part ++ [f]).
Proof. intros (fss & Hf & ->). exists fss. by rewrite app_assoc. Qed.

Lemma answered_served hs fs part h : answered hs fs part -> answers h part -> answered (hs ++ [h]) fs [].
Proof.
  intros (fss & Hf & ->) Ha. exists (fss ++ [part]). split; [by apply Forall2_app; [|constructor]|].
  rewrite concat_app. cbn. by rewrite !app_nil_r.
Qed.

(** ** Tokens *)

Record reading := mkReading {
  rd_debit : Z;                               (* bytes debited and not granted *)
  rd_input : bytes;
  rd_auth : option (Z * Body.Limits);         (* the namespace and the limits agreed on *)
  rd_cap : Z;                                 (* the cap on payloads *)
  rd_part : list Header                       (* responses to the frame at hand *)
}.

(** In the lock's section: a request id seen without a live stream, and whether
    there was room for another stream. *)
Record locking := mkLocking { lk_free : option Z; lk_room : bool }.

(** What a goroutine has seen and can rely on: a connection is finished; the
    server drains, and [cs] has all the connections it tracks; the accept loop
    has returned; the connection was authenticated as [id]. *)
Inductive fact := Gone (i : nat) | Draining (cs : list nat) | Stopped | Cred (i : nat) (id : Z).

(** [TEnd]: the final drain, with a bound on what is queued. *)
Inductive tok (H : Type) :=
| TReader (i : nat) (r : reading)
| TWriter (i : nat)
| TEnd (i n : nat)
| TLock (i : nat) (k : locking)
| THold (i : nat) (h : H)
| TAccept (o : option nat)
| TFact (f : fact).
#[global] Arguments TReader {H} i r.
#[global] Arguments TWriter {H} i.
#[global] Arguments TEnd {H} i n.
#[global] Arguments TLock {H} i k.
#[global] Arguments THold {H} i h.
#[global] Arguments TAccept {H} o.
#[global] Arguments TFact {H} f.

Section Tokens.
Context {H : Type}.
Implicit Types l : list (tok H).

Definition readers (i : nat) l : list reading :=
  omap (fun t => match t with TReader j r => if decide (j = i) then Some r else None | _ => None end) l.
Definition writers (i : nat) l : list unit :=
  omap (fun t => match t with TWriter j => if decide (j = i) then Some tt else None | _ => None end) l.
Definition enders (i : nat) l : list nat :=
  omap (fun t => match t with TEnd j n => if decide (j = i) then Some n else None | _ => None end) l.
Definition lockers (i : nat) l : list locking :=
  omap (fun t => match t with TLock j k => if decide (j = i) then Some k else None | _ => None end) l.
Definition inHand l : list (nat * H) := omap (fun t => match t with THold i h => Some (i, h) | _ => None end) l.
Definition accepts l : list (option nat) := omap (fun t => match t with TAccept o => Some o | _ => None end) l.

End Tokens.

(** ** One connection *)

Definition authOf {D} (x : session D) : option (Z * Body.Limits) := if authed x then Some (ns x, limits x) else None.

(** [name] and [token] were sent in a HELLO frame. *)
Definition presented (iw : Z) (inp : bytes) (name : string) (token : bytes) : Prop :=
  exists pre hb body post cap h err req,
    inp = pre ++ hb ++ body ++ post /\ ParseHeader hb cap = Some (h, err) /\ Opcode h = OpHello /\
    Body.DecodeHelloReq iw body = Some (req, None) /\ goString (Body.Namespace req) = name /\ Body.Token req = token.

Section Peer.
Context {St : Type} `{BS : !BlockStore St} `{XX : !Xxh3} `{HA : !Hasher} `{NE : !Net}.
Context (cfg : Config) (iw : Z) (sha256 : bytes -> bytes).

Abbreviation Conn := (Conn hold).
Abbreviation session := (session hasher).
Abbreviation putStream := (putStream hasher).

(** The digest covers exactly the staged bytes. *)
Definition digest_ok (st : putStream) : Prop :=
  match buf st with
  | None => digest st = None /\ received st = 0
  | Some (b, c) =>
      b <> [] /\ received st = len b /\ len b <= totalLen st /\ c = totalLen st /\
      match digest st with
      | Some d => exists l, d = foldl hWrite hNew l /\ concat l = b
      | None => len b = totalLen st /\ oneShot st = xxh3 b
      end
  end.

(** A live stream holds what it received, at most what it declared; a tombstone
    holds nothing. *)
Definition stream_ok (x : session) (st : putStream) : Prop :=
  0 <= totalLen st <= Body.MaxBlobLen (limits x) /\ p_ns st = ns x /\
  if tombstoned st then buf st = None /\ digest st = None else digest_ok st.

Definition liveOne (st : putStream) : Z := if tombstoned st then 0 else 1.

Record table_ok (x : session) : Prop := mkTableOk {
  tb_streams : forall id st, streams x !! id = Some st -> authed x = true /\ stream_ok x st;
  tb_live : liveStreams x = msum liveOne (streams x);
  tb_staged : stagedBytes x = msum staged (streams x);
  tb_liveCap : liveStreams x <= maxLiveStreams;
  tb_entries : Z.of_nat (size (streams x)) <= maxStreamEntries;
  tb_stagedCap : stagedBytes x <= maxStagedPerConn
}.

Definition limits_agreed (x : session) : Prop :=
  if authed x then BodyFacts.limits_ok (limits x) /\ Body.MaxFrameLen (limits x) <= CapMaxFrameLen /\
                   Body.MaxBlobLen (limits x) + Body.GetRespHeaderSize 1 <= Body.MaxFrameLen (limits x)
  else limits x = WireLimits cfg.

Definition lock_ok (x : session) (k : locking) : Prop :=
  (forall id, lk_free k = Some id -> liveStream id x = false) /\
  (lk_room k = true -> liveStreams x < maxLiveStreams /\ Z.of_nat (size (streams x)) < maxStreamEntries).

(** The tokens about a connection agree with it. *)
Record peer_ok (rs : list reading) (ws : list unit) (es : list nat) (ks : list locking) (c : Conn) (x : session) : Prop := mkPeerOk {
  pr_reader : exists n part, Credit.books n (sent c) (credit c) /\ answered (served c) (emitted c) part /\
    if decide (reader c = RRunning) then rs = [mkReading n (input c) (authOf x) (maxPayload c) part]
    else rs = [] /\ n = 0 /\ (reader c = REnded \/ part = []) /\ (part = [] \/ exists f, part = [f] /\ fatalReport f);
  pr_frame : maxPayload c = Credit.maxFrame (credit c) /\ 0 <= maxPayload c <= CapMaxFrameLen;
  pr_writer : ws = if decide (writer c = WBusy \/ writer c = WDrainBusy) then [tt] else [];
  pr_ender : if decide (done c = EDraining) then exists n, es = [n] /\ (length (wq c) <= n)%nat else es = [];
  pr_ended : done c <> EWaiting -> reader c = REnded /\ writer c = WEnded;
  pr_done : done c = EDone -> wq c = [];
  pr_queue : len (wq c) <= queueCap /\ Forall (fun r => length (Key (w_hdr r)) = 32%nat) (wq c);
  pr_lock : if streamMu x then exists k, ks = [k] /\ lock_ok x k else ks = [];
  pr_limits : limits_agreed x;
  pr_table : table_ok x
}.

(** ** The server *)

Abbreviation S := (Server St hold hasher).

Definition queuedOf (p : nat * Conn) : list (nat * hold) := (fun h => (p.1, h)) <$> concat (w_release <$> wq p.2).
Definition queued (m : gmap nat Conn) : list (nat * hold) := concat (queuedOf <$> map_to_list m).

(** The registry has accepted, for [id], credentials sent in [inp]. *)
Definition credited (r : Registry.Registry) (inp : bytes) (id : Z) : Prop :=
  exists name token, presented iw inp name token /\ Registry.Authenticate sha256 r name token = (id, true).

(** A block that is put has the checksum it is put with. *)
Definition call_ok (lim : Body.Limits) (c : call) : Prop :=
  match c with CPut _ _ data sum => xxh3 data = sum /\ len data <= Body.MaxBlobLen lim | _ => True end.

Definition fact_ok (s : S) (f : fact) : Prop :=
  match f with
  | Gone i => exists c, conns s !! i = Some c /\ done c = EDone
  | Draining cs => draining s = true /\ forall i, i ∈ tracked s -> i ∈ cs
  | Stopped => accepting s = AEnded
  | Cred i id => exists c, conns s !! i = Some c /\ credited (reg s) (input c) id
  end.

Definition all_done (s : S) : Prop := forall i c, conns s !! i = Some c -> done c = EDone.

Record Inv (l : list (tok hold)) (s : S) : Prop := mkInv {
  iv_dom : forall i, is_Some (conns s !! i) <-> is_Some (sessions s !! i);
  iv_next : forall i, is_Some (conns s !! i) <-> (i < nextConn s)%nat;
  iv_peer : forall i c x, conns s !! i = Some c -> sessions s !! i = Some x ->
    peer_ok (readers i l) (writers i l) (enders i l) (lockers i l) c x;
  iv_none : forall i, conns s !! i = None -> readers i l = [] /\ writers i l = [] /\ enders i l = [] /\ lockers i l = [];
  iv_reg : Registry.reg_ok (reg s);
  iv_auth : forall i c x, conns s !! i = Some c -> sessions s !! i = Some x -> authed x = true ->
    credited (reg s) (input c) (ns x);
  iv_calls : forall i k, (i, k) ∈ calls s -> exists x, sessions s !! i = Some x /\ authed x = true /\ callNS k = ns x /\ call_ok (limits x) k;
  iv_holds : acquired s ≡ₚ released s ++ queued (conns s) ++ inHand l;
  iv_accept : match accepting s with ABusy => exists o, accepts l = [o] | _ => accepts l = [] end;
  iv_tracked : forall i c, conns s !! i = Some c -> done c <> EDone -> i ∈ tracked s \/ Some i ∈ accepts l;
  iv_facts : forall f, TFact f ∈ l -> fact_ok s f;
  iv_closed : storeClosed s = true -> accepting s = AEnded /\ all_done s;
  iv_touched : touched s = false
}.

End Peer.

End SrvInv.
