(* ===== verification/ServerTable.v ===== *)
(** The table of PUT streams of one session: each operation on it keeps its
    accounts, its caps and the digests of what is staged. *)

From Stdlib Require Import ZArith Lia.
From coqutil Require Import Byte Word.LittleEndianList.
From stdpp Require Import base numbers list gmap sets strings.
From S2P Require Import Prelude.
From S2P Require Import Conc.
From S2P Require Import Wire.
From S2P Require Import Bodies.
From S2P Require Import Tenant.
From S2P Require Import Credit.
From S2P Require Import ServerState.
From S2P Require Import Transport.
From S2P Require Import Session.
From S2P Require Import Server.
From S2P Require Import ServerInv.
Import Conc Ops Hdr Srv Transport Session Server SrvInv.
Open Scope Z_scope.

Module SrvTable.

Section Table.
Context {St : Type} `{BS : !BlockStore St} `{XX : !Xxh3} `{HA : !Hasher} `{NE : !Net}.

Abbreviation session := (session hasher).
Abbreviation putStream := (putStream hasher).

(** What the operations leave alone. *)
Definition kept (x x' : session) : Prop :=
  authed x' = authed x /\ ns x' = ns x /\ limits x' = limits x /\ streamMu x' = streamMu x.

Lemma staged_nonneg (st : putStream) : 0 <= staged st.
Proof. unfold staged. destruct (buf st) as [[b c]|]; [apply len_nonneg|lia]. Qed.

Lemma live_bounds (st : putStream) : 0 <= liveOne st <= 1.
Proof. unfold liveOne. destruct (tombstoned st); lia. Qed.

Lemma size_delete_le (m : gmap Z putStream) id : (size (delete id m) <= size m)%nat.
Proof. destruct (m !! id) as [st|] eqn:E; [rewrite map_size_delete_Some by eauto; lia|by rewrite delete_id]. Qed.

Lemma table_delete (x : session) id st l b :
  table_ok x -> streams x !! id = Some st -> l = liveStreams x - liveOne st -> b = stagedBytes x - staged st ->
  table_ok (set_table (delete id (streams x)) l b x).
Proof.
  intros [Hs Hl Hb Hlc He Hbc] Hid -> ->. pose proof (staged_nonneg st). pose proof (live_bounds st).
  pose proof (size_delete_le (streams x) id). split; cbn; try lia.
  - intros k s. rewrite lookup_delete_Some. intros [_ Hk]. exact (Hs k s Hk).
  - rewrite Hl, (msum_delete _ _ _ _ Hid). lia.
  - rewrite Hb, (msum_delete _ _ _ _ Hid). lia.
Qed.

Lemma table_replace (x : session) id st st' l b :
  table_ok x -> streams x !! id = Some st -> stream_ok x st' -> liveOne st' <= liveOne st ->
  l = liveStreams x - liveOne st + liveOne st' -> b = stagedBytes x - staged st + staged st' -> b <= maxStagedPerConn ->
  table_ok (set_table (<[id := st']> (streams x)) l b x).
Proof.
  intros [Hs Hl Hb Hlc He Hbc] Hid Hok Hle -> -> Hcap. split; cbn; try lia.
  - intros k s. rewrite lookup_insert_Some. intros [[<- <-]|[_ Hk]]; [by split; [apply (Hs _ _ Hid)|]|exact (Hs k s Hk)].
  - rewrite (msum_update _ _ _ _ _ Hid). lia.
  - rewrite (msum_update _ _ _ _ _ Hid). lia.
  - by rewrite map_size_insert_Some by eauto.
Qed.

Lemma table_tomb (x : session) id st now :
  table_ok x -> streams x !! id = Some st -> tombstoned st = false -> table_ok (tombstoneLive id st now x).
Proof.
  intros Ht Hid Hst. destruct (tb_streams _ Ht id st Hid) as [_ (Hlen & Hns & _)].
  pose proof (staged_nonneg st). pose proof (tb_stagedCap _ Ht).
  eapply table_replace; try done; unfold liveOne; cbn; rewrite ?Hst; lia.
Qed.

Lemma table_insert (x : session) h b now :
  table_ok x -> authed x = true -> liveStream (RequestID h) x = false -> 0 <= Body.TotalLen b <= Body.MaxBlobLen (limits x) ->
  liveStreams x < maxLiveStreams -> Z.of_nat (size (streams x)) < maxStreamEntries -> table_ok (insertStream h b now x).
Proof.
  intros [Hs Hl Hb Hlc He Hbc] Ha Hf Hlen Hroom Hsz. unfold insertStream, liveStream in *.
  assert (forall f : putStream -> Z, (forall st, streams x !! RequestID h = Some st -> f st = 0) -> forall st',
    msum f (<[RequestID h := st']> (streams x)) = msum f (streams x) + f st') as Hsum.
  { intros f Hz st'. destruct (streams x !! RequestID h) as [st|] eqn:E; [rewrite (msum_update _ _ _ _ _ E), (Hz st eq_refl)|rewrite msum_insert by done]; lia. }
  assert (forall st, streams x !! RequestID h = Some st -> liveOne st = 0 /\ staged st = 0) as Hz.
  { intros st E. rewrite E in Hf. destruct (Hs _ _ E) as [_ (_ & _ & Hst)]. unfold liveOne, staged.
    destruct (tombstoned st); [|done]. by destruct Hst as [-> _]. }
  split; cbn; try done; try lia.
  - intros k s. rewrite lookup_insert_Some. intros [[<- <-]|[_ Hk]]; [done|exact (Hs k s Hk)].
  - rewrite Hsum by apply Hz. cbn. lia.
  - rewrite Hsum by apply Hz. cbn. lia.
  - destruct (streams x !! RequestID h) as [st|] eqn:E; [rewrite map_size_insert_Some by eauto|rewrite map_size_insert_None by done]; lia.
Qed.

(** A chunk that fits extends the staged bytes and their digest. *)
Lemma append_ok (st : putStream) body now :
  digest_ok st -> tombstoned st = false -> 0 < len body -> received st + len body <= totalLen st -> totalLen st < 2 ^ 32 ->
  digest_ok (appendChunk body (len body) now st) /\ staged (appendChunk body (len body) now st) = staged st + len body.
Proof.
  intros Hd Ht Hb Hfit Hmax. assert (0 <= received st) as Hr.
  { revert Hd. unfold digest_ok. destruct (buf st) as [[b c]|]; [intros (_ & -> & _); apply len_nonneg|intros [_ ->]; lia]. }
  assert (body <> []) as Hne by (by intros ->).
  unfold digest_ok, appendChunk, staged in *. rewrite (u32_small (received st + len body)) by lia.
  destruct (buf st) as [[b c]|] eqn:Eb.
  - destruct Hd as (Hnb & Er & Hle & -> & Hdig). rewrite Er in *. destruct (digest st) as [d|].
    + destruct Hdig as (l & -> & <-). cbn. rewrite !len_app. split; [|done]. split_and!; try lia.
      * by destruct (concat l).
      * exists (l ++ [body]). rewrite foldl_app, concat_app. cbn. by rewrite app_nil_r.
    + destruct Hdig as [E _]. lia.
  - destruct Hd as [-> Er]. rewrite Er in *. rewrite Z.add_0_l in *. destruct (len body =? totalLen st) eqn:E; cbn.
    + apply Z.eqb_eq in E. split; [|done]. split_and!; try done; lia.
    + split; [|done]. split_and!; try done; try lia. exists [body]. cbn. by rewrite app_nil_r.
Qed.

Lemma chunk_ok (x : session) h body now :
  table_ok x -> len body = PayloadLen h -> PayloadLen h <= CapMaxFrameLen ->
  (authed x = true -> Body.MaxBlobLen (limits x) <= CapMaxFrameLen) ->
  table_ok (chunkLocked h body now x).
Proof.
  intros Ht Hlen Hcap Hblob. unfold chunkLocked. destruct (streams x !! RequestID h) as [st|] eqn:E; [|done].
  destruct (tombstoned st) eqn:Et; [done|]. destruct (PayloadLen h =? 0) eqn:E0; [done|].
  destruct (totalLen st <? u32 (received st + PayloadLen h)) eqn:E1; [by apply table_tomb|].
  destruct (maxStagedPerConn <? stagedBytes x + PayloadLen h) eqn:E2; [by apply table_tomb|].
  destruct (tb_streams _ Ht _ _ E) as [Ha (Htl & Hns & Hd)]. specialize (Hblob Ha). rewrite Et in Hd. pose proof (len_nonneg body).
  change CapMaxFrameLen with (2 ^ 30) in *.
  assert (0 <= received st <= totalLen st) as Hrec.
  { revert Hd. unfold digest_ok. destruct (buf st) as [[b c]|]; [intros (_ & -> & Hle & _); pose proof (len_nonneg b); lia|intros [_ ->]; lia]. }
  rewrite u32_small in E1 by lia.
  destruct (append_ok st body now Hd Et) as [Hd' Hst]; [lia..|]. rewrite <- Hlen in *.
  assert (tombstoned (appendChunk body (len body) now st) = false /\ totalLen (appendChunk body (len body) now st) = totalLen st /\
    p_ns (appendChunk body (len body) now st) = p_ns st) as (Et' & Etl & Epn).
  { unfold appendChunk. destruct (buf st) as [[b c]|], (digest st); repeat case_if; done. }
  eapply (table_replace x _ st); try done; unfold stream_ok, liveOne; rewrite ?Et', ?Etl, ?Epn, ?Et, ?Hst; try done; lia.
Qed.

Lemma chunk_kept (x : session) h body now : kept x (chunkLocked h body now x).
Proof. unfold chunkLocked. destruct (streams x !! RequestID h); [|done]. by repeat case_if. Qed.

(** A COMMIT takes the stream out; what it takes was whole. *)
Lemma commit_ok (x : session) id :
  table_ok x -> table_ok (commitLocked id x).2 /\ kept x (commitLocked id x).2 /\
    forall st, (commitLocked id x).1 = Some st -> authed x = true /\ tombstoned st = false /\ stream_ok x st.
Proof.
  intros Ht. unfold commitLocked. destruct (streams x !! id) as [st|] eqn:E.
  - destruct (tb_streams _ Ht id st E) as [Ha Hst]. assert (staged st = 0 \/ tombstoned st = false) as Hz.
    { destruct Hst as (_ & _ & Hst). unfold staged. destruct (tombstoned st); [|by right]. left. by destruct Hst as [-> _]. }
    destruct (tombstoned st) eqn:Et; cbn; (split; [|split; [done|]]).
    + destruct Hz as [Hz|]; [|done]. eapply table_delete; try done; unfold liveOne; rewrite ?Et; lia.
    + done.
    + eapply table_delete; try done; unfold liveOne; by rewrite Et.
    + by intros ? [= <-].
  - cbn. split; [|done]. rewrite delete_id by done. by destruct x, Ht.
Qed.

Lemma abort_ok (x : session) id : table_ok x -> table_ok (abortLocked id x).2 /\ kept x (abortLocked id x).2.
Proof.
  intros Ht. unfold abortLocked. destruct (streams x !! id) as [st|] eqn:E; [|done]. cbn. split; [|done].
  eapply table_delete; try done. unfold liveOne. destruct (tombstoned st); lia.
Qed.

Lemma kept_trans (x y z : session) : kept x y -> kept y z -> kept x z.
Proof. unfold kept. intuition congruence. Qed.

Lemma sweepOne_ok now timeout (x : session) id : table_ok x -> table_ok (sweepOne now timeout x id) /\ kept x (sweepOne now timeout x id).
Proof.
  intros Ht. unfold sweepOne. destruct (streams x !! id) as [st|] eqn:E; [|done]. destruct (tombstoned st) eqn:Et.
  - case_if; [|done]. split; [|done]. destruct (tb_streams _ Ht id st E) as [_ (_ & _ & Hst)]. rewrite Et in Hst.
    destruct Hst as [Hbuf _]. eapply table_delete; try done; unfold liveOne, staged; rewrite ?Et, ?Hbuf; lia.
  - case_if; [|done]. split; [by apply table_tomb|done].
Qed.

Lemma sweep_ok now timeout (x : session) : table_ok x -> table_ok (sweepStreams now timeout x) /\ kept x (sweepStreams now timeout x).
Proof.
  unfold sweepStreams. generalize ((map_to_list (streams x)).*1) as ids. intros ids. revert x.
  induction ids as [|id ids IH]; intros x Ht; [done|]. cbn. destruct (sweepOne_ok now timeout x id Ht) as [Ht' Hk].
  destruct (IH _ Ht') as [Ht'' Hk']. split; [done|]. by eapply kept_trans.
Qed.

(** The digest a COMMIT checks is the checksum of the staged bytes. *)
Lemma digestOf_ok (st : putStream) :
  digest_ok st -> digestOf st = xxh3 (match buf st with Some (b, _) => b | None => [] end).
Proof.
  unfold digest_ok, digestOf, emptyXXH3. destruct (buf st) as [[b c]|].
  - intros (Hb & -> & _ & _ & Hd). destruct (digest st) as [d|].
    + destruct Hd as (l & -> & <-). apply hSum64_spec.
    + destruct Hd as [_ ->]. pose proof (len_nonneg b). destruct (0 <? len b) eqn:E; [done|]. by destruct b.
  - by intros [-> ->].
Qed.

End Table.
End SrvTable.
