(* ===== verification/ServerActs.v ===== *)
(** What single actions of the server do to its invariant. *)

From Stdlib Require Import ZArith Lia.
From coqutil Require Import Byte Word.LittleEndianList.
From stdpp Require Import base numbers list gmap sets strings.
From S2P Require Import Prelude.
From S2P Require Import Conc.
From S2P Require Import Wire.
From S2P Require Import Bodies.
From S2P Require Import Tenant.
From S2P Require Import Credit.
From S2P Require Import ServerState.
From S2P Require Import Transport.
From S2P Require Import Session.
From S2P Require Import Server.
From S2P Require Import ServerInv.
Import Conc Ops Hdr Srv Transport Session Server SrvInv.
Open Scope Z_scope.

Module SrvActs.

Section Acts.
Context {St : Type} `{BS : !BlockStore St} `{XX : !Xxh3} `{HA : !Hasher} `{NE : !Net}.
Context (cfg : Config) (iw : Z) (sha256 : bytes -> bytes).

Abbreviation S := (Server St hold hasher).
Abbreviation Conn := (Conn hold).
Abbreviation session := (session hasher).
Abbreviation tok := (tok hold).
Abbreviation Inv := (Inv cfg iw sha256).
Abbreviation peer_ok := (peer_ok cfg).

(** ** Tokens *)

Lemma perm_short {A} (l l' : list A) : l ≡ₚ l' -> (length l <= 1)%nat -> l' = l.
Proof.
  intros Hp Hl. destruct l as [|a [|b l]]; [by apply Permutation_nil in Hp|by apply Permutation_singleton_l in Hp|cbn in Hl; lia].
Qed.

Lemma short_if {A} (P : Prop) `{Decision P} (a : A) : (length (if decide P then [a] else []) <= 1)%nat.
Proof. case_decide; cbn; lia. Qed.

Lemma peer_ok_perm rs rs' ws ws' es es' ks ks' c x :
  peer_ok rs ws es ks c x -> rs ≡ₚ rs' -> ws ≡ₚ ws' -> es ≡ₚ es' -> ks ≡ₚ ks' -> peer_ok rs' ws' es' ks' c x.
Proof.
  intros Hp Hr Hw He Hk. destruct Hp as [(n & part & Hb & Ha & Hrs) ? Hws Hes ? ? ? Hks ? ?].
  apply perm_short in Hr as ->; [|destruct (decide (reader c = RRunning)); [by rewrite Hrs; cbn; lia|destruct Hrs as [-> _]; cbn; lia]].
  apply perm_short in Hw as ->; [|rewrite Hws; apply short_if].
  apply perm_short in He as ->; [|destruct (decide (done c = EDraining)); [destruct Hes as (n' & -> & _)|rewrite Hes]; cbn; lia].
  apply perm_short in Hk as ->; [|destruct (streamMu x); [destruct Hks as (k & -> & _)|rewrite Hks]; cbn; lia].
  split; eauto.
Qed.

Lemma tokens_perm (l l' : list tok) i :
  l ≡ₚ l' -> readers i l ≡ₚ readers i l' /\ writers i l ≡ₚ writers i l' /\ enders i l ≡ₚ enders i l' /\
    lockers i l ≡ₚ lockers i l' /\ inHand l ≡ₚ inHand l' /\ accepts l ≡ₚ accepts l'.
Proof. intros Hp. unfold readers, writers, enders, lockers, inHand, accepts. by rewrite Hp. Qed.

Lemma Inv_reorder l l' s : l ≡ₚ l' -> Inv l s -> Inv l' s.
Proof.
  intros Hp [Hd Hn Hpe Hno Hr Ha Hc Hh Hac Ht Hfa Hcl Hto].
  assert (accepts l' = accepts l) as Ea.
  { apply perm_short; [by apply (tokens_perm l l' O Hp)|]. destruct (accepting s); [by rewrite Hac; cbn; lia|destruct Hac as [o ->]; cbn; lia|by rewrite Hac; cbn; lia]. }
  split; try done.
  - intros i c x Hi Hx. eapply peer_ok_perm; [by apply Hpe|by apply (tokens_perm l l' i Hp)..].
  - intros i Hi. destruct (Hno i Hi) as (E1 & E2 & E3 & E4).
    destruct (tokens_perm l l' i Hp) as (P1 & P2 & P3 & P4 & _). rewrite E1 in P1. rewrite E2 in P2. rewrite E3 in P3.
    rewrite E4 in P4. split_and!; symmetry; by apply Permutation_nil_l.
  - destruct (tokens_perm l l' O Hp) as (_ & _ & _ & _ & P & _). etrans; [exact Hh|]. by do 2 apply Permutation_app_head.
  - by rewrite Ea.
  - by rewrite Ea.
  - intros f Hin. apply Hfa. by rewrite Hp.
Qed.

(** ** Updates of one connection *)

Lemma queued_insert (m : gmap nat Conn) i c c' :
  m !! i = Some c -> queuedOf (i, c) ++ queued (<[i := c']> m) ≡ₚ queuedOf (i, c') ++ queued m.
Proof.
  intros Hi. unfold queued. rewrite <- (insert_delete_id m i c Hi) at 2. rewrite <- insert_delete_eq.
  rewrite !map_to_list_insert by apply lookup_delete_eq. cbn. apply Permutation_app_swap_app.
Qed.

(** The parts that actions of connections leave alone. *)
Definition same (s s' : S) : Prop :=
  reg s' = reg s /\ nextConn s' = nextConn s /\ tracked s' = tracked s /\ draining s' = draining s /\
  accepting s' = accepting s /\ storeClosed s' = storeClosed s /\ calls s' = calls s /\ touched s' = touched s.

(** The tokens about other connections are the same. *)
Definition elsewhere (i : nat) (l l' : list tok) : Prop :=
  (forall j, j <> i -> readers j l' = readers j l /\ writers j l' = writers j l /\ enders j l' = enders j l /\ lockers j l' = lockers j l) /\
  accepts l' = accepts l /\ (forall f, TFact f ∈ l' -> TFact f ∈ l).

Lemma Inv_lookup l s i : Inv l s -> i ∈ dom (conns s) -> exists c x, conns s !! i = Some c /\ sessions s !! i = Some x.
Proof.
  intros Hi [c Hc]%elem_of_dom. assert (is_Some (sessions s !! i)) as [x Hx] by (apply (iv_dom _ _ _ _ _ Hi); eauto). eauto.
Qed.

Lemma Inv_at l l' s s' i c x c' x' :
  Inv l s -> same s s' -> conns s !! i = Some c -> sessions s !! i = Some x ->
  conns s' = <[i := c']> (conns s) -> sessions s' = <[i := x']> (sessions s) ->
  elsewhere i l l' -> peer_ok (readers i l') (writers i l') (enders i l') (lockers i l') c' x' ->
  input c' = input c -> (done c = EDone -> done c' = EDone) ->
  authOf x' = authOf x \/ (authed x = false /\ credited iw sha256 (reg s) (input c) (ns x')) ->
  acquired s' ≡ₚ released s' ++ queued (conns s') ++ inHand l' -> Inv l' s'.
Proof.
  intros [Hd Hn Hpe Hno Hr Ha Hc Hh Hac Ht Hfa Hcl Hto] (Er & En & Et & Edr & Eac & Esc & Ecl & Eto) Hi Hx Ec Ex (Hel & Eacc & Hfel) Hp Ein Hdn Eau Hho.
  assert (forall j d, conns s' !! j = Some d -> exists d0, conns s !! j = Some d0 /\ input d = input d0 /\ (done d0 = EDone -> done d = EDone)) as Hcs.
  { intros j d. rewrite Ec, lookup_insert_Some. intros [[<- <-]|[_ ?]]; eauto. }
  split; rewrite ?Er, ?En, ?Et, ?Eac, ?Esc, ?Eacc, ?Eto; try done.
  - intros j. rewrite Ec, Ex. destruct (decide (i = j)) as [<-|Hne]; [by rewrite !lookup_insert_eq|by rewrite !lookup_insert_ne].
  - intros j. rewrite Ec. destruct (decide (i = j)) as [<-|Hne]; [|by rewrite lookup_insert_ne].
    rewrite lookup_insert_eq, <- Hn, Hi. by split.
  - intros j d y. rewrite Ec, Ex. destruct (decide (i = j)) as [<-|Hne].
    + rewrite !lookup_insert_eq. by intros [= <-] [= <-].
    + rewrite !lookup_insert_ne by done. intros Hj Hy. destruct (Hel j) as (-> & -> & -> & ->); [done|]. by apply Hpe.
  - intros j. rewrite Ec. destruct (decide (i = j)) as [<-|Hne]; [by rewrite lookup_insert_eq|]. rewrite lookup_insert_ne by done.
    intros Hj. destruct (Hel j) as (-> & -> & -> & ->); [done|]. by apply Hno.
  - intros j d y Hj Hy Hau. destruct (Hcs j d Hj) as (d0 & Hj0 & -> & _). rewrite Ex, lookup_insert_Some in Hy.
    destruct Hy as [[<- <-]|[_ Hy]]; [|by apply (Ha j d0 y)]. assert (d0 = c) as -> by congruence.
    destruct Eau as [Eau|[_ Hcr]]; [|done]. unfold authOf in Eau. rewrite Hau in Eau.
    destruct (authed x) eqn:E0; [|done]. injection Eau as -> _. by apply (Ha i c x).
  - intros j k Hk. rewrite Ecl in Hk. destruct (Hc j k Hk) as (y0 & Hy0 & Hau & Hns & Hok). rewrite Ex.
    destruct (decide (i = j)) as [<-|Hne]; [|exists y0; by rewrite lookup_insert_ne].
    exists x'. rewrite lookup_insert_eq. assert (y0 = x) as -> by congruence. destruct Eau as [Eau|[? _]]; [|congruence]. unfold authOf in Eau.
    rewrite Hau in Eau. destruct (authed x') eqn:E'; [|done]. injection Eau as -> ->. done.
  - intros j d Hj Hnd. destruct (Hcs j d Hj) as (d0 & Hj0 & _ & Hd0). apply (Ht j d0 Hj0). auto.
  - intros f Hin. specialize (Hfa f (Hfel f Hin)). destruct f as [j|cs| |j id]; cbn in *; rewrite ?Edr, ?Et, ?Eac, ?Er, ?Ec; try done.
    + destruct Hfa as (d & Hjd & Hdd). destruct (decide (i = j)) as [<-|Hne]; [|exists d; by rewrite lookup_insert_ne].
      exists c'. rewrite lookup_insert_eq. split; [done|]. apply Hdn. congruence.
    + destruct Hfa as (d & Hj & Hcd). destruct (decide (i = j)) as [<-|Hne]; [|exists d; by rewrite lookup_insert_ne].
      exists c'. rewrite lookup_insert_eq. split; [done|]. rewrite Ein. congruence.
  - intros E. destruct (Hcl E) as [H1 H2]. split; [done|]. intros j d Hj. destruct (Hcs j d Hj) as (d0 & Hj0 & _ & Hd0). eauto.
Qed.

(** ** Actions, inverted *)

Lemma onConn_inv {B} i (f : Conn -> B * Conn) s b s' :
  onConn i f s = Next b s' -> exists c, conns s !! i = Some c /\ b = (f c).1 /\ s' = set_conns (<[i := (f c).2]> (conns s)) s.
Proof. unfold onConn. destruct (conns s !! i) as [c|]; [|done]. destruct (f c) as [b' c'] eqn:E. intros [= <- <-]. exists c. by rewrite E. Qed.

Lemma onSession_inv {B} i (f : session -> B * session) s b s' :
  onSession i f s = Next b s' ->
  exists x, sessions s !! i = Some x /\ b = (f x).1 /\ s' = set_sessions (<[i := (f x).2]> (sessions s)) s.
Proof. unfold onSession. destruct (sessions s !! i) as [c|]; [|done]. destruct (f c) as [b' c'] eqn:E. intros [= <- <-]. exists c. by rewrite E. Qed.

Lemma ofConn_inv {B} i (f : Conn -> B) s b s' : ofConn i f s = Next b s' -> s' = s /\ exists c, conns s !! i = Some c /\ b = f c.
Proof.
  intros (c & Hc & -> & ->)%onConn_inv. split; [|eauto]. cbn. rewrite insert_id by done. by destruct s.
Qed.

Lemma ofSession_inv {B} i (f : session -> B) s b s' :
  ofSession i f s = Next b s' -> s' = s /\ exists x, sessions s !! i = Some x /\ b = f x.
Proof.
  intros (c & Hc & -> & ->)%onSession_inv. split; [|eauto]. cbn. rewrite insert_id by done. by destruct s.
Qed.

(** Asking the environment, and calls into the store, touch nothing else. *)
Definition only_store (s s' : S) : Prop :=
  same s s' /\ conns s' = conns s /\ sessions s' = sessions s /\ acquired s' = acquired s /\ released s' = released s.

Lemma Inv_only l s s' : Inv l s -> only_store s s' -> Inv l s'.
Proof.
  intros [Hd Hn Hpe Hno Hr Ha Hc Hh Hac Ht Hfa Hcl Hto] ((Er & En & Et & Edr & Eac & Esc & Ecl & Eto) & Ec & Ex & Eq & Ere).
  split; unfold all_done; rewrite ?Er, ?En, ?Et, ?Eac, ?Esc, ?Ec, ?Ex, ?Ecl, ?Eq, ?Ere, ?Eto; try done.
  intros f Hin. specialize (Hfa f Hin). destruct f; cbn in *; by rewrite ?Edr, ?Et, ?Eac, ?Er, ?Ec.
Qed.

Lemma only_ask {B} (f : nat -> B) s b s' : ask f s = Next b s' -> only_store s s'.
Proof. by intros [= <- <-]. Qed.

Lemma only_inStore {B} (m : Conc.act St B) s b s' :
  storeClosed s = false -> inStore m s = Next b s' -> only_store s s'.
Proof.
  unfold inStore. intros E. destruct (m (store s)); try done. intros [= <- <-]. unfold only_store, same. cbn. by rewrite E, orb_false_r.
Qed.

Lemma Inv_conn l l' s i c x c' :
  Inv l s -> conns s !! i = Some c -> sessions s !! i = Some x -> elsewhere i l l' ->
  peer_ok (readers i l') (writers i l') (enders i l') (lockers i l') c' x ->
  input c' = input c -> (done c = EDone -> done c' = EDone) ->
  queuedOf (i, c') ++ inHand l' ≡ₚ queuedOf (i, c) ++ inHand l -> Inv l' (set_conns (<[i := c']> (conns s)) s).
Proof.
  intros Hi Hc Hx Hel Hp Ein Hdn Hq. eapply (Inv_at l l' s _ i c x c' x); try done.
  - cbn. by rewrite insert_id.
  - by left.
  - cbn. rewrite (iv_holds _ _ _ _ _ Hi). f_equiv.
    apply (Permutation_app_inv_l (queuedOf (i, c))). rewrite !(app_assoc (queuedOf (i, c))), (queued_insert _ _ _ c' Hc).
    rewrite <- !app_assoc, !(Permutation_app_swap_app _ (queued (conns s))). by rewrite Hq.
Qed.

Lemma Inv_session l l' s i c x x' :
  Inv l s -> conns s !! i = Some c -> sessions s !! i = Some x -> elsewhere i l l' ->
  peer_ok (readers i l') (writers i l') (enders i l') (lockers i l') c x' ->
  authOf x' = authOf x \/ (authed x = false /\ credited iw sha256 (reg s) (input c) (ns x')) -> inHand l' = inHand l -> Inv l' (set_sessions (<[i := x']> (sessions s)) s).
Proof.
  intros Hi Hc Hx Hel Hp Ea Eh. eapply (Inv_at l l' s _ i c x c x'); try done.
  - cbn. by rewrite insert_id.
  - cbn. rewrite Eh. apply (iv_holds _ _ _ _ _ Hi).
Qed.

Lemma elsewhere_refl i (l : list tok) : elsewhere i l l.
Proof. by split. Qed.

Lemma elsewhere_reader i r r' (l : list tok) : elsewhere i (TReader i r :: l) (TReader i r' :: l).
Proof.
  split; [|split; [done|]].
  - intros j Hj. unfold readers. cbn. by rewrite !decide_False by done.
  - intros f. rewrite !elem_of_cons. naive_solver.
Qed.

(** ** The read loop *)

Lemma reading_cons i r (l : list tok) : readers i (TReader i r :: l) = r :: readers i l.
Proof. unfold readers. cbn. by rewrite decide_True. Qed.

(** What the token of a running read loop says. *)
Lemma Inv_reader l s i r :
  Inv (TReader i r :: l) s -> exists c x, conns s !! i = Some c /\ sessions s !! i = Some x /\ reader c = RRunning /\
    readers i l = [] /\ rd_input r = input c /\ rd_auth r = authOf x /\ rd_cap r = maxPayload c /\
    Credit.books (rd_debit r) (sent c) (credit c) /\ answered (served c) (emitted c) (rd_part r) /\
    peer_ok [r] (writers i l) (enders i l) (lockers i l) c x.
Proof.
  intros Hi. destruct (conns s !! i) as [c|] eqn:Hc.
  2:{ destruct (iv_none _ _ _ _ _ Hi i Hc) as [E _]. by rewrite reading_cons in E. }
  assert (is_Some (sessions s !! i)) as [x Hx] by (apply (iv_dom _ _ _ _ _ Hi); eauto).
  pose proof (iv_peer _ _ _ _ _ Hi i c x Hc Hx) as Hp. rewrite reading_cons in Hp. exists c, x.
  pose proof (pr_reader _ _ _ _ _ _ _ Hp) as (n & part & Hb & Ha & Hr). case_decide as E; [|by destruct Hr as [? _]].
  injection Hr as -> Hr. rewrite Hr in Hp. done.
Qed.

(** A reader's update of its connection: it goes on running, and neither the
    queue nor the phases of the other loops change. *)
Definition steady (c c' : Conn) : Prop :=
  input c' = input c /\ wq c' = wq c /\ reader c' = reader c /\ writer c' = writer c /\ done c' = done c.

Lemma reader_steady l s i r r' c c' :
  Inv (TReader i r :: l) s -> conns s !! i = Some c -> steady c c' -> rd_input r' = rd_input r -> rd_auth r' = rd_auth r ->
  (rd_cap r = maxPayload c -> rd_cap r' = maxPayload c') ->
  (Credit.books (rd_debit r) (sent c) (credit c) -> Credit.books (rd_debit r') (sent c') (credit c')) ->
  (answered (served c) (emitted c) (rd_part r) -> answered (served c') (emitted c') (rd_part r')) ->
  (maxPayload c = Credit.maxFrame (credit c) /\ 0 <= maxPayload c <= CapMaxFrameLen ->
   maxPayload c' = Credit.maxFrame (credit c') /\ 0 <= maxPayload c' <= CapMaxFrameLen) ->
  Inv (TReader i r' :: l) (set_conns (<[i := c']> (conns s)) s).
Proof.
  intros Hi Hc (Ein & Eq & Er & Ew & Ed) Ein' Eau Hcap Hb Ha Hf.
  destruct (Inv_reader _ _ _ _ Hi) as (c0 & x & Hc0 & Hx & Hr & Hrs & Hri & Hra & Hrc & Hbk & Han & Hp).
  assert (c0 = c) as -> by congruence. eapply (Inv_conn _ _ _ _ c x); try done; [apply elsewhere_reader| |by rewrite Ed|].
  - rewrite reading_cons, Hrs. destruct Hp as [_ Hfr Hw He Hen Hdn Hqu Hlk Hli Htb].
    split; rewrite ?Eq, ?Ew, ?Ed, ?Er; auto. exists (rd_debit r'), (rd_part r'). split; [auto|]. split; [auto|].
    rewrite decide_True by done. rewrite Ein, <- Hri, <- Hra, <- Ein', <- Eau, <- (Hcap Hrc). by destruct r'.
  - unfold queuedOf. cbn. by rewrite Eq.
Qed.

Definition debit (n : Z) (r : reading) : reading := mkReading n (rd_input r) (rd_auth r) (rd_cap r) (rd_part r).
Definition partial (f : Header) (r : reading) : reading := mkReading (rd_debit r) (rd_input r) (rd_auth r) (rd_cap r) (rd_part r ++ [f]).
Definition settled (r : reading) : reading := mkReading (rd_debit r) (rd_input r) (rd_auth r) (rd_cap r) [].
Definition capped (n : Z) (r : reading) : reading := mkReading (rd_debit r) (rd_input r) (rd_auth r) n (rd_part r).

Lemma Inv_GrantCredit l s i r n b s' :
  Inv (TReader i r :: l) s -> rd_debit r = n -> n < 2 ^ 32 -> GrantCredit i n s = Next b s' -> Inv (TReader i (debit 0 r) :: l) s'.
Proof.
  intros Hi <- Hn (c & Hc & _ & ->)%onConn_inv. eapply reader_steady; try done.
  intros Hb. by apply Credit.books_Grant.
Qed.

Lemma Inv_Account l s i r n b s' :
  Inv (TReader i r :: l) s -> rd_debit r = 0 -> 0 <= n < 2 ^ 32 -> Account i n s = Next b s' -> Inv (TReader i (debit n r) :: l) s'.
Proof.
  intros Hi E Hn (c & Hc & _ & ->)%onConn_inv. eapply reader_steady; try done.
  rewrite E. intros Hb. by apply Credit.books_Account.
Qed.

(** A frame within the cap is never refused. *)
Lemma Inv_Consume l s i r n v s' :
  Inv (TReader i r :: l) s -> rd_debit r = 0 -> 0 <= n <= rd_cap r ->
  Consume i n s = Next v s' -> v = Credit.ViolationNone /\ Inv (TReader i (debit n r) :: l) s'.
Proof.
  intros Hi E Hn (c & Hc & -> & ->)%onConn_inv.
  destruct (Inv_reader _ _ _ _ Hi) as (c1 & x & Hc1 & Hx & _ & _ & _ & _ & Hrc & Hb & _ & Hp). assert (c1 = c) as -> by congruence.
  destruct (pr_frame _ _ _ _ _ _ _ Hp) as [Ef _]. rewrite E in Hb.
  destruct (Credit.books_Consume n (credit c) (sent c) Hb) as (w & Ew & Hb'); [by rewrite <- Ef, <- Hrc|]. rewrite Ew. cbn. split; [done|].
  eapply reader_steady; try done. assert (Credit.maxFrame w = Credit.maxFrame (credit c)) as Em; [|by cbn; rewrite Em].
  revert Ew. unfold Credit.Consume. case_if; [by intros [= <-]|by intros [= _ <-]].
Qed.

Lemma Inv_emit l s i r h b s' :
  Inv (TReader i r :: l) s -> emit i h s = Next b s' -> Inv (TReader i (partial h r) :: l) s'.
Proof.
  intros Hi (c & Hc & _ & ->)%onConn_inv. eapply reader_steady; try done. apply answered_part.
Qed.

Lemma Inv_served l s i r h b s' :
  Inv (TReader i r :: l) s -> answers h (rd_part r) -> modConn i (fun c => set_served (served c ++ [h]) c) s = Next b s' ->
  Inv (TReader i (settled r) :: l) s'.
Proof.
  intros Hi Ha (c & Hc & _ & ->)%onConn_inv. eapply reader_steady; try done. intros Han. by eapply answered_served.
Qed.

Lemma Inv_SetLimits l s i r lim b s' :
  Inv (TReader i r :: l) s -> 0 <= Body.InitialCredit lim < 2 ^ 32 -> 0 <= Body.MaxFrameLen lim <= CapMaxFrameLen ->
  SetLimits i lim s = Next b s' -> Inv (TReader i (capped (Body.MaxFrameLen lim) r) :: l) s'.
Proof.
  intros Hi Hcr Hfr (c & Hc & _ & ->)%onConn_inv. eapply reader_steady; try done.
  intros Hb. apply Credit.books_SetWindow; [done|done|]. change CapMaxFrameLen with (2 ^ 30) in Hfr. lia.
Qed.

End Acts.
End SrvActs.
