(* ===== verification/ServerMoves.v ===== *)
(** What the actions of the queue, the write loop, the holds, the stream table
    and the registry do to the server's invariant. *)

From Stdlib Require Import ZArith Lia.
From coqutil Require Import Byte Word.LittleEndianList.
From stdpp Require Import base numbers list gmap sets strings.
From S2P Require Import Prelude.
From S2P Require Import Conc.
From S2P Require Import Wire.
From S2P Require Import Bodies.
From S2P Require Import Tenant.
From S2P Require Import Credit.
From S2P Require Import ServerState.
From S2P Require Import Transport.
From S2P Require Import Session.
From S2P Require Import Server.
From S2P Require Import ServerInv.
From S2P Require Import ServerTable.
From S2P Require Import ServerActs.
Import Conc Ops Hdr Srv Transport Session Server SrvInv SrvTable SrvActs.
Open Scope Z_scope.

Module SrvMoves.

(** Tokens of connection [i] come or go. *)
Ltac elsewhere :=
  split; [intros ? ?; unfold readers, writers, enders, lockers; cbn; rewrite ?decide_False by done; by split_and!|
          split; [done|intros ?; rewrite ?elem_of_cons; naive_solver]].

Section Moves.
Context {St : Type} `{BS : !BlockStore St} `{XX : !Xxh3} `{HA : !Hasher} `{NE : !Net}.
Context (cfg : Config) (iw : Z) (sha256 : bytes -> bytes).

Abbreviation S := (Server St hold hasher).
Abbreviation Conn := (Conn hold).
Abbreviation session := (session hasher).
Abbreviation tok := (tok hold).
Abbreviation Inv := (Inv cfg iw sha256).
Abbreviation peer_ok := (peer_ok cfg).

(** ** Holds *)

Abbreviation holds i rel := ((fun h => THold i h) <$> rel).

Lemma tokens_holds j i (rel : list hold) (l : list tok) :
  readers j (holds i rel ++ l) = readers j l /\ writers j (holds i rel ++ l) = writers j l /\
  enders j (holds i rel ++ l) = enders j l /\ lockers j (holds i rel ++ l) = lockers j l /\
  accepts (holds i rel ++ l) = accepts l /\ inHand (holds i rel ++ l) = ((fun h => (i, h)) <$> rel) ++ inHand l /\
  (forall f, TFact f ∈ holds i rel ++ l <-> TFact f ∈ l).
Proof.
  induction rel as [|h rel IH]; [done|]. destruct IH as (E1 & E2 & E3 & E4 & E5 & E6 & E7). split_and!; cbn; try done.
  - unfold inHand in *. cbn. by f_equal.
  - intros f. rewrite elem_of_cons, E7. naive_solver.
Qed.

Lemma elsewhere_holds i j (rel : list hold) (l l' : list tok) : elsewhere i l l' -> elsewhere i l (holds j rel ++ l').
Proof.
  intros (H1 & H2 & H3). split; [|split].
  - intros k Hk. destruct (tokens_holds k j rel l') as (-> & -> & -> & -> & _). by apply H1.
  - by destruct (tokens_holds O j rel l') as (_ & _ & _ & _ & -> & _).
  - intros f. destruct (tokens_holds O j rel l') as (_ & _ & _ & _ & _ & _ & ->). apply H3.
Qed.

(** A state that differs in what was acquired, released and asked of the store. *)
Lemma Inv_logs l l' s s' :
  Inv l s -> same s s' -> conns s' = conns s -> sessions s' = sessions s -> accepts l' = accepts l ->
  (forall i, readers i l' = readers i l /\ writers i l' = writers i l /\ enders i l' = enders i l /\ lockers i l' = lockers i l) ->
  (forall f, TFact f ∈ l' -> TFact f ∈ l) -> acquired s' ≡ₚ released s' ++ queued (conns s') ++ inHand l' -> Inv l' s'.
Proof.
  intros [Hd Hn Hpe Hno Hr Ha Hc Hh Hac Ht Hfa Hcl Hto] (Er & En & Et & Edr & Eac & Esc & Ecl & Eto) Ec Ex Eacc Htok Hf Hho.
  split; unfold all_done; rewrite ?Er, ?En, ?Et, ?Eac, ?Esc, ?Ec, ?Ex, ?Ecl, ?Eacc, ?Eto; try done.
  - intros i. destruct (Htok i) as (-> & -> & -> & ->). apply Hpe.
  - intros i. destruct (Htok i) as (-> & -> & -> & ->). apply Hno.
  - by rewrite <- Ec.
  - intros f Hin. specialize (Hfa f (Hf f Hin)). destruct f; cbn in *; by rewrite ?Edr, ?Et, ?Eac, ?Er, ?Ec.
Qed.

Lemma Inv_acquired l s i h : Inv l s -> Inv (THold i h :: l) (set_acquired ((i, h) :: acquired s) s).
Proof.
  intros Hi. eapply Inv_logs; try done.
  - intros f. rewrite elem_of_cons. naive_solver.
  - change (inHand (THold i h :: l)) with ((i, h) :: inHand l). cbn. rewrite <- !Permutation_middle. f_equiv.
    apply (iv_holds _ _ _ _ _ Hi).
Qed.

Lemma Inv_released l s i h : Inv (THold i h :: l) s -> Inv l (set_released ((i, h) :: released s) s).
Proof.
  intros Hi. eapply Inv_logs; try done.
  - intros f. rewrite elem_of_cons. naive_solver.
  - pose proof (iv_holds _ _ _ _ _ Hi) as Hh. change (inHand (THold i h :: l)) with ((i, h) :: inHand l) in Hh.
    cbn. by rewrite <- !Permutation_middle in Hh.
Qed.

(** ** Calls *)

Lemma Inv_calls l s i r k n lim :
  Inv (TReader i r :: l) s -> rd_auth r = Some (n, lim) -> callNS k = n -> call_ok lim k ->
  Inv (TReader i r :: l) (set_calls ((i, k) :: calls s) s).
Proof.
  intros Hi Ea En Hk. destruct (Inv_reader _ _ _ _ _ _ _ Hi) as (c & x & Hc & Hx & _ & _ & _ & Hra & _).
  destruct Hi. split; try done. cbn. intros j k'. rewrite elem_of_cons. intros [[= -> ->]|]; [|by auto].
  rewrite Ea in Hra. unfold authOf in Hra. destruct (authed x) eqn:E; [|done]. injection Hra as -> ->. eauto.
Qed.

(** ** Facts *)

Lemma Inv_fact l s f : Inv l s -> fact_ok iw sha256 s f -> Inv (TFact f :: l) s.
Proof. intros [] Hf. split; try done. intros g. rewrite elem_of_cons. intros [[= ->]|]; auto. Qed.

Lemma Inv_unfact l s f : Inv (TFact f :: l) s -> Inv l s.
Proof. intros [? ? ? ? ? ? ? ? ? ? Hf ? ?]. split; try done. intros g Hg. apply Hf. by right. Qed.

Lemma fact_of l s f : Inv l s -> TFact f ∈ l -> fact_ok iw sha256 s f.
Proof. intros Hi. apply (iv_facts _ _ _ _ _ Hi). Qed.

(** ** Connections *)

Lemma Inv_still l s i c c' :
  Inv l s -> conns s !! i = Some c -> steady c c' -> maxPayload c' = maxPayload c -> served c' = served c -> emitted c' = emitted c ->
  Credit.maxFrame (credit c') = Credit.maxFrame (credit c) ->
  (forall n, Credit.books n (sent c) (credit c) -> Credit.books n (sent c') (credit c')) ->
  Inv l (set_conns (<[i := c']> (conns s)) s).
Proof.
  intros Hi Hc (Ein & Eq & Er & Ew & Ed) Em Es Ee Emf Hb.
  assert (is_Some (sessions s !! i)) as [x Hx] by (apply (iv_dom _ _ _ _ _ Hi); eauto).
  eapply (Inv_conn _ _ _ _ _ _ _ c x); try done; [|by rewrite Ed|by unfold queuedOf; cbn; rewrite Eq].
  destruct (iv_peer _ _ _ _ _ Hi i c x Hc Hx) as [(n & part & Hbk & Ha & Hr)]. split; rewrite ?Ew, ?Ed, ?Er, ?Eq, ?Em, ?Emf; try done.
  exists n, part. rewrite Ein, Es, Ee. auto.
Qed.

Lemma Inv_Close l s i b s' : Inv l s -> Close i s = Next b s' -> Inv l s'.
Proof. intros Hi (c & Hc & _ & ->)%onConn_inv. by eapply Inv_still. Qed.

Lemma Inv_grant l s i b s' :
  Inv l s -> onConn i (fun c => let (g, w) := Credit.TakeGrant (credit c) in (g, set_sent (sent c + g) (set_credit w c))) s = Next b s' ->
  Inv l s' /\ 0 <= b < 2 ^ 32.
Proof.
  intros Hi (c & Hc & -> & ->)%onConn_inv.
  assert (is_Some (sessions s !! i)) as [x Hx] by (apply (iv_dom _ _ _ _ _ Hi); eauto).
  pose proof (Credit.books_TakeGrant) as Ht.
  destruct (iv_peer _ _ _ _ _ Hi i c x Hc Hx) as [(n & part & Hbk & _) _ _ _ _ _ _ _ _ _].
  pose proof (Ht n (credit c) (sent c) Hbk) as Hg.
  assert (Credit.maxFrame (Credit.TakeGrant (credit c)).2 = Credit.maxFrame (credit c)) as Em by done.
  destruct (Credit.TakeGrant (credit c)) as [g w] eqn:E. cbn [fst snd] in *. split; [|by destruct Hg].
  eapply Inv_still; try done. intros m Hm. specialize (Ht m (credit c) (sent c) Hm). rewrite E in Ht. by destruct Ht.
Qed.

Lemma Inv_writeTo l s i bufs b s' : Inv l s -> writeTo i bufs s = Next b s' -> Inv l s'.
Proof.
  intros Hi. unfold writeTo, mbind, act_bind. cbn. destruct (modConn _ _ _) as [[] s1| | |] eqn:E; try done. intros [= _ <-].
  apply onConn_inv in E as (c & Hc & _ & ->). cbn in Hc. eapply Inv_still; try done. by eapply Inv_only.
Qed.

(** ** The queue *)

Lemma queuedOf_wq i (c : Conn) q : queuedOf (i, set_wq q c) = (fun h => (i, h)) <$> concat (w_release <$> q).
Proof. done. Qed.

Lemma queue_more l s i r c q :
  Inv (TReader i r :: holds i (w_release q) ++ l) s -> conns s !! i = Some c -> len (wq c) < queueCap -> length (Key (w_hdr q)) = 32%nat ->
  Inv (TReader i r :: l) (set_conns (<[i := set_wq (wq c ++ [q]) c]> (conns s)) s).
Proof.
  intros Hi Hc Hlen Hk. destruct (Inv_reader _ _ _ _ _ _ _ Hi) as (c0 & x & Hc0 & Hx & Hr & _ & _ & _ & _ & _ & _ & Hp).
  assert (c0 = c) as -> by congruence.
  destruct (tokens_holds i i (w_release q) l) as (T1 & T2 & T3 & T4 & T5 & T6 & T7).
  eapply (Inv_conn _ _ _ _ _ _ _ c x); try done.
  - split; [|split].
    + intros j Hj. destruct (tokens_holds j i (w_release q) l) as (E1 & E2 & E3 & E4 & _).
      unfold readers, writers, enders, lockers in *. cbn. rewrite decide_False by done. by rewrite E1, E2, E3, E4.
    + unfold accepts in *. cbn. by rewrite T5.
    + intros f. rewrite !elem_of_cons, T7. naive_solver.
  - pose proof (iv_peer _ _ _ _ _ Hi i c x Hc Hx) as Hpe. rewrite reading_cons in *. unfold writers, enders, lockers, readers in *. cbn in *.
    rewrite T1, T2, T3, T4 in Hpe. destruct Hpe as [Hre Hfr Hw He Hen Hdn Hqu Hlk Hli Htb].
    assert (done c = EWaiting) as Edn by (destruct (decide (done c = EWaiting)) as [|Hne]; [done|]; destruct (Hen Hne); congruence).
    split; cbn; try done; rewrite ?Edn in *; try done.
    rewrite len_app, len_cons, len_nil. split; [lia|]. apply Forall_app. split; [by apply Hqu|]. by constructor.
  - rewrite queuedOf_wq. unfold queuedOf, inHand in *. cbn. rewrite T6, fmap_app, concat_app, fmap_app. cbn. rewrite app_nil_r.
    by rewrite <- app_assoc.
Qed.

Lemma Inv_enqueue l s i r q ok s' :
  Inv (TReader i r :: holds i (w_release q) ++ l) s -> length (Key (w_hdr q)) = 32%nat -> enqueue i q s = Next ok s' ->
  Inv (TReader i r :: (if ok then l else holds i (w_release q) ++ l)) s'.
Proof.
  intros Hi Hk. unfold enqueue. destruct (conns s !! i) as [c|] eqn:Hc; [|done].
  assert (Inv (TReader i r :: holds i (w_release q) ++ l) (set_tick (Datatypes.S (tick s)) s)) as Hi' by (by eapply Inv_only).
  destruct (len (wq c) <? queueCap) eqn:E; [|destruct (closed c); [by intros [= <- <-]|done]].
  destruct (closed c && pick (tick s)); intros [= <- <-]; [done|]. apply Z.ltb_lt in E. by apply (queue_more _ _ _ _ _ _ Hi').
Qed.

Lemma Inv_tryEnqueue l s i r q b s' :
  Inv (TReader i r :: l) s -> length (Key (w_hdr q)) = 32%nat -> w_release q = [] -> tryEnqueue i q s = Next b s' ->
  Inv (TReader i r :: l) s'.
Proof.
  intros Hi Hk Hr (c & Hc & _ & ->)%onConn_inv. cbn. destruct (len (wq c) <? queueCap) eqn:E.
  - apply Z.ltb_lt in E. apply queue_more; try done. by rewrite Hr.
  - rewrite insert_id by done. by destruct s.
Qed.

Lemma Inv_recv l s i o s' :
  Inv l s -> recv i s = Next o s' ->
  match o with
  | None => Inv l s' /\ exists c, conns s' !! i = Some c /\ wq c = []
  | Some q => Inv (holds i (w_release q) ++ l) s' /\ length (Key (w_hdr q)) = 32%nat
  end.
Proof.
  intros Hi (c & Hc & -> & ->)%onConn_inv. destruct (wq c) as [|q wq'] eqn:Eq; cbn.
  { rewrite insert_id by done. split; [by destruct s|eauto]. }
  assert (is_Some (sessions s !! i)) as [x Hx] by (apply (iv_dom _ _ _ _ _ Hi); eauto).
  pose proof (iv_peer _ _ _ _ _ Hi i c x Hc Hx) as [Hre Hfr Hw He Hen Hdn Hqu Hlk Hli Htb]. rewrite Eq in *.
  destruct Hqu as [Hlen Hkeys]. apply Forall_cons in Hkeys as [Hk Hkeys]. split; [|done].
  destruct (tokens_holds i i (w_release q) l) as (T1 & T2 & T3 & T4 & T5 & T6 & T7).
  eapply (Inv_conn _ _ _ _ _ _ _ c x); try done; [apply elsewhere_holds, elsewhere_refl| |].
  - rewrite T1, T2, T3, T4. split; cbn; try done.
    + destruct (decide (done c = EDraining)); [|done]. destruct He as (n & -> & Hn). exists n. cbn in Hn. split; [done|lia].
    + by intros E%Hdn.
    + split; [rewrite len_cons in Hlen; lia|done].
  - rewrite queuedOf_wq, T6. unfold queuedOf. cbn. rewrite Eq. cbn. rewrite fmap_app, <- app_assoc. apply Permutation_app_swap_app.
Qed.

(** ** The loops of a connection *)

Lemma Inv_enterWriter l s i p p' b s' :
  Inv l s -> p <> WEnded -> p <> WBusy -> p <> WDrainBusy -> p' = WBusy \/ p' = WDrainBusy ->
  onConn i (fun c => if decide (writer c = p) then (true, set_writer p' c) else (false, c)) s = Next b s' ->
  Inv (if b then TWriter i :: l else l) s'.
Proof.
  intros Hi Hp Hp1 Hp2 Hp' (c & Hc & -> & ->)%onConn_inv. destruct (decide (writer c = p)) as [E|E]; cbn.
  2:{ rewrite insert_id by done. by destruct s. }
  assert (is_Some (sessions s !! i)) as [x Hx] by (apply (iv_dom _ _ _ _ _ Hi); eauto).
  pose proof (iv_peer _ _ _ _ _ Hi i c x Hc Hx) as [Hre Hfr Hw He Hen Hdn Hqu Hlk Hli Htb].
  eapply (Inv_conn _ _ _ _ _ _ _ c x); try done; [elsewhere|]. split; cbn; try done.
  - unfold writers in *. cbn. rewrite decide_True by done. rewrite Hw, decide_False, decide_True by naive_solver. done.
  - intros Hd%Hen. destruct Hd. congruence.
Qed.

Lemma writers_cons i (l : list tok) : writers i (TWriter i :: l) = tt :: writers i l.
Proof. unfold writers. cbn. by rewrite decide_True. Qed.

Lemma Inv_setWriter l s i p b s' :
  Inv (TWriter i :: l) s -> p = WWaiting \/ p = WDraining \/ p = WEnded -> setWriter i p s = Next b s' -> Inv l s'.
Proof.
  intros Hi Hp (c & Hc & -> & ->)%onConn_inv.
  assert (is_Some (sessions s !! i)) as [x Hx] by (apply (iv_dom _ _ _ _ _ Hi); eauto).
  pose proof (iv_peer _ _ _ _ _ Hi i c x Hc Hx) as [Hre Hfr Hw He Hen Hdn Hqu Hlk Hli Htb]. rewrite writers_cons in Hw.
  destruct (decide (writer c = WBusy \/ writer c = WDrainBusy)) as [Hbu|]; [|done]. injection Hw as Hw.
  eapply (Inv_conn _ _ _ _ _ _ _ c x); try done; [elsewhere|]. split; cbn; try done.
  - rewrite decide_False by naive_solver. done.
  - intros Hd%Hen. destruct Hd. destruct Hbu; congruence.
Qed.

Lemma Inv_enterReader l s i b s' :
  Inv l s ->
  onConn i (fun c => if decide (reader c = RIdle) then (Some (input c), set_reader RRunning c) else (None, c)) s = Next b s' ->
  match b with
  | Some inp => exists a cap, Inv (TReader i (mkReading 0 inp a cap []) :: l) s'
  | None => Inv l s'
  end.
Proof.
  intros Hi (c & Hc & -> & ->)%onConn_inv. destruct (decide (reader c = RIdle)) as [E|E]; cbn.
  2:{ rewrite insert_id by done. by destruct s. }
  assert (is_Some (sessions s !! i)) as [x Hx] by (apply (iv_dom _ _ _ _ _ Hi); eauto). exists (authOf x), (maxPayload c).
  pose proof (iv_peer _ _ _ _ _ Hi i c x Hc Hx) as [Hre Hfr Hw He Hen Hdn Hqu Hlk Hli Htb].
  destruct Hre as (n & part & Hb & Ha & Hre). rewrite decide_False in Hre by congruence. destruct Hre as (Hrs & -> & Hpa & _).
  assert (part = []) as -> by (destruct Hpa; [congruence|done]).
  eapply (Inv_conn _ _ _ _ _ _ _ c x); try done; [elsewhere|]. split; try done.
  - exists 0, []. rewrite reading_cons, Hrs. cbn. by rewrite decide_True.
  - intros Hd%Hen. destruct Hd. congruence.
Qed.

Lemma Inv_exitReader l s i r b s' :
  Inv (TReader i r :: l) s -> rd_debit r = 0 -> rd_part r = [] \/ (exists f, rd_part r = [f] /\ fatalReport f) ->
  modConn i (set_reader REnded) s = Next b s' -> Inv l s'.
Proof.
  intros Hi Hd Hpart (c & Hc & -> & ->)%onConn_inv.
  destruct (Inv_reader _ _ _ _ _ _ _ Hi) as (c0 & x & Hc0 & Hx & Hr & Hrs & _ & _ & _ & Hb & Ha & Hp).
  assert (c0 = c) as -> by congruence. destruct Hp as [_ Hfr Hw He Hen Hdn Hqu Hlk Hli Htb].
  eapply (Inv_conn _ _ _ _ _ _ _ c x); try done; [elsewhere|]. rewrite Hrs. split; cbn; try done.
  - exists (rd_debit r), (rd_part r). rewrite Hd in *. split_and!; try done. rewrite decide_False by done. auto.
  - intros Hdo%Hen. destruct Hdo. congruence.
Qed.

Lemma enders_cons i n (l : list tok) : enders i (TEnd i n :: l) = n :: enders i l.
Proof. unfold enders. cbn. by rewrite decide_True. Qed.

Lemma Inv_enterEnd l s i b s' :
  Inv l s ->
  onConn i (fun c =>
    if bool_decide (reader c = REnded) && bool_decide (writer c = WEnded) && bool_decide (done c = EWaiting)
    then (Some (length (wq c)), set_done EDraining c) else (None, c)) s = Next b s' ->
  match b with Some n => Inv (TEnd i n :: l) s' | None => Inv l s' end.
Proof.
  intros Hi (c & Hc & -> & ->)%onConn_inv. destruct (_ && _ && _) eqn:E; cbn.
  2:{ rewrite insert_id by done. by destruct s. }
  apply andb_prop in E as [[E1 E2]%andb_prop E3]. apply bool_decide_eq_true in E1, E2, E3.
  assert (is_Some (sessions s !! i)) as [x Hx] by (apply (iv_dom _ _ _ _ _ Hi); eauto).
  pose proof (iv_peer _ _ _ _ _ Hi i c x Hc Hx) as [Hre Hfr Hw He Hen Hdn Hqu Hlk Hli Htb]. rewrite E3 in *.
  eapply (Inv_conn _ _ _ _ _ _ _ c x); try done; [elsewhere| |by rewrite E3]. split; try done.
  rewrite enders_cons. cbn in *. rewrite He, decide_True by done. eauto.
Qed.

Lemma Inv_ender l s i n :
  Inv (TEnd i n :: l) s -> exists c x, conns s !! i = Some c /\ sessions s !! i = Some x /\ done c = EDraining /\
    enders i l = [] /\ (length (wq c) <= n)%nat /\ peer_ok (readers i l) (writers i l) [n] (lockers i l) c x.
Proof.
  intros Hi. destruct (conns s !! i) as [c|] eqn:Hc.
  2:{ destruct (iv_none _ _ _ _ _ Hi i Hc) as (_ & _ & E & _). by rewrite enders_cons in E. }
  assert (is_Some (sessions s !! i)) as [x Hx] by (apply (iv_dom _ _ _ _ _ Hi); eauto).
  pose proof (iv_peer _ _ _ _ _ Hi i c x Hc Hx) as Hp. rewrite enders_cons in Hp. exists c, x.
  pose proof (pr_ender _ _ _ _ _ _ _ Hp) as He. destruct (decide (done c = EDraining)); [|done].
  destruct He as (m & [= <- He] & Hm). rewrite He in Hp. done.
Qed.

Lemma set_conns_id (s : S) : set_conns (conns s) s = s.
Proof. by destruct s. Qed.

Lemma Inv_endBound l s i n m c :
  Inv (TEnd i n :: l) s -> conns s !! i = Some c -> (length (wq c) <= m)%nat -> Inv (TEnd i m :: l) s.
Proof.
  intros Hi Hc Hm. destruct (Inv_ender _ _ _ _ Hi) as (c0 & x & Hc0 & Hx & Hd & He & Hn & Hp). assert (c0 = c) as -> by congruence.
  rewrite <- (set_conns_id s), <- (insert_id _ _ _ Hc). eapply (Inv_conn _ _ _ _ _ _ _ c x); try done; [elsewhere|].
  destruct Hp as [Hre Hfr Hw _ Hen Hdn Hqu Hlk Hli Htb]. split; try done. rewrite enders_cons, He, decide_True by done. eauto.
Qed.

Lemma Inv_drainRecv l s i n o s' :
  Inv (TEnd i n :: l) s -> recv i s = Next o s' ->
  match o with
  | None => Inv (TEnd i O :: l) s'
  | Some q => (0 < n)%nat /\ Inv (holds i (w_release q) ++ TEnd i (n - 1) :: l) s'
  end.
Proof.
  intros Hi Hr. pose proof (Inv_recv _ _ _ _ _ Hi Hr) as Hi'.
  destruct (Inv_ender _ _ _ _ Hi) as (c & x & Hc & Hx & Hd & _ & Hn & _).
  apply onConn_inv in Hr as (c0 & Hc0 & -> & Es). assert (c0 = c) as -> by congruence. destruct (wq c) as [|q wq'] eqn:Eq; cbn in *.
  - destruct Hi' as [Hi' _]. eapply Inv_endBound; [done|by rewrite Es; cbn; apply lookup_insert_eq|]. by rewrite Eq.
  - destruct Hi' as [Hi' _]. split; [lia|]. assert (forall m, holds i (w_release q) ++ TEnd i m :: l ≡ₚ TEnd i m :: holds i (w_release q) ++ l) as Hp.
    { intros m. symmetry. apply Permutation_middle. }
    eapply Inv_reorder; [symmetry; apply Hp|]. eapply Inv_reorder in Hi'; [|apply Hp].
    eapply Inv_endBound; [done|by rewrite Es; cbn; apply lookup_insert_eq|]. cbn. lia.
Qed.

Lemma Inv_exitEnd l s i b s' : Inv (TEnd i O :: l) s -> modConn i (set_done EDone) s = Next b s' -> Inv l s'.
Proof.
  intros Hi (c & Hc & -> & ->)%onConn_inv.
  destruct (Inv_ender _ _ _ _ Hi) as (c0 & x & Hc0 & Hx & Hd & He & Hn & Hp). assert (c0 = c) as -> by congruence.
  destruct Hp as [Hre Hfr Hw _ Hen Hdn Hqu Hlk Hli Htb]. destruct (Hen ltac:(congruence)) as [E1 E2].
  eapply (Inv_conn _ _ _ _ _ _ _ c x); try done; [elsewhere|]. split; cbn; try done.
  intros _. destruct (wq c); [done|cbn in Hn; lia].
Qed.

End Moves.
End SrvMoves.
