(* ===== verification/ServerLife.v ===== *)
(** What actions on sessions, the registry, the accept loop and the drain do to the
    server's invariant. *)

From Stdlib Require Import ZArith Lia.
From coqutil Require Import Byte Word.LittleEndianList.
From stdpp Require Import base numbers list gmap sets strings.
From S2P Require Import Prelude.
From S2P Require Import Conc.
From S2P Require Import Wire.
From S2P Require Import Bodies.
From S2P Require Import Tenant.
From S2P Require Import Credit.
From S2P Require Import ServerState.
From S2P Require Import Transport.
From S2P Require Import Session.
From S2P Require Import Server.
From S2P Require Import ServerInv.
From S2P Require Import ServerTable.
From S2P Require Import ServerActs.
Import Conc Ops Hdr Srv Transport Session Server SrvInv SrvTable SrvActs.
From S2P Require Import ServerMoves.
Import Conc Ops Hdr Srv Transport Session Server SrvInv SrvTable SrvActs SrvMoves.
Open Scope Z_scope.

Module SrvLife.

Section Life.
Context {St : Type} `{BS : !BlockStore St} `{XX : !Xxh3} `{HA : !Hasher} `{NE : !Net}.
Context (cfg : Config) (iw : Z) (sha256 : bytes -> bytes).

Abbreviation S := (Server St hold hasher).
Abbreviation Conn := (Conn hold).
Abbreviation session := (session hasher).
Abbreviation tok := (tok hold).
Abbreviation Inv := (Inv cfg iw sha256).
Abbreviation peer_ok := (peer_ok cfg).

(** ** Sessions *)

Lemma locked_inv {B} i (m : act S B) s b s' :
  locked i m s = Next b s' -> exists x, sessions s !! i = Some x /\ streamMu x = false /\ m s = Next b s'.
Proof. unfold locked. destruct (sessions s !! i) as [x|]; [|done]. destruct (streamMu x) eqn:E; [done|]. eauto. Qed.

Lemma kept_auth (x x' : session) : kept x x' -> authOf x' = authOf x.
Proof. intros (E1 & E2 & E3 & _). unfold authOf. by rewrite E1, E2, E3. Qed.

Lemma kept_limits (x x' : session) : kept x x' -> limits_agreed cfg x -> limits_agreed cfg x'.
Proof. intros (E1 & E2 & E3 & _). unfold limits_agreed. by rewrite E1, E3. Qed.

Lemma Inv_peer l s i x :
  Inv l s -> sessions s !! i = Some x ->
  exists c, conns s !! i = Some c /\ peer_ok (readers i l) (writers i l) (enders i l) (lockers i l) c x.
Proof.
  intros Hi Hx. assert (is_Some (conns s !! i)) as [c Hc] by (apply (iv_dom _ _ _ _ _ Hi); eauto).
  exists c. split; [done|]. by apply (iv_peer _ _ _ _ _ Hi).
Qed.

(** An update of the table outside the other goroutines' sections. *)
Lemma Inv_table l s i x x' :
  Inv l s -> sessions s !! i = Some x -> streamMu x = false -> kept x x' ->
  (limits_agreed cfg x -> table_ok x -> table_ok x') -> Inv l (set_sessions (<[i := x']> (sessions s)) s).
Proof.
  intros Hi Hx Hm Hk Ht. destruct (Inv_peer _ _ _ _ Hi Hx) as (c & Hc & [Hre Hfr Hw He Hen Hdn Hqu Hlk Hli Htb]).
  eapply (Inv_session _ _ _ _ _ _ _ c x); try done; [|left; by apply kept_auth].
  split; try done; [by rewrite (kept_auth _ _ Hk)| |by eapply kept_limits|by apply Ht].
  destruct Hk as (_ & _ & _ & ->). by rewrite Hm in *.
Qed.

Lemma Inv_Lend l s i n b s' : Inv l s -> Lend i n s = Next b s' -> Inv l s'.
Proof.
  intros Hi (x & Hx & _ & ->)%onSession_inv. cbn.
  destruct (maxLendReuse <? n); [by rewrite insert_id by done; destruct s|].
  destruct (lendCap x <? n); [|by rewrite insert_id by done; destruct s].
  destruct (Inv_peer _ _ _ _ Hi Hx) as (c & Hc & [Hre Hfr Hw He Hen Hdn Hqu Hlk Hli [? ? ? ? ? ?]]).
  eapply (Inv_session _ _ _ _ _ _ _ c x); try done. by left.
Qed.

(** ** The lock of the stream table *)

Lemma lockers_cons i k (l : list tok) : lockers i (TLock i k :: l) = k :: lockers i l.
Proof. unfold lockers. cbn. by rewrite decide_True. Qed.

Definition unseen : locking := mkLocking None false.

Lemma Inv_lock l s i b s' : Inv l s -> lock i s = Next b s' -> Inv (TLock i unseen :: l) s'.
Proof.
  intros Hi (x & Hx & Hm & (x0 & Hx0 & _ & ->)%onSession_inv)%locked_inv. assert (x0 = x) as -> by congruence.
  destruct (Inv_peer _ _ _ _ Hi Hx) as (c & Hc & [Hre Hfr Hw He Hen Hdn Hqu Hlk Hli [? ? ? ? ? ?]]).
  rewrite Hm in Hlk. eapply (Inv_session _ _ _ _ _ _ _ c x); try done; [elsewhere| |by left].
  split; try done. rewrite lockers_cons, Hlk. by exists unseen.
Qed.

Lemma Inv_locker l s i k :
  Inv (TLock i k :: l) s -> exists c x, conns s !! i = Some c /\ sessions s !! i = Some x /\ streamMu x = true /\
    lockers i l = [] /\ lock_ok x k /\ peer_ok (readers i l) (writers i l) (enders i l) [k] c x.
Proof.
  intros Hi. destruct (conns s !! i) as [c|] eqn:Hc.
  2:{ destruct (iv_none _ _ _ _ _ Hi i Hc) as (_ & _ & _ & E). by rewrite lockers_cons in E. }
  assert (is_Some (sessions s !! i)) as [x Hx] by (apply (iv_dom _ _ _ _ _ Hi); eauto).
  pose proof (iv_peer _ _ _ _ _ Hi i c x Hc Hx) as Hp. rewrite lockers_cons in Hp. exists c, x.
  pose proof (pr_lock _ _ _ _ _ _ _ Hp) as Hl. destruct (streamMu x); [|done]. destruct Hl as (k0 & [= <- E] & Hk).
  rewrite E in Hp. done.
Qed.

(** What the holder of the lock does: an update that leaves the lock held. *)
Lemma Inv_underLock l s i k k' x x' :
  Inv (TLock i k :: l) s -> sessions s !! i = Some x -> kept x x' -> table_ok x' -> lock_ok x' k' ->
  Inv (TLock i k' :: l) (set_sessions (<[i := x']> (sessions s)) s).
Proof.
  intros Hi Hx Hk Ht Hl. destruct (Inv_locker _ _ _ _ Hi) as (c & x0 & Hc & Hx0 & Hm & Elk & _ & Hp). assert (x0 = x) as -> by congruence.
  destruct Hp as [Hre Hfr Hw He Hen Hdn Hqu _ Hli _].
  eapply (Inv_session _ _ _ _ _ _ _ c x); try done; [elsewhere| |left; by apply kept_auth].
  split; try done; [by rewrite (kept_auth _ _ Hk)| |by eapply kept_limits].
  rewrite lockers_cons, Elk. destruct Hk as (_ & _ & _ & ->). rewrite Hm. eauto.
Qed.

Lemma set_sessions_id (s : S) : set_sessions (sessions s) s = s.
Proof. by destruct s. Qed.

Lemma Inv_seen l s i k k' x :
  Inv (TLock i k :: l) s -> sessions s !! i = Some x -> lock_ok x k' -> Inv (TLock i k' :: l) s.
Proof.
  intros Hi Hx Hk. destruct (Inv_locker _ _ _ _ Hi) as (c & x0 & Hc & Hx0 & Hm & Elk & _ & Hp). assert (x0 = x) as -> by congruence.
  rewrite <- (set_sessions_id s), <- (insert_id _ _ _ Hx). eapply Inv_underLock; try done. by destruct Hp.
Qed.

Lemma Inv_unlock l s i k b s' : Inv (TLock i k :: l) s -> unlock i s = Next b s' -> Inv l s'.
Proof.
  intros Hi (x & Hx & _ & ->)%onSession_inv.
  destruct (Inv_locker _ _ _ _ Hi) as (c & x0 & Hc & Hx0 & Hm & Elk & _ & Hp). assert (x0 = x) as -> by congruence.
  destruct Hp as [Hre Hfr Hw He Hen Hdn Hqu _ Hli [? ? ? ? ? ?]].
  eapply (Inv_session _ _ _ _ _ _ _ c x); try done; [elsewhere|by left].
Qed.

Lemma Inv_insertStream l s i r k h bb now n lim b s' :
  Inv (TReader i r :: TLock i k :: l) s -> rd_auth r = Some (n, lim) -> lk_free k = Some (RequestID h) -> lk_room k = true ->
  0 <= Body.TotalLen bb <= Body.MaxBlobLen lim -> modSession i (insertStream h bb now) s = Next b s' ->
  Inv (TReader i r :: TLock i unseen :: l) s'.
Proof.
  intros Hi Ha Hf Hroom Hlen (x & Hx & _ & ->)%onSession_inv.
  destruct (Inv_reader _ _ _ _ _ _ _ Hi) as (c0 & x0 & Hc0 & Hx0 & _ & _ & _ & Hra & _). assert (x0 = x) as -> by congruence.
  rewrite Ha in Hra. unfold authOf in Hra. destruct (authed x) eqn:Eau; [|done]. injection Hra as -> ->.
  eapply Inv_reorder; [apply perm_swap|]. eapply Inv_reorder in Hi; [|apply perm_swap].
  destruct (Inv_locker _ _ _ _ Hi) as (c & x0 & Hc & Hx1 & Hm & Elk & [Hk1 Hk2] & Hp). assert (x0 = x) as -> by congruence.
  eapply Inv_underLock; try done. cbn. destruct (Hk2 Hroom). apply table_insert; try done; [by destruct Hp|by apply Hk1].
Qed.

(** ** Authentication *)

Definition admitted (id : Z) (lim : Body.Limits) (r : reading) : reading :=
  mkReading (rd_debit r) (rd_input r) (Some (id, lim)) (rd_cap r) (rd_part r).

Lemma Inv_set_auth l s i r id lim fe b s' :
  Inv (TReader i r :: TFact (Cred i id) :: l) s -> rd_auth r = None ->
  BodyFacts.limits_ok lim -> Body.MaxFrameLen lim <= CapMaxFrameLen ->
  Body.MaxBlobLen lim + Body.GetRespHeaderSize 1 <= Body.MaxFrameLen lim ->
  modSession i (set_auth true id lim fe) s = Next b s' -> Inv (TReader i (admitted id lim r) :: l) s'.
Proof.
  intros Hi Ha Hl1 Hl2 Hl3 (x & Hx & _ & ->)%onSession_inv.
  assert (fact_ok iw sha256 s (Cred i id)) as (c1 & Hc1 & Hcr) by (eapply (fact_of _ _ _ _ _ _ Hi); by do 2 constructor).
  destruct (Inv_reader _ _ _ _ _ _ _ Hi) as (c & x0 & Hc & Hx0 & Hr & Hrs & Hri & Hra & Hrc & Hb & Han & Hp).
  assert (x0 = x) as -> by congruence. assert (c1 = c) as -> by congruence.
  assert (authed x = false) as Eau by (rewrite Ha in Hra; unfold authOf in Hra; by destruct (authed x)).
  destruct Hp as [_ Hfr Hw He Hen Hdn Hqu Hlk Hli [Ht1 Ht2 Ht3 Ht4 Ht5 Ht6]].
  assert (streams x = ∅) as Est.
  { apply map_empty. intros j. destruct (streams x !! j) as [st|] eqn:E; [|done]. destruct (Ht1 j st E). congruence. }
  eapply (Inv_session _ _ _ _ _ _ _ c x); try done; [elsewhere| |by right]. rewrite reading_cons.
  change (readers i l) with (readers i (TFact (Cred i id) :: l)). rewrite Hrs. split; try done.
  - exists (rd_debit r), (rd_part r). split_and!; try done. rewrite decide_True by done. unfold admitted. by rewrite Hri, Hrc.
  - split; cbn; try done. intros j st. by rewrite Est, lookup_empty.
Qed.

Lemma Add_result r nsp : Registry.Add r nsp = ((Registry.Add r nsp).1, None) \/ (Registry.Add r nsp).1 = r.
Proof. unfold Registry.Add. repeat case_match; auto. Qed.

Lemma Add_keeps r nsp :
  Registry.reg_ok r -> length (Registry.Quota nsp) = 3%nat ->
  Registry.reg_ok (Registry.Add r nsp).1 /\
  forall inp id, credited iw sha256 r inp id -> credited iw sha256 (Registry.Add r nsp).1 inp id.
Proof.
  intros Hr Hq. destruct (Add_result r nsp) as [E|E]; [|rewrite E; auto].
  assert (Registry.reg_ok (Registry.Add r nsp).1) as Hr' by exact (Registry.Add_ok _ _ _ Hr Hq E). split; [done|].
  intros inp id (name & token & Hp & Ha). exists name, token. split; [done|].
  apply RegistryFacts.authenticate_registered; [done|]. apply (RegistryFacts.Add_registered _ _ _ _ _ _ Hr E).
  right. by apply RegistryFacts.authenticate_registered.
Qed.

Lemma Inv_register l s nsp :
  Inv l s -> length (Registry.Quota nsp) = 3%nat -> Inv l (set_reg (Registry.Add (reg s) nsp).1 s).
Proof.
  intros [Hd Hn Hpe Hno Hr Ha Hc Hh Hac Ht Hfa Hcl Hto] Hq. destruct (Add_keeps _ _ Hr Hq) as [Hr' Hcr].
  split; try done; cbn.
  - intros i c x Hi Hx Hau. by eapply Hcr, Ha.
  - intros f Hin. specialize (Hfa f Hin). destruct f as [| | |i id]; cbn in *; try done. destruct Hfa as (c & Hi & Hfa). eauto.
Qed.

(** ** The accept loop *)

(** The loop moves on: only the token of its round changes. *)
Lemma Inv_accepting l l' s p :
  Inv l s -> accepting s <> AEnded ->
  (forall i, readers i l' = readers i l /\ writers i l' = writers i l /\ enders i l' = enders i l /\ lockers i l' = lockers i l) ->
  inHand l' = inHand l -> (forall f, TFact f ∈ l' -> TFact f ∈ l) ->
  match p with ABusy => exists o, accepts l' = [o] | _ => accepts l' = [] end ->
  (forall i c, conns s !! i = Some c -> done c <> EDone -> Some i ∈ accepts l -> Some i ∈ accepts l') ->
  Inv l' (set_accepting p s).
Proof.
  intros [Hd Hn Hpe Hno Hr Ha Hc Hh Hac Ht Hfa Hcl Hto] Hp Htok Ein Hf Hacc Hleft. split; try done; cbn.
  - intros i. destruct (Htok i) as (-> & -> & -> & ->). apply Hpe.
  - intros i. destruct (Htok i) as (-> & -> & -> & ->). apply Hno.
  - by rewrite Ein.
  - intros i c Hi Hdn. destruct (Ht i c Hi Hdn); [by left|]. right. by eapply Hleft.
  - intros f Hin. specialize (Hfa f (Hf f Hin)). by destruct f.
  - intros E. by destruct (Hcl E).
Qed.

Lemma accepts_busy l o s : Inv (TAccept o :: l) s -> accepting s = ABusy /\ accepts l = [].
Proof.
  intros Hi. pose proof (iv_accept _ _ _ _ _ Hi) as Ha. change (accepts (TAccept o :: l)) with (o :: accepts l) in Ha.
  destruct (accepting s); [done| |done]. by destruct Ha as (o' & [= _ ->]).
Qed.

Ltac facts := intros ?; rewrite ?elem_of_cons; naive_solver.

Lemma Inv_enterAccept l s : Inv l s -> accepting s = AWaiting -> Inv (TAccept None :: l) (set_accepting ABusy s).
Proof.
  intros Hi E. pose proof (iv_accept _ _ _ _ _ Hi) as Ha. rewrite E in Ha. eapply Inv_accepting; try done; [congruence|facts| |].
  - exists None. unfold accepts in *. cbn. by rewrite Ha.
  - intros i c _ _. rewrite Ha. set_solver.
Qed.

Lemma Inv_exitAccept l s p : Inv (TAccept None :: l) s -> p <> ABusy -> Inv l (set_accepting p s).
Proof.
  intros Hi Hp. destruct (accepts_busy _ _ _ Hi) as [E1 E2]. eapply Inv_accepting; try done; [congruence|facts| |].
  - by destruct p.
  - intros i c _ _. change (accepts (TAccept None :: l)) with (None :: accepts l). rewrite E2. set_solver.
Qed.

Lemma Inv_acceptFails l s b s' : Inv l s -> acceptFails s = Next b s' -> Inv l s'.
Proof.
  intros Hi. unfold acceptFails. destruct (accepting s) eqn:E; try by intros [= _ <-]. destruct (listening s); intros [= _ <-]; [done|].
  pose proof (iv_accept _ _ _ _ _ Hi) as Ha. rewrite E in Ha. eapply Inv_accepting; try done. congruence.
Qed.

Lemma Inv_track l s i b s' :
  Inv (TAccept (Some i) :: l) s -> track i s = Next b s' -> Inv (TAccept (if b then None else Some i) :: l) s'.
Proof.
  intros Hi. destruct (accepts_busy _ _ _ Hi) as [Eb Ea]. unfold track. destruct (draining s) eqn:Edr; intros [= <- <-]; [done|].
  destruct Hi as [Hd Hn Hpe Hno Hr Ha Hc Hh Hac Ht Hfa Hcl Hto]. split; try done; cbn.
  - rewrite Eb. exists None. unfold accepts in *. cbn. by rewrite Ea.
  - intros j c Hj Hdn. destruct (Ht j c Hj Hdn) as [|Hin]; [set_solver|].
    change (accepts (TAccept (Some i) :: l)) with (Some i :: accepts l) in Hin. rewrite Ea in Hin. set_solver.
  - intros f Hin. assert (TFact f ∈ TAccept (Some i) :: l) as Hin' by (rewrite elem_of_cons in *; naive_solver).
    specialize (Hfa f Hin'). destruct f; cbn in *; try done. destruct Hfa. congruence.
Qed.

(** The loop waits for a connection it will not track. *)
Lemma Inv_waited l s i b s' : Inv (TAccept (Some i) :: l) s -> waitDone i s = Next b s' -> Inv (TAccept None :: l) s'.
Proof.
  intros Hi. destruct (accepts_busy _ _ _ Hi) as [Eb Ea]. unfold waitDone. destruct (conns s !! i) as [c|] eqn:Hc; [|done].
  destruct (decide (done c = EDone)) as [Hdn|]; [|done]. intros [= _ <-].
  assert (s = set_accepting ABusy s) as -> by (destruct s; cbn in *; by subst).
  eapply Inv_accepting; try done; [congruence|facts| |].
  - exists None. unfold accepts in *. cbn. by rewrite Ea.
  - intros j d Hj Hnd. change (accepts (TAccept (Some i) :: l)) with (Some i :: accepts l). rewrite Ea.
    intros Hin. assert (j = i) as -> by set_solver. congruence.
Qed.

Lemma preNegCap_range : config_ok cfg -> 0 <= preNegCap cfg <= CapMaxFrameLen.
Proof.
  intros [_ _ Hp]. unfold preNegCap. case_if; [|done]. by split.
Qed.

(** A new connection and its session. *)
Lemma fresh_ok inp : config_ok cfg -> peer_ok [] [] [] [] (startConn cfg inp) (newSession cfg).
Proof.
  intros Hc. pose proof (preNegCap_range Hc) as Hp. change CapMaxFrameLen with (2 ^ 30) in Hp. split; try done.
  exists 0, []. split_and!; [apply Credit.books_zero; lia|by exists []|]. rewrite decide_False by done. auto.
Qed.

Lemma queued_new (m : gmap nat Conn) i inp : m !! i = None -> queued (<[i := startConn cfg inp]> m) ≡ₚ queued m.
Proof. intros Hi. unfold queued. by rewrite map_to_list_insert. Qed.

Lemma Inv_newConn l s inp :
  config_ok cfg -> Inv (TAccept None :: l) s ->
  Inv (TAccept (Some (nextConn s)) :: l) (set_nextConn (Datatypes.S (nextConn s))
    (set_conns (<[nextConn s := startConn cfg inp]> (conns s)) (set_sessions (<[nextConn s := newSession cfg]> (sessions s)) s))).
Proof.
  intros Hcfg Hi. destruct (accepts_busy _ _ _ Hi) as [Eb Ea]. destruct Hi as [Hd Hn Hpe Hno Hr Ha Hc Hh Hac Ht Hfa Hcl Hto].
  set (i := nextConn s) in *.
  assert (conns s !! i = None) as Hi0.
  { destruct (conns s !! i) eqn:E; [|done]. assert (i < nextConn s)%nat by (apply Hn; eauto). lia. }
  assert (sessions s !! i = None) as Hx0.
  { destruct (sessions s !! i) eqn:E; [|done]. assert (is_Some (conns s !! i)) as [? ?] by (apply Hd; eauto). congruence. }
  assert (forall j c, conns s !! j = Some c -> j <> i) as Hne by (intros j c Hj ->; congruence).
  assert (accepts (TAccept (Some i) :: l) = [Some i]) as Eacc by (unfold accepts in *; cbn; by rewrite Ea).
  split; cbn; rewrite ?Eacc; try done.
  - intros j. destruct (decide (i = j)) as [<-|Hj]; [by rewrite !lookup_insert_eq|by rewrite !lookup_insert_ne].
  - intros j. destruct (decide (i = j)) as [<-|Hj]; [rewrite lookup_insert_eq; split; [lia|done]|].
    rewrite lookup_insert_ne, Hn by done. subst i. lia.
  - intros j c x. destruct (decide (i = j)) as [<-|Hj].
    + rewrite !lookup_insert_eq. intros [= <-] [= <-]. destruct (Hno i Hi0) as (E1 & E2 & E3 & E4).
      cbn in E1, E2, E3, E4. rewrite E1, E2, E3, E4. by apply fresh_ok.
    + rewrite !lookup_insert_ne by done. apply Hpe.
  - intros j. destruct (decide (i = j)) as [<-|Hj]; [by rewrite lookup_insert_eq|]. rewrite lookup_insert_ne by done. apply Hno.
  - intros j c x. rewrite !lookup_insert_Some. intros [[E <-]|[Hj Hjc]] [[E' <-]|[Hj' Hjx]]; try done. by eapply Ha.
  - intros j k Hk. destruct (Hc j k Hk) as (x & Hx & Hrest). exists x. rewrite lookup_insert_ne; [done|]. intros <-. congruence.
  - by rewrite queued_new.
  - rewrite Eb. eauto.
  - intros j c. rewrite lookup_insert_Some. intros [[E <-]|[Hj Hjc]] Hdn; [right; rewrite E; set_solver|].
    destruct (Ht j c Hjc Hdn) as [|Hin]; [by left|]. change (accepts (TAccept None :: l)) with (None :: accepts l) in Hin.
    rewrite Ea in Hin. set_solver.
  - intros f Hin. assert (TFact f ∈ TAccept None :: l) as Hin' by (rewrite elem_of_cons in *; naive_solver).
    specialize (Hfa f Hin'). destruct f as [j|cs| |j id]; cbn in *; try done.
    + destruct Hfa as (c & Hj & Hdn). exists c. rewrite lookup_insert_ne; [done|]. by apply not_eq_sym, (Hne j c).
    + destruct Hfa as (c & Hj & Hcr). exists c. rewrite lookup_insert_ne; [done|]. by apply not_eq_sym, (Hne j c).
  - intros E. destruct (Hcl E). congruence.
Qed.

Lemma Inv_Accept l s inp o s' :
  config_ok cfg -> Inv (TAccept None :: l) s -> Accept cfg inp s = Next o s' -> Inv (TAccept o :: l) s'.
Proof.
  intros Hcfg Hi. pose proof (Inv_newConn _ _ inp Hcfg Hi) as Hi'. unfold Accept.
  destruct (0 <? MaxConns cfg); [destruct (MaxConns cfg <? live s + 1)|]; intros [= <- <-].
  - by eapply Inv_only.
  - eapply Inv_only; [exact Hi'|]. by repeat split.
  - exact Hi'.
Qed.

(** ** Draining *)

Lemma Inv_untrack l s i : Inv (TFact (Gone i) :: l) s -> Inv l (set_tracked (tracked s ∖ {[i]}) s).
Proof.
  intros Hi. assert (fact_ok iw sha256 s (Gone i)) as (ci & Hci & Hdi) by (eapply (fact_of _ _ _ _ _ _ Hi); by constructor).
  apply Inv_unfact in Hi. destruct Hi as [Hd Hn Hpe Hno Hr Ha Hc Hh Hac Ht Hfa Hcl Hto]. split; try done; cbn.
  - intros j c Hj Hdn. destruct (Ht j c Hj Hdn) as [Hin|]; [|by right]. left. assert (j <> i) by (intros ->; congruence). set_solver.
  - intros f Hin. specialize (Hfa f Hin). destruct f; cbn in *; try done. destruct Hfa. split; [done|]. set_solver.
Qed.

Lemma Inv_draining l s : Inv l s -> Inv (TFact (Draining (elements (tracked s))) :: l) (set_draining true s).
Proof.
  intros Hi. apply Inv_fact; [|cbn; split; [done|]; intros i; by rewrite elem_of_elements].
  destruct Hi as [Hd Hn Hpe Hno Hr Ha Hc Hh Hac Ht Hfa Hcl Hto]. split; try done.
  intros f Hin. specialize (Hfa f Hin). destruct f; cbn in *; try done. by destruct Hfa.
Qed.

(** The store is closed only when nothing runs that could use it. *)
Lemma Inv_storeClosed l s cs :
  Inv l s -> TFact (Draining cs) ∈ l -> (forall i, i ∈ cs -> TFact (Gone i) ∈ l) -> TFact Stopped ∈ l ->
  Inv l (set_storeClosed true s).
Proof.
  intros Hi Hdr Hg Hst. pose proof (fact_of _ _ _ _ _ _ Hi Hdr) as [_ Hcs]. pose proof (fact_of _ _ _ _ _ _ Hi Hst) as Est. cbn in Est.
  pose proof (fun i Hin => fact_of _ _ _ _ _ _ Hi (Hg i Hin)) as Hgone.
  destruct Hi as [Hd Hn Hpe Hno Hr Ha Hc Hh Hac Ht Hfa Hcl Hto]. rewrite Est in Hac. split; try done; cbn.
  - by rewrite Est.
  - intros _. split; [done|]. intros i c Hic. cbn in Hic. destruct (decide (done c = EDone)) as [|Hdn]; [done|].
    destruct (Ht i c Hic Hdn) as [Hin|Hin]; [|rewrite Hac in Hin; set_solver].
    destruct (Hgone i (Hcs i Hin)) as (c' & Hic' & Hdn'). congruence.
Qed.

Lemma Inv_New st r : Registry.reg_ok r -> Inv [] (New st r).
Proof.
  intros Hr. split; try done; cbn; intros; try set_solver.
  all: rewrite !lookup_empty; split; [by intros [? ?]|try lia; by intros [? ?]].
Qed.

(** ** The store while a loop runs *)

(** A goroutine of a connection that is not finished. *)
Definition running (l : list tok) : Prop := exists i, (exists r, TReader i r ∈ l) \/ TWriter i ∈ l \/ exists n, TEnd i n ∈ l.

Lemma Inv_notDone l s i : Inv l s -> (exists r, TReader i r ∈ l) \/ TWriter i ∈ l \/ (exists n, TEnd i n ∈ l) ->
  exists c, conns s !! i = Some c /\ done c <> EDone.
Proof.
  intros Hi [[r Hin]|[Hin|[n Hin]]]; apply elem_of_Permutation in Hin as [l' Hl]; eapply Inv_reorder in Hi; try exact Hl.
  - destruct (Inv_reader _ _ _ _ _ _ _ Hi) as (c & x & Hc & _ & Hr & _ & _ & _ & _ & _ & _ & Hp). exists c. split; [done|].
    intros E. destruct (pr_ended _ _ _ _ _ _ _ Hp); [by rewrite E|]. congruence.
  - destruct (conns s !! i) as [c|] eqn:Hc.
    2:{ destruct (iv_none _ _ _ _ _ Hi i Hc) as (_ & E & _). by rewrite writers_cons in E. }
    assert (is_Some (sessions s !! i)) as [x Hx] by (apply (iv_dom _ _ _ _ _ Hi); eauto). exists c. split; [done|]. intros E.
    pose proof (iv_peer _ _ _ _ _ Hi i c x Hc Hx) as Hp. destruct (pr_ended _ _ _ _ _ _ _ Hp) as [_ Ew]; [by rewrite E|].
    pose proof (pr_writer _ _ _ _ _ _ _ Hp) as Hw. rewrite writers_cons, Ew in Hw. rewrite decide_False in Hw by naive_solver. done.
  - destruct (Inv_ender _ _ _ _ _ _ _ Hi) as (c & x & Hc & _ & Hd & _). exists c. split; [done|]. congruence.
Qed.

Lemma running_open l s : Inv l s -> running l -> storeClosed s = false.
Proof.
  intros Hi [i Hr]. destruct (Inv_notDone _ _ _ Hi Hr) as (c & Hc & Hd). destruct (storeClosed s) eqn:E; [|done].
  destruct (iv_closed _ _ _ _ _ Hi E) as [_ Hall]. by destruct Hd; apply (Hall i).
Qed.

Lemma running_app l l' : running l -> running (l ++ l').
Proof. intros [i Hr]. exists i. setoid_rewrite elem_of_app. naive_solver. Qed.

Lemma running_reader i r (l : list tok) : running (TReader i r :: l).
Proof. exists i. left. exists r. by left. Qed.

Lemma running_writer i (l : list tok) : running (TWriter i :: l).
Proof. exists i. right. left. by left. Qed.

Lemma running_ender i n (l : list tok) : running (TEnd i n :: l).
Proof. exists i. right. right. exists n. by left. Qed.

End Life.
End SrvLife.
