(* ===== verification/ServerSafe.v ===== *)
(** The handlers keep the invariant: the read loop, its frame handlers, the write
    loop, the final drain, the reaper, the accept loop and the shutdown. *)

From Stdlib Require Import ZArith Lia.
From coqutil Require Import Byte Word.LittleEndianList.
From stdpp Require Import base numbers list gmap sets strings.
From S2P Require Import Prelude.
From S2P Require Import Conc.
From S2P Require Import Wire.
From S2P Require Import Bodies.
From S2P Require Import Tenant.
From S2P Require Import Credit.
From S2P Require Import ServerState.
From S2P Require Import Transport.
From S2P Require Import Session.
From S2P Require Import Server.
From S2P Require Import ServerInv.
From S2P Require Import ServerTable.
From S2P Require Import ServerActs.
Import Conc Ops Hdr Srv Transport Session Server SrvInv SrvTable SrvActs.
From S2P Require Import ServerMoves.
From S2P Require Import ServerLife.
Import Conc Ops Hdr Srv Transport Session Server SrvInv SrvTable SrvActs SrvMoves SrvLife.
Open Scope Z_scope.
Open Scope conc_scope.

Module SrvSafe.

Section Safe.
Context {St : Type} `{BS : !BlockStore St} `{XX : !Xxh3} `{HA : !Hasher} `{NE : !Net}.
Context (cfg : Config) (iw : Z) (sha256 : bytes -> bytes) (scopeStatsToNS : bytes -> Z -> bytes).

Abbreviation S := (Server St hold hasher).
Abbreviation Conn := (Conn hold).
Abbreviation session := (session hasher).
Abbreviation tok := (tok hold).
Abbreviation Inv := (Inv cfg iw sha256).
Abbreviation safe := (safe (fun _ => true) Inv).
Abbreviation holds i rel := ((fun h => THold i h) <$> rel).

(** ** Rules *)

(** An action that changes nothing the invariant speaks of. *)
Lemma safe_skip {A B} (own : list tok) (Q : A -> list tok -> Prop) (m : act S B) (k : B -> prog S A) (P : B -> Prop) :
  (forall s b s', m s = Next b s' -> (s' = s \/ only_store s s') /\ P b) ->
  (forall b, P b -> safe own Q (k b)) -> safe own Q (Atom B m k).
Proof.
  intros Hm Hk rest s b s' _ Hi E. destruct (Hm s b s' E) as [[->|Ho] Hb]; exists own; (split; [|by apply Hk]); [done|].
  by eapply Inv_only.
Qed.

Lemma safe_must {A B} own Q (o : option B) (k : B -> prog S A) :
  (forall b, o = Some b -> safe own Q (k b)) -> safe own Q (Atom B (must o) k).
Proof.
  intros Hk. apply (safe_skip _ _ _ _ (fun b => o = Some b)); [|done]. unfold must. intros s b s'. destruct o; [|done]. intros [= <- <-]. auto.
Qed.

Lemma safe_ask {A B} own Q (f : nat -> B) (k : B -> prog S A) :
  (forall n, safe own Q (k (f n))) -> safe own Q (Atom B (ask f) k).
Proof.
  intros Hk. apply (safe_skip _ _ _ _ (fun b => exists n, b = f n)); [|by intros b [n ->]].
  intros s b s' [= <- <-]. split; [by right|eauto].
Qed.

Lemma safe_ofConn {A B} own Q i (f : Conn -> B) (k : B -> prog S A) :
  (forall c, safe own Q (k (f c))) -> safe own Q (Atom B (ofConn i f) k).
Proof.
  intros Hk. apply (safe_skip _ _ _ _ (fun b => exists c, b = f c)); [|by intros b [n ->]].
  intros s b s' (-> & c & _ & ->)%ofConn_inv. eauto.
Qed.

(** The store is used only by goroutines of live connections. *)
Lemma safe_zoom {A} own (p : Conc.prog St A) : running own -> safe own (fun _ o => o = own) (zoom p).
Proof.
  intros Hr. induction p as [a|B m k IH]; [done|]. intros rest s b s' _ Hi E. exists own. split; [|apply IH].
  eapply Inv_only; [exact Hi|]. eapply only_inStore; [|exact E]. eapply running_open; [exact Hi|]. by apply running_app.
Qed.

Lemma safe_Close {A} own Q i (k : unit -> prog S A) : safe own Q (k tt) -> safe own Q (Atom _ (Close i) k).
Proof. intros Hk rest s [] s' _ Hi E. exists own. split; [by eapply Inv_Close|done]. Qed.

Lemma safe_release i h E F : running (E ++ F) -> safe (E ++ THold i h :: F) (fun _ o => o = E ++ F) (release i h).
Proof.
  intros Hr rest s [] s' _ Hi [= <-]. exists (E ++ F). split; [|by apply safe_zoom]. apply Inv_released.
  eapply Inv_reorder; [|exact Hi]. rewrite <- !app_assoc. symmetry. apply Permutation_middle.
Qed.

Lemma safe_fire i rel E F : running (E ++ F) -> safe (E ++ holds i rel ++ F) (fun _ o => o = E ++ F) (fire i rel).
Proof.
  intros [j Hr]. induction rel as [|h rel IH]; [done|]. eapply safe_bind; [apply safe_release|by intros _ ? ->].
  exists j. setoid_rewrite elem_of_app. setoid_rewrite elem_of_app in Hr. setoid_rewrite elem_of_app. naive_solver.
Qed.

(** ** The read loop's responses *)

(** What the session says to its own read loop. *)
Lemma safe_session {A B} i r F Q (f : session -> B) (k : B -> prog S A) :
  (forall x, authOf x = rd_auth r -> limits_agreed cfg x -> safe (TReader i r :: F) Q (k (f x))) ->
  safe (TReader i r :: F) Q (Atom B (ofSession i f) k).
Proof.
  intros Hk rest s b s' _ Hi (-> & x & Hx & ->)%ofSession_inv. exists (TReader i r :: F). split; [done|].
  destruct (Inv_reader _ _ _ _ _ _ _ Hi) as (c & x0 & _ & Hx0 & _ & _ & _ & Hra & _ & _ & _ & Hp).
  assert (x0 = x) as -> by congruence. apply Hk; [done|]. by destruct Hp.
Qed.

Lemma safe_calling {B} i r F k n lim (p : Conc.prog St B) :
  rd_auth r = Some (n, lim) -> callNS k = n -> call_ok lim k ->
  safe (TReader i r :: F) (fun _ o => o = TReader i r :: F) (calling i k p).
Proof.
  intros Ha Hn Hk rest s [] s' _ Hi [= <-]. exists (TReader i r :: F). split; [by eapply Inv_calls|]. apply safe_zoom, running_reader.
Qed.

Lemma safe_WriteFrames i r hdr bufs rel :
  length (Key hdr) = 32%nat ->
  safe (TReader i r :: holds i rel) (fun _ o => o = [TReader i (partial (set_PayloadLen (u32 (totalOf bufs)) hdr) r)])
    (WriteFrames i hdr bufs rel).
Proof.
  intros Hk rest s [] s' _ Hi E. set (r' := partial _ r).
  exists (TReader i r' :: holds i rel). split; [by eapply Inv_emit|]. apply safe_ofConn. intros c.
  pose proof (safe_fire i rel [TReader i r'] [] (running_reader _ _ _)) as Hfire. rewrite app_nil_r in Hfire.
  destruct (closed c); [done|]. intros rest' s1 ok s2 _ Hi' E'. pose proof (Inv_enqueue _ _ _ rest' _ _ _ (mkReq (set_PayloadLen (u32 (totalOf bufs)) hdr) bufs rel) _ _ Hi' Hk E') as Hi2.
  destruct ok; [by exists [TReader i r']|by exists (TReader i r' :: holds i rel)].
Qed.

(** The token of a read loop that has answered [h] once more. *)
Definition sent_one (i : nat) (h : Header) (r : reading) (o : list tok) : Prop :=
  exists g, o = [TReader i (partial g r)] /\ echoes h g /\ more g = false.

(** The frame at hand is done with: its bytes are granted and it is answered. *)
Definition replied (i : nat) (h : Header) (r : reading) (o : list tok) : Prop :=
  exists r', o = [TReader i r'] /\ rd_debit r' = 0 /\ rd_input r' = rd_input r /\ answers h (rd_part r').

Lemma sent_replied i h r r' o :
  rd_part r' = [] -> rd_debit r' = 0 -> rd_input r' = rd_input r -> sent_one i h r' o -> replied i h r o.
Proof.
  intros Hp Hd Hin (g & -> & He & Hm). eexists. split; [done|]. cbn. rewrite Hp. split_and!; try done. right. right. exists [], g. done.
Qed.

Lemma safe_writeRespFlags i h r flags bufs rel :
  safe (TReader i r :: holds i rel)
    (fun _ o => exists g, o = [TReader i (partial g r)] /\ Opcode g = Opcode h /\ RequestID g = RequestID h /\ Flags g = flags)
    (writeRespFlags i h flags bufs rel).
Proof.
  apply safe_session. intros x _ _. eapply safe_mono; [|by apply safe_WriteFrames]. intros _ o ->. by eexists.
Qed.

Lemma safe_writeResp i h r body : safe [TReader i r] (fun _ o => sent_one i h r o) (writeResp i h body).
Proof. eapply safe_mono; [|apply (safe_writeRespFlags i h r FlagResp _ [])]. intros _ o (g & -> & E1 & E2 & E3). exists g. unfold echoes, more. by rewrite E3. Qed.

Lemma safe_respondStatus i h r st : safe [TReader i r] (fun _ o => sent_one i h r o) (respondStatus i h st).
Proof. apply safe_writeResp. Qed.

Lemma safe_consume {A} i h r F Q (k : unit -> prog S A) :
  rd_debit r = PayloadLen h -> PayloadLen h < 2 ^ 32 -> safe (TReader i (debit 0 r) :: F) Q (k tt) ->
  safe (TReader i r :: F) Q (Atom _ (consume i h) k).
Proof.
  intros Hd Hl Hk rest s [] s' _ Hi E. exists (TReader i (debit 0 r) :: F). split; [|done]. by eapply Inv_GrantCredit.
Qed.

(** ** HELLO *)

Lemma safe_fatal i h r bufs hdr :
  rd_part r = [] -> rd_debit r = 0 -> length (Key hdr) = 32%nat -> Z.testbit (Flags hdr) 2 = true ->
  safe [TReader i r] (fun _ o => replied i h r o) (WriteFrames i hdr bufs [];; _ ⇐ Close i; mret tt).
Proof.
  intros Hp Hd Hk Hf. eapply safe_bind; [by apply (safe_WriteFrames i r hdr bufs [])|]. intros _ o ->. apply safe_Close.
  eexists. split; [done|]. cbn. rewrite Hp. split_and!; try done. right. left. by eexists.
Qed.

Lemma safe_fatalHello i h r st :
  rd_part r = [] -> rd_debit r = 0 -> safe [TReader i r] (fun _ o => replied i h r o) (fatalHello i h st).
Proof. intros Hp Hd. by apply safe_fatal. Qed.

Lemma hello_limits body req :
  Body.DecodeHelloReq iw body = Some (req, None) -> fits 32 (Body.hr_MaxBatchKeys req) /\ fits 32 (Body.hr_MaxFrameLen req).
Proof.
  unfold Body.DecodeHelloReq. case_if; [done|]. intros E.
  repeat match type of E with
  | (?o ≫= _) = _ => let H := fresh "E" in destruct o eqn:H; cbn in E; [|done]
  | (if ?b then _ else _) = _ => destruct b; [done|]
  end.
  injection E as <-. cbn. split; by eapply (le_at_value 4).
Qed.

Lemma negotiated_ok req :
  config_ok cfg -> fits 32 (Body.hr_MaxBatchKeys req) -> fits 32 (Body.hr_MaxFrameLen req) ->
  let lim := Body.NegotiateLimits (WireLimits cfg) (Body.hr_MaxBatchKeys req) (Body.hr_MaxFrameLen req) in
  BodyFacts.limits_ok lim /\ 0 <= Body.MaxFrameLen lim <= CapMaxFrameLen /\
  Body.MaxBlobLen lim + Body.GetRespHeaderSize 1 <= Body.MaxFrameLen lim.
Proof.
  intros [Hl Hf _] Hk Hm lim. destruct (BodyFacts.negotiate_limits_post (WireLimits cfg) _ _ Hl Hk Hm) as (H1 & H2 & _ & H3 & _).
  fold lim in H1, H2, H3. split_and!; try done; [|lia]. destruct H1 as [_ [H1 _] _ _]. change FloorMaxFrameLen with 16777216 in H1. lia.
Qed.

Lemma safe_accept i h r req id :
  config_ok cfg -> rd_part r = [] -> rd_debit r = 0 -> rd_auth r = None -> fits 32 (Body.hr_MaxBatchKeys req) -> fits 32 (Body.hr_MaxFrameLen req) ->
  safe [TReader i r; TFact (Cred i id)] (fun _ o => replied i h r o) (accept cfg iw i h req id).
Proof.
  intros Hcfg Hp Hd Ha Hk Hm. destruct (negotiated_ok req Hcfg Hk Hm) as (Hl1 & Hl2 & Hl3). unfold accept.
  set (lim := Body.NegotiateLimits _ _ _) in *. intros rest s [] s' _ Hi E. exists [TReader i (capped (Body.MaxFrameLen lim) r); TFact (Cred i id)]. split.
  { eapply (Inv_SetLimits _ _ _ (TFact (Cred i id) :: rest)); try done. destruct Hl1 as [_ _ _ [H1 H2]]. change FloorInitialCredit with 16777216 in H1. lia. }
  clear -Hcfg Hp Hd Ha Hl1 Hl2 Hl3. intros rest s [] s' _ Hi E. destruct Hl2.
  exists [TReader i (admitted id lim (capped (Body.MaxFrameLen lim) r))]. split; [by eapply (Inv_set_auth _ _ _ rest)|].
  eapply safe_mono; [|apply safe_writeResp]. intros ? o. by apply sent_replied.
Qed.

Lemma safe_handleHello i h r body pre hb post cap err :
  config_ok cfg -> rd_part r = [] -> rd_debit r = PayloadLen h -> PayloadLen h < 2 ^ 32 -> rd_auth r = None ->
  rd_input r = pre ++ hb ++ body ++ post -> ParseHeader hb cap = Some (h, err) -> Opcode h = OpHello ->
  safe [TReader i r] (fun _ o => replied i h r o) (handleHello cfg iw sha256 i h body).
Proof.
  intros Hcfg Hp Hd Hl Ha Hin Hph Hop. apply safe_must. intros [req e] Ereq. apply safe_consume; [done..|].
  assert (forall st, safe [TReader i (debit 0 r)] (fun _ o => replied i h r o) (fatalHello i h st)) as Hfat.
  { intros st. eapply safe_mono; [|by apply safe_fatalHello]. intros _ o (r' & -> & H1 & H2 & H3). by exists r'. }
  case_bool_decide as He; [apply Hfat|]. case_if; [apply Hfat|].
  assert (e = None) as -> by (destruct e; [by exfalso; eauto|done]).
  intros rest s [id ok] s' _ Hi [= E <-]. destruct ok; cbn; [|exists [TReader i (debit 0 r)]; split; [done|apply Hfat]].
  exists [TReader i (debit 0 r); TFact (Cred i id)]. split.
  - eapply Inv_reorder; [apply (Permutation_middle [_])|]. apply (Inv_fact _ _ _ ([TReader i (debit 0 r)] ++ rest)); [done|].
    destruct (Inv_reader _ _ _ _ _ _ _ Hi) as (c & x & Hc & _ & _ & _ & Hri & _). cbn in Hri. exists c. split; [done|].
    exists (goString (Body.Namespace req)), (Body.Token req). split; [|done].
    exists pre, hb, body, post, cap, h, err, req. by rewrite <- Hri.
  - destruct (hello_limits _ _ Ereq) as [Hk Hm]. exact (safe_accept i h (debit 0 r) req id Hcfg Hp eq_refl Ha Hk Hm).
Qed.

(** ** The verbs *)

(** What is known when the handler of a verb begins. *)
Record fresh (h : Header) (r : reading) (n : Z) (lim : Body.Limits) : Prop := mkFresh {
  fr_part : rd_part r = [];
  fr_debit : rd_debit r = PayloadLen h;
  fr_len : PayloadLen h < 2 ^ 32;
  fr_auth : rd_auth r = Some (n, lim)
}.

Lemma authOf_some (x : session) n lim : authOf x = Some (n, lim) -> ns x = n /\ limits x = lim /\ authed x = true.
Proof. unfold authOf. destruct (authed x); [|done]. by intros [= -> ->]. Qed.

(** The last step of a handler that has granted the bytes. *)
Lemma safe_last i h r (p : prog S unit) :
  rd_part r = [] -> safe [TReader i (debit 0 r)] (fun _ o => sent_one i h (debit 0 r) o) p ->
  safe [TReader i (debit 0 r)] (fun _ o => replied i h r o) p.
Proof. intros Hp Hs. eapply safe_mono; [|exact Hs]. intros ? o. by apply sent_replied. Qed.

Lemma safe_lastStatus i h r st :
  rd_part r = [] -> safe [TReader i (debit 0 r)] (fun _ o => replied i h r o) (respondStatus i h st).
Proof. intros Hp. apply safe_last; [done|]. apply safe_respondStatus. Qed.

Lemma safe_lastResp i h r b :
  rd_part r = [] -> safe [TReader i (debit 0 r)] (fun _ o => replied i h r o) (writeResp i h b).
Proof. intros Hp. apply safe_last; [done|]. apply safe_writeResp. Qed.

Lemma safe_decodeKeys {A} i h body r n lim (k : option (Z * list bytes) -> prog S A) Q :
  fresh h r n lim -> (forall o, replied i h r o -> safe o Q (k None)) ->
  (forall aux keys, safe [TReader i (debit 0 r)] Q (k (Some (aux, keys)))) ->
  safe [TReader i r] Q (o ← decodeKeys iw i h body; k o).
Proof.
  intros [Hp Hd Hl Ha] Hno Hyes.
  apply (safe_bind _ _ _ _ (fun o own => match o with Some _ => own = [TReader i (debit 0 r)] | None => replied i h r own end)).
  2:{ intros [[aux keys]|] own Ho; [by rewrite Ho|by apply Hno]. }
  apply safe_session. intros x _ _. apply safe_must. intros [[aux keys] err] _. apply safe_consume; [done..|].
  destruct err; [|done]. eapply safe_bind; [by apply safe_lastStatus|]. done.
Qed.

Lemma safe_handleBatchExists i h body r n lim :
  fresh h r n lim -> safe [TReader i r] (fun _ o => replied i h r o) (handleBatchExists iw i h body).
Proof.
  intros Hf. eapply safe_decodeKeys; [done|done|]. intros _ keys. destruct Hf as [Hp Hd Hl Ha].
  apply safe_session. intros x Hx _. cbn in Hx. rewrite Ha in Hx. apply authOf_some in Hx as (-> & _ & _).
  eapply safe_bind; [by eapply safe_calling|]. intros [nc pk] ? ->. by apply safe_lastResp.
Qed.

(** One key after the other: what each leaves, the next begins with. *)
Lemma safe_perKey own (f : bytes -> prog S Z) keys :
  (forall key, safe own (fun _ o => o = own) (f key)) -> safe own (fun _ o => o = own) (perKey f keys).
Proof.
  intros Hf. induction keys as [|key keys IH]; [done|]. eapply safe_bind; [apply Hf|]. intros st ? ->.
  eapply safe_bind; [apply IH|]. by intros sts ? ->.
Qed.

Lemma safe_keyStatus i h r n lim ttl key F :
  rd_auth r = Some (n, lim) -> safe (TReader i r :: F) (fun _ o => o = TReader i r :: F) (keyStatus i h n ttl key).
Proof.
  intros Ha. unfold keyStatus. destruct bs_lifecycle as [lc|].
  - case_if; by eapply safe_calling.
  - eapply safe_bind; [by eapply safe_calling|]. by intros hit ? ->.
Qed.

Lemma safe_handleKeyStatusVerb i h body r n lim :
  fresh h r n lim -> safe [TReader i r] (fun _ o => replied i h r o) (handleKeyStatusVerb iw i h body).
Proof.
  intros Hf. unfold handleKeyStatusVerb. case_if.
  { destruct Hf as [Hp Hd Hl Ha]. apply safe_consume; [done..|]. by apply safe_lastStatus. }
  eapply safe_decodeKeys; [done|done|]. intros ttl keys. destruct Hf as [Hp Hd Hl Ha].
  apply safe_session. intros x Hx _. cbn in Hx. rewrite Ha in Hx. apply authOf_some in Hx as (-> & _ & _).
  eapply safe_bind; [apply safe_perKey; intros key; by eapply safe_keyStatus|]. intros sts ? ->. by apply safe_lastResp.
Qed.

Lemma safe_handleDelete i h body r n lim :
  fresh h r n lim -> safe [TReader i r] (fun _ o => replied i h r o) (handleDelete iw i h body).
Proof.
  intros Hf. eapply safe_decodeKeys; [done|done|]. intros _ keys. destruct Hf as [Hp Hd Hl Ha].
  apply safe_session. intros x Hx _. cbn in Hx. rewrite Ha in Hx. apply authOf_some in Hx as (-> & _ & _).
  eapply safe_bind; [apply safe_perKey; intros key; by eapply safe_calling|]. intros sts ? ->. by apply safe_lastResp.
Qed.

Lemma safe_handleStats i h body r n lim :
  fresh h r n lim -> safe [TReader i r] (fun _ o => replied i h r o) (handleStats scopeStatsToNS i h body).
Proof.
  intros [Hp Hd Hl Ha]. apply safe_must. intros [v err] _. apply safe_consume; [done..|]. destruct err; [by apply safe_lastStatus|].
  apply safe_session. intros x Hx _. cbn in Hx. rewrite Ha in Hx. apply authOf_some in Hx as (-> & _ & _).
  eapply safe_bind; [by eapply safe_calling|]. intros doc ? ->. by apply safe_lastResp.
Qed.

(** ** GET *)

Lemma safe_fetch i r n lim key rels :
  rd_auth r = Some (n, lim) ->
  safe (TReader i r :: holds i rels) (fun a o => o = TReader i r :: holds i (rels ++ releaseOf a)) (fetch i n key).
Proof.
  intros Ha. unfold fetch. eapply (safe_bind _ _ _ _ (fun _ o => o = TReader i r :: holds i rels)).
  { destruct bs_Get as [f|f|f]; [by eapply safe_calling|..].
    all: eapply safe_bind; [by eapply safe_calling|]; by intros o ? ->. }
  intros a ? ->. assert (safe (TReader i r :: holds i rels) (fun _ o => o = TReader i r :: holds i (rels ++ [])) (Done (S := S) a)) as Hnil
    by (cbn; by rewrite app_nil_r).
  destruct a as [data sum [h|] tier|st]; [|exact Hnil..]. clear Hnil.
  intros rest s [] s' _ Hi [= <-]. exists (TReader i r :: holds i (rels ++ [h])). split; [|done].
  apply (Inv_acquired _ _ _ _ _ i h) in Hi. eapply Inv_reorder; [|exact Hi]. rewrite fmap_app. cbn. rewrite <- app_assoc.
  rewrite perm_swap. f_equiv. apply Permutation_middle.
Qed.

Lemma safe_pack i r n lim maxFrame keys : rd_auth r = Some (n, lim) -> forall descs bufs rels payload,
  safe (TReader i r :: holds i rels) (fun res o => o = TReader i r :: holds i res.1.2) (pack i n maxFrame keys descs bufs rels payload).
Proof.
  intros Ha. induction keys as [|key keys IH]; intros descs bufs rels payload; cbn [pack]; [done|].
  eapply safe_bind; [by eapply safe_fetch|]. intros a ? ->. case_if; [|apply IH].
  apply (safe_bind _ _ _ _ (fun _ o => o = TReader i r :: holds i rels)); [|by intros ? ? ->].
  pose proof (safe_fire i (releaseOf a) (TReader i r :: holds i rels) [] (running_reader _ _ _)) as Hf. rewrite !app_nil_r in Hf.
  by rewrite fmap_app.
Qed.

(** Frames that say that more follow. *)
Definition pending (h : Header) (r : reading) : Prop := Forall (fun g => echoes h g /\ more g = true) (rd_part r).

Lemma safe_getFrames i h maxFrame total n lim : forall fuel keys r,
  rd_auth r = Some (n, lim) -> pending h r -> rd_debit r = 0 -> keys <> [] ->
  safe [TReader i r] (fun _ o => replied i h r o) (getFrames fuel i h n maxFrame total keys).
Proof.
  induction fuel as [|fuel IH]; intros keys r Ha Hp Hd Hk; (destruct keys as [|key keys]; [done|]); [by intros rest s b s' _ _ [=]|].
  cbn [getFrames]. eapply safe_bind; [by apply (safe_pack i r n lim maxFrame (key :: keys) Ha [] [] [] 0)|].
  intros [[[descs bufs] rels] left] ? ->. cbn [fst snd]. apply safe_must. intros region _.
  eapply safe_bind; [apply safe_writeRespFlags|]. intros _ o (g & -> & E1 & E2 & E3). destruct (decide (left = [])) as [->|Hne].
  - rewrite bool_decide_true in E3 by done. assert (replied i h r [TReader i (partial g r)]) as Hr; [|by destruct fuel].
    exists (partial g r). split_and!; try done. right. right. exists (rd_part r), g. unfold echoes, more. by rewrite E3.
  - rewrite bool_decide_false in E3 by done. eapply safe_mono; [|apply IH; try done].
    + intros ? o (r' & -> & H1 & H2 & H3). by exists r'.
    + apply Forall_app. split; [done|]. constructor; [|done]. unfold echoes, more. by rewrite E3.
Qed.

Lemma safe_handleBatchGet i h body r n lim :
  fresh h r n lim -> safe [TReader i r] (fun _ o => replied i h r o) (handleBatchGet iw i h body).
Proof.
  intros Hf. eapply safe_decodeKeys; [done|done|]. intros _ keys. destruct Hf as [Hp Hd Hl Ha].
  apply safe_session. intros x Hx _. cbn in Hx. rewrite Ha in Hx. apply authOf_some in Hx as (-> & _ & _).
  case_bool_decide as Hk.
  - apply safe_must. intros region _. apply safe_last; [done|]. eapply safe_mono; [|apply (safe_writeRespFlags i h _ FlagResp _ [])].
    intros _ o (g & -> & E1 & E2 & E3). exists g. unfold echoes, more. by rewrite E3.
  - eapply safe_mono; [|by eapply safe_getFrames; [| |reflexivity|done]; [done|unfold pending; cbn; rewrite Hp]].
    intros ? o (r' & -> & H1 & H2 & H3). by exists r'.
Qed.

(** ** PUT streams *)

Lemma putBegin_len body b :
  Body.DecodePutBegin body = Some (b, None) -> 0 <= Body.TotalLen b.
Proof.
  unfold Body.DecodePutBegin. case_if; [done|]. intros E.
  repeat match type of E with
  | (?o ≫= _) = _ => let H := fresh "E" in destruct o eqn:H; cbn in E; [|done]
  | (if ?b then _ else _) = _ => destruct b; [done|]
  end.
  injection E as <-. cbn. by eapply (le_at_value 4).
Qed.

(** In the lock's section the lock stays held. *)
Definition inside (i : nat) (r : reading) (o : list tok) : Prop := exists k, o = [TReader i r; TLock i k].

Lemma safe_seen {A B} i r k k' Q (f : session -> B) (g : B -> prog S A) :
  (forall x, authOf x = rd_auth r -> lock_ok x k -> lock_ok x (k' (f x))) ->
  (forall x, authOf x = rd_auth r -> safe [TReader i r; TLock i (k' (f x))] Q (g (f x))) ->
  safe [TReader i r; TLock i k] Q (Atom B (ofSession i f) g).
Proof.
  intros Hk Hg rest s b s' _ Hi (-> & x & Hx & ->)%ofSession_inv.
  destruct (Inv_reader _ _ _ _ _ _ _ Hi) as (c & x0 & _ & Hx0 & _ & _ & _ & Hra & _). assert (x0 = x) as -> by congruence.
  exists [TReader i r; TLock i (k' (f x))]. split; [|by apply Hg].
  eapply Inv_reorder; [apply perm_swap|]. eapply Inv_reorder in Hi; [|apply perm_swap].
  destruct (Inv_locker _ _ _ _ _ _ _ Hi) as (c1 & x0 & _ & Hx1 & _ & _ & Hlk & _). assert (x0 = x) as -> by congruence.
  eapply Inv_seen; [done..|]. by apply Hk.
Qed.

Lemma safe_probe i r n lim len F :
  rd_auth r = Some (n, lim) -> safe (TReader i r :: F) (fun _ o => o = TReader i r :: F) (probe i n len).
Proof. intros Ha. unfold probe. destruct bs_quota; [by eapply safe_calling..|done]. Qed.

Lemma safe_beginLocked i h b sealed r n lim :
  rd_auth r = Some (n, lim) -> 0 <= Body.TotalLen b ->
  safe [TReader i r; TLock i unseen] (fun _ o => inside i r o) (beginLocked i h b sealed).
Proof.
  intros Ha Hb. set (k1 x := mkLocking (if liveStream (RequestID h) x then None else Some (RequestID h)) false).
  apply (safe_seen _ _ _ k1); [|intros x Hx; cbn].
  { intros x _ _. split; [|done]. intros id. cbn. destruct (liveStream (RequestID h) x) eqn:E; [done|]. by intros [= <-]. }
  rewrite Ha in Hx. apply authOf_some in Hx as (-> & -> & _). unfold k1. destruct (liveStream (RequestID h) x); [by eexists|].
  destruct sealed; [by eexists|]. destruct (Body.MaxBlobLen lim <? Body.TotalLen b) eqn:El; [by eexists|]. apply Z.ltb_ge in El.
  eapply safe_bind; [by eapply safe_probe|]. intros ok ? ->. destruct ok; [|by eexists]. cbn [negb].
  apply (safe_seen _ _ _ (fun full => mkLocking (Some (RequestID h)) (negb full))).
  { intros y _ [Hk _]. split; [exact Hk|]. cbn. intros Hf%negb_true_iff. apply orb_false_iff in Hf as [H1%Z.leb_gt H2%Z.leb_gt]. lia. }
  intros y _. destruct (_ || _); [by eexists|]. apply safe_ask. intros t rest s [] s' _ Hi E.
  exists [TReader i r; TLock i unseen]. split; [|by eexists]. eapply Inv_insertStream; [exact Hi|exact Ha| | | |exact E]; [done|done|lia].
Qed.

Lemma safe_putBegin i h body r n lim :
  fresh h r n lim -> safe [TReader i r] (fun _ o => replied i h r o) (putBegin i h body).
Proof.
  intros [Hp Hd Hl Ha]. apply safe_must. intros [b err] Eb. apply safe_consume; [done..|]. destruct err as [e|]; [by apply safe_lastStatus|].
  apply safe_session. intros x Hx _. cbn in Hx. rewrite Ha in Hx. apply authOf_some in Hx as (-> & _ & _).
  eapply safe_bind; [by eapply safe_calling|]. intros sealed ? ->. intros rest s [] s' _ Hi E.
  exists [TReader i (debit 0 r); TLock i unseen]. split; [eapply Inv_reorder; [apply perm_swap|]; by eapply Inv_lock|].
  eapply safe_bind; [by eapply safe_beginLocked; [|eapply putBegin_len]|]. intros st o (k & ->).
  eapply safe_bind; [exact (safe_frame _ _ [TLock i k] [_] _ _ (safe_lastStatus i h r st Hp))|]. intros _ ? (o & -> & r' & -> & H1 & H2 & H3).
  intros rest' s1 [] s2 _ Hi' E'. exists [TReader i r']. split; [|by exists r'].
  eapply Inv_reorder in Hi'; [|apply perm_swap]. by eapply Inv_unlock.
Qed.

(** Sections under the lock that do nothing else. *)
Lemma safe_locked {A B} i r F Q (f : session -> B * session) (g : B -> prog S A) :
  (forall x, authOf x = rd_auth r -> limits_agreed cfg x -> table_ok x ->
     table_ok (f x).2 /\ kept x (f x).2 /\ safe (TReader i r :: F) Q (g (f x).1)) ->
  safe (TReader i r :: F) Q (Atom B (locked i (onSession i f)) g).
Proof.
  intros Hf rest s b s' _ Hi (x & Hx & Hm & (x0 & Hx0 & -> & ->)%onSession_inv)%locked_inv. assert (x0 = x) as -> by congruence.
  destruct (Inv_reader _ _ _ _ _ _ _ Hi) as (c & x0 & _ & Hx1 & _ & _ & _ & Hra & _ & _ & _ & Hp). assert (x0 = x) as -> by congruence.
  destruct (Hf x) as (Ht & Hk & Hg); [done|by destruct Hp|by destruct Hp|].
  exists (TReader i r :: F). split; [|exact Hg]. by eapply Inv_table.
Qed.

Lemma safe_lockedNow {A} i own Q (f : Z -> session -> session) (g : unit -> prog S A) :
  (forall now x, limits_agreed cfg x -> table_ok x -> table_ok (f now x) /\ kept x (f now x)) ->
  safe own Q (g tt) -> safe own Q (Atom unit (locked i (now ← nowFn; modSession i (f now))) g).
Proof.
  intros Hf Hg rest s [] s' _ Hi (x & Hx & Hm & E)%locked_inv. exists own. split; [|exact Hg].
  unfold mbind, act_bind in E. cbn in E. apply onSession_inv in E as (x0 & Hx0 & _ & ->). cbn in Hx0. assert (x0 = x) as -> by congruence.
  assert (Inv (own ++ rest) (set_tick (Datatypes.S (tick s)) s)) as Hi' by (by eapply Inv_only).
  destruct (Inv_peer _ _ _ _ _ _ _ Hi Hx) as (c & Hc & Hp). destruct (Hf (nowAt (tick s)) x) as [Ht Hk]; [by destruct Hp|by destruct Hp|].
  by eapply (Inv_table _ _ _ _ _ _ _ _ Hi').
Qed.

Lemma agreed_blob (x : session) : limits_agreed cfg x -> authed x = true -> Body.MaxBlobLen (limits x) <= CapMaxFrameLen.
Proof. unfold limits_agreed. intros Hl Ha. rewrite Ha in Hl. change (Body.GetRespHeaderSize 1) with 32 in Hl. lia. Qed.

Lemma safe_putChunk i h body r n lim :
  fresh h r n lim -> len body = PayloadLen h -> PayloadLen h <= CapMaxFrameLen -> quiet h ->
  safe [TReader i r] (fun _ o => replied i h r o) (putChunk i h body).
Proof.
  intros [Hp Hd Hl Ha] Hlen Hcap Hq. apply safe_lockedNow.
  - intros now x Hli Ht. split; [|apply chunk_kept]. apply chunk_ok; try done. by apply agreed_blob.
  - apply safe_consume; [done..|]. exists (debit 0 r). split_and!; try done. left. by rewrite <- Hp.
Qed.

Lemma safe_commitStream i r n lim (st : putStream hasher) sum :
  rd_auth r = Some (n, lim) -> p_ns st = n -> totalLen st <= Body.MaxBlobLen lim -> digest_ok st -> digestOf st = sum -> received st = totalLen st ->
  safe [TReader i r] (fun _ o => o = [TReader i r]) (commitStream i st sum).
Proof.
  intros Ha Hn Hlen Hd Hs Hr. unfold commitStream. eapply safe_bind.
  { eapply safe_calling; [done|done|]. cbn. rewrite <- (digestOf_ok _ Hd). split; [done|]. revert Hd. unfold digest_ok.
    destruct (buf st) as [[b c]|]; [intros (_ & _ & H & _); lia|]. intros [_ H]. rewrite len_nil. lia. }
  intros status ? ->. eapply (safe_bind _ _ _ _ (fun _ o => o = [TReader i r])); [|by intros _ ? ->].
  destruct (_ && _); [|done]. destruct bs_lifecycle as [lc|]; [|done]. eapply safe_bind; [by eapply safe_calling|]. by intros _ ? ->.
Qed.

Lemma safe_putCommit i h body r n lim :
  fresh h r n lim -> safe [TReader i r] (fun _ o => replied i h r o) (putCommit i h body).
Proof.
  intros [Hp Hd Hl Ha]. apply safe_must. intros [sum err] _. apply safe_consume; [done..|]. destruct err as [e|]; [by apply safe_lastStatus|].
  apply safe_locked. intros x Hx _ Ht. cbn in Hx. rewrite Ha in Hx. apply authOf_some in Hx as (Hns & Hli & _).
  destruct (commit_ok x (RequestID h) Ht) as (Ht' & Hk & Hst). split; [done|]. split; [done|].
  destruct (commitLocked (RequestID h) x).1 as [st|] eqn:E; [|by apply safe_lastStatus].
  destruct (Hst st eq_refl) as (_ & Et & [Htl Hte] & Hpn & Hdig). rewrite Et, ?Hns, ?Hli in *.
  destruct (received st =? totalLen st) eqn:Er; [|by apply safe_lastStatus]. apply Z.eqb_eq in Er.
  destruct (digestOf st =? sum) eqn:Es; [|by apply safe_lastStatus]. apply Z.eqb_eq in Es. cbn [negb].
  eapply safe_bind; [by eapply safe_commitStream|]. intros status ? ->. by apply safe_lastStatus.
Qed.

Lemma safe_putAbort i h r n lim : fresh h r n lim -> safe [TReader i r] (fun _ o => replied i h r o) (putAbort i h).
Proof.
  intros [Hp Hd Hl Ha]. apply safe_consume; [done..|]. apply safe_locked. intros x _ _ Ht.
  destruct (abort_ok x (RequestID h) Ht). split_and!; [done..|]. by apply safe_lastStatus.
Qed.

Lemma safe_handlePutStream i h body r n lim :
  fresh h r n lim -> len body = PayloadLen h -> PayloadLen h <= CapMaxFrameLen -> Opcode h = OpPutStream ->
  safe [TReader i r] (fun _ o => replied i h r o) (handlePutStream i h body).
Proof.
  intros Hf Hlen Hcap Hop. unfold handlePutStream. case_if; [by eapply safe_putBegin|].
  destruct (SubOp (Flags h) =? PutChunk) eqn:Ec; [eapply safe_putChunk; try done; right; by rewrite Hop, (proj1 (Z.eqb_eq _ _) Ec)|].
  case_if; [by eapply safe_putCommit|]. case_if; [by eapply safe_putAbort|]. destruct Hf as [Hp Hd Hl Ha].
  apply safe_consume; [done..|]. by apply safe_lastStatus.
Qed.

End Safe.
End SrvSafe.
