(* ===== verification/ServerLoops.v ===== *)
(** The loops keep the invariant: the read loop, the write loop, the final drain,
    the reaper, the accept loop and the shutdown; and so does every event. *)

From Stdlib Require Import ZArith Lia.
From coqutil Require Import Byte Word.LittleEndianList.
From stdpp Require Import base numbers list gmap sets strings.
From S2P Require Import Prelude.
From S2P Require Import Conc.
From S2P Require Import Wire.
From S2P Require Import Bodies.
From S2P Require Import Tenant.
From S2P Require Import Credit.
From S2P Require Import ServerState.
From S2P Require Import Transport.
From S2P Require Import Session.
From S2P Require Import Server.
From S2P Require Import ServerInv.
From S2P Require Import ServerTable.
From S2P Require Import ServerActs.
Import Conc Ops Hdr Srv Transport Session Server SrvInv SrvTable SrvActs.
From S2P Require Import ServerMoves.
From S2P Require Import ServerLife.
From S2P Require Import ServerSafe.
Import Conc Ops Hdr Srv Transport Session Server SrvInv SrvTable SrvActs SrvMoves SrvLife SrvSafe.
Open Scope Z_scope.
Open Scope conc_scope.

Module SrvLoops.

Section Loops.
Context {St : Type} `{BS : !BlockStore St} `{XX : !Xxh3} `{HA : !Hasher} `{NE : !Net}.
Context (cfg : Config) (iw : Z) (sha256 : bytes -> bytes) (scopeStatsToNS : bytes -> Z -> bytes).
Context (Hcfg : config_ok cfg).

Abbreviation S := (Server St hold hasher).
Abbreviation tok := (tok hold).
Abbreviation Inv := (Inv cfg iw sha256).
Abbreviation safe := (safe (fun _ => true) Inv).
Abbreviation holds i rel := ((fun h => THold i h) <$> rel).
Abbreviation HandleFrame := (HandleFrame cfg iw sha256 scopeStatsToNS).

(** ** Dispatch *)

Lemma safe_emit {A} i r h F Q (k : unit -> prog S A) :
  safe (TReader i (partial h r) :: F) Q (k tt) -> safe (TReader i r :: F) Q (Atom _ (emit i h) k).
Proof. intros Hk rest s [] s' _ Hi E. eexists. split; [|exact Hk]. by eapply Inv_emit. Qed.

Lemma safe_Abort i r st :
  safe [TReader i r] (fun _ o => exists g, o = [TReader i (partial g r)] /\ fatalReport g) (Abort i st).
Proof.
  apply safe_emit. set (g := set_PayloadLen _ _). intros rest s [] s' _ Hi E. exists [TReader i (partial g r)].
  split; [by eapply (Inv_tryEnqueue _ _ _ rest); [exact Hi| | |exact E]|]. apply safe_Close. by exists g.
Qed.

Lemma safe_HandleFrame i h body r pre hb post cap err :
  rd_part r = [] -> rd_debit r = PayloadLen h -> PayloadLen h <= CapMaxFrameLen -> len body = PayloadLen h ->
  rd_input r = pre ++ hb ++ body ++ post -> ParseHeader hb cap = Some (h, err) ->
  safe [TReader i r] (fun _ o => replied i h r o) (HandleFrame i h body).
Proof.
  intros Hp Hd Hcap Hlen Hin Hph. assert (PayloadLen h < 2 ^ 32) as Hl by (change CapMaxFrameLen with (2 ^ 30) in Hcap; lia).
  apply safe_session. intros x Hx _. destruct (authed x) eqn:Ea; cbn [negb].
  2:{ assert (rd_auth r = None) as Ha by (rewrite <- Hx; unfold authOf; by rewrite Ea).
      destruct (Opcode h =? OpHello) eqn:E; [apply Z.eqb_eq in E; by eapply safe_handleHello|].
      apply safe_consume; [done..|]. eapply safe_mono; [|apply safe_Abort]. intros _ o (g & -> & Hg).
      eexists. split; [done|]. cbn. rewrite Hp. split_and!; try done. right. left. eauto. }
  assert (rd_auth r = Some (ns x, limits x)) as Ha by (rewrite <- Hx; unfold authOf; by rewrite Ea).
  assert (fresh h r (ns x) (limits x)) as Hf by done.
  assert (forall st, safe [TReader i r] (fun _ o => replied i h r o) (_ ⇐ consume i h; respondStatus i h st)) as Hst.
  { intros st. apply safe_consume; [done..|]. by apply safe_lastStatus. }
  case_if; [apply Hst|]. destruct (Opcode h =? OpNop) eqn:En.
  { apply Z.eqb_eq in En. apply safe_consume; [done..|]. exists (debit 0 r). split_and!; try done. left. rewrite <- Hp. split; [done|by left]. }
  case_if; [apply Hst|]. case_if; [by eapply safe_handleBatchExists|]. case_if; [by eapply safe_handleBatchGet|].
  destruct (Opcode h =? OpPutStream) eqn:Ep; [apply Z.eqb_eq in Ep; by eapply safe_handlePutStream|].
  case_if; [by eapply safe_handleKeyStatusVerb|]. case_if; [by eapply safe_handleDelete|].
  case_if; [by eapply safe_handleStats|apply Hst].
Qed.

(** ** The read loop *)

(** A header without a fatal error: its length is 32 bits wide, and within the cap
    unless that was the error. *)
Lemma parsed_len hb cap h e :
  ParseHeader hb cap = Some (h, e) -> e = None \/ e = Some ErrPayloadTooLarge ->
  0 <= PayloadLen h < 2 ^ 32 /\ (e = None -> PayloadLen h <= cap).
Proof.
  unfold ParseHeader. intros E He. assert (forall x, Some (zeroHeader, Some x) = Some (h, e) -> x = ErrPayloadTooLarge) as Hx.
  { intros x [= _ <-]. by destruct He as [|[= ->]]. }
  repeat match type of E with
  | (?o ≫= _) = _ => let H := fresh "E" in destruct o eqn:H; cbn in E; [|done]
  | (if ?b then Some (zeroHeader, Some _) else _) = _ => destruct b; [by apply Hx in E|]
  end.
  destruct (cap <? _) eqn:Ec; injection E as <- <-; cbn; (split; [by eapply (le_at_value 4)|]); [done|]. apply Z.ltb_ge in Ec. done.
Qed.

(** The loop returns: nothing is debited, and it made no response to the frame at
    hand but a fatal report. *)
Definition leaving (i : nat) (o : list tok) : Prop :=
  exists r, o = [TReader i r] /\ rd_debit r = 0 /\ (rd_part r = [] \/ exists f, rd_part r = [f] /\ fatalReport f).

(** A round is done, with [inp] left to read. *)
Definition onward (i : nat) (h : Header) (r : reading) (o : list tok) (inp : option bytes) : Prop :=
  match inp with
  | None => leaving i o
  | Some inp => replied i h r o /\ exists pre, rd_input r = pre ++ inp
  end.

Lemma safe_readFull {A} own Q n inp (k : option (bytes * bytes) -> prog S A) :
  safe own Q (k None) ->
  (forall b rest, inp = b ++ rest -> n <= len inp -> b = take (Z.to_nat n) inp -> safe own Q (k (Some (b, rest)))) ->
  safe own Q (Atom _ (readFull n inp) k).
Proof.
  intros Hn Hs. apply (safe_skip _ _ _ _ _ _ _ (fun o => o = None \/ exists b rest, o = Some (b, rest) /\ inp = b ++ rest /\ n <= len inp /\ b = take (Z.to_nat n) inp)).
  - intros s b s'. unfold readFull, mbind, act_bind. cbn. intros [= <- <-]. split; [by right|].
    destruct (_ || _) eqn:E; [by left|right]. apply orb_false_iff in E as [_ E%Z.ltb_ge]. do 2 eexists. split; [done|]. by rewrite take_drop.
  - intros b [->|(b' & rest & -> & H1 & H2 & H3)]; [done|by apply Hs].
Qed.

Lemma safe_discard {A} own Q n inp (k : option bytes -> prog S A) :
  safe own Q (k None) -> (forall b rest, inp = b ++ rest -> safe own Q (k (Some rest))) ->
  safe own Q (Atom _ (discard n inp) k).
Proof.
  intros Hn Hs. apply (safe_skip _ _ _ _ _ _ _ (fun o => o = None \/ exists b rest, o = Some rest /\ inp = b ++ rest)).
  - intros s b s'. unfold discard, mbind, act_bind. cbn. intros [= <- <-]. split; [by right|].
    destruct (ioFails _); [by left|right]. exists (take (Z.to_nat n) inp). eexists. split; [done|]. by rewrite take_drop.
  - intros b [->|(b' & rest & -> & H1)]; [done|by eapply Hs].
Qed.

Lemma safe_respondError i h r st : safe [TReader i r] (fun _ o => sent_one i h r o) (respondError i h st).
Proof.
  apply safe_emit. set (g := set_PayloadLen _ _). intros rest s ok s' _ Hi E. exists [TReader i (partial g r)]. split; [|by exists g].
  apply (Inv_enqueue _ _ _ rest _ _ _ (mkReq g _ [])) with (1 := Hi) in E; [|done]. by destruct ok.
Qed.

Lemma safe_readBody i h r inp pre hb cap err :
  rd_part r = [] -> rd_debit r = PayloadLen h -> 0 <= PayloadLen h <= CapMaxFrameLen ->
  rd_input r = pre ++ hb ++ inp -> ParseHeader hb cap = Some (h, err) ->
  safe [TReader i r] (fun res o => onward i h r o res) (readBody HandleFrame i h inp).
Proof.
  intros Hp Hd Hcap Hin Hph. assert (PayloadLen h < 2 ^ 32) as Hl by (change CapMaxFrameLen with (2 ^ 30) in Hcap; lia).
  intros rest s [] s' _ Hi E. exists [TReader i r]. split; [by eapply Inv_Lend|]. clear rest s s' Hi E.
  apply safe_readFull.
  - apply safe_consume; [done..|]. exists (debit 0 r). auto.
  - intros body left -> Hle Eb. eapply safe_bind; [eapply (safe_HandleFrame i h body r pre hb left cap err); try done; [lia|]|].
    + rewrite len_app in Hle. pose proof (len_nonneg left). pose proof (len_nonneg body). apply (f_equal length) in Eb. rewrite length_take, length_app in Eb.
      unfold len in *. lia.
    + intros ? o Ho. split; [exact Ho|]. exists (pre ++ hb ++ body). by rewrite Hin, <- !app_assoc.
Qed.

Lemma safe_grant {A} i r n F Q (k : unit -> prog S A) :
  rd_debit r = n -> n < 2 ^ 32 -> safe (TReader i (debit 0 r) :: F) Q (k tt) -> safe (TReader i r :: F) Q (Atom _ (GrantCredit i n) k).
Proof. intros Hd Hl Hk rest s [] s' _ Hi E. eexists. split; [|exact Hk]. by eapply Inv_GrantCredit. Qed.

(** A frame over the cap is read, dropped and answered. *)
Lemma safe_tooLarge i h r inp st :
  rd_part r = [] -> rd_debit r = PayloadLen h -> PayloadLen h < 2 ^ 32 -> (exists pre, rd_input r = pre ++ inp) ->
  safe [TReader i r] (fun res o => onward i h r o res)
    (d ⇐ discard (PayloadLen h) inp; _ ⇐ GrantCredit i (PayloadLen h);
     match d with None => mret None | Some inp => respondError i h st;; mret (Some inp) end).
Proof.
  intros Hp Hd Hl [pre Hin]. apply safe_discard.
  - apply safe_grant; [done..|]. exists (debit 0 r). auto.
  - intros b left ->. apply safe_grant; [done..|]. eapply safe_bind; [apply safe_respondError|]. intros ? o Ho. split.
    + by eapply sent_replied; [| | |exact Ho].
    + exists (pre ++ b). by rewrite <- app_assoc.
Qed.

Lemma safe_route i h r inp pre hb err :
  rd_part r = [] -> rd_debit r = 0 -> rd_cap r <= CapMaxFrameLen -> rd_input r = pre ++ hb ++ inp ->
  ParseHeader hb (rd_cap r) = Some (h, err) -> err = None \/ err = Some ErrPayloadTooLarge ->
  safe [TReader i r] (fun res o => onward i h r o res) (route HandleFrame i h (bool_decide (err = Some ErrPayloadTooLarge)) inp).
Proof.
  intros Hp Hd Hcap Hin Hph He. destruct (parsed_len _ _ _ _ Hph He) as [Hl Hle]. unfold route. destruct (Opcode h =? OpNop) eqn:En.
  { apply Z.eqb_eq in En. apply safe_discard; [exists r; auto|]. intros b left ->. split; [|exists (pre ++ hb ++ b); by rewrite Hin, <- !app_assoc].
    exists r. split_and!; try done. left. split; [done|by left]. }
  assert (forall res o n, onward i h (debit n r) o res -> onward i h r o res) as Hmono by done.
  case_bool_decide as Eo.
  - intros rest s [] s' _ Hi E. exists [TReader i (debit (PayloadLen h) r)]. split; [by eapply Inv_Account|].
    eapply safe_mono; [|apply safe_tooLarge; try done; [lia|]]; [intros res o; apply Hmono|]. exists (pre ++ hb). by rewrite <- app_assoc.
  - destruct He as [->|]; [|done]. specialize (Hle eq_refl). intros rest s v s' _ Hi E.
    destruct (Inv_Consume _ _ _ rest _ _ _ _ _ _ Hi Hd (conj (proj1 Hl) Hle) E) as [-> Hi'].
    exists [TReader i (debit (PayloadLen h) r)]. split; [done|].
    eapply safe_mono; [|by eapply safe_readBody; [done|done| |exact Hin|exact Hph]; lia]. intros res o. apply Hmono.
Qed.

(** Between rounds, with [inp] left. *)
Definition between (r : reading) (inp : bytes) : Prop :=
  rd_part r = [] /\ rd_debit r = 0 /\ exists pre, rd_input r = pre ++ inp.

Lemma safe_readFrame i r inp :
  between r inp ->
  safe [TReader i r] (fun res o => match res with None => leaving i o | Some inp => exists r', o = [TReader i r'] /\ between r' inp end)
    (readFrame HandleFrame i inp).
Proof.
  intros (Hp & Hd & pre & Hin). apply safe_readFull; [exists r; auto|]. intros hb left -> _ _.
  intros rest s cap s' _ Hi (-> & c & Hc & ->)%ofConn_inv. exists [TReader i r]. split; [done|].
  destruct (Inv_reader _ _ _ _ _ _ _ Hi) as (c0 & x & Hc0 & _ & _ & _ & _ & _ & Hrc & _ & _ & Hpe). assert (c0 = c) as -> by congruence.
  destruct (pr_frame _ _ _ _ _ _ _ Hpe) as [_ [_ Hcap]]. rewrite <- Hrc in *. clear Hi Hpe Hc0 Hc rest s.
  apply safe_must. intros [h err] Hph.
  lazy beta iota zeta. destruct (_ && _) eqn:Ef.
  - eapply safe_bind; [apply safe_Abort|]. intros _ o (g & -> & Hg). exists (partial g r). cbn. rewrite Hp. split_and!; try done. eauto.
  - assert (err = None \/ err = Some ErrPayloadTooLarge) as He.
    { destruct err as [e|]; [right|by left]. apply andb_false_iff in Ef as [Ef|Ef]; [by apply bool_decide_eq_false in Ef; exfalso; eauto|].
      apply negb_false_iff, bool_decide_eq_true in Ef. done. }
    eapply safe_bind; [by eapply safe_route|]. intros [inp|] o Ho; [|done]. destruct Ho as [(r' & -> & Hd' & Hin' & Ha) [pre' Hpre]].
    intros rest s [] s' _ Hi E. exists [TReader i (settled r')]. split; [by eapply Inv_served|]. exists (settled r').
    split; [done|]. do 2 (split; [done|]). exists pre'. cbn. congruence.
Qed.

Lemma safe_readRounds i : forall fuel inp r,
  between r inp -> safe [TReader i r] (fun _ o => leaving i o) (readRounds HandleFrame fuel i inp).
Proof.
  induction fuel as [|fuel IH]; intros inp r Hb; cbn [readRounds].
  - by intros rest s b s' _ _ [=].
  - eapply safe_bind; [by apply safe_readFrame|]. intros [left|] o Ho; [|done]. destruct Ho as (r' & -> & Hb'). by apply IH.
Qed.

Lemma safe_readLoop i : safe [] (fun _ o => o = []) (readLoop HandleFrame i).
Proof.
  intros rest s b s' _ Hi E. apply (Inv_enterReader cfg iw sha256 rest) in E; [|done]. destruct b as [inp|]; [|by exists []].
  destruct E as (a & cap & Hi'). eexists [_]. split; [exact Hi'|]. eapply safe_bind; [by apply safe_readRounds; split_and!; [| |exists []]|].
  intros _ o (r & -> & Hd & Hp). apply safe_Close. intros rest' s1 [] s2 _ Hi1 E1. exists []. split; [|done]. by eapply Inv_exitReader.
Qed.

(** ** The write loop *)

Lemma safe_recv {A} i F Q (k : option (writeReq hold) -> prog S A) :
  safe F Q (k None) -> (forall q, length (Key (w_hdr q)) = 32%nat -> safe (F ++ holds i (w_release q)) Q (k (Some q))) ->
  safe F Q (Atom _ (recv i) k).
Proof.
  intros Hn Hs rest s o s' _ Hi E. apply (Inv_recv cfg iw sha256) with (1 := Hi) in E. destruct o as [q|].
  - destruct E as [E Hk]. exists (F ++ holds i (w_release q)). split; [|by apply Hs]. eapply Inv_reorder; [|exact E].
    rewrite <- app_assoc. apply Permutation_app_swap_app.
  - destruct E as [E _]. by exists F.
Qed.

Abbreviation releases reqs := (concat (w_release <$> reqs)).

Lemma safe_coalesce i : forall fuel E reqs total,
  safe (E ++ holds i (releases reqs)) (fun reqs' o => o = E ++ holds i (releases reqs')) (coalesce cfg fuel i reqs total).
Proof.
  induction fuel as [|fuel IH]; intros E reqs total; cbn [coalesce]; [done|]. case_if; [|done].
  apply safe_recv; [done|]. intros q _. specialize (IH E (reqs ++ [q]) (u64 (total + PayloadLen (w_hdr q)))).
  by rewrite fmap_app, concat_app, fmap_app in IH; cbn in IH; rewrite app_nil_r, app_assoc in IH.
Qed.

Lemma safe_writeTo {A} i F Q bufs (k : bool -> prog S A) : (forall ok, safe F Q (k ok)) -> safe F Q (Atom _ (writeTo i bufs) k).
Proof. intros Hk rest s ok s' _ Hi E. exists F. split; [by eapply Inv_writeTo|done]. Qed.

Lemma safe_writeVector i F bufs : safe F (fun _ o => o = F) (writeVector cfg i bufs).
Proof.
  unfold writeVector. case_if; [by apply safe_writeTo|]. generalize (length bufs) as fuel. intros fuel. revert bufs.
  induction fuel as [|fuel IH]; intros [|b bufs]; [done|by intros rest s x s' _ _ [=]|done|]. cbn [writeWindows].
  destruct (window _ _ _) as [w left]. apply safe_writeTo. intros [|]; [apply IH|done].
Qed.

Lemma safe_flushBy i E reqs : running E -> safe (E ++ holds i (releases reqs)) (fun _ o => o = E) (flushBy cfg i reqs).
Proof.
  intros Hr rest s g s' _ Hi Eg. exists (E ++ holds i (releases reqs)). split; [by eapply Inv_grant|]. apply safe_must. intros bufs _.
  eapply safe_bind; [apply safe_writeVector|]. intros ok ? ->.
  pose proof (safe_fire cfg iw sha256 i (releases reqs) E []) as Hf. rewrite !app_nil_r in Hf. specialize (Hf Hr).
  eapply safe_bind; [exact Hf|]. by intros _ ? ->.
Qed.

Lemma safe_setWriter i p : p = WWaiting \/ p = WDraining \/ p = WEnded -> safe [TWriter i] (fun _ o => o = []) (_ ⇐ setWriter i p; mret tt).
Proof. intros Hp rest s [] s' _ Hi E. exists []. split; [by eapply Inv_setWriter|done]. Qed.

Lemma safe_flushed i ok : safe [TWriter i] (fun _ o => o = []) (flushed i ok).
Proof. destruct ok; [|apply safe_Close]; apply safe_setWriter; auto. Qed.

Lemma safe_writeIteration i case : safe [] (fun _ o => o = []) (writeIteration cfg i case).
Proof.
  intros rest s b s' _ Hi E. apply (Inv_enterWriter cfg iw sha256 rest) in E; try done; [|by left].
  destruct b; [exists [TWriter i]; split; [done|]|by exists []]. cbn [negb]. destruct case.
  - apply safe_recv; [apply safe_setWriter; auto|]. intros q _.
    eapply safe_bind.
    { pose proof (safe_coalesce i (Z.to_nat maxFlushFrames) [TWriter i] [q] (PayloadLen (w_hdr q))) as Hc. cbn [fmap list_fmap concat] in Hc.
      rewrite app_nil_r in Hc. exact Hc. }
    intros reqs ? ->. eapply safe_bind; [apply (safe_flushBy i [TWriter i]), running_writer|]. intros ok ? ->. apply safe_flushed.
  - apply safe_ofConn. intros c. case_if; [|apply safe_setWriter; auto].
    eapply safe_bind; [exact (safe_flushBy i [TWriter i] [mkReq (respHeader OpNop 0 0 0) [] []] (running_writer _ _))|].
    intros ok ? ->. apply safe_flushed.
  - apply safe_ofConn. intros c. apply safe_setWriter. case_if; auto.
Qed.

Lemma safe_drainRound i : safe [] (fun _ o => o = []) (drainRound cfg i).
Proof.
  intros rest s b s' _ Hi E. apply (Inv_enterWriter cfg iw sha256 rest) in E; try done; [|by right].
  destruct b; [exists [TWriter i]; split; [done|]|by exists []]. cbn [negb].
  apply safe_recv; [apply safe_setWriter; auto|]. intros q _.
  eapply safe_bind.
  { pose proof (safe_flushBy i [TWriter i] [q] (running_writer _ _)) as Hc. cbn [fmap list_fmap concat] in Hc. rewrite app_nil_r in Hc. exact Hc. }
  intros ok ? ->. apply safe_setWriter. case_if; auto.
Qed.

(** ** Teardown, the reaper *)

Lemma safe_finalDrain i : forall fuel n, (n < fuel)%nat -> safe [TEnd i n] (fun _ o => o = []) (finalDrain fuel i).
Proof.
  induction fuel as [|fuel IH]; intros n Hn; [lia|]. cbn [finalDrain]. intros rest s o s' _ Hi E.
  apply (Inv_drainRecv cfg iw sha256 rest) with (1 := Hi) in E. destruct o as [q|].
  - destruct E as [Hn0 E]. exists (holds i (w_release q) ++ [TEnd i (n - 1)]). split; [by rewrite <- app_assoc|].
    eapply safe_bind; [apply (safe_fire cfg iw sha256 i (w_release q) [] [_]), running_ender|]. intros _ ? ->. apply IH. lia.
  - exists [TEnd i O]. split; [done|]. intros rest' s1 [] s2 _ Hi1 E1. exists []. split; [by eapply Inv_exitEnd|done].
Qed.

Lemma safe_teardown i : safe [] (fun _ o => o = []) (teardown i).
Proof.
  intros rest s b s' _ Hi E. apply (Inv_enterEnd cfg iw sha256 rest) in E; [|done]. destruct b as [n|]; [|by exists []].
  exists [TEnd i n]. split; [done|]. apply safe_finalDrain. lia.
Qed.

Lemma safe_reaperTick i : safe [] (fun _ o => o = []) (reaperTick cfg i).
Proof. apply safe_ofConn. intros c. case_if; [done|]. apply safe_lockedNow; [|done]. intros now x _ Ht. by apply sweep_ok. Qed.

(** ** Accepting, draining *)

Lemma safe_acceptRound inp : safe [] (fun _ o => o = []) (acceptRound cfg inp).
Proof.
  intros rest s go s' _ Hi E. assert (Inv (if go then TAccept None :: rest else rest) s') as Hi'.
  { destruct (accepting s) eqn:Ea; try (by injection E as <- <-). destruct (listening s); injection E as <- <-; [|done]. by apply Inv_enterAccept. }
  destruct go; [exists [TAccept None]; split; [done|]|by exists []]. clear Hi E Hi' rest s s'. cbn [negb].
  assert (forall p, p <> ABusy -> safe [TAccept None] (fun _ o => o = []) (_ ⇐ put (set_accepting p); mret tt)) as Hexit.
  { intros p Hp rest s [] s' _ Hi [= <-]. exists []. split; [by apply Inv_exitAccept|done]. }
  intros rest s o s' _ Hi E. exists [TAccept o]. split; [by eapply Inv_Accept|]. clear Hi E rest s s'. destruct o as [i|]; [|by apply Hexit].
  intros rest s ok s' _ Hi E. exists [TAccept (if ok then None else Some i)]. split; [by eapply Inv_track|]. clear Hi E rest s s'.
  destruct ok; [by apply Hexit|]. apply safe_Close. intros rest s [] s' _ Hi E. exists [TAccept None]. split; [by eapply Inv_waited|]. by apply Hexit.
Qed.

Lemma safe_reapOnClose i : safe [] (fun _ o => o = []) (reapOnClose i).
Proof.
  intros rest s [] s' _ Hi E. exists [TFact (Gone i)]. unfold waitDone in E. destruct (conns s !! i) as [c|] eqn:Hc; [|done].
  destruct (decide (done c = EDone)); [|done]. injection E as <-. split; [apply Inv_fact; [done|by exists c]|]. clear.
  intros rest s [] s' _ Hi [= <-]. exists []. split; [by apply Inv_untrack|done].
Qed.

Lemma safe_freeSlot i : safe [] (fun _ o => o = []) (_ ⇐ freeSlot i; mret RDone).
Proof.
  apply (safe_skip _ _ _ _ _ _ _ (fun _ => True)); [|done]. unfold freeSlot. intros s b s' E. split; [|done].
  destruct (conns s !! i) as [c|]; [|by injection E as _ <-; left]. case_bool_decide; [|by injection E as _ <-; left].
  destruct (decide _); [|done]. injection E as _ <-. by right.
Qed.

Abbreviation facts fs := ((TFact (H := hold)) <$> fs).

Lemma Inv_forgets fs l s : Inv (facts fs ++ l) s -> Inv l s.
Proof. induction fs as [|f fs IH]; [done|]. intros Hi%Inv_unfact. by apply IH. Qed.

(** A wait with a deadline: at the end something is known, or all is forgotten. *)
Lemma safe_doneOr {A} fs f Q (ready : S -> option bool) (k : bool -> prog S A) :
  (forall s, ready s = Some true -> fact_ok iw sha256 s f) ->
  safe (facts (fs ++ [f])) Q (k true) -> safe [] Q (k false) -> safe (facts fs) Q (Atom _ (doneOr ready) k).
Proof.
  intros Hr Ht Hf rest s b s' _ Hi E. unfold doneOr in E.
  assert (s' = set_tick (Datatypes.S (tick s)) s /\ b = false \/ s' = s /\ b = true /\ ready s = Some true) as [[-> ->]|(-> & -> & Er)].
  { destruct (ready s) as [[|]|]; [case_match|case_match|]; try done; injection E as <- <-; auto. }
  - exists []. split; [|done]. eapply Inv_only; [by eapply Inv_forgets|done].
  - exists (facts (fs ++ [f])). split; [|done]. eapply Inv_reorder; [|apply Inv_fact; [exact Hi|by apply Hr]].
    rewrite fmap_app, <- app_assoc. apply Permutation_middle.
Qed.

Lemma safe_waitAll : forall cs fs,
  safe (facts fs) (fun ok o => o = if (ok : bool) then facts (fs ++ (Gone <$> cs)) else []) (waitAll cs).
Proof.
  induction cs as [|i cs IH]; intros fs; cbn [waitAll]; [by cbn; rewrite app_nil_r|].
  apply (safe_doneOr _ (Gone i)); [|eapply safe_mono; [|apply IH]; intros ok ? ->; by rewrite <- app_assoc|done].
  intros s. unfold connDone. destruct (conns s !! i) as [c|] eqn:Hc; cbn; [|done]. intros [= E%bool_decide_eq_true]. by exists c.
Qed.

Lemma safe_Drain :
  safe [] (fun ok o => if (ok : bool) then exists cs, o = facts (Draining cs :: (Gone <$> cs) ++ [Stopped]) else o = []) Drain.
Proof.
  apply (safe_skip _ _ _ _ _ _ _ (fun _ => True)); [by intros s b s' [= _ <-]; split; [right|]|]. intros _ _.
  intros rest s cs s' _ Hi [= <- <-]. set (cs := elements (tracked s)). exists (facts [Draining cs]).
  split; [by apply Inv_draining|]. clearbody cs. clear.
  eapply safe_bind; [apply safe_forEach; intros i _; by apply safe_Close|]. intros _ ? ->.
  eapply safe_bind; [apply (safe_waitAll cs [Draining cs])|]. intros [|] ? ->; [|done]. cbn [negb].
  apply (safe_doneOr _ Stopped); [|by exists cs|done]. intros s [= E%bool_decide_eq_true]. done.
Qed.

Lemma safe_shutdown : safe [] (fun _ o => o = []) shutdown.
Proof.
  eapply safe_bind; [apply safe_Drain|]. intros [|] o Ho; [|by rewrite Ho]. destruct Ho as [cs ->].
  intros rest s [] s' _ Hi [= <-]. exists []. split; [|done].
  eapply (Inv_forgets (Draining cs :: (Gone <$> cs) ++ [Stopped])). apply (Inv_storeClosed _ _ _ _ _ cs); [exact Hi|set_solver..].
Qed.

(** Every event keeps the invariant. *)
Lemma safe_then {A} (p : prog S A) (f : A -> reply) :
  safe [] (fun _ o => o = []) p -> safe [] (fun _ o => o = []) (a ← p; mret (f a)).
Proof. intros Hp. eapply safe_bind; [exact Hp|]. by intros a ? ->. Qed.

Lemma event_safe e : safe [] (fun _ o => o = []) (handler cfg iw sha256 scopeStatsToNS e).
Proof.
  destruct e; cbn [handler].
  - apply (safe_then _ (fun _ => RDone)), safe_acceptRound.
  - intros rest s [] s' _ Hi E. exists []. split; [by eapply Inv_acceptFails|done].
  - apply (safe_then _ (fun _ => RDone)), safe_readLoop.
  - apply (safe_then _ (fun _ => RDone)), safe_writeIteration.
  - apply (safe_then _ (fun _ => RDone)), safe_drainRound.
  - apply (safe_then _ (fun _ => RDone)), safe_teardown.
  - apply (safe_then _ (fun _ => RDone)), safe_reaperTick.
  - by apply safe_Close.
  - apply (safe_then _ (fun _ => RDone)), safe_reapOnClose.
  - apply safe_freeSlot.
  - apply (safe_skip _ _ _ _ _ _ _ (fun _ => True)); [by intros s b s' [= _ <-]; split; [right|]|done].
  - intros rest s [] s' _ Hi [= <-]. exists []. split; [by apply Inv_register|done].
  - apply (safe_then _ RShutdown), safe_shutdown.
Qed.

(** Every state the server can reach satisfies the invariant. *)
Lemma server_inv st r c :
  Registry.reg_ok r -> reachable (handler cfg iw sha256 scopeStatsToNS) (fun _ => true) (New st r) c ->
  exists l, Inv l (shared c) /\ (finished c -> l = []).
Proof. intros Hr. apply (pool_inv _ _ Inv); [apply Inv_reorder|apply event_safe|by apply Inv_New]. Qed.

End Loops.
End SrvLoops.
