(* ===== verification/ServerTame.v ===== *)
(** No goroutine of the server panics, whatever bytes its peers send and however
    the goroutines interleave, if the store's methods do not. *)

From Stdlib Require Import ZArith Lia.
From coqutil Require Import Byte Word.LittleEndianList.
From stdpp Require Import base numbers list gmap sets strings.
From S2P Require Import Prelude.
From S2P Require Import Conc.
From S2P Require Import Wire.
From S2P Require Import Bodies.
From S2P Require Import Tenant.
From S2P Require Import Credit.
From S2P Require Import ServerState.
From S2P Require Import Transport.
From S2P Require Import Session.
From S2P Require Import Server.
From S2P Require Import ServerInv.
From S2P Require Import ServerTable.
From S2P Require Import ServerLife.
From S2P Require Import ServerSafe.
From S2P Require Import ServerLoops.
Import Conc Ops Hdr Srv Transport Session Server.
Open Scope Z_scope.
Open Scope conc_scope.

(** What the server asks of a store: its methods keep an invariant of the store
    and do not panic in it. *)
Class TameStore (St : Type) `{BS : !BlockStore St} := {
  ts_inv : St -> Prop;
  ts_ExistsPrefix : forall n keys b, tame ts_inv (fun _ => True) (bs_ExistsPrefix n keys b);
  ts_Get : match bs_Get with
           | ByTier f => forall n key, tame ts_inv (fun _ => True) (f n key)
           | ByRef f => forall n key, tame ts_inv (fun _ => True) (f n key)
           | ByCopy f => forall n key, tame ts_inv (fun _ => True) (f n key)
           end;
  ts_release : forall h, tame ts_inv (fun _ => True) (bs_release h);
  ts_Put : forall n key data sum, tame ts_inv (fun _ => True) (bs_Put n key data sum);
  ts_Contains : forall n key, tame ts_inv (fun _ => True) (bs_Contains n key);
  ts_Delete : forall n key force, tame ts_inv (fun _ => True) (bs_Delete n key force);
  ts_Stats : tame ts_inv (fun _ => True) bs_Stats;
  ts_lifecycle : forall lc, bs_lifecycle = Some lc ->
    (forall n key sub ttl, tame ts_inv (fun _ => True) (lc_TouchLease lc n key sub ttl)) /\
    (forall n key sub, tame ts_inv (fun _ => True) (lc_PinOp lc n key sub));
  ts_quota : match bs_quota with
             | ByNS f => forall n len, tame ts_inv (fun _ => True) (f n len)
             | BySize f => forall len, tame ts_inv (fun _ => True) (f len)
             | NoProbe => True
             end
}.

Module SrvTame.

Section Tame.
Context {St : Type} `{BS : !BlockStore St} `{TS : !TameStore St} `{XX : !Xxh3} `{HA : !Hasher} `{NE : !Net}.
Context (cfg : Config) (iw : Z) (sha256 : bytes -> bytes) (scopeStatsToNS : bytes -> Z -> bytes).
Context (Hcfg : config_ok cfg) (Hkeys : BodyFacts.key_cap_ok iw (Body.MaxBatchKeys (WireLimits cfg))).

Abbreviation S := (Server St hold hasher).
Abbreviation Conn := (Conn hold).
Abbreviation session := (session hasher).
Abbreviation writeReq := (writeReq hold).

(** A header's key is 32 bytes long, as its Go type says. *)
Definition keyed (r : writeReq) : Prop := length (Key (w_hdr r)) = 32%nat.

Definition conn_ok (c : Conn) : Prop := maxPayload c <= CapMaxFrameLen /\ Forall keyed (wq c).

Definition session_ok (x : session) : Prop := Body.MaxBatchKeys (limits x) <= Body.MaxBatchKeys (WireLimits cfg).

Record ok (s : S) : Prop := mkOk {
  ok_conn : forall i c, conns s !! i = Some c -> conn_ok c;
  ok_session : forall i x, sessions s !! i = Some x -> session_ok x;
  ok_store : ts_inv (store s)
}.

Abbreviation tame := (tame ok).
Abbreviation fine := (fun _ => True).

(** ** Rules *)

Lemma tame_onConn {A B} i (f : Conn -> B * Conn) (P : A -> Prop) (k : B -> prog S A) :
  (forall c, conn_ok c -> conn_ok (f c).2 /\ tame P (k (f c).1)) -> tame P (Atom B (onConn i f) k).
Proof.
  intros Hf s [Hc Hx Ht]. unfold onConn. destruct (conns s !! i) as [c|] eqn:E; [|done]. destruct (Hf c (Hc _ _ E)) as [Hf1 Hf2].
  destruct (f c) as [b c'] eqn:Ef. split; [done|]. intros ? ? [= <- <-]. split; [|done]. split; try done. cbn.
  intros j d. rewrite lookup_insert_Some. intros [[_ <-]|[_ Hj]]; eauto.
Qed.

Lemma tame_onSession {A B} i (f : session -> B * session) (P : A -> Prop) (k : B -> prog S A) :
  (forall x, session_ok x -> session_ok (f x).2 /\ tame P (k (f x).1)) -> tame P (Atom B (onSession i f) k).
Proof.
  intros Hf s [Hc Hx Ht]. unfold onSession. destruct (sessions s !! i) as [x|] eqn:E; [|done]. destruct (Hf x (Hx _ _ E)) as [Hf1 Hf2].
  destruct (f x) as [b x'] eqn:Ef. split; [done|]. intros ? ? [= <- <-]. split; [|done]. split; try done. cbn.
  intros j d. rewrite lookup_insert_Some. intros [[_ <-]|[_ Hj]]; eauto.
Qed.

Lemma tame_ofConn {A B} i (f : Conn -> B) (P : A -> Prop) (k : B -> prog S A) :
  (forall c, conn_ok c -> tame P (k (f c))) -> tame P (Atom B (ofConn i f) k).
Proof. intros Hf. apply tame_onConn. intros c Hc. split; [done|by apply Hf]. Qed.

Lemma tame_ofSession {A B} i (f : session -> B) (P : A -> Prop) (k : B -> prog S A) :
  (forall x, session_ok x -> tame P (k (f x))) -> tame P (Atom B (ofSession i f) k).
Proof. intros Hf. apply tame_onSession. intros x Hx. split; [done|by apply Hf]. Qed.

Lemma tame_modConn {A} i (f : Conn -> Conn) (P : A -> Prop) (k : unit -> prog S A) :
  (forall c, conn_ok c -> conn_ok (f c)) -> tame P (k tt) -> tame P (Atom _ (modConn i f) k).
Proof. intros Hf Hk. apply tame_onConn. intros c Hc. split; [by apply Hf|done]. Qed.

Lemma tame_modSession {A} i (f : session -> session) (P : A -> Prop) (k : unit -> prog S A) :
  (forall x, session_ok x -> session_ok (f x)) -> tame P (k tt) -> tame P (Atom _ (modSession i f) k).
Proof. intros Hf Hk. apply tame_onSession. intros x Hx. split; [by apply Hf|done]. Qed.

(** An action that never panics and leaves connections, sessions and store alone. *)
Lemma tame_skip {A B} (m : act S B) (P : A -> Prop) (k : B -> prog S A) (Q : B -> Prop) :
  (forall s, m s <> Panicked) ->
  (forall s b s', m s = Next b s' -> conns s' = conns s /\ sessions s' = sessions s /\ store s' = store s /\ Q b) ->
  (forall b, Q b -> tame P (k b)) -> tame P (Atom B m k).
Proof.
  intros Hp Hm Hk s [Hc Hx Ht]. split; [apply Hp|]. intros b s' E. destruct (Hm s b s' E) as (E1 & E2 & E3 & Hq).
  split; [|by apply Hk]. split; [by rewrite E1|by rewrite E2|by rewrite E3].
Qed.

Lemma tame_put {A} (f : S -> S) (P : A -> Prop) (k : unit -> prog S A) :
  (forall s, conns (f s) = conns s /\ sessions (f s) = sessions s /\ store (f s) = store s) -> tame P (k tt) ->
  tame P (Atom _ (put f) k).
Proof.
  intros Hf Hk. apply (tame_skip _ _ _ fine); [done| |by intros []]. intros s b s' [= _ <-]. destruct (Hf s) as (? & ? & ?). done.
Qed.

Lemma tame_must {A B} (o : option B) (P : A -> Prop) (k : B -> prog S A) :
  is_Some o -> (forall b, o = Some b -> tame P (k b)) -> tame P (Atom B (must o) k).
Proof.
  intros [b0 ->] Hk. apply (tame_skip _ _ _ (fun b => Some b0 = Some b)); [done| |done]. by intros s b s' [= <- <-].
Qed.

Lemma tame_ask {A B} (f : nat -> B) (P : A -> Prop) (k : B -> prog S A) :
  (forall n, tame P (k (f n))) -> tame P (Atom B (ask f) k).
Proof.
  intros Hk. apply (tame_skip _ _ _ (fun b => exists n, b = f n)); [done| |by intros b [n ->]].
  intros s b s' [= <- <-]. eauto.
Qed.

Lemma tame_zoom {A} (p : Conc.prog St A) : Conc.tame ts_inv fine p -> tame fine (zoom p).
Proof.
  induction p as [a|B m k IH]; [done|]. intros Hp s [Hc Hx Ht]. destruct (Hp _ Ht) as [Hn Hk]. unfold inStore.
  destruct (m (store s)) as [b t| | |] eqn:E; try done. split; [done|]. intros b' s' [= <- <-].
  destruct (Hk b t eq_refl) as [Ht' Hk']. split; [done|]. by apply IH.
Qed.

Lemma tame_calling {B} i c (p : Conc.prog St B) : Conc.tame ts_inv fine p -> tame fine (calling i c p).
Proof. intros Hp. apply tame_put; [done|]. by apply tame_zoom. Qed.

Lemma tame_fire i rel : tame fine (fire i rel).
Proof. apply tame_forEach. intros h. apply tame_put; [done|]. by apply tame_zoom, ts_release. Qed.

Lemma tame_locked {A B} i (m : act S B) (P : A -> Prop) (k : B -> prog S A) :
  tame P (Atom B m k) -> tame P (Atom B (locked i m) k).
Proof.
  intros Hm s Hs. unfold locked. destruct (sessions s !! i) as [x|]; [|done]. destruct (streamMu x); [done|]. by apply Hm.
Qed.

(** [now := nowFn()] inside a section. *)
Lemma tame_now {A B} (f : Z -> act S B) (P : A -> Prop) (k : B -> prog S A) :
  (forall now, tame P (Atom B (f now) k)) -> tame P (Atom B (now ← nowFn; f now) k).
Proof.
  intros Hf s [Hc Hx Ht]. unfold mbind, act_bind. cbn. by apply Hf.
Qed.

(** ** Frames *)

Lemma tame_enqueue {A} i (r : writeReq) (P : A -> Prop) (k : bool -> prog S A) :
  keyed r -> (forall b, tame P (k b)) -> tame P (Atom _ (enqueue i r) k).
Proof.
  intros Hr Hk s [Hc Hx Ht]. unfold enqueue. destruct (conns s !! i) as [c|] eqn:E; [|done].
  destruct (Hc _ _ E) as [Hm Hq]. destruct (len (wq c) <? queueCap).
  - destruct (closed c && pick (tick s)); (split; [done|]); intros b s' [= <- <-]; (split; [|apply Hk]); [done|].
    split; try done. cbn. intros j d. rewrite lookup_insert_Some. intros [[_ <-]|[_ Hj]]; [|eauto]. split; [done|].
    cbn. apply Forall_app. split; [done|by constructor].
  - destruct (closed c); (split; [done|]); [|done]. by intros b s' [= <- <-].
Qed.

Lemma tame_emit {A} i h (P : A -> Prop) (k : unit -> prog S A) : tame P (k tt) -> tame P (Atom _ (emit i h) k).
Proof. by apply tame_modConn. Qed.

Lemma tame_Close {A} i (P : A -> Prop) (k : unit -> prog S A) : tame P (k tt) -> tame P (Atom _ (Close i) k).
Proof. by apply tame_modConn. Qed.

Lemma tame_GrantCredit {A} i n (P : A -> Prop) (k : unit -> prog S A) : tame P (k tt) -> tame P (Atom _ (GrantCredit i n) k).
Proof. by apply tame_modConn. Qed.

Lemma tame_WriteFrames i hdr bufs rel : length (Key hdr) = 32%nat -> tame fine (WriteFrames i hdr bufs rel).
Proof.
  intros Hk. apply tame_emit, tame_ofConn. intros c _. destruct (closed c); [apply tame_fire|].
  apply tame_enqueue; [done|]. intros [|]; [done|apply tame_fire].
Qed.

Lemma tame_writeRespFlags i h flags bufs rel : tame fine (writeRespFlags i h flags bufs rel).
Proof. apply tame_ofSession. intros x _. by apply tame_WriteFrames. Qed.

Lemma tame_writeResp i h body : tame fine (writeResp i h body).
Proof. apply tame_writeRespFlags. Qed.

Lemma tame_respondStatus i h st : tame fine (respondStatus i h st).
Proof. apply tame_writeRespFlags. Qed.

Lemma tame_Abort i st : tame fine (Abort i st).
Proof.
  apply tame_emit. apply tame_modConn; [|by apply tame_Close]. intros c [Hm Hq]. case_if; [|done]. split; [done|]. apply Forall_app.
  split; [done|by constructor].
Qed.

Lemma tame_respondError i h st : tame fine (respondError i h st).
Proof. apply tame_emit. by apply tame_enqueue. Qed.

(** ** HELLO *)

Lemma fits_slice (b : bytes) : len b <= CapMaxFrameLen -> BodyFacts.slice_fits iw b.
Proof.
  intros Hl. pose proof (BodyFacts.key_cap_ok_int _ _ Hkeys) as Hw. unfold BodyFacts.slice_fits. change CapMaxFrameLen with (2 ^ 30) in Hl. destruct Hw as [-> | ->]; lia.
Qed.

Lemma tame_fatalHello i h st : tame fine (fatalHello i h st).
Proof. eapply tame_bind; [by apply tame_WriteFrames|]. intros _ _. by apply tame_Close. Qed.

Lemma tame_handleHello i h body : len body <= CapMaxFrameLen -> tame fine (handleHello cfg iw sha256 i h body).
Proof.
  intros Hl. apply tame_must; [apply BodyFacts.helloReq_total; [by eapply BodyFacts.key_cap_ok_int|by apply fits_slice]|].
  intros [req err] Ereq. apply tame_GrantCredit. case_bool_decide as He; [apply tame_fatalHello|]. case_if; [apply tame_fatalHello|].
  assert (err = None) as -> by (destruct err; [by exfalso; eauto|done]).
  apply (tame_skip _ _ _ fine); [done|by intros s b s' [= _ <-]|]. intros [id okay] _. case_if; [apply tame_fatalHello|].
  destruct (SrvSafe.hello_limits iw body req Ereq) as [Hk Hm].
  pose proof (SrvSafe.negotiated_ok cfg req Hcfg Hk Hm) as (_ & [_ Hf] & _).
  pose proof (BodyFacts.negotiate_limits_post (WireLimits cfg) _ _ (co_limits _ Hcfg) Hk Hm) as (_ & _ & Hb & _).
  apply tame_modConn; [by intros c [_ Hq]; split|]. apply tame_modSession; [done|]. apply tame_writeResp.
Qed.

(** ** Verbs *)

Lemma tame_decodeKeys i h body : len body <= CapMaxFrameLen -> tame fine (decodeKeys iw i h body).
Proof.
  intros Hl. apply tame_ofSession. intros x Hx. apply tame_must.
  - destruct (BodyFacts.keylist_strict iw (Body.MaxBatchKeys (limits x)) body []) as (aux & out & err & -> & _); [|by apply fits_slice|done].
    destruct Hkeys as [->|[-> Hk]]; [by left|right]. split; [done|]. unfold session_ok in Hx. lia.
  - intros [[aux keys] err] _. apply tame_GrantCredit. destruct err; [|done]. eapply tame_bind; [apply tame_respondStatus|done].
Qed.

Lemma tame_handleBatchExists i h body : len body <= CapMaxFrameLen -> tame fine (handleBatchExists iw i h body).
Proof.
  intros Hl. eapply tame_bind; [by apply tame_decodeKeys|]. intros [[aux keys]|] _; [|done]. apply tame_ofSession. intros x _.
  eapply tame_bind; [apply tame_calling, ts_ExistsPrefix|]. intros [nc pk] _. apply tame_writeResp.
Qed.

Lemma tame_perKey (f : bytes -> prog S Z) keys : (forall key, tame fine (f key)) -> tame fine (perKey f keys).
Proof.
  intros Hf. induction keys as [|key keys IH]; [done|]. eapply tame_bind; [apply Hf|]. intros st _. by eapply tame_bind; [apply IH|].
Qed.

Lemma tame_keyStatus i h n ttl key : tame fine (keyStatus i h n ttl key).
Proof.
  unfold keyStatus. pose proof ts_lifecycle as Hlc. destruct bs_lifecycle as [lc|].
  - destruct (Hlc lc eq_refl) as [Ht Hp]. case_if; by apply tame_calling.
  - by eapply tame_bind; [apply tame_calling, ts_Contains|].
Qed.

Lemma tame_handleKeyStatusVerb i h body : len body <= CapMaxFrameLen -> tame fine (handleKeyStatusVerb iw i h body).
Proof.
  intros Hl. unfold handleKeyStatusVerb. case_if; [apply tame_GrantCredit, tame_respondStatus|].
  eapply tame_bind; [by apply tame_decodeKeys|]. intros [[ttl keys]|] _; [|done]. apply tame_ofSession. intros x _.
  eapply tame_bind; [apply tame_perKey; intros; apply tame_keyStatus|]. intros sts _. apply tame_writeResp.
Qed.

Lemma tame_handleDelete i h body : len body <= CapMaxFrameLen -> tame fine (handleDelete iw i h body).
Proof.
  intros Hl. eapply tame_bind; [by apply tame_decodeKeys|]. intros [[aux keys]|] _; [|done]. apply tame_ofSession. intros x _.
  eapply tame_bind; [apply tame_perKey; intros; apply tame_calling, ts_Delete|]. intros sts _. apply tame_writeResp.
Qed.

Lemma tame_handleStats i h body : tame fine (handleStats scopeStatsToNS i h body).
Proof.
  apply tame_must; [apply BodyFacts.put_stats_total|]. intros [v err] _. apply tame_GrantCredit. destruct err; [apply tame_respondStatus|].
  apply tame_ofSession. intros x _. eapply tame_bind; [apply tame_calling, ts_Stats|]. intros doc _. apply tame_writeResp.
Qed.

(** ** GET *)

Definition lengths (bufs : list bytes) : Z := foldr (fun b n => len b + n) 0 bufs.

Lemma lengths_app l k : lengths (l ++ k) = lengths l + lengths k.
Proof. unfold lengths. induction l as [|b l IH]; cbn; [lia|]. rewrite IH. lia. Qed.

Lemma lengths_payload (a : tierAnswer hold) : lengths (payloadOf a) = blockLen a.
Proof.
  destruct a as [data sum r t|st]; cbn; [|done]. pose proof (len_nonneg data). destruct (0 <? len data) eqn:E; cbn; lia.
Qed.

(** The size of a response frame's payload. *)
Definition frameLen (descs : list Body.Desc) (bufs : list bytes) : Z := Body.GetRespHeaderSize (len descs) + lengths bufs.

(** A frame takes keys from the front, one at least, and is within the cap unless
    it is a single block's. *)
Definition packed (maxFrame : Z) (keys : list bytes) (res : list Body.Desc * list bytes * list hold * list bytes) : Prop :=
  let '(descs, bufs, _, rest) := res in
  exists taken, keys = taken ++ rest /\ length descs = length taken /\ taken <> [] /\
    (length taken = 1%nat \/ frameLen descs bufs <= maxFrame).

Lemma tame_fetch i n key : tame fine (fetch i n key).
Proof.
  eapply (tame_bind _ fine).
  - pose proof ts_Get as Hg. destruct bs_Get as [f|f|f]; [by apply tame_calling|..]. all: eapply tame_bind; [by apply tame_calling|done].
  - intros [data sum [h|] tier|st] _; try done. by apply tame_put.
Qed.

Lemma tame_pack i n maxFrame all : forall keys seen descs bufs rels,
  all = seen ++ keys -> length descs = length seen -> seen = [] \/ length seen = 1%nat \/ frameLen descs bufs <= maxFrame ->
  (seen = [] -> keys <> []) ->
  tame (packed maxFrame all) (pack i n maxFrame keys descs bufs rels (lengths bufs)).
Proof.
  induction keys as [|key keys IH]; intros seen descs bufs rels Ea Hl Hf Hne; cbn [pack].
  - assert (seen <> []) as Hs by (intros ->; by apply Hne). exists seen. split_and!; try done. by destruct Hf.
  - eapply tame_bind; [apply tame_fetch|]. intros a _.
    destruct ((0 <? len descs) && _) eqn:E.
    + apply andb_prop in E as [Hp%Z.ltb_lt _]. assert (seen <> []) as Hs by (intros ->; by destruct descs).
      eapply tame_bind; [apply tame_fire|]. intros _ _. exists seen. split_and!; try done. by destruct Hf.
    + replace (lengths bufs + blockLen a) with (lengths (bufs ++ payloadOf a)) by (by rewrite lengths_app, lengths_payload).
      apply (IH (seen ++ [key])); [by rewrite <- app_assoc|rewrite !length_app; cbn; lia| |by destruct seen].
      right. apply andb_false_iff in E as [E%Z.ltb_ge|E%Z.ltb_ge].
      * left. pose proof (len_nonneg descs). assert (descs = []) as -> by (apply len_zero_nil; lia). by destruct seen.
      * right. unfold frameLen. rewrite lengths_app, lengths_payload, len_app, len_cons, len_nil. rewrite Z.add_0_r. lia.
Qed.

Lemma tame_getFrames i h n maxFrame total : forall fuel keys,
  (length keys <= fuel)%nat -> tame fine (getFrames fuel i h n maxFrame total keys).
Proof.
  induction fuel as [|fuel IH]; intros keys Hl; (destruct keys as [|key keys]; [done|]); cbn in Hl; [lia|]. cbn [getFrames].
  eapply tame_bind; [by apply (tame_pack i n maxFrame (key :: keys) (key :: keys) [] [] [] []); [..|left|]|].
  intros [[[descs bufs] rels] left] (taken & Et & _ & Hne & _). apply tame_must; [rewrite BodyFacts.getRespHeader_layout; eauto|].
  intros region _. eapply tame_bind; [apply tame_writeRespFlags|]. intros _ _. apply IH. apply (f_equal length) in Et.
  rewrite length_app in Et. destruct taken; [done|]. cbn in Et. lia.
Qed.

Lemma tame_handleBatchGet i h body : len body <= CapMaxFrameLen -> tame fine (handleBatchGet iw i h body).
Proof.
  intros Hl. eapply tame_bind; [by apply tame_decodeKeys|]. intros [[aux keys]|] _; [|done]. apply tame_ofSession. intros x _.
  case_bool_decide; [|by apply tame_getFrames]. apply tame_must; [rewrite BodyFacts.getRespHeader_layout; eauto|].
  intros region _. apply tame_writeRespFlags.
Qed.

(** ** PUT *)

Lemma chunk_limits h body now (x : session) : limits (chunkLocked h body now x) = limits x.
Proof. by destruct (SrvTable.chunk_kept x h body now) as (_ & _ & ? & _). Qed.

Lemma tame_beginLocked i h b sealed : tame fine (beginLocked i h b sealed).
Proof.
  apply tame_ofSession. intros x _. case_if; [done|]. case_if; [done|]. case_if; [done|].
  eapply (tame_bind _ fine).
  { unfold probe. pose proof ts_quota as Hq. destruct bs_quota; [by apply tame_calling..|done]. }
  intros okay _. case_if; [done|]. apply tame_ofSession. intros y _. destruct (_ || _); [done|]. apply tame_ask. intros now.
  by apply tame_modSession.
Qed.

Lemma tame_putBegin i h body : tame fine (putBegin i h body).
Proof.
  apply tame_must; [apply BodyFacts.put_stats_total|]. intros [b err] _. apply tame_GrantCredit. destruct err; [apply tame_respondStatus|].
  apply tame_ofSession. intros x _. eapply tame_bind; [apply tame_calling, ts_Contains|]. intros sealed _.
  apply tame_locked, tame_modSession; [done|]. eapply tame_bind; [apply tame_beginLocked|]. intros st _.
  eapply tame_bind; [apply tame_respondStatus|]. intros _ _. by apply tame_modSession.
Qed.

Lemma tame_putChunk i h body : tame fine (putChunk i h body).
Proof.
  apply tame_locked, tame_now. intros now. apply tame_modSession; [|by apply tame_GrantCredit].
  intros x. unfold session_ok. by rewrite chunk_limits.
Qed.

Lemma tame_commitStream i (st : putStream hasher) sum : tame fine (commitStream i st sum).
Proof.
  eapply tame_bind; [apply tame_calling, ts_Put|]. intros status _. eapply (tame_bind _ fine); [|done]. destruct (_ && _); [|done].
  pose proof ts_lifecycle as Hlc. destruct bs_lifecycle as [lc|]; [|done]. destruct (Hlc lc eq_refl) as [Ht _].
  by eapply tame_bind; [apply tame_calling|].
Qed.

Lemma tame_putCommit i h body : tame fine (putCommit i h body).
Proof.
  apply tame_must; [apply BodyFacts.put_stats_total|]. intros [sum err] _. apply tame_GrantCredit. destruct err; [apply tame_respondStatus|].
  apply tame_locked, tame_onSession. intros x Hx. split; [unfold commitLocked; by repeat case_match|].
  destruct (commitLocked _ _).1 as [st|]; [|apply tame_respondStatus]. case_if; [apply tame_respondStatus|].
  case_if; [apply tame_respondStatus|]. eapply tame_bind; [apply tame_commitStream|]. intros status _. apply tame_respondStatus.
Qed.

Lemma tame_handlePutStream i h body : tame fine (handlePutStream i h body).
Proof.
  unfold handlePutStream. case_if; [apply tame_putBegin|]. case_if; [apply tame_putChunk|]. case_if; [apply tame_putCommit|].
  case_if; [|apply tame_GrantCredit, tame_respondStatus]. apply tame_GrantCredit, tame_locked, tame_onSession.
  intros x Hx. split; [unfold abortLocked; by repeat case_match|apply tame_respondStatus].
Qed.

Lemma tame_HandleFrame i h body : len body <= CapMaxFrameLen -> tame fine (HandleFrame cfg iw sha256 scopeStatsToNS i h body).
Proof.
  intros Hl. assert (forall st, tame fine (_ ⇐ consume i h; respondStatus i h st)) as Hst by (intros; apply tame_GrantCredit, tame_respondStatus).
  apply tame_ofSession. intros x _. case_if; [case_if; [by apply tame_handleHello|apply tame_GrantCredit, tame_Abort]|].
  case_if; [apply Hst|]. case_if; [by apply tame_GrantCredit|]. case_if; [apply Hst|]. case_if; [by apply tame_handleBatchExists|].
  case_if; [by apply tame_handleBatchGet|]. case_if; [apply tame_handlePutStream|]. case_if; [by apply tame_handleKeyStatusVerb|].
  case_if; [by apply tame_handleDelete|]. case_if; [apply tame_handleStats|apply Hst].
Qed.

(** ** The loops *)

Abbreviation HandleFrame := (HandleFrame cfg iw sha256 scopeStatsToNS).

Lemma tame_readFull {A} n inp (P : A -> Prop) (k : option (bytes * bytes) -> prog S A) :
  tame P (k None) -> (forall b rest, len b <= Z.max 0 n -> n <= len inp -> rest = drop (Z.to_nat n) inp -> tame P (k (Some (b, rest)))) ->
  tame P (Atom _ (readFull n inp) k).
Proof.
  intros Hn Hs. apply (tame_skip _ _ _ (fun o => match o with
    Some (b, rest) => len b <= Z.max 0 n /\ n <= len inp /\ rest = drop (Z.to_nat n) inp | None => True end)).
  - done.
  - intros s b s'. unfold readFull, mbind, act_bind. cbn. intros [= <- <-]. split_and!; try done.
    destruct (_ || _) eqn:E; [done|]. apply orb_false_iff in E as [_ E%Z.ltb_ge]. split_and!; try done. unfold len. rewrite length_take. lia.
  - intros [[b rest]|]; [intros (? & ? & ?); auto|auto].
Qed.

Lemma tame_discard {A} n inp (P : A -> Prop) (k : option bytes -> prog S A) :
  tame P (k None) -> (forall rest, (length rest <= length inp)%nat -> tame P (k (Some rest))) -> tame P (Atom _ (discard n inp) k).
Proof.
  intros Hn Hk. apply (tame_skip _ _ _ (fun o => match o with Some rest => (length rest <= length inp)%nat | None => True end)).
  - done.
  - intros s b s'. unfold discard, mbind, act_bind. cbn. intros [= <- <-]. split_and!; try done. destruct (ioFails _); [done|].
    rewrite length_drop. lia.
  - intros [rest|]; auto.
Qed.

(** What is left of the input, when the loop goes on. *)
Definition shorter (inp : bytes) (o : option bytes) : Prop := match o with Some rest => (length rest <= length inp)%nat | None => True end.

Lemma tame_readBody i h inp : PayloadLen h <= CapMaxFrameLen -> tame (shorter inp) (readBody HandleFrame i h inp).
Proof.
  intros Hl. apply tame_modSession; [intros x; unfold session_ok; by repeat case_if|]. apply tame_readFull; [by apply tame_GrantCredit|].
  intros body rest Hb _ ->. eapply tame_bind; [apply tame_HandleFrame; change CapMaxFrameLen with (2 ^ 30) in *; lia|].
  intros _ _. cbn. rewrite length_drop. lia.
Qed.

Lemma tame_route i h over inp :
  (over = false -> PayloadLen h <= CapMaxFrameLen) -> tame (shorter inp) (route HandleFrame i h over inp).
Proof.
  intros Hl. unfold route. case_if; [by apply tame_discard|].
  assert (forall st, tame (shorter inp) (d ⇐ discard (PayloadLen h) inp; _ ⇐ GrantCredit i (PayloadLen h);
    match d with None => mret None | Some inp => respondError i h st;; mret (Some inp) end)) as Hdrop.
  { intros st. apply tame_discard; [by apply tame_GrantCredit|]. intros d Hd. apply tame_GrantCredit. eapply tame_bind; [apply tame_respondError|done]. }
  destruct over; [apply tame_modConn; [done|apply Hdrop]|]. apply tame_onConn. intros c Hc.
  destruct (Credit.Consume _ _) as [v w]. split; [done|]. cbn [fst snd]. destruct v; [by apply tame_readBody, Hl|apply Hdrop|].
  assert (tame (shorter inp) (_ ⇐ GrantCredit i (PayloadLen h); Abort i StatusErrBusy;; mret None)) as Hab.
  { apply tame_GrantCredit. eapply tame_bind; [apply tame_Abort|done]. }
  by apply tame_discard.
Qed.

Lemma tame_readFrame i inp :
  tame (fun o => match o with Some rest => (length rest < length inp)%nat | None => True end) (readFrame HandleFrame i inp).
Proof.
  apply tame_readFull; [done|]. intros hb rest _ Hlen ->. apply tame_ofConn. intros c [Hc _].
  destruct (HdrFacts.parse_header_verdict hb (maxPayload c)) as (h & e & Eh & _). rewrite Eh. apply tame_must; [by eexists|].
  intros [h' e'] [= <- <-]. lazy beta iota zeta. destruct (_ && _) eqn:Ef; [eapply tame_bind; [apply tame_Abort|done]|].
  eapply tame_bind; [apply tame_route|].
  - intros Ho. apply bool_decide_eq_false in Ho. destruct e as [e|].
    + apply andb_false_iff in Ef as [Ef|Ef]; [by apply bool_decide_eq_false in Ef; exfalso; eauto|].
      by apply negb_false_iff, bool_decide_eq_true in Ef.
    + destruct (SrvLoops.parsed_len _ _ _ _ Eh) as [_ Hle]; [by left|]. specialize (Hle eq_refl). lia.
  - intros [left|] Hle; [|done]. apply tame_modConn; [done|]. cbn in *. rewrite length_drop in Hle.
    unfold HeaderSize, len in *. lia.
Qed.

Lemma tame_readLoop i : tame fine (readLoop HandleFrame i).
Proof.
  apply tame_onConn. intros c Hc. split; [by destruct (decide (reader c = RIdle))|]. destruct (decide (reader c = RIdle)); [|done].
  cbn [fst snd]. eapply (tame_bind _ fine); [|intros _ _; by apply tame_Close, tame_modConn].
  assert (length (input c) < Datatypes.S (length (input c)))%nat as Hlt by lia. revert Hlt.
  generalize (Datatypes.S (length (input c))) as fuel. intros fuel. generalize (input c) as inp.
  induction fuel as [|fuel IH]; intros inp Hlt; [lia|]. cbn [readRounds]. eapply tame_bind; [apply tame_readFrame|].
  intros [left|] Hle; [apply IH; lia|done].
Qed.

(** ** The write loop *)

Lemma tame_recv {A} i (P : A -> Prop) (k : option writeReq -> prog S A) :
  tame P (k None) -> (forall r, keyed r -> tame P (k (Some r))) -> tame P (Atom _ (recv i) k).
Proof.
  intros Hn Hs. apply tame_onConn. intros c [Hm Hq]. destruct (wq c) as [|r q] eqn:E; cbn.
  - split; [by split; rewrite ?E|done].
  - apply Forall_cons in Hq as [Hr Hq]. split; [done|by apply Hs].
Qed.

Lemma tame_coalesce i : forall fuel reqs total, Forall keyed reqs -> tame (Forall keyed) (coalesce cfg fuel i reqs total).
Proof.
  induction fuel as [|fuel IH]; intros reqs total Hr; cbn [coalesce]; [done|]. case_if; [|done]. apply tame_recv; [done|].
  intros r Hk. apply IH, Forall_app. split; [done|by constructor].
Qed.

Lemma vectors_some reqs credit : Forall keyed reqs -> is_Some (vectors reqs credit).
Proof.
  revert credit. induction reqs as [|r reqs IH]; intros credit Hk; [by eexists|]. apply Forall_cons in Hk as [Hr Hk].
  cbn. unfold vectorOf. pose proof (HdrFacts.marshal_layout (set_Credit credit (w_hdr r)) (zeros 64) []) as Hm.
  rewrite app_nil_r in Hm. rewrite Hm by done. cbn. destruct (IH 0 Hk) as [vs ->]. by eexists.
Qed.

Lemma tame_writeTo {A} i bufs (P : A -> Prop) (k : bool -> prog S A) : (forall b, tame P (k b)) -> tame P (Atom _ (writeTo i bufs) k).
Proof.
  intros Hk s Hs. pose proof (tame_modConn i (fun c => set_wire (wire c ++ (if ioFails (tick s) then take (ioTaken (tick s)) (concat bufs) else concat bufs)) c) fine
    (fun _ => Done tt)) as Hw. specialize (Hw ltac:(done) Logic.I (set_tick (Datatypes.S (tick s)) s)).
  assert (ok (set_tick (Datatypes.S (tick s)) s)) as Hs' by (by destruct Hs). destruct (Hw Hs') as [Hp Hn].
  unfold writeTo, mbind, act_bind. cbn. destruct (modConn _ _ _) as [[] s1| | |]; try done. split; [done|].
  intros b s' [= <- <-]. split; [by apply (Hn tt s1)|apply Hk].
Qed.

Lemma window_shorter chunk : forall bufs n, (length (window chunk n bufs).2 <= length bufs)%nat.
Proof.
  induction bufs as [|b bufs IH]; intros n; cbn; [lia|]. destruct (n <? chunk); [|done]. specialize (IH (n + len b)).
  destruct (window chunk (n + len b) bufs). cbn in *. lia.
Qed.

Lemma tame_writeWindows i chunk : 0 < chunk -> forall fuel bufs, (length bufs <= fuel)%nat -> tame fine (writeWindows fuel i chunk bufs).
Proof.
  intros Hc. induction fuel as [|fuel IH]; intros [|b bufs] Hl; try done; cbn in Hl; [lia|]. cbn [writeWindows].
  pose proof (window_shorter chunk bufs (0 + len b)) as Hw. cbn [window]. rewrite (proj2 (Z.ltb_lt 0 chunk) Hc).
  destruct (window chunk (0 + len b) bufs) as [v left]. apply tame_writeTo. intros [|]; [|done]. apply IH. cbn in Hw. lia.
Qed.

Lemma tame_flushBy i reqs : Forall keyed reqs -> tame fine (flushBy cfg i reqs).
Proof.
  intros Hr. apply tame_onConn. intros c Hc. destruct (Credit.TakeGrant _) as [g w]. split; [done|]. cbn [fst snd].
  apply tame_must; [by apply vectors_some|]. intros bufs _. eapply (tame_bind _ fine).
  - unfold writeVector. destruct (WriteChunkBytes cfg <=? 0) eqn:Ec; [by apply tame_writeTo|]. apply Z.leb_gt in Ec. by apply tame_writeWindows.
  - intros okay _. eapply tame_bind; [apply tame_fire|done].
Qed.

Lemma tame_setWriter {A} i p (P : A -> Prop) (k : unit -> prog S A) : tame P (k tt) -> tame P (Atom _ (setWriter i p) k).
Proof. by apply tame_modConn. Qed.

Lemma tame_flushed i okay : tame fine (flushed i okay).
Proof. destruct okay; [|apply tame_Close]; by apply tame_setWriter. Qed.

Lemma tame_enter {A} i p p' (P : A -> Prop) (k : bool -> prog S A) :
  (forall b, tame P (k b)) ->
  tame P (Atom _ (onConn i (fun c => if decide (writer c = p) then (true, set_writer p' c) else (false, c))) k).
Proof. intros Hk. apply tame_onConn. intros c Hc. split; [by destruct (decide (writer c = p))|apply Hk]. Qed.

Lemma tame_writeIteration i case : tame fine (writeIteration cfg i case).
Proof.
  apply tame_enter. intros [|]; [|done]. destruct case; cbn [negb].
  - apply tame_recv; [by apply tame_setWriter|]. intros r Hr. eapply tame_bind; [apply tame_coalesce; by constructor|].
    intros reqs Hreqs. eapply tame_bind; [by apply tame_flushBy|]. intros okay _. apply tame_flushed.
  - apply tame_ofConn. intros c _. case_if; [|by apply tame_setWriter]. eapply tame_bind; [apply tame_flushBy; by constructor|].
    intros okay _. apply tame_flushed.
  - apply tame_ofConn. intros c _. by apply tame_setWriter.
Qed.

Lemma tame_drainRound i : tame fine (drainRound cfg i).
Proof.
  apply tame_enter. intros [|]; [|done]. cbn [negb]. apply tame_recv; [by apply tame_setWriter|]. intros r Hr.
  eapply tame_bind; [apply tame_flushBy; by constructor|]. intros okay _. by apply tame_setWriter.
Qed.

Lemma tame_teardown i : tame fine (teardown i).
Proof.
  apply tame_onConn. intros c Hc. destruct (_ && _ && _); (split; [done|]); [|done]. cbn [fst snd]. generalize (Datatypes.S (length (wq c))) as fuel.
  intros fuel. induction fuel as [|fuel IH]; [done|]. cbn [finalDrain]. apply tame_recv; [by apply tame_modConn|].
  intros r _. eapply tame_bind; [apply tame_fire|]. by intros _ _.
Qed.

Lemma sweep_limits now timeout (x : session) : limits (sweepStreams now timeout x) = limits x.
Proof.
  unfold sweepStreams. generalize ((map_to_list (streams x)).*1) as ids. intros ids. revert x.
  induction ids as [|id ids IH]; intros x; [done|]. cbn. rewrite IH. unfold sweepOne. by repeat case_match.
Qed.

Lemma tame_reaperTick i : tame fine (reaperTick cfg i).
Proof.
  apply tame_ofConn. intros c _. case_if; [done|]. apply tame_locked, tame_now. intros now. apply tame_modSession; [|done].
  intros x Hx. unfold session_ok. by rewrite sweep_limits.
Qed.

(** ** The server *)

Lemma tame_waitDone {A} i (P : A -> Prop) (k : unit -> prog S A) : tame P (k tt) -> tame P (Atom _ (waitDone i) k).
Proof.
  intros Hk. apply (tame_skip _ _ _ fine); [..|by intros []].
  - intros s. unfold waitDone. by repeat case_match.
  - intros s b s'. unfold waitDone. repeat case_match; try done. by intros [= _ <-].
Qed.

Lemma conn_ok_new inp : conn_ok (startConn cfg inp).
Proof. split; [|done]. by apply SrvLife.preNegCap_range. Qed.

Lemma tame_Accept {A} inp (P : A -> Prop) (k : option nat -> prog S A) :
  (forall o, tame P (k o)) -> tame P (Atom _ (Accept cfg inp) k).
Proof.
  intros Hk s [Hc Hx Ht]. assert (forall i c, <[nextConn s := startConn cfg inp]> (conns s) !! i = Some c -> conn_ok c) as Hc'.
  { intros i c. rewrite lookup_insert_Some. intros [[_ <-]|[_ Hi]]; [apply conn_ok_new|eauto]. }
  assert (forall i x, <[nextConn s := newSession cfg]> (sessions s) !! i = Some x -> session_ok x) as Hx'.
  { intros i x. rewrite lookup_insert_Some. intros [[_ <-]|[_ Hi]]; [apply Z.le_refl|eauto]. }
  unfold Accept. repeat case_if; (split; [done|]); intros o s' [= <- <-]; (split; [by split|apply Hk]).
Qed.

Lemma tame_acceptRound inp : tame fine (acceptRound cfg inp).
Proof.
  apply (tame_skip _ _ _ fine).
  - intros s. by repeat case_match.
  - intros s b s' E. repeat case_match; try done; by injection E as <- <-.
  - intros [|] _; [|done]. cbn [negb]. apply tame_Accept. intros [i|]; [|by apply tame_put]. apply (tame_skip _ _ _ fine).
    + intros s. unfold track. by case_if.
    + intros s b s'. unfold track. case_if; by intros [= <- <-].
    + intros [|] _; [by apply tame_put|]. by apply tame_Close, tame_waitDone, tame_put.
Qed.

Lemma tame_doneOr {A} ready (P : A -> Prop) (k : bool -> prog S A) : (forall b, tame P (k b)) -> tame P (Atom _ (doneOr ready) k).
Proof.
  intros Hk. apply (tame_skip _ _ _ fine); [..|by intros b _].
  - intros s. unfold doneOr. by repeat case_match.
  - intros s b s'. unfold doneOr. repeat case_match; try done; by intros [= _ <-].
Qed.

Lemma tame_shutdown : tame fine (shutdown (St := St)).
Proof.
  eapply (tame_bind _ fine).
  - apply tame_put; [done|]. apply (tame_skip _ _ _ fine); [done|by intros s b s' [= _ <-]|]. intros cs _.
    eapply tame_bind; [apply tame_forEach; intros; by apply tame_Close|]. intros _ _.
    eapply (tame_bind _ fine); [|intros [|] _; [by apply tame_doneOr|done]].
    induction cs as [|i cs IH]; [done|]. apply tame_doneOr. intros [|]; [apply IH|done].
  - intros [|] _; [by apply tame_put|done].
Qed.

Lemma handler_tame e : tame fine (handler cfg iw sha256 scopeStatsToNS e).
Proof.
  assert (forall (p : prog S unit) r, tame fine p -> tame fine (p;; mret r : prog S reply)) as Hthen.
  { intros p r Hp. by eapply tame_bind; [exact Hp|]. }
  destruct e; cbn [handler].
  - apply Hthen, tame_acceptRound.
  - apply (tame_skip _ _ _ fine); [..|done].
    + intros s. unfold acceptFails. by repeat case_match.
    + intros s b s'. unfold acceptFails. repeat case_match; try done; by intros [= _ <-].
  - apply Hthen, tame_readLoop.
  - apply Hthen, tame_writeIteration.
  - apply Hthen, tame_drainRound.
  - apply Hthen, tame_teardown.
  - apply Hthen, tame_reaperTick.
  - by apply tame_Close.
  - by apply Hthen, tame_waitDone, tame_put.
  - apply (tame_skip _ _ _ fine); [..|done].
    + intros s. unfold freeSlot. by repeat case_match.
    + intros s b s'. unfold freeSlot. repeat case_match; try done; by intros [= _ <-].
  - by apply tame_put.
  - by apply tame_put.
  - eapply tame_bind; [apply tame_shutdown|done].
Qed.

Lemma ok_New st r : ts_inv st -> ok (New st r).
Proof. intros Ht. split; [set_solver..|done]. Qed.

End Tame.
End SrvTame.
