(* ===== verification/ServerSpec.v ===== *)
(** What a running server guarantees, in every state that peers, tenants and the
    operator can drive it to, under every interleaving of its goroutines. *)

From Stdlib Require Import ZArith Lia.
From coqutil Require Import Byte Word.LittleEndianList.
From stdpp Require Import base numbers list gmap sets strings.
From S2P Require Import Prelude.
From S2P Require Import Conc.
From S2P Require Import Wire.
From S2P Require Import Bodies.
From S2P Require Import Tenant.
From S2P Require Import Credit.
From S2P Require Import ServerState.
From S2P Require Import Transport.
From S2P Require Import Session.
From S2P Require Import Server.
From S2P Require Import ServerInv.
From S2P Require Import ServerTable.
From S2P Require Import ServerActs.
Import Conc Ops Hdr Srv Transport Session Server SrvInv SrvTable SrvActs.
From S2P Require Import ServerMoves.
From S2P Require Import ServerLife.
From S2P Require Import ServerSafe.
From S2P Require Import ServerLoops.
From S2P Require Import ServerTame.
Import Conc Ops Hdr Srv Transport Session Server SrvInv.
Open Scope Z_scope.

Module SrvSpec.

Section Spec.
Context {St : Type} `{BS : !BlockStore St} `{XX : !Xxh3} `{HA : !Hasher} `{NE : !Net}.
Context (cfg : Config) (iw : Z) (sha256 : bytes -> bytes) (scopeStatsToNS : bytes -> Z -> bytes).

Abbreviation S := (Server St hold hasher).

(** The states of a server that starts on [st] with the tenants of [r]. *)
Definition serves (st : St) (r : Registry.Registry) (c : conf (S := S) (R := reply)) : Prop :=
  config_ok cfg /\ Registry.reg_ok r /\ reachable (handler cfg iw sha256 scopeStatsToNS) (fun _ => true) (New st r) c.

Lemma serves_inv st r c : serves st r c -> exists l, Inv cfg iw sha256 l (shared c) /\ (finished c -> l = []).
Proof. intros (Hcfg & Hr & Hc). by eapply SrvLoops.server_inv. Qed.

Lemma serves_peer st r c i conn :
  serves st r c -> conns (shared c) !! i = Some conn -> exists rs ws es ks x, sessions (shared c) !! i = Some x /\ peer_ok cfg rs ws es ks conn x.
Proof.
  intros (l & Hi & _)%serves_inv Hc. assert (is_Some (sessions (shared c) !! i)) as [x Hx] by (apply (iv_dom _ _ _ _ _ Hi); eauto).
  do 5 eexists. split; [done|]. by apply (iv_peer _ _ _ _ _ Hi).
Qed.

(** C6: tenants are isolated: every call the server makes into the store for a
    connection, of any verb, is in the namespace of credentials that the registry
    accepts and that this connection itself sent in a HELLO frame. *)
Theorem session_isolation st r c i k :
  serves st r c -> (i, k) ∈ calls (shared c) ->
  exists conn name token, conns (shared c) !! i = Some conn /\ presented iw (input conn) name token /\
    Registry.Authenticate sha256 (reg (shared c)) name token = (callNS k, true).
Proof.
  intros (l & Hi & _)%serves_inv Hk. destruct (iv_calls _ _ _ _ _ Hi i k Hk) as (x & Hx & Ha & -> & _).
  assert (is_Some (conns (shared c) !! i)) as [conn Hc] by (apply (iv_dom _ _ _ _ _ Hi); eauto).
  destruct (iv_auth _ _ _ _ _ Hi i conn x Hc Hx Ha) as (name & token & Hp & He). eauto 6.
Qed.

(** C7: the store is given only verified blocks: whatever way a PUT stream was cut
    into chunks and interleaved with others, the bytes that are committed have the
    checksum they are committed with, and are within the agreed blob limit. *)
Theorem put_commits_verified st r c i n key data sum :
  serves st r c -> (i, CPut n key data sum) ∈ calls (shared c) ->
  xxh3 data = sum /\ exists x, sessions (shared c) !! i = Some x /\ ns x = n /\ len data <= Body.MaxBlobLen (limits x).
Proof.
  intros (l & Hi & _)%serves_inv Hk. destruct (iv_calls _ _ _ _ _ Hi i _ Hk) as (x & Hx & Ha & Hn & Hs & Hl). eauto.
Qed.

(** C9: credit is conserved: the bytes outstanding are those of the frame at hand,
    none between frames, all others were granted back, and what was stamped into
    headers plus what is pending is exactly what was granted (counters are 64 bits
    wide); a peer within its frame limit never has a strike against it. *)
Theorem credit_conserved st r c i conn :
  serves st r c -> conns (shared c) !! i = Some conn ->
  let w := credit conn in
  Credit.consumed w = u64 (Credit.granted w + Credit.outstanding w) /\ u64 (sent conn + Credit.pending w) = Credit.granted w /\
  Credit.strikes w = 0 /\ (reader conn <> RRunning -> Credit.outstanding w = 0).
Proof.
  intros Hs Hc w. destruct (serves_peer _ _ _ _ _ Hs Hc) as (rs & ws & es & ks & x & _ & Hp).
  destruct (pr_reader _ _ _ _ _ _ _ Hp) as (n & part & Hb & _ & Hr). destruct Hb as [Eo _ _ _ _ Et Es Ek]. subst w.
  rewrite Eo. split_and!; try done. intros Hn. rewrite decide_False in Hr by done. by destruct Hr as (_ & -> & _).
Qed.

(** C23: a connection's PUT streams stay within their caps, and the counters that
    enforce the caps are exact: live streams, table entries and staged bytes; and
    a stream never holds more than it declared. *)
Theorem stream_caps st r c i x :
  serves st r c -> sessions (shared c) !! i = Some x ->
  liveStreams x = msum liveOne (streams x) /\ liveStreams x <= maxLiveStreams /\
  Z.of_nat (size (streams x)) <= maxStreamEntries /\
  stagedBytes x = msum staged (streams x) /\ stagedBytes x <= maxStagedPerConn /\
  forall id st, streams x !! id = Some st -> staged st <= totalLen st <= Body.MaxBlobLen (limits x) /\ (tombstoned st = true -> staged st = 0).
Proof.
  intros (l & Hi & _)%serves_inv Hx. assert (is_Some (conns (shared c) !! i)) as [conn Hc] by (apply (iv_dom _ _ _ _ _ Hi); eauto).
  pose proof (iv_peer _ _ _ _ _ Hi i conn x Hc Hx) as [_ _ _ _ _ _ _ _ _ [Hst Hl Hsb Hlc He Hbc]]. split_and!; try done.
  intros id st' Hid. destruct (Hst id st' Hid) as (_ & [Ht0 Ht] & _ & Hd). unfold staged. destruct (tombstoned st').
  - destruct Hd as [-> _]. done.
  - split; [|done]. revert Hd. unfold digest_ok. destruct (buf st') as [[b cp]|]; [|done]. by intros (_ & _ & ? & _).
Qed.

(** C21: every request gets its answer: the responses a connection makes are, in the
    order of the requests, nothing to a NOP or a PUT chunk, a fatal report, or a run
    of frames that echo opcode and request id of which exactly the last does not say
    that more follow; once the read loop rests, only a fatal report can be over. *)
Theorem responses_answer st r c i conn :
  serves st r c -> conns (shared c) !! i = Some conn ->
  exists fss part, Forall2 answers (served conn) fss /\ emitted conn = concat fss ++ part /\
    (reader conn <> RRunning -> part = [] \/ exists f, part = [f] /\ fatalReport f).
Proof.
  intros Hs Hc. destruct (serves_peer _ _ _ _ _ Hs Hc) as (rs & ws & es & ks & x & _ & Hp).
  destruct (pr_reader _ _ _ _ _ _ _ Hp) as (n & part & _ & (fss & Ha & Ee) & Hr). exists fss, part. split_and!; try done.
  intros Hn. rewrite decide_False in Hr by done. by destruct Hr as (_ & _ & _ & ?).
Qed.

Lemma queued_empty (m : gmap nat (Conn hold)) : (forall i c, m !! i = Some c -> wq c = []) -> queued m = [].
Proof.
  intros Hm. unfold queued. assert (forall p, p ∈ map_to_list m -> queuedOf p = []) as Hq.
  { intros [i c] Hin%elem_of_map_to_list. unfold queuedOf. cbn. by rewrite (Hm i c Hin). }
  induction (map_to_list m) as [|p ps IH]; [done|]. cbn. rewrite (Hq p) by (by left). apply IH. intros q Hin. apply Hq. by right.
Qed.

(** C20: the references a GET takes on blocks are given back exactly once: never more
    than were taken, and, when the connections are finished and no goroutine is left,
    all of them. *)
Theorem holds_returned st r c :
  serves st r c ->
  (exists out, acquired (shared c) ≡ₚ released (shared c) ++ out) /\
  (finished c -> all_done (shared c) -> acquired (shared c) ≡ₚ released (shared c)).
Proof.
  intros Hs. destruct (serves_inv _ _ _ Hs) as (l & Hi & Hl). pose proof (iv_holds _ _ _ _ _ Hi) as Hh. split; [eauto|].
  intros Hf Hd. rewrite (Hl Hf) in Hh. rewrite queued_empty, !app_nil_r in Hh; [done|]. intros i conn Hc.
  assert (is_Some (sessions (shared c) !! i)) as [x Hx] by (apply (iv_dom _ _ _ _ _ Hi); eauto).
  apply (pr_done _ _ _ _ _ _ _ (iv_peer _ _ _ _ _ Hi i conn x Hc Hx)). by apply (Hd i).
Qed.

(** C8: the store is not used after it is closed: a shutdown closes it only when the
    accept loop has returned and every connection is finished, and from then on no
    goroutine enters it. *)
Theorem store_unused_after_close st r c :
  serves st r c ->
  touched (shared c) = false /\ (storeClosed (shared c) = true -> accepting (shared c) = AEnded /\ all_done (shared c)).
Proof. intros (l & Hi & _)%serves_inv. by destruct Hi. Qed.

(** C22: no goroutine of the server panics, whatever bytes its peers send: every
    action that is next is one that runs, waits, or ends; given a store whose
    methods do not panic and a batch cap the platform's integers can hold. *)
Theorem server_never_panics `{TS : !TameStore St} st r c i B m k :
  serves st r c -> BodyFacts.key_cap_ok iw (Body.MaxBatchKeys (WireLimits cfg)) -> ts_inv st ->
  threads c !! i = Some (Atom B m k) -> m (shared c) <> Panicked.
Proof.
  intros (Hcfg & _ & Hc) Hk Ht. by apply (pool_tame (SrvTame.ok cfg) (handler cfg iw sha256 scopeStatsToNS) (fun _ => true) (New st r));
    [intros e; apply SrvTame.handler_tame|apply SrvTame.ok_New|].
Qed.

(** C35: a GET is cut into frames in the order of its keys: each takes the next keys,
    at least one, with one descriptor for each, and is within the frame limit unless
    it carries a single block; whatever else happens to the store meanwhile. *)
Theorem get_packing `{TS : !TameStore St} i n maxFrame keys :
  keys <> [] -> tame (SrvTame.ok cfg) (SrvTame.packed maxFrame keys) (pack i n maxFrame keys [] [] [] 0).
Proof. intros Hk. by apply (SrvTame.tame_pack cfg i n maxFrame keys keys [] [] [] []); [..|left|]. Qed.

End Spec.
End SrvSpec.
