(* ===== verification/RamStub.v ===== *)
(** The in-heap store for bringing up the wire path:
    [internal/store/ramstub/ramstub.go], as a store the server can dispatch to. *)

From Stdlib Require Import ZArith Lia.
From coqutil Require Import Byte Word.LittleEndianList.
From stdpp Require Import base numbers list gmap sets strings pretty.
From S2P Require Import Prelude.
From S2P Require Import Conc.
From S2P Require Import Wire.
From S2P Require Import ServerState.
From S2P Require Import ServerTame.
Import Conc Ops.
Open Scope Z_scope.
Open Scope conc_scope.

Module RamStub.

Definition shardCount : Z := 256.

(** [blockKey]: the namespace and the 32 bytes of the key. *)
Abbreviation blockKey := (Z * bytes)%type.

Record entry := mkEntry { e_data : bytes; e_xxh3 : Z }.

Abbreviation shard := (gmap blockKey entry).
Abbreviation Store := (list shard).

Definition New : Store := replicate (Z.to_nat shardCount) ∅.

(** [k.key[0]]; a key has 32 bytes. *)
Definition shardOf (key : bytes) : nat := match key with b :: _ => Z.to_nat (byte.unsigned b) | [] => O end.

(** What runs under a shard's lock. *)
Definition onShard {B} (key : bytes) (f : shard -> B * shard) : act Store B := fun st =>
  match st !! shardOf key with
  | Some m => let (b, m) := f m in Next b (<[shardOf key := m]> st)
  | None => Panicked
  end.

Definition find (n : Z) (key : bytes) : act Store (option entry) := onShard key (fun m => (m !! (n, key), m)).

Definition has (o : option entry) : bool := match o with Some _ => true | None => false end.

(** The loop over the keys; [broken] is [consecutiveDone]. *)
Fixpoint existsLoop (n : Z) (withBitmap : bool) (keys : list bytes) (nConsec : Z) (broken : bool) (perKey : list Z)
    : prog Store (Z * list Z) :=
  match keys with
  | [] => mret (nConsec, perKey)
  | key :: keys =>
      if broken && negb withBitmap then mret (nConsec, perKey) else
      o ⇐ find n key;
      let goOn := has o && negb broken in
      existsLoop n withBitmap keys (if goOn then u32 (nConsec + 1) else nConsec) (negb goOn)
        (perKey ++ [if has o then StatusOK else StatusNotFound])
  end.

Definition ExistsPrefix (n : Z) (keys : list bytes) (withBitmap : bool) : prog Store (Z * option (list Z)) :=
  '(c, perKey) ← existsLoop n withBitmap keys 0 false [];
  mret (c, if withBitmap then Some perKey else None).

Definition Get (n : Z) (key : bytes) : prog Store (option (bytes * Z)) :=
  o ⇐ find n key; mret ((fun e => (e_data e, e_xxh3 e)) <$> o).

Definition Put (n : Z) (key data : bytes) (sum : Z) : prog Store Z :=
  st ⇐ onShard key (fun m =>
         match m !! (n, key) with
         | Some e => (if e_xxh3 e =? sum then StatusOKExists else StatusErrImmutableConflict, m)
         | None => (StatusOK, <[(n, key) := mkEntry data sum]> m)
         end);
  mret st.

Definition Contains (n : Z) (key : bytes) : prog Store bool := o ⇐ find n key; mret (has o).

Definition Delete (n : Z) (key : bytes) (force : bool) : prog Store Z :=
  hit ⇐ onShard key (fun m => (has (m !! (n, key)), delete (n, key) m));
  mret (if hit : bool then StatusOK else StatusNotFound).

(** [json.Marshal] of the document: an object with its keys in order. *)
Definition quote (b : bytes) : bytes := [Byte.x22] ++ b ++ [Byte.x22].
Definition jsonField (name : string) (value : bytes) : bytes := quote (String.list_byte_of_string name) ++ [Byte.x3a] ++ value.
Definition jsonNum (z : Z) : bytes := String.list_byte_of_string (pretty z).
Definition jsonObject (fields : list bytes) : bytes :=
  [Byte.x7b] ++ (match fields with [] => [] | f :: fs => f ++ concat ((fun f => Byte.x2c :: f) <$> fs) end) ++ [Byte.x7d].

Definition statsDoc (blocks bytes : Z) : Prelude.bytes :=
  jsonObject
    [jsonField "blocks" (jsonNum blocks); jsonField "bytes" (jsonNum bytes);
     jsonField "note" (quote (String.list_byte_of_string "temporary in-heap store; DRAM/NVMe/S3 tiers not yet wired"));
     jsonField "schema" (jsonNum 1); jsonField "shard_count" (jsonNum shardCount);
     jsonField "store" (quote (String.list_byte_of_string "ramstub"))].

Definition shardTotals (j : nat) : act Store (Z * Z) := fun st =>
  match st !! j with
  | Some m => Next (Z.of_nat (size m), msum (fun e => len (e_data e)) m) st
  | None => Panicked
  end.

Fixpoint statsLoop (js : list nat) (blocks bytes : Z) : prog Store (Z * Z) :=
  match js with
  | [] => mret (blocks, bytes)
  | j :: js => '(b, n) ⇐ shardTotals j; statsLoop js (blocks + b) (u64 (bytes + n))
  end.

Definition Stats : prog Store Prelude.bytes :=
  '(blocks, bytes) ← statsLoop (seq 0 (Z.to_nat shardCount)) 0 0;
  mret (statsDoc blocks bytes).

(** It has no leases, no quotas, and nothing to release. *)
#[export] Instance ramStore : BlockStore Store := {|
  hold := Empty_set;
  bs_ExistsPrefix := ExistsPrefix;
  bs_Get := ByCopy Get;
  bs_release := fun h => match h with end;
  bs_Put := Put;
  bs_Contains := Contains;
  bs_Delete := Delete;
  bs_Stats := Stats;
  bs_lifecycle := None;
  bs_quota := NoProbe
|}.

(** ** What it stores *)

(** All shards are there, and each block is in the shard of its key. *)
Definition store_ok (st : Store) : Prop :=
  length st = Z.to_nat shardCount /\ forall j m n key e, st !! j = Some m -> m !! (n, key) = Some e -> shardOf key = j.

Lemma shardOf_bound key : (shardOf key < Z.to_nat shardCount)%nat.
Proof. unfold shardOf, shardCount. destruct key as [|b key]; [lia|]. pose proof (byte.unsigned_range b). lia. Qed.

Lemma New_ok : store_ok New.
Proof.
  split; [apply length_replicate|]. intros j m n key e Hj. apply lookup_replicate in Hj as [-> _]. by rewrite lookup_empty.
Qed.

(** The store as a map. *)
Definition abs (st : Store) (n : Z) (key : bytes) : option entry := st !! shardOf key ≫= fun m => m !! (n, key).

Lemma shard_there st key : store_ok st -> exists m, st !! shardOf key = Some m.
Proof. intros [Hl _]. apply lookup_lt_is_Some_2. rewrite Hl. apply shardOf_bound. Qed.

Lemma store_ok_insert st key m :
  store_ok st -> (forall n k e, m !! (n, k) = Some e -> shardOf k = shardOf key) -> store_ok (<[shardOf key := m]> st).
Proof.
  intros [Hl Hs] Hm. split; [by rewrite length_insert|]. intros j m' n k e Hj Hk. apply list_lookup_insert_Some in Hj as [(<- & <- & _)|[_ Hj]]; eauto.
Qed.

Lemma abs_insert st key m n k :
  store_ok st -> abs (<[shardOf key := m]> st) n k = if decide (shardOf key = shardOf k) then m !! (n, k) else abs st n k.
Proof.
  intros Hs. destruct (shard_there st key Hs) as [m0 Hm0]. unfold abs. case_decide as E.
  - rewrite E in *. rewrite list_lookup_insert_eq; [done|]. by eapply lookup_lt_Some.
  - by rewrite list_lookup_insert_ne.
Qed.

Lemma onShard_ok {B : Type} (key : bytes) (f : shard -> B * shard) (st : Store) :
  store_ok st -> exists m, st !! shardOf key = Some m /\ onShard key f st = Next (f m).1 (<[shardOf key := (f m).2]> st).
Proof.
  intros Hs. destruct (shard_there st key Hs) as [m Hm]. exists m. split; [done|]. unfold onShard. rewrite Hm. by destruct (f m).
Qed.

Lemma find_ok n key st : store_ok st -> find n key st = Next (abs st n key) st.
Proof.
  intros Hs. destruct (onShard_ok key (fun m => (m !! (n, key), m)) st Hs) as (m & Hm & E). unfold find. rewrite E. cbn.
  rewrite list_insert_id by done. unfold abs. by rewrite Hm.
Qed.

(** A map that is written once: [Put] adds a block only where there is none,
    [Get] and [Contains] read it, [Delete] removes it, and none of them touches
    another block. *)
Theorem ramstub_write_once st n key data sum force n' key' (Hs : store_ok st) :
  (exists st', alone (Put n key data sum) st =
     Next (match abs st n key with
           | None => StatusOK
           | Some e => if e_xxh3 e =? sum then StatusOKExists else StatusErrImmutableConflict
           end) st' /\ store_ok st' /\
     abs st' n' key' = match abs st n key with
                       | None => if decide ((n, key) = (n', key')) then Some (mkEntry data sum) else abs st n' key'
                       | Some _ => abs st n' key'
                       end) /\
  alone (Get n key) st = Next ((fun e => (e_data e, e_xxh3 e)) <$> abs st n key) st /\
  alone (Contains n key) st = Next (has (abs st n key)) st /\
  (exists st', alone (Delete n key force) st = Next (if has (abs st n key) then StatusOK else StatusNotFound) st' /\ store_ok st' /\
     abs st' n' key' = if decide ((n, key) = (n', key')) then None else abs st n' key').
Proof.
  destruct (shard_there st key Hs) as [m Hm].
  assert (abs st n key = m !! (n, key)) as Ea by (unfold abs; by rewrite Hm).
  assert (forall n' k e, m !! (n', k) = Some e -> shardOf k = shardOf key) as Hin by (intros; eapply (proj2 Hs); eauto).
  assert (shardOf key = shardOf key' -> abs st n' key' = m !! (n', key')) as Ea' by (unfold abs; intros <-; by rewrite Hm).
  split_and!.
  - unfold Put. cbn. unfold onShard. rewrite Hm. rewrite Ea. destruct (m !! (n, key)) as [e|] eqn:E; cbn.
    + eexists. split; [done|]. by rewrite list_insert_id.
    + eexists. split; [done|]. split.
      * apply store_ok_insert; [done|]. intros n0 k e. rewrite lookup_insert_Some. intros [[[= <- <-] _]|[_ Hk]]; eauto.
      * rewrite abs_insert by done. case_decide as Esh.
        { rewrite Ea' by done. case_decide as Ek; [by rewrite Ek, lookup_insert_eq|by rewrite lookup_insert_ne]. }
        rewrite decide_False; [done|]. intros [= <- <-]. done.
  - unfold Get. cbn. by rewrite find_ok.
  - unfold Contains. cbn. by rewrite find_ok.
  - unfold Delete. cbn. unfold onShard. rewrite Hm, Ea. cbn. eexists. split; [done|]. split.
    + apply store_ok_insert; [done|]. intros n0 k e. rewrite lookup_delete_Some. intros [_ Hk]. eauto.
    + rewrite abs_insert by done. case_decide as Esh.
      { rewrite Ea' by done. case_decide as Ek; [by rewrite Ek, lookup_delete_eq|by rewrite lookup_delete_ne]. }
      rewrite decide_False; [done|]. intros [= <- <-]. done.
Qed.

(** ** It does not panic *)

Lemma tame_onShard {A B : Type} (key : bytes) (f : shard -> B * shard) (P : A -> Prop) (k : B -> prog Store A) :
  (forall m : shard, (forall n x e, m !! (n, x) = Some e -> shardOf x = shardOf key) ->
     forall n x e, (f m).2 !! (n, x) = Some e -> shardOf x = shardOf key) ->
  (forall b, tame store_ok P (k b)) -> tame store_ok P (Atom B (onShard key f) k).
Proof.
  intros Hf Hk st Hs. destruct (onShard_ok key f st Hs) as (m & Hm & E). rewrite E. split; [done|]. intros b st' [= <- <-].
  split; [|apply Hk]. apply store_ok_insert; [done|]. apply Hf. intros n x e Hx. by eapply (proj2 Hs).
Qed.

Lemma tame_find {A : Type} (n : Z) (key : bytes) (P : A -> Prop) (k : option entry -> prog Store A) :
  (forall o, tame store_ok P (k o)) -> tame store_ok P (Atom _ (find n key) k).
Proof. apply tame_onShard. auto. Qed.

Lemma tame_existsLoop n withBitmap : forall keys c broken perKey, tame store_ok (fun _ => True) (existsLoop n withBitmap keys c broken perKey).
Proof.
  induction keys as [|key keys IH]; intros c broken perKey; [done|]. cbn [existsLoop]. destruct (broken && negb withBitmap); [done|].
  apply tame_find. intros o. apply IH.
Qed.

Lemma tame_statsLoop : forall js blocks bytes, (forall j, j ∈ js -> (j < Z.to_nat shardCount)%nat) ->
  tame store_ok (fun _ => True) (statsLoop js blocks bytes).
Proof.
  induction js as [|j js IH]; intros blocks bytes Hj; [done|]. intros st Hs. unfold shardTotals.
  destruct (lookup_lt_is_Some_2 st j) as [m ->]; [rewrite (proj1 Hs); apply Hj; by left|]. split; [done|].
  intros b st' [= <- <-]. split; [done|]. apply IH. intros j' Hj'. apply Hj. by right.
Qed.

#[export] Instance ramTame : TameStore Store.
Proof.
  apply (Build_TameStore _ _ store_ok); cbn [bs_ExistsPrefix bs_Get bs_release bs_Put bs_Contains bs_Delete bs_Stats bs_lifecycle bs_quota ramStore]; try done.
  - intros n keys b. eapply tame_bind; [apply tame_existsLoop|]. by intros [c perKey] _.
  - intros n key. by apply tame_find.
  - intros n key data sum. apply tame_onShard; [|done]. intros m Hm n' x e. destruct (m !! (n, key)); [apply Hm|].
    cbn. rewrite lookup_insert_Some. intros [[[= <- <-] _]|[_ Hx]]; eauto.
  - intros n key. by apply tame_find.
  - intros n key force. apply tame_onShard; [|done]. intros m Hm n' x e. cbn. rewrite lookup_delete_Some. intros [_ Hx]. eauto.
  - eapply tame_bind; [apply tame_statsLoop|by intros [b n] _]. intros j Hj. apply elem_of_seq in Hj. lia.
Defined.

End RamStub.
