(* ===== verification/ServerDemo.v ===== *)
(** A concrete run of the server: one client says HELLO, puts a block in two
    chunks, reads it back, and leaves; then the server shuts down. Its states are
    ones the guarantees of [ServerSpec] apply to. *)

From Stdlib Require Import ZArith Lia.
From coqutil Require Import Byte Word.LittleEndianList.
From stdpp Require Import base numbers list gmap sets strings.
From S2P Require Import Prelude.
From S2P Require Import Conc.
From S2P Require Import Wire.
From S2P Require Import Bodies.
From S2P Require Import Tenant.
From S2P Require Import Credit.
From S2P Require Import ServerState.
From S2P Require Import Transport.
From S2P Require Import Session.
From S2P Require Import Server.
From S2P Require Import ServerInv.
From S2P Require Import ServerTame.
From S2P Require Import ServerSpec.
From S2P Require Import RamStub.
Import Conc Ops Hdr Srv Transport Session Server SrvInv SrvSpec.
Open Scope Z_scope.

Module SrvDemo.

(** A hash that can be fed in pieces. *)
Definition mix (a : Z) (b : byte) : Z := (a * 31 + byte.unsigned b + 1) mod 2 ^ 64.

#[local] Instance demoXxh3 : Xxh3.
Proof.
  refine {| xxh3 := foldl mix 7 |}. intros b. induction b as [|x b _] using rev_ind; [by split|].
  rewrite foldl_app. cbn. by apply Z.mod_pos_bound.
Defined.

#[local] Instance demoHasher : Hasher.
Proof.
  refine {| hasher := Z; hNew := 7; hWrite := foldl mix; hSum64 := id |}.
  intros l. cbn. generalize 7. induction l as [|b l IH]; intros a; [done|]. cbn. by rewrite IH, foldl_app.
Defined.

(** A network without faults. *)
#[local] Instance demoNet : Net := {| ioFails := fun _ => false; ioTaken := fun _ => O; pick := fun _ => false; nowAt := Z.of_nat |}.

Definition demoCfg : Config := mkConfig Body.DefaultLimits 30000 300000 30000 0 262144 0 0.

Lemma demo_cfg : config_ok demoCfg.
Proof. repeat split; vm_compute; (reflexivity || discriminate). Qed.

#[local] Existing Instance RamStub.ramStore.
#[local] Existing Instance RamStub.ramTame.

(** With the in-heap store itself: a peer has connected and the accept loop is
    about to take the connection. *)
Definition knocking : conf (S := Server RamStub.Store hold hasher) (R := reply) :=
  mkConf (New RamStub.New RegistryFacts.sampleLoaded) [handler demoCfg 64 RegistryFacts.toyHash (fun doc _ => doc) (EAccept [Byte.x00])].

Lemma knocking_serves : serves demoCfg 64 RegistryFacts.toyHash (fun doc _ => doc) RamStub.New RegistryFacts.sampleLoaded knocking.
Proof.
  split; [exact demo_cfg|split].
  - apply (RegistryFacts.loadEntries_spec RegistryFacts.toyHash RegistryFacts.sampleEntries Registry.emptyRegistry); [apply Registry.emptyRegistry_ok|reflexivity].
  - apply rtc_once, (step_spawn _ _ (mkConf (New RamStub.New RegistryFacts.sampleLoaded) []) (EAccept [Byte.x00])).
Qed.

Lemma server_never_panics_witness :
  exists B m k, threads knocking !! O = Some (Atom B m k) /\ m (shared knocking) <> Panicked.
Proof.
  do 3 eexists. split; [reflexivity|].
  eapply (server_never_panics demoCfg 64 RegistryFacts.toyHash (fun doc _ => doc) RamStub.New RegistryFacts.sampleLoaded knocking O);
    [exact knocking_serves|left; reflexivity|exact RamStub.New_ok|reflexivity].
Defined.

Lemma get_packing_witness :
  tame (SrvTame.ok demoCfg) (SrvTame.packed (St := RamStub.Store) 100 [zeros 32; zeros 32]) (pack O 1 100 [zeros 32; zeros 32] [] [] [] 0).
Proof. apply (get_packing demoCfg O 1 100 [zeros 32; zeros 32]). discriminate. Defined.

(** The in-heap store, with references that are counted by the server only. *)
Definition heldGet (n : Z) (key : bytes) : prog RamStub.Store (option (bytes * Z * bytes)) :=
  RamStub.Get n key ≫= fun o => Done (match o with Some (data, sum) => Some (data, sum, key) | None => None end).

#[local] Instance heldStore : BlockStore RamStub.Store := {|
  hold := bytes;
  bs_ExistsPrefix := RamStub.ExistsPrefix;
  bs_Get := ByRef heldGet;
  bs_release := fun _ => Done tt;
  bs_Put := RamStub.Put;
  bs_Contains := RamStub.Contains;
  bs_Delete := RamStub.Delete;
  bs_Stats := RamStub.Stats;
  bs_lifecycle := None;
  bs_quota := NoProbe
|}.

Definition frame (op flags req : Z) (key body : bytes) : bytes :=
  match MarshalTo (mkHeader (zeros 4) 0 op flags 0 0 req key (len body) 0) (zeros 64) with Some b => b | None => [] end ++ body.

Definition demoKey : bytes := Byte.x05 :: zeros 31.
Definition demoData : bytes := [Byte.x01; Byte.x02; Byte.x03; Byte.x04; Byte.x05].
Definition demoSum : Z := Eval vm_compute in xxh3 demoData.

(** What the client sends. *)
Definition demoInput : bytes :=
  frame OpHello 0 1 (zeros 32) (Body.AppendHelloReq 64 [] (Body.mkHelloReq 1 1 0 0 0 [Byte.x41] [Byte.x61] [])) ++
  frame OpPutStream (WithSubOp 0 PutBegin) 2 demoKey (Body.AppendPutBegin [] (Body.mkPutBeginBody 5 0 0 0)) ++
  frame OpPutStream (WithSubOp 0 PutChunk) 2 demoKey (take 3 demoData) ++
  frame OpPutStream (WithSubOp 0 PutChunk) 2 demoKey (drop 3 demoData) ++
  frame OpPutStream (WithSubOp 0 PutCommit) 2 demoKey (Body.AppendPutCommit [] demoSum) ++
  frame OpBatchGet 0 3 (zeros 32) (Body.AppendKeyList [] 0 [demoKey; zeros 32]).

Abbreviation demoHandler := (handler demoCfg 64 RegistryFacts.toyHash (fun doc _ => doc)).

(** The schedule; the accept loop sees the closed listener in the middle of the
    shutdown. *)
Definition demoRun : list (cmd (E := event)) :=
  [Spawn (EAccept demoInput); Finish 0; Spawn (ERead 0); Finish 1;
   Spawn (EWrite 0 FrameReady); Finish 2; Spawn (EWrite 0 ClosedSeen); Finish 3; Spawn (EWriteDrain 0); Finish 4;
   Spawn (ETeardown 0); Finish 5; Spawn EShutdown; Step 6; Spawn EAcceptFails; Finish 7; Finish 6].

Definition demoStart : conf (S := Server RamStub.Store hold hasher) (R := reply) :=
  mkConf (New RamStub.New RegistryFacts.sampleLoaded) [].

Definition demoEnd : conf (S := Server RamStub.Store hold hasher) (R := reply) :=
  match play demoHandler (fun _ => true) 2000 demoRun demoStart with Some c => c | None => demoStart end.

Lemma demo_plays : play demoHandler (fun _ => true) 2000 demoRun demoStart = Some demoEnd.
Proof.
  assert (match play demoHandler (fun _ => true) 2000 demoRun demoStart with Some _ => true | None => false end = true) as E
    by (vm_compute; reflexivity).
  revert E. unfold demoEnd. destruct (play demoHandler (fun _ => true) 2000 demoRun demoStart); [intros _; reflexivity|discriminate].
Qed.

Lemma demo_serves : serves demoCfg 64 RegistryFacts.toyHash (fun doc _ => doc) RamStub.New RegistryFacts.sampleLoaded demoEnd.
Proof.
  split; [exact demo_cfg|split].
  - apply (RegistryFacts.loadEntries_spec RegistryFacts.toyHash RegistryFacts.sampleEntries Registry.emptyRegistry); [apply Registry.emptyRegistry_ok|reflexivity].
  - exact (play_steps _ _ _ _ _ _ demo_plays).
Qed.

(** The store calls of the run, the last first. *)
Lemma demo_calls : calls (shared demoEnd) =
  [(O, CGet 1 (zeros 32)); (O, CGet 1 demoKey); (O, CPut 1 demoKey demoData demoSum); (O, CContains 1 demoKey)].
Proof. vm_compute. reflexivity. Qed.

Definition demoConn : Conn hold := match conns (shared demoEnd) !! O with Some c => c | None => startConn demoCfg [] end.
Definition demoSession : session hasher := match sessions (shared demoEnd) !! O with Some x => x | None => newSession demoCfg end.

Lemma demo_conn : conns (shared demoEnd) !! O = Some demoConn.
Proof. vm_compute. reflexivity. Qed.

Lemma demo_session : sessions (shared demoEnd) !! O = Some demoSession.
Proof. vm_compute. reflexivity. Qed.

Lemma session_isolation_witness :
  exists conn name token, conns (shared demoEnd) !! O = Some conn /\ presented 64 (input conn) name token /\
    Registry.Authenticate RegistryFacts.toyHash (reg (shared demoEnd)) name token = (1, true).
Proof.
  apply (session_isolation demoCfg 64 RegistryFacts.toyHash (fun doc _ => doc) RamStub.New RegistryFacts.sampleLoaded demoEnd O
    (CPut 1 demoKey demoData demoSum)); [exact demo_serves|]. rewrite demo_calls. do 2 right. left.
Defined.

Lemma put_commits_verified_witness :
  xxh3 demoData = demoSum /\ exists x, sessions (shared demoEnd) !! O = Some x /\ ns x = 1 /\ len demoData <= Body.MaxBlobLen (limits x).
Proof.
  apply (put_commits_verified demoCfg 64 RegistryFacts.toyHash (fun doc _ => doc) RamStub.New RegistryFacts.sampleLoaded demoEnd O
    1 demoKey demoData demoSum); [exact demo_serves|]. rewrite demo_calls. do 2 right. left.
Defined.

Lemma credit_conserved_witness :
  Credit.consumed (credit demoConn) = u64 (Credit.granted (credit demoConn) + Credit.outstanding (credit demoConn)) /\
  u64 (sent demoConn + Credit.pending (credit demoConn)) = Credit.granted (credit demoConn) /\
  Credit.strikes (credit demoConn) = 0 /\ (reader demoConn <> RRunning -> Credit.outstanding (credit demoConn) = 0).
Proof.
  exact (credit_conserved demoCfg 64 RegistryFacts.toyHash (fun doc _ => doc) RamStub.New RegistryFacts.sampleLoaded demoEnd O demoConn
    demo_serves demo_conn).
Defined.

Lemma stream_caps_witness :
  liveStreams demoSession = msum liveOne (streams demoSession) /\ liveStreams demoSession <= maxLiveStreams /\
  Z.of_nat (size (streams demoSession)) <= maxStreamEntries /\
  stagedBytes demoSession = msum staged (streams demoSession) /\ stagedBytes demoSession <= maxStagedPerConn /\
  forall id st, streams demoSession !! id = Some st ->
    staged st <= totalLen st <= Body.MaxBlobLen (limits demoSession) /\ (tombstoned st = true -> staged st = 0).
Proof.
  exact (stream_caps demoCfg 64 RegistryFacts.toyHash (fun doc _ => doc) RamStub.New RegistryFacts.sampleLoaded demoEnd O demoSession
    demo_serves demo_session).
Defined.

Lemma responses_answer_witness :
  exists fss part, Forall2 answers (served demoConn) fss /\ emitted demoConn = concat fss ++ part /\
    (reader demoConn <> RRunning -> part = [] \/ exists f, part = [f] /\ fatalReport f).
Proof.
  exact (responses_answer demoCfg 64 RegistryFacts.toyHash (fun doc _ => doc) RamStub.New RegistryFacts.sampleLoaded demoEnd O demoConn
    demo_serves demo_conn).
Defined.

(** One reference was taken, on the block that was found. *)
Lemma holds_returned_witness :
  acquired (shared demoEnd) = [(O, demoKey)] /\
  (exists out, acquired (shared demoEnd) ≡ₚ released (shared demoEnd) ++ out) /\
  (finished demoEnd -> all_done (shared demoEnd) -> acquired (shared demoEnd) ≡ₚ released (shared demoEnd)).
Proof.
  split; [vm_compute; reflexivity|].
  exact (holds_returned demoCfg 64 RegistryFacts.toyHash (fun doc _ => doc) RamStub.New RegistryFacts.sampleLoaded demoEnd demo_serves).
Defined.

Lemma store_unused_after_close_witness :
  storeClosed (shared demoEnd) = true /\ touched (shared demoEnd) = false /\
  (storeClosed (shared demoEnd) = true -> accepting (shared demoEnd) = AEnded /\ all_done (shared demoEnd)).
Proof.
  split; [vm_compute; reflexivity|].
  exact (store_unused_after_close demoCfg 64 RegistryFacts.toyHash (fun doc _ => doc) RamStub.New RegistryFacts.sampleLoaded demoEnd demo_serves).
Defined.

(** ** Reserved memory *)

(** A client that begins nine streams of the largest block and sends one byte of
    each. *)
Definition hoardInput : bytes :=
  frame OpHello 0 1 (zeros 32) (Body.AppendHelloReq 64 [] (Body.mkHelloReq 1 1 0 0 0 [Byte.x41] [Byte.x61] [])) ++
  concat ((fun id =>
    frame OpPutStream (WithSubOp 0 PutBegin) id demoKey (Body.AppendPutBegin [] (Body.mkPutBeginBody DefaultMaxBlobLen 0 0 0)) ++
    frame OpPutStream (WithSubOp 0 PutChunk) id demoKey [Byte.x00]) <$> [2; 3; 4; 5; 6; 7; 8; 9; 10]).

Definition hoardRun : list (cmd (E := event)) := [Spawn (EAccept hoardInput); Finish 0; Spawn (ERead 0); Finish 1].

Definition hoardEnd : conf (S := Server RamStub.Store hold hasher) (R := reply) :=
  match play demoHandler (fun _ => true) 2000 hoardRun demoStart with Some c => c | None => demoStart end.

Lemma hoard_plays : play demoHandler (fun _ => true) 2000 hoardRun demoStart = Some hoardEnd.
Proof.
  assert (match play demoHandler (fun _ => true) 2000 hoardRun demoStart with Some _ => true | None => false end = true) as E
    by (vm_compute; reflexivity).
  revert E. unfold hoardEnd. destruct (play demoHandler (fun _ => true) 2000 hoardRun demoStart); [intros _; reflexivity|discriminate].
Qed.

Definition hoardSession : session hasher := match sessions (shared hoardEnd) !! O with Some x => x | None => newSession demoCfg end.

(** C36: the staging cap counts the bytes that arrived, not the memory reserved for
    them: nine one-byte chunks of maximal streams reserve 288 MiB, over the cap of
    256 MiB per connection, while the counter stands at nine. *)
Theorem staging_reserve_uncapped :
  serves demoCfg 64 RegistryFacts.toyHash (fun doc _ => doc) RamStub.New RegistryFacts.sampleLoaded hoardEnd /\
  sessions (shared hoardEnd) !! O = Some hoardSession /\ stagedBytes hoardSession = 9 /\
  msum reserved (streams hoardSession) = 9 * DefaultMaxBlobLen /\ maxStagedPerConn < msum reserved (streams hoardSession).
Proof.
  split; [|split; [|split; [|split]]]; [|vm_compute; reflexivity..].
  destruct demo_serves as (Hcfg & Hr & _). split; [done|]. split; [done|]. exact (play_steps _ _ _ _ _ _ hoard_plays).
Qed.

End SrvDemo.
